(* ===== verification/_CoqProject ===== *)
-Q . S2P
Prelude.v
Text.v
JsDate.v
JsMap.v
Limits.v
RpcErrors.v
Lifecycle.v
HttpFraming.v
HttpHead.v
Sse.v
PoolCore.v
PoolBackend.v
Pool.v
PoolSafety.v
PoolRefine.v
PoolTheorems.v
Network.v
DockerIgnore.v
Json.v
Payload.v
Ports.v
Launch.v
PoolConfig.v
RateLimit.v
Tokens.v
Readiness.v
Reconnect.v
Calls.v
CallsEnd.v
Listing.v
Paginator.v
Encoding.v
Output.v
CommandRequests.v
CommandHandle.v
GitArgs.v
Git.v
Persistence.v
Staging.v
TransferClient.v
SecretNames.v
SecretStore.v
SecretCache.v
SecretEnvs.v
ImagePrune.v
McpLease.v
Scaling.v
FleetBase.v
Fleet.v
FleetSafety.v
IndexTable.v
MountPath.v
Configure.v
Mounts.v
Sandbox.v
SandboxSafety.v
SandboxEnds.v
SandboxNetwork.v
