(* ===== verification/Prelude.v ===== *)
(** * Rayito: a verification of the TypeScript SDK's decision logic

    Rayito runs code in micro-VMs.  Its TypeScript SDK
    (src/clients/typescript/src, the root of every path below) decides when a
    sandbox is launched, kept, suspended, renewed and given up, and speaks three
    text protocols on the way.  This library models those decisions as they are
    written and proves what makes them correct.  The remote services (the AWS
    control plane, the agent [rayd] inside a sandbox, the file system) are
    environments that may answer, fail or crash at every call.

    ** The parts and how they interact

    A caller asks [Sandbox.create()] for a sandbox or a [SandboxPool] for a parked
    one.  Both compute a launch plan (Launch.v) out of the lifecycle plan
    (Lifecycle.v), the run-hook payload (Payload.v, over the JSON text of Json.v) and
    the ports of the proxy token (Ports.v), with the network policy of Network.v;
    PoolConfig.v validates a pool's configuration and derives the launch options of
    its slots.  Calls to the control plane go through the token bucket of
    RateLimit.v.  Once launched, the handle mints proxy tokens and renews them
    (Tokens.v), waits for the agent (Readiness.v), reads the failures of its RPCs
    (RpcErrors.v), reconnects after a cut (Reconnect.v) and decides whether a request
    or a stream is sent again (Calls.v).  Sandbox.v composes them: [create()], with the
    network policy, the sections of [ConfigureSandbox] (Configure.v; mounts and volumes in
    Mounts.v and MountPath.v), the row of the index and the home, and the operations of a
    handle.  The pool (Pool.v) parks
    suspended sandboxes as records (PoolCore.v) in a backend (PoolBackend.v).  The
    sandboxes of an account are listed by pages (Listing.v, Paginator.v).  The
    dashboard's proxy reads and rewrites HTTP/1.1 heads (HttpHead.v) and frames
    bodies (HttpFraming.v); the agent's events are a server-sent stream (Sse.v); the
    context of a template is filtered by a [.dockerignore] (DockerIgnore.v).  Inside
    a sandbox, commands and terminals are asked for (CommandRequests.v), read across
    cuts (CommandHandle.v) and their output kept (Output.v); [git] is driven by such
    commands (GitArgs.v, Git.v).  The home of a sandbox is kept in S3 (Persistence.v),
    and large files go through a staging area of a bucket (Staging.v, TransferClient.v).
    Secrets live in Secrets Manager (SecretNames.v, SecretStore.v), are kept in memory for a
    while (SecretCache.v) and reach a process as environment variables (SecretEnvs.v).
    Old versions of an image are deleted by a plan (ImagePrune.v).  The MCP server
    leases one sandbox to its tools (McpLease.v).  A served agent runs on a fleet of
    machines (Scaling.v, FleetBase.v, Fleet.v).

    ** The files

    - Prelude: errors ([errors.ts]), JavaScript values, guards, shared lemmas.
    - Text: strings as lists of code units or code points, with the string methods
      the parts use.  JsDate: dates and ISO texts.  JsMap: a [Map], in insertion
      order.
    - Limits ([limits.ts], [models.ts]): the limits, the validation of idle policies.
    - RpcErrors ([transport/errors.ts], [sandbox/stream-errors.ts]): an error is a
      [thrown]; [isReconnectable], [translateRpcError], [retryUnestablished].
    - Lifecycle ([sandbox/lifecycle.ts]): [resolveLifecycle] and the deadline.
    - HttpFraming, HttpHead ([cli/http-framing.ts], [cli/http-head.ts]).
    - Sse ([agent/sse.ts]): the reader as a state machine fed with chunks.
    - PoolCore ([pool/core.ts]): records, their JSON, [pickReadySlot], the backoff.
    - PoolBackend ([pool/backend.ts]): the interface as operations on a map; in
      memory, and a JSON file whose writes are runs of system calls that may fault; a
      crash leaves any state such a run goes through.
    - Pool ([pool/pool.ts]): the state is the record [pool]; each asynchronous
      method is a task with a program counter, one step from await to await, so that
      every interleaving of takes, warm-ups, sweeps, the filler and [close()] is a
      sequence of steps.  PoolSafety: the invariants of every reachable state.
      PoolRefine: the pool implements an owner-per-slot specification.
      PoolTheorems: the properties, the samples and the findings.
    - Network ([sandbox/network.ts]), DockerIgnore ([templates/dockerignore.ts]),
      Json and Payload ([payload.ts]), Ports ([aws/control-plane.ts],
      [sandbox/launch.ts]), Launch ([sandbox/launch.ts]), PoolConfig
      ([pool/config.ts]), RateLimit ([TokenBucket] of [aws/control-plane.ts]).
    - Tokens ([transport/tokens.ts]): [TokenStore] as a list, [TokenRefresher] as a
      state machine over its timers, pending mints and loops.
    - Readiness ([sandbox/readiness.ts], [waitUntilReady] and [recordHealth] of
      [sandbox/core.ts]): the awaits of a handle in a small state and error monad
      over an environment that answers the [n]-th await and says what other calls on
      the handle do meanwhile.  Reconnect ([reconnect] of [sandbox/core.ts]) runs in
      the same monad, and so does Calls ([callUnary], [openStream], [streamFailure],
      the pause trigger and the reopening of the deadline, of [sandbox/core.ts]), whose
      caller's request is an await.  CallsEnd: every request ends.
    - Listing ([sandbox/listing.ts], [index/join.ts]): filters, tokens as JSON
      documents, [PageWalk] and [OrderedWalk].  Paginator ([sandbox/paginator.ts]):
      the generator of matching sandboxes, as turns over a control plane whose
      answers may change or fail at every request, and [SandboxListPaginator].
    - Encoding: UTF-8 and percent encoding.  Output ([sandbox/commands.ts]): decoding
      and keeping what a process writes, the table of its ends.  CommandRequests
      ([sandbox/commands.ts], [sandbox/pty.ts]): validation, timeouts, requests.
      CommandHandle ([CommandHandle] of [sandbox/commands.ts]): the loop over the
      streams of a command, with its resubscriptions, its registry of streams and
      [disconnect()], in a monad over an environment that answers every await.
    - GitArgs ([sandbox/git-args.ts]): the
      words of every git command, URLs with credentials, the readers of its output.
      Git ([sandbox/git.ts]): the operations, in a state and error monad whose state
      is the log of what was sent to a runner that may answer anything.
    - Persistence ([sandbox/persistence.ts]): [S3Prefix], the rules of
      [create({ persist })], and [PersistenceClient] over the stream of events of each
      operation.  Staging (the pure half of [sandbox/transfer.ts]): configuration,
      lifetimes, the plan of a multipart upload, headers, requests, states.
      TransferClient (its other half): waiting for a transfer, tickets, exports, routed
      writes and reads, in a monad over an environment that answers every await; what an
      operation did is the log it emits.
    - SecretNames ([secrets/names.ts]), SecretStore ([secrets/store.ts], [LazyAwsApi] of
      [aws/optional-client.ts]): the operations over a Secrets Manager that may answer
      anything, on a clock.  SecretCache ([secrets/cache.ts]): a state machine whose reads
      in flight come back in any order, and the marks that its operations leave.  SecretEnvs
      ([secrets/inject.ts]): references, bindings, the environment of a call, the shared
      caches.
    - ImagePrune ([images/prune-domain.ts], [images/prune-service.ts]): the plan, and the
      run in a monad over an environment that answers every await; the fuel of a wait is
      one turn per poll of its timeout.
    - McpLease ([mcp/lease.ts], [mcp/tools.ts]): calls, resets and closings as tasks of a
      state machine, with the failures of tools and what they become.
    - MountPath ([mount-path.ts]), Configure ([configure/base.ts]): sections as records of
      functions, with what they promise.  Mounts ([role-policy.ts], [s3-mounts], [volumes]):
      their options, sections and states.  Sandbox ([sandbox/sandbox.ts], [plannedSections] of
      [feature-options.ts]): [create()], [connect()], [pause()], [resume()], [kill()],
      [reincarnate()] and the rest, in the monad of Readiness; what other files plan before
      the launch, and AWS, are awaits [Ask] that may fail.  SandboxSafety: what a failed start
      leaves.  SandboxNetwork: a restrictive policy fails closed.  SandboxEnds: the
      operations end (a successor's generations are counted from its own launch).
    - IndexTable ([index/record.ts], [index/dynamodb.ts]): rows, items, and the reading of
      many rows from a table that answers in parts.
    - Scaling ([agent/scaling-domain.ts]): the options and the handles of sessions.
      FleetBase ([agent/fleet-base.ts]): members, placement, lifetimes, listings.  Fleet
      ([agent/fleet.ts]): members as objects of a store, invocations and reconciliations as
      tasks; FleetSafety: its invariant, lease by lease, and the runs that go wrong.

    ** What the theorems show

    - The pool: a slot has at most one owner, the pool refines an ownership
      specification, its counters are truthful, it never warms up or provisions more
      than configured, a drain leaves nothing parked; its JSON file refines a map and
      survives a crash between any two system calls; its configuration is one [create()] accepts.
    - The handle: tokens are renewed in time by a chain of timers that neither dies
      nor doubles; waiting for an agent and polling after a cut always end, in a
      number of turns and a time that are stated, and report the truth; a request is
      never sent twice by the retry of unopened connections, and with reconnections
      runs at most twice, the second time only after a cut ([Execute]: at most once);
      every request ends; the pause trigger never wakes a sandbox nor suspends one
      whose deadline has not expired, and the deadline is reopened once per
      suspension; the calls keep the published rate.
    - The sandbox: [create()] launches one machine at most and leaves none that nobody has
      (with valid [persist] options, and unless the caller's signal is aborted with the very
      error that the wait for the agent throws),
      hands out one with a restrictive policy only when the agent said that it enforces it,
      and ends, as [connect()], [pause()], [resume()] and [reincarnate()] do, while an agent's
      generations grow and other holders let go of the lock; mount paths are
      canonical, apart and below their roots; mounts are settled exactly when all are mounted.
    - The listing: over an account that stands still every matching sandbox is served
      exactly once, however the pages are cut and wherever a token resumes; an ordered
      listing is robust to sandboxes that come and go, if no listing holds one twice.
    - The launch: every plan is within the platform's limits, the payload reads back
      as what was asked, tokens are canonical, ports are safe, and denying internet
      access fails closed.
    - The protocols: parsers and printers agree exactly, framing is unambiguous, a
      rewritten head smuggles nothing, chunk boundaries do not matter, and the
      [.dockerignore] matcher decides the glob relation.
    - Commands: what is kept is the end of what was written and is within its limit;
      a reader does not notice the cuts of its stream; however it ends it stops every
      stream it opened; it ends once the streams bring nothing more.
    - Git: no argument leaves its quotes, credentials read back from the URL they are
      put in, a push or a pull with credentials sets the original URL back unless
      the caller's signal cuts it, its exit errors hold no password (of a password without an
      asterisk), the branch line of [git status] is read exactly.
    - Files through S3: homes and staged objects never meet in a bucket, a plan of parts
      covers its file, the header of a download says the name exactly, a ticket is handed
      out armed, an export leaves no multipart upload open, a routed write hands the
      object it staged over with the URL that deletes it, a read that comes to its end was given what was exported, a checkpoint has a result
      exactly when the agent said so.
    - Secrets: a value out of the cache is never older than its time to live nor than the last
      [invalidate] of its secret, and nothing is read again before it has to be; a version
      written is a new one; a creation ends within fifteen attempts and 60 s of sleep; a
      destruction says the truth; the environment of a call overwrites nothing in silence.
    - Images: a plan of pruning keeps the newest launchable versions and what is live or in
      flight; the run ends, looks again before it deletes, and its reports are true.
    - The index: a row reads back as it was written; a reading has every live row that was
      asked for, or throws, within six requests for each hundred ids.
    - The fleet: what a member counts in flight is what is held on it; placements respect
      its concurrency, and reservations are exclusive; the count of machines being created is
      exact and one is started to grow only below the maximum; what may be someone else's is never
      proven, and only what is proven is terminated; a lifetime stays within its cap.
    - The MCP server holds one sandbox at a time; what it holds when it closes is killed, and
      calls that come one at a time drop only sandboxes that are gone.
    - Findings, as theorems and examples: a timeout or a prefix of [persist] found wrong
      after the launch, or a signal aborted with a [SandboxNotReadyError], leaves the machine
      running; a listing that holds a sandbox twice serves it twice; a sandbox terminated while its home is
      restored is handed out; [reincarnate()] loses its successor when the predecessor cannot
      be killed; [connect()] loses the reason of its signal; [mounts] and [volumes] may nest; a key [__proto__] of the metadata is lost by the
      index; a line feed after a split CR LF loses a message of
      the event stream; a sweep suspends a sandbox already handed out; a failed
      sweep makes [close()] skip its drain; a dormant reconnection probes a sandbox
      it knows to be suspended; a page of a listing that fails ends it in silence; a
      push cut by its signal leaves its credentials in the sandbox; a branch with
      the word detached in its name is reported as no branch; a command disconnected
      while it resubscribes leaves a stream open; a deadline that passes at the wrong
      await leaves an upload running, an exported object in its bucket or a watch open;
      the limit of kept output is not one
      for output that is not UTF-8; a late reset of the MCP lease drops a sandbox that
      lives; a probe of a fleet that fails keeps what it reserved, a dedicated session
      comes back without its reservation, two replacements at once pass the maximum, and a
      listing finds a machine that is being created.

    ** Bounds and fuel

    Loops that are not structural take fuel.  Those of DockerIgnore.v and Json.v
    have lemmas that their fuel is enough; numbers are printed with one turn per
    binary digit.  [waitUntilReady] and [pollUntilBack] are proved to return within one
    turn per shortest pause of the timeout, and one more.  The dormant wait of
    [reconnect] has no bound in the code, which may wait for a resume for ever, so
    its theorem is about what it reports; a caller that wakes the sandbox, as every
    request does, ends when the other holders let go of the lock.  A call of
    [nextItems] takes at most one turn per sandbox and page left, and three more.
    The wait for the sections takes two turns more than the awaits within which the wall
    clock passes their timeout, and [waitForState] one turn per half second of its timeout
    and two more: SandboxEnds.v proves that this is enough, so that the ends of [create()]
    that SandboxSafety.v accounts for are all there are.  Reading a command takes fuel in proportion to the awaits after which its streams
    bring nothing; nothing bounds what a process may write.  Numbers are exact: a double is a rational
    or one of the special values, an integer is a [Z], which is exact below 2^53.
    The wire and clock limits the code checks are checked in the model.

    ** Not modelled

    Message texts and logging; the remote calls themselves and the gRPC, AWS and
    Node libraries, which are parameters or environments; what [create()] asks of other files before the launch, beyond its order and its
    failures; what [getInfo()] adds to an answer; files and code
    ([sandbox/filesystem.ts], [sandbox/code.ts]); the deployment and infrastructure commands ([agent] apart from its fleet,
    [agentcore], [stacks], [cdk], the publication of images, [cli] apart from the two HTTP files), the
    generated code ([gen], [agent/assets]) and the SDKs in other languages.  Between
    two awaits of one handle, other handles and processes are not followed; a wall
    clock that jumps is outside Tokens.v. *)

From stdpp Require Import base option list strings gmap sorting.
From Stdlib Require Import ZArith QArith Qround Lia Lqa.

#[global] Set Default Goal Selector "!".

(** ** Errors and results

    A TypeScript function that may throw is a function to [result A]: the value
    it returns or the error it throws.  An error is its class (the classes of
    src/clients/typescript/src/errors.ts the modelled code throws or catches);
    message texts are not modelled. *)

Inductive error_class :=
  | SandboxError
  | InvalidArgumentError
  | NotFoundError
  | SandboxNotFoundError
  | SandboxNotReadyError
  | SandboxStateError
  | SandboxLifetimeError
  | PoolClosedError
  | AuthenticationError
  | UnimplementedError
  | LifecycleUnsupportedError
  | LifetimeBeyondCapError
  | TimeoutError
  | FileNotFoundError
  | DiskFullError
  | RateLimitError
  | QuotaExceededError
  | CapacityError
  | PersistenceError
  | TransferError
  | FileUploadError
  | SecretError
  | SecretNotFoundError
  | SandboxIndexError
  | IndexWriteError
  | MountError
  | VolumeError
  | VolumeMountError
  | OtherError.

#[export] Instance error_class_eq_dec : EqDecision error_class.
Proof. solve_decision. Defined.

(** The class an error class [extends] ([None]: directly [Error]). *)
Definition error_parent (e : error_class) : option error_class :=
  match e with
  | SandboxError | AuthenticationError | UnimplementedError | QuotaExceededError
  | CapacityError | OtherError => None
  | InvalidArgumentError | NotFoundError | SandboxNotReadyError
  | SandboxStateError | SandboxLifetimeError | PoolClosedError
  | TimeoutError | DiskFullError | RateLimitError | PersistenceError | TransferError
  | SecretError | SandboxIndexError | MountError | VolumeError => Some SandboxError
  | FileUploadError => Some TransferError
  | SecretNotFoundError => Some SecretError
  | IndexWriteError => Some SandboxIndexError
  | VolumeMountError => Some VolumeError
  | SandboxNotFoundError | FileNotFoundError => Some NotFoundError
  | LifecycleUnsupportedError => Some UnimplementedError
  | LifetimeBeyondCapError => Some InvalidArgumentError
  end.

(** [e instanceof c]: the class hierarchy is at most three deep. *)
Fixpoint instance_of_fuel (fuel : nat) (e c : error_class) : bool :=
  bool_decide (e = c) ||
  match fuel, error_parent e with
  | S fuel', Some p => instance_of_fuel fuel' p c
  | _, _ => false
  end.
Definition instance_of : error_class -> error_class -> bool := instance_of_fuel 3.

Inductive result (A : Type) :=
  | Ok (a : A)
  | Throw (e : error_class).
Arguments Ok {A} _.
Arguments Throw {A} _.

#[export] Instance result_ret : MRet result := fun A a => Ok a.
#[export] Instance result_bind : MBind result := fun A B f m =>
  match m with Ok a => f a | Throw e => Throw e end.
#[export] Instance result_fmap : FMap result := fun A B f m =>
  match m with Ok a => Ok (f a) | Throw e => Throw e end.

(** [if (bad) throw new E(..)] followed by the rest of the function. *)
Definition throw_if (bad : bool) (e : error_class) : result unit :=
  if bad then Throw e else Ok tt.

Definition is_ok {A} (r : result A) : bool :=
  match r with Ok _ => true | Throw _ => false end.

(** ** JavaScript values

    A JavaScript number is a rational or one of the three special values:
    doubles are idealised to exact rationals, which is exact on every integer of
    magnitude below 2^53 (milliseconds, seconds, ports, counters). *)

Inductive jsnum :=
  | Finite (q : Q)
  | NaN
  | PosInf
  | NegInf.

(** What a parameter of type [unknown] may hold. *)
Inductive jsval :=
  | JUndefined
  | JNull
  | JBool (b : bool)
  | JNumber (n : jsnum)
  | JString (s : string)
  | JArray (items : list jsval)
  | JObject (fields : list (string * jsval)).

Definition num_of_Z (z : Z) : jsnum := Finite (inject_Z z).
Definition jint (z : Z) : jsval := JNumber (num_of_Z z).

(** [Number.isInteger(n)], with the integer it is. *)
Definition integer_of (n : jsnum) : option Z :=
  match n with
  | Finite q => if Z.eqb (Zpos (Qden (Qred q))) 1 then Some (Qnum (Qred q)) else None
  | _ => None
  end.

(** [typeof v === "number" && Number.isInteger(v)]. *)
Definition integer_val (v : jsval) : option Z :=
  match v with JNumber n => integer_of n | _ => None end.

(** [v ?? d]. *)
Definition nullish (v d : jsval) : jsval :=
  match v with JUndefined | JNull => d | _ => v end.

Definition is_undefined (v : jsval) : bool :=
  match v with JUndefined => true | _ => false end.

Lemma integer_of_Z (z : Z) : integer_of (num_of_Z z) = Some z.
Proof.
  unfold integer_of, num_of_Z, inject_Z, Qred.
  pose proof (Z.ggcd_gcd z 1) as Hg. pose proof (Z.ggcd_correct_divisors z 1) as Hd.
  destruct (Z.ggcd z 1) as [g [aa bb]]. simpl in Hg, Hd |- *.
  rewrite Z.gcd_1_r in Hg. subst g. destruct Hd as [Ha Hb].
  destruct aa, bb; simpl in *; try lia; repeat case_match; simplify_eq; f_equal; lia.
Qed.

Lemma integer_val_jint (z : Z) : integer_val (jint z) = Some z.
Proof. apply integer_of_Z. Qed.

(** ** Natural numbers as rationals *)

Abbreviation QN n := (inject_Z (Z.of_nat n)).

Lemma QN_S n : (QN (S n) == QN n + 1)%Q.
Proof. rewrite Nat2Z.inj_succ. unfold Z.succ. by rewrite inject_Z_plus. Qed.

Lemma QN_add n m : (QN (n + m) == QN n + QN m)%Q.
Proof. by rewrite Nat2Z.inj_add, inject_Z_plus. Qed.

Lemma QN_le n m : (n <= m)%nat -> (QN n <= QN m)%Q.
Proof. intros H. rewrite <- Zle_Qle. lia. Qed.

(** ** Guards *)

Lemma throw_if_ok b e : throw_if b e = Ok tt <-> b = false.
Proof. by destruct b. Qed.

(** A guard in front of the rest of a function. *)
Lemma throw_if_bind {A} b e (k : unit -> result A) x :
  mbind k (throw_if b e) = Ok x <-> b = false /\ k tt = Ok x.
Proof. destruct b; cbn; naive_solver. Qed.

Lemma bind_ok {A B} (m : result A) (k : A -> result B) x :
  mbind k m = Ok x <-> exists a, m = Ok a /\ k a = Ok x.
Proof. destruct m; cbn; naive_solver. Qed.

Lemma bind_unit_ok (m k : result unit) :
  mbind (fun _ => k) m = Ok tt <-> m = Ok tt /\ k = Ok tt.
Proof. destruct m as [[]|]; cbn; naive_solver. Qed.

Lemma forallb_Forall {A} (f : A -> bool) (P : A -> Prop) l :
  (forall x, f x = true <-> P x) -> forallb f l = true <-> Forall P l.
Proof.
  intros Hf. rewrite forallb_forall, Forall_forall. setoid_rewrite list_elem_of_In.
  naive_solver.
Qed.

Lemma existsb_Forall {A} (f : A -> bool) (P : A -> Prop) l :
  (forall x, f x = false <-> P x) -> existsb f l = false <-> Forall P l.
Proof.
  intros Hf. induction l as [|x l IH]; cbn; [by split; constructor|].
  rewrite orb_false_iff, Forall_cons, IH, Hf. done.
Qed.

Create Rewrite HintDb rayito.
#[export] Hint Rewrite integer_of_Z integer_val_jint : rayito.

(** Proves a closed decidable proposition by evaluating its decision. *)
Ltac by_decide :=
  match goal with |- ?P => apply (bool_decide_unpack P); vm_compute; exact I end.
