(* ===== verification/Text.v ===== *)
(** * Text: JavaScript strings as sequences of code units

    The string operations the parsers and printers of the SDK use
    ([startsWith], [indexOf], [split], [join], trimming, ASCII and latin-1 case
    folding, decimal and hexadecimal numerals), on [text], a list of code units
    (or code points, where the source spreads a string with [Array.from]).
    Every component that reads or writes text builds on this file. *)

From stdpp Require Import base option list strings sets.
From Stdlib Require Import Ascii NArith ZArith Lia.
From S2P Require Import Prelude.

Abbreviation text := (list N).

Local Open Scope N_scope.

(** A literal of the source. *)
Definition txt (s : string) : text := Ascii.N_of_ascii <$> String.list_ascii_of_string s.

#[global] Arguments txt _%_string_scope : simpl never.

(** ** Searching *)

(** [s.startsWith(p)]. *)
Fixpoint starts_with (p s : text) : bool :=
  match p, s with
  | [], _ => true
  | x :: p', y :: s' => (x =? y) && starts_with p' s'
  | _ :: _, [] => false
  end.

(** [s.endsWith(p)]. *)
Definition ends_with (p s : text) : bool := starts_with (reverse p) (reverse s).

(** [s.indexOf(c)] for a one-character [c] ([None]: -1). *)
Fixpoint index_of (c : N) (s : text) : option nat :=
  match s with
  | [] => None
  | x :: s' => if x =? c then Some 0%nat else S <$> index_of c s'
  end.

(** ** Splitting and joining *)

Definition cons_head (x : N) (parts : list text) : list text :=
  match parts with
  | [] => [[x]]
  | p :: ps => (x :: p) :: ps
  end.

(** [s.split(c)] for a one-character [c]. *)
Fixpoint split_on (c : N) (s : text) : list text :=
  match s with
  | [] => [[]]
  | x :: s' => if x =? c then [] :: split_on c s' else cons_head x (split_on c s')
  end.

Definition CR : N := 13.
Definition LF : N := 10.
Definition SP : N := 32.
Definition TAB : N := 9.
Definition CRLF : text := [CR; LF].

(** [s.split("\r\n")]. *)
Fixpoint split_crlf (s : text) : list text :=
  match s with
  | [] => [[]]
  | x :: s' =>
      match s' with
      | [] => [[x]]
      | y :: s'' =>
          if (x =? CR) && (y =? LF) then [] :: split_crlf s''
          else cons_head x (split_crlf s')
      end
  end.

(** [parts.join(sep)]. *)
Fixpoint join (sep : text) (parts : list text) : text :=
  match parts with
  | [] => []
  | [p] => p
  | p :: ps => p ++ sep ++ join sep ps
  end.

(** ** Trimming: drop the run of characters in [f] at either end *)

Fixpoint strip_left (f : N -> bool) (s : text) : text :=
  match s with
  | [] => []
  | x :: s' => if f x then strip_left f s' else s
  end.

Definition strip_right (f : N -> bool) (s : text) : text :=
  reverse (strip_left f (reverse s)).

Definition strip (f : N -> bool) (s : text) : text := strip_right f (strip_left f s).

(** What [trim] removes: the white space and line terminators of ECMAScript. *)
Definition is_js_space (c : N) : bool :=
  existsb (N.eqb c) [9; 10; 11; 12; 13; 32; 160; 5760; 8232; 8233; 8239; 8287; 12288; 65279]
  || ((8192 <=? c) && (c <=? 8202)).

(** [s.trim()]. *)
Definition trim (s : text) : text := strip is_js_space s.

(** [!s.trim()]: nothing but white space. *)
Definition blank (s : text) : bool := bool_decide (trim s = []).

(** [Buffer.byteLength(s, "utf8")] of code units: a surrogate pair is four bytes,
    an unpaired surrogate the three of U+FFFD. *)
Fixpoint utf8_length (s : text) : nat :=
  match s with
  | [] => 0%nat
  | c :: s' =>
      if c <? 128 then (1 + utf8_length s')%nat
      else if c <? 2048 then (2 + utf8_length s')%nat
      else match s' with
           | d :: s'' =>
               if (55296 <=? c) && (c <=? 56319) && (56320 <=? d) && (d <=? 57343)
               then (4 + utf8_length s'')%nat else (3 + utf8_length s')%nat
           | [] => 3%nat
           end
  end.

(** ** Case folding

    [toLowerCase] restricted to latin-1 code units (0x00..0xff), the range of
    every header the proxy decodes: A-Z and the latin-1 capitals, 0xd7 (the
    multiplication sign) excepted. *)
Definition lower_unit (c : N) : N :=
  if ((65 <=? c) && (c <=? 90)) || ((192 <=? c) && (c <=? 222) && negb (c =? 215))
  then c + 32 else c.
Definition to_lower (s : text) : text := lower_unit <$> s.

(** [toUpperCase] on ASCII letters. *)
Definition upper_unit (c : N) : N := if (97 <=? c) && (c <=? 122) then c - 32 else c.
Definition to_upper (s : text) : text := upper_unit <$> s.

(** ** Numerals *)

Definition is_digit (c : N) : bool := (48 <=? c) && (c <=? 57).
Definition is_hex_digit (c : N) : bool :=
  is_digit c || ((97 <=? c) && (c <=? 102)) || ((65 <=? c) && (c <=? 70)).

(** The value of one digit of a numeral of radix at most 16. *)
Definition digit_value (c : N) : N :=
  if is_digit c then c - 48 else if 97 <=? c then c - 87 else c - 55.

(** [Number.parseInt(s, radix)] on a non-empty string of digits of that radix. *)
Definition parse_nat (radix : N) (s : text) : N :=
  foldl (fun acc c => acc * radix + digit_value c) 0 s.

Definition digit_char (d : N) : N := if d <? 10 then d + 48 else d + 87.

(** [n.toString(radix)]; the fuel is the number of binary digits of [n]. *)
Fixpoint print_nat_fuel (fuel : nat) (radix n : N) (acc : text) : text :=
  match fuel with
  | O => acc
  | S fuel' =>
      let acc' := digit_char (n mod radix) :: acc in
      if n / radix =? 0 then acc' else print_nat_fuel fuel' radix (n / radix) acc'
  end.
Definition print_nat (radix n : N) : text := print_nat_fuel (S (N.size_nat n)) radix n [].

(** [String(z)] of an integer. *)
Definition print_Z (z : Z) : text :=
  if (z <? 0)%Z then 45 :: print_nat 10 (Z.to_N (- z)) else print_nat 10 (Z.to_N z).

(** ** Lemmas on prefixes and suffixes *)

Lemma starts_with_app p s : starts_with p (p ++ s) = true.
Proof. induction p as [|x p IH]; simpl; [done|]. by rewrite N.eqb_refl, IH. Qed.

Lemma starts_with_true p s : starts_with p s = true -> exists r, s = p ++ r.
Proof.
  revert s. induction p as [|x p IH]; intros s; simpl; [by exists s|].
  destruct s as [|y s]; [done|]. rewrite andb_true_iff, N.eqb_eq.
  intros [-> [r ->]%IH]. by exists r.
Qed.

Lemma ends_with_app p s : ends_with p (s ++ p) = true.
Proof. unfold ends_with. rewrite reverse_app. apply starts_with_app. Qed.

Lemma ends_with_true p s : ends_with p s = true -> exists r, s = r ++ p.
Proof.
  intros [r Hr]%starts_with_true. exists (reverse r).
  rewrite <- (reverse_involutive s), Hr, reverse_app. by rewrite reverse_involutive.
Qed.

Lemma index_of_app c a b : c ∉ a -> index_of c (a ++ c :: b) = Some (length a).
Proof.
  induction a as [|x a IH]; simpl; [by rewrite N.eqb_refl|].
  intros [Hx Ha]%not_elem_of_cons. rewrite (proj2 (N.eqb_neq x c)) by done. by rewrite IH.
Qed.

Lemma index_of_split c s i :
  index_of c s = Some i -> s = take i s ++ c :: drop (S i) s /\ c ∉ take i s.
Proof.
  revert i. induction s as [|x s IH]; cbn; intros i Hi; [done|].
  destruct (N.eqb_spec x c) as [->|Hx]; [by simplify_eq/=; split; [|apply not_elem_of_nil]|].
  destruct (index_of c s) as [j|] eqn:E; simplify_eq/=. destruct (IH j eq_refl) as [Heq Hn].
  split; [by f_equal|]. by apply not_elem_of_cons.
Qed.

Lemma index_of_None c s : index_of c s = None <-> c ∉ s.
Proof.
  induction s as [|x s IH]; cbn; [set_solver|]. rewrite not_elem_of_cons.
  destruct (N.eqb_spec x c) as [->|Hx]; [naive_solver|].
  rewrite fmap_None, IH. naive_solver.
Qed.

(** ** Lemmas on [split] and [join] *)

Lemma split_on_not_nil c s : split_on c s <> [].
Proof.
  induction s as [|x s IH]; simpl; [done|]. case_match; [done|].
  by destruct (split_on c s).
Qed.

Lemma split_on_no_sep c s : c ∉ s -> split_on c s = [s].
Proof.
  induction s as [|x s IH]; simpl; [done|]. intros [Hx Hs]%not_elem_of_cons.
  rewrite (proj2 (N.eqb_neq x c)) by done. by rewrite IH.
Qed.

Lemma split_on_app c a b : c ∉ a -> split_on c (a ++ c :: b) = a :: split_on c b.
Proof.
  induction a as [|x a IH]; simpl; intros Ha.
  - by rewrite N.eqb_refl.
  - apply not_elem_of_cons in Ha as [Hx Ha].
    rewrite (proj2 (N.eqb_neq x c)) by done. by rewrite IH.
Qed.

Lemma split_on_parts c s : Forall (fun p => c ∉ p) (split_on c s).
Proof.
  induction s as [|x s IH]; simpl.
  - constructor; [set_solver|done].
  - case_match eqn:Hc; [constructor; [set_solver|done]|].
    apply N.eqb_neq in Hc. destruct (split_on c s) as [|p ps]; simpl.
    + constructor; [set_solver|done].
    + apply Forall_cons in IH as [??]. constructor; [set_solver|done].
Qed.

Lemma split_on_subset c s : Forall (fun p => p ⊆ s) (split_on c s).
Proof.
  induction s as [|x s IH]; simpl.
  - constructor; [set_solver|done].
  - case_match eqn:Hc.
    + constructor; [set_solver|]. eapply Forall_impl; [done|]. set_solver.
    + destruct (split_on c s) as [|p ps]; simpl.
      * constructor; [set_solver|done].
      * apply Forall_cons in IH as [??]. constructor; [set_solver|]. eapply Forall_impl; [done|]. set_solver.
Qed.

Lemma join_cons sep p q ps : join sep (p :: q :: ps) = p ++ sep ++ join sep (q :: ps).
Proof. done. Qed.

Lemma join_split c s : join [c] (split_on c s) = s.
Proof.
  induction s as [|x s IH]; simpl; [done|].
  pose proof (split_on_not_nil c s). case_match eqn:Hc.
  - apply N.eqb_eq in Hc as ->. destruct (split_on c s) as [|p ps]; [done|].
    rewrite join_cons. simpl. by f_equal.
  - destruct (split_on c s) as [|p ps]; [done|]. simpl.
    destruct ps; simpl in IH |- *; by f_equal.
Qed.

Lemma split_join c ps :
  ps <> [] -> Forall (fun p => c ∉ p) ps -> split_on c (join [c] ps) = ps.
Proof.
  intros Hne Hps. induction Hps as [|p ps Hp Hps IH]; [done|].
  destruct ps as [|q ps]; [by apply split_on_no_sep|].
  rewrite join_cons. cbn [app]. rewrite split_on_app by done. by rewrite IH.
Qed.

(** [split("\r\n")] on lines without a carriage return. *)
Lemma split_crlf_cons x s : x <> CR -> split_crlf (x :: s) = cons_head x (split_crlf s).
Proof.
  intros Hx. destruct s as [|y s]; [done|].
  change (split_crlf (x :: y :: s)) with
    (if (x =? CR) && (y =? LF) then [] :: split_crlf s
     else cons_head x (split_crlf (y :: s))).
  by rewrite (proj2 (N.eqb_neq x CR)).
Qed.

Lemma split_crlf_no_break s : CR ∉ s -> split_crlf s = [s].
Proof.
  induction s as [|x s IH]; [done|]. intros [Hx Hs]%not_elem_of_cons.
  rewrite split_crlf_cons by done. by rewrite IH.
Qed.

Lemma split_crlf_app a b : CR ∉ a -> split_crlf (a ++ CRLF ++ b) = a :: split_crlf b.
Proof.
  induction a as [|x a IH]; [done|]. intros [Hx Ha]%not_elem_of_cons.
  cbn [app]. rewrite split_crlf_cons by done. by rewrite IH.
Qed.

Lemma split_crlf_join ps :
  ps <> [] -> Forall (fun p => CR ∉ p) ps -> split_crlf (join CRLF ps) = ps.
Proof.
  intros Hne Hps. induction Hps as [|p ps Hp Hps IH]; [done|].
  destruct ps as [|q ps]; [by apply split_crlf_no_break|].
  rewrite join_cons, split_crlf_app by done. by rewrite IH.
Qed.

(** ** Lemmas on trimming *)

(** No character of [f] at either end. *)
Definition trimmed (f : N -> bool) (s : text) : Prop :=
  (forall x, head s = Some x -> f x = false) /\ (forall x, last s = Some x -> f x = false).

Lemma strip_left_suffix f s : exists pre, s = pre ++ strip_left f s.
Proof.
  induction s as [|x s [pre IH]]; simpl; [by exists []|].
  case_match; [|by exists []]. exists (x :: pre). simpl. by f_equal.
Qed.

Lemma strip_left_head f s x : head (strip_left f s) = Some x -> f x = false.
Proof. induction s as [|y s IH]; simpl; [done|]. case_match; [done|]. simpl. by intros [= ->]. Qed.

Lemma strip_left_id f s : (forall x, head s = Some x -> f x = false) -> strip_left f s = s.
Proof. destruct s as [|x s]; simpl; [done|]. intros H. by rewrite (H x). Qed.

Lemma strip_right_prefix f s : exists post, s = strip_right f s ++ post.
Proof.
  unfold strip_right. destruct (strip_left_suffix f (reverse s)) as [pre H].
  exists (reverse pre). by rewrite <- reverse_app, <- H, reverse_involutive.
Qed.

Lemma strip_right_last f s x : last (strip_right f s) = Some x -> f x = false.
Proof. unfold strip_right. rewrite last_reverse. apply strip_left_head. Qed.

Lemma strip_right_id f s : (forall x, last s = Some x -> f x = false) -> strip_right f s = s.
Proof.
  intros H. unfold strip_right. rewrite strip_left_id; [apply reverse_involutive|].
  intros x. by rewrite head_reverse; apply H.
Qed.

Lemma strip_trimmed f s : trimmed f (strip f s).
Proof.
  unfold strip. split; [|intros x; apply strip_right_last].
  intros x Hx. destruct (strip_right_prefix f (strip_left f s)) as [post E].
  apply (strip_left_head f s). rewrite E.
  destruct (strip_right f (strip_left f s)); [done|]. simpl in *. congruence.
Qed.

Lemma strip_id f s : trimmed f s -> strip f s = s.
Proof. intros [Hh Hl]. unfold strip. rewrite (strip_left_id f s) by done. by apply strip_right_id. Qed.

Lemma strip_subset f s : strip f s ⊆ s.
Proof.
  unfold strip. destruct (strip_right_prefix f (strip_left f s)) as [post E].
  destruct (strip_left_suffix f s) as [pre E'].
  intros x Hx. rewrite E'. apply elem_of_app; right. rewrite E. apply elem_of_app; by left.
Qed.

Lemma strip_not_elem f s c : c ∉ s -> c ∉ strip f s.
Proof. intros H Hc. by apply H, (strip_subset f). Qed.

Lemma strip_cons f x s : f x = true -> strip f (x :: s) = strip f s.
Proof. intros H. unfold strip. simpl. by rewrite H. Qed.

Lemma trimmed_nil f : trimmed f [].
Proof. by split. Qed.

(** ** Lemmas on numerals: [parseInt] inverts [toString] *)

Lemma digit_value_char d : d < 16 -> digit_value (digit_char d) = d.
Proof.
  intros Hd. unfold digit_char. destruct (N.ltb_spec d 10).
  - unfold digit_value, is_digit. rewrite !(proj2 (N.leb_le _ _)) by lia. simpl. lia.
  - unfold digit_value, is_digit. rewrite (proj2 (N.leb_gt (d + 87) 57)) by lia.
    rewrite andb_false_r, (proj2 (N.leb_le _ _)) by lia. lia.
Qed.

Lemma parse_nat_app radix s c :
  parse_nat radix (s ++ [c]) = parse_nat radix s * radix + digit_value c.
Proof. unfold parse_nat. by rewrite foldl_app. Qed.

(** The accumulator only collects the digits already produced. *)
Lemma print_nat_fuel_acc fuel radix n acc :
  print_nat_fuel fuel radix n acc = print_nat_fuel fuel radix n [] ++ acc.
Proof.
  revert n acc. induction fuel as [|fuel IH]; intros n acc; simpl; [done|].
  case_match; [done|]. rewrite (IH _ (_ :: acc)), (IH _ [_]). by rewrite <- app_assoc.
Qed.

Lemma div_size_nat n radix : 2 <= radix -> n / radix <> 0 ->
  (S (N.size_nat (n / radix)) <= N.size_nat n)%nat.
Proof.
  intros Hr Hn.
  assert (Hsz : forall m, N.of_nat (N.size_nat m) = N.size m).
  { intros [|p]; simpl; [done|]. induction p; simpl Pos.size_nat; simpl Pos.size; lia. }
  enough (N.succ (N.size (n / radix)) <= N.size n) by (rewrite <- !Hsz in *; lia).
  assert (Hle : 2 * (n / radix) <= n).
  { pose proof (N.Div0.mul_div_le n radix). nia. }
  generalize dependent (n / radix). intros m Hn Hle.
  rewrite (N.size_log2 m), (N.size_log2 n) by lia. apply -> N.succ_le_mono.
  rewrite <- N.log2_double by lia. by apply N.log2_le_mono.
Qed.

Lemma print_nat_fuel_spec fuel radix n :
  2 <= radix <= 16 -> (N.size_nat n < fuel)%nat ->
  parse_nat radix (print_nat_fuel fuel radix n []) = n.
Proof.
  intros Hr. revert n. induction fuel as [|fuel IH]; intros n Hf; [lia|]. simpl.
  pose proof (N.div_mod n radix ltac:(lia)) as Hdm.
  pose proof (N.mod_lt n radix ltac:(lia)) as Hlt.
  case_match eqn:Hz.
  - apply N.eqb_eq in Hz. unfold parse_nat. simpl. rewrite digit_value_char by lia. lia.
  - apply N.eqb_neq in Hz. rewrite print_nat_fuel_acc, parse_nat_app, digit_value_char by lia.
    pose proof (div_size_nat n radix ltac:(lia) Hz). rewrite IH by lia. lia.
Qed.

Lemma parse_print_nat radix n : 2 <= radix <= 16 -> parse_nat radix (print_nat radix n) = n.
Proof. intros Hr. apply print_nat_fuel_spec; [done|lia]. Qed.

Lemma print_nat_fuel_digits fuel radix n acc (P : N -> Prop) :
  radix <> 0 -> (forall d, d < radix -> P (digit_char d)) -> Forall P acc ->
  Forall P (print_nat_fuel fuel radix n acc).
Proof.
  intros Hr HP. revert n acc. induction fuel as [|fuel IH]; intros n acc Hacc; simpl; [done|].
  pose proof (N.mod_lt n radix Hr). case_match; [by constructor; auto|].
  apply IH. by constructor; auto.
Qed.

Lemma print_nat_digits radix n (P : N -> Prop) :
  radix <> 0 -> (forall d, d < radix -> P (digit_char d)) -> Forall P (print_nat radix n).
Proof. intros. by apply print_nat_fuel_digits. Qed.

Lemma print_nat_not_nil radix n : print_nat radix n <> [].
Proof.
  unfold print_nat. simpl. case_match; [done|].
  rewrite print_nat_fuel_acc. by destruct (print_nat_fuel _ _ _ []).
Qed.

Lemma decimal_digit d : d < 10 -> is_digit (digit_char d) = true.
Proof.
  intros H. unfold digit_char. rewrite (proj2 (N.ltb_lt _ _)) by lia.
  unfold is_digit. by rewrite !(proj2 (N.leb_le _ _)) by lia.
Qed.

(** ** Back to [string] (code units below 256) *)
Definition untxt (t : text) : string := String.string_of_list_ascii (Ascii.ascii_of_N <$> t).

Lemma txt_untxt t : Forall (fun c => c < 256) t -> txt (untxt t) = t.
Proof.
  intros H. unfold txt, untxt. rewrite String.list_ascii_of_string_of_list_ascii.
  induction H as [|c t Hc _ IH]; [done|]. rewrite !fmap_cons, IH.
  by rewrite Ascii.N_ascii_embedding.
Qed.
