(* ===== verification/JsDate.v ===== *)
(** * JsDate: the dates of the pool file

    [Date.prototype.toISOString] and the reading of that format by [new Date(s)],
    as ECMAScript specifies them, which src/clients/typescript/src/pool/core.ts
    uses to store instants.  A [Date] is its time value, an integer of
    milliseconds.  The calendar is the proleptic Gregorian one; that the printed
    date is read back is proved for every instant a [Date] can hold. *)

From stdpp Require Import base option list strings.
From Stdlib Require Import NArith ZArith Lia.
From S2P Require Import Prelude Text.

Local Open Scope Z_scope.

Definition MS_PER_DAY : Z := 86400000.
(** The largest time value of a [Date]. *)
Definition MAX_TIME : Z := 8640000000000000.

(** ** The calendar, on days since 1970-01-01 *)

(** Years start in March here, so that the leap day is the last one; an era is
    the 146097 days of 400 years. *)
Record civil := { year : Z; month : Z; day : Z }.

Definition year_of_era (doe : Z) : Z :=
  (doe - doe / 1460 + doe / 36524 - doe / 146096) / 365.
Definition day_of_year (doe yoe : Z) : Z := doe - (365 * yoe + yoe / 4 - yoe / 100).

Definition civil_from_days (days : Z) : civil :=
  let z := days + 719468 in
  let era := z / 146097 in
  let doe := z mod 146097 in
  let yoe := year_of_era doe in
  let doy := day_of_year doe yoe in
  let mp := (5 * doy + 2) / 153 in
  let m := if mp <? 10 then mp + 3 else mp - 9 in
  {| year := yoe + era * 400 + (if m <=? 2 then 1 else 0);
     month := m; day := doy - (153 * mp + 2) / 5 + 1 |}.

Definition days_from_civil (c : civil) : Z :=
  let y := year c - (if month c <=? 2 then 1 else 0) in
  let era := y / 400 in
  let yoe := y mod 400 in
  let mp := if month c >? 2 then month c - 3 else month c + 9 in
  let doy := (153 * mp + 2) / 5 + day c - 1 in
  era * 146097 + (yoe * 365 + yoe / 4 - yoe / 100 + doy) - 719468.

(** *** One era *)

(** The first day of a year of the era. *)
Definition year_start (yoe : Z) : Z := 365 * yoe + yoe / 4 - yoe / 100.

(** [year_of_era] on all days but the last, where it is monotone. *)
Definition year_guess (doe : Z) : Z := (doe - doe / 1460 + doe / 36524) / 365.

Lemma year_guess_mono a b : 0 <= a <= b -> year_guess a <= year_guess b.
Proof.
  intros H. unfold year_guess. apply Z.div_le_mono; [lia|].
  pose proof (Z.div_le_mono a b 36524 ltac:(lia) ltac:(lia)).
  assert (b / 1460 - a / 1460 <= b - a); [|lia].
  pose proof (Z.div_mod a 1460 ltac:(lia)). pose proof (Z.div_mod b 1460 ltac:(lia)).
  pose proof (Z.mod_pos_bound a 1460 ltac:(lia)). pose proof (Z.mod_pos_bound b 1460 ltac:(lia)).
  lia.
Qed.

(** The guess is right on the first and on the last day of each of the 400 years. *)
Definition check_year (y : nat) : bool :=
  let k := Z.of_nat y in
  (year_guess (year_start k) =? k)
  && (year_guess (year_start (k + 1) - 1) =? k)
  && (year_start (k + 1) <=? year_start k + 366).

Lemma years_checked : forallb check_year (seq 0 400) = true.
Proof. vm_compute. reflexivity. Qed.

Lemma check_year_era y : (y < 400)%nat -> check_year y = true.
Proof.
  intros H. pose proof years_checked as Hc. rewrite forallb_forall in Hc.
  apply Hc, in_seq. lia.
Qed.

(** Every day of the era lies in one of its years. *)
Lemma find_year n doe :
  0 <= doe < year_start (Z.of_nat n) ->
  exists k, (k < n)%nat /\ year_start (Z.of_nat k) <= doe < year_start (Z.of_nat k + 1).
Proof.
  induction n as [|n IH]; [change (year_start (Z.of_nat 0)) with 0; lia|]. intros Hd.
  destruct (Z.lt_ge_cases doe (year_start (Z.of_nat n))) as [Hlt|Hge].
  - destruct IH as (k & Hk & Hb); [lia|]. exists k. split; [lia|done].
  - exists n. split; [lia|]. split; [done|].
    replace (Z.of_nat n + 1) with (Z.of_nat (S n)) by lia. lia.
Qed.

Lemma era_year doe :
  0 <= doe < 146097 ->
  0 <= year_of_era doe < 400 /\ 0 <= day_of_year doe (year_of_era doe) <= 365.
Proof.
  intros Hd. destruct (decide (doe = 146096)) as [->|Hne]; [vm_compute; split; split; congruence|].
  destruct (find_year 400 doe) as (k & Hk & Hlo & Hhi).
  { change (year_start (Z.of_nat 400)) with 146096. lia. }
  pose proof (check_year_era k Hk) as Hc. unfold check_year in Hc.
  rewrite !andb_true_iff, !Z.eqb_eq, Z.leb_le in Hc. destruct Hc as [[H1 H2] H3].
  assert (year_of_era doe = Z.of_nat k) as ->.
  { unfold year_of_era. rewrite (Z.div_small doe 146096), Z.sub_0_r by lia. fold (year_guess doe).
    assert (0 <= year_start (Z.of_nat k)).
    { unfold year_start. pose proof (Z.div_le_mono 0 (Z.of_nat k) 4 ltac:(lia) ltac:(lia)).
      pose proof (Z.div_le_upper_bound (Z.of_nat k) 100 (Z.of_nat k) ltac:(lia) ltac:(lia)).
      rewrite Z.div_0_l in * by lia. lia. }
    pose proof (year_guess_mono (year_start (Z.of_nat k)) doe ltac:(lia)).
    pose proof (year_guess_mono doe (year_start (Z.of_nat k + 1) - 1) ltac:(lia)).
    lia. }
  split; [lia|]. unfold day_of_year. unfold year_start in *. lia.
Qed.

Lemma month_position doy :
  0 <= doy <= 365 ->
  0 <= (5 * doy + 2) / 153 <= 11 /\ 1 <= doy - (153 * ((5 * doy + 2) / 153) + 2) / 5 + 1 <= 31.
Proof.
  intros H. pose proof (Z.div_mod (5 * doy + 2) 153 ltac:(lia)) as H1.
  pose proof (Z.mod_pos_bound (5 * doy + 2) 153 ltac:(lia)) as H2.
  set (mp := (5 * doy + 2) / 153) in *.
  pose proof (Z.div_mod (153 * mp + 2) 5 ltac:(lia)) as H3.
  pose proof (Z.mod_pos_bound (153 * mp + 2) 5 ltac:(lia)) as H4. lia.
Qed.

(** The calendar is a bijection on its range. *)
Lemma days_from_civil_from_days days : days_from_civil (civil_from_days days) = days.
Proof.
  unfold days_from_civil, civil_from_days. cbn [year month day].
  set (z := days + 719468). pose proof (Z.mod_pos_bound z 146097 ltac:(lia)) as Hb.
  destruct (era_year (z mod 146097) Hb) as [Hy Hdoy].
  destruct (month_position _ Hdoy) as [Hm _].
  set (doe := z mod 146097) in *. set (yoe := year_of_era doe) in *.
  assert (He : yoe * 365 + yoe / 4 - yoe / 100 + day_of_year doe yoe = doe)
    by (unfold day_of_year; lia).
  set (doy := day_of_year doe yoe) in *. set (mp := (5 * doy + 2) / 153) in *.
  set (era := z / 146097). pose proof (Z.div_mod z 146097 ltac:(lia)) as Hz.
  fold era doe in Hz.
  assert (Hyear : forall k, (yoe + era * 400 + k - k) / 400 = era /\ (yoe + era * 400 + k - k) mod 400 = yoe).
  { intros k. replace (yoe + era * 400 + k - k) with (yoe + era * 400) by lia.
    rewrite Z.div_add, Z.mod_add by lia. rewrite Z.div_small, Z.mod_small by lia. lia. }
  destruct (Z.ltb_spec mp 10).
  - rewrite (proj2 (Z.leb_gt _ 2)) by lia. rewrite (proj2 (Z.gtb_lt _ 2)) by lia.
    destruct (Hyear 0) as [-> ->]. replace (mp + 3 - 3) with mp by lia. subst z. lia.
  - rewrite (proj2 (Z.leb_le _ 2)) by lia.
    replace (mp - 9 >? 2) with false by (symmetry; rewrite Z.gtb_ltb; apply Z.ltb_ge; lia).
    destruct (Hyear 1) as [-> ->]. replace (mp - 9 + 9) with mp by lia. subst z. lia.
Qed.

Lemma civil_bounds days :
  1 <= month (civil_from_days days) <= 12 /\ 1 <= day (civil_from_days days) <= 31.
Proof.
  unfold civil_from_days. cbn [month day].
  pose proof (Z.mod_pos_bound (days + 719468) 146097 ltac:(lia)) as Hb.
  destruct (era_year _ Hb) as [_ Hdoy]. destruct (month_position _ Hdoy) as [Hm Hd].
  split; [|exact Hd]. case_match eqn:E; [apply Z.ltb_lt in E|apply Z.ltb_ge in E]; lia.
Qed.

(** ** Printing: [toISOString] *)

(** [n] in exactly [width] decimal digits (the low ones). *)
Fixpoint digits (width : nat) (n : Z) : text :=
  match width with
  | O => []
  | S w => digits w (n / 10) ++ [(Z.to_N (n mod 10) + 48)%N]
  end.

Definition DASH : N := 45.
Definition PLUS : N := 43.
Definition DOT : N := 46.
Definition COLON : N := 58.
Definition LETTER_T : N := 84.
Definition LETTER_Z : N := 90.

Definition print_year (y : Z) : text :=
  if (0 <=? y) && (y <=? 9999) then digits 4 y
  else if y <? 0 then DASH :: digits 6 (- y) else PLUS :: digits 6 y.

Definition toISOString (t : Z) : text :=
  let c := civil_from_days (t / MS_PER_DAY) in
  let ms := t mod MS_PER_DAY in
  print_year (year c) ++ [DASH] ++ digits 2 (month c) ++ [DASH] ++ digits 2 (day c)
  ++ [LETTER_T] ++ digits 2 (ms / 3600000) ++ [COLON] ++ digits 2 (ms / 60000 mod 60)
  ++ [COLON] ++ digits 2 (ms / 1000 mod 60) ++ [DOT] ++ digits 3 (ms mod 1000) ++ [LETTER_Z].

(** ** Reading: the format of [toISOString] *)

(** Exactly [width] digits off the front. *)
Fixpoint read_digits (width : nat) (acc : Z) (s : text) : option (Z * text) :=
  match width, s with
  | O, _ => Some (acc, s)
  | S w, c :: s' =>
      if is_digit c then read_digits w (acc * 10 + Z.of_N (c - 48)) s' else None
  | S _, [] => None
  end.

Definition expect (c : N) (s : text) : option text :=
  match s with x :: s' => if (x =? c)%N then Some s' else None | [] => None end.

Definition read_year (s : text) : option (Z * text) :=
  match s with
  | c :: s' =>
      if (c =? DASH)%N then
        '(y, rest) ← read_digits 6 0 s'; if y =? 0 then None else Some (- y, rest)
      else if (c =? PLUS)%N then read_digits 6 0 s'
      else read_digits 4 0 s
  | [] => None
  end.

Definition in_range (lo hi n : Z) : bool := (lo <=? n) && (n <=? hi).

(** [None]: not this format (another of the formats of [new Date(s)], or none). *)
Definition parse_iso (s : text) : option Z :=
  '(y, s) ← read_year s; s ← expect DASH s;
  '(mo, s) ← read_digits 2 0 s; s ← expect DASH s;
  '(d, s) ← read_digits 2 0 s; s ← expect LETTER_T s;
  '(h, s) ← read_digits 2 0 s; s ← expect COLON s;
  '(mi, s) ← read_digits 2 0 s; s ← expect COLON s;
  '(sec, s) ← read_digits 2 0 s; s ← expect DOT s;
  '(ms, s) ← read_digits 3 0 s; s ← expect LETTER_Z s;
  if bool_decide (s = []) && in_range 1 12 mo && in_range 1 31 d
     && in_range 0 23 h && in_range 0 59 mi && in_range 0 59 sec
  then Some (days_from_civil {| year := y; month := mo; day := d |} * MS_PER_DAY
             + h * 3600000 + mi * 60000 + sec * 1000 + ms)
  else None.

(** ** Lemmas *)

Lemma read_digits_snoc w acc s v c rest :
  read_digits w acc s = Some (v, c :: rest) -> is_digit c = true ->
  read_digits (S w) acc s = Some (v * 10 + Z.of_N (c - 48), rest).
Proof.
  revert acc s. induction w as [|w IH]; intros acc s Hr Hc.
  - cbn in Hr. simplify_eq. cbn. by rewrite Hc.
  - destruct s as [|x s]; [done|]. cbn [read_digits] in Hr. change (read_digits (S (S w)) acc (x :: s))
      with (if is_digit x then read_digits (S w) (acc * 10 + Z.of_N (x - 48)) s else None).
    destruct (is_digit x); [|done]. by apply IH.
Qed.

Lemma low_digit n : is_digit (Z.to_N (n mod 10) + 48) = true /\
  Z.of_N (Z.to_N (n mod 10) + 48 - 48) = n mod 10.
Proof.
  pose proof (Z.mod_pos_bound n 10 ltac:(lia)). unfold is_digit.
  rewrite andb_true_iff, !N.leb_le. split; lia.
Qed.

Lemma read_digits_print w n acc rest :
  0 <= n < 10 ^ Z.of_nat w ->
  read_digits w acc (digits w n ++ rest) = Some (acc * 10 ^ Z.of_nat w + n, rest).
Proof.
  revert n acc rest. induction w as [|w IH]; intros n acc rest Hn.
  - cbn. f_equal. f_equal. cbn in Hn. lia.
  - destruct (low_digit n) as [Hd Hv]. cbn [digits]. rewrite <- app_assoc. cbn [app].
    rewrite Nat2Z.inj_succ, Z.pow_succ_r in * by lia.
    assert (0 <= n / 10 < 10 ^ Z.of_nat w) as Hq.
    { split; [apply Z.div_pos; lia|]. apply Z.div_lt_upper_bound; lia. }
    erewrite read_digits_snoc; [|by apply IH|done]. rewrite Hv.
    pose proof (Z.div_mod n 10 ltac:(lia)). f_equal. f_equal. lia.
Qed.

(** Bounds against [10 ^ width]. *)
Ltac width_lia :=
  match goal with |- context [10 ^ Z.of_nat ?w] =>
    let v := eval vm_compute in (10 ^ Z.of_nat w) in change (10 ^ Z.of_nat w) with v end; lia.

Lemma digits_ascii w n : Forall (fun c => (c < 256)%N) (digits w n).
Proof.
  revert n. induction w as [|w IH]; intros n; [done|]. cbn [digits].
  apply Forall_app. split; [done|]. constructor; [|done].
  pose proof (Z.mod_pos_bound n 10 ltac:(lia)). lia.
Qed.

Lemma toISOString_ascii t : Forall (fun c => (c < 256)%N) (toISOString t).
Proof.
  unfold toISOString. rewrite !Forall_app. split_and!; try apply digits_ascii; try (by repeat constructor).
  unfold print_year. destruct (_ && _); [apply digits_ascii|].
  destruct (_ <? 0); (apply Forall_cons_2; [done|apply digits_ascii]).
Qed.

(** The years a [Date] can have. *)
Definition year_ok (y : Z) : Prop := -999999 <= y <= 999999.

Lemma read_print_year y rest :
  year_ok y -> read_year (print_year y ++ rest) = Some (y, rest).
Proof.
  intros Hy. unfold year_ok in Hy. unfold print_year.
  destruct (Z.leb_spec 0 y) as [H0|H0]; [destruct (Z.leb_spec y 9999) as [H1|H1]|]; cbn [andb].
  - assert (exists c s, digits 4 y = c :: s /\ is_digit c = true) as (c & s & E & Hc).
    { eexists _, _. split; [reflexivity|apply (low_digit (y / 10 / 10 / 10))]. }
    rewrite E. cbn [app].
    unfold read_year. unfold is_digit in Hc. apply andb_true_iff in Hc as [Hc1 Hc2].
    apply N.leb_le in Hc1, Hc2.
    rewrite (proj2 (N.eqb_neq c DASH)), (proj2 (N.eqb_neq c PLUS)) by (unfold DASH, PLUS; lia).
    change (c :: s ++ rest) with ((c :: s) ++ rest). rewrite <- E.
    rewrite read_digits_print by width_lia. done.
  - rewrite (proj2 (Z.ltb_ge y 0)) by lia. cbn [app read_year].
    change (PLUS =? DASH)%N with false. change (PLUS =? PLUS)%N with true. cbn iota.
    rewrite read_digits_print by width_lia. done.
  - rewrite (proj2 (Z.ltb_lt y 0)) by lia. cbn [app read_year].
    change (DASH =? DASH)%N with true. cbn iota.
    rewrite read_digits_print by width_lia. cbn [mbind option_bind].
    change (0 * 10 ^ Z.of_nat 6 + - y) with (- y).
    rewrite (proj2 (Z.eqb_neq (- y) 0)) by lia. f_equal. f_equal. lia.
Qed.

(** A [Date] is within 100 million days of the epoch, so its year has at most six
    digits. *)
Lemma civil_year days : -100000000 <= days <= 100000000 -> year_ok (year (civil_from_days days)).
Proof.
  intros H. unfold year_ok, civil_from_days. cbn [year].
  pose proof (Z.mod_pos_bound (days + 719468) 146097 ltac:(lia)) as Hb.
  destruct (era_year _ Hb) as [Hy _].
  pose proof (Z.div_le_lower_bound (days + 719468) 146097 (-680) ltac:(lia) ltac:(lia)).
  pose proof (Z.div_le_upper_bound (days + 719468) 146097 690 ltac:(lia) ltac:(lia)).
  destruct (_ <=? 2); lia.
Qed.

Lemma expect_cons c s : expect c (c :: s) = Some s.
Proof. unfold expect. by rewrite N.eqb_refl. Qed.

(** Every instant is read back from the text it is printed as. *)
Lemma parse_print_iso t : - MAX_TIME <= t <= MAX_TIME -> parse_iso (toISOString t) = Some t.
Proof.
  intros Ht. unfold MAX_TIME in Ht. unfold toISOString.
  set (days := t / MS_PER_DAY). set (ms := t mod MS_PER_DAY).
  pose proof (Z.div_mod t MS_PER_DAY ltac:(done)) as Hdm. fold days ms in Hdm.
  pose proof (Z.mod_pos_bound t MS_PER_DAY ltac:(done)) as Hms. fold ms in Hms.
  unfold MS_PER_DAY in Hms, Hdm.
  assert (Hyear : year_ok (year (civil_from_days days))) by (apply civil_year; lia).
  destruct (civil_bounds days) as [Hmo Hd].
  pose proof (Z.div_mod ms 3600000 ltac:(lia)) as E1. pose proof (Z.mod_pos_bound ms 3600000 ltac:(lia)).
  pose proof (Z.div_mod ms 60000 ltac:(lia)) as E2. pose proof (Z.mod_pos_bound ms 60000 ltac:(lia)).
  pose proof (Z.div_mod ms 1000 ltac:(lia)) as E3. pose proof (Z.mod_pos_bound ms 1000 ltac:(lia)).
  pose proof (Z.div_mod (ms / 60000) 60 ltac:(lia)) as E4.
  pose proof (Z.mod_pos_bound (ms / 60000) 60 ltac:(lia)).
  pose proof (Z.div_mod (ms / 1000) 60 ltac:(lia)) as E5.
  pose proof (Z.mod_pos_bound (ms / 1000) 60 ltac:(lia)).
  unfold parse_iso. rewrite read_print_year by done. cbn [mbind option_bind app].
  repeat (rewrite expect_cons; cbn [mbind option_bind];
          rewrite ?read_digits_print by width_lia; cbn [mbind option_bind app]).
  rewrite bool_decide_true by done. unfold in_range. change (10 ^ Z.of_nat 2) with 100.
  rewrite !(proj2 (Z.leb_le _ _)) by lia. cbn [andb]. f_equal.
  change {| year := year (civil_from_days days); month := _; day := _ |} with (civil_from_days days).
  rewrite days_from_civil_from_days. unfold MS_PER_DAY.
  replace (ms / 60000 / 60) with (ms / 3600000) in E4 by (rewrite Z.div_div by lia; done).
  replace (ms / 1000 / 60) with (ms / 60000) in E5 by (rewrite Z.div_div by lia; done). lia.
Qed.
