(* ===== verification/JsMap.v ===== *)
(** * JsMap: JavaScript [Map] and [Array.prototype.sort]

    A [Map] iterates in insertion order and keeps the position of a key whose
    value is replaced, so it is an association list; [sort] is stable
    (ECMAScript 2019), so it is insertion sort. *)

From stdpp Require Import base option list strings sets sorting.
From Stdlib Require Import ZArith Lia Permutation.
From S2P Require Import Prelude.

Local Open Scope Z_scope.

Abbreviation jsmap V := (list (string * V)).

Section Map.
Context {V : Type}.
Implicit Types (m : jsmap V) (k : string) (v : V).

Fixpoint jm_get k m : option V :=
  match m with
  | [] => None
  | (k', v) :: m' => if String.eqb k k' then Some v else jm_get k m'
  end.

(** [m.set(k, v)]. *)
Fixpoint jm_set k v m : jsmap V :=
  match m with
  | [] => [(k, v)]
  | (k', v') :: m' => if String.eqb k k' then (k, v) :: m' else (k', v') :: jm_set k v m'
  end.

(** [m.delete(k)]: the map after it (whether [k] was there is [jm_has]). *)
Fixpoint jm_delete k m : jsmap V :=
  match m with
  | [] => []
  | (k', v') :: m' => if String.eqb k k' then m' else (k', v') :: jm_delete k m'
  end.

Definition jm_has k m : bool := match jm_get k m with Some _ => true | None => false end.
Definition jm_values m : list V := m.*2.
Definition jm_keys m : list string := m.*1.

(** No key twice. *)
Definition jm_wf m : Prop := NoDup (jm_keys m).

Lemma jm_get_elem k v m : jm_get k m = Some v -> (k, v) ∈ m.
Proof.
  induction m as [|[k' v'] m IH]; cbn; [done|]. destruct (String.eqb_spec k k') as [->|].
  - intros [= ->]. set_solver.
  - intros H%IH. set_solver.
Qed.

Lemma jm_get_None k m : jm_get k m = None <-> k ∉ jm_keys m.
Proof.
  induction m as [|[k' v'] m IH]; cbn; [set_solver|].
  destruct (String.eqb_spec k k') as [->|]; [set_solver|]. rewrite IH. set_solver.
Qed.

Lemma jm_wf_get k v m : jm_wf m -> (k, v) ∈ m -> jm_get k m = Some v.
Proof.
  unfold jm_wf. induction m as [|[k' v'] m IH]; cbn; [set_solver|].
  intros [Hk Hnd]%NoDup_cons [[= -> ->]|Hin]%elem_of_cons.
  - by rewrite String.eqb_refl.
  - destruct (String.eqb_spec k k') as [->|]; [|by apply IH].
    exfalso. apply Hk. apply list_elem_of_fmap. by exists (k', v).
Qed.

Lemma jm_get_set k k' v m :
  jm_get k' (jm_set k v m) = if String.eqb k' k then Some v else jm_get k' m.
Proof.
  induction m as [|[k1 v1] m IH]; cbn; [done|].
  destruct (String.eqb_spec k k1) as [->|Hk]; cbn.
  - by destruct (String.eqb_spec k' k1).
  - rewrite IH. destruct (String.eqb_spec k' k1) as [->|]; [|done].
    by destruct (String.eqb_spec k1 k).
Qed.

Lemma jm_keys_set k v m :
  jm_keys (jm_set k v m) = if decide (k ∈ jm_keys m) then jm_keys m else jm_keys m ++ [k].
Proof.
  unfold jm_keys. induction m as [|[k1 v1] m IH]; cbn; [by case_decide; [set_solver|]|].
  destruct (String.eqb_spec k k1) as [->|Hk]; cbn.
  - rewrite decide_True by set_solver. done.
  - rewrite IH. destruct (decide (k ∈ m.*1)).
    + by rewrite decide_True by set_solver.
    + by rewrite decide_False by set_solver.
Qed.

Lemma jm_wf_set k v m : jm_wf m -> jm_wf (jm_set k v m).
Proof.
  unfold jm_wf. intros H. rewrite jm_keys_set. case_decide as Hin; [done|].
  apply NoDup_app. split_and!; [done|set_solver|apply NoDup_singleton].
Qed.

Lemma jm_keys_delete k m : jm_wf m -> jm_keys (jm_delete k m) = filter (fun k' => k' <> k) (jm_keys m).
Proof.
  unfold jm_wf, jm_keys. induction m as [|[k1 v1] m IH]; [done|].
  rewrite fmap_cons. cbn [jm_delete fst].
  intros [Hk Hnd]%NoDup_cons. destruct (String.eqb_spec k k1) as [->|Hne].
  - rewrite filter_cons_False by auto. clear IH Hnd. revert Hk.
    induction (m.*1) as [|x l IH]; [done|]. intros [??]%not_elem_of_cons.
    rewrite filter_cons_True by auto. f_equal. by apply IH.
  - rewrite fmap_cons, filter_cons_True by auto. cbn [fst]. by rewrite IH.
Qed.

Lemma jm_wf_delete k m : jm_wf m -> jm_wf (jm_delete k m).
Proof. intros H. unfold jm_wf. rewrite jm_keys_delete by done. by apply NoDup_filter. Qed.

Lemma jm_get_delete k k' m :
  jm_wf m -> jm_get k' (jm_delete k m) = if String.eqb k' k then None else jm_get k' m.
Proof.
  intros Hwf. destruct (String.eqb_spec k' k) as [->|Hne].
  - apply jm_get_None. rewrite jm_keys_delete by done. rewrite list_elem_of_filter. by intros [??].
  - clear Hwf. induction m as [|[k1 v1] m IH]; cbn; [done|].
    destruct (String.eqb_spec k k1) as [->|]; cbn.
    + by destruct (String.eqb_spec k' k1).
    + by rewrite IH.
Qed.

Lemma jm_values_elem v m : v ∈ jm_values m <-> exists k, (k, v) ∈ m.
Proof.
  unfold jm_values. rewrite list_elem_of_fmap. split.
  - intros ([k v'] & -> & Hin). by exists k.
  - intros [k Hin]. by exists (k, v).
Qed.
End Map.

(** ** Sorting *)

Section Sort.
Context {A : Type} (cmp : A -> A -> Z).

Fixpoint insert_by (x : A) (l : list A) : list A :=
  match l with
  | [] => [x]
  | y :: l' => if cmp x y <=? 0 then x :: l else y :: insert_by x l'
  end.

(** [array.sort(cmp)]. *)
Definition sort_by (l : list A) : list A := foldr insert_by [] l.

Lemma insert_by_perm x l : Permutation (insert_by x l) (x :: l).
Proof.
  induction l as [|y l IH]; cbn; [done|]. case_match; [done|].
  rewrite IH. constructor.
Qed.

Lemma sort_by_perm l : Permutation (sort_by l) l.
Proof. induction l as [|x l IH]; cbn; [done|]. by rewrite insert_by_perm, IH. Qed.

(** A comparator that orders: total and transitive. *)
Context (cmp_total : forall a b, cmp a b <= 0 \/ cmp b a <= 0)
        (cmp_trans : forall a b c, cmp a b <= 0 -> cmp b c <= 0 -> cmp a c <= 0).

Lemma insert_by_sorted x l :
  StronglySorted (fun a b => cmp a b <= 0) l ->
  StronglySorted (fun a b => cmp a b <= 0) (insert_by x l).
Proof.
  induction 1 as [|y l Hs IH Hall]; cbn; [by repeat constructor|].
  destruct (Z.leb_spec (cmp x y) 0) as [Hle|Hgt].
  - constructor; [by constructor|]. constructor; [done|].
    eapply Forall_impl; [done|]. eauto.
  - constructor; [done|]. rewrite insert_by_perm. constructor; [|done].
    destruct (cmp_total x y); [lia|done].
Qed.

Lemma sort_by_sorted l : StronglySorted (fun a b => cmp a b <= 0) (sort_by l).
Proof. induction l as [|x l IH]; cbn; [constructor|by apply insert_by_sorted]. Qed.
End Sort.

Lemma insert_by_agree {A} (cmp cmp' : A -> A -> Z) x l :
  (forall b, b ∈ l -> cmp x b = cmp' x b) -> insert_by cmp x l = insert_by cmp' x l.
Proof.
  induction l as [|y l IH]; intros Heq; cbn; [done|].
  rewrite Heq by set_solver. case_match; [done|]. f_equal. apply IH. set_solver.
Qed.

(** Only the comparisons between members of the array matter. *)
Lemma sort_by_agree {A} (cmp cmp' : A -> A -> Z) l :
  (forall a b, a ∈ l -> b ∈ l -> cmp a b = cmp' a b) -> sort_by cmp l = sort_by cmp' l.
Proof.
  unfold sort_by. induction l as [|x l IH]; intros Heq; [done|]. cbn [foldr].
  rewrite <- IH by (intros; apply Heq; set_solver). apply insert_by_agree.
  intros b Hb. apply Heq; [set_solver|]. apply elem_of_cons; right.
  by rewrite <- (sort_by_perm cmp l).
Qed.
