(* ===== verification/Limits.v ===== *)
(** * Limits: the API facts every component shares

    src/clients/typescript/src/limits.ts (generated from limits.json) and the
    idle policy of src/clients/typescript/src/models.ts, with its validation. *)

From stdpp Require Import base option list strings.
From Stdlib Require Import ZArith QArith Lia.
From S2P Require Import Prelude.

Local Open Scope Z_scope.

Definition MAX_DURATION_SECONDS : Z := 28800.
Definition MIN_DURATION_SECONDS : Z := 1.
Definition IDLE_MAX_IDLE_MIN_SECONDS : Z := 60.
Definition IDLE_SUSPENDED_MIN_SECONDS : Z := 0.
Definition TOKEN_REFRESH_AFTER_MINUTES : Z := 45.
Definition TOKEN_REFRESH_RETRY_SECONDS : Z := 60.
Definition DEFAULT_PORT : Z := 8080.
Definition HOOKS_PORT : Z := 9000.
Definition LIFECYCLE_CAP_MARGIN_SECONDS : Z := 60.
Definition LIFECYCLE_MIN_MAX_LIFETIME_SECONDS : Z := 120.
Definition LIFECYCLE_AUTO_RESUME_MIN_SECONDS : Z := 300.
Definition LIFECYCLE_MIN_TIMEOUT_SECONDS : Z := 1.
Definition POOL_SIZE_MAX : Z := 64.
Definition DEFAULT_MAX_IDLE_SECONDS : Z := 300.

Definition TERMINAL_STATES : list string := ["TERMINATING"; "TERMINATED"].
Definition SUSPENDED_STATES : list string := ["SUSPENDING"; "SUSPENDED"].

(** ** The idle policy *)

Record IdlePolicyInput := {
  in_maxIdleSeconds : option jsnum;
  in_suspendedDurationSeconds : option jsnum;
  in_autoResume : option bool
}.

Record IdlePolicy := {
  maxIdleSeconds : Z;
  suspendedDurationSeconds : option Z;
  idle_autoResume : bool
}.

(** [idle ?? {}]. *)
Definition empty_idle_input : IdlePolicyInput :=
  {| in_maxIdleSeconds := None; in_suspendedDurationSeconds := None; in_autoResume := None |}.

Definition validateIdlePolicy (input : IdlePolicyInput) : result IdlePolicy :=
  let maxIdle := default (num_of_Z DEFAULT_MAX_IDLE_SECONDS) (in_maxIdleSeconds input) in
  match integer_of maxIdle with
  | None => Throw InvalidArgumentError
  | Some m =>
      if m <? IDLE_MAX_IDLE_MIN_SECONDS then Throw InvalidArgumentError else
      let policy s := {| maxIdleSeconds := m; suspendedDurationSeconds := s;
                         idle_autoResume := default true (in_autoResume input) |} in
      match in_suspendedDurationSeconds input with
      | None => Ok (policy None)
      | Some n =>
          match integer_of n with
          | None => Throw InvalidArgumentError
          | Some s =>
              if s <? IDLE_SUSPENDED_MIN_SECONDS then Throw InvalidArgumentError
              else Ok (policy (Some s))
          end
      end
  end.

(** A validated policy. *)
Definition idle_wf (p : IdlePolicy) : Prop :=
  IDLE_MAX_IDLE_MIN_SECONDS <= maxIdleSeconds p /\
  forall s, suspendedDurationSeconds p = Some s -> 0 <= s.

Lemma validateIdlePolicy_wf input p : validateIdlePolicy input = Ok p -> idle_wf p.
Proof.
  unfold validateIdlePolicy. destruct (integer_of _) as [m|]; [|done].
  destruct (Z.ltb_spec m IDLE_MAX_IDLE_MIN_SECONDS); [done|]. cbv zeta.
  destruct (in_suspendedDurationSeconds input) as [n|].
  - destruct (integer_of n) as [s|]; [|done].
    destruct (Z.ltb_spec s IDLE_SUSPENDED_MIN_SECONDS); [done|].
    intros [= <-]. split; [done|]. by intros ? [= <-].
  - intros [= <-]. split; done.
Qed.

(** The input's explicit fields survive validation. *)
Lemma validateIdlePolicy_suspended input p :
  validateIdlePolicy input = Ok p ->
  suspendedDurationSeconds p = None <-> in_suspendedDurationSeconds input = None.
Proof.
  unfold validateIdlePolicy. destruct (integer_of _); [|done]. case_match; [done|]. cbv zeta.
  destruct (in_suspendedDurationSeconds input) as [n|].
  - destruct (integer_of n); [|done]. case_match; [done|]. by intros [= <-].
  - by intros [= <-].
Qed.
