(* ===== verification/RpcErrors.v ===== *)
(** * RpcErrors: how failures of the agent's RPCs are read

    src/clients/typescript/src/transport/errors.ts and
    src/clients/typescript/src/sandbox/stream-errors.ts: which failures were never
    sent, which cut a stream and are worth a reconnection, which mean a token to
    mint again, and the error each becomes for the caller.  Message texts of the
    errors the SDK throws are not modelled; the texts the code compares are. *)

From stdpp Require Import base option list strings sets.
From Stdlib Require Import NArith ZArith Lia.
From S2P Require Import Prelude Text Limits.
From S2P Require JsDate.

Local Open Scope N_scope.

(** The gRPC status codes of Connect. *)
Inductive Code :=
  | Canceled | Unknown | InvalidArgument | DeadlineExceeded | NotFound | AlreadyExists
  | PermissionDenied | ResourceExhausted | FailedPrecondition | Aborted | OutOfRange
  | Unimplemented | Internal | Unavailable | DataLoss | Unauthenticated.

#[export] Instance Code_eq_dec : EqDecision Code.
Proof. solve_decision. Defined.

(** What a [catch] may receive: an error of Connect, one of the SDK's own with the
    properties the tables set, any other [Error] (those of Node), an object that is
    no [Error], or a value that is not an object.  [cause] is its cause, if it has
    one; [code] and [syscall] are read of any object. *)
Inductive thrown :=
  | ConnectError (code : Code) (rawMessage : text) (cause : option thrown)
  | OwnError (class : error_class) (code : option text) (grpcCode : option Code) (proxyRejected : bool)
      (cause : option thrown)
  | NodeError (code syscall : option text) (cause : option thrown)
  | PlainObject (code syscall : option text) (cause : option thrown)
  | NotAnObject.

Definition PROXY_FORBIDDEN_MESSAGE : text := txt "HTTP 403".
Definition PHASE_GATE_DETAILS : list text := [txt "suspending"; txt "terminating"].
Definition KERNEL_GATE_PREFIX : text := txt "kernel not ready".
Definition H2_CLOSED_PREFIX : text := txt "http/2 stream closed".
Definition MISSING_STATUS_MESSAGE : text := txt "protocol error: missing status".
Definition DISK_FULL_DETAILS : list text := [txt "disk_reserve"; txt "disk_full"].
Definition RESET_NODE_CODES : list text := [txt "ECONNRESET"; txt "EPIPE"].
Definition CONNECT_SYSCALL : text := txt "connect".
Definition CONNECT_RETRY_DELAYS_MS : list N := [250; 500; 1000; 2000; 4000].
Definition SANDBOX_TIMEOUT_DETAIL : text := txt "sandbox_timeout".
Definition LIFECYCLE_UNMANAGED_DETAIL : text := txt "lifecycle_unmanaged".
Definition BEYOND_CAP_PREFIX : text := txt "timeout beyond cap".

(** ** The chain of causes, read eight deep *)

Definition cause_of (e : thrown) : option thrown :=
  match e with
  | ConnectError _ _ c | OwnError _ _ _ _ c | NodeError _ _ c | PlainObject _ _ c => c
  | NotAnObject => None
  end.

Fixpoint chain_has (p : thrown -> bool) (depth : nat) (current : option thrown) : bool :=
  match depth, current with
  | S depth', Some e =>
      match e with
      | NotAnObject => false
      | _ => p e || chain_has p depth' (cause_of e)
      end
  | _, _ => false
  end.

Definition CAUSE_DEPTH : nat := 8.

Definition is_connect_syscall (e : thrown) : bool :=
  match e with NodeError _ (Some s) _ | PlainObject _ (Some s) _ => bool_decide (s = CONNECT_SYSCALL) | _ => false end.

(** Only a [code] that is a string counts: Connect's is a number. *)
Definition is_reset_code (e : thrown) : bool :=
  match e with
  | NodeError (Some code) _ _ | PlainObject (Some code) _ _ | OwnError _ (Some code) _ _ _ =>
      starts_with (txt "ERR_HTTP2_") code || bool_decide (code ∈ RESET_NODE_CODES)
  | _ => false
  end.

Definition isConnectionNotEstablished (error : thrown) : bool :=
  match error with
  | ConnectError Unavailable _ cause => chain_has is_connect_syscall CAUSE_DEPTH cause
  | _ => false
  end.

Definition causeChainHasNodeResetCode (cause : option thrown) : bool := chain_has is_reset_code CAUSE_DEPTH cause.

(** ** The classification *)

Definition isProxyForbidden (error : thrown) : bool :=
  match error with
  | ConnectError code message _ => bool_decide (code = PermissionDenied) && bool_decide (message = PROXY_FORBIDDEN_MESSAGE)
  | _ => false
  end.

Definition isPhaseGate (error : thrown) : bool :=
  match error with
  | ConnectError code message _ => bool_decide (code = Unavailable) && bool_decide (message ∈ PHASE_GATE_DETAILS)
  | _ => false
  end.

Definition isKernelGate (error : thrown) : bool :=
  match error with
  | ConnectError code message _ => bool_decide (code = Unavailable) && starts_with KERNEL_GATE_PREFIX message
  | _ => false
  end.

Definition isOwnAbort (error : thrown) : bool :=
  match error with
  | ConnectError code message _ => bool_decide (code = Canceled) && negb (starts_with H2_CLOSED_PREFIX message)
  | _ => false
  end.

Definition isStreamReset (error : thrown) : bool :=
  match error with
  | ConnectError code message cause =>
      match code with
      | Unavailable => negb (isPhaseGate error || isKernelGate error)
      | Aborted => true
      | Canceled => starts_with H2_CLOSED_PREFIX message
      | Internal => starts_with H2_CLOSED_PREFIX message || bool_decide (message = MISSING_STATUS_MESSAGE) ||
                    causeChainHasNodeResetCode cause
      | _ => false
      end
  | _ => false
  end.

Definition isNotYetReachable (error : thrown) : bool :=
  match error with
  | ConnectError code _ _ =>
      bool_decide (code = Unavailable) || bool_decide (code = DeadlineExceeded) || isStreamReset error
  | _ => false
  end.

Definition isSandboxTimeout (error : thrown) : bool :=
  match error with
  | ConnectError code message _ =>
      bool_decide (code = FailedPrecondition) && bool_decide (message = SANDBOX_TIMEOUT_DETAIL)
  | _ => false
  end.

Definition isReconnectable (error : thrown) : bool := isStreamReset error || isPhaseGate error.

(** ** The error for the caller *)

(** [new C(message, { grpcCode, cause })]. *)
Definition own (class : error_class) (code : Code) (cause : thrown) : thrown :=
  OwnError class None (Some code) false (Some cause).

Definition ownErrorInCause (cause : option thrown) : option thrown :=
  match cause with
  | Some (OwnError class _ _ _ _ as e) =>
      if existsb (instance_of class) [SandboxError; AuthenticationError; QuotaExceededError; CapacityError]
      then Some e else None
  | _ => None
  end.

Definition sandboxTimeoutError (code : option Code) (cause : option thrown) : thrown :=
  OwnError TimeoutError None code false cause.

(** The gRPC code is not kept in an [UnimplementedError]. *)
Definition unimplementedRpcError (connect : thrown) : thrown :=
  OwnError UnimplementedError None None false (Some connect).

Definition translateRpcError (filesystem : bool) (error : thrown) : thrown :=
  match error with
  | ConnectError code message cause =>
      match ownErrorInCause cause with
      | Some e => e
      | None =>
          if isPhaseGate error then own SandboxStateError code error
          else if isKernelGate error then own SandboxError code error
          else if isSandboxTimeout error then sandboxTimeoutError (Some code) (Some error)
          else match code with
          | InvalidArgument | FailedPrecondition => own InvalidArgumentError code error
          | Unimplemented => unimplementedRpcError error
          | Unauthenticated => own AuthenticationError code error
          | PermissionDenied =>
              OwnError AuthenticationError None (Some code) (isProxyForbidden error) (Some error)
          | NotFound => own (if filesystem then FileNotFoundError else NotFoundError) code error
          | OutOfRange => own NotFoundError code error
          | ResourceExhausted =>
              own (if bool_decide (message ∈ DISK_FULL_DETAILS) then DiskFullError else RateLimitError) code error
          | DeadlineExceeded => own TimeoutError code error
          | _ => own SandboxError code error
          end
      end
  | OwnError _ _ _ _ _ | NodeError _ _ _ => error
  | PlainObject _ _ _ | NotAnObject => OwnError SandboxError None None false None
  end.

(** The closed set of codes of a [StreamError]. *)
Definition translateStreamError (filesystem : bool) (code message : text) : error_class :=
  if bool_decide (code = txt "not_found") then (if filesystem then FileNotFoundError else NotFoundError)
  else if bool_decide (code = txt "permission_denied") then AuthenticationError
  else if bool_decide (code = txt "deadline_exceeded") then TimeoutError
  else if bool_decide (code = SANDBOX_TIMEOUT_DETAIL) then TimeoutError
  else if bool_decide (code ∈ [txt "unimplemented"; txt "invalid_argument"; txt "failed_precondition"])
  then InvalidArgumentError
  else if bool_decide (code = txt "resource_exhausted")
  then (if bool_decide (message ∈ DISK_FULL_DETAILS) then DiskFullError else RateLimitError)
  else if bool_decide (code = txt "suspending") then SandboxStateError
  else SandboxError.

(** The digits in front of a text, and whether there are any. *)
Fixpoint leading_digits (s : text) : text :=
  match s with
  | c :: r => if is_digit c then c :: leading_digits r else []
  | [] => []
  end.

Definition CAP_MARK : text := txt "cap_unix_ms=".

(** The match of [/cap_unix_ms=(-?\d+)/] at the start of the text. *)
Definition cap_here (s : text) : option Z :=
  if starts_with CAP_MARK s then
    let (negative, ds) := match drop (length CAP_MARK) s with
                          | 45 :: r => (true, leading_digits r)
                          | r => (false, leading_digits r)
                          end in
    match ds with
    | [] => None
    | _ => let n := Z.of_N (parse_nat 10 ds) in Some (if negative then Z.opp n else n)
    end
  else None.

Fixpoint capFromDetail (detail : text) : option Z :=
  match cap_here detail, detail with
  | Some z, _ => Some z
  | None, _ :: r => capFromDetail r
  | None, [] => None
  end.

(** [beyondCapError]: the error and its [capUnixMs]; the message prints the cap as a
    date, so a cap that is no date makes it throw a [RangeError] instead. *)
Definition beyondCapError (capUnixMs : option Z) (code : Code) (cause : thrown) : thrown * option Z :=
  match capUnixMs with
  | Some cap => if (Z.abs cap <=? JsDate.MAX_TIME)%Z then (own LifetimeBeyondCapError code cause, Some cap)
                else (NodeError None None None, None)
  | None => (own LifetimeBeyondCapError code cause, None)
  end.

(** The error, with the [capUnixMs] of a [LifetimeBeyondCapError]. *)
Definition translateSetTimeoutError (error : thrown) : thrown * option Z :=
  match error with
  | ConnectError code message cause =>
      match ownErrorInCause cause with
      | Some _ => (translateRpcError false error, None)
      | None =>
          if bool_decide (code = InvalidArgument) && starts_with BEYOND_CAP_PREFIX message
          then beyondCapError (capFromDetail message) code error
          else if bool_decide (code = FailedPrecondition) && bool_decide (message = LIFECYCLE_UNMANAGED_DETAIL)
          then (own InvalidArgumentError code error, None)
          else if bool_decide (code = Unimplemented)
          then (OwnError LifecycleUnsupportedError None None false (Some error), None)
          else (translateRpcError false error, None)
      end
  | _ => (translateRpcError false error, None)
  end.

(** A cut stream, by what [Health] and [get-microvm] say after it. *)
Definition streamFailureError (error : thrown) (healthOk : bool) (state : option string) : thrown :=
  match error with
  | ConnectError code _ _ =>
      if negb (isStreamReset error) then translateRpcError false error
      else if healthOk then own SandboxError code error
      else match state with
      | Some s =>
          if bool_decide (s ∈ TERMINAL_STATES) then own SandboxNotFoundError code error
          else if bool_decide (s ∈ SUSPENDED_STATES) then own SandboxStateError code error
          else own SandboxError code error
      | None => own SandboxError code error
      end
  | _ => translateRpcError false error
  end.

(** ** Retrying what was never sent *)

Section Retry.
Context {W A : Type}.

(** One attempt of the call, a wait, whether the caller's signal is aborted (and
    the reason it is rejected with), over a world [W]. *)
Variable call : W -> (A + thrown) * W.
Variable sleep : N -> W -> W.
Variable aborted : W -> option thrown.

Fixpoint retry_loop (delays : list N) (w : W) : (A + thrown) * W :=
  match delays with
  | [] => call w
  | delay :: rest =>
      match call w with
      | (inl a, w') => (inl a, w')
      | (inr e, w') =>
          if negb (isConnectionNotEstablished e) || bool_decide (is_Some (aborted w')) then (inr e, w')
          else
            let w'' := sleep delay w' in
            match aborted w'' with
            | Some reason => (inr reason, w'')
            | None => retry_loop rest w''
            end
      end
  end.

Definition retryUnestablished (w : W) : (A + thrown) * W := retry_loop CONNECT_RETRY_DELAYS_MS w.
End Retry.

(** ** Lemmas *)

Fixpoint nth_cause (n : nat) (current : option thrown) : option thrown :=
  match n with
  | O => current
  | S n' => e ← current; nth_cause n' (cause_of e)
  end.

Lemma chain_has_spec p depth current :
  p NotAnObject = false ->
  chain_has p depth current = true <-> exists n e, (n < depth)%nat /\ nth_cause n current = Some e /\ p e = true.
Proof.
  intros Hp. revert current. induction depth as [|depth IH]; intros current; cbn.
  { split; [done|]. intros (n & e & Hn & _). lia. }
  destruct current as [e|].
  - assert (match e with NotAnObject => false | _ => p e || chain_has p depth (cause_of e) end
            = p e || chain_has p depth (cause_of e)) as ->.
    { destruct e; try done. rewrite Hp. cbn. by destruct depth. }
    rewrite orb_true_iff, IH. split.
    + intros [H|(n & e' & Hn & H & Hpe)]; [exists 0%nat, e; split_and!; [lia|done|done]|].
      exists (S n), e'. split_and!; [lia|done|done].
    + intros (n & e' & Hn & H & Hpe). destruct n as [|n]; cbn in H; [left; by simplify_eq|].
      right. exists n, e'. split_and!; [lia|done|done].
  - split; [done|]. intros (n & e & Hn & H & _). by destruct n.
Qed.

(** A failure that means the stream was cut below gRPC, or that the agent is about
    to be suspended. *)
Definition reconnectable (code : Code) (message : text) (cause : option thrown) : Prop :=
  match code with
  | Unavailable => starts_with KERNEL_GATE_PREFIX message = false
  | Aborted => True
  | Canceled => starts_with H2_CLOSED_PREFIX message = true
  | Internal => starts_with H2_CLOSED_PREFIX message = true \/ message = MISSING_STATUS_MESSAGE \/
      exists n e, (n < CAUSE_DEPTH)%nat /\ nth_cause n cause = Some e /\ is_reset_code e = true
  | _ => False
  end.

(** Decides the comparisons of status codes once the code is known. *)
Ltac compare_codes :=
  repeat match goal with
  | |- context [bool_decide (?a = ?b :> Code)] =>
      let v := eval vm_compute in (bool_decide (a = b)) in
      first [constr_eq v true | constr_eq v false]; change (bool_decide (a = b)) with v
  end; cbn [andb orb negb].

Lemma gates_disjoint message : message ∈ PHASE_GATE_DETAILS -> starts_with KERNEL_GATE_PREFIX message = false.
Proof. unfold PHASE_GATE_DETAILS. intros H. repeat (apply elem_of_cons in H as [->|H]; [done|]). by apply elem_of_nil in H. Qed.

Lemma isReconnectable_connect code message cause :
  isReconnectable (ConnectError code message cause) = true <-> reconnectable code message cause.
Proof.
  unfold isReconnectable, isStreamReset, isPhaseGate, isKernelGate, reconnectable.
  destruct code; compare_codes; rewrite ?orb_false_r; try (by split).
  - rewrite !orb_true_iff, bool_decide_eq_true. unfold causeChainHasNodeResetCode. rewrite chain_has_spec by done. tauto.
  - destruct (bool_decide (message ∈ PHASE_GATE_DETAILS)) eqn:E; cbn.
    + apply bool_decide_eq_true, gates_disjoint in E. by rewrite E.
    + by rewrite orb_false_r, negb_true_iff.
Qed.

(** What the reconnection contract reacts to, exactly: the failures of the
    table; and none of them is one that another rule answers: the proxy's 403 that
    mints a token again, the expired deadline, the caller's own abort, the kernel
    that starts up. *)
Theorem reconnect_table error :
  (isReconnectable error = true <->
   exists code message cause, error = ConnectError code message cause /\ reconnectable code message cause) /\
  (isReconnectable error = true ->
   isProxyForbidden error = false /\ isSandboxTimeout error = false /\ isOwnAbort error = false /\
   isKernelGate error = false /\ isNotYetReachable error = true).
Proof.
  destruct error as [code message cause|class c g pr cause|c sc cause|c sc cause|]; [|by split; [split; [|intros (?&?&?&?&_)]|]..].
  rewrite isReconnectable_connect. split; [naive_solver|].
  intros H. unfold isProxyForbidden, isSandboxTimeout, isOwnAbort, isKernelGate, isNotYetReachable, reconnectable in *.
  destruct code; try done; cbn -[starts_with causeChainHasNodeResetCode] in *.
  - by rewrite H.
  - split_and!; try done. destruct H as [->|[->|H]]; [done|by rewrite orb_true_r|].
    unfold causeChainHasNodeResetCode. rewrite (proj2 (chain_has_spec _ _ _ eq_refl) H). by rewrite orb_true_r.
Qed.

Definition is_error_object (e : thrown) : Prop :=
  match e with OwnError _ _ _ _ _ | NodeError _ _ _ => True | _ => False end.

Lemma ownErrorInCause_own cause e : ownErrorInCause cause = Some e -> cause = Some e /\ exists c k g p q, e = OwnError c k g p q.
Proof.
  unfold ownErrorInCause. destruct cause as [[| | | |]|]; try done. destruct (existsb _ _); [|done].
  intros [= <-]. split; [done|]. by eexists _, _, _, _, _.
Qed.

Lemma translate_error_object fs error : is_error_object (translateRpcError fs error).
Proof.
  destruct error as [code message cause|class c g pr cause|c sc cause|c sc cause|]; cbn [translateRpcError]; try done.
  destruct (ownErrorInCause cause) as [e|] eqn:E.
  - by destruct (ownErrorInCause_own _ _ E) as [_ (k & c & g & p & q & ->)].
  - repeat case_match; done.
Qed.

(** The classes an interceptor of the SDK throws, which Connect wraps. *)
Definition sdk_class (class : error_class) : Prop :=
  instance_of class SandboxError = true \/ instance_of class AuthenticationError = true \/
  instance_of class QuotaExceededError = true \/ instance_of class CapacityError = true.

(** What an error of Connect was caused by, when that is an error of the SDK. *)
Definition thrown_by_sdk (cause : option thrown) (e : thrown) : Prop :=
  exists class code grpcCode pr cause', e = OwnError class code grpcCode pr cause' /\
    cause = Some e /\ sdk_class class.

(** The unary table of the contract: the class of the error a caller sees, by the
    status code and the detail of the agent. *)
Inductive unary_table (filesystem : bool) : Code -> text -> error_class -> Prop :=
  | t_suspending : unary_table filesystem Unavailable (txt "suspending") SandboxStateError
  | t_terminating : unary_table filesystem Unavailable (txt "terminating") SandboxStateError
  | t_unavailable m : m <> txt "suspending" -> m <> txt "terminating" ->
      unary_table filesystem Unavailable m SandboxError
  | t_sandbox_timeout : unary_table filesystem FailedPrecondition (txt "sandbox_timeout") TimeoutError
  | t_precondition m : m <> txt "sandbox_timeout" ->
      unary_table filesystem FailedPrecondition m InvalidArgumentError
  | t_invalid m : unary_table filesystem InvalidArgument m InvalidArgumentError
  | t_unimplemented m : unary_table filesystem Unimplemented m UnimplementedError
  | t_unauthenticated m : unary_table filesystem Unauthenticated m AuthenticationError
  | t_denied m : unary_table filesystem PermissionDenied m AuthenticationError
  | t_not_found m :
      unary_table filesystem NotFound m (if filesystem then FileNotFoundError else NotFoundError)
  | t_out_of_range m : unary_table filesystem OutOfRange m NotFoundError
  | t_disk_full m : m = txt "disk_reserve" \/ m = txt "disk_full" ->
      unary_table filesystem ResourceExhausted m DiskFullError
  | t_rate m : m <> txt "disk_reserve" -> m <> txt "disk_full" ->
      unary_table filesystem ResourceExhausted m RateLimitError
  | t_deadline m : unary_table filesystem DeadlineExceeded m TimeoutError
  | t_rest code m :
      code ∈ [Canceled; Unknown; AlreadyExists; Aborted; Internal; DataLoss] ->
      unary_table filesystem code m SandboxError.

Lemma ownErrorInCause_spec cause e : ownErrorInCause cause = Some e <-> thrown_by_sdk cause e.
Proof.
  unfold ownErrorInCause, thrown_by_sdk. split.
  - destruct cause as [[|class code grpcCode pr cause'| | |]|]; try done.
    destruct (existsb _ _) eqn:Hc; [|done]. intros [= <-]. eexists _, _, _, _, _. split_and!; [done..|].
    unfold sdk_class. cbn [existsb] in Hc. rewrite !orb_true_iff in Hc. intuition congruence.
  - intros (class & code & grpcCode & pr & cause' & -> & -> & Hc).
    assert (existsb (instance_of class) [SandboxError; AuthenticationError; QuotaExceededError; CapacityError] = true)
      as -> by (cbn [existsb]; rewrite !orb_true_iff; unfold sdk_class in Hc; tauto). done.
Qed.

(** The table has one row for each code and detail. *)
Lemma unary_table_functional fs code message c1 c2 :
  unary_table fs code message c1 -> unary_table fs code message c2 -> c1 = c2.
Proof.
  intros H1 H2. inversion H1; subst; inversion H2; subst; try done; try set_solver; tauto.
Qed.

(** What the code makes of an error no SDK error caused: the row of the table, with
    the status code (an [UnimplementedError] keeps none) and the error as cause. *)
Lemma translate_row fs code message cause :
  ownErrorInCause cause = None ->
  let error := ConnectError code message cause in
  exists class, unary_table fs code message class /\
    translateRpcError fs error =
      OwnError class None (if bool_decide (code = Unimplemented) then None else Some code)
        (bool_decide (code = PermissionDenied /\ message = txt "HTTP 403")) (Some error).
Proof.
  intros Hown. cbn [translateRpcError]. rewrite Hown.
  unfold isPhaseGate, isKernelGate, isSandboxTimeout, isProxyForbidden, own, sandboxTimeoutError, unimplementedRpcError.
  destruct code; compare_codes;
    try (eexists; split; [constructor; set_solver|by rewrite ?bool_decide_eq_false_2 by naive_solver]).
  - eexists. split; [constructor|]. do 2 f_equal. symmetry. by rewrite bool_decide_and.
  - destruct (decide (message ∈ DISK_FULL_DETAILS)) as [H|H].
    + rewrite (bool_decide_eq_true_2 _ H). eexists. split; [|by rewrite ?bool_decide_eq_false_2 by naive_solver].
      constructor. unfold DISK_FULL_DETAILS in H. set_solver.
    + rewrite (bool_decide_eq_false_2 _ H). eexists. split; [|by rewrite ?bool_decide_eq_false_2 by naive_solver].
      unfold DISK_FULL_DETAILS in H. constructor; set_solver.
  - case_bool_decide as H; subst; (eexists; split; [|by rewrite ?bool_decide_eq_false_2 by naive_solver]); by constructor.
  - destruct (decide (message ∈ PHASE_GATE_DETAILS)) as [H|H].
    + rewrite (bool_decide_eq_true_2 _ H). eexists. split; [|by rewrite ?bool_decide_eq_false_2 by naive_solver].
      unfold PHASE_GATE_DETAILS in H. rewrite !elem_of_cons, elem_of_nil in H.
      destruct H as [->|[->|[]]]; constructor.
    + rewrite (bool_decide_eq_false_2 _ H). unfold PHASE_GATE_DETAILS in H.
      exists SandboxError. split; [constructor; set_solver|].
      rewrite ?bool_decide_eq_false_2 by naive_solver. by case_match.
Qed.

(** C27. The unary table, exactly.  Every failure becomes an error object that is
    no longer Connect's, and translating it again changes nothing.  An error of the
    SDK that an interceptor threw (the cause of Connect's is of, or extends,
    [SandboxError], [AuthenticationError], [QuotaExceededError] or [CapacityError])
    comes out as it was.  Any other error of Connect becomes the class of the one
    row [unary_table] has for its status code and detail, keeps the code (an
    [UnimplementedError] keeps none) and has the error as its cause; it is
    [proxyRejected] exactly for the proxy's 403; and what the reconnection contract
    reacts to becomes a [SandboxStateError] or a [SandboxError].  Another [Error] is
    returned as it is, and what is no [Error] becomes a [SandboxError]. *)
Theorem translate_table fs error :
  is_error_object (translateRpcError fs error) /\
  translateRpcError fs (translateRpcError fs error) = translateRpcError fs error /\
  match error with
  | ConnectError code message cause =>
      (forall e, thrown_by_sdk cause e -> translateRpcError fs error = e) /\
      ((forall e, ~ thrown_by_sdk cause e) ->
       exists class, (forall class', unary_table fs code message class' <-> class' = class) /\
         translateRpcError fs error =
           OwnError class None (if bool_decide (code = Unimplemented) then None else Some code)
             (bool_decide (code = PermissionDenied /\ message = txt "HTTP 403")) (Some error) /\
         (isReconnectable error = true -> class = SandboxStateError \/ class = SandboxError))
  | OwnError _ _ _ _ _ | NodeError _ _ _ => translateRpcError fs error = error
  | PlainObject _ _ _ | NotAnObject =>
      translateRpcError fs error = OwnError SandboxError None None false None
  end.
Proof.
  split; [apply translate_error_object|].
  split; [pose proof (translate_error_object fs error) as He; by destruct (translateRpcError fs error)|].
  destruct error as [code message cause| | | |]; try done.
  split.
  - intros e He%ownErrorInCause_spec. cbn [translateRpcError]. by rewrite He.
  - intros Hno. destruct (ownErrorInCause cause) as [e|] eqn:E; [by apply ownErrorInCause_spec, Hno in E|].
    destruct (translate_row fs code message cause E) as (class & Hrow & Heq). exists class. split_and!; [|done|].
    + intros class'. split; [|by intros ->]. intros. by eapply unary_table_functional.
    + rewrite isReconnectable_connect. destruct Hrow; cbn; naive_solver.
Qed.

(** ** Nothing is sent twice *)

Section AtMostOnce.
Context {W A : Type} (call : W -> (A + thrown) * W) (sleep : N -> W -> W) (aborted : W -> option thrown).

(** What an observer of the world counts: the requests the agent received, the
    attempts and the milliseconds waited. *)
Context (sent tries : W -> nat) (slept : W -> N).

Record observed : Prop := {
  sent_call : forall w, (sent (call w).2 <= S (sent w))%nat;
  sent_never : forall w e, (call w).1 = inr e -> isConnectionNotEstablished e = true -> sent (call w).2 = sent w;
  tries_call : forall w, tries (call w).2 = S (tries w);
  slept_call : forall w, slept (call w).2 = slept w;
  sleep_counts : forall d w, sent (sleep d w) = sent w /\ tries (sleep d w) = tries w /\ slept (sleep d w) = slept w + d
}.

Lemma retry_loop_counts delays w :
  observed ->
  let (r, w') := retry_loop call sleep aborted delays w in
  (sent w' <= S (sent w))%nat /\ (tries w < tries w' <= S (tries w + length delays))%nat /\
  slept w' <= slept w + foldr N.add 0 delays /\
  forall e, r = inr e -> (forall w, aborted w = None) -> isConnectionNotEstablished e = true ->
    tries w' = S (tries w + length delays) /\ sent w' = sent w.
Proof.
  intros [Hs Hn Ht Hc Hd]. revert w. induction delays as [|d delays IH]; intros w; cbn [retry_loop].
  - pose proof (Hs w) as H1. pose proof (Hn w) as H2. pose proof (Ht w) as H3. pose proof (Hc w) as H4.
    destruct (call w) as [r w1]. cbn in *. split_and!; try lia. intros e He _ Hne. split; [lia|]. by apply (H2 e).
  - pose proof (Hs w) as H1. pose proof (Hn w) as H2. pose proof (Ht w) as H3. pose proof (Hc w) as H4.
    destruct (call w) as [[a|e] w1]; cbn [fst snd] in *; [split_and!; cbn; try lia; done|].
    destruct (isConnectionNotEstablished e) eqn:He; cbn [negb orb].
    + specialize (H2 e eq_refl He). destruct (Hd d w1) as (S1 & S2 & S3). case_bool_decide as Hab.
      { split_and!; cbn; try lia. intros e' _ Hno. rewrite Hno in Hab. by destruct Hab. }
      destruct (aborted (sleep d w1)) as [reason|] eqn:Ha.
      { split_and!; cbn; try lia. intros e' _ Hno. by rewrite Hno in Ha. }
      specialize (IH (sleep d w1)). destruct (retry_loop call sleep aborted delays (sleep d w1)) as [r w'].
      destruct IH as (I1 & I2 & I3 & I4). cbn. split_and!; try lia.
      intros e' Hr Hno Hne. destruct (I4 e' Hr Hno Hne). split; lia.
    + split_and!; cbn; try lia. intros e' [= <-] _ Hne. congruence.
Qed.
End AtMostOnce.

(** Retrying a request whose connection never opened cannot send it twice:
    however the attempts go, the agent receives at most one request, after at most
    six attempts and less than eight seconds of waits; and only an abort of the
    caller makes it give up on an unopened connection before the sixth. *)
Theorem retry_at_most_once {W A} (call : W -> (A + thrown) * W) sleep aborted sent tries slept w r w' :
  observed call sleep sent tries slept ->
  retryUnestablished call sleep aborted w = (r, w') ->
  (sent w' <= S (sent w))%nat /\ (tries w < tries w' <= tries w + 6)%nat /\ slept w' < slept w + 8000 /\
  forall e, r = inr e -> (forall v, aborted v = None) -> isConnectionNotEstablished e = true ->
    tries w' = (tries w + 6)%nat /\ sent w' = sent w.
Proof.
  intros Hobs E. pose proof (retry_loop_counts call sleep aborted sent tries slept CONNECT_RETRY_DELAYS_MS w Hobs) as H.
  unfold retryUnestablished in E. rewrite E in H. destruct H as (H1 & H2 & H3 & H4).
  change (length CONNECT_RETRY_DELAYS_MS) with 5%nat in *. change (foldr N.add 0 CONNECT_RETRY_DELAYS_MS) with 7750 in *.
  split_and!; [done|lia|lia|lia|]. intros e Hr Hno He. destruct (H4 e Hr Hno He). split; [lia|done].
Qed.

(** A world that plays a script of answers: an unopened connection sends nothing. *)
Record script_world := { script : list (unit + thrown); w_sent : nat; w_tries : nat; w_slept : N }.

Definition script_call (w : script_world) : (unit + thrown) * script_world :=
  match script w with
  | [] => (inl tt, {| script := []; w_sent := S (w_sent w); w_tries := S (w_tries w); w_slept := w_slept w |})
  | r :: rest =>
      let opened := match r with inr e => negb (isConnectionNotEstablished e) | inl _ => true end in
      (r, {| script := rest; w_sent := if opened then S (w_sent w) else w_sent w;
             w_tries := S (w_tries w); w_slept := w_slept w |})
  end.

Definition script_sleep (d : N) (w : script_world) : script_world :=
  {| script := script w; w_sent := w_sent w; w_tries := w_tries w; w_slept := w_slept w + d |}.

Lemma script_observed : observed script_call script_sleep w_sent w_tries w_slept.
Proof.
  split; [intros w|intros w e|intros w|intros w|by intros d w]; unfold script_call;
    destruct (script w) as [|[a|e'] rest]; cbn; try lia; try done.
  - case_match; lia.
  - by intros [= ->] ->.
Qed.

Definition unopened : thrown :=
  ConnectError Unavailable (txt "connect ECONNREFUSED") (Some (NodeError (Some (txt "ECONNREFUSED")) (Some CONNECT_SYSCALL) None)).

Lemma retry_at_most_once_witness :
  exists w', retryUnestablished script_call script_sleep (fun _ => None)
      {| script := [inr unopened; inr unopened; inl tt]; w_sent := 0; w_tries := 0; w_slept := 0 |} = (inl tt, w') /\
    (w_sent w' <= 1)%nat /\ w_slept w' = 750.
Proof.
  eexists. split; [vm_compute; reflexivity|]. split; [|reflexivity].
  eapply (retry_at_most_once script_call script_sleep (fun _ => None) w_sent w_tries w_slept
    {| script := [inr unopened; inr unopened; inl tt]; w_sent := 0; w_tries := 0; w_slept := 0 |});
    [exact script_observed|vm_compute; reflexivity].
Defined.
