(* ===== verification/Lifecycle.v ===== *)
(** * Lifecycle: the logical deadline of a sandbox

    src/clients/typescript/src/sandbox/lifecycle.ts: the plan [create()] sends to
    [run-microvm] (platform duration, idle policy and the [lifecycle] block of
    the payload), the reading of the state [rayd] reports, and the deadline moves
    of [connect()], of the pause trigger and of an automatic resume.  Times are
    integers of milliseconds or seconds, as in the source. *)

From stdpp Require Import base option list strings.
From Stdlib Require Import ZArith QArith Lia.
From S2P Require Import Prelude Limits.

Local Open Scope Z_scope.

(** ** Data *)

Inductive OnTimeout := kill | pause.

Definition MAX_LIFETIME_MS : Z := MAX_DURATION_SECONDS * 1000.
Definition MIN_MAX_LIFETIME_MS : Z := LIFECYCLE_MIN_MAX_LIFETIME_SECONDS * 1000.
Definition CAP_MARGIN_MS : Z := LIFECYCLE_CAP_MARGIN_SECONDS * 1000.
Definition MIN_SET_TIMEOUT_MS : Z := LIFECYCLE_MIN_TIMEOUT_SECONDS * 1000.
Definition PAUSE_TRIGGER_SLACK_MS : Z := 1000.
Definition REOPEN_CAP_SLACK_MS : Z := 5000.
Definition PAUSE_DEFAULT_IDLE_FALLBACK_SECONDS : Z := IDLE_MAX_IDLE_MIN_SECONDS.

Record LifecycleBlock := {
  timeoutS : Z;
  capS : Z;
  block_onTimeout : OnTimeout;
  block_autoResume : bool
}.

Record LifecyclePlan := {
  block : option LifecycleBlock;
  platformDurationSeconds : Z;
  plan_idle : option IdlePolicy
}.

(** [IdlePolicyInput | null | undefined]. *)
Inductive idle_arg :=
  | IdleUndefined
  | IdleNull
  | IdleGiven (input : IdlePolicyInput).

(** [maxLifetimeMs] and [onTimeout] are what the caller passed. *)
Record LifecycleInput := {
  timeoutSeconds : Z;
  maxLifetimeMs : jsval;
  onTimeout : jsval;
  idle : idle_arg
}.

(** ** Planning a launch *)

(** [idle ?? {}], once [null] is excluded. *)
Definition idle_or_empty (a : idle_arg) : IdlePolicyInput :=
  match a with IdleGiven i => i | _ => empty_idle_input end.

Definition resolveIdlePolicy (a : idle_arg) (durationSeconds : Z) : result (option IdlePolicy) :=
  match a with
  | IdleNull => Ok None
  | _ =>
      validated ← validateIdlePolicy (idle_or_empty a);
      if maxIdleSeconds validated >=? durationSeconds then Throw InvalidArgumentError else
      match suspendedDurationSeconds validated with
      | Some _ => Ok (Some validated)
      | None =>
          Ok (Some {| maxIdleSeconds := maxIdleSeconds validated;
                      suspendedDurationSeconds := Some (durationSeconds - maxIdleSeconds validated);
                      idle_autoResume := idle_autoResume validated |})
      end
  end.

Definition fitDefaultIdle (a : idle_arg) (boundSeconds : Z) : idle_arg :=
  match a with
  | IdleUndefined => if DEFAULT_MAX_IDLE_SECONDS >=? boundSeconds then IdleNull else a
  | _ => a
  end.

Definition fitDefaultPauseIdle (a : idle_arg) (cap : Z) : idle_arg :=
  match a with
  | IdleUndefined =>
      if DEFAULT_MAX_IDLE_SECONDS >=? cap
      then IdleGiven {| in_maxIdleSeconds := Some (num_of_Z PAUSE_DEFAULT_IDLE_FALLBACK_SECONDS);
                        in_suspendedDurationSeconds := None; in_autoResume := None |}
      else a
  | _ => a
  end.

Definition validateOnTimeout (v : jsval) : result OnTimeout :=
  match v with
  | JString s =>
      if String.eqb s "kill" then Ok kill
      else if String.eqb s "pause" then Ok pause else Throw InvalidArgumentError
  | _ => Throw InvalidArgumentError
  end.

Definition defaultMaxLifetimeMs (timeoutSeconds : Z) : Z :=
  let withMargin := timeoutSeconds * 1000 + CAP_MARGIN_MS in
  Z.min (Z.max withMargin MIN_MAX_LIFETIME_MS) MAX_LIFETIME_MS.

Definition validateMaxLifetimeMs (v : jsval) : result Z :=
  match integer_val v with
  | None => Throw InvalidArgumentError
  | Some m =>
      if m >? MAX_LIFETIME_MS then Throw SandboxLifetimeError
      else if m <? MIN_MAX_LIFETIME_MS then Throw InvalidArgumentError
      else if negb (m mod 1000 =? 0) then Throw InvalidArgumentError
      else Ok m
  end.

Definition resolveMaxLifetimeSeconds (input : LifecycleInput) : result Z :=
  m ← validateMaxLifetimeMs
        (nullish (maxLifetimeMs input) (jint (defaultMaxLifetimeMs (timeoutSeconds input))));
  if timeoutSeconds input * 1000 >? m then Throw InvalidArgumentError else Ok (m / 1000).

Definition pausePlan (timeout cap : Z) (a : idle_arg) : result LifecyclePlan :=
  match a with
  | IdleNull => Throw InvalidArgumentError
  | _ =>
      validated ← validateIdlePolicy (idle_or_empty a);
      match suspendedDurationSeconds validated with
      | Some _ => Throw InvalidArgumentError
      | None =>
          if maxIdleSeconds validated >=? cap then Throw InvalidArgumentError else
          Ok {| block := Some {| timeoutS := timeout; capS := cap; block_onTimeout := pause;
                                 block_autoResume := idle_autoResume validated |};
                platformDurationSeconds := cap;
                plan_idle := Some {| maxIdleSeconds := maxIdleSeconds validated;
                                     suspendedDurationSeconds :=
                                       Some (cap - maxIdleSeconds validated);
                                     idle_autoResume := true |} |}
      end
  end.

Definition resolveLifecycle (input : LifecycleInput) : result LifecyclePlan :=
  if is_undefined (maxLifetimeMs input) && is_undefined (onTimeout input) then
    p ← resolveIdlePolicy (fitDefaultIdle (idle input) (timeoutSeconds input)) (timeoutSeconds input);
    Ok {| block := None; platformDurationSeconds := timeoutSeconds input; plan_idle := p |}
  else
    action ← validateOnTimeout (nullish (onTimeout input) (JString "kill"));
    cap ← resolveMaxLifetimeSeconds input;
    match action with
    | pause => pausePlan (timeoutSeconds input) cap (fitDefaultPauseIdle (idle input) cap)
    | kill =>
        p ← resolveIdlePolicy (fitDefaultIdle (idle input) cap) cap;
        Ok {| block := Some {| timeoutS := timeoutSeconds input; capS := cap;
                               block_onTimeout := kill; block_autoResume := false |};
              platformDurationSeconds := cap;
              plan_idle := p |}
    end.

(** ** Reading the state [rayd] reports *)

Inductive LifecyclePhaseName := unmanaged | active | resumeGrace | expired.

Record SandboxLifecycle := {
  phase : LifecyclePhaseName;
  deadline : option Z;
  cap : option Z;
  timeoutMs : Z;
  lc_onTimeout : option OnTimeout;
  lc_autoResume : bool;
  extensions : Z
}.

(** The protobuf message: enums are their wire numbers, times are int64. *)
Record LifecycleState := {
  pb_phase : Z;
  pb_deadlineUnixMs : Z;
  pb_capUnixMs : Z;
  pb_timeoutMs : Z;
  pb_onTimeout : Z;
  pb_autoResume : bool;
  pb_extensions : Z
}.

Definition phaseName (n : Z) : LifecyclePhaseName :=
  if n =? 2 then active else if n =? 3 then resumeGrace else if n =? 4 then expired else unmanaged.

Definition onTimeoutName (n : Z) : option OnTimeout :=
  if n =? 1 then Some kill else if n =? 2 then Some pause else None.

Definition wallInstant (unixMs : Z) : option Z := if unixMs >? 0 then Some unixMs else None.

Definition lifecycleFromProto (state : option LifecycleState) : option SandboxLifecycle :=
  s ← state;
  Some {| phase := phaseName (pb_phase s);
          deadline := wallInstant (pb_deadlineUnixMs s);
          cap := wallInstant (pb_capUnixMs s);
          timeoutMs := pb_timeoutMs s;
          lc_onTimeout := onTimeoutName (pb_onTimeout s);
          lc_autoResume := pb_autoResume s;
          extensions := pb_extensions s |}.

(** ** Moving the deadline *)

Definition validateSetTimeoutMs (v : jsval) : result Z :=
  match integer_val v with
  | None => Throw InvalidArgumentError
  | Some m =>
      if m <? MIN_SET_TIMEOUT_MS then Throw InvalidArgumentError
      else if m >? MAX_LIFETIME_MS then Throw LifetimeBeyondCapError
      else Ok m
  end.

Definition reopenTimeoutMs (l : SandboxLifecycle) (nowUnixMs : Z) : result Z :=
  let capMs := default 0 (cap l) in
  let t := Z.min (timeoutMs l) (capMs - nowUnixMs - REOPEN_CAP_SLACK_MS) in
  if t <? MIN_SET_TIMEOUT_MS then Throw SandboxLifetimeError else Ok t.

(** [requestedMs] is [JUndefined] when [connect()] got no [timeoutMs]. *)
Definition connectExtension (lifecycle : option SandboxLifecycle) (requestedMs : jsval)
    (nowUnixMs : Z) : result (option Z) :=
  requested ← (if is_undefined requestedMs then Ok None
               else m ← validateSetTimeoutMs requestedMs; Ok (Some m));
  match lifecycle, requested with
  | None, Some _ => Throw LifecycleUnsupportedError
  | None, None => Ok None
  | Some l, _ =>
      match phase l, requested with
      | unmanaged, Some _ => Throw InvalidArgumentError
      | unmanaged, None => Ok None
      | _, Some r => Ok (Some r)
      | active, None => Ok None
      | _, None => t ← reopenTimeoutMs l nowUnixMs; Ok (Some t)
      end
  end.

Definition pauseTriggerDelayMs (lifecycle : option SandboxLifecycle) (nowUnixMs : Z) : option Z :=
  match lifecycle with
  | None => None
  | Some l =>
      match lc_onTimeout l with
      | Some pause =>
          match phase l, deadline l with
          | expired, _ => Some 0
          | active, Some d => Some (Z.max 0 (d - nowUnixMs) + PAUSE_TRIGGER_SLACK_MS)
          | _, _ => None
          end
      | _ => None
      end
  end.

Definition deadlineMayHaveMoved (state : string) (lifecycle : option SandboxLifecycle) : bool :=
  String.eqb state "RUNNING" &&
  match lifecycle with
  | Some l => match phase l with unmanaged => false | _ => true end
  | None => false
  end.

Record DeadlinePauseResume := {
  pausedGeneration : option Z;
  generation : Z;
  resume_nowUnixMs : Z
}.

Definition autoResumeReopenMs (lifecycle : option SandboxLifecycle)
    (resume : DeadlinePauseResume) : option Z :=
  match pausedGeneration resume with
  | None => None
  | Some g =>
      if generation resume <=? g then None else
      match lifecycle with
      | None => None
      | Some l =>
          match phase l, lc_onTimeout l, lc_autoResume l with
          | expired, Some pause, true =>
              let capMs := default 0 (cap l) in
              let t := Z.min (Z.max (timeoutMs l) (LIFECYCLE_AUTO_RESUME_MIN_SECONDS * 1000))
                             (capMs - resume_nowUnixMs resume - REOPEN_CAP_SLACK_MS) in
              if t <? MIN_SET_TIMEOUT_MS then None else Some t
          | _, _, _ => None
          end
      end
  end.

(** ** Specification of a launch plan *)

(** What AWS and [rayd] demand of a plan: a duration within the platform's
    bounds, the deadline under the cap, an idle window that ends before the
    platform does, and, under [pause], a platform that suspends and resumes by
    itself for the whole life of the sandbox. *)
Record plan_valid (input : LifecycleInput) (plan : LifecyclePlan) : Prop := {
  pv_duration : MIN_DURATION_SECONDS <= platformDurationSeconds plan <= MAX_DURATION_SECONDS;
  pv_block : forall b, block plan = Some b ->
    timeoutS b = timeoutSeconds input /\ timeoutS b <= capS b /\
    capS b = platformDurationSeconds plan /\ LIFECYCLE_MIN_MAX_LIFETIME_SECONDS <= capS b;
  pv_idle : forall p, plan_idle plan = Some p ->
    IDLE_MAX_IDLE_MIN_SECONDS <= maxIdleSeconds p < platformDurationSeconds plan /\
    (exists s, suspendedDurationSeconds p = Some s /\ 0 <= s);
  pv_pause : forall b, block plan = Some b -> block_onTimeout b = pause ->
    exists p, plan_idle plan = Some p /\ idle_autoResume p = true /\
      suspendedDurationSeconds p = Some (platformDurationSeconds plan - maxIdleSeconds p)
}.

Definition valid_timeout (t : Z) : Prop := MIN_DURATION_SECONDS <= t <= MAX_DURATION_SECONDS.

Lemma resolveIdlePolicy_valid a d p :
  resolveIdlePolicy a d = Ok (Some p) ->
  IDLE_MAX_IDLE_MIN_SECONDS <= maxIdleSeconds p < d /\
  exists s, suspendedDurationSeconds p = Some s /\ 0 <= s.
Proof.
  intros Hr. assert (a <> IdleNull) as Ha by (by intros ->).
  assert ((validated ← validateIdlePolicy (idle_or_empty a);
      if maxIdleSeconds validated >=? d then Throw InvalidArgumentError else
      match suspendedDurationSeconds validated with
      | Some _ => Ok (Some validated)
      | None => Ok (Some {| maxIdleSeconds := maxIdleSeconds validated;
                      suspendedDurationSeconds := Some (d - maxIdleSeconds validated);
                      idle_autoResume := idle_autoResume validated |})
      end) = Ok (Some p)) as Hv by (by destruct a). clear Hr.
  destruct (validateIdlePolicy _) as [v|] eqn:E; [|done]. cbn in Hv.
  apply validateIdlePolicy_wf in E as [Hm Hs].
  destruct (Z.geb_spec (maxIdleSeconds v) d); [done|].
  destruct (suspendedDurationSeconds v) as [s|] eqn:Es; simplify_eq; cbn.
  - split; [lia|]. exists s. auto.
  - split; [lia|]. eexists. split; [done|lia].
Qed.

(** [validateMaxLifetimeMs] accepts exactly the whole seconds of the platform. *)
Lemma validateMaxLifetimeMs_spec v m :
  validateMaxLifetimeMs v = Ok m <->
  integer_val v = Some m /\ MIN_MAX_LIFETIME_MS <= m <= MAX_LIFETIME_MS /\ m mod 1000 = 0.
Proof.
  unfold validateMaxLifetimeMs. destruct (integer_val v) as [n|]; [|naive_solver].
  destruct (Z.gtb_spec n MAX_LIFETIME_MS); [split; [done|intros ([= ->] & ? & _); lia]|].
  destruct (Z.ltb_spec n MIN_MAX_LIFETIME_MS); [split; [done|intros ([= ->] & ? & _); lia]|].
  destruct (Z.eqb_spec (n mod 1000) 0); cbn; [|naive_solver].
  split; [intros [= ->]; done|]. by intros ([= ->] & _ & _).
Qed.

Lemma resolveMaxLifetimeSeconds_valid input c :
  resolveMaxLifetimeSeconds input = Ok c ->
  LIFECYCLE_MIN_MAX_LIFETIME_SECONDS <= c <= MAX_DURATION_SECONDS /\ timeoutSeconds input <= c.
Proof.
  unfold resolveMaxLifetimeSeconds. destruct (validateMaxLifetimeMs _) as [m|] eqn:E; [|done].
  apply validateMaxLifetimeMs_spec in E as (_ & Hb & Hm). cbn.
  destruct (Z.gtb_spec (timeoutSeconds input * 1000) m); [done|]. intros [= <-].
  unfold MIN_MAX_LIFETIME_MS, MAX_LIFETIME_MS, LIFECYCLE_MIN_MAX_LIFETIME_SECONDS,
    MAX_DURATION_SECONDS in *. pose proof (Z.div_mod m 1000 ltac:(lia)). lia.
Qed.

Lemma pausePlan_valid input c a plan :
  LIFECYCLE_MIN_MAX_LIFETIME_SECONDS <= c <= MAX_DURATION_SECONDS -> timeoutSeconds input <= c ->
  pausePlan (timeoutSeconds input) c a = Ok plan -> plan_valid input plan.
Proof.
  intros Hc Ht Hp. assert (a <> IdleNull) as Ha by (by intros ->).
  assert (exists v, validateIdlePolicy (idle_or_empty a) = Ok v /\ maxIdleSeconds v < c /\
    plan = {| block := Some {| timeoutS := timeoutSeconds input; capS := c;
                               block_onTimeout := pause; block_autoResume := idle_autoResume v |};
              platformDurationSeconds := c;
              plan_idle := Some {| maxIdleSeconds := maxIdleSeconds v;
                                   suspendedDurationSeconds := Some (c - maxIdleSeconds v);
                                   idle_autoResume := true |} |}) as (v & Hv & Hlt & ->).
  { destruct a as [| |i]; [|done|]; unfold pausePlan in Hp;
      (destruct (validateIdlePolicy _) as [v|] eqn:E; [|done]); cbn in Hp;
      (destruct (suspendedDurationSeconds v); [done|]);
      (destruct (Z.geb_spec (maxIdleSeconds v) c); [done|]); simplify_eq; by exists v. }
  apply validateIdlePolicy_wf in Hv as [Hm _]. split; cbn.
  - unfold MIN_DURATION_SECONDS, LIFECYCLE_MIN_MAX_LIFETIME_SECONDS in *. lia.
  - intros b [= <-]. cbn. by split_and!; try lia.
  - intros p [= <-]. cbn. split; [lia|]. eexists. split; [done|lia].
  - intros b [= <-] _. by eexists.
Qed.

Lemma resolveLifecycle_plan_valid input plan :
  valid_timeout (timeoutSeconds input) -> resolveLifecycle input = Ok plan ->
  plan_valid input plan.
Proof.
  intros Ht. unfold resolveLifecycle.
  destruct (is_undefined (maxLifetimeMs input) && is_undefined (onTimeout input)).
  - destruct (resolveIdlePolicy _ _) as [p|] eqn:E; [|done]. intros [= <-].
    split; cbn; try done. intros q ->. by apply resolveIdlePolicy_valid in E.
  - destruct (validateOnTimeout _) as [action|]; [|done]. cbn.
    destruct (resolveMaxLifetimeSeconds input) as [c|] eqn:Ec; [|done]. cbn.
    apply resolveMaxLifetimeSeconds_valid in Ec as [Hc Hle]. destruct action.
    + destruct (resolveIdlePolicy _ _) as [p|] eqn:E; [|done]. intros [= <-].
      split; cbn; [|intros b [= <-]; cbn; by split_and!; try lia| |by intros b [= <-]].
      * unfold MIN_DURATION_SECONDS, LIFECYCLE_MIN_MAX_LIFETIME_SECONDS in *. lia.
      * intros q ->. by apply resolveIdlePolicy_valid in E.
    + by apply pausePlan_valid.
Qed.

(** Every plan [resolveLifecycle] accepts is one AWS accepts: the platform
    duration is within 1..28800 s, the logical deadline fits under the cap, the
    idle window ends before the platform does and its suspended window is
    resolved, and a [pause] plan always carries an auto-resuming idle policy that
    covers the rest of the platform's life. *)
Theorem resolveLifecycle_valid input plan :
  valid_timeout (timeoutSeconds input) -> resolveLifecycle input = Ok plan ->
  plan_valid input plan.
Proof. apply resolveLifecycle_plan_valid. Qed.

Definition sample_input : LifecycleInput := {|
  timeoutSeconds := 240; maxLifetimeMs := JUndefined; onTimeout := JString "pause";
  idle := IdleUndefined |}.
Definition sample_plan : LifecyclePlan := {|
  block := Some {| timeoutS := 240; capS := 300; block_onTimeout := pause; block_autoResume := true |};
  platformDurationSeconds := 300;
  plan_idle := Some {| maxIdleSeconds := 60; suspendedDurationSeconds := Some 240;
                       idle_autoResume := true |} |}.

Lemma resolveLifecycle_valid_witness : plan_valid sample_input sample_plan.
Proof.
  apply (resolveLifecycle_valid sample_input sample_plan).
  - unfold valid_timeout. cbn. unfold MIN_DURATION_SECONDS, MAX_DURATION_SECONDS. lia.
  - vm_compute. reflexivity.
Defined.

(** The default cap always fits its own validation. *)
Lemma defaultMaxLifetimeMs_valid t :
  valid_timeout t ->
  validateMaxLifetimeMs (jint (defaultMaxLifetimeMs t)) = Ok (defaultMaxLifetimeMs t) /\
  t * 1000 <= defaultMaxLifetimeMs t.
Proof.
  intros Ht. unfold valid_timeout, MIN_DURATION_SECONDS, MAX_DURATION_SECONDS in Ht.
  rewrite validateMaxLifetimeMs_spec, integer_val_jint.
  unfold defaultMaxLifetimeMs, MIN_MAX_LIFETIME_MS, MAX_LIFETIME_MS, CAP_MARGIN_MS,
    LIFECYCLE_MIN_MAX_LIFETIME_SECONDS, LIFECYCLE_CAP_MARGIN_SECONDS, MAX_DURATION_SECONDS.
  assert (Hd : forall a b c : Z, Z.divide 1000 a -> Z.divide 1000 b -> Z.divide 1000 c ->
    Z.min (Z.max a b) c mod 1000 = 0).
  { intros a b c Ha Hb Hc. apply Z.mod_divide; [lia|].
    destruct (Z.min_spec (Z.max a b) c) as [[_ ->]|[_ ->]]; [|done].
    by destruct (Z.max_spec a b) as [[_ ->]|[_ ->]]. }
  split; [|lia]. split_and!; [done|lia|lia|].
  apply Hd; [exists (t + 60); lia|by exists 120|by exists 28800].
Qed.

Lemma default_idle_fits bound :
  exists p, resolveIdlePolicy (fitDefaultIdle IdleUndefined bound) bound = Ok p.
Proof.
  cbn [fitDefaultIdle]. destruct (Z.geb_spec DEFAULT_MAX_IDLE_SECONDS bound) as [H|H]; [by eexists|].
  unfold resolveIdlePolicy. cbn [idle_or_empty]. change (validateIdlePolicy empty_idle_input) with
    (Ok {| maxIdleSeconds := DEFAULT_MAX_IDLE_SECONDS; suspendedDurationSeconds := None;
           idle_autoResume := true |}). cbn [mbind result_bind maxIdleSeconds].
  destruct (Z.geb_spec DEFAULT_MAX_IDLE_SECONDS bound); [lia|by eexists].
Qed.

Lemma default_pause_fits t c :
  120 <= c -> exists plan, pausePlan t c (fitDefaultPauseIdle IdleUndefined c) = Ok plan.
Proof.
  intros Hc. cbn [fitDefaultPauseIdle].
  destruct (Z.geb_spec DEFAULT_MAX_IDLE_SECONDS c) as [H|H]; unfold pausePlan; cbn [idle_or_empty].
  - change (validateIdlePolicy _) with
      (Ok {| maxIdleSeconds := 60; suspendedDurationSeconds := None; idle_autoResume := true |}).
    cbn [mbind result_bind maxIdleSeconds suspendedDurationSeconds].
    destruct (Z.geb_spec 60 c); [lia|by eexists].
  - change (validateIdlePolicy _) with
      (Ok {| maxIdleSeconds := DEFAULT_MAX_IDLE_SECONDS; suspendedDurationSeconds := None;
             idle_autoResume := true |}).
    cbn [mbind result_bind maxIdleSeconds suspendedDurationSeconds].
    destruct (Z.geb_spec DEFAULT_MAX_IDLE_SECONDS c); [lia|by eexists].
Qed.

(** Defaults never fail: for any valid [timeoutMs], with no [maxLifetimeMs]
    and no [idle], [create()] gets a plan whether [onTimeout] is omitted, ["kill"]
    or ["pause"]; the default idle window is adapted or dropped, never rejected. *)
Theorem resolveLifecycle_defaults_total t action :
  valid_timeout t ->
  action = JUndefined \/ action = JString "kill" \/ action = JString "pause" ->
  exists plan, resolveLifecycle {| timeoutSeconds := t; maxLifetimeMs := JUndefined;
                                   onTimeout := action; idle := IdleUndefined |} = Ok plan.
Proof.
  intros Ht Ha. pose proof (defaultMaxLifetimeMs_valid t Ht) as [Hv Hle].
  assert (Hcap : forall act, resolveMaxLifetimeSeconds {| timeoutSeconds := t;
      maxLifetimeMs := JUndefined; onTimeout := act; idle := IdleUndefined |} =
      Ok (defaultMaxLifetimeMs t / 1000)).
  { intros act. unfold resolveMaxLifetimeSeconds. cbn [maxLifetimeMs timeoutSeconds nullish].
    rewrite Hv. cbn. destruct (Z.gtb_spec (t * 1000) (defaultMaxLifetimeMs t)); [lia|done]. }
  destruct Ha as [-> |[-> | ->]]; unfold resolveLifecycle;
    cbn [is_undefined andb maxLifetimeMs onTimeout timeoutSeconds idle nullish].
  - destruct (default_idle_fits t) as [p ->]. by eexists.
  - cbn [validateOnTimeout String.eqb Ascii.eqb Bool.eqb mbind result_bind]. rewrite Hcap. cbn [mbind result_bind].
    destruct (default_idle_fits (defaultMaxLifetimeMs t / 1000)) as [p ->]. by eexists.
  - cbn [validateOnTimeout String.eqb Ascii.eqb Bool.eqb mbind result_bind]. rewrite Hcap. cbn [mbind result_bind].
    apply default_pause_fits. apply validateMaxLifetimeMs_spec in Hv as (_ & Hb & _).
    unfold MIN_MAX_LIFETIME_MS, LIFECYCLE_MIN_MAX_LIFETIME_SECONDS in Hb.
    apply Z.div_le_lower_bound; lia.
Qed.

Lemma resolveLifecycle_defaults_total_witness :
  exists plan, resolveLifecycle {| timeoutSeconds := 1; maxLifetimeMs := JUndefined;
                                   onTimeout := JString "pause"; idle := IdleUndefined |} = Ok plan.
Proof.
  apply (resolveLifecycle_defaults_total 1 (JString "pause")).
  - unfold valid_timeout, MIN_DURATION_SECONDS, MAX_DURATION_SECONDS. lia.
  - auto.
Defined.

(** No deadline the client asks for can pass the cap: what [connect()] sends
    on its own to reopen a sandbox, and what it sends after an automatic resume,
    is at least one second and ends at least five seconds before the cap [rayd]
    reported; the reopening never asks for more than the sandbox's own timeout,
    the automatic resume never for more than that or five minutes. *)
Theorem reopen_under_cap l c now :
  cap l = Some c ->
  (forall t, connectExtension (Some l) JUndefined now = Ok (Some t) ->
     MIN_SET_TIMEOUT_MS <= t <= timeoutMs l /\ now + t <= c - REOPEN_CAP_SLACK_MS) /\
  (forall r t, resume_nowUnixMs r = now -> autoResumeReopenMs (Some l) r = Some t ->
     MIN_SET_TIMEOUT_MS <= t <= Z.max (timeoutMs l) 300000 /\
     now + t <= c - REOPEN_CAP_SLACK_MS /\
     exists g, pausedGeneration r = Some g /\ g < generation r).
Proof.
  intros Hc. split.
  - intros t. cbn. destruct (phase l); try done; unfold reopenTimeoutMs; rewrite Hc; cbn;
      (destruct (Z.ltb_spec (Z.min (timeoutMs l) (c - now - REOPEN_CAP_SLACK_MS)) MIN_SET_TIMEOUT_MS);
       [done|]); intros [= <-]; lia.
  - intros r t <-. unfold autoResumeReopenMs.
    destruct (pausedGeneration r) as [g|]; [|done].
    destruct (Z.leb_spec (generation r) g); [done|].
    destruct (phase l), (lc_onTimeout l) as [[]|], (lc_autoResume l); try done.
    rewrite Hc. change (default 0 (Some c)) with c. unfold LIFECYCLE_AUTO_RESUME_MIN_SECONDS.
    change (300 * 1000) with 300000.
    destruct (Z.ltb_spec (Z.min (Z.max (timeoutMs l) 300000)
      (c - resume_nowUnixMs r - REOPEN_CAP_SLACK_MS)) MIN_SET_TIMEOUT_MS); [done|].
    intros [= <-]. split; [lia|]. split; [lia|]. exists g. auto.
Qed.

Definition sample_lifecycle : SandboxLifecycle := {|
  phase := expired; deadline := Some 1000000; cap := Some 1300000; timeoutMs := 60000;
  lc_onTimeout := Some pause; lc_autoResume := true; extensions := 0 |}.

Lemma reopen_under_cap_witness :
  connectExtension (Some sample_lifecycle) JUndefined 1200000 = Ok (Some 60000) /\
  1200000 + 60000 <= 1300000 - REOPEN_CAP_SLACK_MS.
Proof.
  split; [reflexivity|].
  apply (reopen_under_cap sample_lifecycle 1300000 1200000 eq_refl). reflexivity.
Defined.
