(* ===== verification/HttpFraming.v ===== *)
(** * HttpFraming: where the body of a proxied HTTP/1.1 message ends

    src/clients/typescript/src/cli/http-framing.ts, the pure half of
    [rayito sandbox proxy]: from the [Transfer-Encoding] and [Content-Length]
    values of a request or a response to the length of its body, and the size of
    a chunk.  A header text is latin-1, one code unit per byte. *)

From stdpp Require Import base option list strings sets.
From Stdlib Require Import NArith ZArith Lia.
From S2P Require Import Prelude Text.

Local Open Scope N_scope.

(** ** Data *)

Definition CHUNKED_CODING : text := txt "chunked".
Definition HEAD_METHOD : text := txt "HEAD".
Definition COMMA : N := 44.
Definition SEMICOLON : N := 59.

(** [OWS_CHARACTERS]. *)
Definition is_ows (c : N) : bool := (c =? SP) || (c =? TAB).

Definition MAX_SAFE_INTEGER : N := 9007199254740991.

(** What a [MalformedFramingError] reports. *)
Inductive framing_error :=
  | TooLarge
  | DistinctContentLengths
  | ContentLengthNotNumeric
  | TransferEncodingWithContentLength
  | TransferEncodingNotChunked
  | InvalidStatusLine
  | InvalidChunkSize.

(** A function that may throw a [MalformedFramingError]. *)
Abbreviation framed A := (framing_error + A)%type.

#[local] Instance framed_ret : MRet (sum framing_error) := fun A a => inr a.
#[local] Instance framed_bind : MBind (sum framing_error) := fun A B f m =>
  match m with inl e => inl e | inr a => f a end.

Inductive BodyKind := none | length_ | chunked | until_close.
Record BodyFraming := { kind : BodyKind; body_length : N }.

Definition NO_BODY : BodyFraming := {| kind := none; body_length := 0 |}.
Definition CHUNKED_BODY : BodyFraming := {| kind := chunked; body_length := 0 |}.
Definition UNTIL_CLOSE_BODY : BodyFraming := {| kind := until_close; body_length := 0 |}.

(** ** Operations *)

Definition trimOws (s : text) : text := strip is_ows s.

Definition listValues (values : list text) : list text :=
  v ← values; (fun item => to_lower (trimOws item)) <$> split_on COMMA v.

(** [Number.parseInt] loses precision only above [MAX_SAFE_INTEGER], and what it
    returns there is above it too, so the test is on the exact value. *)
Definition safeInteger (digits : text) (radix : N) : framed N :=
  let value := parse_nat radix digits in
  if value <=? MAX_SAFE_INTEGER then inr value else inl TooLarge.

(** [/^[0-9]+$/] and [/^[0-9a-fA-F]+$/]. *)
Definition all_of (f : N -> bool) (s : text) : bool :=
  match s with [] => false | _ => forallb f s end.

Definition contentLength (values : list text) : framed (option N) :=
  match values with
  | [] => inr None
  | _ =>
      match remove_dups (listValues values) with
      | [item] =>
          if all_of is_digit item
          then n ← safeInteger item 10; inr (Some n)
          else inl ContentLengthNotNumeric
      | _ => inl DistinctContentLengths
      end
  end.

Definition sized_body (n : N) : BodyFraming :=
  if n =? 0 then NO_BODY else {| kind := length_; body_length := n |}.

Definition requestBodyFraming (transferEncodings contentLengths : list text)
  : framed BodyFraming :=
  match transferEncodings with
  | _ :: _ =>
      match contentLengths with
      | _ :: _ => inl TransferEncodingWithContentLength
      | [] =>
          let codings := filter (fun coding => coding <> []) (listValues transferEncodings) in
          if bool_decide (last codings = Some CHUNKED_CODING)
          then inr CHUNKED_BODY else inl TransferEncodingNotChunked
      end
  | [] =>
      len ← contentLength contentLengths;
      match len with
      | None => inr NO_BODY
      | Some n => inr (sized_body n)
      end
  end.

(** The [.] of a regular expression without the [s] flag. *)
Definition not_line_terminator (c : N) : bool :=
  negb ((c =? LF) || (c =? CR) || (c =? 8232) || (c =? 8233)).

(** The status line: [HTTP/1.0] or [HTTP/1.1], a space, three digits, and then
    either nothing or a space and any text without a line terminator. *)
Definition responseStatus (statusLine : text) : framed N :=
  let p := txt "HTTP/1." in
  if negb (starts_with p statusLine) then inl InvalidStatusLine else
  match drop 7 statusLine with
  | minor :: sp :: a :: b :: c :: rest =>
      if ((minor =? 48) || (minor =? 49)) && (sp =? SP)
         && is_digit a && is_digit b && is_digit c
         && match rest with
            | [] => true
            | x :: rest' => (x =? SP) && forallb not_line_terminator rest'
            end
      then inr (parse_nat 10 [a; b; c]) else inl InvalidStatusLine
  | _ => inl InvalidStatusLine
  end.

Definition isInformational (status : N) : bool := (100 <=? status) && (status <=? 199).

Record ResponseFramingInput := {
  requestMethod : text;
  transferEncodings : list text;
  contentLengths : list text
}.

Definition declaredResponseLength (contentLengths : list text) : option N :=
  match contentLength contentLengths with
  | inr len => len
  | inl _ => None
  end.

Definition responseBodyFraming (status : N) (input : ResponseFramingInput) : BodyFraming :=
  if isInformational status || (status =? 204) || (status =? 304) then NO_BODY
  else if bool_decide (to_upper (requestMethod input) = HEAD_METHOD) then NO_BODY
  else match transferEncodings input with
  | _ :: _ =>
      if bool_decide (last (listValues (transferEncodings input)) = Some CHUNKED_CODING)
      then CHUNKED_BODY else UNTIL_CLOSE_BODY
  | [] =>
      match declaredResponseLength (contentLengths input) with
      | None => UNTIL_CLOSE_BODY
      | Some n => sized_body n
      end
  end.

Definition chunkSize (line : text) : framed N :=
  let withoutLineEnd :=
    if ends_with CRLF line then take (length line - 2) line else line in
  let size := default [] (head (split_on SEMICOLON withoutLineEnd)) in
  let digits := trimOws size in
  if all_of is_hex_digit digits then safeInteger digits 16 else inl InvalidChunkSize.

(** ** Lemmas *)

Lemma all_of_spec f s : all_of f s = true <-> s <> [] /\ Forall (fun c => f c = true) s.
Proof.
  unfold all_of. rewrite Forall_forall. destruct s as [|c s]; [naive_solver|].
  rewrite forallb_forall. setoid_rewrite <- list_elem_of_In. naive_solver.
Qed.

Lemma safeInteger_spec digits radix n :
  safeInteger digits radix = inr n <->
  n = parse_nat radix digits /\ n <= MAX_SAFE_INTEGER.
Proof.
  unfold safeInteger. destruct (N.leb_spec (parse_nat radix digits) MAX_SAFE_INTEGER).
  - split; [by intros [= <-]|by intros [-> ?]].
  - split; [done|]. intros [-> ?]. lia.
Qed.

(** A list whose elements are all equal is one element once duplicates go. *)
Lemma remove_dups_singleton (l : list text) x :
  remove_dups l = [x] <-> l <> [] /\ Forall (eq x) l.
Proof.
  rewrite Forall_forall. split.
  - intros H. split; [by intros ->|]. intros y Hy%elem_of_remove_dups.
    rewrite H in Hy. set_solver.
  - intros [Hne Hall]. pose proof (NoDup_remove_dups l) as Hnd.
    assert (Hall' : forall y, y ∈ remove_dups l -> x = y)
      by (intros y Hy; apply Hall; by apply elem_of_remove_dups).
    destruct l as [|z l]; [done|].
    assert (Hz : z ∈ remove_dups (z :: l)) by (apply elem_of_remove_dups; set_solver).
    destruct (remove_dups (z :: l)) as [|y [|y' r]]; [set_solver| |].
    + f_equal. symmetry. apply Hall'. set_solver.
    + exfalso. apply NoDup_cons in Hnd as [Hnd _]. apply Hnd.
      rewrite <- (Hall' y), <- (Hall' y') by set_solver. set_solver.
Qed.

Lemma listValues_not_nil v vs : listValues (v :: vs) <> [].
Proof.
  unfold listValues. simpl. pose proof (split_on_not_nil COMMA v).
  by destruct (split_on COMMA v).
Qed.

(** Every declared item is the same decimal numeral [item], of value [n]. *)
Definition declares (values : list text) (n : N) : Prop :=
  values <> [] /\ exists item,
    Forall (eq item) (listValues values) /\ all_of is_digit item = true /\
    n = parse_nat 10 item /\ n <= MAX_SAFE_INTEGER.

Lemma contentLength_Some values n :
  contentLength values = inr (Some n) <-> declares values n.
Proof.
  unfold contentLength, declares. destruct values as [|v vs]; [naive_solver|].
  pose proof (listValues_not_nil v vs) as Hne.
  pose proof (fun x => remove_dups_singleton (listValues (v :: vs)) x) as Hs.
  split.
  - intros H. split; [done|]. destruct (remove_dups _) as [|item [|? ?]]; try done.
    exists item. destruct (all_of is_digit item); [|done]. simpl in H.
    destruct (safeInteger item 10) eqn:E; simplify_eq/=. apply safeInteger_spec in E.
    by destruct (proj1 (Hs item) eq_refl).
  - intros [_ (item & Hall & Hd & Hn)].
    rewrite (proj2 (Hs item)), Hd by done. simpl.
    by rewrite (proj2 (safeInteger_spec item 10 n)).
Qed.

Lemma contentLength_None values : contentLength values = inr None <-> values = [].
Proof.
  unfold contentLength. split; [|by intros ->]. destruct values; [done|]. intros H.
  repeat case_match; simplify_eq/=. by destruct (safeInteger _ _).
Qed.

(** ** Specification: RFC 9112 section 6.3 for a request *)

(** The last transfer coding a request declares, empty list items ignored. *)
Definition last_coding (tes : list text) : option text :=
  last (filter (fun coding => coding <> []) (listValues tes)).

Inductive request_framing : list text -> list text -> BodyFraming -> Prop :=
  | rf_chunked tes : last_coding tes = Some CHUNKED_CODING -> request_framing tes [] CHUNKED_BODY
  | rf_empty : request_framing [] [] NO_BODY
  | rf_sized cls n : declares cls n -> request_framing [] cls (sized_body n).

(** C21. The framing of a request is exactly the unambiguous one: the code
    accepts a request with a framing if and only if the request has a chunked
    final transfer coding and no length, no length field at all, or length
    fields that all carry the same decimal numeral within the safe integers;
    in particular [Transfer-Encoding] next to [Content-Length], or two
    different lengths, is always rejected. *)
Theorem requestBodyFraming_exact tes cls fr :
  requestBodyFraming tes cls = inr fr <-> request_framing tes cls fr.
Proof.
  unfold requestBodyFraming. fold (last_coding tes). split.
  - destruct tes as [|te tes].
    + destruct (contentLength cls) as [e|[n|]] eqn:E; simpl; intros; simplify_eq.
      * by apply rf_sized, contentLength_Some.
      * apply contentLength_None in E as ->. constructor.
    + destruct cls; [|done]. case_bool_decide; [|done]. intros [= <-]. by constructor.
  - intros [tes' Hl| |cls' n Hn]; [| done |].
    + destruct tes' as [|te tes']; [done|]. by rewrite bool_decide_true.
    + apply contentLength_Some in Hn. by rewrite Hn.
Qed.

(** ** Chunk sizes *)

Lemma hex_digit_range c : is_hex_digit c = true -> 48 <= c <= 102 /\ c <> SEMICOLON.
Proof.
  unfold is_hex_digit, is_digit, SEMICOLON.
  rewrite !orb_true_iff, !andb_true_iff, !N.leb_le. lia.
Qed.

Lemma hex_numeral n : Forall (fun c => is_hex_digit c = true) (print_nat 16 n).
Proof.
  apply print_nat_digits; [done|]. intros d Hd. unfold digit_char, is_hex_digit, is_digit.
  destruct (N.ltb_spec d 10); rewrite !orb_true_iff, !andb_true_iff, !N.leb_le; lia.
Qed.

Lemma hex_not_in c s :
  Forall (fun c => is_hex_digit c = true) s -> is_hex_digit c = false -> c ∉ s.
Proof. rewrite Forall_forall. intros H Hc Hin%H. congruence. Qed.

Lemma hex_trimmed s : Forall (fun c => is_hex_digit c = true) s -> trimmed is_ows s.
Proof.
  rewrite Forall_forall. intros H.
  assert (Hx : forall x, x ∈ s -> is_ows x = false).
  { intros x [Hr _]%H%hex_digit_range. unfold is_ows, SP, TAB.
    by rewrite !(proj2 (N.eqb_neq _ _)) by lia. }
  split; intros x Hl; apply Hx; [by apply head_Some_elem_of|by apply last_Some_elem_of].
Qed.

Lemma crlf_tail s : ends_with CRLF s = true -> CR ∈ s.
Proof. intros [r ->]%ends_with_true. set_solver. Qed.

(** Cutting the final CRLF the way [line.slice(0, -2)] does. *)
Lemma without_line_end s ending :
  CR ∉ s -> ending = [] \/ ending = CRLF ->
  (if ends_with CRLF (s ++ ending) then take (length (s ++ ending) - 2) (s ++ ending)
   else s ++ ending) = s.
Proof.
  intros Hs [-> | ->].
  - rewrite app_nil_r. case_match eqn:E; [|done]. by apply crlf_tail in E.
  - rewrite ends_with_app. rewrite length_app. simpl.
    replace (length s + 2 - 2)%nat with (length s) by lia. apply take_app_length.
Qed.

(** A chunk extension as it appears after the size: none, or from [";"] on. *)
Definition chunk_extension (ext : text) : Prop :=
  ext = [] \/ exists e, ext = SEMICOLON :: e /\ CR ∉ e.

(** The size line of a chunk is read back: for every size up to the safe
    integers, a line with its hexadecimal numeral, with or without a chunk
    extension and with or without its final CRLF, is read as that size. *)
Theorem chunkSize_roundtrip n ext ending :
  n <= MAX_SAFE_INTEGER -> chunk_extension ext -> ending = [] \/ ending = CRLF ->
  chunkSize (print_nat 16 n ++ ext ++ ending) = inr n.
Proof.
  intros Hn Hext Hend. pose proof (hex_numeral n) as Hh. unfold chunkSize.
  rewrite app_assoc, without_line_end; [| |done].
  - assert (Hhd : head (split_on SEMICOLON (print_nat 16 n ++ ext)) = Some (print_nat 16 n)).
    { destruct Hext as [->|(e & -> & _)].
      - rewrite app_nil_r, split_on_no_sep; [done|]. by apply hex_not_in.
      - rewrite split_on_app; [done|]. by apply hex_not_in. }
    rewrite Hhd. simpl. unfold trimOws. rewrite strip_id by (by apply hex_trimmed).
    rewrite (proj2 (all_of_spec _ _)) by (split; [apply print_nat_not_nil|done]).
    apply safeInteger_spec. by rewrite parse_print_nat.
  - rewrite not_elem_of_app. split; [by apply hex_not_in|].
    destruct Hext as [->|(e & -> & He)]; set_solver.
Qed.

Lemma chunkSize_roundtrip_witness :
  chunkSize (txt "1a2b;name=value" ++ CRLF) = inr 6699.
Proof.
  apply (chunkSize_roundtrip 6699 (txt ";name=value") CRLF).
  - done.
  - right. exists (txt "name=value"). split; [done|by_decide].
  - by right.
Defined.

(** A response never claims a length its headers do not state: a body of
    declared length [n > 0] comes only from a status and method that may carry a
    body, with no [Transfer-Encoding], and with length fields that all carry the
    same numeral of value [n]; an ambiguous or invalid length is read until the
    connection closes. *)
Theorem responseBodyFraming_length status input n :
  responseBodyFraming status input = {| kind := length_; body_length := n |} ->
  isInformational status = false /\ status <> 204 /\ status <> 304 /\
  transferEncodings input = [] /\ declares (contentLengths input) n /\ 0 < n.
Proof.
  unfold responseBodyFraming, declaredResponseLength, sized_body.
  destruct (isInformational status) eqn:?; simpl; [done|].
  destruct (N.eqb_spec status 204); simpl; [done|].
  destruct (N.eqb_spec status 304); simpl; [done|].
  case_bool_decide; [done|]. destruct (transferEncodings input); [|by case_bool_decide].
  destruct (contentLength _) as [e|[m|]] eqn:E; [done| |done].
  destruct (N.eqb_spec m 0); [done|]. intros [= ->]. apply contentLength_Some in E.
  repeat split; try done; [apply E|apply E|lia].
Qed.

Definition sample_response : ResponseFramingInput := {|
  requestMethod := txt "GET"; transferEncodings := [];
  contentLengths := [txt "12"; txt "12 , 12"] |}.

Lemma responseBodyFraming_length_witness :
  declares (contentLengths sample_response) 12.
Proof. by apply (responseBodyFraming_length 200 sample_response). Defined.
