(* ===== verification/HttpHead.v ===== *)
(** * HttpHead: parsing and rewriting the head of a proxied HTTP/1.1 message

    src/clients/typescript/src/cli/http-head.ts: [parseHttpHead] reads the head a
    local client sends to [rayito sandbox proxy], [rewriteHead] prints the head
    the proxy sends to the sandbox endpoint, with the proxy's own routing and
    credential headers, and [closingResponseHead] the head of the answer.  The
    theorems show that what the proxy prints is read back as exactly the headers
    it meant, so that no client header can add, hide or duplicate one of them. *)

From stdpp Require Import base option list strings sets.
From Stdlib Require Import NArith ZArith Lia.
From S2P Require Import Prelude Text HttpFraming.

Local Open Scope N_scope.

(** ** Data *)

Definition HEADER_TERMINATOR : text := CRLF ++ CRLF.
Definition COLON : N := 58.

(** [TOKEN_CHARACTERS], the [tchar] of RFC 9110 section 5.6.2. *)
Definition is_tchar (c : N) : bool :=
  is_digit c || ((65 <=? c) && (c <=? 90)) || ((97 <=? c) && (c <=? 122))
  || bool_decide (c ∈ txt "!#$%&'*+-.^_`|~").

Definition PROXY_HEADER_PREFIX : text := txt "x-aws-proxy-".
Definition AUTH_HEADER_NAME : text := txt "X-aws-proxy-auth".
Definition PORT_HEADER_NAME : text := txt "X-aws-proxy-port".
Definition HOST_HEADER_NAME : text := txt "Host".
Definition COOKIE_HEADER_NAME : text := txt "Cookie".
Definition COOKIE_SEPARATOR : text := txt "; ".
Definition DASHBOARD_COOKIE_PREFIX : text := txt "rayito_dashboard_".
Definition CONNECTION_HEADER_NAME : text := txt "Connection".
Definition UPGRADE_HEADER_NAME : text := txt "Upgrade".
Definition UPGRADE_TOKEN : text := txt "upgrade".
Definition CLOSE_TOKEN : text := txt "close".
Definition TRANSFER_ENCODING_HEADER_NAME : text := txt "Transfer-Encoding".
Definition CONTENT_LENGTH_HEADER_NAME : text := txt "Content-Length".

(** What a [MalformedHttpHeadError] reports. *)
Inductive head_error :=
  | NoTerminator
  | BareLineBreak
  | EmptyRequestLine
  | ObsFold
  | NoColon
  | BadName.

#[local] Instance head_ret : MRet (sum head_error) := fun A a => inr a.
#[local] Instance head_bind : MBind (sum head_error) := fun A B f m =>
  match m with inl e => inl e | inr a => f a end.

Abbreviation HeaderPair := (text * text)%type.

Record HttpHead := { requestLine : text; headers : list HeaderPair }.

(** ** Reading a head *)

(** [headerValues], on the header list. *)
Definition values_of (name : text) (hs : list HeaderPair) : list text :=
  snd <$> filter (fun h => to_lower h.1 = to_lower name) hs.
Definition headerValues (h : HttpHead) (name : text) : list text := values_of name (headers h).
Definition header (h : HttpHead) (name : text) : option text := head (headerValues h name).

Definition method (h : HttpHead) : text := default [] (head (split_on SP (requestLine h))).

Definition bodyFraming (h : HttpHead) : framing_error + BodyFraming :=
  requestBodyFraming (headerValues h TRANSFER_ENCODING_HEADER_NAME)
                     (headerValues h CONTENT_LENGTH_HEADER_NAME).

Definition isUpgrade (h : HttpHead) : bool :=
  let tokens := (fun token => to_lower (trimOws token)) <$>
    split_on COMMA (default [] (header h CONNECTION_HEADER_NAME)) in
  bool_decide (UPGRADE_TOKEN ∈ tokens) && bool_decide (is_Some (header h UPGRADE_HEADER_NAME)).

Definition parseHeaderLine (line : text) : head_error + HeaderPair :=
  if match line with c :: _ => is_ows c | [] => false end then inl ObsFold else
  match index_of COLON line with
  | None => inl NoColon
  | Some separator =>
      let name := take separator line in
      if all_of is_tchar name
      then inr (name, trimOws (drop (S separator) line))
      else inl BadName
  end.

Definition has_line_break (line : text) : bool :=
  existsb (fun c => (c =? CR) || (c =? LF)) line.

Definition parseHttpHead (raw : text) : head_error + HttpHead :=
  if negb (ends_with HEADER_TERMINATOR raw) then inl NoTerminator else
  let lines := split_crlf (take (length raw - 4) raw) in
  if existsb has_line_break lines then inl BareLineBreak else
  match lines with
  | [] | [] :: _ => inl EmptyRequestLine
  | line :: headerLines =>
      hs ← mapM parseHeaderLine (filter (fun l => l <> []) headerLines);
      inr {| requestLine := line; headers := hs |}
  end.

(** ** Rewriting a head *)

Definition keeps_cookie (cookie : text) : bool :=
  negb (bool_decide (cookie = [])) && negb (starts_with DASHBOARD_COOKIE_PREFIX cookie).

Definition withoutDashboardCookies (cookieHeader : text) : option text :=
  match List.filter keeps_cookie (trimOws <$> split_on SEMICOLON cookieHeader) with
  | [] => None
  | kept => Some (join COOKIE_SEPARATOR kept)
  end.

Definition withCookiesFiltered (hs : list HeaderPair) : list HeaderPair :=
  h ← hs;
  if bool_decide (to_lower h.1 = to_lower COOKIE_HEADER_NAME) then
    match withoutDashboardCookies h.2 with
    | Some remaining => [(h.1, remaining)]
    | None => []
    end
  else [h].

Definition header_line (h : HeaderPair) : text := h.1 ++ txt ": " ++ h.2.

Definition serialise (startLine : text) (hs : list HeaderPair) : text :=
  join CRLF (startLine :: (header_line <$> hs) ++ [[]; []]).

Record RewriteTarget := { endpoint : text; jwe : text; port : Z }.

(** The test of the [filter] in [rewriteHead]. *)
Definition kept_upstream (upgrade : bool) (h : HeaderPair) : bool :=
  let lowered := to_lower h.1 in
  negb (starts_with PROXY_HEADER_PREFIX lowered)
  && negb (bool_decide (lowered = to_lower HOST_HEADER_NAME))
  && (upgrade || negb (bool_decide (lowered = to_lower CONNECTION_HEADER_NAME))).

(** The headers [rewriteHead] prints. *)
Definition upstream_headers (h : HttpHead) (target : RewriteTarget) : list HeaderPair :=
  let upgrade := isUpgrade h in
  List.filter (kept_upstream upgrade) (withCookiesFiltered (headers h))
  ++ [(HOST_HEADER_NAME, endpoint target); (AUTH_HEADER_NAME, jwe target);
      (PORT_HEADER_NAME, print_Z (port target))]
  ++ (if upgrade then [] else [(CONNECTION_HEADER_NAME, CLOSE_TOKEN)]).

Definition rewriteHead (h : HttpHead) (target : RewriteTarget) : text :=
  serialise (requestLine h) (upstream_headers h target).

Definition closing_headers (response : HttpHead) : list HeaderPair :=
  List.filter (fun h => negb (bool_decide (to_lower h.1 = to_lower CONNECTION_HEADER_NAME)))
    (headers response) ++ [(CONNECTION_HEADER_NAME, CLOSE_TOKEN)].

Definition closingResponseHead (response : HttpHead) : text :=
  serialise (requestLine response) (closing_headers response).

(** ** Well-formed heads *)

Definition no_break (s : text) : Prop := (CR ∉ s) /\ (LF ∉ s).

Definition wf_header (h : HeaderPair) : Prop :=
  all_of is_tchar h.1 = true /\ no_break h.2 /\ trimmed is_ows h.2.

Definition wf_head (h : HttpHead) : Prop :=
  requestLine h <> [] /\ no_break (requestLine h) /\ Forall wf_header (headers h).

Lemma no_break_subset (s s' : text) : (s' ⊆ s) -> no_break s -> no_break s'.
Proof. unfold no_break. set_solver. Qed.

Lemma no_break_app a b : no_break (a ++ b) <-> no_break a /\ no_break b.
Proof. unfold no_break. rewrite !not_elem_of_app. tauto. Qed.

Lemma has_line_break_false s : has_line_break s = false <-> no_break s.
Proof.
  unfold has_line_break, no_break. rewrite <- not_true_iff_false, existsb_exists.
  setoid_rewrite <- list_elem_of_In. setoid_rewrite orb_true_iff. setoid_rewrite N.eqb_eq.
  naive_solver.
Qed.

Lemma existsb_breaks ls : existsb has_line_break ls = false <-> Forall no_break ls.
Proof.
  rewrite <- not_true_iff_false, existsb_exists, Forall_forall.
  setoid_rewrite <- list_elem_of_In. setoid_rewrite <- has_line_break_false.
  split; [intros H x Hx; apply not_true_iff_false; naive_solver|].
  intros H (x & Hx & E). by rewrite (H x Hx) in E.
Qed.

(** A [tchar] is neither white space, nor a separator, nor a line break. *)
Lemma tchar_not c : is_tchar c = true -> c <> COLON /\ c <> CR /\ c <> LF /\ is_ows c = false.
Proof.
  intros H. repeat split; try (intros ->; vm_compute in H; discriminate).
  destruct (is_ows c) eqn:E; [|done]. unfold is_ows in E.
  apply orb_true_iff in E as [->%N.eqb_eq | ->%N.eqb_eq]; vm_compute in H; discriminate.
Qed.

(** ** Reading back what the proxy prints *)

Lemma parseHeaderLine_wf line h :
  no_break line -> parseHeaderLine line = inr h -> wf_header h.
Proof.
  intros Hnb. unfold parseHeaderLine. case_match; [done|].
  destruct (index_of COLON line) as [i|]; [|done]. cbv zeta.
  destruct (all_of is_tchar (take i line)) eqn:Hn; [|done].
  intros [= <-]. split; [done|]. simpl. split; [|apply strip_trimmed].
  apply (no_break_subset line); [|done]. intros c Hc%strip_subset.
  rewrite <- (take_drop (S i) line). apply elem_of_app. by right.
Qed.

Lemma parseHeaderLine_line h : wf_header h -> parseHeaderLine (header_line h) = inr h.
Proof.
  destruct h as [name value]. intros (Hn & Hv & Ht). simpl in *.
  apply all_of_spec in Hn as Hn'. destruct Hn' as [Hne Hall].
  assert (Hc : COLON ∉ name).
  { rewrite Forall_forall in Hall. intros Hin%Hall%tchar_not. naive_solver. }
  unfold parseHeaderLine, header_line. cbn [fst snd].
  destruct name as [|c name]; [done|]. cbn [app].
  assert (is_ows c = false) as ->
    by (apply Forall_cons in Hall as [Hc' _]; apply (tchar_not c Hc')).
  change (c :: name ++ txt ": " ++ value) with ((c :: name) ++ COLON :: SP :: value).
  rewrite (index_of_app COLON (c :: name)) by done.
  rewrite (take_app_length (c :: name)), Hn.
  rewrite (drop_app_ge (c :: name)) by lia.
  replace (S (length (c :: name)) - length (c :: name))%nat with 1%nat by lia. simpl drop.
  unfold trimOws. by rewrite strip_cons, strip_id.
Qed.

Lemma header_line_break h : wf_header h -> no_break (header_line h) /\ header_line h <> [].
Proof.
  destruct h as [name value]. intros (Hn & Hv & _). apply all_of_spec in Hn as [Hne Hall].
  unfold header_line. cbn [fst snd] in *. split.
  - rewrite !no_break_app. split_and!; [| |done].
    + rewrite Forall_forall in Hall. split; intros Hin%Hall%tchar_not; naive_solver.
    + split; by_decide.
  - by destruct name.
Qed.

Lemma mapM_header_lines hs :
  Forall wf_header hs -> mapM parseHeaderLine (header_line <$> hs) = inr hs.
Proof.
  induction 1 as [|h hs Hh Hhs IH]; [done|]. rewrite fmap_cons. cbn [mapM].
  rewrite parseHeaderLine_line by done. cbn. by rewrite IH.
Qed.

Lemma mapM_wf ls hs :
  Forall no_break ls -> mapM parseHeaderLine ls = inr hs -> Forall wf_header hs.
Proof.
  intros Hls. revert hs. induction Hls as [|l ls Hl Hls IH]; intros hs; simpl.
  { intros [= <-]. constructor. }
  destruct (parseHeaderLine l) eqn:E; simpl; [done|].
  destruct (mapM parseHeaderLine ls); simpl; [done|]. intros [= <-].
  constructor; [by eapply parseHeaderLine_wf|by apply IH].
Qed.

Lemma join_app_nils x ls : join CRLF (x :: ls ++ [[]; []]) = join CRLF (x :: ls) ++ HEADER_TERMINATOR.
Proof.
  revert x. induction ls as [|y ls IH]; intros x; [done|].
  cbn [app]. rewrite !join_cons, (IH y). by rewrite <- !app_assoc.
Qed.

Lemma filter_lines hs :
  Forall wf_header hs -> filter (fun l => l <> []) (header_line <$> hs) = header_line <$> hs.
Proof.
  induction 1 as [|h hs Hh Hhs IH]; [done|]. rewrite fmap_cons.
  rewrite filter_cons_True by (apply header_line_break; done). by rewrite IH.
Qed.

Lemma header_lines_break hs : Forall wf_header hs -> Forall no_break (header_line <$> hs).
Proof. intros H. rewrite Forall_fmap. eapply Forall_impl; [done|]. apply header_line_break. Qed.

(** Whatever head [parseHttpHead] accepts is well formed: a non-empty request
    line, names made of [tchar] only, and no CR or LF anywhere. *)
Lemma parsed_wf raw h : parseHttpHead raw = inr h -> wf_head h.
Proof.
  unfold parseHttpHead. case_match; [done|]. cbv zeta.
  destruct (existsb has_line_break _) eqn:Hb; [done|]. apply existsb_breaks in Hb.
  destruct (split_crlf _) as [|[|c line] ls]; [done|done|].
  destruct (mapM parseHeaderLine _) as [|hs] eqn:E; simpl; [done|]. intros [= <-].
  apply Forall_cons in Hb as [Hl Hls]. split; [done|]. split; [done|].
  eapply mapM_wf; [|done]. rewrite Forall_forall in Hls |- *.
  intros l [_ Hin]%list_elem_of_filter. by apply Hls.
Qed.

(** The parser inverts the printer on well-formed heads. *)
Lemma parse_serialise h :
  wf_head h -> parseHttpHead (serialise (requestLine h) (headers h)) = inr h.
Proof.
  destruct h as [line hs]. intros (Hne & Hl & Hhs). cbn [requestLine headers] in *.
  unfold parseHttpHead, serialise. rewrite join_app_nils, ends_with_app. cbn [negb].
  rewrite length_app. change (length HEADER_TERMINATOR) with 4%nat.
  rewrite Nat.add_sub, take_app_length.
  pose proof (header_lines_break hs Hhs) as Hb.
  rewrite split_crlf_join; [|done|].
  2:{ constructor; [apply Hl|]. eapply Forall_impl; [apply Hb|]. by intros l []. }
  rewrite (proj2 (existsb_breaks _)) by (constructor; [apply Hl|done]).
  destruct line as [|c line]; [done|].
  rewrite filter_lines, mapM_header_lines by done. done.
Qed.

Definition sample_raw : text :=
  txt "GET / HTTP/1.1" ++ CRLF ++ txt "Host: evil" ++ CRLF
  ++ txt "x-AWS-proxy-port: 22" ++ CRLF
  ++ txt "Cookie: a=1; rayito_dashboard_8080=s; b=2" ++ CRLF
  ++ txt "Content-Length: 3" ++ CRLF ++ CRLF.
Definition sample_head : HttpHead := {|
  requestLine := txt "GET / HTTP/1.1";
  headers := [(txt "Host", txt "evil"); (txt "x-AWS-proxy-port", txt "22");
              (txt "Cookie", txt "a=1; rayito_dashboard_8080=s; b=2");
              (txt "Content-Length", txt "3")] |}.

(** C22. The printer and the strict parser agree exactly on well-formed heads:
    a printed head is read back as itself if and only if its request line is not
    empty, its header names are [tchar] only (one at least), its values are trimmed,
    and there is no CR or LF in it.  What the parser accepts, from whatever bytes, is
    such a head: printed again, it is read back as itself. *)
Theorem parse_print_exact h :
  (parseHttpHead (serialise (requestLine h) (headers h)) = inr h <-> wf_head h) /\
  forall bytes, parseHttpHead bytes = inr h ->
    parseHttpHead (serialise (requestLine h) (headers h)) = inr h.
Proof.
  split; [split; [apply parsed_wf|apply parse_serialise]|].
  intros bytes Hb. by eapply parse_serialise, parsed_wf.
Qed.

(** ** The headers of a rewritten head *)

Lemma values_of_app name a b : values_of name (a ++ b) = values_of name a ++ values_of name b.
Proof. unfold values_of. by rewrite filter_app, fmap_app. Qed.

Lemma values_of_cons name h hs :
  values_of name (h :: hs) =
  (if decide (to_lower h.1 = to_lower name) then [h.2] else []) ++ values_of name hs.
Proof. unfold values_of. rewrite filter_cons. by case_decide. Qed.

(** Filtering out other names leaves the values of [name] alone. *)
Lemma values_of_filter name (f : HeaderPair -> bool) hs :
  (forall h, to_lower h.1 = to_lower name -> f h = true) ->
  values_of name (List.filter f hs) = values_of name hs.
Proof.
  intros Hf. induction hs as [|h hs IH]; [done|]. simpl. destruct (f h) eqn:E.
  - by rewrite !values_of_cons, IH.
  - rewrite values_of_cons, IH. case_decide as Hd; [|done]. by rewrite Hf in E.
Qed.

Lemma values_of_none name hs :
  (forall h, h ∈ hs -> to_lower h.1 <> to_lower name) -> values_of name hs = [].
Proof.
  intros H. unfold values_of. induction hs as [|h hs IH]; [done|].
  rewrite filter_cons_False by (apply H; set_solver). apply IH. set_solver.
Qed.

Lemma values_of_cookies name hs :
  to_lower name <> to_lower COOKIE_HEADER_NAME ->
  values_of name (withCookiesFiltered hs) = values_of name hs.
Proof.
  intros Hn. unfold withCookiesFiltered. induction hs as [|h hs IH]; [done|].
  rewrite bind_cons, values_of_app, values_of_cons, IH. f_equal.
  case_bool_decide as Hc.
  - rewrite decide_False by congruence. case_match; [|done].
    rewrite values_of_cons. rewrite decide_False by (simpl; congruence). done.
  - rewrite values_of_cons. by rewrite app_nil_r.
Qed.

(** ** Values the proxy writes are well formed *)

Definition clean (s : text) : Prop := no_break s /\ trimmed is_ows s.
Definition clean_target (t : RewriteTarget) : Prop := clean (endpoint t) /\ clean (jwe t).

Lemma visible_clean s : Forall (fun c => 33 <= c) s -> clean s.
Proof.
  rewrite Forall_forall. intros H.
  assert (Hx : forall x, x ∈ s -> is_ows x = false).
  { intros x Hx%H. unfold is_ows, SP, TAB. by rewrite !(proj2 (N.eqb_neq _ _)) by lia. }
  split.
  - split; intros Hin%H; unfold CR, LF in *; lia.
  - split; intros x Hl; apply Hx; [by apply head_Some_elem_of|by apply last_Some_elem_of].
Qed.

Lemma print_Z_clean z : clean (print_Z z).
Proof.
  assert (Hd : forall n, Forall (fun c => 33 <= c) (print_nat 10 n)).
  { intros n. apply print_nat_digits; [done|]. intros d Hd. unfold digit_char. case_match; lia. }
  apply visible_clean. unfold print_Z. case_match; [constructor; [done|]|]; apply Hd.
Qed.

Lemma join_head sep c cs x :
  c <> [] -> head (join sep (c :: cs)) = Some x -> head c = Some x.
Proof. destruct c; [done|]. by destruct cs. Qed.

Lemma join_last sep c cs x :
  Forall (fun p => p <> []) (c :: cs) -> last (join sep (c :: cs)) = Some x ->
  exists p, p ∈ c :: cs /\ last p = Some x.
Proof.
  revert c. induction cs as [|d cs IH]; intros c Hne Hl.
  - exists c. split; [set_solver|done].
  - apply Forall_cons in Hne as [Hc Hne]. rewrite join_cons in Hl.
    assert (join sep (d :: cs) <> []) as Hj.
    { apply Forall_cons in Hne as [Hd _]. destruct d; [done|]. by destruct cs. }
    rewrite !last_app in Hl. destruct (last (join sep (d :: cs))) as [y|] eqn:E.
    + simplify_eq. destruct (IH d Hne E) as (p & Hp & ?). exists p. split; [set_solver|done].
    + by apply last_None in E.
Qed.

Lemma join_subset sep cs x :
  x ∈ join sep cs -> x ∈ sep \/ exists c, c ∈ cs /\ x ∈ c.
Proof.
  induction cs as [|c cs IH]; [set_solver|]. destruct cs as [|d cs]; [set_solver|].
  rewrite join_cons, !elem_of_app. intros [?|[?|[?|(p & ? & ?)]%IH]]; [set_solver|by left|by left|].
  right. exists p. set_solver.
Qed.

(** The cookies of a [Cookie] value, as the proxy reads them. *)
Definition cookies (value : text) : list text :=
  List.filter (fun c => negb (bool_decide (c = []))) (trimOws <$> split_on SEMICOLON value).

Lemma kept_cookie_clean value c :
  no_break value -> c ∈ List.filter keeps_cookie (trimOws <$> split_on SEMICOLON value) ->
  clean c /\ c <> [] /\ SEMICOLON ∉ c.
Proof.
  rewrite list_elem_of_In, filter_In, <- list_elem_of_In, list_elem_of_fmap.
  intros Hv [(p & -> & Hp) Hk]. unfold keeps_cookie in Hk.
  apply andb_true_iff in Hk as [Hk _]. rewrite negb_true_iff, bool_decide_eq_false in Hk.
  pose proof (split_on_parts SEMICOLON value) as Hs. rewrite Forall_forall in Hs.
  pose proof (split_on_subset SEMICOLON value) as Hsub. rewrite Forall_forall in Hsub.
  split; [split; [|apply strip_trimmed]|split; [done|]].
  - apply (no_break_subset value); [|done]. intros x Hx%strip_subset. by apply (Hsub p).
  - apply strip_not_elem. by apply Hs.
Qed.

Lemma withoutDashboardCookies_clean value r :
  no_break value -> withoutDashboardCookies value = Some r -> clean r.
Proof.
  intros Hv. unfold withoutDashboardCookies.
  pose proof (fun c => kept_cookie_clean value c Hv) as Hk.
  destruct (List.filter _ _) as [|c cs]; [done|]. intros Hr.
  assert (r = join COOKIE_SEPARATOR (c :: cs)) as -> by congruence. split.
  - split; intros [Hs|(p & Hp & Hx)]%join_subset;
      try (revert Hs; by_decide); destruct (Hk p Hp) as [[[??] _] _]; done.
  - split; intros x Hx.
    + apply join_head in Hx; [|apply Hk; set_solver].
      destruct (Hk c) as [[_ [Hh _]] _]; [set_solver|by apply Hh].
    + apply join_last in Hx as (p & Hp & Hx).
      * destruct (Hk p Hp) as [[_ [_ Hl]] _]. by apply Hl.
      * rewrite Forall_forall. intros p Hp. by apply Hk.
Qed.

Lemma withCookiesFiltered_wf hs : Forall wf_header hs -> Forall wf_header (withCookiesFiltered hs).
Proof.
  unfold withCookiesFiltered.
  induction 1 as [|[n v] hs (Hn & Hv & Ht) Hhs IH]; [done|].
  rewrite bind_cons. apply Forall_app. split; [|done]. cbn [fst snd] in *.
  case_bool_decide; [|constructor; [by split_and!|done]].
  destruct (withoutDashboardCookies v) as [r|] eqn:E; [|done].
  apply withoutDashboardCookies_clean in E as [??]; [|done].
  constructor; [|done]. by split_and!.
Qed.

Lemma Forall_list_filter {A} (P : A -> Prop) f l : Forall P l -> Forall P (List.filter f l).
Proof.
  rewrite !Forall_forall. intros H x. rewrite list_elem_of_In, filter_In, <- list_elem_of_In.
  intros [? _]. by apply H.
Qed.

Lemma upstream_headers_wf h t :
  wf_head h -> clean_target t -> Forall wf_header (upstream_headers h t).
Proof.
  intros (_ & _ & Hhs) [[??] [??]]. unfold upstream_headers.
  apply Forall_app. split; [by apply Forall_list_filter, withCookiesFiltered_wf|].
  destruct (print_Z_clean (port t)) as [??].
  apply Forall_app. split.
  - repeat apply Forall_cons_2; [by split_and!..|done].
  - destruct (isUpgrade h); [done|]. apply Forall_cons_2; [|done].
    pose proof (visible_clean CLOSE_TOKEN ltac:(by_decide)) as [??]. by split_and!.
Qed.

(** ** What the upstream reads *)

(** A name whose headers [rewriteHead] drops. *)
Lemma kept_none name upgrade hs :
  (forall h, kept_upstream upgrade h = true -> to_lower h.1 <> to_lower name) ->
  values_of name (List.filter (kept_upstream upgrade) hs) = [].
Proof.
  intros H. apply values_of_none. intros h.
  rewrite list_elem_of_In, filter_In. intros [_ Hk]. by apply H.
Qed.

Lemma kept_upstream_spec upgrade h :
  kept_upstream upgrade h = true <->
  starts_with PROXY_HEADER_PREFIX (to_lower h.1) = false /\
  to_lower h.1 <> to_lower HOST_HEADER_NAME /\
  (upgrade = true \/ to_lower h.1 <> to_lower CONNECTION_HEADER_NAME).
Proof.
  unfold kept_upstream. rewrite !andb_true_iff, orb_true_iff, !negb_true_iff, !bool_decide_eq_false.
  tauto.
Qed.

(** The values of [name] among the headers the proxy appends. *)
Definition appended_values (name : text) (upgrade : bool) (t : RewriteTarget) : list text :=
  values_of name
    ([(HOST_HEADER_NAME, endpoint t); (AUTH_HEADER_NAME, jwe t);
      (PORT_HEADER_NAME, print_Z (port t))]
     ++ (if upgrade then [] else [(CONNECTION_HEADER_NAME, CLOSE_TOKEN)])).

Lemma upstream_values name h t :
  values_of name (upstream_headers h t) =
  values_of name (List.filter (kept_upstream (isUpgrade h)) (withCookiesFiltered (headers h)))
  ++ appended_values name (isUpgrade h) t.
Proof. apply values_of_app. Qed.

(** Headers the proxy has no business with are passed on as they are. *)
Lemma upstream_untouched name h t :
  to_lower name <> to_lower COOKIE_HEADER_NAME ->
  (forall b, appended_values name b t = []) ->
  (forall b hd, to_lower hd.1 = to_lower name -> kept_upstream b hd = true) ->
  values_of name (upstream_headers h t) = values_of name (headers h).
Proof.
  intros Hc Ha Hk. rewrite upstream_values, Ha, app_nil_r.
  rewrite values_of_filter by auto. by apply values_of_cookies.
Qed.

Ltac eval_values :=
  unfold appended_values; repeat (rewrite values_of_cons || rewrite values_of_app);
  repeat first [rewrite decide_True by (cbn [fst]; by_decide)
               |rewrite decide_False by (cbn [fst]; by_decide)]; try done.

(** [kept_upstream] only looks at the folded name. *)
Ltac by_kept :=
  intros b hd Heq; apply kept_upstream_spec; rewrite Heq; split_and!;
  [vm_compute; reflexivity|by_decide|right; by_decide].

Lemma framing_headers_untouched h t name :
  name = TRANSFER_ENCODING_HEADER_NAME \/ name = CONTENT_LENGTH_HEADER_NAME ->
  values_of name (upstream_headers h t) = values_of name (headers h).
Proof.
  intros [-> | ->]; (apply upstream_untouched; [by_decide| |by_kept]);
    intros b; unfold appended_values; destruct b; eval_values.
Qed.

(** A routing header carries the proxy's value and nothing else. *)
Lemma routing_header h t name v :
  (name, v) ∈ [(HOST_HEADER_NAME, endpoint t); (AUTH_HEADER_NAME, jwe t);
               (PORT_HEADER_NAME, print_Z (port t))] ->
  values_of name (upstream_headers h t) = [v].
Proof.
  intros Hin. rewrite upstream_values, kept_none.
  - rewrite !elem_of_cons in Hin. destruct Hin as [[= -> ->]|[[= -> ->]|[[= -> ->]|[]%elem_of_nil]]];
      destruct (isUpgrade h); eval_values.
  - intros hd [Hp [Hh _]]%kept_upstream_spec Heq. rewrite Heq in Hp, Hh.
    rewrite !elem_of_cons in Hin.
    destruct Hin as [[= -> ->]|[[= -> ->]|[[= -> ->]|[]%elem_of_nil]]];
      [done|vm_compute in Hp; discriminate..].
Qed.

Lemma connection_header h t :
  isUpgrade h = false -> values_of CONNECTION_HEADER_NAME (upstream_headers h t) = [CLOSE_TOKEN].
Proof.
  intros Hu. rewrite upstream_values, Hu, kept_none; [eval_values|].
  intros hd (_ & _ & [?|?])%kept_upstream_spec; done.
Qed.

Lemma upgrade_headers h t name :
  isUpgrade h = true -> name = CONNECTION_HEADER_NAME \/ name = UPGRADE_HEADER_NAME ->
  values_of name (upstream_headers h t) = values_of name (headers h).
Proof.
  intros Hu Hn. rewrite upstream_values, Hu.
  assert (appended_values name true t = []) as ->.
  { destruct Hn as [-> | ->]; eval_values. }
  rewrite app_nil_r, values_of_filter; [apply values_of_cookies; destruct Hn as [-> | ->]; by_decide|].
  intros hd Heq. apply kept_upstream_spec. rewrite Heq.
  destruct Hn as [-> | ->]; (split_and!; [vm_compute; reflexivity|by_decide|by left]).
Qed.

Definition upstream_head (h : HttpHead) (t : RewriteTarget) : HttpHead :=
  {| requestLine := requestLine h; headers := upstream_headers h t |}.

Lemma upstream_head_wf h t : wf_head h -> clean_target t -> wf_head (upstream_head h t).
Proof. intros Hwf Ht. split_and!; [apply Hwf|apply Hwf|by apply upstream_headers_wf]. Qed.

Lemma upstream_upgrade h t : isUpgrade (upstream_head h t) = isUpgrade h.
Proof.
  destruct (isUpgrade h) eqn:Hu.
  - rewrite <- Hu. unfold isUpgrade, header, headerValues. cbn [upstream_head headers].
    by rewrite !upgrade_headers by auto.
  - unfold isUpgrade, header, headerValues. cbn [upstream_head headers].
    rewrite connection_header by done. done.
Qed.

Lemma proxy_headers_only h t n v :
  (n, v) ∈ upstream_headers h t -> starts_with PROXY_HEADER_PREFIX (to_lower n) = true ->
  n = AUTH_HEADER_NAME \/ n = PORT_HEADER_NAME.
Proof.
  unfold upstream_headers. rewrite !elem_of_app, !elem_of_cons. intros Hin Hp.
  destruct Hin as [Hin|[Hin|Hin]].
  - apply list_elem_of_In, filter_In in Hin as [_ [Hk _]%kept_upstream_spec].
    cbn [fst] in Hk. congruence.
  - destruct Hin as [[= -> ->]|[[= -> ->]|[[= -> ->]|[]%elem_of_nil]]]; [discriminate|by left|by right].
  - destruct (isUpgrade h); [by apply elem_of_nil in Hin|].
    apply list_elem_of_singleton in Hin as [= -> ->]. discriminate.
Qed.

(** No smuggling through the proxy.  For a head the parser accepted and a
    target whose endpoint and token hold no line break, the head the proxy sends
    is read back, by the same strict parser, with the client's request line and
    with exactly one [Host], one [X-aws-proxy-auth] and one [X-aws-proxy-port],
    which are the target's; every other [x-aws-proxy-*] header is gone; the body
    has the same framing as the client's; and the message is an upgrade exactly
    when the client asked for one, with [Connection: close] otherwise. *)
Theorem rewriteHead_safe raw h t :
  parseHttpHead raw = inr h -> clean_target t ->
  exists h', parseHttpHead (rewriteHead h t) = inr h' /\
    requestLine h' = requestLine h /\
    headerValues h' HOST_HEADER_NAME = [endpoint t] /\
    headerValues h' AUTH_HEADER_NAME = [jwe t] /\
    headerValues h' PORT_HEADER_NAME = [print_Z (port t)] /\
    (forall n v, (n, v) ∈ headers h' ->
       starts_with PROXY_HEADER_PREFIX (to_lower n) = true ->
       n = AUTH_HEADER_NAME \/ n = PORT_HEADER_NAME) /\
    bodyFraming h' = bodyFraming h /\
    isUpgrade h' = isUpgrade h /\
    (isUpgrade h = false -> headerValues h' CONNECTION_HEADER_NAME = [CLOSE_TOKEN]).
Proof.
  intros Hp Ht. pose proof Hp as Hwf%parsed_wf. exists (upstream_head h t).
  split.
  { by apply (parse_serialise (upstream_head h t)), upstream_head_wf. }
  split; [done|]. unfold headerValues. cbn [upstream_head headers].
  split_and!; try (apply routing_header; set_solver).
  - intros n v. apply proxy_headers_only.
  - unfold bodyFraming, headerValues. cbn [upstream_head headers].
    by rewrite !framing_headers_untouched by auto.
  - apply upstream_upgrade.
  - apply connection_header.
Qed.

Definition sample_target : RewriteTarget :=
  {| endpoint := txt "vm.example.com"; jwe := txt "eyJh.b"; port := 8888 |}.

Lemma rewriteHead_safe_witness :
  exists h', parseHttpHead (rewriteHead sample_head sample_target) = inr h' /\
    headerValues h' PORT_HEADER_NAME = [txt "8888"].
Proof.
  destruct (rewriteHead_safe sample_raw sample_head sample_target) as (h' & H & _ & _ & _ & Hport & _).
  - vm_compute. reflexivity.
  - split; apply visible_clean; by_decide.
  - exists h'. split; [exact H|]. rewrite Hport. vm_compute. reflexivity.
Defined.

(** ** Cookies *)

Definition all_cookies (hs : list HeaderPair) : list text :=
  values_of COOKIE_HEADER_NAME hs ≫= cookies.

Definition not_dashboard (c : text) : bool := negb (starts_with DASHBOARD_COOKIE_PREFIX c).

Lemma split_cookie_join c cs :
  Forall (fun p => SEMICOLON ∉ p) (c :: cs) ->
  split_on SEMICOLON (join COOKIE_SEPARATOR (c :: cs)) = c :: (cons SP <$> cs).
Proof.
  revert c. induction cs as [|d cs IH]; intros c [Hc Hcs]%Forall_cons.
  - by apply split_on_no_sep.
  - rewrite join_cons. change (COOKIE_SEPARATOR ++ join COOKIE_SEPARATOR (d :: cs))
      with (SEMICOLON :: SP :: join COOKIE_SEPARATOR (d :: cs)).
    rewrite split_on_app by done. f_equal.
    change (split_on SEMICOLON (SP :: join COOKIE_SEPARATOR (d :: cs))) with
      (cons_head SP (split_on SEMICOLON (join COOKIE_SEPARATOR (d :: cs)))).
    by rewrite IH.
Qed.

Lemma trim_all (cs : list text) :
  Forall (trimmed is_ows) cs -> trimOws <$> cs = cs /\ trimOws <$> (cons SP <$> cs) = cs.
Proof.
  unfold trimOws. induction 1 as [|c cs Hc Hcs [IH1 IH2]]; [done|].
  rewrite !fmap_cons, IH1, IH2, strip_cons by done. by rewrite !strip_id.
Qed.

Lemma filter_all {A} (f : A -> bool) l : Forall (fun x => f x = true) l -> List.filter f l = l.
Proof. induction 1 as [|x l Hx Hl IH]; simpl; [done|]. by rewrite Hx, IH. Qed.

Lemma filter_filter {A} (f g : A -> bool) l :
  List.filter f (List.filter g l) = List.filter (fun x => g x && f x) l.
Proof.
  induction l as [|x l IH]; simpl; [done|]. destruct (g x); simpl; [|done].
  destruct (f x); by rewrite IH.
Qed.

(** The cookies of a printed list of kept cookies are those cookies. *)
Lemma cookies_join c cs :
  Forall (fun p => clean p /\ p <> [] /\ SEMICOLON ∉ p) (c :: cs) ->
  cookies (join COOKIE_SEPARATOR (c :: cs)) = c :: cs.
Proof.
  intros H. unfold cookies. rewrite split_cookie_join; [|by eapply Forall_impl; [done|]; naive_solver].
  assert (Ht : Forall (trimmed is_ows) (c :: cs)).
  { eapply Forall_impl; [done|]. by intros p [[_ ?] _]. }
  apply trim_all in Ht as Ht'. destruct Ht' as [Ht1 _]. apply Forall_cons in Ht as [Hc Hcs].
  apply trim_all in Hcs as [_ Ht2]. rewrite fmap_cons, Ht2.
  rewrite fmap_cons in Ht1. injection Ht1 as -> _. apply filter_all.
  eapply Forall_impl; [done|]. intros p (_ & Hp & _). by rewrite bool_decide_false.
Qed.

Lemma withoutDashboardCookies_cookies v :
  no_break v ->
  default [] (cookies <$> withoutDashboardCookies v) = List.filter not_dashboard (cookies v).
Proof.
  intros Hv. unfold withoutDashboardCookies, cookies at 2. rewrite filter_filter.
  pose proof (fun c => kept_cookie_clean v c Hv) as Hk.
  change (fun x => negb (bool_decide (x = [])) && not_dashboard x) with keeps_cookie.
  destruct (List.filter keeps_cookie _) as [|c cs]; [done|].
  cbn [fmap option_fmap option_map default]. apply cookies_join.
  by rewrite Forall_forall.
Qed.

Lemma all_cookies_filtered hs :
  Forall wf_header hs ->
  all_cookies (withCookiesFiltered hs) = List.filter not_dashboard (all_cookies hs).
Proof.
  unfold all_cookies, withCookiesFiltered. induction 1 as [|h hs (_ & Hv & _) Hhs IH]; [done|].
  rewrite bind_cons, values_of_app, bind_app, IH, values_of_cons, bind_app.
  rewrite List.filter_app. f_equal. case_bool_decide as Hc.
  - rewrite decide_True by done. cbn [mbind list_bind]. rewrite app_nil_r.
    rewrite <- withoutDashboardCookies_cookies by done.
    destruct (withoutDashboardCookies h.2); [|done].
    rewrite values_of_cons, decide_True by done. cbn. by rewrite app_nil_r.
  - rewrite decide_False by done. rewrite values_of_cons, decide_False by done. done.
Qed.

(** The proxy forwards every cookie but the dashboard's: in the head it
    sends, the cookies are the client's, in order, less those whose name starts
    with the session prefix of [rayito dashboard]. *)
Theorem rewriteHead_cookies raw h t h' :
  parseHttpHead raw = inr h -> clean_target t ->
  parseHttpHead (rewriteHead h t) = inr h' ->
  all_cookies (headers h') = List.filter not_dashboard (all_cookies (headers h)).
Proof.
  intros Hwf%parsed_wf Ht Hp'.
  pose proof (parse_serialise (upstream_head h t) (upstream_head_wf h t Hwf Ht)) as Hp.
  change (serialise _ _) with (rewriteHead h t) in Hp.
  assert (h' = upstream_head h t) as -> by congruence.
  rewrite <- all_cookies_filtered by apply Hwf.
  unfold all_cookies. f_equal. cbn [upstream_head headers].
  rewrite upstream_values, values_of_filter.
  - assert (appended_values COOKIE_HEADER_NAME (isUpgrade h) t = []) as ->
      by (destruct (isUpgrade h); eval_values). apply app_nil_r.
  - generalize (isUpgrade h). by_kept.
Qed.

Lemma rewriteHead_cookies_witness :
  exists h', all_cookies (headers h') = [txt "a=1"; txt "b=2"].
Proof.
  exists (upstream_head sample_head sample_target).
  rewrite (rewriteHead_cookies sample_raw sample_head sample_target).
  - vm_compute. reflexivity.
  - vm_compute. reflexivity.
  - split; apply visible_clean; by_decide.
  - vm_compute. reflexivity.
Defined.

(** The answer the proxy forwards closes the connection and says nothing
    else of its own: read back, it has the upstream's status line, exactly one
    [Connection] header, [close], and the upstream's values of every other
    header. *)
Theorem closingResponseHead_close raw r :
  parseHttpHead raw = inr r ->
  exists r', parseHttpHead (closingResponseHead r) = inr r' /\
    requestLine r' = requestLine r /\
    headerValues r' CONNECTION_HEADER_NAME = [CLOSE_TOKEN] /\
    (forall name, to_lower name <> to_lower CONNECTION_HEADER_NAME ->
       headerValues r' name = headerValues r name).
Proof.
  intros Hwf%parsed_wf. exists {| requestLine := requestLine r; headers := closing_headers r |}.
  unfold headerValues. cbn [requestLine headers]. unfold closing_headers. split_and!.
  - apply (parse_serialise {| requestLine := requestLine r; headers := closing_headers r |}).
    destruct Hwf as (? & ? & Hhs). split_and!; [done|done|]. cbn [headers].
    apply Forall_app. split; [by apply Forall_list_filter|]. apply Forall_cons_2; [|done].
    pose proof (visible_clean CLOSE_TOKEN ltac:(by_decide)) as [??]. by split_and!.
  - done.
  - rewrite values_of_app, values_of_none; [eval_values|].
    intros hd. rewrite list_elem_of_In, filter_In, negb_true_iff, bool_decide_eq_false.
    by intros [_ ?].
  - intros name Hn. rewrite values_of_app, values_of_filter.
    + rewrite values_of_cons, decide_False by (cbn [fst]; congruence). apply app_nil_r.
    + intros hd Heq. by rewrite bool_decide_false by congruence.
Qed.

Definition sample_answer : text :=
  txt "HTTP/1.1 200 OK" ++ CRLF ++ txt "connection: keep-alive" ++ CRLF
  ++ txt "Content-Length: 2" ++ CRLF ++ CRLF.

Lemma closingResponseHead_close_witness :
  exists r r', parseHttpHead sample_answer = inr r /\
    parseHttpHead (closingResponseHead r) = inr r' /\
    headerValues r' CONNECTION_HEADER_NAME = [CLOSE_TOKEN].
Proof.
  eexists. destruct (closingResponseHead_close sample_answer
    {| requestLine := txt "HTTP/1.1 200 OK";
       headers := [(txt "connection", txt "keep-alive"); (txt "Content-Length", txt "2")] |})
    as (r' & H & _ & Hc & _).
  - vm_compute. reflexivity.
  - exists r'. split_and!; [vm_compute; reflexivity|exact H|exact Hc].
Defined.
