(* ===== verification/Sse.v ===== *)
(** * Sse: the incremental Server-Sent Events reader

    src/clients/typescript/src/agent/sse.ts: bytes of the body of an agent
    invocation arrive in chunks of any size and leave as [{ event, data }]
    messages.  The source keeps the unfinished line between two calls; the
    reference here is a machine that reads one byte at a time, so that the
    chunks do not exist for it.  Decoded text is a list of code points: the
    reader only compares whole strings, looks for [":"] and cuts there, which is
    the same on code points and on UTF-16 code units. *)

From stdpp Require Import base option list strings sets.
From Stdlib Require Import NArith Lia.
From S2P Require Import Prelude Text.

Local Open Scope N_scope.

(** ** UTF-8 decoding: [new TextDecoder("utf-8").decode(bytes)] *)
Module Utf8.

(** The decoder of the WHATWG Encoding standard: bytes still needed, code
    point so far, and the bounds of the next continuation byte. *)
Record state := { needed : nat; code_point : N; lower : N; upper : N }.
Definition initial : state := {| needed := 0; code_point := 0; lower := 128; upper := 191 |}.
Definition REPLACEMENT : N := 65533.
Definition BOM : N := 65279.

(** The first byte of a sequence: what it emits and the next state. *)
Definition start (b : N) : list N * state :=
  if b <=? 127 then ([b], initial)
  else if (194 <=? b) && (b <=? 223) then
    ([], {| needed := 1; code_point := b - 192; lower := 128; upper := 191 |})
  else if (224 <=? b) && (b <=? 239) then
    ([], {| needed := 2; code_point := b - 224;
            lower := if b =? 224 then 160 else 128;
            upper := if b =? 237 then 159 else 191 |})
  else if (240 <=? b) && (b <=? 244) then
    ([], {| needed := 3; code_point := b - 240;
            lower := if b =? 240 then 144 else 128;
            upper := if b =? 244 then 143 else 191 |})
  else ([REPLACEMENT], initial).

Definition step (st : state) (b : N) : list N * state :=
  match needed st with
  | O => start b
  | S n =>
      if (lower st <=? b) && (b <=? upper st) then
        let cp := code_point st * 64 + (b - 128) in
        match n with
        | O => ([cp], initial)
        | S _ => ([], {| needed := n; code_point := cp; lower := 128; upper := 191 |})
        end
      else let (out, st') := start b in (REPLACEMENT :: out, st')
  end.

Fixpoint run (st : state) (bytes : list N) : list N :=
  match bytes with
  | [] => match needed st with O => [] | S _ => [REPLACEMENT] end
  | b :: rest => let (out, st') := step st b in out ++ run st' rest
  end.

(** A byte order mark at the start is dropped ([ignoreBOM] is false). *)
Definition decode (bytes : list N) : text :=
  match run initial bytes with
  | c :: rest => if c =? BOM then rest else c :: rest
  | [] => []
  end.

Lemma run_ascii bytes : Forall (fun b => b <= 127) bytes -> run initial bytes = bytes.
Proof.
  induction 1 as [|b bytes Hb _ IH]; [done|]. cbn [run step needed initial].
  unfold start. rewrite (proj2 (N.leb_le b 127)) by done. cbn [app]. by f_equal.
Qed.

Lemma decode_ascii bytes : Forall (fun b => b <= 127) bytes -> decode bytes = bytes.
Proof.
  intros H. unfold decode. rewrite run_ascii by done. destruct H as [|b bytes Hb _]; [done|].
  by rewrite (proj2 (N.eqb_neq b BOM)) by (unfold BOM; lia).
Qed.
End Utf8.

(** ** The reader *)

Record SseMessage := { event : text; data : text }.

Definition DEFAULT_SSE_EVENT : text := txt "message".
Definition COLON : N := 58.

(** The fields of [SseParser]. *)
Record SseParser := {
  partial : list N;
  cur_event : text;
  cur_data : list text;
  afterCr : bool
}.

Definition new_parser : SseParser :=
  {| partial := []; cur_event := []; cur_data := []; afterCr := false |}.

Definition dispatch (p : SseParser) : option SseMessage * SseParser :=
  match cur_data p with
  | [] => (None, {| partial := partial p; cur_event := []; cur_data := []; afterCr := afterCr p |})
  | d =>
      (Some {| event := match cur_event p with [] => DEFAULT_SSE_EVENT | e => e end;
               data := join [LF] d |},
       {| partial := partial p; cur_event := []; cur_data := []; afterCr := afterCr p |})
  end.

Definition line (p : SseParser) (l : text) : option SseMessage * SseParser :=
  match l with
  | [] => dispatch p
  | _ =>
      if starts_with [COLON] l then (None, p) else
      let separator := index_of COLON l in
      let name := match separator with None => l | Some i => take i l end in
      let raw := match separator with None => [] | Some i => drop (S i) l end in
      let value := if starts_with [SP] raw then drop 1 raw else raw in
      if bool_decide (name = txt "event") then
        (None, {| partial := partial p; cur_event := value; cur_data := cur_data p;
                  afterCr := afterCr p |})
      else if bool_decide (name = txt "data") then
        (None, {| partial := partial p; cur_event := cur_event p;
                  cur_data := cur_data p ++ [value]; afterCr := afterCr p |})
      else (None, p)
  end.

Definition add_message (m : option SseMessage) (r : list SseMessage * SseParser)
  : list SseMessage * SseParser := (option_list m ++ r.1, r.2).

Definition set_partial (p : SseParser) (bytes : list N) : SseParser :=
  {| partial := bytes; cur_event := cur_event p; cur_data := cur_data p; afterCr := afterCr p |}.
Definition set_afterCr (p : SseParser) (b : bool) : SseParser :=
  {| partial := partial p; cur_event := cur_event p; cur_data := cur_data p; afterCr := b |}.

(** The loop of [feed]: [cur] is [joined.subarray(start, index)]. *)
Fixpoint scan (p : SseParser) (cur joined : list N) : list SseMessage * SseParser :=
  match joined with
  | [] => ([], set_partial p cur)
  | byte :: rest =>
      if negb (byte =? LF) && negb (byte =? CR) then scan p (cur ++ [byte]) rest
      else
        let '(m, p') := line p (Utf8.decode cur) in
        match rest with
        | next :: rest' =>
            if (byte =? CR) && (next =? LF) then add_message m (scan p' [] rest')
            else add_message m (scan p' [] rest)
        | [] => add_message m ([], set_partial p' [])
        end
  end.

Definition feed (p : SseParser) (chunk : list N) : list SseMessage * SseParser :=
  let bytes := match chunk with
    | b :: rest => if afterCr p && (b =? LF) then rest else chunk
    | [] => chunk
    end in
  let p1 := match last bytes with
    | Some b => set_afterCr p (b =? CR)
    | None => p
    end in
  scan p1 [] (partial p ++ bytes).

(** The messages of a stream that arrives as [chunks]. *)
Fixpoint feed_all (p : SseParser) (chunks : list (list N)) : list SseMessage * SseParser :=
  match chunks with
  | [] => ([], p)
  | c :: cs =>
      let '(ms, p') := feed p c in
      let '(ms', p'') := feed_all p' cs in (ms ++ ms', p'')
  end.

(** ** Specification: one byte at a time *)

Definition byte_step (p : SseParser) (b : N) : option SseMessage * SseParser :=
  if afterCr p && (b =? LF) then (None, set_afterCr p false)
  else if (b =? LF) || (b =? CR) then
    let '(m, p') := line p (Utf8.decode (partial p)) in
    (m, set_afterCr (set_partial p' []) (b =? CR))
  else (None, set_afterCr (set_partial p (partial p ++ [b])) false).

Fixpoint read_bytes (p : SseParser) (bytes : list N) : list SseMessage * SseParser :=
  match bytes with
  | [] => ([], p)
  | b :: rest => let '(m, p') := byte_step p b in add_message m (read_bytes p' rest)
  end.

(** ** The reader implements the specification *)

(** [p] at the start of a line whose bytes so far are [cur]. *)
Definition at_line (p : SseParser) (cur : list N) (a : bool) : SseParser :=
  {| partial := cur; cur_event := cur_event p; cur_data := cur_data p; afterCr := a |}.

(** Handling a line only reads and writes the pending event. *)
Lemma line_at p cur a l :
  line (at_line p cur a) l = ((line p l).1, at_line (line p l).2 cur a).
Proof.
  unfold line, dispatch, at_line. destruct l as [|c l]; cbn.
  - by destruct (cur_data p).
  - repeat case_match; done.
Qed.

Lemma line_keeps p l : partial (line p l).2 = partial p /\ afterCr (line p l).2 = afterCr p.
Proof.
  unfold line, dispatch. destruct l as [|c l]; [by destruct (cur_data p)|].
  repeat case_match; done.
Qed.

(** Reading a line end. *)
Lemma byte_step_end p cur b :
  b = LF \/ b = CR ->
  byte_step (at_line p cur false) b =
  ((line p (Utf8.decode cur)).1, at_line (line p (Utf8.decode cur)).2 [] (b =? CR)).
Proof.
  intros Hb. unfold byte_step. cbn [afterCr at_line andb partial].
  replace ((b =? LF) || (b =? CR)) with true by (by destruct Hb as [-> | ->]).
  by rewrite line_at.
Qed.

Lemma byte_step_char p cur a b :
  b <> LF -> b <> CR -> byte_step (at_line p cur a) b = (None, at_line p (cur ++ [b]) false).
Proof.
  intros H1 H2. unfold byte_step. rewrite (proj2 (N.eqb_neq b LF)), (proj2 (N.eqb_neq b CR)) by done.
  by rewrite andb_false_r.
Qed.

(** A pending [\r] does not matter unless [\n] comes next. *)
Lemma read_after_cr p cur a b rest :
  b <> LF -> read_bytes (at_line p cur a) (b :: rest) = read_bytes (at_line p cur false) (b :: rest).
Proof.
  intros Hb. cbn [read_bytes]. unfold byte_step. cbn [at_line afterCr].
  rewrite (proj2 (N.eqb_neq b LF)), !andb_false_r by done.
  by rewrite !line_at.
Qed.

Lemma read_swallow p rest :
  afterCr p = true -> read_bytes p (LF :: rest) = read_bytes (set_afterCr p false) rest.
Proof.
  intros H. cbn [read_bytes]. unfold byte_step. rewrite H. change (LF =? LF) with true.
  cbn [andb]. by destruct (read_bytes (set_afterCr p false) rest).
Qed.

Definition with_afterCr (a : bool) (r : list SseMessage * SseParser)
  : list SseMessage * SseParser := (r.1, set_afterCr r.2 a).

Lemma with_afterCr_add a m r : with_afterCr a (add_message m r) = add_message m (with_afterCr a r).
Proof. done. Qed.

(** The loop reads what the byte machine reads; its own [afterCr] is fixed. *)
Lemma scan_read p cur joined :
  scan p cur joined = with_afterCr (afterCr p) (read_bytes (at_line p cur false) joined).
Proof.
  revert p cur. induction joined as [joined IH] using (induction_ltof1 _ length).
  intros p cur. destruct joined as [|b rest]; [by destruct p|].
  cbn [scan]. destruct (N.eqb_spec b LF) as [HLF|HLF]; [|destruct (N.eqb_spec b CR) as [HCR|HCR]];
    cbn [negb andb].
  3:{ rewrite IH by (unfold ltof; simpl; lia). cbn [read_bytes].
      rewrite byte_step_char by done. by destruct (read_bytes _ rest). }
  all: destruct (line p (Utf8.decode cur)) as [m p'] eqn:Hl;
    pose proof (line_keeps p (Utf8.decode cur)) as [_ Ha]; rewrite Hl in Ha; cbn in Ha;
    cbn [read_bytes]; rewrite byte_step_end, Hl by auto; cbn [fst snd];
    destruct rest as [|next rest']; [by rewrite with_afterCr_add, <- Ha|].
  - subst b. change (LF =? CR) with false.
    rewrite with_afterCr_add, <- Ha. cbn [andb]. by rewrite IH by (unfold ltof; simpl; lia).
  - subst b. change (CR =? CR) with true. rewrite with_afterCr_add, <- Ha. cbn [andb].
    destruct (N.eqb_spec next LF) as [->|Hn].
    + by rewrite IH by (unfold ltof; simpl; lia).
    + rewrite IH by (unfold ltof; simpl; lia). by rewrite (read_after_cr _ _ true) by done.
Qed.

(** After a non-empty chunk, [afterCr] says whether its last byte is [\r]. *)
Lemma read_afterCr p bytes b :
  last bytes = Some b -> afterCr (read_bytes p bytes).2 = (b =? CR).
Proof.
  revert p. induction bytes as [|c bytes IH]; intros p Hl; [done|].
  cbn [read_bytes]. destruct (byte_step p c) as [m p'] eqn:E. cbn [add_message snd].
  destruct bytes as [|d bytes]; [|by apply IH].
  cbn in Hl |- *. simplify_eq. unfold byte_step in E.
  destruct (afterCr p && (b =? LF)) eqn:Ha.
  { apply andb_true_iff in Ha as [_ ->%N.eqb_eq]. by simplify_eq. }
  destruct (N.eqb_spec b LF), (N.eqb_spec b CR); cbn [orb] in E;
    try destruct (line _ _); by simplify_eq.
Qed.

Lemma read_bytes_app p a b :
  read_bytes p (a ++ b) =
  let '(ms, p') := read_bytes p a in
  let '(ms', p'') := read_bytes p' b in (ms ++ ms', p'').
Proof.
  revert p. induction a as [|c a IH]; intros p; cbn [app read_bytes].
  - by destruct (read_bytes p b).
  - destruct (byte_step p c) as [m p']. rewrite IH. destruct (read_bytes p' a) as [ms q].
    unfold add_message. cbn [fst snd]. destruct (read_bytes q b). cbn [fst snd].
    by rewrite app_assoc.
Qed.

(** Between calls the unfinished line holds no line end. *)
Definition sse_wf (p : SseParser) : Prop := (LF ∉ partial p) /\ (CR ∉ partial p).

Lemma byte_step_wf p b : sse_wf p -> sse_wf (byte_step p b).2.
Proof.
  intros [Hl Hc]. unfold byte_step. case_match; [done|].
  destruct (N.eqb_spec b LF); [|destruct (N.eqb_spec b CR)]; cbn [orb];
    [destruct (line _ _); split; set_solver..|].
  split; cbn; set_solver.
Qed.

Lemma read_bytes_wf p bytes : sse_wf p -> sse_wf (read_bytes p bytes).2.
Proof.
  revert p. induction bytes as [|b bytes IH]; intros p Hp; [done|].
  cbn [read_bytes]. pose proof (byte_step_wf p b Hp). destruct (byte_step p b). by apply IH.
Qed.

(** Re-reading the unfinished line restores it. *)
Lemma read_partial p cur bytes :
  (LF ∉ bytes) -> (CR ∉ bytes) ->
  read_bytes (at_line p cur false) bytes = ([], at_line p (cur ++ bytes) false).
Proof.
  revert cur. induction bytes as [|b bytes IH]; intros cur Hl Hc.
  - by rewrite app_nil_r.
  - cbn [read_bytes]. rewrite byte_step_char by set_solver.
    rewrite IH by set_solver. by rewrite <- app_assoc.
Qed.

(** The call that goes wrong: a chunk that is the single byte [\n] completing a
    [\r\n] (see [lone_lf_swallows_next]). *)
Definition lone_lf (p : SseParser) (chunk : list N) : bool :=
  afterCr p && bool_decide (chunk = [LF]).

Lemma feed_read p chunk :
  sse_wf p -> lone_lf p chunk = false -> feed p chunk = read_bytes p chunk.
Proof.
  intros [Hl Hc] Hlone. destruct p as [cur ev dt a]. cbn [partial] in *.
  unfold feed. cbn [partial afterCr].
  set (bytes := match chunk with b :: rest => if a && (b =? LF) then rest else chunk | [] => chunk end).
  assert (Hread : read_bytes {| partial := cur; cur_event := ev; cur_data := dt; afterCr := a |} chunk
    = match bytes with [] => ([], {| partial := cur; cur_event := ev; cur_data := dt; afterCr := a |})
      | _ => read_bytes {| partial := cur; cur_event := ev; cur_data := dt; afterCr := false |} bytes end).
  { subst bytes. destruct chunk as [|b rest]; [done|]. destruct a; cbn [andb]; [|done].
    destruct (N.eqb_spec b LF) as [->|Hb].
    - destruct rest as [|c rest].
      + by unfold lone_lf in Hlone; rewrite bool_decide_true in Hlone.
      + by rewrite read_swallow.
    - by apply (read_after_cr {| partial := cur; cur_event := ev; cur_data := dt; afterCr := true |}). }
  rewrite scan_read. destruct (last bytes) as [b|] eqn:Hlast.
  - cbn [set_afterCr afterCr].
    change (at_line _ [] false) with
      (at_line {| partial := cur; cur_event := ev; cur_data := dt; afterCr := false |} [] false).
    rewrite read_bytes_app, read_partial by done. cbn [app].
    destruct bytes as [|c bytes]; [done|]. rewrite Hread.
    pose proof (read_afterCr {| partial := cur; cur_event := ev; cur_data := dt; afterCr := false |}
      (c :: bytes) b Hlast) as Ha.
    cbn [at_line cur_event cur_data].
    destruct (read_bytes _ (c :: bytes)) as [ms q]. cbn in Ha |- *.
    unfold with_afterCr. cbn. destruct q. by rewrite <- Ha.
  - apply last_None in Hlast. rewrite Hlast, app_nil_r in *. rewrite Hread.
    rewrite read_partial by done. done.
Qed.

(** A chunking is safe when no chunk is a single [\n], or the stream has no [\r]. *)
Definition safe_chunking (chunks : list (list N)) : Prop :=
  Forall (fun c => c <> [LF]) chunks \/ CR ∉ concat chunks.

Lemma feed_all_read p chunks :
  sse_wf p -> Forall (fun c => c <> [LF]) chunks \/ (afterCr p = false /\ CR ∉ concat chunks) ->
  feed_all p chunks = read_bytes p (concat chunks).
Proof.
  revert p. induction chunks as [|c cs IH]; intros p Hp Hsafe; [done|].
  cbn [feed_all concat]. rewrite feed_read; [|done|].
  - rewrite read_bytes_app. pose proof (read_bytes_wf p c Hp) as Hq.
    destruct (read_bytes p c) as [ms q] eqn:E. cbn in Hq. rewrite IH; [done|done|].
    destruct Hsafe as [[_ ?]%Forall_cons|[Ha Hcr]]; [by left|right]. cbn [concat] in Hcr.
    split; [|set_solver]. destruct (last c) as [b|] eqn:Hlast.
    + pose proof (read_afterCr p c b Hlast) as Hb. rewrite E in Hb. cbn in Hb. rewrite Hb.
      apply N.eqb_neq. intros ->. apply last_Some_elem_of in Hlast. set_solver.
    + apply last_None in Hlast as ->. cbn in E. by simplify_eq.
  - unfold lone_lf. destruct Hsafe as [[Hc _]%Forall_cons|[-> _]]; [|done].
    rewrite bool_decide_false by done. apply andb_false_r.
Qed.

(** C23. Chunks do not matter: however a stream is cut into chunks, the reader
    yields the messages, and ends in the state, of the machine that reads the
    stream one byte at a time, provided no chunk is a lone line feed (or the
    stream has no carriage return).  In particular a UTF-8 character or a
    [\r\n] split between two chunks is read correctly. *)
Theorem feed_chunking chunks :
  safe_chunking chunks -> feed_all new_parser chunks = read_bytes new_parser (concat chunks).
Proof.
  intros [H|H]; apply feed_all_read; try (split; set_solver); [by left|by right].
Qed.

Lemma feed_chunking_witness :
  (feed_all new_parser [txt "da"; txt "ta: caf" ++ [195]; [169; CR]; LF :: CRLF]).1
  = [{| event := txt "message"; data := txt "caf" ++ [233] |}].
Proof.
  rewrite (feed_chunking [txt "da"; txt "ta: caf" ++ [195]; [169; CR]; LF :: CRLF]).
  - vm_compute. reflexivity.
  - left. repeat constructor; discriminate.
Defined.

(** The reader loses a message when a [\r\n] is split and the [\n] arrives
    alone: whatever message is pending after a [\r], a chunk [\n] followed by a
    chunk [\n] (the blank line that must close it) yields nothing, where the
    byte machine yields that message. *)
Theorem lone_lf_swallows_next p d ds :
  afterCr p = true -> partial p = [] -> cur_data p = d :: ds ->
  (feed_all p [[LF]; [LF]]).1 = [] /\
  (read_bytes p [LF; LF]).1 =
    [{| event := match cur_event p with [] => DEFAULT_SSE_EVENT | e => e end;
        data := join [LF] (d :: ds) |}].
Proof.
  destruct p as [cur ev dt a]. cbn [afterCr partial cur_data cur_event]. intros -> -> ->.
  split; [done|]. by rewrite read_swallow.
Qed.

Lemma lone_lf_swallows_next_witness :
  (feed_all (feed new_parser (txt "data:x" ++ [CR])).2 [[LF]; [LF]]).1 = [].
Proof.
  apply (lone_lf_swallows_next (feed new_parser (txt "data:x" ++ [CR])).2 (txt "x") []);
    vm_compute; reflexivity.
Defined.

(** ** Round trip with the wire format *)

(** A message as a server writes it: an [event] field and one [data] field per
    line of its data. *)
Definition field (name value : text) : list N := name ++ txt ": " ++ value ++ [LF].
Definition encode (m : text * list text) : list N :=
  field (txt "event") m.1 ++ concat (field (txt "data") <$> m.2) ++ [LF].

(** ASCII text without line ends. *)
Definition plain (s : text) : Prop := Forall (fun c => c <= 127 /\ c <> LF /\ c <> CR) s.
#[export] Instance plain_dec s : Decision (plain s).
Proof. unfold plain. apply _. Defined.

Definition wf_message (m : text * list text) : Prop :=
  m.1 <> [] /\ plain m.1 /\ m.2 <> [] /\ Forall plain m.2.

Lemma plain_not_in s : plain s -> (LF ∉ s) /\ (CR ∉ s).
Proof. unfold plain. rewrite Forall_forall. intros H. split; intros Hin%H; naive_solver. Qed.

Lemma plain_app a b : plain (a ++ b) <-> plain a /\ plain b.
Proof. apply Forall_app. Qed.

Lemma plain_decode s : plain s -> Utf8.decode s = s.
Proof. intros H. apply Utf8.decode_ascii. eapply Forall_impl; [done|]. by intros c [? _]. Qed.

Lemma field_line_plain name value :
  plain name -> plain value -> plain (name ++ txt ": " ++ value).
Proof. intros Hn Hv. rewrite !plain_app. split_and!; [done|by_decide|done]. Qed.

(** Reading one complete plain line from a line start. *)
Lemma read_line p l :
  plain l ->
  read_bytes (at_line p [] false) (l ++ [LF]) =
  (option_list (line p l).1, at_line (line p l).2 [] false).
Proof.
  intros Hl. destruct (plain_not_in l Hl). rewrite read_bytes_app, read_partial by done.
  cbn [app read_bytes]. rewrite byte_step_end by auto. rewrite plain_decode by done.
  unfold add_message. cbn. by rewrite app_nil_r.
Qed.

(** What a field line does to the pending event. *)
Lemma line_field p name value c name' :
  name = c :: name' -> (COLON ∉ name) ->
  line p (name ++ txt ": " ++ value) =
  if bool_decide (name = txt "event") then
    (None, {| partial := partial p; cur_event := value; cur_data := cur_data p; afterCr := afterCr p |})
  else if bool_decide (name = txt "data") then
    (None, {| partial := partial p; cur_event := cur_event p; cur_data := cur_data p ++ [value];
              afterCr := afterCr p |})
  else (None, p).
Proof.
  intros Hname Hc. change (txt ": " ++ value) with (COLON :: SP :: value).
  pose proof (index_of_app COLON name (SP :: value) Hc) as Hi.
  pose proof (take_app_length name (COLON :: SP :: value)) as Ht.
  assert (drop (S (length name)) (name ++ COLON :: SP :: value) = SP :: value) as Hd.
  { rewrite drop_app_ge by lia. by replace (S (length name) - length name)%nat with 1%nat by lia. }
  assert (starts_with [COLON] (name ++ COLON :: SP :: value) = false) as Hs.
  { apply not_true_iff_false. intros [r Hr]%starts_with_true.
    rewrite Hname in Hr. injection Hr as ->. set_solver. }
  unfold line. rewrite Hi, Ht, Hd, Hs. cbn [starts_with].
  change (SP =? SP) with true. cbn [andb drop].
  destruct (name ++ COLON :: SP :: value) eqn:E; [by destruct name|done].
Qed.

Lemma read_field p name value :
  name = txt "event" \/ name = txt "data" -> plain value ->
  read_bytes (at_line p [] false) (field name value) =
  ([], at_line (line p (name ++ txt ": " ++ value)).2 [] false).
Proof.
  intros Hn Hv. unfold field. rewrite !app_assoc, <- (app_assoc name), read_line.
  - destruct Hn as [-> | ->]; erewrite line_field by (done || by_decide); done.
  - apply field_line_plain; [|done]. destruct Hn as [-> | ->]; by_decide.
Qed.

Definition pending (ev : text) (ls : list text) : SseParser :=
  {| partial := []; cur_event := ev; cur_data := ls; afterCr := false |}.

Lemma read_data_fields ev ls ls' :
  Forall plain ls' ->
  read_bytes (pending ev ls) (concat (field (txt "data") <$> ls')) = ([], pending ev (ls ++ ls')).
Proof.
  intros H. revert ls. induction H as [|l ls' Hl Hls IH]; intros ls; [by rewrite app_nil_r|].
  rewrite fmap_cons. cbn [concat]. rewrite read_bytes_app.
  change (pending ev ls) with (at_line (pending ev ls) [] false).
  rewrite read_field by auto. erewrite line_field by (done || by_decide).
  rewrite bool_decide_false, bool_decide_true by by_decide. cbn [snd].
  change (at_line _ [] false) with (pending ev (ls ++ [l])).
  rewrite IH. by rewrite <- app_assoc.
Qed.

Lemma read_message m :
  wf_message m ->
  read_bytes new_parser (encode m) = ([{| event := m.1; data := join [LF] m.2 |}], new_parser).
Proof.
  destruct m as [ev ls]. intros (Hne & Hev & Hls & Hl). cbn [fst snd] in *.
  unfold encode. cbn [fst snd]. rewrite read_bytes_app.
  change new_parser with (at_line new_parser [] false) at 1.
  rewrite read_field by auto. erewrite line_field by (done || by_decide).
  rewrite bool_decide_true by done. cbn [snd].
  change (at_line _ [] false) with (pending ev []).
  rewrite read_bytes_app, read_data_fields by done. cbn [app].
  destruct ev as [|e ev]; [done|]. destruct ls as [|l ls]; [done|]. reflexivity.
Qed.

Lemma read_messages ms :
  Forall wf_message ms ->
  read_bytes new_parser (concat (encode <$> ms)) =
  ((fun m => {| event := m.1; data := join [LF] m.2 |}) <$> ms, new_parser).
Proof.
  induction 1 as [|m ms Hm Hms IH]; [done|]. rewrite !fmap_cons. cbn [concat].
  by rewrite read_bytes_app, read_message, IH.
Qed.

Lemma encode_no_cr ms : Forall wf_message ms -> CR ∉ concat (encode <$> ms).
Proof.
  assert (Hf : forall name v, name = txt "event" \/ name = txt "data" -> plain v -> CR ∉ field name v).
  { intros name v Hn [_ Hv]%plain_not_in. unfold field. rewrite !not_elem_of_app.
    split_and!; [destruct Hn as [-> | ->]; by_decide|by_decide|done|by_decide]. }
  induction 1 as [|m ms (_ & Hev & _ & Hl) Hms IH]; [apply not_elem_of_nil|].
  rewrite fmap_cons. cbn [concat]. apply not_elem_of_app. split; [|done].
  unfold encode. rewrite !not_elem_of_app. split_and!; [auto| |by_decide].
  induction Hl as [|l ls Hl Hls IHl]; [apply not_elem_of_nil|].
  rewrite fmap_cons. cbn [concat]. apply not_elem_of_app. auto.
Qed.

(** What an agent server writes is what the client reads: however the bytes
    of a sequence of well-formed events (a non-empty event name, at least one
    data line, ASCII text without line ends) are cut into chunks, the reader
    yields exactly those events in order, with the data lines joined by [\n]. *)
Theorem sse_roundtrip ms chunks :
  Forall wf_message ms -> concat chunks = concat (encode <$> ms) ->
  feed_all new_parser chunks =
  ((fun m => {| event := m.1; data := join [LF] m.2 |}) <$> ms, new_parser).
Proof.
  intros Hms Hc. rewrite feed_all_read, Hc; [by apply read_messages|split; set_solver|].
  right. split; [done|]. rewrite Hc. by apply encode_no_cr.
Qed.

Lemma sse_roundtrip_witness :
  (feed_all new_parser [txt "event: d"; txt "one" ++ [LF]; txt "data: a" ++ [LF];
     txt "data: b" ++ [LF]; [LF]]).1 = [{| event := txt "done"; data := txt "a" ++ LF :: txt "b" |}].
Proof.
  rewrite (sse_roundtrip [(txt "done", [txt "a"; txt "b"])]).
  - vm_compute. reflexivity.
  - constructor; [|done]. split_and!; [by_decide|by_decide|done|by_decide].
  - vm_compute. reflexivity.
Defined.
