(* ===== verification/PoolCore.v ===== *)
(** * PoolCore: the pool's pure core

    src/clients/typescript/src/pool/core.ts: the slot record and its JSON form
    (schema [rayito.pool/1]), the choice of the slot a [take] hands out, staleness,
    reconciliation, the fill backoff, the counters and [stats], and the options
    [create({ pool })] rejects.  ([TakePoll] is in Readiness.) *)

From stdpp Require Import base option list strings sets sorting.
From Stdlib Require Import ZArith QArith Qabs Lia Lqa Permutation OrdersEx.
From S2P Require Import Prelude Text JsDate JsMap.

Local Open Scope Z_scope.

Definition POOL_SCHEMA : string := "rayito.pool/1".

Inductive SlotState := warming | ready.
Inductive ReconcileAction := keep | repark | check | drop_slot.

#[export] Instance SlotState_eq_dec : EqDecision SlotState.
Proof. solve_decision. Defined.

Definition LISTED_STATES_TO_DROP : list string := ["TERMINATING"; "TERMINATED"].

(** An idle policy as it is read back from outside: plain JavaScript numbers. *)
Record IdleNumbers := {
  idle_max : jsnum;
  idle_suspended : option jsnum;
  idle_resume : bool
}.

Record SlotRecord := {
  sandboxId : string;
  accessToken : string;
  endpoint : string;
  template : string;
  templateVersion : string;
  startedAt : Z;                    (** a [Date]: milliseconds since the epoch *)
  maximumDurationSeconds : jsnum;
  region : string;
  state : SlotState;
  idle : option IdleNumbers;
  executionRoleArn : option string;
  ingress : list string;
  egress : list string;
  parkedAt : option Z
}.

(** The fields of models.ts's [SandboxInfo] the pool reads and writes. *)
Record SandboxInfo := {
  info_sandboxId : string;
  info_state : string;
  info_endpoint : string;
  info_template : string;
  info_templateVersion : string;
  info_startedAt : Z;
  info_maximumDurationSeconds : jsnum;
  info_idle : option IdleNumbers;
  info_executionRoleArn : option string;
  info_ingress : list string;
  info_egress : list string
}.

(** ** Instants

    The time value of [new Date(x)]: [None] is an invalid date, whose time
    value is NaN. *)
Definition time_clip (x : jsnum) : option Z :=
  match x with
  | Finite q => if Qle_bool (Qabs q) (inject_Z MAX_TIME)
                then Some (Z.quot (Qnum q) (Zpos (Qden q))) else None
  | _ => None
  end.

Definition plus_seconds (t : Z) (seconds : jsnum) : jsnum :=
  match seconds with
  | Finite q => Finite (inject_Z t + q * inject_Z 1000)
  | other => other
  end.

(** [expiresAt(record).getTime()]. *)
Definition expiresAt (r : SlotRecord) : option Z :=
  time_clip (plus_seconds (startedAt r) (maximumDurationSeconds r)).

(** [Math.max(0, expiresAt - now)]; [Math.max] of a NaN is NaN. *)
Definition remainingMs (r : SlotRecord) (now : Z) : option Z :=
  e ← expiresAt r; Some (Z.max 0 (e - now)).

(** [NaN < x] is false: a record with no valid expiry is never stale. *)
Definition slotIsStale (r : SlotRecord) (now minRemainingMs : Z) : bool :=
  match remainingMs r now with Some m => m <? minRemainingMs | None => false end.

(** A number comparison result: [None] is NaN. *)
Definition compareByExpiry (a b : SlotRecord) : option Z :=
  match expiresAt a, expiresAt b with
  | Some ea, Some eb =>
      let delta := ea - eb in
      if negb (delta =? 0) then Some delta
      else Some (match String.compare (sandboxId a) (sandboxId b) with
                 | Lt => -1 | Gt => 1 | Eq => 0 end)
  | _, _ => None
  end.

(** [compareByExpiry(a, b) < 0]. *)
Definition expires_before (a b : SlotRecord) : bool :=
  match compareByExpiry a b with Some d => d <? 0 | None => false end.

Definition pick_step (now minRemainingMs : Z) (best : option SlotRecord) (r : SlotRecord)
  : option SlotRecord :=
  if negb (bool_decide (state r = ready)) || slotIsStale r now minRemainingMs then best
  else match best with
       | None => Some r
       | Some b => if expires_before r b then Some r else best
       end.

Definition pickReadySlot (records : list SlotRecord) (now minRemainingMs : Z) : option SlotRecord :=
  fold_left (pick_step now minRemainingMs) records None.

Definition ownsSlot (r : SlotRecord) (imageArn : option string) : bool :=
  bool_decide (Some (template r) = imageArn).

Definition reconcileAction (r : SlotRecord) (listedState : option string) : ReconcileAction :=
  if negb (bool_decide (state r = ready)) then keep
  else match listedState with
       | None => check
       | Some s => if bool_decide (s = "RUNNING") then repark
                   else if bool_decide (s ∈ LISTED_STATES_TO_DROP) then drop_slot
                   else keep
       end.

(** ** Records from and to the control plane *)

Record record_fields := {
  rf_accessToken : string;
  rf_region : string;
  rf_state : SlotState;
  rf_parkedAt : option Z
}.

Definition recordFromInfo (info : SandboxInfo) (fields : record_fields) : SlotRecord := {|
  sandboxId := info_sandboxId info;
  accessToken := rf_accessToken fields;
  endpoint := info_endpoint info;
  template := info_template info;
  templateVersion := info_templateVersion info;
  startedAt := info_startedAt info;
  maximumDurationSeconds := info_maximumDurationSeconds info;
  region := rf_region fields;
  state := rf_state fields;
  idle := info_idle info;
  executionRoleArn := info_executionRoleArn info;
  ingress := [];
  egress := [];
  parkedAt := rf_parkedAt fields
|}.

(** [sandboxInfo] defaults the absent [ingress] and [egress] to []. *)
Definition sandboxInfoFromRecord (r : SlotRecord) (st : string) : SandboxInfo := {|
  info_sandboxId := sandboxId r;
  info_state := st;
  info_endpoint := endpoint r;
  info_template := template r;
  info_templateVersion := templateVersion r;
  info_startedAt := startedAt r;
  info_maximumDurationSeconds := maximumDurationSeconds r;
  info_idle := idle r;
  info_executionRoleArn := executionRoleArn r;
  info_ingress := [];
  info_egress := []
|}.

(** ** The JSON form *)

(** What ECMAScript leaves to the engine or to decimal printing of doubles:
    [String] of a number that is not an integer below 1e21, [Number] of a
    string, and [Date.parse] of a text that is not in [toISOString]'s format. *)
Class JsRuntime := {
  print_other_number : jsnum -> string;
  number_of_string : string -> jsnum;
  date_of_string : string -> option Z
}.

Section Json.
Context `{JsRuntime}.

Definition slot_state_name (s : SlotState) : string :=
  match s with warming => "warming" | ready => "ready" end.

Definition iso_json (t : Z) : jsval := JString (untxt (toISOString t)).

Definition opt_json {A} (f : A -> jsval) (o : option A) : jsval :=
  match o with Some a => f a | None => JNull end.

Definition idle_json (p : IdleNumbers) : jsval := JObject [
  ("max_idle_seconds", JNumber (idle_max p));
  ("suspended_duration_seconds", opt_json JNumber (idle_suspended p));
  ("auto_resume", JBool (idle_resume p))].

Definition recordToJson (r : SlotRecord) : jsval := JObject [
  ("sandbox_id", JString (sandboxId r));
  ("access_token", JString (accessToken r));
  ("endpoint", JString (endpoint r));
  ("template", JString (template r));
  ("template_version", JString (templateVersion r));
  ("started_at", iso_json (startedAt r));
  ("maximum_duration_seconds", JNumber (maximumDurationSeconds r));
  ("region", JString (region r));
  ("state", JString (slot_state_name (state r)));
  ("idle", opt_json idle_json (idle r));
  ("execution_role_arn", opt_json JString (executionRoleArn r));
  ("ingress", JArray (JString <$> ingress r));
  ("egress", JArray (JString <$> egress r));
  ("parked_at", opt_json iso_json (parkedAt r))].

(** [data[key]]. *)
Definition get_prop (data : list (string * jsval)) (key : string) : jsval :=
  default JUndefined (jm_get key data).

Definition field (data : list (string * jsval)) (key : string) : result jsval :=
  match get_prop data key with JUndefined => Throw InvalidArgumentError | v => Ok v end.

(** The elements of [traverse f]: the first error wins. *)
Fixpoint collect {A} (l : list (result A)) : result (list A) :=
  match l with
  | [] => Ok []
  | r :: l' => x ← r; rest ← collect l'; Ok (x :: rest)
  end.

Definition number_text (n : jsnum) : string :=
  match integer_of n with
  | Some z => if Z.abs z <? 10 ^ 21 then untxt (print_Z z) else print_other_number n
  | None => match n with
            | NaN => "NaN" | PosInf => "Infinity" | NegInf => "-Infinity"
            | Finite _ => print_other_number n
            end
  end.

(** [String(v)]: an array joins its items with commas, null and undefined
    items being empty; an object with a [toString] of its own that is data
    throws a [TypeError]. *)
Fixpoint js_string (v : jsval) : result string :=
  match v with
  | JUndefined => Ok "undefined"
  | JNull => Ok "null"
  | JBool b => Ok (if b then "true" else "false")
  | JNumber n => Ok (number_text n)
  | JString s => Ok s
  | JArray items =>
      parts ← collect (map (fun item => match item with
                                        | JUndefined | JNull => Ok ""
                                        | _ => js_string item end) items);
      Ok (String.concat "," parts)
  | JObject fields => if jm_has "toString" fields then Throw OtherError
                      else Ok "[object Object]"
  end.

(** [Number(v)]; of an array or object, [Number] of its string (an object with
    a [valueOf] of its own that is data goes through [toString] as well). *)
Definition js_number (v : jsval) : result jsnum :=
  match v with
  | JUndefined => Ok NaN
  | JNull => Ok (num_of_Z 0)
  | JBool b => Ok (num_of_Z (if b then 1 else 0))
  | JNumber n => Ok n
  | JString s => Ok (number_of_string s)
  | JArray _ | JObject _ => s ← js_string v; Ok (number_of_string s)
  end.

(** [Boolean(v)]. *)
Definition js_boolean (v : jsval) : bool :=
  match v with
  | JUndefined | JNull | JBool false | JNumber NaN => false
  | JNumber (Finite q) => negb (Qeq_bool q 0)
  | JString s => negb (String.eqb s "")
  | _ => true
  end.

Definition stringField (data : list (string * jsval)) (key : string) : result string :=
  v ← field data key; js_string v.

(** [new Date(text).getTime()]. *)
Definition parse_date (s : string) : option Z :=
  match parse_iso (txt s) with Some t => Some t | None => date_of_string s end.

Definition dateField (data : list (string * jsval)) (key : string) : result Z :=
  s ← stringField data key;
  match parse_date s with Some t => Ok t | None => Throw InvalidArgumentError end.

Definition idleFromJson (v : jsval) : result (option IdleNumbers) :=
  let read (props : list (string * jsval)) :=
    m ← js_number (get_prop props "max_idle_seconds");
    s ← match get_prop props "suspended_duration_seconds" with
        | JNull | JUndefined => Ok None
        | v => n ← js_number v; Ok (Some n)
        end;
    Ok (Some {| idle_max := m; idle_suspended := s;
                idle_resume := match get_prop props "auto_resume" with
                               | JUndefined => true | v => js_boolean v end |}) in
  match v with
  | JObject props => read props
  | JArray _ => read []
  | _ => Ok None
  end.

Definition stringList (v : jsval) : result (list string) :=
  match v with
  | JNull | JUndefined => Ok []
  | JArray items => collect (js_string <$> items)
  | _ => Throw InvalidArgumentError
  end.

Definition optional {A} (read : jsval -> result A) (v : jsval) : result (option A) :=
  match v with JNull | JUndefined => Ok None | _ => a ← read v; Ok (Some a) end.

Definition slot_state_of (s : string) : option SlotState :=
  if String.eqb s "warming" then Some warming
  else if String.eqb s "ready" then Some ready else None.

Definition recordFromJson (v : jsval) : result SlotRecord :=
  match v with
  | JObject data =>
      st ← stringField data "state";
      match slot_state_of st with
      | None => Throw InvalidArgumentError
      | Some st =>
          id ← stringField data "sandbox_id";
          ep ← stringField data "endpoint";
          tpl ← stringField data "template";
          ver ← stringField data "template_version";
          started ← dateField data "started_at";
          dur ← (d ← field data "maximum_duration_seconds"; js_number d);
          reg ← stringField data "region";
          idl ← idleFromJson (get_prop data "idle");
          role ← optional js_string (get_prop data "execution_role_arn");
          ing ← stringList (get_prop data "ingress");
          eg ← stringList (get_prop data "egress");
          parked ← optional (fun _ => dateField data "parked_at") (get_prop data "parked_at");
          token ← stringField data "access_token";
          Ok {| sandboxId := id; accessToken := token; endpoint := ep; template := tpl;
                templateVersion := ver; startedAt := started; maximumDurationSeconds := dur;
                region := reg; state := st; idle := idl; executionRoleArn := role;
                ingress := ing; egress := eg; parkedAt := parked |}
      end
  | _ => Throw InvalidArgumentError
  end.

(** [JSON.stringify] drops what is undefined and writes a NaN or an infinity as
    null: the value [JSON.parse] reads back from the text. *)
Fixpoint json_value (v : jsval) : jsval :=
  match v with
  | JNumber NaN | JNumber PosInf | JNumber NegInf => JNull
  | JArray items => JArray (map (fun i => match i with JUndefined => JNull | _ => json_value i end) items)
  | JObject fields =>
      JObject ((fix go (fs : list (string * jsval)) :=
        match fs with
        | [] => []
        | (k, JUndefined) :: fs' => go fs'
        | (k, v) :: fs' => (k, json_value v) :: go fs'
        end) fields)
  | v => v
  end.

End Json.

(** ** Backoff of the filler

    [FillBackoff] keeps its next delay; [random] is a number of [0, 1). *)
Module FillBackoff.
Local Open Scope Q_scope.

Definition initialDelayMs : Q := 1000.
Definition maxDelayMs : Q := 60000.
Definition jitter : Q := 1 # 4.

Record t := { delayMs : Q }.
Definition new : t := {| delayMs := initialDelayMs |}.

Definition qmin (a b : Q) : Q := if Qle_bool a b then a else b.
Definition qmax (a b : Q) : Q := if Qle_bool a b then b else a.

Definition nextDelayMs (random : Q) (b : t) : Q * t :=
  let delay := delayMs b * (1 + jitter * (2 * random - 1)) in
  (qmax 0 delay, {| delayMs := qmin (delayMs b * 2) maxDelayMs |}).

Definition reset (b : t) : t := {| delayMs := initialDelayMs |}.

Lemma qmin_spec a b : qmin a b <= a /\ qmin a b <= b /\ (qmin a b = a \/ qmin a b = b).
Proof.
  unfold qmin. destruct (Qle_bool a b) eqn:Hle.
  - apply Qle_bool_iff in Hle. repeat split; [lra|done|by left].
  - assert (b < a) by (apply Qnot_le_lt; rewrite <- Qle_bool_iff; congruence).
    repeat split; [lra|lra|by right].
Qed.

Lemma qmax_nonneg a : 0 <= a -> qmax 0 a = a.
Proof. intros H. unfold qmax. by rewrite (proj2 (Qle_bool_iff 0 a)). Qed.

(** Every delay of a run of failures stays within the schedule. *)
Definition wf (b : t) : Prop := initialDelayMs <= delayMs b <= maxDelayMs.

Lemma new_wf : wf new.
Proof. unfold wf, new, initialDelayMs, maxDelayMs; cbn. lra. Qed.

Lemma next_wf r b : wf b -> wf (nextDelayMs r b).2.
Proof.
  unfold wf, nextDelayMs. cbn [snd delayMs]. unfold initialDelayMs in *. intros Hb.
  destruct (qmin_spec (delayMs b * 2) maxDelayMs) as (H1 & H2 & [E|E]);
    rewrite E in *; unfold maxDelayMs in *; lra.
Qed.

Lemma next_bounds r b :
  wf b -> 0 <= r < 1 ->
  (3 # 4) * delayMs b <= (nextDelayMs r b).1 /\ (nextDelayMs r b).1 < (5 # 4) * delayMs b.
Proof.
  unfold wf, nextDelayMs, jitter, initialDelayMs. cbn [fst]. intros Hb Hr.
  assert (0 <= delayMs b * r /\ delayMs b * r < delayMs b) by nra.
  rewrite qmax_nonneg by nra. split; nra.
Qed.

(** The delays of [n] failures in a row, with what [random] returned. *)
Fixpoint delays (rs : list Q) (b : t) : list Q :=
  match rs with [] => [] | r :: rs' => (nextDelayMs r b).1 :: delays rs' (nextDelayMs r b).2 end.
End FillBackoff.

(** ** Counters and stats *)

Record PoolCounters := {
  takes : Z; hits : Z; misses : Z; launched : Z; recycled : Z; lost : Z; failed : Z
}.

Definition newCounters : PoolCounters :=
  {| takes := 0; hits := 0; misses := 0; launched := 0; recycled := 0; lost := 0; failed := 0 |}.

Record PoolSlotInfo := {
  psi_sandboxId : string;
  psi_state : SlotState;
  psi_startedAt : Z;
  psi_expiresAt : option Z;
  psi_parkedAt : option Z
}.

Definition slotInfoFromRecord (r : SlotRecord) : PoolSlotInfo := {|
  psi_sandboxId := sandboxId r;
  psi_state := state r;
  psi_startedAt := startedAt r;
  psi_expiresAt := expiresAt r;
  psi_parkedAt := parkedAt r
|}.

Record PoolStats := {
  st_size : Z; st_ready : Z; st_warming : Z;
  st_counters : PoolCounters;
  st_slots : list PoolSlotInfo
}.

(** [sort] treats a NaN comparison as equality. *)
Definition expiry_order (a b : SlotRecord) : Z := default 0 (compareByExpiry a b).

Definition statsFromRecords (records : list SlotRecord) (size warming : Z) (counters : PoolCounters)
  : PoolStats :=
  let ordered := sort_by expiry_order records in
  {| st_size := size;
     st_ready := Z.of_nat (length (filter (fun r => state r = ready) ordered));
     st_warming := warming;
     st_counters := counters;
     st_slots := slotInfoFromRecord <$> ordered |}.

(** ** [create({ pool })] *)

Definition POOL_REJECTED_OPTIONS : list string := [
  "template"; "templateVersion"; "timeoutMs"; "maxLifetimeMs"; "onTimeout"; "idle"; "envs";
  "metadata"; "cpuTimeLimit"; "executionRoleArn"; "allowedPorts"; "ingress"; "egress"; "logging";
  "region"; "client"; "accessToken"; "keepOnFailure"; "controlPlane"; "transport"; "mounts";
  "volumes"; "size"; "events"; "telemetry"; "gateways"; "domain"].

Definition rejectedPoolOption (options : list (string * jsval)) : option string :=
  List.find (fun name => negb (is_undefined (get_prop options name))) POOL_REJECTED_OPTIONS.

Definition rejectLaunchOptionsWithPool (options : list (string * jsval)) : result unit :=
  match rejectedPoolOption options with Some _ => Throw InvalidArgumentError | None => Ok tt end.

(** ** The order of slots *)

(** The record has an expiry: a finite duration whose end is a valid date. *)
Definition dated (r : SlotRecord) : Prop := is_Some (expiresAt r).

#[export] Instance dated_dec r : Decision (dated r) := _.

(** The comparison by [(expiry, sandboxId)] that [compareByExpiry] computes on
    dated records. *)
Definition expiry_key_cmp (a b : SlotRecord) : Z :=
  let delta := default 0 (expiresAt a) - default 0 (expiresAt b) in
  if delta =? 0
  then match String.compare (sandboxId a) (sandboxId b) with Lt => -1 | Gt => 1 | Eq => 0 end
  else delta.

Lemma compareByExpiry_dated a b :
  dated a -> dated b -> compareByExpiry a b = Some (expiry_key_cmp a b).
Proof.
  unfold dated, compareByExpiry, expiry_key_cmp. intros [ea ->] [eb ->].
  change (default 0 (Some ea)) with ea. change (default 0 (Some eb)) with eb.
  cbv zeta. by destruct (ea - eb =? 0).
Qed.

Lemma string_compare_cases a b :
  match String.compare a b with
  | Eq => a = b
  | Lt => String_as_OT.lt a b
  | Gt => String_as_OT.lt b a
  end.
Proof.
  pose proof (String_as_OT.compare_spec a b) as H.
  change (String.compare a b) with (String_as_OT.compare a b).
  by destruct H.
Qed.

Lemma string_compare_trans a b c :
  String.compare a b <> Gt -> String.compare b c <> Gt -> String.compare a c <> Gt.
Proof.
  pose proof (string_compare_cases a b) as Hab. pose proof (string_compare_cases b c) as Hbc.
  pose proof (string_compare_cases a c) as Hac. destruct String_as_OT.lt_strorder as [Hirr Htr].
  destruct (String.compare a b), (String.compare b c), (String.compare a c); try done; intros _ _ _.
  - subst. by apply (Hirr c).
  - subst. by apply (Hirr c), (Htr c b c).
  - subst. by apply (Hirr c), (Htr c a c).
  - by apply (Hirr a), (Htr a c a); [apply (Htr a b c)|].
Qed.

Lemma expiry_key_cmp_trans a b c :
  expiry_key_cmp a b <= 0 -> expiry_key_cmp b c <= 0 -> expiry_key_cmp a c <= 0.
Proof.
  unfold expiry_key_cmp. pose proof (string_compare_trans (sandboxId a) (sandboxId b) (sandboxId c)).
  cbv zeta. set (x := default 0 (expiresAt a)). set (y := default 0 (expiresAt b)).
  set (z := default 0 (expiresAt c)).
  destruct (Z.eqb_spec (x - y) 0), (Z.eqb_spec (y - z) 0), (Z.eqb_spec (x - z) 0); try lia;
    repeat case_match; intros; try lia; exfalso; naive_solver.
Qed.

Lemma expiry_key_cmp_flip a b : expiry_key_cmp a b = - expiry_key_cmp b a.
Proof.
  unfold expiry_key_cmp. rewrite (String.compare_antisym (sandboxId b)). cbv zeta.
  set (x := default 0 (expiresAt a)). set (y := default 0 (expiresAt b)).
  destruct (Z.eqb_spec (x - y) 0), (Z.eqb_spec (y - x) 0); try lia.
  by destruct (String.compare _ _).
Qed.

Lemma expiry_key_cmp_total a b : expiry_key_cmp a b <= 0 \/ expiry_key_cmp b a <= 0.
Proof. rewrite (expiry_key_cmp_flip a b). lia. Qed.

Lemma expires_before_dated a b :
  dated a -> dated b -> expires_before a b = (expiry_key_cmp a b <? 0).
Proof. intros. unfold expires_before. by rewrite compareByExpiry_dated. Qed.

(** ** Choosing a slot *)

(** What a [take] may hand out at [now]: parked, with enough life left. *)
Definition eligible (now minRemainingMs : Z) (r : SlotRecord) : Prop :=
  state r = ready /\ slotIsStale r now minRemainingMs = false.

(** [a] is handed out before [b]: it expires first, ties by id. *)
Definition served_first (a b : SlotRecord) : Prop :=
  exists ea eb, expiresAt a = Some ea /\ expiresAt b = Some eb /\
    (ea < eb \/ (ea = eb /\ String.compare (sandboxId a) (sandboxId b) <> Gt)).

Lemma served_first_iff a b :
  dated a -> dated b -> served_first a b <-> expiry_key_cmp a b <= 0.
Proof.
  intros [ea Ha] [eb Hb]. unfold served_first, expiry_key_cmp. rewrite Ha, Hb.
  change (default 0 (Some ea)) with ea. change (default 0 (Some eb)) with eb. cbv zeta. split.
  - intros (? & ? & [= <-] & [= <-] & Hlt).
    destruct (Z.eqb_spec (ea - eb) 0); [|lia]. destruct Hlt as [?|[_ Hs]]; [lia|].
    destruct (String.compare _ _); [lia|lia|done].
  - intros Hle. exists ea, eb. split_and!; [done..|].
    destruct (Z.eqb_spec (ea - eb) 0); [right|left; lia]. split; [lia|]. intros E. rewrite E in Hle. lia.
Qed.

Definition best_of (now minRemainingMs : Z) (seen : list SlotRecord) (best : option SlotRecord) : Prop :=
  match best with
  | Some b => b ∈ seen /\ eligible now minRemainingMs b /\
              forall r, r ∈ seen -> eligible now minRemainingMs r -> expiry_key_cmp b r <= 0
  | None => forall r, r ∈ seen -> ~ eligible now minRemainingMs r
  end.

Lemma pick_step_best now m seen best r :
  (forall x, x ∈ r :: seen -> dated x) ->
  best_of now m seen best -> best_of now m (seen ++ [r]) (pick_step now m best r).
Proof.
  intros Hd Hb. unfold pick_step.
  assert (Hr : expiry_key_cmp r r <= 0) by (destruct (expiry_key_cmp_total r r); done).
  case_bool_decide as Hs; cbn [negb orb].
  2: { destruct best as [b|]; unfold best_of, eligible in *; set_solver. }
  destruct (slotIsStale r now m) eqn:Hst.
  { destruct best as [b|]; unfold best_of, eligible in *.
    - destruct Hb as (Hb1 & Hb2 & Hb3). split_and!; [set_solver|naive_solver..|].
      intros x [Hx|Hx%list_elem_of_singleton]%elem_of_app; [by apply Hb3|]. subst. naive_solver congruence.
    - intros x [Hx|Hx%list_elem_of_singleton]%elem_of_app; [by apply Hb|]. subst. naive_solver congruence. }
  destruct best as [b|]; cbn [best_of] in *.
  - destruct Hb as (Hb1 & Hb2 & Hb3). rewrite expires_before_dated by (apply Hd; set_solver).
    destruct (Z.ltb_spec (expiry_key_cmp r b) 0).
    + split_and!; [set_solver|done|]. intros x [Hx|Hx%list_elem_of_singleton]%elem_of_app.
      * intros He. apply (expiry_key_cmp_trans r b x); [lia|by apply Hb3].
      * by subst.
    + split_and!; [set_solver|done|]. intros x [Hx|Hx%list_elem_of_singleton]%elem_of_app.
      * by apply Hb3.
      * subst. intros _. rewrite expiry_key_cmp_flip. lia.
  - split_and!; [set_solver|done|]. intros x [Hx|Hx%list_elem_of_singleton]%elem_of_app.
    + intros He. by destruct (Hb x Hx).
    + by subst.
Qed.

Lemma fold_pick_best now m records seen best :
  (forall r, r ∈ seen ++ records -> dated r) -> best_of now m seen best ->
  best_of now m (seen ++ records) (fold_left (pick_step now m) records best).
Proof.
  revert seen best. induction records as [|r records IH]; intros seen best Hd Hb; cbn [fold_left].
  - by rewrite app_nil_r.
  - rewrite (cons_middle r), app_assoc. apply IH.
    + intros x Hx. apply Hd. set_solver.
    + apply pick_step_best; [|done]. intros x Hx. apply Hd. set_solver.
Qed.

Definition sample_record : SlotRecord := {|
  sandboxId := "mvm-1"; accessToken := "tok"; endpoint := "e"; template := "arn"; templateVersion := "1";
  startedAt := 1700000000000; maximumDurationSeconds := num_of_Z 28800; region := "us-east-1";
  state := ready; idle := Some {| idle_max := num_of_Z 300; idle_suspended := None; idle_resume := true |};
  executionRoleArn := None; ingress := []; egress := ["c"]; parkedAt := Some 1700000005000 |}.

(** The slot a [take] pops is a parked slot of the pool with at least
    [minRemainingMs] of life left, and among all such slots the one that expires
    first (ties by id); when none is popped, no slot qualifies. *)
Theorem pickReadySlot_oldest records now m :
  (forall r, r ∈ records -> dated r) ->
  match pickReadySlot records now m with
  | Some b => b ∈ records /\ eligible now m b /\
              forall r, r ∈ records -> eligible now m r -> served_first b r
  | None => forall r, r ∈ records -> ~ eligible now m r
  end.
Proof.
  intros Hd. pose proof (fold_pick_best now m records [] None Hd) as H.
  unfold pickReadySlot. rewrite app_nil_l in H.
  assert (H' : best_of now m records (fold_left (pick_step now m) records None)).
  { apply H. unfold best_of. set_solver. }
  destruct (fold_left _ _ _) as [b|]; [|done]. destruct H' as (Hin & He & Hmin).
  split_and!; [done..|]. intros r Hr Her. apply served_first_iff; [auto..|]. by apply Hmin.
Qed.

Lemma pickReadySlot_oldest_witness :
  eligible 1700000010000 3600000 sample_record /\
  match pickReadySlot [sample_record] 1700000010000 3600000 with
  | Some b => b ∈ [sample_record] /\ eligible 1700000010000 3600000 b /\
              forall r, r ∈ [sample_record] -> eligible 1700000010000 3600000 r -> served_first b r
  | None => forall r, r ∈ [sample_record] -> ~ eligible 1700000010000 3600000 r
  end.
Proof.
  split; [split; vm_compute; reflexivity|]. apply pickReadySlot_oldest.
  intros r ->%list_elem_of_singleton. by_decide.
Defined.

(** ** Stats *)

(** [stats()] lists every slot of the pool exactly once, ordered as [take]
    will hand them out, and counts the parked ones. *)
Theorem statsFromRecords_sorted records size wm counters :
  (forall r, r ∈ records -> dated r) ->
  exists ordered, Permutation ordered records /\ StronglySorted served_first ordered /\
    st_slots (statsFromRecords records size wm counters) = slotInfoFromRecord <$> ordered /\
    st_ready (statsFromRecords records size wm counters)
      = Z.of_nat (length (filter (fun r => state r = ready) records)).
Proof.
  intros Hd. exists (sort_by expiry_order records).
  pose proof (sort_by_perm expiry_order records) as Hp. split_and!; [done| |done|].
  - rewrite (sort_by_agree expiry_order expiry_key_cmp).
    + pose proof (sort_by_perm expiry_key_cmp records) as Hp'.
      pose proof (sort_by_sorted expiry_key_cmp expiry_key_cmp_total expiry_key_cmp_trans records) as Hs.
      assert (Hd' : forall r, r ∈ sort_by expiry_key_cmp records -> dated r).
      { intros r Hr. apply Hd. by rewrite <- Hp'. }
      clear - Hs Hd'. induction Hs as [|a l Hs IH Hall]; constructor.
      * apply IH. intros. apply Hd'. set_solver.
      * rewrite Forall_forall in *. intros x Hx.
        apply served_first_iff; [apply Hd'; set_solver..|]. by apply Hall.
    + intros a b Ha Hb. unfold expiry_order. by rewrite compareByExpiry_dated by auto.
  - unfold statsFromRecords. cbn [st_ready]. by rewrite Hp.
Qed.

Lemma statsFromRecords_sorted_witness :
  exists ordered, Permutation ordered [sample_record] /\ StronglySorted served_first ordered /\
    st_slots (statsFromRecords [sample_record] 4 0 newCounters) = slotInfoFromRecord <$> ordered /\
    st_ready (statsFromRecords [sample_record] 4 0 newCounters)
      = Z.of_nat (length (filter (fun r => state r = ready) [sample_record])).
Proof.
  apply statsFromRecords_sorted. intros r ->%list_elem_of_singleton. by_decide.
Defined.

(** ** The JSON form survives a write and a read *)

(** A record JSON can carry: valid dates and finite numbers. *)
Definition finite_num (n : jsnum) : Prop := match n with Finite _ => True | _ => False end.

Definition valid_date (t : Z) : Prop := - MAX_TIME <= t <= MAX_TIME.

Definition storable (r : SlotRecord) : Prop :=
  valid_date (startedAt r) /\
  (forall t, parkedAt r = Some t -> valid_date t) /\
  finite_num (maximumDurationSeconds r) /\
  (forall p, idle r = Some p -> finite_num (idle_max p) /\
                                forall s, idle_suspended p = Some s -> finite_num s).

Section JsonRoundTrip.
Context `{JsRuntime}.

Lemma parse_date_iso t : valid_date t -> parse_date (untxt (toISOString t)) = Some t.
Proof.
  intros Ht. unfold parse_date. rewrite txt_untxt by apply toISOString_ascii.
  by rewrite parse_print_iso.
Qed.

Lemma json_number n : finite_num n -> json_value (JNumber n) = JNumber n.
Proof. by destruct n. Qed.

Lemma json_strings l : json_value (JArray (JString <$> l)) = JArray (JString <$> l).
Proof.
  cbn [json_value]. f_equal. induction l as [|s l IH]; [done|]. rewrite fmap_cons. cbn [map].
  by rewrite IH.
Qed.

Lemma stringList_strings l : stringList (JArray (JString <$> l)) = Ok l.
Proof.
  unfold stringList. induction l as [|s l IH]; [done|]. rewrite !fmap_cons. cbn [collect js_string].
  rewrite IH. done.
Qed.

Lemma idle_roundtrip o :
  (forall p, o = Some p -> finite_num (idle_max p) /\
                           forall s, idle_suspended p = Some s -> finite_num s) ->
  idleFromJson (json_value (opt_json idle_json o)) = Ok o.
Proof.
  destruct o as [[m s a]|]; [|done]. intros Hf. destruct (Hf _ eq_refl) as [Hm Hs]. cbn in Hm, Hs.
  destruct m; try done. destruct s as [s|].
  - specialize (Hs s eq_refl). by destruct s, a.
  - by destruct a.
Qed.

Lemma date_value data key t :
  valid_date t -> get_prop data key = iso_json t -> dateField data key = Ok t.
Proof.
  intros Ht Hg. unfold dateField, stringField, field. rewrite Hg. unfold iso_json, mbind, result_bind.
  cbn [js_string]. by rewrite parse_date_iso.
Qed.

Lemma string_value data key s : get_prop data key = JString s -> stringField data key = Ok s.
Proof. intros Hg. unfold stringField, field. by rewrite Hg. Qed.

Lemma json_iso t : json_value (iso_json t) = iso_json t.
Proof. done. Qed.

(** What [JSON.parse] reads back from a written slot. *)
Definition read_back (r : SlotRecord) : list (string * jsval) := [
  ("sandbox_id", JString (sandboxId r)); ("access_token", JString (accessToken r));
  ("endpoint", JString (endpoint r)); ("template", JString (template r));
  ("template_version", JString (templateVersion r)); ("started_at", iso_json (startedAt r));
  ("maximum_duration_seconds", JNumber (maximumDurationSeconds r)); ("region", JString (region r));
  ("state", JString (slot_state_name (state r)));
  ("idle", json_value (opt_json idle_json (idle r)));
  ("execution_role_arn", opt_json JString (executionRoleArn r));
  ("ingress", JArray (JString <$> ingress r)); ("egress", JArray (JString <$> egress r));
  ("parked_at", opt_json iso_json (parkedAt r))].

Lemma json_record r : storable r -> json_value (recordToJson r) = JObject (read_back r).
Proof.
  intros (_ & _ & Hd & _). unfold read_back.
  rewrite <- (json_strings (ingress r)), <- (json_strings (egress r)).
  destruct r as [? ? ? ? ? ? d ? ? i role ? ? pk]; cbn in Hd. destruct d; try done.
  destruct i, role, pk; reflexivity.
Qed.

Lemma record_roundtrip r : storable r -> recordFromJson (json_value (recordToJson r)) = Ok r.
Proof.
  intros Hs. rewrite json_record by done. destruct Hs as (Hst & Hpk & _ & Hi).
  unfold recordFromJson. rewrite (string_value (read_back r) "state" (slot_state_name (state r)) eq_refl). unfold mbind, result_bind.
  assert (slot_state_of (slot_state_name (state r)) = Some (state r)) as -> by by destruct (state r).
  rewrite (string_value (read_back r) "sandbox_id" (sandboxId r) eq_refl), (string_value (read_back r) "endpoint" (endpoint r) eq_refl),
    (string_value (read_back r) "template" (template r) eq_refl), (string_value (read_back r) "template_version" (templateVersion r) eq_refl),
    (date_value (read_back r) "started_at" (startedAt r) Hst eq_refl), (string_value (read_back r) "region" (region r) eq_refl),
    (string_value (read_back r) "access_token" (accessToken r) eq_refl).
  change (get_prop (read_back r) "idle") with (json_value (opt_json idle_json (idle r))).
  rewrite (idle_roundtrip _ Hi).
  change (get_prop (read_back r) "ingress") with (JArray (JString <$> ingress r)).
  change (get_prop (read_back r) "egress") with (JArray (JString <$> egress r)).
  rewrite !stringList_strings.
  change (get_prop (read_back r) "execution_role_arn") with (opt_json JString (executionRoleArn r)).
  change (get_prop (read_back r) "parked_at") with (opt_json iso_json (parkedAt r)).
  change (field (read_back r) "maximum_duration_seconds") with (Ok (JNumber (maximumDurationSeconds r))).
  assert (optional js_string (opt_json JString (executionRoleArn r)) = Ok (executionRoleArn r)) as ->
    by by destruct (executionRoleArn r).
  assert (optional (fun _ => dateField (read_back r) "parked_at") (opt_json iso_json (parkedAt r))
          = Ok (parkedAt r)) as ->.
  { destruct (parkedAt r) as [t|] eqn:Ht; [|done]. cbn [opt_json optional].
    unfold iso_json at 1. unfold optional. rewrite (date_value _ _ t); [done|by apply Hpk|].
    unfold read_back. rewrite Ht. done. }
  by destruct r.
Qed.
End JsonRoundTrip.

(** A slot written to the pool's JSON document and read back is the same
    slot, whatever the runtime does with the texts and numbers JSON cannot
    carry: every field, the dates to the millisecond and the token included. *)
Theorem record_json_roundtrip `{JsRuntime} (r : SlotRecord) :
  storable r -> recordFromJson (json_value (recordToJson r)) = Ok r.
Proof. apply record_roundtrip. Qed.

Definition plain_runtime : JsRuntime := {|
  print_other_number := fun _ => "x"; number_of_string := fun _ => NaN; date_of_string := fun _ => None |}.

Lemma sample_storable : storable sample_record.
Proof.
  split_and!; cbn; [by_decide|by intros ? [= <-]; by_decide|done|].
  intros p [= <-]. done.
Qed.

Lemma record_json_roundtrip_witness :
  storable sample_record /\
  @recordFromJson plain_runtime (json_value (recordToJson sample_record)) = Ok sample_record.
Proof. split; [apply sample_storable|]. apply (@record_json_roundtrip plain_runtime), sample_storable. Defined.

(** ** The backoff's schedule *)

Module BackoffSchedule.
Import FillBackoff.
Local Open Scope Q_scope.

(** The un-jittered delay before the [n]-th retry. *)
Fixpoint base_delay (n : nat) : Q :=
  match n with O => initialDelayMs | S n' => qmin (base_delay n' * 2) maxDelayMs end.

Lemma delays_from rs b k i d :
  wf b -> delayMs b = base_delay k -> Forall (fun r => 0 <= r < 1) rs -> delays rs b !! i = Some d ->
  (3 # 4) * base_delay (k + i) <= d /\ d < (5 # 4) * base_delay (k + i).
Proof.
  revert b k i. induction rs as [|r rs IH]; intros b k i Hwf Hb Hrs Hi; [done|].
  apply Forall_cons in Hrs as [Hr Hrs]. destruct i as [|i].
  - injection Hi as <-. rewrite Nat.add_0_r, <- Hb. by apply next_bounds.
  - rewrite Nat.add_succ_r. change (S (k + i)) with (S k + i)%nat.
    apply (IH (nextDelayMs r b).2); [by apply next_wf| |done|done].
    cbn. by rewrite Hb.
Qed.

(** After [i] failed warm-ups in a row the filler waits one second doubled
    [i] times, at most a minute, give or take a quarter; a success starts the
    schedule over. *)
Theorem backoff_schedule b rs i d :
  Forall (fun r => 0 <= r < 1) rs -> delays rs (reset b) !! i = Some d ->
  (3 # 4) * base_delay i <= d /\ d < (5 # 4) * base_delay i /\ d < 75000.
Proof.
  intros Hrs Hd. pose proof (delays_from rs (reset b) 0 i d new_wf eq_refl Hrs Hd) as [H1 H2].
  split_and!; [done..|]. cbn in H2.
  assert (base_delay i <= maxDelayMs).
  { destruct i; [cbv; discriminate|]. apply (qmin_spec _ _). }
  unfold maxDelayMs in *. lra.
Qed.

Lemma backoff_schedule_witness :
  (3 # 4) * base_delay 2 <= 32000 # 8 /\ 32000 # 8 < (5 # 4) * base_delay 2 /\ 32000 # 8 < 75000.
Proof.
  apply (backoff_schedule new [1#2; 1#2; 1#2] 2 (32000 # 8)); [repeat constructor; by_decide || (cbv; done)|].
  vm_compute. reflexivity.
Defined.
End BackoffSchedule.
