(* ===== verification/PoolBackend.v ===== *)
(** * PoolBackend: where the pool's slot records live

    src/clients/typescript/src/pool/backend.ts.  [PoolBackend] is the interface
    the pool is written against, with the laws the pool relies on; the in-memory
    [Map] and the JSON file (schema [rayito.pool/1], replaced atomically through a
    temporary file) are its two instances, and satisfy the laws. *)

From stdpp Require Import base option list strings sets.
From Stdlib Require Import ZArith Lia Permutation.
From S2P Require Import Prelude Text JsDate JsMap PoolCore.

(** ** The interface *)

(** A map of records as every backend keeps it: by [sandboxId], no id twice. *)
Definition keyed (m : jsmap SlotRecord) : Prop :=
  jm_wf m /\ forall k r, (k, r) ∈ m -> k = sandboxId r.

(** The operations.  [F] is what the storage below can do wrong during a call
    ([no_fault]: nothing); [contents] is what [load] would read. *)
Class PoolBackend (B F : Type) := {
  persistent : bool;
  no_fault : F;
  backend_load : F -> B -> result (list SlotRecord);
  backend_save : F -> SlotRecord -> B -> B * result unit;
  backend_delete : F -> string -> B -> B * result unit;
  contents : B -> option (jsmap SlotRecord);
  admissible : SlotRecord -> Prop
}.

(** A state the laws speak about: readable, holding [m], whose records the
    backend can store. *)
Definition holds {B F} `{PoolBackend B F} (b : B) (m : jsmap SlotRecord) : Prop :=
  contents b = Some m /\ keyed m /\ forall r, r ∈ jm_values m -> admissible r.

Class PoolBackendLaws (B F : Type) `{PoolBackend B F} := {
  load_sound : forall f b m l, holds b m -> backend_load f b = Ok l -> l = jm_values m;
  load_total : forall b m, holds b m -> is_ok (backend_load no_fault b) = true;
  save_spec : forall f r b m, holds b m -> admissible r ->
    match backend_save f r b with
    | (b', Ok _) => holds b' (jm_set (sandboxId r) r m)
    | (b', Throw _) => holds b' m
    end;
  save_total : forall r b m, holds b m -> is_ok (backend_save no_fault r b).2 = true;
  delete_spec : forall f k b m, holds b m ->
    match backend_delete f k b with
    | (b', Ok _) => holds b' (jm_delete k m)
    | (b', Throw _) => holds b' m
    end;
  delete_total : forall k b m, holds b m -> is_ok (backend_delete no_fault k b).2 = true
}.

Lemma keyed_set m r : keyed m -> keyed (jm_set (sandboxId r) r m).
Proof.
  intros [Hwf Hk]. split; [by apply jm_wf_set|]. intros k r' Hin.
  apply jm_wf_get in Hin; [|by apply jm_wf_set]. rewrite jm_get_set in Hin.
  destruct (String.eqb_spec k (sandboxId r)) as [->|].
  - by injection Hin as ->.
  - by apply Hk, jm_get_elem.
Qed.

Lemma jm_delete_elem {V} k k' (v : V) m : (k', v) ∈ jm_delete k m -> (k', v) ∈ m.
Proof.
  induction m as [|[k1 v1] m IH]; cbn; [done|]. destruct (String.eqb k k1); set_solver.
Qed.

Lemma jm_delete_absent {V} k (m : jsmap V) : jm_get k m = None -> jm_delete k m = m.
Proof.
  induction m as [|[k1 v1] m IH]; cbn; [done|]. destruct (String.eqb k k1); [done|]. intros. by rewrite IH.
Qed.

Lemma keyed_delete m k : keyed m -> keyed (jm_delete k m).
Proof.
  intros [Hwf Hk]. split; [by apply jm_wf_delete|]. intros k' r Hin%jm_delete_elem. by apply Hk.
Qed.

Lemma jm_values_set_elem {V} k (v x : V) m : x ∈ jm_values (jm_set k v m) -> x = v \/ x ∈ jm_values m.
Proof.
  unfold jm_values. induction m as [|[k1 v1] m IH]; cbn; [set_solver|].
  destruct (String.eqb k k1); cbn; [set_solver|]. set_solver.
Qed.

Lemma jm_values_delete_elem {V} k (x : V) m : x ∈ jm_values (jm_delete k m) -> x ∈ jm_values m.
Proof. rewrite !jm_values_elem. intros [k' Hin]. eauto using jm_delete_elem. Qed.

(** ** [InMemoryPoolBackend] *)

Module InMemory.
Definition load (m : jsmap SlotRecord) : result (list SlotRecord) := Ok (jm_values m).
Definition save (r : SlotRecord) (m : jsmap SlotRecord) : jsmap SlotRecord * result unit :=
  (jm_set (sandboxId r) r m, Ok tt).
Definition delete (k : string) (m : jsmap SlotRecord) : jsmap SlotRecord * result unit :=
  (jm_delete k m, Ok tt).
End InMemory.

#[export] Instance InMemoryPoolBackend : PoolBackend (jsmap SlotRecord) unit := {|
  persistent := false;
  no_fault := tt;
  backend_load := fun _ => InMemory.load;
  backend_save := fun _ => InMemory.save;
  backend_delete := fun _ => InMemory.delete;
  contents := Some;
  admissible := fun _ => True
|}.

#[export] Instance InMemoryPoolBackend_laws : PoolBackendLaws (jsmap SlotRecord) unit.
Proof.
  split; unfold holds; cbn.
  - by intros _ b m l ([= ->] & _) [= <-].
  - done.
  - intros _ r b m ([= ->] & Hk & _) _. split_and!; auto using keyed_set.
  - done.
  - intros _ k b m ([= ->] & Hk & _). split_and!; auto using keyed_delete.
  - done.
Qed.

(** ** [JsonFilePoolBackend] *)

(** The text of a file is known by what [JSON.parse] makes of it. *)
Inductive file_text := NotJson | Json (v : jsval).

Inductive dir_entry := Missing | Link | Regular (t : file_text).

(** The state file, and the temporaries: the one of the write under way first,
    then those of earlier writes that could not be removed (the names are random,
    so two never collide). *)
Record fs := { state_file : dir_entry; temp_files : list file_text }.

(** What an operation meets: the system call that fails, if one does (a failed
    write may leave any text behind); the texts the temporary goes through while
    it is being filled; whether removing it fails. *)
Inductive io_call :=
  | io_open | io_readFile | io_close
  | io_open_temp | io_chmod | io_writeFile (leaves : file_text) | io_close_temp | io_rename.

Record io_fault := {
  fails : option io_call;
  passes : list file_text;
  unlink_fails : bool
}.

Definition no_io_fault : io_fault := {| fails := None; passes := []; unlink_fails := false |}.

(** An operation under way: what is at the path of the state file, the temporary
    of this write while there is one, those of earlier writes, and every state
    the directory has been in so far.  A process that dies in the middle leaves
    the directory in one of the states [seen]. *)
Record run := {
  at_path : dir_entry;
  temp : option file_text;
  others : list file_text;
  seen : list fs
}.

Definition now (w : run) : fs :=
  {| state_file := at_path w; temp_files := option_list (temp w) ++ others w |}.

Definition start (s : fs) : run :=
  {| at_path := state_file s; temp := None; others := temp_files s; seen := [s] |}.

(** The directory after a call that leaves [e] at the path and [t] as the
    temporary. *)
Definition become (e : dir_entry) (t : option file_text) (w : run) : run :=
  let s := {| state_file := e; temp_files := option_list t ++ others w |} in
  {| at_path := e; temp := t; others := others w; seen := seen w ++ [s] |}.

(** An [async] function of the file backend. *)
Definition io (A : Type) : Type := io_fault -> run -> run * result A.

#[export] Instance io_ret : MRet io := fun _ a _ w => (w, Ok a).
#[export] Instance io_bind : MBind io := fun _ _ k m f w =>
  match m f w with
  | (w', Ok a) => k a f w'
  | (w', Throw e) => (w', Throw e)
  end.

(** [try { m } catch (error) { h; throw error }]. *)
Definition on_error {A} (h : io unit) (m : io A) : io A := fun f w =>
  match m f w with
  | (w', Ok a) => (w', Ok a)
  | (w', Throw e) => match h f w' with (w'', Ok _) => (w'', Throw e) | (w'', Throw e') => (w'', Throw e') end
  end.

(** [try { m } finally { h }]. *)
Definition finally {A} (h : io unit) (m : io A) : io A := fun f w =>
  let '(w', r) := m f w in
  match h f w' with (w'', Ok _) => (w'', r) | (w'', Throw e') => (w'', Throw e') end.

(** An operation from a directory [s]: the directory it leaves and its result. *)
Definition ran {A} (m : io A) (f : io_fault) (s : fs) : fs * result A :=
  let '(w, r) := m f (start s) in (now w, r).

(** The states the directory is in during an operation, the first and the last
    included. *)
Definition states {A} (m : io A) (f : io_fault) (s : fs) : list fs := seen (m f (start s)).1.

Module JsonFile.
Section JsonFile.
Context `{JsRuntime}.

Definition parseDocument (text : file_text) : result (list (string * jsval)) :=
  match text with
  | NotJson => Throw InvalidArgumentError
  | Json (JObject document) =>
      match get_prop document "schema" with
      | JString s => if String.eqb s POOL_SCHEMA then Ok document else Throw InvalidArgumentError
      | _ => Throw InvalidArgumentError
      end
  | Json _ => Throw InvalidArgumentError
  end.

Fixpoint add_slots (slots : list jsval) (records : jsmap SlotRecord) : result (jsmap SlotRecord) :=
  match slots with
  | [] => Ok records
  | item :: slots' => r ← recordFromJson item; add_slots slots' (jm_set (sandboxId r) r records)
  end.

Definition recordsFromDocument (document : list (string * jsval)) : result (jsmap SlotRecord) :=
  match nullish (get_prop document "slots") (JArray []) with
  | JArray slots => add_slots slots []
  | _ => Throw InvalidArgumentError
  end.

Definition read (f : io_fault) (s : fs) : result (jsmap SlotRecord) :=
  match fails f, state_file s with
  | Some io_open, _ => Throw OtherError
  | _, Missing => Ok []
  | _, Link => Throw InvalidArgumentError
  | Some io_readFile, Regular _ | Some io_close, Regular _ => Throw OtherError
  | _, Regular text => document ← parseDocument text; recordsFromDocument document
  end.

Definition document_of (records : jsmap SlotRecord) : jsval := JObject [
  ("schema", JString POOL_SCHEMA);
  ("slots", JArray (recordToJson <$> jm_values records))].

(** *** The system calls of a write *)

(** [open(temp, "wx", FILE_MODE)]: an empty file, which is not JSON. *)
Definition open_temp : io unit := fun f w =>
  match fails f with
  | Some io_open_temp => (w, Throw OtherError)
  | _ => (become (at_path w) (Some NotJson) w, Ok tt)
  end.

Definition chmod : io unit := fun f w =>
  match fails f with
  | Some io_chmod => (w, Throw OtherError)
  | _ => (become (at_path w) (temp w) w, Ok tt)
  end.

(** Text written through the handle goes into the file it opened: the temporary,
    or the state file once it has been renamed. *)
Definition fill (t : file_text) (w : run) : run :=
  match temp w with
  | Some _ => become (at_path w) (Some t) w
  | None => become (Regular t) None w
  end.

Definition writeFile (text : file_text) : io unit := fun f w =>
  let w' := fold_left (fun w t => fill t w) (passes f) w in
  match fails f with
  | Some (io_writeFile leaves) => (fill leaves w', Throw OtherError)
  | _ => (fill text w', Ok tt)
  end.

Definition close_temp : io unit := fun f w =>
  match fails f with
  | Some io_close_temp => (w, Throw OtherError)
  | _ => (w, Ok tt)
  end.

(** [rename(temp, path)] puts the temporary in the place of the state file; one
    that is not there cannot be renamed. *)
Definition rename : io unit := fun f w =>
  match fails f, temp w with
  | Some io_rename, _ | _, None => (w, Throw OtherError)
  | _, Some t => (become (Regular t) None w, Ok tt)
  end.

(** [discard(temp)]: what goes wrong with it is swallowed. *)
Definition discard : io unit := fun f w =>
  if unlink_fails f then (w, Ok tt) else (become (at_path w) None w, Ok tt).

(** *** The operations *)

Definition write (records : jsmap SlotRecord) : io unit :=
  let document := document_of records in
  on_error discard (
    _ ← open_temp;
    _ ← finally close_temp (
      _ ← chmod;
      writeFile (Json (json_value document)));
    rename).

Definition reading : io (jsmap SlotRecord) := fun f w => (w, read f (now w)).

Definition load : io (list SlotRecord) :=
  records ← reading;
  mret (jm_values records).

Definition save (r : SlotRecord) : io unit :=
  records ← reading;
  write (jm_set (sandboxId r) r records).

Definition delete (k : string) : io unit :=
  records ← reading;
  if jm_has k records then write (jm_delete k records) else mret tt.


(** ** The laws *)

Lemma json_items l :
  map (fun i => match i with JUndefined => JNull | _ => json_value i end) (recordToJson <$> l)
  = json_value <$> (recordToJson <$> l).
Proof. induction l as [|r l IH]; [done|]. rewrite !fmap_cons. cbn. f_equal. apply IH. Qed.

Lemma recordsFromDocument_written records :
  (forall r, r ∈ jm_values records -> storable r) -> keyed records ->
  (document ← parseDocument (Json (json_value (document_of records))); recordsFromDocument document)
  = Ok records.
Proof.
  intros Hst [Hwf Hk].
  assert (Hdoc : json_value (document_of records) =
    JObject [("schema", JString POOL_SCHEMA);
             ("slots", JArray (json_value <$> (recordToJson <$> jm_values records)))]).
  { unfold document_of. cbn [json_value]. by rewrite json_items. }
  rewrite Hdoc. cbn. clear Hdoc.
  enough (forall m acc, (forall r, r ∈ jm_values m -> storable r) ->
    (forall k r, (k, r) ∈ m -> k = sandboxId r) -> NoDup (jm_keys (acc ++ m)) ->
    add_slots (json_value <$> (recordToJson <$> jm_values m)) acc = Ok (acc ++ m)) as Hgo
    by (apply (Hgo records []); auto).
  clear. unfold jm_values. induction m as [|[k r] m IH]; intros acc Hst Hk Hnd.
  { cbn. by rewrite app_nil_r. }
  rewrite !fmap_cons. cbn [snd add_slots].
  rewrite record_roundtrip by (apply Hst; set_solver). unfold mbind, result_bind.
  assert (k = sandboxId r) as -> by (apply Hk; set_solver).
  assert (jm_set (sandboxId r) r acc = acc ++ [(sandboxId r, r)]) as ->.
  { unfold jm_keys in Hnd. rewrite fmap_app, fmap_cons in Hnd. cbn in Hnd.
    apply NoDup_app in Hnd as (_ & Hdis & _).
    assert (sandboxId r ∉ acc.*1) as Hnew.
    { intros Hin. apply (Hdis _ Hin). set_solver. }
    clear - Hnew. induction acc as [|[k v] acc IH]; [done|]. cbn in Hnew |- *.
    destruct (String.eqb_spec (sandboxId r) k); [set_solver|]. rewrite IH; set_solver. }
  rewrite IH.
  - by rewrite <- app_assoc.
  - set_solver.
  - set_solver.
  - by rewrite <- app_assoc.
Qed.

Lemma read_wf_contents f s m : read f s = Ok m -> read no_io_fault s = Ok m.
Proof.
  unfold read, no_io_fault. cbn. by destruct (fails f) as [[]|], (state_file s).
Qed.

(** A read looks at the state file alone. *)
Lemma read_state_file f s s' : state_file s' = state_file s -> read f s' = read f s.
Proof. unfold read. by intros ->. Qed.

Lemma read_written records s :
  (forall r, r ∈ jm_values records -> storable r) -> keyed records ->
  state_file s = Regular (Json (json_value (document_of records))) ->
  read no_io_fault s = Ok records.
Proof. intros ? ? Hs. unfold read. rewrite Hs. by apply recordsFromDocument_written. Qed.

Lemma now_start s : now (start s) = s.
Proof. by destruct s. Qed.

(** *** What a write goes through *)

Section Run.
Variables (s0 : fs) (text : file_text).

(** A run that has not reached its [rename] ([done] is false) or has: the state
    file is the old one all along, until it is the whole document. *)
Definition sound (done : bool) (w : run) : Prop :=
  at_path w = (if done then Regular text else state_file s0) /\
  last (seen w) = Some (now w) /\
  Forall (fun s => state_file s = state_file s0 \/ state_file s = Regular text) (seen w).

Lemma sound_start : sound false (start s0).
Proof. split_and!; [done|by rewrite now_start|]. apply Forall_singleton. by left. Qed.

Lemma sound_become done w t : sound done w -> sound done (become (at_path w) t w).
Proof.
  intros (He & _ & Hseen). split_and!; [done|by apply last_snoc|].
  apply Forall_app. split; [done|]. apply Forall_singleton. cbn. rewrite He.
  destruct done; auto.
Qed.

Lemma sound_rename w : sound false w -> sound true (become (Regular text) None w).
Proof.
  intros (_ & _ & Hseen). split_and!; [done|by apply last_snoc|].
  apply Forall_app. split; [done|]. apply Forall_singleton. by right.
Qed.

Lemma sound_fill t w : temp w <> None -> sound false w ->
  temp (fill t w) = Some t /\ sound false (fill t w).
Proof.
  intros Ht Hw. unfold fill. destruct (temp w); [|done]. split; [done|]. by apply sound_become.
Qed.

Lemma sound_fills l w : temp w <> None -> sound false w ->
  let w' := fold_left (fun w t => fill t w) l w in temp w' <> None /\ sound false w'.
Proof.
  revert w. induction l as [|t l IH]; intros w Ht Hw; [done|].
  destruct (sound_fill t w Ht Hw) as [Ht' Hw']. apply IH; [by rewrite Ht'|done].
Qed.

(** From [P], [m] either returns with [Q] or throws with the state file as it
    was. *)
Definition upto {A} (P : run -> Prop) (m : io A) (Q : run -> Prop) : Prop :=
  forall f w, P w ->
  match m f w with (w', Ok _) => Q w' | (w', Throw _) => sound false w' end.

Lemma upto_bind {A B} P (m : io A) Q (k : A -> io B) R :
  upto P m Q -> (forall a, upto Q (k a) R) -> upto P (mbind k m) R.
Proof.
  intros Hm Hk f w Hw. specialize (Hm f w Hw). unfold mbind, io_bind.
  destruct (m f w) as [w' [a|e]]; [by apply Hk|done].
Qed.

Lemma upto_finally {A} P (m : io A) (h : io unit) Q :
  upto P m Q -> upto Q h Q -> (forall w, Q w -> sound false w) ->
  upto (sound false) h (sound false) -> upto P (finally h m) Q.
Proof.
  intros Hm Hq HQ Hh f w Hw. specialize (Hm f w Hw). unfold finally.
  destruct (m f w) as [w' [a|e]].
  - specialize (Hq f w' Hm). by destruct (h f w') as [w'' []].
  - specialize (Hh f w' Hm). by destruct (h f w') as [w'' []].
Qed.

Lemma upto_on_error {A} P (m : io A) (h : io unit) Q :
  upto P m Q -> upto (sound false) h (sound false) -> upto P (on_error h m) Q.
Proof.
  intros Hm Hh f w Hw. specialize (Hm f w Hw). unfold on_error.
  destruct (m f w) as [w' [a|e]]; [done|].
  specialize (Hh f w' Hm). by destruct (h f w') as [w'' []].
Qed.

(** The temporary is there, or there and full. *)
Definition opened (w : run) : Prop := temp w <> None /\ sound false w.
Definition full (w : run) : Prop := temp w = Some text /\ sound false w.

Lemma upto_open : upto (sound false) open_temp opened.
Proof.
  intros f w Hw. unfold open_temp. destruct (fails f) as [[]|]; try done;
    (split; [done|by apply sound_become]).
Qed.

Lemma upto_chmod : upto opened chmod opened.
Proof.
  intros f w [Ht Hw]. unfold chmod. destruct (fails f) as [[]|]; try done;
    (split; [done|by apply sound_become]).
Qed.

Lemma upto_writeFile : upto opened (writeFile text) full.
Proof.
  intros f w [Ht Hw]. unfold writeFile. destruct (sound_fills (passes f) w Ht Hw) as [Ht' Hw'].
  destruct (fails f) as [[]|]; by apply sound_fill.
Qed.

Lemma upto_close Q : (forall w, Q w -> sound false w) -> upto Q close_temp Q.
Proof. intros HQ f w Hw. unfold close_temp. destruct (fails f) as [[]|]; auto. Qed.

Lemma upto_rename : upto full rename (sound true).
Proof.
  intros f w [Ht Hw]. unfold rename. rewrite Ht.
  destruct (fails f) as [[]|]; auto using sound_rename.
Qed.

Lemma upto_discard : upto (sound false) discard (sound false).
Proof. intros f w Hw. unfold discard. destruct (unlink_fails f); auto using sound_become. Qed.
End Run.

Lemma upto_write records s :
  let text := Json (json_value (document_of records)) in
  upto s text (sound s text false) (write records) (sound s text true).
Proof.
  intros text. apply upto_on_error; [|apply upto_discard].
  eapply upto_bind; [apply upto_open|intros _].
  eapply upto_bind; [|intros _; apply upto_rename].
  apply upto_finally; [|apply upto_close; by intros w []|by intros w []|by apply upto_close].
  eapply upto_bind; [apply upto_chmod|intros _; apply upto_writeFile].
Qed.

(** An operation on a directory that holds [m], which is to make it hold [m']:
    it does so or throws and leaves [m], and at no point is there anything else to
    be read. *)
Definition moves {A} (f : io_fault) (s : fs) (m m' : jsmap SlotRecord) (action : io A) : Prop :=
  let '(w, r) := action f (start s) in
  read no_io_fault (now w) = Ok (if is_ok r then m' else m) /\
  last (seen w) = Some (now w) /\
  Forall (fun s' => read no_io_fault s' = Ok m \/ read no_io_fault s' = Ok m') (seen w).

Lemma write_moves f records s m :
  read no_io_fault s = Ok m ->
  (forall r, r ∈ jm_values records -> storable r) -> keyed records ->
  moves f s m records (write records).
Proof.
  intros Hm Hst Hk.
  set (text := Json (json_value (document_of records))).
  assert (Hread : forall s', state_file s' = state_file s \/ state_file s' = Regular text ->
    read no_io_fault s' = Ok m \/ read no_io_fault s' = Ok records).
  { intros s' [Hs'|Hs']; [left|right; by apply read_written]. by rewrite (read_state_file _ s). }
  pose proof (upto_write records s f (start s) (sound_start s text)) as Hw. unfold moves.
  destruct (write records f (start s)) as [w [u|e]]; destruct Hw as (He & Hlast & Hseen);
    (split_and!; [|done|by eapply Forall_impl]).
  - by apply read_written.
  - by rewrite (read_state_file _ s).
Qed.

(** Every operation starts with a read: one that throws, or decides that there is
    nothing to write, leaves the directory alone. *)
Lemma reads_then_moves {A} f s m m' (k : jsmap SlotRecord -> io A) :
  read no_io_fault s = Ok m -> moves f s m m' (k m) -> moves f s m m' (records ← reading; k records).
Proof.
  intros Hm Hk. unfold moves, mbind, io_bind, reading. rewrite now_start.
  destruct (read f s) as [m1|e] eqn:Hf.
  - apply read_wf_contents in Hf. rewrite Hm in Hf. by injection Hf as <-.
  - split_and!; [by rewrite now_start|by rewrite now_start|]. apply Forall_singleton. by left.
Qed.

Lemma save_moves f r s m :
  read no_io_fault s = Ok m -> keyed m -> (forall x, x ∈ jm_values m -> storable x) -> storable r ->
  moves f s m (jm_set (sandboxId r) r m) (save r).
Proof.
  intros Hm Hk Hst Hr. apply reads_then_moves; [done|]. apply write_moves; [done| |by apply keyed_set].
  by intros x [->|]%jm_values_set_elem; auto.
Qed.

Lemma delete_moves f k s m :
  read no_io_fault s = Ok m -> keyed m -> (forall x, x ∈ jm_values m -> storable x) ->
  moves f s m (jm_delete k m) (delete k).
Proof.
  intros Hm Hk Hst. apply reads_then_moves; [done|]. unfold jm_has. destruct (jm_get k m) as [r|] eqn:Hg.
  - apply write_moves; [done|eauto using jm_values_delete_elem|by apply keyed_delete].
  - rewrite jm_delete_absent by done. split_and!; [by rewrite now_start|by rewrite now_start|].
    apply Forall_singleton. by left.
Qed.

Lemma load_moves f s m : read no_io_fault s = Ok m -> moves f s m m load.
Proof.
  intros Hm. apply reads_then_moves; [done|].
  split_and!; [by rewrite now_start|by rewrite now_start|]. apply Forall_singleton. by left.
Qed.

Lemma load_ran f s : (ran load f s).2 = (records ← read f s; Ok (jm_values records)).
Proof.
  unfold ran, load, mbind, io_bind, reading. rewrite now_start. by destruct (read f s).
Qed.

End JsonFile.
End JsonFile.

#[global] Arguments JsonFile.read : simpl never.
#[global] Arguments JsonFile.write : simpl never.
#[global] Arguments JsonFile.reading : simpl never.

#[export] Instance JsonFilePoolBackend `{JsRuntime} : PoolBackend fs io_fault := {|
  persistent := true;
  no_fault := no_io_fault;
  backend_load := fun f s => (ran JsonFile.load f s).2;
  backend_save := fun f r => ran (JsonFile.save r) f;
  backend_delete := fun f k => ran (JsonFile.delete k) f;
  contents := fun s => match JsonFile.read no_io_fault s with Ok m => Some m | Throw _ => None end;
  admissible := storable
|}.

Lemma json_holds `{JsRuntime} s m :
  holds s m <-> JsonFile.read no_io_fault s = Ok m /\ keyed m /\ forall r, r ∈ jm_values m -> storable r.
Proof.
  unfold holds. cbn. destruct (JsonFile.read no_io_fault s).
  - split; intros ([= ->] & ?); done.
  - by split; intros [? ?].
Qed.

#[export] Instance JsonFilePoolBackend_laws `{JsRuntime} : PoolBackendLaws fs io_fault.
Proof.
  split.
  - intros f s m l (Hm & _)%json_holds. cbn. rewrite JsonFile.load_ran.
    destruct (JsonFile.read f s) eqn:Hf; [|done]. intros [= <-].
    apply JsonFile.read_wf_contents in Hf. congruence.
  - intros s m (Hm & _)%json_holds. cbn. rewrite JsonFile.load_ran. by rewrite Hm.
  - intros f r s m (Hm & Hk & Hst)%json_holds Hr. cbn. unfold ran.
    pose proof (JsonFile.save_moves f r s m Hm Hk Hst Hr) as Hw. unfold JsonFile.moves in Hw.
    destruct (JsonFile.save r f (start s)) as [w []]; destruct Hw as [Hw _];
      apply json_holds; split_and!; auto using keyed_set.
    by intros x [->|]%jm_values_set_elem; auto.
  - intros r s m (Hm & _)%json_holds. cbn. unfold ran, JsonFile.save, mbind, io_bind, JsonFile.reading.
    by rewrite JsonFile.now_start, Hm.
  - intros f k s m (Hm & Hk & Hst)%json_holds. cbn. unfold ran.
    pose proof (JsonFile.delete_moves f k s m Hm Hk Hst) as Hw. unfold JsonFile.moves in Hw.
    destruct (JsonFile.delete k f (start s)) as [w []]; destruct Hw as [Hw _];
      apply json_holds; split_and!; eauto using keyed_delete, jm_values_delete_elem.
  - intros k s m (Hm & _)%json_holds. cbn. unfold ran, JsonFile.delete, mbind, io_bind, JsonFile.reading.
    rewrite JsonFile.now_start, Hm. by destruct (jm_has k m).
Qed.

(** ** Refinement: a lawful backend is a map

    Whatever fails and when, the successful calls behave as they would on a
    [Map]; the failed ones did nothing. *)

Inductive backend_op := OpLoad | OpSave (r : SlotRecord) | OpDelete (k : string).

Section Refinement.
Context {B F : Type} `{PoolBackendLaws B F}.

Definition run_op (f : F) (op : backend_op) (b : B) : B * result (list SlotRecord) :=
  match op with
  | OpLoad => (b, backend_load f b)
  | OpSave r => let '(b', res) := backend_save f r b in (b', _ ← res; Ok [])
  | OpDelete k => let '(b', res) := backend_delete f k b in (b', _ ← res; Ok [])
  end.

Fixpoint run_ops (ops : list (F * backend_op)) (b : B) : list (result (list SlotRecord)) :=
  match ops with
  | [] => []
  | (f, op) :: ops' => let '(b', res) := run_op f op b in res :: run_ops ops' b'
  end.

Definition op_admissible (op : backend_op) : Prop :=
  match op with OpSave r => admissible r | _ => True end.
End Refinement.

(** What the calls return, checked against a map: a failed call leaves it as it
    was, a load that succeeds lists it. *)
Fixpoint explained (ops : list backend_op) (results : list (result (list SlotRecord)))
  (m : jsmap SlotRecord) : Prop :=
  match ops, results with
  | [], [] => True
  | _ :: ops', Throw _ :: results' => explained ops' results' m
  | OpLoad :: ops', Ok l :: results' => l = jm_values m /\ explained ops' results' m
  | OpSave r :: ops', Ok _ :: results' => explained ops' results' (jm_set (sandboxId r) r m)
  | OpDelete k :: ops', Ok _ :: results' => explained ops' results' (jm_delete k m)
  | _, _ => False
  end.

Section Explained.
Context {B F : Type} `{PoolBackendLaws B F}.

Lemma run_ops_explained ops b m :
  holds b m -> Forall (fun p => op_admissible p.2) ops ->
  explained ops.*2 (run_ops ops b) m.
Proof.
  revert b m. induction ops as [|[f op] ops IH]; intros b m Hb Hadm; [done|].
  apply Forall_cons in Hadm as [Hop Hadm]. rewrite fmap_cons. cbn [run_ops].
  destruct op as [|r|k]; cbn [run_op].
  - destruct (backend_load f b) as [l|] eqn:Hl; cbn; [|by apply IH].
    split; [by eapply load_sound|by apply IH].
  - pose proof (save_spec f r b m Hb Hop) as Hs.
    destruct (backend_save f r b) as [b' []]; cbn; by apply IH.
  - pose proof (delete_spec f k b m Hb) as Hs.
    destruct (backend_delete f k b) as [b' []]; cbn; by apply IH.
Qed.
End Explained.

(** C19. The JSON file behaves as the in-memory map does: in any sequence of
    loads, saves and deletes, with any system call failing at any point, every
    load that succeeds returns exactly the slots of the calls that succeeded
    before it; a failed call changed nothing.  (The slots are records JSON can carry,
    which is what the pool makes.) *)
Theorem json_file_refines_map `{JsRuntime} (ops : list (io_fault * backend_op)) :
  Forall (fun p => op_admissible (B := fs) (F := io_fault) p.2) ops ->
  explained ops.*2 (run_ops ops {| state_file := Missing; temp_files := [] |}) [].
Proof.
  intros Hops. apply run_ops_explained; [|done]. apply json_holds. split_and!; [done| |set_solver].
  split; [by apply NoDup_nil_2|set_solver].
Qed.

Definition failed_rename : io_fault := {| fails := Some io_rename; passes := []; unlink_fails := false |}.

Lemma json_file_refines_map_witness :
  let ops := [(no_io_fault, OpSave sample_record); (failed_rename, OpDelete "mvm-1");
              (no_io_fault, OpLoad)] in
  @run_ops fs io_fault (@JsonFilePoolBackend plain_runtime) ops
    {| state_file := Missing; temp_files := [] |} = [Ok []; Throw OtherError; Ok [sample_record]] /\
  explained ops.*2
    (@run_ops fs io_fault (@JsonFilePoolBackend plain_runtime) ops
       {| state_file := Missing; temp_files := [] |}) [].
Proof.
  split; [vm_compute; reflexivity|]. apply (@json_file_refines_map plain_runtime).
  apply Forall_cons. split; [apply sample_storable|]. repeat constructor.
Defined.

(** The calls of a file backend, and the map each is to leave. *)
Definition file_op `{JsRuntime} (op : backend_op) : io (list SlotRecord) :=
  match op with
  | OpLoad => JsonFile.load
  | OpSave r => _ ← JsonFile.save r; mret []
  | OpDelete k => _ ← JsonFile.delete k; mret []
  end.

Definition after (op : backend_op) (m : jsmap SlotRecord) : jsmap SlotRecord :=
  match op with
  | OpLoad => m
  | OpSave r => jm_set (sandboxId r) r m
  | OpDelete k => jm_delete k m
  end.

(** A call drops its result on the way, and nothing of its run. *)
Lemma moves_ignore `{JsRuntime} {A} f s m m' (action : io A) :
  JsonFile.moves f s m m' action ->
  JsonFile.moves f s m m' (_ ← action; mret ([] : list SlotRecord)).
Proof.
  unfold JsonFile.moves, mbind, io_bind. by destruct (action f (start s)) as [w [a|e]].
Qed.

Lemma file_op_moves `{JsRuntime} f op s m :
  holds s m -> op_admissible (B := fs) (F := io_fault) op ->
  JsonFile.moves f s m (after op m) (file_op op) /\
  keyed (after op m) /\ forall r, r ∈ jm_values (after op m) -> storable r.
Proof.
  intros (Hm & Hk & Hst)%json_holds Hop. destruct op as [|r|k]; cbn [file_op after].
  - split_and!; auto using JsonFile.load_moves.
  - split_and!; auto using moves_ignore, JsonFile.save_moves, keyed_set.
    by intros x [->|]%jm_values_set_elem; auto.
  - split_and!; eauto using moves_ignore, JsonFile.delete_moves, keyed_delete, jm_values_delete_elem.
Qed.

(** C20. A crash at any point of a load, a save or a delete over a state file that can
    be read leaves one that a restarted pool can read: the slots from before the call, or those the
    call stores.  The states a crash can leave are the ones the call's own run
    goes through, one after each of its system calls (opening the temporary, its
    [chmod], every text it holds while it is filled, the [rename], and the removal
    of the temporary when one of them failed), whichever of them fails; the last
    one is the state the call leaves, which holds the new slots if it returned and
    the old ones if it threw.  (The slots are records JSON can carry, which is what
    the pool makes.) *)
Theorem write_crash_safe `{JsRuntime} (f : io_fault) (op : backend_op) (s : fs) (m : jsmap SlotRecord) :
  holds s m -> op_admissible (B := fs) (F := io_fault) op ->
  (forall s', s' ∈ states (file_op op) f s -> holds s' m \/ holds s' (after op m)) /\
  last (states (file_op op) f s) = Some (run_op f op s).1 /\
  holds (run_op f op s).1 (if is_ok (run_op f op s).2 then after op m else m).
Proof.
  intros Hs Hop. destruct (file_op_moves f op s m Hs Hop) as (Hmv & Hk & Hst).
  assert (Hrun : run_op f op s = ran (file_op op) f s).
  { destruct op as [|r|k]; cbn; unfold ran, file_op, mbind, io_bind.
    - unfold JsonFile.load, mbind, io_bind, JsonFile.reading. rewrite JsonFile.now_start.
      destruct (JsonFile.read f s); cbn; by rewrite JsonFile.now_start.
    - by destruct (JsonFile.save r f (start s)) as [w []].
    - by destruct (JsonFile.delete k f (start s)) as [w []]. }
  rewrite Hrun. unfold states, ran. unfold JsonFile.moves in Hmv.
  apply json_holds in Hs as (Hm & Hkm & Hstm).
  destruct (file_op op f (start s)) as [w r]. destruct Hmv as (Hend & Hlast & Hseen).
  split_and!; [|done|].
  - rewrite Forall_forall in Hseen. intros s' Hin. rewrite !json_holds. destruct (Hseen s' Hin); auto.
  - apply json_holds. cbn. destruct (is_ok r); auto.
Qed.

(** A save of one record, in which the temporary goes through a text that is not
    JSON before [rename] fails: nothing that a crash could leave is unreadable. *)
Definition torn_write : io_fault :=
  {| fails := Some io_rename; passes := [NotJson]; unlink_fails := false |}.

Lemma write_crash_safe_witness :
  let empty := {| state_file := Missing; temp_files := [] |} in
  length (states (@file_op plain_runtime (OpSave sample_record)) torn_write empty) = 6 /\
  forall s', s' ∈ states (@file_op plain_runtime (OpSave sample_record)) torn_write empty ->
  @holds fs io_fault (@JsonFilePoolBackend plain_runtime) s' [] \/
  @holds fs io_fault (@JsonFilePoolBackend plain_runtime) s' [("mvm-1", sample_record)].
Proof.
  split; [vm_compute; reflexivity|].
  apply (@write_crash_safe plain_runtime torn_write (OpSave sample_record)
           {| state_file := Missing; temp_files := [] |} []).
  - apply (@json_holds plain_runtime). split_and!; [done|split; [by apply NoDup_nil_2|set_solver]|set_solver].
  - apply sample_storable.
Defined.
