(* ===== verification/Pool.v ===== *)
(** * Pool: the suspended-slot pool as a state machine

    src/clients/typescript/src/pool/pool.ts.  [SandboxPool] runs several async
    functions on one event loop: [start], each [take], each warm-up, the filler,
    [close].  Between two awaits a function runs without interruption; at an await
    any other may run.  Each function is a task with a program counter that names
    the await it stands at and the values it still needs; [resume] is the code
    between that await and the next, with what the awaited call answered.  The
    calls to the control plane and to [Sandbox] may answer anything; the calls to
    the backend go through the queue of [#backendCall] in order, against any
    [PoolBackend].  Clock readings are arguments of each step. *)

From stdpp Require Import base option list strings sets.
From Stdlib Require Import ZArith QArith Lia Permutation.
From S2P Require Import Prelude JsMap Limits PoolCore PoolBackend.

Local Open Scope Z_scope.

Definition SETTLE_ATTEMPTS : nat := 3.

(** The configuration the pool reads while it runs (config.ts validates it). *)
Record pool_params := {
  size : Z;
  fillConcurrency : Z;
  minRemainingMs : Z;
  sweepIntervalMs : Z;
  warmup : list bool;             (** per step: [background] *)
  plane_region : string
}.

(** ** Program counters *)

(** The sweep ([#recycleStale], then [#reconcile]) runs inside [start] and inside
    the filler. *)
Inductive sweep_pc :=
  | S_recycle_forget (now : Z) (id : string) (rest : list SlotRecord)
  | S_recycle_terminate (now : Z) (id : string) (rest : list SlotRecord)
  | S_listing
  | S_repark (r : SlotRecord) (listed : jsmap string) (rest : list SlotRecord)
  | S_check (r : SlotRecord) (listed : jsmap string) (rest : list SlotRecord)
  | S_lose_forget (id : string) (listed : jsmap string) (rest : list SlotRecord).

(** Which await of [#settle] a warm-up stands at. *)
Inductive settle_at := settle_cell | settle_grace | settle_health | settle_wait.

(** Why [#forget] was called by a warm-up. *)
Inductive forget_cause := launch_failed | park_failed | discarded.

Inductive pc :=
  (* take *)
  | T_secrets (waitMs : Z)
  | T_popping (r : SlotRecord)
  | T_missed (waitMs deadline : Z)
  | T_waiting (waitMs deadline : Z)
  | T_woken (waitMs deadline : Z)
  | T_resuming (r : SlotRecord)
  | T_unresumed (r : SlotRecord)
  | T_opening (r : SlotRecord)
  | T_creating (launched : option string)
  | T_gateways (id : string)
  | T_done (id : string)
  | T_unconfigured (id : string) (e : error_class)
  | T_failed (e : error_class)
  (* warm-up *)
  | W_queued
  | W_acquired
  | W_launching (token : string)
  | W_saving (r : SlotRecord)
  | W_save_failed (id : string)
  | W_creating (r : SlotRecord)
  | W_settling (r : SlotRecord) (attempt : nat) (at_ : settle_at)
  | W_step (r : SlotRecord) (rest : list bool)
  | W_pausing (r : SlotRecord)
  | W_ready_saving (id : string)
  | W_forgetting (id : string) (cause : forget_cause)
  | W_terminating (id : string)
  | W_done
  | W_rejected (e : error_class)
  (* filler *)
  | F_pausing
  | F_filled
  | F_waiting
  | F_woken
  | F_sweeping (s : sweep_pc)
  | F_stopped
  | F_rejected (e : error_class)
  (* start *)
  | St_resolving
  | St_loading
  | St_recovering (rest : list SlotRecord)   (** in the loop, between two awaits *)
  | St_deleting (r : SlotRecord) (rest : list SlotRecord)
  | St_terminating (r : SlotRecord) (rest : list SlotRecord)
  | St_sweeping (s : sweep_pc)
  | St_done
  | St_failed (e : error_class)
  (* close *)
  | C_joining (drain : bool)
  | C_settling (drain : bool) (warmUps : list nat)
  | C_draining (rest : list SlotRecord)      (** in the loop, between two awaits *)
  | C_forgetting (id : string) (rest : list SlotRecord)
  | C_terminating (id : string) (rest : list SlotRecord)
  | C_drained
  | C_done
  | C_failed (e : error_class).

(** ** State *)

Record pool := {
  records : jsmap SlotRecord;
  counters : PoolCounters;
  inflight : Z;
  backoff : FillBackoff.t;
  pendingBackoffMs : option Q;
  sweepRequested : bool;
  lastSweep : Z;
  imageArn : option string;
  started : bool;
  closed : bool;
  aborted : bool;                        (** [#abort.signal.aborted] *)
  sem_free : Z;                          (** the semaphore: free permits, *)
  sem_queue : list nat;                  (** and the waiting warm-ups *)
  queue : list (nat * backend_op);       (** [#backendQueue]: caller and call *)
  tasks : list pc
}.

Definition with_records f p := {|
  records := f (records p); counters := counters p; inflight := inflight p; backoff := backoff p;
  pendingBackoffMs := pendingBackoffMs p; sweepRequested := sweepRequested p; lastSweep := lastSweep p;
  imageArn := imageArn p; started := started p; closed := closed p; aborted := aborted p;
  sem_free := sem_free p; sem_queue := sem_queue p; queue := queue p; tasks := tasks p |}.
Definition with_counters f p := {|
  records := records p; counters := f (counters p); inflight := inflight p; backoff := backoff p;
  pendingBackoffMs := pendingBackoffMs p; sweepRequested := sweepRequested p; lastSweep := lastSweep p;
  imageArn := imageArn p; started := started p; closed := closed p; aborted := aborted p;
  sem_free := sem_free p; sem_queue := sem_queue p; queue := queue p; tasks := tasks p |}.
Definition with_inflight f p := {|
  records := records p; counters := counters p; inflight := f (inflight p); backoff := backoff p;
  pendingBackoffMs := pendingBackoffMs p; sweepRequested := sweepRequested p; lastSweep := lastSweep p;
  imageArn := imageArn p; started := started p; closed := closed p; aborted := aborted p;
  sem_free := sem_free p; sem_queue := sem_queue p; queue := queue p; tasks := tasks p |}.
Definition with_backoff b pending p := {|
  records := records p; counters := counters p; inflight := inflight p; backoff := b;
  pendingBackoffMs := pending; sweepRequested := sweepRequested p; lastSweep := lastSweep p;
  imageArn := imageArn p; started := started p; closed := closed p; aborted := aborted p;
  sem_free := sem_free p; sem_queue := sem_queue p; queue := queue p; tasks := tasks p |}.
Definition with_sweep requested last p := {|
  records := records p; counters := counters p; inflight := inflight p; backoff := backoff p;
  pendingBackoffMs := pendingBackoffMs p; sweepRequested := requested; lastSweep := last;
  imageArn := imageArn p; started := started p; closed := closed p; aborted := aborted p;
  sem_free := sem_free p; sem_queue := sem_queue p; queue := queue p; tasks := tasks p |}.
Definition with_image arn p := {|
  records := records p; counters := counters p; inflight := inflight p; backoff := backoff p;
  pendingBackoffMs := pendingBackoffMs p; sweepRequested := sweepRequested p; lastSweep := lastSweep p;
  imageArn := arn; started := started p; closed := closed p; aborted := aborted p;
  sem_free := sem_free p; sem_queue := sem_queue p; queue := queue p; tasks := tasks p |}.
Definition with_flags st cl ab p := {|
  records := records p; counters := counters p; inflight := inflight p; backoff := backoff p;
  pendingBackoffMs := pendingBackoffMs p; sweepRequested := sweepRequested p; lastSweep := lastSweep p;
  imageArn := imageArn p; started := st; closed := cl; aborted := ab;
  sem_free := sem_free p; sem_queue := sem_queue p; queue := queue p; tasks := tasks p |}.
Definition with_sem free q p := {|
  records := records p; counters := counters p; inflight := inflight p; backoff := backoff p;
  pendingBackoffMs := pendingBackoffMs p; sweepRequested := sweepRequested p; lastSweep := lastSweep p;
  imageArn := imageArn p; started := started p; closed := closed p; aborted := aborted p;
  sem_free := free; sem_queue := q; queue := queue p; tasks := tasks p |}.
Definition with_queue f p := {|
  records := records p; counters := counters p; inflight := inflight p; backoff := backoff p;
  pendingBackoffMs := pendingBackoffMs p; sweepRequested := sweepRequested p; lastSweep := lastSweep p;
  imageArn := imageArn p; started := started p; closed := closed p; aborted := aborted p;
  sem_free := sem_free p; sem_queue := sem_queue p; queue := f (queue p); tasks := tasks p |}.
Definition with_tasks f p := {|
  records := records p; counters := counters p; inflight := inflight p; backoff := backoff p;
  pendingBackoffMs := pendingBackoffMs p; sweepRequested := sweepRequested p; lastSweep := lastSweep p;
  imageArn := imageArn p; started := started p; closed := closed p; aborted := aborted p;
  sem_free := sem_free p; sem_queue := sem_queue p; queue := queue p; tasks := f (tasks p) |}.

Definition set_pc (tid : nat) (c : pc) : pool -> pool := with_tasks (fun ts => <[tid := c]> ts).
Definition spawn (c : pc) : pool -> pool := with_tasks (fun ts => ts ++ [c]).
Definition enqueue (tid : nat) (op : backend_op) : pool -> pool := with_queue (fun q => q ++ [(tid, op)]).

Definition bump (t h m l r lo f : Z) (c : PoolCounters) : PoolCounters := {|
  takes := takes c + t; hits := hits c + h; misses := misses c + m; launched := launched c + l;
  recycled := recycled c + r; lost := lost c + lo; failed := failed c + f |}.
Definition count_hit := with_counters (bump 1 1 0 0 0 0 0).
Definition count_miss := with_counters (bump 1 0 1 0 0 0 0).
Definition count_launched := with_counters (bump 0 0 0 1 0 0 0).
Definition count_recycled := with_counters (bump 0 0 0 0 1 0 0).
Definition count_lost := with_counters (bump 0 0 0 0 0 1 0).
Definition count_failed := with_counters (bump 0 0 0 0 0 0 1).

(** ** What a step reads of the world *)

Record env := { now : Z; monotonic : Z; random : Q; fresh_token : string }.

(** What the awaited call answered. *)
Inductive answer :=
  | A_ok
  | A_bool (b : bool)
  | A_throw (e : error_class)
  | A_text (s : string)
  | A_launched (info : SandboxInfo)
  | A_listed (items : jsmap string)
  | A_info (info : SandboxInfo)
  | A_records (l : list SlotRecord)
  | A_timeout.

Section Steps.
Context (params : pool_params).

(** ** Shared helpers *)

Definition is_ready (r : SlotRecord) : bool := bool_decide (state r = ready).

Definition readyRecords (p : pool) : list SlotRecord := List.filter is_ready (jm_values (records p)).

Definition stopping (p : pool) : bool := aborted p.

(** [#notifyAll]: every pending [#waitForWake] resolves. *)
Definition wake (c : pc) : pc :=
  match c with
  | T_waiting w d => T_woken w d
  | F_waiting => F_woken
  | c => c
  end.
Definition notifyAll : pool -> pool := with_tasks (fmap wake).

(** [#forget] up to its await; [None]: it returned false at once. *)
Definition forget (tid : nat) (id : string) (p : pool) : option pool :=
  if jm_has id (records p)
  then Some (enqueue tid (OpDelete id) (with_records (jm_delete id) p))
  else None.

Definition deficit (p : pool) : Z :=
  size params - Z.of_nat (length (readyRecords p)) - inflight p.

Definition msUntilSweep (e : env) (p : pool) : Z :=
  Z.max 0 (sweepIntervalMs params - (monotonic e - lastSweep p)).

Definition sweepDue (e : env) (p : pool) : bool := sweepRequested p || (msUntilSweep e p <=? 0).

Definition requireOpen (p : pool) : result unit :=
  if closed p then Throw PoolClosedError
  else if negb (started p) then Throw PoolClosedError else Ok tt.

(** ** Take *)

Definition popReady (e : env) (tid : nat) (waitMs deadline : Z) (p : pool) : pool :=
  match pickReadySlot (jm_values (records p)) (now e) (minRemainingMs params) with
  | Some r => set_pc tid (T_popping r)
                (enqueue tid (OpDelete (sandboxId r)) (with_records (jm_delete (sandboxId r)) p))
  | None => set_pc tid (T_missed waitMs deadline) p
  end.

(** The end of [#claimReadySlot] with no slot: on to [#fallback]'s [create]. *)
Definition claim_none (tid : nat) (p : pool) : pool := set_pc tid (T_creating None) (notifyAll p).

Definition resume_failed (tid : nat) (r : SlotRecord) (err : option error_class) (p : pool) : pool :=
  let gone := match err with
              | None => true
              | Some e => instance_of e SandboxNotFoundError || instance_of e SandboxStateError
              end in
  set_pc tid (T_unresumed r) (if gone then count_lost p else count_failed p).

Definition resume_take (e : env) (tid : nat) (c : pc) (a : answer) (p : pool) : option pool :=
  match c, a with
  | T_secrets waitMs, A_ok => Some (popReady e tid waitMs (monotonic e + waitMs) p)
  | T_secrets _, A_throw err => Some (set_pc tid (T_failed err) p)
  | T_popping r, A_ok => Some (set_pc tid (T_resuming r) (notifyAll p))
  | T_popping _, A_throw err => Some (set_pc tid (T_failed err) p)
  | T_missed waitMs deadline, A_ok =>
      Some (if negb (waitMs >? 0) then claim_none tid p
            else if deadline - monotonic e <=? 0 then claim_none tid p
            else set_pc tid (T_waiting waitMs deadline) p)
  | T_waiting _ _, A_timeout => Some (claim_none tid p)
  | T_woken waitMs deadline, A_ok =>
      Some (match requireOpen p with
            | Throw err => set_pc tid (T_failed err) p
            | Ok _ => popReady e tid waitMs deadline p
            end)
  | T_resuming r, A_bool true => Some (set_pc tid (T_opening r) p)
  | T_resuming r, A_bool false => Some (resume_failed tid r None p)
  | T_resuming r, A_throw err => Some (resume_failed tid r (Some err) p)
  | T_unresumed _, _ => Some (set_pc tid (T_creating None) p)
  | T_opening r, A_ok => Some (set_pc tid (T_gateways (sandboxId r)) (count_hit p))
  | T_opening _, A_throw _ => Some (set_pc tid (T_creating None) (count_failed p))
  | T_creating None, A_launched info =>
      Some (set_pc tid (T_creating (Some (info_sandboxId info))) (count_launched p))
  | T_creating (Some id), A_ok => Some (set_pc tid (T_gateways id) (count_miss p))
  | T_creating _, A_throw err => Some (set_pc tid (T_failed err) (count_failed p))
  | T_gateways id, A_ok => Some (set_pc tid (T_done id) p)
  | T_gateways id, A_throw err => Some (set_pc tid (T_unconfigured id err) p)
  | _, _ => None
  end.

(** ** Warm-ups *)

(** [semaphore.acquire()] at the start of a new [#warmUp]. *)
Definition spawn_warmUp (p : pool) : pool :=
  if sem_free p >? 0
  then spawn W_acquired (with_sem (sem_free p - 1) (sem_queue p) p)
  else spawn W_queued (with_sem (sem_free p) (sem_queue p ++ [length (tasks p)]) p).

Definition submitWarmUps (p : pool) : pool :=
  if deficit p <=? 0 then p
  else Nat.iter (Z.to_nat (deficit p)) spawn_warmUp (with_inflight (Z.add (deficit p)) p).

(** [semaphore.release()]: the permit goes to the first waiter. *)
Definition release (p : pool) : pool :=
  match sem_queue p with
  | next :: q => set_pc next W_acquired (with_sem (sem_free p) q p)
  | [] => with_sem (sem_free p + 1) [] p
  end.

(** The two [finally] blocks of [#warmUp]. *)
Definition warmUp_finally (tid : nat) (final : pc) (p : pool) : pool :=
  set_pc tid final (notifyAll (with_inflight (fun n => n - 1) (release p))).

(** [#warmUpFailed] (or [#discard]) after its [#forget]. *)
Definition after_forget (e : env) (tid : nat) (id : string) (cause : forget_cause) (p : pool) : pool :=
  let note p := let '(delay, b) := FillBackoff.nextDelayMs (random e) (backoff p) in
                notifyAll (with_backoff b (Some delay) (count_failed p)) in
  match cause with
  | launch_failed => warmUp_finally tid W_done (note p)
  | park_failed => set_pc tid (W_terminating id) (note p)
  | discarded => set_pc tid (W_terminating id) p
  end.

Definition warmUp_forget (e : env) (tid : nat) (id : string) (cause : forget_cause) (p : pool) : pool :=
  match forget tid id p with
  | Some p' => set_pc tid (W_forgetting id cause) p'
  | None => after_forget e tid id cause p
  end.

(** [#runWarmup] from its next step, and [#park] after it. *)
Definition runWarmup (e : env) (tid : nat) (r : SlotRecord) (steps : list bool) (p : pool) : pool :=
  if stopping p then warmUp_forget e tid (sandboxId r) discarded p
  else match steps with
       | [] => set_pc tid (W_pausing r) p
       | _ :: rest => set_pc tid (W_step r rest) p
       end.

Definition recordReady (tid : nat) (r : SlotRecord) (p : pool) : pool :=
  set_pc tid (W_ready_saving (sandboxId r))
    (enqueue tid (OpSave r)
       (with_backoff (FillBackoff.reset (backoff p)) (pendingBackoffMs p)
          (with_records (jm_set (sandboxId r) r) p))).

Definition settle (e : env) (tid : nat) (r : SlotRecord) (attempt : nat) (at_ : settle_at)
  (a : answer) (p : pool) : option pool :=
  match at_, a with
  | settle_cell, A_ok => Some (set_pc tid (W_settling r attempt settle_grace) p)
  | settle_grace, A_ok => Some (set_pc tid (W_settling r attempt settle_health) p)
  | settle_health, A_bool true => Some (runWarmup e tid r (warmup params) p)
  | settle_health, A_bool false => Some (set_pc tid (W_settling r attempt settle_wait) p)
  | settle_wait, A_ok =>
      Some (if Nat.ltb (S attempt) SETTLE_ATTEMPTS
            then set_pc tid (W_settling r (S attempt) settle_cell) p
            else runWarmup e tid r (warmup params) p)
  | settle_grace, A_throw _ => None
  | _, A_throw _ => Some (warmUp_forget e tid (sandboxId r) park_failed p)
  | _, _ => None
  end.

Definition launch_fields (token : string) (st : SlotState) (parked : option Z) : record_fields :=
  {| rf_accessToken := token; rf_region := plane_region params; rf_state := st; rf_parkedAt := parked |}.

Definition resume_warmUp (e : env) (tid : nat) (c : pc) (a : answer) (p : pool) : option pool :=
  match c, a with
  | W_acquired, A_ok => Some (set_pc tid (W_launching (fresh_token e)) p)
  | W_launching token, A_launched info =>
      let r := recordFromInfo info (launch_fields token warming None) in
      Some (set_pc tid (W_saving r) (enqueue tid (OpSave r) p))
  | W_launching _, A_throw _ => Some (after_forget e tid "" launch_failed p)
  | W_saving r, A_ok =>
      Some (set_pc tid (W_creating r) (count_launched (with_records (jm_set (sandboxId r) r) p)))
  | W_saving r, A_throw _ => Some (set_pc tid (W_save_failed (sandboxId r)) p)
  | W_save_failed id, _ => Some (warmUp_forget e tid id launch_failed p)
  | W_creating r, A_ok => Some (set_pc tid (W_settling r 0 settle_cell) p)
  | W_creating r, A_throw _ => Some (warmUp_forget e tid (sandboxId r) launch_failed p)
  | W_settling r attempt at_, a => settle e tid r attempt at_ a p
  | W_step r rest, A_ok => Some (runWarmup e tid r rest p)
  | W_step r _, A_throw _ => Some (warmUp_forget e tid (sandboxId r) park_failed p)
  | W_pausing r, A_info info =>
      if negb (String.eqb (info_sandboxId info) (sandboxId r)) then None
      else Some (if stopping p then warmUp_forget e tid (sandboxId r) discarded p
                 else recordReady tid
                        (recordFromInfo info (launch_fields (accessToken r) ready (Some (now e)))) p)
  | W_pausing r, A_throw _ => Some (warmUp_forget e tid (sandboxId r) park_failed p)
  | W_ready_saving _, A_ok => Some (warmUp_finally tid W_done (notifyAll p))
  | W_ready_saving _, A_throw err => Some (warmUp_finally tid (W_rejected err) p)
  | W_forgetting id cause, A_ok => Some (after_forget e tid id cause (notifyAll p))
  | W_forgetting _ _, A_throw err => Some (warmUp_finally tid (W_rejected err) p)
  | W_terminating _, _ => Some (warmUp_finally tid W_done p)
  | _, _ => None
  end.

(** ** The sweep

    [at_] is where the task stands when it awaits inside the sweep, [finish] what
    it does after it, [fail] what it does when the sweep throws. *)
Section Sweep.
Context (e : env) (tid : nat) (at_ : sweep_pc -> pc) (finish : pool -> pool)
        (fail : error_class -> pool -> pool).

Fixpoint recycleStale (now0 : Z) (rest : list SlotRecord) (p : pool) : pool :=
  match rest with
  | [] => set_pc tid (at_ S_listing) p
  | r :: rest' =>
      if negb (slotIsStale r now0 (minRemainingMs params)) then recycleStale now0 rest' p
      else match forget tid (sandboxId r) p with
           | Some p' => set_pc tid (at_ (S_recycle_forget now0 (sandboxId r) rest')) p'
           | None => recycleStale now0 rest' p
           end
  end.

Fixpoint reconcile (listed : jsmap string) (rest : list SlotRecord) (p : pool) : pool :=
  match rest with
  | [] => finish p
  | r :: rest' =>
      match reconcileAction r (jm_get (sandboxId r) listed) with
      | repark => set_pc tid (at_ (S_repark r listed rest')) p
      | check => set_pc tid (at_ (S_check r listed rest')) p
      | drop_slot =>
          match forget tid (sandboxId r) p with
          | Some p' => set_pc tid (at_ (S_lose_forget (sandboxId r) listed rest')) p'
          | None => reconcile listed rest' p
          end
      | keep => reconcile listed rest' p
      end
  end.

(** [#lose] in the middle of [#reconcile]. *)
Definition lose (r : SlotRecord) (listed : jsmap string) (rest : list SlotRecord) (p : pool) : pool :=
  match forget tid (sandboxId r) p with
  | Some p' => set_pc tid (at_ (S_lose_forget (sandboxId r) listed rest)) p'
  | None => reconcile listed rest p
  end.

Definition sweep (p : pool) : pool :=
  let p := with_sweep false (monotonic e) p in recycleStale (now e) (readyRecords p) p.

Definition resume_sweep (s : sweep_pc) (a : answer) (p : pool) : option pool :=
  match s, a with
  | S_recycle_forget now0 id rest, A_ok =>
      Some (set_pc tid (at_ (S_recycle_terminate now0 id rest)) (count_recycled (notifyAll p)))
  | S_recycle_forget _ _ _, A_throw err => Some (fail err p)
  | S_recycle_terminate now0 _ rest, _ => Some (recycleStale now0 rest p)
  | S_listing, A_listed listed => Some (reconcile listed (readyRecords p) p)
  | S_listing, A_throw _ => Some (finish p)
  | S_repark _ listed rest, _ => Some (reconcile listed rest p)
  | S_check r listed rest, A_info info =>
      Some (if bool_decide (info_state info ∈ TERMINAL_STATES) then lose r listed rest p
            else reconcile listed rest p)
  | S_check r listed rest, A_throw err =>
      Some (if instance_of err SandboxNotFoundError then lose r listed rest p
            else reconcile listed rest p)
  | S_lose_forget _ listed rest, A_ok => Some (reconcile listed rest (count_lost (notifyAll p)))
  | S_lose_forget _ _ _, A_throw err => Some (fail err p)
  | _, _ => None
  end.
End Sweep.

(** ** The filler *)

(** [#fill] after its backoff pause. *)
Definition fill_submit (tid : nat) (p : pool) : pool :=
  set_pc tid F_filled (if stopping p then p else submitWarmUps p).

(** The top of [#runFiller]'s loop, and [#fill] up to its await. *)
Definition runFiller (tid : nat) (p : pool) : pool :=
  if stopping p then set_pc tid F_stopped p
  else match pendingBackoffMs p with
       | Some _ => set_pc tid F_pausing (with_backoff (backoff p) None p)
       | None => fill_submit tid p
       end.

Definition waitForWork (e : env) (tid : nat) (p : pool) : pool :=
  if stopping p || bool_decide (is_Some (pendingBackoffMs p)) then set_pc tid F_woken p
  else if (deficit p >? 0) || sweepDue e p then set_pc tid F_woken p
  else set_pc tid F_waiting p.

Definition resume_filler (e : env) (tid : nat) (c : pc) (a : answer) (p : pool) : option pool :=
  match c, a with
  | F_pausing, A_ok => Some (fill_submit tid p)
  | F_filled, A_ok => Some (waitForWork e tid p)
  | F_waiting, A_timeout => Some (set_pc tid F_woken p)
  | F_woken, A_ok =>
      Some (if negb (stopping p) && sweepDue e p then sweep e tid F_sweeping p
            else runFiller tid p)
  | F_sweeping s, a =>
      resume_sweep tid F_sweeping (runFiller tid) (fun err => set_pc tid (F_rejected err)) s a p
  | _, _ => None
  end.

(** ** Start *)

(** The end of [start]: the semaphore, the flag, and the filler's first segment. *)
Definition finish_start (tid : nat) (p : pool) : pool :=
  let p := with_flags true (closed p) (aborted p) (with_sem (fillConcurrency params) [] p) in
  runFiller (length (tasks p)) (spawn F_filled (set_pc tid St_done p)).

Fixpoint recover (e : env) (tid : nat) (rest : list SlotRecord) (p : pool) : pool :=
  match rest with
  | [] => sweep e tid St_sweeping p
  | r :: rest' =>
      if negb (ownsSlot r (imageArn p)) then recover e tid rest' p
      else match state r with
           | warming => set_pc tid (St_deleting r rest') (enqueue tid (OpDelete (sandboxId r)) p)
           | ready => recover e tid rest' (with_records (jm_set (sandboxId r) r) p)
           end
  end.

Definition resume_start (e : env) (tid : nat) (c : pc) (a : answer) (p : pool) : option pool :=
  match c, a with
  | St_resolving, A_text arn =>
      Some (set_pc tid St_loading (enqueue tid OpLoad (with_image (Some arn) p)))
  | St_resolving, A_throw err => Some (set_pc tid (St_failed err) p)
  | St_loading, A_records l => Some (recover e tid l p)
  | St_loading, A_throw err => Some (set_pc tid (St_failed err) p)
  | St_deleting r rest, A_ok => Some (set_pc tid (St_terminating r rest) (count_lost p))
  | St_deleting _ _, A_throw err => Some (set_pc tid (St_failed err) p)
  | St_terminating _ rest, _ => Some (recover e tid rest p)
  | St_sweeping s, a =>
      resume_sweep tid St_sweeping (finish_start tid) (fun err => set_pc tid (St_failed err)) s a p
  | _, _ => None
  end.

(** ** Close *)

Definition live_warmUp (c : pc) : bool :=
  match c with
  | W_queued | W_acquired | W_launching _ | W_saving _ | W_save_failed _ | W_creating _
  | W_settling _ _ _ | W_step _ _ | W_pausing _ | W_ready_saving _ | W_forgetting _ _
  | W_terminating _ => true
  | _ => false
  end.

(** [#warmUps]. *)
Definition warmUps (p : pool) : list nat :=
  List.filter (fun i => match tasks p !! i with Some c => live_warmUp c | None => false end)
    (seq 0 (length (tasks p))).

Fixpoint drain (tid : nat) (rest : list SlotRecord) (p : pool) : pool :=
  match rest with
  | [] => set_pc tid C_drained p
  | r :: rest' =>
      match forget tid (sandboxId r) p with
      | Some p' => set_pc tid (C_forgetting (sandboxId r) rest') p'
      | None => drain tid rest' p
      end
  end.

Definition filler_pc (c : pc) : bool :=
  match c with
  | F_pausing | F_filled | F_waiting | F_woken | F_sweeping _ | F_stopped | F_rejected _ => true
  | _ => false
  end.

Definition the_filler (p : pool) : option pc := List.find filler_pc (tasks p).

Definition resume_close (tid : nat) (c : pc) (a : answer) (p : pool) : option pool :=
  match c, a with
  | C_joining dr, A_ok =>
      match the_filler p with
      | Some F_stopped => Some (set_pc tid (C_settling dr (warmUps p)) p)
      | Some (F_rejected err) => Some (set_pc tid (C_failed err) p)
      | _ => None
      end
  | C_joining dr, A_timeout => Some (set_pc tid (C_settling dr (warmUps p)) p)
  | C_settling dr ws, A_ok =>
      if forallb (fun i => match tasks p !! i with Some c => negb (live_warmUp c) | None => true end) ws
      then Some (if dr : bool then drain tid (jm_values (records p)) p else set_pc tid C_done p)
      else None
  | C_forgetting id rest, A_ok => Some (set_pc tid (C_terminating id rest) (notifyAll p))
  | C_forgetting _ _, A_throw err => Some (set_pc tid (C_failed err) p)
  | C_terminating _ rest, _ => Some (drain tid rest p)
  | _, _ => None
  end.

Definition resume (e : env) (tid : nat) (c : pc) (a : answer) (p : pool) : option pool :=
  match c with
  | T_secrets _ | T_popping _ | T_missed _ _ | T_waiting _ _ | T_woken _ _ | T_resuming _
  | T_unresumed _ | T_opening _ | T_creating _ | T_gateways _ => resume_take e tid c a p
  | W_queued | W_acquired | W_launching _ | W_saving _ | W_save_failed _ | W_creating _
  | W_settling _ _ _ | W_step _ _ | W_pausing _ | W_ready_saving _ | W_forgetting _ _
  | W_terminating _ => resume_warmUp e tid c a p
  | F_pausing | F_filled | F_waiting | F_woken | F_sweeping _ => resume_filler e tid c a p
  | St_resolving | St_loading | St_deleting _ _ | St_terminating _ _ | St_sweeping _ =>
      resume_start e tid c a p
  | C_joining _ | C_settling _ _ | C_forgetting _ _ | C_terminating _ _ => resume_close tid c a p
  | _ => None
  end.

(** ** The calls *)

(** [take(options)]: [plan_error] is what planning the gateways threw. *)
Definition take (waitMs : Z) (plan_error : option error_class) (p : pool) : pool :=
  match requireOpen p, plan_error with
  | Throw err, _ | Ok _, Some err => spawn (T_failed err) p
  | Ok _, None => spawn (T_secrets waitMs) p
  end.

Definition start (p : pool) : pool :=
  if closed p then spawn (St_failed PoolClosedError) p
  else if started p then spawn St_done p
  else spawn St_resolving p.

Definition close (persistent : bool) (dr : bool) (p : pool) : pool :=
  if negb dr && negb persistent then spawn (C_failed InvalidArgumentError) p
  else if closed p then spawn C_done p
  else let p := notifyAll (with_flags (started p) true true p) in
       match the_filler p with
       | Some _ => spawn (C_joining dr) p
       | None => spawn (C_settling dr (warmUps p)) p
       end.

Definition requestSweep (p : pool) : pool := notifyAll (with_sweep true (lastSweep p) p).

End Steps.

(** ** The system: the pool, its backend, and the ids the platform has issued *)

Section System.
Context {B F : Type} `{PoolBackend B F} (params : pool_params).

Record system := { the_pool : pool; backend_state : B; issued : list string }.

Inductive label :=
  | L_start
  | L_take (waitMs : Z) (plan_error : option error_class)
  | L_close (drain : bool)
  | L_requestSweep
  | L_answer (e : env) (tid : nat) (a : answer)
  | L_backend (e : env) (f : F).

(** The awaits only the backend answers. *)
Definition awaits_backend (c : pc) : bool :=
  match c with
  | T_popping _ | W_saving _ | W_ready_saving _ | W_forgetting _ _
  | F_sweeping (S_recycle_forget _ _ _) | F_sweeping (S_lose_forget _ _ _)
  | St_sweeping (S_recycle_forget _ _ _) | St_sweeping (S_lose_forget _ _ _)
  | St_loading | St_deleting _ _ | C_forgetting _ _ => true
  | _ => false
  end.

Definition start_pending (c : pc) : bool :=
  match c with
  | St_resolving | St_loading | St_recovering _ | St_deleting _ _ | St_terminating _ _
  | St_sweeping _ | St_failed _ => true
  | _ => false
  end.

(** The id a launch announces; the platform never issues one twice. *)
Definition launch_id (a : answer) : option string :=
  match a with A_launched info => Some (info_sandboxId info) | _ => None end.

(** The awaits of [run-microvm]. *)
Definition launching (c : pc) : bool :=
  match c with W_launching _ | T_creating None => true | _ => false end.

Definition backend_answer (op : backend_op) (res : result (list SlotRecord)) : answer :=
  match res, op with
  | Throw err, _ => A_throw err
  | Ok l, OpLoad => A_records l
  | Ok _, _ => A_ok
  end.

Definition on_pool (f : pool -> pool) (s : system) : option system :=
  Some {| the_pool := f (the_pool s); backend_state := backend_state s; issued := issued s |}.

(** One step.  [start] is called once, or again after it succeeded. *)
Definition exec (l : label) (s : system) : option system :=
  match l with
  | L_start => if existsb start_pending (tasks (the_pool s)) then None else on_pool start s
  | L_take waitMs plan_error => on_pool (take waitMs plan_error) s
  | L_close dr => on_pool (close persistent dr) s
  | L_requestSweep => on_pool requestSweep s
  | L_answer e tid a =>
      c ← tasks (the_pool s) !! tid;
      if awaits_backend c then None
      else match launch_id a with
           | Some id => if bool_decide (id ∈ issued s) || negb (launching c) then None
                        else p' ← resume params e tid c a (the_pool s);
                             Some {| the_pool := p'; backend_state := backend_state s;
                                     issued := id :: issued s |}
           | None => p' ← resume params e tid c a (the_pool s);
                     Some {| the_pool := p'; backend_state := backend_state s; issued := issued s |}
           end
  | L_backend e f =>
      match queue (the_pool s) with
      | [] => None
      | (tid, op) :: q =>
          c ← tasks (the_pool s) !! tid;
          let '(b', res) := run_op f op (backend_state s) in
          p' ← resume params e tid c (backend_answer op res) (with_queue (fun _ => q) (the_pool s));
          Some {| the_pool := p'; backend_state := b'; issued := issued s |}
      end
  end.

Definition new_pool (mono : Z) : pool := {|
  records := []; counters := newCounters; inflight := 0; backoff := FillBackoff.new;
  pendingBackoffMs := None; sweepRequested := false; lastSweep := mono; imageArn := None;
  started := false; closed := false; aborted := false; sem_free := 0; sem_queue := [];
  queue := []; tasks := [] |}.

(** A new pool over a backend that holds [m], the slots of an earlier process,
    all of them issued by the platform. *)
Record initial (m : jsmap SlotRecord) (s : system) : Prop := {
  init_pool : exists mono, the_pool s = new_pool mono;
  init_backend : holds (backend_state s) m;
  init_issued : forall r, r ∈ jm_values m -> sandboxId r ∈ issued s
}.

Inductive reachable (s0 : system) : system -> Prop :=
  | reach_init : reachable s0 s0
  | reach_step s l s' : reachable s0 s -> exec l s = Some s' -> reachable s0 s'.

Fixpoint run (ls : list label) (s : system) : option system :=
  match ls with [] => Some s | l :: ls' => s' ← exec l s; run ls' s' end.

Lemma run_reachable ls s0 s s' : reachable s0 s -> run ls s = Some s' -> reachable s0 s'.
Proof.
  revert s. induction ls as [|l ls IH]; intros s Hr; cbn; [by intros [= <-]|].
  destruct (exec l s) eqn:He; [|done]. eapply IH, reach_step; done.
Qed.
End System.

Arguments system : clear implicits.
Arguments label : clear implicits.
