(* ===== verification/PoolSafety.v ===== *)
(** * PoolSafety: who owns a slot, and how many there are

    The pool's concurrent behaviour abstracted to the moves that matter for
    ownership: a slot is launched, registered, parked, claimed by a take, by the
    sweep or by a drain, and released.  Every step of Pool's state machine is a
    sequence of these moves ([exec_moves]), so what the moves preserve holds in
    every reachable state of the pool, whatever the interleaving. *)

From stdpp Require Import base option list strings sets relations.
From Stdlib Require Import ZArith QArith Lia Permutation.
From S2P Require Import Prelude JsMap Limits PoolCore PoolBackend Pool.

Local Open Scope Z_scope.

(** ** The slots a task holds *)

Definition sweep_owns (s : sweep_pc) : list string :=
  match s with
  | S_recycle_forget _ id _ | S_recycle_terminate _ id _ | S_lose_forget id _ _ => [id]
  | _ => []
  end.

Definition owns (c : pc) : list string :=
  match c with
  | T_popping r | T_resuming r | T_unresumed r | T_opening r => [sandboxId r]
  | T_creating (Some id) | T_gateways id | T_done id | T_unconfigured id _ => [id]
  | W_saving r | W_creating r | W_settling r _ _ | W_step r _ | W_pausing r => [sandboxId r]
  | W_save_failed id | W_forgetting id _ | W_terminating id => [id]
  | F_sweeping s | St_sweeping s => sweep_owns s
  | St_recovering rest => sandboxId <$> rest
  | St_deleting r rest | St_terminating r rest => sandboxId r :: (sandboxId <$> rest)
  | C_forgetting id _ | C_terminating id _ => [id]
  | _ => []
  end.

(** The record of a warm-up that is registered in [#records] as warming. *)
Definition registered (c : pc) : option string :=
  match c with
  | W_creating r | W_settling r _ _ | W_step r _ | W_pausing r => Some (sandboxId r)
  | _ => None
  end.

(** A take that returned a sandbox to its caller, or is about to. *)
Definition served (c : pc) : bool :=
  match c with T_gateways _ | T_done _ | T_unconfigured _ _ => true | _ => false end.

(** A warm-up that holds a permit of the semaphore. *)
Definition running (c : pc) : bool :=
  match c with W_queued => false | c => live_warmUp c end.

(** What a task may still add to the parked slots. *)
Definition pending (c : pc) : nat :=
  match c with
  | W_queued | W_acquired | W_launching _ | W_saving _ | W_save_failed _ | W_creating _
  | W_settling _ _ _ | W_step _ _ | W_pausing _ => 1
  | St_recovering rest | St_deleting _ rest | St_terminating _ rest => length rest
  | _ => 0
  end.

(** The slots a drain still has to look at. *)
Definition drain_rest (c : pc) : option (list SlotRecord) :=
  match c with
  | C_draining rest | C_forgetting _ rest | C_terminating _ rest => Some rest
  | C_drained => Some []
  | _ => None
  end.

Definition start_pc (c : pc) : bool :=
  match c with St_done => true | c => start_pending c end.

(** A [start] under way. *)
Definition starting (c : pc) : bool :=
  match c with St_failed _ => false | c => start_pending c end.

(** Before the backend has been loaded. *)
Definition before_load (c : pc) : bool :=
  match c with St_resolving | St_loading => true | _ => false end.

(** The tasks there can be before the pool has started: refused takes, closes. *)
Definition quiet (c : pc) : bool :=
  match c with
  | St_resolving | St_loading | T_failed _ | C_joining _ | C_settling _ _ | C_draining []
  | C_drained | C_done | C_failed _ => true
  | _ => false
  end.

(** The slots a sweep still has to look at: parked when it listed them. *)
Definition sweep_snapshot (s : sweep_pc) : list string :=
  match s with
  | S_recycle_forget _ _ rest | S_recycle_terminate _ _ rest | S_repark _ _ rest
  | S_lose_forget _ _ rest => sandboxId <$> rest
  | S_check r _ rest => sandboxId r :: (sandboxId <$> rest)
  | S_listing => []
  end.

Definition snapshot (c : pc) : list string :=
  match c with F_sweeping s | St_sweeping s => sweep_snapshot s | _ => [] end.

Inductive kind := k_take | k_warm | k_fill | k_start | k_close.

#[export] Instance kind_eq_dec : EqDecision kind.
Proof. solve_decision. Defined.

Definition kind_of (c : pc) : kind :=
  match c with
  | T_secrets _ | T_popping _ | T_missed _ _ | T_waiting _ _ | T_woken _ _ | T_resuming _
  | T_unresumed _ | T_opening _ | T_creating _ | T_gateways _ | T_done _ | T_unconfigured _ _
  | T_failed _ => k_take
  | W_queued | W_acquired | W_launching _ | W_saving _ | W_save_failed _ | W_creating _
  | W_settling _ _ _ | W_step _ _ | W_pausing _ | W_ready_saving _ | W_forgetting _ _
  | W_terminating _ | W_done | W_rejected _ => k_warm
  | F_pausing | F_filled | F_waiting | F_woken | F_sweeping _ | F_stopped | F_rejected _ => k_fill
  | St_resolving | St_loading | St_recovering _ | St_deleting _ _ | St_terminating _ _
  | St_sweeping _ | St_done | St_failed _ => k_start
  | C_joining _ | C_settling _ _ | C_draining _ | C_forgetting _ _ | C_terminating _ _
  | C_drained | C_done | C_failed _ => k_close
  end.

Definition closing (c : pc) : bool :=
  match c with
  | C_joining _ | C_settling _ _ | C_draining _ | C_forgetting _ _ | C_terminating _ _
  | C_drained => true
  | _ => false
  end.

(** ** Sums over the tasks *)

Fixpoint tsum (f : pc -> nat) (ts : list pc) : nat :=
  match ts with [] => 0 | c :: ts' => f c + tsum f ts' end.

Lemma tsum_app f ts ts' : tsum f (ts ++ ts') = (tsum f ts + tsum f ts')%nat.
Proof. induction ts as [|c ts IH]; cbn; [done|]. rewrite IH. lia. Qed.

Lemma tsum_insert f ts tid c c' :
  ts !! tid = Some c -> (tsum f (<[tid := c']> ts) + f c = tsum f ts + f c')%nat.
Proof.
  revert tid. induction ts as [|x ts IH]; intros [|tid] H; [done|done| |].
  - injection H as ->. change (<[0%nat := c']> (c :: ts)) with (c' :: ts). cbn [tsum]. lia.
  - change (<[S tid := c']> (x :: ts)) with (x :: <[tid := c']> ts). cbn [tsum].
    specialize (IH tid H). lia.
Qed.

Lemma tsum_wake f ts : (forall c, f (wake c) = f c) -> tsum f (wake <$> ts) = tsum f ts.
Proof. intros Hf. induction ts as [|c ts IH]; cbn in *; [done|]. rewrite Hf. lia. Qed.

Lemma tsum_zero f ts : (forall tid c, ts !! tid = Some c -> f c = 0%nat) -> tsum f ts = 0%nat.
Proof.
  induction ts as [|c ts IH]; intros H; cbn in *; [done|].
  rewrite (H 0%nat c eq_refl), IH; [done|]. intros tid c' Hc. by apply (H (S tid)).
Qed.

Lemma tsum_member f ts tid c : ts !! tid = Some c -> (f c <= tsum f ts)%nat.
Proof.
  revert tid. induction ts as [|x ts IH]; intros [|tid] H; cbn in *; [done|done| |].
  - injection H as ->. lia.
  - specialize (IH tid H). lia.
Qed.

(** Two tasks at different places contribute both. *)
Lemma tsum_members f ts i j ci cj :
  i <> j -> ts !! i = Some ci -> ts !! j = Some cj -> (f ci + f cj <= tsum f ts)%nat.
Proof.
  revert i j. induction ts as [|x ts IH]; intros [|i] [|j] Hne Hi Hj; cbn in *; try done.
  - injection Hi as ->. pose proof (tsum_member f ts j cj Hj). lia.
  - injection Hj as ->. pose proof (tsum_member f ts i ci Hi). lia.
  - assert (i <> j) by congruence. specialize (IH i j H Hi Hj). lia.
Qed.

Definition b2n (b : bool) : nat := if b then 1%nat else 0%nat.

(** [id] is parked in the pool. *)
Definition rdy (id : string) (m : jsmap SlotRecord) : nat :=
  match jm_get id m with Some r => b2n (is_ready r) | None => 0 end.

(** How often a task holds [id]. *)
Definition own (id : string) (c : pc) : nat := count_occ String.string_dec (owns c) id.

(** ** The abstract machine *)

Record core := {
  recs : jsmap SlotRecord;
  cnts : PoolCounters;
  infl : Z;
  free : Z;
  sq : list nat;
  strt : bool;
  abrt : bool;
  tks : list pc;
  iss : list string
}.

Definition k_tasks ts k := {| recs := recs k; cnts := cnts k; infl := infl k; free := free k; sq := sq k;
  strt := strt k; abrt := abrt k; tks := ts; iss := iss k |}.
Definition k_recs m k := {| recs := m; cnts := cnts k; infl := infl k; free := free k; sq := sq k;
  strt := strt k; abrt := abrt k; tks := tks k; iss := iss k |}.
Definition k_cnts c k := {| recs := recs k; cnts := c; infl := infl k; free := free k; sq := sq k;
  strt := strt k; abrt := abrt k; tks := tks k; iss := iss k |}.
Definition k_sem i f q k := {| recs := recs k; cnts := cnts k; infl := i; free := f; sq := q;
  strt := strt k; abrt := abrt k; tks := tks k; iss := iss k |}.
Definition k_flags st ab k := {| recs := recs k; cnts := cnts k; infl := infl k; free := free k; sq := sq k;
  strt := st; abrt := ab; tks := tks k; iss := iss k |}.
Definition k_iss i k := {| recs := recs k; cnts := cnts k; infl := infl k; free := free k; sq := sq k;
  strt := strt k; abrt := abrt k; tks := tks k; iss := i |}.

Definition k_set tid c k := k_tasks (<[tid := c]> (tks k)) k.

Definition ready_count (m : jsmap SlotRecord) : nat := length (List.filter is_ready (jm_values m)).

Section Moves.
Context (sz conc : Z) (bound : nat).

(** A task moves on alone: it takes nothing, registers nothing, ends nothing. *)
Record goes (k : core) (c c' : pc) : Prop := {
  g_kind : kind_of c' = kind_of c;
  g_own : forall id, (own id c' <= own id c)%nat;
  g_served : served c' = served c;
  g_live : live_warmUp c' = live_warmUp c;
  g_running : running c' = running c;
  g_registered : registered c' = registered c \/
    (registered c' = None /\ forall id, registered c = Some id -> jm_get id (recs k) = None);
  g_saving : forall r, c' <> W_saving r;
  g_pending : (pending c' <= pending c)%nat;
  g_start : starting c' = true -> starting c = true;
  g_not_done : c' <> St_done;
  g_load : before_load c' = true -> before_load c = true;
  g_quiet : quiet c = true -> quiet c' = true \/ kind_of c = k_start;
  g_closing : closing c' = true -> closing c = true;
  g_settling : forall dr ws, c' = C_settling dr ws ->
    forall i ci, tks k !! i = Some ci -> live_warmUp ci = true -> i ∈ ws;
  g_snapshot : forall id, id ∈ snapshot c' -> id ∈ snapshot c \/ rdy id (recs k) = 1%nat;
  g_drain : forall rest', drain_rest c' = Some rest' -> exists rest, drain_rest c = Some rest /\
    forall key, key ∈ jm_keys (recs k) -> key ∈ sandboxId <$> rest -> key ∈ sandboxId <$> rest'
}.


(** What a new task may be: it holds nothing yet. *)
Record may_spawn (k : core) (c : pc) : Prop := {
  s_own : owns c = [];
  s_served : served c = false;
  s_live : live_warmUp c = false;
  s_fill : kind_of c <> k_fill;
  s_pending : pending c = 0%nat;
  s_quiet : quiet c = true \/ strt k = true \/ (start_pc c = true /\ before_load c = false);
  s_start : starting c = true -> forall i ci, tks k !! i = Some ci -> start_pc ci = false;
  s_one : start_pc c = true -> forall i ci, tks k !! i = Some ci -> starting ci = false;
  s_pre : starting c = true -> strt k = false;
  s_done : c = St_done -> strt k = true;
  s_closing : closing c = true -> abrt k = true;
  s_settling : forall dr ws, c = C_settling dr ws ->
    forall i ci, tks k !! i = Some ci -> live_warmUp ci = true -> i ∈ ws;
  s_drain : drain_rest c = None;
  s_snapshot : snapshot c = []
}.

(** A task takes a record out of [#records] and holds its slot. *)
Record claims (k : core) (c c' : pc) (id : string) (r : SlotRecord) : Prop := {
  c_kind : kind_of c' = kind_of c;
  c_not_warm : kind_of c <> k_warm;
  c_own' : owns c' = [id];
  c_ready : kind_of c <> k_close -> is_ready r = true;
  c_draining : kind_of c = k_close -> is_Some (drain_rest c);
  c_served : served c = false /\ served c' = false;
  c_pending : (pending c' <= pending c)%nat;
  c_start : starting c' = true -> starting c = true;
  c_not_done : c' <> St_done;
  c_load : before_load c' = false;
  c_closing : closing c' = true -> closing c = true;
  c_settling : forall dr ws, c' <> C_settling dr ws;
  c_snapshot : forall i, i ∈ snapshot c' -> i ∈ snapshot c \/ rdy i (recs k) = 1%nat;
  c_drain : forall rest', drain_rest c' = Some rest' -> exists rest, drain_rest c = Some rest /\
    forall key, key <> id -> key ∈ sandboxId <$> rest -> key ∈ sandboxId <$> rest'
}.

Definition spawn_warm (k : core) : core :=
  if free k >? 0
  then k_tasks (tks k ++ [W_acquired]) (k_sem (infl k + 1) (free k - 1) (sq k) k)
  else k_tasks (tks k ++ [W_queued]) (k_sem (infl k + 1) (free k) (sq k ++ [length (tks k)]) k).

Definition release_core (k : core) : core :=
  match sq k with
  | next :: q => k_tasks (<[next := W_acquired]> (tks k)) (k_sem (infl k) (free k) q k)
  | [] => k_sem (infl k) (free k + 1) [] k
  end.

Inductive move : core -> core -> Prop :=
  | mv_wake k : move k (k_tasks (wake <$> tks k) k)
  | mv_count k l rc lo fl : move k (k_cnts (bump 0 0 0 l rc lo fl (cnts k)) k)
  | mv_goto k tid c c' : tks k !! tid = Some c -> goes k c c' -> move k (k_set tid c' k)
  | mv_serve k tid c c' h m :
      tks k !! tid = Some c -> kind_of c = k_take -> kind_of c' = k_take ->
      served c = false -> served c' = true -> owns c' = owns c -> h + m = 1 ->
      move k (k_set tid c' (k_cnts (bump 1 h m 0 0 0 0 (cnts k)) k))
  | mv_spawn k c : may_spawn k c -> move k (k_tasks (tks k ++ [c]) k)
  | mv_claim k tid c c' id r :
      tks k !! tid = Some c -> jm_get id (recs k) = Some r -> claims k c c' id r ->
      move k (k_set tid c' (k_recs (jm_delete id (recs k)) k))
  | mv_unregister k tid c id cause :
      tks k !! tid = Some c -> running c = true -> owns c = [id] ->
      move k (k_set tid (W_forgetting id cause) (k_recs (jm_delete id (recs k)) k))
  | mv_launch k tid c c' id :
      tks k !! tid = Some c -> id ∉ iss k ->
      (exists token r, c = W_launching token /\ c' = W_saving r /\ is_ready r = false /\ sandboxId r = id) \/
      (c = T_creating None /\ c' = T_creating (Some id)) ->
      move k (k_set tid c' (k_iss (id :: iss k) k))
  | mv_register k tid r :
      tks k !! tid = Some (W_saving r) ->
      move k (k_set tid (W_creating r) (k_recs (jm_set (sandboxId r) r (recs k)) k))
  | mv_park k tid r r' :
      tks k !! tid = Some (W_pausing r) -> abrt k = false ->
      sandboxId r' = sandboxId r -> is_ready r' = true ->
      move k (k_set tid (W_ready_saving (sandboxId r')) (k_recs (jm_set (sandboxId r') r' (recs k)) k))
  | mv_finally k tid c c' :
      tks k !! tid = Some c -> running c = true -> (c' = W_done \/ exists e, c' = W_rejected e) ->
      (forall id, registered c = Some id -> jm_get id (recs k) = None) ->
      move k (k_set tid c' (k_sem (infl (release_core k) - 1) (free (release_core k))
                              (sq (release_core k)) (release_core k)))
  | mv_warm k :
      abrt k = false -> strt k = true ->
      sz - Z.of_nat (ready_count (recs k)) - infl k > 0 -> move k (spawn_warm k)
  | mv_load k tid l :
      tks k !! tid = Some St_loading -> NoDup (sandboxId <$> l) ->
      (forall r, r ∈ l -> sandboxId r ∈ iss k) -> (length l <= bound)%nat ->
      move k (k_set tid (St_recovering l) k)
  | mv_recover k tid r rest :
      tks k !! tid = Some (St_recovering (r :: rest)) -> is_ready r = true ->
      move k (k_set tid (St_recovering rest) (k_recs (jm_set (sandboxId r) r (recs k)) k))
  | mv_started k tid c :
      tks k !! tid = Some c -> starting c = true -> before_load c = false ->
      move k (k_tasks (<[tid := St_done]> (tks k) ++ [F_filled])
                (k_flags true (abrt k) (k_sem (infl k) conc [] k)))
  | mv_abort k : move k (k_flags (strt k) true k)
  | mv_drain k tid dr ws :
      tks k !! tid = Some (C_settling dr ws) ->
      (forall i ci, i ∈ ws -> tks k !! i = Some ci -> live_warmUp ci = false) ->
      move k (k_set tid (C_draining (jm_values (recs k))) k).

End Moves.

(** ** Phases: start, then run, then close *)

Definition early (k : core) : Prop :=
  recs k = [] /\ strt k = false /\ forall i c, tks k !! i = Some c -> quiet c = true.

Record phases (k : core) : Prop := {
  a_early : (exists i c, tks k !! i = Some c /\ before_load c = true) \/
            (forall i c, tks k !! i = Some c -> start_pc c = false) -> early k;
  a_one : forall i j ci cj, tks k !! i = Some ci -> tks k !! j = Some cj ->
    starting ci = true -> starting cj = true -> i = j;
  a_strt : strt k = true -> forall i c, tks k !! i = Some c -> starting c = false;
  a_done : forall i, tks k !! i = Some St_done -> strt k = true;
  a_live : forall i c, tks k !! i = Some c -> live_warmUp c = true \/ kind_of c = k_fill -> strt k = true;
  a_abort : forall i c, tks k !! i = Some c -> closing c = true -> abrt k = true;
  a_settle : forall i dr ws, tks k !! i = Some (C_settling dr ws) ->
    forall j c, tks k !! j = Some c -> live_warmUp c = true -> j ∈ ws;
  a_drain : forall i c, tks k !! i = Some c -> is_Some (drain_rest c) ->
    forall j cj, tks k !! j = Some cj -> live_warmUp cj = false;
  a_queue : NoDup (sq k) /\ forall n, n ∈ sq k -> tks k !! n = Some W_queued
}.

Lemma lookup_set (ts : list pc) tid c' i ci :
  <[tid := c']> ts !! i = Some ci -> (i = tid /\ ci = c') \/ (i <> tid /\ ts !! i = Some ci).
Proof. intros [(-> & <- & _)|(? & ?)]%list_lookup_insert_Some; auto. Qed.

Lemma lookup_snoc (ts : list pc) c i ci :
  (ts ++ [c]) !! i = Some ci -> (i = length ts /\ ci = c) \/ ts !! i = Some ci.
Proof.
  intros [?|[Hle Hi]]%lookup_app_Some; [by right|]. left.
  destruct (i - length ts)%nat as [|n] eqn:Hn; [|by destruct n]. injection Hi as <-. split; [lia|done].
Qed.

Lemma lookup_wake (ts : list pc) i ci :
  (wake <$> ts) !! i = Some ci -> exists c, ts !! i = Some c /\ ci = wake c.
Proof. rewrite list_lookup_fmap. destruct (ts !! i); [|done]. intros [= <-]. eauto. Qed.

(** What the classifications see of a woken task. *)
Lemma wake_same {A} (f : pc -> A) (c : pc) :
  (forall w d, f (T_woken w d) = f (T_waiting w d)) -> f F_woken = f F_waiting -> f (wake c) = f c.
Proof. intros H1 H2. by destruct c; cbn. Qed.

(** Before the load, no other task matters. *)
Lemma quiet_inert c : quiet c = true ->
  owns c = [] /\ live_warmUp c = false /\ kind_of c <> k_fill /\ pending c = 0%nat /\ served c = false /\
  registered c = None.
Proof. by destruct c as []; try destruct rest. Qed.

Lemma starting_start c : starting c = true -> start_pc c = true.
Proof. by destruct c. Qed.

Lemma before_load_starting c : before_load c = true -> starting c = true.
Proof. by destruct c. Qed.

Lemma start_pc_kind c : start_pc c = bool_decide (kind_of c = k_start).
Proof. by destruct c. Qed.

Lemma quiet_start c : quiet c = true -> kind_of c = k_start -> before_load c = true.
Proof. by destruct c as []; try destruct rest. Qed.

(** One task moves from [c] to [c'], keeping to its phase. *)
Lemma phases_set k k' tid c c' :
  tks k !! tid = Some c -> tks k' = <[tid := c']> (tks k) ->
  strt k' = strt k -> abrt k' = abrt k -> sublist (sq k') (sq k) ->
  kind_of c' = kind_of c -> (before_load c' = true -> before_load c = true) ->
  (early k -> quiet c' = true \/ kind_of c = k_start) ->
  (starting c' = true -> starting c = true) -> c' <> St_done ->
  (live_warmUp c' = true -> live_warmUp c = true) -> (closing c' = true -> closing c = true) ->
  (forall dr ws, c' = C_settling dr ws ->
     forall i ci, tks k !! i = Some ci -> live_warmUp ci = true -> i ∈ ws) ->
  (is_Some (drain_rest c') -> is_Some (drain_rest c) \/
     forall j cj, tks k !! j = Some cj -> live_warmUp cj = false) ->
  (c = W_queued -> tid ∈ sq k' -> c' = W_queued) -> (early k -> recs k' = []) ->
  phases k -> phases k'.
Proof.
  intros Hc Ht Hs Ha Hq Hkind Hload Hquiet Hstarting Hdone Hlive Hclosing Hsettle Hdrain Hqueued Hrecs P.
  assert (Hlk : forall i ci, tks k' !! i = Some ci ->
            (i = tid /\ ci = c') \/ (i <> tid /\ tks k !! i = Some ci)).
  { intros i ci. rewrite Ht. apply lookup_set. }
  assert (Hold : forall i ci, tks k' !! i = Some ci -> live_warmUp ci = true ->
            exists co, tks k !! i = Some co /\ live_warmUp co = true).
  { intros i ci [[-> ->]|[_ Hi]]%Hlk Hl; eauto. }
  split.
  - intros Hpre. assert (He : early k).
    { apply (a_early k P). destruct Hpre as [(i & ci & Hi & Hb)|Hno].
      - left. apply Hlk in Hi as [[-> ->]|[_ Hi]]; eauto.
      - right. intros i ci Hi. destruct (decide (i = tid)) as [->|Hne].
        + rewrite Hc in Hi. injection Hi as <-. rewrite start_pc_kind, <- Hkind, <- start_pc_kind.
          apply (Hno tid). rewrite Ht. apply list_lookup_insert_eq. by eapply lookup_lt_Some.
        + apply (Hno i). by rewrite Ht, list_lookup_insert_ne. }
    pose proof He as (He1 & He2 & He3). split_and!; [auto|congruence|].
    intros i ci [[-> ->]|[_ Hi]]%Hlk; [|by apply (He3 i)].
    destruct (Hquiet He) as [?|Hks]; [done|].
    pose proof (quiet_start c (He3 _ _ Hc) Hks) as Hbl.
    destruct Hpre as [(i & ci & Hi & Hb)|Hno].
    + apply Hlk in Hi as [[-> ->]|[Hne Hi]]; [by destruct c'|].
      destruct Hne. by eapply (a_one k P); eauto using before_load_starting.
    + assert (Hno' : start_pc c' = false).
      { apply (Hno tid). rewrite Ht. apply list_lookup_insert_eq. by eapply lookup_lt_Some. }
      rewrite start_pc_kind, Hkind, bool_decide_eq_true_2 in Hno' by done. done.
  - intros i j ci cj Hi Hj Hsi Hsj.
    apply Hlk in Hi as [[-> ->]|[? Hi]]; apply Hlk in Hj as [[-> ->]|[? Hj]]; eauto using a_one.
  - intros Hst i ci [[-> ->]|[_ Hi]]%Hlk; rewrite Hs in Hst.
    + pose proof (a_strt k P Hst tid c Hc). destruct (starting c'); [|done]. by rewrite Hstarting in *.
    + eauto using a_strt.
  - intros i [[_ ?]|[_ Hi]]%Hlk; [done|]. rewrite Hs. eauto using a_done.
  - intros i ci [[-> ->]|[_ Hi]]%Hlk Hor; rewrite Hs; [|eauto using a_live].
    eapply (a_live k P); [exact Hc|]. rewrite Hkind in Hor. naive_solver.
  - intros i ci [[-> ->]|[_ Hi]]%Hlk ?; rewrite Ha; eauto using a_abort.
  - intros i dr ws [[-> <-]|[_ Hi]]%Hlk j cj Hj Hl; apply (Hold j) in Hj as (co & Hco & ?); eauto using a_settle.
  - intros i ci Hi Hd j cj Hj. destruct (live_warmUp cj) eqn:Hl; [|done].
    apply (Hold j) in Hj as (co & Hco & Hlo); [|done].
    enough (live_warmUp co = false) by congruence.
    apply Hlk in Hi as [[-> ->]|[_ Hi]]; [destruct (Hdrain Hd)|]; eauto using a_drain.
  - split; [by eapply sublist_NoDup; [apply (a_queue k P)|exact Hq]|]. intros n Hn.
    assert (Hn' : n ∈ sq k) by (by eapply elem_of_submseteq; [exact Hn|by apply sublist_submseteq]).
    apply (a_queue k P) in Hn'. rewrite Ht. destruct (decide (n = tid)) as [->|Hne]; [|by rewrite list_lookup_insert_ne].
    rewrite Hc in Hn'. injection Hn' as ->. rewrite Hqueued by done.
    apply list_lookup_insert_eq. by eapply lookup_lt_Some.
Qed.

Lemma goes_queued k c c' : goes k c c' -> c = W_queued -> c' = W_queued.
Proof. intros G ->. pose proof (g_live k _ _ G). pose proof (g_running k _ _ G). by destruct c'. Qed.

Lemma running_live c : running c = true -> live_warmUp c = true /\ kind_of c = k_warm /\ c <> W_queued.
Proof. by destruct c. Qed.

Lemma live_warm c : live_warmUp c = true -> kind_of c = k_warm /\ quiet c = false /\ closing c = false /\
  starting c = false /\ drain_rest c = None /\ before_load c = false.
Proof. by destruct c. Qed.

(** Before the load nothing but the start is under way. *)
Lemma early_quiet k i c : early k -> tks k !! i = Some c -> quiet c = true.
Proof. intros (_ & _ & H). apply H. Qed.

Lemma phases_goto k tid c c' :
  tks k !! tid = Some c -> goes k c c' -> phases k -> phases (k_set tid c' k).
Proof.
  intros Hc G. pose proof (goes_queued k c c' G). destruct G.
  eapply (phases_set k _ tid c c'); try done; try reflexivity.
  - intros He. apply g_quiet0. by eapply early_quiet.
  - by rewrite g_live0.
  - intros [rest Hr]. destruct (g_drain0 rest Hr) as (rest0 & ? & _). left; eauto.
  - auto.
  - by intros (? & _).
Qed.

Lemma phases_claim k tid c c' id r :
  tks k !! tid = Some c -> jm_get id (recs k) = Some r -> claims k c c' id r ->
  phases k -> phases (k_set tid c' (k_recs (jm_delete id (recs k)) k)).
Proof.
  intros Hc Hr []. assert (He : ~ early k) by (intros (E & _); by rewrite E in Hr).
  eapply (phases_set k _ tid c c'); try done; try reflexivity.
  - by rewrite c_load0.
  - intros Hl. apply live_warm in Hl as [Hl _]. congruence.
  - intros dr ws ->. by destruct (c_settling0 dr ws).
  - intros [rest Hd]. destruct (c_drain0 rest Hd) as (rest0 & ? & _). left; eauto.
  - by intros ->.
Qed.

(** A warm-up moves on, whatever it does to the records: the pool has started. *)
Lemma phases_warm k k' tid c c' :
  tks k !! tid = Some c -> tks k' = <[tid := c']> (tks k) -> running c = true -> kind_of c' = k_warm ->
  strt k' = strt k -> abrt k' = abrt k -> sq k' = sq k -> phases k -> phases k'.
Proof.
  intros Hc Ht Hr Hk' Hs Ha Hq P. apply running_live in Hr as (Hl & Hk & Hnq).
  assert (He : ~ early k).
  { intros He. pose proof (early_quiet k tid c He Hc). apply live_warm in Hl as (_ & ? & _). congruence. }
  eapply (phases_set k k' tid c c'); try done; try (by destruct c'); try congruence.
  - by rewrite Hq.
  - intros [? Hd]. by destruct c'.
Qed.

Lemma phases_release k : phases k -> phases (release_core k).
Proof.
  intros P. unfold release_core. destruct (a_queue k P) as [Hnd Hall].
  destruct (sq k) as [|n q] eqn:Hq.
  - destruct P. split; cbn; auto.
  - assert (Hn : tks k !! n = Some W_queued) by (apply Hall; set_solver).
    apply NoDup_cons in Hnd as [Hnot Hnd].
    eapply (phases_set k _ n W_queued W_acquired); try done.
    + rewrite Hq. cbn. by apply sublist_cons.
    + intros He. by pose proof (early_quiet _ n _ He Hn).
    + by intros [? ?].
    + by intros (? & _).
Qed.

Lemma phases_spawn k c : may_spawn k c -> phases k -> phases (k_tasks (tks k ++ [c]) k).
Proof.
  intros [] P. pose proof (starting_start c) as Hss. split; cbn.
  - intros Hpre.
    assert (Hc : (tks k ++ [c]) !! length (tks k) = Some c) by (by rewrite list_lookup_middle).
    assert (Hold : forall i ci, tks k !! i = Some ci -> (tks k ++ [c]) !! i = Some ci)
      by (intros; by apply lookup_app_l_Some).
    assert (He : early k).
    { apply (a_early k P). destruct Hpre as [(i & ci & Hi & Hb)|Hno].
      - apply lookup_snoc in Hi as [[-> ->]|Hi]; [|by left; eauto]. right.
        intros i ci Hi. apply (s_start0 (before_load_starting _ Hb) i ci Hi).
      - right. eauto. }
    destruct He as (He1 & He2 & He3). split_and!; [done..|].
    intros i ci [[-> ->]|Hi]%lookup_snoc; [|by eapply He3].
    destruct s_quiet0 as [?|[?|[Hs Hb]]]; [done|congruence|].
    destruct Hpre as [(i & ci & Hi & Hbi)|Hno]; [|by rewrite (Hno _ _ Hc) in Hs].
    apply lookup_snoc in Hi as [[-> ->]|Hi]; [congruence|].
    pose proof (s_one0 Hs i ci Hi). apply before_load_starting in Hbi. congruence.
  - intros i j ci cj [[-> ->]|Hi]%lookup_snoc [[-> ->]|Hj]%lookup_snoc Hsi Hsj; [done|..|eauto using a_one].
    + pose proof (s_start0 Hsi j cj Hj). apply starting_start in Hsj. congruence.
    + pose proof (s_start0 Hsj i ci Hi). apply starting_start in Hsi. congruence.
  - intros Hst i ci [[-> ->]|Hi]%lookup_snoc; [|eauto using a_strt].
    destruct (starting c) eqn:E; [|done]. rewrite s_pre0 in Hst; done.
  - intros i [[_ Hi]|Hi]%lookup_snoc; eauto using a_done.
  - intros i ci [[-> ->]|Hi]%lookup_snoc Hor; [|eauto using a_live]. naive_solver congruence.
  - intros i ci [[-> ->]|Hi]%lookup_snoc ?; eauto using a_abort.
  - intros i dr ws Hi j cj [[-> ->]|Hj]%lookup_snoc Hl; [congruence|].
    apply lookup_snoc in Hi as [[-> <-]|Hi]; eauto using a_settle.
  - intros i ci [[-> ->]|Hi]%lookup_snoc Hd j cj Hj; [rewrite s_drain0 in Hd; by destruct Hd|].
    apply lookup_snoc in Hj as [[-> ->]|Hj]; eauto using a_drain.
  - split; [apply (a_queue k P)|]. intros n Hn. apply (a_queue k P) in Hn. by apply lookup_app_l_Some.
Qed.

Lemma phases_spawn_warm k : abrt k = false -> strt k = true -> phases k -> phases (spawn_warm k).
Proof.
  intros Ha Hs P.
  assert (Hk : exists c q, (c = W_acquired /\ q = sq k \/ c = W_queued /\ q = sq k ++ [length (tks k)]) /\
    tks (spawn_warm k) = tks k ++ [c] /\ sq (spawn_warm k) = q /\ strt (spawn_warm k) = strt k /\
    abrt (spawn_warm k) = abrt k /\ recs (spawn_warm k) = recs k).
  { unfold spawn_warm. destruct (free k >? 0); eauto 10. }
  destruct Hk as (c & q & Hcq & Ht & Hq & Hst & Hab & Hr).
  assert (Hnc : forall i ci, tks k !! i = Some ci -> closing ci = false).
  { intros i ci Hi. destruct (closing ci) eqn:E; [|done]. pose proof (a_abort k P i ci Hi E). congruence. }
  assert (Hlk : forall i ci, tks (spawn_warm k) !! i = Some ci ->
            ci = W_acquired \/ ci = W_queued \/ tks k !! i = Some ci).
  { intros i ci. rewrite Ht. intros [[-> ->]|?]%lookup_snoc; naive_solver. }
  split; rewrite ?Hst, ?Hab, ?Hr; try done.
  - intros Hpre. enough (early k) as (_ & ? & _) by congruence. apply (a_early k P).
    destruct Hpre as [(i & ci & Hi & Hb)|Hno].
    + left. apply Hlk in Hi as [->|[->|Hi]]; [done..|eauto].
    + right. intros i ci Hi. apply (Hno i). rewrite Ht. by apply lookup_app_l_Some.
  - intros i j ci cj [->|[->|Hi]]%Hlk [->|[->|Hj]]%Hlk; try done; eauto using a_one.
  - intros _ i ci [->|[->|Hi]]%Hlk; try done; eauto using a_strt.
  - intros i ci [->|[->|Hi]]%Hlk Hc; try done. rewrite <- Hab. eauto using a_abort.
  - intros i dr ws [?|[?|Hi]]%Hlk; try done. by pose proof (Hnc _ _ Hi).
  - intros i ci [->|[->|Hi]]%Hlk [rest Hd]; try done. pose proof (Hnc _ _ Hi). by destruct ci.
  - rewrite Hq, Ht. destruct (a_queue k P) as [Hnd Hall].
    assert (Hlt : forall n, n ∈ sq k -> (n < length (tks k))%nat)
      by (intros n Hn; by eapply lookup_lt_Some, Hall).
    destruct Hcq as [[-> ->]|[-> ->]].
    + split; [done|]. intros n Hn. by apply lookup_app_l_Some, Hall.
    + split.
      * apply NoDup_app. split_and!; [done| |apply NoDup_singleton].
        intros n Hn ->%list_elem_of_singleton. apply Hlt in Hn. lia.
      * intros n [Hn| ->%list_elem_of_singleton]%elem_of_app; [by apply lookup_app_l_Some, Hall|].
        by rewrite list_lookup_middle.
Qed.

Lemma phases_wake k : phases k -> phases (k_tasks (wake <$> tks k) k).
Proof.
  intros P.
  assert (Hw : forall c, kind_of (wake c) = kind_of c /\ starting (wake c) = starting c /\
    start_pc (wake c) = start_pc c /\ before_load (wake c) = before_load c /\
    live_warmUp (wake c) = live_warmUp c /\ closing (wake c) = closing c /\
    drain_rest (wake c) = drain_rest c /\ (quiet c = true -> quiet (wake c) = true) /\
    (wake c = St_done -> c = St_done) /\ (forall d w, wake c = C_settling d w -> c = C_settling d w))
    by (intros c; by destruct c).
  assert (Hlk : forall i ci, (wake <$> tks k) !! i = Some ci -> exists c, tks k !! i = Some c /\ ci = wake c)
    by apply lookup_wake.
  assert (Hup : forall i c, tks k !! i = Some c -> (wake <$> tks k) !! i = Some (wake c))
    by (intros i c Hi; by rewrite list_lookup_fmap, Hi).
  split; cbn.
  - intros Hpre. assert (He : early k).
    { apply (a_early k P). destruct Hpre as [(i & ci & Hi & Hb)|Hno].
      - left. apply Hlk in Hi as (c & Hi & ->). exists i, c. split; [done|]. destruct (Hw c). naive_solver congruence.
      - right. intros i c Hi. destruct (Hw c) as (_ & _ & <- & _). by apply (Hno i), Hup. }
    destruct He as (? & ? & He3). split_and!; [done..|]. intros i ci (c & Hi & ->)%Hlk.
    destruct (Hw c) as (_ & _ & _ & _ & _ & _ & _ & Hq & _). eauto.
  - intros i j ci cj (c & Hi & ->)%Hlk (d & Hj & ->)%Hlk.
    destruct (Hw c) as (_ & -> & _), (Hw d) as (_ & -> & _). eauto using a_one.
  - intros Hs i ci (c & Hi & ->)%Hlk. destruct (Hw c) as (_ & -> & _). eauto using a_strt.
  - intros i (c & Hi & Heq)%Hlk. destruct (Hw c) as (_ & _ & _ & _ & _ & _ & _ & _ & Hd & _).
    rewrite Hd in Hi by done. eauto using a_done.
  - intros i ci (c & Hi & ->)%Hlk. destruct (Hw c) as (-> & _ & _ & _ & -> & _). eauto using a_live.
  - intros i ci (c & Hi & ->)%Hlk. destruct (Hw c) as (_ & _ & _ & _ & _ & -> & _). eauto using a_abort.
  - intros i dr ws (c & Hi & Heq)%Hlk j cj (d & Hj & ->)%Hlk.
    destruct (Hw c) as (_ & _ & _ & _ & _ & _ & _ & _ & _ & Hd), (Hw d) as (_ & _ & _ & _ & -> & _).
    rewrite (Hd dr ws) in Hi by done. eauto using a_settle.
  - intros i ci (c & Hi & ->)%Hlk. destruct (Hw c) as (_ & _ & _ & _ & _ & _ & -> & _).
    intros Hd j cj (d & Hj & ->)%Hlk. destruct (Hw d) as (_ & _ & _ & _ & -> & _). eauto using a_drain.
  - split; [apply (a_queue k P)|]. intros n Hn. apply (a_queue k P), Hup in Hn. done.
Qed.

Lemma phases_started k tid c conc :
  tks k !! tid = Some c -> starting c = true -> before_load c = false ->
  phases k ->
  phases (k_tasks (<[tid := St_done]> (tks k) ++ [F_filled])
            (k_flags true (abrt k) (k_sem (infl k) conc [] k))).
Proof.
  intros Hc Hs Hb P.
  assert (Hlk : forall i ci, (<[tid := St_done]> (tks k) ++ [F_filled]) !! i = Some ci ->
            ci = F_filled \/ (i = tid /\ ci = St_done) \/ (i <> tid /\ tks k !! i = Some ci)).
  { intros i ci [[_ ->]|[?|?]%lookup_set]%lookup_snoc; auto. }
  split; cbn; try done.
  - intros [(i & ci & [->|[[-> ->]|[Hne Hi]]]%Hlk & Hbl)|Hno]; [done|done| |].
    + destruct Hne. by eapply (a_one k P); eauto using before_load_starting.
    + discriminate (Hno tid St_done). apply lookup_app_l_Some, list_lookup_insert_eq.
      by eapply lookup_lt_Some.
  - intros i j ci cj [->|[[-> ->]|[? Hi]]]%Hlk [->|[[-> ->]|[? Hj]]]%Hlk; try done; eauto using a_one.
  - intros _ i ci [->|[[-> ->]|[Hne Hi]]]%Hlk; [done..|].
    destruct (starting ci) eqn:E; [|done]. destruct Hne. by eapply (a_one k P).
  - intros i ci [->|[[-> ->]|[? Hi]]]%Hlk; try done; eauto using a_abort.
  - intros i dr ws [?|[[_ ?]|[? Hi]]]%Hlk; try done.
    intros j cj [->|[[-> ->]|[? Hj]]]%Hlk; try done; eauto using a_settle.
  - intros i ci [->|[[-> ->]|[? Hi]]]%Hlk Hd j cj [->|[[-> ->]|[? Hj]]]%Hlk; try done;
      try (by destruct Hd); eauto using a_drain.
  - split; [by apply NoDup_nil_2|set_solver].
Qed.

Lemma phases_abort k : phases k -> phases (k_flags (strt k) true k).
Proof. intros []. split; cbn; eauto. Qed.

Lemma phases_settled k tid dr ws rest :
  tks k !! tid = Some (C_settling dr ws) ->
  (forall i ci, i ∈ ws -> tks k !! i = Some ci -> live_warmUp ci = false) ->
  (recs k = [] -> rest = []) ->
  phases k -> phases (k_set tid (C_draining rest) k).
Proof.
  intros Hc Hdead Hrest P.
  assert (Hnone : forall i ci, tks k !! i = Some ci -> live_warmUp ci = false).
  { intros i ci Hi. destruct (live_warmUp ci) eqn:Hl; [|done].
    pose proof (a_settle k P tid dr ws Hc i ci Hi Hl) as Hin. rewrite <- Hl. eauto. }
  eapply (phases_set k _ tid (C_settling dr ws) (C_draining rest)); try done.
  - intros (Hr & _). left. by rewrite Hrest.
  - auto.
  - by intros (? & _).
Qed.

Lemma warm_not_take c : running c = true -> kind_of c = k_warm.
Proof. by intros (_ & ? & _)%running_live. Qed.

Lemma move_phases sz conc bound k k' : move sz conc bound k k' -> phases k -> phases k'.
Proof.
  intros M P. destruct M as [k|k l rc lo fl|k tid c c' Hc G|k tid c c' h m Hc Hk Hk' Hs Hs' Ho Hhm
    |k c Hsp|k tid c c' id r Hc Hr Hcl|k tid c id cause Hc Hru Ho|k tid c c' id Hc Hf Hcase
    |k tid r Hc|k tid r r' Hc Ha Hid Hr|k tid c c' Hc Hru Hc' Hreg|k Ha Hs Hdef|k tid l Hc Hnd Hin Hle
    |k tid r rest Hc Hr|k tid c Hc Hs Hb|k|k tid dr ws Hc Hdead].
  - by apply phases_wake.
  - destruct P. split; done.
  - by apply phases_goto with c.
  - eapply (phases_set k _ tid c c'); try done; try reflexivity; try congruence; try (by destruct c').
    + intros He. pose proof (early_quiet k tid c He Hc) as Hq. destruct c; try done. cbn in Ho. by destruct c'.
    + intros [??]. by destruct c'.
    + intros ->. done.
    + by intros (? & _).
  - by apply phases_spawn.
  - by apply phases_claim with c r.
  - eapply (phases_warm k _ tid c); done.
  - destruct Hcase as [(token & r & -> & -> & _ & _)|[-> ->]]; [eapply (phases_warm k _ tid); done|].
    eapply (phases_set k _ tid (T_creating None)); try done; try reflexivity.
    + intros He. by pose proof (early_quiet k tid _ He Hc).
    + by intros [??].
    + by intros (? & _).
  - eapply (phases_warm k _ tid (W_saving r)); done.
  - eapply (phases_warm k _ tid (W_pausing r)); done.
  - assert (Hc2 : tks (release_core k) !! tid = Some c).
    { apply running_live in Hru as (_ & _ & Hnq). unfold release_core.
      destruct (sq k) as [|n q] eqn:Hq; [done|]. cbn. rewrite list_lookup_insert_ne; [done|].
      intros ->. assert (tks k !! tid = Some W_queued) by (apply (a_queue k P); rewrite Hq; set_solver). congruence. }
    eapply (phases_warm (release_core k) _ tid c c'); try done; [by destruct Hc' as [->|[? ->]]|].
    by apply phases_release.
  - by apply phases_spawn_warm.
  - eapply (phases_set k _ tid St_loading); try done; try reflexivity; [by right|by intros [??]|by intros (? & _)].
  - eapply (phases_set k _ tid (St_recovering (r :: rest))); try done; try reflexivity.
    + by right.
    + by intros [??].
    + intros He. by pose proof (early_quiet k tid _ He Hc).
  - by apply phases_started with c.
  - by apply phases_abort.
  - apply (phases_settled k tid dr ws); try done. by intros ->.
Qed.

(** ** Ownership

    An id has one owner: the pool, as a parked slot, or one task. *)

Definition owners (id : string) (k : core) : nat := (rdy id (recs k) + tsum (own id) (tks k))%nat.

Record owned (k : core) : Prop := {
  o_keyed : keyed (recs k);
  o_one : forall id, (owners id k <= 1)%nat;
  o_fresh : forall id, id ∉ iss k -> owners id k = 0%nat /\ jm_get id (recs k) = None;
  o_warming : forall id r, jm_get id (recs k) = Some r -> is_ready r = false ->
    exists i c, tks k !! i = Some c /\ registered c = Some id;
  o_saving : forall i r, tks k !! i = Some (W_saving r) -> is_ready r = false
}.

Lemma own_wake id c : own id (wake c) = own id c.
Proof. by destruct c. Qed.

Lemma registered_live c id : registered c = Some id -> live_warmUp c = true /\ running c = true /\ owns c = [id].
Proof. by destruct c; cbn; try done; intros [= ->]. Qed.

Lemma rdy_delete id k m : jm_wf m -> rdy id (jm_delete k m) = if String.eqb id k then 0%nat else rdy id m.
Proof. intros H. unfold rdy. rewrite jm_get_delete by done. by destruct (String.eqb id k). Qed.

Lemma rdy_set id k r m : rdy id (jm_set k r m) = if String.eqb id k then b2n (is_ready r) else rdy id m.
Proof. unfold rdy. rewrite jm_get_set. by destruct (String.eqb id k). Qed.

Lemma own_single id id' c : owns c = [id'] -> own id c = if String.eqb id id' then 1%nat else 0%nat.
Proof.
  intros H. unfold own. rewrite H. cbn. destruct (String.string_dec id' id) as [->|Hne].
  - by rewrite String.eqb_refl.
  - destruct (String.eqb_spec id id'); [congruence|done].
Qed.

Lemma own_nil id c : owns c = [] -> own id c = 0%nat.
Proof. intros H. unfold own. by rewrite H. Qed.

(** One task and the record of one id change. *)
Lemma owned_set k k' tid c c' :
  owned k -> tks k !! tid = Some c -> tks k' = <[tid := c']> (tks k) ->
  (forall id, id ∈ iss k -> id ∈ iss k') -> keyed (recs k') ->
  (forall id, (rdy id (recs k') + own id c' <= rdy id (recs k) + own id c)%nat \/
              ((id ∉ iss k) /\ id ∈ iss k' /\ rdy id (recs k') + own id c' <= 1)%nat \/
              (rdy id (recs k') + own id c' <= 1 <= own id c)%nat) ->
  (forall id r, jm_get id (recs k') = Some r -> is_ready r = false ->
     registered c' = Some id \/ (registered c <> Some id /\ jm_get id (recs k) = Some r)) ->
  (forall id r, jm_get id (recs k') = Some r -> id ∈ iss k' \/ own id c <> 0%nat \/
     is_Some (jm_get id (recs k))) ->
  (forall r, c' = W_saving r -> is_ready r = false) ->
  owned k'.
Proof.
  intros O Hc Ht Hiss Hkeyed Hown Hwarm Hrec Hsav.
  assert (Hsum : forall id, (tsum (own id) (tks k') + own id c = tsum (own id) (tks k) + own id c')%nat)
    by (intros id; rewrite Ht; by apply tsum_insert).
  assert (Hmem : forall id, (own id c <= tsum (own id) (tks k))%nat) by (intros id; by apply tsum_member with tid).
  split; [done| | | |].
  - intros id. specialize (Hsum id). specialize (Hmem id). unfold owners in *.
    pose proof (o_one k O id) as Hone. unfold owners in Hone.
    destruct (Hown id) as [?|[(Hni & _ & ?)|?]]; [lia| |lia].
    destruct (o_fresh k O id Hni) as [Hz _]. unfold owners in Hz. lia.
  - intros id Hni. assert (Hni' : id ∉ iss k) by auto.
    destruct (o_fresh k O id Hni') as [Hz Hnone]. unfold owners in *. specialize (Hsum id). specialize (Hmem id).
    split.
    + destruct (Hown id) as [?|[(_ & ? & _)|?]]; [lia|done|lia].
    + destruct (jm_get id (recs k')) as [r|] eqn:Hg; [|done].
      destruct (Hrec id r Hg) as [?|[?|[? ?]]]; [done|lia|congruence].
  - intros id r Hg Hnr. destruct (Hwarm id r Hg Hnr) as [Hreg|[Hreg Hg']].
    + exists tid, c'. rewrite Ht. split; [|done]. apply list_lookup_insert_eq. by eapply lookup_lt_Some.
    + destruct (o_warming k O id r Hg' Hnr) as (i & ci & Hi & Hri). exists i, ci. split; [|done].
      rewrite Ht, list_lookup_insert_ne; [done|]. intros ->. congruence.
  - intros i r. rewrite Ht. intros [[_ Heq]|[_ Hi]]%lookup_set; [by apply Hsav|by apply (o_saving k O i r)].
Qed.

(** The recovered slots: nothing is held before they are. *)
Lemma early_unowned k id : early k -> owners id k = 0%nat.
Proof.
  intros (Hr & _ & Hq). unfold owners. rewrite Hr. cbn. apply tsum_zero.
  intros i c Hi. apply own_nil. by destruct (quiet_inert c (Hq i c Hi)) as (? & _).
Qed.

Lemma owned_release k : phases k -> owned k -> owned (release_core k).
Proof.
  intros P O. unfold release_core. destruct (sq k) as [|n q] eqn:Hq; [by destruct O; split|].
  assert (Hn : tks k !! n = Some W_queued) by (apply (a_queue k P); rewrite Hq; set_solver).
  eapply (owned_set k _ n W_queued W_acquired); try done; try apply (o_keyed k O).
  - intros id. left. done.
  - intros id r Hg _. right. done.
  - intros id r Hg. right; right. eauto.
Qed.

Lemma owned_wake k : owned k -> owned (k_tasks (wake <$> tks k) k).
Proof.
  intros [O1 O2 O3 O4 O5]. split; unfold owners in *; cbn; try done.
  - intros id. rewrite tsum_wake by apply own_wake. done.
  - intros id. rewrite tsum_wake by apply own_wake. apply O3.
  - intros id r Hg Hn. destruct (O4 id r Hg Hn) as (i & c & Hi & Hc). exists i, (wake c).
    rewrite list_lookup_fmap, Hi. split; [done|]. by destruct c.
  - intros i r (c & Hi & Heq)%lookup_wake. destruct c; try done. injection Heq as ->. eauto.
Qed.

Lemma owned_goto k tid c c' :
  tks k !! tid = Some c -> goes k c c' -> owned k -> owned (k_set tid c' k).
Proof.
  intros Hc [] O. eapply (owned_set k _ tid c c'); try done; try apply (o_keyed k O).
  - intros id. left. cbn. specialize (g_own0 id). lia.
  - intros id r Hg Hn. cbn in Hg. destruct (decide (registered c = Some id)) as [Hreg|]; [|by right].
    destruct g_registered0 as [->|[_ Habs]]; [by left|]. rewrite Habs in Hg by done. done.
  - intros id r Hg. right; right. eauto.
  - intros r ->. by destruct (g_saving0 r).
Qed.

(** New tasks that hold nothing. *)
Lemma owned_app k k' new :
  owned k -> tks k' = tks k ++ new -> recs k' = recs k -> iss k' = iss k ->
  (forall i c, new !! i = Some c -> owns c = []) -> owned k'.
Proof.
  intros [O1 O2 O3 O4 O5] Ht Hr Hi Hnew. assert (Hz : forall id, tsum (own id) new = 0%nat).
  { intros id. apply tsum_zero. eauto using own_nil. }
  split; unfold owners in *; rewrite ?Ht, ?Hr, ?Hi; try done.
  - intros id. rewrite tsum_app, Hz. specialize (O2 id). lia.
  - intros id Hid. rewrite tsum_app, Hz. destruct (O3 id Hid). split; [lia|done].
  - intros id r Hg Hn. destruct (O4 id r Hg Hn) as (i & ci & Hi' & Hreg). exists i, ci.
    split; [by apply lookup_app_l_Some|done].
  - intros i r [?|[_ Hl]]%lookup_app_Some; [eauto|]. by apply Hnew in Hl.
Qed.

Lemma owned_claim k tid c c' id r :
  tks k !! tid = Some c -> jm_get id (recs k) = Some r -> claims k c c' id r ->
  phases k -> owned k -> owned (k_set tid c' (k_recs (jm_delete id (recs k)) k)).
Proof.
  intros Hc Hr [] P O. pose proof (o_keyed k O) as [Hwf Hkey]. assert (Hready : is_ready r = true).
  { destruct (decide (kind_of c = k_close)) as [Hkc|]; [|auto].
    destruct (is_ready r) eqn:Hrd; [done|].
    destruct (o_warming k O id r Hr Hrd) as (i & ci & Hi & (Hl & _)%registered_live).
    rewrite (a_drain k P tid c Hc (c_draining0 Hkc) i ci Hi) in Hl. done. }
  eapply (owned_set k _ tid c c'); try done.
  - cbn. by apply keyed_delete.
  - intros i. left. cbn. rewrite rdy_delete by done. rewrite (own_single i id c' c_own'0).
    destruct (String.eqb_spec i id) as [->|]; [|lia]. unfold rdy. rewrite Hr, Hready. cbn. lia.
  - intros i ri Hg Hn. right. cbn in Hg. rewrite jm_get_delete in Hg by done.
    destruct (String.eqb i id); [done|]. split; [|done].
    intros (_ & Hrun & _)%registered_live. by apply warm_not_take in Hrun.
  - intros i ri Hg. cbn in Hg. rewrite jm_get_delete in Hg by done.
    destruct (String.eqb i id); [done|]. right; right. eauto.
  - intros ri ->. destruct c_not_warm0. by rewrite <- c_kind0.
Qed.

Lemma owned_unregister k tid c id cause :
  tks k !! tid = Some c -> owns c = [id] ->
  owned k -> owned (k_set tid (W_forgetting id cause) (k_recs (jm_delete id (recs k)) k)).
Proof.
  intros Hc Ho O. pose proof (o_keyed k O) as [Hwf Hkey].
  eapply (owned_set k _ tid c (W_forgetting id cause)); try done.
  - cbn. by apply keyed_delete.
  - intros i. left. cbn [recs k_set k_tasks k_recs]. rewrite rdy_delete by done. rewrite (own_single i id c Ho).
    rewrite (own_single i id (W_forgetting id cause) eq_refl). destruct (String.eqb i id); lia.
  - intros i ri Hg Hn. right. cbn in Hg. rewrite jm_get_delete in Hg by done.
    destruct (String.eqb_spec i id) as [|Hne]; [done|]. split; [|done].
    intros (_ & _ & Ho')%registered_live. congruence.
  - intros i ri Hg. cbn in Hg. rewrite jm_get_delete in Hg by done.
    destruct (String.eqb i id); [done|]. right; right. eauto.
Qed.

(** The task of a launch: it held nothing, it holds the new id. *)
Lemma owned_launch k tid c c' id :
  tks k !! tid = Some c -> (id ∉ iss k) -> owns c = [] -> owns c' = [id] -> registered c = None ->
  (forall r, c' = W_saving r -> is_ready r = false) ->
  owned k -> owned (k_set tid c' (k_iss (id :: iss k) k)).
Proof.
  intros Hc Hf Ho Ho' Hreg Hsav O. destruct (o_fresh k O id Hf) as [Hz Hnone].
  eapply (owned_set k _ tid c c'); try done; try apply (o_keyed k O).
  - cbn. set_solver.
  - intros i. rewrite (own_nil i c Ho), (own_single i id c' Ho'). cbn [recs k_set k_tasks k_iss iss].
    destruct (String.eqb_spec i id) as [->|]; [|left; lia].
    right; left. split_and!; [done|set_solver|]. unfold rdy. rewrite Hnone. lia.
  - intros i ri Hg _. right. split; [congruence|done].
  - intros i ri Hg. right; right. eauto.
Qed.

Lemma owned_register k tid r :
  tks k !! tid = Some (W_saving r) -> owned k ->
  owned (k_set tid (W_creating r) (k_recs (jm_set (sandboxId r) r (recs k)) k)).
Proof.
  intros Hc O. pose proof (o_saving k O tid r Hc) as Hnr.
  eapply (owned_set k _ tid (W_saving r) (W_creating r)); try done.
  - cbn. by apply keyed_set, (o_keyed k O).
  - intros i. left. cbn [recs k_set k_tasks k_recs]. rewrite rdy_set, Hnr.
    change (own i (W_creating r)) with (own i (W_saving r)). destruct (String.eqb i (sandboxId r)); cbn; lia.
  - intros i ri Hg Hn. cbn in Hg. rewrite jm_get_set in Hg.
    destruct (String.eqb_spec i (sandboxId r)) as [->|]; [by left|by right].
  - intros i ri Hg. cbn in Hg. rewrite jm_get_set in Hg. right.
    destruct (String.eqb_spec i (sandboxId r)) as [->|]; [left|right; eauto].
    rewrite (own_single _ (sandboxId r)) by done. by rewrite String.eqb_refl.
Qed.

(** A task that holds a slot gives it to the pool, parked. *)
Lemma owned_gives k tid c c' r :
  tks k !! tid = Some c -> is_ready r = true ->
  (forall i, own i c = if String.eqb i (sandboxId r) then S (own i c') else own i c') ->
  (forall id, registered c = Some id -> id = sandboxId r) -> registered c' = None ->
  (forall r', c' <> W_saving r') ->
  owned k -> owned (k_set tid c' (k_recs (jm_set (sandboxId r) r (recs k)) k)).
Proof.
  intros Hc Hr Hown Hreg Hreg' Hsav O. pose proof (o_one k O (sandboxId r)) as Hone. unfold owners in Hone.
  pose proof (tsum_member (own (sandboxId r)) (tks k) tid c Hc) as Hmem.
  assert (Hself : own (sandboxId r) c = S (own (sandboxId r) c')) by (by rewrite Hown, String.eqb_refl).
  eapply (owned_set k _ tid c c'); try done.
  - cbn. by apply keyed_set, (o_keyed k O).
  - intros i. cbn [recs k_set k_tasks k_recs]. rewrite rdy_set, Hr. specialize (Hown i).
    destruct (String.eqb_spec i (sandboxId r)) as [E|]; [|left; lia].
    rewrite E. right; right. cbn [b2n]. lia.
  - intros i ri Hg Hn. right. cbn in Hg. rewrite jm_get_set in Hg.
    destruct (String.eqb_spec i (sandboxId r)) as [->|Hne]; [congruence|].
    split; [|done]. intros E%Hreg. congruence.
  - intros i ri Hg. cbn in Hg. rewrite jm_get_set in Hg. right.
    destruct (String.eqb_spec i (sandboxId r)) as [->|]; [left; lia|right; eauto].
  - intros r' ->. by destruct (Hsav r').
Qed.

(** A task lets go of what it holds. *)
Lemma owned_ends k k' tid c c' :
  tks k !! tid = Some c -> tks k' = <[tid := c']> (tks k) -> recs k' = recs k -> iss k' = iss k ->
  owns c' = [] -> (forall id, registered c = Some id -> jm_get id (recs k) = None) ->
  owned k -> owned k'.
Proof.
  intros Hc Ht Hr Hi Ho Hreg O. eapply (owned_set k k' tid c c'); rewrite ?Hi, ?Hr; try done; try apply (o_keyed k O).
  - intros id. left. rewrite (own_nil id c' Ho). lia.
  - intros id r Hg _. right. split; [|done]. intros E%Hreg. congruence.
  - intros id r Hg. right; right. eauto.
  - by intros r ->.
Qed.

Lemma owned_load k tid l :
  tks k !! tid = Some St_loading -> NoDup (sandboxId <$> l) ->
  (forall r, r ∈ l -> sandboxId r ∈ iss k) -> phases k -> owned k ->
  owned (k_set tid (St_recovering l) k).
Proof.
  intros Hc Hnd Hin P O.
  assert (He : early k) by (apply (a_early k P); left; eauto).
  assert (Hrd : recs k = []) by (by destruct He).
  assert (Hsum : forall id, (tsum (own id) (<[tid := St_recovering l]> (tks k)) =
                             count_occ String.string_dec (sandboxId <$> l) id)%nat).
  { intros id. pose proof (tsum_insert (own id) (tks k) tid _ (St_recovering l) Hc) as Hs.
    pose proof (early_unowned k id He) as Hz. unfold owners in Hz. rewrite Hrd in Hz. cbn in Hz.
    change (own id St_loading) with 0%nat in Hs.
    change (own id (St_recovering l)) with (count_occ String.string_dec (sandboxId <$> l) id) in Hs. lia. }
  split; unfold owners; cbn [recs k_set k_tasks tks iss].
  - apply (o_keyed k O).
  - intros id. rewrite Hsum, Hrd. cbn. apply NoDup_ListNoDup in Hnd.
    by apply (NoDup_count_occ String.string_dec).
  - intros id Hid. rewrite Hsum, Hrd. split; [|done]. cbn.
    apply count_occ_not_In. rewrite <- list_elem_of_In. intros (r & -> & Hr)%list_elem_of_fmap.
    by apply Hid, Hin.
  - rewrite Hrd. done.
  - intros i r [[_ ?]|[_ Hi]]%lookup_set; [done|]. eauto using o_saving.
Qed.

Lemma release_tid k tid c :
  phases k -> tks k !! tid = Some c -> running c = true -> tks (release_core k) !! tid = Some c.
Proof.
  intros P Hc (_ & _ & Hnq)%running_live. unfold release_core.
  destruct (sq k) as [|n q] eqn:Hq; [done|]. cbn. rewrite list_lookup_insert_ne; [done|].
  intros ->. assert (tks k !! tid = Some W_queued) by (apply (a_queue k P); rewrite Hq; set_solver). congruence.
Qed.

Lemma release_same k :
  recs (release_core k) = recs k /\ iss (release_core k) = iss k /\ cnts (release_core k) = cnts k /\
  strt (release_core k) = strt k /\ abrt (release_core k) = abrt k /\ infl (release_core k) = infl k.
Proof. unfold release_core. by destruct (sq k). Qed.

Lemma move_owned sz conc bound k k' :
  move sz conc bound k k' -> phases k -> owned k -> owned k'.
Proof.
  intros M P O.
  destruct M as [k|k l rc lo fl|k tid c c' Hc G|k tid c c' h m Hc Hk Hk' Hs Hs' Ho Hhm
    |k c Hsp|k tid c c' id r Hc Hr Hcl|k tid c id cause Hc Hru Ho|k tid c c' id Hc Hf Hcase
    |k tid r Hc|k tid r r' Hc Ha Hid Hr|k tid c c' Hc Hru Hc' Hreg|k Ha Hs Hdef|k tid l Hc Hnd Hin Hle
    |k tid r rest Hc Hr|k tid c Hc Hs Hb|k|k tid dr ws Hc Hdead].
  - by apply owned_wake.
  - by destruct O; split.
  - by apply owned_goto with c.
  - eapply (owned_set k _ tid c c'); try done; try apply (o_keyed k O).
    + intros id. left. unfold own. by rewrite Ho.
    + intros id r Hg _. right. split; [by destruct c|done].
    + intros id r Hg. right; right. eauto.
    + by intros r ->.
  - eapply (owned_app k _ [c]); try done. intros [|i] ci; [|by destruct i]. intros [= <-]. by destruct Hsp.
  - by apply owned_claim with c r.
  - by apply owned_unregister with c.
  - destruct Hcase as [(token & r & -> & -> & Hnr & <-)|[-> ->]].
    + apply owned_launch with (W_launching token); try done. by intros ? [= <-].
    + by apply owned_launch with (T_creating None).
  - by apply owned_register.
  - apply owned_gives with (W_pausing r); try done; rewrite ?Hid.
    + intros i. rewrite (own_single i (sandboxId r)) by done. by destruct (String.eqb i (sandboxId r)).
    + by intros id [= ->].
  - destruct (release_same k) as (Hr & Hi & _).
    apply (owned_ends (release_core k) _ tid c c'); try done.
    + by apply release_tid.
    + by destruct Hc' as [->|[? ->]].
    + by rewrite Hr.
    + by apply owned_release.
  - unfold spawn_warm. destruct (free k >? 0).
    + apply (owned_app k _ [W_acquired]); try done. intros [|i] ci; [|by destruct i]. by intros [= <-].
    + apply (owned_app k _ [W_queued]); try done. intros [|i] ci; [|by destruct i]. by intros [= <-].
  - by apply owned_load.
  - apply owned_gives with (St_recovering (r :: rest)); try done. intros i. unfold own. cbn.
    destruct (String.string_dec (sandboxId r) i) as [->|Hne]; [by rewrite String.eqb_refl|].
    by destruct (String.eqb_spec i (sandboxId r)); [congruence|].
  - eapply (owned_app (k_set tid St_done k) _ [F_filled]); try done.
    + apply (owned_ends k _ tid c St_done); try done. by destruct c.
    + intros [|i] ci; [|by destruct i]. by intros [= <-].
  - by destruct O; split.
  - apply (owned_ends k _ tid (C_settling dr ws) (C_draining (jm_values (recs k)))); done.
Qed.

(** ** Accounting: counters, warm-ups in flight, permits *)

Record accounts (conc : Z) (k : core) : Prop := {
  n_takes : takes (cnts k) = hits (cnts k) + misses (cnts k);
  n_served : takes (cnts k) = Z.of_nat (tsum (fun c => b2n (served c)) (tks k));
  n_inflight : infl k = Z.of_nat (tsum (fun c => b2n (live_warmUp c)) (tks k));
  n_permits : strt k = true -> free k + Z.of_nat (tsum (fun c => b2n (running c)) (tks k)) = conc;
  n_free : strt k = true -> 0 <= free k /\ (0 < free k -> sq k = []);
  n_waiting : forall i, tks k !! i = Some W_queued -> i ∈ sq k
}.

Lemma accounts_set conc k k' tid c c' :
  tks k !! tid = Some c -> tks k' = <[tid := c']> (tks k) ->
  cnts k' = cnts k -> infl k' = infl k -> free k' = free k -> sq k' = sq k -> strt k' = strt k ->
  served c' = served c -> live_warmUp c' = live_warmUp c -> running c' = running c ->
  accounts conc k -> accounts conc k'.
Proof.
  intros Hc Ht Hcn Hin Hf Hq Hst Hs Hl Hr [].
  assert (Hsum : forall f, f c' = f c -> tsum f (tks k') = tsum f (tks k)).
  { intros f Hfe. pose proof (tsum_insert f (tks k) tid c c' Hc). rewrite Ht. lia. }
  split; rewrite ?Hcn, ?Hin, ?Hf, ?Hq, ?Hst, ?Hsum; try done; try congruence.
  intros i. rewrite Ht. intros [[-> Heq]|[_ Hi]]%lookup_set; [|auto]. apply n_waiting0.
  rewrite <- Heq in Hl, Hr. rewrite Hc. by destruct c.
Qed.

Lemma accounts_app conc k k' c :
  tks k' = tks k ++ [c] -> cnts k' = cnts k -> infl k' = infl k -> free k' = free k ->
  sq k' = sq k -> strt k' = strt k -> served c = false -> live_warmUp c = false ->
  accounts conc k -> accounts conc k'.
Proof.
  intros Ht Hcn Hin Hf Hq Hst Hs Hl [].
  assert (Hsum : forall f, f c = 0%nat -> tsum f (tks k') = tsum f (tks k)).
  { intros f Hz. rewrite Ht, tsum_app. cbn. lia. }
  assert (Hr : running c = false) by (by destruct c).
  split; rewrite ?Hcn, ?Hin, ?Hf, ?Hq, ?Hst, ?Hsum; try done; rewrite ?Hs, ?Hl, ?Hr; try done.
  intros i. rewrite Ht. intros [[_ Heq]|Hi]%lookup_snoc; [by rewrite <- Heq in Hl|auto].
Qed.

Lemma accounts_finally conc k tid c c' :
  tks k !! tid = Some c -> running c = true -> live_warmUp c' = false -> served c' = false ->
  phases k -> accounts conc k ->
  accounts conc (k_set tid c' (k_sem (infl (release_core k) - 1) (free (release_core k))
                              (sq (release_core k)) (release_core k))).
Proof.
  intros Hc Hru Hl Hs P []. pose proof (release_tid k tid c P Hc Hru) as Hc2.
  destruct (release_same k) as (_ & _ & Hcn & Hst & _ & Hin).
  pose proof (running_live c Hru) as (Hlc & Hkc & Hnq).
  assert (Hsc : served c = false) by (by destruct c).
  assert (Hru' : running c' = false) by (by destruct c').
  assert (Hrel : forall f, f W_acquired = f W_queued ->
            tsum f (tks (release_core k)) = tsum f (tks k)).
  { intros f Hf. unfold release_core. destruct (sq k) as [|n q] eqn:Hq; [done|]. cbn.
    assert (Hn : tks k !! n = Some W_queued) by (apply (a_queue k P); rewrite Hq; set_solver).
    pose proof (tsum_insert f (tks k) n W_queued W_acquired Hn). lia. }
  assert (Hset : forall f, (tsum f (<[tid := c']> (tks (release_core k))) + f c =
                            tsum f (tks (release_core k)) + f c')%nat)
    by (intros f; by apply tsum_insert).
  assert (Hrun : strt k = true -> free (release_core k) +
            Z.of_nat (tsum (fun c => b2n (running c)) (tks (release_core k))) = conc + 1 /\
            0 <= free (release_core k) /\ (0 < free (release_core k) -> sq (release_core k) = [])).
  { intros Hst'. specialize (n_permits0 Hst'). destruct (n_free0 Hst') as [Hf0 Hfq]. unfold release_core.
    destruct (sq k) as [|n q] eqn:Hq; cbn; [split_and!; [lia|lia|done]|].
    assert (Hn : tks k !! n = Some W_queued) by (apply (a_queue k P); rewrite Hq; set_solver).
    pose proof (tsum_insert (fun c => b2n (running c)) (tks k) n W_queued W_acquired Hn) as Hi. cbn in Hi.
    split_and!; [lia|lia|]. intros Hpos. by apply Hfq in Hpos. }
  split; cbn [cnts infl free sq strt tks k_set k_tasks k_sem].
  - by rewrite Hcn.
  - rewrite Hcn. specialize (Hset (fun c => b2n (served c))). cbn beta in Hset.
    rewrite Hs, Hsc, (Hrel (fun c => b2n (served c)) eq_refl) in Hset. cbn in Hset. lia.
  - rewrite Hin. specialize (Hset (fun c => b2n (live_warmUp c))). cbn beta in Hset.
    rewrite Hl, Hlc, (Hrel (fun c => b2n (live_warmUp c)) eq_refl) in Hset. cbn in Hset. lia.
  - rewrite Hst. intros Hst'. destruct (Hrun Hst') as [Hsum _].
    specialize (Hset (fun c => b2n (running c))). cbn beta in Hset. rewrite Hru, Hru' in Hset. cbn in Hset. lia.
  - rewrite Hst. intros Hst'. by destruct (Hrun Hst') as [_ ?].
  - intros i [[_ Heq]|[_ Hi]]%lookup_set; [by rewrite <- Heq in Hl|].
    revert Hi. unfold release_core. destruct (sq k) as [|n q] eqn:Hq; cbn.
    + intros Hi. specialize (n_waiting0 i Hi). set_solver.
    + intros [[_ ?]|[Hne Hi]]%lookup_set; [done|]. specialize (n_waiting0 i Hi). set_solver.
Qed.

Lemma accounts_warm conc k : accounts conc k -> strt k = true -> accounts conc (spawn_warm k).
Proof.
  intros [] Hst. specialize (n_permits0 Hst). destruct (n_free0 Hst) as [Hf Hfq].
  unfold spawn_warm. destruct (Z.gtb_spec (free k) 0) as [Hpos|Hle]; split;
    cbn [cnts infl free sq strt tks k_tasks k_sem]; rewrite ?tsum_app; cbn [tsum]; try done.
  - cbn. lia.
  - cbn. lia.
  - intros _. cbn. lia.
  - intros _. split; [lia|]. intros _. apply Hfq. lia.
  - intros i [[_ ?]|Hi]%lookup_snoc; [done|auto].
  - cbn. lia.
  - cbn. lia.
  - intros _. cbn. lia.
  - intros _. split; [lia|]. lia.
  - intros i [[-> _]|Hi]%lookup_snoc; [set_solver|]. apply elem_of_app. left. auto.
Qed.

Lemma move_accounts sz conc bound k k' :
  0 <= conc -> move sz conc bound k k' -> phases k -> accounts conc k -> accounts conc k'.
Proof.
  intros Hconc M P N.
  destruct M as [k|k l rc lo fl|k tid c c' Hc G|k tid c c' h m Hc Hk Hk' Hs Hs' Ho Hhm
    |k c Hsp|k tid c c' id r Hc Hr Hcl|k tid c id cause Hc Hru Ho|k tid c c' id Hc Hf Hcase
    |k tid r Hc|k tid r r' Hc Ha Hid Hr|k tid c c' Hc Hru Hc' Hreg|k Ha Hs Hdef|k tid l Hc Hnd Hin Hle
    |k tid r rest Hc Hr|k tid c Hc Hs Hb|k|k tid dr ws Hc Hdead].
  - destruct N. split; cbn; rewrite ?tsum_wake by (by intros []); try done.
    intros i (c & Hi & Heq)%lookup_wake. destruct c; try done. auto.
  - destruct N. split; cbn; try done; lia.
  - destruct G. eapply (accounts_set conc k _ tid c c'); done.
  - destruct N. pose proof (fun f => tsum_insert f (tks k) tid c c' Hc) as Hset.
    assert (Hlr : live_warmUp c = false /\ live_warmUp c' = false /\ running c = false /\ running c' = false)
      by (by destruct c, c'). destruct Hlr as (L1 & L2 & R1 & R2).
    split; cbn [cnts infl free sq strt tks k_set k_tasks k_cnts takes hits misses bump].
    + lia.
    + specialize (Hset (fun c => b2n (served c))). cbn beta in Hset. rewrite Hs, Hs' in Hset. cbn in Hset. lia.
    + specialize (Hset (fun c => b2n (live_warmUp c))). cbn beta in Hset. rewrite L1, L2 in Hset. lia.
    + intros Hst. specialize (n_permits0 Hst). specialize (Hset (fun c => b2n (running c))).
      cbn beta in Hset. rewrite R1, R2 in Hset. lia.
    + done.
    + intros i [[_ Heq]|[_ Hi]]%lookup_set; [by rewrite <- Heq in L2|auto].
  - destruct Hsp. eapply (accounts_app conc k _ c); done.
  - pose proof (c_kind _ _ _ _ _ Hcl) as Hkd. pose proof (c_not_warm _ _ _ _ _ Hcl) as Hnw.
    destruct (c_served _ _ _ _ _ Hcl) as [S1 S2].
    assert (live_warmUp c = false /\ running c = false) as [L R] by (by destruct c).
    assert (live_warmUp c' = false /\ running c' = false) as [L' R'] by (destruct c'; naive_solver).
    eapply (accounts_set conc k _ tid c c'); try done; congruence.
  - pose proof (running_live c Hru) as (L & Hkd & _). assert (S : served c = false) by (by destruct c).
    eapply (accounts_set conc k _ tid c); done.
  - destruct Hcase as [(token & r & -> & -> & _)|[-> ->]]; eapply (accounts_set conc k _ tid); done.
  - eapply (accounts_set conc k _ tid (W_saving r)); done.
  - eapply (accounts_set conc k _ tid (W_pausing r)); done.
  - apply accounts_finally with c; try done; by destruct Hc' as [->|[? ->]].
  - by apply accounts_warm.
  - eapply (accounts_set conc k _ tid St_loading); done.
  - eapply (accounts_set conc k _ tid (St_recovering (r :: rest))); done.
  - assert (Hnot : strt k = false).
    { destruct (strt k) eqn:E; [|done]. by rewrite (a_strt k P E tid c Hc) in Hs. }
    assert (Hdead : forall i ci, tks k !! i = Some ci -> live_warmUp ci = false).
    { intros i ci Hi. destruct (live_warmUp ci) eqn:L; [|done].
      rewrite (a_live k P i ci Hi (or_introl L)) in Hnot. done. }
    assert (served c = false /\ live_warmUp c = false) as [Hsc Hlc] by (by destruct c).
    assert (Hrun : (tsum (fun c => b2n (running c)) (<[tid := St_done]> (tks k) ++ [F_filled]) = 0)%nat).
    { apply tsum_zero. intros i ci [[_ ->]|[[_ ->]|[_ Hi]]%lookup_set]%lookup_snoc; [done..|].
      specialize (Hdead i ci Hi). by destruct ci. }
    destruct N. pose proof (fun f => tsum_insert f (tks k) tid c St_done Hc) as Hset.
    split; cbn [cnts infl free sq strt tks k_tasks k_flags k_sem]; try done.
    + specialize (Hset (fun c => b2n (served c))). cbn beta in Hset. rewrite Hsc in Hset.
      rewrite tsum_app. cbn in *. lia.
    + specialize (Hset (fun c => b2n (live_warmUp c))). cbn beta in Hset. rewrite Hlc in Hset.
      rewrite tsum_app. cbn in *. lia.
    + intros _. rewrite Hrun. lia.
    + intros i [[_ ?]|[[_ ?]|[_ Hi]]%lookup_set]%lookup_snoc; [done..|]. by apply Hdead in Hi.
  - by destruct N; split.
  - eapply (accounts_set conc k _ tid (C_settling dr ws)); done.
Qed.

(** ** How many slots there can be *)

Definition potential (k : core) : nat := (ready_count (recs k) + tsum pending (tks k))%nat.

Definition within (sz : Z) (bound : nat) (k : core) : Prop := (potential k <= Nat.max (Z.to_nat sz) bound)%nat.

Lemma ready_count_cons k r m : ready_count ((k, r) :: m) = (b2n (is_ready r) + ready_count m)%nat.
Proof. unfold ready_count, jm_values. cbn. by destruct (is_ready r). Qed.

Lemma ready_count_delete id m : (ready_count (jm_delete id m) <= ready_count m)%nat.
Proof.
  induction m as [|[k r] m IH]; [done|]. cbn [jm_delete]. rewrite ready_count_cons.
  destruct (String.eqb id k); [lia|]. rewrite ready_count_cons. lia.
Qed.

Lemma ready_count_set id r m : (ready_count (jm_set id r m) <= ready_count m + b2n (is_ready r))%nat.
Proof.
  induction m as [|[k r'] m IH]; cbn [jm_set]; [by rewrite ready_count_cons; cbn; lia|].
  destruct (String.eqb id k); rewrite !ready_count_cons; lia.
Qed.

Lemma pending_live c : starting c = false -> (pending c <= b2n (live_warmUp c))%nat.
Proof. destruct c; cbn; try done; lia. Qed.

Lemma within_set sz bound k k' tid c c' :
  tks k !! tid = Some c -> tks k' = <[tid := c']> (tks k) ->
  (ready_count (recs k') + pending c' <= ready_count (recs k) + pending c)%nat ->
  within sz bound k -> within sz bound k'.
Proof.
  unfold within, potential. intros Hc Ht Hle. pose proof (tsum_insert pending (tks k) tid c c' Hc).
  rewrite Ht. lia.
Qed.

Lemma within_app sz bound k k' c :
  tks k' = tks k ++ [c] -> recs k' = recs k -> pending c = 0%nat -> within sz bound k -> within sz bound k'.
Proof. unfold within, potential. intros -> ->. rewrite tsum_app. cbn. lia. Qed.

Lemma within_load sz bound k tid l :
  tks k !! tid = Some St_loading -> (length l <= bound)%nat -> phases k ->
  within sz bound (k_set tid (St_recovering l) k).
Proof.
  intros Hc Hle P. assert (He : early k) by (apply (a_early k P); left; eauto).
  unfold within, potential. pose proof (tsum_insert pending (tks k) tid _ (St_recovering l) Hc) as Hs.
  assert (Hz : tsum pending (tks k) = 0%nat).
  { apply tsum_zero. intros i c Hi. by destruct (quiet_inert c (early_quiet k i c He Hi)) as (_ & _ & _ & ? & _). }
  destruct He as (Hr & _). cbn [k_set k_tasks tks recs]. rewrite Hr, Hz in *. cbn in *. lia.
Qed.

Lemma within_warm sz conc bound k :
  strt k = true -> sz - Z.of_nat (ready_count (recs k)) - infl k > 0 ->
  phases k -> accounts conc k -> within sz bound (spawn_warm k).
Proof.
  intros Hst Hdef P N.
  assert (Hle : (tsum pending (tks k) <= tsum (fun c => b2n (live_warmUp c)) (tks k))%nat).
  { assert (Hall : forall i c, tks k !! i = Some c -> starting c = false) by (by apply a_strt).
    clear - Hall. induction (tks k) as [|c ts IH]; cbn; [lia|].
    pose proof (pending_live c (Hall 0%nat c eq_refl)).
    specialize (IH (fun i c => Hall (S i) c)). lia. }
  pose proof (n_inflight conc k N). unfold within, potential.
  assert (recs (spawn_warm k) = recs k /\ tsum pending (tks (spawn_warm k)) = (tsum pending (tks k) + 1)%nat)
    as [-> ->]; [|lia].
  unfold spawn_warm. destruct (free k >? 0); cbn [k_tasks k_sem recs tks]; by rewrite tsum_app.
Qed.

Lemma move_within sz conc bound k k' :
  move sz conc bound k k' -> phases k -> owned k -> accounts conc k ->
  within sz bound k -> within sz bound k'.
Proof.
  intros M P O N W.
  destruct M as [k|k l rc lo fl|k tid c c' Hc G|k tid c c' h m Hc Hk Hk' Hs Hs' Ho Hhm
    |k c Hsp|k tid c c' id r Hc Hr Hcl|k tid c id cause Hc Hru Ho|k tid c c' id Hc Hf Hcase
    |k tid r Hc|k tid r r' Hc Ha Hid Hr|k tid c c' Hc Hru Hc' Hreg|k Ha Hs Hdef|k tid l Hc Hnd Hin Hle
    |k tid r rest Hc Hr|k tid c Hc Hs Hb|k|k tid dr ws Hc Hdead].
  - unfold within, potential in *. cbn. by rewrite tsum_wake by (by intros []).
  - done.
  - destruct G. eapply (within_set sz bound k _ tid c c'); try done. cbn [recs k_set k_tasks]. lia.
  - eapply (within_set sz bound k _ tid c c'); try done. by destruct c, c'.
  - destruct Hsp. eapply (within_app sz bound k _ c); done.
  - destruct Hcl. eapply (within_set sz bound k _ tid c c'); try done.
    cbn [recs k_set k_tasks k_recs]. pose proof (ready_count_delete id (recs k)). lia.
  - eapply (within_set sz bound k _ tid c); try done.
    cbn [recs k_set k_tasks k_recs pending]. pose proof (ready_count_delete id (recs k)). lia.
  - eapply (within_set sz bound k _ tid c c'); try done.
    by destruct Hcase as [(token & r & -> & -> & _)|[-> ->]].
  - eapply (within_set sz bound k _ tid (W_saving r)); try done.
    cbn [recs k_set k_tasks k_recs pending]. pose proof (ready_count_set (sandboxId r) r (recs k)) as Hset.
    rewrite (o_saving k O tid r Hc) in Hset. cbn [b2n] in Hset. lia.
  - eapply (within_set sz bound k _ tid (W_pausing r)); try done.
    cbn [recs k_set k_tasks k_recs pending]. pose proof (ready_count_set (sandboxId r') r' (recs k)) as Hset.
    rewrite Hr in Hset. cbn [b2n] in Hset. lia.
  - destruct (release_same k) as (Hrs & _). pose proof (release_tid k tid c P Hc Hru) as Hc2.
    eapply (within_set sz bound (release_core k) _ tid c c'); try done.
    + cbn [recs k_set k_tasks k_sem]. destruct Hc' as [->|[? ->]]; cbn [pending]; lia.
    + unfold release_core. destruct (sq k) as [|n q] eqn:Hq; [done|].
      assert (Hn : tks k !! n = Some W_queued) by (apply (a_queue k P); rewrite Hq; set_solver).
      by eapply (within_set sz bound k _ n W_queued W_acquired).
  - by apply within_warm with conc.
  - by apply within_load.
  - eapply (within_set sz bound k _ tid (St_recovering (r :: rest))); try done.
    cbn [recs k_set k_tasks k_recs pending length]. pose proof (ready_count_set (sandboxId r) r (recs k)) as Hset.
    rewrite Hr in Hset. cbn [b2n] in Hset. lia.
  - eapply (within_app sz bound (k_set tid St_done k) _ F_filled); try done.
    eapply (within_set sz bound k _ tid c St_done); try done.
    cbn [recs k_set k_tasks pending]. lia.
  - done.
  - eapply (within_set sz bound k _ tid (C_settling dr ws)); done.
Qed.

(** ** A drain leaves nothing behind

    Once the pool has started, the records left are among those the drain still
    has to look at. *)

Record draining (k : core) : Prop := {
  d_started : strt k = true;
  d_rest : forall i c rest, tks k !! i = Some c -> drain_rest c = Some rest ->
    forall key, key ∈ jm_keys (recs k) -> key ∈ sandboxId <$> rest
}.

Lemma draining_set k k' tid c c' :
  tks k !! tid = Some c -> tks k' = <[tid := c']> (tks k) -> strt k' = strt k ->
  ((exists i d, tks k !! i = Some d /\ is_Some (drain_rest d)) ->
     forall key, key ∈ jm_keys (recs k') -> key ∈ jm_keys (recs k)) ->
  (forall rest', drain_rest c' = Some rest' -> forall key, key ∈ jm_keys (recs k') ->
     key ∈ sandboxId <$> rest' \/
     (exists rest, drain_rest c = Some rest /\
        (key ∈ sandboxId <$> rest -> key ∈ sandboxId <$> rest') /\ key ∈ jm_keys (recs k))) ->
  draining k -> draining k'.
Proof.
  intros Hc Ht Hs Hkeys Hrest [Hst Hd]. split; [congruence|].
  intros i ci rest. rewrite Ht. intros [[-> ->]|[_ Hi]]%lookup_set Hr key Hkey.
  - destruct (Hrest rest Hr key Hkey) as [?|(rest0 & Hr0 & Himp & Hin)]; [done|]. apply Himp.
    by apply (Hd tid c).
  - apply (Hd i ci); [done..|]. apply Hkeys; eauto.
Qed.

Lemma draining_app k k' c :
  tks k' = tks k ++ [c] -> strt k' = strt k -> recs k' = recs k -> drain_rest c = None ->
  draining k -> draining k'.
Proof.
  intros Ht Hs Hr Hn [Hst Hd]. split; [congruence|].
  intros i ci rest. rewrite Ht, Hr. intros [[_ ->]|Hi]%lookup_snoc; [congruence|eauto].
Qed.

Lemma keys_delete_elem id key (m : jsmap SlotRecord) : jm_wf m -> key ∈ jm_keys (jm_delete id m) -> key ∈ jm_keys m /\ key <> id.
Proof. intros Hwf. rewrite jm_keys_delete by done. rewrite list_elem_of_filter. tauto. Qed.

Lemma keyed_values_ids m : keyed m -> sandboxId <$> jm_values m = jm_keys m.
Proof.
  intros [_ Hk]. unfold jm_values, jm_keys. induction m as [|[k r] m IH]; [done|]. rewrite !fmap_cons.
  cbn [fst snd]. rewrite IH by set_solver. f_equal. symmetry. apply Hk. set_solver.
Qed.

(** While a drain runs no warm-up does. *)
Lemma no_drain_live k tid c : phases k -> tks k !! tid = Some c -> live_warmUp c = true ->
  ~ exists i d, tks k !! i = Some d /\ is_Some (drain_rest d).
Proof. intros P Hc Hl (i & d & Hi & Hd). rewrite (a_drain k P i d Hi Hd tid c Hc) in Hl. done. Qed.

Lemma move_draining sz conc bound k k' :
  move sz conc bound k k' -> phases k -> owned k -> draining k -> draining k'.
Proof.
  intros M P O D. pose proof (o_keyed k (O : owned k)) as Hky. pose proof (d_started k D) as Hstd.
  destruct M as [k|k l rc lo fl|k tid c c' Hc G|k tid c c' h m Hc Hk Hk' Hs Hs' Ho Hhm
    |k c Hsp|k tid c c' id r Hc Hr Hcl|k tid c id cause Hc Hru Ho|k tid c c' id Hc Hf Hcase
    |k tid r Hc|k tid r r' Hc Ha Hid Hr|k tid c c' Hc Hru Hc' Hreg|k Ha Hs Hdef|k tid l Hc Hnd Hin Hle
    |k tid r rest Hc Hr|k tid c Hc Hs Hb|k|k tid dr ws Hc Hdead].
  - destruct D as [Hst Hd]. split; [done|]. cbn. intros i ci rest (c & Hi & ->)%lookup_wake Hr.
    apply (Hd i c rest Hi). by destruct c.
  - by destruct D; split.
  - destruct G. eapply (draining_set k _ tid c c'); try done. cbn. intros rest' Hr key Hkey. right.
    destruct (g_drain0 rest' Hr) as (rest & Hrc & Himp). eauto.
  - eapply (draining_set k _ tid c c'); try done. by destruct c'.
  - destruct Hsp. by eapply (draining_app k _ c).
  - destruct Hcl. eapply (draining_set k _ tid c c'); try done; cbn [recs k_set k_tasks k_recs].
    + intros _ key Hkey. by apply keys_delete_elem in Hkey as [? _]; [|destruct Hky].
    + intros rest' Hr' key Hkey. apply keys_delete_elem in Hkey as [Hkey Hne]; [|by destruct Hky].
      right. destruct (c_drain0 rest' Hr') as (rest & Hrc & Himp). eauto 6.
  - eapply (draining_set k _ tid c); try done; cbn [recs k_set k_tasks k_recs].
    intros _ key Hkey. by apply keys_delete_elem in Hkey as [? _]; [|destruct Hky].
  - eapply (draining_set k _ tid c c'); try done.
    by destruct Hcase as [(token & r & -> & -> & _)|[-> ->]].
  - eapply (draining_set k _ tid (W_saving r)); try done. intros Hex. by destruct (no_drain_live k tid _ P Hc eq_refl).
  - eapply (draining_set k _ tid (W_pausing r)); try done. intros Hex. by destruct (no_drain_live k tid _ P Hc eq_refl).
  - destruct (release_same k) as (Hrs & _ & _ & Hst & _). pose proof (release_tid k tid c P Hc Hru) as Hc2.
    eapply (draining_set (release_core k) _ tid c c'); try done; [by destruct Hc' as [->|[? ->]]|].
    unfold release_core. destruct (sq k) as [|n q] eqn:Hq; [by destruct D; split|].
    assert (Hn : tks k !! n = Some W_queued) by (apply (a_queue k P); rewrite Hq; set_solver).
    by eapply (draining_set k _ n W_queued W_acquired).
  - unfold spawn_warm. destruct (free k >? 0).
    + by eapply (draining_app k _ W_acquired).
    + by eapply (draining_app k _ W_queued).
  - by discriminate (a_strt k P Hstd tid _ Hc).
  - by discriminate (a_strt k P Hstd tid _ Hc).
  - rewrite (a_strt k P Hstd tid _ Hc) in Hs. done.
  - by destruct D; split.
  - eapply (draining_set k _ tid (C_settling dr ws)); try done. cbn [drain_rest k_set k_tasks recs].
    intros rest' [= <-] key Hkey. left. by rewrite keyed_values_ids.
Qed.

(** ** What a sweep still has to look at is not being warmed up *)

Definition snapshots (k : core) : Prop :=
  forall i c id, tks k !! i = Some c -> id ∈ snapshot c ->
    id ∈ iss k /\ forall j cj, tks k !! j = Some cj -> live_warmUp cj = true -> own id cj = 0%nat.

(** A parked slot is nobody else's. *)
Lemma rdy_sole k id : owned k -> rdy id (recs k) = 1%nat ->
  id ∈ iss k /\ forall j cj, tks k !! j = Some cj -> own id cj = 0%nat.
Proof.
  intros O Hr. pose proof (o_one k O id) as Hone. unfold owners in Hone. split.
  - destruct (decide (id ∈ iss k)) as [|Hn]; [done|]. destruct (o_fresh k O id Hn) as [Hz _].
    unfold owners in Hz. lia.
  - intros j cj Hj. pose proof (tsum_member (own id) (tks k) j cj Hj) as Hm. cbn beta in Hm. lia.
Qed.

Lemma snapshots_set k k' tid c c' :
  owned k -> tks k !! tid = Some c -> tks k' = <[tid := c']> (tks k) ->
  (forall id, id ∈ iss k -> id ∈ iss k') ->
  (forall id, id ∈ snapshot c' -> id ∈ snapshot c \/ rdy id (recs k) = 1%nat) ->
  (live_warmUp c' = true -> forall id, id ∈ iss k -> own id c' <> 0%nat ->
     own id c <> 0%nat /\ live_warmUp c = true) ->
  snapshots k -> snapshots k'.
Proof.
  intros O Hc Ht Hiss Hsnap Hown S i ci id. rewrite Ht. intros Hi Hid.
  assert (Hbase : id ∈ iss k /\ forall j cj, tks k !! j = Some cj -> live_warmUp cj = true -> own id cj = 0%nat).
  { apply lookup_set in Hi as [[-> ->]|[_ Hi]]; [|by apply (S i ci)].
    destruct (Hsnap id Hid) as [Hold|Hr]; [by apply (S tid c)|].
    destruct (rdy_sole k id O Hr) as [? Hz]. split; [done|]. intros j cj Hj _. eauto. }
  destruct Hbase as [Hin Hz]. split; [auto|].
  intros j cj [[-> ->]|[_ Hj]]%lookup_set Hl; [|eauto].
  destruct (decide (own id c' = 0%nat)) as [|Hne]; [done|]. destruct (Hown Hl id Hin Hne) as [Hoc Hlc].
  destruct Hoc. eauto.
Qed.

Lemma snapshots_app k k' c :
  tks k' = tks k ++ [c] -> iss k' = iss k -> snapshot c = [] -> owns c = [] -> snapshots k -> snapshots k'.
Proof.
  intros Ht Hi Hs Ho S i ci id. rewrite Ht, Hi. intros [[_ ->]|Hci]%lookup_snoc Hid; [by rewrite Hs in Hid; set_solver|].
  destruct (S i ci id Hci Hid) as [? Hz]. split; [done|].
  intros j cj [[_ ->]|Hj]%lookup_snoc Hl; [by apply own_nil|eauto].
Qed.

Lemma warm_no_snapshot c : live_warmUp c = true -> snapshot c = [].
Proof. by destruct c. Qed.

Lemma move_snapshots sz conc bound k k' :
  move sz conc bound k k' -> phases k -> owned k -> snapshots k -> snapshots k'.
Proof.
  intros M P O S.
  destruct M as [k|k l rc lo fl|k tid c c' Hc G|k tid c c' h m Hc Hk Hk' Hs Hs' Ho Hhm
    |k c Hsp|k tid c c' id r Hc Hr Hcl|k tid c id cause Hc Hru Ho|k tid c c' id Hc Hf Hcase
    |k tid r Hc|k tid r r' Hc Ha Hid Hr|k tid c c' Hc Hru Hc' Hreg|k Ha Hs Hdef|k tid l Hc Hnd Hin Hle
    |k tid r rest Hc Hr|k tid c Hc Hs Hb|k|k tid dr ws Hc Hdead].
  - intros i ci id (c & Hi & ->)%lookup_wake Hid.
    destruct (S i c id Hi) as [Hin Hz]; [by destruct c|]. split; [done|].
    intros j cj (d & Hj & ->)%lookup_wake Hl. rewrite own_wake. apply (Hz j); [done|by destruct d].
  - done.
  - destruct G. eapply (snapshots_set k _ tid c c'); try done.
    intros Hl id _ Hne. specialize (g_own0 id). split; [lia|congruence].
  - eapply (snapshots_set k _ tid c c'); try done; destruct c'; try done; set_solver.
  - destruct Hsp. by eapply (snapshots_app k _ c).
  - destruct Hcl. eapply (snapshots_set k _ tid c c'); try done.
    intros Hl. destruct c_not_warm0. rewrite <- c_kind0. by apply live_warm in Hl as [? _].
  - eapply (snapshots_set k _ tid c); try done; [set_solver|].
    intros _ i _ Hne. split; [|by apply running_live in Hru as [? _]].
    by rewrite (own_single i id c Ho), <- (own_single i id (W_forgetting id cause) eq_refl).
  - eapply (snapshots_set k _ tid c c'); try done; [cbn; set_solver| |].
    + destruct Hcase as [(token & r & -> & -> & _)|[-> ->]]; set_solver.
    + intros Hl i Hi Hne. exfalso. apply Hne.
      destruct Hcase as [(token & r & -> & -> & _ & Heq)|[-> ->]]; [|done].
      rewrite (own_single i (sandboxId r)) by done. rewrite Heq. destruct (String.eqb_spec i id); congruence.
  - eapply (snapshots_set k _ tid (W_saving r)); try done. set_solver.
  - eapply (snapshots_set k _ tid (W_pausing r)); try done. set_solver.
  - destruct (release_same k) as (_ & Hi & _). pose proof (release_tid k tid c P Hc Hru) as Hc2.
    eapply (snapshots_set (release_core k) _ tid c c'); try done.
    + by apply owned_release.
    + by destruct Hc' as [->|[? ->]]; set_solver.
    + by destruct Hc' as [->|[? ->]].
    + unfold release_core. destruct (sq k) as [|n q] eqn:Hq; [done|].
      assert (Hn : tks k !! n = Some W_queued) by (apply (a_queue k P); rewrite Hq; set_solver).
      eapply (snapshots_set k _ n W_queued W_acquired); try done. set_solver.
  - unfold spawn_warm. destruct (free k >? 0).
    + by eapply (snapshots_app k _ W_acquired).
    + by eapply (snapshots_app k _ W_queued).
  - eapply (snapshots_set k _ tid St_loading); try done. set_solver.
  - eapply (snapshots_set k _ tid (St_recovering (r :: rest))); try done. set_solver.
  - eapply (snapshots_app (k_set tid St_done k) _ F_filled); try done.
    eapply (snapshots_set k _ tid c St_done); try done. set_solver.
  - done.
  - eapply (snapshots_set k _ tid (C_settling dr ws)); try done. set_solver.
Qed.
