(* ===== verification/PoolRefine.v ===== *)
(** * PoolRefine: every step of the pool is a sequence of ownership moves

    The simulation between Pool's state machine and PoolSafety's moves, and what
    follows for every reachable state of the pool. *)

From stdpp Require Import base option list strings sets relations.
From Stdlib Require Import ZArith QArith Lia Permutation.
From S2P Require Import Prelude JsMap Limits PoolCore PoolBackend Pool PoolSafety.

Local Open Scope Z_scope.

(** ** The view of a pool the moves act on *)

Definition view (issued_ids : list string) (p : pool) : core := {|
  recs := records p; cnts := counters p; infl := inflight p; free := sem_free p; sq := sem_queue p;
  strt := started p; abrt := aborted p; tks := tasks p; iss := issued_ids |}.

(** The invariant of the moves. *)
Record inv (sz conc : Z) (bound : nat) (k : core) : Prop := {
  inv_phases : phases k;
  inv_owned : owned k;
  inv_accounts : accounts conc k;
  inv_snapshots : snapshots k;
  inv_within : within sz bound k
}.

Lemma move_inv sz conc bound k k' :
  0 <= conc -> move sz conc bound k k' -> inv sz conc bound k -> inv sz conc bound k'.
Proof.
  intros Hconc M []. split.
  - by eapply move_phases.
  - by eapply move_owned.
  - by eapply move_accounts.
  - by eapply move_snapshots.
  - by eapply move_within.
Qed.

Lemma moves_inv sz conc bound k k' :
  0 <= conc -> rtc (move sz conc bound) k k' -> inv sz conc bound k -> inv sz conc bound k'.
Proof. intros Hconc. induction 1; eauto using move_inv. Qed.

Lemma pick_step_member now0 m best r b :
  pick_step now0 m best r = Some b -> best = Some b \/ (r = b /\ state b = ready).
Proof.
  unfold pick_step. case_bool_decide as Hs; cbn [negb orb]; [|by left].
  destruct (slotIsStale r now0 m); [by left|].
  destruct best as [b'|]; [destruct (expires_before r b')|]; intros [= <-]; auto.
Qed.

(** Whatever its expiry, a popped slot is a parked slot of the pool. *)
Lemma pickReadySlot_member records now0 m b :
  pickReadySlot records now0 m = Some b -> b ∈ records /\ state b = ready.
Proof.
  unfold pickReadySlot.
  assert (Hgo : forall l best, fold_left (pick_step now0 m) l best = Some b ->
            best = Some b \/ (b ∈ l /\ state b = ready)).
  { induction l as [|r l IH]; intros best; cbn; [by left|]. intros [Hp|[Hin Hs]]%IH.
    - apply pick_step_member in Hp as [?|[-> ?]]; [by left|right; split; [set_solver|done]].
    - right. split; [set_solver|done]. }
  intros [?|?]%Hgo; done.
Qed.

Section Simulation.
Context (params : pool_params) (bound : nat).

Abbreviation step := (rtc (move (size params) (fillConcurrency params) bound)).

(** What a task of each kind is not. *)
Lemma take_facts c : kind_of c = k_take ->
  live_warmUp c = false /\ running c = false /\ registered c = None /\ starting c = false /\
  before_load c = false /\ closing c = false /\ drain_rest c = None /\ snapshot c = [] /\ pending c = 0%nat.
Proof. by destruct c. Qed.

Lemma fill_facts c : kind_of c = k_fill ->
  live_warmUp c = false /\ running c = false /\ registered c = None /\ starting c = false /\
  before_load c = false /\ closing c = false /\ drain_rest c = None /\ pending c = 0%nat /\
  served c = false /\ quiet c = false.
Proof. by destruct c. Qed.

Lemma warm_facts c : kind_of c = k_warm ->
  starting c = false /\ before_load c = false /\ closing c = false /\ drain_rest c = None /\
  snapshot c = [] /\ served c = false /\ quiet c = false.
Proof. by destruct c. Qed.

Lemma start_facts c : kind_of c = k_start ->
  live_warmUp c = false /\ running c = false /\ registered c = None /\ closing c = false /\
  drain_rest c = None /\ served c = false.
Proof. by destruct c. Qed.

Lemma close_facts c : kind_of c = k_close ->
  live_warmUp c = false /\ running c = false /\ registered c = None /\ starting c = false /\
  before_load c = false /\ snapshot c = [] /\ pending c = 0%nat /\ served c = false.
Proof. by destruct c. Qed.

Lemma own_le c c' : owns c' = [] \/ owns c' = owns c -> forall id, (own id c' <= own id c)%nat.
Proof. intros [Ho|Ho] id; unfold own; rewrite Ho; cbn; lia. Qed.

Lemma goes_view k k' c c' : tks k' = tks k -> recs k' = recs k -> goes k c c' -> goes k' c c'.
Proof. intros Ht Hr []. split; rewrite ?Ht, ?Hr; done. Qed.

Lemma goes_take k c c' :
  kind_of c = k_take -> kind_of c' = k_take -> owns c' = [] \/ owns c' = owns c ->
  served c' = served c -> (quiet c = true -> quiet c' = true) -> goes k c c'.
Proof.
  intros Hk Hk' Ho Hs Hq. pose proof (take_facts c Hk) as (L0 & R0 & G0 & S0 & B0 & C0 & D0 & N0 & P0).
  pose proof (take_facts c' Hk') as (L' & R' & G' & S' & B' & C' & D' & N' & P').
  split; rewrite ?L0, ?R0, ?G0, ?S0, ?B0, ?C0, ?D0, ?N0, ?P0, ?L', ?R', ?G', ?S', ?B', ?C', ?D', ?N', ?P'; auto; try done; try congruence; try (by intros ? ->);
    try (by intros ->); try (by intros ? ? ->); try (by intros ? ?%elem_of_nil).
  by apply own_le.
Qed.

Lemma goes_fill k c c' :
  kind_of c = k_fill -> kind_of c' = k_fill -> owns c' = [] \/ owns c' = owns c ->
  (forall id, id ∈ snapshot c' -> id ∈ snapshot c \/ rdy id (recs k) = 1%nat) -> goes k c c'.
Proof.
  intros Hk Hk' Ho Hn. pose proof (fill_facts c Hk) as (L0 & R0 & G0 & S0 & B0 & C0 & D0 & P0 & V0 & Q0).
  pose proof (fill_facts c' Hk') as (L' & R' & G' & S' & B' & C' & D' & P' & V' & Q').
  split; rewrite ?L0, ?R0, ?G0, ?S0, ?B0, ?C0, ?D0, ?P0, ?V0, ?Q0, ?L', ?R', ?G', ?S', ?B', ?C', ?D', ?P', ?V'; auto; try done; try congruence; try (by intros ? ->);
    try (by intros ->); try (by intros ? ? ->).
  by apply own_le.
Qed.

Lemma goes_start k c c' :
  kind_of c = k_start -> kind_of c' = k_start ->
  (forall id, (own id c' <= own id c)%nat) ->
  (pending c' <= pending c)%nat -> starting c = true -> c' <> St_done ->
  (before_load c' = true -> before_load c = true) ->
  (forall id, id ∈ snapshot c' -> id ∈ snapshot c \/ rdy id (recs k) = 1%nat) -> goes k c c'.
Proof.
  intros Hk Hk' Ho Hp Hs Hd Hb Hn. pose proof (start_facts c Hk) as (L0 & R0 & G0 & C0 & D0 & V0).
  pose proof (start_facts c' Hk') as (L' & R' & G' & C' & D' & V').
  split; rewrite ?L0, ?R0, ?G0, ?C0, ?D0, ?V0, ?L', ?R', ?G', ?C', ?D', ?V'; auto; try done; try congruence; try (by intros ? ->);
    try (by intros ? ? ->).
Qed.

Lemma goes_warm k c c' :
  kind_of c = k_warm -> kind_of c' = k_warm -> owns c' = [] \/ owns c' = owns c ->
  live_warmUp c' = live_warmUp c -> running c' = running c ->
  registered c' = registered c \/
    (registered c' = None /\ forall id, registered c = Some id -> jm_get id (recs k) = None) ->
  (forall r, c' <> W_saving r) -> (pending c' <= pending c)%nat -> goes k c c'.
Proof.
  intros Hk Hk' Ho Hl Hr Hg Hsv Hp. pose proof (warm_facts c Hk) as (S0 & B0 & C0 & D0 & N0 & V0 & Q0).
  pose proof (warm_facts c' Hk') as (S' & B' & C' & D' & N' & V' & Q').
  split; rewrite ?S0, ?B0, ?C0, ?D0, ?N0, ?V0, ?Q0, ?S', ?B', ?C', ?D', ?N', ?V'; auto; try done; try congruence;
    try (by intros ->); try (by intros ? ? ->); try (by intros ? ?%elem_of_nil).
  by apply own_le.
Qed.

Lemma goes_close k c c' :
  kind_of c = k_close -> kind_of c' = k_close -> owns c' = [] \/ owns c' = owns c ->
  (closing c' = true -> closing c = true) -> (quiet c = true -> quiet c' = true) ->
  (forall dr ws, c' = C_settling dr ws ->
     forall i ci, tks k !! i = Some ci -> live_warmUp ci = true -> i ∈ ws) ->
  (forall rest', drain_rest c' = Some rest' -> exists rest, drain_rest c = Some rest /\
    forall key, key ∈ jm_keys (recs k) -> key ∈ sandboxId <$> rest -> key ∈ sandboxId <$> rest') ->
  goes k c c'.
Proof.
  intros Hk Hk' Ho Hc Hq Hw Hd. pose proof (close_facts c Hk) as (L0 & R0 & G0 & S0 & B0 & N0 & P0 & V0).
  pose proof (close_facts c' Hk') as (L' & R' & G' & S' & B' & N' & P' & V').
  split; rewrite ?L0, ?R0, ?G0, ?S0, ?B0, ?N0, ?P0, ?V0, ?L', ?R', ?G', ?S', ?B', ?N', ?P', ?V'; auto; try done; try congruence; try (by intros ? ->);
    try (by intros ->); try (by intros ? ?%elem_of_nil).
  by apply own_le.
Qed.

Lemma step_goto iss0 p tid c c' :
  tasks p !! tid = Some c -> goes (view iss0 p) c c' ->
  step (view iss0 p) (view iss0 (set_pc tid c' p)).
Proof. intros Hc G. apply rtc_once. by apply (mv_goto _ _ _ (view iss0 p) tid c c'). Qed.

Lemma step_wake iss0 p : step (view iss0 p) (view iss0 (notifyAll p)).
Proof. apply rtc_once. apply (mv_wake _ _ _ (view iss0 p)). Qed.

Lemma lookup_notify p tid c : tasks p !! tid = Some c -> tasks (notifyAll p) !! tid = Some (wake c).
Proof. intros Hc. cbn. by rewrite list_lookup_fmap, Hc. Qed.

Lemma step_count iss0 p l rc lo fl :
  step (view iss0 p) (view iss0 (with_counters (bump 0 0 0 l rc lo fl) p)).
Proof. apply rtc_once. apply (mv_count _ _ _ (view iss0 p)). Qed.

Lemma goes_same k c : (forall r, c <> W_saving r) -> c <> St_done -> (forall dr ws, c <> C_settling dr ws) ->
  goes k c c.
Proof. intros Hs Hd Hc. split; try done; eauto. intros dr ws Heq. by destruct (Hc dr ws). Qed.

Lemma step_forget iss0 tid id p p' c c' :
  owned (view iss0 p) -> tasks p !! tid = Some c -> forget tid id p = Some p' ->
  (forall r, jm_get id (records p) = Some r -> claims (view iss0 p) c c' id r) ->
  step (view iss0 p) (view iss0 (set_pc tid c' p')).
Proof.
  intros O Hc Hf Hcl. unfold forget, jm_has in Hf.
  destruct (jm_get id (records p)) as [r|] eqn:Hr; [|done]. injection Hf as <-.
  apply rtc_once. by apply (mv_claim _ _ _ (view iss0 p) tid c c' id r); [| |apply Hcl].
Qed.

(** ** Take *)

Lemma step_claim_none iss0 p tid c :
  tasks p !! tid = Some c -> goes (view iss0 (notifyAll p)) (wake c) (T_creating None) ->
  step (view iss0 p) (view iss0 (claim_none tid p)).
Proof.
  intros Hc G. etrans; [apply step_wake|].
  eapply step_goto; [by apply lookup_notify|done].
Qed.

Lemma keyed_member m r : keyed m -> r ∈ jm_values m -> jm_get (sandboxId r) m = Some r.
Proof.
  intros [Hwf Hk] (k & Hin)%jm_values_elem. rewrite <- (Hk k r Hin). by apply jm_wf_get.
Qed.

Lemma step_popReady iss0 e p tid c waitMs deadline :
  owned (view iss0 p) -> tasks p !! tid = Some c -> kind_of c = k_take -> owns c = [] -> served c = false ->
  quiet c = false ->
  step (view iss0 p) (view iss0 (popReady params e tid waitMs deadline p)).
Proof.
  intros O Hc Hk Ho Hs Hq. unfold popReady. destruct (pickReadySlot _ _ _) as [r|] eqn:Hp.
  - apply pickReadySlot_member in Hp as [Hin Hr]. apply rtc_once.
    apply (mv_claim _ _ _ (view iss0 p) tid c (T_popping r) (sandboxId r) r Hc).
    { apply keyed_member; [apply O|done]. }
    split; try done; try congruence; try (cbn; set_solver).
    + intros _. unfold is_ready. by apply bool_decide_eq_true_2.
    + cbn. lia.
  - apply (step_goto _ _ _ c); [done|]. apply goes_take; auto. congruence.
Qed.

Ltac take_goes := apply goes_take; [done|done|first [by left|by right]|done|done].

Lemma step_wake_goto iss0 p tid c c' :
  tasks p !! tid = Some c -> wake c = c -> goes (view iss0 (notifyAll p)) c c' ->
  step (view iss0 p) (view iss0 (set_pc tid c' (notifyAll p))).
Proof.
  intros Hc Hw G. etrans; [apply step_wake|]. apply (step_goto _ _ _ c); [|done].
  rewrite <- Hw. by apply lookup_notify.
Qed.

Lemma step_count_goto iss0 p tid c c' l rc lo fl :
  tasks p !! tid = Some c -> goes (view iss0 p) c c' ->
  step (view iss0 p) (view iss0 (set_pc tid c' (with_counters (bump 0 0 0 l rc lo fl) p))).
Proof.
  intros Hc G. etrans; [apply step_count|]. apply (step_goto _ _ _ c); [done|].
  by apply (goes_view (view iss0 p)).
Qed.

Lemma step_serve iss0 p tid c c' h m :
  tasks p !! tid = Some c -> kind_of c = k_take -> kind_of c' = k_take -> served c = false ->
  served c' = true -> owns c' = owns c -> h + m = 1 ->
  step (view iss0 p) (view iss0 (set_pc tid c' (with_counters (bump 1 h m 0 0 0 0) p))).
Proof. intros. apply rtc_once. by apply (mv_serve _ _ _ (view iss0 p) tid c c' h m). Qed.

Lemma step_launch iss0 p tid c c' id :
  tasks p !! tid = Some c -> (id ∉ iss0) ->
  (exists token r, c = W_launching token /\ c' = W_saving r /\ is_ready r = false /\ sandboxId r = id) \/
  (c = T_creating None /\ c' = T_creating (Some id)) ->
  step (view iss0 p) (view (id :: iss0) (set_pc tid c' p)).
Proof. intros Hc Hf Hcase. apply rtc_once. by apply (mv_launch _ _ _ (view iss0 p) tid c c' id). Qed.

(** The ids issued after an answer. *)
Definition issue (a : answer) (iss0 : list string) : list string :=
  match launch_id a with Some id => id :: iss0 | None => iss0 end.

Lemma issue_none a iss0 : launch_id a = None -> issue a iss0 = iss0.
Proof. intros H. unfold issue. by rewrite H. Qed.

(** A launch is only announced to the task that launches. *)
Definition announced (c : pc) (a : answer) (iss0 : list string) : Prop :=
  forall id, launch_id a = Some id -> (id ∉ iss0) /\ launching c = true.

Lemma sim_take iss0 e p p' tid c a :
  owned (view iss0 p) -> tasks p !! tid = Some c -> kind_of c = k_take -> announced c a iss0 ->
  resume_take params e tid c a p = Some p' -> step (view iss0 p) (view (issue a iss0) p').
Proof.
  intros O Hc Hk Hann Hres.
  destruct (launching c) eqn:Hl.
  - destruct c; try done. destruct launched; [done|]. destruct a; try done; cbn in Hres; simplify_eq.
    + apply step_count_goto with (T_creating None); [done|]. take_goes.
    + destruct (Hann _ eq_refl) as [Hf _]. cbn [issue launch_id].
      etrans; [apply (step_count iss0 p 1 0 0 0)|]. apply (step_launch _ _ _ (T_creating None)); [done..|by right].
  - rewrite issue_none by (destruct (launch_id a) eqn:E; [by destruct (Hann _ E); congruence|done]). clear Hann.
    destruct c; try done; try (destruct launched; [|done]); destruct a; try done; cbn in Hres; simplify_eq;
      try (apply (step_goto _ _ _ _ _ Hc); take_goes);
      try (eapply step_wake_goto; [exact Hc|done|take_goes]);
      try (eapply step_count_goto; [exact Hc|take_goes]);
      try (apply (step_serve _ _ _ _ _ _ _ Hc); done).
    + by apply step_popReady with (T_secrets waitMs).
    + repeat case_match; try (eapply step_claim_none; [exact Hc|take_goes]).
      apply (step_goto _ _ _ _ _ Hc). take_goes.
    + eapply step_claim_none; [exact Hc|take_goes].
    + case_match; [by apply step_popReady with (T_woken waitMs deadline)|].
      apply (step_goto _ _ _ _ _ Hc). take_goes.
    + destruct b; injection Hres as <-; [apply (step_goto _ _ _ _ _ Hc); take_goes|].
      eapply step_count_goto; [exact Hc|take_goes].
    + unfold resume_failed. case_match; (eapply step_count_goto; [exact Hc|take_goes]).
Qed.

(** ** Warm-ups *)

Ltac warm_goes :=
  apply goes_warm; [done|done|first [by left|by right]|done|done|by left|done|cbn; lia].

Lemma running_warm c : running c = true -> kind_of c = k_warm /\ live_warmUp c = true /\ wake c = c.
Proof. by destruct c. Qed.

Lemma step_finally iss0 p tid c final :
  tasks p !! tid = Some c -> running c = true ->
  (final = W_done \/ exists err, final = W_rejected err) ->
  (forall id, registered c = Some id -> jm_get id (records p) = None) ->
  step (view iss0 p) (view iss0 (warmUp_finally tid final p)).
Proof.
  intros Hc Hr Hf Hreg.
  eapply rtc_l; [by apply (mv_finally _ _ _ (view iss0 p) tid c final Hc Hr Hf Hreg)|].
  eapply rtc_l; [apply mv_wake|].
  assert (Heq : forall ts : list pc, wake <$> <[tid := final]> ts = <[tid := final]> (wake <$> ts)).
  { intros ts. rewrite list_fmap_insert. by destruct Hf as [->|[err ->]]. }
  unfold warmUp_finally, release, release_core, view, k_tasks, k_set, k_sem, set_pc, notifyAll, with_inflight,
    with_tasks, with_sem. cbn. destruct (sem_queue p); cbn; rewrite Heq; reflexivity.
Qed.

(** Only the records and the tasks decide where a warm-up may go. *)
Lemma absent_view c p p' :
  records p' = records p ->
  (forall id, registered c = Some id -> jm_get id (records p) = None) ->
  forall id, registered c = Some id -> jm_get id (records p') = None.
Proof. by intros ->. Qed.

Definition note_failure (e : env) (p : pool) : pool :=
  let '(delay, b) := FillBackoff.nextDelayMs (random e) (backoff p) in
  notifyAll (with_backoff b (Some delay) (count_failed p)).

Lemma step_note iss0 e p tid c :
  tasks p !! tid = Some c -> wake c = c ->
  step (view iss0 p) (view iss0 (note_failure e p)) /\ tasks (note_failure e p) !! tid = Some c /\
  records (note_failure e p) = records p.
Proof.
  intros Hc Hw. split_and!; [|cbn; by rewrite list_lookup_fmap, Hc; cbn; rewrite Hw|done].
  etrans; [apply (step_count iss0 p 0 0 0 1)|]. apply rtc_once, mv_wake.
Qed.

Lemma step_after_forget iss0 e p tid id cause c :
  tasks p !! tid = Some c -> running c = true -> cause = launch_failed \/ owns c = [id] ->
  (forall i, registered c = Some i -> jm_get i (records p) = None) ->
  step (view iss0 p) (view iss0 (after_forget e tid id cause p)).
Proof.
  intros Hc Hr Ho Hreg. pose proof (running_warm c Hr) as (Hk & Hl & Hw).
  destruct (step_note iss0 e p tid c Hc Hw) as (Hs & Hc' & Hrec).
  assert (G : forall k, recs k = records p -> owns c = [id] -> goes k c (W_terminating id)).
  { intros k Hk' Ho'. apply goes_warm; [done|done|by right|by rewrite Hl|by rewrite Hr| |done|cbn; lia].
    right. split; [done|]. intros i Hi. rewrite Hk'. auto. }
  unfold after_forget. destruct cause.
  - etrans; [exact Hs|]. apply step_finally with c; rewrite ?Hrec; auto.
  - destruct Ho as [?|Ho]; [done|]. etrans; [exact Hs|]. apply (step_goto _ _ _ c); auto.
  - destruct Ho as [?|Ho]; [done|]. apply (step_goto _ _ _ c); auto.
Qed.

Lemma step_warmUp_forget iss0 e p tid id cause c :
  tasks p !! tid = Some c -> running c = true -> owns c = [id] ->
  step (view iss0 p) (view iss0 (warmUp_forget e tid id cause p)).
Proof.
  intros Hc Hr Ho. unfold warmUp_forget, forget, jm_has.
  destruct (jm_get id (records p)) as [r|] eqn:Hg.
  - apply rtc_once. by apply (mv_unregister _ _ _ (view iss0 p) tid c id cause).
  - apply step_after_forget with c; auto. intros i Hi.
    apply registered_live in Hi as (_ & _ & Hi). rewrite Ho in Hi. by injection Hi as <-.
Qed.

Lemma step_runWarmup iss0 e p tid r steps c :
  tasks p !! tid = Some c -> running c = true -> owns c = [sandboxId r] ->
  registered c = Some (sandboxId r) -> pending c = 1%nat ->
  step (view iss0 p) (view iss0 (runWarmup e tid r steps p)).
Proof.
  intros Hc Hr Ho Hg Hp. pose proof (running_warm c Hr) as (Hk & Hl & _). unfold runWarmup.
  destruct (stopping p); [by apply step_warmUp_forget with c|].
  destruct steps; (apply (step_goto _ _ _ c); [done|]);
    (apply goes_warm; [done|done|by right; rewrite Ho|by rewrite Hl|by rewrite Hr|by left|done|cbn; lia]).
Qed.

Lemma step_recordReady iss0 p tid r r' :
  tasks p !! tid = Some (W_pausing r) -> aborted p = false -> sandboxId r' = sandboxId r ->
  is_ready r' = true -> step (view iss0 p) (view iss0 (recordReady tid r' p)).
Proof. intros Hc Ha Hid Hr. apply rtc_once. by apply (mv_park _ _ _ (view iss0 p) tid r r'). Qed.

Lemma sim_settle iss0 e p p' tid r attempt at_ a :
  tasks p !! tid = Some (W_settling r attempt at_) ->
  settle params e tid r attempt at_ a p = Some p' -> step (view iss0 p) (view iss0 p').
Proof.
  intros Hc Hs. unfold settle in Hs. destruct at_, a; try done; simplify_eq;
    try (apply (step_goto _ _ _ _ _ Hc); warm_goes);
    try (by eapply step_warmUp_forget); try (by eapply step_runWarmup).
  - destruct b; simplify_eq; [by eapply step_runWarmup|]. apply (step_goto _ _ _ _ _ Hc). warm_goes.
  - destruct (Nat.ltb _ _); [apply (step_goto _ _ _ _ _ Hc); warm_goes|by eapply step_runWarmup].
Qed.

Lemma sim_warmUp iss0 e p p' tid c a :
  tasks p !! tid = Some c -> announced c a iss0 ->
  resume_warmUp params e tid c a p = Some p' -> step (view iss0 p) (view (issue a iss0) p').
Proof.
  intros Hc Hann Hres. destruct (launching c) eqn:Hl.
  - destruct c; try done. destruct a; try done; unfold resume_warmUp in Hres; simplify_eq.
    + change (issue (A_throw e0) iss0) with iss0. apply step_after_forget with (W_launching token); auto. done.
    + destruct (Hann _ eq_refl) as [Hf _]. cbn [issue launch_id].
      apply (step_launch _ (enqueue _ _ p) _ (W_launching token)); [done..|]. left. by do 2 eexists.
  - rewrite issue_none by (destruct (launch_id a) eqn:E; [by destruct (Hann _ E); congruence|done]). clear Hann.
    destruct c; try done; try (eapply sim_settle; [exact Hc|exact Hres]); destruct a; try done; unfold resume_warmUp in Hres; simplify_eq;
      try (apply (step_goto _ _ _ _ _ Hc); warm_goes);
      try (by eapply step_warmUp_forget); try (by eapply step_runWarmup);
      try (eapply step_finally; [exact Hc|done|eauto|done]).
    + etrans; [apply (step_count iss0 p 1 0 0 0)|]. apply rtc_once.
      by apply (mv_register _ _ _ (view iss0 (count_launched p)) tid r).
    + destruct (String.eqb_spec (info_sandboxId info) (sandboxId r)) as [Hid|]; cbn [negb] in Hres; [|done].
      injection Hres as <-. destruct (stopping p) eqn:Hst; [by eapply step_warmUp_forget|].
      by apply step_recordReady with r.
    + etrans; [apply step_wake|]. apply step_finally with (W_ready_saving id); auto; [|done].
      by apply (lookup_notify p tid _ Hc).
    + etrans; [apply step_wake|]. apply step_after_forget with (W_forgetting id cause); auto; [|done].
      by apply (lookup_notify p tid _ Hc).
Qed.

(** ** The sweep *)

(** The two tasks that sweep. *)
Inductive sweeper : kind -> (sweep_pc -> pc) -> Prop :=
  | sweeper_fill : sweeper k_fill F_sweeping
  | sweeper_start : sweeper k_start St_sweeping.

Lemma sweeper_facts K at_ s : sweeper K at_ ->
  kind_of (at_ s) = K /\ owns (at_ s) = sweep_owns s /\ snapshot (at_ s) = sweep_snapshot s /\
  pending (at_ s) = 0%nat /\ before_load (at_ s) = false /\ served (at_ s) = false /\
  closing (at_ s) = false /\ drain_rest (at_ s) = None /\ wake (at_ s) = at_ s /\ K <> k_close /\
  K <> k_warm.
Proof. by destruct 1. Qed.

(** A task that may be sweeping: its kind, and [start] not over. *)
Definition may_sweep (K : kind) (c : pc) : Prop :=
  kind_of c = K /\ (K = k_start -> starting c = true) /\ served c = false.

Lemma at_may_sweep K at_ s : sweeper K at_ -> may_sweep K (at_ s).
Proof. by destruct 1; split_and!. Qed.

(** The records of a snapshot are still parked, if they are still there. *)
Definition listed_in (p : pool) (c : pc) (rest : list SlotRecord) : Prop :=
  forall r, r ∈ rest -> sandboxId r ∈ snapshot c \/ rdy (sandboxId r) (records p) = 1%nat.

Lemma listed_ready iss0 p c tid rest r r' :
  owned (view iss0 p) -> snapshots (view iss0 p) -> tasks p !! tid = Some c -> listed_in p c rest ->
  r ∈ rest -> jm_get (sandboxId r) (records p) = Some r' -> is_ready r' = true.
Proof.
  intros O S Hc Hl Hr Hg. destruct (is_ready r') eqn:Hrd; [done|].
  destruct (Hl r Hr) as [Hin|Hrdy]; [|unfold rdy in Hrdy; rewrite Hg, Hrd in Hrdy; done].
  destruct (o_warming _ O _ _ Hg Hrd) as (i & ci & Hi & (Hlive & _ & Ho)%registered_live).
  destruct (S tid c _ Hc Hin) as [_ Hz]. specialize (Hz i ci Hi Hlive).
  rewrite (own_single _ _ ci Ho), String.eqb_refl in Hz. done.
Qed.

Lemma listed_incl p c rest rest' : (forall r, r ∈ rest' -> r ∈ rest) -> listed_in p c rest -> listed_in p c rest'.
Proof. intros Hi Hl r Hr. auto. Qed.

Lemma goes_sweep k K at_ c s :
  sweeper K at_ -> may_sweep K c -> (forall id, (own id (at_ s) <= own id c)%nat) ->
  (forall id, id ∈ sweep_snapshot s -> id ∈ snapshot c \/ rdy id (recs k) = 1%nat) -> goes k c (at_ s).
Proof.
  intros Hsw (Hk & Hst & Hsv) Ho Hn. pose proof (sweeper_facts K at_ s Hsw) as F.
  destruct F as (Fk & Fo & Fn & Fp & Fb & _). destruct Hsw.
  - split; try (pose proof (fill_facts c Hk) as (? & ? & ? & ? & ? & ? & ? & ? & ? & ?)); cbn; try done; try congruence; try lia; auto.
  - apply goes_start; try done; [rewrite Fp; lia|auto].
Qed.

Lemma claims_sweep iss0 p K at_ c s id r :
  sweeper K at_ -> may_sweep K c -> sweep_owns s = [id] -> is_ready r = true ->
  (forall i, i ∈ sweep_snapshot s -> i ∈ snapshot c \/ rdy i (records p) = 1%nat) ->
  claims (view iss0 p) c (at_ s) id r.
Proof.
  intros Hsw (Hk & Hst & Hsv) Ho Hr Hn.
  pose proof (sweeper_facts K at_ s Hsw) as (Fk & Fo & Fn & Fp & Fb & Fs & Fc & Fd & _ & Hnc & Hnw).
  split; rewrite ?Fo, ?Fn, ?Fp, ?Fc, ?Fd; try done; try congruence; try lia.
  - destruct Hsw; [done|auto].
  - by destruct Hsw.
  - by destruct Hsw.
Qed.

Lemma step_recycle iss0 p tid K at_ c now0 rest :
  sweeper K at_ -> owned (view iss0 p) -> snapshots (view iss0 p) -> tasks p !! tid = Some c ->
  may_sweep K c -> listed_in p c rest ->
  step (view iss0 p) (view iss0 (recycleStale params tid at_ now0 rest p)).
Proof.
  intros Hsw O S Hc Hm. revert c Hc Hm. induction rest as [|r rest IH]; intros c Hc Hm Hl; cbn [recycleStale].
  - apply (step_goto _ _ _ c); [done|]. apply goes_sweep with K; try done; [|by intros ? ?%elem_of_nil].
    intros id. pose proof (sweeper_facts K at_ S_listing Hsw) as (_ & Ho & _). unfold own. rewrite Ho. cbn. lia.
  - assert (Hl' : listed_in p c rest) by (eapply listed_incl; [|exact Hl]; set_solver).
    destruct (slotIsStale r now0 _); cbn [negb]; [|by apply IH with c].
    destruct (forget tid (sandboxId r) p) as [p'|] eqn:Hf; [|by apply IH with c].
    apply (step_forget iss0 tid (sandboxId r) p p' c); [done..|]. intros r' Hr'.
    eapply claims_sweep; try done.
    + by apply (listed_ready iss0 p c tid (r :: rest) r); [..|set_solver|].
    + cbn [sweep_snapshot]. intros i (x & -> & Hx)%list_elem_of_fmap. by apply Hl'.
Qed.

Lemma listed_ids p c rest : listed_in p c rest ->
  forall id, id ∈ (sandboxId <$> rest) -> id ∈ snapshot c \/ rdy id (records p) = 1%nat.
Proof. intros Hl id (x & -> & Hx)%list_elem_of_fmap. by apply Hl. Qed.

Lemma own_no_more c c' : owns c' = [] -> forall id, (own id c' <= own id c)%nat.
Proof. intros H id. unfold own. rewrite H. cbn. lia. Qed.

(** What the caller of the sweep does after it, from wherever the sweep ended. *)
Definition finishes (iss0 : list string) (tid : nat) (K : kind) (finish : pool -> pool) : Prop :=
  forall p c, phases (view iss0 p) -> tasks p !! tid = Some c -> may_sweep K c -> before_load c = false ->
    step (view iss0 p) (view iss0 (finish p)).

Lemma step_lose iss0 p tid K at_ c r listed rest p' :
  sweeper K at_ -> owned (view iss0 p) -> snapshots (view iss0 p) -> tasks p !! tid = Some c ->
  may_sweep K c -> listed_in p c (r :: rest) -> forget tid (sandboxId r) p = Some p' ->
  step (view iss0 p) (view iss0 (set_pc tid (at_ (S_lose_forget (sandboxId r) listed rest)) p')).
Proof.
  intros Hsw O S Hc Hm Hl Hf. apply (step_forget iss0 tid (sandboxId r) p p' c); [done..|]. intros r' Hr'.
  eapply claims_sweep; try done.
  - by apply (listed_ready iss0 p c tid (r :: rest) r); [..|set_solver|].
  - cbn [sweep_snapshot]. apply listed_ids. eapply listed_incl; [|exact Hl]. set_solver.
Qed.

Lemma step_reconcile iss0 p tid K at_ finish c listed rest :
  sweeper K at_ -> owned (view iss0 p) -> snapshots (view iss0 p) -> tasks p !! tid = Some c ->
  phases (view iss0 p) -> may_sweep K c -> before_load c = false -> listed_in p c rest ->
  finishes iss0 tid K finish ->
  step (view iss0 p) (view iss0 (reconcile tid at_ finish listed rest p)).
Proof.
  intros Hsw O S Hc P Hm Hb Hl Hfin. induction rest as [|r rest IH]; cbn [reconcile]; [by apply (Hfin p c)|].
  assert (Hl' : listed_in p c rest) by (eapply listed_incl; [|exact Hl]; set_solver).
  destruct (reconcileAction r _).
  - auto.
  - apply (step_goto _ _ _ c); [done|]. apply goes_sweep with K; try done.
    + apply own_no_more. by destruct (sweeper_facts K at_ (S_repark r listed rest) Hsw) as (_ & -> & _).
    + by apply listed_ids.
  - apply (step_goto _ _ _ c); [done|]. apply goes_sweep with K; try done.
    + apply own_no_more. by destruct (sweeper_facts K at_ (S_check r listed rest) Hsw) as (_ & -> & _).
    + by apply (listed_ids p c (r :: rest)).
  - destruct (forget tid (sandboxId r) p) as [p'|] eqn:Hf; [|auto]. by eapply step_lose.
Qed.

Lemma readyRecords_listed iss0 p c :
  owned (view iss0 p) -> listed_in p c (readyRecords p).
Proof.
  intros O r Hr. right. unfold readyRecords in Hr. apply list_elem_of_In, filter_In in Hr as [Hin Hrd].
  apply list_elem_of_In in Hin. unfold rdy.
  pose proof (keyed_member (records p) r (o_keyed _ O) Hin) as ->. by rewrite Hrd.
Qed.

Lemma step_sweep iss0 e p tid K at_ c :
  sweeper K at_ -> owned (view iss0 p) -> snapshots (view iss0 p) -> tasks p !! tid = Some c ->
  may_sweep K c -> step (view iss0 p) (view iss0 (sweep params e tid at_ p)).
Proof.
  intros Hsw O S Hc Hm. unfold sweep.
  change (view iss0 p) with (view iss0 (with_sweep false (monotonic e) p)).
  apply step_recycle with K c; try done. by apply (readyRecords_listed iss0).
Qed.

Lemma sim_sweep iss0 p p' tid K at_ finish fail s a :
  sweeper K at_ -> owned (view iss0 p) -> snapshots (view iss0 p) ->
  phases (view iss0 p) -> tasks p !! tid = Some (at_ s) -> finishes iss0 tid K finish ->
  (forall err, step (view iss0 p) (view iss0 (fail err p))) ->
  resume_sweep params tid at_ finish fail s a p = Some p' -> step (view iss0 p) (view iss0 p').
Proof.
  intros Hsw O S P Hc Hfin Hfail Hres.
  pose proof (sweeper_facts K at_ s Hsw) as (_ & Fo & Fn & Fp & Fb & _ & _ & _ & Fw & _).
  pose proof (at_may_sweep K at_ s Hsw) as Hm.
  assert (Hcov : forall rest, (forall id, id ∈ (sandboxId <$> rest) -> id ∈ sweep_snapshot s) ->
            listed_in p (at_ s) rest).
  { intros rest Hi r Hr. left. rewrite Fn. apply Hi. apply list_elem_of_fmap. eauto. }
  assert (Hfb : before_load (at_ s) = false) by done.
  assert (Hlost : forall rest listed, (forall id, id ∈ (sandboxId <$> rest) -> id ∈ sweep_snapshot s) ->
            step (view iss0 p) (view iss0 (reconcile tid at_ finish listed rest (count_lost (notifyAll p))))).
  { intros rest listed Hi. assert (Hst : step (view iss0 p) (view iss0 (count_lost (notifyAll p)))).
    { etrans; [apply step_wake|]. apply (step_count iss0 (notifyAll p) 0 0 1 0). }
    etrans; [exact Hst|].
    assert (Hmv : owned (view iss0 (count_lost (notifyAll p))) /\ snapshots (view iss0 (count_lost (notifyAll p))) /\
                  phases (view iss0 (count_lost (notifyAll p)))).
    { split_and!; [| |apply phases_wake in P; by destruct P].
      - apply owned_wake in O. destruct O. by split.
      - intros i ci id (c0 & Hi0 & ->)%lookup_wake Hid. destruct (S i c0 id Hi0) as [? Hz]; [by destruct c0|].
        split; [done|]. intros j cj (d & Hj & ->)%lookup_wake Hlv. rewrite own_wake.
        apply (Hz j); [done|by destruct d]. }
    destruct Hmv as (O' & S' & P'). eapply step_reconcile; try done.
    - rewrite <- Fw. by apply (lookup_notify p tid _ Hc).
    - intros r Hr. left. rewrite Fn. apply Hi. apply list_elem_of_fmap. eauto. }
  assert (Hlose : forall r rest listed,
            (forall id, id ∈ (sandboxId <$> (r :: rest)) -> id ∈ sweep_snapshot s) ->
            step (view iss0 p) (view iss0 (lose tid at_ finish r listed rest p))).
  { intros r rest listed Hi. unfold lose. destruct (forget tid (sandboxId r) p) as [p0|] eqn:Hf.
    - eapply step_lose; try done. by apply Hcov.
    - eapply step_reconcile; try done. apply Hcov. intros id Hid. apply Hi. cbn. set_solver. }
  destruct s, a; try done; unfold resume_sweep in Hres; simplify_eq;
    try apply Hfail; try (by apply Hlost);
    try (eapply step_recycle; try done; by apply Hcov);
    try (eapply step_reconcile; try done; by apply Hcov).
  - etrans; [apply step_wake|]. apply step_count_goto with (at_ (S_recycle_forget now id rest)).
    + rewrite <- Fw. by apply (lookup_notify p tid _ Hc).
    + apply goes_sweep with K; try done.
      * intros i. pose proof (sweeper_facts K at_ (S_recycle_terminate now id rest) Hsw) as (_ & Fo' & _).
        unfold own. rewrite Fo, Fo'. done.
      * intros i Hi. left. by rewrite Fn.
  - by apply (Hfin p (at_ S_listing)).
  - eapply step_reconcile; try done. by apply (readyRecords_listed iss0).
  - destruct (instance_of _ _); [by apply Hlose|]. eapply step_reconcile; try done. apply Hcov. cbn. set_solver.
  - case_bool_decide; [by apply Hlose|]. eapply step_reconcile; try done. apply Hcov. cbn. set_solver.
Qed.

(** ** The filler *)

Ltac fill_goes := apply goes_fill; [done|done|by left|by intros ? ?%elem_of_nil].

Lemma spawn_inflight n p :
  spawn_warmUp (with_inflight (Z.add (Z.of_nat (S n))) p)
  = with_inflight (Z.add (Z.of_nat n)) (spawn_warmUp (with_inflight (Z.add 1) p)).
Proof.
  unfold spawn_warmUp. cbn [sem_free with_inflight]. destruct (sem_free p >? 0);
    unfold with_inflight, spawn, with_tasks, with_sem; cbn; f_equal; lia.
Qed.

Lemma view_spawn iss0 p :
  view iss0 (spawn_warmUp (with_inflight (Z.add 1) p)) = spawn_warm (view iss0 p).
Proof.
  unfold spawn_warmUp, spawn_warm. cbn [sem_free with_inflight free view].
  destruct (sem_free p >? 0); unfold view, k_tasks, k_sem; cbn; f_equal; lia.
Qed.

Lemma step_spawns iss0 n p tid c :
  started p = true -> aborted p = false -> Z.of_nat n <= deficit params p -> tasks p !! tid = Some c ->
  let p' := Nat.iter n spawn_warmUp (with_inflight (Z.add (Z.of_nat n)) p) in
  step (view iss0 p) (view iss0 p') /\ tasks p' !! tid = Some c /\ records p' = records p.
Proof.
  revert p. induction n as [|n IH]; intros p Hst Hab Hd Hc; cbv zeta.
  - split_and!; [|done|done]. change (view iss0 (Nat.iter 0 spawn_warmUp (with_inflight (Z.add (Z.of_nat 0)) p)))
      with (view iss0 (with_inflight (Z.add 0) p)). by destruct p.
  - rewrite Nat.iter_succ_r, spawn_inflight.
    set (p1 := spawn_warmUp (with_inflight (Z.add 1) p)).
    assert (H1 : started p1 = true /\ aborted p1 = false /\ records p1 = records p /\
                 tasks p1 !! tid = Some c /\ inflight p1 = 1 + inflight p).
    { unfold p1, spawn_warmUp. cbn [sem_free with_inflight].
      destruct (sem_free p >? 0); cbn; split_and!; try done; by apply lookup_app_l_Some. }
    destruct H1 as (Hst1 & Hab1 & Hr1 & Hc1 & Hi1).
    assert (Hd1 : Z.of_nat n <= deficit params p1).
    { unfold deficit, readyRecords in *. rewrite Hr1, Hi1. lia. }
    destruct (IH p1 Hst1 Hab1 Hd1 Hc1) as (Hs & Hl & Hr). split_and!; [|done|congruence].
    eapply rtc_l; [|exact Hs]. unfold p1. rewrite view_spawn.
    apply mv_warm; [done..|]. cbn [recs infl view].
    unfold deficit, readyRecords in Hd. unfold ready_count. lia.
Qed.

Lemma step_submit iss0 p tid c :
  started p = true -> aborted p = false -> tasks p !! tid = Some c ->
  step (view iss0 p) (view iss0 (submitWarmUps params p)) /\
  tasks (submitWarmUps params p) !! tid = Some c.
Proof.
  intros Hst Hab Hc. unfold submitWarmUps. destruct (Z.leb_spec (deficit params p) 0); [done|].
  destruct (step_spawns iss0 (Z.to_nat (deficit params p)) p tid c Hst Hab) as (Hs & Hl & _); [lia|done|].
  rewrite Z2Nat.id in Hs, Hl by lia. done.
Qed.

Lemma step_fill_submit iss0 p tid c :
  phases (view iss0 p) -> tasks p !! tid = Some c -> kind_of c = k_fill ->
  step (view iss0 p) (view iss0 (fill_submit params tid p)).
Proof.
  intros P Hc Hk. unfold fill_submit. destruct (stopping p) eqn:Hab.
  - apply (step_goto _ _ _ c); [done|]. fill_goes.
  - assert (Hst : started p = true) by (apply (a_live _ P tid c Hc); by right).
    destruct (step_submit iss0 p tid c Hst Hab Hc) as [Hs Hl]. etrans; [exact Hs|].
    apply (step_goto _ _ _ c); [done|]. fill_goes.
Qed.

Lemma step_runFiller iss0 p tid c :
  phases (view iss0 p) -> tasks p !! tid = Some c -> kind_of c = k_fill ->
  step (view iss0 p) (view iss0 (runFiller params tid p)).
Proof.
  intros P Hc Hk. unfold runFiller. destruct (stopping p).
  - apply (step_goto _ _ _ c); [done|]. fill_goes.
  - destruct (pendingBackoffMs p); [|by apply step_fill_submit with c].
    change (view iss0 p) with (view iss0 (with_backoff (backoff p) None p)).
    apply (step_goto _ _ _ c); [done|]. fill_goes.
Qed.

Lemma filler_finishes iss0 tid : finishes iss0 tid k_fill (runFiller params tid).
Proof. intros p c P Hc (Hk & _) _. by apply step_runFiller with c. Qed.

Lemma sim_filler iss0 e p p' tid c a :
  phases (view iss0 p) -> owned (view iss0 p) -> snapshots (view iss0 p) ->
  tasks p !! tid = Some c -> resume_filler params e tid c a p = Some p' ->
  step (view iss0 p) (view iss0 p').
Proof.
  intros P O S Hc Hres.
  destruct c; try done; try (eapply (sim_sweep iss0 p p' tid k_fill F_sweeping); eauto using filler_finishes;
      [constructor|]; intros err; apply (step_goto _ _ _ _ _ Hc); fill_goes);
    destruct a; try done; unfold resume_filler in Hres; simplify_eq.
  - by apply step_fill_submit with F_pausing.
  - unfold waitForWork. repeat case_match; (apply (step_goto _ _ _ _ _ Hc); fill_goes).
  - apply (step_goto _ _ _ _ _ Hc). fill_goes.
  - case_match; [|by apply step_runFiller with F_woken].
    by eapply step_sweep; [constructor|..].
Qed.

(** ** Start *)

Lemma step_finish_start iss0 p tid c :
  phases (view iss0 p) -> tasks p !! tid = Some c -> starting c = true -> before_load c = false ->
  step (view iss0 p) (view iss0 (finish_start params tid p)).
Proof.
  intros P Hc Hs Hb. unfold finish_start. cbv zeta.
  set (p1 := with_flags true (closed p) (aborted p) (with_sem (fillConcurrency params) [] p)).
  set (p2 := spawn F_filled (set_pc tid St_done p1)).
  assert (H1 : move (size params) (fillConcurrency params) bound (view iss0 p) (view iss0 p2)).
  { by apply (mv_started _ _ _ (view iss0 p) tid c). }
  eapply rtc_l; [exact H1|].
  assert (Hl : length (tasks p1) = length (tasks (set_pc tid St_done p1))) by (cbn; by rewrite length_insert).
  rewrite Hl. apply step_runFiller with F_filled; [by eapply move_phases| |done].
  unfold p2, spawn, with_tasks. cbn. by rewrite list_lookup_middle.
Qed.

Lemma start_finishes iss0 tid : finishes iss0 tid k_start (finish_start params tid).
Proof. intros p c P Hc (Hk & Hs & _) Hb. apply step_finish_start with c; auto. Qed.

(** Loops that end by moving their task do not read where it stands. *)
Lemma set_pc_twice tid c c' p : set_pc tid c' (set_pc tid c p) = set_pc tid c' p.
Proof. unfold set_pc, with_tasks. cbn. f_equal. apply list_insert_insert_eq. Qed.

Lemma forget_set_pc tid id c p : forget tid id (set_pc tid c p) = set_pc tid c <$> forget tid id p.
Proof. unfold forget. cbn. by destruct (jm_has id (records p)). Qed.

Lemma recycle_set_pc tid at_ c now0 rest p :
  recycleStale params tid at_ now0 rest (set_pc tid c p) = recycleStale params tid at_ now0 rest p.
Proof.
  induction rest as [|r rest IH]; cbn [recycleStale]; [apply set_pc_twice|].
  destruct (negb _); [done|]. rewrite forget_set_pc.
  destruct (forget tid (sandboxId r) p); cbn; [apply set_pc_twice|done].
Qed.

Lemma recover_set_pc e tid c rest p :
  recover params e tid rest (set_pc tid c p) = recover params e tid rest p.
Proof.
  revert p. induction rest as [|r rest IH]; intros p; cbn [recover];
    [apply (recycle_set_pc tid St_sweeping c _ _ (with_sweep false (monotonic e) p))|].
  change (imageArn (set_pc tid c p)) with (imageArn p).
  destruct (negb _); [done|]. destruct (state r); [|apply (IH (with_records _ p))].
  apply (set_pc_twice _ c _ (enqueue tid (OpDelete (sandboxId r)) p)).
Qed.

Lemma drain_set_pc tid c rest p : drain tid rest (set_pc tid c p) = drain tid rest p.
Proof.
  induction rest as [|r rest IH]; cbn [drain]; [apply set_pc_twice|]. rewrite forget_set_pc.
  destruct (forget tid (sandboxId r) p); cbn; [apply set_pc_twice|done].
Qed.

(** What the loops rely on. *)
Record sound (k : core) : Prop := {
  sd_phases : phases k;
  sd_owned : owned k;
  sd_snapshots : snapshots k
}.

Lemma step_sound k k' : step k k' -> sound k -> sound k'.
Proof.
  induction 1 as [|k1 k2 k3 M _ IH]; [done|]. intros []. apply IH.
  split; eauto using move_phases, move_owned, move_snapshots.
Qed.

Ltac start_goes :=
  apply goes_start; [done|done|try (by apply own_no_more); try (intros ?; unfold own; cbn; lia)
                    |cbn; try lia|done|done|done|by intros ? ?%elem_of_nil].

Lemma lookup_set_pc tid c c' p : tasks p !! tid = Some c -> tasks (set_pc tid c' p) !! tid = Some c'.
Proof. intros Hc. apply list_lookup_insert_eq. by eapply lookup_lt_Some. Qed.

Lemma step_recover iss0 e p tid rest :
  sound (view iss0 p) -> tasks p !! tid = Some (St_recovering rest) ->
  step (view iss0 p) (view iss0 (recover params e tid rest p)).
Proof.
  revert p. induction rest as [|r rest IH]; intros p I Hc; cbn [recover].
  { destruct I. by eapply step_sweep; [constructor|..]. }
  assert (Hskip : forall c', step (view iss0 p) (view iss0 (set_pc tid (St_recovering rest) (c' p))) ->
            records (c' p) = records (c' p) -> tasks (c' p) = tasks p ->
            step (view iss0 p) (view iss0 (recover params e tid rest (c' p)))).
  { intros c' Hs _ Ht. rewrite <- (recover_set_pc e tid (St_recovering rest)).
    etrans; [exact Hs|]. apply IH; [by eapply step_sound|].
    apply (lookup_set_pc _ (St_recovering (r :: rest))). by rewrite Ht. }
  destruct (negb _).
  - apply (Hskip id); [|done..]. apply (step_goto _ _ _ _ _ Hc). start_goes.
    intros id0. unfold own. cbn. destruct (String.string_dec _ _); lia.
  - destruct (state r) eqn:Hr.
    + apply (step_goto _ (enqueue _ _ p) _ _ _ Hc). start_goes.
    + apply (Hskip (with_records (jm_set (sandboxId r) r))); [|done..]. apply rtc_once.
      apply (mv_recover _ _ _ (view iss0 p) tid r rest Hc). unfold is_ready. by apply bool_decide_eq_true_2.
Qed.

(** What [load] may answer to a [start]. *)
Definition loadable (iss0 : list string) (l : list SlotRecord) : Prop :=
  NoDup (sandboxId <$> l) /\ (forall r, r ∈ l -> sandboxId r ∈ iss0) /\ (length l <= bound)%nat.

Lemma sim_start iss0 e p p' tid c a :
  sound (view iss0 p) -> tasks p !! tid = Some c ->
  (forall l, c = St_loading -> a = A_records l -> loadable iss0 l) ->
  resume_start params e tid c a p = Some p' -> step (view iss0 p) (view iss0 p').
Proof.
  intros I Hc Hload Hres. pose proof I as [P O S].
  destruct c; try done; try (eapply (sim_sweep iss0 p p' tid k_start St_sweeping); eauto using start_finishes;
      [constructor|]; intros err; apply (step_goto _ _ _ _ _ Hc); start_goes; by apply own_no_more).
  - destruct a; try done; unfold resume_start in Hres; simplify_eq;
      [apply (step_goto _ _ _ _ _ Hc)|apply (step_goto _ (enqueue _ _ (with_image _ p)) _ _ _ Hc)];
      start_goes.
  - destruct a; try done; unfold resume_start in Hres; simplify_eq.
    + apply (step_goto _ _ _ _ _ Hc). start_goes.
    + destruct (Hload l eq_refl eq_refl) as (Hnd & Hin & Hle).
      rewrite <- (recover_set_pc e tid (St_recovering l)).
      assert (Hs : step (view iss0 p) (view iss0 (set_pc tid (St_recovering l) p))).
      { apply rtc_once. by apply (mv_load _ _ _ (view iss0 p) tid l). }
      etrans; [exact Hs|]. apply step_recover; [by eapply step_sound|]. by eapply lookup_set_pc.
  - destruct a; try done; unfold resume_start in Hres; simplify_eq.
    + eapply step_count_goto; [exact Hc|]. start_goes.
    + apply (step_goto _ _ _ _ _ Hc). start_goes.
  - assert (p' = recover params e tid rest p) as -> by (destruct a; by injection Hres as <-).
    rewrite <- (recover_set_pc e tid (St_recovering rest)).
    assert (Hs : step (view iss0 p) (view iss0 (set_pc tid (St_recovering rest) p))).
    { apply (step_goto _ _ _ _ _ Hc). start_goes. intros id. unfold own. cbn.
      destruct (String.string_dec _ _); lia. }
    etrans; [exact Hs|]. apply step_recover; [by eapply step_sound|]. by eapply lookup_set_pc.
Qed.

(** ** Close *)

Lemma warmUps_complete p i c : tasks p !! i = Some c -> live_warmUp c = true -> i ∈ warmUps p.
Proof.
  intros Hi Hl. unfold warmUps. apply list_elem_of_In, filter_In. rewrite Hi. split; [|done].
  apply in_seq. apply lookup_lt_Some in Hi. lia.
Qed.

Ltac close_goes :=
  apply goes_close; [done|done|first [by left|by right]|done|done|try done|try done].

Lemma step_drain iss0 p tid rest :
  owned (view iss0 p) -> tasks p !! tid = Some (C_draining rest) ->
  step (view iss0 p) (view iss0 (drain tid rest p)).
Proof.
  revert p. induction rest as [|r rest IH]; intros p O Hc; cbn [drain].
  { apply (step_goto _ _ _ _ _ Hc). close_goes. intros ? [= <-]. by exists []. }
  destruct (forget tid (sandboxId r) p) as [p'|] eqn:Hf.
  - apply (step_forget iss0 tid (sandboxId r) p p' (C_draining (r :: rest))); [done..|].
    intros r' Hr'. split; try done; [by intros ? ?%elem_of_nil|].
    intros rest' [= <-]. exists (r :: rest). split; [done|]. intros key Hne. cbn. set_solver.
  - rewrite <- (drain_set_pc tid (C_draining rest)).
    assert (Hg : jm_get (sandboxId r) (records p) = None).
    { unfold forget, jm_has in Hf. by destruct (jm_get (sandboxId r) (records p)). }
    assert (G : goes (view iss0 p) (C_draining (r :: rest)) (C_draining rest)).
    { close_goes.
      intros rest' [= <-]. exists (r :: rest). split; [done|]. intros key Hkey. cbn.
      rewrite elem_of_cons. intros [->|?]; [|done]. by apply jm_get_None in Hg. }
    etrans; [by apply (step_goto _ _ _ _ (C_draining rest) Hc)|].
    apply IH; [|by eapply lookup_set_pc].
    change (owned (k_set tid (C_draining rest) (view iss0 p))).
    by apply owned_goto with (C_draining (r :: rest)).
Qed.

Lemma sim_close iss0 p p' tid c a :
  sound (view iss0 p) -> tasks p !! tid = Some c ->
  resume_close tid c a p = Some p' -> step (view iss0 p) (view iss0 p').
Proof.
  intros I Hc Hres. pose proof I as [P O S].
  assert (Hjoin : forall dr, c = C_joining dr ->
            step (view iss0 p) (view iss0 (set_pc tid (C_settling dr (warmUps p)) p))).
  { intros dr ->. apply (step_goto _ _ _ _ _ Hc). close_goes.
    intros dr' ws [= <- <-] i ci Hi Hl. by eapply warmUps_complete. }
  destruct c; try done.
  - destruct a; try done; unfold resume_close in Hres.
    + destruct (the_filler p) as [[]|]; try done; simplify_eq; [by apply Hjoin|].
      apply (step_goto _ _ _ _ _ Hc). close_goes.
    + simplify_eq. by apply Hjoin.
  - destruct a; try done. unfold resume_close in Hres.
    destruct (forallb _ warmUps) eqn:Hall; [|done]. injection Hres as <-. destruct drain.
    + rewrite <- (drain_set_pc tid (C_draining (jm_values (records p)))).
      assert (Hs : step (view iss0 p) (view iss0 (set_pc tid (C_draining (jm_values (records p))) p))).
      { apply rtc_once. apply (mv_drain _ _ _ (view iss0 p) tid true warmUps Hc).
        intros i ci Hi Hci. rewrite forallb_forall in Hall. apply list_elem_of_In, Hall in Hi.
        cbn in Hci. rewrite Hci in Hi. by destruct (live_warmUp ci). }
      etrans; [exact Hs|]. apply step_drain; [|by eapply lookup_set_pc].
      by apply (step_sound _ _ Hs) in I as [].
    + apply (step_goto _ _ _ _ _ Hc). close_goes.
  - destruct a; try done; unfold resume_close in Hres; simplify_eq.
    + eapply step_wake_goto; [exact Hc|done|]. close_goes. intros ? [= <-]. eauto.
    + apply (step_goto _ _ _ _ _ Hc). close_goes.
  - assert (p' = drain tid rest p) as -> by (destruct a; by injection Hres as <-).
    rewrite <- (drain_set_pc tid (C_draining rest)).
    assert (Hs : step (view iss0 p) (view iss0 (set_pc tid (C_draining rest) p))).
    { apply (step_goto _ _ _ _ _ Hc). close_goes.
      intros ? [= <-]. eauto. }
    etrans; [exact Hs|]. apply step_drain; [|by eapply lookup_set_pc].
    by apply (step_sound _ _ Hs) in I as [].
Qed.

(** ** The calls *)

Ltac spawn_tac :=
  split; cbn; try done; try (by left); try (by right; left); try (by right; right); try congruence; auto.

Lemma step_spawn iss0 p c : may_spawn (view iss0 p) c -> step (view iss0 p) (view iss0 (spawn c p)).
Proof. intros Hs. apply rtc_once. by apply (mv_spawn _ _ _ (view iss0 p)). Qed.

Lemma sim_take_call iss0 p waitMs err : step (view iss0 p) (view iss0 (take waitMs err p)).
Proof.
  unfold take, requireOpen. destruct (closed p), (started p) eqn:Hst, err; cbn [negb];
    apply step_spawn; spawn_tac.
Qed.

Lemma sim_start_call iss0 p :
  phases (view iss0 p) -> existsb start_pending (tasks p) = false ->
  step (view iss0 p) (view iss0 (start p)).
Proof.
  intros P Hex. assert (Hno : forall i c, tasks p !! i = Some c -> start_pending c = false).
  { intros i c Hi. destruct (start_pending c) eqn:E; [|done].
    assert (existsb start_pending (tasks p) = true); [|congruence].
    apply existsb_exists. exists c. split; [|done]. by eapply list_elem_of_In, list_elem_of_lookup_2. }
  assert (Hno' : forall i c, tasks p !! i = Some c -> starting c = false).
  { intros i c Hi. specialize (Hno i c Hi). by destruct c. }
  unfold start. destruct (closed p); [apply step_spawn; spawn_tac|].
  destruct (started p) eqn:Hst; apply step_spawn; spawn_tac.
  intros _ i c Hi. specialize (Hno i c Hi). destruct c; try done.
  pose proof (a_done _ P i Hi). cbn in *. congruence.
Qed.

Lemma sim_close_call iss0 persistent0 dr p : step (view iss0 p) (view iss0 (close persistent0 dr p)).
Proof.
  unfold close. destruct (negb dr && negb persistent0); [apply step_spawn; spawn_tac|].
  destruct (closed p); [apply step_spawn; spawn_tac|]. cbv zeta.
  set (p1 := notifyAll (with_flags (started p) true true p)).
  etrans; [|destruct (the_filler p1); apply step_spawn].
  - etrans; [apply rtc_once, mv_abort|]. apply (step_wake iss0 (with_flags (started p) true true p)).
  - spawn_tac.
  - spawn_tac. intros dr' ws [= <- <-] i ci Hi Hl. exact (warmUps_complete p1 i ci Hi Hl).
Qed.

Lemma sim_resume iss0 e p p' tid c a :
  sound (view iss0 p) -> tasks p !! tid = Some c -> announced c a iss0 ->
  (forall l, c = St_loading -> a = A_records l -> loadable iss0 l) ->
  resume params e tid c a p = Some p' -> step (view iss0 p) (view (issue a iss0) p').
Proof.
  intros I Hc Hann Hload Hres. pose proof I as [P O S].
  destruct (decide (kind_of c = k_take)) as [Hk|Hnt].
  { assert (resume_take params e tid c a p = Some p') by (by destruct c). by eapply sim_take. }
  destruct (decide (kind_of c = k_warm)) as [Hk|Hnw].
  { assert (resume_warmUp params e tid c a p = Some p') by (by destruct c). by eapply sim_warmUp. }
  rewrite issue_none.
  - destruct (kind_of c) eqn:Hk; try done.
    + assert (resume_filler params e tid c a p = Some p') by (by destruct c). by eapply sim_filler.
    + assert (resume_start params e tid c a p = Some p') by (by destruct c). by eapply sim_start.
    + assert (resume_close tid c a p = Some p') by (by destruct c). by eapply sim_close.
  - destruct (launch_id a) eqn:E; [|done]. destruct (Hann _ E) as [_ Hl]. by destruct c.
Qed.

End Simulation.

(** ** The whole system *)

(** The backend has not been loaded yet. *)
Definition before_loading (k : core) : Prop :=
  (exists i c, tks k !! i = Some c /\ before_load c = true) \/
  (forall i c, tks k !! i = Some c -> start_pc c = false).

Lemma set_before_loading k k' tid c c' :
  tks k !! tid = Some c -> tks k' = <[tid := c']> (tks k) -> kind_of c' = kind_of c ->
  (before_load c' = true -> before_load c = true) -> before_loading k' -> before_loading k.
Proof.
  intros Hc Ht Hk Hb [(i & ci & Hi & Hbi)|Hno].
  - left. rewrite Ht in Hi. apply lookup_set in Hi as [[-> ->]|[_ Hi]]; eauto.
  - right. intros i ci Hi. destruct (decide (i = tid)) as [->|Hne].
    + rewrite Hc in Hi. injection Hi as <-. rewrite start_pc_kind, <- Hk, <- start_pc_kind.
      apply (Hno tid). rewrite Ht. apply list_lookup_insert_eq. by eapply lookup_lt_Some.
    + apply (Hno i). by rewrite Ht, list_lookup_insert_ne.
Qed.

Lemma move_before_loading sz conc bound k k' :
  move sz conc bound k k' -> phases k -> before_loading k' -> before_loading k.
Proof.
  intros M P Hb.
  destruct M as [k|k l rc lo fl|k tid c c' Hc G|k tid c c' h m Hc Hk Hk' Hs Hs' Ho Hhm
    |k c Hsp|k tid c c' id r Hc Hr Hcl|k tid c id cause Hc Hru Ho|k tid c c' id Hc Hf Hcase
    |k tid r Hc|k tid r r' Hc Ha Hid Hr|k tid c c' Hc Hru Hc' Hreg|k Ha Hs Hdef|k tid l Hc Hnd Hin Hle
    |k tid r rest Hc Hr|k tid c Hc Hs Hbl|k|k tid dr ws Hc Hdead]; try done.
  - destruct Hb as [(i & ci & (c & Hi & ->)%lookup_wake & Hbi)|Hno].
    + left. exists i, c. split; [done|by destruct c].
    + right. intros i c Hi. assert (start_pc (wake c) = false); [|by destruct c].
      apply (Hno i). cbn. by rewrite list_lookup_fmap, Hi.
  - destruct G. eapply (set_before_loading k _ tid c c' Hc); [| | |exact Hb]; done.
  - eapply (set_before_loading k _ tid c c' Hc); [| | |exact Hb]; [done|congruence|by destruct c'].
  - destruct Hb as [(i & ci & Hi & Hbi)|Hno].
    + apply lookup_snoc in Hi as [[_ ->]|Hi]; [|by left; eauto]. right.
      intros j cj Hj. exact (s_start _ _ Hsp (before_load_starting _ Hbi) j cj Hj).
    + right. intros i ci Hi. apply (Hno i). by apply lookup_app_l_Some.
  - eapply (set_before_loading k _ tid c c' Hc); [| | |exact Hb]; try done; [by destruct Hcl|by rewrite (c_load _ _ _ _ _ Hcl)].
  - pose proof (warm_not_take c Hru). eapply (set_before_loading k _ tid c _ Hc); [| | |exact Hb]; done.
  - destruct Hcase as [(token & r & -> & -> & _)|[-> ->]];
      (eapply (set_before_loading k _ tid _ _ Hc); [| | |exact Hb]; done).
  - eapply (set_before_loading k _ tid _ _ Hc); [| | |exact Hb]; done.
  - eapply (set_before_loading k _ tid _ _ Hc); [| | |exact Hb]; done.
  - pose proof (release_tid k tid c P Hc Hru) as Hc2. pose proof (warm_not_take c Hru) as Hk.
    assert (Hb' : before_loading (release_core k)).
    { eapply (set_before_loading (release_core k) _ tid c c' Hc2); [| | |exact Hb]; try done;
        by destruct Hc' as [->|[? ->]]. }
    clear Hb. revert Hb'. unfold release_core. destruct (sq k) as [|n q] eqn:Hq; [done|].
    assert (Hn : tks k !! n = Some W_queued) by (apply (a_queue k P); rewrite Hq; set_solver).
    intros Hb. eapply (set_before_loading k _ n W_queued W_acquired Hn); [| | |exact Hb]; done.
  - revert Hb. unfold spawn_warm.
    assert (Happ : forall c, kind_of c = k_warm -> forall k1, tks k1 = tks k ++ [c] ->
              before_loading k1 -> before_loading k).
    { intros c Hk k1 Ht [(i & ci & Hi & Hbi)|Hno].
      - rewrite Ht in Hi. apply lookup_snoc in Hi as [[_ ->]|Hi]; [by destruct c|by left; eauto].
      - right. intros i ci Hi. apply (Hno i). rewrite Ht. by apply lookup_app_l_Some. }
    destruct (free k >? 0); [by apply (Happ W_acquired)|by apply (Happ W_queued)].
  - left. eauto.
  - eapply (set_before_loading k _ tid _ _ Hc); [| | |exact Hb]; done.
  - destruct Hb as [(i & ci & [[_ ->]|[[_ ->]|[_ Hi]]%lookup_set]%lookup_snoc & Hbi)|Hno]; [done..| |].
    + left. eauto.
    + exfalso. assert (start_pc St_done = false); [|done]. apply (Hno tid). cbn.
      apply lookup_app_l_Some, list_lookup_insert_eq. by eapply lookup_lt_Some.
  - eapply (set_before_loading k _ tid _ _ Hc); [| | |exact Hb]; done.
Qed.

(** Before the backend is loaded it holds what it held at first, and nothing but
    the load is queued. *)
Section System.
Context {B F : Type} `{PoolBackendLaws B F} (params : pool_params) (bound : nat).

Abbreviation sys := (system B).
Abbreviation step := (rtc (move (size params) (fillConcurrency params) bound)).

Definition sview (s : sys) : core := view (issued s) (the_pool s).

Definition only_loads (p : pool) : Prop := forall tid op, (tid, op) ∈ queue p -> op = OpLoad.

Definition unloaded (s : sys) : Prop :=
  before_loading (sview s) ->
  (exists m, holds (backend_state s) m /\ (forall r, r ∈ jm_values m -> sandboxId r ∈ issued s) /\
     (length m <= bound)%nat) /\
  only_loads (the_pool s).

Lemma holds_loadable (b : B) m iss0 :
  holds b m -> (forall r, r ∈ jm_values m -> sandboxId r ∈ iss0) -> (length m <= bound)%nat ->
  loadable bound iss0 (jm_values m).
Proof.
  intros (_ & Hk & _) Hi Hle. split_and!; [|done|].
  - rewrite keyed_values_ids by done. apply Hk.
  - unfold jm_values. by rewrite length_fmap.
Qed.

Lemma backend_answer_launch op res : launch_id (backend_answer op res) = None.
Proof. by destruct res, op. Qed.

(** The refinement: one step of the pool is a sequence of moves. *)
Lemma exec_moves l (s s' : sys) :
  sound (sview s) -> unloaded s -> exec params l s = Some s' -> step (sview s) (sview s').
Proof.
  intros I U He. destruct l as [|waitMs err|dr| |e tid a|e f]; cbn in He.
  - destruct (existsb start_pending _) eqn:Hex; [done|]. injection He as <-. cbn.
    apply sim_start_call; [apply I|done].
  - injection He as <-. apply sim_take_call.
  - injection He as <-. apply sim_close_call.
  - injection He as <-. apply (step_wake params bound (issued s) (with_sweep true (lastSweep (the_pool s)) (the_pool s))).
  - destruct (tasks (the_pool s) !! tid) as [c|] eqn:Hc; [|done]. cbn in He.
    destruct (awaits_backend c) eqn:Hw; [done|].
    assert (Hload : forall l, c = St_loading -> a = A_records l -> loadable bound (issued s) l) by (by intros l ->).
    destruct (launch_id a) as [id|] eqn:Hid.
    + case_bool_decide as Hin; [done|]. destruct (launching c) eqn:Hl; [|done]. cbn in He.
      destruct (resume _ _ _ _ _ _) as [p'|] eqn:Hr; [|done]. injection He as <-.
      pose proof (sim_resume params bound (issued s) e _ p' tid c a I Hc) as Hsim.
      unfold issue in Hsim. rewrite Hid in Hsim. apply Hsim; [|done|done].
      intros i Hi. rewrite Hid in Hi. by injection Hi as <-.
    + destruct (resume _ _ _ _ _ _) as [p'|] eqn:Hr; [|done]. injection He as <-.
      pose proof (sim_resume params bound (issued s) e _ p' tid c a I Hc) as Hsim.
      rewrite issue_none in Hsim by done. apply Hsim; [|done|done]. intros i Hi. congruence.
  - destruct (queue (the_pool s)) as [|[tid op] q] eqn:Hq; [done|].
    destruct (tasks (the_pool s) !! tid) as [c|] eqn:Hc; [|done]. cbn in He.
    destruct (run_op f op (backend_state s)) as [b' res] eqn:Hop.
    destruct (resume _ _ _ _ _ _) as [p'|] eqn:Hr; [|done]. injection He as <-.
    pose proof (sim_resume params bound (issued s) e (with_queue (fun _ => q) (the_pool s)) p' tid c
                  (backend_answer op res) I Hc) as Hsim.
    rewrite issue_none in Hsim by apply backend_answer_launch. apply Hsim; [| |done].
    + intros i Hi. by rewrite backend_answer_launch in Hi.
    + intros l -> Ha. destruct U as [(m & Hm & Hi & Hle) Hol]; [left; cbn; eauto|].
      assert (op = OpLoad) as -> by (apply (Hol tid); rewrite Hq; set_solver).
      cbn in Hop. injection Hop as <- <-.
      destruct (backend_load f (backend_state s)) as [l'|] eqn:Hl; [|done]. injection Ha as <-.
      rewrite (load_sound f _ m l' Hm Hl). by eapply holds_loadable.
Qed.

Lemma before_loading_back s s' :
  phases (sview s) -> step (sview s) (sview s') -> before_loading (sview s') -> before_loading (sview s).
Proof.
  intros P Hs. revert P. generalize (sview s) (sview s') Hs. clear.
  intros k k'. induction 1 as [|k1 k2 k3 M _ IH]; [done|]. intros P Hb.
  eapply move_before_loading; [exact M|done|]. apply IH; [by eapply move_phases|done].
Qed.

(** Where the loop of [recover] leaves its task: past the load. *)
Lemma recycle_at tid now0 rest p c :
  tasks p !! tid = Some c ->
  exists s, tasks (recycleStale params tid St_sweeping now0 rest p) !! tid = Some (St_sweeping s).
Proof.
  intros Hc. induction rest as [|r rest IH]; cbn [recycleStale]; [eexists; by eapply lookup_set_pc|].
  destruct (negb _); [done|]. destruct (forget tid (sandboxId r) p) as [p'|] eqn:Hf; [|done].
  eexists. apply (lookup_set_pc _ c). unfold forget in Hf. destruct (jm_has _ _); [|done].
  by injection Hf as <-.
Qed.

Lemma recover_at e tid rest p c :
  tasks p !! tid = Some c ->
  exists c', tasks (recover params e tid rest p) !! tid = Some c' /\ kind_of c' = k_start /\
             before_load c' = false.
Proof.
  revert p. induction rest as [|r rest IH]; intros p Hc; cbn [recover].
  - unfold sweep. edestruct (recycle_at tid) as [s Hs]; [|eexists; split; [exact Hs|done]]. exact Hc.
  - destruct (negb _); [by apply IH|]. destruct (state r); [|by apply IH].
    eexists. split; [by apply (lookup_set_pc _ c)|done].
Qed.

Lemma quiet_answer e tid c a p p' :
  quiet c = true -> records p = [] -> awaits_backend c = false ->
  resume params e tid c a p = Some p' -> only_loads p -> only_loads p'.
Proof.
  intros Hq Hr Hw Hres Hol. destruct c; try done; cbn in Hres.
  - destruct a; try done; cbn in Hres; simplify_eq; [done|].
    intros tid' op [Hin|[= _ ->]%list_elem_of_singleton]%elem_of_app; [by apply (Hol tid')|done].
  - destruct a; try done; cbn in Hres; [|by simplify_eq]. by destruct (the_filler p) as [[]|]; simplify_eq.
  - destruct a; try done; cbn in Hres. destruct (forallb _ _); [|done]. rewrite Hr in Hres.
    destruct drain; by simplify_eq.
Qed.

Lemma exec_unloaded l (s s' : sys) :
  sound (sview s) -> unloaded s -> exec params l s = Some s' -> unloaded s'.
Proof.
  intros I U He Hb'. pose proof (exec_moves l s s' I U He) as Hs.
  assert (Hb : before_loading (sview s)) by (eapply before_loading_back; eauto; apply I).
  destruct (U Hb) as [(m & Hm & Hi & Hle) Hol].
  pose proof (a_early _ (sd_phases _ I) Hb) as Hearly. pose proof Hearly as (Hrec & Hst & Hquiet).
  cbn in Hrec, Hst. destruct l as [|waitMs err|dr| |e tid a|e f]; cbn in He.
  - destruct (existsb start_pending _); [done|]. injection He as <-. split; [eauto|].
    unfold only_loads, start. cbn. by repeat case_match.
  - injection He as <-. split; [eauto|]. unfold only_loads, take, requireOpen. cbn.
    by repeat case_match.
  - injection He as <-. split; [eauto|]. unfold only_loads, close. cbn.
    by repeat case_match.
  - injection He as <-. split; [eauto|done].
  - destruct (tasks (the_pool s) !! tid) as [c|] eqn:Hc; [|done]. cbn in He.
    destruct (awaits_backend c) eqn:Hw; [done|].
    assert (Hres : exists p', resume params e tid c a (the_pool s) = Some p' /\ the_pool s' = p' /\
              backend_state s' = backend_state s /\ forall id, id ∈ issued s -> id ∈ issued s').
    { destruct (launch_id a) as [id|].
      - destruct (_ || _); [done|]. destruct (resume _ _ _ _ _ _) as [p'|]; [|done]. injection He as <-.
        exists p'. split_and!; try done. all: cbn; set_solver.
      - destruct (resume _ _ _ _ _ _) as [p'|]; [|done]. injection He as <-. by exists p'. }
    destruct Hres as (p' & Hres & -> & -> & Hsub). split; [exists m; eauto|].
    by eapply (quiet_answer e tid c a (the_pool s)); eauto.
  - destruct (queue (the_pool s)) as [|[tid op] q] eqn:Hq; [done|].
    destruct (tasks (the_pool s) !! tid) as [c|] eqn:Hc; [|done]. cbn in He.
    assert (op = OpLoad) as -> by (apply (Hol tid); rewrite Hq; set_solver).
    assert (Hol' : only_loads (with_queue (fun _ => q) (the_pool s))).
    { intros tid' op Hin. apply (Hol tid'). rewrite Hq. set_solver. }
    pose proof (Hquiet tid c Hc) as Hqc. cbn in He.
    destruct (resume _ _ _ _ _ _) as [p'|] eqn:Hr; [|done]. injection He as <-. split; [eauto|].
    destruct (awaits_backend c) eqn:Hw.
    2: { eapply (quiet_answer e tid c _ (with_queue (fun _ => q) (the_pool s))); done. }
    destruct c; try done. cbn in Hr. destruct (backend_load f _) as [l|]; cbn in Hr; simplify_eq; [|done].
    exfalso. pose proof (step_sound params bound _ _ Hs I) as I'.
    destruct (recover_at e tid l (with_queue (fun _ => q) (the_pool s)) St_loading Hc) as (c' & Hc' & Hk & Hbl).
    pose proof (a_early _ (sd_phases _ I') Hb') as (_ & _ & Hquiet').
    by rewrite (quiet_start c' (Hquiet' tid c' Hc') Hk) in Hbl.
Qed.

(** The invariant of the system. *)
Record sinv (s : sys) : Prop := {
  si_inv : inv (size params) (fillConcurrency params) bound (sview s);
  si_unloaded : unloaded s
}.

Lemma inv_sound sz conc bd k : inv sz conc bd k -> sound k.
Proof. by intros []. Qed.

Lemma exec_sinv l (s s' : sys) :
  0 <= fillConcurrency params -> sinv s -> exec params l s = Some s' -> sinv s'.
Proof.
  intros Hf [I U] He. pose proof (inv_sound _ _ _ _ I) as Hs. split.
  - eapply moves_inv; [done| |done]. by eapply exec_moves.
  - by eapply exec_unloaded.
Qed.

Lemma new_pool_inv (mono : Z) ids :
  inv (size params) (fillConcurrency params) bound (view ids (new_pool mono)).
Proof.
  split; [| | | |].
  - split; try done. split; [by apply NoDup_nil_2|]. intros n Hn. by apply elem_of_nil in Hn.
  - split; try done.
    + split; [by apply NoDup_nil_2|]. intros k r Hin. by apply elem_of_nil in Hin.
    + intros id. cbn. lia.
  - by split.
  - by intros i c id Hi.
  - unfold within, potential. cbn. lia.
Qed.

Lemma initial_sinv (s : sys) m : initial m s -> (length m <= bound)%nat -> sinv s.
Proof.
  intros [[mono Hp] Hm Hi] Hle. split.
  - unfold sview. rewrite Hp. apply new_pool_inv.
  - intros _. split; [by exists m|]. rewrite Hp. intros tid op Hin. by apply elem_of_nil in Hin.
Qed.

Lemma reachable_sinv (s0 s : sys) :
  0 <= fillConcurrency params -> sinv s0 -> reachable params s0 s -> sinv s.
Proof. intros Hf Hi. induction 1; [done|]. by eapply exec_sinv. Qed.
End System.
