(* ===== verification/PoolTheorems.v ===== *)
(** * PoolTheorems: what the pool guarantees in every interleaving

    The properties of pool.ts, for every sequence of calls, answers and backend
    faults, over any lawful backend; and two runs the code allows but should not. *)

From stdpp Require Import base option list strings sets relations.
From Stdlib Require Import ZArith QArith Lia Permutation.
From S2P Require Import Prelude JsMap Limits PoolCore PoolBackend Pool PoolSafety PoolRefine.

Local Open Scope Z_scope.

Section Guarantees.
Context {B F : Type} `{PoolBackendLaws B F} (params : pool_params).

Lemma reachable_inv m (s0 s : system B) :
  0 <= fillConcurrency params -> initial m s0 -> reachable params s0 s ->
  inv (size params) (fillConcurrency params) (length m) (sview s).
Proof.
  intros Hf Hi Hr. assert (Hs : sinv params (length m) s0) by (by apply (initial_sinv _ _ _ m)).
  by destruct (reachable_sinv params (length m) s0 s Hf Hs Hr).
Qed.

(** A task that holds an id leaves nothing of it to anybody else. *)
Lemma sole_owner k i ci id :
  owned k -> tks k !! i = Some ci -> id ∈ owns ci ->
  rdy id (recs k) = 0%nat /\ own id ci = 1%nat /\
  forall j cj, j <> i -> tks k !! j = Some cj -> id ∉ owns cj.
Proof.
  intros O Hi Hin. pose proof (o_one k O id) as Hone. unfold owners in Hone.
  assert (Hown : forall c, id ∈ owns c -> (1 <= own id c)%nat).
  { intros c Hc. unfold own. apply list_elem_of_In in Hc. by apply (count_occ_In String.string_dec) in Hc. }
  pose proof (Hown ci Hin). pose proof (tsum_member (own id) (tks k) i ci Hi) as Hm. cbn beta in Hm.
  split_and!; [lia|lia|]. intros j cj Hne Hj Hcj. pose proof (Hown cj Hcj).
  pose proof (tsum_members (own id) (tks k) i j ci cj (not_eq_sym Hne) Hi Hj). cbn beta in *. lia.
Qed.

End Guarantees.

(** ** A run of a small pool

    One slot is launched, settled, parked, taken and opened. *)

Definition demo_env : env := {| now := 1700000010000; monotonic := 0; random := 1 # 2; fresh_token := "tok" |}.

Definition demo_params : pool_params := {|
  size := 1; fillConcurrency := 1; minRemainingMs := 3600000; sweepIntervalMs := 30000; warmup := [];
  plane_region := "us-east-1" |}.

Definition demo_info (id : string) : SandboxInfo := {|
  info_sandboxId := id; info_state := "RUNNING"; info_endpoint := "e"; info_template := "arn";
  info_templateVersion := "1"; info_startedAt := 1700000000000;
  info_maximumDurationSeconds := num_of_Z 28800; info_idle := None; info_executionRoleArn := None;
  info_ingress := []; info_egress := [] |}.

Definition answers {F} (tid : nat) (l : list answer) : list (label F) := L_answer demo_env tid <$> l.

(** [start] over an empty backend. *)
Definition start_labels {F} (ok : F) : list (label F) :=
  L_start :: answers 0 [A_text "arn"] ++ [L_backend demo_env ok] ++ answers 0 [A_listed []].

(** The warm-up of task [tid], until its slot is parked. *)
Definition warm_labels {F} (ok : F) (tid : nat) (id : string) : list (label F) :=
  answers tid [A_ok; A_launched (demo_info id)] ++ [L_backend demo_env ok] ++
  answers tid [A_ok; A_ok; A_ok; A_bool true; A_info (demo_info id)] ++ [L_backend demo_env ok].

(** A take by task [tid], until it returns the sandbox. *)
Definition take_labels {F} (ok : F) (tid : nat) : list (label F) :=
  L_take 0 None :: answers tid [A_ok] ++ [L_backend demo_env ok] ++ answers tid [A_bool true; A_ok; A_ok].

Definition empty_system {B} (b : B) : system B :=
  {| the_pool := new_pool 0; backend_state := b; issued := [] |}.

Definition after {B F} `{PoolBackend B F} (ps : pool_params) (ls : list (label F)) (s : system B) : system B :=
  default s (run ps ls s).

Lemma after_reachable {B F} `{PoolBackend B F} ps (ls : list (label F)) (s : system B) :
  reachable ps s (after ps ls s).
Proof.
  unfold after. destruct (run ps ls s) as [s'|] eqn:Hr; [|constructor].
  by eapply run_reachable; [constructor|].
Qed.

Definition demo_start : system (jsmap SlotRecord) := empty_system [].
Definition demo_labels : list (label unit) :=
  start_labels tt ++ warm_labels tt 2 "vm-1" ++ take_labels tt 3.
Definition demo_end : system (jsmap SlotRecord) := after demo_params demo_labels demo_start.

Lemma empty_initial : initial [] demo_start.
Proof.
  split; [by exists 0|split_and!; [done|split; [by apply NoDup_nil_2|]|]|].
  - intros k r Hin. by apply elem_of_nil in Hin.
  - intros r Hin. by apply elem_of_nil in Hin.
  - intros r Hin. by apply elem_of_nil in Hin.
Qed.

Definition demo_tasks : list pc := tasks (the_pool demo_end).

(** ** Ownership *)

Section Theorems.
Context {B F : Type} `{PoolBackendLaws B F} (params : pool_params).
Implicit Types (s : system B).

(** C1. A slot has one owner.  Whatever the interleaving of takes, warm-ups,
    sweeps, backend faults and a close: while a task holds a sandbox (a take that
    popped it or returned it, the sweep or a drain about to terminate it, the
    warm-up that launched it), the pool does not offer it as parked and no other
    task holds it.  So no two takes get the same sandbox, and nothing the pool
    does on its own terminates a sandbox it handed out. *)
Theorem slot_has_one_owner m s0 s i ci id :
  0 <= fillConcurrency params -> initial m s0 -> reachable params s0 s ->
  tasks (the_pool s) !! i = Some ci -> id ∈ owns ci ->
  (forall r, jm_get id (records (the_pool s)) = Some r -> state r = warming) /\
  (forall j cj, j <> i -> tasks (the_pool s) !! j = Some cj -> id ∉ owns cj).
Proof.
  intros Hf Hi Hr Hc Hin. pose proof (reachable_inv params m s0 s Hf Hi Hr) as [].
  destruct (sole_owner _ i ci id inv_owned Hc Hin) as (Hz & _ & Hothers). split; [|done].
  intros r Hg. cbn in Hz. unfold rdy, is_ready in Hz. rewrite Hg in Hz. by destruct (state r).
Qed.

(** C2. The pool refines the ownership protocol: every step it takes, from any
    reachable state, is a sequence of the moves launch, register, park, claim,
    unregister, finish, recover and drain of PoolSafety, each legal where it
    happens. *)
Theorem pool_refines_ownership m s0 s l s' :
  0 <= fillConcurrency params -> initial m s0 -> reachable params s0 s -> exec params l s = Some s' ->
  rtc (move (size params) (fillConcurrency params) (length m)) (sview s) (sview s').
Proof.
  intros Hf Hi Hr He. assert (Hs : sinv params (length m) s0) by (by apply (initial_sinv _ _ _ m)).
  destruct (reachable_sinv params (length m) s0 s Hf Hs Hr) as [I U].
  eapply exec_moves; [by eapply inv_sound|done|done].
Qed.

(** ** Accounting *)

(** C3. The counters of [stats()] are truthful at every moment: a take that
    returned (or is configuring) a sandbox is counted once, as a hit or as a miss,
    so [takes === hits + misses]; and [warming] is the number of warm-ups in
    flight. *)
Theorem counters_truthful m s0 s :
  0 <= fillConcurrency params -> initial m s0 -> reachable params s0 s ->
  takes (counters (the_pool s)) = hits (counters (the_pool s)) + misses (counters (the_pool s)) /\
  takes (counters (the_pool s)) = Z.of_nat (tsum (fun c => b2n (served c)) (tasks (the_pool s))) /\
  inflight (the_pool s) = Z.of_nat (tsum (fun c => b2n (live_warmUp c)) (tasks (the_pool s))).
Proof. intros Hf Hi Hr. by destruct (reachable_inv params m s0 s Hf Hi Hr) as [_ _ [] _ _]. Qed.

(** The semaphore holds: a started pool never runs more than
    [fillConcurrency] warm-ups at once, and one waits only while all the permits
    are taken. *)
Theorem warm_ups_bounded m s0 s :
  0 <= fillConcurrency params -> initial m s0 -> reachable params s0 s -> started (the_pool s) = true ->
  Z.of_nat (tsum (fun c => b2n (running c)) (tasks (the_pool s))) <= fillConcurrency params /\
  forall i, tasks (the_pool s) !! i = Some W_queued ->
    Z.of_nat (tsum (fun c => b2n (running c)) (tasks (the_pool s))) = fillConcurrency params.
Proof.
  intros Hf Hi Hr Hst. destruct (reachable_inv params m s0 s Hf Hi Hr) as [_ _ [_ _ _ Hp Hfr Hw] _ _].
  specialize (Hp Hst). destruct (Hfr Hst) as [Hf0 Hq]. cbn in Hp, Hf0, Hq. split; [lia|].
  intros i Hc. specialize (Hw i Hc). cbn in Hw.
  destruct (decide (0 < sem_free (the_pool s))) as [Hpos|]; [|lia].
  rewrite (Hq Hpos) in Hw. by apply elem_of_nil in Hw.
Qed.

(** C4. The pool never over-provisions: the parked slots and the warm-ups that
    may still park one are at most [size], or at most the slots the backend held at
    the start (foreign and orphaned ones included) when those were
    more. *)
Theorem never_over_provisions m s0 s :
  0 <= fillConcurrency params -> initial m s0 -> reachable params s0 s ->
  (ready_count (records (the_pool s)) + tsum pending (tasks (the_pool s))
     <= Nat.max (Z.to_nat (size params)) (length m))%nat.
Proof. intros Hf Hi Hr. exact (inv_within _ _ _ _ (reachable_inv params m s0 s Hf Hi Hr)). Qed.

(** ** Draining *)

Lemma reachable_draining m s0 s1 s2 :
  0 <= fillConcurrency params -> initial m s0 -> reachable params s0 s1 ->
  draining (sview s1) -> reachable params s1 s2 -> draining (sview s2).
Proof.
  intros Hf Hi Hr1 Hd Hr2. assert (Hs : sinv params (length m) s0) by (by apply (initial_sinv _ _ _ m)).
  pose proof (reachable_sinv params (length m) s0 s1 Hf Hs Hr1) as Hs1.
  induction Hr2 as [|s l s' Hr2 IH He]; [done|].
  pose proof (reachable_sinv params (length m) s1 s Hf Hs1 Hr2) as [I U].
  pose proof (exec_moves params (length m) l s s' (inv_sound _ _ _ _ I) U He) as Hm.
  assert (Hgo : forall k k', rtc (move (size params) (fillConcurrency params) (length m)) k k' ->
            sound k -> draining k -> draining k').
  { clear. induction 1 as [|k1 k2 k3 M _ IH]; [done|]. intros [] Hd. apply IH.
    - split; eauto using move_phases, move_owned, move_snapshots.
    - by eapply move_draining. }
  eapply Hgo; [exact Hm|by eapply inv_sound|done].
Qed.

(** C5. [close({ drain: true })] of a started pool leaves nothing behind: once a
    drain is over, the pool holds no slot and no warm-up is in flight, and it
    stays so, whatever ran meanwhile. *)
Theorem drain_complete m s0 s1 s2 i :
  0 <= fillConcurrency params -> initial m s0 -> reachable params s0 s1 ->
  started (the_pool s1) = true -> aborted (the_pool s1) = false -> reachable params s1 s2 ->
  tasks (the_pool s2) !! i = Some C_drained ->
  records (the_pool s2) = [] /\
  forall j cj, tasks (the_pool s2) !! j = Some cj -> live_warmUp cj = false.
Proof.
  intros Hf Hi Hr1 Hst Hab Hr2 Hc.
  assert (Hd1 : draining (sview s1)).
  { split; [done|]. intros j c rest Hj Hrest. destruct (reachable_inv params m s0 s1 Hf Hi Hr1) as [P _ _ _ _].
    assert (Hcl : closing c = true) by (by destruct c). pose proof (a_abort _ P j c Hj Hcl) as Ha.
    cbn in Ha. congruence. }
  pose proof (reachable_draining m s0 s1 s2 Hf Hi Hr1 Hd1 Hr2) as [_ Hd2].
  assert (Hr : reachable params s0 s2) by (clear - Hr1 Hr2; induction Hr2; [done|by eapply reach_step]).
  destruct (reachable_inv params m s0 s2 Hf Hi Hr) as [P _ _ _ _]. split.
  - destruct (records (the_pool s2)) as [|[key r] rest] eqn:E; [done|].
    specialize (Hd2 i C_drained [] Hc eq_refl key). cbn in Hd2. rewrite E in Hd2.
    exfalso. apply (not_elem_of_nil key), Hd2. cbn. set_solver.
  - intros j cj Hj. by apply (a_drain _ P i C_drained Hc (ex_intro _ [] eq_refl) j).
Qed.

End Theorems.

(** ** The theorems at work *)

Lemma slot_has_one_owner_witness :
  tasks (the_pool demo_end) !! 3%nat = Some (T_done "vm-1") /\
  (forall r, jm_get "vm-1" (records (the_pool demo_end)) = Some r -> state r = warming) /\
  (forall j cj, j <> 3%nat -> tasks (the_pool demo_end) !! j = Some cj -> "vm-1" ∉ owns cj).
Proof.
  split; [vm_compute; reflexivity|].
  apply (slot_has_one_owner demo_params [] demo_start demo_end 3 (T_done "vm-1") "vm-1").
  - cbn. lia.
  - apply empty_initial.
  - apply after_reachable.
  - vm_compute. reflexivity.
  - cbn. set_solver.
Defined.

Lemma pool_refines_ownership_witness :
  rtc (move 1 1 0) (sview demo_end) (sview (after demo_params [L_take 0 None] demo_end)).
Proof.
  apply (pool_refines_ownership demo_params [] demo_start demo_end (L_take 0 None)).
  - cbn. lia.
  - apply empty_initial.
  - apply after_reachable.
  - vm_compute. reflexivity.
Defined.

Lemma counters_truthful_witness :
  takes (counters (the_pool demo_end)) = hits (counters (the_pool demo_end)) + misses (counters (the_pool demo_end)) /\
  takes (counters (the_pool demo_end)) = Z.of_nat (tsum (fun c => b2n (served c)) (tasks (the_pool demo_end))) /\
  inflight (the_pool demo_end) = Z.of_nat (tsum (fun c => b2n (live_warmUp c)) (tasks (the_pool demo_end))).
Proof.
  apply (counters_truthful demo_params [] demo_start demo_end);
    [cbn; lia|apply empty_initial|apply after_reachable].
Defined.

Lemma warm_ups_bounded_witness :
  Z.of_nat (tsum (fun c => b2n (running c)) (tasks (the_pool demo_end))) <= 1 /\
  forall i, tasks (the_pool demo_end) !! i = Some W_queued ->
    Z.of_nat (tsum (fun c => b2n (running c)) (tasks (the_pool demo_end))) = 1.
Proof.
  apply (warm_ups_bounded demo_params [] demo_start demo_end);
    [cbn; lia|apply empty_initial|apply after_reachable|vm_compute; reflexivity].
Defined.

Lemma never_over_provisions_witness :
  (ready_count (records (the_pool demo_end)) + tsum pending (tasks (the_pool demo_end)) <= 1)%nat.
Proof.
  apply (never_over_provisions demo_params [] demo_start demo_end);
    [cbn; lia|apply empty_initial|apply after_reachable].
Defined.

(** A close after the run: join the filler, settle, drain. *)
Definition close_labels : list (label unit) :=
  L_close true :: answers 1 [A_ok; A_ok] ++ answers 4 [A_ok; A_ok].
Definition demo_closed : system (jsmap SlotRecord) := after demo_params close_labels demo_end.

Lemma drain_complete_witness :
  tasks (the_pool demo_closed) !! 4%nat = Some C_drained /\ records (the_pool demo_closed) = [] /\
  forall j cj, tasks (the_pool demo_closed) !! j = Some cj -> live_warmUp cj = false.
Proof.
  split; [vm_compute; reflexivity|].
  apply (drain_complete demo_params [] demo_start demo_end demo_closed 4).
  - cbn. lia.
  - apply empty_initial.
  - apply after_reachable.
  - vm_compute. reflexivity.
  - vm_compute. reflexivity.
  - apply after_reachable.
  - vm_compute. reflexivity.
Defined.

(** ** Two runs the code allows *)

Definition two_params : pool_params := {|
  size := 2; fillConcurrency := 2; minRemainingMs := 3600000; sweepIntervalMs := 30000; warmup := [];
  plane_region := "us-east-1" |}.

(** The same platform record, launched [ms] later. *)
Definition later_info (id : string) (ms : Z) : SandboxInfo := {|
  info_sandboxId := id; info_state := "RUNNING"; info_endpoint := "e"; info_template := "arn";
  info_templateVersion := "1"; info_startedAt := 1700000000000 + ms;
  info_maximumDurationSeconds := num_of_Z 28800; info_idle := None; info_executionRoleArn := None;
  info_ingress := []; info_egress := [] |}.

Definition warm_info {F} (ok : F) (tid : nat) (info : SandboxInfo) : list (label F) :=
  answers tid [A_ok; A_launched info] ++ [L_backend demo_env ok] ++
  answers tid [A_ok; A_ok; A_ok; A_bool true; A_info info] ++ [L_backend demo_env ok].

(** Both slots are listed as running (the listing read them while they were
    warming up or resumed from outside); the sweep suspends the first, and in the
    meantime a take gets the second. *)
Definition race_labels : list (label unit) :=
  start_labels tt ++ warm_info tt 2 (later_info "vm-1" 1000) ++ warm_info tt 3 (later_info "vm-2" 0) ++
  answers 1 [A_ok] ++ [L_requestSweep] ++
  answers 1 [A_ok; A_listed [("vm-1", "RUNNING"); ("vm-2", "RUNNING")]] ++ take_labels tt 4.

Definition race_state : system (jsmap SlotRecord) := after two_params race_labels demo_start.
Definition race_next : system (jsmap SlotRecord) := after two_params (answers 1 [A_ok]) race_state.

(** A sweep can suspend a sandbox the pool has already handed out:
    [#reconcile] decides on the snapshot and the listing it took before its
    awaits, and calls [suspendMicrovm] without asking whether the slot is still
    the pool's.  Here the take of "vm-2" has returned, and the next step of the
    sweep is to suspend it. *)
Theorem repark_after_take :
  exists s l s' listed r,
    reachable two_params demo_start s /\ exec two_params l s = Some s' /\
    tasks (the_pool s) !! 4%nat = Some (T_done "vm-2") /\
    jm_get "vm-2" (records (the_pool s)) = None /\
    tasks (the_pool s') !! 1%nat = Some (F_sweeping (S_repark r listed [])) /\ sandboxId r = "vm-2".
Proof.
  exists race_state, (L_answer demo_env 1 A_ok), race_next, [("vm-1", "RUNNING"); ("vm-2", "RUNNING")].
  eexists. split; [apply after_reachable|]. split_and!; [vm_compute; reflexivity..|].
  vm_compute. reflexivity.
Qed.

(** A [Map] whose calls may fail, as any shared store's may. *)
#[export] Instance FlakyBackend : PoolBackend (jsmap SlotRecord) bool := {|
  persistent := true;
  no_fault := false;
  backend_load := fun fails m => if fails then Throw OtherError else InMemory.load m;
  backend_save := fun fails r m => if fails then (m, Throw OtherError) else InMemory.save r m;
  backend_delete := fun fails k m => if fails then (m, Throw OtherError) else InMemory.delete k m;
  contents := Some;
  admissible := fun _ => True
|}.

#[export] Instance FlakyBackend_laws : PoolBackendLaws (jsmap SlotRecord) bool.
Proof.
  split; unfold holds; cbn.
  - by intros [] b m l ([= ->] & _) [= <-].
  - done.
  - intros [] r b m ([= ->] & Hk & _) _; split_and!; auto using keyed_set.
  - done.
  - intros [] k b m ([= ->] & Hk & _); split_and!; auto using keyed_delete.
  - done.
Qed.

(** The instant "vm-1" is too old to hand out and "vm-2" is not. *)
Definition late_env : env :=
  {| now := 1700000000000 + 28800000 - 3600000 + 1000; monotonic := 0; random := 1 # 2; fresh_token := "tok" |}.

Definition orphan_labels : list (label bool) :=
  start_labels false ++ warm_info false 2 (later_info "vm-1" 0) ++
  warm_info false 3 (later_info "vm-2" 3600000) ++
  answers 1 [A_ok] ++ [L_requestSweep] ++ [L_answer late_env 1 A_ok; L_backend late_env true] ++
  [L_close true] ++ answers 4 [A_ok] ++ [L_close true].

Definition orphan_start : system (jsmap SlotRecord) := empty_system [].
Definition orphan_state : system (jsmap SlotRecord) :=
  @after _ bool FlakyBackend two_params orphan_labels orphan_start.

(** One failed backend call of a sweep ends the filler for good, and then
    [close({ drain: true })] drains nothing: it rejects with the filler's error
    before reaching the drain, and a second close returns at once because the
    pool is marked closed.  The parked slot stays suspended, still on the pool's
    books, with nobody left to terminate it. *)
Theorem close_skips_drain :
  exists s : system (jsmap SlotRecord),
    @reachable _ bool FlakyBackend two_params orphan_start s /\
    closed (the_pool s) = true /\ queue (the_pool s) = [] /\
    tasks (the_pool s) !! 1%nat = Some (F_rejected OtherError) /\
    tasks (the_pool s) !! 4%nat = Some (C_failed OtherError) /\
    tasks (the_pool s) !! 5%nat = Some C_done /\
    ready_count (records (the_pool s)) = 1%nat.
Proof.
  exists orphan_state. split; [apply (@after_reachable _ bool FlakyBackend)|].
  split_and!; vm_compute; reflexivity.
Qed.
