(* ===== verification/Network.v ===== *)
(** * Network: the egress policy of a sandbox

    src/clients/typescript/src/sandbox/network.ts: selectors are resolved into
    lists, [allowInternetAccess: false] denies all traffic, the shape is checked
    against the limits, and [create()] goes on only when the guest enforces the
    policy.  Entries are texts of UTF-16 code units.  [net.isIP] of Node is a
    parameter. *)

From stdpp Require Import base option list strings sets.
From Stdlib Require Import ZArith Lia.
From S2P Require Import Prelude Text.
From S2P Require RpcErrors.

(** ** The values a caller may pass *)

Record NetworkSelectorContext := { allTraffic : text; rules : list (text * unit) }.

(** A selector function is the caller's code: it may return anything, or throw. *)
Inductive nval :=
  | NUndefined
  | NNull
  | NBool (b : bool)
  | NNumber
  | NString (s : text)
  | NArray (items : list nval)
  | NObject (fields : list (text * nval))
  | NFunction (f : NetworkSelectorContext -> result nval).

Definition is_nullish (v : nval) : bool :=
  match v with NUndefined | NNull => true | _ => false end.

(** [object[key]]. *)
Fixpoint property (key : text) (fields : list (text * nval)) : nval :=
  match fields with
  | [] => NUndefined
  | (k, v) :: rest => if bool_decide (k = key) then v else property key rest
  end.

(** ** Data *)

Definition ALL_TRAFFIC : text := txt "0.0.0.0/0".
Definition EGRESS_MAX_ENTRIES_PER_LIST : nat := 256.
Definition EGRESS_MAX_HOSTNAME_ENTRIES : nat := 64.
Definition EGRESS_HOSTNAME_MAX_CHARS : nat := 253.
Definition EGRESS_PROXY_CREDENTIAL_MAX_BYTES : nat := 255.
Definition NETWORK_KEYS : list text := [txt "allowOut"; txt "denyOut"; txt "egressProxy"].
Definition EGRESS_PROXY_KEYS : list text := [txt "address"; txt "username"; txt "password"].
Definition IPV4_MAX_PREFIX : N := 32.
Definition IPV6_MAX_PREFIX : N := 128.
Definition SLASH : N := 47.

Record EgressProxyInput := {
  address : text;
  username : option text;
  password : option text
}.

Record ResolvedNetworkPolicy := {
  allowOut : list text;
  denyOut : list text;
  egressProxy : option EgressProxyInput
}.

Inductive EgressEnforcement :=
  | UNSPECIFIED | NONE | GUEST_ROUTES | GUEST_ROUTES_AND_PROXY.

#[export] Instance EgressEnforcement_eq_dec : EqDecision EgressEnforcement.
Proof. solve_decision. Defined.

Inductive feature := NETWORK_FEATURE | ALLOW_INTERNET_ACCESS_FEATURE.

(** ** Resolving *)

Definition selectorContext : NetworkSelectorContext := {| allTraffic := ALL_TRAFFIC; rules := [] |}.

(** [resolved.map(...)]: every entry a string. *)
Fixpoint strings_of (entries : list nval) : result (list text) :=
  match entries with
  | [] => Ok []
  | NString s :: rest => ss ← strings_of rest; Ok (s :: ss)
  | _ :: _ => Throw InvalidArgumentError
  end.

Definition resolveSelector (selector : nval) (context : NetworkSelectorContext) : result (list text) :=
  if is_nullish selector then Ok []
  else
    resolved ← match selector with NFunction f => f context | v => Ok v end;
    match resolved with
    | NArray entries => strings_of entries
    | _ => Throw InvalidArgumentError
    end.

Definition validatedAllowInternetAccess (v : nval) : result (option bool) :=
  match v with
  | NUndefined => Ok None
  | NBool b => Ok (Some b)
  | _ => Throw InvalidArgumentError
  end.

Definition rejectUnknownKeys (fields : list (text * nval)) (known : list text) : result unit :=
  throw_if (negb (forallb (fun f => bool_decide (f.1 ∈ known)) fields)) InvalidArgumentError.

Definition networkObject (network : nval) : result (list (text * nval)) :=
  match network with
  | NUndefined | NNull => Ok []
  | NObject fields => _ ← rejectUnknownKeys fields NETWORK_KEYS; Ok fields
  | _ => Throw InvalidArgumentError
  end.

Definition requiredString (v : nval) : result text :=
  match v with NString s => Ok s | _ => Throw InvalidArgumentError end.

Definition optionalString (v : nval) : result (option text) :=
  if is_nullish v then Ok None else s ← requiredString v; Ok (Some s).

Definition resolveEgressProxy (v : nval) : result (option EgressProxyInput) :=
  match v with
  | NUndefined | NNull => Ok None
  | NObject fields =>
      _ ← rejectUnknownKeys fields EGRESS_PROXY_KEYS;
      a ← requiredString (property (txt "address") fields);
      u ← optionalString (property (txt "username") fields);
      p ← optionalString (property (txt "password") fields);
      Ok (Some {| address := a; username := u; password := p |})
  | _ => Throw InvalidArgumentError
  end.

Definition withAllTraffic (entries : list text) : list text :=
  if bool_decide (ALL_TRAFFIC ∈ entries) then entries else entries ++ [ALL_TRAFFIC].

Definition resolveNetwork (network allowInternetAccess : nval) : result ResolvedNetworkPolicy :=
  allow ← validatedAllowInternetAccess allowInternetAccess;
  input ← networkObject network;
  allowOut ← resolveSelector (property (txt "allowOut") input) selectorContext;
  denyOut ← resolveSelector (property (txt "denyOut") input) selectorContext;
  proxy ← resolveEgressProxy (property (txt "egressProxy") input);
  Ok {| allowOut := allowOut;
        denyOut := if bool_decide (allow = Some false) then withAllTraffic denyOut else denyOut;
        egressProxy := proxy |}.

(** ** What the policy asks for *)

Definition requiresEnforcement (p : ResolvedNetworkPolicy) : bool :=
  bool_decide (denyOut p <> []) || bool_decide (is_Some (egressProxy p)).

Definition isEmptyPolicy (p : ResolvedNetworkPolicy) : bool :=
  bool_decide (allowOut p = []) && bool_decide (denyOut p = []) && negb (bool_decide (is_Some (egressProxy p))).

Definition egressFeature (p : ResolvedNetworkPolicy) (allowInternetAccess : option bool) : feature :=
  if bool_decide (allowInternetAccess = Some false) && bool_decide (allowOut p = [])
     && negb (bool_decide (is_Some (egressProxy p))) && bool_decide (denyOut p = [ALL_TRAFFIC])
  then ALLOW_INTERNET_ACCESS_FEATURE else NETWORK_FEATURE.

Definition rejectNetworkWithPool (p : ResolvedNetworkPolicy) : result unit :=
  throw_if (negb (isEmptyPolicy p)) InvalidArgumentError.

(** ** The shape *)

Section Shape.
Context (isIP : text -> N).

Definition isNetworkEntry (entry : text) : bool :=
  let slash := index_of SLASH entry in
  let family := isIP (match slash with Some i => take i entry | None => entry end) in
  if (family =? 0)%N then false else
  match slash with
  | None => true
  | Some i =>
      let prefix := drop (S i) entry in
      if forallb is_digit prefix && (1 <=? length prefix)%nat && (length prefix <=? 3)%nat
      then (parse_nat 10 prefix <=? (if family =? 4 then IPV4_MAX_PREFIX else IPV6_MAX_PREFIX))%N
      else false
  end.

Definition validateList (entries : list text) : result unit :=
  _ ← throw_if (EGRESS_MAX_ENTRIES_PER_LIST <? length entries)%nat InvalidArgumentError;
  throw_if (existsb blank entries) InvalidArgumentError.

Definition validateDenyEntries (entries : list text) : result unit :=
  throw_if (negb (forallb isNetworkEntry entries)) InvalidArgumentError.

(** Without the leading [*.] and the final dot. *)
Definition hostnameLength (entry : text) : nat :=
  let e := if starts_with (txt "*.") entry then drop 2 entry else entry in
  length (if ends_with (txt ".") e then take (length e - 1) e else e).

Definition validateHostnameEntries (entries : list text) : result unit :=
  let hostnames := List.filter (fun e => negb (isNetworkEntry e)) entries in
  _ ← throw_if (existsb (fun e => EGRESS_HOSTNAME_MAX_CHARS <? hostnameLength e)%nat hostnames)
        InvalidArgumentError;
  throw_if (EGRESS_MAX_HOSTNAME_ENTRIES <? length hostnames)%nat InvalidArgumentError.

Definition validateCredential (value : option text) : result unit :=
  match value with
  | None => Ok tt
  | Some v =>
      let bytes := utf8_length v in
      throw_if ((bytes =? 0) || (EGRESS_PROXY_CREDENTIAL_MAX_BYTES <? bytes))%nat InvalidArgumentError
  end.

Definition validateEgressProxy (proxy : EgressProxyInput) : result unit :=
  _ ← throw_if (blank (address proxy)) InvalidArgumentError;
  _ ← throw_if (bool_decide (is_Some (password proxy)) && negb (bool_decide (is_Some (username proxy))))
        InvalidArgumentError;
  _ ← validateCredential (username proxy);
  validateCredential (password proxy).

Definition validatePolicyShape (p : ResolvedNetworkPolicy) : result unit :=
  _ ← validateList (allowOut p);
  _ ← validateList (denyOut p);
  _ ← validateDenyEntries (denyOut p);
  _ ← validateHostnameEntries (allowOut p);
  match egressProxy p with
  | Some proxy => validateEgressProxy proxy
  | None => Ok tt
  end.
End Shape.

(** ** The wire, and the gate of [create()] *)

(** The protobuf messages. *)
Record EgressProxyMessage := { pb_address : text; pb_username : option text; pb_password : option text }.
Record NetworkPolicyMessage := {
  pb_allowOut : list text; pb_denyOut : list text; pb_egressProxy : option EgressProxyMessage }.
Record NetworkStateMessage := {
  st_allowOut : list text; st_denyOut : list text; st_egressProxyConfigured : bool;
  st_enforcement : Z; st_localProxyPort : Z }.

Record NetworkState := {
  ns_allowOut : list text;
  ns_denyOut : list text;
  egressProxyConfigured : bool;
  enforcement : EgressEnforcement;
  localProxyPort : option Z
}.

Definition egressProxyToProto (proxy : EgressProxyInput) : EgressProxyMessage :=
  {| pb_address := address proxy; pb_username := username proxy; pb_password := password proxy |}.

Definition policyToProto (p : ResolvedNetworkPolicy) : NetworkPolicyMessage :=
  {| pb_allowOut := allowOut p; pb_denyOut := denyOut p;
     pb_egressProxy := egressProxyToProto <$> egressProxy p |}.

(** The enum's wire numbers: 1 NONE, 2 GUEST_ROUTES, 3 GUEST_ROUTES_AND_PROXY. *)
Definition enforcementFromProto (v : Z) : EgressEnforcement :=
  if (v =? 1)%Z then NONE
  else if (v =? 2)%Z then GUEST_ROUTES
  else if (v =? 3)%Z then GUEST_ROUTES_AND_PROXY
  else UNSPECIFIED.

Definition stateFromProto (m : NetworkStateMessage) : NetworkState := {|
  ns_allowOut := st_allowOut m;
  ns_denyOut := st_denyOut m;
  egressProxyConfigured := st_egressProxyConfigured m;
  enforcement := enforcementFromProto (st_enforcement m);
  localProxyPort := if (st_localProxyPort m =? 0)%Z then None else Some (st_localProxyPort m)
|}.

Definition isEnforced (e : EgressEnforcement) : bool :=
  negb (bool_decide (e = UNSPECIFIED)) && negb (bool_decide (e = NONE)).

Definition egressGateError (e : EgressEnforcement) (f : feature) : option (error_class * feature) :=
  if isEnforced e then None else Some (UnimplementedError, f).

(** The error of the network RPCs; its message and feature are not modelled. *)
Definition networkRpcError (error : RpcErrors.thrown) : RpcErrors.thrown :=
  match error with
  | RpcErrors.ConnectError RpcErrors.FailedPrecondition _ _ | RpcErrors.ConnectError RpcErrors.Unimplemented _ _ =>
      RpcErrors.OwnError UnimplementedError None None false None
  | _ => RpcErrors.translateRpcError false error
  end.

(** [loggersNoticed] is the set of loggers already told; the second component:
    whether this call logs. *)
Definition logAllowOnlyNotice (p : ResolvedNetworkPolicy) (logger : option nat) (noticed : list nat)
    : list nat * bool :=
  match logger with
  | None => (noticed, false)
  | Some l =>
      if bool_decide (l ∈ noticed) then (noticed, false)
      else if bool_decide (allowOut p = []) || requiresEnforcement p then (noticed, false)
      else (l :: noticed, true)
  end.

(** ** Lemmas *)

Lemma elem_of_withAllTraffic x entries :
  x ∈ withAllTraffic entries <-> x ∈ entries \/ x = ALL_TRAFFIC.
Proof.
  unfold withAllTraffic. case_bool_decide as Hin; [naive_solver|].
  by rewrite elem_of_app, list_elem_of_singleton.
Qed.

Lemma requiresEnforcement_deny p x : x ∈ denyOut p -> requiresEnforcement p = true.
Proof.
  intros Hx. unfold requiresEnforcement. rewrite bool_decide_true; [done|].
  intros E. rewrite E in Hx. by apply elem_of_nil in Hx.
Qed.

Lemma egressGateError_None e f :
  egressGateError e f = None <-> e = GUEST_ROUTES \/ e = GUEST_ROUTES_AND_PROXY.
Proof. destruct e; cbn; naive_solver. Qed.

Record proxy_shape (proxy : EgressProxyInput) : Prop := {
  shape_address : blank (address proxy) = false;
  shape_user : is_Some (password proxy) -> is_Some (username proxy);
  shape_credentials : forall v, username proxy = Some v \/ password proxy = Some v ->
    (1 <= utf8_length v <= EGRESS_PROXY_CREDENTIAL_MAX_BYTES)%nat
}.


Lemma validateList_ok entries :
  validateList entries = Ok tt <->
  (length entries <= EGRESS_MAX_ENTRIES_PER_LIST)%nat /\ Forall (fun e => blank e = false) entries.
Proof.
  unfold validateList. rewrite bind_unit_ok, !throw_if_ok, Nat.ltb_ge.
  by rewrite (existsb_Forall blank (fun e => blank e = false)).
Qed.

Lemma validateCredential_ok value :
  validateCredential value = Ok tt <->
  forall v, value = Some v -> (1 <= utf8_length v <= EGRESS_PROXY_CREDENTIAL_MAX_BYTES)%nat.
Proof.
  destruct value as [v|]; cbn [validateCredential]; [|done]. cbv zeta. rewrite throw_if_ok, orb_false_iff, Nat.eqb_neq, Nat.ltb_ge.
  split; [intros ? ? [= <-]; lia|intros H; specialize (H v eq_refl); lia].
Qed.

Lemma validateEgressProxy_ok proxy : validateEgressProxy proxy = Ok tt <-> proxy_shape proxy.
Proof.
  unfold validateEgressProxy. rewrite !bind_unit_ok, !throw_if_ok, !validateCredential_ok.
  rewrite andb_false_iff, negb_false_iff, bool_decide_eq_false, bool_decide_eq_true.
  split.
  - intros (Ha & Hu & Hn & Hp). constructor; [done| |].
    + intros Hs. by destruct Hu.
    + intros v [Hv|Hv]; [by apply Hn|by apply Hp].
  - intros [Ha Hu Hc]. split_and!; [done| |naive_solver|naive_solver].
    destruct (decide (is_Some (password proxy))); [right; auto|by left].
Qed.
(** ** Entries of the lists *)

Section Entries.
Context (isIP : text -> N).

(** An address, or an address, a slash and a prefix length of its family. *)
Inductive network_entry : text -> Prop :=
  | plain_address a : SLASH ∉ a -> isIP a <> 0%N -> network_entry a
  | cidr a digits :
      SLASH ∉ a -> isIP a <> 0%N -> Forall (fun c => is_digit c = true) digits ->
      (1 <= length digits <= 3)%nat ->
      (parse_nat 10 digits <= if (isIP a =? 4)%N then IPV4_MAX_PREFIX else IPV6_MAX_PREFIX)%N ->
      network_entry (a ++ SLASH :: digits).

Lemma isNetworkEntry_spec entry : isNetworkEntry isIP entry = true <-> network_entry entry.
Proof.
  unfold isNetworkEntry. split.
  - destruct (index_of SLASH entry) as [i|] eqn:Hi; cbv zeta.
    + destruct (index_of_split _ _ _ Hi) as [Heq Hn]. destruct (N.eqb_spec (isIP (take i entry)) 0); [done|].
      destruct (forallb _ _ && _ && _) eqn:Hd; [|done].
      rewrite !andb_true_iff, forallb_forall, !Nat.leb_le in Hd. destruct Hd as [[Hd H1] H3].
      intros Hle%N.leb_le. rewrite Heq at 1. constructor; [done|done| |done|done].
      apply Forall_forall. intros x Hx. apply Hd. by apply list_elem_of_In.
    + apply index_of_None in Hi. destruct (N.eqb_spec (isIP entry) 0); [done|]. intros _. by constructor.
  - intros [a Ha H0|a digits Ha H0 Hd Hlen Hle].
    + rewrite (proj2 (index_of_None _ _) Ha). cbv zeta. by rewrite (proj2 (N.eqb_neq _ _) H0).
    + rewrite index_of_app by done. cbv zeta. rewrite take_app_length.
      rewrite (proj2 (N.eqb_neq _ _) H0).
      replace (drop (S (length a)) (a ++ SLASH :: digits)) with digits
        by (by rewrite (cons_middle SLASH), app_assoc, drop_app_length' by (rewrite length_app; cbn; lia)).
      rewrite (proj2 (forallb_forall is_digit digits)).
      * rewrite !(proj2 (Nat.leb_le _ _)) by lia. cbn [andb]. by apply N.leb_le.
      * intros x Hx. rewrite Forall_forall in Hd. apply Hd. by apply list_elem_of_In.
Qed.

(** What the agent's limits allow. *)
Record policy_shape (p : ResolvedNetworkPolicy) : Prop := {
  shape_lengths : (length (allowOut p) <= EGRESS_MAX_ENTRIES_PER_LIST)%nat /\
                  (length (denyOut p) <= EGRESS_MAX_ENTRIES_PER_LIST)%nat;
  shape_not_blank : Forall (fun e => blank e = false) (allowOut p ++ denyOut p);
  shape_deny : Forall network_entry (denyOut p);
  shape_hostnames : Forall (fun e => network_entry e \/ (hostnameLength e <= EGRESS_HOSTNAME_MAX_CHARS)%nat)
                      (allowOut p);
  shape_hostname_count :
    (length (List.filter (fun e => negb (isNetworkEntry isIP e)) (allowOut p)) <= EGRESS_MAX_HOSTNAME_ENTRIES)%nat;
  shape_proxy : forall proxy, egressProxy p = Some proxy -> proxy_shape proxy
}.

Lemma validateHostnameEntries_ok entries :
  validateHostnameEntries isIP entries = Ok tt <->
  Forall (fun e => network_entry e \/ (hostnameLength e <= EGRESS_HOSTNAME_MAX_CHARS)%nat) entries /\
  (length (List.filter (fun e => negb (isNetworkEntry isIP e)) entries) <= EGRESS_MAX_HOSTNAME_ENTRIES)%nat.
Proof.
  unfold validateHostnameEntries. cbv zeta. rewrite bind_unit_ok, !throw_if_ok, Nat.ltb_ge.
  f_equiv. induction entries as [|e l IH]; cbn [List.filter]; [by split; constructor|].
  rewrite Forall_cons, <- IH, <- isNetworkEntry_spec.
  destruct (isNetworkEntry isIP e); cbn [negb existsb]; [naive_solver|].
  rewrite orb_false_iff, Nat.ltb_ge. naive_solver.
Qed.

End Entries.

(** The shape check accepts exactly the policies within the agent's limits:
    at most 256 entries a list, none blank, addresses or CIDR blocks of the right
    family in [denyOut], at most 64 host names of at most 253 characters in
    [allowOut], and a proxy with an address, no password without a user, and
    credentials of 1 to 255 bytes. *)
Theorem validatePolicyShape_exact isIP p : validatePolicyShape isIP p = Ok tt <-> policy_shape isIP p.
Proof.
  unfold validatePolicyShape.
  rewrite !bind_unit_ok, !validateList_ok, validateHostnameEntries_ok.
  unfold validateDenyEntries.
  rewrite throw_if_ok, negb_false_iff, (forallb_Forall _ (network_entry isIP)) by apply isNetworkEntry_spec.
  assert ((match egressProxy p with Some proxy => validateEgressProxy proxy | None => Ok tt end) = Ok tt <->
          forall proxy, egressProxy p = Some proxy -> proxy_shape proxy) as ->.
  { destruct (egressProxy p) as [q|]; [|done]. rewrite validateEgressProxy_ok.
    split; [by intros ? ? [= <-]|auto]. }
  split.
  - intros ([? ?] & [? ?] & ? & [? ?] & ?). constructor; try done. by apply Forall_app.
  - intros [[? ?] [? ?]%Forall_app ? ? ? ?]. done.
Qed.

(** C24. [allowInternetAccess: false] fails closed: whatever the policy, the one
    sent to the guest denies all traffic on top of the caller's list, it needs
    enforcement, and [create()] goes on only if the guest reports that it enforces
    routes; an enforcement value this SDK does not know does not pass. *)
Theorem resolveNetwork_fail_closed network p (wire : Z) :
  resolveNetwork network (NBool false) = Ok p ->
  requiresEnforcement p = true /\
  (egressGateError (enforcementFromProto wire) (egressFeature p (Some false)) = None -> wire = 2%Z \/ wire = 3%Z) /\
  exists p0, resolveNetwork network NUndefined = Ok p0 /\
    allowOut p = allowOut p0 /\ egressProxy p = egressProxy p0 /\
    forall x, x ∈ pb_denyOut (policyToProto p) <-> x ∈ denyOut p0 \/ x = ALL_TRAFFIC.
Proof.
  unfold resolveNetwork. cbn [validatedAllowInternetAccess mbind result_bind].
  destruct (networkObject network) as [input|]; cbn [mbind result_bind]; [|done].
  destruct (resolveSelector (property (txt "allowOut") input) _) as [allow|]; cbn [mbind result_bind]; [|done].
  destruct (resolveSelector (property (txt "denyOut") input) _) as [deny|]; cbn [mbind result_bind]; [|done].
  destruct (resolveEgressProxy _) as [proxy|]; cbn [mbind result_bind]; [|done].
  rewrite bool_decide_true by done. intros [= <-]. split_and!.
  - apply (requiresEnforcement_deny _ ALL_TRAFFIC). cbn [denyOut]. rewrite elem_of_withAllTraffic. by right.
  - rewrite egressGateError_None. unfold enforcementFromProto.
    destruct (Z.eqb_spec wire 1), (Z.eqb_spec wire 2), (Z.eqb_spec wire 3); naive_solver.
  - eexists. split; [done|]. split_and!; [done|done|]. intros x. apply elem_of_withAllTraffic.
Qed.

Lemma resolveNetwork_fail_closed_witness :
  let network := NObject [(txt "allowOut", NFunction (fun ctx => Ok (NArray [NString (allTraffic ctx)])))] in
  let p := {| allowOut := [ALL_TRAFFIC]; denyOut := [ALL_TRAFFIC]; egressProxy := None |} in
  resolveNetwork network (NBool false) = Ok p /\ requiresEnforcement p = true.
Proof.
  assert (resolveNetwork (NObject [(txt "allowOut", NFunction (fun ctx => Ok (NArray [NString (allTraffic ctx)])))])
            (NBool false) = Ok {| allowOut := [ALL_TRAFFIC]; denyOut := [ALL_TRAFFIC]; egressProxy := None |}) as E
    by (vm_compute; reflexivity).
  split; [exact E|]. exact (proj1 (resolveNetwork_fail_closed _ _ 2 E)).
Defined.
