(* ===== verification/DockerIgnore.v ===== *)
(** * DockerIgnore: which files a [.dockerignore] leaves out

    src/clients/typescript/src/templates/dockerignore.ts.  Texts are lists of code
    points ([Array.from] of the source); a position in a list is the suffix that
    starts there.  The loops over positions take fuel; the lemmas show that the
    fuel given is enough. *)

From stdpp Require Import base option list strings sets.
From Stdlib Require Import NArith Lia.
From S2P Require Import Prelude Text.

Local Open Scope N_scope.

(** ** The source's constants *)

Definition PATH_SEPARATOR : N := 47.
Definition COMMENT_PREFIX : N := 35.
Definition NEGATION_PREFIX : N := 33.
Definition CURRENT_DIR : text := [46].
Definition PARENT_DIR : text := [46; 46].
Definition GLOBSTAR : text := [42; 42].
Definition STAR : N := 42.
Definition ANY_CHAR : N := 63.
Definition ESCAPE : N := 92.
Definition CLASS_OPEN : N := 91.
Definition CLASS_CLOSE : N := 93.
Definition CLASS_NEGATIONS : list N := [33; 94].
Definition CLASS_RANGE : N := 45.
Definition LINE_SEPARATOR : N := 10.
Definition UTF8_BOM : N := 65279.

(** ** Patterns *)

Record CharClass := { ranges : list (N * N); class_negated : bool }.

Inductive Token :=
  | Literal (c : N)
  | WILDCARD_STAR
  | WILDCARD_ANY
  | Class_ (c : CharClass).

#[export] Instance CharClass_eq_dec : EqDecision CharClass.
Proof. solve_decision. Defined.
#[export] Instance Token_eq_dec : EqDecision Token.
Proof. solve_decision. Defined.

(** [None] in the place of a [**] segment. *)
Record Pattern := { segments : list (option (list Token)); negated : bool }.

(** [segments.push]/[pop] on the reversed list. *)
Definition clean_step (acc : list text) (segment : text) : list text :=
  if bool_decide (segment = []) || bool_decide (segment = CURRENT_DIR) then acc
  else match acc with
       | top :: rest =>
           if bool_decide (segment = PARENT_DIR) && negb (bool_decide (top = PARENT_DIR))
           then rest else segment :: acc
       | [] => [segment]
       end.

Definition clean_segments (parts : list text) : list text := reverse (foldl clean_step [] parts).

Definition cleanPattern (pattern : text) : text :=
  join [PATH_SEPARATOR] (clean_segments (split_on PATH_SEPARATOR pattern)).

(** The character at the head of [char :: rest] and what follows it. *)
Definition escapedChar (char : N) (rest : text) : N * text :=
  match rest with
  | next :: rest' => if char =? ESCAPE then (next, rest') else (char, rest)
  | [] => (char, rest)
  end.

(** The loop of [readClass]: the ranges and what follows the closing bracket. *)
Fixpoint read_ranges (fuel : nat) (chars : text) (acc : list (N * N)) : option (list (N * N) * text) :=
  match fuel, chars with
  | S fuel', c :: rest =>
      if (c =? CLASS_CLOSE) && negb (bool_decide (acc = [])) then Some (acc, rest)
      else
        let (low, after) := escapedChar c rest in
        match after with
        | dash :: h :: rest' =>
            if (dash =? CLASS_RANGE) && negb (h =? CLASS_CLOSE)
            then let (high, after') := escapedChar h rest' in read_ranges fuel' after' (acc ++ [(low, high)])
            else read_ranges fuel' after (acc ++ [(low, low)])
        | _ => read_ranges fuel' after (acc ++ [(low, low)])
        end
  | _, _ => None
  end.

(** [readClass] on what follows the opening bracket. *)
Definition readClass (chars : text) : option (CharClass * text) :=
  let neg := match chars with c :: _ => bool_decide (c ∈ CLASS_NEGATIONS) | [] => false end in
  let body := if neg then drop 1 chars else chars in
  '(rs, rest) ← read_ranges (length body) body [];
  Some ({| ranges := rs; class_negated := neg |}, rest).

(** [tokens] so far is reversed: [tokens.at(-1)] is its head. *)
Fixpoint tokenize_loop (fuel : nat) (chars : text) (tokens : list Token) : list Token :=
  match fuel, chars with
  | S fuel', c :: rest =>
      match (if c =? CLASS_OPEN then readClass rest else None) with
      | Some (cls, rest') => tokenize_loop fuel' rest' (Class_ cls :: tokens)
      | None =>
          if c =? STAR then
            tokenize_loop fuel' rest
              (match tokens with WILDCARD_STAR :: _ => tokens | _ => WILDCARD_STAR :: tokens end)
          else if c =? ANY_CHAR then tokenize_loop fuel' rest (WILDCARD_ANY :: tokens)
          else let (literal, next) := escapedChar c rest in
               tokenize_loop fuel' next (Literal literal :: tokens)
      end
  | _, _ => reverse tokens
  end.

Definition tokenize (segment : text) : list Token := tokenize_loop (length segment) segment [].

Definition tokenAdmits (token : Token) (char : N) : bool :=
  match token with
  | Class_ cls =>
      xorb (existsb (fun r => (r.1 <=? char) && (char <=? r.2)) (ranges cls)) (class_negated cls)
  | WILDCARD_ANY => true
  | WILDCARD_STAR => false
  | Literal c => c =? char
  end.

(** [while (tokens[tokenIndex] === WILDCARD_STAR) tokenIndex += 1], and the end of
    the tokens reached. *)
Definition only_stars (tokens : list Token) : bool :=
  forallb (fun t => match t with WILDCARD_STAR => true | _ => false end) tokens.

(** The loop of [segmentMatches]: the tokens and the name still to go, and where
    the last star was ([starToken + 1], [starName]).  [None]: out of fuel. *)
Fixpoint segment_loop (fuel : nat) (tokens : list Token) (name : text)
    (star : option (list Token * text)) : option bool :=
  match fuel with
  | O => None
  | S fuel' =>
      match name with
      | [] => Some (only_stars tokens)
      | char :: name' =>
          let back := match star with
                      | Some (after, starName) =>
                          segment_loop fuel' after (tail starName) (Some (after, tail starName))
                      | None => Some false
                      end in
          match tokens with
          | WILDCARD_STAR :: tokens' => segment_loop fuel' tokens' name (Some (tokens', name))
          | token :: tokens' =>
              if tokenAdmits token char then segment_loop fuel' tokens' name' star else back
          | [] => back
          end
      end
  end.

Definition segment_fuel (tokens : list Token) (name : text) : nat :=
  (length name + 2) * (length tokens + 1).

Definition segmentMatches (tokens : list Token) (name : text) : bool :=
  default false (segment_loop (segment_fuel tokens name) tokens name None).

Definition collapse_step (collapsed : list text) (segment : text) : list text :=
  if bool_decide (segment = GLOBSTAR) && bool_decide (head collapsed = Some GLOBSTAR)
  then collapsed else segment :: collapsed.

Definition collapseGlobstars (parts : list text) : list text := reverse (foldl collapse_step [] parts).

Definition compile_segment (segment : text) : option (list Token) :=
  if bool_decide (segment = GLOBSTAR) then None else Some (tokenize segment).

Definition compile (cleaned : text) (neg : bool) : Pattern := {|
  segments := compile_segment <$> collapseGlobstars (split_on PATH_SEPARATOR cleaned);
  negated := neg
|}.

(** ** Matching a path *)

(** The smallest of a non-empty set. *)
Definition smallest (values : list nat) : nat :=
  match values with
  | [] => 0
  | v :: vs => foldl Nat.min v vs
  end%nat.

(** One segment of the pattern: the positions reachable after it. *)
Definition advance (path : list text) (is_last : bool) (tokens : option (list Token))
    (reachable : list nat) : list nat :=
  match tokens with
  | None =>
      let start := (smallest reachable + (if is_last then 1 else 0))%nat in
      seq start (S (length path) - start)
  | Some ts =>
      position ← reachable;
      match path !! position with
      | Some name => if segmentMatches ts name then [S position] else []
      | None => []
      end
  end.

Fixpoint match_loop (path : list text) (segs : list (option (list Token))) (reachable : list nat)
    : list nat :=
  match segs with
  | [] => reachable
  | s :: rest =>
      match advance path (bool_decide (rest = [])) s reachable with
      | [] => []
      | next => match_loop path rest next
      end
  end.

Definition matchEnds (p : Pattern) (path : list text) : list nat := match_loop path (segments p) [0%nat].

Definition matchesOrParent (p : Pattern) (path : list text) : bool :=
  existsb (fun n => (0 <? n)%nat) (matchEnds p path).

(** ** [DockerIgnore] *)

(** The pattern of a line, cleaned, and whether it is negated. *)
Definition line_rule (rawLine : text) : option (text * bool) :=
  let line := trim rawLine in
  match line with
  | [] => None
  | c :: line' =>
      if c =? COMMENT_PREFIX then None
      else
        let neg := c =? NEGATION_PREFIX in
        let cleaned := cleanPattern (trim (if neg then line' else line)) in
        if bool_decide (cleaned = []) then None else Some (cleaned, neg)
  end.

Definition rules (s : text) : list (text * bool) :=
  let body := if starts_with [UTF8_BOM] s then drop 1 s else s in
  omap line_rule (split_on LINE_SEPARATOR body).

Definition fromText (s : text) : list Pattern := (fun r => compile r.1 r.2) <$> rules s.

Definition path_segments (relpath : text) : list text :=
  List.filter (fun s => negb (bool_decide (s = []))) (split_on PATH_SEPARATOR relpath).

Definition match_step (path : list text) (excluded : bool) (p : Pattern) : bool :=
  if negb (Bool.eqb (negated p) excluded) then excluded
  else if matchesOrParent p path then negb (negated p) else excluded.

Definition matches (patterns : list Pattern) (relpath : text) : bool :=
  foldl (match_step (path_segments relpath)) false patterns.

(** ** One segment: the reference semantics of a glob *)

Inductive glob : list Token -> text -> Prop :=
  | glob_nil : glob [] []
  | glob_star ts skipped s : glob ts s -> glob (WILDCARD_STAR :: ts) (skipped ++ s)
  | glob_char t ts c s : tokenAdmits t c = true -> glob ts s -> glob (t :: ts) (c :: s).

Lemma glob_star_inv ts s : glob (WILDCARD_STAR :: ts) s -> exists skipped s', s = skipped ++ s' /\ glob ts s'.
Proof. inversion 1; subst; [by eexists _, _|done]. Qed.

Lemma glob_cons_inv t ts c s :
  t <> WILDCARD_STAR -> glob (t :: ts) (c :: s) <-> tokenAdmits t c = true /\ glob ts s.
Proof. intros Ht. split; [inversion 1; naive_solver|]. intros [??]. by constructor. Qed.

Lemma glob_only_stars ts : glob ts [] <-> only_stars ts = true.
Proof.
  induction ts as [|t ts IH]; cbn; [split; [done|constructor]|].
  split.
  - inversion 1 as [|ts' sk s' H' E E'|]; subst. apply app_eq_nil in E' as [-> ->]. by apply IH.
  - destruct t; cbn; try done. intros H%IH. by apply (glob_star ts []).
Qed.

(** Tokens that each admit one character. *)
Abbreviation admit_all := (Forall2 (fun t c => tokenAdmits t c = true)).

Lemma admits_not_star t c : tokenAdmits t c = true -> t <> WILDCARD_STAR.
Proof. by intros H ->. Qed.

(** A glob that starts with one-character tokens. *)
Lemma glob_fixed_prefix fixed matched ts s :
  admit_all fixed matched -> glob (fixed ++ ts) s ->
  exists s1 s2, s = s1 ++ s2 /\ length s1 = length fixed /\ glob ts s2.
Proof.
  intros Hf. revert s. induction Hf as [|t c fixed matched Ht Hf IH]; intros s Hg; [by exists [], s|].
  cbn in Hg. inversion Hg as [|ts' sk s' H' E E'|t' ts' c' s' Ha H' E E']; subst.
  - by apply admits_not_star in Ht.
  - destruct (IH _ H') as (s1 & s2 & -> & Hlen & Hg'). exists (c' :: s1), s2. cbn. by rewrite Hlen.
Qed.

(** ** The greedy loop decides the glob *)

(** What the saved star still allows: its tokens against a later suffix. *)
Definition star_matches (star : option (list Token * text)) : Prop :=
  match star with
  | Some (after, starName) => exists pre suf, starName = pre ++ suf /\ pre <> [] /\ glob after suf
  | None => False
  end.

(** Between the saved star and the position, only one-character tokens were used. *)
Definition since_star (star : option (list Token * text)) (tokens : list Token) (name : text) : Prop :=
  match star with
  | Some (after, starName) => exists fixed matched,
      after = fixed ++ tokens /\ starName = matched ++ name /\ admit_all fixed matched
  | None => True
  end.

(** Going back to the star: its tokens from one character later. *)
Lemma star_matches_back after c starName :
  star_matches (Some (after, c :: starName)) <->
  glob after starName \/ star_matches (Some (after, starName)).
Proof.
  cbn. split.
  - intros (pre & suf & E & Hne & Hg). destruct pre as [|x pre]; [done|]. cbn in E. simplify_eq.
    destruct pre as [|y pre]; [by left|right]. by exists (y :: pre), suf.
  - intros [Hg|(pre & suf & -> & _ & Hg)]; [by exists [c], starName|].
    by exists (c :: pre), suf.
Qed.

(** Nothing is left to go back to once the name is used up. *)
Lemma star_matches_end star tokens : since_star star tokens [] -> star_matches star -> glob tokens [].
Proof.
  destruct star as [[after starName]|]; cbn; [|done].
  intros (fixed & matched & -> & -> & Hf) (pre & suf & E & Hne & Hg). exfalso.
  rewrite app_nil_r in E. destruct (glob_fixed_prefix _ _ _ _ Hf Hg) as (s1 & s2 & -> & Hlen & _).
  apply Forall2_length in Hf. apply (f_equal length) in E. rewrite !length_app in E.
  destruct pre; [done|]. cbn in E. lia.
Qed.

(** A new star makes the older one useless. *)
Lemma star_matches_newer star tokens name :
  since_star star (WILDCARD_STAR :: tokens) name -> star_matches star ->
  glob (WILDCARD_STAR :: tokens) name.
Proof.
  destruct star as [[after starName]|]; cbn; [|done].
  intros (fixed & matched & -> & -> & Hf) (pre & suf & E & _ & Hg).
  destruct (glob_fixed_prefix _ _ _ _ Hf Hg) as (s1 & s2 & -> & Hlen & Hs).
  apply glob_star_inv in Hs as (skipped & s' & -> & Hs).
  apply Forall2_length in Hf. rewrite !app_assoc in E.
  assert (exists more, name = more ++ s') as [more ->].
  { exists (drop (length matched) ((pre ++ s1) ++ skipped)).
    assert (length matched <= length ((pre ++ s1) ++ skipped))%nat by (rewrite !length_app; lia).
    apply (f_equal (drop (length matched))) in E. rewrite drop_app_length in E.
    rewrite E, drop_app_le; [done|lia]. }
  by constructor.
Qed.

Lemma glob_star_iff tokens name :
  glob (WILDCARD_STAR :: tokens) name <-> glob tokens name \/ star_matches (Some (tokens, name)).
Proof.
  split.
  - intros (skipped & s & -> & Hg)%glob_star_inv. destruct skipped as [|c skipped]; [by left|].
    right. by exists (c :: skipped), s.
  - intros [Hg|(pre & suf & -> & _ & Hg)]; [by apply (glob_star _ [])|by constructor].
Qed.

(** The measure: characters the star may still skip, then tokens. *)
Definition star_name (bound : nat) (star : option (list Token * text)) : nat :=
  match star with Some (_, starName) => length starName | None => S bound end.
Definition star_tokens_ok (bound : nat) (star : option (list Token * text)) : Prop :=
  match star with Some (after, _) => (length after <= bound)%nat | None => True end.

Lemma since_star_step star t tokens c name :
  tokenAdmits t c = true -> since_star star (t :: tokens) (c :: name) -> since_star star tokens name.
Proof.
  destruct star as [[after starName]|]; cbn; [|done]. intros Ht (fixed & matched & -> & -> & Hf).
  exists (fixed ++ [t]), (matched ++ [c]). rewrite <- !app_assoc. split_and!; [done|done|].
  apply Forall2_app; [done|]. by repeat constructor.
Qed.

Lemma segment_loop_spec T N fuel tokens name star :
  (length tokens <= T)%nat -> (length name <= N)%nat -> star_tokens_ok T star ->
  (length name <= star_name N star <= S N)%nat ->
  since_star star tokens name ->
  (star_name N star * S T + length tokens < fuel)%nat ->
  exists b, segment_loop fuel tokens name star = Some b /\
    (b = true <-> glob tokens name \/ star_matches star).
Proof.
  revert tokens name star. induction fuel as [|fuel IH]; intros tokens name star HT HN Hst Hsn Hs Hf; [lia|].
  cbn [segment_loop]. destruct name as [|c name].
  { exists (only_stars tokens). split; [done|]. rewrite <- glob_only_stars.
    split; [by left|]. intros [?|?]; [done|by eapply star_matches_end]. }
  cbv zeta.
  assert (Hback : ~ glob tokens (c :: name) ->
    exists b, (match star with
               | Some (after, starName) => segment_loop fuel after (tail starName) (Some (after, tail starName))
               | None => Some false end) = Some b /\ (b = true <-> glob tokens (c :: name) \/ star_matches star)).
  { intros Hn. destruct star as [[after [|c' starName]]|]; cbn [star_name] in *.
    - cbn in Hsn. lia.
    - cbn [tail length star_tokens_ok] in *. destruct (IH after starName (Some (after, starName))) as (b & E & Hb).
      + done. + lia. + done. + cbn. lia. + by exists [], []. + cbn. lia.
      + exists b. split; [done|]. rewrite Hb, star_matches_back. naive_solver.
    - exists false. split; [done|]. cbn. naive_solver. }
  destruct tokens as [|t tokens]; [apply Hback; inversion 1|].
  destruct (decide (t = WILDCARD_STAR)) as [->|Ht].
  - destruct (IH tokens (c :: name) (Some (tokens, c :: name))) as (b & E & Hb).
    + cbn in HT. lia. + done. + cbn in HT |- *. lia. + cbn. cbn in HN. lia. + by exists [], [].
    + cbn [star_name] in *. cbn [length] in Hf, HT, HN, Hsn |- *. nia.
    + exists b. split; [done|]. rewrite Hb, <- glob_star_iff.
      split; [by left|]. intros [?|?]; [done|by eapply star_matches_newer].
  - assert (segment_loop (S fuel) (t :: tokens) (c :: name) star =
        if tokenAdmits t c then segment_loop fuel tokens name star
        else match star with
             | Some (after, starName) => segment_loop fuel after (tail starName) (Some (after, tail starName))
             | None => Some false end) as E0 by (by destruct t).
    cbn [segment_loop] in E0. cbv zeta in E0. rewrite E0. clear E0.
    destruct (tokenAdmits t c) eqn:Hadm.
    + destruct (IH tokens name star) as (b & E & Hb).
      * cbn in HT. lia. * cbn in HN. lia. * done. * cbn in HN, Hsn. lia.
      * by eapply since_star_step. * cbn in Hf. lia.
      * exists b. split; [done|]. rewrite Hb, glob_cons_inv by done. naive_solver.
    + apply Hback. rewrite glob_cons_inv by done. by rewrite Hadm; intros [??].
Qed.

Lemma segment_loop_total tokens name :
  exists b, segment_loop (segment_fuel tokens name) tokens name None = Some b /\
    (b = true <-> glob tokens name).
Proof.
  destruct (segment_loop_spec (length tokens) (length name) (segment_fuel tokens name) tokens name None)
    as (b & E & Hb); [done|done|done|cbn; lia|done|unfold segment_fuel; cbn; lia|].
  exists b. split; [done|]. rewrite Hb. cbn. naive_solver.
Qed.

Lemma segmentMatches_spec tokens name : segmentMatches tokens name = true <-> glob tokens name.
Proof.
  unfold segmentMatches. destruct (segment_loop_total tokens name) as (b & -> & <-). done.
Qed.

(** ** Whole paths: the reference semantics *)

(** A pattern against exactly these segments; a final [**] takes at least one. *)
Inductive path_match : list (option (list Token)) -> list text -> Prop :=
  | pm_nil : path_match [] []
  | pm_segment ts segs name path :
      glob ts name -> path_match segs path -> path_match (Some ts :: segs) (name :: path)
  | pm_globstar segs skipped path :
      segs <> [] -> path_match segs path -> path_match (None :: segs) (skipped ++ path)
  | pm_last name path : path_match [None] (name :: path).

Lemma smallest_spec v vs : smallest (v :: vs) ∈ v :: vs /\ forall x, x ∈ v :: vs -> (smallest (v :: vs) <= x)%nat.
Proof.
  cbn. revert v. induction vs as [|w vs IH]; intros v; cbn; [split; [set_solver|]; intros x; set_solver by lia|].
  destruct (IH (Nat.min v w)) as [Hin Hle]. split.
  - apply elem_of_cons in Hin as [->|Hin]; [|set_solver].
    destruct (Nat.min_spec v w) as [[_ ->]|[_ ->]]; set_solver.
  - pose proof (Hle (Nat.min v w) ltac:(set_solver)). intros x [->|[->|Hx]%elem_of_cons]%elem_of_cons; [lia|lia|].
    apply Hle. set_solver.
Qed.

(** What one segment of the pattern does to the path from [a] to [b]. *)
Definition covers (path : list text) (is_last : bool) (tokens : option (list Token)) (a b : nat) : Prop :=
  match tokens with
  | None => (a + (if is_last then 1 else 0) <= b <= length path)%nat
  | Some ts => exists name, path !! a = Some name /\ glob ts name /\ b = S a
  end.

Lemma elem_of_advance path is_last tokens reachable b :
  reachable <> [] ->
  b ∈ advance path is_last tokens reachable <-> exists a, a ∈ reachable /\ covers path is_last tokens a b.
Proof.
  intros Hne. destruct tokens as [ts|]; cbn [advance covers].
  - rewrite list_elem_of_bind. split.
    + intros (a & Hb & Ha). exists a. split; [done|]. destruct (path !! a) as [name|]; [|by apply elem_of_nil in Hb].
      destruct (segmentMatches ts name) eqn:E; [|by apply elem_of_nil in Hb].
      apply segmentMatches_spec in E. apply list_elem_of_singleton in Hb. naive_solver.
    + intros (a & Ha & name & Hl & Hg%segmentMatches_spec & ->). exists a. rewrite Hl, Hg. set_solver.
  - cbv zeta. destruct reachable as [|v vs]; [done|]. destruct (smallest_spec v vs) as [Hin Hle].
    rewrite elem_of_seq. split.
    + intros Hb. exists (smallest (v :: vs)). split; [done|]. lia.
    + intros (a & Ha%Hle & Hb). lia.
Qed.

(** A chain of segments from one position to another. *)
Inductive reaches (path : list text) : list (option (list Token)) -> nat -> nat -> Prop :=
  | reaches_nil a : reaches path [] a a
  | reaches_cons s segs a b c :
      covers path (bool_decide (segs = [])) s a b -> reaches path segs b c -> reaches path (s :: segs) a c.

Lemma elem_of_match_loop path segs reachable c :
  reachable <> [] ->
  c ∈ match_loop path segs reachable <-> exists a, a ∈ reachable /\ reaches path segs a c.
Proof.
  revert reachable. induction segs as [|s segs IH]; intros reachable Hne; cbn [match_loop].
  - split; [intros Hc; exists c; split; [done|constructor]|]. intros (a & Ha & Hr). by inversion Hr; subst.
  - destruct (advance path (bool_decide (segs = [])) s reachable) as [|n next] eqn:E.
    + split; [by intros ?%elem_of_nil|]. intros (a & Ha & Hr). inversion Hr; subst.
      assert (b ∈ advance path (bool_decide (segs = [])) s reachable) as Hb
        by (apply elem_of_advance; [done|by exists a]).
      rewrite E in Hb. by apply elem_of_nil in Hb.
    + rewrite IH by done. rewrite <- E. setoid_rewrite elem_of_advance; [|done]. split.
      * intros (b & (a & Ha & Hab) & Hr). exists a. split; [done|]. by econstructor.
      * intros (a & Ha & Hr). inversion Hr; subst. naive_solver.
Qed.

Lemma covers_bounds path is_last s a b :
  covers path is_last s a b -> (a <= length path)%nat -> (a <= b <= length path)%nat.
Proof.
  destruct s as [ts|]; cbn; [|lia]. intros (name & Hl & _ & ->) _. apply lookup_lt_Some in Hl. lia.
Qed.

Lemma reaches_bounds path segs a b :
  reaches path segs a b -> (a <= length path)%nat -> (a <= b <= length path)%nat.
Proof.
  induction 1 as [|s segs a b c Hab Hr IH]; [lia|].
  intros Ha. apply covers_bounds in Hab; [|done]. specialize (IH ltac:(lia)). lia.
Qed.

(** The segments of the path between two positions. *)
Abbreviation slice path a b := (take (b - a) (drop a path)).

Lemma slice_cons {A} (path : list A) a b name :
  path !! a = Some name -> (S a <= b)%nat -> slice path a b = name :: slice path (S a) b.
Proof.
  intros Hl Hle. rewrite (drop_S _ name) by done. by replace (b - a)%nat with (S (b - S a)) by lia.
Qed.

Lemma slice_app {A} (path : list A) a b c :
  (a <= b <= c)%nat -> slice path a c = slice path a b ++ slice path b c.
Proof.
  intros H. replace (c - a)%nat with ((b - a) + (c - b))%nat by lia.
  rewrite <- take_take_drop, drop_drop. by replace (a + (b - a))%nat with b by lia.
Qed.

Lemma reaches_path_match path segs a c :
  (a <= length path)%nat -> reaches path segs a c -> path_match segs (slice path a c).
Proof.
  intros Ha Hr. induction Hr as [a|s segs a b c Hab Hr IH].
  - rewrite Nat.sub_diag. constructor.
  - pose proof (covers_bounds _ _ _ _ _ Hab Ha) as Hb.
    pose proof (reaches_bounds _ _ _ _ Hr ltac:(lia)) as Hc. specialize (IH ltac:(lia)).
    destruct s as [ts|]; cbn [covers] in Hab.
    + destruct Hab as (name & Hl & Hg & ->). rewrite (slice_cons _ _ _ name) by (done || lia). by constructor.
    + destruct (decide (segs = [])) as [->|Hne].
      * rewrite bool_decide_true in Hab by done. inversion Hr; subst.
        destruct (lookup_lt_is_Some_2 path a ltac:(lia)) as [name Hl].
        rewrite (slice_cons _ _ _ name) by (done || lia). constructor.
      * rewrite (slice_app _ a b c) by lia. by constructor.
Qed.

Lemma slice_length {A} (path : list A) a c : (a <= c <= length path)%nat -> length (slice path a c) = (c - a)%nat.
Proof. intros H. rewrite length_take, length_drop. lia. Qed.

Lemma path_match_reaches path segs a c :
  (a <= c <= length path)%nat -> path_match segs (slice path a c) -> reaches path segs a c.
Proof.
  intros Hac Hm. remember (slice path a c) as sl eqn:E. revert a Hac E.
  induction Hm as [|ts segs name p Hg Hm IH|segs skipped p Hne Hm IH|name p]; intros a Hac E.
  - apply (f_equal length) in E. rewrite slice_length in E by lia. cbn in E.
    replace c with a by lia. constructor.
  - pose proof (f_equal length E) as El. rewrite slice_length in El by lia. cbn in El.
    destruct (lookup_lt_is_Some_2 path a ltac:(lia)) as [name' Hl].
    rewrite (slice_cons _ _ _ name') in E by (done || lia). simplify_eq.
    apply (reaches_cons _ _ _ _ (S a)); [by exists name'|]. apply IH; [lia|done].
  - pose proof (f_equal length E) as El. rewrite slice_length, length_app in El by lia.
    apply (reaches_cons _ _ _ _ (a + length skipped)).
    + cbn. rewrite bool_decide_false by done. lia.
    + apply IH; [lia|]. rewrite (slice_app _ a (a + length skipped) c) in E by lia.
      apply app_inj_1 in E; [naive_solver|]. rewrite slice_length by lia. lia.
  - pose proof (f_equal length E) as El. rewrite slice_length in El by lia. cbn in El.
    apply (reaches_cons _ _ _ _ c); [cbn; lia|constructor].
Qed.

(** The positions the pattern ends at are the prefixes it matches. *)
Lemma elem_of_matchEnds p path n :
  n ∈ matchEnds p path <-> (n <= length path)%nat /\ path_match (segments p) (take n path).
Proof.
  unfold matchEnds. rewrite elem_of_match_loop by done. split.
  - intros (a & ->%list_elem_of_singleton & Hr). split.
    + apply reaches_bounds in Hr; lia.
    + apply reaches_path_match in Hr; [|lia]. by rewrite Nat.sub_0_r, drop_0 in Hr.
  - intros [Hn Hm]. exists 0%nat. split; [set_solver|]. apply path_match_reaches; [lia|].
    by rewrite Nat.sub_0_r, drop_0.
Qed.

(** ** [**] segments in a row *)

Lemma globstar_twice segs path : path_match (None :: None :: segs) path <-> path_match (None :: segs) path.
Proof.
  split; [|intros H; by apply (pm_globstar (None :: segs) [])].
  inversion 1 as [| |? skipped p Hne Hp|]; subst.
  inversion Hp as [| |? skipped' p' Hne' Hp'|]; subst.
  - rewrite app_assoc. by constructor.
  - destruct skipped; apply pm_last.
Qed.

Lemma path_match_context pre segs segs' :
  segs <> [] -> segs' <> [] ->
  (forall path, path_match segs path <-> path_match segs' path) ->
  forall path, path_match (pre ++ segs) path <-> path_match (pre ++ segs') path.
Proof.
  intros Hne Hne' Heq. induction pre as [|s pre IH]; [done|]. intros path.
  assert (forall q, pre ++ segs <> [] /\ pre ++ segs' <> [] /\
    (path_match (s :: pre ++ segs) q -> path_match (s :: pre ++ segs') q) /\
    (path_match (s :: pre ++ segs') q -> path_match (s :: pre ++ segs) q)) as H; [|apply H].
  intros q. assert (pre ++ segs <> [] /\ pre ++ segs' <> []) as [Hp Hp']
    by (by destruct pre).
  split_and!; [done|done| |]; inversion 1; subst; try (constructor; [done|by apply IH]); congruence.
Qed.

Lemma collapse_path_match parts path :
  path_match (compile_segment <$> collapseGlobstars parts) path <-> path_match (compile_segment <$> parts) path.
Proof.
  unfold collapseGlobstars.
  assert (forall acc, path_match (compile_segment <$> reverse (foldl collapse_step acc parts)) path <->
    path_match (compile_segment <$> (reverse acc ++ parts)) path) as H; [|apply H].
  induction parts as [|s parts IH]; intros acc; cbn [foldl]; [by rewrite app_nil_r|].
  rewrite IH. unfold collapse_step. destruct (bool_decide (s = GLOBSTAR) && _) eqn:E.
  - apply andb_true_iff in E as [->%bool_decide_eq_true Hh%bool_decide_eq_true].
    destruct acc as [|a acc]; simplify_eq/=. rewrite reverse_cons, <- !app_assoc, !fmap_app. cbn [app].
    apply path_match_context; [done|done|]. intros q. cbn. by rewrite globstar_twice.
  - by rewrite reverse_cons, <- app_assoc.
Qed.

(** ** The ignore file *)

(** The rule covers the path: it matches the path or one of its parents. *)
Definition rule_covers (cleaned : text) (path : list text) : Prop :=
  exists n, (1 <= n <= length path)%nat /\
    path_match (compile_segment <$> split_on PATH_SEPARATOR cleaned) (take n path).

Lemma matchesOrParent_spec cleaned neg path :
  matchesOrParent (compile cleaned neg) path = true <-> rule_covers cleaned path.
Proof.
  unfold matchesOrParent, rule_covers. rewrite existsb_exists. setoid_rewrite Nat.ltb_lt.
  setoid_rewrite <- list_elem_of_In. setoid_rewrite elem_of_matchEnds. cbn [segments compile].
  setoid_rewrite collapse_path_match. split; intros (n & H); exists n; naive_solver lia.
Qed.

Lemma match_step_eq path excluded p :
  match_step path excluded p = if matchesOrParent p path then negb (negated p) else excluded.
Proof. unfold match_step. by destruct (negated p), excluded, (matchesOrParent p path). Qed.

(** C25. The matcher of one path segment decides the usual glob relation: a star
    stands for any run of characters, every other token for one character it
    admits.  The loop that goes back only to the last star loses nothing. *)
Theorem segmentMatches_glob tokens name : segmentMatches tokens name = true <-> glob tokens name.
Proof. apply segmentMatches_spec. Qed.

(** No pattern makes the matcher of a segment blow up: its loop ends, with its
    answer, within (characters + 2) * (tokens + 1) iterations. *)
Theorem segment_loop_linear tokens name :
  exists b, segment_loop ((length name + 2) * (length tokens + 1)) tokens name None = Some b /\
    segmentMatches tokens name = b.
Proof.
  destruct (segment_loop_total tokens name) as (b & E & _). exists b.
  split; [exact E|]. unfold segmentMatches. by rewrite E.
Qed.

Lemma matches_rules rs relpath :
  matches ((fun r => compile r.1 r.2) <$> rs) relpath = true <->
  exists before cleaned after, rs = before ++ (cleaned, false) :: after /\
    rule_covers cleaned (path_segments relpath) /\
    Forall (fun r => ~ rule_covers r.1 (path_segments relpath)) after.
Proof.
  unfold matches. set (path := path_segments relpath). clearbody path.
  induction rs as [|r rs IH] using rev_ind.
  { cbn. split; [done|]. intros (b & c & a & E & _). by destruct b. }
  rewrite fmap_app, foldl_app. cbn [fmap list_fmap foldl]. rewrite match_step_eq.
  destruct (matchesOrParent (compile r.1 r.2) path) eqn:E.
  - apply matchesOrParent_spec in E. destruct r as [cleaned [|]]; cbn [negated compile fst snd negb] in *.
    + split; [done|]. intros (b & c & a & Heq & _ & Hall). exfalso.
      destruct a as [|x a _] using rev_ind.
      * by apply app_inj_tail in Heq as [_ [= -> ]].
      * rewrite app_comm_cons, app_assoc in Heq. apply app_inj_tail in Heq as [_ <-].
        apply Forall_app in Hall as [_ Hall]. inversion Hall; subst. by cbn in *.
    + split; [|done]. intros _. by exists rs, cleaned, [].
  - assert (~ rule_covers r.1 path) as Hn.
    { intros Hc. apply (matchesOrParent_spec _ r.2) in Hc. congruence. }
    rewrite IH. split.
    + intros (b & c & a & -> & Hc & Hall). exists b, c, (a ++ [r]). rewrite <- app_assoc. cbn.
      split_and!; [done|done|]. apply Forall_app. by split; [|constructor].
    + intros (b & c & a & Heq & Hc & Hall). destruct a as [|x a _] using rev_ind.
      * apply app_inj_tail in Heq as [_ ->]. by cbn in Hn.
      * rewrite app_comm_cons, app_assoc in Heq. apply app_inj_tail in Heq as [-> _].
        exists b, c, a. apply Forall_app in Hall as [? _]. done.
Qed.

(** A path is left out exactly when the last rule of the file that covers it
    (by matching the path or one of its parent directories) is not negated. *)
Theorem matches_last_rule s relpath :
  matches (fromText s) relpath = true <->
  exists before cleaned after, rules s = before ++ (cleaned, false) :: after /\
    rule_covers cleaned (path_segments relpath) /\
    Forall (fun r => ~ rule_covers r.1 (path_segments relpath)) after.
Proof.
  apply matches_rules.
Qed.

(** ** Fuel of the readers *)

Lemma escapedChar_length c rest : (length (escapedChar c rest).2 <= length rest)%nat.
Proof. destruct rest as [|d rest]; cbn; [done|]. case_match; cbn; lia. Qed.

Lemma read_ranges_fuel fuel fuel' chars acc :
  (length chars <= fuel)%nat -> (length chars <= fuel')%nat ->
  read_ranges fuel chars acc = read_ranges fuel' chars acc.
Proof.
  revert fuel' chars acc. induction fuel as [|fuel IH]; intros fuel' chars acc Hf Hf'.
  { destruct chars; [by destruct fuel'|cbn in Hf; lia]. }
  destruct chars as [|c rest]; [by destruct fuel'|]. destruct fuel' as [|fuel']; [cbn in Hf'; lia|].
  cbn [read_ranges]. destruct (_ && _); [done|]. cbn in Hf, Hf'.
  pose proof (escapedChar_length c rest) as Hl. destruct (escapedChar c rest) as [low after]. cbn in Hl.
  destruct after as [|d [|h rest']]; [apply IH; cbn; lia|apply IH; cbn in *; lia|].
  destruct (_ && _); [|apply IH; lia].
  pose proof (escapedChar_length h rest') as Hl'. destruct (escapedChar h rest') as [high after']. cbn in *.
  apply IH; lia.
Qed.

Lemma read_ranges_rest fuel chars acc rs rest :
  read_ranges fuel chars acc = Some (rs, rest) -> (length rest <= length chars)%nat.
Proof.
  revert chars acc. induction fuel as [|fuel IH]; intros chars acc; [done|]. destruct chars as [|c chars]; [done|].
  cbn [read_ranges]. destruct (_ && _); [intros [= -> ->]; cbn; lia|].
  pose proof (escapedChar_length c chars) as Hl. destruct (escapedChar c chars) as [low after]. cbn in Hl.
  destruct after as [|d [|h rest']]; [intros H%IH; cbn in *; lia|intros H%IH; cbn in *; lia|].
  destruct (_ && _); [|intros H%IH; cbn in *; lia].
  pose proof (escapedChar_length h rest') as Hl'. destruct (escapedChar h rest') as [high after']. cbn in *.
  intros H%IH. lia.
Qed.

Lemma readClass_rest chars cls rest : readClass chars = Some (cls, rest) -> (length rest <= length chars)%nat.
Proof.
  unfold readClass. set (neg := match chars with c :: _ => _ | [] => false end). cbv zeta.
  destruct (read_ranges _ _ _) as [[rs r]|] eqn:E; cbn; [|done]. intros [= _ ->].
  apply read_ranges_rest in E. destruct neg; rewrite ?length_drop in E; lia.
Qed.

Lemma tokenize_fuel fuel fuel' chars tokens :
  (length chars <= fuel)%nat -> (length chars <= fuel')%nat ->
  tokenize_loop fuel chars tokens = tokenize_loop fuel' chars tokens.
Proof.
  revert fuel' chars tokens. induction fuel as [|fuel IH]; intros fuel' chars tokens Hf Hf'.
  { destruct chars; [by destruct fuel'|cbn in Hf; lia]. }
  destruct chars as [|c rest]; [by destruct fuel'|]. destruct fuel' as [|fuel']; [cbn in Hf'; lia|].
  cbn [tokenize_loop]. cbn in Hf, Hf'.
  destruct (if c =? CLASS_OPEN then readClass rest else None) as [[cls rest']|] eqn:E.
  { destruct (c =? CLASS_OPEN); [|done]. apply readClass_rest in E. apply IH; lia. }
  destruct (c =? STAR); [apply IH; lia|]. destruct (c =? ANY_CHAR); [apply IH; lia|].
  pose proof (escapedChar_length c rest) as Hl. destruct (escapedChar c rest) as [l next]. cbn in Hl.
  apply IH; lia.
Qed.

(** ** Cleaning *)

(** A clean path, reversed: parent steps only at the end. *)
Definition clean_reversed (acc : list text) : Prop :=
  exists names ups, acc = names ++ replicate ups PARENT_DIR /\
    Forall (fun s => s <> [] /\ s <> CURRENT_DIR /\ s <> PARENT_DIR) names.

Lemma clean_step_inv acc s : clean_reversed acc -> clean_reversed (clean_step acc s).
Proof.
  intros (names & ups & -> & Hn). unfold clean_step.
  destruct (decide (s = [])) as [->|H0]; [by exists names, ups|]. rewrite (bool_decide_false (s = [])) by done.
  destruct (decide (s = CURRENT_DIR)) as [->|H1]; [by exists names, ups|].
  rewrite (bool_decide_false (s = CURRENT_DIR)) by done. cbn [orb].
  destruct names as [|n names]; cbn [app].
  - assert (exists names' ups', s :: replicate ups PARENT_DIR = names' ++ replicate ups' PARENT_DIR /\
      Forall (fun s => s <> [] /\ s <> CURRENT_DIR /\ s <> PARENT_DIR) names') as Hpush.
    { destruct (decide (s = PARENT_DIR)) as [->|H2]; [by exists [], (S ups)|]. exists [s], ups. split; [done|]. by apply Forall_singleton. }
    destruct ups as [|ups]; cbn [replicate] in *; [done|].
    rewrite (bool_decide_true (PARENT_DIR = PARENT_DIR)), andb_false_r by done. done.
  - apply Forall_cons in Hn as [Hn1 Hn]. rewrite (bool_decide_false (n = PARENT_DIR)) by naive_solver.
    destruct (decide (s = PARENT_DIR)) as [->|H2].
    + rewrite bool_decide_true by done. by exists names, ups.
    + rewrite bool_decide_false by done. exists (s :: n :: names), ups. split; [done|]. by rewrite !Forall_cons.
Qed.

Lemma clean_fold_inv parts acc : clean_reversed acc -> clean_reversed (foldl clean_step acc parts).
Proof. revert acc. induction parts as [|s parts IH]; intros acc H; cbn; [done|]. apply IH, clean_step_inv, H. Qed.

Lemma clean_names names acc :
  Forall (fun s => s <> [] /\ s <> CURRENT_DIR /\ s <> PARENT_DIR) names ->
  foldl clean_step acc names = reverse names ++ acc.
Proof.
  intros Hn. revert acc. induction Hn as [|s names [H0 [H1 H2]] Hn IH]; intros acc; [done|]. cbn [foldl].
  rewrite IH, reverse_cons, <- app_assoc. f_equal. unfold clean_step.
  rewrite !(bool_decide_false (s = _)) by done. by destruct acc.
Qed.

Lemma clean_ups ups k : foldl clean_step (replicate k PARENT_DIR) (replicate ups PARENT_DIR) = replicate (ups + k) PARENT_DIR.
Proof.
  revert k. induction ups as [|ups IH]; intros k; [done|]. cbn [replicate foldl].
  replace (clean_step (replicate k PARENT_DIR) PARENT_DIR) with (replicate (S k) PARENT_DIR).
  - rewrite IH. f_equal. lia.
  - by destruct k.
Qed.

Lemma clean_segments_idem parts : clean_segments (clean_segments parts) = clean_segments parts.
Proof.
  unfold clean_segments at 1 3. f_equal.
  destruct (clean_fold_inv parts []) as (names & ups & E & Hn); [by exists [], 0%nat|].
  unfold clean_segments. rewrite E, reverse_app, reverse_replicate, foldl_app.
  pose proof (clean_ups ups 0) as Hu. rewrite Nat.add_0_r in Hu. cbn [replicate] in Hu.
  rewrite Hu, clean_names, reverse_involutive; [done|].
  apply Forall_forall. intros s Hs. rewrite Forall_forall in Hn. apply Hn. by rewrite <- elem_of_reverse.
Qed.

Lemma clean_subset parts s : s ∈ clean_segments parts -> s ∈ parts.
Proof.
  unfold clean_segments. rewrite elem_of_reverse.
  assert (forall acc, s ∈ foldl clean_step acc parts -> s ∈ acc \/ s ∈ parts) as H.
  { induction parts as [|p parts IH]; intros acc; cbn [foldl]; [by left|].
    intros [Hs|Hs]%IH; [|set_solver]. unfold clean_step in Hs. repeat case_match; set_solver. }
  intros [Hs|Hs]%H; [by apply elem_of_nil in Hs|done].
Qed.

(** Cleaning a pattern is a normal form: no empty or [.] segment, [..] only in
    front, and cleaning again changes nothing. *)
Theorem cleanPattern_normal pattern :
  (exists ups names, clean_segments (split_on PATH_SEPARATOR pattern) = replicate ups PARENT_DIR ++ names /\
     Forall (fun s => s <> [] /\ s <> CURRENT_DIR /\ s <> PARENT_DIR) names) /\
  cleanPattern (cleanPattern pattern) = cleanPattern pattern.
Proof.
  split.
  - destruct (clean_fold_inv (split_on PATH_SEPARATOR pattern) []) as (names & ups & E & Hn); [by exists [], 0%nat|].
    exists ups, (reverse names). unfold clean_segments. rewrite E, reverse_app, reverse_replicate.
    split; [done|]. apply Forall_forall. intros s Hs. rewrite Forall_forall in Hn. apply Hn. by rewrite <- elem_of_reverse.
  - unfold cleanPattern at 1 3. f_equal.
    destruct (decide (clean_segments (split_on PATH_SEPARATOR pattern) = [])) as [E|E].
    + unfold cleanPattern. rewrite E. done.
    + unfold cleanPattern. rewrite split_join; [apply clean_segments_idem|done|].
      apply Forall_forall. intros s Hs%clean_subset.
      pose proof (split_on_parts PATH_SEPARATOR pattern) as Hp. rewrite Forall_forall in Hp. by apply Hp.
Qed.

(** ** Quoting *)

(** Every character escaped. *)
Definition quote (name : text) : text := c ← name; [ESCAPE; c].

Lemma tokenize_quote name : tokenize (quote name) = Literal <$> name.
Proof.
  unfold tokenize.
  assert (forall fuel acc, (length (quote name) <= fuel)%nat ->
    tokenize_loop fuel (quote name) acc = reverse acc ++ (Literal <$> name)) as H.
  { unfold quote. induction name as [|c name IH]; intros fuel acc Hf.
    - cbn. rewrite app_nil_r. by destruct fuel.
    - cbn in Hf. destruct fuel as [|fuel]; [lia|]. cbn [mbind list_bind app tokenize_loop].
      change (ESCAPE =? CLASS_OPEN) with false. change (ESCAPE =? STAR) with false.
      change (ESCAPE =? ANY_CHAR) with false. cbn [escapedChar]. change (ESCAPE =? ESCAPE) with true. cbn iota.
      rewrite IH by lia. rewrite reverse_cons, <- app_assoc. done. }
  by rewrite H.
Qed.

Lemma glob_literals name s : glob (Literal <$> name) s <-> s = name.
Proof.
  revert s. induction name as [|c name IH]; intros s; cbn [fmap list_fmap].
  - split; [by inversion 1|]. intros ->. constructor.
  - split.
    + inversion 1; subst. f_equal; [symmetry; by apply N.eqb_eq|by apply IH].
    + intros ->. constructor; [apply N.eqb_refl|by apply IH].
Qed.

Lemma quote_not_nil name : name <> [] -> exists c name', quote name = ESCAPE :: c :: name'.
Proof. destruct name as [|c name]; [done|]. intros _. by eexists _, _. Qed.

Lemma elem_of_quote c name : c ∈ quote name -> c = ESCAPE \/ c ∈ name.
Proof. unfold quote. rewrite list_elem_of_bind. intros (d & Hc & Hd). set_solver. Qed.

Lemma last_quote name : last (quote name) = last name.
Proof.
  induction name as [|c name IH] using rev_ind; [done|]. unfold quote. rewrite bind_app.
  change (([c] : list N) ≫= _) with [ESCAPE; c]. rewrite (app_assoc _ [ESCAPE] [c]), !last_snoc. done.
Qed.

(** A name a file can have on a line of its own. *)
Record quotable (name : text) : Prop := {
  quotable_not_nil : name <> [];
  quotable_segment : PATH_SEPARATOR ∉ name;
  quotable_line : LINE_SEPARATOR ∉ name;
  quotable_end : forall c, last name = Some c -> is_js_space c = false
}.

Lemma quote_without sep name : sep <> ESCAPE -> sep ∉ name -> sep ∉ quote name.
Proof. intros Hs Hn [?|?]%elem_of_quote; done. Qed.

Lemma rules_quote name : quotable name -> rules (quote name) = [(quote name, false)].
Proof.
  intros [Hne Hseg Hline Hend]. destruct (quote_not_nil name Hne) as (c & rest & Eq).
  assert (trim (quote name) = quote name) as Ht.
  { apply strip_id. split; [rewrite Eq; by intros ? [= <-]|]. intros x. rewrite last_quote. apply Hend. }
  assert (cleanPattern (quote name) = quote name) as Hc.
  { unfold cleanPattern, clean_segments. rewrite split_on_no_sep by (by apply quote_without). cbn [foldl].
    unfold clean_step. rewrite !bool_decide_false; [done|by rewrite Eq|by rewrite Eq]. }
  unfold rules. rewrite Eq at 1. cbn [starts_with]. change (UTF8_BOM =? ESCAPE) with false. cbn [andb].
  cbv zeta. rewrite split_on_no_sep by (by apply quote_without). cbn [omap list_omap].
  unfold line_rule. rewrite Ht, Eq. change (ESCAPE =? COMMENT_PREFIX) with false.
  change (ESCAPE =? NEGATION_PREFIX) with false. cbn iota. cbv zeta. rewrite <- Eq, Ht, Hc.
  rewrite bool_decide_false; [done|]. by rewrite Eq.
Qed.

Lemma rule_covers_quote name path :
  quotable name -> rule_covers (quote name) path <-> head path = Some name.
Proof.
  intros [Hne Hseg _ _]. unfold rule_covers. rewrite split_on_no_sep by (by apply quote_without).
  cbn [fmap list_fmap]. unfold compile_segment. destruct (quote_not_nil name Hne) as (c & rest & Eq).
  rewrite bool_decide_false by (by rewrite Eq). rewrite tokenize_quote. split.
  - intros (n & Hn & Hm). inversion Hm as [|? ? s p Hg Hp E E'| |]; subst. apply glob_literals in Hg as ->.
    destruct path as [|x path]; [cbn in Hn; lia|]. destruct n; [lia|]. cbn in E'. by simplify_eq.
  - destruct path as [|x path]; [done|]. intros [= ->]. exists 1%nat. cbn. rewrite take_0. split; [lia|].
    constructor; [by apply glob_literals|constructor].
Qed.

(** Escaping every character of a file name gives a line that leaves out that
    name at the root of the context, whatever wildcards the name holds, and
    nothing else. *)
Theorem quoted_name_exact name relpath :
  quotable name ->
  matches (fromText (quote name)) relpath = true <-> head (path_segments relpath) = Some name.
Proof.
  intros Hq. unfold fromText. rewrite matches_rules, rules_quote by done.
  rewrite <- (rule_covers_quote name) by done. split.
  - intros (b & c & a & E & Hc & _). destruct b as [|r b]; simplify_eq/=; [done|]. by destruct b.
  - intros Hc. by exists [], (quote name), [].
Qed.

Lemma quoted_name_exact_witness :
  quotable (txt "*.env") /\ matches (fromText (quote (txt "*.env"))) (txt "*.env/x") = true.
Proof.
  assert (quotable (txt "*.env")) as Hq.
  { constructor; [done|by_decide|by_decide|]. intros c [= <-]. done. }
  split; [exact Hq|]. apply (quoted_name_exact _ _ Hq). reflexivity.
Defined.
