(* ===== verification/Json.v ===== *)
(** * Json: the JSON texts the SDK writes

    [JSON.stringify] without indentation, the ASCII form of
    src/clients/typescript/src/payload.ts ([asciiJson]), and a strict reader of the
    texts it prints (objects, strings, integers, booleans; no white space), the
    inverse the round trips are stated with.  Texts are UTF-16 code units. *)

From stdpp Require Import base option list strings sets.
From Stdlib Require Import NArith ZArith Lia.
From S2P Require Import Prelude Text.

Local Open Scope N_scope.

Inductive json :=
  | JsonNumber (z : Z)
  | JsonString (s : text)
  | JsonBool (b : bool)
  | JsonObject (fields : list (text * json)).

Definition QUOTE : N := 34.
Definition BACKSLASH : N := 92.
Definition COMMA : N := 44.
Definition COLON : N := 58.
Definition LBRACE : N := 123.
Definition RBRACE : N := 125.
Definition MINUS : N := 45.
Definition LETTER_U : N := 117.

(** ** Printing *)

(** [\uXXXX], lower-case hexadecimal padded to four digits. *)
Definition hex4 (c : N) : text :=
  [digit_char (c / 4096 mod 16); digit_char (c / 256 mod 16); digit_char (c / 16 mod 16); digit_char (c mod 16)].
Definition unicode_escape (c : N) : text := BACKSLASH :: LETTER_U :: hex4 c.

(** The one-letter escapes: backspace, tab, line feed, form feed, carriage return,
    and the quote and the backslash themselves. *)
Definition short_escapes : list (N * N) :=
  [(8, 98); (9, 116); (10, 110); (12, 102); (13, 114); (34, 34); (92, 92)].

Definition is_high (c : N) : bool := (55296 <=? c) && (c <=? 56319).
Definition is_low (c : N) : bool := (56320 <=? c) && (c <=? 57343).

Definition escape_unit (c : N) : text :=
  match List.find (fun e => e.1 =? c) short_escapes with
  | Some (_, letter) => [BACKSLASH; letter]
  | None => if c <? 32 then unicode_escape c else [c]
  end.

(** The body of a string: unpaired surrogates are escaped, pairs kept. *)
Fixpoint quote_body (s : text) : text :=
  match s with
  | [] => []
  | c :: s' =>
      if is_high c then
        match s' with
        | d :: s'' => if is_low d then c :: d :: quote_body s'' else unicode_escape c ++ quote_body s'
        | [] => unicode_escape c
        end
      else if is_low c then unicode_escape c ++ quote_body s'
      else escape_unit c ++ quote_body s'
  end.

Section Print.
Context (body : text -> text).

Definition print_string (s : text) : text := QUOTE :: body s ++ [QUOTE].

Fixpoint print (v : json) : text :=
  match v with
  | JsonNumber z => print_Z z
  | JsonString s => print_string s
  | JsonBool b => if b then txt "true" else txt "false"
  | JsonObject fields =>
      LBRACE :: join [COMMA] (map (fun f => print_string f.1 ++ COLON :: print f.2) fields) ++ [RBRACE]
  end.
End Print.

(** [JSON.stringify(v)]. *)
Definition stringify : json -> text := print quote_body.

Definition ascii_char (c : N) : text := if (128 <=? c) && (c <=? 65535) then unicode_escape c else [c].

Definition asciiJson (v : json) : text := c ← stringify v; ascii_char c.

(** ** Reading *)

Definition unescape (letter : N) : option N :=
  match List.find (fun e => e.2 =? letter) ((47, 47) :: short_escapes) with
  | Some (c, _) => Some c
  | None => None
  end.

Definition cons_first (c : N) (r : option (text * text)) : option (text * text) :=
  '(s, rest) ← r; Some (c :: s, rest).

(** After the opening quote. *)
Fixpoint read_string (s : text) : option (text * text) :=
  match s with
  | [] => None
  | c :: r =>
      if c =? QUOTE then Some ([], r)
      else if c =? BACKSLASH then
        match r with
        | e :: r' =>
            if e =? LETTER_U then
              match r' with
              | h1 :: h2 :: h3 :: h4 :: r'' =>
                  if forallb is_hex_digit [h1; h2; h3; h4]
                  then cons_first (parse_nat 16 [h1; h2; h3; h4]) (read_string r'') else None
              | _ => None
              end
            else match unescape e with
                 | Some u => cons_first u (read_string r')
                 | None => None
                 end
        | [] => None
        end
      else if c <? 32 then None
      else cons_first c (read_string r)
  end.

(** The run of digits in front. *)
Fixpoint span_digits (s : text) : text * text :=
  match s with
  | c :: r => if is_digit c then let (d, rest) := span_digits r in (c :: d, rest) else ([], s)
  | [] => ([], [])
  end.

(** A numeral without superfluous zeros. *)
Definition read_nat (s : text) : option (N * text) :=
  let (digits, rest) := span_digits s in
  match digits with
  | [] => None
  | c :: more => if (c =? 48) && negb (bool_decide (more = [])) then None else Some (parse_nat 10 digits, rest)
  end.

Definition read_number (s : text) : option (Z * text) :=
  match s with
  | c :: r => if c =? MINUS then '(n, rest) ← read_nat r; Some ((- Z.of_N n)%Z, rest)
              else '(n, rest) ← read_nat s; Some (Z.of_N n, rest)
  | [] => None
  end.

Definition eat (c : N) (s : text) : option text :=
  match s with x :: r => if x =? c then Some r else None | [] => None end.

Fixpoint read_value (fuel : nat) (s : text) : option (json * text) :=
  match fuel with
  | O => None
  | S fuel' =>
      match s with
      | [] => None
      | c :: r =>
          if c =? QUOTE then '(t, rest) ← read_string r; Some (JsonString t, rest)
          else if c =? LBRACE then
            match eat RBRACE r with
            | Some rest => Some (JsonObject [], rest)
            | None => '(fs, rest) ← read_fields fuel' r; Some (JsonObject fs, rest)
            end
          else if starts_with (txt "true") s then Some (JsonBool true, drop 4 s)
          else if starts_with (txt "false") s then Some (JsonBool false, drop 5 s)
          else '(z, rest) ← read_number s; Some (JsonNumber z, rest)
      end
  end
with read_fields (fuel : nat) (s : text) : option (list (text * json) * text) :=
  match fuel with
  | O => None
  | S fuel' =>
      s ← eat QUOTE s;
      '(k, s) ← read_string s;
      s ← eat COLON s;
      '(v, s) ← read_value fuel' s;
      match eat COMMA s with
      | Some s => '(fs, rest) ← read_fields fuel' s; Some ((k, v) :: fs, rest)
      | None => s ← eat RBRACE s; Some ([(k, v)], s)
      end
  end.

(** The whole text as one value. *)
Definition parse_json (s : text) : option json :=
  '(v, rest) ← read_value (length s) s; if bool_decide (rest = []) then Some v else None.

(** ** Lemmas *)

Section Induction.
Context (P : json -> Prop)
  (P_number : forall z, P (JsonNumber z)) (P_string : forall s, P (JsonString s))
  (P_bool : forall b, P (JsonBool b))
  (P_object : forall fields, Forall (fun f => P f.2) fields -> P (JsonObject fields)).

Fixpoint json_fields_ind (v : json) : P v :=
  match v with
  | JsonNumber z => P_number z
  | JsonString s => P_string s
  | JsonBool b => P_bool b
  | JsonObject fields =>
      P_object fields
        ((fix go (fs : list (text * json)) : Forall (fun f => P f.2) fs :=
            match fs with
            | [] => List.Forall_nil _
            | f :: fs' => List.Forall_cons _ f fs' (json_fields_ind f.2) (go fs')
            end) fields)
  end.
End Induction.

(** Code units. *)
Abbreviation units s := (Forall (fun c => c < 65536) s).

Fixpoint json_wf (v : json) : Prop :=
  match v with
  | JsonString s => units s
  | JsonObject fields => foldr (fun f P => units f.1 /\ json_wf f.2 /\ P) True fields
  | _ => True
  end.

Lemma json_wf_fields fields :
  json_wf (JsonObject fields) <-> Forall (fun f => units f.1 /\ json_wf f.2) fields.
Proof.
  cbn. induction fields as [|f fields IH]; cbn; [by split; constructor|]. rewrite Forall_cons, IH. naive_solver.
Qed.

Fixpoint json_size (v : json) : nat :=
  match v with
  | JsonObject fields => S (foldr (fun f n => (S (json_size f.2) + n)%nat) O fields)
  | _ => 1
  end.

Lemma digit_char_bounds d : d < 16 -> 48 <= digit_char d < 103.
Proof. intros H. unfold digit_char. case_match eqn:E; [apply N.ltb_lt in E|apply N.ltb_ge in E]; lia. Qed.

Lemma hex4_digits c : Forall (fun x => exists d, d < 16 /\ x = digit_char d) (hex4 c).
Proof. unfold hex4. repeat constructor; eexists; (split; [|reflexivity]); by apply N.mod_lt. Qed.

Lemma bind_id {A} (f : A -> list A) (s : list A) : Forall (fun c => f c = [c]) s -> s ≫= f = s.
Proof. induction 1 as [|c s Hc _ IH]; [done|]. rewrite bind_cons, Hc, IH. done. Qed.

Lemma ascii_char_id c : c < 128 -> ascii_char c = [c].
Proof. intros H. unfold ascii_char. by rewrite (proj2 (N.leb_gt 128 c)). Qed.

Lemma ascii_chars_id s : Forall (fun c => c < 128) s -> s ≫= ascii_char = s.
Proof. intros H. apply bind_id. eapply Forall_impl; [exact H|]. apply ascii_char_id. Qed.

Lemma unicode_escape_ascii c : Forall (fun x => 32 <= x < 128) (unicode_escape c).
Proof.
  unfold unicode_escape. repeat (apply Forall_cons; split; [unfold BACKSLASH, LETTER_U; lia|]).
  eapply Forall_impl; [apply hex4_digits|]. intros x (d & Hd & ->). apply digit_char_bounds in Hd. lia.
Qed.

Lemma printable_ascii s : Forall (fun x => 32 <= x < 128) s -> s ≫= ascii_char = s.
Proof. intros H. apply ascii_chars_id. eapply Forall_impl; [exact H|]. cbn. lia. Qed.

(** What a code unit becomes in the ASCII text. *)
Definition ascii_unit (c : N) : text := escape_unit c ≫= ascii_char.
Definition ascii_body (s : text) : text := c ← s; ascii_unit c.

Lemma surrogate_unit c : is_high c = true \/ is_low c = true -> ascii_unit c = unicode_escape c /\ ascii_char c = unicode_escape c.
Proof.
  unfold is_high, is_low. rewrite !andb_true_iff, !N.leb_le. intros H.
  assert (ascii_char c = unicode_escape c) as E.
  { unfold ascii_char. rewrite (proj2 (N.leb_le 128 c)), (proj2 (N.leb_le c 65535)) by lia. done. }
  split; [|done]. unfold ascii_unit, escape_unit. cbn [List.find short_escapes fst].
  rewrite !(proj2 (N.eqb_neq _ c)) by lia. rewrite (proj2 (N.ltb_ge c 32)) by lia. cbn. by rewrite app_nil_r.
Qed.

Lemma quote_body_ascii s : quote_body s ≫= ascii_char = ascii_body s.
Proof.
  assert (forall n s, (length s <= n)%nat -> quote_body s ≫= ascii_char = ascii_body s) as H; [|by eapply H].
  clear s. induction n as [|n IH]; intros s Hn; [by destruct s; cbn in Hn; [|lia]|].
  destruct s as [|c s]; [done|]. cbn in Hn. unfold ascii_body. rewrite bind_cons. cbn [quote_body].
  assert (forall x, unicode_escape x ≫= ascii_char = unicode_escape x) as Hu
    by (intros x; apply printable_ascii, unicode_escape_ascii).
  destruct (is_high c) eqn:Hh.
  - destruct (surrogate_unit c) as [-> Ec]; [by left|]. destruct s as [|d s]; [by rewrite Hu, app_nil_r|].
    destruct (is_low d) eqn:Hl.
    + destruct (surrogate_unit d) as [Eu Ed]; [by right|]. rewrite !bind_cons, Ec, Ed, Eu, IH by (cbn in Hn; lia). done.
    + rewrite bind_app, Hu, IH by lia. done.
  - destruct (is_low c) eqn:Hl.
    + destruct (surrogate_unit c) as [-> Ec]; [by right|]. rewrite bind_app, Hu, IH by lia. done.
    + rewrite bind_app, IH by lia. done.
Qed.

Lemma join_bind (f : N -> text) sep parts : join sep parts ≫= f = join (sep ≫= f) (map (fun p => p ≫= f) parts).
Proof.
  induction parts as [|p [|q parts] IH]; [done|done|].
  rewrite join_cons, !bind_app, IH. done.
Qed.

Lemma print_nat_ascii n : Forall (fun x => 32 <= x < 128) (print_nat 10 n).
Proof.
  apply print_nat_digits; [done|]. intros d Hd.
  pose proof (digit_char_bounds d ltac:(lia)). lia.
Qed.

Lemma print_Z_ascii z : Forall (fun x => 32 <= x < 128) (print_Z z).
Proof. unfold print_Z. case_match; [constructor; [lia|]|]; apply print_nat_ascii. Qed.

Lemma print_bind body v :
  print body v ≫= ascii_char = print (fun s => body s ≫= ascii_char) v.
Proof.
  assert (forall s, print_string body s ≫= ascii_char = print_string (fun s => body s ≫= ascii_char) s) as Hs.
  { intros s. unfold print_string. rewrite bind_cons, bind_app. done. }
  induction v as [z|s|b|fields IH] using json_fields_ind; cbn [print].
  - apply printable_ascii, print_Z_ascii.
  - apply Hs.
  - by destruct b.
  - rewrite bind_cons, bind_app, join_bind, map_map. change ([COMMA] ≫= ascii_char) with [COMMA].
    change ([RBRACE] ≫= ascii_char) with [RBRACE]. change (ascii_char LBRACE) with [LBRACE].
    cbn [app]. do 3 f_equal. induction IH as [|f fields Hf _ IH']; [done|]. cbn [map]. f_equal; [|done].
    rewrite bind_app, bind_cons, Hs, Hf. done.
Qed.

Lemma asciiJson_print v : asciiJson v = print ascii_body v.
Proof.
  unfold asciiJson, stringify. rewrite print_bind.
  induction v as [z|s|b|fields IH] using json_fields_ind; cbn [print]; try done.
  - unfold print_string. by rewrite quote_body_ascii.
  - do 3 f_equal. induction IH as [|f fields Hf _ IH']; [done|]. cbn [map]. f_equal; [|done].
    rewrite Hf. unfold print_string. by rewrite quote_body_ascii.
Qed.

(** *** Reading a string back *)

Lemma parse_hex4 c : c < 65536 -> parse_nat 16 (hex4 c) = c.
Proof.
  intros Hc. unfold parse_nat, hex4. cbn [foldl]. rewrite !digit_value_char by (by apply N.mod_lt).
  assert (c / 256 = c / 16 / 16) as -> by (by rewrite N.Div0.div_div).
  assert (c / 4096 = c / 16 / 16 / 16) as -> by (by rewrite !N.Div0.div_div).
  pose proof (N.div_mod c 16 ltac:(lia)). pose proof (N.div_mod (c / 16) 16 ltac:(lia)).
  pose proof (N.div_mod (c / 16 / 16) 16 ltac:(lia)). assert (c / 16 / 16 / 16 < 16).
  { rewrite !N.Div0.div_div. apply N.Div0.div_lt_upper_bound. lia. }
  rewrite (N.mod_small (c / 16 / 16 / 16) 16) by done. lia.
Qed.

Lemma hex4_is_hex c : forallb is_hex_digit (hex4 c) = true.
Proof.
  apply forallb_forall. intros x Hx%list_elem_of_In. pose proof (hex4_digits c) as H.
  rewrite Forall_forall in H. destruct (H x Hx) as (d & Hd & ->). unfold is_hex_digit, is_digit, digit_char.
  destruct (N.ltb_spec d 10).
  - rewrite (proj2 (N.leb_le 48 (d + 48))), (proj2 (N.leb_le (d + 48) 57)) by lia. done.
  - rewrite (proj2 (N.leb_le 97 (d + 87))), (proj2 (N.leb_le (d + 87) 102)) by lia. cbn. by rewrite orb_true_r.
Qed.

Lemma read_unicode c r :
  c < 65536 -> read_string (unicode_escape c ++ r) = cons_first c (read_string r).
Proof.
  intros Hc. change (read_string (unicode_escape c ++ r)) with
    (if forallb is_hex_digit (hex4 c) then cons_first (parse_nat 16 (hex4 c)) (read_string r) else None).
  by rewrite hex4_is_hex, parse_hex4.
Qed.

(** The three shapes of a printed unit. *)
Lemma ascii_unit_cases c :
  c < 65536 ->
  (exists letter, ascii_unit c = [BACKSLASH; letter] /\ (c, letter) ∈ short_escapes) \/
  ascii_unit c = unicode_escape c \/
  (ascii_unit c = [c] /\ 32 <= c < 128 /\ c <> QUOTE /\ c <> BACKSLASH).
Proof.
  intros Hc. unfold ascii_unit, escape_unit.
  destruct (List.find (fun e => e.1 =? c) short_escapes) as [[c' letter]|] eqn:E.
  - apply find_some in E as [Hin Heq%N.eqb_eq]. cbn in Heq. subst c'. left. exists letter.
    apply list_elem_of_In in Hin. split; [|done]. apply printable_ascii.
    repeat (apply elem_of_cons in Hin as [[= _ ->]|Hin]; [by repeat constructor|]). by apply elem_of_nil in Hin.
  - pose proof (find_none _ _ E) as Hn. destruct (N.ltb_spec c 32) as [Hlt|Hge].
    + right; left. apply printable_ascii, unicode_escape_ascii.
    + rewrite bind_cons. cbn. rewrite app_nil_r. unfold ascii_char.
      rewrite (proj2 (N.leb_le c 65535)) by lia. rewrite andb_true_r.
      destruct (N.leb_spec 128 c); [by right; left|]. right; right. split_and!; [done|done|done| |].
      * intros ->. specialize (Hn (34, 34) ltac:(cbn; tauto)). done.
      * intros ->. specialize (Hn (92, 92) ltac:(cbn; tauto)). done.
Qed.

Lemma read_string_ascii s rest : units s -> read_string (ascii_body s ++ QUOTE :: rest) = Some (s, rest).
Proof.
  induction 1 as [|c s Hc _ IH]; [done|]. unfold ascii_body. rewrite bind_cons, <- app_assoc. fold (ascii_body s).
  destruct (ascii_unit_cases c Hc) as [(letter & -> & Hin)|[->|(-> & Hr & Hq & Hb)]].
  - assert (read_string (BACKSLASH :: letter :: ascii_body s ++ QUOTE :: rest) =
      cons_first c (read_string (ascii_body s ++ QUOTE :: rest))) as E.
    { repeat (apply elem_of_cons in Hin as [[= -> ->]|Hin]; [done|]). by apply elem_of_nil in Hin. }
    cbn [app]. rewrite E, IH. done.
  - by rewrite read_unicode, IH.
  - cbn [app read_string]. rewrite (proj2 (N.eqb_neq c QUOTE)), (proj2 (N.eqb_neq c BACKSLASH)) by done.
    rewrite (proj2 (N.ltb_ge c 32)) by lia. by rewrite IH.
Qed.

Lemma ascii_unit_printable c : c < 65536 -> Forall (fun x => 32 <= x < 128) (ascii_unit c).
Proof.
  intros Hc. destruct (ascii_unit_cases c Hc) as [(letter & -> & Hin)|[->|(-> & Hr & _)]].
  - repeat (apply elem_of_cons in Hin as [[= _ ->]|Hin]; [by repeat constructor|]). by apply elem_of_nil in Hin.
  - apply unicode_escape_ascii.
  - by constructor.
Qed.

Lemma print_string_printable s :
  units s -> Forall (fun x => 32 <= x < 128) (print_string ascii_body s).
Proof.
  intros Hs. unfold print_string. constructor; [done|]. apply Forall_app. split; [|by repeat constructor].
  induction Hs as [|c s Hc _ IH]; [constructor|]. unfold ascii_body. rewrite bind_cons. apply Forall_app.
  split; [by apply ascii_unit_printable|exact IH].
Qed.

Lemma join_Forall (P : N -> Prop) sep parts :
  Forall P sep -> Forall (Forall P) parts -> Forall P (join sep parts).
Proof.
  intros Hsep. induction 1 as [|p parts Hp Hps IH]; [constructor|]. destruct parts as [|q parts]; [done|].
  rewrite join_cons, !Forall_app. done.
Qed.

Lemma print_printable v : json_wf v -> Forall (fun x => 32 <= x < 128) (print ascii_body v).
Proof.
  induction v as [z|s|b|fields IH] using json_fields_ind; intros Hwf; cbn [print].
  - apply print_Z_ascii.
  - by apply print_string_printable.
  - destruct b; by repeat constructor.
  - apply json_wf_fields in Hwf. constructor; [done|]. apply Forall_app. split; [|by repeat constructor].
    apply join_Forall; [by repeat constructor|]. clear -IH Hwf.
    induction IH as [|f fields Hf _ IH']; [constructor|]. apply Forall_cons in Hwf as [[Hk Hv] Hwf]. cbn [map].
    constructor; [|by apply IH']. apply Forall_app. split; [by apply print_string_printable|].
    constructor; [done|by apply Hf].
Qed.

(** *** Reading a number back *)

Definition no_digit_first (s : text) : Prop := forall c, head s = Some c -> is_digit c = false.

Lemma span_digits_app d rest :
  Forall (fun c => is_digit c = true) d -> no_digit_first rest -> span_digits (d ++ rest) = (d, rest).
Proof.
  intros Hd Hr. induction Hd as [|c d Hc _ IH]; cbn.
  - destruct rest as [|c rest]; [done|]. cbn. by rewrite (Hr c).
  - by rewrite Hc, IH.
Qed.

Lemma print_nat_fuel_head fuel n :
  (N.size_nat n < fuel)%nat -> n <> 0 -> head (print_nat_fuel fuel 10 n []) <> Some 48.
Proof.
  revert n. induction fuel as [|fuel IH]; intros n Hf Hn; [lia|]. cbn [print_nat_fuel].
  destruct (N.eqb_spec (n / 10) 0) as [E|E].
  - cbn. pose proof (N.div_mod n 10 ltac:(lia)) as Hdm. pose proof (N.mod_lt n 10 ltac:(lia)).
    unfold digit_char. rewrite (proj2 (N.ltb_lt _ 10)) by done. intros [= Hd]. rewrite E in Hdm. lia.
  - rewrite print_nat_fuel_acc. pose proof (div_size_nat n 10 ltac:(lia) E).
    specialize (IH (n / 10) ltac:(lia) E). destruct fuel as [|fuel]; [lia|].
    cbn [print_nat_fuel] in *. case_match; [done|]. rewrite print_nat_fuel_acc in *.
    by destruct (print_nat_fuel fuel 10 (n / 10 / 10) []).
Qed.

Lemma read_print_nat n rest : no_digit_first rest -> read_nat (print_nat 10 n ++ rest) = Some (n, rest).
Proof.
  intros Hr. unfold read_nat.
  rewrite span_digits_app; [|apply print_nat_digits; [done|apply decimal_digit]|done].
  destruct (print_nat 10 n) as [|c more] eqn:E; [by apply print_nat_not_nil in E|].
  rewrite <- E, parse_print_nat by lia.
  destruct (N.eqb_spec c 48) as [->|]; [|done]. destruct (decide (n = 0)) as [->|Hn].
  - cbv in E. simplify_eq. done.
  - exfalso. apply (print_nat_fuel_head (S (N.size_nat n)) n); [lia|done|].
    change (print_nat_fuel _ _ _ _) with (print_nat 10 n). by rewrite E.
Qed.

Lemma head_print_nat n rest : exists c r, print_nat 10 n ++ rest = c :: r /\ is_digit c = true.
Proof.
  pose proof (print_nat_digits 10 n (fun c => is_digit c = true) ltac:(lia) decimal_digit) as H.
  destruct (print_nat 10 n) as [|c more] eqn:E; [by apply print_nat_not_nil in E|].
  apply Forall_cons in H as [Hc _]. by eexists _, _.
Qed.

Lemma digit_not c d : is_digit c = true -> is_digit d = false -> (c =? d) = false.
Proof. intros Hc Hd. apply N.eqb_neq. intros ->. congruence. Qed.

Lemma read_print_Z z rest : no_digit_first rest -> read_number (print_Z z ++ rest) = Some (z, rest).
Proof.
  intros Hr. unfold print_Z. destruct (Z.ltb_spec z 0).
  - cbn [app read_number]. change (45 =? MINUS) with true. cbn iota. rewrite read_print_nat by done.
    cbn [mbind option_bind]. do 2 f_equal. lia.
  - destruct (head_print_nat (Z.to_N z) rest) as (c & r & E & Hc). unfold read_number. rewrite E.
    rewrite (digit_not c MINUS) by done. rewrite <- E, read_print_nat by done.
    cbn [mbind option_bind]. do 2 f_equal. lia.
Qed.

(** *** Reading a value back *)

Lemma eat_cons c s : eat c (c :: s) = Some s.
Proof. cbn. by rewrite N.eqb_refl. Qed.

Lemma eat_other c x s : x <> c -> eat c (x :: s) = None.
Proof. intros H. cbn. by rewrite (proj2 (N.eqb_neq x c)). Qed.

Lemma print_Z_head z rest : exists c r, print_Z z ++ rest = c :: r /\ (is_digit c = true \/ c = MINUS).
Proof.
  unfold print_Z. case_match; [by eexists _, _; split; [done|right]|].
  destruct (head_print_nat (Z.to_N z) rest) as (c & r & E & Hc). exists c, r. naive_solver.
Qed.

Lemma read_value_number fuel z rest :
  no_digit_first rest -> read_value (S fuel) (print_Z z ++ rest) = Some (JsonNumber z, rest).
Proof.
  intros Hr. pose proof (read_print_Z z rest Hr) as Hz. destruct (print_Z_head z rest) as (c & r & E & Hc).
  rewrite E in Hz |- *. cbn [read_value].
  assert (48 <= c <= 57 \/ c = 45) as Hb.
  { destruct Hc as [Hc|Hc]; [|by right]. left. unfold is_digit in Hc. by rewrite andb_true_iff, !N.leb_le in Hc. }
  rewrite (proj2 (N.eqb_neq c QUOTE)), (proj2 (N.eqb_neq c LBRACE)) by (unfold QUOTE, LBRACE; lia).
  assert (forall w, (116 =? c) && w = false) as Ht by (intros w; by rewrite (proj2 (N.eqb_neq 116 c)) by lia).
  assert (forall w, (102 =? c) && w = false) as Hf by (intros w; by rewrite (proj2 (N.eqb_neq 102 c)) by lia).
  change (starts_with (txt "true") (c :: r)) with ((116 =? c) && starts_with (txt "rue") r).
  change (starts_with (txt "false") (c :: r)) with ((102 =? c) && starts_with (txt "alse") r).
  rewrite Ht, Hf, Hz. done.
Qed.

Lemma read_value_string fuel s rest :
  units s -> read_value (S fuel) (print_string ascii_body s ++ rest) = Some (JsonString s, rest).
Proof.
  intros Hs. unfold print_string. rewrite <- app_comm_cons, <- app_assoc. cbn [app read_value].
  change (QUOTE =? QUOTE) with true. cbn iota. by rewrite read_string_ascii.
Qed.

Abbreviation print_field f := (print_string ascii_body f.1 ++ COLON :: print ascii_body f.2).

(** The statement the induction needs. *)
Definition reads_back (v : json) : Prop := forall fuel rest,
  (json_size v <= fuel)%nat -> json_wf v -> no_digit_first rest ->
  read_value fuel (print ascii_body v ++ rest) = Some (v, rest).

Lemma read_fields_print fields fuel rest :
  fields <> [] -> Forall (fun f => reads_back f.2) fields ->
  Forall (fun f => units f.1 /\ json_wf f.2) fields ->
  (foldr (fun f n => (S (json_size f.2) + n)%nat) O fields <= fuel)%nat ->
  read_fields fuel (join [COMMA] (map (fun f => print_field f) fields) ++ RBRACE :: rest) = Some (fields, rest).
Proof.
  intros Hne Hback. revert fuel. induction Hback as [|[k v] fields Hv Hback IH]; intros fuel Hwf Hf; [done|].
  apply Forall_cons in Hwf as [[Hk Hwv] Hwf]. cbn [foldr fst snd] in *. destruct fuel as [|fuel]; [lia|].
  assert (forall tail, no_digit_first tail ->
    read_fields (S fuel) (print_field (k, v) ++ tail) =
      match eat COMMA tail with
      | Some s => '(fs, rest) ← read_fields fuel s; Some ((k, v) :: fs, rest)
      | None => s ← eat RBRACE tail; Some ([(k, v)], s)
      end) as Hstep.
  { intros tl Htl. cbn [fst snd]. unfold print_string. rewrite <- !app_comm_cons, <- !app_assoc.
    cbn [app read_fields]. rewrite eat_cons. cbn [mbind option_bind]. rewrite read_string_ascii by done.
    cbn [mbind option_bind]. rewrite eat_cons. cbn [mbind option_bind]. rewrite Hv by (done || lia). done. }
  destruct fields as [|f fields]; cbn [map].
  - cbn [join]. rewrite Hstep by (by intros ? [= <-]). rewrite eat_other, eat_cons by done. done.
  - rewrite join_cons, <- app_assoc. rewrite Hstep by (by intros ? [= <-]). cbn [app]. rewrite eat_cons.
    specialize (IH ltac:(done) fuel Hwf ltac:(lia)). cbn [map] in IH. by rewrite IH.
Qed.

Lemma value_reads_back v : reads_back v.
Proof.
  induction v as [z|s|b|fields IH] using json_fields_ind; intros fuel rest Hf Hwf Hr;
    (destruct fuel as [|fuel]; [cbn in Hf; lia|]); cbn [print].
  - by apply read_value_number.
  - by apply read_value_string.
  - by destruct b.
  - rewrite <- app_comm_cons, <- app_assoc. cbn [app read_value].
    change (LBRACE =? QUOTE) with false. change (LBRACE =? LBRACE) with true. cbn iota.
    apply json_wf_fields in Hwf. destruct (decide (fields = [])) as [->|Hne]; [done|].
    assert (eat RBRACE (join [COMMA] (map (fun f => print_field f) fields) ++ RBRACE :: rest) = None) as ->.
    { destruct fields as [|f [|f' fields]]; [done|done|]. cbn [map join]. done. }
    rewrite read_fields_print; [done|done|done|done|]. cbn [json_size] in Hf. lia.
Qed.

Lemma length_join_ge sep parts : (foldr (fun p n => length p + n) 0 parts <= length (join sep parts))%nat.
Proof.
  induction parts as [|p [|q parts] IH]; [done|cbn; lia|]. rewrite join_cons, !length_app. cbn [foldr] in *. lia.
Qed.

Lemma print_size v : (json_size v <= length (print ascii_body v))%nat.
Proof.
  induction v as [z|s|b|fields IH] using json_fields_ind; cbn [print json_size].
  - destruct (print_Z_head z []) as (c & r & E & _). rewrite app_nil_r in E. rewrite E. cbn. lia.
  - cbn. lia.
  - destruct b; vm_compute; lia.
  - cbn [length]. rewrite length_app. pose proof (length_join_ge [COMMA] (map (fun f => print_field f) fields)) as Hj.
    enough (foldr (fun f n => S (json_size f.2) + n) 0 fields <=
            foldr (fun p n => length p + n) 0 (map (fun f => print_field f) fields))%nat by lia.
    clear Hj. induction IH as [|f fields Hf _ IH']; [done|]. cbn [map foldr]. rewrite length_app. cbn [length]. lia.
Qed.

(** The ASCII JSON the SDK writes is printable ASCII and reads back as the value
    it was written from, whatever UTF-16 code units its keys and strings hold. *)
Lemma asciiJson_roundtrip v :
  json_wf v -> parse_json (asciiJson v) = Some v /\ Forall (fun c => 32 <= c < 128) (asciiJson v).
Proof.
  intros Hwf. rewrite asciiJson_print. split; [|by apply print_printable]. unfold parse_json.
  rewrite <- (app_nil_r (print ascii_body v)) at 2. rewrite value_reads_back; [done| |done|done].
  apply print_size.
Qed.
