(* ===== verification/Payload.v ===== *)
(** * Payload: the access token and the payload of [run-microvm]

    src/clients/typescript/src/payload.ts.  The access token is base64url of a
    secret; the payload carries the SHA-256 of the secret, the options of
    [create()] as JSON, and never exceeds the platform's limit.  SHA-256 is a
    parameter. *)

From stdpp Require Import base option list strings sets.
From Stdlib Require Import NArith ZArith Lia Permutation.
From S2P Require Import Prelude Text JsMap Limits Lifecycle Json.

Local Open Scope N_scope.

Definition PAYLOAD_VERSION : Z := 1.
Definition DEFAULT_USER : text := txt "user".
Definition DEFAULT_WORKDIR : text := txt "/home/user".
Definition ACCESS_TOKEN_BYTES : nat := 32.
Definition ACCESS_TOKEN_MIN_BYTES : nat := 16.
Definition RUN_HOOK_PAYLOAD_MAX_CHARS : N := 4096.
Definition CPU_TIME_LIMIT_MIN_SECONDS : Z := 1.
Definition CPU_TIME_LIMIT_MAX_SECONDS : Z := 28800.
Definition BASE64_PADDING : N := 61.

(** ** base64url *)

(** The character of six bits: A-Z, a-z, 0-9, [-] and [_]. *)
Definition b64_char (v : N) : N :=
  if v <? 26 then 65 + v
  else if v <? 52 then 71 + v
  else if v <? 62 then v - 4
  else if v =? 62 then 45 else 95.

Definition in_alphabet (c : N) : bool :=
  ((65 <=? c) && (c <=? 90)) || ((97 <=? c) && (c <=? 122)) || is_digit c || (c =? 45) || (c =? 95).

Definition b64_value (c : N) : N :=
  if (65 <=? c) && (c <=? 90) then c - 65
  else if (97 <=? c) && (c <=? 122) then c - 71
  else if is_digit c then c + 4
  else if c =? 45 then 62 else 63.

(** [Buffer.from(secret).toString("base64url")]: groups of three bytes, no
    padding. *)
Fixpoint encodeAccessToken (secret : list N) : text :=
  match secret with
  | [] => []
  | [a] => [b64_char (a / 4); b64_char (a mod 4 * 16)]
  | [a; b] => [b64_char (a / 4); b64_char (a mod 4 * 16 + b / 16); b64_char (b mod 16 * 4)]
  | a :: b :: c :: rest =>
      b64_char (a / 4) :: b64_char (a mod 4 * 16 + b / 16) :: b64_char (b mod 16 * 4 + c / 64)
      :: b64_char (c mod 64) :: encodeAccessToken rest
  end.

(** [Buffer.from(s, "base64url")] on texts of the alphabet: bits that do not make
    a byte are dropped. *)
Fixpoint decode_base64url (s : text) : list N :=
  match s with
  | a :: b :: c :: d :: rest =>
      (b64_value a * 4 + b64_value b / 16)
      :: (b64_value b mod 16 * 16 + b64_value c / 4)
      :: (b64_value c mod 4 * 64 + b64_value d) :: decode_base64url rest
  | [a; b; c] => [b64_value a * 4 + b64_value b / 16; b64_value b mod 16 * 16 + b64_value c / 4]
  | [a; b] => [b64_value a * 4 + b64_value b / 16]
  | _ => []
  end.

(** strings.ts: the text without its final run of [char]. *)
Definition stripTrailing (s : text) (char : N) : text := strip_right (N.eqb char) s.

Definition decodeAccessToken (accessToken : text) : result (list N) :=
  let stripped := stripTrailing accessToken BASE64_PADDING in
  if bool_decide (stripped = []) || negb (forallb in_alphabet stripped) then Throw InvalidArgumentError else
  let secret := decode_base64url stripped in
  if bool_decide (secret = []) || negb (bool_decide (encodeAccessToken secret = stripped))
  then Throw InvalidArgumentError
  else if (length secret <? ACCESS_TOKEN_MIN_BYTES)%nat then Throw InvalidArgumentError
  else Ok secret.

Definition validateAccessToken (accessToken : text) : result text :=
  _ ← decodeAccessToken accessToken; Ok accessToken.

(** [randomBytes(32)] is an argument. *)
Definition generateAccessToken (random : list N) : text := encodeAccessToken random.

(** ** Objects *)

(** The entries of an object: own properties in order; a value that is not a
    string is [None]. *)
Abbreviation entries := (list (text * option text)).

(** A canonical array index: such keys come first, in numeric order. *)
Definition array_index (key : text) : option N :=
  let n := parse_nat 10 key in
  if forallb is_digit key && bool_decide (print_nat 10 n = key) && (n <? 4294967295) then Some n else None.

Definition index_cmp {A} (a b : N * (text * A)) : Z := Z.of_N a.1 - Z.of_N b.1.

(** The properties of an object made from these entries, in [Object.entries] order. *)
Definition property_order {A} (es : list (text * A)) : list (text * A) :=
  (sort_by index_cmp (omap (fun e => n ← array_index e.1; Some (n, e)) es)).*2
  ++ List.filter (fun e => match array_index e.1 with Some _ => false | None => true end) es.

(** [a < b] on strings: by code units. *)
Fixpoint text_lt (a b : text) : bool :=
  match a, b with
  | _, [] => false
  | [], _ :: _ => true
  | x :: a', y :: b' => (x <? y) || ((x =? y) && text_lt a' b')
  end.

Definition key_cmp {A} (a b : text * A) : Z :=
  if text_lt a.1 b.1 then -1 else if text_lt b.1 a.1 then 1 else 0.

(** [Object.fromEntries] of the sorted entries, at every level. *)
Fixpoint sortedKeys (v : json) : json :=
  match v with
  | JsonObject fields =>
      JsonObject (property_order (sort_by key_cmp (map (fun f => (f.1, sortedKeys f.2)) fields)))
  | v => v
  end.

(** Assigning a string to [validated.__proto__] sets no property. *)
Definition PROTO : text := txt "__proto__".

Fixpoint validated_entries (es : entries) : result (list (text * text)) :=
  match es with
  | [] => Ok []
  | (key, value) :: rest =>
      if bool_decide (key = []) then Throw InvalidArgumentError else
      match value with
      | None => Throw InvalidArgumentError
      | Some v => vs ← validated_entries rest;
                  Ok (if bool_decide (key = PROTO) then vs else (key, v) :: vs)
      end
  end.

Definition validatedStringMap (values : entries) : result (list (text * text)) :=
  validated_entries values.

Definition validatedEnvs : entries -> result (list (text * text)) := validatedStringMap.

Definition validatedCpuTimeLimit (v : jsval) : result Z :=
  match integer_val v with
  | None => Throw InvalidArgumentError
  | Some n => if (n <? CPU_TIME_LIMIT_MIN_SECONDS)%Z || (CPU_TIME_LIMIT_MAX_SECONDS <? n)%Z
              then Throw InvalidArgumentError else Ok n
  end.

(** ** The payload *)

Record S3Prefix := { bucket : text; prefix : text }.

Record RunHookPayloadOptions := {
  accessToken : text;
  envs : option entries;
  metadata : option entries;
  cpuTimeLimit : jsval;
  user : option text;
  workdir : option text;
  networkEnforce : option bool;
  lifecycle : option LifecycleBlock;
  persist : option S3Prefix
}.

Definition persistBinding (p : S3Prefix) : json :=
  JsonObject [(txt "bucket", JsonString (bucket p)); (txt "key_prefix", JsonString (prefix p))].

Definition onTimeout_text (a : OnTimeout) : text :=
  match a with kill => txt "kill" | pause => txt "pause" end.

Definition lifecycleBlockToWire (b : LifecycleBlock) : json :=
  JsonObject [(txt "auto_resume", JsonBool (block_autoResume b)); (txt "cap_s", JsonNumber (capS b));
              (txt "on_timeout", JsonString (onTimeout_text (block_onTimeout b)));
              (txt "timeout_s", JsonNumber (timeoutS b))].

Definition string_object (m : list (text * text)) : json :=
  JsonObject ((fun e => (e.1, JsonString e.2)) <$> m).

(** [if (map !== undefined && Object.keys(map).length > 0) payload[key] = ...]. *)
Definition map_field (key : text) (m : option entries) : result (list (text * json)) :=
  match m with
  | Some (e :: es) => vs ← validatedStringMap (e :: es); Ok [(key, string_object vs)]
  | _ => Ok []
  end.

(** A byte as two lower-case hexadecimal digits. *)
Definition hex_bytes (bytes : list N) : text := b ← bytes; [digit_char (b / 16); digit_char (b mod 16)].

Section Payload.
Context (sha256 : list N -> list N).

Definition accessTokenSha256 (accessToken : text) : result text :=
  secret ← decodeAccessToken accessToken; Ok (hex_bytes (sha256 secret)).

(** The object before its keys are sorted. *)
Definition payload_fields (o : RunHookPayloadOptions) : result (list (text * json)) :=
  _ ← throw_if (bool_decide (accessToken o = [])) InvalidArgumentError;
  hash ← accessTokenSha256 (accessToken o);
  envs ← map_field (txt "envs") (envs o);
  metadata ← map_field (txt "metadata") (metadata o);
  limits ← (if is_undefined (cpuTimeLimit o) then Ok []
            else n ← validatedCpuTimeLimit (cpuTimeLimit o);
                 Ok [(txt "limits", JsonObject [(txt "cpu_seconds", JsonNumber n)])]);
  Ok ([(txt "v", JsonNumber PAYLOAD_VERSION); (txt "token_sha256", JsonString hash);
       (txt "user", JsonString (default DEFAULT_USER (user o)));
       (txt "workdir", JsonString (default DEFAULT_WORKDIR (workdir o)))]
      ++ envs ++ metadata ++ limits
      ++ (if bool_decide (networkEnforce o = Some true)
          then [(txt "network", JsonObject [(txt "enforce", JsonBool true)])] else [])
      ++ (match lifecycle o with Some b => [(txt "lifecycle", lifecycleBlockToWire b)] | None => [] end)
      ++ (match persist o with Some p => [(txt "persist", persistBinding p)] | None => [] end)).

Definition buildRunHookPayload (o : RunHookPayloadOptions) : result text :=
  fields ← payload_fields o;
  let t := asciiJson (sortedKeys (JsonObject fields)) in
  if RUN_HOOK_PAYLOAD_MAX_CHARS <? N.of_nat (length t) then Throw InvalidArgumentError else Ok t.
End Payload.

(** ** base64url: lemmas *)

Abbreviation bytes s := (Forall (fun b => b < 256) s).

Lemma b64_char_value v : v < 64 -> b64_value (b64_char v) = v /\ in_alphabet (b64_char v) = true.
Proof.
  intros Hv. assert (forallb (fun v => (b64_value (b64_char v) =? v) && in_alphabet (b64_char v))
    (N.of_nat <$> seq 0 64) = true) as H by (vm_compute; reflexivity).
  rewrite forallb_forall in H. specialize (H v). rewrite andb_true_iff, N.eqb_eq in H. apply H.
  apply list_elem_of_In, list_elem_of_fmap. exists (N.to_nat v). split; [lia|]. apply elem_of_seq. lia.
Qed.

Lemma b64_roundtrip v : v < 64 -> b64_value (b64_char v) = v.
Proof. apply b64_char_value. Qed.

Lemma b64_value_bound c : b64_value c < 64.
Proof.
  unfold b64_value, is_digit. repeat case_match; try lia;
    repeat match goal with H : (_ && _) = true |- _ => apply andb_true_iff in H as [?%N.leb_le ?%N.leb_le] end; lia.
Qed.

Section ThreeInduction.
Context (P : list N -> Prop) (P0 : P []) (P1 : forall a, P [a]) (P2 : forall a b, P [a; b])
  (P3 : forall a b c s, P s -> P (a :: b :: c :: s)).

Fixpoint three_ind (s : list N) : P s :=
  match s with
  | [] => P0
  | [a] => P1 a
  | [a; b] => P2 a b
  | a :: b :: c :: s' => P3 a b c s' (three_ind s')
  end.
End ThreeInduction.

(** Splitting three bytes into sixes of bits and joining them again. *)
Lemma sextets a b c :
  a < 256 -> b < 256 -> c < 256 ->
  a / 4 < 64 /\ a mod 4 * 16 < 64 /\ a mod 4 * 16 + b / 16 < 64 /\ b mod 16 * 4 < 64 /\
  b mod 16 * 4 + c / 64 < 64 /\ c mod 64 < 64 /\
  a / 4 * 4 + (a mod 4 * 16) / 16 = a /\
  a / 4 * 4 + (a mod 4 * 16 + b / 16) / 16 = a /\
  (a mod 4 * 16 + b / 16) mod 16 * 16 + (b mod 16 * 4) / 4 = b /\
  (a mod 4 * 16 + b / 16) mod 16 * 16 + (b mod 16 * 4 + c / 64) / 4 = b /\
  (b mod 16 * 4 + c / 64) mod 4 * 64 + c mod 64 = c.
Proof.
  intros Ha Hb Hc.
  pose proof (N.div_mod a 4 ltac:(lia)). pose proof (N.mod_lt a 4 ltac:(lia)).
  pose proof (N.div_mod b 16 ltac:(lia)). pose proof (N.mod_lt b 16 ltac:(lia)).
  pose proof (N.div_mod c 64 ltac:(lia)). pose proof (N.mod_lt c 64 ltac:(lia)).
  assert (b / 16 < 16) by (apply N.Div0.div_lt_upper_bound; lia).
  assert (c / 64 < 4) by (apply N.Div0.div_lt_upper_bound; lia).
  assert (a / 4 < 64) by (apply N.Div0.div_lt_upper_bound; lia).
  assert ((a mod 4 * 16) / 16 = a mod 4) by (apply N.div_mul; lia).
  assert ((b mod 16 * 4) / 4 = b mod 16) by (apply N.div_mul; lia).
  assert ((a mod 4 * 16 + b / 16) / 16 = a mod 4)
    by (rewrite N.div_add_l, (N.div_small (b / 16)) by lia; lia).
  assert ((b mod 16 * 4 + c / 64) / 4 = b mod 16)
    by (rewrite N.div_add_l, (N.div_small (c / 64)) by lia; lia).
  assert ((a mod 4 * 16 + b / 16) mod 16 = b / 16)
    by (rewrite N.add_comm, N.Div0.mod_add; apply N.mod_small; lia).
  assert ((b mod 16 * 4 + c / 64) mod 4 = c / 64)
    by (rewrite N.add_comm, N.Div0.mod_add; apply N.mod_small; lia).
  split_and!; lia.
Qed.

Lemma decode_encode secret : bytes secret -> decode_base64url (encodeAccessToken secret) = secret.
Proof.
  induction secret as [|a|a b|a b c s IH] using three_ind; intros Hs; rewrite ?Forall_cons in Hs.
  - done.
  - destruct (sextets a 0 0) as (?&?&_&_&_&_&E&_); [lia..|]. cbn.
    by rewrite !b64_roundtrip, E by done.
  - destruct (sextets a b 0) as (?&_&?&?&_&_&_&E1&E2&_); [lia..|]. cbn.
    by rewrite !b64_roundtrip, E1, E2 by done.
  - destruct (sextets a b c) as (?&_&?&_&?&?&_&E1&_&E2&E3); [lia..|].
    cbn [encodeAccessToken decode_base64url]. rewrite !b64_roundtrip, E1, E2, E3, IH by (done || tauto). done.
Qed.

Lemma encode_alphabet secret : bytes secret -> Forall (fun c => in_alphabet c = true) (encodeAccessToken secret).
Proof.
  induction secret as [|a|a b|a b c s IH] using three_ind; intros Hs; rewrite ?Forall_cons in Hs; cbn [encodeAccessToken].
  - done.
  - destruct (sextets a 0 0) as (?&?&_); [lia..|]. repeat (constructor; [by apply b64_char_value|]). done.
  - destruct (sextets a b 0) as (?&_&?&?&_); [lia..|]. repeat (constructor; [by apply b64_char_value|]). done.
  - destruct (sextets a b c) as (?&_&?&_&?&?&_); [lia..|]. repeat (constructor; [by apply b64_char_value|]).
    apply IH. tauto.
Qed.

Lemma encode_nil secret : encodeAccessToken secret = [] -> secret = [].
Proof. by destruct secret as [|a [|b [|c s]]]. Qed.

Lemma decode_bytes s : bytes (decode_base64url s).
Proof.
  assert (forall n s, (length s <= n)%nat -> bytes (decode_base64url s)) as H; [|by eapply H]. clear s.
  assert (forall x y, b64_value x * 4 + b64_value y / 16 < 256 /\
    b64_value x mod 16 * 16 + b64_value y / 4 < 256 /\ b64_value x mod 4 * 64 + b64_value y < 256) as Hb.
  { intros x y. pose proof (b64_value_bound x). pose proof (b64_value_bound y).
    pose proof (N.mod_lt (b64_value x) 16 ltac:(lia)). pose proof (N.mod_lt (b64_value x) 4 ltac:(lia)).
    assert (b64_value y / 16 < 4) by (apply N.Div0.div_lt_upper_bound; lia).
    assert (b64_value y / 4 < 16) by (apply N.Div0.div_lt_upper_bound; lia). lia. }
  induction n as [|n IH]; intros s Hn; [by destruct s; cbn in Hn; [constructor|lia]|].
  destruct s as [|a [|b [|c [|d s]]]]; cbn [decode_base64url]; [constructor|constructor| | |];
    repeat (constructor; [apply Hb|]); [constructor|constructor|]. apply IH. cbn in Hn. lia.
Qed.

Lemma strip_left_run c s : exists k, s = replicate k c ++ strip_left (N.eqb c) s.
Proof.
  induction s as [|x s [k IH]]; [by exists 0%nat|]. cbn [strip_left]. destruct (N.eqb_spec c x) as [<-|Hx].
  - exists (S k). cbn. by rewrite <- IH.
  - by exists 0%nat.
Qed.

Lemma stripTrailing_run s c : exists k, s = stripTrailing s c ++ replicate k c.
Proof.
  destruct (strip_left_run c (reverse s)) as [k E]. exists k. unfold stripTrailing, strip_right.
  rewrite <- (reverse_replicate k c), <- reverse_app, <- E. by rewrite reverse_involutive.
Qed.

Lemma strip_left_replicate c k s : strip_left (N.eqb c) (replicate k c ++ s) = strip_left (N.eqb c) s.
Proof. induction k as [|k IH]; [done|]. cbn. by rewrite N.eqb_refl. Qed.

Lemma stripTrailing_app s c k : c ∉ s -> stripTrailing (s ++ replicate k c) c = s.
Proof.
  intros Hc. unfold stripTrailing, strip_right. rewrite reverse_app, reverse_replicate, strip_left_replicate.
  rewrite strip_left_id; [apply reverse_involutive|]. intros x Hx.
  apply N.eqb_neq. intros <-. apply Hc. rewrite <- elem_of_reverse. destruct (reverse s); simplify_eq/=. set_solver.
Qed.

(** A token is accepted exactly when it is the canonical base64url text of a
    secret of at least sixteen bytes, with or without padding, and the bytes that
    are hashed are that secret's; so no two secrets share a token. *)
Theorem decodeAccessToken_exact token secret :
  decodeAccessToken token = Ok secret <->
  (ACCESS_TOKEN_MIN_BYTES <= length secret)%nat /\ bytes secret /\
  exists k, token = encodeAccessToken secret ++ replicate k BASE64_PADDING.
Proof.
  unfold decodeAccessToken. cbv zeta. split.
  - destruct (_ || negb _); [done|]. destruct (_ || negb (bool_decide _)) eqn:E; [done|].
    destruct (Nat.ltb_spec (length (decode_base64url (stripTrailing token BASE64_PADDING))) ACCESS_TOKEN_MIN_BYTES);
      [done|]. intros [= <-].
    apply orb_false_iff in E as [_ E]. apply negb_false_iff, bool_decide_eq_true in E.
    split_and!; [done|apply decode_bytes|]. rewrite E. apply stripTrailing_run.
  - intros (Hlen & Hs & k & ->). pose proof (encode_alphabet secret Hs) as Ha.
    rewrite stripTrailing_app by (intros Hin; rewrite Forall_forall in Ha; by specialize (Ha _ Hin)).
    rewrite (bool_decide_false (encodeAccessToken secret = [])) by (intros ->%encode_nil; cbv in Hlen; lia).
    rewrite (proj2 (forallb_Forall _ _ _ (fun x => iff_refl (in_alphabet x = true)))) by done. cbn [orb negb].
    rewrite decode_encode by done. rewrite (bool_decide_false (secret = [])) by (intros ->; cbv in Hlen; lia).
    rewrite bool_decide_true by done. cbn [orb negb].
    by rewrite (proj2 (Nat.ltb_ge _ _)).
Qed.

(** ** The payload: lemmas *)

Lemma omap_filter_split {A} (f : text * A -> option N) (es : list (text * A)) :
  Permutation ((omap (fun e => n ← f e; Some (n, e)) es).*2
    ++ List.filter (fun e => match f e with Some _ => false | None => true end) es) es.
Proof.
  induction es as [|e es IH]; [done|]. cbn [omap list_omap List.filter].
  destruct (f e) as [n|]; cbn [mbind option_bind].
  - rewrite fmap_cons. cbn [snd app]. by constructor.
  - rewrite <- Permutation_middle. by constructor.
Qed.

Lemma property_order_perm {A} (es : list (text * A)) : Permutation (property_order es) es.
Proof.
  unfold property_order. etransitivity; [|apply (omap_filter_split (fun e => array_index e.1))].
  apply Permutation_app_tail, Permutation_map, sort_by_perm.
Qed.

Lemma sortedKeys_fields fields :
  exists fs, sortedKeys (JsonObject fields) = JsonObject fs /\
    Permutation fs ((fun f => (f.1, sortedKeys f.2)) <$> fields).
Proof.
  cbn [sortedKeys]. eexists. split; [reflexivity|]. by rewrite property_order_perm, sort_by_perm.
Qed.

Lemma sortedKeys_wf v : json_wf v -> json_wf (sortedKeys v).
Proof.
  induction v as [z|s|b|fields IH] using json_fields_ind; try done. intros Hwf%json_wf_fields.
  destruct (sortedKeys_fields fields) as (fs & -> & Hp). apply json_wf_fields. rewrite Hp.
  apply Forall_fmap. rewrite Forall_forall in Hwf, IH |- *. intros f Hf. cbn.
  split; [by apply Hwf|]. apply IH; [done|by apply Hwf].
Qed.

(** Texts of code units, everywhere in the options. *)
Record options_wf (o : RunHookPayloadOptions) : Prop := {
  wf_envs : forall es, envs o = Some es -> Forall (fun e => units e.1 /\ forall v, e.2 = Some v -> units v) es;
  wf_metadata : forall es, metadata o = Some es -> Forall (fun e => units e.1 /\ forall v, e.2 = Some v -> units v) es;
  wf_user : units (default DEFAULT_USER (user o));
  wf_workdir : units (default DEFAULT_WORKDIR (workdir o));
  wf_persist : forall p, persist o = Some p -> units (bucket p) /\ units (prefix p)
}.

Abbreviation field_wf := (fun f => units f.1 /\ json_wf f.2).

Lemma units_txt s : units (txt s).
Proof.
  unfold txt. apply Forall_fmap, Forall_forall. intros c _. cbn.
  pose proof (Ascii.N_ascii_bounded c). lia.
Qed.

Lemma validated_wf es vs :
  Forall (fun e => units e.1 /\ forall v, e.2 = Some v -> units v) es -> validatedStringMap es = Ok vs ->
  Forall (fun e => units e.1 /\ units e.2) vs.
Proof.
  unfold validatedStringMap. intros Hwf. revert vs. induction Hwf as [|[k [v|]] es [Hk Hv] Hwf IH]; intros vs; cbn.
  - intros [= <-]. constructor.
  - case_bool_decide; [done|]. destruct (validated_entries es) as [rest|]; cbn; [|done]. intros [= <-].
    specialize (IH rest eq_refl). case_bool_decide; [done|]. constructor; [|done]. split; [done|by apply Hv].
  - by case_bool_decide.
Qed.

Lemma map_field_wf key m fs :
  (forall es, m = Some es -> Forall (fun e => units e.1 /\ forall v, e.2 = Some v -> units v) es) ->
  units key -> map_field key m = Ok fs -> Forall field_wf fs.
Proof.
  intros Hwf Hkey. unfold map_field. destruct m as [[|e es]|]; [intros [= <-]; constructor| |intros [= <-]; constructor].
  destruct (validatedStringMap (e :: es)) as [vs|] eqn:E; cbn; [|done]. intros [= <-].
  apply Forall_singleton. split; [done|]. unfold string_object. cbn [snd]. apply json_wf_fields, Forall_fmap.
  eapply Forall_impl; [by eapply validated_wf; [apply Hwf|]|]. done.
Qed.

Lemma hex_bytes_units bs : bytes bs -> units (hex_bytes bs).
Proof.
  induction 1 as [|b bs Hb _ IH]; [constructor|]. unfold hex_bytes. rewrite bind_cons. apply Forall_app.
  split; [|exact IH]. assert (b / 16 < 16) by (apply N.Div0.div_lt_upper_bound; lia).
  pose proof (digit_char_bounds (b / 16) ltac:(done)).
  pose proof (digit_char_bounds (b mod 16) (N.mod_lt b 16 ltac:(lia))).
  repeat constructor; lia.
Qed.

Section PayloadLemmas.
Context (sha256 : list N -> list N) (sha256_bytes : forall s, bytes (sha256 s)).

Lemma payload_fields_spec o fields :
  payload_fields sha256 o = Ok fields -> options_wf o ->
  Forall field_wf fields /\ exists secret, decodeAccessToken (accessToken o) = Ok secret /\
    (txt "token_sha256", JsonString (hex_bytes (sha256 secret))) ∈ fields.
Proof using sha256_bytes.
  intros Hok [He Hm Hu Hw Hp]. unfold payload_fields in Hok.
  apply throw_if_bind in Hok as [_ Hok]. unfold accessTokenSha256 in Hok.
  destruct (decodeAccessToken (accessToken o)) as [secret|]; cbn [mbind result_bind] in Hok; [|done].
  destruct (map_field (txt "envs") (envs o)) as [envs'|] eqn:Ee; cbn [mbind result_bind] in Hok; [|done].
  destruct (map_field (txt "metadata") (metadata o)) as [meta'|] eqn:Em; cbn [mbind result_bind] in Hok; [|done].
  apply map_field_wf in Ee; [|exact He|apply units_txt]. apply map_field_wf in Em; [|exact Hm|apply units_txt].
  assert (forall k v, json_wf v -> field_wf (txt k, v)) as Hf by (intros k v Hv; split; [apply units_txt|exact Hv]).
  destruct (if is_undefined (cpuTimeLimit o) then _ else _) as [limits'|] eqn:El; cbn [mbind result_bind] in Hok; [|done].
  assert (Forall field_wf limits') as Hl.
  { destruct (is_undefined _); [by simplify_eq|]. destruct (validatedCpuTimeLimit _); cbn in El; simplify_eq.
    apply Forall_singleton, Hf. cbn. split_and!; try done. apply units_txt. }
  injection Hok as <-. split; [|exists secret; split; [done|set_solver]].
  do 4 (apply Forall_cons; split; [by apply Hf; try done; apply hex_bytes_units|]).
  repeat (apply Forall_app; split); try done.
  - case_bool_decide; [|done]. apply Forall_singleton, Hf. cbn. split_and!; try done. apply units_txt.
  - destruct (lifecycle o) as [b|]; [|done]. apply Forall_singleton, Hf. cbn.
    split_and!; try done; try apply units_txt. destruct (block_onTimeout b); apply units_txt.
  - destruct (persist o) as [p|]; [|done]. apply Forall_singleton, Hf. destruct (Hp p eq_refl). cbn.
    split_and!; try done; apply units_txt.
Qed.
End PayloadLemmas.

Lemma buildRunHookPayload_spec sha256 o t :
  (forall s, bytes (sha256 s)) -> options_wf o -> buildRunHookPayload sha256 o = Ok t ->
  N.of_nat (length t) <= 4096 /\ Forall (fun c => 32 <= c < 128) t /\
  exists fields fs secret, payload_fields sha256 o = Ok fields /\ parse_json t = Some (JsonObject fs) /\
    Permutation fs ((fun f => (f.1, sortedKeys f.2)) <$> fields) /\
    decodeAccessToken (accessToken o) = Ok secret /\
    (txt "token_sha256", JsonString (hex_bytes (sha256 secret))) ∈ fs.
Proof.
  intros Hsha Ho. unfold buildRunHookPayload.
  destruct (payload_fields sha256 o) as [fields|] eqn:E; cbn [mbind result_bind]; [|done]. cbv zeta.
  destruct (N.ltb_spec RUN_HOOK_PAYLOAD_MAX_CHARS (N.of_nat (length (asciiJson (sortedKeys (JsonObject fields))))))
    as [|Hlen]; [done|]. intros [= <-].
  destruct (payload_fields_spec sha256 Hsha o fields E Ho) as (Hwf & secret & Hd & Hin).
  apply json_wf_fields, sortedKeys_wf in Hwf. destruct (asciiJson_roundtrip _ Hwf) as [Hparse Hascii].
  destruct (sortedKeys_fields fields) as (fs & Efs & Hperm).
  split_and!; [exact Hlen|exact Hascii|].
  exists fields, fs, secret. split_and!; [done|rewrite <- Efs; exact Hparse|done|done|].
  rewrite Hperm. apply list_elem_of_fmap. by eexists (_, JsonString _).
Qed.

(** The lifecycle block travels exactly when there is one. *)
Lemma payload_fields_lifecycle sha256 o fields v :
  payload_fields sha256 o = Ok fields ->
  (txt "lifecycle", v) ∈ fields <-> exists b, lifecycle o = Some b /\ v = lifecycleBlockToWire b.
Proof.
  intros Hok. unfold payload_fields in Hok. apply throw_if_bind in Hok as [_ Hok].
  destruct (accessTokenSha256 sha256 (accessToken o)) as [hash|]; cbn [mbind result_bind] in Hok; [|done].
  assert (forall key m fs, map_field key m = Ok fs -> forall f, f ∈ fs -> f.1 = key) as Hmap.
  { intros key m fs. unfold map_field. destruct m as [[|e es]|]; [by intros [= <-] f ?%elem_of_nil| |by intros [= <-] f ?%elem_of_nil].
    destruct (validatedStringMap _); cbn; [|done]. by intros [= <-] f ->%list_elem_of_singleton. }
  destruct (map_field (txt "envs") (envs o)) as [envs'|] eqn:Ee; cbn [mbind result_bind] in Hok; [|done].
  destruct (map_field (txt "metadata") (metadata o)) as [meta'|] eqn:Em; cbn [mbind result_bind] in Hok; [|done].
  destruct (if is_undefined (cpuTimeLimit o) then _ else _) as [limits'|] eqn:El; cbn [mbind result_bind] in Hok; [|done].
  assert (forall f, f ∈ limits' -> f.1 = txt "limits") as Hl.
  { destruct (is_undefined _); [simplify_eq; by intros f ?%elem_of_nil|].
    destruct (validatedCpuTimeLimit _); cbn in El; simplify_eq. by intros f ->%list_elem_of_singleton. }
  injection Hok as <-. rewrite !elem_of_cons, !elem_of_app.
  assert (forall k (l : list (text * json)), (forall f, f ∈ l -> f.1 = txt k) -> txt "lifecycle" <> txt k -> ~ (txt "lifecycle", v) ∈ l) as Hno
    by (intros k l Hk Hne Hin; by apply Hk in Hin).
  pose proof (Hno _ _ (Hmap _ _ _ Ee) ltac:(done)). pose proof (Hno _ _ (Hmap _ _ _ Em) ltac:(done)).
  pose proof (Hno _ _ Hl ltac:(done)).
  assert (~ (txt "lifecycle", v) ∈ (if bool_decide (networkEnforce o = Some true)
    then [(txt "network", JsonObject [(txt "enforce", JsonBool true)])] else [])).
  { apply (Hno "network"); [|done]. intros f. case_bool_decide; [by intros ->%list_elem_of_singleton|by intros ?%elem_of_nil]. }
  assert (~ (txt "lifecycle", v) ∈ (match persist o with Some p => [(txt "persist", persistBinding p)] | None => [] end)).
  { apply (Hno "persist"); [|done]. intros f. destruct (persist o); [by intros ->%list_elem_of_singleton|by intros ?%elem_of_nil]. }
  destruct (lifecycle o) as [b|].
  - rewrite list_elem_of_singleton. split; [|intros (? & [= <-] & ->); tauto].
    intros Hin. exists b. split; [done|].
    destruct Hin as [[= E]|[[= E]|[[= E]|[[= E]|[?|[?|[?|[?|[[= ->]|?]]]]]]]]]; done.
  - split; [|by intros (? & ? & _)]. rewrite elem_of_nil.
    intros Hin. exfalso. destruct Hin as [[= E]|[[= E]|[[= E]|[[= E]|[?|[?|[?|[?|[?|?]]]]]]]]]; done.
Qed.

Lemma sortedKeys_wire b : sortedKeys (lifecycleBlockToWire b) = lifecycleBlockToWire b.
Proof. reflexivity. Qed.

(** A payload that is built fits the platform's limit, is printable ASCII, and
    reads back as the object of the options with its keys reordered: it carries the
    hash of the secret the token stands for, and every other field as given. *)
Theorem buildRunHookPayload_faithful sha256 o t :
  (forall s, bytes (sha256 s)) -> options_wf o -> buildRunHookPayload sha256 o = Ok t ->
  N.of_nat (length t) <= 4096 /\ Forall (fun c => 32 <= c < 128) t /\
  exists fields fs secret, payload_fields sha256 o = Ok fields /\ parse_json t = Some (JsonObject fs) /\
    Permutation fs ((fun f => (f.1, sortedKeys f.2)) <$> fields) /\
    decodeAccessToken (accessToken o) = Ok secret /\
    (txt "token_sha256", JsonString (hex_bytes (sha256 secret))) ∈ fs.
Proof. apply buildRunHookPayload_spec. Qed.

Definition sample_payload_options : RunHookPayloadOptions := {|
  accessToken := encodeAccessToken (replicate 16 7); envs := Some [(txt "A", Some [233]); (PROTO, Some [])];
  metadata := None; cpuTimeLimit := jint 60; user := None; workdir := None; networkEnforce := Some true;
  lifecycle := None; persist := None |}.

Lemma buildRunHookPayload_faithful_witness :
  exists t, buildRunHookPayload (fun _ => [255]) sample_payload_options = Ok t /\ N.of_nat (length t) <= 4096.
Proof.
  eexists. split; [vm_compute; reflexivity|].
  refine (proj1 (buildRunHookPayload_faithful (fun _ => [255]) sample_payload_options _ _ _ _)).
  - intros _. by repeat constructor.
  - constructor; cbn.
    + intros ? [= <-]. repeat constructor; try (apply units_txt); cbn; intros ? [= <-]; by repeat constructor.
    + done.
    + apply units_txt.
    + apply units_txt.
    + done.
  - vm_compute. reflexivity.
Defined.
