(* ===== verification/Ports.v ===== *)
(** * Ports: the ports a proxy token covers

    [PortSpec] of src/clients/typescript/src/aws/control-plane.ts, [validatePort]
    of models.ts and the port planning of sandbox/launch.ts: the agent's port is
    always covered, the hooks port never. *)

From stdpp Require Import base option list strings sets.
From Stdlib Require Import ZArith QArith Lia.
From S2P Require Import Prelude Limits.

Local Open Scope Z_scope.

Definition PORT_MIN : Z := 1.
Definition PORT_MAX : Z := 65535.

Definition validatePort (v : jsval) : result Z :=
  match integer_val v with
  | None => Throw InvalidArgumentError
  | Some p => if (p <? PORT_MIN) || (PORT_MAX <? p) then Throw InvalidArgumentError else Ok p
  end.

Record PortSpec := { port_start : Z; port_end : Z }.

#[export] Instance PortSpec_eq_dec : EqDecision PortSpec.
Proof. solve_decision. Defined.

(** [PortSpec.single]. *)
Definition single (port : Z) : PortSpec := {| port_start := port; port_end := port |}.

(** [PortSpec.range]. *)
Definition range (first last : Z) : result PortSpec :=
  if last <? first then Throw InvalidArgumentError else Ok {| port_start := first; port_end := last |}.

Definition covers (s : PortSpec) (port : Z) : bool := (port_start s <=? port) && (port <=? port_end s).

(** [equals]. *)
Definition same_spec (a b : PortSpec) : bool :=
  (port_start a =? port_start b) && (port_end a =? port_end b).

(** [a.every((spec, index) => spec.equals(b[index]))] on arrays of one length. *)
Fixpoint samePortSet (a b : list PortSpec) : bool :=
  match a, b with
  | [], [] => true
  | x :: a', y :: b' => same_spec x y && samePortSet a' b'
  | _, _ => false
  end.

(** [toApi]: one port, or a range. *)
Inductive api_ports := ApiPort (port : Z) | ApiRange (startPort endPort : Z).
Definition toApi (s : PortSpec) : api_ports :=
  if port_start s =? port_end s then ApiPort (port_start s) else ApiRange (port_start s) (port_end s).

Definition portSpec (entry : jsval) : result PortSpec :=
  match entry with
  | JArray [a; b] => lo ← validatePort a; hi ← validatePort b; range lo hi
  | JArray _ => Throw InvalidArgumentError
  | _ => p ← validatePort entry; Ok (single p)
  end.

(** The loop of [proxyPortSpecs] from the specs so far. *)
Fixpoint add_ports (specs : list PortSpec) (entries : list jsval) : result (list PortSpec) :=
  match entries with
  | [] => Ok specs
  | entry :: rest =>
      spec ← portSpec entry;
      if covers spec HOOKS_PORT then Throw InvalidArgumentError
      else add_ports (if existsb (fun known => same_spec known spec) specs then specs else specs ++ [spec]) rest
  end.

Definition proxyPortSpecs (allowedPorts : option (list jsval)) : result (list PortSpec) :=
  add_ports [single DEFAULT_PORT] (default [] allowedPorts).

Definition validateHostPort (port : jsval) : result Z :=
  p ← validatePort port; if p =? HOOKS_PORT then Throw InvalidArgumentError else Ok p.

(** ** Lemmas *)

Lemma validatePort_ok v p : validatePort v = Ok p <-> integer_val v = Some p /\ PORT_MIN <= p <= PORT_MAX.
Proof.
  unfold validatePort. destruct (integer_val v) as [n|]; [|naive_solver].
  destruct (Z.ltb_spec n PORT_MIN); [split; [done|intros [[= ->] ?]; lia]|].
  destruct (Z.ltb_spec PORT_MAX n); cbn; [split; [done|intros [[= ->] ?]; lia]|].
  split; [intros [= <-]; split; [done|lia]|by intros [[= ->] _]].
Qed.

Lemma same_spec_eq a b : same_spec a b = true <-> a = b.
Proof.
  unfold same_spec. rewrite andb_true_iff, !Z.eqb_eq. destruct a, b; cbn. naive_solver.
Qed.

Lemma samePortSet_eq a b : samePortSet a b = true <-> a = b.
Proof.
  revert b. induction a as [|x a IH]; intros [|y b]; cbn; try naive_solver.
  rewrite andb_true_iff, same_spec_eq, IH. naive_solver.
Qed.

Lemma covers_spec s port : covers s port = true <-> port_start s <= port <= port_end s.
Proof. unfold covers. by rewrite andb_true_iff, !Z.leb_le. Qed.

(** A spec the platform accepts. *)
Definition spec_ok (s : PortSpec) : Prop := PORT_MIN <= port_start s <= port_end s /\ port_end s <= PORT_MAX.

Lemma portSpec_ok entry s : portSpec entry = Ok s -> spec_ok s.
Proof.
  unfold portSpec, spec_ok.
  assert (forall v, (p ← validatePort v; Ok (single p)) = Ok s ->
    PORT_MIN <= port_start s <= port_end s /\ port_end s <= PORT_MAX) as Hone.
  { intros v. destruct (validatePort v) as [p|] eqn:E; cbn; [|done]. apply validatePort_ok in E as [_ E].
    intros [= <-]. cbn. lia. }
  destruct entry as [| | | | |[|a [|b [|c items]]]|]; try apply Hone; try done.
  destruct (validatePort a) as [lo|] eqn:Ea; cbn; [|done]. destruct (validatePort b) as [hi|] eqn:Eb; cbn; [|done].
  apply validatePort_ok in Ea as [_ Ea]. apply validatePort_ok in Eb as [_ Eb]. unfold range.
  destruct (Z.ltb_spec hi lo); [done|]. intros [= <-]. cbn. lia.
Qed.

Lemma add_ports_spec specs entries out :
  add_ports specs entries = Ok out ->
  NoDup specs -> Forall (fun s => spec_ok s /\ covers s HOOKS_PORT = false) specs ->
  NoDup out /\ Forall (fun s => spec_ok s /\ covers s HOOKS_PORT = false) out /\
  (exists more, out = specs ++ more) /\
  forall s, s ∈ out <-> s ∈ specs \/ exists entry, entry ∈ entries /\ portSpec entry = Ok s.
Proof.
  revert specs. induction entries as [|entry entries IH]; intros specs; cbn [add_ports].
  - intros [= <-] Hnd Hok. split_and!; [done|done|by exists []; rewrite app_nil_r|].
    intros s. split; [by left|]. intros [?|(e & ?%elem_of_nil & _)]; done.
  - destruct (portSpec entry) as [spec|] eqn:Es; cbn; [|done].
    destruct (covers spec HOOKS_PORT) eqn:Ec; [done|]. intros Hout Hnd Hok.
    assert (forall s, portSpec entry = Ok s -> s = spec) as Hu by (intros s; rewrite Es; congruence).
    destruct (existsb _ specs) eqn:Ee.
    + apply existsb_exists in Ee as (known & Hin%list_elem_of_In & ->%same_spec_eq).
      destruct (IH _ Hout Hnd Hok) as (? & ? & ? & Hs). split_and!; [done|done|done|].
      intros s. rewrite Hs. setoid_rewrite elem_of_cons. split; [naive_solver|].
      intros [?|(e & [->|?] & He)]; [by left| |naive_solver]. left. by rewrite (Hu s).
    + assert (spec ∉ specs) as Hnew.
      { intros Hin. enough (existsb (fun known => same_spec known spec) specs = true) by congruence.
        apply existsb_exists. exists spec. split; [by apply list_elem_of_In|by apply same_spec_eq]. }
      destruct (IH _ Hout) as (? & ? & (more & ->) & Hs).
      * apply NoDup_app. split_and!; [done| |apply NoDup_singleton].
        intros x Hx Hx'%list_elem_of_singleton. by subst.
      * apply Forall_app. split; [done|]. apply Forall_singleton. split; [by eapply portSpec_ok|done].
      * split_and!; [done|done|exists ([spec] ++ more); by rewrite app_assoc|].
        intros s. rewrite Hs, elem_of_app, list_elem_of_singleton. setoid_rewrite elem_of_cons.
        split; [naive_solver|]. intros [?|(e & [->|?] & He)]; [auto| |naive_solver]. left; right. by apply Hu.
Qed.

(** The ports of a sandbox's proxy token: the agent's port first, then the
    requested ones, each once and within 1..65535; the hooks port is never covered
    by any of them, and no requested port is dropped. *)
Theorem proxyPortSpecs_safe allowedPorts specs :
  proxyPortSpecs allowedPorts = Ok specs ->
  head specs = Some (single DEFAULT_PORT) /\ NoDup specs /\
  Forall (fun s => spec_ok s /\ covers s HOOKS_PORT = false) specs /\
  forall s, s ∈ specs <-> s = single DEFAULT_PORT \/
    exists entry, entry ∈ default [] allowedPorts /\ portSpec entry = Ok s.
Proof.
  unfold proxyPortSpecs. intros H. destruct (add_ports_spec _ _ _ H) as (Hnd & Hok & (more & ->) & Hs).
  - apply NoDup_singleton.
  - by apply Forall_singleton.
  - split_and!; [done|done|done|]. intros s. by rewrite Hs, list_elem_of_singleton.
Qed.

Lemma proxyPortSpecs_safe_witness :
  exists specs, proxyPortSpecs (Some [JArray [jint 3000; jint 3010]; jint 8080]) = Ok specs /\ NoDup specs.
Proof.
  eexists. split; [vm_compute; reflexivity|].
  refine (proj1 (proj2 (proxyPortSpecs_safe (Some [JArray [jint 3000; jint 3010]; jint 8080]) _ _))).
  vm_compute. reflexivity.
Defined.
