(* ===== verification/Launch.v ===== *)
(** * Launch: the plan of a sandbox launch

    src/clients/typescript/src/sandbox/launch.ts and the [LaunchRequest] of
    aws/control-plane.ts: everything [create()] decides before it touches the
    network, composed of the lifecycle plan, the run-hook payload, the connectors,
    the log configuration and the proxy ports.  The environment variables, the
    random bytes and the request id are arguments; SHA-256 is a parameter. *)

From stdpp Require Import base option list strings sets.
From Stdlib Require Import NArith ZArith QArith Lia.
From S2P Require Import Prelude Text JsMap Limits Lifecycle Json Payload Ports.

Local Open Scope Z_scope.

Definition MAX_DURATION_MS : Z := MAX_DURATION_SECONDS * 1000.
Definition MIN_DURATION_MS : Z := MIN_DURATION_SECONDS * 1000.
Definition DEFAULT_TIMEOUT_MS : Z := 3600000.
Definition NETWORK_CONNECTORS_MAX : nat := 10.
Definition MICROVM_ID_MIN_LENGTH : nat := 1.
Definition MICROVM_ID_MAX_LENGTH : nat := 256.
Definition LOG_GROUP_PREFIX : text := txt "/rayito".
Definition MANAGED_NETWORK_CONNECTORS : list text :=
  [txt "ALL_INGRESS"; txt "NO_INGRESS"; txt "SHELL_INGRESS"; txt "INTERNET_EGRESS"].

(** ** Inputs *)

(** [given || process.env[name]]: an empty string counts as absent. *)
Definition or_env (given env : option text) : option text :=
  match given with
  | Some (c :: s) => Some (c :: s)
  | _ => match env with Some (c :: s) => Some (c :: s) | _ => None end
  end.

Definition resolveTemplate (template env : option text) : result text :=
  match or_env template env with Some t => Ok t | None => Throw InvalidArgumentError end.

Definition resolveAccessToken (accessToken env : option text) (random : list N) : result text :=
  match or_env accessToken env with
  | None => Ok (generateAccessToken random)
  | Some t => validateAccessToken t
  end.

Definition requireAccessToken (accessToken env : option text) : result text :=
  match or_env accessToken env with
  | None => Throw AuthenticationError
  | Some t => validateAccessToken t
  end.

Definition validateSandboxId (v : option text) : result text :=
  match v with
  | Some id => if (length id <? MICROVM_ID_MIN_LENGTH)%nat || (MICROVM_ID_MAX_LENGTH <? length id)%nat
               then Throw InvalidArgumentError else Ok id
  | None => Throw InvalidArgumentError
  end.

(** [Math.ceil(ms / 1000)]. *)
Definition ceil_seconds (ms : Z) : Z := (ms + 999) / 1000.

Definition validateTimeoutMs (v : jsval) : result Z :=
  match integer_val v with
  | None => Throw InvalidArgumentError
  | Some t =>
      if t >? MAX_DURATION_MS then Throw SandboxLifetimeError
      else if t <? MIN_DURATION_MS then Throw InvalidArgumentError
      else Ok (ceil_seconds t)
  end.

Definition managedConnectorArn (name region : text) : text :=
  txt "arn:aws:lambda:" ++ region ++ txt ":aws:network-connector:aws-network-connector:" ++ name.

Fixpoint connector_list (values : list text) (region : text) : result (list text) :=
  match values with
  | [] => Ok []
  | value :: rest =>
      arn ← (if starts_with (txt "arn:") value then Ok value
             else if bool_decide (value ∈ MANAGED_NETWORK_CONNECTORS)
             then Ok (managedConnectorArn value region) else Throw InvalidArgumentError);
      arns ← connector_list rest region; Ok (arn :: arns)
  end.

Definition connectorArns (values : option (list text)) (region : text) : result (list text) :=
  match values with
  | None => Ok []
  | Some vs => if (NETWORK_CONNECTORS_MAX <? length vs)%nat then Throw InvalidArgumentError
               else connector_list vs region
  end.

Inductive LoggingConfig := log_disabled | log_cloudWatch (logGroup : text) | log_given (fields : list (string * jsval)).

Definition loggingConfig (option : jsval) (templateName : text) : result LoggingConfig :=
  match option with
  | JString s =>
      if String.eqb s "disabled" then Ok log_disabled
      else if String.eqb s "cloudwatch" then Ok (log_cloudWatch (LOG_GROUP_PREFIX ++ txt "/" ++ templateName))
      else Throw InvalidArgumentError
  | JObject [(key, v)] =>
      if String.eqb key "disabled" || String.eqb key "cloudWatch" then Ok (log_given [(key, v)])
      else Throw InvalidArgumentError
  | _ => Throw InvalidArgumentError
  end.

(** models.ts: what follows the last colon. *)
Definition templateNameFromArn (imageArn : text) : text :=
  List.last (split_on 58%N imageArn) [].

(** ** The request and the plan *)

Record LaunchRequest := {
  req_imageArn : text;
  req_imageVersion : option text;
  maximumDurationSeconds : Z;
  runHookPayload : text;
  clientToken : text;
  req_logging : LoggingConfig;
  req_executionRoleArn : option text;
  req_idle : option IdlePolicy;
  ingressConnectors : list text;
  egressConnectors : list text
}.

Record IdlePolicyApi := {
  maxIdleDurationSeconds : Z;
  api_suspendedDurationSeconds : Z;
  autoResumeEnabled : bool
}.

Definition idlePolicyToApi (p : IdlePolicy) : result IdlePolicyApi :=
  match suspendedDurationSeconds p with
  | None => Throw InvalidArgumentError
  | Some s => Ok {| maxIdleDurationSeconds := maxIdleSeconds p; api_suspendedDurationSeconds := s;
                    autoResumeEnabled := idle_autoResume p |}
  end.

(** [RunMicrovmApiInput]: an absent parameter is [None]. *)
Record RunMicrovmApiInput := {
  imageIdentifier : text;
  maximumDurationInSeconds : Z;
  api_runHookPayload : text;
  api_clientToken : text;
  api_logging : LoggingConfig;
  api_imageVersion : option text;
  api_executionRoleArn : option text;
  idlePolicy : option IdlePolicyApi;
  ingressNetworkConnectors : option (list text);
  egressNetworkConnectors : option (list text)
}.

Definition unless_empty (l : list text) : option (list text) :=
  match l with [] => None | _ => Some l end.

Definition request_to_api (r : LaunchRequest) : result RunMicrovmApiInput :=
  policy ← (match req_idle r with None => Ok None | Some p => a ← idlePolicyToApi p; Ok (Some a) end);
  Ok {| imageIdentifier := req_imageArn r; maximumDurationInSeconds := maximumDurationSeconds r;
        api_runHookPayload := runHookPayload r; api_clientToken := clientToken r;
        api_logging := req_logging r; api_imageVersion := req_imageVersion r;
        api_executionRoleArn := req_executionRoleArn r; idlePolicy := policy;
        ingressNetworkConnectors := unless_empty (ingressConnectors r);
        egressNetworkConnectors := unless_empty (egressConnectors r) |}.

Record LaunchPlanInput := {
  in_imageArn : text;
  in_region : text;
  in_templateVersion : option text;
  in_timeoutMs : jsval;
  in_idle : idle_arg;
  in_envs : option entries;
  in_metadata : option entries;
  in_cpuTimeLimit : jsval;
  in_executionRoleArn : option text;
  in_allowedPorts : option (list jsval);
  in_ingress : option (list text);
  in_egress : option (list text);
  in_logging : jsval;
  in_accessToken : option text;
  in_networkEnforce : option bool;
  in_maxLifetimeMs : jsval;
  in_onTimeout : jsval;
  in_persist : option S3Prefix
}.

Record LaunchPlan := {
  plan_accessToken : text;
  request : LaunchRequest;
  proxyPorts : list PortSpec;
  lifecycleRequested : bool
}.

(** What the plan reads of the process. *)
Record launch_env := { env_accessToken : option text; random_bytes : list N; random_uuid : text }.

(** The lifecycle's input, once the timeout is seconds. *)
Definition lifecycle_input (i : LaunchPlanInput) (seconds : Z) : LifecycleInput := {|
  timeoutSeconds := seconds; maxLifetimeMs := in_maxLifetimeMs i; onTimeout := in_onTimeout i; idle := in_idle i |}.

Definition payload_options (i : LaunchPlanInput) (token : text) (b : option LifecycleBlock) : RunHookPayloadOptions := {|
  accessToken := token; envs := in_envs i; metadata := in_metadata i; cpuTimeLimit := in_cpuTimeLimit i;
  user := None; workdir := None; networkEnforce := in_networkEnforce i; lifecycle := b; persist := in_persist i |}.

Section Plan.
Context (sha256 : list N -> list N) (env : launch_env).

Definition buildLaunchPlan (i : LaunchPlanInput) : result LaunchPlan :=
  token ← resolveAccessToken (in_accessToken i) (env_accessToken env) (random_bytes env);
  seconds ← validateTimeoutMs (nullish (in_timeoutMs i) (jint DEFAULT_TIMEOUT_MS));
  plan ← resolveLifecycle (lifecycle_input i seconds);
  payload ← buildRunHookPayload sha256 (payload_options i token (block plan));
  logging ← loggingConfig (nullish (in_logging i) (JString "disabled")) (templateNameFromArn (in_imageArn i));
  ingress ← connectorArns (in_ingress i) (in_region i);
  egress ← connectorArns (in_egress i) (in_region i);
  ports ← proxyPortSpecs (in_allowedPorts i);
  Ok {| plan_accessToken := token;
        request := {|
          req_imageArn := in_imageArn i; req_imageVersion := in_templateVersion i;
          maximumDurationSeconds := platformDurationSeconds plan; runHookPayload := payload;
          clientToken := List.filter (fun c => negb (c =? 45)%N) (random_uuid env);
          req_logging := logging; req_executionRoleArn := in_executionRoleArn i; req_idle := plan_idle plan;
          ingressConnectors := ingress; egressConnectors := egress |};
        proxyPorts := ports;
        lifecycleRequested := bool_decide (is_Some (block plan)) |}.
End Plan.

(** ** Lemmas *)

Lemma ceil_seconds_bounds t : t <= ceil_seconds t * 1000 < t + 1000.
Proof. unfold ceil_seconds. pose proof (Z.div_mod (t + 999) 1000 ltac:(lia)). pose proof (Z.mod_pos_bound (t + 999) 1000 ltac:(lia)). lia. Qed.

Lemma validateTimeoutMs_ok v s :
  validateTimeoutMs v = Ok s <->
  exists t, integer_val v = Some t /\ MIN_DURATION_MS <= t <= MAX_DURATION_MS /\ s = ceil_seconds t.
Proof.
  unfold validateTimeoutMs. destruct (integer_val v) as [t|]; [|naive_solver].
  destruct (Z.gtb_spec t MAX_DURATION_MS); [split; [done|intros (? & [= <-] & ? & _); lia]|].
  destruct (Z.ltb_spec t MIN_DURATION_MS); [split; [done|intros (? & [= <-] & ? & _); lia]|].
  split; [intros [= <-]; exists t; split_and!; [done|lia|lia|done]|by intros (? & [= <-] & _ & ->)].
Qed.

Lemma ceil_seconds_valid t : MIN_DURATION_MS <= t <= MAX_DURATION_MS -> valid_timeout (ceil_seconds t).
Proof.
  pose proof (ceil_seconds_bounds t). unfold valid_timeout, MIN_DURATION_MS, MAX_DURATION_MS,
    MIN_DURATION_SECONDS, MAX_DURATION_SECONDS in *. lia.
Qed.

(** The texts of a launch are code units. *)
Record launch_wf (i : LaunchPlanInput) : Prop := {
  lw_envs : forall es, in_envs i = Some es -> Forall (fun e => units e.1 /\ forall v, e.2 = Some v -> units v) es;
  lw_metadata : forall es, in_metadata i = Some es -> Forall (fun e => units e.1 /\ forall v, e.2 = Some v -> units v) es;
  lw_persist : forall p, in_persist i = Some p -> units (bucket p) /\ units (prefix p)
}.

Lemma launch_options_wf i token b : launch_wf i -> options_wf (payload_options i token b).
Proof. intros [He Hm Hp]. constructor; cbn; try done; apply units_txt. Qed.

Lemma connector_list_length values region out : connector_list values region = Ok out -> length out = length values.
Proof.
  revert out. induction values as [|v values IH]; intros out; cbn; [by intros [= <-]|].
  destruct (if starts_with _ v then _ else _); cbn; [|done]. destruct (connector_list values region); cbn; [|done].
  intros [= <-]. cbn. f_equal. by apply IH.
Qed.

Lemma connectorArns_length values region out :
  connectorArns values region = Ok out -> (length out <= NETWORK_CONNECTORS_MAX)%nat.
Proof.
  unfold connectorArns. destruct values as [vs|]; [|intros [= <-]; unfold NETWORK_CONNECTORS_MAX; cbn; lia].
  destruct (Nat.ltb_spec NETWORK_CONNECTORS_MAX (length vs)); [done|]. by intros ->%connector_list_length.
Qed.

Lemma idlePolicyToApi_total p s : suspendedDurationSeconds p = Some s -> exists a, idlePolicyToApi p = Ok a /\
  maxIdleDurationSeconds a = maxIdleSeconds p /\ api_suspendedDurationSeconds a = s.
Proof. intros E. unfold idlePolicyToApi. rewrite E. by eexists. Qed.

(** What a launch plan hands to the platform: the request always converts to
    the API (its idle window is resolved), within the duration, payload and
    connector limits; its payload is JSON that carries the hash of the very token
    the plan returns; and the payload announces a deadline exactly when the plan
    says so, with the platform's own duration as its cap. *)
Theorem buildLaunchPlan_sound sha256 env i plan :
  (forall s, bytes (sha256 s)) -> launch_wf i -> buildLaunchPlan sha256 env i = Ok plan ->
  (exists api, request_to_api (request plan) = Ok api /\
     MIN_DURATION_SECONDS <= maximumDurationInSeconds api <= MAX_DURATION_SECONDS /\
     (N.of_nat (length (api_runHookPayload api)) <= 4096)%N /\
     (forall l, ingressNetworkConnectors api = Some l \/ egressNetworkConnectors api = Some l ->
        (1 <= length l <= NETWORK_CONNECTORS_MAX)%nat) /\
     (forall p, idlePolicy api = Some p -> maxIdleDurationSeconds p < maximumDurationInSeconds api)) /\
  exists fs secret, parse_json (runHookPayload (request plan)) = Some (JsonObject fs) /\
    decodeAccessToken (plan_accessToken plan) = Ok secret /\
    (txt "token_sha256", JsonString (hex_bytes (sha256 secret))) ∈ fs /\
    (lifecycleRequested plan = true <-> exists b, (txt "lifecycle", lifecycleBlockToWire b) ∈ fs /\
       capS b = maximumDurationSeconds (request plan)).
Proof.
  intros Hsha Hwf. unfold buildLaunchPlan.
  destruct (resolveAccessToken _ _ _) as [token|]; cbn [mbind result_bind]; [|done].
  destruct (validateTimeoutMs _) as [seconds|] eqn:Et; cbn [mbind result_bind]; [|done].
  destruct (resolveLifecycle _) as [lp|] eqn:El; cbn [mbind result_bind]; [|done].
  destruct (buildRunHookPayload _ _) as [payload|] eqn:Ep; cbn [mbind result_bind]; [|done].
  destruct (loggingConfig _ _) as [logging|]; cbn [mbind result_bind]; [|done].
  destruct (connectorArns (in_ingress i) _) as [ingress|] eqn:Ei; cbn [mbind result_bind]; [|done].
  destruct (connectorArns (in_egress i) _) as [egress|] eqn:Ee; cbn [mbind result_bind]; [|done].
  destruct (proxyPortSpecs _) as [ports|]; cbn [mbind result_bind]; [|done].
  intros [= <-]. cbn [request plan_accessToken lifecycleRequested runHookPayload].
  apply validateTimeoutMs_ok in Et as (t & _ & Ht & ->).
  destruct (resolveLifecycle_plan_valid (lifecycle_input i (ceil_seconds t)) lp (ceil_seconds_valid t Ht) El) as [Hdur Hblock Hidle _].
  destruct (buildRunHookPayload_spec _ _ _ Hsha (launch_options_wf _ token _ Hwf) Ep)
    as (Hlen & _ & fields & fs & secret & Hf & Hparse & Hperm & Hd & Hin).
  apply connectorArns_length in Ei, Ee. split.
  - unfold request_to_api. cbn [req_idle].
    assert (exists policy, (match plan_idle lp with None => Ok None | Some p => a ← idlePolicyToApi p; Ok (Some a) end)
        = Ok policy /\ forall p, policy = Some p -> maxIdleDurationSeconds p < platformDurationSeconds lp) as (policy & -> & Hpol).
    { destruct (plan_idle lp) as [p|] eqn:E; [|by eexists]. destruct (Hidle p eq_refl) as [? (s & Hs & _)].
      destruct (idlePolicyToApi_total p s Hs) as (a & -> & Ha & _). eexists. split; [done|].
      intros q [= <-]. rewrite Ha. lia. }
    eexists. split; [reflexivity|]. cbn. split_and!; [apply Hdur|apply Hdur|exact Hlen| |exact Hpol].
    intros l [Hl|Hl]; [destruct ingress|destruct egress]; simplify_eq/=; lia.
  - exists fs, secret. cbn [accessToken payload_options] in Hd. split_and!; [done|done|done|].
    pose proof (fun v => payload_fields_lifecycle _ _ _ v Hf) as Hl. cbn [lifecycle payload_options] in Hl.
    rewrite bool_decide_eq_true. cbn [maximumDurationSeconds]. split.
    + intros [b Hb]. exists b. split; [|by apply (Hblock b)]. rewrite Hperm. apply list_elem_of_fmap.
      exists (txt "lifecycle", lifecycleBlockToWire b). cbn [fst snd]. rewrite sortedKeys_wire. split; [done|].
      apply Hl. by exists b.
    + intros (b & Hb & _). rewrite Hperm in Hb. apply list_elem_of_fmap in Hb as ([k v] & [= <- _] & Hkv).
      apply Hl in Hkv as (b' & -> & _). done.
Qed.

Definition sample_launch : LaunchPlanInput := {|
  in_imageArn := txt "arn:aws:lambda:us-east-1:1:microvm-image:rayito-base"; in_region := txt "us-east-1";
  in_templateVersion := None; in_timeoutMs := jint 90500; in_idle := IdleUndefined; in_envs := None;
  in_metadata := None; in_cpuTimeLimit := JUndefined; in_executionRoleArn := None;
  in_allowedPorts := Some [jint 3000]; in_ingress := Some [txt "ALL_INGRESS"]; in_egress := None;
  in_logging := JUndefined; in_accessToken := None; in_networkEnforce := Some true;
  in_maxLifetimeMs := JUndefined; in_onTimeout := JString "pause"; in_persist := None |}.

Definition sample_env : launch_env := {|
  env_accessToken := Some []; random_bytes := replicate 32 9%N; random_uuid := txt "ab-cd" |}.

Lemma buildLaunchPlan_sound_witness :
  exists plan, buildLaunchPlan (fun _ => [1%N]) sample_env sample_launch = Ok plan /\
    maximumDurationSeconds (request plan) = 151 /\ exists api, request_to_api (request plan) = Ok api.
Proof.
  eexists. split; [vm_compute; reflexivity|]. split; [reflexivity|].
  match goal with |- exists _, request_to_api (request ?p) = _ =>
    destruct (buildLaunchPlan_sound (fun _ => [1%N]) sample_env sample_launch p) as [[api [Hapi _]] _]
  end.
  - intros _. by repeat constructor.
  - constructor; done.
  - vm_compute. reflexivity.
  - exists api. exact Hapi.
Defined.
