(* ===== verification/PoolConfig.v ===== *)
(** * PoolConfig: the configuration of a pool

    src/clients/typescript/src/pool/config.ts: every option of a pool validated and
    defaulted once, and the [Sandbox.create()] options each slot is launched with.
    It composes the validations of the payload, the network policy and the
    lifecycle; the theorems show that what it accepts is what [create()] accepts,
    and that a slot it launches is not stale when it parks. *)

From stdpp Require Import base option list strings sets.
From Stdlib Require Import NArith ZArith QArith Qround Lia.
From S2P Require Import Prelude Text JsMap Limits Lifecycle Json Payload Ports Launch Network.
From S2P Require PoolCore.

Local Open Scope Z_scope.

Definition FILL_CONCURRENCY_MAX : Z := 8.
Definition MIN_REMAINING_FLOOR_MS : Z := 60000.
Definition SWEEP_INTERVAL_MIN_MS : Z := 5000.
Definition DEFAULT_POOL_TIMEOUT_MS : Z := MAX_DURATION_MS.
Definition DEFAULT_MIN_REMAINING_MS : Z := 3600000.
Definition DEFAULT_FILL_CONCURRENCY : Z := 4.
Definition DEFAULT_SWEEP_INTERVAL_MS : Z := 30000.
Definition DEFAULT_READY_TIMEOUT_MS : Z := 90000.

(** What [index] may hold: nothing, a [DynamoDbIndex], or something else. *)
Inductive index_arg := index_undefined | index_given (table : text) | index_other.

(** A caller's configuration, before any check. *)
Record PoolConfig := {
  cfg_size : jsval;
  cfg_template : option text;
  cfg_templateVersion : option text;
  cfg_timeoutMs : jsval;
  cfg_idle : option IdlePolicyInput;
  cfg_envs : option entries;
  cfg_metadata : option entries;
  cfg_cpuTimeLimit : jsval;
  cfg_executionRoleArn : option text;
  cfg_ingress : option (list text);
  cfg_egress : option (list text);
  cfg_logging : jsval;
  cfg_minRemainingMs : jsval;
  cfg_fillConcurrency : jsval;
  cfg_sweepIntervalMs : jsval;
  cfg_readyTimeoutMs : jsval;
  cfg_index : index_arg;
  cfg_warmup : jsval;
  cfg_allowInternetAccess : nval;
  cfg_network : nval;
  cfg_accessToken : option text;
  cfg_maxLifetimeMs : jsval;
  cfg_onTimeout : jsval
}.

Record ResolvedPoolConfig := {
  size : Z;
  template : option text;
  templateVersion : option text;
  pool_timeoutMs : Z;
  pool_idle : IdlePolicy;
  pool_envs : option entries;
  pool_metadata : option entries;
  pool_cpuTimeLimit : jsval;
  executionRoleArn : option text;
  ingress : option (list text);
  egress : option (list text);
  logging : jsval;
  minRemainingMs : Z;
  fillConcurrency : Z;
  sweepIntervalMs : jsnum;
  readyTimeoutMs : jsnum;
  index : option text;
  warmup : list jsval;
  allowInternetAccess : bool;
  network : nval;
  pool_accessToken : option text;
  pool_maxLifetimeMs : jsval;
  pool_onTimeout : jsval
}.

(** ** Validation *)

(** [n >= bound] and [n > bound]: false of a NaN. *)
Definition num_ge (n : jsnum) (bound : Z) : bool :=
  match n with Finite q => Qle_bool (inject_Z bound) q | PosInf => true | _ => false end.
Definition num_gt (n : jsnum) (bound : Z) : bool :=
  match n with Finite q => negb (Qle_bool q (inject_Z bound)) | PosInf => true | _ => false end.

Definition validatePoolLifetime (maxLifetimeMs onTimeout : jsval) (timeoutMs : Z) : result unit :=
  _ ← throw_if (match onTimeout with
                | JUndefined => false
                | JString s => negb (String.eqb s "kill")
                | _ => true
                end) InvalidArgumentError;
  if is_undefined maxLifetimeMs then Ok tt
  else validated ← validateMaxLifetimeMs maxLifetimeMs; throw_if (timeoutMs >? validated) InvalidArgumentError.

(** One [WarmupStep]. *)
Definition validate_step (step : jsval) : result unit :=
  match step with
  | JObject fields =>
      match PoolCore.get_prop fields "cmd" with
      | JString cmd =>
          _ ← throw_if (blank (txt cmd)) InvalidArgumentError;
          match PoolCore.get_prop fields "timeoutMs" with
          | JUndefined => Ok tt
          | JNumber n => throw_if (negb (num_gt n 0)) InvalidArgumentError
          | _ => Throw InvalidArgumentError
          end
      | _ => Throw InvalidArgumentError
      end
  | _ => Throw InvalidArgumentError
  end.

Fixpoint validate_steps (steps : list jsval) : result unit :=
  match steps with
  | [] => Ok tt
  | step :: rest => _ ← validate_step step; validate_steps rest
  end.

Definition validateWarmup (warmup : jsval) : result (list jsval) :=
  match warmup with
  | JUndefined => Ok []
  | JArray steps => _ ← validate_steps steps; Ok steps
  | _ => Throw InvalidArgumentError
  end.

Definition requireInteger (v : jsval) (lo hi : Z) : result Z :=
  match integer_val v with
  | None => Throw InvalidArgumentError
  | Some n => if (n <? lo) || (n >? hi) then Throw InvalidArgumentError else Ok n
  end.

Definition validatePoolIdle (idle : option IdlePolicyInput) (timeoutMs : Z) : result IdlePolicy :=
  validated ← validateIdlePolicy (default empty_idle_input idle);
  _ ← throw_if (negb (idle_autoResume validated)) InvalidArgumentError;
  _ ← throw_if (maxIdleSeconds validated >=? ceil_seconds timeoutMs) InvalidArgumentError;
  Ok validated.

(** index/dynamodb.ts. *)
Definition validateIndex (i : index_arg) : result (option text) :=
  match i with
  | index_undefined => Ok None
  | index_given t => Ok (Some t)
  | index_other => Throw InvalidArgumentError
  end.

Definition require_number (v : jsval) (ok : jsnum -> bool) : result jsnum :=
  match v with
  | JNumber n => if ok n then Ok n else Throw InvalidArgumentError
  | _ => Throw InvalidArgumentError
  end.

(** [if (config.x !== undefined) check(config.x)]. *)
Definition when_given {A B} (o : option A) (check : A -> result B) : result unit :=
  match o with None => Ok tt | Some a => _ ← check a; Ok tt end.

Definition nullish_n (v d : nval) : nval := if is_nullish v then d else v.

Section Validate.
Context (isIP : text -> N).

Definition validatePoolConfig (c : PoolConfig) : result ResolvedPoolConfig :=
  size ← requireInteger (cfg_size c) 1 POOL_SIZE_MAX;
  let given := nullish (cfg_timeoutMs c) (jint DEFAULT_POOL_TIMEOUT_MS) in
  _ ← validateTimeoutMs given;
  let timeoutMs := default 0 (integer_val given) in
  _ ← validatePoolLifetime (cfg_maxLifetimeMs c) (cfg_onTimeout c) timeoutMs;
  idle ← validatePoolIdle (cfg_idle c) timeoutMs;
  minRemainingMs ← requireInteger (nullish (cfg_minRemainingMs c) (jint DEFAULT_MIN_REMAINING_MS))
                     MIN_REMAINING_FLOOR_MS (timeoutMs - MIN_REMAINING_FLOOR_MS);
  fillConcurrency ← requireInteger (nullish (cfg_fillConcurrency c) (jint DEFAULT_FILL_CONCURRENCY))
                      1 FILL_CONCURRENCY_MAX;
  sweepIntervalMs ← require_number (nullish (cfg_sweepIntervalMs c) (jint DEFAULT_SWEEP_INTERVAL_MS))
                      (fun n => num_ge n SWEEP_INTERVAL_MIN_MS);
  readyTimeoutMs ← require_number (nullish (cfg_readyTimeoutMs c) (jint DEFAULT_READY_TIMEOUT_MS))
                     (fun n => num_gt n 0);
  _ ← when_given (cfg_envs c) validatedStringMap;
  _ ← when_given (cfg_metadata c) validatedStringMap;
  _ ← (if is_undefined (cfg_cpuTimeLimit c) then Ok 0 else validatedCpuTimeLimit (cfg_cpuTimeLimit c));
  index ← validateIndex (cfg_index c);
  warmup ← validateWarmup (cfg_warmup c);
  allowInternetAccess ← (match nullish_n (cfg_allowInternetAccess c) (NBool true) with
                         | NBool b => Ok b
                         | _ => Throw InvalidArgumentError
                         end);
  policy ← resolveNetwork (cfg_network c) (NBool allowInternetAccess);
  _ ← validatePolicyShape isIP policy;
  _ ← when_given (cfg_accessToken c) validateAccessToken;
  Ok {| size := size; template := cfg_template c; templateVersion := cfg_templateVersion c;
        pool_timeoutMs := timeoutMs; pool_idle := idle; pool_envs := cfg_envs c;
        pool_metadata := cfg_metadata c; pool_cpuTimeLimit := cfg_cpuTimeLimit c;
        executionRoleArn := cfg_executionRoleArn c; ingress := cfg_ingress c; egress := cfg_egress c;
        logging := nullish (cfg_logging c) (JString "disabled"); minRemainingMs := minRemainingMs;
        fillConcurrency := fillConcurrency; sweepIntervalMs := sweepIntervalMs;
        readyTimeoutMs := readyTimeoutMs; index := index; warmup := warmup;
        allowInternetAccess := allowInternetAccess; network := cfg_network c;
        pool_accessToken := cfg_accessToken c; pool_maxLifetimeMs := cfg_maxLifetimeMs c;
        pool_onTimeout := cfg_onTimeout c |}.
End Validate.

(** ** What a slot is launched with *)

Definition slotAccessToken (c : ResolvedPoolConfig) (random : list N) : text :=
  default (generateAccessToken random) (pool_accessToken c).

(** The optional keys: [None] is an absent one. *)
Record optional_options := {
  opt_index : option text;
  opt_maxLifetimeMs : option jsval;
  opt_onTimeout : option jsval;
  opt_network : option nval;
  opt_allowInternetAccess : option bool
}.

Definition unless_undefined (v : jsval) : option jsval := if is_undefined v then None else Some v.

Definition optionalLaunchOptions (c : ResolvedPoolConfig) : optional_options := {|
  opt_index := index c;
  opt_maxLifetimeMs := unless_undefined (pool_maxLifetimeMs c);
  opt_onTimeout := unless_undefined (pool_onTimeout c);
  opt_network := match network c with NUndefined => None | n => Some n end;
  opt_allowInternetAccess := if allowInternetAccess c then None else Some false
|}.

Record launch_options := {
  lo_template : option text;
  lo_templateVersion : option text;
  lo_timeoutMs : Z;
  lo_idle : IdlePolicy;
  lo_envs : option entries;
  lo_metadata : option entries;
  lo_cpuTimeLimit : jsval;
  lo_executionRoleArn : option text;
  lo_ingress : option (list text);
  lo_egress : option (list text);
  lo_logging : jsval;
  lo_readyTimeoutMs : jsnum;
  lo_optional : optional_options
}.

Definition launchOptions (c : ResolvedPoolConfig) : launch_options := {|
  lo_template := template c; lo_templateVersion := templateVersion c; lo_timeoutMs := pool_timeoutMs c;
  lo_idle := pool_idle c; lo_envs := pool_envs c; lo_metadata := pool_metadata c;
  lo_cpuTimeLimit := pool_cpuTimeLimit c; lo_executionRoleArn := executionRoleArn c;
  lo_ingress := ingress c; lo_egress := egress c; lo_logging := logging c;
  lo_readyTimeoutMs := readyTimeoutMs c; lo_optional := optionalLaunchOptions c |}.

(** ** Lemmas: what each check accepts *)

Lemma requireInteger_ok v lo hi n : requireInteger v lo hi = Ok n <-> integer_val v = Some n /\ lo <= n <= hi.
Proof.
  unfold requireInteger. destruct (integer_val v) as [m|]; [|naive_solver].
  destruct (Z.ltb_spec m lo); [split; [done|intros [[= ->] ?]; lia]|].
  destruct (Z.gtb_spec m hi); cbn; [split; [done|intros [[= ->] ?]; lia]|].
  split; [intros [= <-]; split; [done|lia]|by intros [[= ->] _]].
Qed.

Lemma require_number_ok v ok n : require_number v ok = Ok n <-> v = JNumber n /\ ok n = true.
Proof.
  destruct v as [| | |m| | |]; cbn; try (split; [done|by intros [? _]]).
  destruct (ok m) eqn:E; split; try done.
  - by intros [= <-].
  - by intros [[= <-] _].
  - intros [[= <-] ?]. congruence.
Qed.

Lemma when_given_ok {A B} (o : option A) (check : A -> result B) :
  when_given o check = Ok tt <-> forall a, o = Some a -> exists b, check a = Ok b.
Proof.
  destruct o as [a|]; cbn [when_given]; [|by split; [intros _ a|]].
  rewrite bind_ok. naive_solver.
Qed.

(** The deadline options of a pool. *)
Record lifetime_ok (maxLifetimeMs onTimeout : jsval) (timeoutMs : Z) : Prop := {
  lt_onTimeout : onTimeout = JUndefined \/ onTimeout = JString "kill";
  lt_max : maxLifetimeMs = JUndefined \/ exists m, integer_val maxLifetimeMs = Some m /\
    MIN_MAX_LIFETIME_MS <= m <= MAX_LIFETIME_MS /\ m mod 1000 = 0 /\ timeoutMs <= m
}.

Lemma validatePoolLifetime_ok m a t : validatePoolLifetime m a t = Ok tt <-> lifetime_ok m a t.
Proof.
  unfold validatePoolLifetime. rewrite throw_if_bind.
  assert ((match a with JUndefined => false | JString s => negb (String.eqb s "kill") | _ => true end) = false <->
    a = JUndefined \/ a = JString "kill") as ->.
  { destruct a; try naive_solver. rewrite negb_false_iff, String.eqb_eq. naive_solver. }
  assert ((if is_undefined m then Ok tt else v ← validateMaxLifetimeMs m; throw_if (t >? v) InvalidArgumentError) = Ok tt <->
    m = JUndefined \/ exists n, integer_val m = Some n /\ MIN_MAX_LIFETIME_MS <= n <= MAX_LIFETIME_MS /\
      n mod 1000 = 0 /\ t <= n) as ->.
  { assert (forall v, v <> JUndefined -> is_undefined v = false) as Hu by (by intros []).
    destruct (decide (is_undefined m = true)) as [E|E].
    - destruct m; try done. cbn. naive_solver.
    - apply not_true_is_false in E. rewrite E, bind_ok. setoid_rewrite validateMaxLifetimeMs_spec.
      setoid_rewrite throw_if_ok. split.
      + intros (n & (Hi & Hb & Hm) & Ht). right. exists n. rewrite Z.gtb_ltb, Z.ltb_ge in Ht. split_and!; try done; lia.
      + intros [->|(n & Hi & Hb & Hm & Ht)]; [done|]. exists n. split; [by split|]. destruct (Z.gtb_spec t n); [lia|done]. }
  split; [by intros [? ?]|by intros []].
Qed.

Lemma validatePoolIdle_ok i t p :
  validatePoolIdle i t = Ok p <->
  validateIdlePolicy (default empty_idle_input i) = Ok p /\ idle_autoResume p = true /\
  maxIdleSeconds p < ceil_seconds t.
Proof.
  unfold validatePoolIdle. rewrite bind_ok. setoid_rewrite throw_if_bind. setoid_rewrite throw_if_bind.
  setoid_rewrite negb_false_iff. split.
  - intros (v & Hv & Ha & Hm & [= <-]). rewrite Z.geb_leb, Z.leb_gt in Hm. by split_and!.
  - intros (Hv & Ha & Hm). exists p. destruct (Z.geb_spec (maxIdleSeconds p) (ceil_seconds t)); [lia|by split_and!].
Qed.

(** A warm-up step: a command that is not blank and, if given, a positive deadline. *)
Record step_ok (step : jsval) : Prop := {
  so_cmd : exists fields cmd, step = JObject fields /\ PoolCore.get_prop fields "cmd" = JString cmd /\
    blank (txt cmd) = false /\
    (PoolCore.get_prop fields "timeoutMs" = JUndefined \/
     exists n, PoolCore.get_prop fields "timeoutMs" = JNumber n /\ num_gt n 0 = true)
}.

Lemma validate_step_ok step : validate_step step = Ok tt <-> step_ok step.
Proof.
  split.
  - destruct step as [| | | | | |fields]; try done. unfold validate_step.
    destruct (PoolCore.get_prop fields "cmd") as [| | | |cmd| |] eqn:Ec; try done. rewrite throw_if_bind.
    intros [Hb Ht]. constructor. exists fields, cmd. split_and!; [done|done|done|].
    destruct (PoolCore.get_prop fields "timeoutMs") as [| | |n| | |]; try done; [by left|].
    right. exists n. apply throw_if_ok, negb_false_iff in Ht. done.
  - intros [(fields & cmd & -> & Hc & Hb & Ht)]. unfold validate_step. rewrite Hc. apply throw_if_bind.
    split; [done|]. destruct Ht as [->|(n & -> & Hn)]; [done|]. by rewrite Hn.
Qed.

Lemma validateWarmup_ok v steps :
  validateWarmup v = Ok steps <->
  (v = JUndefined /\ steps = [] \/ v = JArray steps) /\ Forall step_ok steps.
Proof.
  assert (forall l, validate_steps l = Ok tt <-> Forall step_ok l) as Hl.
  { induction l as [|s l IH]; cbn; [by split; [constructor|]|]. by rewrite bind_unit_ok, validate_step_ok, IH, Forall_cons. }
  destruct v as [| | | | |items|]; cbn; try naive_solver.
  rewrite bind_ok. split.
  - intros ([] & Hs%Hl & [= <-]). by split; [right|].
  - intros [[[? _]|[= ->]] Hs%Hl]; [done|]. by exists tt.
Qed.

Lemma validatedCpuTimeLimit_ok v n :
  validatedCpuTimeLimit v = Ok n <-> integer_val v = Some n /\ CPU_TIME_LIMIT_MIN_SECONDS <= n <= CPU_TIME_LIMIT_MAX_SECONDS.
Proof.
  unfold validatedCpuTimeLimit. destruct (integer_val v) as [m|]; [|naive_solver].
  destruct (Z.ltb_spec m CPU_TIME_LIMIT_MIN_SECONDS); [split; [done|intros [[= ->] ?]; lia]|].
  destruct (Z.ltb_spec CPU_TIME_LIMIT_MAX_SECONDS m); cbn; [split; [done|intros [[= ->] ?]; lia]|].
  split; [intros [= <-]; split; [done|lia]|by intros [[= ->] _]].
Qed.

Lemma validatedStringMap_ok es :
  (exists vs, validatedStringMap es = Ok vs) <-> Forall (fun e => e.1 <> [] /\ is_Some e.2) es.
Proof.
  unfold validatedStringMap. induction es as [|[k [v|]] es IH]; cbn.
  - split; [constructor|]. by exists [].
  - rewrite Forall_cons, <- IH. cbn. case_bool_decide as Hk; [split; [by intros []|naive_solver]|].
    setoid_rewrite bind_ok. split; [intros (vs & ws & Hw & _); split; [done|by exists ws]|].
    intros [_ [ws Hw]]. by eexists _, ws.
  - rewrite Forall_cons. cbn. split; [intros [vs Hv]; by case_bool_decide|]. intros [[_ [? ?]] _]. done.
Qed.

(** ** What a pool accepts *)

(** A string map: no empty key, every value a string. *)
Definition map_ok (m : option entries) : Prop :=
  forall es, m = Some es -> Forall (fun e => e.1 <> [] /\ is_Some e.2) es.

Section Accepts.
Context (isIP : text -> N).

Record config_ok (c : PoolConfig) (rc : ResolvedPoolConfig) : Prop := {
  co_size : integer_val (cfg_size c) = Some (size rc) /\ 1 <= size rc <= POOL_SIZE_MAX;
  co_timeout : integer_val (nullish (cfg_timeoutMs c) (jint DEFAULT_POOL_TIMEOUT_MS)) = Some (pool_timeoutMs rc) /\
    MIN_DURATION_MS <= pool_timeoutMs rc <= MAX_DURATION_MS;
  co_lifetime : lifetime_ok (cfg_maxLifetimeMs c) (cfg_onTimeout c) (pool_timeoutMs rc);
  co_idle : validateIdlePolicy (default empty_idle_input (cfg_idle c)) = Ok (pool_idle rc) /\
    idle_autoResume (pool_idle rc) = true /\ maxIdleSeconds (pool_idle rc) < ceil_seconds (pool_timeoutMs rc);
  co_remaining :
    integer_val (nullish (cfg_minRemainingMs c) (jint DEFAULT_MIN_REMAINING_MS)) = Some (minRemainingMs rc) /\
    MIN_REMAINING_FLOOR_MS <= minRemainingMs rc <= pool_timeoutMs rc - MIN_REMAINING_FLOOR_MS;
  co_concurrency :
    integer_val (nullish (cfg_fillConcurrency c) (jint DEFAULT_FILL_CONCURRENCY)) = Some (fillConcurrency rc) /\
    1 <= fillConcurrency rc <= FILL_CONCURRENCY_MAX;
  co_sweep : nullish (cfg_sweepIntervalMs c) (jint DEFAULT_SWEEP_INTERVAL_MS) = JNumber (sweepIntervalMs rc) /\
    num_ge (sweepIntervalMs rc) SWEEP_INTERVAL_MIN_MS = true;
  co_ready : nullish (cfg_readyTimeoutMs c) (jint DEFAULT_READY_TIMEOUT_MS) = JNumber (readyTimeoutMs rc) /\
    num_gt (readyTimeoutMs rc) 0 = true;
  co_maps : map_ok (cfg_envs c) /\ map_ok (cfg_metadata c);
  co_cpu : cfg_cpuTimeLimit c = JUndefined \/ exists n, integer_val (cfg_cpuTimeLimit c) = Some n /\
    CPU_TIME_LIMIT_MIN_SECONDS <= n <= CPU_TIME_LIMIT_MAX_SECONDS;
  co_index : cfg_index c = match index rc with None => index_undefined | Some t => index_given t end;
  co_warmup : (cfg_warmup c = JUndefined /\ warmup rc = [] \/ cfg_warmup c = JArray (warmup rc)) /\
    Forall step_ok (warmup rc);
  co_internet : nullish_n (cfg_allowInternetAccess c) (NBool true) = NBool (allowInternetAccess rc);
  co_network : exists policy, resolveNetwork (cfg_network c) (NBool (allowInternetAccess rc)) = Ok policy /\
    validatePolicyShape isIP policy = Ok tt;
  co_token : forall t, cfg_accessToken c = Some t -> exists secret, decodeAccessToken t = Ok secret;
  co_given : rc = {| size := size rc; template := cfg_template c; templateVersion := cfg_templateVersion c;
    pool_timeoutMs := pool_timeoutMs rc; pool_idle := pool_idle rc; pool_envs := cfg_envs c;
    pool_metadata := cfg_metadata c; pool_cpuTimeLimit := cfg_cpuTimeLimit c;
    executionRoleArn := cfg_executionRoleArn c; ingress := cfg_ingress c; egress := cfg_egress c;
    logging := nullish (cfg_logging c) (JString "disabled"); minRemainingMs := minRemainingMs rc;
    fillConcurrency := fillConcurrency rc; sweepIntervalMs := sweepIntervalMs rc;
    readyTimeoutMs := readyTimeoutMs rc; index := index rc; warmup := warmup rc;
    allowInternetAccess := allowInternetAccess rc; network := cfg_network c;
    pool_accessToken := cfg_accessToken c; pool_maxLifetimeMs := cfg_maxLifetimeMs c;
    pool_onTimeout := cfg_onTimeout c |}
}.

Lemma map_ok_given m : when_given m validatedStringMap = Ok tt <-> map_ok m.
Proof.
  rewrite when_given_ok. unfold map_ok. setoid_rewrite validatedStringMap_ok. done.
Qed.

Lemma validatePoolConfig_accepts c rc : validatePoolConfig isIP c = Ok rc -> config_ok c rc.
Proof.
  unfold validatePoolConfig. intros (size' & Hsize%requireInteger_ok & H)%bind_ok. cbv zeta in H.
  apply bind_ok in H as (secs & (t & Et & Ht & _)%validateTimeoutMs_ok & H). rewrite Et in H. cbn [default] in H.
  change (default 0 (Some t)) with t in H.
  apply bind_ok in H as ([] & Hlife%validatePoolLifetime_ok & H).
  apply bind_ok in H as (idle' & Hidle%validatePoolIdle_ok & H).
  apply bind_ok in H as (mr & Hmr%requireInteger_ok & H).
  apply bind_ok in H as (fc & Hfc%requireInteger_ok & H).
  apply bind_ok in H as (sw & Hsw%require_number_ok & H).
  apply bind_ok in H as (rd & Hrd%require_number_ok & H).
  apply bind_ok in H as ([] & He%map_ok_given & H).
  apply bind_ok in H as ([] & Hm%map_ok_given & H).
  apply bind_ok in H as (cpu & Hcpu & H).
  apply bind_ok in H as (ix & Hix & H).
  apply bind_ok in H as (wm & Hwm%validateWarmup_ok & H).
  apply bind_ok in H as (ia & Hia & H).
  apply bind_ok in H as (policy & Hpol & H).
  apply bind_ok in H as ([] & Hshape & H).
  apply bind_ok in H as ([] & Htok & H). injection H as <-.
  constructor; cbn; try done.
  - destruct (is_undefined (cfg_cpuTimeLimit c)) eqn:E; [left; by destruct (cfg_cpuTimeLimit c)|].
    right. exists cpu. by apply validatedCpuTimeLimit_ok.
  - by destruct (cfg_index c); cbn in Hix; simplify_eq.
  - by destruct (nullish_n _ _); simplify_eq.
  - by exists policy.
  - intros tok Etok. rewrite when_given_ok in Htok. destruct (Htok tok Etok) as [b Hb].
    unfold validateAccessToken in Hb. apply bind_ok in Hb as (secret & Hs & _). by exists secret.
Qed.
End Accepts.

(** C26. A pool accepts a configuration exactly when every option is within its
    documented range, and keeps what it was given: the validated values, the
    defaults for what is absent, everything else untouched. *)
Theorem validatePoolConfig_exact isIP c rc : validatePoolConfig isIP c = Ok rc <-> config_ok isIP c rc.
Proof.
  split; [apply validatePoolConfig_accepts|].
  intros [Hsize Ht Hlife Hidle Hmr Hfc Hsw Hrd [He Hm] Hcpu Hix Hwm Hia (policy & Hpol & Hshape) Htok Hgiven].
  unfold validatePoolConfig.
  rewrite (proj2 (requireInteger_ok _ _ _ _) Hsize). cbn [mbind result_bind]. cbv zeta.
  rewrite (proj2 (validateTimeoutMs_ok _ _) (ex_intro _ _ (conj (proj1 Ht) (conj (proj2 Ht) eq_refl)))).
  cbn [mbind result_bind]. rewrite (proj1 Ht).
  change (default 0 (Some (pool_timeoutMs rc))) with (pool_timeoutMs rc).
  rewrite (proj2 (validatePoolLifetime_ok _ _ _) Hlife). cbn [mbind result_bind].
  rewrite (proj2 (validatePoolIdle_ok _ _ _) Hidle). cbn [mbind result_bind].
  rewrite (proj2 (requireInteger_ok _ _ _ _) Hmr), (proj2 (requireInteger_ok _ _ _ _) Hfc). cbn [mbind result_bind].
  rewrite (proj2 (require_number_ok _ _ _) Hsw). cbn [mbind result_bind].
  rewrite (proj2 (require_number_ok _ _ _) Hrd). cbn [mbind result_bind].
  rewrite (proj2 (map_ok_given _) He), (proj2 (map_ok_given _) Hm). cbn [mbind result_bind].
  assert (exists n, (if is_undefined (cfg_cpuTimeLimit c) then Ok 0 else validatedCpuTimeLimit (cfg_cpuTimeLimit c)) = Ok n)
    as [n ->].
  { destruct Hcpu as [->|(n & Hn & Hb)]; [by exists 0|]. destruct (is_undefined _); [by exists 0|].
    exists n. by apply validatedCpuTimeLimit_ok. }
  cbn [mbind result_bind]. rewrite Hix.
  assert (validateIndex (match index rc with None => index_undefined | Some t => index_given t end) = Ok (index rc)) as ->
    by (by destruct (index rc)).
  cbn [mbind result_bind]. rewrite (proj2 (validateWarmup_ok _ _) Hwm). cbn [mbind result_bind].
  rewrite Hia. cbn [mbind result_bind]. rewrite Hpol. cbn [mbind result_bind]. rewrite Hshape. cbn [mbind result_bind].
  assert (when_given (cfg_accessToken c) validateAccessToken = Ok tt) as ->; [|by rewrite <- Hgiven].
  apply when_given_ok. intros tok Etok. destruct (Htok tok Etok) as [secret Hs].
  unfold validateAccessToken. rewrite Hs. by eexists.
Qed.

(** ** What a slot's launch makes of it *)

(** The options of [launchOptions] as [create()] reads them. *)
Definition idle_input_of (p : IdlePolicy) : IdlePolicyInput := {|
  in_maxIdleSeconds := Some (num_of_Z (maxIdleSeconds p));
  in_suspendedDurationSeconds := num_of_Z <$> suspendedDurationSeconds p;
  in_autoResume := Some (idle_autoResume p) |}.

Definition slot_lifecycle (lo : launch_options) (seconds : Z) : LifecycleInput := {|
  timeoutSeconds := seconds;
  maxLifetimeMs := default JUndefined (opt_maxLifetimeMs (lo_optional lo));
  onTimeout := default JUndefined (opt_onTimeout (lo_optional lo));
  idle := IdleGiven (idle_input_of (lo_idle lo)) |}.

Lemma validateIdlePolicy_again input p :
  validateIdlePolicy input = Ok p -> validateIdlePolicy (idle_input_of p) = Ok p.
Proof.
  intros [Hm Hs]%validateIdlePolicy_wf. unfold validateIdlePolicy. cbn [idle_input_of in_maxIdleSeconds].
  change (default (num_of_Z DEFAULT_MAX_IDLE_SECONDS) (Some (num_of_Z (maxIdleSeconds p))))
    with (num_of_Z (maxIdleSeconds p)).
  rewrite integer_of_Z, (proj2 (Z.ltb_ge _ _)) by done. cbv zeta.
  cbn [idle_input_of in_suspendedDurationSeconds in_autoResume].
  destruct p as [m [s|] a]; cbn [suspendedDurationSeconds maxIdleSeconds fmap option_fmap option_map] in *; [|done].
  rewrite integer_of_Z.
  rewrite (proj2 (Z.ltb_ge _ _)); [done|]. unfold IDLE_SUSPENDED_MIN_SECONDS. auto.
Qed.

Lemma resolveIdlePolicy_given input p d :
  validateIdlePolicy input = Ok p -> maxIdleSeconds p < d ->
  exists q, resolveIdlePolicy (IdleGiven (idle_input_of p)) d = Ok (Some q) /\
    idle_autoResume q = idle_autoResume p.
Proof.
  intros Hv Hd. unfold resolveIdlePolicy. cbn [idle_or_empty]. rewrite (validateIdlePolicy_again _ _ Hv).
  cbn [mbind result_bind]. destruct (Z.geb_spec (maxIdleSeconds p) d); [lia|].
  destruct (suspendedDurationSeconds p); by eexists.
Qed.

(** The cap of a launch with a logical deadline. *)
Lemma pool_cap rc secs :
  lifetime_ok (pool_maxLifetimeMs rc) (pool_onTimeout rc) (pool_timeoutMs rc) ->
  MIN_DURATION_MS <= pool_timeoutMs rc <= MAX_DURATION_MS -> secs = ceil_seconds (pool_timeoutMs rc) ->
  exists c, resolveMaxLifetimeSeconds (slot_lifecycle (launchOptions rc) secs) = Ok c /\ secs <= c.
Proof.
  intros [_ Hmax] Ht ->. pose proof (ceil_seconds_valid _ Ht) as Hv.
  assert (exists m, validateMaxLifetimeMs (nullish (default JUndefined (unless_undefined (pool_maxLifetimeMs rc)))
      (jint (defaultMaxLifetimeMs (ceil_seconds (pool_timeoutMs rc))))) = Ok m /\
      ceil_seconds (pool_timeoutMs rc) * 1000 <= m) as (m & Em & Hle).
  { destruct (defaultMaxLifetimeMs_valid _ Hv) as [Hd Hdle].
    destruct Hmax as [->|(m & Hm & Hb & Hmod & Hle)]; [by eexists|]. exists m.
    assert (nullish (default JUndefined (unless_undefined (pool_maxLifetimeMs rc)))
      (jint (defaultMaxLifetimeMs (ceil_seconds (pool_timeoutMs rc)))) = pool_maxLifetimeMs rc) as ->
      by (by destruct (pool_maxLifetimeMs rc)).
    split; [by apply validateMaxLifetimeMs_spec|]. unfold ceil_seconds.
    pose proof (Z.div_mod m 1000 ltac:(lia)). pose proof (Z.div_mod (pool_timeoutMs rc + 999) 1000 ltac:(lia)).
    pose proof (Z.mod_pos_bound (pool_timeoutMs rc + 999) 1000 ltac:(lia)). lia. }
  unfold resolveMaxLifetimeSeconds. cbn [slot_lifecycle maxLifetimeMs timeoutSeconds lo_optional launchOptions
    optionalLaunchOptions opt_maxLifetimeMs]. rewrite Em. cbn [mbind result_bind].
  destruct (Z.gtb_spec (ceil_seconds (pool_timeoutMs rc) * 1000) m); [lia|]. eexists. split; [done|].
  apply Z.div_le_lower_bound; lia.
Qed.

Lemma slot_plan isIP c rc :
  config_ok isIP c rc ->
  exists plan p, resolveLifecycle (slot_lifecycle (launchOptions rc) (ceil_seconds (pool_timeoutMs rc))) = Ok plan /\
    ceil_seconds (pool_timeoutMs rc) <= platformDurationSeconds plan /\
    plan_idle plan = Some p /\ idle_autoResume p = true.
Proof.
  intros [_ [_ Ht] Hlife (Hidle & Hauto & Hlt) _ _ _ _ _ _ _ _ _ _ _ Hgiven].
  rewrite Hgiven in Hlife. change (lifetime_ok (cfg_maxLifetimeMs c) (cfg_onTimeout c) (pool_timeoutMs rc)) in Hlife.
  assert (pool_maxLifetimeMs rc = cfg_maxLifetimeMs c /\ pool_onTimeout rc = cfg_onTimeout c) as [Em Eo]
    by (by rewrite Hgiven).
  rewrite <- Em, <- Eo in Hlife. destruct (pool_cap rc _ Hlife Ht eq_refl) as (cap & Hcap & Hle).
  assert (default JUndefined (unless_undefined (pool_onTimeout rc)) = JUndefined \/
          default JUndefined (unless_undefined (pool_onTimeout rc)) = JString "kill") as Ho
    by (destruct (lt_onTimeout _ _ _ Hlife) as [->| ->]; [by left|by right]).
  unfold resolveLifecycle. set (input := slot_lifecycle _ _) in *.
  change (idle input) with (IdleGiven (idle_input_of (pool_idle rc))).
  change (onTimeout input) with (default JUndefined (unless_undefined (pool_onTimeout rc))).
  change (timeoutSeconds input) with (ceil_seconds (pool_timeoutMs rc)). cbn [fitDefaultIdle fitDefaultPauseIdle].
  destruct (resolveIdlePolicy_given _ _ _ Hidle Hlt) as (q & Hq & Hqa).
  destruct (resolveIdlePolicy_given _ _ cap Hidle ltac:(lia)) as (q' & Hq' & Hqa').
  destruct (_ && _).
  - rewrite Hq. cbn [mbind result_bind]. eexists _, q. split_and!; [done|done|done|congruence].
  - assert (validateOnTimeout (nullish (default JUndefined (unless_undefined (pool_onTimeout rc))) (JString "kill")) = Ok kill)
      as -> by (by destruct Ho as [-> | ->]).
    cbn [mbind result_bind]. rewrite Hcap. cbn [mbind result_bind]. rewrite Hq'. cbn [mbind result_bind].
    eexists _, q'. split_and!; [done|done|done|congruence].
Qed.

(** When a slot launched for [seconds] expires. *)
Lemma expiresAt_seconds r seconds :
  PoolCore.maximumDurationSeconds r = num_of_Z seconds ->
  - JsDate.MAX_TIME <= PoolCore.startedAt r + seconds * 1000 <= JsDate.MAX_TIME ->
  PoolCore.expiresAt r = Some (PoolCore.startedAt r + seconds * 1000).
Proof.
  intros E Hr. unfold PoolCore.expiresAt. rewrite E. cbn [PoolCore.plus_seconds num_of_Z].
  unfold PoolCore.time_clip.
  assert (Qle_bool (Qabs.Qabs (inject_Z (PoolCore.startedAt r) + inject_Z seconds * inject_Z 1000))
            (inject_Z JsDate.MAX_TIME) = true) as ->.
  { apply Qle_bool_iff. apply Qabs.Qabs_Qle_condition. unfold Qle. cbn. lia. }
  f_equal. cbn [Qnum Qden inject_Z Qplus Qmult]. rewrite Z.mul_1_r, Z.mul_1_r.
  change (Z.pos (1 * (1 * 1))) with 1. apply Z.quot_1_r.
Qed.

(** What a pool accepts, [Sandbox.create()] accepts: the launch options of a
    validated configuration always give a lifecycle plan, with an idle policy that
    resumes by itself, and a slot launched with it is not stale for at least its
    first sixty seconds, the time it has to warm up and park. *)
Theorem pool_slots_launch isIP c rc :
  validatePoolConfig isIP c = Ok rc ->
  exists seconds plan p,
    validateTimeoutMs (jint (lo_timeoutMs (launchOptions rc))) = Ok seconds /\
    resolveLifecycle (slot_lifecycle (launchOptions rc) seconds) = Ok plan /\
    plan_idle plan = Some p /\ idle_autoResume p = true /\
    forall r now,
      PoolCore.maximumDurationSeconds r = num_of_Z (platformDurationSeconds plan) ->
      0 <= PoolCore.startedAt r <= JsDate.MAX_TIME - MAX_DURATION_MS ->
      now <= PoolCore.startedAt r + MIN_REMAINING_FLOOR_MS ->
      PoolCore.slotIsStale r now (minRemainingMs rc) = false.
Proof.
  intros Hok%validatePoolConfig_accepts. destruct (slot_plan _ _ _ Hok) as (plan & p & Hplan & Hdur & Hp & Ha).
  destruct Hok as [_ [_ Ht] _ _ [_ Hmr] _ _ _ _ _ _ _ _ _ _ _].
  exists (ceil_seconds (pool_timeoutMs rc)), plan, p. split_and!; try done.
  { apply validateTimeoutMs_ok. exists (pool_timeoutMs rc). rewrite integer_val_jint. done. }
  intros r now Er Hs Hnow. unfold PoolCore.slotIsStale, PoolCore.remainingMs.
  destruct (resolveLifecycle_plan_valid (slot_lifecycle (launchOptions rc) _) plan (ceil_seconds_valid _ Ht) Hplan) as [Hmax _ _ _].
  pose proof (ceil_seconds_bounds (pool_timeoutMs rc)).
  unfold MAX_DURATION_MS, MIN_DURATION_SECONDS, MAX_DURATION_SECONDS, JsDate.MAX_TIME in *.
  rewrite (expiresAt_seconds r (platformDurationSeconds plan)); [|done|unfold JsDate.MAX_TIME; lia].
  cbn [mbind option_bind]. apply Z.ltb_ge. lia.
Qed.

Definition minimal_config : PoolConfig := {|
  cfg_size := jint 2; cfg_template := None; cfg_templateVersion := None; cfg_timeoutMs := JUndefined;
  cfg_idle := None; cfg_envs := None; cfg_metadata := None; cfg_cpuTimeLimit := JUndefined;
  cfg_executionRoleArn := None; cfg_ingress := None; cfg_egress := None; cfg_logging := JUndefined;
  cfg_minRemainingMs := JUndefined; cfg_fillConcurrency := JUndefined; cfg_sweepIntervalMs := JUndefined;
  cfg_readyTimeoutMs := JUndefined; cfg_index := index_undefined; cfg_warmup := JUndefined;
  cfg_allowInternetAccess := NBool false; cfg_network := NUndefined; cfg_accessToken := None;
  cfg_maxLifetimeMs := JUndefined; cfg_onTimeout := JString "kill" |}.

(** An [isIP] that knows one address. *)
Definition sample_isIP (s : text) : N := if bool_decide (s = txt "0.0.0.0") then 4 else 0.

Lemma pool_slots_launch_witness :
  exists rc, validatePoolConfig sample_isIP minimal_config = Ok rc /\
    exists seconds plan, resolveLifecycle (slot_lifecycle (launchOptions rc) seconds) = Ok plan.
Proof.
  eexists. split; [vm_compute; reflexivity|].
  match goal with |- exists seconds plan, resolveLifecycle (slot_lifecycle (launchOptions ?rc) _) = _ =>
    destruct (pool_slots_launch sample_isIP minimal_config rc) as (seconds & plan & _ & _ & H & _)
  end.
  - vm_compute. reflexivity.
  - exists seconds, plan. exact H.
Defined.
