(* ===== verification/RateLimit.v ===== *)
(** * RateLimit: the token bucket of the control plane

    [TokenBucket] of src/clients/typescript/src/aws/control-plane.ts: every call to
    the AWS API waits for a token.  Times are seconds of a monotonic clock, an
    argument of each call; [acquire] answers how long its caller sleeps, and may
    leave the bucket in debt, so that calls waiting at the same time are served in
    order.  Numbers are rationals. *)

From stdpp Require Import base option list.
From Stdlib Require Import QArith Qminmax Lqa Lia.
From S2P Require Import Prelude.

Local Open Scope Q_scope.

Record TokenBucket := { rate : Q; capacity : Q; tokens : Q; updatedAt : Q }.

(** The constructor: [None] is the [RangeError]. *)
Definition new_bucket (ratePerSecond now : Q) : option TokenBucket :=
  if Qle_bool ratePerSecond 0 then None
  else Some {| rate := ratePerSecond; capacity := ratePerSecond; tokens := ratePerSecond; updatedAt := now |}.

(** [#refill]. *)
Definition refill (now : Q) (b : TokenBucket) : TokenBucket :=
  let elapsed := Qmax 0 (now - updatedAt b) in
  {| rate := rate b; capacity := capacity b;
     tokens := Qmin (capacity b) (tokens b + elapsed * rate b); updatedAt := now |}.

(** The wait, and the bucket while its caller sleeps. *)
Definition acquire (now : Q) (b : TokenBucket) : Q * TokenBucket :=
  let b := refill now b in
  (Qmax 0 ((1 - tokens b) / rate b),
   {| rate := rate b; capacity := capacity b; tokens := tokens b - 1; updatedAt := updatedAt b |}).

(** When each of the calls made at these times is let through. *)
Fixpoint grants (b : TokenBucket) (times : list Q) : list Q :=
  match times with
  | [] => []
  | now :: rest => let (wait, b') := acquire now b in (now + wait) :: grants b' rest
  end.

(** ** Lemmas *)

(** A clock that does not go back. *)
Fixpoint monotone (from : Q) (times : list Q) : Prop :=
  match times with
  | [] => True
  | t :: rest => from <= t /\ monotone t rest
  end.

(** The wait covers what the bucket lacks. *)
Lemma wait_spec r w T : 0 < r -> w = Qmax 0 ((1 - T) / r) -> 0 <= w /\ 1 - T <= r * w /\ (w == 0 \/ r * w == 1 - T).
Proof.
  intros Hr ->. assert (r * ((1 - T) / r) == 1 - T) as E by (field; lra).
  destruct (Q.max_spec 0 ((1 - T) / r)) as [[H ->]|[H ->]].
  - split_and!; [lra|lra|by right].
  - split_and!; [lra| |by left]. assert (r * ((1 - T) / r) <= r * 0) by (apply Qmult_le_l; lra). lra.
Qed.

Lemma refill_tokens now b :
  0 < rate b -> updatedAt b <= now ->
  tokens (refill now b) <= tokens b + rate b * (now - updatedAt b) /\ tokens (refill now b) <= capacity b.
Proof.
  intros Hr Hn. cbn. rewrite (Q.max_r 0 (now - updatedAt b)) by lra. split; [|apply Q.le_min_l].
  eapply Qle_trans; [apply Q.le_min_r|]. lra.
Qed.

(** The [n]-th call from here cannot be let through before its token exists. *)
Lemma grant_lower_bound b times n g :
  0 < rate b -> monotone (updatedAt b) times -> grants b times !! n = Some g ->
  QN n + 1 - tokens b + rate b * updatedAt b <= rate b * g.
Proof.
  revert b n. induction times as [|t times IH]; intros b n Hr Hm Hg; [done|]. destruct Hm as [Ht Hm].
  destruct (refill_tokens t b Hr Ht) as [HT _]. cbn [grants acquire] in Hg.
  set (b' := refill t b) in *. assert (rate b' = rate b) as Er by done.
  assert (updatedAt b' = t) as Eu by done. clearbody b'.
  destruct n as [|n]; cbn [lookup list_lookup] in Hg.
  - injection Hg as <-. rewrite Er. destruct (wait_spec (rate b) _ (tokens b') Hr eq_refl) as (_ & Hw & _).
    set (w := Qmax 0 _) in *. change (QN 0) with 0. lra.
  - apply IH in Hg; cbn [rate tokens updatedAt] in *; rewrite ?Er, ?Eu in *; [|done|done].
    rewrite QN_S. lra.
Qed.

Lemma grants_spacing b times i j gi gj :
  0 < rate b -> tokens b <= capacity b -> monotone (updatedAt b) times -> (i <= j)%nat ->
  grants b times !! i = Some gi -> grants b times !! j = Some gj ->
  QN (j - i) + 1 <= rate b * (gj - gi) + Qmax (capacity b) 1.
Proof.
  revert b i j. induction times as [|t times IH]; intros b i j Hr Hc Hm Hij Hi Hj; [done|].
  destruct Hm as [Ht Hm]. destruct (refill_tokens t b Hr Ht) as [_ HT]. cbn [grants acquire] in Hi, Hj.
  set (b' := refill t b) in *. assert (rate b' = rate b) as Er by done.
  assert (updatedAt b' = t) as Eu by done. assert (capacity b' = capacity b) as Ec by done. clearbody b'.
  destruct i as [|i].
  - cbn in Hi. injection Hi as <-. rewrite Er. destruct (wait_spec (rate b) _ (tokens b') Hr eq_refl) as (Hw0 & Hw & Hor).
    set (w := Qmax 0 ((1 - tokens b') / rate b)) in *.
    pose proof (Q.le_max_l (capacity b) 1). pose proof (Q.le_max_r (capacity b) 1).
    destruct j as [|j]; cbn [lookup list_lookup] in Hj.
    + injection Hj as <-. rewrite Er. fold w. cbn [Nat.sub]. change (QN 0) with 0.
      assert (rate b * (t + w - (t + w)) == 0) as E by ring. lra.
    + apply grant_lower_bound in Hj; cbn [rate tokens updatedAt] in *; rewrite ?Er, ?Eu in *; [|done|done].
      rewrite Nat.sub_0_r, QN_S.
      assert (rate b * w <= Qmax (capacity b) 1 - tokens b'); [|lra].
      destruct Hor as [Hz|Hz]; [|lra]. assert (rate b * w == 0) as E by (rewrite Hz; ring). lra.
  - destruct j as [|j]; [lia|]. cbn in Hi, Hj. cbn [Nat.sub].
    rewrite <- Er, <- Ec.
    eapply (IH {| rate := rate b'; capacity := capacity b'; tokens := tokens b' - 1; updatedAt := updatedAt b' |} i j);
      cbn [rate tokens capacity updatedAt]; rewrite ?Er, ?Eu, ?Ec in *; try done; [lra|lia].
Qed.

(** However the calls arrive, and however many wait at once, the bucket keeps
    the rate: between any two calls it lets through, both included, there are at
    most [rate] per second plus one burst of the capacity (one call, below one per
    second). *)
Theorem acquire_keeps_rate r now b times i j gi gj :
  new_bucket r now = Some b -> monotone now times -> (i <= j)%nat ->
  grants b times !! i = Some gi -> grants b times !! j = Some gj ->
  QN (S (j - i)) <= r * (gj - gi) + Qmax r 1.
Proof.
  unfold new_bucket. destruct (Qle_bool r 0) eqn:E; [done|]. intros [= <-] Hm Hij Hi Hj.
  assert (0 < r) as Hr. { apply Qnot_le_lt. intros H. apply Qle_bool_iff in H. congruence. }
  rewrite QN_S. by eapply (grants_spacing {| rate := r; capacity := r; tokens := r; updatedAt := now |}); [..|exact Hi|exact Hj]; try done; apply Qle_refl.
Qed.

Definition sample_bucket : TokenBucket := {| rate := 2; capacity := 2; tokens := 2; updatedAt := 0 |}.

Lemma acquire_keeps_rate_witness :
  exists g0 g3, grants sample_bucket [0; 0; 0; 0] !! 0%nat = Some g0 /\
    grants sample_bucket [0; 0; 0; 0] !! 3%nat = Some g3 /\ g3 == 1 /\
    QN 4 <= 2 * (g3 - g0) + Qmax 2 1.
Proof.
  eexists _, _. split; [reflexivity|]. split; [reflexivity|]. split; [vm_compute; reflexivity|].
  apply (acquire_keeps_rate 2 0 sample_bucket [0; 0; 0; 0] 0 3); [reflexivity| |lia|reflexivity|reflexivity].
  cbn. lra.
Defined.
