(* ===== verification/Tokens.v ===== *)
(** * Tokens: the proxy tokens of a sandbox and their renewal

    src/clients/typescript/src/transport/tokens.ts.  [TokenStore] is a list of
    tokens, one per set of ports.  [TokenRefresher] is a state machine: what runs
    between two awaits is one function, a pending promise of the control plane is
    a call in [calls], a timer of [setTimeout] is in [armed] until it fires or is
    cleared, and a loop that awaits a mint is a task.  [run] plays a sequence of
    events, in any order in which they can happen.  Times are milliseconds of one
    wall clock that does not go back. *)

From stdpp Require Import base option list gmap strings.
From Stdlib Require Import NArith ZArith Lia.
From S2P Require Import Prelude Text Limits Ports.

Local Open Scope Z_scope.

Definition TOKEN_REFRESH_AFTER_MS : Z := TOKEN_REFRESH_AFTER_MINUTES * 60000.
Definition TOKEN_REFRESH_RETRY_MS : Z := TOKEN_REFRESH_RETRY_SECONDS * 1000.

Record ProxyToken := { jwe : text; ports : list PortSpec; mintedAt : Z }.

Definition token_covers (t : ProxyToken) (port : Z) : bool := existsb (fun s => covers s port) (ports t).

Definition refreshDue (t : ProxyToken) (now : Z) : bool := TOKEN_REFRESH_AFTER_MS <=? now - mintedAt t.

Definition msUntilRefresh (t : ProxyToken) (now : Z) : Z := Z.max 0 (mintedAt t + TOKEN_REFRESH_AFTER_MS - now).

(** ** The store *)

Definition put (token : ProxyToken) (tokens : list ProxyToken) : list ProxyToken :=
  filter (fun t => samePortSet (ports t) (ports token) = false) tokens ++ [token].

Definition tokenFor (port : Z) (tokens : list ProxyToken) : option ProxyToken :=
  snd <$> list_find (fun t => token_covers t port = true) tokens.

Definition jweFor (port : Z) (tokens : list ProxyToken) : option text := jwe <$> tokenFor port tokens.

(** ** The refresher *)

(** A loop over the tokens of the store: the tick of the timer, with the instant
    it decides by and whether every mint so far succeeded, or [refreshAll]. *)
Inductive job :=
  | Tick (current : Z) (ok : bool)
  | RefreshAll.

(** What a loop awaits: a call to the control plane, or the turn to go on after it
    was answered. *)
Inductive waiting :=
  | Minting (id : nat)
  | Minted (ok : bool).

Record task := { task_job : job; remaining : list ProxyToken; waits : waiting }.

Record refresher := {
  clock : Z;
  tokens : list ProxyToken;
  timer : option nat;
  armed : gmap nat Z;
  inflight : gmap text nat;
  calls : gmap nat (list PortSpec);
  tasks : gmap nat task;
  next_id : nat
}.

Definition new_refresher (now : Z) : refresher := {|
  clock := now; tokens := []; timer := None; armed := ∅; inflight := ∅; calls := ∅; tasks := ∅; next_id := 0 |}.

Definition set_tasks (s : refresher) (l : gmap nat task) : refresher := {|
  clock := clock s; tokens := tokens s; timer := timer s; armed := armed s; inflight := inflight s;
  calls := calls s; tasks := l; next_id := next_id s |}.

Definition set_timer (s : refresher) (tm : option nat) (l : gmap nat Z) : refresher := {|
  clock := clock s; tokens := tokens s; timer := tm; armed := l; inflight := inflight s;
  calls := calls s; tasks := tasks s; next_id := next_id s |}.

Definition fresh_id (s : refresher) : refresher := {|
  clock := clock s; tokens := tokens s; timer := timer s; armed := armed s; inflight := inflight s;
  calls := calls s; tasks := tasks s; next_id := S (next_id s) |}.

(** The key of the map of pending mints. *)
Definition spec_key (s : PortSpec) : text := print_Z (port_start s) ++ [45%N] ++ print_Z (port_end s).
Definition ports_key (ps : list PortSpec) : text := join [44%N] (spec_key <$> ps).

(** [mint]: the call that answers the caller, a pending one of the same ports or a
    new one. *)
Definition mint (s : refresher) (ps : list PortSpec) : refresher * nat :=
  match inflight s !! ports_key ps with
  | Some id => (s, id)
  | None =>
      ({| clock := clock s; tokens := tokens s; timer := timer s; armed := armed s;
          inflight := <[ports_key ps := next_id s]> (inflight s); calls := <[next_id s := ps]> (calls s);
          tasks := tasks s; next_id := S (next_id s) |}, next_id s)
  end.

(** [ensure]: a token at once, or the call that will give it. *)
Definition ensure (s : refresher) (port : Z) : refresher * (ProxyToken + nat) :=
  match tokenFor port (tokens s) with
  | Some existing => (s, inl existing)
  | None => let (s', id) := mint s [single port] in (s', inr id)
  end.

Definition wake (id : nat) (ok : bool) (t : task) : task :=
  match waits t with
  | Minting i => if bool_decide (i = id) then {| task_job := task_job t; remaining := remaining t; waits := Minted ok |} else t
  | Minted _ => t
  end.

(** [#mintNow] from the control plane's answer ([None]: it failed) and the
    [finally] of [mint]; the loops that awaited the call can go on. *)
Definition settle (s : refresher) (id : nat) (answer : option text) : option refresher :=
  ps ← calls s !! id;
  Some {| clock := clock s;
          tokens := match answer with
                    | Some j => put {| jwe := j; ports := ps; mintedAt := clock s |} (tokens s)
                    | None => tokens s
                    end;
          timer := timer s; armed := armed s;
          inflight := delete (ports_key ps) (inflight s); calls := delete id (calls s);
          tasks := wake id (bool_decide (is_Some answer)) <$> tasks s; next_id := next_id s |}.

(** [Math.min(...)] of the refresh delays. *)
Definition msUntilNextRefresh (s : refresher) (now : Z) : Z :=
  match (fun t => msUntilRefresh t now) <$> tokens s with
  | [] => TOKEN_REFRESH_AFTER_MS
  | d :: ds => foldl Z.min d ds
  end.

(** [#schedule]. *)
Definition schedule (s : refresher) (delayMs : Z) : refresher :=
  fresh_id (set_timer s (Some (next_id s)) (<[next_id s := clock s + delayMs]> (armed s))).

Definition start (s : refresher) : refresher :=
  match timer s with
  | Some _ => s
  | None => schedule s (msUntilNextRefresh s (clock s))
  end.

Definition stop (s : refresher) : refresher :=
  match timer s with
  | None => s
  | Some h => set_timer s None (delete h (armed s))
  end.

(** A tick leaves alone the tokens that are not due; [refreshAll] renews all. *)
Definition skips (j : job) (t : ProxyToken) : bool :=
  match j with Tick current _ => negb (refreshDue t current) | RefreshAll => false end.

(** The loop up to its next await, with the tokens it has left then. *)
Fixpoint advance (s : refresher) (j : job) (left : list ProxyToken) : refresher * option (list ProxyToken * nat) :=
  match left with
  | [] => (s, None)
  | t :: rest => if skips j t then advance s j rest else let (s', id) := mint s (ports t) in (s', Some (rest, id))
  end.

(** After the loop: [refreshAll] is done, the tick schedules the next one unless
    the refresher was stopped. *)
Definition finish (s : refresher) (j : job) : refresher :=
  match j with
  | RefreshAll => s
  | Tick _ ok =>
      match timer s with
      | None => s
      | Some _ => schedule s (if ok then msUntilNextRefresh s (clock s) else TOKEN_REFRESH_RETRY_MS)
      end
  end.

(** Task [i] runs from the tokens it has left to its next await or its end. *)
Definition run_task (s : refresher) (i : nat) (j : job) (left : list ProxyToken) : refresher :=
  match advance s j left with
  | (s', None) => finish (set_tasks s' (delete i (tasks s'))) j
  | (s', Some (rest, id)) =>
      set_tasks s' (<[i := {| task_job := j; remaining := rest; waits := Minting id |}]> (tasks s'))
  end.

Definition refreshAll (s : refresher) : refresher := run_task (fresh_id s) (next_id s) RefreshAll (tokens s).

(** [#tick], up to its first await. *)
Definition tick (s : refresher) : refresher :=
  match timer s with
  | None => s
  | Some _ => run_task (fresh_id s) (next_id s) (Tick (clock s) true) (tokens s)
  end.

(** A timer fires, at its time or later. *)
Definition fire (s : refresher) (h : nat) : option refresher :=
  at_ ← armed s !! h;
  if at_ <=? clock s then Some (tick (set_timer s (timer s) (delete h (armed s)))) else None.

(** A loop goes on after its mint: the tick counts a failure and continues,
    [refreshAll] rejects. *)
Definition resume (s : refresher) (i : nat) : option refresher :=
  t ← tasks s !! i;
  match waits t with
  | Minting _ => None
  | Minted ok =>
      match task_job t with
      | Tick current before => Some (run_task s i (Tick current (before && ok)) (remaining t))
      | RefreshAll => Some (if ok then run_task s i RefreshAll (remaining t) else set_tasks s (delete i (tasks s)))
      end
  end.

Inductive event :=
  | Elapse (ms : N)
  | CallMint (ps : list PortSpec)
  | CallEnsure (port : Z)
  | CallRefreshAll
  | Start
  | Stop
  | Settle (id : nat) (answer : option text)
  | Fire (h : nat)
  | Resume (i : nat).

#[export] Instance event_eq_dec : EqDecision event.
Proof. solve_decision. Defined.

Definition elapse (s : refresher) (ms : N) : refresher := {|
  clock := clock s + Z.of_N ms; tokens := tokens s; timer := timer s; armed := armed s; inflight := inflight s;
  calls := calls s; tasks := tasks s; next_id := next_id s |}.

(** [None]: the event cannot happen in this state. *)
Definition step (s : refresher) (e : event) : option refresher :=
  match e with
  | Elapse ms => Some (elapse s ms)
  | CallMint ps => Some (mint s ps).1
  | CallEnsure port => Some (ensure s port).1
  | CallRefreshAll => Some (refreshAll s)
  | Start => Some (start s)
  | Stop => Some (stop s)
  | Settle id answer => settle s id answer
  | Fire h => fire s h
  | Resume i => resume s i
  end.

Definition run (s : refresher) (es : list event) : option refresher :=
  foldl (fun acc e => s ← acc; step s e) (Some s) es.

(** ** The keys *)

Lemma not_in_decimal c n : is_digit c = false -> c ∉ print_nat 10 n.
Proof.
  intros Hc Hin. pose proof (print_nat_digits 10 n (fun x => is_digit x = true)) as H.
  rewrite Forall_forall in H. specialize (H ltac:(lia) decimal_digit c Hin). congruence.
Qed.

Lemma spec_key_print s : spec_ok s ->
  spec_key s = print_nat 10 (Z.to_N (port_start s)) ++ 45%N :: print_nat 10 (Z.to_N (port_end s)).
Proof.
  unfold spec_ok, PORT_MIN, spec_key, print_Z. intros H.
  rewrite !(proj2 (Z.ltb_ge _ _)) by lia. done.
Qed.

Lemma spec_key_no_comma s : spec_ok s -> 44%N ∉ spec_key s.
Proof.
  intros H. rewrite spec_key_print, elem_of_app, elem_of_cons by done.
  intros [Hin|[Heq|Hin]]; [|done|]; by apply not_in_decimal in Hin.
Qed.

Lemma spec_key_inj a b : spec_ok a -> spec_ok b -> spec_key a = spec_key b -> a = b.
Proof.
  intros Ha Hb. rewrite !spec_key_print by done. intros E.
  apply (f_equal (split_on 45%N)) in E.
  rewrite !split_on_app, !split_on_no_sep in E by (by apply not_in_decimal).
  injection E as E1 E2. apply (f_equal (parse_nat 10)) in E1, E2. rewrite !parse_print_nat in E1, E2 by lia.
  unfold spec_ok, PORT_MIN in *. destruct a, b; cbn in *. f_equal; lia.
Qed.

(** Two sets of ports with one key are one set: who joins a pending mint gets a
    token of its own ports. *)
Lemma ports_key_inj a b : Forall spec_ok a -> Forall spec_ok b -> ports_key a = ports_key b -> a = b.
Proof.
  assert (forall s l, spec_ok s -> ports_key (s :: l) <> []) as Hne.
  { intros s l Hs E. apply (f_equal length) in E. unfold ports_key in E. cbn [fmap list_fmap] in E.
    destruct (spec_key <$> l); cbn [join] in E; rewrite ?length_app, spec_key_print, length_app in E by done; cbn in E; lia. }
  intros Ha Hb E. destruct (decide (a = [])) as [->|Na], (decide (b = [])) as [->|Nb]; [done|..].
  - destruct Hb; [done|]. by edestruct Hne.
  - destruct Ha; [done|]. by edestruct Hne.
  - assert (spec_key <$> a = spec_key <$> b) as E'.
    { unfold ports_key in E. apply (f_equal (split_on 44%N)) in E.
      rewrite !split_join in E; [done|..]; try (by intros ?%fmap_nil_inv);
        apply Forall_fmap; (eapply Forall_impl; [eassumption|]); apply spec_key_no_comma. }
    clear -Ha Hb E'. revert b Hb E'. induction Ha as [|x a Hx Ha IH]; intros [|y b] Hb E'; try done.
    cbn in E'. injection E' as Exy E'. apply Forall_cons in Hb as [Hy Hb]. f_equal; [by apply spec_key_inj|auto].
Qed.

(** ** The store *)

Lemma elem_of_put t new l : t ∈ put new l <-> t = new \/ (t ∈ l /\ ports t <> ports new).
Proof.
  unfold put. rewrite elem_of_app, list_elem_of_filter, list_elem_of_singleton.
  rewrite <- not_true_iff_false, samePortSet_eq. naive_solver.
Qed.

Lemma put_NoDup new l : NoDup (ports <$> l) -> NoDup (ports <$> put new l).
Proof.
  intros H. unfold put. rewrite fmap_app. apply NoDup_app. split_and!.
  - induction l as [|t l IH]; [constructor|]. rewrite fmap_cons, NoDup_cons in H. destruct H as [Hin Hnd].
    rewrite filter_cons. case_decide; [|by apply IH]. rewrite fmap_cons. constructor; [|by apply IH].
    intros (u & E & Hu)%list_elem_of_fmap. apply Hin. apply list_elem_of_fmap. exists u. split; [done|].
    by apply list_elem_of_filter in Hu as [_ Hu].
  - intros x (u & -> & Hu)%list_elem_of_fmap [Hx|Hx]%elem_of_cons; [|by apply elem_of_nil in Hx].
    apply list_elem_of_filter in Hu as [Hu _]. rewrite <- not_true_iff_false, samePortSet_eq in Hu. done.
  - cbn. apply NoDup_singleton.
Qed.

Lemma foldl_min_le l d x : x ∈ d :: l -> foldl Z.min d l <= x.
Proof.
  revert d x. induction l as [|y l IH]; intros d x Hx; cbn.
  - apply list_elem_of_singleton in Hx as ->. lia.
  - assert (foldl Z.min (Z.min d y) l <= Z.min d y) as H by (apply IH; left).
    apply elem_of_cons in Hx as [->|[->|Hx]%elem_of_cons]; [lia|lia|]. by apply IH; right.
Qed.

Lemma foldl_min_bounds l d a b : a <= d <= b -> Forall (fun x => a <= x) l -> a <= foldl Z.min d l <= b.
Proof. intros Hd Hl. revert d Hd. induction Hl; intros d Hd; cbn; [done|]. apply IHHl. lia. Qed.

(** ** The invariant *)

Definition ports_ok (t : ProxyToken) : Prop := Forall spec_ok (ports t).

(** What a loop still owes: a due token of the store is one it has left, or the one
    being minted, or one it failed to renew. *)
Record task_ok (s : refresher) (t : task) : Prop := {
  task_ports : Forall ports_ok (remaining t);
  task_call : forall id, waits t = Minting id -> is_Some (calls s !! id);
  task_due : match task_job t with
    | RefreshAll => True
    | Tick current ok => current <= clock s /\ forall tok, tok ∈ tokens s -> refreshDue tok current = true ->
        tok ∈ remaining t \/ (exists id, waits t = Minting id /\ calls s !! id = Some (ports tok)) \/
        ok = false \/ waits t = Minted false
    end
}.

(** An armed timer fires before any token is too old, or within a retry. *)
Definition timer_ok (s : refresher) (at_ : Z) : Prop :=
  at_ <= clock s + TOKEN_REFRESH_AFTER_MS /\
  forall tok, tok ∈ tokens s -> at_ <= Z.max (clock s + TOKEN_REFRESH_RETRY_MS) (mintedAt tok + TOKEN_REFRESH_AFTER_MS).

Record inv (s : refresher) : Prop := {
  inv_inflight : forall k id, inflight s !! k = Some id <-> exists ps, calls s !! id = Some ps /\ ports_key ps = k;
  inv_calls : forall id ps, calls s !! id = Some ps -> Forall spec_ok ps /\ (id < next_id s)%nat;
  inv_nodup : NoDup (ports <$> tokens s);
  inv_tokens : forall t, t ∈ tokens s -> ports_ok t /\ mintedAt t <= clock s;
  inv_tasks : forall i t, tasks s !! i = Some t -> task_ok s t /\ (i < next_id s)%nat;
  inv_armed : forall h at_, armed s !! h = Some at_ -> timer_ok s at_
}.

Lemma refresh_constants : 0 < TOKEN_REFRESH_RETRY_MS < TOKEN_REFRESH_AFTER_MS.
Proof. done. Qed.

Lemma inv_new now : inv (new_refresher now).
Proof.
  split; cbn; try (intros *; rewrite lookup_empty; done); [|constructor|set_solver].
  intros k id. rewrite lookup_empty. split; [done|]. intros (ps & H & _). by rewrite lookup_empty in H.
Qed.

(** A call more changes nothing a task relies on. *)
Lemma task_ok_calls s s' t :
  clock s' = clock s -> tokens s' = tokens s -> (forall id ps, calls s !! id = Some ps -> calls s' !! id = Some ps) ->
  task_ok s t -> task_ok s' t.
Proof.
  intros Ec Et Hc [Hp Hw Hd]. split; [done| |].
  - intros id E. destruct (Hw id E) as [ps H]. exists ps. by apply Hc.
  - destruct (task_job t); [|done]. rewrite Ec, Et. destruct Hd as [Hcur Hd]. split; [done|].
    intros tok Hin Hdue. destruct (Hd tok Hin Hdue) as [?|[(id & E & H)|?]]; [by left| |by right; right].
    right; left. exists id. split; [done|]. by apply Hc.
Qed.

Lemma mint_spec s ps :
  inv s -> Forall spec_ok ps ->
  let (s', id) := mint s ps in
  inv s' /\ calls s' !! id = Some ps /\ (forall i q, calls s !! i = Some q -> calls s' !! i = Some q) /\
  clock s' = clock s /\ tokens s' = tokens s /\ timer s' = timer s /\ armed s' = armed s /\
  tasks s' = tasks s /\ (next_id s <= next_id s')%nat.
Proof.
  intros Hinv Hps. unfold mint. destruct (inflight s !! ports_key ps) as [id|] eqn:E.
  - split_and!; try done. apply (inv_inflight _ Hinv) in E as (q & Hq & Ek).
    apply ports_key_inj in Ek as <-; [done|by apply (inv_calls _ Hinv) in Hq as [? _]|done].
  - assert (calls s !! next_id s = None) as Hfresh.
    { destruct (calls s !! next_id s) eqn:Hn; [|done]. apply (inv_calls _ Hinv) in Hn. lia. }
    assert (forall i q, calls s !! i = Some q -> <[next_id s:=ps]> (calls s) !! i = Some q) as Hmono.
    { intros i q Hi. rewrite lookup_insert_ne; [done|]. intros <-. congruence. }
    split_and!; cbn; try done; [|by rewrite lookup_insert_eq|lia].
    destruct Hinv as [Hf Hc Hn Ht Hk Ha]. split; cbn; try done.
    + intros k id. rewrite lookup_insert_Some. split.
      * intros [[<- <-]|[Hne Hk']]; [exists ps; by rewrite lookup_insert_eq|].
        apply Hf in Hk' as (q & Hq & <-). exists q. split; [by apply Hmono|done].
      * intros (q & [[<- <-]|[Hne Hq]]%lookup_insert_Some & <-); [by left|].
        right. split; [|apply Hf; by exists q]. intros Heq.
        assert (inflight s !! ports_key q = Some id) as H by (apply Hf; by exists q). congruence.
    + intros id q [[<- <-]|[_ Hq]]%lookup_insert_Some; [split; [done|lia]|]. apply Hc in Hq as [? ?]. split; [done|lia].
    + intros i t Hi. apply Hk in Hi as [Hi Hlt]. split; [by apply (task_ok_calls s)|lia].
Qed.

(** Changes of the clock, of the timer handle, of the identifiers. *)
Lemma inv_fresh s : inv s -> inv (fresh_id s).
Proof.
  intros [Hf Hc Hn Ht Hk Ha]. split; cbn; try done.
  - intros id ps H. apply Hc in H as [? ?]. split; [done|lia].
  - intros i t Hi. apply Hk in Hi as [Hi Hlt]. split; [by apply (task_ok_calls s)|lia].
Qed.

Lemma inv_elapse s ms : inv s -> inv (elapse s ms).
Proof.
  intros [Hf Hc Hn Ht Hk Ha]. split; cbn; try done.
  - intros t H. apply Ht in H as [? ?]. split; [done|lia].
  - intros i t Hi. destruct (Hk i t Hi) as [[Hp Hw Hd] Hlt]. split; [split; cbn; [done|done|]|done].
    destruct (task_job t); [|done]. destruct Hd. split; [lia|done].
  - intros h a H. destruct (Ha h a H) as [H1 H2]. split; cbn; [lia|]. intros tok Hin. specialize (H2 tok Hin). lia.
Qed.

Lemma inv_timer s tm arm :
  inv s -> (forall h at_, arm !! h = Some at_ -> armed s !! h = Some at_ \/ timer_ok s at_) ->
  inv (set_timer s tm arm).
Proof.
  intros [Hf Hc Hn Ht Hk Ha] H. split; cbn; try done.
  - intros i t Hi. apply Hk in Hi as [Hi Hlt]. split; [by apply (task_ok_calls s)|done].
  - intros h a Hh. by destruct (H h a Hh) as [?%Ha|?].
Qed.

Lemma inv_set_tasks s l :
  inv s -> (forall i t, l !! i = Some t -> tasks s !! i = Some t \/ task_ok s t /\ (i < next_id s)%nat) -> inv (set_tasks s l).
Proof.
  intros [Hf Hc Hn Ht Hk Ha] H. split; cbn; try done.
  intros i t Hi. destruct (H i t Hi) as [[Hok Hlt]%Hk|[Hok Hlt]]; (split; [by apply (task_ok_calls s)|done]).
Qed.

Lemma schedule_inv s delay : inv s -> timer_ok s (clock s + delay) -> inv (schedule s delay).
Proof.
  intros Hinv Hok. unfold schedule. apply inv_fresh. apply (inv_timer s); [done|].
  intros h a [[<- <-]|[_ H]]%lookup_insert_Some; [by right|by left].
Qed.

Lemma msUntilNextRefresh_ok s : inv s -> timer_ok s (clock s + msUntilNextRefresh s (clock s)).
Proof.
  intros Hinv. pose proof refresh_constants. unfold msUntilNextRefresh.
  assert (forall t, t ∈ tokens s -> 0 <= msUntilRefresh t (clock s) <= TOKEN_REFRESH_AFTER_MS) as Hb.
  { intros t Ht. apply (inv_tokens _ Hinv) in Ht as [_ ?]. unfold msUntilRefresh. lia. }
  split.
  - destruct (tokens s) as [|t l] eqn:E; cbn; [lia|]. apply Zplus_le_compat_l. apply foldl_min_bounds with 0.
    + apply Hb. by left.
    + apply Forall_fmap, Forall_forall. intros u Hu. apply Hb. by right.
  - intros tok Hin. destruct (tokens s) as [|t l] eqn:E; [by apply elem_of_nil in Hin|]. cbn [fmap list_fmap].
    pose proof (foldl_min_le ((fun t => msUntilRefresh t (clock s)) <$> l) (msUntilRefresh t (clock s))
      (msUntilRefresh tok (clock s))) as Hle.
    assert (msUntilRefresh tok (clock s) ∈ msUntilRefresh t (clock s) :: ((fun t => msUntilRefresh t (clock s)) <$> l)) as Hm.
    { apply (list_elem_of_fmap_2 (fun t => msUntilRefresh t (clock s)) (t :: l)). done. }
    specialize (Hle Hm). unfold msUntilRefresh in *. lia.
Qed.

Lemma start_inv s : inv s -> inv (start s).
Proof. intros H. unfold start. destruct (timer s); [done|]. apply schedule_inv; [done|by apply msUntilNextRefresh_ok]. Qed.

Lemma finish_inv s j : inv s -> inv (finish s j).
Proof.
  intros H. destruct j as [current ok|]; cbn; [|done]. destruct (timer s); [|done].
  apply schedule_inv; [done|]. destruct ok; [by apply msUntilNextRefresh_ok|].
  pose proof refresh_constants. split; [lia|]. intros; lia.
Qed.

Lemma stop_inv s : inv s -> inv (stop s).
Proof.
  intros H. unfold stop. destruct (timer s); [|done]. apply (inv_timer s); [done|].
  intros h a Hh. left. by apply lookup_delete_Some in Hh as [_ Hh].
Qed.

(** ** The loops *)

Abbreviation running j left := {| task_job := j; remaining := left; waits := Minted true |}.

Lemma skips_due current ok t : skips (Tick current ok) t = true <-> refreshDue t current = false.
Proof. cbn. by rewrite negb_true_iff. Qed.

Lemma task_ok_skip s j t left : skips j t = true -> task_ok s (running j (t :: left)) -> task_ok s (running j left).
Proof.
  intros Hs [Hp Hw Hd]. split; cbn in *; [by apply Forall_cons in Hp as [_ ?]|done|].
  destruct j as [current ok|]; [|done]. destruct Hd as [Hc Hd]. split; [done|]. intros tok Hin Hdue.
  apply skips_due in Hs. destruct (Hd tok Hin Hdue) as [[->|?]%elem_of_cons|[(? & ? & _)|[?|?]]]; [congruence|by left|done|auto|done].
Qed.

Lemma task_ok_minting s j t left id :
  calls s !! id = Some (ports t) -> task_ok s (running j (t :: left)) ->
  task_ok s {| task_job := j; remaining := left; waits := Minting id |}.
Proof.
  intros Hid [Hp Hw Hd]. split; cbn in *; [by apply Forall_cons in Hp as [_ ?]|by intros ? [= <-]|].
  destruct j as [current ok|]; [|done]. destruct Hd as [Hc Hd]. split; [done|]. intros tok Hin Hdue.
  destruct (Hd tok Hin Hdue) as [[->|?]%elem_of_cons|[(? & ? & _)|[?|?]]]; [right; left; by exists id|by left|done|auto|done].
Qed.

Lemma advance_spec s j left :
  inv s -> task_ok s (running j left) ->
  match advance s j left with
  | (s', None) => s' = s /\ Forall (fun t => skips j t = true) left
  | (s', Some (rest, id)) =>
      inv s' /\ task_ok s' {| task_job := j; remaining := rest; waits := Minting id |} /\
      timer s' = timer s /\ armed s' = armed s /\ tasks s' = tasks s /\ (next_id s <= next_id s')%nat /\ (length rest < length left)%nat
  end.
Proof.
  intros Hinv. induction left as [|t left IH]; intros Hok; cbn [advance]; [by split|].
  destruct (skips j t) eqn:Hs.
  - specialize (IH (task_ok_skip _ _ _ _ Hs Hok)). destruct (advance s j left) as [s' [[rest id]|]].
    + destruct IH as (? & ? & ? & ? & ? & ? & ?). split_and!; try done. cbn. lia.
    + destruct IH as [-> IH]. split; [done|]. by constructor.
  - pose proof (mint_spec s (ports t) Hinv) as Hm. destruct (mint s (ports t)) as [s' id].
    destruct Hm as (Hinv' & Hid & Hmono & Ec & Et & Etm & Ea & Ek & En).
    { destruct Hok as [Hp _ _]. by apply Forall_cons in Hp as [? _]. }
    split_and!; try done; [|cbn; lia]. apply (task_ok_minting _ _ t); [done|]. by apply (task_ok_calls s).
Qed.

Lemma run_task_inv s i j left : inv s -> (i < next_id s)%nat -> task_ok s (running j left) -> inv (run_task s i j left).
Proof.
  intros Hinv Hi Hok. unfold run_task. pose proof (advance_spec s j left Hinv Hok) as H.
  destruct (advance s j left) as [s' [[rest id]|]].
  - destruct H as (Hinv' & Hok' & _ & _ & _ & Hn & _). apply inv_set_tasks; [done|].
    intros k t [[<- <-]|[_ Hk]]%lookup_insert_Some; [right; split; [done|lia]|by left].
  - destruct H as [-> _]. apply finish_inv, inv_set_tasks; [done|].
    intros k t [_ Hk]%lookup_delete_Some. by left.
Qed.

(** Every token of the store is there to renew. *)
Lemma task_ok_start s j : inv s -> (forall current ok, j = Tick current ok -> current = clock s) ->
  task_ok s (running j (tokens s)).
Proof.
  intros Hinv Hj. split; cbn; [|done|].
  - apply Forall_forall. intros t Ht. by apply (inv_tokens _ Hinv) in Ht as [? _].
  - destruct j as [current ok|]; [|done]. rewrite (Hj _ _ eq_refl). split; [lia|]. by left.
Qed.

Lemma tick_inv s : inv s -> inv (tick s).
Proof.
  intros Hinv. unfold tick. destruct (timer s); [|done]. apply run_task_inv; [by apply inv_fresh|cbn; lia|].
  apply (task_ok_start (fresh_id s)); [by apply inv_fresh|]. by intros ? ? [= <- <-].
Qed.

Lemma refreshAll_inv s : inv s -> inv (refreshAll s).
Proof.
  intros Hinv. unfold refreshAll. apply run_task_inv; [by apply inv_fresh|cbn; lia|].
  apply (task_ok_start (fresh_id s)); [by apply inv_fresh|done].
Qed.

Lemma fire_inv s h s' : inv s -> fire s h = Some s' -> inv s'.
Proof.
  intros Hinv. unfold fire. destruct (armed s !! h); cbn; [|done]. case_match; [|done]. intros [= <-].
  apply tick_inv, (inv_timer s); [done|]. intros k a [_ Hk]%lookup_delete_Some. by left.
Qed.

(** What a tick still owes after its mint, a failure counted. *)
Lemma resumed_task_ok s t current before ok :
  task_ok s t -> waits t = Minted ok -> task_job t = Tick current before ->
  task_ok s (running (Tick current (before && ok)) (remaining t)).
Proof.
  intros [Hp Hc Hd] Hw Hj. rewrite Hj, Hw in Hd.
  destruct Hd as [Hcur Hd]. split; cbn; [done|done|]. split; [done|]. intros tok Hin Hdue.
  destruct (Hd tok Hin Hdue) as [?|[(? & ? & _)|[->|[= ->]]]]; [by left|done|by right; right; left|].
  right; right; left. by rewrite andb_false_r.
Qed.

Lemma resume_inv s i s' : inv s -> resume s i = Some s' -> inv s'.
Proof.
  intros Hinv. unfold resume. destruct (tasks s !! i) as [t|] eqn:Ht; cbn; [|done].
  apply (inv_tasks _ Hinv) in Ht as [Ht Hi]. destruct (waits t) as [id|ok] eqn:Hw; [done|].
  destruct (task_job t) as [current before|] eqn:Hj.
  - intros [= <-]. apply run_task_inv; [done|done|]. by apply resumed_task_ok.
  - intros [= <-]. destruct ok.
    + apply run_task_inv; [done|done|]. by destruct Ht as [Hp Hc Hd].
    + apply inv_set_tasks; [done|]. intros k u [_ Hk]%lookup_delete_Some. by left.
Qed.

(** ** Settling *)

Lemma wake_waits id ok t : waits (wake id ok t) = Minting id -> False.
Proof. unfold wake. destruct (waits t) as [i|] eqn:E; [|by rewrite E]. case_bool_decide; [done|]. rewrite E. congruence. Qed.

Lemma wake_spec id ok t : task_job (wake id ok t) = task_job t /\ remaining (wake id ok t) = remaining t /\
  (waits (wake id ok t) = waits t /\ waits t <> Minting id \/ waits t = Minting id /\ waits (wake id ok t) = Minted ok).
Proof.
  unfold wake. destruct (waits t) as [i|b] eqn:E; [|rewrite E; split_and!; auto].
  case_bool_decide; subst; cbn; rewrite ?E; split_and!; auto. left. split; [done|]. congruence.
Qed.

Lemma settle_inv s id answer s' : inv s -> settle s id answer = Some s' -> inv s'.
Proof.
  intros Hinv. unfold settle. destruct (calls s !! id) as [ps|] eqn:Hid; cbn; [|done]. intros [= <-].
  destruct (inv_calls _ Hinv _ _ Hid) as [Hps _]. pose proof refresh_constants as Hconst.
  assert (forall t, t ∈ match answer with
                        | Some j => put {| jwe := j; ports := ps; mintedAt := clock s |} (tokens s)
                        | None => tokens s end ->
            (t ∈ tokens s /\ (is_Some answer -> ports t <> ps)) \/ ports t = ps /\ mintedAt t = clock s) as Hstore.
  { intros t. destruct answer as [j|]; [|intros H; left; split; [done|by intros []]].
    intros [->|[H1 H2]]%elem_of_put; [by right|by left]. }
  split; cbn.
  - intros k i. rewrite lookup_delete_Some, (inv_inflight _ Hinv). split.
    + intros [Hk (q & Hq & <-)]. exists q. split; [|done]. apply lookup_delete_Some. split; [|done]. by intros <-; simplify_eq.
    + intros (q & [Hne Hq]%lookup_delete_Some & <-). split; [|by exists q]. intros E.
      assert (inflight s !! ports_key ps = Some id) as H1 by (apply (inv_inflight _ Hinv); by exists ps).
      assert (inflight s !! ports_key ps = Some i) as H2 by (apply (inv_inflight _ Hinv); by exists q). congruence.
  - intros i q [_ Hq]%lookup_delete_Some. by apply (inv_calls _ Hinv).
  - destruct answer; [by apply put_NoDup, (inv_nodup _ Hinv)|apply (inv_nodup _ Hinv)].
  - intros t [[Ht _]|[Et Em]]%Hstore; [by apply (inv_tokens _ Hinv)|]. unfold ports_ok. rewrite Et, Em. split; [done|lia].
  - intros i t' Ht'. rewrite lookup_fmap, fmap_Some in Ht'. destruct Ht' as (t & Ht & ->).
    destruct (inv_tasks _ Hinv _ _ Ht) as [[Hp Hw Hd] Hlt]. split; [|done].
    destruct (wake_spec id (bool_decide (is_Some answer)) t) as (Ej & Er & Ew). split; cbn; rewrite ?Er, ?Ej; [done| |].
    + intros i' E. destruct Ew as [[Ew Hne]|[_ Ew]]; [|congruence]. rewrite Ew in E.
      destruct (Hw _ E) as [q Hq]. exists q. apply lookup_delete_Some. split; [by intros ->|done].
    + destruct (task_job t) as [current ok|]; [|done]. destruct Hd as [Hcur Hd]. split; [done|].
      intros tok [[Hin Hne]|[_ Em]]%Hstore Hdue.
      * destruct (Hd tok Hin Hdue) as [?|[(i' & E & Hq)|[?|Hf]]]; [by left| |by auto|].
        -- destruct Ew as [[Ew Hnid]|[Hwid Ew]].
           ++ right; left. exists i'. rewrite Ew. split; [done|]. apply lookup_delete_Some. split; [by intros ->|done].
           ++ rewrite E in Hwid. injection Hwid as ->. rewrite Hid in Hq. injection Hq as ->.
              right; right; right. rewrite Ew. f_equal. apply bool_decide_eq_false. intros Ha. by apply (Hne Ha).
        -- right; right; right. destruct Ew as [[Ew _]|[E _]]; congruence.
      * unfold refreshDue in Hdue. apply Z.leb_le in Hdue. lia.
  - intros h a Ha. destruct (inv_armed _ Hinv _ _ Ha) as [H1 H2]. split; cbn; [done|].
    intros tok [[Hin _]|[_ Em]]%Hstore; [by apply H2|]. rewrite Em. lia.
Qed.

Definition admissible (e : event) : Prop :=
  match e with
  | CallMint ps => Forall spec_ok ps
  | CallEnsure port => PORT_MIN <= port <= PORT_MAX
  | _ => True
  end.

Lemma single_ok port : PORT_MIN <= port <= PORT_MAX -> Forall spec_ok [single port].
Proof. intros H. apply Forall_singleton. unfold spec_ok. cbn. lia. Qed.

Lemma mint_inv s ps : inv s -> Forall spec_ok ps -> inv (mint s ps).1.
Proof. intros H Hps. pose proof (mint_spec s ps H Hps) as Hm. destruct (mint s ps). by destruct Hm. Qed.

Lemma step_inv s e s' : inv s -> admissible e -> step s e = Some s' -> inv s'.
Proof.
  intros Hinv Ha. destruct e; cbn [step admissible] in *.
  - intros [= <-]. by apply inv_elapse.
  - intros [= <-]. by apply mint_inv.
  - intros [= <-]. unfold ensure. destruct (tokenFor port (tokens s)); [done|].
    pose proof (mint_inv s [single port] Hinv (single_ok _ Ha)) as H. by destruct (mint s [single port]).
  - intros [= <-]. by apply refreshAll_inv.
  - intros [= <-]. by apply start_inv.
  - intros [= <-]. by apply stop_inv.
  - by apply settle_inv.
  - by apply fire_inv.
  - by apply resume_inv.
Qed.

Lemma run_snoc s es e : run s (es ++ [e]) = s' ← run s es; step s' e.
Proof. unfold run. by rewrite foldl_app. Qed.

Lemma run_inv now es s : Forall admissible es -> run (new_refresher now) es = Some s -> inv s.
Proof.
  revert s. induction es as [|e es IH] using rev_ind; intros s Ha; [intros [= <-]; apply inv_new|].
  apply Forall_app in Ha as [Ha He]. rewrite Forall_singleton in He. rewrite run_snoc.
  destruct (run (new_refresher now) es) as [s0|]; cbn; [|done]. intros H. apply (step_inv s0 e); [by apply IH|done|done].
Qed.

(** ** The chain of timers *)

Definition is_tick (t : task) : bool := match task_job t with Tick _ _ => true | RefreshAll => false end.

(** The renewal is alive: either one timer is armed, the one [stop] would clear,
    or one tick is running. *)
Inductive chain (s : refresher) : Prop :=
  | chain_waiting h at_ : timer s = Some h -> armed s = {[h := at_]} ->
      (forall j t, tasks s !! j = Some t -> is_tick t = false) -> chain s
  | chain_ticking h i : timer s = Some h -> armed s = ∅ -> is_Some (tasks s !! i) ->
      (forall j t, tasks s !! j = Some t -> is_tick t = bool_decide (j = i)) -> chain s.

Definition silent (s : refresher) : Prop := timer s = None /\ armed s = ∅.

Lemma chain_ext s s' :
  timer s' = timer s -> armed s' = armed s -> tasks s' = tasks s -> chain s -> chain s'.
Proof.
  intros Et Ea Ek [h a H1 H2 H3|h i H1 H2 H3 H4]; [eapply chain_waiting|eapply chain_ticking]; by rewrite ?Et, ?Ea, ?Ek.
Qed.

(** A loop that renews everything leaves the chain alone. *)
Lemma chain_refreshAll_task s i o :
  (forall t, tasks s !! i = Some t -> is_tick t = false) ->
  (forall t, o = Some t -> is_tick t = false) ->
  chain s -> chain (set_tasks s (partial_alter (fun _ => o) i (tasks s))).
Proof.
  intros Hi Ho [h a H1 H2 H3|h k H1 H2 [u Hk] H4]; [eapply chain_waiting|eapply chain_ticking]; cbn; try done.
  - intros j t Hj. destruct (decide (i = j)) as [->|Hne].
    + rewrite lookup_partial_alter_eq in Hj. auto.
    + rewrite lookup_partial_alter_ne in Hj by done. eauto.
  - assert (i <> k) as Hik. { intros ->. pose proof (H4 _ _ Hk) as E. rewrite bool_decide_true, (Hi _ Hk) in E; done. }
    rewrite lookup_partial_alter_ne by done. by exists u.
  - intros j t Hj. destruct (decide (i = j)) as [->|Hne].
    + rewrite lookup_partial_alter_eq in Hj. rewrite (Ho _ Hj), bool_decide_false; [done|].
      intros ->. pose proof (H4 _ _ Hk) as E. by rewrite bool_decide_true, (Hi _ Hk) in E.
    + rewrite lookup_partial_alter_ne in Hj by done. auto.
Qed.

Lemma run_refreshAll_chain s i left :
  inv s -> (i < next_id s)%nat -> task_ok s (running RefreshAll left) ->
  (forall t, tasks s !! i = Some t -> is_tick t = false) -> chain s -> chain (run_task s i RefreshAll left).
Proof.
  intros Hinv Hlt Hok Hi Hc. unfold run_task. pose proof (advance_spec s _ left Hinv Hok) as H.
  destruct (advance s RefreshAll left) as [s' [[rest id]|]].
  - destruct H as (_ & _ & Et & Ea & Ek & _). apply chain_refreshAll_task; [by rewrite Ek|by intros t [= <-]|].
    by apply (chain_ext s).
  - destruct H as [-> _]. by apply (chain_refreshAll_task s i None).
Qed.

(** A tick that runs is the chain, or arms the next timer. *)
Lemma run_tick_chain s i current ok left h :
  inv s -> task_ok s (running (Tick current ok) left) -> timer s = Some h -> armed s = ∅ ->
  (forall j t, j <> i -> tasks s !! j = Some t -> is_tick t = false) -> chain (run_task s i (Tick current ok) left).
Proof.
  intros Hinv Hok Ht Ha Hk. unfold run_task. pose proof (advance_spec s _ left Hinv Hok) as H.
  destruct (advance s (Tick current ok) left) as [s' [[rest id]|]].
  - destruct H as (_ & _ & Et & Ea & Ek & _). apply (chain_ticking _ h i); cbn; rewrite ?Et, ?Ea, ?Ek; [done|done| |].
    + by rewrite lookup_insert_eq.
    + intros j t [[<- <-]|[Hne Hj]]%lookup_insert_Some; [by rewrite bool_decide_true|].
      rewrite bool_decide_false by done. by apply (Hk j).
  - destruct H as [-> _]. cbn [finish timer set_tasks]. rewrite Ht. eapply chain_waiting; cbn; [done|by rewrite Ha|].
    intros j t [Hne Hj]%lookup_delete_Some. by apply (Hk j).
Qed.

Lemma fire_chain s h s' : inv s -> chain s -> fire s h = Some s' -> chain s'.
Proof.
  intros Hinv Hc. unfold fire. destruct (armed s !! h) as [a|] eqn:Hh; cbn; [|done]. case_match; [|done]. intros [= <-].
  destruct Hc as [h' a' H1 H2 H3|h' i H1 H2 H3 H4]; [|by rewrite H2, lookup_empty in Hh].
  rewrite H2 in Hh. apply lookup_singleton_Some in Hh as [<- <-]. unfold tick. cbn [timer set_timer]. rewrite H1.
  set (s1 := fresh_id _). assert (inv s1) as Hinv1.
  { apply inv_fresh, inv_timer; [done|]. intros k b [_ Hk]%lookup_delete_Some. by left. }
  apply (run_tick_chain s1 _ _ _ _ h'); cbn; [done| |done|by rewrite H2, delete_singleton_eq|by intros j t _ ?%H3].
  apply (task_ok_start s1); [done|]. by intros ? ? [= <- <-].
Qed.

Lemma resume_chain s i s' : inv s -> chain s -> resume s i = Some s' -> chain s'.
Proof.
  intros Hinv Hc H. pose proof (resume_inv s i s' Hinv H) as Hinv'. revert H.
  unfold resume. destruct (tasks s !! i) as [t|] eqn:Hi; cbn; [|done].
  destruct (inv_tasks _ Hinv _ _ Hi) as [Hok Hlt]. destruct (waits t) as [|ok] eqn:Hw; [done|].
  destruct (task_job t) as [current before|] eqn:Hj.
  - intros [= <-]. assert (is_tick t = true) as Htick by (unfold is_tick; by rewrite Hj).
    destruct Hc as [h' a' H1 H2 H3|h' k H1 H2 H3 H4]; [rewrite (H3 _ _ Hi) in Htick; done|].
    rewrite (H4 _ _ Hi) in Htick. apply bool_decide_eq_true in Htick as ->.
    apply (run_tick_chain s k _ _ _ h'); [done|by eapply resumed_task_ok|done|done|].
    intros j u Hne Hu. rewrite (H4 _ _ Hu). by apply bool_decide_eq_false.
  - assert (forall u, tasks s !! i = Some u -> is_tick u = false) as Htick.
    { intros u Hu. unfold is_tick. rewrite Hi in Hu. injection Hu as <-. by rewrite Hj. }
    intros [= <-]. destruct ok; [|by apply (chain_refreshAll_task s i None)].
    apply run_refreshAll_chain; try done. by destruct Hok.
Qed.

Lemma step_chain s e s' : inv s -> chain s -> admissible e -> e <> Stop -> step s e = Some s' -> chain s'.
Proof.
  intros Hinv Hc Ha Hstop. destruct e; cbn [step admissible] in *.
  - intros [= <-]. by apply (chain_ext s).
  - intros [= <-]. pose proof (mint_spec s ps Hinv Ha) as Hm. destruct (mint s ps) as [s1 id].
    destruct Hm as (_ & _ & _ & _ & _ & Et & Er & Ek & _). by apply (chain_ext s).
  - intros [= <-]. unfold ensure. destruct (tokenFor port (tokens s)); [done|].
    pose proof (mint_spec s _ Hinv (single_ok _ Ha)) as Hm. destruct (mint s [single port]) as [s1 id].
    destruct Hm as (_ & _ & _ & _ & _ & Et & Er & Ek & _). by apply (chain_ext s).
  - intros [= <-]. unfold refreshAll. apply run_refreshAll_chain; [by apply inv_fresh|cbn; lia| | |by apply (chain_ext s)].
    + by apply (task_ok_start (fresh_id s)); [apply inv_fresh|].
    + cbn. intros t Ht. apply (inv_tasks _ Hinv) in Ht as [_ ?]. lia.
  - intros [= <-]. unfold start. by destruct Hc as [? ? H1|? ? H1]; rewrite H1; [eapply chain_waiting|eapply chain_ticking].
  - done.
  - unfold settle. destruct (calls s !! id); cbn; [|done]. intros [= <-].
    assert (forall t, is_tick (wake id (bool_decide (is_Some answer)) t) = is_tick t) as Hw.
    { intros t. unfold is_tick. by destruct (wake_spec id (bool_decide (is_Some answer)) t) as [-> _]. }
    destruct Hc as [h a H1 H2 H3|h i H1 H2 [t0 H3] H4]; [eapply chain_waiting|eapply chain_ticking]; cbn; try done.
    + intros j t Hj. rewrite lookup_fmap, fmap_Some in Hj. destruct Hj as (u & Hu & ->). rewrite Hw. eauto.
    + rewrite lookup_fmap, H3. by eexists.
    + intros j t Hj. rewrite lookup_fmap, fmap_Some in Hj. destruct Hj as (u & Hu & ->). rewrite Hw. eauto.
  - by apply fire_chain.
  - by apply resume_chain.
Qed.

(** After [stop] nothing is armed again: a tick that was running ends there. *)
Lemma run_task_silent s i j left : silent s -> silent (run_task s i j left).
Proof.
  intros Hs. unfold run_task. assert (silent (advance s j left).1) as Ha.
  { induction left as [|t left IH]; cbn; [done|]. destruct (skips j t); [done|].
    unfold mint. by destruct (inflight s !! ports_key (ports t)). }
  destruct (advance s j left) as [s' [[rest id]|]]; [done|].
  destruct Ha as [Ht Hr]. cbn in Ht, Hr. unfold silent. destruct j as [current ok|]; cbn; [|done]. by rewrite Ht.
Qed.

Lemma step_silent s e s' : silent s -> e <> Start -> step s e = Some s' -> silent s'.
Proof.
  intros Hs He. pose proof Hs as [Ht Ha]. destruct e; cbn [step].
  - by intros [= <-].
  - intros [= <-]. unfold mint. by destruct (inflight s !! ports_key ps).
  - intros [= <-]. unfold ensure, mint. destruct (tokenFor port (tokens s)); [done|].
    by destruct (inflight s !! ports_key [single port]).
  - intros [= <-]. by apply run_task_silent.
  - done.
  - intros [= <-]. unfold stop. by rewrite Ht.
  - unfold settle. by destruct (calls s !! id); cbn; [intros [= <-]|].
  - unfold fire. by rewrite Ha, lookup_empty.
  - unfold resume. destruct (tasks s !! i) as [t|]; cbn; [|done].
    destruct (waits t); [done|]. destruct (task_job t); intros [= <-]; [by apply run_task_silent|].
    by destruct ok; [apply run_task_silent|].
Qed.

Lemma silent_no_ticks_start s : silent s -> (forall j t, tasks s !! j = Some t -> is_tick t = false) -> chain (start s).
Proof.
  intros [Ht Ha] Hk. unfold start. rewrite Ht. eapply chain_waiting; cbn; [done| |done]. by rewrite Ha.
Qed.

(** Before [start] no tick runs. *)
Definition idle (s : refresher) : Prop := silent s /\ forall j t, tasks s !! j = Some t -> is_tick t = false.

Lemma run_refreshAll_idle s i left : idle s -> idle (run_task s i RefreshAll left).
Proof.
  intros [Hs Hk]. split; [by apply run_task_silent|]. unfold run_task.
  assert (tasks (advance s RefreshAll left).1 = tasks s) as Et.
  { destruct left as [|t left]; [done|]. cbn. unfold mint. by destruct (inflight s !! ports_key (ports t)). }
  destruct (advance s RefreshAll left) as [s' [[rest id]|]]; cbn in *; rewrite Et; intros j t.
  - intros [[<- <-]|[_ Hj]]%lookup_insert_Some; [done|by apply Hk in Hj].
  - intros [_ Hj]%lookup_delete_Some. by apply Hk in Hj.
Qed.

Lemma step_idle s e s' : idle s -> e <> Start -> step s e = Some s' -> idle s'.
Proof.
  intros [Hs Hk] He H. pose proof (step_silent s e s' Hs He H) as Hs'. pose proof Hs as [Ht Ha].
  assert (idle s) as Hi by done. destruct e; cbn [step] in H.
  - by injection H as <-.
  - injection H as <-. split; [done|]. unfold mint. by destruct (inflight s !! ports_key ps).
  - injection H as <-. split; [done|]. unfold ensure, mint. destruct (tokenFor port (tokens s)); [done|].
    by destruct (inflight s !! ports_key [single port]).
  - injection H as <-. by apply run_refreshAll_idle.
  - done.
  - injection H as <-. unfold stop. by rewrite Ht.
  - split; [done|]. unfold settle in H. destruct (calls s !! id); cbn in H; [|done]. injection H as <-. cbn.
    intros j t Hj. rewrite lookup_fmap, fmap_Some in Hj. destruct Hj as (u & Hu & ->). apply Hk in Hu.
    unfold is_tick in *. by destruct (wake_spec id (bool_decide (is_Some answer)) u) as [-> _].
  - unfold fire in H. by rewrite Ha in H.
  - unfold resume in H. destruct (tasks s !! i) as [t|] eqn:Hit; cbn in H; [|done].
    destruct (waits t) as [|ok]; [done|]. pose proof (Hk _ _ Hit) as Htick. unfold is_tick in Htick.
    destruct (task_job t); [done|]. injection H as <-. destruct ok; [by apply run_refreshAll_idle|].
    split; [done|]. cbn. intros j u [_ Hj]%lookup_delete_Some. by apply Hk in Hj.
Qed.

Lemma idle_new now : idle (new_refresher now).
Proof. split; [done|]. intros j t H. cbn in H. by rewrite lookup_empty in H. Qed.

Lemma run_chain now es s :
  Forall admissible es -> Stop ∉ es -> run (new_refresher now) es = Some s ->
  (Start ∈ es -> chain s) /\ (Start ∉ es -> idle s).
Proof.
  revert s. induction es as [|e es IH] using rev_ind; intros s Ha Hstop.
  { intros [= <-]. split; [by intros ?%elem_of_nil|]. intros _. apply idle_new. }
  rewrite Forall_app, Forall_singleton in Ha. destruct Ha as [Ha He].
  rewrite not_elem_of_app, list_elem_of_singleton in Hstop. destruct Hstop as [Hstop Hne].
  rewrite run_snoc. destruct (run (new_refresher now) es) as [s0|] eqn:E0; cbn [mbind option_bind]; [|done]. intros H.
  destruct (IH s0 Ha Hstop eq_refl) as [Hc Hi]. pose proof (run_inv _ _ _ Ha E0) as Hinv.
  split.
  - intros [Hin|Heq%list_elem_of_singleton]%elem_of_app; [by apply (step_chain s0 e); auto|]. subst e.
    destruct (decide (Start ∈ es)) as [Hin|Hnin]; [by apply (step_chain s0 Start); auto|].
    injection H as <-. destruct (Hi Hnin). by apply silent_no_ticks_start.
  - rewrite not_elem_of_app, list_elem_of_singleton. intros [Hnin Hn]. apply (step_idle s0 e); auto.
Qed.

Lemma run_app s es es' : run s (es ++ es') = s' ← run s es; run s' es'.
Proof.
  unfold run. rewrite foldl_app. destruct (foldl _ (Some s) es) as [s'|]; [done|]. cbn.
  induction es'; [done|]. by cbn.
Qed.

Lemma run_silent s es s' : silent s -> Start ∉ es -> run s es = Some s' -> silent s'.
Proof.
  intros Hs. revert s'. induction es as [|e es IH] using rev_ind; intros s' Hn; [by intros [= <-]|].
  rewrite not_elem_of_app, list_elem_of_singleton in Hn. destruct Hn as [Hn Hne]. rewrite run_snoc.
  destruct (run s es) as [s0|]; cbn [mbind option_bind]; [|done]. apply step_silent; auto.
Qed.

Lemma stop_silent s : chain s \/ silent s -> silent (stop s).
Proof.
  unfold stop, silent. intros [[h a H1 H2 H3|h i H1 H2 H3 H4]|[H1 H2]]; rewrite H1; cbn; rewrite ?H2.
  - by rewrite delete_singleton_eq.
  - by rewrite delete_empty.
  - done.
Qed.

(** ** The theorems *)

(** C9. The renewal never dies and never doubles: after [start()], whatever is
    minted, fails or answers late, exactly one timer is armed or exactly one tick
    is running, and every loop awaits a call still pending or can go on; after
    [stop()] nothing is armed again, a tick caught in the middle included. *)
Theorem refresh_chain_alive now es s :
  Forall admissible es -> Stop ∉ es -> run (new_refresher now) es = Some s ->
  (Start ∈ es -> chain s) /\
  (forall i t, tasks s !! i = Some t ->
     (exists id, waits t = Minting id /\ is_Some (calls s !! id)) \/ is_Some (resume s i)) /\
  forall more s', Start ∉ more -> run s (Stop :: more) = Some s' -> timer s' = None /\ armed s' = ∅.
Proof.
  intros Ha Hstop E. destruct (run_chain now es s Ha Hstop E) as [Hc Hi]. split_and!; [done| |].
  - intros i t Ht. destruct (inv_tasks _ (run_inv _ _ _ Ha E) _ _ Ht) as [[_ Hw _] _].
    unfold resume. rewrite Ht. cbn. destruct (waits t) as [id|ok] eqn:Ew; [left; by exists id; auto|].
    right. by destruct (task_job t).
  - intros more s' Hn Hr. apply (run_silent (stop s) more s'); [|done|done]. apply stop_silent.
    destruct (decide (Start ∈ es)); [left; auto|right; by apply Hi].
Qed.

(** C10. Renewal is on time and complete: at any moment an armed timer is due before
    each token is forty-five minutes old, or at the latest one retry from now; and
    when a tick ends without a failure, no token that was due when it started is
    left in the store. *)
Theorem renewal_on_time now es s :
  Forall admissible es -> run (new_refresher now) es = Some s ->
  (forall h at_ tok, armed s !! h = Some at_ -> tok ∈ tokens s ->
     at_ <= Z.max (clock s + TOKEN_REFRESH_RETRY_MS) (mintedAt tok + TOKEN_REFRESH_AFTER_MS)) /\
  forall i t current s',
    tasks s !! i = Some t -> task_job t = Tick current true -> waits t = Minted true ->
    resume s i = Some s' -> tasks s' !! i = None ->
    forall tok, tok ∈ tokens s' -> refreshDue tok current = false.
Proof.
  intros Ha E. pose proof (run_inv _ _ _ Ha E) as Hinv. split.
  { intros h at_ tok Hh Hin. by apply (inv_armed _ Hinv) in Hh as [_ ?]; auto. }
  intros i t current s' Ht Hj Hw Hr Hend tok Hin. unfold resume in Hr. rewrite Ht in Hr. cbn in Hr.
  rewrite Hw, Hj in Hr. injection Hr as <-. destruct (inv_tasks _ Hinv _ _ Ht) as [Hok _].
  pose proof (resumed_task_ok _ _ _ _ _ Hok Hw Hj) as Hrun. cbn [andb] in Hrun.
  unfold run_task in Hend, Hin. pose proof (advance_spec s _ _ Hinv Hrun) as H.
  destruct (advance s (Tick current true) (remaining t)) as [s1 [[rest id]|]].
  { cbn in Hend. by rewrite lookup_insert_eq in Hend. }
  destruct H as [-> Hskip]. assert (tok ∈ tokens s) as Hs.
  { revert Hin. cbn. by destruct (timer s). }
  destruct (refreshDue tok current) eqn:Hdue; [|done]. destruct Hrun as [_ _ [_ Hd]].
  destruct (Hd tok Hs Hdue) as [Hrem|[(? & ? & _)|[?|?]]]; [|done..]. cbn in Hrem.
  rewrite Forall_forall in Hskip. apply Hskip, skips_due in Hrem. congruence.
Qed.

(** Mints are single-flight: no two pending calls to the control plane are for
    one set of ports, and the store has one token per set; and who asks for a port
    gets a token of the store that covers it, or awaits a call for exactly that
    port, joined or new. *)
Theorem mint_single_flight now es s port s' answer :
  Forall admissible es -> run (new_refresher now) es = Some s -> PORT_MIN <= port <= PORT_MAX ->
  ensure s port = (s', answer) ->
  (forall id1 id2 ps, calls s' !! id1 = Some ps -> calls s' !! id2 = Some ps -> id1 = id2) /\
  NoDup (ports <$> tokens s') /\
  match answer with
  | inl t => s' = s /\ t ∈ tokens s /\ token_covers t port = true
  | inr id => calls s' !! id = Some [single port] /\ Forall (fun t => token_covers t port = false) (tokens s)
  end.
Proof.
  intros Ha E Hport He. pose proof (run_inv _ _ _ Ha E) as Hinv.
  assert (inv s') as Hinv'. { apply (step_inv s (CallEnsure port)); [done|done|]. cbn. by rewrite He. }
  split_and!; [|apply (inv_nodup _ Hinv')|].
  - intros id1 id2 ps H1 H2.
    assert (forall id, calls s' !! id = Some ps -> inflight s' !! ports_key ps = Some id) as Hf.
    { intros id H. apply (inv_inflight _ Hinv'). by exists ps. }
    apply Hf in H1, H2. congruence.
  - unfold ensure, tokenFor in He. destruct (list_find _ (tokens s)) as [[n t]|] eqn:Hfind; cbn in He.
    + injection He as <- <-. apply list_find_Some in Hfind as (Hn & Hc & _). split_and!; [done| |done].
      by apply list_elem_of_lookup_2 in Hn.
    + pose proof (mint_spec s _ Hinv (single_ok _ Hport)) as Hm. destruct (mint s [single port]) as [s1 id].
      injection He as <- <-. split; [by destruct Hm as (_ & ? & _)|].
      apply list_find_None in Hfind. eapply Forall_impl; [exact Hfind|]. intros t Ht. by apply not_true_iff_false.
Qed.

(** ** Witnesses: a token is minted, its tick fires after forty-five minutes, the
    renewal fails, is retried a minute later and succeeds. *)

Definition sample_events : list event := [
  CallMint [single DEFAULT_PORT]; Settle 0 (Some (txt "first")); Start;
  Elapse 2700000; Fire 1; Settle 3 None; Resume 2;
  Elapse 60000; Fire 4; Settle 6 (Some (txt "second"))].

Lemma sample_admissible : Forall admissible sample_events.
Proof.
  constructor; [|repeat (constructor; [exact I|]); constructor]. apply single_ok. by_decide.
Qed.

Lemma refresh_chain_alive_witness :
  exists s, run (new_refresher 0) sample_events = Some s /\ chain s.
Proof.
  eexists. split; [vm_compute; reflexivity|].
  apply (refresh_chain_alive 0 sample_events); [exact sample_admissible|by_decide|vm_compute; reflexivity|by_decide].
Defined.

(** The second tick, about to end. *)
Lemma renewal_on_time_witness :
  exists s t s', run (new_refresher 0) sample_events = Some s /\ tasks s !! 5%nat = Some t /\
    resume s 5 = Some s' /\ jweFor DEFAULT_PORT (tokens s') = Some (txt "second") /\
    armed s' = {[7%nat := 5460000]} /\
    forall tok, tok ∈ tokens s' -> refreshDue tok 2760000 = false.
Proof.
  eexists _, _, _. split; [vm_compute; reflexivity|]. split; [vm_compute; reflexivity|].
  split; [vm_compute; reflexivity|]. split; [vm_compute; reflexivity|]. split; [vm_compute; reflexivity|].
  eapply (renewal_on_time 0 sample_events) with (i := 5%nat); [exact sample_admissible|vm_compute; reflexivity|..];
    [vm_compute; reflexivity|reflexivity|reflexivity|vm_compute; reflexivity|vm_compute; reflexivity].
Defined.

Lemma mint_single_flight_witness :
  exists s s' id, run (new_refresher 0) sample_events = Some s /\ ensure s 3000 = (s', inr id) /\
    calls s' !! id = Some [single 3000].
Proof.
  eexists _, _, _. split; [vm_compute; reflexivity|]. split; [vm_compute; reflexivity|].
  refine (proj1 (proj2 (proj2 (mint_single_flight 0 sample_events _ 3000 _ (inr _) sample_admissible _ _ _))));
    [vm_compute; reflexivity|by_decide|vm_compute; reflexivity].
Defined.
