(* ===== verification/Readiness.v ===== *)
(** * Readiness: waiting for the agent of a sandbox to answer

    The polling schedules and the reading of [Health] of
    src/clients/typescript/src/sandbox/readiness.ts, [TakePoll] of pool/core.ts, the
    state of a sandbox handle that [Health] updates and [waitUntilReady] of
    sandbox/core.ts.

    What the code awaits is answered by an environment: the [n]-th await finds its
    [moment], which says how long it lasts, what the agent and the control plane
    answer, and what other calls on the same handle do meanwhile (record a newer
    [Health], close the handle).  Times are milliseconds of a monotonic clock, as
    rationals; [Date.now()] is read from the moment. *)

From stdpp Require Import base option list strings.
From Stdlib Require Import ZArith QArith Qminmax Qround Lqa Lia.
From S2P Require Import Prelude Text Limits RpcErrors.
From S2P Require Lifecycle Network.

Local Open Scope Q_scope.

(** ** The schedule of a poll *)

Record timing := {
  initialDelayMs : Q;
  maxDelayMs : Q;
  stateCheckIntervalMs : Q;
  maxRpcTimeoutMs : Q;
  minRpcTimeoutMs : Q;
  jitter : Q
}.

Definition ReadinessPoll : timing := {| initialDelayMs := 250; maxDelayMs := 2000; stateCheckIntervalMs := 5000;
  maxRpcTimeoutMs := 5000; minRpcTimeoutMs := 500; jitter := 0 |}.
Definition ReconnectPoll : timing := {| initialDelayMs := 500; maxDelayMs := 4000; stateCheckIntervalMs := 5000;
  maxRpcTimeoutMs := 5000; minRpcTimeoutMs := 500; jitter := 1 # 4 |}.
Definition TakePoll : timing := {| initialDelayMs := 100; maxDelayMs := 500; stateCheckIntervalMs := 5000;
  maxRpcTimeoutMs := 5000; minRpcTimeoutMs := 500; jitter := 0 |}.

Record poll := {
  schedule : timing;
  started : Q;
  deadline : Q;
  lastStateCheck : Q;
  delay : Q
}.

Definition new_poll (t : timing) (timeoutMs now : Q) : poll := {|
  schedule := t; started := now; deadline := now + timeoutMs; lastStateCheck := now; delay := initialDelayMs t |}.

Definition elapsedMs (p : poll) (now : Q) : Q := Qmax 0 (now - started p).
Definition remainingMs (p : poll) (now : Q) : Q := Qmax 0 (deadline p - now).
Definition timedOut (p : poll) (now : Q) : bool := Qle_bool (remainingMs p now) 0.

Definition rpcTimeoutMs (p : poll) (now : Q) : Z :=
  Qceiling (Qmin (maxRpcTimeoutMs (schedule p)) (Qmax (minRpcTimeoutMs (schedule p)) (remainingMs p now))).

Definition shouldCheckState (p : poll) (now : Q) : bool * poll :=
  if negb (Qle_bool (stateCheckIntervalMs (schedule p)) (now - lastStateCheck p)) then (false, p)
  else (true, {| schedule := schedule p; started := started p; deadline := deadline p; lastStateCheck := now; delay := delay p |}).

Definition jittered (t : timing) (d random : Q) : Q :=
  if Qeq_bool (jitter t) 0 then d else d * (1 + jitter t * (2 * random - 1)).

Definition nextDelayMs (p : poll) (now random : Q) : Q * poll :=
  (Qmax 0 (Qmin (jittered (schedule p) (delay p) random) (remainingMs p now)),
   {| schedule := schedule p; started := started p; deadline := deadline p; lastStateCheck := lastStateCheck p;
      delay := Qmin (delay p * 2) (maxDelayMs (schedule p)) |}).

(** ** What [Health] says *)

Record AgentFeatures := {
  configure : bool; s3Mounts : bool; efsVolumes : bool; lifecycleEvents : bool;
  telemetryExport : bool; secretGateway : bool; templateStart : bool
}.

(** The protobuf message; 64-bit numbers are integers. *)
Record HealthResponse := {
  agentReady : bool;
  kernelReady : bool;
  agentVersion : text;
  uptimeMs : Z;
  h_sandboxId : text;
  h_resumeGeneration : Z;
  clockOffsetMs : Z;
  kernelStateLost : bool;
  imdsBlocked : bool;
  egressEnforcement : Z;
  h_lifecycle : option Lifecycle.LifecycleState;
  h_cpuCount : Z;
  memoryTotalBytes : Z;
  h_metadata : list (text * text);
  features : option AgentFeatures
}.

Record SandboxHealth := {
  sh_agentReady : bool; sh_kernelReady : bool; sh_agentVersion : text; sh_uptimeMs : Z; sh_sandboxId : text;
  sh_resumeGeneration : Z; sh_clockOffsetMs : Z; sh_kernelStateLost : bool; sh_imdsBlocked : bool;
  sh_egressEnforcement : Network.EgressEnforcement; sh_lifecycle : option Lifecycle.SandboxLifecycle;
  sh_cpuCount : Z; sh_memoryTotalBytes : Z
}.

Definition healthFromProto (r : HealthResponse) : SandboxHealth := {|
  sh_agentReady := agentReady r; sh_kernelReady := kernelReady r; sh_agentVersion := agentVersion r;
  sh_uptimeMs := uptimeMs r; sh_sandboxId := h_sandboxId r; sh_resumeGeneration := h_resumeGeneration r;
  sh_clockOffsetMs := clockOffsetMs r; sh_kernelStateLost := kernelStateLost r; sh_imdsBlocked := imdsBlocked r;
  sh_egressEnforcement := Network.enforcementFromProto (egressEnforcement r);
  sh_lifecycle := Lifecycle.lifecycleFromProto (h_lifecycle r);
  sh_cpuCount := h_cpuCount r; sh_memoryTotalBytes := memoryTotalBytes r |}.

Definition BYTES_PER_MIB : Z := 1024 * 1024.

Record GuestFacts := { gf_agentVersion : option text; gf_cpuCount : option Z; memoryMb : option Z }.

Definition UNKNOWN_GUEST_FACTS : GuestFacts := {| gf_agentVersion := None; gf_cpuCount := None; memoryMb := None |}.

Definition guestFactsFromHealth (r : HealthResponse) : GuestFacts :=
  let mb := Z.quot (memoryTotalBytes r) BYTES_PER_MIB in
  {| gf_agentVersion := if bool_decide (agentVersion r = []) then None else Some (agentVersion r);
     gf_cpuCount := if (h_cpuCount r =? 0)%Z then None else Some (h_cpuCount r);
     memoryMb := if (mb =? 0)%Z then None else Some mb |}.

Definition healthReady (response : option HealthResponse) : bool :=
  match response with
  | Some r => agentReady r && kernelReady r && negb (bool_decide (h_sandboxId r = []))
  | None => false
  end.

(** ** The handle *)

(** What [get-microvm] says, as far as the decisions read it. *)
Record SandboxInfo := { state : string; idle : option IdlePolicy }.

(** The part of [SandboxCore] that [Health], [close()] and the control plane
    change.  [notices] counts the calls of [#notifyResumed]; [trigger] is the delay
    the pause trigger was last armed with, [deadlinePauseGeneration] the mark of a
    suspension it made, [reopens] the deadlines reopened after one. *)
Record Core := {
  info : SandboxInfo;
  closed : bool;
  resumeGeneration : Z;
  paused : bool;
  lifecycle : option Lifecycle.SandboxLifecycle;
  guestFacts : GuestFacts;
  metadata : option (list (text * text));
  agentFeatures : option AgentFeatures;
  notices : nat;
  trigger : option Z;
  deadlineFiring : bool;
  deadlinePauseGeneration : option Z;
  reopens : nat
}.

Definition set_info (c : Core) (i : SandboxInfo) : Core := {|
  info := i; closed := closed c; resumeGeneration := resumeGeneration c; paused := paused c;
  lifecycle := lifecycle c; guestFacts := guestFacts c; metadata := metadata c; agentFeatures := agentFeatures c;
  notices := notices c; trigger := trigger c; deadlineFiring := deadlineFiring c;
  deadlinePauseGeneration := deadlinePauseGeneration c; reopens := reopens c |}.

Definition recordLifecycle (c : Core) (l : option Lifecycle.SandboxLifecycle) (nowUnixMs : Z) : Core := {|
  info := info c; closed := closed c; resumeGeneration := resumeGeneration c; paused := paused c;
  lifecycle := l; guestFacts := guestFacts c; metadata := metadata c; agentFeatures := agentFeatures c;
  notices := notices c;
  trigger := if closed c || deadlineFiring c then trigger c else Lifecycle.pauseTriggerDelayMs l nowUnixMs;
  deadlineFiring := deadlineFiring c;
  deadlinePauseGeneration := deadlinePauseGeneration c; reopens := reopens c |}.

Definition recordHealth (c : Core) (r : HealthResponse) (nowUnixMs : Z) : Core :=
  let c := recordLifecycle c (Lifecycle.lifecycleFromProto (h_lifecycle r)) nowUnixMs in
  let same := (h_resumeGeneration r =? resumeGeneration c)%Z in
  {| info := info c; closed := closed c;
     resumeGeneration := h_resumeGeneration r; paused := if same then paused c else false;
     lifecycle := lifecycle c; guestFacts := guestFactsFromHealth r; metadata := Some (h_metadata r);
     agentFeatures := features r; notices := if same then notices c else S (notices c);
     trigger := trigger c; deadlineFiring := deadlineFiring c;
  deadlinePauseGeneration := deadlinePauseGeneration c; reopens := reopens c |}.

(** [close()], as far as the waits see it. *)
Definition close (c : Core) : Core :=
  if closed c then c else {|
    info := info c; closed := true; resumeGeneration := resumeGeneration c; paused := paused c;
    lifecycle := lifecycle c; guestFacts := guestFacts c; metadata := metadata c; agentFeatures := agentFeatures c;
    notices := S (notices c); trigger := None; deadlineFiring := deadlineFiring c;
  deadlinePauseGeneration := deadlinePauseGeneration c; reopens := reopens c |}.

(** [#consumeDeadlinePause]. *)
Definition consumeDeadlinePause (c : Core) (pausedGeneration : Z) : Core := {|
  info := info c; closed := closed c; resumeGeneration := resumeGeneration c; paused := paused c;
  lifecycle := lifecycle c; guestFacts := guestFacts c; metadata := metadata c; agentFeatures := agentFeatures c;
  notices := notices c; trigger := trigger c; deadlineFiring := deadlineFiring c;
  deadlinePauseGeneration :=
    if bool_decide (deadlinePauseGeneration c = Some pausedGeneration) then None else deadlinePauseGeneration c;
  reopens := reopens c |}.

Definition set_reopens (c : Core) (n : nat) : Core := {|
  info := info c; closed := closed c; resumeGeneration := resumeGeneration c; paused := paused c;
  lifecycle := lifecycle c; guestFacts := guestFacts c; metadata := metadata c; agentFeatures := agentFeatures c;
  notices := notices c; trigger := trigger c; deadlineFiring := deadlineFiring c;
  deadlinePauseGeneration := deadlinePauseGeneration c; reopens := n |}.

(** ** Awaits *)

(** What other calls on the handle do during an await: record a [Health], read the
    state, reopen the deadline after a pause, close the handle. *)
Inductive other :=
  | OtherHealth (r : HealthResponse)
  | OtherInfo (i : SandboxInfo)
  | OtherReopened (pausedGeneration : Z)
  | OtherClose.

Definition apply_other (nowUnixMs : Z) (c : Core) (o : other) : Core :=
  match o with
  | OtherHealth r => recordHealth c r nowUnixMs
  | OtherInfo i => set_info c i
  | OtherReopened g => set_reopens (consumeDeadlinePause c g) (S (reopens c))
  | OtherClose => close c
  end.

(** [failure_of] is how a call without answer fails, [call_answer] how the caller's
    own request does ([call_empty]: a stream that ends without a message); [busy] says whether another call holds the lock of the
    reconnections just before the await, [reopening] whether another call is
    reopening the deadline then, and with what result. *)
Record moment := {
  took : Q;
  wallMs : Z;
  random : Q;
  health_answer : HealthResponse + thrown;
  microvm_answer : SandboxInfo + thrown;
  failure_of : option thrown;
  aborts : bool;
  others : list other;
  busy : bool;
  call_answer : option thrown;
  lifecycle_answer : Lifecycle.LifecycleState + thrown;
  suspend_answer : bool + thrown;
  reopening : option bool;
  call_empty : bool
}.

(** What is awaited; [Call] is the caller's own request, with how it fails, and [Ask] any
    other call that an operation makes, to AWS or to another part of the SDK.  A plain
    sleep lasts its time, and [took] is how late its timer fires; a wait for a resume ends when the handle is notified. *)
Inductive action :=
  | Probe (timeoutMs : Z)
  | RefreshTokens
  | GetMicrovm
  | Terminate
  | Sleep (ms : Q)
  | WaitForResume (ms : Q)
  | AwaitLock
  | Call (failure : option thrown)
  | SetTimeout (timeoutMs : Z)
  | Suspend
  | AwaitReopen
  | Ask (what : text) (failure : option thrown).

Record world := { now : Q; used : nat; signalled : bool; core : Core; trace : list action }.

(** Why an operation does not return: it throws, the caller's signal aborted a wait
    that races with it, or the fuel of a nested loop ran out. *)
Inductive failure :=
  | Throws (e : thrown)
  | AbortedBySignal
  | OutOfFuel.

Definition M (A : Type) : Type := world -> (A + failure) * world.

Definition ret {A} (a : A) : M A := fun w => (inl a, w).
Definition throw {A} (e : thrown) : M A := fun w => (inr (Throws e), w).
Definition bind {A B} (m : M A) (k : A -> M B) : M B := fun w =>
  match m w with
  | (inl a, w') => k a w'
  | (inr e, w') => (inr e, w')
  end.
(** [try { m } catch (e) { handler }]. *)
Definition catch {A} (m : M A) (handler : thrown -> M A) : M A := fun w =>
  match m w with
  | (inr (Throws e), w') => handler e w'
  | r => r
  end.
Definition update (f : Core -> Core) : M unit := fun w =>
  (inl tt, {| now := now w; used := used w; signalled := signalled w; core := f (core w); trace := trace w |}).
Definition get : M world := fun w => (inl w, w).
Definition of_sum {A} (x : A + thrown) : M A :=
  match x with inl a => ret a | inr e => throw e end.

Declare Scope world_scope.
Notation "'let*' x ':=' m 'in' k" := (bind m (fun x => k)) (at level 10, x name, m at level 100, k at level 200) : world_scope.
Notation "m ;; k" := (bind m (fun _ => k)) (at level 100, right associativity) : world_scope.
Local Open Scope world_scope.

Section Sandbox.
Context (env : nat -> moment).

(** An abort cuts short only a sleep that races with the signal. *)
Definition duration (race : bool) (a : action) (m : moment) (notified : bool) : Q :=
  match a with
  | Sleep ms => if race && aborts m then took m else ms + took m
  | WaitForResume ms => if notified then took m else ms + took m
  | _ => took m
  end.

(** One await, racing with the caller's signal or not. *)
Definition await (race : bool) (a : action) : M moment := fun w =>
  if race && signalled w then (inr AbortedBySignal, w)
  else
    let m := env (used w) in
    let c := foldl (apply_other (wallMs m)) (core w) (others m) in
    let w' := {| now := now w + duration race a m (negb (notices c =? notices (core w))%nat); used := S (used w);
                 signalled := signalled w || aborts m; core := c; trace := a :: trace w |} in
    if race && aborts m then (inr AbortedBySignal, w') else (inl m, w').

Definition getMicrovm : M SandboxInfo := let* m := await false GetMicrovm in of_sum (microvm_answer m).

Definition fallible (a : action) (race : bool) : M unit :=
  let* m := await race a in
  match failure_of m with None => ret tt | Some e => throw e end.

Definition health_call (race : bool) (timeoutMs : Z) : M HealthResponse :=
  let* m := await race (Probe timeoutMs) in of_sum (health_answer m).

(** [callUnaryOnce] of the probe: once more after a 403 of the proxy. *)
Definition callHealthOnce (race : bool) (timeoutMs : Z) : M HealthResponse :=
  catch (health_call race timeoutMs) (fun e =>
    if isProxyForbidden e then fallible RefreshTokens race ;; health_call race timeoutMs else throw e).

Definition probeHealth (race : bool) (timeoutMs : Z) : M (option HealthResponse) :=
  catch (let* r := callHealthOnce race timeoutMs in ret (Some r)) (fun e =>
    if isNotYetReachable e then ret None else throw (translateRpcError false e)).

(** ** [waitUntilReady] *)

(** [new SandboxNotReadyError(...)]. *)
Definition notReadyError : thrown := OwnError SandboxNotReadyError None None false None.

Definition is_sandbox_error (e : thrown) : bool :=
  match e with OwnError class _ _ _ _ => instance_of class SandboxError | _ => false end.

Definition failIfTerminal : M unit :=
  let* i := getMicrovm in
  update (fun c => set_info c i) ;;
  if bool_decide (state i ∈ TERMINAL_STATES) then throw notReadyError else ret tt.

Definition notReady (terminate : bool) : M thrown :=
  let* i := catch (let* i := getMicrovm in ret (Some i)) (fun e => if is_sandbox_error e then ret None else throw e) in
  let dead := match i with Some i => bool_decide (state i ∈ TERMINAL_STATES) | None => false end in
  (if terminate && negb dead then fallible Terminate false else ret tt) ;;
  ret notReadyError.

Definition record_health_now (r : HealthResponse) : M unit := fun w =>
  update (fun c => recordHealth c r (wallMs (env (used w)))) w.

Definition check_signal : M unit := fun w => if signalled w then (inr AbortedBySignal, w) else (inl tt, w).

(** The rest of a turn when the agent is not ready yet. *)
Definition ready_rest (terminateOnFailure : bool) (p : poll) : M (HealthResponse + poll) :=
  let* w := get in
  let (check, p) := shouldCheckState p (now w) in
  (if check then failIfTerminal else ret tt) ;;
  let* w := get in
  if timedOut p (now w) then let* e := notReady terminateOnFailure in throw e
  else
    let (d, p) := nextDelayMs p (now w) (random (env (used w))) in
    await true (Sleep d) ;; ret (inr p).

(** One turn of the loop: an answer, or the poll to go on with. *)
Definition ready_turn (terminateOnFailure : bool) (p : poll) : M (HealthResponse + poll) :=
  check_signal ;;
  let* w := get in
  let* response := probeHealth true (rpcTimeoutMs p (now w)) in
  match response with
  | Some r => if healthReady response then record_health_now r ;; ret (inl r) else ready_rest terminateOnFailure p
  | None => ready_rest terminateOnFailure p
  end.

(** [while (true)] over a turn that answers or gives the state of the next one;
    [None]: the fuel ran out. *)
Fixpoint loop {S A} (turn : S -> M (A + S)) (fuel : nat) (s : S) (w : world) : option ((A + failure) * world) :=
  match fuel with
  | O => None
  | Datatypes.S fuel' =>
      match turn s w with
      | (inl (inl a), w') => Some (inl a, w')
      | (inl (inr s'), w') => loop turn fuel' s' w'
      | (inr e, w') => Some (inr e, w')
      end
  end.

Definition waitUntilReady (fuel : nat) (terminateOnFailure : bool) (readiness : timing) (readyTimeoutMs : Q)
    (w : world) : option ((HealthResponse + failure) * world) :=
  loop (ready_turn terminateOnFailure) fuel (new_poll readiness readyTimeoutMs (now w)) w.
End Sandbox.

(** ** What an operation costs *)

Definition is_probe (a : action) : bool := match a with Probe _ => true | _ => false end.
Definition is_terminate (a : action) : bool := match a with Terminate => true | _ => false end.
Definition is_pause (a : action) : bool := match a with Sleep _ | WaitForResume _ => true | _ => false end.

Definition count (f : action -> bool) (w : world) : nat := sum_list_with (fun a => if f a then 1%nat else 0%nat) (trace w).

Section Costs.
Context (env : nat -> moment).
Context (Htimes : forall k, 0 <= took (env k)).

(** From [w] to [w'] time does not go back, and there are at most so many awaits
    other than pauses, probes and terminations in between. *)
Record spent (awaits probes terminates : nat) (w w' : world) : Prop := {
  spent_time : now w <= now w';
  spent_bound : forall T, (forall k, took (env k) <= T) -> now w' <= now w + QN awaits * T;
  spent_probes : (count is_probe w' <= count is_probe w + probes)%nat;
  spent_terminates : (count is_terminate w <= count is_terminate w' <= count is_terminate w + terminates)%nat
}.

Definition costs (awaits probes terminates : nat) {A} (m : M A) : Prop :=
  forall w, spent awaits probes terminates w (m w).2.

Lemma took_bound_nonneg T : (forall k, took (env k) <= T) -> 0 <= T.
Proof. intros H. eapply Qle_trans; [apply (Htimes 0)|apply H]. Qed.

Lemma spent_refl w : spent 0 0 0 w w.
Proof. split; [lra| |lia|lia]. intros T _. change (QN 0) with 0. lra. Qed.

Lemma spent_trans n p t n' p' t' w w1 w2 :
  spent n p t w w1 -> spent n' p' t' w1 w2 -> spent (n + n') (p + p') (t + t') w w2.
Proof.
  intros [A1 B1 C1 D1] [A2 B2 C2 D2]. split; [lra| |lia|lia].
  intros T HT. specialize (B1 T HT). specialize (B2 T HT). rewrite QN_add. lra.
Qed.

Lemma spent_weaken n p t n' p' t' w w' :
  (n <= n')%nat -> (p <= p')%nat -> (t <= t')%nat -> spent n p t w w' -> spent n' p' t' w w'.
Proof.
  intros Hn Hp Ht [A B C D]. split; [done| |lia|lia].
  intros T HT. specialize (B T HT). pose proof (took_bound_nonneg T HT) as H0.
  pose proof (QN_le n n' Hn). assert (QN n * T <= QN n' * T) by (apply Qmult_le_compat_r; lra). lra.
Qed.

Lemma costs_weaken n p t n' p' t' {A} (m : M A) :
  costs n p t m -> (n <= n')%nat -> (p <= p')%nat -> (t <= t')%nat -> costs n' p' t' m.
Proof. intros H ? ? ? w. by eapply spent_weaken, H. Qed.

Lemma costs_ret {A} (a : A) : costs 0 0 0 (ret a).
Proof. intros w. apply spent_refl. Qed.

Lemma costs_throw {A} e : costs 0 0 0 (throw e : M A).
Proof. intros w. apply spent_refl. Qed.

Lemma costs_get : costs 0 0 0 get.
Proof. intros w. apply spent_refl. Qed.

Lemma costs_of_sum {A} (x : A + thrown) : costs 0 0 0 (of_sum x).
Proof. destruct x; [apply costs_ret|apply costs_throw]. Qed.

Lemma costs_update f : costs 0 0 0 (update f).
Proof. intros w. destruct (spent_refl w) as [A B C D]. by split. Qed.

Lemma costs_bind n p t n' p' t' {A B} (m : M A) (k : A -> M B) :
  costs n p t m -> (forall a, costs n' p' t' (k a)) -> costs (n + n') (p + p') (t + t') (bind m k).
Proof.
  intros Hm Hk w. unfold bind. specialize (Hm w). destruct (m w) as [[a|e] w1]; cbn in *.
  - by eapply spent_trans, Hk.
  - eapply spent_weaken, Hm; lia.
Qed.

Lemma costs_catch n p t n' p' t' {A} (m : M A) (h : thrown -> M A) :
  costs n p t m -> (forall e, costs n' p' t' (h e)) -> costs (n + n') (p + p') (t + t') (catch m h).
Proof.
  intros Hm Hk w. unfold catch. specialize (Hm w).
  destruct (m w) as [[a|[e| |]] w1]; cbn in *; [|by eapply spent_trans, Hk|..]; (eapply spent_weaken, Hm; lia).
Qed.

Lemma costs_await race a : is_pause a = false ->
  costs 1 (if is_probe a then 1 else 0) (if is_terminate a then 1 else 0) (await env race a).
Proof.
  intros Ha w. unfold await. destruct (race && signalled w).
  { eapply spent_weaken, spent_refl; lia. }
  set (w' := {| now := _ |}). cut (spent 1 (if is_probe a then 1 else 0) (if is_terminate a then 1 else 0) w w').
  { by destruct (race && aborts (env (used w))). }
  pose proof (Htimes (used w)) as H0. assert (now w' = now w + took (env (used w))) as Et by (by destruct a).
  split; unfold count; rewrite ?Et; [lra| | |].
  - intros T HT. specialize (HT (used w)). change (QN 1) with 1. lra.
  - cbn. lia.
  - cbn. destruct (is_terminate a); lia.
Qed.

(** Adds up the costs of the parts of an operation. *)
Ltac add_costs :=
  first
  [ apply costs_ret | apply costs_throw | apply costs_get | apply costs_of_sum | apply costs_update
  | eassumption
  | apply costs_await; reflexivity
  | eapply costs_bind; [add_costs|intros; add_costs]
  | eapply costs_catch; [add_costs|intros; add_costs] ].

Lemma costs_skip n p t : costs n p t (ret tt).
Proof. eapply costs_weaken; [apply costs_ret|lia..]. Qed.

Lemma costs_if n p t (b : bool) {A} (m1 m2 : M A) :
  costs n p t m1 -> costs n p t m2 -> costs n p t (if b then m1 else m2).
Proof. by destruct b. Qed.

Lemma costs_getMicrovm : costs 1 0 0 (getMicrovm env).
Proof. eapply costs_weaken; [unfold getMicrovm; add_costs|cbn; lia..]. Qed.

Lemma costs_fallible race a : is_pause a = false ->
  costs 1 (if is_probe a then 1 else 0) (if is_terminate a then 1 else 0) (fallible env a race).
Proof.
  intros Ha. eapply costs_weaken; [unfold fallible; eapply costs_bind with (n' := 0%nat) (p' := 0%nat) (t' := 0%nat)|..].
  - by apply costs_await.
  - intros m. destruct (failure_of m); [apply costs_throw|apply costs_ret].
  - lia.
  - by rewrite Nat.add_0_r.
  - by rewrite Nat.add_0_r.
Qed.

Lemma costs_health_call race t : costs 1 1 0 (health_call env race t).
Proof. eapply costs_weaken; [unfold health_call; add_costs|cbn; lia..]. Qed.

Lemma costs_callHealthOnce race t : costs 3 2 0 (callHealthOnce env race t).
Proof.
  apply (costs_catch 1 1 0 2 1 0); [apply costs_health_call|]. intros e. apply costs_if.
  - apply (costs_bind 1 0 0 1 1 0); [apply (costs_fallible race RefreshTokens eq_refl)|intros _; apply costs_health_call].
  - eapply costs_weaken; [apply costs_throw|lia..].
Qed.

Lemma costs_probeHealth race t : costs 3 2 0 (probeHealth env race t).
Proof.
  apply (costs_catch 3 2 0 0 0 0).
  - apply (costs_bind 3 2 0 0 0 0); [apply costs_callHealthOnce|intros r; apply costs_ret].
  - intros e. apply costs_if; [apply costs_ret|apply costs_throw].
Qed.

Lemma costs_failIfTerminal : costs 1 0 0 (failIfTerminal env).
Proof.
  apply (costs_bind 1 0 0 0 0 0); [apply costs_getMicrovm|]. intros i.
  apply (costs_bind 0 0 0 0 0 0); [apply costs_update|]. intros _. apply costs_if; [apply costs_throw|apply costs_ret].
Qed.

Lemma costs_notReady (terminate : bool) : costs 2 0 (if terminate then 1 else 0) (notReady env terminate).
Proof.
  apply (costs_bind 1 0 0 1 0 (if terminate then 1 else 0)).
  - apply (costs_catch 1 0 0 0 0 0).
    + apply (costs_bind 1 0 0 0 0 0); [apply costs_getMicrovm|intros i; apply costs_ret].
    + intros e. apply costs_if; [apply costs_ret|apply costs_throw].
  - intros i. rewrite <- (Nat.add_0_r (if terminate then 1 else 0)%nat).
    apply (costs_bind 1 0 (if terminate then 1 else 0) 0 0 0); [|intros _; apply costs_ret].
    destruct terminate; [|apply costs_skip]. apply costs_if; [apply (costs_fallible false Terminate eq_refl)|apply costs_skip].
Qed.

(** ** A turn of the loop *)

Record poll_ok (p : poll) : Prop := {
  ok_initial : 0 < initialDelayMs (schedule p);
  ok_max : initialDelayMs (schedule p) <= maxDelayMs (schedule p);
  ok_jitter : 0 <= jitter (schedule p) < 1;
  ok_delay : initialDelayMs (schedule p) <= delay p
}.

(** The least a pause lasts before the deadline. *)
Definition shortest (t : timing) : Q := initialDelayMs t * (1 - jitter t).

Lemma shortest_pos p : poll_ok p -> 0 < shortest (schedule p).
Proof. intros [H1 H2 H3 H4]. unfold shortest. apply Qmult_lt_0_compat; lra. Qed.

Lemma jittered_ge p random : poll_ok p -> 0 <= random <= 1 -> shortest (schedule p) <= jittered (schedule p) (delay p) random.
Proof.
  intros [H1 H2 H3 H4] Hr. unfold jittered, shortest. destruct (Qeq_bool (jitter (schedule p)) 0) eqn:E.
  - apply Qeq_bool_iff in E. rewrite E. lra.
  - assert (0 <= jitter (schedule p) * random) by (apply Qmult_le_0_compat; lra).
    apply Qle_trans with (delay p * (1 - jitter (schedule p))); [apply Qmult_le_compat_r; lra|].
    rewrite (Qmult_comm (delay p)), (Qmult_comm (delay p)). apply Qmult_le_compat_r; lra.
Qed.

Lemma timedOut_spec p now : timedOut p now = true <-> deadline p <= now.
Proof.
  unfold timedOut, remainingMs. rewrite Qle_bool_iff. split.
  - intros H. pose proof (Q.le_max_r 0 (deadline p - now)). lra.
  - intros H. apply Q.max_lub; lra.
Qed.

(** The pause before the deadline: at least the shortest one or what remains, and
    never past the deadline; the poll goes on well-formed. *)
Lemma nextDelay_spec p now random :
  poll_ok p -> 0 <= random <= 1 -> now < deadline p ->
  let (d, p') := nextDelayMs p now random in
  (shortest (schedule p) <= d \/ d == deadline p - now) /\ d <= deadline p - now /\
  poll_ok p' /\ schedule p' = schedule p /\ deadline p' = deadline p.
Proof.
  intros Hp Hr Hn. unfold nextDelayMs, remainingMs. pose proof (jittered_ge p random Hp Hr) as Hj.
  pose proof (shortest_pos p Hp) as Hs. destruct Hp as [H1 H2 H3 H4].
  assert (Qmax 0 (deadline p - now) == deadline p - now) as Hrem by (apply Q.max_r; lra).
  set (j := jittered (schedule p) (delay p) random) in *. split_and!; [| | |done|done].
  - destruct (Q.min_spec j (Qmax 0 (deadline p - now))) as [[H ->]|[H ->]].
    + left. pose proof (Q.le_max_r 0 j). lra.
    + right. rewrite Hrem, Q.max_r; lra.
  - apply Q.max_lub; [lra|]. eapply Qle_trans; [apply Q.le_min_r|]. lra.
  - split; cbn; try done. apply Q.min_glb; lra.
Qed.

Lemma shouldCheckState_spec p now :
  let (c, p') := shouldCheckState p now in
  schedule p' = schedule p /\ deadline p' = deadline p /\ (poll_ok p -> poll_ok p').
Proof.
  unfold shouldCheckState. destruct (negb _); [done|]. split_and!; [done|done|]. intros [? ? ? ?]. by split.
Qed.

Context (Hrandom : forall k, 0 <= random (env k) <= 1).

(** What a turn that goes on leaves: the poll is as good, time has passed, nothing
    was terminated, and the deadline is not far behind. *)
Record goes_on (probes : nat) (p : poll) (w : world) (p' : poll) (w' : world) : Prop := {
  on_time : now w < deadline p;
  on_poll : poll_ok p';
  on_schedule : schedule p' = schedule p;
  on_deadline : deadline p' = deadline p;
  on_progress : deadline p <= now w' \/ now w + shortest (schedule p) <= now w';
  on_bound : forall T, (forall k, took (env k) <= T) -> now w' <= deadline p + T;
  on_probes : (count is_probe w' <= count is_probe w + probes)%nat;
  on_terminates : count is_terminate w' = count is_terminate w
}.

Lemma sleep_spec d p p' w :
  poll_ok p -> now w < deadline p -> shortest (schedule p) <= d \/ d == deadline p - now w ->
  d <= deadline p - now w -> poll_ok p' -> schedule p' = schedule p -> deadline p' = deadline p ->
  match await env true (Sleep d) w with
  | (inl _, w') => goes_on 0 p w p' w'
  | (inr _, w') => spent 1 0 0 w w'
  end.
Proof.
  intros Hp Hn Hd Hle Hp' Es Ed. unfold await. destruct (true && signalled w).
  { eapply spent_weaken, spent_refl; lia. }
  pose proof (Htimes (used w)) as H0. cbn [andb duration].
  destruct (aborts (env (used w))) eqn:Ha.
  - split; unfold count; cbn; [lra| |lia|lia].
    intros T HT. specialize (HT (used w)). change (QN 1) with 1. lra.
  - pose proof (shortest_pos p Hp). split; unfold count; cbn; try done.
    + destruct Hd; [right; lra|left; lra].
    + intros T HT. specialize (HT (used w)). lra.
    + lia.
Qed.

Lemma goes_on_trans n n' pr p p1 w w1 p' w' :
  spent n pr 0 w w1 -> schedule p1 = schedule p -> deadline p1 = deadline p ->
  goes_on n' p1 w1 p' w' -> goes_on (pr + n') p w p' w'.
Proof.
  intros [A B C D] Es Ed [H0 H1 H2 H3 H4 H5 H6 H7]. rewrite Es, ?Ed in *.
  split; [lra|done|congruence|congruence| |done|lia|lia].
  destruct H4; [by left|right; lra].
Qed.

Lemma ready_rest_spec (terminate : bool) p w :
  poll_ok p ->
  match ready_rest env terminate p w with
  | (inl (inl _), _) => False
  | (inl (inr p'), w') => goes_on 0 p w p' w'
  | (inr _, w') => spent 3 0 (if terminate then 1 else 0) w w' /\
      (count is_terminate w' <> count is_terminate w -> deadline p <= now w')
  end.
Proof.
  intros Hp. unfold ready_rest, bind at 1, get at 1.
  pose proof (shouldCheckState_spec p (now w)) as Hc. destruct (shouldCheckState p (now w)) as [c p1].
  destruct Hc as (Es & Ed & Hok). specialize (Hok Hp). unfold bind at 1.
  assert (costs 1 0 0 (if c then failIfTerminal env else ret tt)) as Hcost
    by (apply costs_if; [apply costs_failIfTerminal|apply costs_skip]).
  specialize (Hcost w). destruct ((if c then failIfTerminal env else ret tt) w) as [[[]|e] w1]; cbn [snd] in Hcost.
  2: { split; [by eapply spent_weaken, Hcost; lia|]. destruct Hcost. lia. }
  unfold bind at 1, get at 1. destruct (timedOut p1 (now w1)) eqn:Hto.
  - apply timedOut_spec in Hto. rewrite Ed in Hto. pose proof (costs_notReady terminate w1) as Hn.
    unfold bind at 1. destruct (notReady env terminate w1) as [[e|e] w2]; cbn [snd throw] in Hn |- *;
      (split; [eapply spent_weaken, spent_trans, Hn; [..|exact Hcost]; lia|]); intros _; destruct Hn; lra.
  - assert (now w1 < deadline p1) as Hlt.
    { apply Qnot_le_lt. intros H. apply timedOut_spec in H. congruence. }
    pose proof (nextDelay_spec p1 (now w1) (random (env (used w1))) Hok (Hrandom _) Hlt) as Hd.
    destruct (nextDelayMs p1 (now w1) (random (env (used w1)))) as [d p2]. destruct Hd as (Hd1 & Hd2 & Hp2 & Es2 & Ed2).
    pose proof (sleep_spec d p1 p2 w1 Hok Hlt Hd1 Hd2 Hp2 Es2 Ed2) as Hs. unfold bind at 1.
    destruct (await env true (Sleep d) w1) as [[m|e] w2]; cbn [ret].
    + by eapply (goes_on_trans 1 0 0), Hs.
    + assert (spent 2 0 0 w w2) as Hsp by (by apply (spent_trans 1 0 0 1 0 0) with w1).
      split; [by eapply spent_weaken, Hsp; lia|]. destruct Hsp. lia.
Qed.

Lemma ready_turn_spec (terminate : bool) p w :
  poll_ok p ->
  match ready_turn env terminate p w with
  | (inl (inl h), w') => healthReady (Some h) = true /\ resumeGeneration (core w') = h_resumeGeneration h /\ spent 3 2 0 w w'
  | (inl (inr p'), w') => goes_on 2 p w p' w'
  | (inr _, w') => spent 6 2 (if terminate then 1 else 0) w w' /\
      (count is_terminate w' <> count is_terminate w -> deadline p <= now w')
  end.
Proof.
  intros Hp. unfold ready_turn, bind at 1, check_signal. destruct (signalled w).
  { split; [eapply spent_weaken, spent_refl; lia|done]. }
  unfold bind at 1, get at 1. pose proof (costs_probeHealth true (rpcTimeoutMs p (now w)) w) as Hc.
  unfold bind at 1. destruct (probeHealth env true (rpcTimeoutMs p (now w)) w) as [[r|e] w1]; cbn [snd] in Hc.
  2: { split; [by eapply spent_weaken, Hc; lia|]. destruct Hc. lia. }
  assert (match ready_rest env terminate p w1 with
    | (inl (inl h), w') => False
    | (inl (inr p'), w') => goes_on 2 p w p' w'
    | (inr _, w') => spent 6 2 (if terminate then 1 else 0) w w' /\
        (count is_terminate w' <> count is_terminate w -> deadline p <= now w')
    end) as Hrest.
  { pose proof (ready_rest_spec terminate p w1 Hp) as H. destruct (ready_rest env terminate p w1) as [[[h|p']|e] w2]; [done| |].
    - by eapply (goes_on_trans 3 0 2), H.
    - destruct H as [H Ht]. split; [by apply (spent_trans 3 2 0 3 0) with w1|]. destruct Hc. intros Hne. apply Ht. lia. }
  destruct r as [r|].
  - destruct (healthReady (Some r)) eqn:Hr; [split_and!; [done|done|by destruct Hc]|].
    by destruct (ready_rest env terminate p w1) as [[[h|p']|e] w2].
  - by destruct (ready_rest env terminate p w1) as [[[h|p']|e] w2].
Qed.

(** ** The loop *)

(** So many turns are enough for so much time. *)
Lemma ready_loop_ends (terminate : bool) k p w :
  poll_ok p -> deadline p - now w <= shortest (schedule p) * QN k ->
  exists x w', loop (ready_turn env terminate) (S k) p w = Some (x, w') /\
    (count is_probe w' <= count is_probe w + 2 * S k)%nat /\
    forall T, (forall k, took (env k) <= T) -> now w <= deadline p + T -> now w' <= deadline p + 7 * T.
Proof.
  revert p w. induction k as [|k IH]; intros p w Hp Hk; cbn [loop];
    pose proof (ready_turn_spec terminate p w Hp) as Ht;
    destruct (ready_turn env terminate p w) as [[[h|p']|e] w1].
  1,4: destruct Ht as (_ & _ & [A B C D]); eexists _, _; (split; [done|]); (split; [lia|]);
    intros T HT Hw; specialize (B T HT); pose proof (took_bound_nonneg T HT); change (QN 3) with 3 in B; lra.
  2,4: destruct Ht as ([A B C D] & _); eexists _, _; (split; [done|]); (split; [lia|]);
    intros T HT Hw; specialize (B T HT); change (QN 6) with 6 in B; lra.
  - destruct Ht as [H0 H1 H2 H3 H4 H5 H6 H7]. change (QN 0) with 0 in Hk. lra.
  - destruct Ht as [H0 H1 H2 H3 H4 H5 H6 H7]. destruct (IH p' w1 H1) as (x & w' & E & Hpr & Hb).
    + rewrite H2, H3. rewrite QN_S in Hk. pose proof (shortest_pos p Hp) as Hs.
      destruct H4 as [H4|H4]; [|lra]. assert (0 <= shortest (schedule p) * QN k); [|lra].
      apply Qmult_le_0_compat; [lra|]. change 0 with (QN 0). apply QN_le. lia.
    + exists x, w'. split; [exact E|]. split; [lia|]. intros T HT _. rewrite H3 in Hb. apply (Hb T HT). by apply H5.
Qed.

Lemma ready_loop_outcome (terminate : bool) fuel p w x w' :
  poll_ok p -> loop (ready_turn env terminate) fuel p w = Some (x, w') ->
  (forall h, x = inl h -> healthReady (Some h) = true /\ resumeGeneration (core w') = h_resumeGeneration h /\
     count is_terminate w' = count is_terminate w) /\
  (count is_terminate w <= count is_terminate w' <= count is_terminate w + (if terminate then 1 else 0))%nat /\
  (count is_terminate w' <> count is_terminate w -> deadline p <= now w').
Proof.
  revert p w. induction fuel as [|fuel IH]; intros p w Hp; cbn [loop]; [done|].
  pose proof (ready_turn_spec terminate p w Hp) as Ht.
  destruct (ready_turn env terminate p w) as [[[h|p']|e] w1].
  - destruct Ht as (Hr & Hg & [A B C D]). intros [= <- <-]. split_and!; [|lia|lia|lia].
    intros h' [= <-]. split_and!; [done|done|lia].
  - destruct Ht as [H0 H1 H2 H3 H4 H5 H6 H7]. intros H. destruct (IH p' w1 H1 H) as (I1 & I2 & I3).
    rewrite H7, H3 in *. done.
  - destruct Ht as ([A B C D] & Hd). intros [= <- <-]. split_and!; [done|lia|lia|done].
Qed.
End Costs.

(** A wait neither ends before it starts nor is random outside [0, 1]. *)
Definition fair (env : nat -> moment) : Prop := forall k, 0 <= took (env k) /\ 0 <= random (env k) <= 1.

(** The turns that fit in a time, and one more. *)
Definition turns_within (t : timing) (ms : Q) : nat := S (Z.to_nat (Qceiling (ms / shortest t))).

(** The steps of a length that a time has room for. *)
Lemma steps_cover d ms : 0 < d -> ms <= d * QN (Z.to_nat (Qceiling (ms / d))).
Proof.
  intros Hd. assert (d * (ms / d) == ms) as E by (field; lra).
  assert (ms / d <= QN (Z.to_nat (Qceiling (ms / d)))) as H.
  { eapply Qle_trans; [apply Qle_ceiling|]. rewrite <- Zle_Qle. lia. }
  rewrite <- E at 1. rewrite !(Qmult_comm d). apply Qmult_le_compat_r; lra.
Qed.

Lemma turns_enough t ms : 0 < shortest t -> ms <= shortest t * QN (Z.to_nat (Qceiling (ms / shortest t))).
Proof. apply steps_cover. Qed.

Lemma schedules_ok t ms now : t ∈ [ReadinessPoll; TakePoll] \/ t = ReconnectPoll -> poll_ok (new_poll t ms now).
Proof.
  intros [H| ->]; [|split; cbn; lra].
  repeat (apply elem_of_cons in H as [->|H]; [split; cbn; lra|]). by apply elem_of_nil in H.
Qed.

(** C11. Waiting for a sandbox to be ready always ends: whatever the agent and the
    control plane answer, the loop returns or throws within the turns that fit in
    the timeout (one per 250 ms; per 100 ms for a pool's slot), with at most two
    probes each, and no later than the timeout plus seven of the longest awaits. *)
Theorem wait_until_ready_ends env terminate t ms w :
  fair env -> t ∈ [ReadinessPoll; TakePoll] -> 0 <= ms ->
  exists x w', waitUntilReady env (turns_within t ms) terminate t ms w = Some (x, w') /\
    (count is_probe w' <= count is_probe w + 2 * turns_within t ms)%nat /\
    forall T, (forall k, took (env k) <= T) -> now w' <= now w + ms + 7 * T.
Proof.
  intros Hf Ht Hms. assert (poll_ok (new_poll t ms (now w))) as Hp by (apply schedules_ok; by left).
  destruct (ready_loop_ends env (fun k => proj1 (Hf k)) (fun k => proj2 (Hf k)) terminate
    (Z.to_nat (Qceiling (ms / shortest t))) (new_poll t ms (now w)) w Hp) as (x & w' & E & Hc & Hb).
  - pose proof (turns_enough t ms (shortest_pos _ Hp)) as H. cbn [deadline schedule new_poll]. lra.
  - exists x, w'. split; [exact E|]. split; [exact Hc|]. intros T HT. cbn [deadline new_poll] in Hb.
    apply (Hb T HT). pose proof (took_bound_nonneg env (fun k => proj1 (Hf k)) T HT). lra.
Qed.

(** What waiting gives: on success the answer is of an agent and a kernel that
    are ready, in a sandbox that has its identity, its generation is recorded and
    nothing was terminated; and the sandbox is terminated at most once, only if the
    caller asked for it, and never before the deadline. *)
Theorem wait_until_ready_outcome env fuel terminate t ms w x w' :
  fair env -> t ∈ [ReadinessPoll; TakePoll] -> waitUntilReady env fuel terminate t ms w = Some (x, w') ->
  (forall h, x = inl h ->
     agentReady h = true /\ kernelReady h = true /\ h_sandboxId h <> [] /\
     resumeGeneration (core w') = h_resumeGeneration h /\ count is_terminate w' = count is_terminate w) /\
  (count is_terminate w' <> count is_terminate w ->
     terminate = true /\ count is_terminate w' = S (count is_terminate w) /\ now w + ms <= now w').
Proof.
  intros Hf Ht E. assert (poll_ok (new_poll t ms (now w))) as Hp by (apply schedules_ok; by left).
  destruct (ready_loop_outcome env (fun k => proj1 (Hf k)) (fun k => proj2 (Hf k)) _ _ _ _ _ _ Hp E) as (H1 & H2 & H3).
  split.
  - intros h Hx. destruct (H1 h Hx) as (Hr & Hg & Hn). cbn in Hr. rewrite !andb_true_iff, negb_true_iff, bool_decide_eq_false in Hr.
    destruct Hr as [[? ?] ?]. done.
  - intros Hne. specialize (H3 Hne). destruct terminate; [|lia]. split_and!; [done|lia|done].
Qed.

(** A boot: the proxy answers 502 twice, then the agent without its identity, then
    the agent of the sandbox. *)
Definition sample_health (id : text) (generation : Z) : HealthResponse := {|
  agentReady := true; kernelReady := true; agentVersion := txt "0.6.0"; uptimeMs := 900; h_sandboxId := id;
  h_resumeGeneration := generation; clockOffsetMs := 0; kernelStateLost := false; imdsBlocked := true;
  egressEnforcement := 2; h_lifecycle := None; h_cpuCount := 2; memoryTotalBytes := 2147483648;
  h_metadata := []; features := None |}.

Definition sample_moment (answer : HealthResponse + thrown) (info : SandboxInfo) : moment := {|
  took := 40; wallMs := 0; random := 1 # 2; health_answer := answer; microvm_answer := inl info;
  failure_of := None; aborts := false; others := []; busy := false;
  call_answer := None; lifecycle_answer := inr NotAnObject; suspend_answer := inl false; reopening := None;
  call_empty := false |}.

Definition bad_gateway : thrown := ConnectError Unavailable (txt "HTTP 502") None.
Definition running_info : SandboxInfo := {| state := "RUNNING"; idle := None |}.

Definition boot_env (n : nat) : moment :=
  sample_moment (if (n <? 4)%nat then inr bad_gateway else inl (sample_health (if (n <? 6)%nat then [] else txt "mvm-1") 1)) running_info.

Definition dead_env (n : nat) : moment := sample_moment (inr bad_gateway) running_info.

Definition new_core : Core := {|
  info := running_info; closed := false; resumeGeneration := 0; paused := false; lifecycle := None;
  guestFacts := UNKNOWN_GUEST_FACTS; metadata := None; agentFeatures := None; notices := 0; trigger := None;
  deadlineFiring := false; deadlinePauseGeneration := None; reopens := 0 |}.
Definition new_world : world := {| now := 0; used := 0; signalled := false; core := new_core; trace := [] |}.

Lemma sample_fair answer info : fair (fun n => sample_moment (answer n) info).
Proof. intros k. cbn. lra. Qed.

Lemma wait_until_ready_ends_witness :
  exists x w', waitUntilReady dead_env (turns_within ReadinessPoll 30000) true ReadinessPoll 30000 new_world = Some (x, w') /\
    (count is_probe w' <= 242)%nat.
Proof.
  destruct (wait_until_ready_ends dead_env true ReadinessPoll 30000 new_world) as (x & w' & E & Hc & _).
  - apply sample_fair.
  - by left.
  - lra.
  - exists x, w'. split; [exact E|]. exact Hc.
Defined.

Lemma wait_until_ready_outcome_witness :
  exists h w', waitUntilReady boot_env 10 true ReadinessPoll 30000 new_world = Some (inl h, w') /\
    resumeGeneration (core w') = 1%Z /\ h_sandboxId h <> [].
Proof.
  eexists _, _. split; [vm_compute; reflexivity|]. split; [reflexivity|].
  refine (proj1 (proj2 (proj2 (proj1 (wait_until_ready_outcome boot_env 10 true ReadinessPoll 30000 new_world
    (inl _) _ _ _ _) _ eq_refl)))); [apply sample_fair|by left|vm_compute; reflexivity].
Defined.
