(* ===== verification/Reconnect.v ===== *)
(** * Reconnect: coming back after the connection to a sandbox was cut

    [reconnect] of src/clients/typescript/src/sandbox/core.ts with the table of
    failures and the budget of sandbox/readiness.ts.  A dormant caller ([wake] is
    false) waits for a resume without probing, every caller polls [Health] while it
    holds the handle's lock, and the answer says whether the server's streams were
    lost.  The environment is the one of Readiness.v: it also says when another
    call holds the lock. *)

From stdpp Require Import base option list strings.
From Stdlib Require Import ZArith QArith Qminmax Qround Lqa Lia.
From S2P Require Import Prelude Text Limits RpcErrors Readiness.

Local Open Scope Q_scope.
Local Open Scope world_scope.

Definition MAX_FUTILE_RECONNECTS : nat := 3.

Record ReconnectOutcome := {
  resumed : bool;
  generationChanged : bool;
  oc_resumeGeneration : Z;
  error : option thrown
}.

(** [ReconnectBudget.allows]: the answer and the new count of futile reconnections. *)
Definition allows (futile : nat) (outcome : ReconnectOutcome) : bool * nat :=
  if generationChanged outcome then (true, 0%nat)
  else ((S futile <=? MAX_FUTILE_RECONNECTS)%nat, S futile).

Definition alreadySuspended (i : SandboxInfo) : bool := bool_decide (state i ∈ SUSPENDED_STATES).

Definition isSuspendingReason (reason : thrown) : bool :=
  match reason with
  | ConnectError _ _ _ => isPhaseGate reason
  | OwnError class _ _ _ _ => instance_of class SandboxStateError
  | _ => false
  end.

(** [chained(new C(...), reason)]. *)
Definition chained (class : error_class) (reason : thrown) : thrown := OwnError class None None false (Some reason).

Definition auto_resumes (i : SandboxInfo) : bool := default false (idle_autoResume <$> idle i).

(** [reconnectFailure] with an [info]. *)
Definition reconnectFailure_info (reason : thrown) (i : SandboxInfo) (wake : bool) : option thrown :=
  if bool_decide (state i ∈ TERMINAL_STATES) then Some (chained SandboxNotFoundError reason)
  else if wake && bool_decide (state i = "SUSPENDED") && negb (auto_resumes i) then Some (chained SandboxStateError reason)
  else None.

(** [reconnectFailure] with only a timeout. *)
Definition reconnectFailure_timeout (reason : thrown) : thrown :=
  if isSuspendingReason reason then chained SandboxStateError reason else chained SandboxError reason.

Definition healthReconnected (response : option HealthResponse) (seenGeneration : Z) (suspending : bool) : bool :=
  match response with
  | None => false
  | Some r => agentReady r && kernelReady r && (negb suspending || negb (h_resumeGeneration r =? seenGeneration)%Z)
  end.

Definition failedReconnect (c : Core) (e : thrown) : ReconnectOutcome := {|
  resumed := false; generationChanged := false; oc_resumeGeneration := resumeGeneration c; error := Some e |}.

Definition closedDuringReconnect : thrown := OwnError SandboxError None None false None.

Definition alreadyBack (seenGeneration : Z) (c : Core) : option ReconnectOutcome :=
  if (seenGeneration <? resumeGeneration c)%Z
  then Some {| resumed := true; generationChanged := true; oc_resumeGeneration := resumeGeneration c; error := None |}
  else if closed c then Some (failedReconnect c closedDuringReconnect)
  else None.

Definition is_class (class : error_class) (e : thrown) : bool :=
  match e with OwnError c _ _ _ _ => instance_of c class | _ => false end.

Section Sandbox.
Context (env : nat -> moment) (reason : thrown) (seenGeneration : Z).

Definition checkState (wake : bool) : M (option thrown) :=
  let* known := catch (let* i := getMicrovm env in update (fun c => set_info c i) ;; ret (inl i))
    (fun e => if is_class SandboxNotFoundError e then ret (inr (Some e))
              else if is_class SandboxError e then ret (inr None) else throw e) in
  match known with
  | inl i => ret (reconnectFailure_info reason i wake)
  | inr failure => ret failure
  end.

Definition failed_now {A} (e : thrown) : M (option ReconnectOutcome + A) :=
  let* w := get in ret (inl (Some (failedReconnect (core w) e))).

Definition probeFailure (c : Core) (e : thrown) : thrown := if closed c then closedDuringReconnect else e.

(** [#reconnected]. *)
Definition reconnected (r : HealthResponse) : M ReconnectOutcome :=
  record_health_now env r ;;
  ret {| resumed := true; generationChanged := negb (h_resumeGeneration r =? seenGeneration)%Z;
         oc_resumeGeneration := h_resumeGeneration r; error := None |}.

(** The end of a turn that found no agent: a dormant caller looks at the state
    first, and gives up the lock ([inl None]) when the sandbox is suspended. *)
Definition poll_pause (wake : bool) (p : poll) : M (option ReconnectOutcome + poll) :=
  let* failure := if wake then ret None else checkState false in
  match failure with
  | Some e => failed_now e
  | None =>
      let* w := get in
      if negb wake && alreadySuspended (info (core w)) then ret (inl None)
      else
        let (d, p) := nextDelayMs p (now w) (random (env (used w))) in
        await env false (WaitForResume d) ;; ret (inr p)
  end.

(** A turn before the deadline: the state if it is time to check it, then a probe. *)
Definition poll_attempt (check wake : bool) (p : poll) : M (option ReconnectOutcome + poll) :=
  let* failure := if check then checkState true else ret None in
  match failure with
  | Some e => failed_now e
  | None =>
      let* w := get in
      let* answer := catch (let* r := probeHealth env false (rpcTimeoutMs p (now w)) in ret (inl r)) (fun e => ret (inr e)) in
      match answer with
      | inr e => let* w := get in failed_now (probeFailure (core w) e)
      | inl response =>
          match response with
          | Some r =>
              if healthReconnected response seenGeneration (isSuspendingReason reason)
              then let* outcome := reconnected r in ret (inl (Some outcome))
              else poll_pause wake p
          | None => poll_pause wake p
          end
      end
  end.

(** One turn of [#pollUntilBack]. *)
Definition poll_turn (wake : bool) (p : poll) : M (option ReconnectOutcome + poll) :=
  let* w := get in
  match alreadyBack seenGeneration (core w) with
  | Some outcome => ret (inl (Some outcome))
  | None =>
      if timedOut p (now w) then failed_now (reconnectFailure_timeout reason) else
      let (check, p) := if wake then shouldCheckState p (now w) else (false, p) in
      poll_attempt check wake p
  end.

(** A loop as an operation. *)
Definition within {A S} (turn : S -> M (A + S)) (fuel : nat) (s : S) : M A := fun w =>
  match loop turn fuel s w with
  | Some r => r
  | None => (inr OutOfFuel, w)
  end.

(** [outcome ??= await next()]. *)
Definition or_else {A} (m next : M (option A)) : M (option A) :=
  let* x := m in match x with Some a => ret (Some a) | None => next end.

Definition alreadyBack_now : M (option ReconnectOutcome) := let* w := get in ret (alreadyBack seenGeneration (core w)).

(** One turn of [#sleepWhileSuspended], after its first wait. *)
Definition sleep_rest : M (option ReconnectOutcome + unit) :=
  let* failure := checkState false in
  match failure with
  | Some e => failed_now e
  | None =>
      let* w := get in
      if negb (alreadySuspended (info (core w))) then ret (inl None)
      else await env false (WaitForResume (stateCheckIntervalMs ReconnectPoll)) ;; ret (inr tt)
  end.

Definition sleep_turn (_ : unit) : M (option ReconnectOutcome + unit) :=
  let* outcome := alreadyBack_now in
  match outcome with
  | Some o => ret (inl (Some o))
  | None => sleep_rest
  end.

Definition sleepWhileSuspended (fuel : nat) : M (option ReconnectOutcome) :=
  await env false (WaitForResume (initialDelayMs ReconnectPoll)) ;; within sleep_turn fuel tt.

(** [while (this.#reconnectLock !== undefined) await this.#reconnectLock]. *)
Definition lock_turn (_ : unit) : M (unit + unit) := fun w =>
  if busy (env (used w)) then (await env false AwaitLock ;; ret (inr tt)) w else (inl (inl tt), w).

Definition pollUntilBack (fuel : nat) (reconnectTimeoutMs : Q) (wake : bool) : M (option ReconnectOutcome) :=
  let* w := get in within (poll_turn wake) fuel (new_poll ReconnectPoll reconnectTimeoutMs (now w)).

Definition pollHoldingTheLock (fuel : nat) (reconnectTimeoutMs : Q) (wake : bool) : M (option ReconnectOutcome) :=
  within lock_turn fuel tt ;; or_else alreadyBack_now (pollUntilBack fuel reconnectTimeoutMs wake).

Definition reconnect_turn (fuel : nat) (reconnectTimeoutMs : Q) (wake : bool) (_ : unit) : M (ReconnectOutcome + unit) :=
  let* outcome := or_else (or_else alreadyBack_now (if wake then ret None else sleepWhileSuspended fuel))
                          (pollHoldingTheLock fuel reconnectTimeoutMs wake) in
  match outcome with
  | Some o => ret (inl o)
  | None => ret (inr tt)
  end.

Definition reconnect (fuel : nat) (reconnectTimeoutMs : Q) (wake : bool) : M ReconnectOutcome :=
  within (reconnect_turn fuel reconnectTimeoutMs wake) fuel tt.
End Sandbox.

(** ** What an operation yields *)

Definition yields {A} (P : A -> world -> Prop) (m : M A) : Prop := forall w a w', m w = (inl a, w') -> P a w'.

Lemma yields_bind {A B} (P : B -> world -> Prop) (m : M A) (k : A -> M B) :
  (forall a, yields P (k a)) -> yields P (bind m k).
Proof. intros Hk w b w'. unfold bind. destruct (m w) as [[a|e] w1]; [apply Hk|done]. Qed.

Lemma yields_bind_post {A B} (Q : A -> world -> Prop) (P : B -> world -> Prop) (m : M A) (k : A -> M B) :
  yields Q m -> (forall a, (exists w, Q a w) -> yields P (k a)) -> yields P (bind m k).
Proof.
  intros Hm Hk w b w'. unfold bind. destruct (m w) as [[a|e] w1] eqn:E; [|done].
  intros H. apply (Hk a) in H; [done|]. exists w1. by eapply Hm.
Qed.

Lemma loop_yields {A S} (P : A -> world -> Prop) (turn : S -> M (A + S)) fuel s w a w' :
  (forall s, yields (fun x w => match x with inl a => P a w | inr _ => True end) (turn s)) ->
  loop turn fuel s w = Some (inl a, w') -> P a w'.
Proof.
  intros Ht. revert s w. induction fuel as [|fuel IH]; intros s w; cbn [loop]; [done|].
  pose proof (Ht s w) as H. destruct (turn s w) as [[[b|s']|e] w1].
  - intros [= <- <-]. by apply (H _ _ eq_refl).
  - apply IH.
  - done.
Qed.

Lemma within_yields {A S} (P : A -> world -> Prop) (turn : S -> M (A + S)) fuel s :
  (forall s, yields (fun x w => match x with inl a => P a w | inr _ => True end) (turn s)) ->
  yields P (within turn fuel s).
Proof.
  intros Ht w a w'. unfold within. destruct (loop turn fuel s w) as [[r w1]|] eqn:E; [|done].
  intros [= -> ->]. by eapply loop_yields.
Qed.

Section Outcome.
Context (env : nat -> moment) (reason : thrown) (seen : Z).

(** What an outcome promises: the generation it names is the handle's, it says
    whether that one is new, and after a suspension only a new one counts; a failure
    carries an error. *)
Record sound (o : ReconnectOutcome) (w : world) : Prop := {
  sound_resumed : resumed o = true ->
    oc_resumeGeneration o = resumeGeneration (core w) /\
    generationChanged o = negb (oc_resumeGeneration o =? seen)%Z /\
    (isSuspendingReason reason = true -> generationChanged o = true);
  sound_failed : resumed o = false -> generationChanged o = false /\ exists e, error o = Some e /\ is_error_object e
}.

Definition sound_turn {A} (x : option ReconnectOutcome + A) (w : world) : Prop :=
  match x with inl (Some o) => sound o w | _ => True end.

Lemma failedReconnect_sound c e w : is_error_object e -> sound (failedReconnect c e) w.
Proof. intros He. split; [done|]. intros _. split; [done|]. by exists e. Qed.

Lemma alreadyBack_sound w o : alreadyBack seen (core w) = Some o -> sound o w.
Proof.
  unfold alreadyBack. destruct (Z.ltb_spec seen (resumeGeneration (core w))) as [H|H].
  - intros [= <-]. split; [|done]. intros _. cbn. split_and!; [done| |done].
    symmetry. apply negb_true_iff, Z.eqb_neq. lia.
  - destruct (closed (core w)); [|done]. intros [= <-]. by apply failedReconnect_sound.
Qed.

Lemma failed_now_sound {A} e : is_error_object e -> yields sound_turn (@failed_now A e).
Proof. intros He w x w'. unfold failed_now, bind, get, ret. intros [= <- <-]. by apply failedReconnect_sound. Qed.

Lemma reconnectFailure_info_error i wake e : reconnectFailure_info reason i wake = Some e -> is_error_object e.
Proof. unfold reconnectFailure_info. repeat case_match; intros [= <-]; done. Qed.

Lemma checkState_error wake : yields (fun x _ => forall e, x = Some e -> is_error_object e) (checkState env reason wake).
Proof.
  apply (yields_bind_post (fun x _ => forall e, x = inr (Some e) -> is_error_object e)).
  - intros w x w'. unfold catch, bind, update, ret. destruct (getMicrovm env w) as [[i|[e| |]] w1]; try done.
    + intros [= <- <-] e. done.
    + destruct (is_class SandboxNotFoundError e) eqn:Hc.
      * intros [= <- <-] e' [= <-]. by destruct e.
      * destruct (is_class SandboxError e); [|done]. by intros [= <- <-] e'.
  - intros [i|f] [w0 Hq] w x w'; intros [= <- <-]; [by apply reconnectFailure_info_error|].
    intros e He. apply Hq. by rewrite He.
Qed.

Lemma probeHealth_error race t w e w' :
  probeHealth env race t w = (inr (Throws e), w') -> is_error_object e.
Proof.
  unfold probeHealth, catch. destruct (bind _ _ w) as [[r|[e0| |]] w1]; try done.
  destruct (isNotYetReachable e0); [done|]. intros [= <- <-]. apply translate_error_object.
Qed.

Lemma poll_pause_sound wake p : yields sound_turn (poll_pause env reason wake p).
Proof.
  apply (yields_bind_post (fun x _ => forall e, x = Some e -> is_error_object e)).
  - destruct wake; [by intros w x w' [= <- <-]|apply checkState_error].
  - intros [e|] [w0 He]; [by apply failed_now_sound, He|]. apply yields_bind. intros w1.
    destruct (negb wake && alreadySuspended (info (core w1))); [by intros w x w' [= <- <-]|].
    destruct (nextDelayMs p (now w1) (random (env (used w1)))) as [d p']. apply yields_bind. intros m.
    by intros w x w' [= <- <-].
Qed.

Lemma reconnected_sound r :
  healthReconnected (Some r) seen (isSuspendingReason reason) = true -> yields sound (reconnected env seen r).
Proof.
  intros Hr w o w'. unfold reconnected, record_health_now, bind, update, ret. intros [= <- <-]. split; [|done].
  intros _. cbn. split_and!; [done|done|]. intros Hs. cbn in Hr. rewrite Hs in Hr.
  destruct (negb (h_resumeGeneration r =? seen)%Z); [done|]. by rewrite !andb_false_r in Hr.
Qed.

Lemma poll_attempt_sound check wake p : yields sound_turn (poll_attempt env reason seen check wake p).
Proof.
  apply (yields_bind_post (fun x _ => forall e, x = Some e -> is_error_object e)).
  { destruct check; [apply checkState_error|by intros w x w' [= <- <-]]. }
  intros [e|] [w0 He]; [by apply failed_now_sound, He|]. apply yields_bind. intros w1.
  apply (yields_bind_post (fun x _ => forall e, x = inr e -> is_error_object e)).
  { intros w x w'. unfold catch, bind, ret.
    destruct (probeHealth env false (rpcTimeoutMs p (now w1)) w) as [[r|[e| |]] w2] eqn:E; intros [= <- <-]; [done|].
    intros e' [= <-]. by eapply probeHealth_error. }
  intros [[r|]|e] [w2 Hq]; [| |apply yields_bind; intros w3; apply failed_now_sound].
  - destruct (healthReconnected (Some r) seen (isSuspendingReason reason)) eqn:Hr; [|apply poll_pause_sound].
    intros w x w'. unfold bind, ret. pose proof (reconnected_sound r Hr w) as Hs.
    destruct (reconnected env seen r w) as [[o|f] w3]; [|done]. intros [= <- <-]. by apply Hs.
  - apply poll_pause_sound.
  - unfold probeFailure. destruct (closed (core w3)); [done|by apply Hq].
Qed.

Lemma poll_turn_sound wake p : yields sound_turn (poll_turn env reason seen wake p).
Proof.
  intros w x w'. unfold poll_turn, bind at 1, get at 1. destruct (alreadyBack seen (core w)) as [o|] eqn:E.
  { intros [= <- <-]. by apply alreadyBack_sound. }
  destruct (timedOut p (now w)).
  { apply failed_now_sound. unfold reconnectFailure_timeout. by destruct (isSuspendingReason reason). }
  destruct (if wake then shouldCheckState p (now w) else (false, p)) as [check p1]. apply poll_attempt_sound.
Qed.

Definition sound_option (x : option ReconnectOutcome) (w : world) : Prop := forall o, x = Some o -> sound o w.

Lemma or_else_sound m next : yields sound_option m -> yields sound_option next -> yields sound_option (or_else m next).
Proof.
  intros Hm Hn w x w'. unfold or_else, bind. specialize (Hm w). destruct (m w) as [[[o|]|f] w1]; [|apply Hn|done].
  intros [= <- <-]. by apply Hm.
Qed.

Lemma alreadyBack_now_sound : yields sound_option (alreadyBack_now seen).
Proof. intros w x w' [= <- <-] o. apply alreadyBack_sound. Qed.

Lemma sleep_rest_sound : yields sound_turn (sleep_rest env reason).
Proof.
  apply (yields_bind_post (fun x _ => forall e, x = Some e -> is_error_object e)); [apply checkState_error|].
  intros [e|] [w0 He]; [by apply failed_now_sound, He|]. apply yields_bind. intros w1.
  destruct (negb _); [by intros w x w' [= <- <-]|]. apply yields_bind. intros m. by intros w x w' [= <- <-].
Qed.

Lemma sleep_turn_sound s : yields sound_turn (sleep_turn env reason seen s).
Proof.
  intros w x w'. unfold sleep_turn, bind at 1. pose proof (alreadyBack_now_sound w) as Hb.
  destruct (alreadyBack_now seen w) as [[[o|]|f] w1]; [|apply sleep_rest_sound|done].
  intros [= <- <-]. by apply (Hb (Some o) w1).
Qed.

Lemma within_sound {S} (turn : S -> M (option ReconnectOutcome + S)) fuel s :
  (forall s, yields sound_turn (turn s)) -> yields sound_option (within turn fuel s).
Proof.
  intros Ht. apply within_yields. intros s' w x w' E. apply (Ht s') in E. destruct x as [[o|]|]; cbn in E; [|done..].
  by intros o' [= <-].
Qed.

Lemma reconnect_turn_sound fuel ms wake s :
  yields (fun x w => match x with inl o => sound o w | inr _ => True end) (reconnect_turn env reason seen fuel ms wake s).
Proof.
  assert (yields sound_option (or_else (or_else (alreadyBack_now seen) (if wake then ret None else sleepWhileSuspended env reason seen fuel))
                          (pollHoldingTheLock env reason seen fuel ms wake))) as H.
  { apply or_else_sound; [apply or_else_sound; [apply alreadyBack_now_sound|]|].
    - destruct wake; [by intros w x w' [= <- <-] o|]. apply yields_bind. intros _. apply within_sound, sleep_turn_sound.
    - apply yields_bind. intros _. apply or_else_sound; [apply alreadyBack_now_sound|].
      apply yields_bind. intros w0. apply within_sound. intros. apply poll_turn_sound. }
  intros w x w'. unfold reconnect_turn, bind. specialize (H w). destruct (or_else _ _ w) as [[[o|]|f] w1]; [| |done].
  - intros [= <- <-]. by apply (H _ _ eq_refl).
  - by intros [= <- <-].
Qed.
End Outcome.

(** ** The poll ends *)

(** The agent counts its resumes upwards, from the moment [since] on: what other calls
    record at a moment is its generation then. *)
Record counted_since (since : nat) (env : nat -> moment) (generation : nat -> Z) : Prop := {
  counted_others : forall k r, (since <= k)%nat -> OtherHealth r ∈ others (env k) -> h_resumeGeneration r = generation k;
  counted_up : forall k, (since <= k)%nat -> (generation k <= generation (S k))%Z
}.

(** From the start. *)
Definition counted : (nat -> moment) -> (nat -> Z) -> Prop := counted_since 0.

Section Ends.
Context (env : nat -> moment) (reason : thrown) (seen : Z) (generation : nat -> Z) (since : nat).
Context (Hfair : fair env) (Hcounted : counted_since since env generation).

Definition grown (w : world) : Prop :=
  (since <= used w)%nat /\ (seen <= resumeGeneration (core w) <= generation (used w))%Z.

Definition preserves {A} (m : M A) : Prop := forall w, grown w -> grown (m w).2.

Lemma preserves_ret {A} (a : A) : preserves (ret a).
Proof. by intros w. Qed.

Lemma preserves_throw {A} e : preserves (throw e : M A).
Proof. by intros w. Qed.

Lemma preserves_set_info i : preserves (update (fun c => set_info c i)).
Proof. intros w Hw. exact Hw. Qed.

Lemma preserves_bind {A B} (m : M A) (k : A -> M B) :
  preserves m -> (forall a, preserves (k a)) -> preserves (bind m k).
Proof. intros Hm Hk w Hw. unfold bind. specialize (Hm w Hw). destruct (m w) as [[a|e] w1]; [by apply Hk|done]. Qed.

Lemma preserves_catch {A} (m : M A) (h : thrown -> M A) :
  preserves m -> (forall e, preserves (h e)) -> preserves (catch m h).
Proof. intros Hm Hk w Hw. unfold catch. specialize (Hm w Hw). destruct (m w) as [[a|[e| |]] w1]; [done|by apply Hk|done..]. Qed.

Lemma preserves_of_sum {A} (x : A + thrown) : preserves (of_sum x).
Proof. destruct x; intros w Hw; exact Hw. Qed.

Lemma foldl_invariant {A B} (f : A -> B -> A) (P : A -> Prop) l a :
  P a -> (forall a b, b ∈ l -> P a -> P (f a b)) -> P (foldl f a l).
Proof.
  revert a. induction l as [|b l IH]; intros a Ha Hf; [done|]. cbn. apply IH; [by apply Hf; [left|]|].
  intros a' b' Hb. apply Hf. by right.
Qed.

(** From a core [c], with other calls of generation [g]. *)
Definition moved (c : Core) (g : Z) (c' : Core) : Prop :=
  (notices c' = notices c /\ resumeGeneration c' = resumeGeneration c) \/
  (closed c' = true /\ (resumeGeneration c' = resumeGeneration c \/ resumeGeneration c' = g)) \/
  (resumeGeneration c' = g /\ resumeGeneration c <> g).

Lemma moved_other c g c' wall o :
  (forall r, o = OtherHealth r -> h_resumeGeneration r = g) -> moved c g c' -> moved c g (apply_other wall c' o).
Proof.
  intros Ho HP. destruct o as [r|i|g'|]; cbn [apply_other]; unfold moved in *.
  - cbn. rewrite (Ho r eq_refl). destruct HP as [[Hn Hg]|[[Hcl _]|[Hg Hne]]]; [|right; left; by auto|by auto].
    destruct (Z.eqb_spec g (resumeGeneration c')) as [E|E]; [left; split; [done|congruence]|].
    right; right. split; [done|congruence].
  - exact HP.
  - exact HP.
  - unfold close. destruct (closed c') eqn:Hcl; [by rewrite Hcl|]. cbn.
    destruct HP as [[Hn Hg]|[[Hx _]|[Hg Hne]]]; [|congruence|]; (right; left; by auto).
Qed.

(** During an await the generation stays or becomes the agent's, and a notice means
    that it changed or that the handle was closed. *)
Lemma others_moved k c :
  (since <= k)%nat -> moved c (generation k) (foldl (apply_other (wallMs (env k))) c (others (env k))).
Proof.
  intros Hk. apply foldl_invariant; [by left|]. intros c' o Hin. apply moved_other.
  intros r ->. by apply (counted_others _ _ _ Hcounted).
Qed.

Lemma await_grown race a : preserves (await env race a).
Proof.
  intros w (H0 & H1 & H2). unfold await. destruct (race && signalled w); [done|].
  pose proof (others_moved (used w) (core w) H0) as Hm. pose proof (counted_up _ _ _ Hcounted (used w) H0) as Hup.
  assert (grown {| now := 0; used := S (used w); signalled := false; trace := [];
    core := foldl (apply_other (wallMs (env (used w)))) (core w) (others (env (used w))) |}) as Hg.
  { unfold grown. cbn. destruct Hm as [[_ ->]|[[_ [-> | ->]]|[-> _]]]; lia. }
  by destruct (race && aborts (env (used w))).
Qed.

Lemma preserves_getMicrovm : preserves (getMicrovm env).
Proof. apply preserves_bind; [apply await_grown|intros; apply preserves_of_sum]. Qed.

Lemma preserves_fallible a race : preserves (fallible env a race).
Proof. apply preserves_bind; [apply await_grown|]. intros m. destruct (failure_of m); [apply preserves_throw|apply preserves_ret]. Qed.

Lemma preserves_health_call race t : preserves (health_call env race t).
Proof. apply preserves_bind; [apply await_grown|intros; apply preserves_of_sum]. Qed.

Lemma preserves_probeHealth race t : preserves (probeHealth env race t).
Proof.
  apply preserves_catch.
  - apply preserves_bind; [|intros; apply preserves_ret]. apply preserves_catch; [apply preserves_health_call|].
    intros e. destruct (isProxyForbidden e); [|apply preserves_throw].
    apply preserves_bind; [apply preserves_fallible|intros; apply preserves_health_call].
  - intros e. destruct (isNotYetReachable e); [apply preserves_ret|apply preserves_throw].
Qed.

Lemma preserves_checkState wake : preserves (checkState env reason wake).
Proof.
  apply preserves_bind; [|intros [i|f]; apply preserves_ret]. apply preserves_catch.
  - apply preserves_bind; [apply preserves_getMicrovm|]. intros i.
    apply preserves_bind; [apply preserves_set_info|intros; apply preserves_ret].
  - intros e. destruct (is_class SandboxNotFoundError e); [apply preserves_ret|].
    destruct (is_class SandboxError e); [apply preserves_ret|apply preserves_throw].
Qed.

Lemma costs_checkState wake : costs env 1 0 0 (checkState env reason wake).
Proof.
  apply (costs_bind env (fun k => proj1 (Hfair k)) 1 0 0 0 0 0); [|intros [i|f]; apply costs_ret].
  apply (costs_catch env (fun k => proj1 (Hfair k)) 1 0 0 0 0 0).
  - apply (costs_bind env (fun k => proj1 (Hfair k)) 1 0 0 0 0 0); [apply costs_getMicrovm, Hfair|]. intros i.
    apply (costs_bind env (fun k => proj1 (Hfair k)) 0 0 0 0 0 0); [apply costs_update|intros; apply costs_ret].
  - intros e. repeat apply costs_if; [apply costs_ret|apply costs_ret|apply costs_throw].
Qed.

Let Htimes : forall k, 0 <= took (env k) := fun k => proj1 (Hfair k).

(** What a turn that goes on leaves, from the world [w] where it started. *)
Record turn_on (p : poll) (w : world) (p' : poll) (w' : world) : Prop := {
  ton_poll : poll_ok p';
  ton_schedule : schedule p' = schedule p;
  ton_deadline : deadline p' = deadline p;
  ton_progress : deadline p <= now w' \/ now w + shortest (schedule p) <= now w' \/
    is_Some (alreadyBack seen (core w'));
  ton_grown : grown w';
  ton_bound : forall T, (forall k, took (env k) <= T) -> now w' <= deadline p + 6 * T;
  ton_probes : (count is_probe w' <= count is_probe w + 2)%nat
}.

(** A notice leaves something to go back with. *)
Lemma notified_back w c' :
  grown w -> moved (core w) (generation (used w)) c' ->
  notices c' <> notices (core w) -> is_Some (alreadyBack seen c').
Proof.
  intros (_ & H1 & H2) Hm Hn. unfold alreadyBack.
  destruct (Z.ltb_spec seen (resumeGeneration c')) as [H|H]; [by eexists|].
  destruct Hm as [[? _]|[[-> _]|[Hg Hne]]]; [done|by eexists|lia].
Qed.

Lemma pause_spec p p' d w w1 :
  spent env 5 2 0 w w1 -> poll_ok p -> grown w1 -> now w < deadline p ->
  0 <= d <= remainingMs p (now w1) -> (now w1 < deadline p -> shortest (schedule p) <= d \/ d == deadline p - now w1) ->
  poll_ok p' -> schedule p' = schedule p -> deadline p' = deadline p ->
  match await env false (WaitForResume d) w1 with
  | (inl _, w') => turn_on p w p' w'
  | (inr _, w') => False
  end.
Proof.
  intros [A B C D] Hp Hg Hn Hd Hprog Hp' Es Ed. pose proof (await_grown false (WaitForResume d) w1 Hg) as Hg'.
  unfold await in *. cbn [andb duration snd] in *. pose proof (Htimes (used w1)) as H0.
  pose proof (others_moved (used w1) (core w1) (proj1 Hg)) as Hm.
  set (c' := foldl (apply_other (wallMs (env (used w1)))) (core w1) (others (env (used w1)))) in *.
  split; cbn [now core]; try done; try lia.
  - destruct (Nat.eqb_spec (notices c') (notices (core w1))) as [E|E]; cbn [negb].
    + destruct (Qlt_le_dec (now w1) (deadline p)) as [Hlt|Hle]; [|left; lra].
      destruct (Hprog Hlt); [right; left; lra|left; lra].
    + right; right. by apply (notified_back w1).
  - intros T HT. specialize (B T HT). specialize (HT (used w1)). change (QN 5) with 5 in B.
    unfold remainingMs in Hd. destruct Hd as [Hd1 Hd2].
    assert (now w1 + (d + took (env (used w1))) <= deadline p + 6 * T) as Hfull.
    { destruct (Q.max_spec 0 (deadline p - now w1)) as [[Hx Ex]|[Hx Ex]]; rewrite Ex in Hd2; lra. }
    case_match; lra.
Qed.

Lemma nextDelay_bounds p now r :
  poll_ok p -> 0 <= r <= 1 ->
  let (d, p') := nextDelayMs p now r in
  0 <= d <= remainingMs p now /\ (now < deadline p -> shortest (schedule p) <= d \/ d == deadline p - now) /\
  poll_ok p' /\ schedule p' = schedule p /\ deadline p' = deadline p.
Proof.
  intros Hp Hr. pose proof (nextDelay_spec p now r Hp Hr) as Hs. unfold nextDelayMs in *. split_and!.
  - apply Q.le_max_l.
  - apply Q.max_lub; [apply Q.le_max_l|apply Q.le_min_r].
  - intros Hn. by apply Hs.
  - destruct Hp as [H1 H2 H3 H4]. split; cbn; try done. apply Q.min_glb; lra.
  - done.
  - done.
Qed.

Lemma poll_pause_spec wake p w w1 :
  spent env 4 2 0 w w1 -> poll_ok p -> grown w1 -> now w < deadline p ->
  match poll_pause env reason wake p w1 with
  | (inl (inr p'), w') => turn_on p w p' w'
  | (_, w') => spent env 5 2 0 w w'
  end.
Proof.
  intros Hsp Hp Hg Hn. unfold poll_pause.
  assert (costs env 1 0 0 (if wake then ret None else checkState env reason false)) as Hc.
  { apply costs_if; [eapply (costs_weaken env Htimes); [apply costs_ret|lia..]|apply costs_checkState]. }
  assert (preserves (if wake then ret None else checkState env reason false)) as Hpr.
  { destruct wake; [apply preserves_ret|apply preserves_checkState]. }
  unfold bind at 1. specialize (Hc w1). specialize (Hpr w1 Hg).
  destruct ((if wake then ret None else checkState env reason false) w1) as [[f|e] w2]; cbn [snd] in *;
    pose proof (spent_trans env 4 2 0 1 0 0 w w1 w2 Hsp Hc) as Hsp2; cbn [Nat.add] in Hsp2; [|done].
  destruct f as [e|]; [done|]. unfold bind at 1, get at 1.
  destruct (negb wake && alreadySuspended (info (core w2))); [done|].
  pose proof (nextDelay_bounds p (now w2) (random (env (used w2))) Hp (proj2 (Hfair _))) as Hd.
  destruct (nextDelayMs p (now w2) (random (env (used w2)))) as [d p']. destruct Hd as (H1 & H2 & H3 & H4 & H5).
  pose proof (pause_spec p p' d w w2 Hsp2 Hp Hpr Hn H1 H2 H3 H4 H5) as Hpause. unfold bind.
  by destruct (await env false (WaitForResume d) w2) as [[m|e] w3].
Qed.

Lemma poll_attempt_spec check wake p w :
  poll_ok p -> grown w -> now w < deadline p ->
  match poll_attempt env reason seen check wake p w with
  | (inl (inr p'), w') => turn_on p w p' w'
  | (_, w') => spent env 5 2 0 w w'
  end.
Proof.
  intros Hp Hg Hn. unfold poll_attempt.
  assert (costs env 1 0 0 (if check then checkState env reason true else ret None)) as Hc.
  { apply costs_if; [apply costs_checkState|eapply (costs_weaken env Htimes); [apply costs_ret|lia..]]. }
  assert (preserves (if check then checkState env reason true else ret None)) as Hpr.
  { destruct check; [apply preserves_checkState|apply preserves_ret]. }
  unfold bind at 1. specialize (Hc w). specialize (Hpr w Hg).
  destruct ((if check then checkState env reason true else ret None) w) as [[f|e] w1]; cbn [snd] in *;
    [|by eapply (spent_weaken env Htimes), Hc; lia].
  destruct f as [e|]; [by eapply (spent_weaken env Htimes), Hc; lia|]. unfold bind at 1, get at 1.
  pose proof (costs_probeHealth env Htimes false (rpcTimeoutMs p (now w1)) w1) as Hc2.
  pose proof (preserves_probeHealth false (rpcTimeoutMs p (now w1)) w1 Hpr) as Hpr2.
  unfold bind at 1, catch at 1, bind at 1.
  destruct (probeHealth env false (rpcTimeoutMs p (now w1)) w1) as [[r|[e| |]] w2]; cbn [snd] in *;
    pose proof (spent_trans env 1 0 0 3 2 0 w w1 w2 Hc Hc2) as Hsp; cbn [Nat.add] in Hsp;
    [|by eapply (spent_weaken env Htimes), Hsp; lia..].
  cbn [ret]. pose proof (poll_pause_spec wake p w w2 Hsp Hp Hpr2 Hn) as Hpause.
  destruct r as [r|]; [|exact Hpause].
  destruct (healthReconnected (Some r) seen (isSuspendingReason reason)); [|exact Hpause].
  unfold bind, reconnected, record_health_now, bind, update, ret.
  eapply (spent_weaken env Htimes) with (n := 4%nat) (p := 2%nat) (t := 0%nat); [lia..|].
  by destruct Hsp as [A B C D].
Qed.

Lemma poll_turn_spec wake p w :
  poll_ok p -> grown w ->
  match poll_turn env reason seen wake p w with
  | (inl (inr p'), w') => now w < deadline p /\ alreadyBack seen (core w) = None /\ turn_on p w p' w'
  | (_, w') => spent env 5 2 0 w w' /\ (deadline p <= now w -> now w' == now w)
  end.
Proof.
  intros Hp Hg. unfold poll_turn, bind at 1, get at 1.
  destruct (alreadyBack seen (core w)) as [o|] eqn:Hback.
  { split; [eapply (spent_weaken env Htimes), spent_refl; lia|done]. }
  destruct (timedOut p (now w)) eqn:Hto.
  { split; [eapply (spent_weaken env Htimes), spent_refl; lia|done]. }
  assert (now w < deadline p) as Hn.
  { apply Qnot_le_lt. intros H. apply timedOut_spec in H. congruence. }
  assert (let (check, p1) := if wake then shouldCheckState p (now w) else (false, p) in
    schedule p1 = schedule p /\ deadline p1 = deadline p /\ poll_ok p1) as Hc.
  { destruct wake; [|done]. pose proof (shouldCheckState_spec p (now w)) as H.
    destruct (shouldCheckState p (now w)). by destruct H as (? & ? & ?); auto. }
  destruct (if wake then shouldCheckState p (now w) else (false, p)) as [check p1]. destruct Hc as (Es & Ed & Hp1).
  pose proof (poll_attempt_spec check wake p1 w Hp1 Hg) as Ha. rewrite Ed in Ha. specialize (Ha Hn).
  destruct (poll_attempt env reason seen check wake p1 w) as [[[o|p']|e] w1]; [split; [done|lra]| |split; [done|lra]].
  split; [done|]. split; [done|]. destruct Ha as [H1 H2 H3 H4 H5 H6 H7]. rewrite Es, Ed in *. by split.
Qed.

Lemma poll_loop_ends (wake : bool) k p w :
  poll_ok p -> grown w ->
  deadline p - now w <= shortest (schedule p) * QN k \/ is_Some (alreadyBack seen (core w)) ->
  exists x w', loop (poll_turn env reason seen wake) (S k) p w = Some (x, w') /\
    (count is_probe w' <= count is_probe w + 2 * S k)%nat /\
    forall T, (forall k, took (env k) <= T) -> now w <= deadline p + 6 * T -> now w' <= deadline p + 6 * T.
Proof.
  assert (forall p w w', spent env 5 2 0 w w' -> (deadline p <= now w -> now w' == now w) ->
    forall T, (forall k, took (env k) <= T) -> now w <= deadline p + 6 * T -> now w' <= deadline p + 6 * T) as Hlast.
  { intros p0 w0 w1 [A B C D] Hd T HT Hw. specialize (B T HT). change (QN 5) with 5 in B.
    pose proof (took_bound_nonneg env Htimes T HT) as HT0. destruct (Qlt_le_dec (now w0) (deadline p0)) as [H|H]; [lra|].
    specialize (Hd H). lra. }
  revert p w. induction k as [|k IH]; intros p w Hp Hg Hk; cbn [loop]; pose proof (poll_turn_spec wake p w Hp Hg) as Ht;
    destruct (poll_turn env reason seen wake p w) as [[[o|p']|e] w1].
  1,3,4,6: destruct Ht as [Hsp Hd]; eexists _, _; (split; [done|]); split; [destruct Hsp; lia|by apply Hlast].
  - destruct Ht as (Hn & Hb & _). change (QN 0) with 0 in Hk. destruct Hk as [Hk|Hk]; [lra|].
    rewrite Hb in Hk. by destruct Hk.
  - destruct Ht as (Hn & Hb & [H1 H2 H3 H4 H5 H6 H7]). destruct Hk as [Hk|Hk]; [|rewrite Hb in Hk; by destruct Hk].
    destruct (IH p' w1 H1 H5) as (x & w' & E & Hpr & HT).
    + rewrite H2, H3. rewrite QN_S in Hk. pose proof (shortest_pos p Hp) as Hs.
      assert (0 <= shortest (schedule p) * QN k).
      { apply Qmult_le_0_compat; [lra|]. change 0 with (QN 0). apply QN_le. lia. }
      destruct H4 as [H4|[H4|H4]]; [left; lra|left; lra|by right].
    + exists x, w'. split; [exact E|]. split; [lia|]. intros T Hb' _. rewrite H3 in HT. apply (HT T Hb'). by apply H6.
Qed.
End Ends.

(** ** The budget *)

(** The count after the outcomes, and how many of them were allowed. *)
Fixpoint allowed (futile : nat) (outcomes : list ReconnectOutcome) : nat :=
  match outcomes with
  | [] => 0
  | o :: rest => let (ok, futile') := allows futile o in ((if ok then 1 else 0) + allowed futile' rest)%nat
  end.

(** A stream that is cut again and again with the agent alive is reopened three
    times, and no more until a new generation. *)
Lemma allowed_futile futile outcomes :
  Forall (fun o => generationChanged o = false) outcomes ->
  allowed futile outcomes = Nat.min (length outcomes) (MAX_FUTILE_RECONNECTS - futile).
Proof.
  intros H. revert futile. induction H as [|o rest Ho Hrest IH]; intros futile; [done|].
  cbn [allowed length]. unfold allows. rewrite Ho, IH. unfold MAX_FUTILE_RECONNECTS.
  destruct (Nat.leb_spec (S futile) 3); lia.
Qed.

(** ** The theorems *)

(** Polling for a sandbox that was cut off always ends: whatever the agent and
    the control plane answer, and whatever other calls learn meanwhile, the holder
    of the lock has an outcome or a rejection within the turns that fit in
    [reconnectTimeoutMs] (one per 375 ms, the shortest jittered pause), with at most
    two probes each, and no later than the timeout plus six of the longest awaits;
    a wait cut short by a notice never costs a turn more. *)
Theorem poll_until_back_ends env reason seen generation wake ms w :
  fair env -> counted env generation -> 0 <= ms ->
  (seen <= resumeGeneration (core w) <= generation (used w))%Z ->
  exists x w',
    loop (poll_turn env reason seen wake) (turns_within ReconnectPoll ms) (new_poll ReconnectPoll ms (now w)) w = Some (x, w') /\
    pollUntilBack env reason seen (turns_within ReconnectPoll ms) ms wake w = (x, w') /\
    (count is_probe w' <= count is_probe w + 2 * turns_within ReconnectPoll ms)%nat /\
    forall T, (forall k, took (env k) <= T) -> now w' <= now w + ms + 6 * T.
Proof.
  intros Hf Hc Hms Hg. assert (poll_ok (new_poll ReconnectPoll ms (now w))) as Hp by (apply schedules_ok; by right).
  destruct (poll_loop_ends env reason seen generation 0 Hf Hc wake
    (Z.to_nat (Qceiling (ms / shortest ReconnectPoll))) (new_poll ReconnectPoll ms (now w)) w Hp (conj (Nat.le_0_l _) Hg)) as (x & w' & E & Hpr & HT).
  - left. pose proof (turns_enough ReconnectPoll ms (shortest_pos _ Hp)) as H. cbn [deadline schedule new_poll]. lra.
  - exists x, w'. fold (turns_within ReconnectPoll ms) in E. split_and!; [exact E| |exact Hpr|].
    + unfold pollUntilBack, bind, get, within. by rewrite E.
    + intros T HTb. cbn [deadline new_poll] in HT. apply (HT T HTb).
      pose proof (took_bound_nonneg env (fun k => proj1 (Hf k)) T HTb). lra.
Qed.

(** C12. What a reconnection reports is true: on success the generation it names is
    the handle's, [generationChanged] says exactly whether it differs from the one
    the caller had seen, and a caller cut off by a suspension is told it is back only
    with a new generation; on failure the outcome carries an error. *)
Theorem reconnect_outcome_sound env reason seen fuel ms wake w o w' :
  reconnect env reason seen fuel ms wake w = (inl o, w') ->
  (resumed o = true ->
     oc_resumeGeneration o = resumeGeneration (core w') /\
     generationChanged o = negb (oc_resumeGeneration o =? seen)%Z /\
     (isSuspendingReason reason = true -> oc_resumeGeneration o <> seen)) /\
  (resumed o = false -> generationChanged o = false /\ exists e, error o = Some e /\ is_error_object e).
Proof.
  intros E. assert (sound reason seen o w') as [Hr Hf]; [|split; [|done]].
  - revert E. unfold reconnect. apply within_yields. intros s. apply reconnect_turn_sound.
  - intros H. destruct (Hr H) as (H1 & H2 & H3). split_and!; [done|done|]. intros Hs. specialize (H3 Hs).
    rewrite H2 in H3. by apply negb_true_iff, Z.eqb_neq in H3.
Qed.

(** ** Samples: a stream cut while the sandbox is suspended *)

Definition suspended_info : SandboxInfo := {| state := "SUSPENDED"; idle := None |}.
Definition phase_gate : thrown := ConnectError Unavailable (txt "suspending") None.

(** The agent answers from the fourth await on, with a new generation. *)
Definition resume_env (n : nat) : moment :=
  sample_moment (if (n <? 4)%nat then inr bad_gateway else inl (sample_health (txt "mvm-1") 8)) running_info.

Definition cut_world : world := {| now := 0; used := 0; signalled := false; trace := [];
  core := recordHealth new_core (sample_health (txt "mvm-1") 7) 0 |}.

Lemma resume_counted : counted resume_env (fun _ => 8%Z).
Proof. split; [|done]. intros k r _ H. by apply elem_of_nil in H. Qed.

Lemma poll_until_back_ends_witness :
  exists x w', pollUntilBack resume_env phase_gate 7 (turns_within ReconnectPoll 60000) 60000 true cut_world = (x, w') /\
    (count is_probe w' <= 322)%nat.
Proof.
  destruct (poll_until_back_ends resume_env phase_gate 7 (fun _ => 8%Z) true 60000 cut_world) as (x & w' & _ & E & Hc & _).
  - apply sample_fair.
  - exact resume_counted.
  - lra.
  - cbn. lia.
  - exists x, w'. split; [exact E|exact Hc].
Defined.

Lemma reconnect_outcome_sound_witness :
  exists o w', reconnect resume_env phase_gate 7 10 60000 true cut_world = (inl o, w') /\
    resumed o = true /\ oc_resumeGeneration o = 8%Z /\ oc_resumeGeneration o = resumeGeneration (core w').
Proof.
  eexists _, _. split; [vm_compute; reflexivity|]. split; [reflexivity|]. split; [reflexivity|].
  refine (proj1 (proj1 (reconnect_outcome_sound resume_env phase_gate 7 10 60000 true cut_world _ _ _) _));
    [vm_compute; reflexivity|reflexivity].
Defined.

(** A dormant caller that finds the sandbox running and then waits for the lock,
    whose holder sees the sandbox suspended meanwhile. *)
Definition dormant_env (n : nat) : moment := {|
  took := 40; wallMs := 0; random := 1 # 2; health_answer := inr bad_gateway;
  microvm_answer := inl (if (n <=? 1)%nat then running_info else suspended_info);
  failure_of := None; aborts := false;
  others := if (n =? 2)%nat then [OtherInfo suspended_info] else [];
  busy := (n =? 2)%nat; call_answer := None; lifecycle_answer := inr NotAnObject; suspend_answer := inl false;
  reopening := None; call_empty := false |}.

(** A dormant caller can wake a sandbox it knows to be suspended: it looks at
    the state before it waits for the lock and not after, so when the holder of the
    lock has just seen the sandbox suspended, the dormant caller still sends it a
    [Health] probe, which is traffic that resumes it. *)
Theorem dormant_probe_wakes :
  let (slept, w0) := sleepWhileSuspended dormant_env phase_gate 7 5 cut_world in
  let (locked, w) := within (lock_turn dormant_env) 5 tt w0 in
  slept = inl None /\ locked = inl tt /\ alreadyBack 7 (core w) = None /\
  alreadySuspended (info (core w)) = true /\
  exists x w', pollUntilBack dormant_env phase_gate 7 5 60000 false w = (x, w') /\
    trace w' = [GetMicrovm; Probe 5000] ++ trace w.
Proof.
  vm_compute. split; [reflexivity|]. split; [reflexivity|]. split; [reflexivity|]. split; [reflexivity|].
  eexists _, _. split; reflexivity.
Qed.
