(* ===== verification/Calls.v ===== *)
(** * Calls: the requests a sandbox handle makes to its agent

    [callUnaryOnce], [callUnary] and [signalledUnary], [openStream], the reading of a
    cut stream, the pause trigger of the logical deadline and the reopening of the
    deadline after it, of src/clients/typescript/src/sandbox/core.ts.  A request is an await
    [Call] whose answer the environment of Readiness.v gives; the rules decide whether
    it is sent again: never opened, rejected by the proxy, refused because the sandbox
    had timed out, or cut and reconnected. *)

From stdpp Require Import base option list strings.
From Stdlib Require Import NArith ZArith QArith Qround Lia.
From S2P Require Import Prelude Text Limits RpcErrors Readiness Reconnect.
From S2P Require Lifecycle.

Local Open Scope world_scope.

Definition set_paused (c : Core) (b : bool) : Core := {|
  info := info c; closed := closed c; resumeGeneration := resumeGeneration c; paused := b;
  lifecycle := lifecycle c; guestFacts := guestFacts c; metadata := metadata c; agentFeatures := agentFeatures c;
  notices := notices c; trigger := trigger c; deadlineFiring := deadlineFiring c;
  deadlinePauseGeneration := deadlinePauseGeneration c; reopens := reopens c |}.

Definition set_deadlineFiring (c : Core) (b : bool) : Core := {|
  info := info c; closed := closed c; resumeGeneration := resumeGeneration c; paused := paused c;
  lifecycle := lifecycle c; guestFacts := guestFacts c; metadata := metadata c; agentFeatures := agentFeatures c;
  notices := notices c; trigger := trigger c; deadlineFiring := b;
  deadlinePauseGeneration := deadlinePauseGeneration c; reopens := reopens c |}.

(** [#deadlineTrigger.arm]; [None] only cancels. *)
Definition arm (c : Core) (delayMs : option Z) : Core := {|
  info := info c; closed := closed c; resumeGeneration := resumeGeneration c; paused := paused c;
  lifecycle := lifecycle c; guestFacts := guestFacts c; metadata := metadata c; agentFeatures := agentFeatures c;
  notices := notices c; trigger := delayMs; deadlineFiring := deadlineFiring c;
  deadlinePauseGeneration := deadlinePauseGeneration c; reopens := reopens c |}.

Definition mark_deadlinePause (c : Core) (g : Z) : Core := {|
  info := info c; closed := closed c; resumeGeneration := resumeGeneration c; paused := paused c;
  lifecycle := lifecycle c; guestFacts := guestFacts c; metadata := metadata c; agentFeatures := agentFeatures c;
  notices := notices c; trigger := trigger c; deadlineFiring := deadlineFiring c;
  deadlinePauseGeneration := Some g; reopens := reopens c |}.

Definition STREAM_PROBE_TIMEOUT_MS : Z := 5000.

(** The [reason] of the caller's signal, once it is aborted; [None]: no signal. *)
Definition aborted (signal : option thrown) (w : world) : option thrown := if signalled w then signal else None.

Definition abortReasonOr (signal : option thrown) (w : world) (error : thrown) : thrown :=
  default error (aborted signal w).

Definition throwIfAborted (signal : option thrown) : M unit := fun w =>
  match aborted signal w with Some reason => throw reason w | None => ret tt w end.

Definition stillActiveAhead (l : option Lifecycle.SandboxLifecycle) (nowUnixMs : Z) : bool :=
  match l with
  | Some l =>
      match Lifecycle.phase l, Lifecycle.deadline l with
      | Lifecycle.active, Some d => (nowUnixMs <? d)%Z
      | _, _ => false
      end
  | None => false
  end.

Definition reconnectError (outcome : ReconnectOutcome) (reason : thrown) : thrown := default reason (error outcome).

Section Sandbox.
Context (env : nat -> moment).

(** ** One request *)

(** The caller's request: the answer, or how it failed. *)
Definition request : M moment := fun w =>
  (let* m := await env false (Call (call_answer (env (used w)))) in
   match call_answer m with None => ret m | Some e => throw e end) w.

Definition setTimeout (timeoutMs : Z) : M Lifecycle.LifecycleState :=
  let* m := await env false (SetTimeout timeoutMs) in of_sum (lifecycle_answer m).

Definition suspendMicrovm : M bool := let* m := await env false Suspend in of_sum (suspend_answer m).

(** What [retryUnestablished] of RpcErrors.v needs of a call: that it returns or
    throws; any other end of it passes through. *)
Definition tried {A} (call : M A) (w : world) : ((A + failure) + thrown) * world :=
  match call w with
  | (inl a, w') => (inl (inl a), w')
  | (inr (Throws e), w') => (inr e, w')
  | (inr f, w') => (inl (inr f), w')
  end.

Definition pause_for (ms : N) (w : world) : world := (await env false (Sleep (inject_Z (Z.of_N ms))) w).2.

Definition retried {A} (signal : option thrown) (call : M A) : M A := fun w =>
  match retryUnestablished (tried call) pause_for (aborted signal) w with
  | (inl r, w') => (r, w')
  | (inr e, w') => (inr (Throws e), w')
  end.

Definition callUnaryOnce {A} (retryConnect : bool) (signal : option thrown) (call : M A) : M A :=
  let attempt := if retryConnect then retried signal call else call in
  catch attempt (fun e => if isProxyForbidden e then fallible env RefreshTokens false ;; attempt else throw e).

(** ** A request with reconnection *)

Context (fuel : nat) (reconnectTimeoutMs : Q) (requestTimeoutMs : Z).

(** A cut: wait for the agent and send it again, or give up.  [again] is what is sent. *)
Definition after_cut {A} (failure : thrown) (seenGeneration : Z) (again otherwise : M A) : M A :=
  let* w := get in
  if negb (closed (core w)) && isReconnectable failure then
    let* outcome := reconnect env failure seenGeneration fuel reconnectTimeoutMs true in
    if resumed outcome then again else throw (reconnectError outcome failure)
  else otherwise.

(** [#callUnary], over the rule that reopens the deadline. *)
Definition callUnary_with {A} (reopened : thrown -> nat -> M bool) (call : M A) : M A :=
  let* w := get in
  catch (callUnaryOnce true None call) (fun e =>
    let* again := reopened e (reopens (core w)) in
    if again then callUnaryOnce true None call
    else after_cut e (resumeGeneration (core w)) (retried None call) (throw e)).

(** [#callUnary(call, false)]. *)
Definition callUnary_no_reopen {A} (call : M A) : M A := callUnary_with (fun _ _ => ret false) call.

(** ** The logical deadline *)

(** What follows the [Health] of a reopening. *)
Definition reopen_rest (pausedGeneration : Z) : M bool :=
  let* w := get in
  if (resumeGeneration (core w) <=? pausedGeneration)%Z then ret false else
  match Lifecycle.autoResumeReopenMs (lifecycle (core w))
          {| Lifecycle.pausedGeneration := Some pausedGeneration; Lifecycle.generation := resumeGeneration (core w);
             Lifecycle.resume_nowUnixMs := wallMs (env (used w)) |} with
  | None => update (fun c => consumeDeadlinePause c pausedGeneration) ;; ret false
  | Some timeoutMs =>
      let* state := callUnary_no_reopen (setTimeout timeoutMs) in
      let* w := get in
      update (fun c => recordLifecycle c (Lifecycle.lifecycleFromProto (Some state)) (wallMs (env (used w)))) ;;
      update (fun c => consumeDeadlinePause c pausedGeneration) ;;
      update (fun c => set_reopens c (S (reopens c))) ;;
      ret true
  end.

Definition reopenAfterDeadlinePause (pausedGeneration : Z) : M bool :=
  catch
    (let* response := probeHealth env false (Z.min (Qceiling (maxRpcTimeoutMs ReadinessPoll)) requestTimeoutMs) in
     match response with Some r => record_health_now env r | None => ret tt end ;;
     reopen_rest pausedGeneration)
    (fun _ => ret false).

(** A reopening under way is shared: the environment says so, and how it ends. *)
Definition reopenedAfterDeadlinePause (error : thrown) (seenReopens : nat) : M bool :=
  let* w := get in
  if closed (core w) || negb (isSandboxTimeout error) then ret false
  else if (seenReopens <? reopens (core w))%nat then ret true
  else match reopening (env (used w)) with
  | Some result => await env false AwaitReopen ;; ret result
  | None =>
      match deadlinePauseGeneration (core w) with
      | None => ret false
      | Some pausedGeneration => reopenAfterDeadlinePause pausedGeneration
      end
  end.

Definition callUnary {A} (call : M A) : M A := callUnary_with reopenedAfterDeadlinePause call.

Definition signalledUnary {A} (call : M A) (signal : option thrown) (translate : thrown -> thrown) : M A :=
  throwIfAborted signal ;;
  catch (callUnary call) (fun e => let* w := get in throw (abortReasonOr signal w (translate e))).

Definition translatedUnary {A} (call : M A) (filesystem : bool) (signal : option thrown) : M A :=
  signalledUnary call signal (translateRpcError filesystem).

(** [#suspendForDeadline]: the mark is the generation before the suspension. *)
Definition suspendForDeadline : M unit :=
  let* w := get in
  let generation := resumeGeneration (core w) in
  let* suspended := suspendMicrovm in
  if suspended then update (fun c => mark_deadlinePause c generation) else ret tt.

Definition is_expired (l : option Lifecycle.SandboxLifecycle) : bool :=
  match l with
  | Some l => match Lifecycle.phase l with Lifecycle.expired => true | _ => false end
  | None => false
  end.

Definition suspendIfExpired : M unit :=
  let* w := get in
  if closed (core w) then ret tt else
  let* i := getMicrovm env in
  update (fun c => set_info c i) ;;
  if negb (bool_decide (state i = "RUNNING")) then ret tt else
  let* r := callUnaryOnce true None (health_call env false (Qceiling (maxRpcTimeoutMs ReadinessPoll))) in
  record_health_now env r ;;
  let* w := get in
  if is_expired (lifecycle (core w)) then suspendForDeadline else ret tt.

(** The timer of the trigger has fired: it is no longer armed. *)
Definition onDeadline : M unit :=
  update (fun c => set_deadlineFiring (arm c None) true) ;;
  catch suspendIfExpired (fun _ => ret tt) ;;
  update (fun c => set_deadlineFiring c false) ;;
  let* w := get in
  if negb (closed (core w)) && stillActiveAhead (lifecycle (core w)) (wallMs (env (used w)))
  then update (fun c => arm c (Lifecycle.pauseTriggerDelayMs (lifecycle c) (wallMs (env (used w)))))
  else ret tt.

Definition suspendMarkingPaused : M bool :=
  let* w := get in
  let wasPaused := paused (core w) in
  update (fun c => set_paused c true) ;;
  let* suspended := catch suspendMicrovm (fun e => update (fun c => set_paused c wasPaused) ;; throw e) in
  (if suspended then ret tt else update (fun c => set_paused c wasPaused)) ;;
  ret suspended.

(** ** Streams *)

(** [true]: there is a first message. *)
Definition firstMessage (allowEmpty : bool) : M bool :=
  let* m := request in
  if negb (call_empty m) then ret true
  else if allowEmpty then ret false
  else throw (OwnError SandboxError None None false None).

(** The same steps as [callUnaryOnce]. *)
Definition firstMessageReminting (allowEmpty : bool) (signal : option thrown) : M bool :=
  catch (retried signal (firstMessage allowEmpty)) (fun e =>
    if isProxyForbidden e then fallible env RefreshTokens false ;; retried signal (firstMessage allowEmpty) else throw e).

Definition healthAnswers : M bool :=
  catch (let* r := probeHealth env false STREAM_PROBE_TIMEOUT_MS in ret (bool_decide (is_Some r))) (fun _ => ret false).

Definition stateAfterReset : M (option string) :=
  catch (let* i := getMicrovm env in update (fun c => set_info c i) ;; ret (Some (state i))) (fun e =>
    if is_class SandboxNotFoundError e then ret (Some "TERMINATED"%string)
    else if is_class SandboxError e then ret None
    else throw e).

Definition streamFailure (filesystem : bool) (error : thrown) : M thrown :=
  if negb (isStreamReset error) then ret (translateRpcError filesystem error)
  else
    let* healthOk := healthAnswers in
    let* state := if healthOk then ret None else stateAfterReset in
    ret (streamFailureError error healthOk state).

Record OpenStreamOptions := {
  reconnects : bool;
  allowEmpty : bool;
  filesystem : bool;
  translate : option (thrown -> thrown);
  os_signal : option thrown
}.

Definition openFailure (error : thrown) (options : OpenStreamOptions) : M thrown :=
  match translate options with
  | Some t => if negb (isStreamReset error) then ret (t error) else streamFailure (filesystem options) error
  | None => streamFailure (filesystem options) error
  end.

Definition throw_openFailure {A} (error : thrown) (options : OpenStreamOptions) : M A :=
  let* e := openFailure error options in throw e.

(** [#openStream]. *)
Definition openStream_body (options : OpenStreamOptions) : M bool :=
  let* w := get in
  let again := catch (retried (os_signal options) (firstMessage (allowEmpty options)))
                     (fun e => throw_openFailure e options) in
  catch (firstMessageReminting (allowEmpty options) (os_signal options)) (fun failure =>
    let* reopened := reopenedAfterDeadlinePause failure (reopens (core w)) in
    if reopened then again
    else if reconnects options
    then after_cut failure (resumeGeneration (core w)) again (throw_openFailure failure options)
    else throw_openFailure failure options).

Definition openStream (options : OpenStreamOptions) : M bool :=
  throwIfAborted (os_signal options) ;;
  catch (openStream_body options) (fun e => let* w := get in throw (abortReasonOr (os_signal options) w e)).
End Sandbox.

(** ** What an operation leaves as it was *)

Section Leaves.
Context (R : relation world) `{!PreOrder R}.

(** The world after [m] is related to the one before, however [m] ends. *)
Definition leaves {A} (m : M A) : Prop := forall w, R w (m w).2.

Lemma leaves_ret {A} (a : A) : leaves (ret a).
Proof. by intros w. Qed.

Lemma leaves_throw {A} e : leaves (throw e : M A).
Proof. by intros w. Qed.

Lemma leaves_get : leaves get.
Proof. by intros w. Qed.

Lemma leaves_of_sum {A} (x : A + thrown) : leaves (of_sum x).
Proof. by destruct x; intros w. Qed.

Lemma leaves_bind {A B} (m : M A) (k : A -> M B) : leaves m -> (forall a, leaves (k a)) -> leaves (bind m k).
Proof.
  intros Hm Hk w. unfold bind. specialize (Hm w). destruct (m w) as [[a|e] w1]; cbn in *; [|done].
  etrans; [exact Hm|apply Hk].
Qed.

Lemma leaves_catch {A} (m : M A) h : leaves m -> (forall e, leaves (h e)) -> leaves (catch m h).
Proof.
  intros Hm Hh w. unfold catch. specialize (Hm w). destruct (m w) as [[a|[e| |]] w1]; cbn in *; [done| |done..].
  etrans; [exact Hm|apply Hh].
Qed.

Lemma leaves_within {A S} (turn : S -> M (A + S)) fuel s : (forall s, leaves (turn s)) -> leaves (within turn fuel s).
Proof.
  intros Ht w. unfold within. enough (forall r, loop turn fuel s w = Some r -> R w r.2) as H.
  { destruct (loop turn fuel s w) as [r|]; [by apply H|done]. }
  revert s w. induction fuel as [|fuel IH]; intros s w r; cbn [loop]; [done|].
  pose proof (Ht s w) as Hs. destruct (turn s w) as [[[a|s']|e] w1]; cbn in Hs; [by intros [= <-]| |by intros [= <-]].
  intros E. etrans; [exact Hs|by eapply IH].
Qed.

Context (env : nat -> moment).

Lemma leaves_retried {A} (call : M A) signal :
  leaves call -> (forall q, leaves (await env false (Sleep q))) -> leaves (retried env signal call).
Proof.
  intros Hc Hs w. unfold retried, retryUnestablished.
  enough (R w (retry_loop (tried call) (pause_for env) (aborted signal) CONNECT_RETRY_DELAYS_MS w).2) as H
    by by destruct (retry_loop _ _ _ _ _) as [[r|e] w'].
  assert (forall w, R w (tried call w).2) as Ht.
  { intros w0. specialize (Hc w0). unfold tried. by destruct (call w0) as [[a|[e| |]] w1]. }
  generalize CONNECT_RETRY_DELAYS_MS. intros delays. revert w. induction delays as [|d delays IH]; intros w; cbn [retry_loop]; [done|].
  specialize (Ht w). destruct (tried call w) as [[a|e] w1]; [done|]. cbn in Ht. destruct (negb _ || _); [done|].
  assert (R w (pause_for env d w1)) as Hp by (etrans; [exact Ht|apply Hs]).
  destruct (aborted signal (pause_for env d w1)); [done|]. etrans; [exact Hp|apply IH].
Qed.
End Leaves.

Create HintDb leaves.
#[export] Hint Resolve leaves_ret leaves_throw leaves_get leaves_of_sum : leaves.

(** Follows the structure of an operation; the hints know the ones it calls. *)
Ltac follow :=
  repeat first
  [ solve [auto with leaves]
  | apply leaves_bind; [exact _| |intros]
  | apply leaves_catch; [exact _| |intros]
  | apply leaves_within; [exact _|intros]
  | match goal with
    | |- leaves _ (if ?b then _ else _) => destruct b
    | |- leaves _ (match ?x with _ => _ end) => destruct x
    | |- leaves _ (let (_, _) := ?x in _) => destruct x
    end ].

(** What a reconnection does: it asks, mints tokens and waits. *)
Definition chatter (a : action) : bool :=
  match a with
  | Probe _ | RefreshTokens | GetMicrovm | Sleep _ | WaitForResume _ | AwaitLock => true
  | _ => false
  end.

Section Chatter.
Context (env : nat -> moment) (R : relation world) `{!PreOrder R}.

Record harmless : Prop := {
  on_chatter : forall a race, chatter a = true -> leaves R (await env race a);
  on_set_info : forall i, leaves R (update (fun c => set_info c i));
  on_health : forall r, leaves R (record_health_now env r)
}.

Context (H : harmless).

Lemma leaves_await a race : Is_true (chatter a) -> leaves R (await env race a).
Proof. intros Ha. by apply on_chatter, Is_true_true. Qed.
#[local] Hint Extern 0 (leaves _ (await _ _ _)) => apply leaves_await; exact I : leaves.
#[local] Hint Resolve on_set_info on_health : leaves.

Lemma leaves_getMicrovm : leaves R (getMicrovm env).
Proof. unfold getMicrovm. follow. Qed.
Lemma leaves_refresh race : leaves R (fallible env RefreshTokens race).
Proof. unfold fallible. follow. Qed.
Lemma leaves_health_call race t : leaves R (health_call env race t).
Proof. unfold health_call. follow. Qed.
#[local] Hint Resolve leaves_getMicrovm leaves_refresh leaves_health_call : leaves.

Lemma leaves_probeHealth race t : leaves R (probeHealth env race t).
Proof. unfold probeHealth, callHealthOnce. follow. Qed.

Lemma leaves_checkState reason wake : leaves R (checkState env reason wake).
Proof. unfold checkState. follow. Qed.

Lemma leaves_failed_now {A} e : leaves R (@failed_now A e).
Proof. unfold failed_now. follow. Qed.
#[local] Hint Resolve leaves_probeHealth leaves_checkState leaves_failed_now : leaves.

Lemma leaves_poll_turn reason seen wake p : leaves R (poll_turn env reason seen wake p).
Proof. unfold poll_turn, poll_attempt, poll_pause, reconnected. follow. Qed.

Lemma leaves_lock_turn s : leaves R (lock_turn env s).
Proof.
  intros w. unfold lock_turn. destruct (busy (env (used w))); [|done].
  apply (leaves_bind R (await env false AwaitLock) (fun _ => ret (inr tt))); follow.
Qed.
#[local] Hint Resolve leaves_poll_turn leaves_lock_turn : leaves.

Lemma leaves_reconnect reason seen fuel ms wake : leaves R (reconnect env reason seen fuel ms wake).
Proof.
  unfold reconnect, reconnect_turn, or_else, alreadyBack_now, sleepWhileSuspended, sleep_turn, sleep_rest, alreadyBack_now,
    pollHoldingTheLock, or_else, pollUntilBack. follow.
Qed.

Lemma leaves_callUnaryOnce {A} (call : M A) (retry : bool) signal : leaves R call -> leaves R (callUnaryOnce env retry signal call).
Proof.
  intros Hc. assert (leaves R (retried env signal call)) by (apply leaves_retried; [exact _|done|intros; follow]).
  unfold callUnaryOnce. destruct retry; follow.
Qed.

Lemma leaves_callUnary_no_reopen fuel ms {A} (call : M A) : leaves R call -> leaves R (callUnary_no_reopen env fuel ms call).
Proof.
  intros Hc. unfold callUnary_no_reopen, callUnary_with, after_cut.
  pose proof (leaves_callUnaryOnce call true None Hc). pose proof leaves_reconnect.
  assert (leaves R (retried env None call)) by (apply leaves_retried; [exact _|done|intros; follow]). follow.
Qed.

Lemma leaves_streamFailure fs e : leaves R (streamFailure env fs e).
Proof. unfold streamFailure, healthAnswers, stateAfterReset. follow. Qed.
End Chatter.

(** The count of some actions is the same. *)
Definition same (f : action -> bool) : relation world := fun w w' => count f w' = count f w.

#[export] Instance same_preorder f : PreOrder (same f).
Proof. split; [by intros w|]. intros w1 w2 w3 H1 H2. unfold same in *. congruence. Qed.
#[export] Hint Resolve same_preorder : leaves.

Lemma same_await env f race a : f a = false -> leaves (same f) (await env race a).
Proof.
  intros Ha w. unfold await. destruct (race && signalled w); [done|].
  destruct (race && aborts (env (used w))); unfold same, count; cbn; by rewrite Ha.
Qed.

(** [f] counts nothing that a reconnection does. *)
Definition ignores_chatter (f : action -> bool) : Prop := forall a, chatter a = true -> f a = false.

Lemma same_pause env f ms w : ignores_chatter f -> count f (pause_for env ms w) = count f w.
Proof. intros Hf. apply (same_await env f false (Sleep (inject_Z (Z.of_N ms)))). by apply Hf. Qed.

Lemma same_update f g : leaves (same f) (update g).
Proof. by intros w. Qed.

Lemma same_harmless env f : ignores_chatter f -> harmless env (same f).
Proof. intros Hf. split; [intros a race Ha; by apply same_await, Hf|intros i; apply same_update|intros r w; apply same_update]. Qed.

(** ** How often a request is delivered *)

(** Whether a request with this answer may have run: it was sent, and neither the
    proxy nor a gate of the agent refused it. *)
Definition may_have_run (failure : option thrown) : bool :=
  match failure with
  | None => true
  | Some e => negb (isConnectionNotEstablished e || isProxyForbidden e || isSandboxTimeout e || isPhaseGate e || isKernelGate e)
  end.

Definition is_call (a : action) : bool := match a with Call _ => true | _ => false end.
Definition is_run (a : action) : bool := match a with Call failure => may_have_run failure | _ => false end.

(** A request that may have run, and whose answer was lost to a cut. *)
Definition is_cut (a : action) : bool :=
  match a with Call (Some e) => may_have_run (Some e) && isStreamReset e | _ => false end.

Definition run_result {A} (r : A + failure) : bool :=
  match r with inl _ => true | inr (Throws e) => may_have_run (Some e) | inr _ => false end.
Definition cut_result {A} (r : A + failure) : bool :=
  match r with inr (Throws e) => may_have_run (Some e) && isStreamReset e | _ => false end.

Definition b2n (b : bool) : nat := if b then 1 else 0.

(** At most [n] requests, of which one may have run: then it is the one that gave
    the result.  A success did run. *)
Record delivers_at_most (n : nat) {A} (w : world) (r : A + failure) (w' : world) : Prop := {
  delivers_calls : (count is_call w' <= count is_call w + n)%nat;
  delivers_once :
    (count is_run w' = count is_run w /\ count is_cut w' = count is_cut w /\ (forall a, r <> inl a)) \/
    (count is_run w' = S (count is_run w) /\ count is_cut w' = (count is_cut w + b2n (cut_result r))%nat /\ run_result r = true)
}.

Definition delivers (n : nat) {A} (m : M A) : Prop := forall w, delivers_at_most n w (m w).1 (m w).2.

Lemma chatter_call : ignores_chatter is_call.
Proof. by intros []. Qed.
Lemma chatter_run : ignores_chatter is_run.
Proof. by intros []. Qed.
Lemma chatter_cut : ignores_chatter is_cut.
Proof. by intros []. Qed.

(** No request at all in between. *)
Definition no_request {A} (m : M A) : Prop := leaves (same is_call) m /\ leaves (same is_run) m /\ leaves (same is_cut) m.

Section Delivery.
Context (env : nat -> moment).

Lemma request_delivers : delivers 1 (request env).
Proof.
  intros w. unfold request, bind, await. cbn [andb].
  destruct (call_answer (env (used w))) as [e|]; cbn [fst snd throw ret]; split; unfold count; cbn; try lia.
  destruct (may_have_run (Some e)) eqn:E; cbn in E; rewrite ?E; cbn; [right|by left].
  split_and!; [done|by destruct (isStreamReset e); cbn; lia|done].
Qed.

Lemma firstMessage_delivers allowEmpty : delivers 1 (firstMessage env allowEmpty).
Proof.
  intros w. unfold firstMessage, bind. pose proof (request_delivers w) as [Hc Ho].
  destruct (request env w) as [[m|e] w1]; cbn [fst snd] in *.
  2: { split; [done|]. destruct Ho as [(H1 & H2 & _)|Ho]; [by left|by right]. }
  destruct Ho as [(_ & _ & H)|(H1 & H2 & _)]; [by destruct (H m)|].
  destruct (call_empty m); cbn [negb]; [destruct allowEmpty|]; (split; [done|]; by right).
Qed.

Lemma retry_delivers {A} (call : M A) signal delays w :
  delivers 1 call ->
  let (x, w') := retry_loop (tried call) (pause_for env) (aborted signal) delays w in
  delivers_at_most (S (length delays)) w (match x with inl r => r | inr e => inr (Throws e) end) w'.
Proof.
  intros Hc. revert w. induction delays as [|d delays IH]; intros w; cbn [retry_loop length].
  - unfold tried. specialize (Hc w). by destruct (call w) as [[a|[e| |]] w1].
  - unfold tried at 1. pose proof (Hc w) as [Hn Ho]. clear Hc.
    destruct (call w) as [[a|[e| |]] w1]; cbn [fst snd] in *; [split; [lia|exact Ho]| |split; [lia|exact Ho]..].
    destruct (isConnectionNotEstablished e) eqn:He; cbn [negb orb]; [|split; [lia|exact Ho]].
    assert (may_have_run (Some e) = false) as Hrun by (cbn; by rewrite He).
    destruct Ho as [(H1 & H2 & _)|(_ & _ & H)]; [|cbn in H, Hrun; congruence].
    case_bool_decide; [split; [lia|left; by rewrite H1, H2]|].
    pose proof (same_pause env is_call d w1 chatter_call) as S1. pose proof (same_pause env is_run d w1 chatter_run) as S2.
    pose proof (same_pause env is_cut d w1 chatter_cut) as S3.
    destruct (aborted signal (pause_for env d w1)) as [reason|]; [split; [lia|left; split_and!; [lia|lia|done]]|].
    specialize (IH (pause_for env d w1)). destruct (retry_loop _ _ _ delays (pause_for env d w1)) as [x w2].
    destruct IH as [I1 I2]. split; [lia|]. by rewrite S2, S3, H1, H2 in I2.
Qed.

Lemma retried_delivers {A} (call : M A) signal : delivers 1 call -> delivers 6 (retried env signal call).
Proof.
  intros Hc w. unfold retried, retryUnestablished. pose proof (retry_delivers call signal CONNECT_RETRY_DELAYS_MS w Hc) as H.
  by destruct (retry_loop _ _ _ _ _) as [[r|e] w'].
Qed.

(** Nothing ran, then [m]. *)
Lemma delivers_after n n' {A} w w1 (r : A + failure) w' :
  (count is_call w1 <= count is_call w + n)%nat -> count is_run w1 = count is_run w -> count is_cut w1 = count is_cut w ->
  delivers_at_most n' w1 r w' -> delivers_at_most (n + n') w r w'.
Proof. intros H1 H2 H3 [Hn Ho]. rewrite H2, H3 in Ho. split; [lia|done]. Qed.

Lemma delivers_nothing n {A} w w' (r : A + failure) :
  (count is_call w' <= count is_call w + n)%nat -> count is_run w' = count is_run w -> count is_cut w' = count is_cut w ->
  (forall a, r <> inl a) -> delivers_at_most n w r w'.
Proof. intros H1 H2 H3 H4. split; [done|]. by left. Qed.

(** An attempt, and once more after the proxy refused the token. *)
Lemma reminting_delivers {A} (attempt : M A) :
  delivers 6 attempt ->
  delivers 12 (catch attempt (fun e => if isProxyForbidden e then fallible env RefreshTokens false ;; attempt else throw e)).
Proof.
  intros Hc w. unfold catch. pose proof (Hc w) as [Hn Ho].
  destruct (attempt w) as [[a|[e| |]] w1]; cbn [fst snd] in *; [split; [lia|exact Ho]| |split; [lia|exact Ho]..].
  destruct (isProxyForbidden e) eqn:He; [|split; [cbn; lia|exact Ho]].
  assert (may_have_run (Some e) = false) as Hrun by (cbn; by rewrite He, orb_true_r).
  destruct Ho as [(H1 & H2 & _)|(_ & _ & H)]; [|cbn in H, Hrun; congruence].
  pose proof (leaves_refresh env _ (same_harmless env is_call chatter_call) false w1) as S1.
  pose proof (leaves_refresh env _ (same_harmless env is_run chatter_run) false w1) as S2.
  pose proof (leaves_refresh env _ (same_harmless env is_cut chatter_cut) false w1) as S3. unfold same in S1, S2, S3.
  unfold bind. destruct (fallible env RefreshTokens false w1) as [[[]|f] w2]; cbn [fst snd] in *.
  - specialize (Hc w2). apply (delivers_after 6 6 w w2); [lia..|exact Hc].
  - apply delivers_nothing; [lia..|done].
Qed.

Lemma callUnaryOnce_delivers {A} (call : M A) signal : delivers 1 call -> delivers 12 (callUnaryOnce env true signal call).
Proof. intros Hc. by apply reminting_delivers, retried_delivers. Qed.

Lemma no_request_reconnect reason seen fuel ms wake : no_request (reconnect env reason seen fuel ms wake).
Proof. split_and!; (apply leaves_reconnect; [exact _|apply same_harmless; by intros []]). Qed.

Context (fuel : nat) (reconnectTimeoutMs : Q) (requestTimeoutMs : Z).

Lemma same_reopened f e seen :
  ignores_chatter f -> (forall t, f (SetTimeout t) = false) -> f AwaitReopen = false ->
  leaves (same f) (reopenedAfterDeadlinePause env fuel reconnectTimeoutMs requestTimeoutMs e seen).
Proof.
  intros Hf H1 H2. pose proof (same_harmless env f Hf) as Hh.
  assert (forall t, leaves (same f) (callUnary_no_reopen env fuel reconnectTimeoutMs (setTimeout env t))).
  { intros t. apply leaves_callUnary_no_reopen; [exact _|done|]. unfold setTimeout. pose proof (same_await env f false _ (H1 t)). follow. }
  pose proof (leaves_probeHealth env _ Hh). pose proof (on_health _ _ Hh). pose proof (same_await env f false _ H2).
  pose proof (same_update f). unfold reopenedAfterDeadlinePause, reopenAfterDeadlinePause, reopen_rest. follow.
Qed.

Lemma no_request_reopened e seen : no_request (reopenedAfterDeadlinePause env fuel reconnectTimeoutMs requestTimeoutMs e seen).
Proof. split_and!; apply same_reopened; done || by intros []. Qed.

Lemma reopened_on_timeout e seen w w' :
  reopenedAfterDeadlinePause env fuel reconnectTimeoutMs requestTimeoutMs e seen w = (inl true, w') ->
  isSandboxTimeout e = true.
Proof.
  unfold reopenedAfterDeadlinePause, bind at 1, get at 1. destruct (isSandboxTimeout e); [done|]. by rewrite orb_true_r.
Qed.

(** At most [n] requests, [runs] of which may have run, and a success did. *)
Record sends_at_most (n runs : nat) {A} (w : world) (r : A + failure) (w' : world) : Prop := {
  sends_calls : (count is_call w' <= count is_call w + n)%nat;
  sends_runs : (count is_run w' <= count is_run w + runs)%nat;
  sends_cuts : (count is_run w' + count is_cut w <= count is_run w + 1 + count is_cut w')%nat;
  sends_success : forall a, r = inl a -> (count is_run w < count is_run w')%nat
}.

Definition sends (n runs : nat) {A} (m : M A) : Prop := forall w, sends_at_most n runs w (m w).1 (m w).2.

Lemma delivers_sends n {A} w (r : A + failure) w' : delivers_at_most n w r w' -> sends_at_most n 1 w r w'.
Proof.
  intros [H1 [(H2 & H3 & H4)|(H2 & H3 & H4)]]; split; try lia. intros a ->. by destruct (H4 a).
Qed.

Lemma sends_weaken n runs n' runs' {A} w (r : A + failure) w' :
  (n <= n')%nat -> (runs <= runs')%nat -> sends_at_most n runs w r w' -> sends_at_most n' runs' w r w'.
Proof. intros Hn Hr [H1 H2 H3 H4]. split; [lia..|exact H4]. Qed.

(** Nothing more is sent, nothing is answered. *)
Lemma sends_stop n n' {A B} w (r : A + failure) w1 (r' : B + failure) w' :
  delivers_at_most n w r w1 -> count is_call w' = count is_call w1 -> count is_run w' = count is_run w1 ->
  count is_cut w' = count is_cut w1 -> (forall b, r' <> inl b) -> sends_at_most (n + n') 1 w r' w'.
Proof.
  intros Hd E1 E2 E3 Hb. apply delivers_sends in Hd as [H1 H2 H3 H4]. split; [lia..|]. intros b ->. by destruct (Hb b).
Qed.

(** A second round, after a first one that did not run or was cut. *)
Lemma sends_again n n' {A B} w e w1 w2 (r : B + failure) w' :
  delivers_at_most (A := A) n w (inr (Throws e)) w1 ->
  may_have_run (Some e) = false \/ isStreamReset e = true ->
  count is_call w2 = count is_call w1 -> count is_run w2 = count is_run w1 -> count is_cut w2 = count is_cut w1 ->
  sends_at_most n' 1 w2 r w' -> sends_at_most (n + n') 2 w r w'.
Proof.
  intros [H1 Ho] He E1 E2 E3 [S1 S2 S3 S4].
  assert ((count is_run w1 + count is_cut w = count is_run w + count is_cut w1)%nat /\
    (count is_run w <= count is_run w1 <= S (count is_run w))%nat) as [Hb Hr].
  { destruct Ho as [(H2 & H3 & _)|(H2 & H3 & H4)]; [lia|].
    cbn [cut_result run_result] in H3, H4. rewrite H4 in H3. destruct He as [He|He]; [congruence|].
    rewrite He in H3. cbn in H3. lia. }
  split; [lia..|]. intros a Ha. specialize (S4 a Ha). lia.
Qed.

Lemma reconnectable_run e : isReconnectable e = true -> may_have_run (Some e) = false \/ isStreamReset e = true.
Proof.
  unfold isReconnectable. intros H. apply orb_true_iff in H as [H|H]; [by right|left]. cbn. by rewrite H, !orb_true_r.
Qed.

(** The rest of a call that was cut. *)
Lemma after_cut_sends n n' {A B} w e w1 w2 seen (again otherwise : M B) :
  delivers_at_most (A := A) n w (inr (Throws e)) w1 ->
  count is_call w2 = count is_call w1 -> count is_run w2 = count is_run w1 -> count is_cut w2 = count is_cut w1 ->
  sends n' 1 again -> no_request otherwise -> (forall w b, (otherwise w).1 <> inl b) ->
  let (r, w') := after_cut env fuel reconnectTimeoutMs e seen again otherwise w2 in
  sends_at_most (n + n') 2 w r w'.
Proof.
  intros Hd E1 E2 E3 Hagain (O1 & O2 & O3) Ho. unfold after_cut, bind at 1, get at 1.
  destruct (negb (closed (core w2)) && isReconnectable e) eqn:Hc.
  - apply andb_true_iff in Hc as [_ Hc]. apply reconnectable_run in Hc.
    destruct (no_request_reconnect e seen fuel reconnectTimeoutMs true) as (R1 & R2 & R3).
    specialize (R1 w2). specialize (R2 w2). specialize (R3 w2). unfold same in R1, R2, R3. unfold bind at 1.
    destruct (reconnect env e seen fuel reconnectTimeoutMs true w2) as [[o|f] w3]; cbn [snd] in *.
    + destruct (resumed o).
      * specialize (Hagain w3). destruct (again w3) as [r w']. eapply sends_again; [exact Hd|exact Hc|..|exact Hagain]; congruence.
      * apply (sends_weaken (n + n') 1); [lia..|]. eapply sends_stop; [exact Hd|cbn; congruence..|done].
    + apply (sends_weaken (n + n') 1); [lia..|]. eapply sends_stop; [exact Hd|congruence..|done].
  - specialize (O1 w2). specialize (O2 w2). specialize (O3 w2). unfold same in O1, O2, O3. specialize (Ho w2).
    destruct (otherwise w2) as [r w3]; cbn [fst snd] in *.
    apply (sends_weaken (n + n') 1); [lia..|]. eapply sends_stop; [exact Hd|congruence..|exact Ho].
Qed.

(** A step of an operation, for a property of its result and of the world it leaves. *)
Lemma bind_step {A B} (P : B + failure -> world -> Prop) (m : M A) (k : A -> M B) w :
  match m w with (inl a, w1) => P (k a w1).1 (k a w1).2 | (inr f, w1) => P (inr f) w1 end ->
  P (bind m k w).1 (bind m k w).2.
Proof. unfold bind. by destruct (m w) as [[a|f] w1]. Qed.

Lemma catch_step {A} (P : A + failure -> world -> Prop) (m : M A) h w :
  match m w with (inr (Throws e), w1) => P (h e w1).1 (h e w1).2 | (r, w1) => P r w1 end ->
  P (catch m h w).1 (catch m h w).2.
Proof. unfold catch. by destruct (m w) as [[a|[e| |]] w1]. Qed.

Lemma callUnary_sends {A} (call : M A) :
  delivers 1 call -> sends 24 2 (callUnary env fuel reconnectTimeoutMs requestTimeoutMs call).
Proof.
  intros Hc w. unfold callUnary, callUnary_with. apply (bind_step (sends_at_most 24 2 w)). cbn [get].
  apply (catch_step (sends_at_most 24 2 w)).
  pose proof (callUnaryOnce_delivers call None Hc) as Honce. pose proof (Honce w) as Hd.
  destruct (callUnaryOnce env true None call w) as [[a|[e| |]] w1]; cbn [fst snd] in *;
    [eapply (sends_weaken 12 1); [lia..|by apply delivers_sends]| |eapply (sends_weaken 12 1); [lia..|by apply delivers_sends]..].
  destruct (no_request_reopened e (reopens (core w))) as (R1 & R2 & R3).
  specialize (R1 w1). specialize (R2 w1). specialize (R3 w1). unfold same in R1, R2, R3.
  pose proof (reopened_on_timeout e (reopens (core w)) w1) as Ht. apply (bind_step (sends_at_most 24 2 w)).
  destruct (reopenedAfterDeadlinePause _ _ _ _ e _ w1) as [[[]|f] w2]; cbn [fst snd] in *.
  - specialize (Ht _ eq_refl). assert (may_have_run (Some e) = false) as Hrun by (cbn; by rewrite Ht, !orb_true_r).
    apply (sends_again (A := A) 12 12 w e w1 w2); [done|by left|done..|]. apply delivers_sends, Honce.
  - pose proof (after_cut_sends 12 6 w e w1 w2 (resumeGeneration (core w)) (retried env None call) (throw e) Hd R1 R2 R3) as H.
    destruct (after_cut _ _ _ _ _ _ _ w2) as [r w']. apply (sends_weaken 18 2); [lia..|]. apply H; [|done..].
    intros w0. by apply delivers_sends, retried_delivers.
  - apply (sends_weaken (12 + 12) 1); [lia..|]. eapply sends_stop; [exact Hd|done..].
Qed.

(** What does not answer, and sends nothing. *)
Definition only_throws {A} (m : M A) : Prop := no_request m /\ forall w a, (m w).1 <> inl a.

Lemma only_throws_bind {A B} (m : M A) (k : A -> M B) : no_request m -> (forall a, only_throws (k a)) -> only_throws (bind m k).
Proof.
  intros (M1 & M2 & M3) Hk. split.
  - split_and!; (apply leaves_bind; [exact _|done|]); intros a; by destruct (Hk a) as [(? & ? & ?) _].
  - intros w b. unfold bind. destruct (m w) as [[a|f] w1]; [apply Hk|done].
Qed.

Lemma only_throws_throw {A} e : only_throws (throw e : M A).
Proof. split; [|done]. split_and!; apply leaves_throw, _. Qed.

Lemma sends_catch n runs {A} (m : M A) h : sends n runs m -> (forall e, only_throws (h e)) -> sends n runs (catch m h).
Proof.
  intros Hm Hh w. unfold catch. specialize (Hm w). destruct (m w) as [[a|[e| |]] w1]; cbn [fst snd] in *; [done| |done..].
  destruct (Hh e) as [(H1 & H2 & H3) Ht]. specialize (H1 w1). specialize (H2 w1). specialize (H3 w1). unfold same in H1, H2, H3.
  destruct Hm as [S1 S2 S3 S4]. split; [lia..|]. intros a Ha. by destruct (Ht w1 a).
Qed.

Lemma openFailure_throws {A} e options : only_throws (throw_openFailure env e options : M A).
Proof.
  apply only_throws_bind; [|intros; apply only_throws_throw]. unfold openFailure.
  split_and!; destruct (translate options); [destruct (negb _)| |destruct (negb _)| |destruct (negb _)|];
    first [apply leaves_ret, _|apply leaves_streamFailure; [exact _|apply same_harmless; by intros []]].
Qed.

Lemma openStream_body_sends options :
  sends 18 (if reconnects options then 2 else 1) (openStream_body env fuel reconnectTimeoutMs requestTimeoutMs options).
Proof.
  intros w. set (runs := if reconnects options then 2%nat else 1%nat).
  assert (1 <= runs)%nat as Hruns by (unfold runs; destruct (reconnects options); lia).
  unfold openStream_body. apply (bind_step (sends_at_most 18 runs w)). cbn [get].
  apply (catch_step (sends_at_most 18 runs w)).
  set (first := firstMessage env (allowEmpty options)).
  pose proof (firstMessage_delivers (allowEmpty options)) as Hfirst.
  pose proof (reminting_delivers _ (retried_delivers first (os_signal options) Hfirst) w) as Hd.
  change (catch _ _ w) with (firstMessageReminting env (allowEmpty options) (os_signal options) w) in Hd.
  assert (sends 6 1 (catch (retried env (os_signal options) first) (fun e => throw_openFailure env e options))) as Hagain.
  { apply sends_catch; [|intros; apply openFailure_throws]. intros w0. by apply delivers_sends, retried_delivers. }
  destruct (firstMessageReminting env (allowEmpty options) (os_signal options) w) as [[a|[e| |]] w1]; cbn [fst snd] in *;
    [apply (sends_weaken 12 1); [lia|lia|by apply delivers_sends]| |
     apply (sends_weaken 12 1); [lia|lia|by apply delivers_sends]..].
  destruct (no_request_reopened e (reopens (core w))) as (R1 & R2 & R3).
  specialize (R1 w1). specialize (R2 w1). specialize (R3 w1). unfold same in R1, R2, R3.
  pose proof (reopened_on_timeout e (reopens (core w)) w1) as Ht. apply (bind_step (sends_at_most 18 runs w)).
  destruct (reopenedAfterDeadlinePause _ _ _ _ e _ w1) as [[[]|f] w2]; cbn [fst snd] in *.
  - specialize (Ht _ eq_refl). assert (may_have_run (Some e) = false) as Hrun by (cbn; by rewrite Ht, !orb_true_r).
    apply (sends_weaken 18 1); [lia|lia|].
    destruct Hd as [D1 [(D2 & D3 & _)|(_ & _ & D2)]]; [|cbn in D2, Hrun; congruence].
    specialize (Hagain w2). destruct Hagain as [S1 S2 S3 S4]. split; [lia..|]. intros a Ha. specialize (S4 a Ha). lia.
  - destruct (openFailure_throws (A := bool) e options) as [(O1 & O2 & O3) O4]. unfold runs. destruct (reconnects options).
    + pose proof (after_cut_sends 12 6 w e w1 w2 (resumeGeneration (core w)) _ (throw_openFailure env e options) Hd R1 R2 R3 Hagain) as H.
      destruct (after_cut _ _ _ _ _ _ _ w2) as [r w']. by apply H.
    + specialize (O1 w2). specialize (O2 w2). specialize (O3 w2). unfold same in O1, O2, O3. specialize (O4 w2).
      destruct (throw_openFailure env e options w2) as [r w']; cbn [fst snd] in *.
      apply (sends_stop 12 6 w _ w1 _ _ Hd); [congruence..|done].
  - apply (sends_weaken (12 + 6) 1); [lia|lia|]. eapply sends_stop; [exact Hd|done..].
Qed.

Lemma throwIfAborted_sends n runs {A} signal (m : M A) : sends n runs m -> sends n runs (throwIfAborted signal ;; m).
Proof.
  intros Hm w. unfold bind, throwIfAborted. destruct (aborted signal w); [|apply Hm]. split; cbn; [lia..|done].
Qed.

Lemma abort_only_throws {A} signal (g : thrown -> thrown) e :
  only_throws (let* w := get in throw (abortReasonOr signal w (g e)) : M A).
Proof. apply only_throws_bind; [split_and!; apply leaves_get, _|]. intros w. apply only_throws_throw. Qed.
End Delivery.

(** ** The theorems *)

(** C13. A unary call never runs more than twice in the sandbox: whatever the network,
    the agent and the control plane answer, at most twenty-four requests leave, at
    most two may have run, and a second one only where the answer of the first was
    lost to a cut; a call that returns did run, and an aborted signal sends none. *)
Theorem unary_runs_at_most_twice env fuel reconnectTimeoutMs requestTimeoutMs signal translate w r w' :
  signalledUnary env fuel reconnectTimeoutMs requestTimeoutMs (request env) signal translate w = (r, w') ->
  (count is_call w' <= count is_call w + 24)%nat /\
  (count is_run w' <= count is_run w + 2)%nat /\
  (count is_run w' - count is_run w <= 1 + (count is_cut w' - count is_cut w))%nat /\
  (forall a, r = inl a -> (count is_run w < count is_run w')%nat) /\
  (is_Some (aborted signal w) -> w' = w).
Proof.
  intros E. assert (sends 24 2 (signalledUnary env fuel reconnectTimeoutMs requestTimeoutMs (request env) signal translate)) as H.
  { apply throwIfAborted_sends, sends_catch; [apply callUnary_sends, request_delivers|intros; apply abort_only_throws]. }
  specialize (H w). rewrite E in H. destruct H as [H1 H2 H3 H4]. cbn [fst snd] in *. split_and!; [done|done|lia|done|].
  intros [reason Ha]. unfold signalledUnary, bind, throwIfAborted in E. rewrite Ha in E. by injection E.
Qed.

(** C14. Opening a stream that must not run twice ([reconnect: false], as [Execute])
    runs it at most once, and one that may be opened again at most twice, the second
    time only after a cut; at most eighteen requests leave, an opened stream did run,
    and an aborted signal sends none. *)
Theorem stream_runs_at_most_once env fuel reconnectTimeoutMs requestTimeoutMs options w r w' :
  openStream env fuel reconnectTimeoutMs requestTimeoutMs options w = (r, w') ->
  (count is_call w' <= count is_call w + 18)%nat /\
  (count is_run w' <= count is_run w + (if reconnects options then 2 else 1))%nat /\
  (count is_run w' - count is_run w <= 1 + (count is_cut w' - count is_cut w))%nat /\
  (forall a, r = inl a -> (count is_run w < count is_run w')%nat) /\
  (is_Some (aborted (os_signal options) w) -> w' = w).
Proof.
  intros E. assert (sends 18 (if reconnects options then 2 else 1) (openStream env fuel reconnectTimeoutMs requestTimeoutMs options)) as H.
  { apply throwIfAborted_sends, sends_catch; [apply openStream_body_sends|]. intros e. apply (abort_only_throws (os_signal options) (fun e => e)). }
  specialize (H w). rewrite E in H. destruct H as [H1 H2 H3 H4]. cbn [fst snd] in *. split_and!; [done|done|lia|done|].
  intros [reason Ha]. unfold openStream, bind, throwIfAborted in E. rewrite Ha in E. by injection E.
Qed.

(** ** The pause trigger *)

(** Whatever the other calls on the handle do, [I] goes on holding. *)
Definition stable (I : Core -> Prop) : Prop := forall wall c o, I c -> I (apply_other wall c o).

Definition keeps (I : Core -> Prop) : relation world := fun w w' => I (core w) -> I (core w').

#[export] Instance keeps_preorder I : PreOrder (keeps I).
Proof. split; [by intros w Hw|]. intros w1 w2 w3 H1 H2 H. by apply H2, H1. Qed.
#[export] Hint Resolve keeps_preorder : leaves.

Lemma keeps_await env I race a : stable I -> leaves (keeps I) (await env race a).
Proof.
  intros HI w Hw. unfold await. destruct (race && signalled w); [done|].
  assert (I (foldl (apply_other (wallMs (env (used w)))) (core w) (others (env (used w))))).
  { apply foldl_invariant; [done|]. intros c o _. apply HI. }
  by destruct (race && aborts (env (used w))).
Qed.

Lemma keeps_harmless env I : stable I -> harmless env (keeps I).
Proof.
  intros HI. split; [intros; by apply keeps_await| |].
  - intros i w. exact (HI 0%Z (core w) (OtherInfo i)).
  - intros r w. exact (HI _ (core w) (OtherHealth r)).
Qed.

(** Returns or throws. *)
Definition settled {A} (r : A + failure) : Prop := match r with inl _ | inr (Throws _) => True | _ => False end.

Definition settles {A} (m : M A) : Prop := forall w, settled (m w).1.

Lemma settles_bind {A B} (m : M A) (k : A -> M B) : settles m -> (forall a, settles (k a)) -> settles (bind m k).
Proof. intros Hm Hk w. unfold bind. specialize (Hm w). destruct (m w) as [[a|e] w1]; [apply Hk|done]. Qed.

Lemma settles_catch {A} (m : M A) h : settles m -> (forall e, settles (h e)) -> settles (catch m h).
Proof. intros Hm Hk w. unfold catch. specialize (Hm w). destruct (m w) as [[a|[e| |]] w1]; [done|apply Hk|done..]. Qed.

Lemma settles_ret {A} (a : A) : settles (ret a).
Proof. intros w. exact I. Qed.
Lemma settles_throw {A} e : settles (throw e : M A).
Proof. intros w. exact I. Qed.
Lemma settles_get : settles get.
Proof. intros w. exact I. Qed.
Lemma settles_update g : settles (update g).
Proof. intros w. exact I. Qed.
Lemma settles_of_sum {A} (x : A + thrown) : settles (of_sum x).
Proof. destruct x; intros w; exact I. Qed.
Lemma settles_await env a : settles (await env false a).
Proof. intros w. exact I. Qed.

Create HintDb settles.
#[export] Hint Resolve settles_ret settles_throw settles_get settles_update settles_of_sum settles_await : settles.

Ltac settle :=
  repeat first
  [ solve [auto with settles]
  | apply settles_bind; [|intros]
  | apply settles_catch; [|intros]
  | match goal with
    | |- settles (if ?b then _ else _) => destruct b
    | |- settles (match ?x with _ => _ end) => destruct x
    end ].

Lemma settles_retried env {A} (call : M A) signal : settles call -> settles (retried env signal call).
Proof.
  intros Hc w. unfold retried, retryUnestablished. generalize CONNECT_RETRY_DELAYS_MS as delays. intros delays. revert w.
  assert (forall w, match (tried call w).1 with inl (inr (AbortedBySignal | OutOfFuel)) => False | _ => True end) as Ht.
  { intros w. specialize (Hc w). unfold tried. by destruct (call w) as [[a|[e| |]] w1]. }
  induction delays as [|d delays IH]; intros w; cbn [retry_loop].
  - specialize (Ht w). by destruct (tried call w) as [[[a|[e| |]]|e] w1].
  - specialize (Ht w). destruct (tried call w) as [[[a|[e| |]]|e] w1]; [done..|]. destruct (negb _ || _); [done|].
    destruct (aborted signal (pause_for env d w1)); [done|apply IH].
Qed.

Lemma settles_callUnaryOnce env {A} (call : M A) (retry : bool) signal : settles call -> settles (callUnaryOnce env retry signal call).
Proof.
  intros Hc. pose proof (settles_retried env call signal Hc). unfold callUnaryOnce, fallible. destruct retry; settle.
Qed.

Lemma retried_yields env {A} (P : A -> world -> Prop) (call : M A) signal : yields P call -> yields P (retried env signal call).
Proof.
  intros Hc w a w'. unfold retried, retryUnestablished. generalize CONNECT_RETRY_DELAYS_MS as delays. intros delays. revert w.
  assert (forall w a w', tried call w = (inl (inl a), w') -> P a w') as Ht.
  { intros w b w1. unfold tried. destruct (call w) as [[b'|[e| |]] w2] eqn:E; intros [= <- <-]. by eapply Hc. }
  induction delays as [|d delays IH]; intros w; cbn [retry_loop].
  - destruct (tried call w) as [[r|e] w1] eqn:E; [|done]. intros [= -> ->]. by eapply Ht.
  - destruct (tried call w) as [[r|e] w1] eqn:E; [intros [= -> ->]; by eapply Ht|]. destruct (negb _ || _); [done|].
    destruct (aborted signal (pause_for env d w1)); [done|apply IH].
Qed.

Lemma callUnaryOnce_yields env {A} (P : A -> world -> Prop) (call : M A) (retry : bool) signal :
  yields P call -> yields P (callUnaryOnce env retry signal call).
Proof.
  intros Hc. assert (yields P (if retry then retried env signal call else call)) as Ha
    by (destruct retry; [by apply retried_yields|done]).
  intros w a w'. unfold callUnaryOnce, catch. specialize (Ha w) as Hw.
  destruct ((if retry then retried env signal call else call) w) as [[b|[e| |]] w1]; [by apply Hw| |done..].
  destruct (isProxyForbidden e); [|done]. apply yields_bind. intros _. exact Ha.
Qed.

(** The answer of a [Health] is the one of the last await. *)
Lemma health_call_yields env race t :
  yields (fun r w => exists k, used w = S k /\ health_answer (env k) = inl r) (health_call env race t).
Proof.
  intros w r w'. unfold health_call, bind, await. destruct (race && signalled w); [done|].
  destruct (race && aborts (env (used w))); [done|].
  destruct (health_answer (env (used w))) as [h|e] eqn:E; intros [= <- <-]. by exists (used w).
Qed.

Definition is_suspend (a : action) : bool := match a with Suspend => true | _ => false end.

Lemma ignores_suspend : ignores_chatter is_suspend.
Proof. by intros []. Qed.

(** A suspension for the deadline, decided from the answer of the await just before it. *)
Definition suspended_for_deadline (env : nat -> moment) (w w' : world) : Prop :=
  count is_suspend w' = S (count is_suspend w) /\
  exists k h, used w' = S (S k) /\ health_answer (env k) = inl h /\
    is_expired (Lifecycle.lifecycleFromProto (h_lifecycle h)) = true /\
    (suspend_answer (env (S k)) = inl true -> deadlinePauseGeneration (core w') = Some (h_resumeGeneration h)).

Lemma getMicrovm_at env w :
  (getMicrovm env w).1 = match microvm_answer (env (used w)) with inl i => inl i | inr e => inr (Throws e) end.
Proof. unfold getMicrovm, bind, await. cbn [andb]. by destruct (microvm_answer (env (used w))). Qed.

Lemma suspendForDeadline_spec env h k w :
  used w = S k -> resumeGeneration (core w) = h_resumeGeneration h -> health_answer (env k) = inl h ->
  is_expired (Lifecycle.lifecycleFromProto (h_lifecycle h)) = true ->
  suspended_for_deadline env w (suspendForDeadline env w).2.
Proof.
  intros Hk Hg Ha He. unfold suspendForDeadline, suspendMicrovm, bind, get, await. cbn [andb].
  rewrite Hk, Hg. destruct (suspend_answer (env (S k))) as [[]|e] eqn:Es; (split; [done|]); exists k, h;
    (split_and!; [by rewrite <- Hk|done|done|by rewrite Es]).
Qed.

Lemma suspendIfExpired_spec env w :
  let (r, w') := suspendIfExpired env w in
  (closed (core w) = true -> w' = w) /\
  (count is_probe w' <> count is_probe w -> exists i, microvm_answer (env (used w)) = inl i /\ state i = "RUNNING"%string) /\
  (count is_suspend w' = count is_suspend w \/ suspended_for_deadline env w w').
Proof.
  unfold suspendIfExpired, bind at 1, get at 1. destruct (closed (core w)); [by split_and!; [| |left]|].
  unfold bind at 1. pose proof (getMicrovm_at env w) as Hm.
  pose proof (leaves_getMicrovm env _ (same_harmless env is_suspend ignores_suspend) w) as S1.
  assert (leaves (same is_probe) (getMicrovm env)) as P0
    by (apply leaves_bind; [exact _|by apply same_await|intros; apply leaves_of_sum, _]).
  pose proof (P0 w) as P1.
  destruct (getMicrovm env w) as [[i|e] w1]; cbn [fst snd] in *; [|split_and!; [done|by intros Hne; destruct (Hne P1)|by left]].
  assert (microvm_answer (env (used w)) = inl i) as Hi by (destruct (microvm_answer (env (used w))); by simplify_eq).
  unfold bind at 1, update at 1. destruct (bool_decide (state i = "RUNNING"%string)) eqn:Hrun; cbn [negb];
    [apply bool_decide_eq_true in Hrun|split_and!; [done|by intros Hne; destruct (Hne P1)|by left]].
  set (w2 := {| now := now w1 |}). change (same is_suspend w w2) in S1. unfold bind at 1.
  pose proof (leaves_callUnaryOnce env _ (same_harmless env is_suspend ignores_suspend) _ true None
    (leaves_health_call env _ (same_harmless env is_suspend ignores_suspend) false (Qceiling (maxRpcTimeoutMs ReadinessPoll))) w2) as S2.
  pose proof (callUnaryOnce_yields env _ _ true None (health_call_yields env false (Qceiling (maxRpcTimeoutMs ReadinessPoll))) w2) as Hy.
  destruct (callUnaryOnce _ _ _ _ w2) as [[h|e] w3]; cbn [fst snd] in *; unfold same in *;
    [|split_and!; [done|by exists i|left; congruence]].
  destruct (Hy _ _ eq_refl) as (k & Hk & Ha). unfold record_health_now, update at 1, bind, get.
  set (w4 := {| now := now w3 |}). assert (count is_suspend w4 = count is_suspend w) as S4
    by (transitivity (count is_suspend w3); [done|congruence]).
  destruct (is_expired _) eqn:He; [|split_and!; [done|by exists i|by left]].
  pose proof (suspendForDeadline_spec env h k w4 Hk eq_refl Ha He) as Hs. destruct (suspendForDeadline env w4) as [r w5].
  split_and!; [done|by exists i|right]. destruct Hs as [Hc Hx]. split; [|exact Hx]. cbn [snd] in Hc. congruence.
Qed.

Lemma settles_suspendIfExpired env : settles (suspendIfExpired env).
Proof.
  assert (settles (health_call env false (Qceiling (maxRpcTimeoutMs ReadinessPoll)))) as Hh by (unfold health_call; settle).
  pose proof (settles_callUnaryOnce env _ true None Hh). unfold suspendIfExpired, getMicrovm, suspendForDeadline, suspendMicrovm.
  assert (forall r, settles (record_health_now env r)) by (intros r w; exact I). settle.
Qed.

(** While the trigger runs nothing arms it. *)
Definition firing (c : Core) : Prop := deadlineFiring c = true /\ trigger c = None.

Lemma firing_stable : stable firing.
Proof.
  intros wall c [r|i|g|] [H1 H2]; unfold firing; cbn; rewrite ?H1, ?H2, ?orb_true_r; [done..|].
  unfold close. by destruct (closed c).
Qed.

Lemma firing_suspendIfExpired env : leaves (keeps firing) (suspendIfExpired env).
Proof.
  pose proof (keeps_harmless env firing firing_stable) as Hh. pose proof (leaves_getMicrovm env _ Hh).
  pose proof (leaves_callUnaryOnce env _ Hh _ true None
    (leaves_health_call env _ Hh false (Qceiling (maxRpcTimeoutMs ReadinessPoll)))).
  pose proof (on_health _ _ Hh). pose proof (on_set_info _ _ Hh). pose proof (keeps_await env firing false Suspend firing_stable).
  assert (forall g, leaves (keeps firing) (update (fun c => mark_deadlinePause c g))) by (intros g w Hw; exact Hw).
  unfold suspendIfExpired, suspendForDeadline, suspendMicrovm. follow.
Qed.

(** C16. The pause trigger of the logical deadline is safe: it never throws, and is
    armed again exactly if the handle is open, the recorded deadline lies ahead and the
    sandbox pauses at it (else there is no delay to arm it with);
    on a closed handle it asks nothing; it probes [Health], which would wake the
    sandbox, only after [get-microvm] said RUNNING; it suspends at most once, right
    after a [Health] that said the deadline had expired, and a suspension that was
    accepted leaves the mark of the generation of that answer. *)
Theorem on_deadline_safe env w r w' :
  onDeadline env w = (r, w') ->
  r = inl tt /\ deadlineFiring (core w') = false /\
  trigger (core w') =
    (if negb (closed (core w')) && stillActiveAhead (lifecycle (core w')) (wallMs (env (used w')))
     then Lifecycle.pauseTriggerDelayMs (lifecycle (core w')) (wallMs (env (used w'))) else None) /\
  (closed (core w) = true -> trace w' = trace w) /\
  (count is_probe w' <> count is_probe w -> exists i, microvm_answer (env (used w)) = inl i /\ state i = "RUNNING"%string) /\
  (count is_suspend w' = count is_suspend w \/ suspended_for_deadline env w w').
Proof.
  unfold onDeadline. unfold bind at 1, update at 1. set (w0 := {| now := now w |}). intros E.
  pose proof (suspendIfExpired_spec env w0) as Hs. pose proof (settles_suspendIfExpired env w0) as Ht.
  pose proof (firing_suspendIfExpired env w0 (conj eq_refl eq_refl)) as [_ Hf].
  unfold bind at 1, catch in E. destruct (suspendIfExpired env w0) as [[[]|[e| |]] w1]; cbn [fst snd] in *; [| |done..];
    destruct Hs as (H1 & H2 & H3); unfold ret, bind, update, get in E; cbn [core closed lifecycle set_deadlineFiring used] in E;
    destruct (negb (closed (core w1)) && stillActiveAhead (lifecycle (core w1)) (wallMs (env (used w1)))) eqn:Ha;
    injection E as <- <-; cbn [core closed lifecycle set_deadlineFiring arm used trigger deadlineFiring]; rewrite Ha;
    (split_and!; [done|done|done || exact Hf|by intros Hc; rewrite (H1 Hc)|exact H2|exact H3]).
Qed.

(** ** Reopening the deadline *)

Definition is_setTimeout (a : action) : bool := match a with SetTimeout _ => true | _ => false end.
Definition is_short (a : action) : bool := match a with SetTimeout t => (t <? Lifecycle.MIN_SET_TIMEOUT_MS)%Z | _ => false end.

(** A reopening of another call that succeeds does reopen. *)
Definition reopenings_happen (env : nat -> moment) : Prop :=
  forall k, reopening (env k) = Some true -> exists g, OtherReopened g ∈ others (env k).

Lemma reopens_stable n : stable (fun c => (n <= reopens c)%nat).
Proof. intros wall c [r|i|g|] H; cbn; [exact H|exact H|lia|]. unfold close. by destruct (closed c). Qed.

Lemma reopens_others n wall c l g : OtherReopened g ∈ l -> (n <= reopens c)%nat -> (n < reopens (foldl (apply_other wall) c l))%nat.
Proof.
  intros Hin. revert c. induction l as [|o l IH]; intros c Hn; [by apply elem_of_nil in Hin|]. cbn.
  apply elem_of_cons in Hin as [<-|Hin]; [|by apply (IH Hin), (reopens_stable n)].
  apply (foldl_invariant _ (fun c => (S n <= reopens c)%nat)); [cbn; lia|]. intros c' b _. apply (reopens_stable (S n)).
Qed.

Lemma autoResumeReopenMs_long l p t : Lifecycle.autoResumeReopenMs l p = Some t -> (t <? Lifecycle.MIN_SET_TIMEOUT_MS)%Z = false.
Proof. unfold Lifecycle.autoResumeReopenMs. repeat case_match; intros [= <-]; try done. Qed.

Section Reopen.
Context (env : nat -> moment) (fuel : nat) (reconnectTimeoutMs : Q) (requestTimeoutMs : Z).

Lemma same_short_reopen_rest g : leaves (same is_short) (reopen_rest env fuel reconnectTimeoutMs g).
Proof.
  assert (ignores_chatter is_short) as Hi by by intros [].
  unfold reopen_rest. apply leaves_bind; [exact _|apply leaves_get, _|]. intros w. destruct (_ <=? g)%Z; [apply leaves_ret, _|].
  pose proof (same_update is_short). destruct (Lifecycle.autoResumeReopenMs _ _) as [t|] eqn:E; [|follow].
  apply autoResumeReopenMs_long in E. pose proof (same_await env is_short false (SetTimeout t) E).
  assert (leaves (same is_short) (callUnary_no_reopen env fuel reconnectTimeoutMs (setTimeout env t))).
  { apply leaves_callUnary_no_reopen; [exact _|by apply same_harmless|]. unfold setTimeout. follow. }
  follow.
Qed.

Lemma keeps_reopen_rest n g : leaves (keeps (fun c => n <= reopens c)%nat) (reopen_rest env fuel reconnectTimeoutMs g).
Proof.
  pose proof (keeps_harmless env _ (reopens_stable n)) as Hh. unfold reopen_rest.
  assert (forall t, leaves (keeps (fun c => n <= reopens c)%nat) (callUnary_no_reopen env fuel reconnectTimeoutMs (setTimeout env t))).
  { intros t. apply leaves_callUnary_no_reopen; [exact _|done|].
    pose proof (keeps_await env _ false (SetTimeout t) (reopens_stable n)). unfold setTimeout. follow. }
  assert (forall f, (forall c, reopens (f c) = reopens c \/ reopens (f c) = S (reopens c)) ->
    leaves (keeps (fun c => n <= reopens c)%nat) (update f)) as Hu.
  { intros f Hf w Hw. cbn. destruct (Hf (core w)) as [-> | ->]; lia. }
  follow; (apply Hu; intros c; by (left + right)).
Qed.

(** A reopening that succeeds counts, and its mark is spent. *)
Lemma reopen_rest_true n g w w' :
  (n <= reopens (core w))%nat -> reopen_rest env fuel reconnectTimeoutMs g w = (inl true, w') ->
  (n < reopens (core w'))%nat /\ deadlinePauseGeneration (core w') <> Some g.
Proof.
  intros Hn. unfold reopen_rest, bind at 1, get at 1. destruct (_ <=? g)%Z; [done|].
  destruct (Lifecycle.autoResumeReopenMs _ _) as [t|]; [|done]. unfold bind at 1.
  assert (leaves (keeps (fun c => n <= reopens c)%nat) (callUnary_no_reopen env fuel reconnectTimeoutMs (setTimeout env t))) as Hk.
  { apply leaves_callUnary_no_reopen; [exact _|apply keeps_harmless, reopens_stable|].
    pose proof (keeps_await env _ false (SetTimeout t) (reopens_stable n)). unfold setTimeout. follow. }
  specialize (Hk w Hn). destruct (callUnary_no_reopen _ _ _ _ w) as [[s|f] w1]; [|done]. cbn [snd] in Hk.
  unfold bind, update, get, ret. intros [= <-]. cbn. split; [lia|]. by case_bool_decide.
Qed.

Lemma reopenAfter_spec n g w :
  (n <= reopens (core w))%nat ->
  let (r, w') := reopenAfterDeadlinePause env fuel reconnectTimeoutMs requestTimeoutMs g w in
  (forall e, r <> inr (Throws e)) /\ count is_short w' = count is_short w /\
  (r = inl true -> (n < reopens (core w'))%nat /\ deadlinePauseGeneration (core w') <> Some g).
Proof.
  intros Hn. unfold reopenAfterDeadlinePause. set (t := Z.min _ _). unfold catch.
  assert (ignores_chatter is_short) as Hi by by intros [].
  pose proof (leaves_probeHealth env _ (same_harmless env is_short Hi) false t w) as S1.
  pose proof (leaves_probeHealth env _ (keeps_harmless env _ (reopens_stable n)) false t w Hn) as K1. unfold bind at 1 2.
  destruct (probeHealth env false t w) as [[x|[e| |]] w1]; cbn [snd] in *; [|by split_and!..].
  set (record := match x with Some r => record_health_now env r | None => ret tt end).
  assert (count is_short (record w1).2 = count is_short w1 /\ (n <= reopens (core (record w1).2))%nat /\ (record w1).1 = inl tt)
    as (S2 & K2 & E2) by (by destruct x).
  destruct (record w1) as [r2 w2]. cbn [fst snd] in *. subst r2.
  pose proof (same_short_reopen_rest g w2) as S3. pose proof (reopen_rest_true n g w2) as T3. unfold same in *.
  destruct (reopen_rest env fuel reconnectTimeoutMs g w2) as [[b|[e| |]] w3]; cbn [fst snd] in *;
    (split_and!; [done|congruence|]); [|done..]. intros [= ->]. by apply T3.
Qed.
End Reopen.

(** Reopening the deadline after a pause of this client: it never throws; it says
    [true] only to a call that failed with [sandbox_timeout] on an open handle, and
    only if the deadline was reopened since that call began, by whichever call did
    it; a [SetTimeout] leaves only from a call that saw no reopening, found none
    under way and held a mark, which a success spends, and none is shorter than the
    agent accepts. *)
Theorem reopen_once env fuel reconnectTimeoutMs requestTimeoutMs error seenReopens w r w' :
  reopenings_happen env -> (seenReopens <= reopens (core w))%nat ->
  reopenedAfterDeadlinePause env fuel reconnectTimeoutMs requestTimeoutMs error seenReopens w = (r, w') ->
  (forall e, r <> inr (Throws e)) /\
  (r = inl true -> isSandboxTimeout error = true /\ closed (core w) = false /\ (seenReopens < reopens (core w'))%nat) /\
  (count is_setTimeout w' <> count is_setTimeout w ->
     isSandboxTimeout error = true /\ closed (core w) = false /\ reopens (core w) = seenReopens /\
     reopening (env (used w)) = None /\
     exists g, deadlinePauseGeneration (core w) = Some g /\ (r = inl true -> deadlinePauseGeneration (core w') <> Some g)) /\
  count is_short w' = count is_short w.
Proof.
  intros He Hn. unfold reopenedAfterDeadlinePause, bind at 1, get at 1.
  destruct (closed (core w)) eqn:Hc; [by intros [= <- <-]|]. destruct (isSandboxTimeout error) eqn:Ht; [|by intros [= <- <-]].
  cbn [negb orb]. destruct (Nat.ltb_spec seenReopens (reopens (core w))) as [Hlt|Hge]; [by intros [= <- <-]|].
  destruct (reopening (env (used w))) as [b|] eqn:Hr.
  - unfold bind, await, ret. cbn [andb]. intros [= <- <-]. split_and!; [done| |by unfold count; cbn|done].
    intros [= ->]. destruct (He _ Hr) as [g Hg]. split_and!; [done|done|]. cbn. by eapply reopens_others.
  - destruct (deadlinePauseGeneration (core w)) as [g|] eqn:Hg; [|by intros [= <- <-]]. intros E.
    pose proof (reopenAfter_spec env fuel reconnectTimeoutMs requestTimeoutMs seenReopens g w Hn) as H. rewrite E in H.
    destruct H as (H1 & H2 & H3). split_and!; [done| | |done].
    + intros Hb. destruct (H3 Hb). done.
    + intros _. split_and!; [done|done|lia|done|]. exists g. split; [done|]. intros Hb. by destruct (H3 Hb).
Qed.

(** ** Samples *)

(** A moment whose request fails so, and whose suspension is accepted. *)
Definition answering (failure : option thrown) (m : moment) : moment := {|
  took := took m; wallMs := wallMs m; random := random m; health_answer := health_answer m;
  microvm_answer := microvm_answer m; failure_of := failure_of m; aborts := aborts m; others := others m;
  busy := busy m; call_answer := failure; lifecycle_answer := lifecycle_answer m; suspend_answer := inl true;
  reopening := reopening m; call_empty := call_empty m |}.

(** The first request is cut; the agent is back at once, with a new generation. *)
Definition cut_env (n : nat) : moment :=
  answering (if (n =? 0)%nat then Some bad_gateway else None)
    (sample_moment (inl (sample_health (txt "mvm-1") 8)) running_info).

Lemma unary_runs_at_most_twice_witness :
  exists m w', signalledUnary cut_env 10 60000 30000 (request cut_env) None (translateRpcError false) cut_world = (inl m, w') /\
    count is_run w' = 2%nat /\ count is_cut w' = 1%nat /\ (count is_run w' <= count is_run cut_world + 2)%nat.
Proof.
  eexists _, _. split; [vm_compute; reflexivity|]. split; [reflexivity|]. split; [reflexivity|].
  refine (proj1 (proj2 (unary_runs_at_most_twice cut_env 10 60000 30000 None (translateRpcError false) cut_world _ _ _))).
  vm_compute; reflexivity.
Defined.

(** [Execute]: the same cut is an error. *)
Definition execute_options : OpenStreamOptions := {|
  reconnects := false; allowEmpty := false; filesystem := false; translate := None; os_signal := None |}.

Lemma stream_runs_at_most_once_witness :
  exists e w', openStream cut_env 10 60000 30000 execute_options cut_world = (inr (Throws e), w') /\
    count is_run w' = 1%nat /\ (count is_run w' <= count is_run cut_world + 1)%nat.
Proof.
  eexists _, _. split; [vm_compute; reflexivity|]. split; [reflexivity|].
  refine (proj1 (proj2 (stream_runs_at_most_once cut_env 10 60000 30000 execute_options cut_world _ _ _))).
  vm_compute; reflexivity.
Defined.

(** A sandbox in pause mode whose deadline has expired. *)
Definition expired_state : Lifecycle.LifecycleState := {|
  Lifecycle.pb_phase := 4; Lifecycle.pb_deadlineUnixMs := 1000; Lifecycle.pb_capUnixMs := 90000000;
  Lifecycle.pb_timeoutMs := 300000; Lifecycle.pb_onTimeout := 2; Lifecycle.pb_autoResume := true; Lifecycle.pb_extensions := 0 |}.

Definition with_lifecycle (l : Lifecycle.LifecycleState) (h : HealthResponse) : HealthResponse := {|
  agentReady := agentReady h; kernelReady := kernelReady h; agentVersion := agentVersion h; uptimeMs := uptimeMs h;
  h_sandboxId := h_sandboxId h; h_resumeGeneration := h_resumeGeneration h; clockOffsetMs := clockOffsetMs h;
  kernelStateLost := kernelStateLost h; imdsBlocked := imdsBlocked h; egressEnforcement := egressEnforcement h;
  h_lifecycle := Some l; h_cpuCount := h_cpuCount h; memoryTotalBytes := memoryTotalBytes h; h_metadata := h_metadata h;
  features := features h |}.

Definition expired_env (n : nat) : moment :=
  answering None (sample_moment (inl (with_lifecycle expired_state (sample_health (txt "mvm-1") 7))) running_info).

Lemma on_deadline_safe_witness :
  exists w', onDeadline expired_env cut_world = (inl tt, w') /\ count is_suspend w' = 1%nat /\
    deadlinePauseGeneration (core w') = Some 7%Z /\ deadlineFiring (core w') = false.
Proof.
  eexists. split; [vm_compute; reflexivity|]. split; [reflexivity|]. split; [reflexivity|].
  refine (proj1 (proj2 (on_deadline_safe expired_env cut_world (inl tt) _ _))). vm_compute; reflexivity.
Defined.

(** The sandbox was paused at generation 7 by this handle, and answers at 8. *)
Definition paused_world : world := {| now := 0; used := 0; signalled := false; trace := [];
  core := mark_deadlinePause (core cut_world) 7 |}.

Definition reopen_env (n : nat) : moment := {|
  took := 40; wallMs := 0; random := 1 # 2;
  health_answer := inl (with_lifecycle expired_state (sample_health (txt "mvm-1") 8)); microvm_answer := inl running_info;
  failure_of := None; aborts := false; others := []; busy := false; call_answer := None;
  lifecycle_answer := inl expired_state; suspend_answer := inl false; reopening := None; call_empty := false |}.

Definition sandbox_timeout : thrown := ConnectError FailedPrecondition SANDBOX_TIMEOUT_DETAIL None.

Lemma reopen_once_witness :
  exists w', reopenedAfterDeadlinePause reopen_env 10 60000 30000 sandbox_timeout 0 paused_world = (inl true, w') /\
    count is_setTimeout w' = 1%nat /\ deadlinePauseGeneration (core w') = None /\ (0 < reopens (core w'))%nat.
Proof.
  eexists. split; [vm_compute; reflexivity|]. split; [reflexivity|]. split; [reflexivity|].
  refine (proj2 (proj2 (proj1 (proj2 (reopen_once reopen_env 10 60000 30000 sandbox_timeout 0 paused_world (inl true) _ _ _ _)) eq_refl))).
  - by intros k.
  - cbn. lia.
  - vm_compute; reflexivity.
Defined.
