(* ===== verification/CallsEnd.v ===== *)
(** * CallsEnd: a request always ends

    Termination of [callUnary] and [openStream] (Calls.v): every loop they go
    through, the retries, the wait for the lock of the reconnections and the poll
    under it, ends, whatever is answered, provided the other calls on the handle
    let go of the lock and the agent counts its resumes upwards. *)

From stdpp Require Import base option list strings.
From Stdlib Require Import NArith ZArith QArith Qround Lqa Lia.
From S2P Require Import Prelude Text Limits RpcErrors Readiness Reconnect Calls.
From S2P Require Lifecycle.

Local Open Scope world_scope.

(** Whoever holds the lock lets go of it within [L] waits. *)
Definition lock_released (env : nat -> moment) (L : nat) : Prop :=
  forall k, exists j, (j <= L)%nat /\ busy (env (k + j)%nat) = false.

(** What [Health] answers is the agent's generation then, from the moment [since] on. *)
Definition answers_counted_since (since : nat) (env : nat -> moment) (generation : nat -> Z) : Prop :=
  forall k r, (since <= k)%nat -> health_answer (env k) = inl r -> h_resumeGeneration r = generation k.

(** From the start. *)
Definition answers_counted : (nat -> moment) -> (nat -> Z) -> Prop := answers_counted_since 0.

(** ** Loops *)

Lemma loop_more {A S} (turn : S -> M (A + S)) n m s w x :
  loop turn n s w = Some x -> (n <= m)%nat -> loop turn m s w = Some x.
Proof.
  revert m s w. induction n as [|n IH]; intros m s w; [done|]. destruct m as [|m]; [lia|]. cbn [loop]. intros E Hle.
  destruct (turn s w) as [[[a|s']|e] w1]; [done| |done]. apply IH; [done|lia].
Qed.

Lemma loop_settled {A S} (turn : S -> M (A + S)) n s w x :
  (forall s, settles (turn s)) -> loop turn n s w = Some x -> settled x.1.
Proof.
  intros Ht. revert s w. induction n as [|n IH]; intros s w; cbn [loop]; [done|].
  pose proof (Ht s w) as Hs. destruct (turn s w) as [[[a|s']|[e| |]] w1]; try done; [by intros [= <-]|apply IH|by intros [= <-]].
Qed.

(** A loop whose first turn is the last. *)
Lemma within_once {A S} (turn : S -> M (A + S)) n s w :
  (0 < n)%nat -> settled (turn s w).1 -> (forall s', (turn s w).1 <> inl (inr s')) -> settled (within turn n s w).1.
Proof.
  intros Hn Hs Ht. unfold within. destruct n as [|n]; [lia|]. cbn [loop].
  destruct (turn s w) as [[[a|s']|e] w1]; [done|by destruct (Ht s')|done].
Qed.

Lemma bind_settled {A B} (m : M A) (k : A -> M B) w :
  settled (m w).1 -> (forall a w1, m w = (inl a, w1) -> settled (k a w1).1) -> settled (bind m k w).1.
Proof. unfold bind. intros Hm Hk. destruct (m w) as [[a|e] w1]; [by apply Hk|done]. Qed.

Lemma catch_settled {A} (m : M A) h w :
  settled (m w).1 -> (forall e w1, m w = (inr (Throws e), w1) -> settled (h e w1).1) -> settled (catch m h w).1.
Proof. unfold catch. intros Hm Hk. destruct (m w) as [[a|[e| |]] w1]; [done|by apply Hk|done..]. Qed.

Section Ends.
Context (env : nat -> moment).

Lemma settles_probeHealth t : settles (probeHealth env false t).
Proof. unfold probeHealth, callHealthOnce, health_call, fallible. settle. Qed.

Lemma settles_checkState reason wake : settles (checkState env reason wake).
Proof. unfold checkState, getMicrovm. settle. Qed.
#[local] Hint Resolve settles_probeHealth settles_checkState : settles.

Lemma settles_streamFailure fs e : settles (streamFailure env fs e).
Proof. unfold streamFailure, healthAnswers, stateAfterReset, getMicrovm. settle. Qed.

Lemma settles_request : settles (request env).
Proof. intros w. unfold request, bind, await. cbn [andb]. by destruct (call_answer (env (used w))). Qed.

Lemma settles_setTimeout t : settles (setTimeout env t).
Proof. unfold setTimeout. settle. Qed.

Lemma settles_poll_turn reason seen wake p : settles (poll_turn env reason seen wake p).
Proof.
  assert (forall r, settles (record_health_now env r)) by (intros r w; exact I).
  unfold poll_turn, poll_attempt, poll_pause, failed_now, reconnected. settle.
  all: match goal with |- settles (let (_, _) := ?x in _) => destruct x end; settle.
  all: match goal with |- settles (let (_, _) := ?x in _) => destruct x end; settle.
Qed.

(** A caller that wakes the sandbox never leaves the poll without an outcome. *)
Lemma poll_turn_waking reason seen p : yields (fun x _ => x <> inl None) (poll_turn env reason seen true p).
Proof.
  assert (forall p, yields (fun x _ => x <> inl None) (poll_pause env reason true p)) as Hp.
  { intros q. unfold poll_pause. apply yields_bind. intros [e|]; [by intros w x w' [= <- <-]|].
    apply yields_bind. intros w. cbn [negb andb]. destruct (nextDelayMs _ _ _) as [d q'].
    apply yields_bind. intros m. by intros w' x w'' [= <- <-]. }
  unfold poll_turn. apply yields_bind. intros w. destruct (alreadyBack _ _); [by intros w0 x w' [= <- <-]|].
  destruct (timedOut p (now w)); [by intros w0 x w' [= <- <-]|]. destruct (shouldCheckState p (now w)) as [check q].
  unfold poll_attempt. apply yields_bind. intros [e|]; [by intros w0 x w' [= <- <-]|]. apply yields_bind. intros w0.
  apply yields_bind. intros [[r|]|e]; [|apply Hp|by intros w1 x w' [= <- <-]].
  destruct (healthReconnected _ _ _); [|apply Hp]. apply yields_bind. intros o. by intros w1 x w' [= <- <-].
Qed.

(** ** The reconnection *)

Context (generation : nat -> Z) (since : nat) (L fuel : nat) (reconnectTimeoutMs : Q) (requestTimeoutMs : Z).
Context (Hfair : fair env) (Hcounted : counted_since since env generation) (Hanswers : answers_counted_since since env generation).
Context (Hlock : lock_released env L) (Hms : (0 <= reconnectTimeoutMs)%Q).
Context (HL : (L < fuel)%nat) (Hturns : (turns_within ReconnectPoll reconnectTimeoutMs <= fuel)%nat).

Lemma lock_loop_ends j w :
  busy (env (used w + j)%nat) = false -> exists w', loop (lock_turn env) (S j) tt w = Some (inl tt, w').
Proof.
  revert w. induction j as [|j IH]; intros w Hj; cbn [loop]; unfold lock_turn at 1.
  - rewrite Nat.add_0_r in Hj. rewrite Hj. by eexists.
  - destruct (busy (env (used w))) eqn:Hb; [|by eexists]. unfold bind, await, ret. cbn [andb].
    apply IH. cbn [used]. by rewrite Nat.add_succ_r in Hj.
Qed.

Lemma lock_ends w : exists w', within (lock_turn env) fuel tt w = (inl tt, w').
Proof.
  destruct (Hlock (used w)) as (j & Hj & Hb). destruct (lock_loop_ends j w Hb) as [w' E]. exists w'.
  unfold within. by rewrite (loop_more _ (S j) fuel _ _ _ E) by lia.
Qed.

Lemma grown_lock seen w : grown seen generation since w -> grown seen generation since (within (lock_turn env) fuel tt w).2.
Proof.
  assert (leaves (fun w w' => grown seen generation since w -> grown seen generation since w') (within (lock_turn env) fuel tt)) as H.
  2: { apply H. }
  apply leaves_within; [split; [by intros w0|intros w1 w2 w3; tauto]|]. intros s w0 Hg. unfold lock_turn.
  destruct (busy (env (used w0))); [|done]. unfold bind.
  pose proof (await_grown env seen generation since Hcounted false AwaitLock w0 Hg) as H. by destruct (await env false AwaitLock w0) as [[m|f] w1].
Qed.

(** With the lock in hand, a caller that wakes the sandbox has an outcome or an error. *)
Lemma poll_settled reason seen w :
  grown seen generation since w ->
  settled (pollUntilBack env reason seen fuel reconnectTimeoutMs true w).1 /\
  (pollUntilBack env reason seen fuel reconnectTimeoutMs true w).1 <> inl None.
Proof.
  intros Hg. assert (poll_ok (new_poll ReconnectPoll reconnectTimeoutMs (now w))) as Hp by (apply schedules_ok; by right).
  destruct (poll_loop_ends env reason seen generation since Hfair Hcounted true
    (Z.to_nat (Qceiling (reconnectTimeoutMs / shortest ReconnectPoll))) _ w Hp Hg) as (x & w' & E & _).
  { left. pose proof (turns_enough ReconnectPoll reconnectTimeoutMs (shortest_pos _ Hp)) as H. cbn [deadline schedule new_poll]. lra. }
  apply (loop_more _ _ fuel) in E; [|exact Hturns].
  assert (pollUntilBack env reason seen fuel reconnectTimeoutMs true w = (x, w')) as ->.
  { unfold pollUntilBack, bind, get, within. by rewrite E. }
  split; [eapply (loop_settled _ _ _ _ _ (settles_poll_turn reason seen true) E)|]. cbn. intros ->.
  eapply (loop_yields (fun a _ => a <> None)) in E; [done|].
  intros q w0 y w1 Ey. apply poll_turn_waking in Ey. destruct y as [a|]; [|done]. by intros ->.
Qed.

Lemma reconnect_settled reason seen w :
  grown seen generation since w -> settled (reconnect env reason seen fuel reconnectTimeoutMs true w).1.
Proof.
  intros Hg. unfold reconnect.
  assert (settled (reconnect_turn env reason seen fuel reconnectTimeoutMs true tt w).1 /\
    forall u, (reconnect_turn env reason seen fuel reconnectTimeoutMs true tt w).1 <> inl (inr u)) as [Hs Hn];
    [|apply within_once; [lia|done|done]].
  unfold reconnect_turn, or_else, alreadyBack_now, bind, get, ret.
    destruct (alreadyBack seen (core w)); [done|]. unfold pollHoldingTheLock, bind.
    destruct (lock_ends w) as [w1 E]. pose proof (grown_lock seen w Hg) as Hg1. rewrite E in *. cbn [snd] in Hg1.
    unfold or_else, alreadyBack_now, bind, get, ret. destruct (alreadyBack seen (core w1)); [done|].
    destruct (poll_settled reason seen w1 Hg1) as [H1 H2].
    by destruct (pollUntilBack env reason seen fuel reconnectTimeoutMs true w1) as [[[o|]|f] w2].
Qed.

(** ** A request *)

Definition keeps_grown (seen : Z) : relation world := fun w w' => grown seen generation since w -> grown seen generation since w'.

#[export] Instance keeps_grown_preorder seen : PreOrder (keeps_grown seen).
Proof. split; [by intros w Hw|]. intros w1 w2 w3 H1 H2 H. by apply H2, H1. Qed.
#[local] Hint Resolve keeps_grown_preorder : leaves.

Lemma grown_await seen race a : leaves (keeps_grown seen) (await env race a).
Proof. intros w Hw. by apply await_grown. Qed.
#[local] Hint Resolve grown_await : leaves.

Lemma grown_request seen : leaves (keeps_grown seen) (request env).
Proof.
  intros w. unfold request, bind. pose proof (grown_await seen false (Call (call_answer (env (used w)))) w) as H.
  destruct (await env false _ w) as [[m|f] w1]; [|done]. by destruct (call_answer m).
Qed.

Lemma grown_callUnaryOnce {A} seen (call : M A) (retry : bool) signal :
  leaves (keeps_grown seen) call -> leaves (keeps_grown seen) (callUnaryOnce env retry signal call).
Proof.
  intros Hc. assert (leaves (keeps_grown seen) (retried env signal call)) by (apply leaves_retried; [exact _|done|intros; apply grown_await]).
  unfold callUnaryOnce, fallible. destruct retry; follow.
Qed.

Lemma grown_setTimeout seen t : leaves (keeps_grown seen) (setTimeout env t).
Proof. unfold setTimeout. follow. Qed.

(** The generation that a [Health] just read is the agent's. *)
Definition fresh (seen : Z) (h : HealthResponse) (w : world) : Prop :=
  (since <= used w)%nat /\ (seen <= h_resumeGeneration h <= generation (used w))%Z.

Lemma fresh_health seen t w h w' :
  grown seen generation since w -> health_call env false t w = (inl h, w') -> fresh seen h w'.
Proof.
  intros Hg. unfold health_call, bind, await. cbn [andb]. destruct (health_answer (env (used w))) as [r|e] eqn:E; [|done].
  intros [= <- <-]. unfold fresh, grown in *. rewrite (Hanswers _ _ (proj1 Hg) E). cbn.
  pose proof (counted_up _ _ _ Hcounted (used w) (proj1 Hg)). lia.
Qed.

Lemma fresh_probe seen t w h w' :
  grown seen generation since w -> probeHealth env false t w = (inl (Some h), w') -> fresh seen h w'.
Proof.
  intros Hg. assert (forall w, grown seen generation since w -> grown seen generation since (health_call env false t w).2) as Hk.
  { intros w0. apply (preserves_health_call env seen generation since Hcounted). }
  unfold probeHealth, callHealthOnce, catch at 1, bind at 1, catch at 1.
  pose proof (Hk w Hg) as Hg1. pose proof (fresh_health seen t w) as Hf.
  destruct (health_call env false t w) as [[r|[e| |]] w1]; [intros [= <- <-]; by apply Hf| |done..].
  cbn [snd] in Hg1. destruct (isProxyForbidden e); [|unfold throw at 1; destruct (isNotYetReachable e); by intros [=]].
  unfold bind at 1. assert (grown seen generation since (fallible env RefreshTokens false w1).2) as Hg2.
  { by apply (preserves_fallible env seen generation since Hcounted). }
  destruct (fallible env RefreshTokens false w1) as [[[]|[e2| |]] w2]; cbn [snd] in Hg2;
    [|destruct (isNotYetReachable e2); by intros [=]|done..].
  pose proof (fresh_health seen t w2) as Hf2.
  destruct (health_call env false t w2) as [[r|[e2| |]] w3]; [intros [= <- <-]; by apply Hf2|destruct (isNotYetReachable e2); by intros [=]|done..].
Qed.

Lemma grown_probe seen t : leaves (keeps_grown seen) (probeHealth env false t).
Proof. intros w Hw. by apply preserves_probeHealth. Qed.

Lemma after_cut_settled {A} e seen (again otherwise : M A) w :
  (isReconnectable e = true -> grown seen generation since w) -> settles again -> settles otherwise ->
  settled (after_cut env fuel reconnectTimeoutMs e seen again otherwise w).1.
Proof.
  intros Hg Ha Ho. unfold after_cut, bind at 1, get at 1. destruct (negb (closed (core w)) && isReconnectable e) eqn:Hc; [|apply Ho].
  apply andb_true_iff in Hc as [_ Hc]. apply bind_settled; [by apply reconnect_settled, Hg|].
  intros o w1 _. destruct (resumed o); [apply Ha|done].
Qed.

(** A rule that may reopen the deadline, as [callUnary] and [openStream] need it. *)
Definition reopens_settled (reopened : thrown -> nat -> M bool) : Prop :=
  forall seen e n w, grown seen generation since w ->
    settled (reopened e n w).1 /\
    forall w', reopened e n w = (inl false, w') -> isReconnectable e = true -> grown seen generation since w'.

Lemma callUnary_with_settled {A} reopened (call : M A) w :
  reopens_settled reopened -> (since <= used w)%nat -> (resumeGeneration (core w) <= generation (used w))%Z -> settles call ->
  (forall seen, leaves (keeps_grown seen) call) ->
  settled (callUnary_with env fuel reconnectTimeoutMs reopened call w).1.
Proof.
  intros Hr H0 Hg Hc Hk. unfold callUnary_with, bind at 1, get at 1.
  pose proof (settles_callUnaryOnce env call true None Hc) as Honce.
  assert (grown (resumeGeneration (core w)) generation since w) as Hgw by (unfold grown; lia).
  pose proof (grown_callUnaryOnce _ call true None (Hk (resumeGeneration (core w))) w Hgw) as Hg1.
  apply catch_settled; [apply Honce|]. intros e w1 E1. rewrite E1 in Hg1. cbn [snd] in Hg1.
  destruct (Hr _ e (reopens (core w)) w1 Hg1) as [Hs Hf]. apply bind_settled; [done|]. intros [] w2 E2; [apply Honce|].
  apply after_cut_settled; [by apply Hf|by apply settles_retried|apply settles_throw].
Qed.

Lemma reopen_rest_settled seen g w :
  grown seen generation since w -> settled (reopen_rest env fuel reconnectTimeoutMs g w).1.
Proof.
  intros Hg. unfold reopen_rest, bind at 1, get at 1. destruct (_ <=? g)%Z; [done|].
  destruct (Lifecycle.autoResumeReopenMs _ _) as [t|]; [|done]. apply bind_settled; [|intros s w1 _; exact I].
  apply callUnary_with_settled; [|apply Hg|apply Hg|apply settles_setTimeout|intros; apply grown_setTimeout].
  intros s e n w1 H1. split; [done|]. by intros w2 [= <-].
Qed.

Lemma reopened_settled :
  reopens_settled (reopenedAfterDeadlinePause env fuel reconnectTimeoutMs requestTimeoutMs).
Proof.
  intros seen e n w Hg. unfold reopenedAfterDeadlinePause, bind at 1 3, get at 1 2.
  destruct (closed (core w)); [split; [done|by intros w' [= <-]]|].
  destruct (isSandboxTimeout e) eqn:Ht; [|split; [done|by intros w' [= <-]]]. cbn [negb orb]. split.
  2: { intros w' _ Hc. apply reconnect_table in Hc as (_ & Hc & _). congruence. }
  destruct (n <? reopens (core w))%nat; [done|]. destruct (reopening (env (used w))); [done|].
  destruct (deadlinePauseGeneration (core w)) as [g|]; [|done].
  unfold reopenAfterDeadlinePause. apply catch_settled; [|done]. apply bind_settled; [apply settles_probeHealth|].
  intros r w1 E1. set (t := Z.min _ _) in *. pose proof (grown_probe seen t w Hg) as Hg1. rewrite E1 in Hg1. cbn [snd] in Hg1.
  apply bind_settled; [by destruct r|]. intros [] w2 E2. apply (reopen_rest_settled seen).
  destruct r as [h|]; [|injection E2 as <-; exact Hg1]. apply (fresh_probe seen) in E1; [|done].
  injection E2 as <-. exact E1.
Qed.

Lemma callUnary_settled w :
  (since <= used w)%nat -> (resumeGeneration (core w) <= generation (used w))%Z ->
  settled (callUnary env fuel reconnectTimeoutMs requestTimeoutMs (request env) w).1.
Proof. intros H0 Hg. apply callUnary_with_settled; [apply reopened_settled|done|done|apply settles_request|apply grown_request]. Qed.

(** ** A stream *)

Lemma settles_throwIfAborted signal : settles (throwIfAborted signal).
Proof. intros w. unfold throwIfAborted. by destruct (aborted signal w). Qed.

Lemma settles_throw_openFailure {A} e options : settles (throw_openFailure env e options : M A).
Proof.
  pose proof (fun fs => settles_streamFailure fs e). unfold throw_openFailure, openFailure. settle.
Qed.

Lemma openStream_body_settled options w :
  (since <= used w)%nat -> (resumeGeneration (core w) <= generation (used w))%Z ->
  settled (openStream_body env fuel reconnectTimeoutMs requestTimeoutMs options w).1.
Proof.
  intros H0 Hg. unfold openStream_body, bind at 1, get at 1. set (first := firstMessage env (allowEmpty options)).
  assert (settles first) as Hfirst.
  { pose proof settles_request. unfold first, firstMessage. settle. }
  assert (settles (catch (retried env (os_signal options) first) (fun e => throw_openFailure env e options))) as Hagain.
  { apply settles_catch; [by apply settles_retried|intros; apply settles_throw_openFailure]. }
  pose proof (settles_callUnaryOnce env first true (os_signal options) Hfirst) as Honce.
  change (callUnaryOnce env true (os_signal options) first) with (firstMessageReminting env (allowEmpty options) (os_signal options)) in Honce.
  assert (grown (resumeGeneration (core w)) generation since w) as Hgw by (unfold grown; lia).
  assert (leaves (keeps_grown (resumeGeneration (core w))) first) as Hkf.
  { pose proof (grown_request (resumeGeneration (core w))). unfold first, firstMessage. follow. }
  pose proof (grown_callUnaryOnce _ first true (os_signal options) Hkf w Hgw) as Hg1.
  apply catch_settled; [apply Honce|]. intros e w1 E1.
  change (callUnaryOnce env true (os_signal options) first) with (firstMessageReminting env (allowEmpty options) (os_signal options)) in Hg1.
  rewrite E1 in Hg1. cbn [snd] in Hg1. destruct (reopened_settled _ e (reopens (core w)) w1 Hg1) as [Hs Hf].
  apply bind_settled; [done|]. intros [] w2 E2; [apply Hagain|].
  destruct (reconnects options); [|apply settles_throw_openFailure].
  apply after_cut_settled; [by apply Hf|exact Hagain|apply settles_throw_openFailure].
Qed.

Lemma wrapped_settled {A} (m : M A) signal (g : thrown -> thrown) w :
  settled (m w).1 ->
  settled ((throwIfAborted signal ;; catch m (fun e => let* w := get in throw (abortReasonOr signal w (g e)))) w).1.
Proof.
  intros Hm. unfold throwIfAborted, bind at 1. destruct (aborted signal w); [done|]. by apply catch_settled.
Qed.
End Ends.

(** C15. A request always ends: whatever the network, the agent and the control plane
    answer, with reconnections, token renewals and reopenings of the deadline on the
    way, a unary call and the opening of a stream return or throw, if the other calls
    on the handle let go of the reconnection lock within [L] waits and the agent counts
    its generations upwards, the handle knowing none that it has not reached; the loops
    need no more turns than that, or than polls fit in [reconnectTimeoutMs]. *)
Theorem requests_end env generation L fuel reconnectTimeoutMs requestTimeoutMs signal translate options w :
  fair env -> counted env generation -> answers_counted env generation -> lock_released env L ->
  (0 <= reconnectTimeoutMs)%Q -> (L < fuel)%nat -> (turns_within ReconnectPoll reconnectTimeoutMs <= fuel)%nat ->
  (resumeGeneration (core w) <= generation (used w))%Z ->
  settled (signalledUnary env fuel reconnectTimeoutMs requestTimeoutMs (request env) signal translate w).1 /\
  settled (openStream env fuel reconnectTimeoutMs requestTimeoutMs options w).1.
Proof.
  intros Hf Hc Ha Hl Hms HL Ht Hg. split.
  - unfold signalledUnary. apply wrapped_settled. eapply (callUnary_settled env generation 0); [done..|lia|done].
  - unfold openStream. apply (wrapped_settled _ (os_signal options) (fun e => e)). eapply (openStream_body_settled env generation 0); [done..|lia|done].
Qed.

Lemma cut_env_counted : counted cut_env (fun _ => 8%Z).
Proof. split; [|done]. intros k r _ H. by apply elem_of_nil in H. Qed.

Lemma requests_end_witness :
  settled (signalledUnary cut_env 200 60000 30000 (request cut_env) None (translateRpcError false) cut_world).1.
Proof.
  refine (proj1 (requests_end cut_env (fun _ => 8%Z) 0 200 60000 30000 None (translateRpcError false) execute_options cut_world
    _ cut_env_counted _ _ _ _ _ _)).
  - intros k. cbn. lra.
  - intros k r _. cbn. by intros [= <-].
  - intros k. by exists 0%nat.
  - lra.
  - lia.
  - vm_compute. lia.
  - cbn. lia.
Defined.
