(* ===== verification/Listing.v ===== *)
(** * Listing: filters, cursors and walks of a paginated listing

    src/clients/typescript/src/sandbox/listing.ts and index/join.ts: which sandboxes a
    listing keeps, the fingerprint of its filters, the cursor a [nextToken] carries, the
    walk over the pages of AWS that resumes inside a page by identity, and the ordered
    walk that resumes after a key.  A string is the list of its code points.  SHA-256 is a
    parameter; of the token only the JSON document is modelled, not its base64url text. *)

From stdpp Require Import base option list strings sets sorting.
From Stdlib Require Import NArith ZArith Lia Permutation.
From S2P Require Import Prelude Text JsMap Limits Json.
From S2P Require Payload.

Local Open Scope Z_scope.

(** ** Data *)

Inductive ListOrder := asc | desc.

Record SandboxListItem := {
  sandboxId : text;
  li_template : text;
  li_state : text;
  startedAtMs : Z;
  li_metadata : option (list (text * text))
}.

Record MicrovmListPage := { items : list SandboxListItem; page_nextToken : option text }.

(** A set of digests, without repetition. *)
Record PageCursor := { awsToken : option text; pc_consumed : list text }.
Record KeyCursor := { kc_startedAtMs : Z; kc_sandboxId : text }.

#[export] Instance KeyCursor_eq_dec : EqDecision KeyCursor.
Proof. solve_decision. Defined.

Inductive ListCursor :=
  | PageAt (c : PageCursor)
  | KeyAt (c : KeyCursor).

Record DecodedToken := { fingerprint_of : text; cursor_of : ListCursor }.

(** [new Set(list)] and [set.add(x)]: in the order of insertion. *)
Definition set_add (x : text) (s : list text) : list text := if bool_decide (x ∈ s) then s else s ++ [x].
Definition set_of (l : list text) : list text := foldl (fun s x => set_add x s) [] l.

Definition FIRST_PAGE : PageCursor := {| awsToken := None; pc_consumed := [] |}.

Definition LIST_PAGE_SIZE : nat := 50.
Definition TOKEN_VERSION : Z := 1.
Definition METADATA_LIST_STATE : text := txt "RUNNING".
Definition TERMINAL : list text := txt <$> TERMINAL_STATES.
Definition MAX_SAFE_INTEGER : Z := 2 ^ 53 - 1.

Fixpoint compareCodePoints (left right : text) : Z :=
  match left, right with
  | x :: a, y :: b => if (x =? y)%N then compareCodePoints a b else Z.of_N x - Z.of_N y
  | _, _ => Z.of_nat (length left) - Z.of_nat (length right)
  end.

(** ** Canonical JSON *)

(** A JSON document whose numbers are integers. *)
Inductive doc :=
  | DNull
  | DBool (b : bool)
  | DNumber (z : Z)
  | DString (s : text)
  | DArray (l : list doc)
  | DObject (fields : list (text * doc)).

Definition field_cmp {A} (a b : text * A) : Z := compareCodePoints a.1 b.1.

Definition print_field (f : text * text) : text := print_string quote_body f.1 ++ COLON :: f.2.

Fixpoint canonicalJson (d : doc) : text :=
  match d with
  | DNull => txt "null"
  | DBool b => if b then txt "true" else txt "false"
  | DNumber z => print_Z z
  | DString s => print_string quote_body s
  | DArray l => txt "[" ++ join [COMMA] (map canonicalJson l) ++ txt "]"
  | DObject fields =>
      LBRACE :: join [COMMA] (map print_field (sort_by field_cmp (map (fun f => (f.1, canonicalJson f.2)) fields))) ++ [RBRACE]
  end.

Definition opt_doc {A} (f : A -> doc) (o : option A) : doc := match o with Some a => f a | None => DNull end.

(** ** Filters *)

Record ListFilters := {
  imageArn : option text;
  imageVersion : option text;
  states : option (list text);
  startedAfterMs : option Z;
  f_metadata : option (list (text * text));
  f_order : option ListOrder;
  indexTable : option text
}.

(** [new ListFilters(fields)]. *)
Definition new_ListFilters (f : ListFilters) : ListFilters := {|
  imageArn := imageArn f; imageVersion := imageVersion f;
  states := sort_by compareCodePoints <$> states f; startedAfterMs := startedAfterMs f;
  f_metadata := sort_by field_cmp <$> f_metadata f; f_order := f_order f; indexTable := indexTable f |}.

Definition order_name (o : ListOrder) : text := match o with asc => txt "asc" | desc => txt "desc" end.

Definition filters_document (f : ListFilters) : doc :=
  DObject ([
    (txt "image", opt_doc DString (imageArn f));
    (txt "version", opt_doc DString (imageVersion f));
    (txt "states", opt_doc (fun l => DArray (map DString l)) (states f));
    (txt "started_after_ms", opt_doc DNumber (startedAfterMs f));
    (txt "metadata", opt_doc (fun l => DObject (map (fun e => (e.1, DString e.2)) l)) (f_metadata f));
    (txt "order", opt_doc (fun o => DString (order_name o)) (f_order f))
  ] ++ match indexTable f with Some t => [(txt "index", DString t)] | None => [] end).

Definition accepts (f : ListFilters) (item : SandboxListItem) : bool :=
  if bool_decide (is_Some (f_metadata f)) && bool_decide (indexTable f = None) &&
     negb (bool_decide (li_state item = METADATA_LIST_STATE)) then false
  else
    match states f with
    | None => negb (bool_decide (li_state item ∈ TERMINAL))
    | Some l => bool_decide (li_state item ∈ l)
    end &&
    match startedAfterMs f with None => true | Some ms => ms <=? startedAtMs item end.

(** [candidate] has every wanted pair. *)
Definition has_pairs (wanted candidate : list (text * text)) : bool :=
  forallb (fun e => bool_decide (e ∈ candidate)) wanted.

(** ** The index *)

Record IndexRecord := {
  ix_sandboxId : text; ix_imageArn : text; ix_startedAtMs : Z; ix_metadata : list (text * text); ix_expiresAt : Z
}.

Definition STARTED_AT_TOLERANCE_MS : Z := 1000.

Definition with_metadata (item : SandboxListItem) (m : list (text * text)) : SandboxListItem := {|
  sandboxId := sandboxId item; li_template := li_template item; li_state := li_state item;
  startedAtMs := startedAtMs item; li_metadata := Some m |}.

Definition joined (item : SandboxListItem) (record : option IndexRecord) (wanted : list (text * text)) (nowSeconds : Z)
    : option SandboxListItem :=
  match record with
  | None => None
  | Some r =>
      if negb (bool_decide (ix_sandboxId r = sandboxId item)) then None
      else if (ix_expiresAt r <? nowSeconds) || negb (bool_decide (ix_imageArn r = li_template item)) then None
      else if STARTED_AT_TOLERANCE_MS <? Z.abs (ix_startedAtMs r - startedAtMs item) then None
      else if negb (has_pairs wanted (ix_metadata r)) then None
      else Some (with_metadata item (ix_metadata r))
  end.

(** ** Tokens *)

Definition tokenDocument (fingerprint : text) (cursor : ListCursor) : doc :=
  match cursor with
  | KeyAt c =>
      DObject [(txt "v", DNumber TOKEN_VERSION); (txt "f", DString fingerprint);
               (txt "k", DArray [DNumber (kc_startedAtMs c); DString (kc_sandboxId c)])]
  | PageAt c =>
      DObject [(txt "v", DNumber TOKEN_VERSION); (txt "f", DString fingerprint);
               (txt "a", opt_doc DString (awsToken c));
               (txt "s", DArray (map DString (sort_by compareCodePoints (pc_consumed c))))]
  end.

(** [^[0-9a-f]{n}$]. *)
Definition is_lower_hex (c : N) : bool := is_digit c || ((97 <=? c) && (c <=? 102))%N.
Definition hex_text (n : nat) (s : text) : bool := (length s =? n)%nat && forallb is_lower_hex s.

Definition doc_field (fields : list (text * doc)) (key : text) : option doc :=
  snd <$> List.find (fun f => bool_decide (f.1 = key)) fields.

(** The keys of an object, sorted. *)
Definition hasExactKeys (fields : list (text * doc)) (keys : list text) : bool :=
  bool_decide (sort_by compareCodePoints fields.*1 = keys).

Definition PAGE_KEYS : list text := [txt "a"; txt "f"; txt "s"; txt "v"].
Definition KEY_KEYS : list text := [txt "f"; txt "k"; txt "v"].

Definition digest_of (d : doc) : option text :=
  match d with DString s => if hex_text 12 s then Some s else None | _ => None end.

Definition pageCursorFrom (fields : list (text * doc)) : result PageCursor :=
  match doc_field fields (txt "a"), doc_field fields (txt "s") with
  | Some ((DNull | DString _) as a), Some (DArray digests) =>
      if (LIST_PAGE_SIZE <? length digests)%nat then Throw InvalidArgumentError else
      match mapM digest_of digests with
      | Some ds => Ok {| awsToken := match a with DString t => Some t | _ => None end; pc_consumed := set_of ds |}
      | None => Throw InvalidArgumentError
      end
  | _, _ => Throw InvalidArgumentError
  end.

Definition keyCursorFrom (fields : list (text * doc)) : result KeyCursor :=
  match doc_field fields (txt "k") with
  | Some (DArray [DNumber started; DString id]) =>
      if (started <? 0) || (MAX_SAFE_INTEGER <? started) || bool_decide (id = []) then Throw InvalidArgumentError
      else Ok {| kc_startedAtMs := started; kc_sandboxId := id |}
  | _ => Throw InvalidArgumentError
  end.

(** [decodeNextToken], from the parsed document. *)
Definition decodeDocument (d : doc) : result DecodedToken :=
  match d with
  | DObject fields =>
      match doc_field fields (txt "v"), doc_field fields (txt "f") with
      | Some (DNumber v), Some (DString f) =>
          if negb (v =? TOKEN_VERSION) || negb (hex_text 16 f) then Throw InvalidArgumentError
          else if hasExactKeys fields PAGE_KEYS
          then c ← pageCursorFrom fields; Ok {| fingerprint_of := f; cursor_of := PageAt c |}
          else if hasExactKeys fields KEY_KEYS
          then c ← keyCursorFrom fields; Ok {| fingerprint_of := f; cursor_of := KeyAt c |}
          else Throw InvalidArgumentError
      | _, _ => Throw InvalidArgumentError
      end
  | _ => Throw InvalidArgumentError
  end.

(** ** The request *)

Definition validateLimit (limit : option Z) : result (option Z) :=
  match limit with
  | None => Ok None
  | Some n => if (MAX_SAFE_INTEGER <? Z.abs n) || (n <? 1) then Throw InvalidArgumentError else Ok (Some n)
  end.

Definition validateMetadataStates (states : option (list text)) : result unit :=
  throw_if (existsb (fun s => negb (bool_decide (s = METADATA_LIST_STATE))) (default [] states)) InvalidArgumentError.

Definition validateIndexedStates (states : option (list text)) : result unit :=
  throw_if (existsb (fun s => bool_decide (s ∈ TERMINAL)) (default [] states)) InvalidArgumentError.

Definition validateStartedAfter (ms : option Z) : result (option Z) :=
  match ms with Some t => if t <? 0 then Throw InvalidArgumentError else Ok ms | None => Ok None end.

Definition is_page (c : ListCursor) : bool := match c with PageAt _ => true | KeyAt _ => false end.

Definition validateCursorForm (decoded : option DecodedToken) (order : option ListOrder) : result unit :=
  match decoded with
  | None => Ok tt
  | Some d => throw_if (negb (eqb (bool_decide (order = None)) (is_page (cursor_of d)))) InvalidArgumentError
  end.

(** The options of a listing, with the token as its parsed document. *)
Record ListingRequestOptions := {
  o_templateVersion : option text;
  o_states : option (list text);
  o_metadata : option (list (text * option text));
  o_startedAfter : option Z;
  o_order : option ListOrder;
  o_limit : option Z;
  o_nextToken : option doc;
  o_index : option text
}.

Record ListingRequest := {
  limit : option Z;
  order : option ListOrder;
  decoded : option DecodedToken;
  hasMetadata : bool;
  index : option text;
  wanted : list (text * text);
  filters : option text -> ListFilters
}.

Definition listingRequest (o : ListingRequestOptions) : result ListingRequest :=
  limit ← validateLimit (o_limit o);
  metadata ← match o_metadata o with None => Ok None | Some m => v ← Payload.validatedStringMap m; Ok (Some v) end;
  let index := match metadata with None => None | Some _ => o_index o end in
  (if bool_decide (is_Some metadata) && bool_decide (index = None)
   then validateMetadataStates (o_states o) else Ok tt) ≫= fun _ =>
  (if bool_decide (is_Some index) then validateIndexedStates (o_states o) else Ok tt) ≫= fun _ =>
  startedAfterMs ← validateStartedAfter (o_startedAfter o);
  decoded ← match o_nextToken o with None => Ok None | Some d => t ← decodeDocument d; Ok (Some t) end;
  validateCursorForm decoded (o_order o) ≫= fun _ =>
  Ok {| limit := limit; order := o_order o; decoded := decoded; hasMetadata := bool_decide (is_Some metadata);
        index := index; wanted := default [] metadata;
        filters := fun imageArn => new_ListFilters {|
          imageArn := imageArn; imageVersion := o_templateVersion o; states := o_states o;
          startedAfterMs := startedAfterMs; f_metadata := metadata; f_order := o_order o; indexTable := index |} |}.

Section Hash.
Context (sha256Hex : text -> text).

Definition fingerprint (f : ListFilters) : text := take 16 (sha256Hex (canonicalJson (filters_document f))).
Definition itemDigest (id : text) : text := take 12 (sha256Hex id).

(** Where a listing starts. *)
Definition resumeCursors (decoded : option DecodedToken) (f : ListFilters) : result (PageCursor * option KeyCursor) :=
  match decoded with
  | None => Ok (FIRST_PAGE, None)
  | Some d =>
      if negb (bool_decide (fingerprint_of d = fingerprint f)) then Throw InvalidArgumentError
      else match cursor_of d with PageAt c => Ok (c, None) | KeyAt k => Ok (FIRST_PAGE, Some k) end
  end.

(** ** Walking the pages *)

Record PageWalk := {
  pageToken : option text;
  consumed : list text;
  buffer : list SandboxListItem;
  loaded : bool;
  pw_nextToken : option text
}.

Definition new_PageWalk (c : PageCursor) : PageWalk := {|
  pageToken := awsToken c; consumed := set_of (pc_consumed c); buffer := []; loaded := false; pw_nextToken := None |}.

Definition walk_hasMore (w : PageWalk) : bool :=
  negb (bool_decide (buffer w = [])) || negb (loaded w) || bool_decide (is_Some (pw_nextToken w)).

(** The page to ask for, if the buffer is empty and there is one, and the walk after. *)
Definition pageToFetch (w : PageWalk) : option (option text) * PageWalk :=
  if negb (bool_decide (buffer w = [])) then (None, w)
  else if negb (loaded w) then (Some (pageToken w), w)
  else match pw_nextToken w with
  | None => (None, w)
  | Some t => (Some (Some t), {| pageToken := Some t; consumed := []; buffer := buffer w; loaded := false; pw_nextToken := None |})
  end.

Definition unconsumed (seen : list text) (l : list SandboxListItem) : list SandboxListItem :=
  List.filter (fun i => negb (bool_decide (itemDigest (sandboxId i) ∈ seen))) l.

Definition acceptPage (p : MicrovmListPage) (w : PageWalk) : PageWalk := {|
  pageToken := pageToken w; consumed := consumed w; buffer := unconsumed (consumed w) (items p);
  loaded := true; pw_nextToken := page_nextToken p |}.

Definition nextRaw (w : PageWalk) : option SandboxListItem * PageWalk :=
  match buffer w with
  | [] => (None, w)
  | i :: rest =>
      (Some i, {| pageToken := pageToken w; consumed := set_add (itemDigest (sandboxId i)) (consumed w);
                  buffer := rest; loaded := loaded w; pw_nextToken := pw_nextToken w |})
  end.

Definition walk_cursor (w : PageWalk) : PageCursor := {| awsToken := pageToken w; pc_consumed := set_of (consumed w) |}.
End Hash.

(** ** The ordered walk *)

Definition compareKeys (leftMs : Z) (leftId : text) (rightMs : Z) (rightId : text) : Z :=
  if leftMs =? rightMs then compareCodePoints leftId rightId else leftMs - rightMs.

Definition direction (o : ListOrder) : Z := match o with asc => 1 | desc => -1 end.

Definition item_cmp (o : ListOrder) (a b : SandboxListItem) : Z :=
  direction o * compareKeys (startedAtMs a) (sandboxId a) (startedAtMs b) (sandboxId b).

Definition keyed (o : ListOrder) (item : SandboxListItem) (other : KeyCursor) : Z :=
  direction o * compareKeys (startedAtMs item) (sandboxId item) (kc_startedAtMs other) (kc_sandboxId other).

Definition key_of (i : SandboxListItem) : KeyCursor := {| kc_startedAtMs := startedAtMs i; kc_sandboxId := sandboxId i |}.

Record OrderedWalk := { ow_items : list SandboxListItem; ow_index : nat; ow_last : option KeyCursor }.

Definition new_OrderedWalk (l : list SandboxListItem) (o : ListOrder) (after : option KeyCursor) : OrderedWalk := {|
  ow_items := List.filter (fun i => match after with None => true | Some k => 0 <? keyed o i k end) (sort_by (item_cmp o) l);
  ow_index := 0; ow_last := after |}.

Definition ow_hasMore (w : OrderedWalk) : bool := (ow_index w <? length (ow_items w))%nat.

Definition ow_take (limit : option nat) (w : OrderedWalk) : list SandboxListItem * OrderedWalk :=
  let stop := match limit with None => length (ow_items w) | Some n => (ow_index w + n)%nat end in
  let served := take (stop - ow_index w) (drop (ow_index w) (ow_items w)) in
  (served, {| ow_items := ow_items w; ow_index := (ow_index w + length served)%nat;
              ow_last := match last served with Some i => Some (key_of i) | None => ow_last w end |}).

(** ** Orders *)

Lemma compareCodePoints_flip a b : compareCodePoints b a = - compareCodePoints a b.
Proof.
  revert b. induction a as [|x a IH]; intros [|y b]; cbn [compareCodePoints length]; [lia..|].
  destruct (N.eqb_spec x y) as [->|H]; [by rewrite N.eqb_refl|].
  rewrite (proj2 (N.eqb_neq y x)) by done. lia.
Qed.

Lemma compareCodePoints_eq a b : compareCodePoints a b = 0 <-> a = b.
Proof.
  split; [|intros <-; pose proof (compareCodePoints_flip a a); lia].
  revert b. induction a as [|x a IH]; intros [|y b]; cbn [compareCodePoints length]; [done|lia..|].
  destruct (N.eqb_spec x y) as [->|H]; [intros E; f_equal; by apply IH|lia].
Qed.

Lemma compareCodePoints_trans a b c :
  compareCodePoints a b <= 0 -> compareCodePoints b c <= 0 -> compareCodePoints a c <= 0.
Proof.
  revert b c. induction a as [|x a IH]; intros [|y b] [|z c]; cbn [compareCodePoints length]; try lia.
  destruct (N.eqb_spec x y) as [->|H1], (N.eqb_spec y z) as [->|H2].
  - apply IH.
  - lia.
  - rewrite (proj2 (N.eqb_neq x z)) by done. lia.
  - destruct (N.eqb_spec x z); lia.
Qed.

(** A comparator that orders strictly: two elements that compare equal are equal. *)
Record orders {A} (cmp : A -> A -> Z) : Prop := {
  orders_flip : forall a b, cmp b a = - cmp a b;
  orders_trans : forall a b c, cmp a b <= 0 -> cmp b c <= 0 -> cmp a c <= 0
}.

Lemma orders_total {A} (cmp : A -> A -> Z) a b : orders cmp -> cmp a b <= 0 \/ cmp b a <= 0.
Proof. intros [Hf _]. rewrite (Hf a b). lia. Qed.

Lemma sorted_unique {A} (cmp : A -> A -> Z) (l l' : list A) :
  (forall a b, a ∈ l -> b ∈ l -> cmp a b <= 0 -> cmp b a <= 0 -> a = b) ->
  StronglySorted (fun a b => cmp a b <= 0) l -> StronglySorted (fun a b => cmp a b <= 0) l' ->
  Permutation l l' -> l = l'.
Proof.
  revert l'. induction l as [|x l IH]; intros l' Ha Hs Hs' Hp; [by apply Permutation_nil in Hp|].
  destruct l' as [|y l']; [by apply Permutation_sym, Permutation_nil in Hp|].
  apply StronglySorted_inv in Hs as [Hs Hx]. apply StronglySorted_inv in Hs' as [Hs' Hy].
  rewrite Forall_forall in Hx, Hy.
  assert (x = y) as ->; [|f_equal; apply IH; [set_solver|done|done|by eapply Permutation_cons_inv]].
  assert (x ∈ y :: l') as Hx' by (rewrite <- Hp; set_solver). assert (y ∈ x :: l) as Hy' by (rewrite Hp; set_solver).
  apply elem_of_cons in Hx' as [->|Hx']; [done|]. apply elem_of_cons in Hy' as [->|Hy']; [done|].
  apply Ha; [set_solver|set_solver|by apply Hx|by apply Hy].
Qed.

Lemma sort_by_canonical {A} (cmp : A -> A -> Z) (l l' : list A) :
  orders cmp -> (forall a b, a ∈ l -> b ∈ l -> cmp a b = 0 -> a = b) -> Permutation l l' -> sort_by cmp l = sort_by cmp l'.
Proof.
  intros Ho Ha Hp. pose proof (fun a b => orders_total cmp a b Ho) as Ht.
  apply (sorted_unique cmp).
  - intros a b Hina Hinb. rewrite sort_by_perm in Hina, Hinb. rewrite (orders_flip _ Ho a b). intros. apply Ha; [done..|lia].
  - apply sort_by_sorted; [done|apply Ho].
  - apply sort_by_sorted; [done|apply Ho].
  - by rewrite !sort_by_perm.
Qed.

Lemma codePoints_order : orders compareCodePoints.
Proof. split; [apply compareCodePoints_flip|apply compareCodePoints_trans]. Qed.

Lemma field_order {A} : orders (field_cmp (A := A)).
Proof. split; [intros a b; apply compareCodePoints_flip|intros a b c; apply compareCodePoints_trans]. Qed.

Lemma compareKeys_spec ma ia mb ib :
  compareKeys ma ia mb ib <= 0 <-> ma < mb \/ (ma = mb /\ compareCodePoints ia ib <= 0).
Proof. unfold compareKeys. destruct (Z.eqb_spec ma mb); [|lia]. split; [by right|]. intros [H|[_ H]]; [lia|done]. Qed.

Lemma compareKeys_flip ma ia mb ib : compareKeys mb ib ma ia = - compareKeys ma ia mb ib.
Proof. unfold compareKeys. rewrite Z.eqb_sym. destruct (ma =? mb); [apply compareCodePoints_flip|lia]. Qed.

Lemma compareKeys_eq ma ia mb ib : compareKeys ma ia mb ib = 0 <-> ma = mb /\ ia = ib.
Proof.
  unfold compareKeys. destruct (Z.eqb_spec ma mb) as [->|H]; [rewrite compareCodePoints_eq; naive_solver|].
  split; [lia|naive_solver].
Qed.

Lemma compareKeys_trans ma ia mb ib mc ic :
  compareKeys ma ia mb ib <= 0 -> compareKeys mb ib mc ic <= 0 -> compareKeys ma ia mc ic <= 0.
Proof.
  rewrite !compareKeys_spec. intros [H1|[-> H1]] [H2|[-> H2]]; [left; lia|left; lia|left; lia|right].
  split; [done|by eapply compareCodePoints_trans].
Qed.

Definition key_cmp (o : ListOrder) (a b : KeyCursor) : Z :=
  direction o * compareKeys (kc_startedAtMs a) (kc_sandboxId a) (kc_startedAtMs b) (kc_sandboxId b).

Lemma key_order o : orders (key_cmp o).
Proof.
  split; unfold key_cmp; [intros a b; rewrite (compareKeys_flip (kc_startedAtMs a)); lia|].
  intros a b c. destruct o; cbn [direction]; rewrite ?Z.mul_1_l.
  - apply compareKeys_trans.
  - intros H1 H2. pose proof (compareKeys_trans (kc_startedAtMs c) (kc_sandboxId c) (kc_startedAtMs b) (kc_sandboxId b) (kc_startedAtMs a) (kc_sandboxId a)) as H.
    rewrite (compareKeys_flip (kc_startedAtMs b) (kc_sandboxId b) (kc_startedAtMs c)), (compareKeys_flip (kc_startedAtMs a) (kc_sandboxId a) (kc_startedAtMs b)),
      (compareKeys_flip (kc_startedAtMs a) (kc_sandboxId a) (kc_startedAtMs c)) in H. lia.
Qed.

Lemma item_order o : orders (item_cmp o).
Proof.
  split; [intros a b; apply (orders_flip _ (key_order o) (key_of a) (key_of b))|].
  intros a b c. apply (orders_trans _ (key_order o) (key_of a) (key_of b) (key_of c)).
Qed.

(** ** The fingerprint *)

(** The same filters written in another order. *)
Record same_filters (f g : ListFilters) : Prop := {
  same_image : imageArn f = imageArn g;
  same_version : imageVersion f = imageVersion g;
  same_states : option_Forall2 Permutation (states f) (states g);
  same_started : startedAfterMs f = startedAfterMs g;
  same_metadata : option_Forall2 Permutation (f_metadata f) (f_metadata g);
  same_order : f_order f = f_order g;
  same_index : indexTable f = indexTable g
}.

Lemma NoDup_keys_eq {A} (l : list (text * A)) a b : NoDup l.*1 -> a ∈ l -> b ∈ l -> field_cmp a b = 0 -> a = b.
Proof.
  intros Hn Ha Hb H. apply compareCodePoints_eq in H. apply list_elem_of_lookup in Ha as [i Hi], Hb as [j Hj].
  assert (i = j) as ->; [|congruence]. eapply NoDup_lookup; [exact Hn|..]; rewrite list_lookup_fmap.
  - by rewrite Hi.
  - by rewrite Hj, H.
Qed.

Lemma new_ListFilters_canonical f g :
  same_filters f g -> (forall m, f_metadata f = Some m -> NoDup m.*1) -> new_ListFilters f = new_ListFilters g.
Proof.
  intros [E1 E2 Hs E4 Hm E6 E7] Hn. unfold new_ListFilters. rewrite E1, E2, E4, E6, E7. f_equal.
  - destruct Hs as [a b Hp|]; [|done]. cbn. f_equal. apply sort_by_canonical; [apply codePoints_order| |done].
    intros x y _ _. apply compareCodePoints_eq.
  - destruct Hm as [a b Hp|]; [|done]. cbn. f_equal. apply sort_by_canonical; [apply field_order| |done].
    intros x y. apply NoDup_keys_eq. by apply Hn.
Qed.

(** ** Tokens read back *)

Lemma set_add_elem x y s : y ∈ set_add x s <-> y = x \/ y ∈ s.
Proof. unfold set_add. case_bool_decide; set_solver. Qed.

Lemma set_add_NoDup x s : NoDup s -> NoDup (set_add x s).
Proof. intros H. unfold set_add. case_bool_decide; [done|]. apply NoDup_app. split_and!; [done|set_solver|apply NoDup_singleton]. Qed.

Lemma set_of_app l s : NoDup (s ++ l) -> foldl (fun s x => set_add x s) s l = s ++ l.
Proof.
  revert s. induction l as [|x l IH]; intros s H; cbn; [by rewrite app_nil_r|].
  assert (set_add x s = s ++ [x]) as ->.
  { unfold set_add. rewrite bool_decide_eq_false_2; [done|]. apply NoDup_app in H as (_ & H & _). set_solver. }
  rewrite IH; by rewrite <- app_assoc.
Qed.

Lemma set_of_id l : NoDup l -> set_of l = l.
Proof. apply (set_of_app l []). Qed.

Lemma set_of_elem l x : x ∈ set_of l <-> x ∈ l.
Proof.
  unfold set_of. assert (forall s, x ∈ foldl (fun s y => set_add y s) s l <-> x ∈ s \/ x ∈ l) as H.
  { induction l as [|y l IH]; intros s; cbn; [set_solver|]. rewrite IH, set_add_elem. set_solver. }
  rewrite H. set_solver.
Qed.

Lemma set_of_NoDup l : NoDup (set_of l).
Proof.
  unfold set_of. assert (forall s, NoDup s -> NoDup (foldl (fun s y => set_add y s) s l)) as H; [|apply H; constructor].
  induction l as [|y l IH]; intros s Hs; cbn; [done|]. by apply IH, set_add_NoDup.
Qed.

(** The cursors a token can carry. *)
Definition cursor_ok (c : ListCursor) : Prop :=
  match c with
  | PageAt c => (length (pc_consumed c) <= LIST_PAGE_SIZE)%nat /\ NoDup (pc_consumed c) /\
      Forall (fun d => hex_text 12 d = true) (pc_consumed c)
  | KeyAt k => 0 <= kc_startedAtMs k <= MAX_SAFE_INTEGER /\ kc_sandboxId k <> []
  end.

(** What the token keeps of a cursor: a set. *)
Definition canonical (c : ListCursor) : ListCursor :=
  match c with
  | PageAt c => PageAt {| awsToken := awsToken c; pc_consumed := sort_by compareCodePoints (pc_consumed c) |}
  | KeyAt k => KeyAt k
  end.

Lemma mapM_digests l : Forall (fun d => hex_text 12 d = true) l -> mapM digest_of (map DString l) = Some l.
Proof. induction 1 as [|d l Hd _ IH]; [done|]. cbn. rewrite Hd. cbn. by rewrite IH. Qed.

Lemma token_roundtrip fp c :
  hex_text 16 fp = true -> cursor_ok c ->
  decodeDocument (tokenDocument fp c) = Ok {| fingerprint_of := fp; cursor_of := canonical c |}.
Proof.
  intros Hf Hc. destruct c as [[tok used]|[ms id]]; cbn [tokenDocument canonical].
  - destruct Hc as (Hl & Hn & Hh). cbn in Hl, Hn, Hh. set (used' := sort_by compareCodePoints used).
    assert (Permutation used' used) as Hp by apply sort_by_perm. unfold decodeDocument.
    change (doc_field _ (txt "v")) with (Some (DNumber TOKEN_VERSION)).
    change (doc_field _ (txt "f")) with (Some (DString fp)). cbv iota beta. rewrite Hf.
    change (hasExactKeys _ PAGE_KEYS) with true. cbn [negb orb Z.eqb TOKEN_VERSION Pos.eqb].
    unfold pageCursorFrom. change (doc_field _ (txt "a")) with (Some (opt_doc DString tok)).
    change (doc_field _ (txt "s")) with (Some (DArray (map DString used'))).
    assert ((LIST_PAGE_SIZE <? length (map DString used'))%nat = false) as Hlen.
    { apply Nat.ltb_ge. rewrite length_map, Hp. exact Hl. }
    destruct tok as [t|]; cbn [opt_doc]; cbv iota beta; rewrite Hlen, mapM_digests by by rewrite Hp.
    all: cbn; by rewrite set_of_id by by rewrite Hp.
  - destruct Hc as [Hms Hid]. cbn in Hms, Hid. unfold decodeDocument.
    change (doc_field _ (txt "v")) with (Some (DNumber TOKEN_VERSION)).
    change (doc_field _ (txt "f")) with (Some (DString fp)). cbv iota beta. rewrite Hf.
    change (hasExactKeys _ PAGE_KEYS) with false. change (hasExactKeys _ KEY_KEYS) with true.
    cbn [negb orb Z.eqb TOKEN_VERSION Pos.eqb]. unfold keyCursorFrom.
    change (doc_field _ (txt "k")) with (Some (DArray [DNumber ms; DString id])). cbv iota.
    rewrite (proj2 (Z.ltb_ge ms 0)), (proj2 (Z.ltb_ge MAX_SAFE_INTEGER ms)), bool_decide_eq_false_2 by (done || lia). done.
Qed.

(** ** What a walk has left *)

(** From a token, AWS has these pages. *)
Inductive pages_from (page : option text -> MicrovmListPage) : option text -> list MicrovmListPage -> Prop :=
  | pages_last t : page_nextToken (page t) = None -> pages_from page t [page t]
  | pages_more t u ps : page_nextToken (page t) = Some u -> pages_from page (Some u) ps -> pages_from page t (page t :: ps).

Section Walk.
Context (sha256Hex : text -> text) (page : option text -> MicrovmListPage).

Abbreviation digest i := (itemDigest sha256Hex (sandboxId i)).
Abbreviation unconsumed := (unconsumed sha256Hex).

(** No two sandboxes of a page share a digest. *)
Definition distinct_page (p : MicrovmListPage) : Prop := NoDup (map (fun i => digest i) (items p)).

Context (Hdistinct : forall t, distinct_page (page t)).

(** A walk over these pages, after which [ps] are left. *)
Record walk_ok (w : PageWalk) (ps : list MicrovmListPage) : Prop := {
  ok_pages : pages_from page (pageToken w) (page (pageToken w) :: ps);
  ok_buffer : buffer w = if loaded w then unconsumed (consumed w) (items (page (pageToken w))) else [];
  ok_next : loaded w = true -> pw_nextToken w = page_nextToken (page (pageToken w));
  ok_consumed : NoDup (consumed w);
  ok_used : forall d, d ∈ consumed w -> d ∈ map (fun i => digest i) (items (page (pageToken w)))
}.

Definition left_over (w : PageWalk) (ps : list MicrovmListPage) : list SandboxListItem :=
  unconsumed (consumed w) (items (page (pageToken w))) ++ concat (map items ps).

Lemma unconsumed_ext s s' l : (forall d, d ∈ s <-> d ∈ s') -> unconsumed s l = unconsumed s' l.
Proof.
  intros H. unfold Listing.unconsumed. apply filter_ext. intros i. f_equal. apply bool_decide_ext, H.
Qed.

Lemma unconsumed_nil l : unconsumed [] l = l.
Proof. unfold Listing.unconsumed. induction l as [|i l IH]; [done|]. cbn. by f_equal. Qed.

Lemma unconsumed_next s l i rest :
  NoDup (map (fun i => digest i) l) -> unconsumed s l = i :: rest -> unconsumed (set_add (digest i) s) l = rest.
Proof.
  unfold Listing.unconsumed. revert i rest. induction l as [|x l IH]; intros i rest Hn; cbn [List.filter map]; [done|].
  cbn [map] in Hn. apply NoDup_cons in Hn as [Hx Hn].
  case_bool_decide as Hs; cbn [negb].
  - intros E. rewrite bool_decide_eq_true_2 by (apply set_add_elem; by right). cbn [negb]. by apply IH.
  - intros [= -> <-]. rewrite bool_decide_eq_true_2 by (apply set_add_elem; by left). cbn [negb].
    clear IH. induction l as [|y l IH]; [done|]. cbn [List.filter]. cbn [map] in Hx, Hn.
    apply not_elem_of_cons in Hx as [Hxy Hx]. apply NoDup_cons in Hn as [_ Hn].
    rewrite (bool_decide_ext (digest y ∈ set_add (digest i) s) (digest y ∈ s)) by (rewrite set_add_elem; naive_solver).
    case_bool_decide; cbn [negb]; [by apply IH|]. f_equal. by apply IH.
Qed.

Lemma new_walk_ok c ps :
  pages_from page (awsToken c) (page (awsToken c) :: ps) ->
  (forall d, d ∈ pc_consumed c -> d ∈ map (fun i => digest i) (items (page (awsToken c)))) ->
  walk_ok (new_PageWalk c) ps.
Proof. intros H Hu. split; [done|done|done|apply set_of_NoDup|]. intros d Hd. apply Hu. by rewrite <- set_of_elem. Qed.

(** The digests a walk has consumed are no more than the items of its page. *)
Lemma consumed_bound w ps : walk_ok w ps -> (length (consumed w) <= length (items (page (pageToken w))))%nat.
Proof.
  intros Hw. rewrite <- (length_map (fun i => digest i) (items _)).
  apply submseteq_length, NoDup_submseteq; [apply Hw|]. intros d. apply Hw.
Qed.

(** The cursor of a walk leads to a walk with the same left over, whatever the order
    in which the token wrote its digests. *)
Lemma resume_walk w ps c :
  walk_ok w ps -> awsToken c = pageToken w -> (forall d, d ∈ pc_consumed c <-> d ∈ consumed w) ->
  walk_ok (new_PageWalk c) ps /\ left_over (new_PageWalk c) ps = left_over w ps.
Proof.
  intros [H1 H2 H3 H4 H5] Ht Hc. split; [apply new_walk_ok; rewrite Ht; [done|]; intros d; rewrite Hc; apply H5|].
  unfold left_over, new_PageWalk. cbn [consumed pageToken]. rewrite Ht. f_equal. apply unconsumed_ext.
  intros d. by rewrite set_of_elem.
Qed.

Lemma pageToFetch_spec w ps :
  walk_ok w ps ->
  match pageToFetch w with
  | (Some t, w') => exists ps', walk_ok w' ps' /\ loaded w' = false /\ pageToken w' = t /\
      left_over w' ps' = left_over w ps /\ (length ps' + (if loaded w then 1 else 0) = length ps)%nat
  | (None, w') => w' = w /\ loaded w = true /\ (buffer w = [] -> pw_nextToken w = None /\ left_over w ps = [])
  end.
Proof.
  intros [H1 H2 H3 H4 H5]. unfold pageToFetch. destruct (bool_decide (buffer w = [])) eqn:Hb; cbn [negb].
  - apply bool_decide_eq_true in Hb. destruct (loaded w) eqn:Hl; cbn [negb].
    + specialize (H3 eq_refl). destruct (pw_nextToken w) as [t|] eqn:Ht.
      * inversion H1 as [? Hnone|? u ps0 Hsome Hrest]; subst; [congruence|]. assert (u = t) as -> by congruence.
        assert (exists ps', ps = page (Some t) :: ps' /\ pages_from page (Some t) (page (Some t) :: ps')) as (ps' & -> & Hp)
          by (inversion Hrest; subst; by eexists).
        exists ps'. split_and!; [|done|done| |cbn; lia]; [split; cbn; try done; [constructor|set_solver]|].
        unfold left_over. cbn [consumed pageToken map concat]. by rewrite <- H2, Hb, unconsumed_nil.
      * split_and!; [done|done|]. intros _. split; [done|]. unfold left_over. rewrite <- H2, Hb.
        inversion H1; subst; [done|congruence].
    + exists ps. split_and!; [|done|done|done|lia]. split; try done; by rewrite Hl.
  - apply bool_decide_eq_false in Hb. destruct (loaded w); [|done]. by split_and!.
Qed.

Lemma acceptPage_ok w ps : walk_ok w ps -> loaded w = false ->
  walk_ok (acceptPage sha256Hex (page (pageToken w)) w) ps /\
  left_over (acceptPage sha256Hex (page (pageToken w)) w) ps = left_over w ps.
Proof. intros [H1 H2 H3 H4 H5] Hl. by split; [split|]. Qed.

Lemma nextRaw_spec w ps :
  walk_ok w ps -> loaded w = true ->
  match nextRaw sha256Hex w with
  | (Some i, w') => walk_ok w' ps /\ loaded w' = true /\ left_over w ps = i :: left_over w' ps /\ buffer w = i :: buffer w'
  | (None, w') => w' = w /\ buffer w = []
  end.
Proof.
  intros [H1 H2 H3 H4 H5] Hl. rewrite Hl in H2. unfold nextRaw. destruct (buffer w) as [|i rest] eqn:Hb; [done|].
  pose proof (unconsumed_next _ _ _ _ (Hdistinct (pageToken w)) (eq_sym H2)) as Hn.
  split_and!; [split; cbn|done| |done]; [done|by rewrite Hl|done|by apply set_add_NoDup| |].
  { intros d [->|Hd]%set_add_elem; [|by apply H5]. apply (list_elem_of_fmap_2 (fun i => digest i)).
    assert (i ∈ unconsumed (consumed w) (items (page (pageToken w)))) as Hi by (rewrite <- H2; set_solver).
    apply list_elem_of_In, filter_In in Hi as [Hi _]. by apply list_elem_of_In. }
  unfold left_over. cbn [consumed pageToken]. by rewrite Hn, <- H2.
Qed.

Lemma no_more w ps : walk_ok w ps -> walk_hasMore w = false -> left_over w ps = [].
Proof.
  intros Hw. unfold walk_hasMore. rewrite !orb_false_iff, negb_false_iff, negb_false_iff, bool_decide_eq_true, bool_decide_eq_false.
  intros [[Hb Hl] Hn]. pose proof (pageToFetch_spec w ps Hw) as H. unfold pageToFetch in H.
  rewrite bool_decide_eq_true_2, Hl in H by done. cbn [negb] in H. destruct (pw_nextToken w) as [t|]; [by destruct Hn; eexists|].
  by apply H.
Qed.
End Walk.

(** ** Ordered listings *)

Section Ordered.
Context (o : ListOrder).

(** [a] comes strictly before [b]. *)
Definition before (a b : KeyCursor) : Prop := key_cmp o a b < 0.

Definition after_key (after : option KeyCursor) (k : KeyCursor) : Prop :=
  match after with None => True | Some a => before a k end.

Lemma before_trans a b c : before a b -> before b c -> before a c.
Proof.
  unfold before. intros H1 H2. pose proof (orders_trans _ (key_order o) a b c ltac:(lia) ltac:(lia)).
  destruct (Z.eq_dec (key_cmp o a c) 0) as [E|]; [|lia]. exfalso.
  assert (key_cmp o c a <= 0) by (rewrite (orders_flip _ (key_order o) a c); lia).
  pose proof (orders_trans _ (key_order o) b c a ltac:(lia) ltac:(done)).
  rewrite (orders_flip _ (key_order o) a b) in *. lia.
Qed.

Lemma before_irrefl a : ~ before a a.
Proof. unfold before. pose proof (orders_flip _ (key_order o) a a). lia. Qed.

Lemma key_cmp_eq a b : key_cmp o a b = 0 -> a = b.
Proof.
  unfold key_cmp. intros H. assert (compareKeys (kc_startedAtMs a) (kc_sandboxId a) (kc_startedAtMs b) (kc_sandboxId b) = 0) as E
    by (destruct o; cbn [direction] in H; lia). apply compareKeys_eq in E as [E1 E2]. destruct a, b; cbn in *; congruence.
Qed.

Definition distinct_keys (l : list SandboxListItem) : Prop := NoDup (map key_of l).

(** Strictly sorted. *)
Definition ascending (l : list SandboxListItem) : Prop := StronglySorted (fun a b => before (key_of a) (key_of b)) l.

Lemma sorted_ascending l : distinct_keys l -> StronglySorted (fun a b => item_cmp o a b <= 0) l -> ascending l.
Proof.
  unfold distinct_keys. intros Hn Hs. induction Hs as [|x l Hs IH Hx]; [constructor|]. cbn [map] in Hn.
  apply NoDup_cons in Hn as [Hnx Hn]. constructor; [by apply IH|]. rewrite Forall_forall in Hx |- *. intros y Hy.
  specialize (Hx y Hy). unfold before. change (key_cmp o (key_of x) (key_of y)) with (item_cmp o x y).
  destruct (Z.eq_dec (item_cmp o x y) 0) as [E|]; [|lia]. apply (key_cmp_eq (key_of x) (key_of y)) in E.
  exfalso. apply Hnx. rewrite E. apply list_elem_of_fmap. by exists y.
Qed.

Lemma ascending_filter f l : ascending l -> ascending (List.filter f l).
Proof.
  unfold ascending. induction 1 as [|x l Hs IH Hx]; cbn; [constructor|]. destruct (f x); [|done]. constructor; [done|].
  rewrite Forall_forall in Hx |- *. intros y Hy. apply Hx. apply list_elem_of_In, filter_In in Hy as [Hy _]. by apply list_elem_of_In.
Qed.

Lemma ascending_app l1 l2 : ascending (l1 ++ l2) <->
  ascending l1 /\ ascending l2 /\ forall a b, a ∈ l1 -> b ∈ l2 -> before (key_of a) (key_of b).
Proof.
  unfold ascending. induction l1 as [|x l1 IH]; cbn; [split; [intros H; split_and!; [constructor|done|set_solver]|by intros (_ & H & _)]|].
  split.
  - intros [H Hx]%StronglySorted_inv. apply IH in H as (H1 & H2 & H3). rewrite Forall_app in Hx. destruct Hx as [Hx1 Hx2].
    rewrite Forall_forall in Hx2. split_and!; [by constructor|done|]. intros a b [->|Ha]%elem_of_cons Hb; [by apply Hx2|by apply H3].
  - intros ([H1 Hx]%StronglySorted_inv & H2 & H3). constructor; [apply IH; split_and!; [done..|set_solver]|].
    rewrite Forall_app. split; [done|]. rewrite Forall_forall. set_solver.
Qed.

Lemma distinct_keys_perm l l' : Permutation l l' -> distinct_keys l -> distinct_keys l'.
Proof. unfold distinct_keys. intros H. by rewrite (Permutation_map key_of H). Qed.

Lemma new_OrderedWalk_spec l after :
  distinct_keys l ->
  ascending (ow_items (new_OrderedWalk l o after)) /\
  forall i, i ∈ ow_items (new_OrderedWalk l o after) <-> i ∈ l /\ after_key after (key_of i).
Proof.
  intros Hd. cbn [ow_items new_OrderedWalk]. split.
  - apply ascending_filter, sorted_ascending; [eapply distinct_keys_perm, Hd; symmetry; apply sort_by_perm|].
    apply sort_by_sorted; [intros; apply orders_total, item_order|apply item_order].
  - intros i. rewrite list_elem_of_In, filter_In, <- list_elem_of_In. rewrite (sort_by_perm (item_cmp o) l).
    destruct after as [k|]; cbn [after_key]; [|naive_solver].
    unfold before. change (keyed o i k) with (key_cmp o (key_of i) k). rewrite (orders_flip _ (key_order o) (key_of i) k).
    rewrite Z.ltb_lt. split; intros [? ?]; (split; [done|lia]).
Qed.

(** A session: at each round the sandboxes are listed again, and the next ones after
    the last key served are served.  [true]: the last round said there are more. *)
Fixpoint ordered_rounds (after : option KeyCursor) (rounds : list (list SandboxListItem * option nat))
    : list SandboxListItem * bool :=
  match rounds with
  | [] => ([], true)
  | (l, n) :: rest =>
      let (served, w) := ow_take n (new_OrderedWalk l o after) in
      match rest with
      | [] => (served, ow_hasMore w)
      | _ => let (more, b) := ordered_rounds (ow_last w) rest in (served ++ more, b)
      end
  end.

Lemma ow_take_new n l after :
  let (served, w) := ow_take n (new_OrderedWalk l o after) in
  (exists unserved, ow_items (new_OrderedWalk l o after) = served ++ unserved /\ (ow_hasMore w = false -> unserved = [])) /\
  ow_last w = match last served with Some i => Some (key_of i) | None => after end.
Proof.
  unfold ow_take. set (w0 := new_OrderedWalk l o after). change (ow_index w0) with 0%nat. rewrite drop_0, Nat.sub_0_r.
  set (k := match n with Some n => (0 + n)%nat | None => length (ow_items w0) end).
  split; [|done]. exists (drop k (ow_items w0)). split; [by rewrite take_drop|]. unfold ow_hasMore. cbn [ow_index ow_items].
  intros H. apply Nat.ltb_ge in H. rewrite length_take in H. apply drop_ge. lia.
Qed.

Lemma last_ascending l i j : ascending l -> last l = Some i -> j ∈ l -> j = i \/ before (key_of j) (key_of i).
Proof.
  intros Ha Hl Hj. apply last_Some in Hl as [l' ->]. apply ascending_app in Ha as (_ & _ & H).
  apply elem_of_app in Hj as [Hj|Hj]; [right; apply H; set_solver|left; set_solver].
Qed.

Lemma ordered_rounds_spec after rounds :
  Forall (fun r => distinct_keys r.1) rounds ->
  ascending (ordered_rounds after rounds).1 /\
  (forall i, i ∈ (ordered_rounds after rounds).1 -> after_key after (key_of i)) /\
  ((ordered_rounds after rounds).2 = false ->
   forall x, after_key after (key_of x) -> (forall r, r ∈ rounds -> x ∈ r.1) -> x ∈ (ordered_rounds after rounds).1).
Proof.
  intros H. revert after. induction H as [|[l n] rest Hd _ IH]; intros after; [by split_and!; [constructor|set_solver|]|].
  cbn [fst] in Hd. cbn [ordered_rounds]. pose proof (ow_take_new n l after) as Ht. pose proof (new_OrderedWalk_spec l after Hd) as [Ha Hi].
  destruct (ow_take n (new_OrderedWalk l o after)) as [served w]. destruct Ht as [(un & Eu & Hm) El]. rewrite Eu in Ha, Hi.
  apply ascending_app in Ha as (Ha1 & _ & Ha3). specialize (IH (ow_last w)).
  assert (forall i, i ∈ served -> after_key after (key_of i)) as Hserved by (intros i Hin; apply Hi; set_solver).
  destruct rest as [|r rest].
  - split_and!; [done|done|]. cbn [snd fst]. intros Hf x Hx Hin. specialize (Hm Hf). subst un. rewrite app_nil_r in Hi.
    apply Hi. split; [apply (Hin (l, n)); set_solver|done].
  - destruct (ordered_rounds (ow_last w) (r :: rest)) as [more b]. destruct IH as (I1 & I2 & I3). cbn [fst snd] in *.
    assert (forall a c, a ∈ served -> after_key (ow_last w) c -> before (key_of a) c) as Hlast.
    { intros a c Hin. rewrite El. destruct (last served) as [j|] eqn:Ej; [|apply last_None in Ej; subst; set_solver].
      cbn. intros Hc. destruct (last_ascending served j a Ha1 Ej Hin) as [->|Hb]; [done|by eapply before_trans]. }
    split_and!.
    + apply ascending_app. split_and!; [done|done|]. intros a c Hin Hc. by apply Hlast, I2.
    + intros i [Hin|Hin]%elem_of_app; [by apply Hserved|]. apply I2 in Hin. rewrite El in Hin.
      destruct (last served) as [j|] eqn:Ej; [|done]. cbn in Hin.
      assert (j ∈ served) as Hj by (apply last_Some in Ej as [? ->]; set_solver). specialize (Hserved j Hj).
      destruct after as [k|]; [|done]. by eapply before_trans.
    + intros Hf x Hx Hin. apply elem_of_app.
      assert (x ∈ served ++ un) as Hs by (apply Hi; split; [apply (Hin (l, n)); set_solver|done]).
      apply elem_of_app in Hs as [Hs|Hs]; [by left|right]. apply I3; [done| |set_solver].
      rewrite El. destruct (last served) as [j|] eqn:Ej; [|done]. cbn. apply Ha3; [|done].
      apply last_Some in Ej as [? ->]. set_solver.
Qed.
End Ordered.


Lemma ascending_NoDup o l : ascending o l -> NoDup (map key_of l).
Proof.
  induction 1 as [|x l Hs IH Hx]; cbn; [constructor|]. constructor; [|done].
  intros Hin. apply list_elem_of_fmap in Hin as (y & E & Hy). rewrite Forall_forall in Hx. specialize (Hx y Hy).
  rewrite E in Hx. by eapply before_irrefl.
Qed.

(** C18. Paging through an ordered listing is robust to sandboxes that come and go
    between the pages.  Provided that none of the listings, taken by itself, holds two
    items with the same start and id (a sandbox twice: [listed_twice_served_twice]),
    and whatever else is listed at each page and however long the pages are: what is
    served is strictly sorted by start and id, so that no sandbox is served twice, and
    once there are no more pages every item that was in each of the listings has been
    served. *)
Theorem ordered_pages_robust o rounds :
  Forall (fun r => distinct_keys r.1) rounds ->
  ascending o (ordered_rounds o None rounds).1 /\
  NoDup (map key_of (ordered_rounds o None rounds).1) /\
  ((ordered_rounds o None rounds).2 = false ->
   forall x, (forall r, r ∈ rounds -> x ∈ r.1) -> x ∈ (ordered_rounds o None rounds).1).
Proof.
  intros H. destruct (ordered_rounds_spec o None rounds H) as (H1 & _ & H3).
  split_and!; [done|by eapply ascending_NoDup|]. intros Hf x. by apply H3.
Qed.

Definition sample_item (id : string) (ms : Z) : SandboxListItem := {|
  sandboxId := txt id; li_template := txt "arn"; li_state := txt "RUNNING"; startedAtMs := ms; li_metadata := None |}.

(** A sandbox is created between the pages, before the cursor. *)
Definition sample_rounds : list (list SandboxListItem * option nat) := [
  ([sample_item "c" 30; sample_item "a" 10; sample_item "b" 20], Some 2%nat);
  ([sample_item "c" 30; sample_item "a" 10; sample_item "new" 15; sample_item "b" 20], None)].

Lemma ordered_pages_robust_witness :
  map sandboxId (ordered_rounds asc None sample_rounds).1 = [txt "a"; txt "b"; txt "c"] /\
  NoDup (map key_of (ordered_rounds asc None sample_rounds).1).
Proof.
  split; [vm_compute; reflexivity|]. refine (proj1 (proj2 (ordered_pages_robust asc sample_rounds _))).
  constructor; [|constructor; [|constructor]]; apply (bool_decide_unpack (NoDup _)); vm_compute; exact I.
Defined.

(** Nothing removes what one listing holds twice: when the pages of AWS shift while
    they are being listed, its sandbox is served twice. *)
Example listed_twice_served_twice :
  (ordered_rounds asc None [([sample_item "a" 10; sample_item "a" 10], None)]).1 =
  [sample_item "a" 10; sample_item "a" 10].
Proof. vm_compute. reflexivity. Qed.
