(* ===== verification/Paginator.v ===== *)
(** * Paginator: serving a listing page by page

    src/clients/typescript/src/sandbox/paginator.ts: the generator that fetches the pages
    of AWS and keeps what matches, [startListing], and [SandboxListPaginator] with the
    [nextToken] it hands out.  The control plane, the agents and the index are a [Plane]
    of functions that also take the number of the request, so that an answer may change
    or fail at any time. *)

From stdpp Require Import base option list strings sets.
From Stdlib Require Import NArith ZArith Lia.
From S2P Require Import Prelude Text JsMap Limits Listing.

Local Open Scope nat_scope.

Record Plane := {
  listMicrovmsPage : nat -> ListFilters -> option text -> result MicrovmListPage;
  resolveTemplateArn : nat -> text -> result text;
  getMicrovm_state : nat -> text -> result text;
  probe : nat -> text -> result (bool * list (text * text));
  batchGet : nat -> list text -> result (list (text * IndexRecord));
  nowSeconds : nat -> Z
}.

(** A computation that makes requests: it knows how many were made. *)
Definition R (A : Type) : Type := nat -> result A * nat.

Definition rret {A} (a : A) : R A := fun n => (Ok a, n).
Definition rthrow {A} (e : error_class) : R A := fun n => (Throw e, n).
Definition rbind {A B} (m : R A) (k : A -> R B) : R B := fun n =>
  match m n with (Ok a, n') => k a n' | (Throw e, n') => (Throw e, n') end.
Definition rcatch {A} (m : R A) (h : error_class -> R A) : R A := fun n =>
  match m n with (Throw e, n') => h e n' | r => r end.
Definition request {A} (f : nat -> result A) : R A := fun n => (f n, S n).
Definition rlift {A} (x : result A) : R A := fun n => (x, n).

Declare Scope request_scope.
Notation "'do' x '<-' m 'in' k" := (rbind m (fun x => k)) (at level 10, x name, m at level 100, k at level 200) : request_scope.
Local Open Scope request_scope.

Section Paginator.
Context (sha256Hex : text -> text) (plane : Plane) (template : option text) (req : ListingRequest).

Definition RUNNING : text := txt "RUNNING".

Definition readMetadata (item : SandboxListItem) : R (option (list (text * text))) :=
  do state <- rcatch (do s <- request (fun n => getMicrovm_state plane n (sandboxId item)) in rret (Some s))
                     (fun e => if instance_of e SandboxNotFoundError then rret None else rthrow e) in
  match state with
  | None => rret None
  | Some s =>
      if negb (bool_decide (s = RUNNING)) then rret None else
      do response <- rcatch (request (fun n => probe plane n (sandboxId item))) (fun _ => rthrow SandboxError) in
      rret (if response.1 then Some response.2 else None)
  end.

Definition lookup_record (records : list (text * IndexRecord)) (id : text) : option IndexRecord :=
  snd <$> List.find (fun r => bool_decide (r.1 = id)) records.

Definition matching (f : ListFilters) (item : SandboxListItem) (records : list (text * IndexRecord)) : R (option SandboxListItem) :=
  if negb (accepts f item) then rret None
  else match index req with
  | Some _ => fun n => (Ok (joined item (lookup_record records (sandboxId item)) (wanted req) (nowSeconds plane n)), n)
  | None =>
      if negb (hasMetadata req) then rret (Some item) else
      do metadata <- readMetadata item in
      match metadata with
      | None => rret None
      | Some m => rret (if has_pairs (wanted req) m then Some (with_metadata item m) else None)
      end
  end.

(** The generator [matchingItems]: it is over once it has returned or thrown. *)
Record gen := { walk : PageWalk; records : list (text * IndexRecord); alive : bool }.

Definition with_walk (w : PageWalk) (g : gen) : gen := {| walk := w; records := records g; alive := alive g |}.
Definition finished (g : gen) : gen := {| walk := walk g; records := records g; alive := false |}.

(** One turn: an item, the end ([Some None]), or nothing yet. *)
Definition turn (f : ListFilters) (g : gen) (n : nat) : result (option (option SandboxListItem)) * gen * nat :=
  match pageToFetch (walk g) with
  | (Some tok, w) =>
      match request (fun n => listMicrovmsPage plane n f tok) n with
      | (Throw e, n) => (Throw e, finished (with_walk w g), n)
      | (Ok p, n) =>
          let w := acceptPage sha256Hex p w in
          match index req with
          | None => (Ok None, with_walk w g, n)
          | Some _ =>
              let candidates := map sandboxId (List.filter (accepts f) (buffer w)) in
              match request (fun n => batchGet plane n candidates) n with
              | (Throw e, n) => (Throw e, finished (with_walk w g), n)
              | (Ok rows, n) => (Ok None, {| walk := w; records := rows; alive := true |}, n)
              end
          end
      end
  | (None, w) =>
      match nextRaw sha256Hex w with
      | (None, w) => (Ok (Some None), finished (with_walk w g), n)
      | (Some raw, w) =>
          match matching f raw (records g) n with
          | (Throw e, n) => (Throw e, finished (with_walk w g), n)
          | (Ok (Some kept), n) => (Ok (Some (Some kept)), with_walk w g, n)
          | (Ok None, n) => (Ok None, with_walk w g, n)
          end
      end
  end.

(** [items.next()]; [None]: the fuel ran out. *)
Fixpoint gen_next (fuel : nat) (f : ListFilters) (g : gen) (n : nat) : option (result (option SandboxListItem) * gen * nat) :=
  if negb (alive g) then Some (Ok None, g, n) else
  match fuel with
  | O => None
  | S fuel' =>
      match turn f g n with
      | (Throw e, g, n) => Some (Throw e, g, n)
      | (Ok (Some x), g, n) => Some (Ok x, g, n)
      | (Ok None, g, n) => gen_next fuel' f g n
      end
  end.

(** Pulls items until there are [limit] or the generator ends. *)
Fixpoint pull (fuel : nat) (f : ListFilters) (limit : option nat) (served : list SandboxListItem) (g : gen) (n : nat)
    : option (result (list SandboxListItem) * gen * nat) :=
  match fuel with
  | O => None
  | S fuel' =>
      if match limit with Some l => l <=? length served | None => false end then Some (Ok served, g, n)
      else match gen_next fuel' f g n with
      | None => None
      | Some (Throw e, g, n) => Some (Throw e, g, n)
      | Some (Ok None, g, n) => Some (Ok served, g, n)
      | Some (Ok (Some item), g, n) => pull fuel' f limit (served ++ [item]) g n
      end
  end.

Record StartedListing := { st_filters : ListFilters; st_gen : gen; ordered : option OrderedWalk }.

Definition new_gen (c : PageCursor) : gen := {| walk := new_PageWalk c; records := []; alive := true |}.

Definition startListing (fuel : nat) (n : nat) : option (result StartedListing * nat) :=
  match (match template with
         | None => (Ok None, n)
         | Some t => (do arn <- request (fun n => resolveTemplateArn plane n t) in rret (Some arn)) n
         end) with
  | (Throw e, n) => Some (Throw e, n)
  | (Ok imageArn, n) =>
      let f := filters req imageArn in
      match resumeCursors sha256Hex (decoded req) f with
      | Throw e => Some (Throw e, n)
      | Ok (page, key) =>
          match order req with
          | None => Some (Ok {| st_filters := f; st_gen := new_gen page; ordered := None |}, n)
          | Some o =>
              match pull fuel f None [] (new_gen page) n with
              | None => None
              | Some (Throw e, _, n) => Some (Throw e, n)
              | Some (Ok all, g, n) => Some (Ok {| st_filters := f; st_gen := g; ordered := Some (new_OrderedWalk all o key) |}, n)
              end
          end
      end
  end.

Record SandboxListPaginator := { started : option StartedListing; hasNext : bool; nextToken : option doc }.

Definition settle (st : StartedListing) (hasMore : bool) (cursor : option ListCursor) : SandboxListPaginator := {|
  started := Some st; hasNext := hasMore;
  nextToken := if hasMore then tokenDocument (fingerprint sha256Hex (st_filters st)) <$> cursor else None |}.

Definition limit_nat : option nat := Z.to_nat <$> limit req.

Definition nextStreamed (fuel : nat) (st : StartedListing) (p : SandboxListPaginator) (n : nat)
    : option (result (list SandboxListItem) * SandboxListPaginator * nat) :=
  match pull fuel (st_filters st) limit_nat [] (st_gen st) n with
  | None => None
  | Some (Throw e, g, n) =>
      Some (Throw e, {| started := Some {| st_filters := st_filters st; st_gen := g; ordered := None |};
                        hasNext := hasNext p; nextToken := nextToken p |}, n)
  | Some (Ok served, g, n) =>
      Some (Ok served, settle {| st_filters := st_filters st; st_gen := g; ordered := None |}
                              (walk_hasMore (walk g)) (Some (PageAt (walk_cursor (walk g)))), n)
  end.

Definition nextOrdered (st : StartedListing) (ow : OrderedWalk) : list SandboxListItem * SandboxListPaginator :=
  let (served, ow) := ow_take limit_nat ow in
  (served, settle {| st_filters := st_filters st; st_gen := st_gen st; ordered := Some ow |}
                  (ow_hasMore ow) (KeyAt <$> ow_last ow)).

Definition nextItems (fuel : nat) (p : SandboxListPaginator) (n : nat)
    : option (result (list SandboxListItem) * SandboxListPaginator * nat) :=
  if negb (hasNext p) then Some (Throw SandboxError, p, n) else
  match (match started p with Some st => Some (Ok st, n) | None => startListing fuel n end) with
  | None => None
  | Some (Throw e, n) => Some (Throw e, p, n)
  | Some (Ok st, n) =>
      match ordered st with
      | None => nextStreamed fuel st p n
      | Some ow => let (served, p) := nextOrdered st ow in Some (Ok served, p, n)
      end
  end.

Definition new_paginator (token : option doc) : SandboxListPaginator := {| started := None; hasNext := true; nextToken := token |}.
End Paginator.

(** ** An account that stands still *)

(** What an account answers as long as nothing changes in it. *)
Record Account := {
  page : option text -> MicrovmListPage;
  state_of : text -> option text;
  probe_of : text -> bool * list (text * text)
}.

Section Still.
Context (sha256Hex : text -> text) (plane : Plane) (template : option text).
Context (account : Account) (arn : option text) (f : ListFilters) (wanted_pairs : option (list (text * text))).

(** The plane answers as the account does, whatever the number of the request; no page
    repeats a digest or is longer than asked. *)
Record still : Prop := {
  still_page : forall n f t, listMicrovmsPage plane n f t = Ok (page account t);
  still_state : forall n id, getMicrovm_state plane n id =
    match state_of account id with Some s => Ok s | None => Throw SandboxNotFoundError end;
  still_probe : forall n id, probe plane n id = Ok (probe_of account id);
  still_template : match template with None => arn = None | Some t => exists a, arn = Some a /\ forall n, resolveTemplateArn plane n t = Ok a end;
  still_distinct : forall t, distinct_page sha256Hex (page account t);
  still_size : forall t, length (items (page account t)) <= LIST_PAGE_SIZE;
  still_sha : forall t, hex_text 64 (sha256Hex t) = true
}.

(** A request for these sandboxes, in the order of AWS and without an index. *)
Record asks (req : ListingRequest) : Prop := {
  asks_filters : filters req arn = f;
  asks_index : index req = None;
  asks_order : order req = None;
  asks_metadata : hasMetadata req = bool_decide (is_Some wanted_pairs);
  asks_wanted : wanted req = default [] wanted_pairs
}.

(** What the listing makes of a sandbox. *)
Definition kept (item : SandboxListItem) : option SandboxListItem :=
  if negb (accepts f item) then None else
  match wanted_pairs with
  | None => Some item
  | Some pairs =>
      let (ready, metadata) := probe_of account (sandboxId item) in
      if bool_decide (state_of account (sandboxId item) = Some RUNNING) && ready && has_pairs pairs metadata
      then Some (with_metadata item metadata) else None
  end.

Context (Hstill : still) (req : ListingRequest) (Hreq : asks req).

Lemma still_match i n : exists n', matching plane req f i [] n = (Ok (kept i), n').
Proof.
  destruct Hreq as [_ Hi _ Hm Hw]. unfold matching, kept. destruct (accepts f i); [|by exists n]. cbn [negb].
  rewrite Hi, Hm. destruct wanted_pairs as [pairs|]; [|by exists n].
  rewrite bool_decide_eq_true_2 by by eexists. cbn [negb default] in *. unfold readMetadata, rbind, rcatch, request, rret, rthrow.
  rewrite (still_state Hstill). destruct (state_of account (sandboxId i)) as [s|]; [|change (instance_of _ _) with true; cbv iota; destruct (probe_of _ _); by eexists].
  destruct (decide (s = RUNNING)) as [->|Hs].
  - rewrite !bool_decide_eq_true_2 by done. cbn [negb andb]. rewrite (still_probe Hstill).
    destruct (probe_of account (sandboxId i)) as [[] m]; cbn [fst snd andb]; [|by eexists]. change (wanted req = pairs) in Hw. rewrite Hw.
    destruct (has_pairs pairs m); by eexists.
  - rewrite !bool_decide_eq_false_2 by congruence. cbn [negb andb]. destruct (probe_of _ _); by eexists.
Qed.

Definition kept_left (w : PageWalk) (ps : list MicrovmListPage) : list SandboxListItem :=
  omap kept (left_over sha256Hex (page account) w ps).

(** How many turns the generator may still take. *)
Definition size (w : PageWalk) (ps : list MicrovmListPage) : nat := length (left_over sha256Hex (page account) w ps) + length ps.
Definition turns_left (w : PageWalk) (ps : list MicrovmListPage) : nat := size w ps + (if loaded w then 0 else 1) + 1.

Record gen_ok (g : gen) (ps : list MicrovmListPage) : Prop := {
  gok_walk : walk_ok sha256Hex (page account) (walk g) ps;
  gok_records : records g = [];
  gok_dead : alive g = false -> left_over sha256Hex (page account) (walk g) ps = [] /\ walk_hasMore (walk g) = false
}.

Lemma exhausted w ps : walk_ok sha256Hex (page account) w ps -> loaded w = true -> buffer w = [] -> pw_nextToken w = None ->
  left_over sha256Hex (page account) w ps = [] /\ walk_hasMore w = false.
Proof.
  intros Hw Hl Hb Hn. assert (walk_hasMore w = false) as Hm by (unfold walk_hasMore; by rewrite Hb, Hl, Hn).
  split; [exact (no_more sha256Hex (page account) (still_distinct Hstill) w ps Hw Hm)|done].
Qed.

(** What may come of a generator: how much less is left, and whether it goes on. *)
Definition proceeds (g g' : gen) (ps ps' : list MicrovmListPage) (served : list SandboxListItem) : Prop :=
  gen_ok g' ps' /\ size (walk g') ps' <= size (walk g) ps /\ turns_left (walk g') ps' <= turns_left (walk g) ps /\
  served ++ kept_left (walk g') ps' = kept_left (walk g) ps /\
  (alive g' = true -> turns_left (walk g') ps' < turns_left (walk g) ps).

Lemma proceeds_fetch g w t ps :
  gen_ok g ps -> alive g = true -> pageToFetch (walk g) = (Some t, w) ->
  exists ps', proceeds g (with_walk (acceptPage sha256Hex (page account t) w) g) ps ps' [].
Proof.
  intros [Hw Hr Hd] Ha E. pose proof (pageToFetch_spec sha256Hex _ (still_distinct Hstill) (walk g) ps Hw) as Hp.
  rewrite E in Hp. destruct Hp as (ps' & Hw' & Hl & Ht & Hleft & Hlen).
  destruct (acceptPage_ok sha256Hex _ w ps' Hw' Hl) as [Hw2 Hleft2]. rewrite Ht in Hw2, Hleft2.
  exists ps'. unfold proceeds, kept_left, turns_left, size. cbn [walk with_walk]. rewrite Hleft2, Hleft.
  split; [split; [done|done|cbn; by rewrite Ha]|]. cbn [loaded acceptPage app].
  destruct (loaded (walk g)); (split_and!; [lia|lia|done|lia]).
Qed.

Lemma proceeds_raw g w i ps :
  gen_ok g ps -> alive g = true -> loaded (walk g) = true -> nextRaw sha256Hex (walk g) = (Some i, w) ->
  proceeds g (with_walk w g) ps ps (match kept i with Some k => [k] | None => [] end).
Proof.
  intros [Hw Hr Hd] Ha Hl E. pose proof (nextRaw_spec sha256Hex _ (still_distinct Hstill) (walk g) ps Hw Hl) as Hn.
  rewrite E in Hn. destruct Hn as (Hw' & Hl' & Hleft & _).
  unfold proceeds, kept_left, turns_left, size. cbn [walk with_walk]. rewrite Hleft, Hl, Hl'.
  split; [split; [done|done|cbn; by rewrite Ha]|]. cbn [length]. split_and!; [lia|lia| |lia]. cbn. by destruct (kept i).
Qed.

Lemma proceeds_trans g g1 g2 ps ps1 ps2 a b :
  proceeds g g1 ps ps1 a -> proceeds g1 g2 ps1 ps2 b -> alive g1 = true -> proceeds g g2 ps ps2 (a ++ b).
Proof.
  intros (H1 & H2 & H3 & H4 & H5) (I1 & I2 & I3 & I4 & I5) Ha. specialize (H5 Ha).
  split; [done|]. rewrite <- app_assoc, I4, H4. split_and!; [lia|lia|done|lia].
Qed.

(** One turn goes on, or ends when nothing is left. *)
Lemma turn_spec g ps n :
  gen_ok g ps -> alive g = true ->
  exists x g' n' ps', turn sha256Hex plane req f g n = (Ok x, g', n') /\ 
    proceeds g g' ps ps' (match x with Some (Some k) => [k] | _ => [] end) /\ alive g' = match x with Some None => false | _ => true end.
Proof.
  intros Hg Ha. pose proof Hg as [Hw Hr Hd]. unfold turn.
  pose proof (pageToFetch_spec sha256Hex _ (still_distinct Hstill) (walk g) ps Hw) as Hp.
  destruct (pageToFetch (walk g)) as [[t|] w] eqn:Ef.
  - unfold request. rewrite (still_page Hstill), (asks_index _ Hreq).
    destruct (proceeds_fetch g w t ps Hg Ha Ef) as [ps' H]. by eexists None, _, _, ps'.
  - destruct Hp as (-> & Hl & Hend). destruct (nextRaw sha256Hex (walk g)) as [[i|] w] eqn:En.
    + pose proof (proceeds_raw g w i ps Hg Ha Hl En) as H. rewrite Hr. destruct (still_match i n) as [n' E]. rewrite E.
      destruct (kept i) as [k|]; [by eexists (Some (Some k)), _, _, ps|by eexists None, _, _, ps].
    + pose proof (nextRaw_spec sha256Hex _ (still_distinct Hstill) (walk g) ps Hw Hl) as Hn. rewrite En in Hn.
      destruct Hn as [-> Hb]. destruct (Hend Hb) as [Hnone _]. eexists (Some None), _, _, ps. split; [reflexivity|].
      split; [|done]. split; [split; [done|done|]; intros _; by apply exhausted|]. by split_and!.
Qed.

Lemma gen_next_spec fuel g ps n :
  gen_ok g ps -> turns_left (walk g) ps <= fuel ->
  exists x g' n' ps', gen_next sha256Hex plane req fuel f g n = Some (Ok x, g', n') /\
    proceeds g g' ps ps' (from_option (fun k => [k]) [] x) /\ alive g' = bool_decide (is_Some x).
Proof.
  revert g ps n. induction fuel as [|fuel IH]; intros g ps n Hg Hf; [unfold turns_left in Hf; lia|]. cbn [gen_next].
  destruct (alive g) eqn:Ha; cbn [negb].
  - destruct (turn_spec g ps n Hg Ha) as (x & g1 & n1 & ps1 & E & H & Ha1). rewrite E. destruct x as [[k|]|].
    + by exists (Some k), g1, n1, ps1.
    + by exists None, g1, n1, ps1.
    + destruct (IH g1 ps1 n1) as (x & g2 & n2 & ps2 & E2 & H2 & Ha2); [apply H|destruct H as (_ & _ & _ & _ & H); specialize (H Ha1); lia|].
      exists x, g2, n2, ps2. split_and!; [done| |done]. by apply (proceeds_trans g g1 g2 ps ps1 ps2 []).
  - exists None, g, n, ps. split_and!; [done| |done]. split_and!; [done|lia|lia|done|by rewrite Ha].
Qed.

(** What a pull serves: the head of what is left, as long as asked unless there is no more. *)
Lemma pull_spec fuel limit served g ps n :
  gen_ok g ps -> turns_left (walk g) ps < fuel -> (forall l, limit = Some l -> length served <= l) ->
  exists more g' n' ps', pull sha256Hex plane req fuel f limit served g n = Some (Ok (served ++ more), g', n') /\
    gen_ok g' ps' /\ size (walk g') ps' <= size (walk g) ps /\ more ++ kept_left (walk g') ps' = kept_left (walk g) ps /\
    (walk_hasMore (walk g') = true -> limit = Some (length (served ++ more))).
Proof.
  revert served g ps n. induction fuel as [|fuel IH]; intros served g ps n Hg Hf Hl; [lia|]. cbn [pull].
  destruct (match limit with Some l => l <=? length served | None => false end) eqn:Hstop.
  - exists [], g, n, ps. rewrite app_nil_r. split_and!; [done|done|lia|done|]. intros _. destruct limit as [l|]; [|done].
    apply Nat.leb_le in Hstop. specialize (Hl l eq_refl). f_equal. lia.
  - destruct (gen_next_spec fuel g ps n Hg ltac:(lia)) as (x & g1 & n1 & ps1 & E & (Hg1 & Hs & Ht & Hk & Hlt) & Ha). rewrite E.
    destruct x as [k|]; cbn in Ha, Hk.
    + specialize (Hlt Ha). destruct (IH (served ++ [k]) g1 ps1 n1 Hg1 ltac:(lia)) as (more & g2 & n2 & ps2 & E2 & Hg2 & Hs2 & Hm & Hmore).
      { intros l ->. rewrite length_app. cbn. apply Nat.leb_gt in Hstop. lia. }
      exists (k :: more), g2, n2, ps2. rewrite <- Hk. rewrite <- app_assoc in E2, Hmore. cbn [app] in *.
      split_and!; [done|done|lia|by rewrite <- Hm|done].
    + exists [], g1, n1, ps1. rewrite app_nil_r. destruct (gok_dead _ _ Hg1 Ha) as [_ Hm0].
      split_and!; [done|done|done|done|by rewrite Hm0].
Qed.
End Still.

(** ** Sessions *)

Definition with_paging (o : ListingRequestOptions) (limit : option Z) (token : option doc) : ListingRequestOptions := {|
  o_templateVersion := o_templateVersion o; o_states := o_states o; o_metadata := o_metadata o; o_startedAfter := o_startedAfter o;
  o_order := o_order o; o_limit := limit; o_nextToken := token; o_index := o_index o |}.

Section Session.
Context (sha256Hex : text -> text) (plane : Plane) (template : option text) (fuel : nat).

(** Calls [nextItems] up to [k] times, while [hasNext]. *)
Fixpoint calls (req : ListingRequest) (k : nat) (p : SandboxListPaginator) (n : nat)
    : option (result (list SandboxListItem) * SandboxListPaginator * nat) :=
  match k with
  | O => Some (Ok [], p, n)
  | S k =>
      if negb (hasNext p) then Some (Ok [], p, n) else
      match nextItems sha256Hex plane template req fuel p n with
      | Some (Ok served, p, n) =>
          match calls req k p n with Some (Ok more, p, n) => Some (Ok (served ++ more), p, n) | r => r end
      | r => r
      end
  end.

(** A session: rounds of calls, each on a paginator made anew from the last [nextToken]
    with a limit of its own.  What was served, and the last [hasNext]. *)
Fixpoint session (o : ListingRequestOptions) (rounds : list (option Z * nat)) (token : option doc) (n : nat)
    : option (result (list SandboxListItem * bool)) :=
  match rounds with
  | [] => Some (Ok ([], true))
  | (l, k) :: rounds =>
      match listingRequest (with_paging o l token) with
      | Throw e => Some (Throw e)
      | Ok req =>
          match calls req k (new_paginator token) n with
          | None => None
          | Some (Throw e, _, _) => Some (Throw e)
          | Some (Ok served, p, n) =>
              if hasNext p
              then match session o rounds (nextToken p) n with Some (Ok (more, b)) => Some (Ok (served ++ more, b)) | r => r end
              else Some (Ok (served, false))
          end
      end
  end.
End Session.

Definition valid_limit (l : option Z) : Prop := match l with None => True | Some l => (1 <= l <= MAX_SAFE_INTEGER)%Z end.

(** What the calls of a session with limits ask for in all. *)
Fixpoint asked (rounds : list (option Z * nat)) : nat :=
  match rounds with
  | [] => 0
  | (l, k) :: rounds => match l with Some l => k * Z.to_nat l | None => 0 end + asked rounds
  end.

Section SessionStill.
Context (sha256Hex : text -> text) (plane : Plane) (template : option text) (account : Account) (arn : option text).
Context (o : ListingRequestOptions) (req0 : ListingRequest).
Context (Hrequest : listingRequest (with_paging o None None) = Ok req0) (Horder : o_order o = None) (Hindex : o_index o = None).
Context (Hstill : still sha256Hex plane template account arn).

Let f := filters req0 arn.
Let pairs := if hasMetadata req0 then Some (wanted req0) else None.
Let fp := fingerprint sha256Hex f.
Let left_of := kept_left sha256Hex account f pairs.
Let size_of := size sha256Hex account.

(** The token of a page of this listing, or none. *)
Definition carries (token : option doc) (c : PageCursor) : Prop :=
  match token with
  | None => c = FIRST_PAGE
  | Some d => decodeDocument d = Ok {| fingerprint_of := fp; cursor_of := PageAt c |}
  end.

Lemma hex_take n t : n <= 64 -> hex_text n (take n (sha256Hex t)) = true.
Proof.
  intros Hn. pose proof (still_sha _ _ _ _ _ Hstill t) as H. unfold hex_text in *.
  apply andb_true_iff in H as [Hl%Nat.eqb_eq Hh]. rewrite length_take, Hl, Nat.min_l, Nat.eqb_refl by done. cbn [andb].
  rewrite forallb_forall in Hh |- *. intros x Hx. apply Hh. rewrite <- (take_drop n (sha256Hex t)). apply in_or_app. by left.
Qed.

(** From here [rest] is to be served. *)
Definition stands (w : PageWalk) (ps : list MicrovmListPage) (bound : nat) (rest : list SandboxListItem) : Prop :=
  walk_ok sha256Hex (page account) w ps /\ left_of w ps = rest /\ size_of w ps <= bound.

Lemma listing_request l token c :
  valid_limit l -> carries token c ->
  exists req, listingRequest (with_paging o l token) = Ok req /\ asks arn f pairs req /\ limit req = l /\
    resumeCursors sha256Hex (decoded req) f = Ok (c, None).
Proof.
  intros Hl Hc. unfold listingRequest, with_paging in *. cbn [o_limit o_metadata o_order o_index o_nextToken o_states o_startedAfter o_templateVersion] in *.
  rewrite Horder, Hindex in *. change (validateLimit None) with (@Ok (option Z) None) in Hrequest.
  assert (validateLimit l = Ok l) as ->.
  { destruct l as [l|]; [|done]. cbn in Hl |- *. rewrite (proj2 (Z.ltb_ge MAX_SAFE_INTEGER _)), (proj2 (Z.ltb_ge l 1)) by lia. done. }
  set (meta := match o_metadata o with None => Ok None | Some m => _ end) in *. destruct meta as [m|e]; [|discriminate Hrequest].
  cbn [mbind result_bind] in Hrequest |- *.
  assert (match m with Some _ | _ => @None text end = None) as Hnone by by destruct m. rewrite Hnone in Hrequest |- *.
  destruct (if bool_decide (is_Some m) && _ then _ else _) as [[]|e]; [|discriminate Hrequest].
  rewrite (bool_decide_eq_false_2 (is_Some None)) in Hrequest |- * by by intros [? [=]].
  destruct (validateStartedAfter (o_startedAfter o)) as [t|e]; [|discriminate Hrequest].
  cbn in Hrequest. injection Hrequest as E. cbn [mbind result_bind].
  set (d := match token with Some _ => Some {| fingerprint_of := fp; cursor_of := PageAt c |} | None => None end).
  assert (match token with Some t => u ← decodeDocument t; Ok (Some u) | None => Ok None end = Ok d) as ->
    by (subst d; destruct token as [t'|]; [cbn in Hc |- *; by rewrite Hc|done]).
  assert (validateCursorForm d None = Ok tt) as Hform by (subst d; by destruct token). cbn [mbind result_bind]. rewrite Hform.
  eexists. split; [reflexivity|]. split; [|split; [done|]].
  - unfold pairs, f. rewrite <- E. split; [done..| |]; cbn [hasMetadata wanted]; by destruct m.
  - subst d. cbn [decoded]. destruct token as [t'|]; cbn in Hc |- *; [|by subst c].
    rewrite bool_decide_eq_true_2 by done. done.
Qed.

(** The cursor of a walk is read back from the token it is written to. *)
Lemma walk_token w ps bound rest :
  stands w ps bound rest ->
  exists c, carries (Some (tokenDocument fp (PageAt (walk_cursor w)))) c /\ stands (new_PageWalk c) ps bound rest.
Proof.
  intros (Hw & Hk & Hs). set (used := sort_by compareCodePoints (set_of (consumed w))).
  assert (forall d, d ∈ used <-> d ∈ consumed w) as Hused by (intros d; subst used; by rewrite sort_by_perm, set_of_elem).
  exists {| awsToken := pageToken w; pc_consumed := used |}. split.
  - cbn [carries]. rewrite token_roundtrip; [done|apply (hex_take 16); lia|]. cbn. rewrite set_of_id by apply Hw.
    split_and!; [|apply Hw|].
    + etrans; [exact (consumed_bound sha256Hex (page account) w ps Hw)|apply (still_size _ _ _ _ _ Hstill)].
    + apply Forall_forall. intros d Hd. apply (ok_used _ _ _ _ Hw) in Hd. apply list_elem_of_fmap in Hd as (i & -> & _). apply (hex_take 12); lia.
  - destruct (resume_walk sha256Hex (page account) w ps {| awsToken := pageToken w; pc_consumed := used |} Hw eq_refl Hused) as [H1 H2].
    split; [done|]. subst left_of size_of. unfold kept_left, size in *. by rewrite H2.
Qed.
(** A paginator that is to serve [rest], and whose token leads there too. *)
Definition serving (req : ListingRequest) (bound : nat) (p : SandboxListPaginator) (rest : list SandboxListItem) : Prop :=
  hasNext p = true /\ (exists c ps, carries (nextToken p) c /\ stands (new_PageWalk c) ps bound rest) /\
  match started p with
  | None => exists c ps, resumeCursors sha256Hex (decoded req) f = Ok (c, None) /\ stands (new_PageWalk c) ps bound rest
  | Some st => st_filters st = f /\ ordered st = None /\
      exists ps, gen_ok sha256Hex account (st_gen st) ps /\ stands (walk (st_gen st)) ps bound rest
  end.

Lemma start_spec req c n fuel :
  asks arn f pairs req -> resumeCursors sha256Hex (decoded req) f = Ok (c, None) ->
  exists n', startListing sha256Hex plane template req fuel n =
    Some (Ok {| st_filters := f; st_gen := new_gen c; ordered := None |}, n').
Proof.
  intros Hreq Hc. pose proof (still_template _ _ _ _ _ Hstill) as Ht. pose proof (asks_filters _ _ _ _ Hreq) as Hf.
  pose proof (asks_order _ _ _ _ Hreq) as Ho. unfold startListing. destruct template as [t|].
  - destruct Ht as (a & Ha & Ht). unfold rbind, rret, request. rewrite Ht, <- Ha, Hf, Hc, Ho. by eexists.
  - rewrite <- Ht, Hf, Hc, Ho. by eexists.
Qed.

Lemma streamed_spec req st p ps bound rest n fuel :
  asks arn f pairs req -> valid_limit (limit req) -> bound + 3 <= fuel ->
  st_filters st = f -> gen_ok sha256Hex account (st_gen st) ps -> stands (walk (st_gen st)) ps bound rest ->
  exists l rest' p' n', nextStreamed sha256Hex plane req fuel st p n = Some (Ok l, p', n') /\ l ++ rest' = rest /\
    (if hasNext p' then serving req bound p' rest' /\ limit_nat req = Some (length l) else rest' = []).
Proof.
  intros Hreq Hl Hfuel Hf Hg (Hw & Hk & Hs). unfold nextStreamed. rewrite Hf.
  destruct (pull_spec sha256Hex plane template account arn f pairs Hstill req Hreq fuel (limit_nat req) [] (st_gen st) ps n Hg)
    as (l & g & n' & ps' & E & Hg' & Hs' & Hk' & Hmore); [|cbn; lia|].
  { unfold turns_left. fold size_of. destruct (loaded _); lia. }
  rewrite E. exists l, (left_of (walk g) ps'). do 2 eexists. split; [reflexivity|]. split; [by rewrite <- Hk|]. cbn [hasNext settle].
  assert (stands (walk g) ps' bound (left_of (walk g) ps')) as Hst by (split_and!; [apply Hg'|done|fold size_of in Hs'; lia]).
  destruct (walk_hasMore (walk g)) eqn:Hm.
  - split; [|by apply Hmore]. split; [done|]. cbn [nextToken started settle st_filters]. split.
    + destruct (walk_token _ _ _ _ Hst) as (c & Hc & Hsc). by exists c, ps'.
    + split_and!; [done|done|]. by exists ps'.
  - unfold left_of, kept_left. by rewrite (no_more sha256Hex (page account) (still_distinct _ _ _ _ _ Hstill) (walk g) ps' (gok_walk _ _ _ _ Hg') Hm).
Qed.

Lemma next_spec req bound p rest n fuel :
  asks arn f pairs req -> valid_limit (limit req) -> bound + 3 <= fuel -> serving req bound p rest ->
  exists l rest' p' n', nextItems sha256Hex plane template req fuel p n = Some (Ok l, p', n') /\ l ++ rest' = rest /\
    (if hasNext p' then serving req bound p' rest' /\ limit_nat req = Some (length l) else rest' = []).
Proof.
  intros Hreq Hl Hfuel (Hn & _ & Hst). unfold nextItems. rewrite Hn. cbn [negb]. destruct (started p) as [st|].
  - destruct Hst as (Hf & Ho & ps & Hg & Hs). rewrite Ho. by eapply streamed_spec.
  - destruct Hst as (c & ps & Hc & Hs). destruct (start_spec req c n fuel Hreq Hc) as [n' E]. rewrite E. cbn [ordered].
    eapply streamed_spec; [done..| |exact Hs]. split; [apply Hs|done|done].
Qed.

Lemma calls_spec req bound k p rest n fuel :
  asks arn f pairs req -> valid_limit (limit req) -> bound + 3 <= fuel -> serving req bound p rest ->
  exists l rest' p' n', calls sha256Hex plane template fuel req k p n = Some (Ok l, p', n') /\ l ++ rest' = rest /\
    (if hasNext p' then serving req bound p' rest' /\ length l = match limit req with Some m => k * Z.to_nat m | None => 0 end
     else rest' = []).
Proof.
  intros Hreq Hl Hfuel. revert p rest n. induction k as [|k IH]; intros p rest n Hs; cbn [calls].
  - exists [], rest, p, n. split_and!; [done|done|]. destruct Hs as (Hn & Hs). rewrite Hn. split; [by split|by destruct (limit req)].
  - pose proof Hs as [Hn _]. rewrite Hn. cbn [negb].
    destruct (next_spec req bound p rest n fuel Hreq Hl Hfuel Hs) as (l & rest1 & p1 & n1 & E & Er & Hp). rewrite E.
    destruct (hasNext p1) eqn:Hn1.
    + destruct Hp as [Hs1 Hlen]. destruct (IH p1 rest1 n1 Hs1) as (l2 & rest2 & p2 & n2 & E2 & Er2 & Hp2). rewrite E2.
      exists (l ++ l2), rest2, p2, n2. rewrite <- app_assoc, Er2. split_and!; [done|done|]. destruct (hasNext p2); [|done].
      destruct Hp2 as [Hs2 Hlen2]. split; [done|]. unfold limit_nat in Hlen. rewrite length_app, Hlen2.
      destruct (limit req) as [m|]; [|done]. cbn in Hlen. injection Hlen as <-. lia.
    + subst rest1. exists l, [], p1, n1. assert (calls sha256Hex plane template fuel req k p1 n1 = Some (Ok [], p1, n1)) as ->
        by (destruct k; cbn; by rewrite ?Hn1). rewrite !app_nil_r in *. by rewrite Hn1.
Qed.

Lemma session_spec bound rounds token c ps rest n fuel :
  Forall (fun r => valid_limit r.1) rounds -> bound + 3 <= fuel -> carries token c -> stands (new_PageWalk c) ps bound rest ->
  exists l (more : bool), session sha256Hex plane template fuel o rounds token n = Some (Ok (l, more)) /\ l `prefix_of` rest /\
    if more then length l = asked rounds else l = rest.
Proof.
  intros Hr Hfuel. revert token c ps rest n. induction Hr as [|[l k] rounds Hl _ IH]; intros token c ps rest n Hc Hs; cbn [session asked].
  { exists [], true. split_and!; [done|apply prefix_nil|done]. }
  destruct (listing_request l token c Hl Hc) as (req & -> & Hreq & El & Hcur). cbn [fst] in Hl.
  destruct (calls_spec req bound k (new_paginator token) rest n fuel Hreq) as (served & rest1 & p1 & n1 & E & Er & Hp); [by rewrite El|done| |].
  { split; [done|]. cbn [nextToken started new_paginator]. split; by exists c, ps. }
  rewrite E, El in *. destruct (hasNext p1).
  - destruct Hp as [(Hn & (c1 & ps1 & Hc1 & Hs1) & _) Hlen].
    destruct (IH (nextToken p1) c1 ps1 rest1 n1 Hc1 Hs1) as (l2 & more & E2 & Hpre & H2). rewrite E2.
    exists (served ++ l2), more. rewrite <- Er. split_and!; [done|by apply prefix_app|].
    destruct more; [rewrite length_app; lia|by rewrite H2].
  - subst rest1. exists served, false. rewrite app_nil_r in Er. by subst rest.
Qed.
End SessionStill.

(** Everything that a listing of these pages is to serve. *)
Definition listed (account : Account) (req : ListingRequest) (arn : option text) (pages : list MicrovmListPage) : list SandboxListItem :=
  omap (kept account (filters req arn) (if hasMetadata req then Some (wanted req) else None)) (concat (map items pages)).

(** C17. Paging through a still account, without an order and without an index and with
    pages of which no two sandboxes have the same digest, serves every sandbox that
    matches exactly once and in the order of AWS, however the pages are cut by the limits and wherever the listing
    is resumed from a [nextToken]: a session ends without an error, has served a prefix of
    the listing that is the sum of its limits as long as [hasNext], and the whole listing
    once it is not, which is so when its limits ask for more than there is. *)
Theorem session_serves_once sha256Hex plane template account arn o req0 ps rounds n fuel :
  listingRequest (with_paging o None None) = Ok req0 -> o_order o = None -> o_index o = None ->
  still sha256Hex plane template account arn ->
  pages_from (page account) None (page account None :: ps) ->
  Forall (fun r => valid_limit r.1) rounds ->
  length (concat (map items (page account None :: ps))) + length ps + 3 <= fuel ->
  let all := listed account req0 arn (page account None :: ps) in
  exists served (more : bool), session sha256Hex plane template fuel o rounds None n = Some (Ok (served, more)) /\
    served `prefix_of` all /\ (if more then length served = asked rounds else served = all) /\
    (length all < asked rounds -> more = false).
Proof.
  intros Hreq Ho Hi Hst Hp Hl Hfuel all.
  assert (stands sha256Hex account arn req0 (new_PageWalk FIRST_PAGE) ps (length (concat (map items (page account None :: ps))) + length ps) all) as Hs.
  { unfold stands, all, listed, kept_left, size, left_over. cbn [consumed pageToken new_PageWalk FIRST_PAGE pc_consumed awsToken set_of foldl map concat].
    rewrite (unconsumed_nil sha256Hex). split_and!; [|done|done]. apply new_walk_ok; [done|cbn; set_solver]. }
  destruct (session_spec sha256Hex plane template account arn o req0 Hreq Ho Hi Hst _ rounds None FIRST_PAGE ps all n fuel Hl Hfuel eq_refl Hs)
    as (served & more & E & Hpre & H).
  exists served, more. split_and!; [done..|]. intros Hlt. destruct more; [|done]. apply prefix_length in Hpre. lia.
Qed.

(** A concrete account: three sandboxes on two pages. *)
Definition toy_sha (t : text) : text := take 64 (List.filter is_lower_hex t ++ replicate 64 48%N).
Definition toy_item (id : string) (state : string) : SandboxListItem := {|
  sandboxId := txt id; li_template := txt "arn"; li_state := txt state; startedAtMs := 0; li_metadata := None |}.
Definition toy_account : Account := {|
  page := fun t => match t with
    | None => {| items := [toy_item "a" "RUNNING"; toy_item "b" "RUNNING"]; page_nextToken := Some (txt "next") |}
    | Some _ => {| items := [toy_item "c" "SUSPENDED"; toy_item "d" "RUNNING"]; page_nextToken := None |} end;
  state_of := fun id => if bool_decide (id = txt "b") then None else Some RUNNING;
  probe_of := fun _ => (true, [(txt "team", txt "x")]) |}.
Definition toy_plane (failing : nat -> bool) : Plane := {|
  listMicrovmsPage := fun n _ t => Ok (page toy_account t);
  resolveTemplateArn := fun _ _ => Ok (txt "arn");
  getMicrovm_state := fun _ id => match state_of toy_account id with Some s => Ok s | None => Throw SandboxNotFoundError end;
  probe := fun n id => if failing n then Throw SandboxError else Ok (probe_of toy_account id);
  batchGet := fun _ _ => Ok [];
  nowSeconds := fun _ => 0%Z |}.
Definition toy_options : ListingRequestOptions := {|
  o_templateVersion := None; o_states := None; o_metadata := Some [(txt "team", Some (txt "x"))]; o_startedAfter := None;
  o_order := None; o_limit := None; o_nextToken := None; o_index := None |}.

Definition toy_request : ListingRequest := {|
  limit := None; order := None; decoded := None; hasMetadata := true; index := None; wanted := [(txt "team", txt "x")];
  filters := fun arn => new_ListFilters {| imageArn := arn; imageVersion := None; states := None; startedAfterMs := None;
    f_metadata := Some [(txt "team", txt "x")]; f_order := None; indexTable := None |} |}.

Lemma toy_sha_hex t : hex_text 64 (toy_sha t) = true.
Proof.
  unfold hex_text, toy_sha. apply andb_true_iff. split.
  - apply Nat.eqb_eq. rewrite length_take, length_app, length_replicate. lia.
  - apply forallb_forall. intros x Hx. assert (In x (List.filter is_lower_hex t ++ replicate 64 48%N)) as H
      by (rewrite <- (take_drop 64); apply in_or_app; by left).
    apply in_app_or in H as [H|H]; [by apply filter_In in H as [_ H]|]. by apply list_elem_of_In, elem_of_replicate in H as [-> _].
Qed.

Lemma toy_still : still toy_sha (toy_plane (fun _ => false)) (Some (txt "arn")) toy_account (Some (txt "arn")).
Proof.
  split; [done..| | | |apply toy_sha_hex].
  - by exists (txt "arn").
  - intros [t|]; apply (bool_decide_unpack (NoDup _)); vm_compute; exact I.
  - intros [t|]; cbn; unfold LIST_PAGE_SIZE; lia.
Qed.

Lemma session_serves_once_witness :
  exists served (more : bool),
    session toy_sha (toy_plane (fun _ => false)) (Some (txt "arn")) 20 toy_options [(Some 1%Z, 1); (Some 5%Z, 1)] None 0 = Some (Ok (served, more)) /\
    served `prefix_of` [with_metadata (toy_item "a" "RUNNING") [(txt "team", txt "x")]; with_metadata (toy_item "d" "RUNNING") [(txt "team", txt "x")]].
Proof.
  destruct (session_serves_once toy_sha (toy_plane (fun _ => false)) (Some (txt "arn")) toy_account (Some (txt "arn")) toy_options toy_request
    [page toy_account (Some (txt "next"))] [(Some 1%Z, 1); (Some 5%Z, 1)] 0 20) as (served & more & E & Hpre & _);
    [vm_compute; reflexivity|reflexivity|reflexivity|exact toy_still| | | |].
  - eapply pages_more; [reflexivity|]. by apply pages_last.
  - repeat constructor; done.
  - cbn. lia.
  - exists served, more. split; [exact E|]. exact Hpre.
Defined.

(** ** A call that fails *)

Section Failed.
Context (sha256Hex : text -> text) (plane : Plane) (template : option text) (req : ListingRequest).

Lemma turn_throw f g n e g' n' : turn sha256Hex plane req f g n = (Throw e, g', n') -> alive g' = false.
Proof.
  unfold turn, request. intros E. destruct (pageToFetch (walk g)) as [[t|] w].
  - destruct (listMicrovmsPage _ _ _ _); [destruct (index req); [destruct (batchGet _ _ _)|]|]; by simplify_eq.
  - destruct (nextRaw sha256Hex w) as [[i|] w']; [|by simplify_eq].
    destruct (matching plane req f i (records g) n) as [[[k|]|e'] n1]; by simplify_eq.
Qed.

Lemma gen_next_throw fuel f g n e g' n' : gen_next sha256Hex plane req fuel f g n = Some (Throw e, g', n') -> alive g' = false.
Proof.
  revert g n. induction fuel as [|fuel IH]; intros g n; cbn [gen_next]; (destruct (alive g); cbn [negb]; [|by intros [=]]); [done|].
  destruct (turn sha256Hex plane req f g n) as [[[x|e0] g1] n1] eqn:E; [destruct x; [by intros [=]|apply IH]|].
  intros [= -> -> ->]. by eapply turn_throw.
Qed.

Lemma pull_throw fuel f l served g n e g' n' : pull sha256Hex plane req fuel f l served g n = Some (Throw e, g', n') -> alive g' = false.
Proof.
  revert served g n. induction fuel as [|fuel IH]; intros served g n; cbn [pull]; [done|].
  destruct (match l with Some _ => _ | None => _ end); [by intros [=]|].
  destruct (gen_next sha256Hex plane req fuel f g n) as [[[[x|e0] g1] n1]|] eqn:E; [destruct x; [apply IH|by intros [=]]| |done].
  intros [= -> -> ->]. by eapply gen_next_throw.
Qed.

(** A listing whose generator is over. *)
Definition over (st : StartedListing) : Prop := ordered st = None /\ alive (st_gen st) = false.

Lemma throw_over fuel p n e p' n' st :
  nextItems sha256Hex plane template req fuel p n = Some (Throw e, p', n') -> hasNext p' = true -> started p' = Some st -> over st.
Proof.
  unfold nextItems. destruct (hasNext p) eqn:Hn; cbn [negb]; [|intros [= <- <- <-]; by rewrite Hn].
  destruct (match started p with Some _ => _ | None => _ end) as [[[st0|e0] n0]|] eqn:Es; [| |done].
  - destruct (ordered st0) as [ow|]; [by destruct (nextOrdered _ _ _ _)|]. unfold nextStreamed.
    destruct (pull sha256Hex plane req fuel _ _ _ _ _) as [[[[l|e0] g] n1]|] eqn:E; [by intros [=]| |done].
    intros [= <- <- <-] _ [= <-]. split; [done|]. cbn. by eapply pull_throw.
  - intros [= <- <- <-] _ Hst. by rewrite Hst in Es.
Qed.

Lemma over_next fuel p st m :
  hasNext p = true -> started p = Some st -> over st ->
  nextItems sha256Hex plane template req (S fuel) p m =
    Some (Ok [], settle sha256Hex st (walk_hasMore (walk (st_gen st))) (Some (PageAt (walk_cursor (walk (st_gen st))))), m).
Proof.
  intros Hn Hst [Ho Ha]. unfold nextItems. rewrite Hn, Hst, Ho. cbn [negb]. unfold nextStreamed. cbn [pull].
  assert (forall f n, gen_next sha256Hex plane req fuel f (st_gen st) n = Some (Ok None, st_gen st, n)) as Hg
    by (intros; destruct fuel; cbn; by rewrite Ha).
  destruct st as [f g [|]]; [done|]. cbn [st_filters st_gen] in *.
  destruct (match limit_nat req with Some _ => _ | None => _ end); [done|]. by rewrite Hg.
Qed.

(** A call of [nextItems] that fails once the listing is started, because a page or
    a [Health] could not be read, ends the listing without saying so: retried, it answers
    with no sandboxes and no error however many times it is called, and [hasNext] stays
    as it was, so that a caller who goes on while there is more never stops. *)
Theorem failed_call_serves_nothing_more fuel p n e p' n' st :
  nextItems sha256Hex plane template req fuel p n = Some (Throw e, p', n') -> hasNext p' = true -> started p' = Some st ->
  forall fuel' k m, exists p'', calls sha256Hex plane template (S fuel') req (S k) p' m = Some (Ok [], p'', m) /\
    hasNext p'' = walk_hasMore (walk (st_gen st)).
Proof.
  intros E Hn Hst fuel' k m. pose proof (throw_over _ _ _ _ _ _ _ E Hn Hst) as Hover.
  set (q := settle sha256Hex st (walk_hasMore (walk (st_gen st))) (Some (PageAt (walk_cursor (walk (st_gen st)))))).
  exists q. split; [|done]. assert (forall k, calls sha256Hex plane template (S fuel') req k q m = Some (Ok [], q, m)) as Hq.
  - clear k. induction k as [|k IH]; [done|]. cbn [calls]. destruct (hasNext q) eqn:Hq; [|done]. cbn [negb].
    rewrite (over_next fuel' q st m Hq eq_refl Hover). fold q. by rewrite IH.
  - cbn [calls]. rewrite Hn, (over_next fuel' p' st m Hn Hst Hover). cbn [negb]. fold q. by rewrite Hq.
Qed.
End Failed.

(** The first sandbox's [Health], the request of number 3, fails. *)
Definition toy_failing : Plane := toy_plane (fun n => n =? 3).
Definition toy_first : SandboxListPaginator * nat := Eval vm_compute in
  match nextItems toy_sha toy_failing (Some (txt "arn")) toy_request 20 (new_paginator None) 0 with
  | Some (_, p, n) => (p, n)
  | None => (new_paginator None, 0)
  end.
Definition toy_started : StartedListing := Eval vm_compute in
  default {| st_filters := filters toy_request None; st_gen := new_gen FIRST_PAGE; ordered := None |} (started toy_first.1).
Definition toy_retried : SandboxListPaginator := Eval vm_compute in
  settle toy_sha toy_started (walk_hasMore (walk (st_gen toy_started))) (Some (PageAt (walk_cursor (walk (st_gen toy_started))))).

Lemma failed_call_serves_nothing_more_witness :
  exists p'', calls toy_sha toy_failing (Some (txt "arn")) 5 toy_request 4 toy_first.1 toy_first.2 = Some (Ok [], p'', toy_first.2) /\
    hasNext p'' = true.
Proof.
  apply (failed_call_serves_nothing_more toy_sha toy_failing (Some (txt "arn")) toy_request 20 (new_paginator None) 0 SandboxError
    toy_first.1 toy_first.2 toy_started); vm_compute; reflexivity.
Defined.

(** Resumed from the token of the retried call, on agents that all answer, the sandbox
    whose [Health] failed is missing. *)
Example failed_call_loses_a_sandbox :
  calls toy_sha toy_failing (Some (txt "arn")) 5 toy_request 1 toy_first.1 toy_first.2 = Some (Ok [], toy_retried, toy_first.2) /\
  session toy_sha (toy_plane (fun _ => false)) (Some (txt "arn")) 20 toy_options [(None, 1)] None 0 =
    Some (Ok ([with_metadata (toy_item "a" "RUNNING") [(txt "team", txt "x")];
               with_metadata (toy_item "d" "RUNNING") [(txt "team", txt "x")]], false)) /\
  session toy_sha (toy_plane (fun _ => false)) (Some (txt "arn")) 20 toy_options [(None, 1)] (nextToken toy_retried) 0 =
    Some (Ok ([with_metadata (toy_item "d" "RUNNING") [(txt "team", txt "x")]], false)).
Proof. split_and!; vm_compute; reflexivity. Qed.
