(* ===== verification/Encoding.v ===== *)
(** * Encoding: UTF-8 and percent-encoding

    What [TextEncoder], [Buffer.from(s, "utf8")] and [encodeURIComponent] do to a string
    of code points, with the lemmas that the decoder of Sse.v reads the bytes back.
    GitArgs.v, Output.v and Transfer.v build on it. *)

From stdpp Require Import base option list strings sets.
From Stdlib Require Import NArith ZArith Lia.
From S2P Require Import Prelude Text Sse.

Local Open Scope N_scope.

(** A Unicode scalar value: a code point that is not a surrogate. *)
Definition scalar (c : N) : bool := (c <? 55296) || ((57344 <=? c) && (c <? 1114112)).

(** The bytes of a scalar value. *)
Definition utf8_char (c : N) : list N :=
  if c <? 128 then [c]
  else if c <? 2048 then [192 + c / 64; 128 + c mod 64]
  else if c <? 65536 then [224 + c / 4096; 128 + (c / 64) mod 64; 128 + c mod 64]
  else [240 + c / 262144; 128 + (c / 4096) mod 64; 128 + (c / 64) mod 64; 128 + c mod 64].

(** A lone surrogate is encoded as U+FFFD. *)
Definition utf8 (s : text) : list N := concat (map (fun c => utf8_char (if scalar c then c else Utf8.REPLACEMENT)) s).

Definition well_formed (s : text) : Prop := Forall (fun c => scalar c = true) s.

(** ** Percent-encoding *)

Definition PERCENT : N := 37.

(** [A-Za-z0-9-._~]: what RFC 3986 leaves as it is. *)
Definition unreserved (c : N) : bool :=
  is_digit c || ((65 <=? c) && (c <=? 90)) || ((97 <=? c) && (c <=? 122)) || existsb (N.eqb c) [45; 46; 95; 126].

Definition upper_hex (d : N) : N := if d <? 10 then d + 48 else d + 55.

Definition percent_byte (b : N) : text := if unreserved b then [b] else [PERCENT; upper_hex (b / 16); upper_hex (b mod 16)].

(** A reader of percent-encoded ASCII: the bytes it stands for. *)
Fixpoint percent_decode (s : text) : list N :=
  match s with
  | [] => []
  | c :: s' =>
      if c =? PERCENT then
        match s' with
        | h :: l :: s'' => digit_value h * 16 + digit_value l :: percent_decode s''
        | _ => [c]
        end
      else c :: percent_decode s'
  end.

(** ** UTF-8 read back *)

Ltac split_ltb :=
  repeat match goal with
  | |- context [N.ltb ?a ?b] => destruct (N.ltb_spec a b); try lia
  | |- context [N.leb ?a ?b] => destruct (N.leb_spec a b); try lia
  | |- context [N.eqb ?a ?b] => destruct (N.eqb_spec a b); try lia
  end.

Lemma scalar_spec c : scalar c = true <-> c < 55296 \/ 57344 <= c < 1114112.
Proof. unfold scalar. rewrite orb_true_iff, andb_true_iff, !N.ltb_lt, N.leb_le. lia. Qed.

Lemma within_range lo up b : lo <= b <= up -> (lo <=? b) && (b <=? up) = true.
Proof. intros. apply andb_true_iff. by rewrite !N.leb_le. Qed.

Lemma run_more n cp lo up b rest : lo <= b <= up ->
  Utf8.run {| Utf8.needed := S (S n); Utf8.code_point := cp; Utf8.lower := lo; Utf8.upper := up |} (b :: rest) =
  Utf8.run {| Utf8.needed := S n; Utf8.code_point := cp * 64 + (b - 128); Utf8.lower := 128; Utf8.upper := 191 |} rest.
Proof. intros H. cbn [Utf8.run]. unfold Utf8.step. cbn [Utf8.needed Utf8.lower Utf8.upper Utf8.code_point]. by rewrite within_range. Qed.

Lemma run_last cp lo up b rest : lo <= b <= up ->
  Utf8.run {| Utf8.needed := 1; Utf8.code_point := cp; Utf8.lower := lo; Utf8.upper := up |} (b :: rest) =
  cp * 64 + (b - 128) :: Utf8.run Utf8.initial rest.
Proof. intros H. cbn [Utf8.run]. unfold Utf8.step. cbn [Utf8.needed Utf8.lower Utf8.upper Utf8.code_point]. by rewrite within_range. Qed.

Lemma run_start b rest :
  Utf8.run Utf8.initial (b :: rest) = (let (out, st) := Utf8.start b in out ++ Utf8.run st rest).
Proof. done. Qed.

Lemma run_utf8_char c rest : scalar c = true -> Utf8.run Utf8.initial (utf8_char c ++ rest) = c :: Utf8.run Utf8.initial rest.
Proof.
  rewrite scalar_spec. intros Hc. unfold utf8_char.
  pose proof (N.div_mod c 64 ltac:(lia)) as H1. pose proof (N.mod_lt c 64 ltac:(lia)) as L1.
  pose proof (N.div_mod (c / 64) 64 ltac:(lia)) as H2. pose proof (N.mod_lt (c / 64) 64 ltac:(lia)) as L2.
  pose proof (N.div_mod (c / 64 / 64) 64 ltac:(lia)) as H3. pose proof (N.mod_lt (c / 64 / 64) 64 ltac:(lia)) as L3.
  assert (c / 4096 = c / 64 / 64) as E2 by (rewrite N.Div0.div_div; done).
  assert (c / 262144 = c / 64 / 64 / 64) as E3 by (rewrite !N.Div0.div_div; done).
  rewrite E3, E2. clear E2 E3. set (q1 := c / 64) in *. set (q2 := q1 / 64) in *. set (q3 := q2 / 64) in *.
  set (r1 := c mod 64) in *. set (r2 := q1 mod 64) in *. set (r3 := q2 mod 64) in *. clearbody q1 q2 q3 r1 r2 r3.
  destruct (N.ltb_spec c 128); [|destruct (N.ltb_spec c 2048); [|destruct (N.ltb_spec c 65536)]]; cbn [app]; rewrite run_start; unfold Utf8.start.
  - by rewrite (proj2 (N.leb_le c 127)) by lia.
  - rewrite (proj2 (N.leb_gt _ 127)), within_range by lia. cbn [app]. rewrite run_last by lia. f_equal. lia.
  - rewrite (proj2 (N.leb_gt _ 127)) by lia. replace ((194 <=? _) && _) with false by (symmetry; apply andb_false_iff; right; apply N.leb_gt; lia).
    rewrite within_range by lia. cbn [app].
    rewrite run_more by (destruct (N.eqb_spec (224 + q2) 224), (N.eqb_spec (224 + q2) 237); lia). rewrite run_last by lia. f_equal. lia.
  - rewrite (proj2 (N.leb_gt _ 127)) by lia. replace ((194 <=? _) && _) with false by (symmetry; apply andb_false_iff; right; apply N.leb_gt; lia).
    replace ((224 <=? _) && _) with false by (symmetry; apply andb_false_iff; right; apply N.leb_gt; lia).
    rewrite within_range by lia. cbn [app].
    rewrite run_more by (destruct (N.eqb_spec (240 + q3) 240), (N.eqb_spec (240 + q3) 244); lia). rewrite run_more, run_last by lia. f_equal. lia.
Qed.

Lemma utf8_cons c s : scalar c = true -> utf8 (c :: s) = utf8_char c ++ utf8 s.
Proof. intros H. unfold utf8. cbn. by rewrite H. Qed.

Lemma utf8_app s t : utf8 (s ++ t) = utf8 s ++ utf8 t.
Proof. unfold utf8. by rewrite map_app, concat_app. Qed.

(** What is encoded is read back, whatever follows. *)
Lemma run_utf8 s rest : well_formed s -> Utf8.run Utf8.initial (utf8 s ++ rest) = s ++ Utf8.run Utf8.initial rest.
Proof.
  induction 1 as [|c s Hc _ IH]; [done|]. rewrite utf8_cons, <- app_assoc by done. rewrite run_utf8_char by done. cbn. by rewrite IH.
Qed.

Lemma utf8_char_bytes c : c < 1114112 -> Forall (fun b => b < 256) (utf8_char c).
Proof.
  intros Hc. unfold utf8_char.
  pose proof (N.mod_lt c 64 ltac:(lia)). pose proof (N.mod_lt (c / 64) 64 ltac:(lia)). pose proof (N.mod_lt (c / 4096) 64 ltac:(lia)).
  assert (c < 2048 -> c / 64 < 32) by (intros; apply N.Div0.div_lt_upper_bound; lia).
  assert (c < 65536 -> c / 4096 < 16) by (intros; apply N.Div0.div_lt_upper_bound; lia).
  assert (c / 262144 < 5) by (apply N.Div0.div_lt_upper_bound; lia).
  repeat case_match; repeat constructor; rewrite ?N.ltb_lt, ?N.ltb_ge in *; lia.
Qed.

Lemma utf8_bytes s : Forall (fun b => b < 256) (utf8 s).
Proof.
  induction s as [|c s IH]; [constructor|]. unfold utf8. cbn. apply Forall_app. split; [|exact IH]. apply utf8_char_bytes.
  destruct (scalar c) eqn:E; [apply scalar_spec in E; lia|done].
Qed.

(** ** Percent-encoding read back *)

Lemma digit_value_upper d : d < 16 -> digit_value (upper_hex d) = d.
Proof.
  intros Hd. unfold upper_hex, digit_value, is_digit. destruct (N.ltb_spec d 10).
  - rewrite within_range by lia. lia.
  - replace ((48 <=? d + 55) && _) with false by (symmetry; apply andb_false_iff; right; apply N.leb_gt; lia).
    rewrite (proj2 (N.leb_gt 97 _)) by lia. lia.
Qed.

Lemma percent_reserved : unreserved PERCENT = false.
Proof. done. Qed.

Lemma percent_decode_byte b rest : b < 256 -> percent_decode (percent_byte b ++ rest) = b :: percent_decode rest.
Proof.
  intros Hb. unfold percent_byte. destruct (unreserved b) eqn:Hu.
  - cbn. destruct (N.eqb_spec b PERCENT) as [->|]; [by rewrite percent_reserved in Hu|done].
  - cbn. pose proof (N.div_mod b 16 ltac:(lia)). pose proof (N.mod_lt b 16 ltac:(lia)).
    assert (b / 16 < 16) by (apply N.Div0.div_lt_upper_bound; lia). rewrite !digit_value_upper by done. f_equal. lia.
Qed.

Lemma percent_decode_encode bytes : Forall (fun b => b < 256) bytes -> percent_decode (concat (map percent_byte bytes)) = bytes.
Proof. induction 1 as [|b bytes Hb _ IH]; [done|]. cbn [map concat]. by rewrite percent_decode_byte, IH. Qed.

(** The characters of percent-encoded text. *)
Definition percent_char (c : N) : bool := unreserved c || (c =? PERCENT).

Lemma upper_hex_unreserved d : d < 16 -> unreserved (upper_hex d) = true.
Proof.
  intros Hd. unfold upper_hex, unreserved, is_digit. destruct (N.ltb_spec d 10); [by rewrite within_range by lia|].
  rewrite (within_range 65 90) by lia. by rewrite orb_true_r.
Qed.

Lemma percent_byte_chars b : b < 256 -> Forall (fun c => percent_char c = true) (percent_byte b).
Proof.
  intros Hb. unfold percent_byte, percent_char. destruct (unreserved b) eqn:Hu; [by repeat constructor; rewrite Hu|].
  assert (b / 16 < 16) by (apply N.Div0.div_lt_upper_bound; lia). pose proof (N.mod_lt b 16 ltac:(lia)).
  repeat constructor; by rewrite !upper_hex_unreserved.
Qed.

Lemma percent_chars bytes : Forall (fun b => b < 256) bytes -> Forall (fun c => percent_char c = true) (concat (map percent_byte bytes)).
Proof. induction 1 as [|b bytes Hb _ IH]; [constructor|]. apply Forall_app. split; [by apply percent_byte_chars|done]. Qed.
