(* ===== verification/Output.v ===== *)
(** * Output: what a command writes, decoded, kept and ended

    The pure part of src/clients/typescript/src/sandbox/commands.ts, with the messages of
    sandbox/pty.ts: [DecodedStream], [OutputAccumulator], the table of [EndEvent]s, the
    adapters of the two kinds of streams and [CommandProgress].  A callback is the list
    of what it was called with; one that throws is not modelled.  Sizes are exact. *)

From stdpp Require Import base option list strings sets.
From Stdlib Require Import NArith ZArith Lia.
From S2P Require Import Prelude Text Sse Encoding RpcErrors.

Local Open Scope N_scope.

(** ** Incremental decoding *)

(** A [TextDecoder] between two calls with [{ stream: true }]; [started]: the place of a
    byte order mark is past. *)
Record TextDecoder := { utf8_state : Utf8.state; started : bool }.
Definition new_decoder : TextDecoder := {| utf8_state := Utf8.initial; started := false |}.

(** The code points that some bytes complete, and the state they leave. *)
Fixpoint scan_bytes (st : Utf8.state) (bytes : list N) : text * Utf8.state :=
  match bytes with
  | [] => ([], st)
  | b :: rest => let (out, st) := Utf8.step st b in let (more, st) := scan_bytes st rest in (out ++ more, st)
  end.

Definition without_bom (d : bool) (out : text) : text :=
  match out with c :: rest => if negb d && (c =? Utf8.BOM) then rest else out | [] => [] end.

Definition decode_stream (d : TextDecoder) (bytes : list N) : text * TextDecoder :=
  let (out, st) := scan_bytes (utf8_state d) bytes in
  (without_bom (started d) out, {| utf8_state := st; started := started d || negb (bool_decide (out = [])) |}).

Definition decode_flush (d : TextDecoder) : text := Utf8.run (utf8_state d) [].

(** ** DecodedStream *)

Record DecodedStream := {
  decoder : TextDecoder; maxBytes : N; parts : list (text * N);
  keptBytes : N; pendingBytes : N; droppedBytes : N; called : list text
}.

Definition new_stream (maxBytes : N) : DecodedStream := {|
  decoder := new_decoder; maxBytes := maxBytes; parts := [];
  keptBytes := 0; pendingBytes := 0; droppedBytes := 0; called := [] |}.

Definition stream_text (s : DecodedStream) : text := concat (map fst (parts s)).
Definition stream_truncated (s : DecodedStream) : bool := 0 <? droppedBytes s.

(** What is left of a part whose first [overflow] bytes are too many. *)
Definition tail_text (overflow : N) (t : text) : text :=
  strip_left (N.eqb Utf8.REPLACEMENT) (Utf8.decode (drop (N.to_nat overflow) (utf8 t))).

Fixpoint trim (max : N) (parts : list (text * N)) (kept dropped : N) : list (text * N) * N * N :=
  if kept <=? max then (parts, kept, dropped)
  else match parts with
  | [] => (parts, kept, dropped)
  | (t, size) :: rest =>
      let overflow := kept - max in
      if size <=? overflow then trim max rest (kept - size) (dropped + size)
      else ((tail_text overflow t, size - overflow) :: rest, kept - overflow, dropped + overflow)
  end.

(** [#emit], with the decoder and the count of pending bytes it is called with. *)
Definition emit (s : DecodedStream) (d : TextDecoder) (pending : N) (t : text) : option text * DecodedStream :=
  if bool_decide (t = []) then
    (None, {| decoder := d; maxBytes := maxBytes s; parts := parts s; keptBytes := keptBytes s;
              pendingBytes := pending; droppedBytes := droppedBytes s; called := called s |})
  else
    let '(ps, kept, dropped) := trim (maxBytes s) (parts s ++ [(t, pending)]) (keptBytes s + pending) (droppedBytes s) in
    (Some t, {| decoder := d; maxBytes := maxBytes s; parts := ps; keptBytes := kept;
                pendingBytes := 0; droppedBytes := dropped; called := called s ++ [t] |}).

Definition stream_feed (s : DecodedStream) (payload : list N) : option text * DecodedStream :=
  let (t, d) := decode_stream (decoder s) payload in
  emit s d (pendingBytes s + N.of_nat (length payload)) t.

Definition flush (s : DecodedStream) : DecodedStream :=
  (emit s new_decoder (pendingBytes s) (decode_flush (decoder s))).2.

(** ** OutputAccumulator *)

Inductive output_case := out_stdout (payload : list N) | out_stderr (payload : list N) | out_other.
Record DataEvent := { seq : N; output : output_case }.

Record OutputAccumulator := { acc_stdout : DecodedStream; acc_stderr : DecodedStream; lastSeq : N }.

Definition COMMAND_OUTPUT_MAX_BYTES : N := 67108864.

Definition new_accumulator (maxBytes : option N) : OutputAccumulator :=
  let max := default COMMAND_OUTPUT_MAX_BYTES maxBytes in
  {| acc_stdout := new_stream max; acc_stderr := new_stream max; lastSeq := 0 |}.

Definition acc_truncated (a : OutputAccumulator) : bool := stream_truncated (acc_stdout a) || stream_truncated (acc_stderr a).

(** [feed]: the new text of each stream. *)
Definition acc_feed (a : OutputAccumulator) (data : DataEvent) : option text * option text * OutputAccumulator :=
  let last := N.max (lastSeq a) (seq data) in
  match output data with
  | out_stderr payload =>
      let (t, s) := stream_feed (acc_stderr a) payload in
      (None, t, {| acc_stdout := acc_stdout a; acc_stderr := s; lastSeq := last |})
  | o =>
      let (t, s) := stream_feed (acc_stdout a) (match o with out_stdout payload => payload | _ => [] end) in
      (t, None, {| acc_stdout := s; acc_stderr := acc_stderr a; lastSeq := last |})
  end.

Definition feedTerminal (a : OutputAccumulator) (n : N) (payload : list N) : option text * OutputAccumulator :=
  let (t, s) := stream_feed (acc_stdout a) payload in
  (t, {| acc_stdout := s; acc_stderr := acc_stderr a; lastSeq := N.max (lastSeq a) n |}).

(** ** The end of a command *)

Record StreamError := { se_code : text; se_message : text }.
Record EndEvent := { end_exitCode : Z; exited : bool; end_status : text; end_error : option StreamError; end_signal : option Z }.

Record CommandResult := { stdout : text; stderr : text; exitCode : Z; truncated : bool }.

Record CommandExitError := {
  ex_message : text; ex_exitCode : Z; ex_stdout : text; ex_stderr : text; ex_error : option text;
  ex_grpcCode : option N; ex_truncated : bool
}.

(** A result or an error: [CommandExitError] and the others. *)
Inductive CommandOutcome := Completed (r : CommandResult) | ExitedWith (e : CommandExitError) | Failed (e : thrown).

Definition STATUS_EXITED : text := txt "exited".
Definition STATUS_SIGNALED : text := txt "signaled".
Definition STATUS_TIMEOUT : text := txt "timeout".
Definition STATUS_SUSPENDING : text := txt "suspending".
Definition STATUS_OUTPUT_TRUNCATED : text := txt "output_truncated".
Definition STATUS_SANDBOX_TIMEOUT : text := txt "sandbox_timeout".

Definition plain_error (class : error_class) : thrown := OwnError class None None false None.

(** The message of a [CommandExitError] carries the exit code and the status. *)
Definition exit_message (exitCode : Z) (status : text) : text :=
  txt "el comando termin" ++ [243] ++ txt " con exitCode=" ++ print_Z exitCode ++ txt " (" ++ status ++ txt ")".

Definition outcomeFromEnd (e : EndEvent) (out err : text) (cut : bool) : CommandOutcome :=
  let status := end_status e in
  if bool_decide (status = STATUS_SANDBOX_TIMEOUT) then Failed (sandboxTimeoutError None None)
  else if bool_decide (status = STATUS_TIMEOUT) then Failed (plain_error TimeoutError)
  else if bool_decide (status = STATUS_OUTPUT_TRUNCATED) then Failed (plain_error SandboxError)
  else if bool_decide (status = STATUS_SUSPENDING) then Failed (plain_error SandboxStateError)
  else match (if bool_decide (status = STATUS_EXITED) || bool_decide (status = STATUS_SIGNALED) then None else end_error e) with
  | Some err => Failed (plain_error (translateStreamError false (se_code err) (se_message err)))
  | None =>
      if (end_exitCode e =? 0)%Z then Completed {| stdout := out; stderr := err; exitCode := 0; truncated := cut |}
      else ExitedWith {|
        ex_message := exit_message (end_exitCode e) status; ex_exitCode := end_exitCode e; ex_stdout := out; ex_stderr := err;
        ex_error := Some status; ex_grpcCode := None; ex_truncated := cut |}
  end.

Definition acc_finish (a : OutputAccumulator) (e : EndEvent) : CommandOutcome * OutputAccumulator :=
  let a := {| acc_stdout := flush (acc_stdout a); acc_stderr := flush (acc_stderr a); lastSeq := lastSeq a |} in
  (outcomeFromEnd e (stream_text (acc_stdout a)) (stream_text (acc_stderr a)) (acc_truncated a), a).

Definition endErrorName (e : option EndEvent) : option text :=
  match e with
  | None => None
  | Some e =>
      match end_error e with
      | Some err => Some (se_code err)
      | None => if (end_exitCode e =? 0)%Z then None else Some (end_status e)
      end
  end.

(** ** The messages of a stream *)

Inductive OutputChunk := Stdout (t : text) | Stderr (t : text) | PtyBytes (bytes : list N).
Inductive Consumed := Chunk (seq : N) (output : OutputChunk) | Nothing | Ended (e : EndEvent) | Suspending (e : EndEvent).

(** A [ProcessEvent] and a [PtyServerMessage]; [PtyExited] has the fields of [EndEvent]. *)
Inductive message :=
  | M_started (pid : Z)
  | M_data (d : DataEvent)
  | M_end (e : EndEvent)
  | M_pty (n : N) (payload : list N)
  | M_exited (e : EndEvent)
  | M_other.

Inductive stream_kind := process_stream | pty_stream.

Definition consumedEnd (e : EndEvent) : Consumed :=
  if bool_decide (end_status e = STATUS_SUSPENDING) then Suspending e else Ended e.

(** [ProcessEvents.consume] and [PtyMessages.consume]. *)
Definition consume_message (k : stream_kind) (m : message) (a : OutputAccumulator) : Consumed * OutputAccumulator :=
  match k, m with
  | process_stream, M_data d =>
      match acc_feed a d with
      | (Some out, _, a) => (Chunk (seq d) (Stdout out), a)
      | (None, Some err, a) => (Chunk (seq d) (Stderr err), a)
      | (None, None, a) => (Nothing, a)
      end
  | process_stream, M_end e | pty_stream, M_exited e => (consumedEnd e, a)
  | pty_stream, M_pty n payload => (Chunk n (PtyBytes payload), (feedTerminal a n payload).2)
  | _, _ => (Nothing, a)
  end.

Definition pid_of (m : option message) : result Z :=
  match m with Some (M_started pid) => Ok pid | _ => Throw SandboxError end.

(** ** CommandProgress *)

Record CommandProgress := {
  pid : Z; kind : stream_kind; accumulator : OutputAccumulator; ended : option EndEvent;
  outcome : option CommandOutcome; disconnected : bool; suspended : bool
}.

Definition new_progress (pid : Z) (k : stream_kind) (maxBytes : option N) : CommandProgress := {|
  pid := pid; kind := k; accumulator := new_accumulator maxBytes; ended := None; outcome := None; disconnected := false; suspended := false |}.

Definition isFinished (p : CommandProgress) : bool := bool_decide (is_Some (outcome p)).

Definition progress_consume (p : CommandProgress) (m : message) : Consumed * CommandProgress :=
  let (c, a) := consume_message (kind p) m (accumulator p) in
  match c with
  | Ended e =>
      let (o, a) := acc_finish a e in
      (c, {| pid := pid p; kind := kind p; accumulator := a; ended := Some e; outcome := Some o; disconnected := disconnected p; suspended := suspended p |})
  | _ =>
      (c, {| pid := pid p; kind := kind p; accumulator := a; ended := ended p; outcome := outcome p; disconnected := disconnected p;
             suspended := match c with Suspending _ => true | _ => suspended p end |})
  end.

Definition set_suspended (b : bool) (p : CommandProgress) : CommandProgress := {|
  pid := pid p; kind := kind p; accumulator := accumulator p; ended := ended p; outcome := outcome p; disconnected := disconnected p; suspended := b |}.
Definition set_outcome (o : CommandOutcome) (p : CommandProgress) : CommandProgress := {|
  pid := pid p; kind := kind p; accumulator := accumulator p; ended := ended p; outcome := Some o; disconnected := disconnected p; suspended := suspended p |}.
Definition set_disconnected (p : CommandProgress) : CommandProgress := {|
  pid := pid p; kind := kind p; accumulator := accumulator p; ended := ended p; outcome := outcome p; disconnected := true; suspended := suspended p |}.

Definition resubscribed : CommandProgress -> CommandProgress := set_suspended false.
Definition fail (e : thrown) : CommandProgress -> CommandProgress := set_outcome (Failed e).

(** [resolve]: what [wait] answers. *)
Definition resolve (p : CommandProgress) : CommandOutcome * CommandProgress :=
  let o := default (Failed (plain_error SandboxError)) (outcome p) in (o, set_outcome o p).

(** ** What the decoder gives *)

Lemma scan_bytes_app st a b :
  scan_bytes st (a ++ b) =
  ((scan_bytes st a).1 ++ (scan_bytes (scan_bytes st a).2 b).1, (scan_bytes (scan_bytes st a).2 b).2).
Proof.
  revert st. induction a as [|x a IH]; intros st; cbn [app scan_bytes]; [cbn; by destruct (scan_bytes st b)|].
  destruct (Utf8.step st x) as [out st']. rewrite IH. destruct (scan_bytes st' a) as [more st'']. cbn. by rewrite app_assoc.
Qed.

Lemma run_scan st bytes : Utf8.run st bytes = (scan_bytes st bytes).1 ++ Utf8.run (scan_bytes st bytes).2 [].
Proof.
  revert st. induction bytes as [|b bytes IH]; intros st; [done|]. cbn [scan_bytes Utf8.run]. destruct (Utf8.step st b) as [out st'].
  rewrite IH. destruct (scan_bytes st' bytes) as [more st'']. cbn. by rewrite app_assoc.
Qed.

Definition decoded (bytes : list N) : text := without_bom false (scan_bytes Utf8.initial bytes).1.

Lemma without_bom_app a b : without_bom false (a ++ b) = without_bom false a ++ without_bom (negb (bool_decide (a = []))) b.
Proof. destruct a as [|c a]; [done|]. cbn. destruct b; by destruct (c =? Utf8.BOM). Qed.

Lemma decoded_run bytes : Utf8.decode bytes = without_bom false (Utf8.run Utf8.initial bytes).
Proof. unfold Utf8.decode, without_bom. by destruct (Utf8.run Utf8.initial bytes). Qed.

(** A state of the decoder that holds [held] bytes of a character. *)
Definition holding (st : Utf8.state) (held : nat) : Prop :=
  let (n, cp, lo, up) := st in
  let full := lo = 128 /\ up = 191 in
  match n, held with
  | O, O => True
  | 1%nat, 1%nat => 2 <= cp <= 31 /\ full
  | 1%nat, 2%nat => (32 <= cp <= 863 \/ 896 <= cp <= 1023) /\ full
  | 1%nat, 3%nat => 1024 <= cp <= 17407 /\ full
  | 2%nat, 1%nat => cp <= 15 /\ 128 <= lo /\ up <= 191 /\ (cp = 0 -> 160 <= lo) /\ (cp = 13 -> up <= 159)
  | 2%nat, 2%nat => 16 <= cp <= 271 /\ full
  | 3%nat, 1%nat => cp <= 4 /\ 128 <= lo /\ up <= 191 /\ (cp = 0 -> 144 <= lo) /\ (cp = 4 -> up <= 143)
  | _, _ => False
  end.

Lemma holding_initial : holding Utf8.initial 0.
Proof. done. Qed.

Lemma utf8_length_1 c : scalar c = true -> length (utf8 [c]) = length (utf8_char c).
Proof. intros H. by rewrite utf8_cons, app_nil_r. Qed.

Lemma utf8_char_length c :
  length (utf8_char c) = if c <? 128 then 1%nat else if c <? 2048 then 2%nat else if c <? 65536 then 3%nat else 4%nat.
Proof. unfold utf8_char. by repeat case_match. Qed.

(** What a byte does: what it completes are scalar values, and as long as none is a
    replacement, every byte is either in what came out or held. *)
Record accounts (out : text) (held held' n : nat) : Prop := {
  out_scalar : well_formed out;
  out_bytes : Utf8.REPLACEMENT ∉ out -> (length (utf8 out) + held' = held + n)%nat;
  none_lost : out = [] -> held' = (held + n)%nat
}.

Lemma accounts_none held n : accounts [] held (held + n) n.
Proof. split; [constructor|done|done]. Qed.

Lemma start_accounts b : b < 256 -> exists held', holding (Utf8.start b).2 held' /\ accounts (Utf8.start b).1 0 held' 1.
Proof.
  intros Hb. unfold Utf8.start. destruct (N.leb_spec b 127).
  - exists 0%nat. split; [done|]. cbn [fst]. assert (scalar b = true) by (apply scalar_spec; lia). split; [by repeat constructor| |done].
    intros _. rewrite utf8_length_1, utf8_char_length by done. rewrite (proj2 (N.ltb_lt b 128)) by lia. done.
  - destruct (N.leb_spec 194 b); cbn [andb];
      [|rewrite (proj2 (N.leb_gt 224 b)), (proj2 (N.leb_gt 240 b)) by lia; exists 0%nat; split; [done|]; split; [by repeat constructor|set_solver|done]].
    destruct (N.leb_spec b 223); [exists 1%nat; split; [cbn; lia|apply (accounts_none 0)]|].
    destruct (N.leb_spec 224 b); [|lia]. cbn [andb]. destruct (N.leb_spec b 239).
    { exists 1%nat. split; [|apply (accounts_none 0)]. cbn. destruct (N.eqb_spec b 224), (N.eqb_spec b 237); lia. }
    destruct (N.leb_spec 240 b); [|lia]. cbn [andb]. destruct (N.leb_spec b 244).
    { exists 1%nat. split; [|apply (accounts_none 0)]. cbn. destruct (N.eqb_spec b 240), (N.eqb_spec b 244); lia. }
    exists 0%nat. split; [done|]; split; [by repeat constructor|set_solver|done].
Qed.

Lemma held_small st held : holding st held -> (held <= 3)%nat.
Proof. destruct st as [n cp lo up]. cbn. destruct n as [|[|[|[|n]]]], held as [|[|[|[|held]]]]; lia. Qed.

Lemma step_accounts st held b : holding st held -> b < 256 ->
  exists held', holding (Utf8.step st b).2 held' /\ accounts (Utf8.step st b).1 held held' 1.
Proof.
  intros H Hb. destruct st as [n cp lo up]. unfold Utf8.step. cbn [Utf8.needed Utf8.lower Utf8.upper Utf8.code_point].
  destruct n as [|n]; [assert (held = 0%nat) as -> by (cbn in H; by destruct held); by apply start_accounts|].
  destruct ((lo <=? b) && (b <=? up)) eqn:Er.
  - rewrite andb_true_iff, !N.leb_le in Er. destruct n as [|n].
    + exists 0%nat. split; [done|]. cbn [fst]. assert (scalar (cp * 64 + (b - 128)) = true /\ length (utf8_char (cp * 64 + (b - 128))) = S held) as [Hs Hl].
      { rewrite scalar_spec, utf8_char_length. cbn in H. destruct held as [|[|[|[|held]]]]; split_ltb; lia. }
      split; [by repeat constructor| |done]. intros _. rewrite utf8_length_1 by done. rewrite Hl. lia.
    + exists (held + 1)%nat. split; [|apply accounts_none]. rewrite Nat.add_1_r.
      cbn in H |- *. destruct n as [|[|n]], held as [|[|[|held]]]; cbn in *; lia.
  - destruct (start_accounts b Hb) as (held' & H' & [H1 H2 H3]). destruct (Utf8.start b) as [out st']. exists held'. split; [done|].
    split; [by constructor| |done]. intros Hin. exfalso. apply Hin. by left.
Qed.

Lemma accounts_append out1 out2 held held1 held2 n1 n2 :
  accounts out1 held held1 n1 -> accounts out2 held1 held2 n2 -> accounts (out1 ++ out2) held held2 (n1 + n2).
Proof.
  intros [H1 H2 H3] [H4 H5 H6]. split.
  - by apply Forall_app.
  - intros Hr. rewrite not_elem_of_app in Hr. rewrite utf8_app, length_app. specialize (H2 (proj1 Hr)). specialize (H5 (proj2 Hr)). lia.
  - intros [-> ->]%app_nil. rewrite H6, H3 by done. lia.
Qed.

Lemma scan_accounts st held bytes : holding st held -> Forall (fun b => b < 256) bytes ->
  exists held', holding (scan_bytes st bytes).2 held' /\ accounts (scan_bytes st bytes).1 held held' (length bytes).
Proof.
  intros Hst Hb. revert st held Hst. induction Hb as [|b bytes Hb _ IH]; intros st held Hst.
  - exists held. split; [done|]. cbn. rewrite <- (Nat.add_0_r held) at 2. apply accounts_none.
  - destruct (step_accounts st held b Hst Hb) as (held1 & H1 & A1). cbn [scan_bytes]. destruct (Utf8.step st b) as [out st'].
    destruct (IH st' held1 H1) as (held2 & H2 & A2). exists held2. destruct (scan_bytes st' bytes) as [more st'']. split; [done|].
    cbn [fst length]. by apply (accounts_append out more held held1 held2 1).
Qed.

(** ** Trimming *)

Definition total (ps : list (text * N)) : N := foldr (fun p n => p.2 + n) 0 ps.
Definition texts (ps : list (text * N)) : text := concat (map fst ps).

Lemma strip_left_repeat n s : strip_left (N.eqb Utf8.REPLACEMENT) (repeat Utf8.REPLACEMENT n ++ s) = strip_left (N.eqb Utf8.REPLACEMENT) s.
Proof. by induction n. Qed.

Definition continuation (b : N) : Prop := 128 <= b <= 191.

Lemma run_continuations cs rest : Forall continuation cs ->
  Utf8.run Utf8.initial (cs ++ rest) = repeat Utf8.REPLACEMENT (length cs) ++ Utf8.run Utf8.initial rest.
Proof.
  induction 1 as [|c cs Hc _ IH]; [done|]. cbn [app length repeat]. rewrite run_start. unfold Utf8.start, continuation in *.
  rewrite (proj2 (N.leb_gt c 127)), (proj2 (N.leb_gt 194 c)), (proj2 (N.leb_gt 224 c)), (proj2 (N.leb_gt 240 c)) by lia. cbn [andb app].
  by rewrite IH.
Qed.

Lemma char_tail c n : scalar c = true -> (0 < n)%nat -> Forall continuation (drop n (utf8_char c)).
Proof.
  intros Hc%scalar_spec Hn. destruct n as [|n]; [lia|].
  pose proof (N.mod_lt c 64 ltac:(lia)). pose proof (N.mod_lt (c / 64) 64 ltac:(lia)). pose proof (N.mod_lt (c / 4096) 64 ltac:(lia)).
  assert (Forall continuation (tail (utf8_char c))) as H2.
  { unfold utf8_char, continuation. clear Hc. revert H H0 H1. generalize (c mod 64), ((c / 64) mod 64), ((c / 4096) mod 64). intros r1 r2 r3 L1 L2 L3.
    destruct (c <? 128), (c <? 2048), (c <? 65536); cbn [tail]; repeat (constructor; [lia|]); constructor. }
  change (Forall continuation (drop (S n) (utf8_char c))). apply (Forall_drop _ n) in H2. destruct (utf8_char c); [by rewrite drop_nil|done].
Qed.

(** Cutting an encoded text leaves the end of a character and whole ones. *)
Lemma utf8_drop t n : well_formed t -> exists a cs b, t = a ++ b /\ drop n (utf8 t) = cs ++ utf8 b /\ Forall continuation cs.
Proof.
  intros Ht. revert n. induction Ht as [|c t Hc Ht IH]; intros n; [exists [], [], []; split_and!; [done|apply drop_nil|constructor]|].
  rewrite utf8_cons by done. destruct (decide (n < length (utf8_char c))%nat) as [Hn|Hn].
  - destruct n as [|n]; [exists [], [], (c :: t); split_and!; [done| |constructor]; by rewrite utf8_cons|].
    exists [c], (drop (S n) (utf8_char c)), t. split_and!; [done| |by apply char_tail; [|lia]].
    rewrite drop_app_le by lia. done.
  - destruct (IH (n - length (utf8_char c))%nat) as (a & cs & b & -> & H1 & H2). exists (c :: a), cs, b. split_and!; [done| |done].
    rewrite <- H1, drop_app_ge by lia. done.
Qed.

Lemma decode_utf8 b : well_formed b -> exists a, b = a ++ Utf8.decode (utf8 b).
Proof.
  intros Hb. unfold Utf8.decode. rewrite <- (app_nil_r (utf8 b)), run_utf8 by done. change (Utf8.run Utf8.initial []) with (@nil N). rewrite app_nil_r.
  destruct b as [|c b]; [by exists []|]. destruct (c =? Utf8.BOM); [by exists [c]|by exists []].
Qed.

Lemma tail_text_suffix n t : well_formed t ->
  (exists a, t = a ++ tail_text n t) /\ (length (utf8 (tail_text n t)) <= length (utf8 t) - N.to_nat n)%nat.
Proof.
  intros Ht. destruct (utf8_drop t (N.to_nat n) Ht) as (a & cs & b & E & Hd & Hcs).
  assert (well_formed b) as Hb by (subst t; by apply Forall_app in Ht as [_ Hb]).
  assert (exists x, b = x ++ tail_text n t) as [x Ex].
  { unfold tail_text. rewrite Hd. destruct Hcs as [|c cs Hc Hcs].
    - cbn [app]. destruct (decode_utf8 b Hb) as [x Ex]. destruct (strip_left_suffix (N.eqb Utf8.REPLACEMENT) (Utf8.decode (utf8 b))) as [y Ey].
      exists (x ++ y). by rewrite <- app_assoc, <- Ey.
    - unfold Utf8.decode. rewrite run_continuations by by constructor. cbn [length repeat app].
      change (Utf8.REPLACEMENT =? Utf8.BOM) with false. cbv iota. cbn [strip_left].
      change (Utf8.REPLACEMENT =? Utf8.REPLACEMENT) with true. cbv iota. rewrite strip_left_repeat.
      rewrite <- (app_nil_r (utf8 b)), run_utf8, app_nil_r by done. apply strip_left_suffix. }
  split; [exists (a ++ x); by rewrite <- app_assoc, <- Ex|]. apply (f_equal length) in Hd. rewrite length_drop, length_app in Hd.
  assert (length (utf8 (tail_text n t)) <= length (utf8 b))%nat; [|lia]. rewrite Ex. rewrite utf8_app, length_app. lia.
Qed.

Definition size8 (t : text) : N := N.of_nat (length (utf8 t)).

Lemma size8_app a b : size8 (a ++ b) = size8 a + size8 b.
Proof. unfold size8. rewrite utf8_app, length_app. lia. Qed.

(** No run of parts up to the end is longer than the bytes it stands for, but for the
    start of a character that an earlier part was charged with. *)
Fixpoint charged (slack : N) (ps : list (text * N)) : Prop :=
  size8 (texts ps) <= total ps + slack /\ match ps with [] => True | _ :: rest => charged slack rest end.

Lemma total_app a b : total (a ++ b) = total a + total b.
Proof. induction a as [|p a IH]; [done|]. cbn [app total foldr]. fold (total (a ++ b)) (total a). rewrite IH. lia. Qed.

Lemma texts_app a b : texts (a ++ b) = texts a ++ texts b.
Proof. unfold texts. by rewrite map_app, concat_app. Qed.

Lemma total_cons t size ps : total ((t, size) :: ps) = size + total ps.
Proof. done. Qed.

Lemma texts_cons t size ps : texts ((t, size) :: ps) = t ++ texts ps.
Proof. done. Qed.

Record trimmed (max : N) (ps : list (text * N)) (kept dropped : N) (ps' : list (text * N)) (kept' dropped' : N) : Prop := {
  trim_bound : kept' <= max;
  trim_total : kept' = total ps';
  trim_sum : kept' + dropped' = kept + dropped;
  trim_mono : dropped <= dropped';
  trim_wf : Forall (fun p => well_formed p.1) ps';
  trim_suffix : exists lost, texts ps = lost ++ texts ps' /\ (dropped' = dropped -> lost = []);
  trim_charged : forall slack, charged slack ps -> charged slack ps'
}.

Lemma trimmed_same max ps kept dropped :
  kept <= max -> kept = total ps -> Forall (fun p => well_formed p.1) ps -> trimmed max ps kept dropped ps kept dropped.
Proof. intros. split; try done. by exists []. Qed.

Lemma trim_trimmed max ps kept dropped : Forall (fun p => well_formed p.1) ps -> kept = total ps ->
  let '(ps', kept', dropped') := trim max ps kept dropped in trimmed max ps kept dropped ps' kept' dropped'.
Proof.
  intros Hwf. revert kept dropped. induction Hwf as [|[t size] ps Ht Hps IH]; intros kept dropped E; cbn [trim].
  - destruct (N.leb_spec kept max); [by apply trimmed_same|cbn in E; lia].
  - destruct (N.leb_spec kept max) as [Hk|Hk].
    + apply trimmed_same; [done..|by constructor].
    + rewrite total_cons in E. destruct (N.leb_spec size (kept - max)) as [Hs|Hs].
      * specialize (IH (kept - size) (dropped + size) ltac:(lia)).
        destruct (trim max ps (kept - size) (dropped + size)) as [[ps' kept'] dropped'].
        destruct IH as [B T S Mo W [lost [L L0]] C]. split; try done; [lia|lia| |by intros slack [_ Hc]; apply C].
        exists (t ++ lost). split; [rewrite texts_cons, L; by rewrite app_assoc|]. lia.
      * destruct (tail_text_suffix (kept - max) t Ht) as [[a Ea] Hlen]. split.
        -- lia.
        -- rewrite total_cons. lia.
        -- lia.
        -- lia.
        -- constructor; [|done]. cbn in Ht |- *. rewrite Ea in Ht. by apply Forall_app in Ht as [_ Ht].
        -- exists a. split; [|lia]. by rewrite !texts_cons, app_assoc, <- Ea.
        -- intros slack [Hc Hr]. split; [|done]. rewrite !total_cons, !texts_cons, !size8_app in *.
           assert (size8 (texts ps) <= total ps + slack) by (destruct ps; destruct Hr as [Hr _] || done; exact Hr).
           unfold size8 in *. lia.
Qed.

(** ** The invariant of a stream *)

Lemma charged_push slack slack' ps t size :
  charged slack ps -> size8 t + slack <= size + slack' -> charged slack' (ps ++ [(t, size)]).
Proof.
  intros Hc Hs. induction ps as [|[u n] ps IH]; cbn [app charged].
  - destruct Hc as [Hc _]. rewrite total_cons, texts_cons, size8_app. change (size8 (texts [])) with 0. change (total []) with 0. split; [lia|]. cbn. lia.
  - destruct Hc as [Hc Hr]. split; [|by apply IH]. rewrite total_cons, texts_cons in *. rewrite total_app, texts_app, !size8_app in *.
    rewrite total_cons, texts_cons, size8_app. change (size8 (texts [])) with 0. change (total []) with 0. lia.
Qed.

Lemma charged_weaken slack slack' ps : charged slack ps -> slack <= slack' -> charged slack' ps.
Proof. intros Hc Hs. induction ps as [|p ps IH]; cbn [charged] in *; [split; [lia|done]|]. destruct Hc as [Hc Hr]. split; [lia|by apply IH]. Qed.

(** What the parts and the counters of a stream say of the output [seen] and of the
    [received] bytes. *)
Record keeps (s : DecodedStream) (seen : text) (received : N) : Prop := {
  k_called : concat (called s) = seen;
  k_total : keptBytes s = total (parts s);
  k_bound : keptBytes s <= maxBytes s;
  k_sum : keptBytes s + droppedBytes s + pendingBytes s = received;
  k_wf : Forall (fun p => well_formed p.1) (parts s);
  k_suffix : exists lost, seen = lost ++ stream_text s /\ (droppedBytes s = 0 -> lost = [])
}.

Lemma emit_keeps s seen received d n t : keeps s seen received -> well_formed t ->
  let s' := (emit s d (pendingBytes s + n) t).2 in
  keeps s' (seen ++ t) (received + n) /\ decoder s' = d /\ maxBytes s' = maxBytes s /\
  (t = [] -> parts s' = parts s /\ pendingBytes s' = pendingBytes s + n) /\
  (t <> [] -> pendingBytes s' = 0 /\ forall slack, charged slack (parts s ++ [(t, pendingBytes s + n)]) -> charged slack (parts s')).
Proof.
  intros [Hc Ht Hb Hs Hw (lost & Hl & Hl0)] Hwt s'. subst s'. unfold emit. destruct (bool_decide_reflect (t = [])) as [->|Hne]; cbn.
  - rewrite app_nil_r. split_and!; try done. split; cbn; try done; [lia|by exists lost].
  - pose proof (trim_trimmed (maxBytes s) (parts s ++ [(t, pendingBytes s + n)]) (keptBytes s + (pendingBytes s + n)) (droppedBytes s)) as H.
    destruct (trim _ _ _ _) as [[ps kept] dropped]. destruct H as [B T S Mo W [more [M M0]] C].
    { apply Forall_app. by repeat constructor. }
    { rewrite total_app, total_cons. change (total []) with 0. lia. }
    cbn. split_and!; try done. rewrite texts_app, texts_cons in M. change (texts []) with (@nil N) in M. rewrite app_nil_r in M.
    split; cbn; try done; [by rewrite concat_app, Hc; cbn; rewrite app_nil_r|lia|].
    exists (lost ++ more). unfold stream_text in *. cbn. fold (texts (parts s)) in Hl. fold (texts ps). split.
    + by rewrite Hl, <- !app_assoc, M.
    + intros E. rewrite Hl0, M0 by lia. done.
Qed.

(** The invariant of a stream that was fed [bytes]: [held] of them are the start of a
    character. *)
Record stream_ok (max : N) (s : DecodedStream) (bytes : list N) (held : nat) : Prop := {
  ok_max : maxBytes s = max;
  ok_state : utf8_state (decoder s) = (scan_bytes Utf8.initial bytes).2;
  ok_started : started (decoder s) = negb (bool_decide ((scan_bytes Utf8.initial bytes).1 = []));
  ok_holding : holding (utf8_state (decoder s)) held;
  ok_keeps : keeps s (decoded bytes) (N.of_nat (length bytes));
  ok_parts : started (decoder s) = false -> parts s = [];
  ok_pending : parts s <> [] -> pendingBytes s <= N.of_nat held;
  ok_charged : Utf8.REPLACEMENT ∉ decoded bytes -> charged (pendingBytes s + 3 - N.of_nat held) (parts s)
}.

Lemma stream_ok_new max : stream_ok max (new_stream max) [] 0.
Proof.
  split; try done.
  split; cbn; try done; first [lia|constructor|by exists []].
Qed.

Lemma without_bom_wf d out : well_formed out -> well_formed (without_bom d out).
Proof. destruct 1; cbn; [constructor|]. case_match; [done|by constructor]. Qed.

Lemma stream_feed_ok max s bytes held payload : stream_ok max s bytes held -> Forall (fun b => b < 256) payload ->
  exists held', stream_ok max (stream_feed s payload).2 (bytes ++ payload) held'.
Proof.
  intros [Hm Hs Hd Hh Hk Hp Hpend Hc] Hb. destruct (scan_accounts _ _ payload Hh Hb) as (held' & Hh' & [A1 A2 A3]). exists held'.
  unfold stream_feed, decode_stream. destruct (scan_bytes (utf8_state (decoder s)) payload) as [out st] eqn:Eo. cbn [fst snd] in *.
  set (t := without_bom (started (decoder s)) out). set (d := {| utf8_state := st; started := _ |}).
  assert (decoded (bytes ++ payload) = decoded bytes ++ t) as Ed.
  { unfold decoded. rewrite scan_bytes_app, <- Hs, Eo. cbn [fst]. rewrite without_bom_app. by rewrite <- Hd. }
  assert (size8 t <= size8 out /\ (Utf8.REPLACEMENT ∉ t -> Utf8.REPLACEMENT ∉ out)) as [Hst Hrt].
  { subst t. destruct out as [|c out]; cbn; [by split|]. destruct (negb _ && (c =? Utf8.BOM)) eqn:Eb; [|by split].
    apply andb_true_iff in Eb as [_ ->%N.eqb_eq]. split; [|intros H [H'|H']%elem_of_cons; done]. change (Utf8.BOM :: out) with ([Utf8.BOM] ++ out). rewrite size8_app. lia. }
  pose proof (held_small _ _ Hh) as Hsm.
  destruct (emit_keeps s (decoded bytes) _ d (N.of_nat (length payload)) t Hk (without_bom_wf _ _ A1)) as (Hk' & Hd' & Hm' & Hnil & Hcons).
  destruct (emit s d _ t) as [r s'] eqn:Es. cbn [fst snd] in *. subst d. split.
  - congruence.
  - rewrite Hd', scan_bytes_app, <- Hs, Eo. done.
  - rewrite Hd'. cbn. rewrite scan_bytes_app, <- Hs, Eo, Hd. cbn. destruct (scan_bytes Utf8.initial bytes).1, out; done.
  - by rewrite Hd'.
  - rewrite Ed, length_app, Nat2N.inj_add. exact Hk'.
  - rewrite Hd'. cbn. intros [E1 E2]%orb_false_iff. apply negb_false_iff, bool_decide_eq_true in E2. subst out.
    destruct (Hnil eq_refl) as [-> _]. by apply Hp.
  - intros Hne. destruct (decide (t = [])) as [Et|Et]; [|destruct (Hcons Et) as [-> _]; lia]. destruct (Hnil Et) as [E1 ->]. rewrite E1 in Hne.
    specialize (Hpend Hne). assert (out = []) as Eout.
    { subst t. destruct (started (decoder s)); [by destruct out|by rewrite Hp in Hne]. }
    specialize (A3 Eout). lia.
  - rewrite Ed, not_elem_of_app. intros [Hr1 Hr2]. specialize (Hc Hr1). specialize (A2 (Hrt Hr2)). fold (size8 out) in A2.
    destruct (decide (t = [])) as [Et|Et].
    + destruct (Hnil Et) as [-> ->]. eapply charged_weaken; [exact Hc|]. unfold size8 in *. lia.
    + destruct (Hcons Et) as [-> C]. apply C. eapply charged_push; [exact Hc|]. unfold size8 in *. lia.
Qed.

(** The bytes of a stream, as they arrive, and its end. *)
Definition feed_all (s : DecodedStream) (chunks : list (list N)) : DecodedStream := foldl (fun s c => (stream_feed s c).2) s chunks.

Lemma feed_all_ok max chunks s bytes held : stream_ok max s bytes held -> Forall (Forall (fun b => b < 256)) chunks ->
  exists held', stream_ok max (feed_all s chunks) (bytes ++ concat chunks) held'.
Proof.
  intros Hs Hb. revert s bytes held Hs. induction Hb as [|c chunks Hc _ IH]; intros s bytes held Hs.
  - exists held. by rewrite app_nil_r.
  - destruct (stream_feed_ok max s bytes held c Hs Hc) as [held1 H1]. destruct (IH _ _ _ H1) as [held2 H2]. exists held2. cbn.
    by rewrite app_assoc.
Qed.

Lemma flush_keeps max s bytes held : stream_ok max s bytes held ->
  keeps (flush s) (Utf8.decode bytes) (N.of_nat (length bytes)) /\ maxBytes (flush s) = max /\
  (Utf8.REPLACEMENT ∉ Utf8.decode bytes -> size8 (stream_text (flush s)) <= max + 3).
Proof.
  intros [Hm Hs Hd Hh Hk Hp Hpend Hc]. set (t := decode_flush (decoder s)).
  assert (Utf8.decode bytes = decoded bytes ++ t) as Ed.
  { rewrite decoded_run, run_scan, without_bom_app. unfold decoded, t, decode_flush. rewrite Hs. f_equal.
    unfold Utf8.run. destruct (Utf8.needed _); [done|]. cbn. by destruct (bool_decide _). }
  assert (t = [] \/ t = [Utf8.REPLACEMENT]) as Ht by (unfold t, decode_flush, Utf8.run; destruct (Utf8.needed _); auto).
  destruct (emit_keeps s (decoded bytes) _ new_decoder 0 t Hk) as (Hk' & _ & Hm' & Hnil & _); [destruct Ht as [-> | ->]; repeat constructor|].
  rewrite !N.add_0_r in *. change (emit s new_decoder (pendingBytes s) t).2 with (flush s) in *. rewrite Ed.
  split_and!; [done|by rewrite Hm'|].
  rewrite not_elem_of_app. intros [Hr Hrt]. destruct Ht as [Et|Et]; [|rewrite Et in Hrt; set_solver]. destruct (Hnil Et) as [Ep _].
  unfold stream_text. rewrite Ep. fold (texts (parts s)). specialize (Hc Hr). destruct Hk as [_ Ht Hb _ _ _]. rewrite Ht in Hb.
  destruct (decide (parts s = [])) as [->|Hne]; [change (size8 (texts [])) with 0; lia|]. specialize (Hpend Hne).
  assert (size8 (texts (parts s)) <= total (parts s) + (pendingBytes s + 3 - N.of_nat held)); [|lia].
  destruct (parts s); by destruct Hc.
Qed.

(** Whatever the process writes and however it is cut, the callback sees the decoding
    of all of it, a character split between two messages included; what is kept is its
    end, all of it unless it is reported as truncated; no more bytes are counted as kept
    than the limit, every byte is counted once, and the text itself takes at most three
    bytes more than the limit, unless the output holds bytes that are not UTF-8. *)
Theorem output_kept max chunks :
  Forall (Forall (fun b => b < 256)) chunks ->
  let s := flush (feed_all (new_stream max) chunks) in
  let all := Utf8.decode (concat chunks) in
  concat (called s) = all /\
  (exists lost, all = lost ++ stream_text s /\ (stream_truncated s = false -> lost = [])) /\
  keptBytes s <= max /\ keptBytes s + droppedBytes s + pendingBytes s = N.of_nat (length (concat chunks)) /\
  (Utf8.REPLACEMENT ∉ all -> size8 (stream_text s) <= max + 3).
Proof.
  intros Hb s all. destruct (feed_all_ok max chunks _ [] 0 (stream_ok_new max) Hb) as [held Hok].
  destruct (flush_keeps _ _ _ _ Hok) as ([Hc Ht Hbd Hs _ (lost & Hl & Hl0)] & Hm & Hmem). fold s in Hc, Ht, Hbd, Hs, Hl, Hl0, Hm, Hmem.
  rewrite Hm in Hbd. split_and!; try done. exists lost. split; [done|]. unfold stream_truncated. intros H%N.ltb_ge. apply Hl0. lia.
Qed.

Definition euros : list (list N) := [[226; 130; 172; 226]; [130; 172]; [97; 98; 226; 130; 172]].

Lemma output_kept_witness :
  let s := flush (feed_all (new_stream 6) euros) in
  (concat (called s) = Utf8.decode (concat euros) /\
   (exists lost, Utf8.decode (concat euros) = lost ++ stream_text s /\ (stream_truncated s = false -> lost = [])) /\
   keptBytes s <= 6 /\ keptBytes s + droppedBytes s + pendingBytes s = N.of_nat (length (concat euros)) /\
   (Utf8.REPLACEMENT ∉ Utf8.decode (concat euros) -> size8 (stream_text s) <= 6 + 3)) /\
  stream_text s = [97; 98; 8364] /\ stream_truncated s = true.
Proof.
  split; [|split; vm_compute; reflexivity].
  refine (output_kept 6 euros _). apply (bool_decide_unpack (Forall (Forall (fun b => b < 256)) euros)). vm_compute. exact I.
Defined.

(** With bytes that are not UTF-8 the limit is not one of the text: what a long message
    has too much is counted in the bytes received and cut from the bytes of its text,
    where every replacement takes three. *)
Example binary_output_kept :
  let s := (stream_feed (new_stream 10) (concat (repeat [255; 97] 100))).2 in
  keptBytes s = 10 /\ size8 (stream_text s) = 209.
Proof. by vm_compute. Qed.
