(* ===== verification/CommandRequests.v ===== *)
(** * CommandRequests: what the commands and terminals of a sandbox are asked with

    The requests of src/clients/typescript/src/sandbox/commands.ts and sandbox/pty.ts:
    the validation of pids, sequence numbers, sizes and timeouts, the deadlines of their
    streams and the messages that are sent. *)

From stdpp Require Import base option list strings.
From Stdlib Require Import NArith ZArith QArith Qround Qminmax Lia.
From S2P Require Import Prelude Text Encoding RpcErrors Output.
From S2P Require Payload.

Local Open Scope Z_scope.

(** ** Timeouts and deadlines *)

Definition DEFAULT_COMMAND_TIMEOUT_MS : Z := 60000.
Definition DEFAULT_PTY_TIMEOUT_MS : Z := 60000.
Definition STREAM_DEADLINE_GRACE_MS : Z := 5000.

(** Milliseconds: an integer or [Infinity]. *)
Inductive millis := Ms (n : Z) | Endless.

(** [Math.round] of a rational: halves go up. *)
Definition math_round (q : Q) : Z := Qfloor (q + (1 # 2)).

Definition timeoutToMs (timeoutMs : jsval) : result millis :=
  match timeoutMs with
  | JUndefined => Ok (Ms 0)
  | JNumber NaN | JNumber NegInf => Throw InvalidArgumentError
  | JNumber PosInf => Ok Endless
  | JNumber (Finite q) =>
      if Qle_bool 0 q then
        if Qeq_bool q 0 then Ok (Ms 0) else Ok (Ms (Z.max 1 (math_round q)))
      else Throw InvalidArgumentError
  | _ => Throw InvalidArgumentError
  end.

Definition streamDeadlineMs (timeoutMs : jsval) : result (option millis) :=
  ms ← timeoutToMs timeoutMs;
  Ok (match ms with
      | Ms 0 => None
      | Ms n => Some (Ms (n + STREAM_DEADLINE_GRACE_MS))
      | Endless => Some Endless
      end).

(** [BigInt(ms)]: a [RangeError] on [Infinity]. *)
Definition to_bigint (ms : millis) : result Z := match ms with Ms n => Ok n | Endless => Throw OtherError end.

(** The instant of a deadline; [None]: there is none, or it never comes. *)
Definition deadlineAt (deadlineMs : option millis) (now : Q) : option Q :=
  match deadlineMs with Some (Ms n) => Some (now + inject_Z n)%Q | _ => None end.

Definition remainingDeadlineMs (at_ : option Q) (now : Q) : option Z := (fun a => Z.max 0 (Qceiling (a - now))) <$> at_.

(** The deadline of [connect]: [timeoutToMs(..) || undefined]. *)
Definition connectDeadline (timeoutMs : jsval) : result (option millis) :=
  match timeoutMs with
  | JUndefined => Ok None
  | _ => ms ← timeoutToMs timeoutMs; Ok (match ms with Ms 0 => None | _ => Some ms end)
  end.

(** ** Validation *)

Definition PID_MAX : Z := 2 ^ 32 - 1.
Definition MAX_SAFE_INTEGER : Z := 2 ^ 53 - 1.
Definition MAX_PTY_DIMENSION : Z := 4096.
Definition DEFAULT_PTY_COLS : Z := 80.
Definition DEFAULT_PTY_ROWS : Z := 24.

Definition integer_within (lo : Z) (hi : option Z) (v : jsval) : result Z :=
  match integer_val v with
  | Some n => if (n <? lo) || match hi with Some h => h <? n | None => false end then Throw InvalidArgumentError else Ok n
  | None => Throw InvalidArgumentError
  end.

Definition validatePid : jsval -> result Z := integer_within 1 (Some PID_MAX).
Definition validateFromSeq : jsval -> result Z := integer_within 0 None.
Definition validateMaxOutputBytes : jsval -> result Z := integer_within 0 (Some MAX_SAFE_INTEGER).
Definition validatePtyDimension : jsval -> result Z := integer_within 1 (Some MAX_PTY_DIMENSION).

Record PtySize := { cols : Z; rows : Z }.

(** A [Partial<PtySize>]; [None]: [undefined]. *)
Definition validatePtySize (size : option (jsval * jsval)) : result (option PtySize) :=
  match size with
  | None => Ok None
  | Some (c, r) =>
      c ← validatePtyDimension (nullish c (jint DEFAULT_PTY_COLS));
      r ← validatePtyDimension (nullish r (jint DEFAULT_PTY_ROWS));
      Ok (Some {| cols := c; rows := r |})
  end.

Definition NUL : N := 0.

(** [validateShell]: a path with no NUL. *)
Definition validateShell (shell : option text) : result (option text) :=
  match shell with
  | None | Some [] => Ok None
  | Some s => if bool_decide (NUL ∈ s) || negb (starts_with (txt "/") s) then Throw InvalidArgumentError else Ok shell
  end.

Inductive stdin_data := Str (s : text) | Bytes (bytes : list N) | NotStdin.

Definition encodeStdin (d : stdin_data) : result (list N) :=
  match d with Str s => Ok (utf8 s) | Bytes b => Ok b | NotStdin => Throw InvalidArgumentError end.

(** ** Requests *)

Definition SHELL : text := txt "/bin/bash".
Definition SHELL_ARGS : list text := [txt "-l"; txt "-c"].

Record StartRequestInput := {
  in_envs : Payload.entries; in_user : option text; in_cwd : option text; in_stdin : bool;
  in_timeoutMs : jsval; in_tag : option text; in_killTree : bool
}.

Record StartRequest := {
  rq_cmd : text; rq_args : list text; rq_envs : list (text * text); rq_cwd : option text; rq_timeout_ms : Z;
  rq_stdin : bool; rq_user : option text; rq_tag : option text; rq_kill_tree : bool
}.

(** A string that is missing or empty is falsy. *)
Definition nonempty (s : option text) : option text := match s with Some [] => None | _ => s end.

Definition buildStartRequest (cmd : text) (i : StartRequestInput) : result StartRequest :=
  if bool_decide (Text.trim cmd = []) then Throw InvalidArgumentError else
  envs ← Payload.validatedEnvs (in_envs i);
  ms ← timeoutToMs (nullish (in_timeoutMs i) (jint DEFAULT_COMMAND_TIMEOUT_MS));
  timeout ← to_bigint ms;
  Ok {| rq_cmd := SHELL; rq_args := SHELL_ARGS ++ [cmd]; rq_envs := envs; rq_cwd := nonempty (in_cwd i); rq_timeout_ms := timeout;
        rq_stdin := in_stdin i; rq_user := nonempty (in_user i); rq_tag := in_tag i; rq_kill_tree := in_killTree i |}.

Record PtyStartInput := {
  pty_size : option (jsval * jsval); pty_user : option text; pty_cwd : option text; pty_envs : Payload.entries;
  pty_shell : option text; pty_timeoutMs : jsval
}.

Record PtyStart := {
  ps_timeout_ms : Z; ps_size : option PtySize; ps_envs : list (text * text); ps_cwd : option text; ps_user : option text; ps_shell : option text
}.

Definition buildPtyStartRequest (i : PtyStartInput) : result PtyStart :=
  ms ← timeoutToMs (nullish (pty_timeoutMs i) (jint DEFAULT_PTY_TIMEOUT_MS));
  timeout ← to_bigint ms;
  size ← validatePtySize (pty_size i);
  envs ← Payload.validatedEnvs (pty_envs i);
  shell ← validateShell (pty_shell i);
  Ok {| ps_timeout_ms := timeout; ps_size := size; ps_envs := envs; ps_cwd := nonempty (pty_cwd i); ps_user := nonempty (pty_user i); ps_shell := shell |}.

(** [{ pid, fromSeq }] of a [ConnectRequest], of a process or of a terminal. *)
Definition connectRequest (pid fromSeq : jsval) : result (Z * Z) :=
  p ← validatePid pid; s ← validateFromSeq fromSeq; Ok (p, s).

Definition buildSendInputRequest (pid : jsval) (data : stdin_data) : result (Z * list N) :=
  p ← validatePid pid; d ← encodeStdin data; Ok (p, d).

Definition buildResizeRequest (pid : jsval) (size : option (jsval * jsval)) : result (Z * PtySize) :=
  validated ← validatePtySize size;
  match validated with
  | None => Throw InvalidArgumentError
  | Some s => p ← validatePid pid; Ok (p, s)
  end.

Definition SIGKILL : Z := 9.

(** [kill], with the answer of the call: a pid that does not exist is not an error. *)
Definition kill (pid : jsval) (answer : Z -> unit + thrown) : (bool + thrown) :=
  match validatePid pid with
  | Throw e => inr (plain_error e)
  | Ok p =>
      match answer p with
      | inl _ => inl true
      | inr e => match e with OwnError c _ _ _ _ => if instance_of c NotFoundError then inl false else inr e | _ => inr e end
      end
  end.

(** ** Processes and metrics read back *)

Record ProcessConfig := { pc_cmd : text; pc_args : list text; pc_envs : list (text * text); pc_cwd : option text }.
Record ProcessInfoProto := { pp_pid : Z; pp_config : option ProcessConfig; pp_tag : option text; pp_pty : bool }.
Record ProcessInfo := {
  pi_pid : Z; pi_cmd : text; pi_args : list text; pi_envs : list (text * text); pi_cwd : option text; pi_tag : option text; pi_kind : text
}.

Definition processInfoFromProto (p : ProcessInfoProto) : ProcessInfo := {|
  pi_pid := pp_pid p; pi_cmd := default [] (pc_cmd <$> pp_config p); pi_args := default [] (pc_args <$> pp_config p);
  pi_envs := default [] (pc_envs <$> pp_config p); pi_cwd := c ← pp_config p; pc_cwd c; pi_tag := pp_tag p;
  pi_kind := if pp_pty p then txt "pty" else txt "process" |}.

(** ** [run] and [connect]: what is checked before a stream is opened *)

Record StreamPlan (R : Type) := { sp_request : R; sp_deadline : option millis; sp_maxBytes : Z }.
Arguments sp_request {R} _.
Arguments sp_deadline {R} _.
Arguments sp_maxBytes {R} _.

Definition COMMAND_OUTPUT_MAX_BYTES : Z := Z.of_N Output.COMMAND_OUTPUT_MAX_BYTES.

(** [run]: [apply] puts the secrets into the environment of the command. *)
Definition runPlan (apply : Payload.entries -> result Payload.entries) (cmd : text) (i : StartRequestInput) (maxOutputBytes : jsval) : result (StreamPlan StartRequest) :=
  max ← validateMaxOutputBytes (nullish maxOutputBytes (jint COMMAND_OUTPUT_MAX_BYTES));
  envs ← apply (in_envs i);
  request ← buildStartRequest cmd {| in_envs := envs; in_user := in_user i; in_cwd := in_cwd i; in_stdin := in_stdin i;
                                     in_timeoutMs := in_timeoutMs i; in_tag := in_tag i; in_killTree := in_killTree i |};
  deadline ← streamDeadlineMs (nullish (in_timeoutMs i) (jint DEFAULT_COMMAND_TIMEOUT_MS));
  Ok {| sp_request := request; sp_deadline := deadline; sp_maxBytes := max |}.

Definition connectPlan (pid fromSeq timeoutMs maxOutputBytes : jsval) : result (StreamPlan (Z * Z)) :=
  deadline ← connectDeadline timeoutMs;
  request ← connectRequest pid (nullish fromSeq (jint 0));
  max ← validateMaxOutputBytes (nullish maxOutputBytes (jint COMMAND_OUTPUT_MAX_BYTES));
  Ok {| sp_request := request; sp_deadline := deadline; sp_maxBytes := max |}.

(** The client gives up on a command five seconds after the agent's own timeout, and
    never when the agent has none. *)
Lemma runPlan_deadline apply cmd i m plan : runPlan apply cmd i m = Ok plan ->
  match sp_deadline plan with
  | Some (Ms d) => 0 < rq_timeout_ms (sp_request plan) /\ d = rq_timeout_ms (sp_request plan) + STREAM_DEADLINE_GRACE_MS
  | None => rq_timeout_ms (sp_request plan) = 0
  | Some Endless => False
  end.
Proof.
  unfold runPlan. destruct (validateMaxOutputBytes _) as [max|]; [|done]. cbn. destruct (apply _) as [envs|]; [|done]. cbn.
  unfold buildStartRequest, streamDeadlineMs. cbn [in_timeoutMs in_envs in_cwd in_stdin in_user in_tag in_killTree]. case_bool_decide; [done|].
  destruct (Payload.validatedEnvs envs) as [es|]; [|done]. cbn.
  destruct (timeoutToMs _) as [[n|]|] eqn:Et; [|done..]. cbn. intros [= <-]. cbn.
  assert (0 <= n) as Hn.
  { unfold timeoutToMs in Et. repeat case_match; try done; injection Et as <-; lia. }
  destruct n as [|n|n]; [done|lia|lia].
Qed.
