(* ===== verification/CommandHandle.v ===== *)
(** * CommandHandle: reading a command to its end, across cuts

    [CommandHandle] of src/clients/typescript/src/sandbox/commands.ts (and [PtyHandle] of
    sandbox/pty.ts, which only changes the messages of its stream): the loop of
    [chunks()], the consumption of a stream, the resubscription after a cut and
    [disconnect()].  One consumer reads a handle; at every await the environment answers,
    and says whether the caller meanwhile disconnected or aborted its signal. *)

From stdpp Require Import base option list strings sets.
From Stdlib Require Import NArith ZArith QArith Lia.
From S2P Require Import Prelude Text RpcErrors Output CommandRequests.
From S2P Require Reconnect.
Import Reconnect(ReconnectOutcome, resumed, generationChanged, oc_resumeGeneration, error, allows).

Local Open Scope nat_scope.

(** ** The environment *)

Inductive step_answer := Message (m : message) | Done | Broken (e : thrown).

(** What an await finds.  [next]: the iterator's answer, on a stream that was asked from a
    sequence number and has given so many messages with data. *)
Record moment := {
  next : N -> N -> step_answer;
  streamFailure : thrown -> thrown;
  reconnect : ReconnectOutcome + thrown;
  connect : option message + thrown;
  disconnects : bool;
  aborts : bool;
  paused : bool;
  closed : bool;
  clock : Q
}.

Inductive event :=
  | Received (m : message)
  | Yielded (c : OutputChunk)
  | Reconnecting (generation : Z) (wake : bool)
  | Subscribing (fromSeq : N)
  | LostOutput.

(** Streams are numbered as they are opened; [live]: the registry of the sandbox;
    [stopped]: those whose controller was aborted. *)
Record World := {
  used : nat; progress : CommandProgress; opened : nat; streams : nat; asked : N; read : N;
  live : list nat; stopped : list nat;
  generation : Z; pendingCut : option thrown; reconnectCount : nat; futile : nat; signalled : bool; log : list event
}.

Inductive failure := Throws (e : thrown) | SignalReason | OutOfFuel.

Definition M (A : Type) : Type := World -> (A + failure) * World.
Definition ret {A} (a : A) : M A := fun w => (inl a, w).
Definition throw {A} (e : failure) : M A := fun w => (inr e, w).
Definition bind {A B} (m : M A) (k : A -> M B) : M B := fun w =>
  match m w with (inl a, w) => k a w | (inr e, w) => (inr e, w) end.
Definition get : M World := fun w => (inl w, w).
Definition put (f : World -> World) : M unit := fun w => (inl tt, f w).

Declare Scope handle_scope.
Notation "'do' x '<-' m 'in' k" := (bind m (fun x => k)) (at level 10, x name, m at level 100, k at level 200) : handle_scope.
Notation "m ';;' k" := (bind m (fun _ => k)) (at level 100, k at level 200, right associativity) : handle_scope.
Local Open Scope handle_scope.

Definition with_progress (f : CommandProgress -> CommandProgress) (w : World) : World := {|
  used := used w; progress := f (progress w); opened := opened w; streams := streams w; asked := asked w; read := read w;
  live := live w; stopped := stopped w; generation := generation w; pendingCut := pendingCut w;
  reconnectCount := reconnectCount w; futile := futile w; signalled := signalled w; log := log w |}.

Definition with_log (e : event) (w : World) : World := {|
  used := used w; progress := progress w; opened := opened w; streams := streams w; asked := asked w; read := read w;
  live := live w; stopped := stopped w; generation := generation w; pendingCut := pendingCut w;
  reconnectCount := reconnectCount w; futile := futile w; signalled := signalled w; log := log w ++ [e] |}.

Definition with_cut (e : option thrown) (w : World) : World := {|
  used := used w; progress := progress w; opened := opened w; streams := streams w; asked := asked w; read := read w;
  live := live w; stopped := stopped w; generation := generation w; pendingCut := e;
  reconnectCount := reconnectCount w; futile := futile w; signalled := signalled w; log := log w |}.

Definition with_counts (g : Z) (n : nat) (f : nat) (w : World) : World := {|
  used := used w; progress := progress w; opened := opened w; streams := streams w; asked := asked w; read := read w;
  live := live w; stopped := stopped w; generation := g; pendingCut := pendingCut w;
  reconnectCount := n; futile := f; signalled := signalled w; log := log w |}.

(** [controller.abort()]: its listener takes the stream off the registry. *)
Definition abort_stream (id : nat) (w : World) : World := {|
  used := used w; progress := progress w; opened := opened w; streams := streams w; asked := asked w; read := read w;
  live := List.filter (fun i => negb (i =? id)) (live w); stopped := id :: stopped w;
  generation := generation w; pendingCut := pendingCut w;
  reconnectCount := reconnectCount w; futile := futile w; signalled := signalled w; log := log w |}.

(** [core.trackStream(controller)]. *)
Definition track (id : nat) (w : World) : World := {|
  used := used w; progress := progress w; opened := opened w; streams := streams w; asked := asked w; read := read w;
  live := id :: live w; stopped := stopped w; generation := generation w; pendingCut := pendingCut w;
  reconnectCount := reconnectCount w; futile := futile w; signalled := signalled w; log := log w |}.

(** A stream that [openStream] answered with, not yet the one of the handle. *)
Definition new_stream_id (w : World) : World := {|
  used := used w; progress := progress w; opened := opened w; streams := S (streams w); asked := asked w; read := read w;
  live := live w; stopped := stopped w; generation := generation w; pendingCut := pendingCut w;
  reconnectCount := reconnectCount w; futile := futile w; signalled := signalled w; log := log w |}.

Definition with_opened (id : nat) (fromSeq : N) (w : World) : World := {|
  used := used w; progress := progress w; opened := id; streams := streams w; asked := fromSeq; read := 0%N;
  live := live w; stopped := stopped w; generation := generation w; pendingCut := pendingCut w;
  reconnectCount := reconnectCount w; futile := futile w; signalled := signalled w; log := log w |}.

Definition is_data (m : message) : bool := match m with M_data _ | M_pty _ _ => true | _ => false end.

Definition received (m : message) (w : World) : World := {|
  used := used w; progress := progress w; opened := opened w; streams := streams w; asked := asked w;
  read := if is_data m then N.succ (read w) else read w;
  live := live w; stopped := stopped w; generation := generation w; pendingCut := pendingCut w;
  reconnectCount := reconnectCount w; futile := futile w; signalled := signalled w; log := log w ++ [Received m] |}.

(** [disconnect()]. *)
Definition disconnect (w : World) : World :=
  if disconnected (progress w) then w
  else abort_stream (opened w) (with_progress set_disconnected w).

Definition lastSeq_of (w : World) : N := lastSeq (accumulator (progress w)).

Section Handle.
Context (env : nat -> moment) (foreground has_signal : bool) (deadlineAtMs : option Q).

Definition await : M moment := fun w =>
  let m := env (used w) in
  let w := {| used := S (used w); progress := progress w; opened := opened w; streams := streams w; asked := asked w; read := read w;
              live := live w; stopped := stopped w; generation := generation w; pendingCut := pendingCut w;
              reconnectCount := reconnectCount w; futile := futile w; signalled := signalled w || (has_signal && aborts m); log := log w |} in
  (inl m, if disconnects m then disconnect w else w).

Definition releaseStream : M unit := put (fun w => abort_stream (opened w) w).

(** [throw progress.fail(e)]. *)
Definition throw_failed {A} (e : thrown) : M A := put (with_progress (fail e)) ;; throw (Throws e).

(** ** Consuming a stream *)

(** The failure of a stream; a closed sandbox reconnects nothing. *)
Definition consume_failed (e : thrown) : M (unit + unit) :=
  releaseStream ;;
  do w <- get in
  if signalled w then throw SignalReason
  else if disconnected (progress w) then ret (inl tt)
  else if negb (closed (env (used w))) && isReconnectable e then put (with_cut (Some e)) ;; ret (inl tt)
  else do m <- await in throw_failed (streamFailure m e).

(** [progress.consume(message)]. *)
Definition consume (m : message) : M Consumed := fun w =>
  let (c, p) := progress_consume (progress w) m in (inl c, with_progress (fun _ => p) (received m w)).

Definition consume_message (m : message) : M (unit + unit) :=
  do c <- consume m in
  (match c with Chunk _ output => put (with_log (Yielded output)) ;; await ;; ret tt | _ => ret tt end) ;;
  do w <- get in
  if isFinished (progress w) || suspended (progress w) then releaseStream ;; ret (inl tt) else ret (inr tt).

(** A turn of [consumeStream]; [inl]: it returned. *)
Definition consume_turn (_ : unit) : M (unit + unit) :=
  do w <- get in
  do m <- await in
  match next m (asked w) (read w) with
  | Broken e => consume_failed e
  | Done => releaseStream ;; ret (inl tt)
  | Message msg => consume_message msg
  end.

Fixpoint loop {A} (turn : unit -> M (A + unit)) (fuel : nat) : M A :=
  match fuel with
  | O => throw OutOfFuel
  | S fuel => do r <- turn tt in match r with inl a => ret a | inr _ => loop turn fuel end
  end.

Definition consumeStream (fuel : nat) : M unit := loop consume_turn fuel.

(** ** Resubscribing *)

Definition suspendingReason : thrown := plain_error SandboxStateError.
Definition deadlineError : thrown := plain_error TimeoutError.

Definition wakes : M bool := fun w => (inl (foreground && negb (paused (env (used w)))), w).

Definition remainingDeadline : M (option Z) := fun w =>
  match remainingDeadlineMs deadlineAtMs (clock (env (used w))) with
  | Some r => if (r <=? 0)%Z then throw_failed deadlineError w else (inl (Some r), w)
  | None => (inl None, w)
  end.

(** [openConnect]: the stream, whose first message must name the process. *)
Definition openConnect (fromSeq : N) : M nat :=
  put (with_log (Subscribing fromSeq)) ;;
  do m <- await in
  match connect m with
  | inr e => throw (Throws e)
  | inl first =>
      put new_stream_id ;;
      do w <- get in
      match pid_of first with
      | Throw c => throw (Throws (plain_error c))
      | Ok p =>
          if (p =? pid (progress w))%Z then ret (streams w)
          else put (abort_stream (streams w)) ;; throw (Throws (plain_error SandboxError))
      end
  end.

Definition resubscribe (fromSeq : N) : M nat := remainingDeadline ;; openConnect fromSeq.

Definition catch {A} (m : M A) (h : thrown -> M A) : M A := fun w =>
  match m w with (inr (Throws e), w) => h e w | r => r end.

(** [retry] after output was lost: its cause is the error that said so. *)
Definition with_cause (retry e : thrown) : thrown :=
  match retry with
  | OwnError c code detail t _ => OwnError c code detail t (Some e)
  | ConnectError code msg _ => ConnectError code msg (Some e)
  | NodeError code sys _ => NodeError code sys (Some e)
  | PlainObject _ _ _ | NotAnObject => OwnError SandboxError None None false (Some e)
  end.

Definition resubscribeFromLive (e : thrown) : M nat :=
  put (with_log LostOutput) ;;
  catch (resubscribe 0) (fun retry => throw_failed (with_cause retry e)).

(** What the agent answers when it no longer holds what was asked for. *)
Definition out_of_range (e : thrown) : bool :=
  match e with OwnError c _ code _ _ => instance_of c NotFoundError && bool_decide (code = Some OutOfRange) | _ => false end.

(** [error instanceof Error ? error : new SandboxError(String(error))]. *)
Definition as_error (e : thrown) : thrown := match e with PlainObject _ _ _ | NotAnObject => plain_error SandboxError | _ => e end.

Definition futileCut (reason : thrown) : M thrown :=
  match reason with
  | ConnectError _ _ _ => do m <- await in ret (streamFailure m reason)
  | _ => ret reason
  end.

Definition resubscribeAfterCut : M unit :=
  do w <- get in
  let reason := default suspendingReason (pendingCut w) in
  put (with_cut None) ;;
  do wake <- wakes in
  put (with_log (Reconnecting (generation w) wake)) ;;
  do m <- await in
  match reconnect m with
  | inr e => throw (Throws e)
  | inl outcome =>
      if negb (resumed outcome) then throw_failed (default reason (error outcome)) else
      put (fun w => with_counts (oc_resumeGeneration outcome) (reconnectCount w) (futile w) w) ;;
      do w <- get in
      if disconnected (progress w) then ret tt else
      let (allowed, count) := allows (futile w) outcome in
      put (fun w => with_counts (generation w) (reconnectCount w) count w) ;;
      if negb allowed then do e <- futileCut reason in throw_failed e else
      let from := N.succ (lastSeq_of w) in
      do opened <- catch (do id <- resubscribe from in ret (id, from))
        (fun e => if out_of_range e then do id <- resubscribeFromLive e in ret (id, 0%N) else throw_failed (as_error e)) in
      put (with_opened opened.1 opened.2) ;;
      put (fun w => track (CommandHandle.opened w) w) ;;
      put (with_progress resubscribed) ;;
      put (fun w => with_counts (generation w) (S (reconnectCount w)) (futile w) w)
  end.

Definition cut (w : World) : bool := suspended (progress w) || bool_decide (is_Some (pendingCut w)).

Definition over (w : World) : bool := isFinished (progress w) || disconnected (progress w).

Definition chunks_turn (fuel : nat) (_ : unit) : M (unit + unit) :=
  do w <- get in
  if over w then ret (inl tt) else
  consumeStream fuel ;;
  do w <- get in
  if over w || negb (cut w) then ret (inl tt)
  else resubscribeAfterCut ;; ret (inr tt).

Definition chunks (fuel : nat) : M unit := loop (chunks_turn fuel) fuel.

Definition wait (fuel : nat) : M CommandOutcome :=
  chunks fuel ;; (fun w => let (o, p) := resolve (progress w) in (inl o, with_progress (fun _ => p) w)).
End Handle.

(** The handle of a stream just opened: a command's output starts at 1. *)
Definition new_handle (pid : Z) (k : stream_kind) (maxBytes : option N) (fromSeq : N) (generation : Z) : World := {|
  used := 0; progress := new_progress pid k maxBytes; opened := 0; streams := 0; asked := fromSeq; read := 0%N;
  live := [0]; stopped := []; generation := generation; pendingCut := None; reconnectCount := 0; futile := 0;
  signalled := false; log := [] |}.

(** ** Triples *)

Definition triple {A} (P : World -> Prop) (m : M A) (Q : A + failure -> World -> Prop) : Prop := forall w, P w -> Q (m w).1 (m w).2.

Definition keeping {A} (I : World -> Prop) (m : M A) : Prop := triple I m (fun _ => I).

Create HintDb handle.

Lemma triple_bind {A B} P (m : M A) (k : A -> M B) (R : A + failure -> World -> Prop) (Q : B + failure -> World -> Prop) :
  triple P m R -> (forall e w, R (inr e) w -> Q (inr e) w) -> (forall a, triple (R (inl a)) (k a) Q) -> triple P (bind m k) Q.
Proof.
  intros Hm He Hk w Hw. specialize (Hm w Hw). unfold bind. destruct (m w) as [[a|e] w']; [by apply (Hk a)|by apply He].
Qed.

Lemma triple_get {B} P (k : World -> M B) (Q : B + failure -> World -> Prop) :
  (forall w, P w -> triple (fun w' => w' = w) (k w) Q) -> triple P (bind get k) Q.
Proof. intros Hk w Hw. by apply (Hk w Hw). Qed.

Lemma triple_weaken {A} (P P' : World -> Prop) (m : M A) (Q Q' : A + failure -> World -> Prop) :
  triple P m Q -> (forall w, P' w -> P w) -> (forall r w, Q r w -> Q' r w) -> triple P' m Q'.
Proof. intros H HP HQ w Hw. by apply HQ, H, HP. Qed.

Lemma triple_catch {A} P (m : M A) h (R Q : A + failure -> World -> Prop) :
  triple P m R -> (forall r w, R r w -> (forall e, r <> inr (Throws e)) -> Q r w) ->
  (forall e, triple (R (inr (Throws e))) (h e) Q) -> triple P (catch m h) Q.
Proof.
  intros Hm Hr Hh w Hw. specialize (Hm w Hw). unfold catch.
  destruct (m w) as [[a|[e| |]] w']; [apply Hr; [done|by intros]|by apply (Hh e)|apply Hr; [done|by intros]..].
Qed.

Section Keeping.
Context (I : World -> Prop).

Lemma keeping_ret {A} (a : A) : keeping I (ret a).
Proof. by intros w. Qed.

Lemma keeping_throw {A} e : keeping I (throw e : M A).
Proof. by intros w. Qed.

Lemma keeping_get : keeping I get.
Proof. by intros w. Qed.

Lemma keeping_put f : (forall w, I w -> I (f w)) -> keeping I (put f).
Proof. intros H w Hw. by apply H. Qed.

Lemma keeping_bind {A B} (m : M A) (k : A -> M B) : keeping I m -> (forall a, keeping I (k a)) -> keeping I (bind m k).
Proof. intros Hm Hk. eapply triple_bind; [exact Hm|done|exact Hk]. Qed.

Lemma keeping_catch {A} (m : M A) h : keeping I m -> (forall e, keeping I (h e)) -> keeping I (catch m h).
Proof. intros Hm Hh. eapply triple_catch; [exact Hm|done|exact Hh]. Qed.
End Keeping.

#[export] Hint Resolve keeping_ret keeping_throw keeping_get keeping_bind keeping_catch : handle.
#[export] Hint Extern 1 (keeping _ (match ?x with _ => _ end)) => destruct x : handle.

(** The loop of an iteration with an invariant. *)
Lemma triple_loop {A} (P : World -> Prop) (turn : unit -> M (A + unit)) (Q : A + failure -> World -> Prop) fuel :
  triple P (turn tt) (fun r w => match r with inl (inl a) => Q (inl a) w | inl (inr _) => P w | inr e => Q (inr e) w end) ->
  (forall w, P w -> Q (inr OutOfFuel) w) -> triple P (loop turn fuel) Q.
Proof.
  intros Ht Hf. induction fuel as [|fuel IH]; [intros w Hw; by apply Hf|]. cbn [loop]. eapply triple_bind; [exact Ht|done|].
  intros [a|[]]; [by intros w|exact IH].
Qed.

(** ** What was read *)

Definition data_of (e : event) : option message := match e with Received m => if is_data m then Some m else None | _ => None end.
Definition data_received (l : list event) : list message := omap data_of l.

Definition data_for (k : stream_kind) (n : N) (m : message) : Prop :=
  match k, m with process_stream, M_data d => seq d = n | pty_stream, M_pty n' _ => n' = n | _, _ => False end.

Section Reading.
Context (env : nat -> moment) (foreground has_signal : bool) (deadlineAtMs : option Q).
Context (k : stream_kind) (max : option N) (script : N -> message).

(** What a process wrote up to [n], and what a handle that is never cut makes of it. *)
Definition outputs (n : N) : list message := map (fun i => script (N.of_nat i)) (List.seq 1 (N.to_nat n)).
Definition read_all (ms : list message) : OutputAccumulator := foldl (fun a m => (Output.consume_message k m a).2) (new_accumulator max) ms.

(** The agent replays from the number it is asked for, one number after the other. *)
Definition replays : Prop :=
  (forall n, data_for k n (script n)) /\
  forall i from pos m, next (env i) from pos = Message m -> is_data m = true -> from <> 0%N -> m = script (from + pos)%N.

Record reading (n : N) (w : World) : Prop := {
  r_kind : kind (progress w) = k;
  r_open : ended (progress w) = None;
  r_last : lastSeq_of w = n;
  r_outcome : forall o, outcome (progress w) = Some o -> exists e, o = Failed e;
  r_data : LostOutput ∈ log w \/ (asked w <> 0 /\ asked w + read w = N.succ n)%N /\
    data_received (log w) = outputs n /\ accumulator (progress w) = read_all (outputs n)
}.

Definition finished_with (w : World) : Prop := exists e o, ended (progress w) = Some e /\ outcome (progress w) = Some o /\
  (LostOutput ∈ log w \/ exists n, data_received (log w) = outputs n /\ (o, accumulator (progress w)) = acc_finish (read_all (outputs n)) e).

Definition settled (w : World) : Prop := (exists n, reading n w) \/ finished_with w.

(** Everything but the messages of the stream leaves what was read as it is. *)
Record same_reading (w w' : World) : Prop := {
  sr_kind : kind (progress w') = kind (progress w);
  sr_acc : accumulator (progress w') = accumulator (progress w);
  sr_ended : ended (progress w') = ended (progress w);
  sr_outcome : outcome (progress w') = outcome (progress w) \/ exists e, outcome (progress w') = Some (Failed e);
  sr_asked : asked w' = asked w;
  sr_read : read w' = read w;
  sr_data : data_received (log w') = data_received (log w);
  sr_lost : LostOutput ∈ log w -> LostOutput ∈ log w'
}.

Lemma same_reading_keeps n w w' : same_reading w w' -> reading n w -> reading n w'.
Proof.
  intros [E1 E2 E3 E8 E4 E5 E6 E7] [K O L F D]. unfold lastSeq_of in *. split; try congruence.
  - unfold lastSeq_of. congruence.
  - intros o Ho. destruct E8 as [E8|[e E8]]; rewrite E8 in Ho; [by apply F|]. injection Ho as <-. by exists e.
  - rewrite E4, E5, E6, E2. destruct D as [D|D]; [left; auto|by right].
Qed.

Definition harmless (e : event) : bool := match e with Received _ => false | _ => true end.

Lemma same_log e w : harmless e = true -> same_reading w (with_log e w).
Proof.
  intros He. split; try done; cbn; [by left| |set_solver]. unfold data_received. rewrite omap_app. destruct e; try done; cbn; by rewrite app_nil_r.
Qed.

Lemma same_disconnect w w0 : same_reading w w0 -> same_reading w (disconnect w0).
Proof. intros []. unfold disconnect. destruct (disconnected (progress w0)); by split. Qed.

Lemma same_refl w : same_reading w w.
Proof. split; try done. by left. Qed.

Ltac same_world := intros; split; try done; by left.

(** What the rest of the program cannot change. *)
Definition stable (I : World -> Prop) : Prop := forall w w', same_reading w w' -> I w -> I w'.

Lemma stable_reading n : stable (reading n).
Proof. intros w w'. apply same_reading_keeps. Qed.

(** A handle that reads, and knows that output was lost. *)
Definition lost_reading (n : N) (w : World) : Prop := reading n w /\ LostOutput ∈ log w.

Lemma stable_lost n : stable (lost_reading n).
Proof. intros w w' H [Hr Hl]. split; [by eapply same_reading_keeps|by eapply sr_lost]. Qed.

Section Stable.
Context (I : World -> Prop) (HI : stable I).

Lemma keeping_same f : (forall w, same_reading w (f w)) -> keeping I (put f).
Proof. intros H. apply keeping_put. intros w. by apply HI. Qed.

Lemma keeping_await : keeping I (await env has_signal).
Proof.
  intros w Hw. unfold await. cbn [fst snd]. eapply HI; [|exact Hw]. destruct (disconnects _); [apply same_disconnect|]; same_world.
Qed.

Lemma keeping_log e : harmless e = true -> keeping I (put (with_log e)).
Proof. intros He. apply keeping_same. intros w. by apply same_log. Qed.

Lemma keeping_progress f :
  (forall p, kind (f p) = kind p /\ accumulator (f p) = accumulator p /\ ended (f p) = ended p /\
     (outcome (f p) = outcome p \/ exists e, outcome (f p) = Some (Failed e))) -> keeping I (put (with_progress f)).
Proof. intros H. apply keeping_same. intros w. destruct (H (progress w)) as (? & ? & ? & ?). by split. Qed.

Lemma keeping_failed {A} e : keeping I (throw_failed e : M A).
Proof. apply keeping_bind; [|auto with handle]. apply keeping_progress. intros p. split_and!; try done. right. by eexists. Qed.

Lemma keeping_release : keeping I releaseStream.
Proof. apply keeping_same. same_world. Qed.

Hint Resolve keeping_await keeping_log keeping_failed keeping_release : handle.

Lemma keeping_consume_failed e : keeping I (consume_failed env has_signal e).
Proof.
  apply keeping_bind; [auto with handle|]. intros _. apply keeping_bind; [auto with handle|]. intros w.
  destruct (signalled w); [auto with handle|]. destruct (disconnected _); [auto with handle|]. destruct (negb _ && isReconnectable e); [|auto with handle].
  apply keeping_bind; [apply keeping_same; same_world|auto with handle].
Qed.

Lemma keeping_wakes : keeping I (wakes env foreground).
Proof. by intros w. Qed.

Lemma keeping_deadline : keeping I (remainingDeadline env deadlineAtMs).
Proof. intros w Hw. unfold remainingDeadline. repeat case_match; [by apply (keeping_failed (A := option Z))|done..]. Qed.

Lemma keeping_openConnect from : keeping I (openConnect env has_signal from).
Proof.
  apply keeping_bind; [by apply keeping_log|]. intros _. apply keeping_bind; [apply keeping_await|]. intros m.
  destruct (connect m) as [first|e]; [|auto with handle]. apply keeping_bind; [apply keeping_same; same_world|]. intros _.
  apply keeping_bind; [auto with handle|]. intros w. destruct (pid_of first) as [p|c]; [|auto with handle].
  destruct (p =? pid (progress w))%Z; [auto with handle|]. apply keeping_bind; [apply keeping_same; same_world|auto with handle].
Qed.

Lemma keeping_resubscribe from : keeping I (resubscribe env has_signal deadlineAtMs from).
Proof. apply keeping_bind; [apply keeping_deadline|]. intros _. apply keeping_openConnect. Qed.

Lemma keeping_futileCut reason : keeping I (futileCut env has_signal reason).
Proof. destruct reason; cbn [futileCut]; auto with handle. Qed.
End Stable.

Hint Resolve stable_reading stable_lost keeping_await keeping_log keeping_failed keeping_release keeping_consume_failed keeping_futileCut : handle.

Lemma outputs_succ n : outputs (N.succ n) = outputs n ++ [script (N.succ n)].
Proof.
  unfold outputs. rewrite N2Nat.inj_succ, List.seq_S, map_app. cbn [map]. do 3 f_equal. lia.
Qed.

Lemma read_all_app ms m : read_all (ms ++ [m]) = (Output.consume_message k m (read_all ms)).2.
Proof. unfold read_all. by rewrite foldl_app. Qed.

Lemma consume_message_spec m a :
  let (c, a') := Output.consume_message k m a in
  (is_data m = false -> a' = a) /\ (forall e, c = Ended e -> is_data m = false) /\
  (forall n, data_for k n m -> lastSeq a' = N.max (lastSeq a) n /\ is_data m = true).
Proof.
  destruct k, m; cbn; try done.
  - unfold acc_feed. destruct (output d); destruct (stream_feed _ _) as [[t|] s]; split_and!; try done; by intros n <-.
  - destruct (feedTerminal a n payload) as [t a'] eqn:E. split_and!; try done. unfold feedTerminal in E. destruct (stream_feed _ _). injection E as <- <-.
    by intros n' <-.
Qed.

Lemma data_received_one l m : data_received (l ++ [Received m]) = data_received l ++ if is_data m then [m] else [].
Proof. unfold data_received. rewrite omap_app. cbn. by destruct (is_data m). Qed.

(** What a message changes, when it came on the stream of the handle. *)
Lemma consume_data n m w a' : replays -> reading n w -> (exists i, next (env i) (asked w) (read w) = Message m) ->
  (is_data m = false -> a' = accumulator (progress w)) ->
  (forall n', data_for k n' m -> lastSeq a' = N.max n n' /\ is_data m = true) ->
  a' = (Output.consume_message k m (accumulator (progress w))).2 ->
  LostOutput ∈ log (received m w) \/
  (asked w <> 0 /\ asked w + read (received m w) = N.succ (lastSeq a') )%N /\
  data_received (log (received m w)) = outputs (lastSeq a') /\ a' = read_all (outputs (lastSeq a')).
Proof.
  intros [Hd Hs] [K O L F D] [i Hi] Hnd Hdf Ea. unfold lastSeq_of in L. destruct D as [D|([D1 D2] & D3 & D4)]; [left; cbn; set_solver|]. right.
  cbn. rewrite data_received_one. destruct (is_data m) eqn:Em.
  - assert (m = script (N.succ n)) as -> by (rewrite <- D2; by eapply Hs). destruct (Hdf _ (Hd (N.succ n))) as [El _].
    assert (lastSeq a' = N.succ n) as -> by (rewrite El; lia). split_and!; [done|lia|by rewrite D3, outputs_succ|].
    rewrite outputs_succ, read_all_app, <- D4. done.
  - rewrite Hnd, L, app_nil_r by done. split_and!; [done|lia|done|done].
Qed.

Lemma triple_consume n m : replays ->
  triple (fun w => reading n w /\ exists i, next (env i) (asked w) (read w) = Message m) (consume m)
    (fun r w => (exists n, reading n w) \/ (finished_with w /\ exists e, r = inl (Ended e))).
Proof.
  intros Hs w [Hr Hi]. pose proof Hr as [K O L F D]. unfold consume, progress_consume. rewrite K.
  pose proof (consume_message_spec m (accumulator (progress w))) as H. destruct (Output.consume_message k m _) as [c a'] eqn:Ec.
  destruct H as (H1 & H2 & H3). assert (forall n', data_for k n' m -> lastSeq a' = N.max n n' /\ is_data m = true) as H3'.
  { intros n' Hn. destruct (H3 n' Hn) as [-> ?]. unfold lastSeq_of in L. by rewrite L. }
  pose proof (consume_data n m w a' Hs Hr Hi H1 H3' ltac:(by rewrite Ec)) as Hd.
  destruct c as [s o| |e|e]; cbn [fst snd].
  1, 2, 4: left; exists (lastSeq a'); split; [done|done|done|exact F|]; cbn in *; destruct Hd as [Hd|Hd]; [by left|right; exact Hd].
  right. destruct (acc_finish a' e) as [o a''] eqn:Ef. split; [|by eexists]. exists e, o. split_and!; [done|done|]. cbn in *.
  destruct Hd as [Hd|(_ & Hd & Ha)]; [by left|right]. exists (lastSeq a'). split; [done|]. by rewrite <- Ha, Ef.
Qed.

Definition still_reading (w : World) : Prop := exists n, reading n w.

Lemma keeping_any {A} (m : M A) : (forall n, keeping (reading n) m) -> keeping still_reading m.
Proof. intros H w [n Hw]. exists n. by apply H. Qed.

(** A turn of a loop: what it leaves when it goes on, and when it ends. *)
Definition turn_post {A} (go stop : World -> Prop) (r : (A + unit) + failure) (w : World) : Prop :=
  match r with inl (inr _) => go w | _ => stop w end.

Lemma still_settled w : still_reading w -> settled w.
Proof. by left. Qed.

Lemma consume_message_turn n m : replays ->
  triple (fun w => reading n w /\ exists i, next (env i) (asked w) (read w) = Message m) (consume_message env has_signal m)
    (turn_post still_reading settled).
Proof.
  intros Hs. eapply triple_bind; [by apply triple_consume| |].
  - intros e w [H|[_ [x [=]]]]. by left.
  - intros c. eapply (triple_bind _ _ _ (fun _ => settled)).
    + intros w H. assert (settled w) as Hw by (destruct H as [H|[H _]]; [by left|by right]).
      destruct c as [s o| | |]; [|exact Hw..]. destruct H as [H|[_ [e [=]]]]. left.
      apply (keeping_any (put (with_log (Yielded o)) ;; await env has_signal ;; ret tt)); [|done]. intros n'.
      apply keeping_bind; auto with handle.
    + by intros e w.
    + intros _ w Hw. unfold bind at 1, get. cbn. destruct (isFinished (progress w)) eqn:Ef; cbn [orb].
      * destruct Hw as [[n' Hw]|Hw]; [left; exists n'; by apply (keeping_release (reading n') (stable_reading n'))|right; exact Hw].
      * destruct Hw as [[n' Hw]|(e & o & _ & Ho & _)]; [|unfold isFinished in Ef; rewrite Ho in Ef; by rewrite bool_decide_eq_true_2 in Ef by by eexists].
        destruct (suspended (progress w)); [left; exists n'; by apply (keeping_release (reading n') (stable_reading n'))|by exists n'].
Qed.

Lemma same_after_await w : same_reading w (await env has_signal w).2.
Proof. unfold await. cbn [snd]. destruct (disconnects _); [apply same_disconnect|]; same_world. Qed.

Lemma consume_turn_eq w :
  consume_turn env has_signal tt w =
  match next (env (used w)) (asked w) (read w) with
  | Broken e => consume_failed env has_signal e
  | Done => releaseStream ;; ret (inl tt)
  | Message m => consume_message env has_signal m
  end (await env has_signal w).2.
Proof. done. Qed.

Lemma consume_turn_reading : replays -> triple still_reading (consume_turn env has_signal tt) (turn_post still_reading settled).
Proof.
  intros Hs w [n Hw]. rewrite consume_turn_eq. pose proof (same_after_await w) as Hsame. pose proof (same_reading_keeps n w _ Hsame Hw) as Hw1.
  destruct (next (env (used w)) (asked w) (read w)) as [m| |e] eqn:En.
  - apply (consume_message_turn n m Hs). split; [done|]. exists (used w). destruct Hsame as [_ _ _ _ -> -> _ _]. done.
  - left. exists n. by apply (keeping_release (reading n) (stable_reading n)).
  - pose proof (keeping_consume_failed (reading n) (stable_reading n) e _ Hw1) as H. unfold turn_post. repeat case_match; [by left; exists n|by exists n|by left; exists n].
Qed.

Lemma consumeStream_reading fuel : replays -> triple still_reading (consumeStream env has_signal fuel) (fun _ => settled).
Proof.
  intros Hs. apply triple_loop; [|by left]. eapply triple_weaken; [by apply consume_turn_reading|done|]. intros [[a|[]]|e] w; done.
Qed.


Lemma lost_lost n w : lost_reading n w -> reading n w.
Proof. by intros [H _]. Qed.

Lemma live_lost n e : triple (reading n) (resubscribeFromLive env has_signal deadlineAtMs e) (fun _ => lost_reading n).
Proof.
  eapply (triple_bind _ _ _ (fun _ => lost_reading n)); [|done|].
  - intros w Hw. split; [by apply (keeping_log (reading n) (stable_reading n) LostOutput eq_refl)|]. cbn. set_solver.
  - intros _. apply keeping_catch; [apply keeping_resubscribe, stable_lost|]. intros retry. auto with handle.
Qed.

(** Where the new stream begins: after what was read, or anywhere when output was lost. *)
Definition resumes_at (n : N) (w : World) (from : N) : Prop := from = N.succ n \/ (from = 0%N /\ LostOutput ∈ log w).

Definition resubscription (from : N) : M (nat * N) :=
  catch (do id <- resubscribe env has_signal deadlineAtMs from in ret (id, from))
    (fun e => if out_of_range e then do id <- resubscribeFromLive env has_signal deadlineAtMs e in ret (id, 0%N) else throw_failed (as_error e)).

Lemma resubscription_at n : triple (reading n) (resubscription (N.succ n))
  (fun r w => reading n w /\ forall x, r = inl x -> resumes_at n w x.2).
Proof.
  eapply (triple_catch _ _ _ (fun r w => reading n w /\ forall x, r = inl x -> resumes_at n w x.2)).
  - eapply triple_bind; [apply keeping_resubscribe, stable_reading|intros e w Hw; split; [exact Hw|by intros x [=]]|].
    intros id w Hw. split; [exact Hw|]. cbn. intros x [= <-]. by left.
  - by intros r w H _.
  - intros e. destruct (out_of_range e).
    + eapply (triple_bind _ _ _ (fun _ => lost_reading n)); [|intros f w Hw; split; [by apply lost_lost|by intros x [=]]|].
      * eapply triple_weaken; [apply (live_lost n)|by intros w [Hw _]|done].
      * intros id w [Hw Hl]. split; [exact Hw|]. cbn. intros x [= <-]. by right.
    + intros w [Hw _]. split; [by apply (keeping_failed (reading n) (stable_reading n) (A := nat * N))|]. by intros x [=].
Qed.

(** The tail of [resubscribeAfterCut], once there is a stream. *)
Definition adopt (opened : nat * N) : M unit :=
  put (with_opened opened.1 opened.2) ;;
  put (fun w => track (CommandHandle.opened w) w) ;;
  put (with_progress resubscribed) ;;
  put (fun w => with_counts (generation w) (S (reconnectCount w)) (futile w) w).

Lemma adopt_reading n x : triple (fun w => reading n w /\ resumes_at n w x.2) (adopt x) (fun _ => reading n).
Proof.
  intros w [[K O L F D] Hf]. split; [exact K|exact O|exact L|exact F|]. destruct D as [D|([D1 D2] & D3 & D4)]; [by left|].
  destruct Hf as [Hf|[_ Hf]]; [|by left]. right. cbn. rewrite Hf. split_and!; [lia|lia|done|done].
Qed.

Lemma resubscribe_reading n : triple (reading n) (resubscribeAfterCut env foreground has_signal deadlineAtMs) (fun _ => still_reading).
Proof.
  assert (forall w, reading n w -> still_reading w) as Hany by (intros w H; by exists n).
  unfold resubscribeAfterCut. apply triple_get. intros w0 Hw0. eapply (triple_bind _ _ _ (fun _ => reading n)).
  { intros w ->. eapply (keeping_same (reading n)); [apply stable_reading|same_world|done]. }
  { by intros e w Hw; apply Hany. }
  intros _. eapply (triple_bind _ _ _ (fun _ => reading n)); [apply keeping_wakes|by intros e w Hw; apply Hany|].
  intros wake. eapply (triple_bind _ _ _ (fun _ => reading n)); [by apply keeping_log; [apply stable_reading|]|by intros e w Hw; apply Hany|].
  intros _. eapply (triple_bind _ _ _ (fun _ => reading n)); [apply keeping_await, stable_reading|by intros e w Hw; apply Hany|].
  intros m. destruct (CommandHandle.reconnect m) as [outcome|e]; [|by intros w Hw; apply Hany].
  destruct (negb (resumed outcome)).
  { intros w Hw. apply Hany. by apply (keeping_failed (reading n) (stable_reading n) (A := unit)). }
  eapply (triple_bind _ _ _ (fun _ => reading n)); [apply keeping_same; [apply stable_reading|same_world]|by intros e w Hw; apply Hany|].
  intros _. apply triple_get. intros w1 Hw1. destruct (disconnected (progress w1)); [by intros w ->; apply Hany|].
  destruct (allows (futile w1) outcome) as [allowed count]. eapply (triple_bind _ _ _ (fun _ w => reading n w /\ lastSeq_of w = lastSeq_of w1)).
  { intros w ->. split; [eapply (keeping_same (reading n)); [apply stable_reading|same_world|done]|done]. }
  { by intros e w [Hw _]; apply Hany. }
  intros _. destruct (negb allowed).
  { intros w [Hw _]. apply Hany. revert w Hw. eapply (keeping_bind (reading n) (futileCut env has_signal _)); auto with handle. }
  assert (lastSeq_of w1 = n) as El by by destruct Hw1. rewrite El.
  eapply (triple_bind _ _ _ (fun r w => reading n w /\ forall x, r = inl x -> resumes_at n w x.2)).
  - eapply triple_weaken; [apply resubscription_at|by intros w [Hw _]|done].
  - by intros e w [Hw _]; apply Hany.
  - intros x. eapply triple_weaken; [apply (adopt_reading n x)|intros w [Hw Hx]; split; [done|by apply Hx]|by intros r w; apply Hany].
Qed.

Lemma open_reading w : settled w -> over w = false -> still_reading w.
Proof.
  intros [Hw|(e & o & _ & Ho & _)] H; [done|]. unfold over, isFinished in H. rewrite Ho in H. by rewrite bool_decide_eq_true_2 in H by by eexists.
Qed.

Lemma chunks_reading fuel : replays -> triple still_reading (chunks env foreground has_signal deadlineAtMs fuel) (fun _ => settled).
Proof.
  intros Hs. apply triple_loop; [|by left]. apply triple_get. intros w0 Hw0. destruct (over w0); [by intros w ->; left|].
  eapply (triple_bind _ _ _ (fun _ => settled)).
  - intros w ->. by apply (consumeStream_reading fuel Hs).
  - by intros e w.
  - intros _. apply triple_get. intros w1 Hw1. destruct (over w1) eqn:Eo; cbn [orb]; [by intros w ->|].
    destruct (negb (cut w1)); [by intros w ->|]. destruct (open_reading w1 Hw1 Eo) as [n Hn].
    eapply (triple_bind _ _ _ (fun _ => still_reading)).
    + intros w ->. by apply (resubscribe_reading n).
    + intros e w Hw. by left.
    + by intros _ w Hw.
Qed.

Lemma new_handle_reading pid g : still_reading (new_handle pid k max 1 g).
Proof. exists 0%N. split; try done. right. split_and!; try done; lia. Qed.
End Reading.

(** C29. A reader of a command (or of a terminal) does not notice the cuts: whenever the
    agent replays from the number it is asked for, and unless output was reported as
    lost, the messages it consumed are those of the process from the first on, each
    once and in order, its output is what a stream never cut would have given, and a
    result or an exit error that [wait()] answers is that of the end the agent sent. *)
Theorem reconnection_transparent env foreground has_signal deadline k max script pid g fuel :
  replays env k script ->
  let r := (wait env foreground has_signal deadline fuel (new_handle pid k max 1 g)).1 in
  let w := (wait env foreground has_signal deadline fuel (new_handle pid k max 1 g)).2 in
  LostOutput ∈ log w \/
  exists n, data_received (log w) = outputs script n /\
    match ended (progress w) with
    | None => accumulator (progress w) = read_all k max (outputs script n) /\ (forall o, r = inl o -> exists f, o = Failed f)
    | Some e => accumulator (progress w) = (acc_finish (read_all k max (outputs script n)) e).2 /\
                (forall o, r = inl o -> o = (acc_finish (read_all k max (outputs script n)) e).1)
    end.
Proof.
  intros Hs. unfold wait, bind. pose proof (chunks_reading env foreground has_signal deadline k max script fuel Hs _ (new_handle_reading k max script pid g)) as H.
  unfold resolve. destruct (chunks _ _ _ _ _ _) as [[[]|f] w]; cbn [fst snd log ended accumulator progress with_progress set_outcome] in H |- *.
  - destruct H as [[n [K O L F D]]|(e & o & He & Ho & D)].
    + rewrite O. destruct D as [D|(_ & D1 & D2)]; [by left|]. right. exists n. split_and!; try done. intros o [= <-].
      destruct (outcome (progress w)) as [o|] eqn:Eo; cbn; [by apply F|by eexists].
    + rewrite He, Ho. destruct D as [D|(n & D1 & D2)]; [by left|]. right. exists n. split; [done|]. rewrite (eq_sym D2). split; [done|].
      by intros ? [= <-].
  - destruct H as [[n [K O L F D]]|(e & o & He & Ho & D)].
    + rewrite O. destruct D as [D|(_ & D1 & D2)]; [by left|]. right. exists n. by split_and!.
    + rewrite He. destruct D as [D|(n & D1 & D2)]; [by left|]. right. exists n. split; [done|]. rewrite <- D2. by split.
Qed.

(** ** A command cut once *)

Definition reset : thrown := ConnectError Unavailable (txt "read ECONNRESET") None.
Definition ok_end : EndEvent := {| end_exitCode := 0; exited := true; end_status := STATUS_EXITED; end_error := None; end_signal := None |}.

Definition sample_script (n : N) : message := M_data {| seq := n; output := out_stdout [96 + n]%N |}.

Definition sample_next (from pos : N) : step_answer :=
  if (from =? 1)%N && negb (pos =? 0)%N then Broken reset
  else if (from + pos <=? 3)%N then Message (sample_script (from + pos)) else Message (M_end ok_end).

Definition sample_moment (next : N -> N -> step_answer) (generationChanged disconnects : bool) : moment := {|
  CommandHandle.next := next; CommandHandle.streamFailure := fun e => e;
  CommandHandle.reconnect := inl {| Reconnect.resumed := true; Reconnect.generationChanged := generationChanged; Reconnect.oc_resumeGeneration := 2; Reconnect.error := None |};
  CommandHandle.connect := inl (Some (M_started 7)); CommandHandle.disconnects := disconnects;
  CommandHandle.aborts := false; CommandHandle.paused := false; CommandHandle.closed := false; CommandHandle.clock := 0 |}.

Definition cut_env (n : nat) : moment := sample_moment sample_next true false.

Definition sample_handle : World := new_handle 7 process_stream None 1 1.

Lemma sample_replays : replays cut_env process_stream sample_script.
Proof.
  split; [done|]. intros i from pos m. cbn. unfold sample_next. destruct (_ && _); [done|]. destruct (_ <=? _)%N; [by intros [= <-]|].
  by intros [= <-].
Qed.

Lemma reconnection_transparent_witness :
  let run := wait cut_env true false None 20 sample_handle in
  (LostOutput ∈ log run.2 \/
   exists n, data_received (log run.2) = outputs sample_script n /\
     match ended (progress run.2) with
     | None => accumulator (progress run.2) = read_all process_stream None (outputs sample_script n) /\ (forall o, run.1 = inl o -> exists f, o = Failed f)
     | Some e => accumulator (progress run.2) = (acc_finish (read_all process_stream None (outputs sample_script n)) e).2 /\
                 (forall o, run.1 = inl o -> o = (acc_finish (read_all process_stream None (outputs sample_script n)) e).1)
     end) /\
  reconnectCount run.2 = 1 /\ run.1 = inl (Completed {| stdout := txt "abc"; stderr := []; exitCode := 0; truncated := false |}).
Proof.
  split; [|split; vm_compute; reflexivity].
  refine (reconnection_transparent cut_env true false None process_stream None sample_script 7 1 20 _). exact sample_replays.
Defined.

(** ** The streams a handle opens *)

Section Streams.
Context (env : nat -> moment) (foreground has_signal : bool) (deadlineAtMs : option Q).

(** The agent starts a stream as it should, and a resubscription does not succeed while
    the caller disconnects. *)
Record orderly : Prop := {
  starts : forall i first, connect (env i) = inl first -> exists p, pid_of first = Ok p;
  calm : forall i, disconnects (env i) = true -> exists e, connect (env i) = inr e /\ out_of_range e = false
}.
Context (Horderly : orderly).

(** Every stream but [id] was stopped, and no other is in the registry. *)
Definition only (id : nat) (w : World) : Prop :=
  (forall i, i <= streams w -> i <> id -> i ∈ stopped w) /\ (forall i, i ∈ live w -> i = id).
Definition idle (w : World) : Prop := (forall i, i <= streams w -> i ∈ stopped w) /\ live w = [].

Lemma idle_only w id : idle w -> only id w.
Proof. intros [H1 H2]. split; [auto|]. rewrite H2. set_solver. Qed.

Lemma stop_only id w : only id w -> idle (abort_stream id w).
Proof.
  intros [H1 H2]. split; cbn.
  - intros i Hi. destruct (decide (i = id)) as [->|Hn]; [by left|]. right. auto.
  - induction (live w) as [|j l IH]; [done|]. cbn. rewrite (H2 j) by left. rewrite Nat.eqb_refl. cbn. apply IH. intros i Hi. apply H2. by right.
Qed.

Lemma stop_idle id w : idle w -> idle (abort_stream id w).
Proof. intros H. by apply stop_only, idle_only. Qed.

Definition busy (w : World) : Prop := only (opened w) w.

(** What an await may do: nothing, or stop the stream of the handle. *)
Lemma await_busy : keeping busy (await env has_signal).
Proof.
  intros w Hw. unfold await. cbn [fst snd]. destruct (disconnects _); [|exact Hw]. unfold disconnect. case_match; [exact Hw|].
  by apply idle_only, stop_only.
Qed.

Lemma await_idle : keeping idle (await env has_signal).
Proof.
  intros w Hw. unfold await. cbn [fst snd]. destruct (disconnects _); [|exact Hw]. unfold disconnect. case_match; [exact Hw|].
  by apply stop_idle.
Qed.

Lemma failed_idle {A} e : keeping idle (throw_failed e : M A).
Proof. by intros w. Qed.

Lemma release_busy : triple busy releaseStream (fun _ => idle).
Proof. intros w Hw. by apply stop_only. Qed.

#[local] Hint Resolve await_idle failed_idle : handle.

Lemma consume_failed_idle e : triple busy (consume_failed env has_signal e) (fun _ => idle).
Proof.
  eapply (triple_bind _ _ _ (fun _ => idle)); [apply release_busy|done|]. intros _. apply (keeping_bind idle get); [auto with handle|]. intros w.
  destruct (signalled w); [auto with handle|]. destruct (disconnected _); [auto with handle|]. destruct (negb _ && isReconnectable e); [|auto with handle].
  apply keeping_bind; [by apply keeping_put|auto with handle].
Qed.

Lemma consume_message_busy m : triple busy (consume_message env has_signal m) (turn_post busy idle).
Proof.
  eapply (triple_bind _ _ _ (fun r w => busy w /\ exists c, r = inl c)).
  - intros w Hw. unfold consume. destruct (progress_consume (progress w) m) as [c p]. split; [exact Hw|by eexists].
  - by intros e w [_ [c [=]]].
  - intros c. eapply (triple_bind _ _ _ (fun r w => busy w /\ r = inl tt)).
    + intros w [Hw _]. destruct c; try by split. split; [|done]. revert w Hw.
      apply (keeping_bind busy (put (with_log (Yielded output)))); [by apply keeping_put|]. intros _.
      apply keeping_bind; [apply await_busy|auto with handle].
    + by intros e w [_ [=]].
    + intros u. apply triple_get. intros w [Hw _]. destruct (isFinished _ || suspended _); intros w' ->; [|exact Hw]. by apply stop_only.
Qed.

Lemma consumeStream_idle fuel : triple busy (consumeStream env has_signal fuel) (fun r w => r <> inr OutOfFuel -> idle w).
Proof.
  apply triple_loop; [|by intros w _ []]. intros w Hw. rewrite consume_turn_eq. pose proof (await_busy w Hw) as Hw1.
  destruct (next _ _ _) as [m| |e].
  - pose proof (consume_message_busy m _ Hw1) as H. destruct (consume_message _ _ _ _) as [[[[]|[]]|f] w']; cbn in *; auto.
  - cbn. intros _. by apply stop_only.
  - pose proof (consume_failed_idle e _ Hw1) as H. destruct (consume_failed _ _ _ _) as [[[[]|[]]|f] w'] eqn:E; cbn in *; auto. by apply idle_only.
Qed.

(** Not over: neither finished nor disconnected. *)
Definition quiet (w : World) : Prop := idle w /\ over w = false.

(** After a request for a stream: the new one, or an error; the handle is not over when
    another will be asked for. *)
Definition opened_post (r : nat + failure) (w : World) : Prop :=
  match r with
  | inl id => only id w /\ over w = false
  | inr (Throws e) => idle w /\ (out_of_range e = true -> over w = false)
  | inr _ => idle w
  end.

Lemma openConnect_post from : triple quiet (openConnect env has_signal from) opened_post.
Proof.
  intros w [Hi Ho]. unfold openConnect, bind, put, get, throw, ret. cbn [fst snd].
  set (w1 := with_log (Subscribing from) w). destruct (await env has_signal w1) as [r w2] eqn:Ea.
  assert (r = inl (env (used w))) as -> by (unfold await in Ea; by injection Ea as <- _).
  assert (idle w2) as H2 by (pose proof (await_idle w1 Hi) as H; by rewrite Ea in H).
  assert (disconnects (env (used w)) = false -> over w2 = false) as H3.
  { intros Hd. unfold await in Ea. cbn in Ea. rewrite Hd in Ea. by injection Ea as <-. }
  destruct (connect (env (used w))) as [first|e] eqn:Ec.
  - destruct (starts Horderly _ _ Ec) as [p Hp]. rewrite Hp.
    assert (disconnects (env (used w)) = false) as Hd.
    { destruct (disconnects (env (used w))) eqn:Ed; [|done]. destruct (calm Horderly _ Ed) as (e & He & _). congruence. }
    assert (only (S (streams w2)) (new_stream_id w2)) as H4.
    { destruct H2 as [H2 L2]. split; [|cbn; rewrite L2; set_solver]. cbn. intros i Hle Hne. apply H2. lia. }
    destruct (p =? _)%Z; cbn; [split; [exact H4|by apply H3]|]. split; [|done]. by apply (stop_only (S (streams w2)) (new_stream_id w2)).
  - cbn. split; [done|]. intros He. apply H3. destruct (disconnects (env (used w))) eqn:Ed; [|done].
    destruct (calm Horderly _ Ed) as (e' & He' & Hf). congruence.
Qed.

Lemma resubscribe_post from : triple quiet (resubscribe env has_signal deadlineAtMs from) opened_post.
Proof.
  eapply (triple_bind _ _ _ (fun r w => match r with inl _ => quiet w | inr (Throws e) => idle w /\ out_of_range e = false | inr _ => idle w end)).
  - intros w Hw. unfold remainingDeadline. destruct (remainingDeadlineMs _ _); [|exact Hw].
    destruct (_ <=? 0)%Z; [|exact Hw]. cbn. split; [by destruct Hw|done].
  - intros [e| |] w; [intros [H1 H2]; split; [done|congruence]|done..].
  - intros r. apply openConnect_post.
Qed.

Lemma resubscribeFromLive_post e : triple quiet (resubscribeFromLive env has_signal deadlineAtMs e)
  (fun r w => match r with inl id => only id w /\ over w = false | inr _ => idle w end).
Proof.
  eapply (triple_bind _ _ _ (fun _ => quiet)); [by intros w|by intros f w [Hw _]|]. intros u.
  eapply triple_catch; [apply resubscribe_post|by intros [id|[| |]] w H Hn; [exact H|by destruct (Hn e0)|exact H..]|].
  intros retry w [Hw _]. exact Hw.
Qed.

Lemma resubscription_post from : triple quiet (resubscription env has_signal deadlineAtMs from)
  (fun r w => match r with inl x => only x.1 w /\ over w = false | inr _ => idle w end).
Proof.
  eapply triple_catch.
  - eapply (triple_bind _ _ _ opened_post); [apply resubscribe_post| |].
    + instantiate (1 := fun r w => match r with inl x => only x.1 w /\ over w = false | inr f => opened_post (inr f) w end). by intros f w.
    + intros id w Hw. exact Hw.
  - intros [x|[e| |]] w H Hn; [exact H|by destruct (Hn e)|exact H..].
  - intros e. destruct (out_of_range e) eqn:Eo.
    + eapply (triple_bind _ _ _ (fun r w => match r with inl id => only id w /\ over w = false | inr _ => idle w end)).
      * eapply triple_weaken; [apply (resubscribeFromLive_post e)|intros w [H1 H2]; split; [done|by apply H2]|done].
      * by intros f w.
      * by intros id w Hw.
    + intros w [Hw _]. exact Hw.
Qed.

(** Between two streams: none is open, or the new one is and the handle goes on. *)
Definition between (w : World) : Prop := idle w \/ (busy w /\ over w = false).

Definition pending (w : World) : Prop := idle w /\ isFinished (progress w) = false.

Lemma await_pending : keeping pending (await env has_signal).
Proof.
  intros w [Hi Hf]. split; [by apply await_idle|]. unfold await. cbn [fst snd]. destruct (disconnects _); [|exact Hf].
  unfold disconnect. by case_match.
Qed.

Lemma futileCut_idle reason : keeping idle (futileCut env has_signal reason).
Proof. destruct reason; cbn [futileCut]; auto with handle. Qed.

Lemma resubscribe_between : triple quiet (resubscribeAfterCut env foreground has_signal deadlineAtMs)
  (fun r w => match r with inl _ => between w | inr _ => idle w end).
Proof.
  unfold resubscribeAfterCut. apply triple_get. intros w0 [Hw0 Ho]. apply orb_false_iff in Ho as [Ho _].
  eapply (triple_bind _ _ _ (fun _ => pending)); [by intros w ->|by intros e w []|].
  intros u1. eapply (triple_bind _ _ _ (fun _ => pending)); [by intros w Hw|by intros e w []|]. intros wake.
  eapply (triple_bind _ _ _ (fun _ => pending)); [by intros w Hw|by intros e w []|]. intros u2.
  eapply (triple_bind _ _ _ (fun _ => pending)); [apply await_pending|by intros e w []|]. intros m.
  destruct (CommandHandle.reconnect m) as [outcome|e]; [|by intros w []]. destruct (negb (resumed outcome)); [by intros w []|].
  eapply (triple_bind _ _ _ (fun _ => pending)); [by intros w Hw|by intros e w []|]. intros u3. apply triple_get. intros w1 [Hw1 Hf1].
  destruct (disconnected (progress w1)) eqn:Ed; [by intros w ->; left|]. destruct (allows (futile w1) outcome) as [allowed count].
  assert (over w1 = false) as Ho1 by (unfold over; by rewrite Hf1, Ed).
  eapply (triple_bind _ _ _ (fun _ => quiet)); [by intros w ->|by intros e w []|]. intros u4. destruct (negb allowed).
  { eapply (triple_bind _ _ _ (fun _ => idle)); [|done|by intros e w Hw].
    eapply triple_weaken; [|by intros w [Hw _]|by intros r w Hw; exact Hw]. apply futileCut_idle. }
  eapply (triple_bind _ _ _ (fun r w => match r with inl x => only x.1 w /\ over w = false | inr _ => idle w end)).
  - eapply triple_weaken; [apply resubscription_post|done|done].
  - by intros e w.
  - intros x w [[H1 H2] H3]. right. split; [|exact H3]. split; cbn; [exact H1|]. intros i [->|Hi]%elem_of_cons; [done|by apply H2].
Qed.

Lemma chunks_idle fuel : triple between (chunks env foreground has_signal deadlineAtMs fuel) (fun r w => r <> inr OutOfFuel -> idle w).
Proof.
  apply triple_loop; [|by intros w _ []]. apply triple_get. intros w0 Hw0. destruct (over w0) eqn:Eo.
  { intros w -> _. destruct Hw0 as [Hw0|[_ Hw0]]; [done|congruence]. }
  eapply (triple_bind _ _ _ (fun r w => r <> inr OutOfFuel -> idle w)).
  - intros w ->. apply consumeStream_idle. destruct Hw0 as [Hw0|[Hw0 _]]; [by apply idle_only|done].
  - intros e w H Hn. apply H. congruence.
  - intros u. apply triple_get. intros w1 Hw1. specialize (Hw1 ltac:(done)).
    destruct (over w1) eqn:Eo1; cbn [orb]; [by intros w -> _|]. destruct (negb (cut w1)); [by intros w -> _|]. eapply (triple_bind _ _ _ (fun r w => match r with inl _ => between w | inr _ => idle w end)).
    + intros w ->. by apply resubscribe_between.
    + by intros e w Hw.
    + by intros x w Hw.
Qed.
End Streams.

(** C30. However the reading of a command ends, by its end, by an error, by [disconnect()]
    or by its signal, every stream it opened was stopped and the registry of the sandbox
    holds none of them: for an agent whose streams begin as they should, and a caller
    that does not disconnect just while a resubscription succeeds. *)
Theorem streams_released env foreground has_signal deadline fuel pid k max from g :
  orderly env ->
  let run := wait env foreground has_signal deadline fuel (new_handle pid k max from g) in
  run.1 <> inr OutOfFuel -> (forall i, i <= streams run.2 -> i ∈ stopped run.2) /\ live run.2 = [].
Proof.
  intros Ho. assert (between (new_handle pid k max from g)) as Hb.
  { right. split; [|done]. split; cbn; [intros i; lia|set_solver]. }
  unfold wait, bind. pose proof (chunks_idle env foreground has_signal deadline Ho fuel _ Hb) as H.
  destruct (chunks _ _ _ _ _ _) as [[[]|f] w]; cbn in *; intros Hn; apply H; congruence.
Qed.

Lemma streams_released_witness :
  let run := wait cut_env true false None 20 sample_handle in
  ((forall i, i <= streams run.2 -> i ∈ stopped run.2) /\ live run.2 = []) /\ streams run.2 = 1.
Proof.
  split; [|vm_compute; reflexivity].
  refine (streams_released cut_env true false None 20 7 process_stream None 1 1 _ _); [|vm_compute; discriminate].
  split; [|done]. intros i first [= <-]. by eexists.
Defined.

(** A caller that disconnects while the agent answers a resubscription: the stream that
    was opened is stopped by nobody. *)
Definition leaky_env (n : nat) : moment := sample_moment sample_next true (n =? 4).

Example disconnect_leaves_a_stream :
  let run := wait leaky_env true false None 20 sample_handle in
  disconnected (progress run.2) = true /\ opened run.2 = 1 /\ live run.2 = [1] /\ stopped run.2 = [0; 0].
Proof. by vm_compute. Qed.

(** ** The reading ends *)

Section Ends.
Context (env : nat -> moment) (foreground has_signal : bool) (deadlineAtMs : option Q).

(** Computations that keep an invariant and do not run out of fuel. *)
Definition sound {A} (I : World -> Prop) (m : M A) : Prop := triple I m (fun r w => I w /\ r <> inr OutOfFuel).

Lemma sound_ret {A} I (a : A) : sound I (ret a).
Proof. by intros w. Qed.

Lemma sound_throws {A} I e : sound I (throw (Throws e) : M A).
Proof. by intros w. Qed.

Lemma sound_signal {A} I : sound I (throw SignalReason : M A).
Proof. by intros w. Qed.

Lemma sound_get I : sound I get.
Proof. by intros w. Qed.

Lemma sound_put (I : World -> Prop) f : (forall w, I w -> I (f w)) -> sound I (put f).
Proof. intros H w Hw. split; [by apply H|done]. Qed.

Lemma sound_bind {A B} I (m : M A) (k : A -> M B) : sound I m -> (forall a, sound I (k a)) -> sound I (bind m k).
Proof.
  intros Hm Hk w Hw. specialize (Hm w Hw). unfold bind. destruct (m w) as [[a|e] w']; [by apply (Hk a), Hm|].
  destruct Hm as [H Hn]. split; [done|]. cbn in *. congruence.
Qed.

Lemma sound_catch {A} I (m : M A) h : sound I m -> (forall e, sound I (h e)) -> sound I (catch m h).
Proof.
  intros Hm Hh w Hw. specialize (Hm w Hw). unfold catch. destruct (m w) as [[a|[e| |]] w']; [done|by apply (Hh e), Hm|done..].
Qed.

(** At least [u] awaits are over, and [f] futile reconnections are counted. *)
Definition past (u f : nat) (w : World) : Prop := u <= used w /\ futile w = f.

Lemma sound_await u f : sound (past u f) (await env has_signal).
Proof.
  intros w [H1 H2]. split; [|done]. unfold await. cbn [fst snd]. destruct (disconnects _); [|split; cbn; [lia|done]].
  unfold disconnect. case_match; split; cbn; (lia || done).
Qed.

Lemma sound_failed {A} u f e : sound (past u f) (throw_failed e : M A).
Proof. by intros w. Qed.

Hint Resolve sound_ret sound_throws sound_signal sound_get sound_bind sound_catch sound_await sound_failed : handle.
Hint Extern 1 (sound _ (match ?x with _ => _ end)) => destruct x : handle.
Hint Extern 2 (sound (past _ _) (put _)) => (by apply sound_put) : handle.

Lemma sound_consume_failed u f e : sound (past u f) (consume_failed env has_signal e).
Proof. unfold consume_failed, releaseStream. auto 10 with handle. Qed.

Lemma sound_consume u f m : sound (past u f) (consume m).
Proof. intros w Hw. unfold consume. destruct (progress_consume _ _). by split. Qed.

Lemma sound_consume_message u f m : sound (past u f) (consume_message env has_signal m).
Proof.
  apply sound_bind; [apply sound_consume|]. intros c. apply sound_bind; [destruct c; auto 10 with handle|]. intros t.
  unfold releaseStream. auto 10 with handle.
Qed.

Lemma sound_openConnect u f from : sound (past u f) (openConnect env has_signal from).
Proof. unfold openConnect. auto 20 with handle. Qed.

Lemma sound_resubscription u f from : sound (past u f) (resubscription env has_signal deadlineAtMs from).
Proof.
  assert (forall from, sound (past u f) (resubscribe env has_signal deadlineAtMs from)) as Hr.
  { intros from'. apply sound_bind; [|intros r; apply sound_openConnect]. intros w Hw. unfold remainingDeadline.
    destruct (remainingDeadlineMs _ _); [|done]. by destruct (_ <=? 0)%Z. }
  apply sound_catch; [auto with handle|]. intros e. destruct (out_of_range e); [|auto with handle]. unfold resubscribeFromLive.
  auto 10 with handle.
Qed.

(** From the [K]-th await on the streams bring no message, and no reconnection finds that
    the sandbox was resumed. *)
Context (K : nat).
Definition quiescent : Prop :=
  (forall i from pos m, K <= i -> next (env i) from pos <> Message m) /\
  (forall i o, K <= i -> CommandHandle.reconnect (env i) = inl o -> generationChanged o = false).
Context (HK : quiescent).

Lemma consume_turn_past w :
  let (r, w') := consume_turn env has_signal tt w in
  past (S (used w)) (futile w) w' /\ r <> inr OutOfFuel /\ (forall u, r = inl (inr u) -> used w < K).
Proof.
  rewrite consume_turn_eq. set (w1 := (await env has_signal w).2).
  assert (past (S (used w)) (futile w) w1) as H1.
  { subst w1. unfold await. cbn [snd]. destruct (disconnects _); [|by split]. unfold disconnect. by case_match. }
  destruct (next (env (used w)) (asked w) (read w)) as [m| |e] eqn:En.
  - pose proof (sound_consume_message _ _ m w1 H1) as [H2 H3]. destruct (consume_message _ _ _ _) as [r w']. split_and!; [done|done|].
    intros u _. destruct (decide (used w < K)) as [H|H]; [done|]. exfalso. by apply (proj1 HK (used w) (asked w) (read w) m); [lia|].
  - by split_and!.
  - pose proof (sound_consume_failed _ _ e w1 H1) as [H2 H3]. destruct (consume_failed _ _ _ _) as [r w'] eqn:Ef. split_and!; [done|done|].
    intros u ->. exfalso. revert Ef. unfold consume_failed, bind, get, releaseStream, put, throw, ret. cbn.
    destruct (signalled _); [done|]. destruct (disconnected _); [done|]. by destruct (negb _ && isReconnectable e).
Qed.

Lemma consumeStream_past fuel w : K - used w < fuel ->
  past (S (used w)) (futile w) (consumeStream env has_signal fuel w).2 /\ (consumeStream env has_signal fuel w).1 <> inr OutOfFuel.
Proof.
  revert w. induction fuel as [|fuel IH]; intros w Hf; [lia|]. unfold consumeStream. cbn [loop]. fold (consumeStream env has_signal fuel). unfold bind.
  pose proof (consume_turn_past w) as H. destruct (consume_turn env has_signal tt w) as [[[a|u]|f] w']; destruct H as ([H1 H2] & H3 & H4).
  - by split.
  - specialize (H4 u eq_refl). destruct (IH w') as [[H5 H6] H7]; [lia|]. split; [split; [lia|congruence]|done].
  - split; [by split|]. cbn in *. congruence.
Qed.

(** What a reconnection leaves to do. *)
Definition left_over (w : World) : nat := if over w then 0 else 5 * (K - used w) + (4 - futile w).

Lemma resubscribe_past w : futile w <= Reconnect.MAX_FUTILE_RECONNECTS ->
  let (r, w') := resubscribeAfterCut env foreground has_signal deadlineAtMs w in
  r <> inr OutOfFuel /\ (forall u, r = inl u -> futile w' <= Reconnect.MAX_FUTILE_RECONNECTS /\
    (over w' = true \/ used w < used w' /\ (futile w' = S (futile w) \/ used w < K))).
Proof.
  intros Hf. unfold resubscribeAfterCut, bind at 1, get at 1. unfold bind at 1, put at 1. unfold bind at 1, wakes at 1. unfold bind at 1, put at 1.
  set (w1 := with_log _ _). unfold bind at 1. destruct (await env has_signal w1) as [r w2] eqn:Ea.
  assert (r = inl (env (used w)) /\ used w2 = S (used w) /\ futile w2 = futile w) as (-> & Hu & Hfu).
  { unfold await in Ea. injection Ea as <- <-. split; [done|]. destruct (disconnects _); [|done]. unfold disconnect. by case_match. }
  destruct (CommandHandle.reconnect (env (used w))) as [o|e] eqn:Er; [|done]. destruct (negb (resumed o)); [done|].
  unfold bind at 1, put at 1. unfold bind at 1, get at 1. set (w3 := with_counts _ _ _ w2).
  destruct (disconnected (progress w3)) eqn:Ed.
  { split; [done|]. intros u _. split; [cbn; lia|]. left. unfold over. rewrite Ed. apply orb_true_r. }
  destruct (allows (futile w3) o) as [allowed count] eqn:Eal. unfold bind at 1, put at 1. set (w4 := with_counts _ _ _ w3).
  destruct (negb allowed) eqn:Ena.
  { assert (sound (past 0 count) (do e <- futileCut env has_signal (default suspendingReason (pendingCut w)) in @throw_failed unit e)) as Hs.
    { apply sound_bind; [|auto with handle]. unfold futileCut. auto with handle. }
    destruct (Hs w4) as [_ Hs']; [by split; [lia|]|]. destruct (bind _ _ w4) as [[u|f] w5] eqn:E5; cbn in Hs'; [exfalso|done].
    revert E5. unfold bind. destruct (futileCut _ _ _ w4) as [[e|f] w6]; [|done]. done. }
  assert (count <= Reconnect.MAX_FUTILE_RECONNECTS /\ (count = S (futile w) \/ used w < K)) as [Hc1 Hc2].
  { unfold allows in Eal. change (futile w3) with (futile w2) in Eal. rewrite Hfu in Eal.
    destruct (generationChanged o) eqn:Eg; injection Eal as <- <-.
    - split; [lia|]. right. destruct (decide (used w < K)); [done|]. rewrite (proj2 HK (used w) o) in Eg; [done|lia|done].
    - apply negb_false_iff, Nat.leb_le in Ena. split; [unfold Reconnect.MAX_FUTILE_RECONNECTS; lia|by left]. }
  pose proof (sound_resubscription (S (used w)) count (N.succ (lastSeq_of w3)) w4) as Hs. unfold bind at 1.
  destruct Hs as [[Hs1 Hs2] Hs3]; [split; [cbn; lia|done]|]. fold (resubscription env has_signal deadlineAtMs (N.succ (lastSeq_of w3))).
  destruct (resubscription _ _ _ _ w4) as [[x|f] w5]; [|split; [cbn in *; congruence|done]]. split; [done|]. intros u _. cbn in *.
  split; [lia|]. right. split; [lia|]. destruct Hc2; [left; congruence|by right].
Qed.

Lemma chunks_past turns fuel w : K < fuel -> futile w <= Reconnect.MAX_FUTILE_RECONNECTS -> left_over w < turns ->
  (loop (chunks_turn env foreground has_signal deadlineAtMs fuel) turns w).1 <> inr OutOfFuel.
Proof.
  intros HF. revert w. induction turns as [|turns IH]; intros w Hf Hl; [lia|]. cbn [loop]. unfold bind at 1, chunks_turn at 1, bind at 1, get at 1.
  unfold left_over in Hl. destruct (over w); [done|]. unfold bind at 1.
  destruct (consumeStream_past fuel w) as [[H1 H2] H3]; [lia|]. destruct (consumeStream _ _ fuel w) as [[u|f] w1]; [|cbn in *; congruence].
  cbn [fst snd] in *. unfold bind at 1, get at 1. destruct (over w1 || negb (cut w1)); [done|]. unfold bind at 1.
  pose proof (resubscribe_past w1 ltac:(congruence)) as H. destruct (resubscribeAfterCut _ _ _ _ w1) as [[u'|f] w2]; [|destruct H; cbn; congruence].
  destruct H as [_ H]. destruct (H u' eq_refl) as [Hf2 H4]. apply IH; [done|]. unfold left_over.
  unfold Reconnect.MAX_FUTILE_RECONNECTS in *. destruct (over w2); [lia|]. destruct H4 as [[=]|[H4 H5]]. lia.
Qed.
End Ends.

(** Reading a command always ends: once its streams bring nothing more and the sandbox
    is not resumed any more, at most three reconnections are tried in vain, and a fuel of
    six more than five times the awaits before that is enough for [wait()] to answer. *)
Theorem reading_ends env foreground has_signal deadline K fuel pid k max from g :
  quiescent env K -> 5 * K + 6 <= fuel ->
  (wait env foreground has_signal deadline fuel (new_handle pid k max from g)).1 <> inr OutOfFuel.
Proof.
  intros HK Hf. unfold wait, bind. pose proof (chunks_past env foreground has_signal deadline K HK fuel fuel (new_handle pid k max from g)) as H.
  unfold chunks. destruct (loop _ fuel _) as [[u|f] w]; [done|].
  assert ((@inr unit failure f, w).1 <> inr OutOfFuel) as Hn; [apply H; cbn; lia|]. cbn in *. congruence.
Qed.

(** A sandbox that is reached again and again, and whose streams are cut at once. *)
Definition futile_env (n : nat) : moment := sample_moment (fun _ _ => Broken reset) false false.

Lemma reading_ends_witness :
  (wait futile_env true false None 6 sample_handle).1 <> inr OutOfFuel /\
  (wait futile_env true false None 6 sample_handle).1 = inr (Throws reset) /\
  reconnectCount (wait futile_env true false None 6 sample_handle).2 = 3.
Proof.
  split; [|split; vm_compute; reflexivity].
  refine (reading_ends futile_env true false None 0 6 7 process_stream None 1 1 _ _); [|lia].
  split; [done|]. by intros i o _ [= <-].
Defined.
