(* ===== verification/Persistence.v ===== *)
(** * Persistence: homes kept in S3

    src/clients/typescript/src/sandbox/persistence.ts: [S3Prefix] and its validation, the
    requests of [Checkpoint] and [Restore], the rules of [create({ persist })], the two
    tables of errors, and [PersistenceClient], which reads the stream of events of each.
    A stream brings finitely many messages, since its call has a timeout. *)

From stdpp Require Import base option list strings sets.
From Stdlib Require Import NArith ZArith QArith Lia.
From S2P Require Import Prelude Text RpcErrors.

Local Open Scope nat_scope.

(** ** What a caller may pass *)

(** A parameter whose type the code does not trust. *)
Inductive value := VUndefined | VNull | VText (s : text) | VNumber (n : jsnum) | VOther.

(** [v ?? d]. *)
Definition or_value (v d : value) : value := match v with VUndefined | VNull => d | _ => v end.

Definition PERSIST_KEY_PREFIX_MAX_BYTES : nat := 900.
Definition PERSIST_EXCLUDE_MAX : nat := 64.
Definition S3_BUCKET_NAME_MIN : nat := 3.
Definition S3_BUCKET_NAME_MAX : nat := 63.
Definition DEFAULT_PERSIST_TIMEOUT_MS : Z := 600 * 1000.
Definition EXCLUDE_MAX_BYTES : nat := 4096.
Definition PERSIST_ARCHIVE_KEY : text := txt "home.tar.gz".
Definition PERSIST_MANIFEST_KEY : text := txt "manifest.json".

Definition SLASH : N := 47.
Definition DOT : N := 46.
Definition HYPHEN : N := 45.

Definition is_lower (c : N) : bool := ((97 <=? c) && (c <=? 122))%N.
Definition is_upper (c : N) : bool := ((65 <=? c) && (c <=? 90))%N.
Definition lower_digit (c : N) : bool := is_lower c || is_digit c.
Definition alphanumeric (c : N) : bool := is_lower c || is_upper c || is_digit c.

Definition head_is (f : N -> bool) (s : text) : bool := match head s with Some c => f c | None => false end.
Definition last_is (f : N -> bool) (s : text) : bool := match last s with Some c => f c | None => false end.

(** Whether a pair of neighbours is twice [c]. *)
Fixpoint doubled (c : N) (s : text) : bool :=
  match s with
  | x :: (y :: _) as s' => ((x =? c) && (y =? c))%N || doubled c s'
  | _ => false
  end.

(** Four groups of digits between dots. *)
Definition ipv4_like (s : text) : bool :=
  let parts := split_on DOT s in
  (length parts =? 4) && forallb (fun p => negb (bool_decide (p = [])) && forallb is_digit p) parts.

Definition bucket_char (c : N) : bool := lower_digit c || (c =? DOT)%N || (c =? HYPHEN)%N.

Definition validateBucketName (bucket : value) : result text :=
  match bucket with
  | VText b =>
      _ ← throw_if ((length b <? S3_BUCKET_NAME_MIN) || (S3_BUCKET_NAME_MAX <? length b)) InvalidArgumentError;
      _ ← throw_if (negb (forallb bucket_char b)) InvalidArgumentError;
      _ ← throw_if (negb (head_is lower_digit b) || negb (last_is lower_digit b)) InvalidArgumentError;
      _ ← throw_if (doubled DOT b) InvalidArgumentError;
      _ ← throw_if (ipv4_like b) InvalidArgumentError;
      Ok b
  | _ => Throw InvalidArgumentError
  end.

(** A component of a path that names no other directory. *)
Definition plain_component (c : text) : bool := negb (bool_decide (c ∈ [[]; txt "."; txt ".."])).

(** Letters, digits and [!_.*'()/-]. *)
Definition key_char (c : N) : bool := alphanumeric c || existsb (N.eqb c) (txt "!_.*'()/-").

Definition validateKeyPrefix (keyPrefix : value) : result text :=
  match keyPrefix with
  | VText [] => Throw InvalidArgumentError
  | VText p =>
      _ ← throw_if (PERSIST_KEY_PREFIX_MAX_BYTES <? utf8_length p) InvalidArgumentError;
      _ ← throw_if (starts_with [SLASH] p || ends_with [SLASH] p) InvalidArgumentError;
      _ ← throw_if (negb (forallb plain_component (split_on SLASH p))) InvalidArgumentError;
      _ ← throw_if (negb (forallb key_char p)) InvalidArgumentError;
      Ok p
  | _ => Throw InvalidArgumentError
  end.

(** ** S3Prefix *)

Record S3Prefix := { bucket : text; prefix : text; name : option text; region : option text }.

Definition slashed (a b : text) : text := a ++ SLASH :: b.

(** The constructor: [prefix] is the base of the operator, [rayito] when it is missing. *)
Definition new_S3Prefix (in_bucket in_prefix : value) (in_name in_region : option text) : result S3Prefix :=
  b ← validateBucketName in_bucket;
  p ← validateKeyPrefix (or_value in_prefix (VText (txt "rayito")));
  _ ← match in_name with Some n => _ ← validateKeyPrefix (VText (slashed p n)); Ok tt | None => Ok tt end;
  _ ← throw_if (bool_decide (in_region = Some [])) InvalidArgumentError;
  Ok {| bucket := b; prefix := p; name := in_name; region := in_region |}.

Definition keyPrefix (p : S3Prefix) : result text :=
  match name p with None => Throw InvalidArgumentError | Some n => Ok (slashed (prefix p) n) end.

Definition archiveKey (p : S3Prefix) : result text := k ← keyPrefix p; Ok (slashed k PERSIST_ARCHIVE_KEY).
Definition manifestKey (p : S3Prefix) : result text := k ← keyPrefix p; Ok (slashed k PERSIST_MANIFEST_KEY).
Definition uri (p : S3Prefix) : result text := k ← keyPrefix p; Ok (txt "s3://" ++ slashed (bucket p) k).

Definition withName (p : S3Prefix) (n : text) : result S3Prefix :=
  new_S3Prefix (VText (bucket p)) (VText (prefix p)) (Some n) (region p).

Definition equals (p : S3Prefix) (other : option S3Prefix) : bool :=
  match other with
  | None => false
  | Some o => bool_decide (bucket p = bucket o) && bool_decide (prefix p = prefix o) &&
              bool_decide (name p = name o) && bool_decide (region p = region o)
  end.

(** ** Requests *)

(** A path below the home: relative, and it stays there. *)
Definition validateExcludeEntry (entry : value) : result text :=
  match entry with
  | VText [] => Throw InvalidArgumentError
  | VText e =>
      _ ← throw_if (bool_decide (0%N ∈ e)) InvalidArgumentError;
      _ ← throw_if (starts_with [SLASH] e) InvalidArgumentError;
      _ ← throw_if (EXCLUDE_MAX_BYTES <? utf8_length e) InvalidArgumentError;
      let components := List.filter (fun c => negb (bool_decide (c ∈ [[]; txt "."]))) (split_on SLASH e) in
      _ ← throw_if (bool_decide (txt ".." ∈ components)) InvalidArgumentError;
      _ ← throw_if (bool_decide (components = [])) InvalidArgumentError;
      Ok e
  | _ => Throw InvalidArgumentError
  end.

Fixpoint validate_entries (exclude : list value) : result (list text) :=
  match exclude with
  | [] => Ok []
  | entry :: rest => e ← validateExcludeEntry entry; es ← validate_entries rest; Ok (e :: es)
  end.

Definition validateExclude (exclude : list value) : result (list text) :=
  _ ← throw_if (PERSIST_EXCLUDE_MAX <? length exclude) InvalidArgumentError; validate_entries exclude.

Definition validatePersistTimeoutMs (timeoutMs : option jsnum) : result Q :=
  match default (num_of_Z DEFAULT_PERSIST_TIMEOUT_MS) timeoutMs with
  | Finite q => if Qle_bool q 0 then Throw InvalidArgumentError else Ok q
  | _ => Throw InvalidArgumentError
  end.

Record S3Location := { loc_bucket : text; loc_keyPrefix : text; loc_region : option text }.
Record CheckpointRequest := { cr_target : S3Location; cr_exclude : list text; cr_user : option text }.
Record RestoreRequest := { rr_source : S3Location; rr_user : option text }.

Definition location (p : S3Prefix) : result S3Location :=
  k ← keyPrefix p; Ok {| loc_bucket := bucket p; loc_keyPrefix := k; loc_region := region p |}.

Definition checkpointRequest (target : S3Prefix) (exclude : list value) (user : option text) : result CheckpointRequest :=
  l ← location target; es ← validateExclude exclude; Ok {| cr_target := l; cr_exclude := es; cr_user := user |}.

Definition restoreRequest (source : S3Prefix) (user : option text) : result RestoreRequest :=
  l ← location source; Ok {| rr_source := l; rr_user := user |}.

(** The explicit one, else the one of the sandbox; always with a name. *)
Definition resolveTarget (explicit bound : option S3Prefix) : result S3Prefix :=
  match (match explicit with Some p => Some p | None => bound end) with
  | None => Throw InvalidArgumentError
  | Some p => match name p with None => Throw InvalidArgumentError | Some _ => Ok p end
  end.

(** ** The rules of [create({ persist })] *)

Definition requireRoleForPersist (persist : option S3Prefix) (executionRoleArn : option text) : result unit :=
  throw_if (bool_decide (is_Some persist) && bool_decide (executionRoleArn = None)) InvalidArgumentError.

Definition bindPersist (persist : S3Prefix) (sandboxId : text) : result S3Prefix :=
  match name persist with None => withName persist sandboxId | Some _ => Ok persist end.

Definition requireNamedPersist (persist : S3Prefix) : result S3Prefix :=
  match name persist with None => Throw InvalidArgumentError | Some _ => Ok persist end.

Definition shouldAutoRestore (persist : S3Prefix) : bool := bool_decide (is_Some (name persist)).

(** ** Events *)

Record StreamError := { se_code : text; se_message : text }.

(** [filesDone] and the byte counts of a progress; what the agent counted at the end. *)
Record Progress := { filesDone : N; bytes1 : N; bytes2 : N }.
Record Done := { d_files : N; d_bytes : N; d_archiveBytes : N; d_sha256 : text; d_skipped : N; d_durationMs : N }.

(** The events of both streams; [OtherEvent]: one without a case, or of a later agent. *)
Inductive event :=
  | Started
  | InProgress (p : Progress)
  | IsDone (d : Done)
  | IsError (e : StreamError)
  | OtherEvent.

(** Where the home is, and what was counted. *)
Record Result := { r_bucket : text; r_keyPrefix : text; r_uri : text; r_done : Done }.

Definition resultFrom (target : S3Prefix) (d : Done) : result Result :=
  k ← keyPrefix target; u ← uri target; Ok {| r_bucket := bucket target; r_keyPrefix := k; r_uri := u; r_done := d |}.

(** ** Errors *)

Definition own_code (class : error_class) (code : text) : thrown := OwnError class (Some code) None false None.
Definition simple (class : error_class) : thrown := OwnError class None None false None.

Definition INTERRUPTED : text := txt "interrupted".
Definition INTERNAL : text := txt "internal".
Definition UNIMPLEMENTED : text := txt "unimplemented".

(** [StreamError.code] after [started]. *)
Definition streamErrorFrom (error : StreamError) : thrown :=
  let code := se_code error in
  if bool_decide (code = txt "not_found") then simple NotFoundError
  else if bool_decide (code = txt "invalid_argument") then simple InvalidArgumentError
  else if bool_decide (code = txt "deadline_exceeded") then simple TimeoutError
  else if bool_decide (code = SANDBOX_TIMEOUT_DETAIL) then sandboxTimeoutError None None
  else if bool_decide (code = txt "suspending") then own_code PersistenceError INTERRUPTED
  else if bool_decide (code = UNIMPLEMENTED) then own_code PersistenceError UNIMPLEMENTED
  else own_code PersistenceError (if bool_decide (code = []) then INTERNAL else code).

(** [new PersistenceError(message, { grpcCode, cause, code })]. *)
Definition persistence_error (code : text) (grpc : Code) (cause : thrown) : thrown :=
  OwnError PersistenceError (Some code) (Some grpc) false (Some cause).

(** [error instanceof Error ? error : new SandboxError(String(error))]. *)
Definition as_error (e : thrown) : thrown := match e with PlainObject _ _ _ | NotAnObject => simple SandboxError | _ => e end.

(** A gRPC status before the first message. *)
Definition statusError (error : thrown) : thrown :=
  match error with
  | ConnectError code _ _ =>
      if isSandboxTimeout error then sandboxTimeoutError (Some code) (Some error) else
      match code with
      | NotFound => own NotFoundError code error
      | InvalidArgument => own InvalidArgumentError code error
      | FailedPrecondition => persistence_error (txt "failed_precondition") code error
      | PermissionDenied =>
          if isProxyForbidden error then OwnError AuthenticationError None (Some code) true (Some error)
          else persistence_error (txt "permission_denied") code error
      | Unauthenticated => own AuthenticationError code error
      | Unimplemented => persistence_error UNIMPLEMENTED code error
      | DeadlineExceeded => own TimeoutError code error
      | ResourceExhausted => persistence_error (txt "resource_exhausted") code error
      | Canceled => own SandboxError code error
      | _ =>
          if bool_decide (code = Unavailable) || isStreamReset error then persistence_error INTERRUPTED code error
          else persistence_error INTERNAL code error
      end
  | _ => as_error error
  end.

(** An error after [started]: nothing is reconnected. *)
Definition midStreamError (error : thrown) : thrown :=
  match error with
  | ConnectError code _ _ =>
      if bool_decide (code = DeadlineExceeded) then own TimeoutError code error
      else if isSandboxTimeout error then sandboxTimeoutError (Some code) (Some error)
      else if bool_decide (code = Canceled) then own SandboxError code error
      else persistence_error INTERRUPTED code error
  | _ => as_error error
  end.

Definition streamEndedEarly : thrown := own_code PersistenceError INTERRUPTED.

(** ** The client *)

(** What the iterator of a stream brings, to its end. *)
Inductive stream := EndOfStream | Fails (e : thrown) | Message (m : event) (rest : stream).

(** What happens to the controller of a stream. *)
Inductive action := Opened | AbortedStream.

Definition requireStarted (first : option event) : option thrown :=
  match first with
  | None => Some (simple SandboxError)
  | Some (IsError e) => Some (streamErrorFrom e)
  | Some Started => None
  | Some _ => Some (simple SandboxError)
  end.

(** [handleCheckpointEvent] and [handleRestoreEvent]: they differ in the names of their
    counts.  [onProgress] is the caller's, and may throw. *)
Definition handleEvent (target : S3Prefix) (onProgress : Progress -> option thrown) (m : event) : (option Result + thrown) :=
  match m with
  | InProgress p => match onProgress p with None => inl None | Some e => inr e end
  | IsDone d => match resultFrom target d with Ok r => inl (Some r) | Throw c => inr (simple c) end
  | IsError e => inr (streamErrorFrom e)
  | _ => inl None
  end.

(** The loop of [#consume] and its [catch]; its [finally] aborts the controller. *)
Fixpoint consume_loop (handle : event -> option Result + thrown) (s : stream) : option Result + thrown :=
  match s with
  | EndOfStream => inl None
  | Fails e => inr e
  | Message m rest => match handle m with inl None => consume_loop handle rest | r => r end
  end.

Definition mid_stream (r : option Result + thrown) : option Result + thrown :=
  match r with inr (ConnectError _ _ _ as e) => inr (midStreamError e) | _ => r end.

Definition consume (handle : event -> option Result + thrown) (first : option event) (s : stream) : option Result + thrown :=
  mid_stream (match first with
              | None => consume_loop handle s
              | Some m => consume_loop handle (Message m s)
              end).

(** [#open], [#consume] and the end of [checkpoint] and [restore], with what was done to
    the stream; [opened] is what [openStream] answered. *)
Definition follow (handle : event -> option Result + thrown) (opened : option event * stream + thrown) : (Result + thrown) * list action :=
  match opened with
  | inr e => (inr e, [])
  | inl (first, s) =>
      match requireStarted first with
      | Some e => (inr e, [Opened; AbortedStream])
      | None =>
          (match consume handle first s with
           | inl (Some r) => inl r
           | inl None => inr streamEndedEarly
           | inr e => inr e
           end, [Opened; AbortedStream])
      end
  end.

(** [open_checkpoint] and [open_restore] are [openStream] of core.ts on a request: its
    first message and the rest, or the error it throws, for which core.ts calls
    [statusError] (Calls.v, [openFailure]). *)
Section Client.
Context (open_checkpoint : CheckpointRequest -> Q -> option event * stream + thrown)
  (open_restore : RestoreRequest -> Q -> option event * stream + thrown).

Definition refused (c : error_class) : (Result + thrown) * list action := (inr (simple c), []).

Definition checkpoint (bound target : option S3Prefix) (exclude : list value) (timeoutMs : option jsnum) (user : option text)
    (onProgress : Progress -> option thrown) : (Result + thrown) * list action :=
  match (destination ← resolveTarget target bound; ms ← validatePersistTimeoutMs timeoutMs;
         request ← checkpointRequest destination exclude user; Ok (destination, ms, request)) with
  | Throw c => refused c
  | Ok (destination, ms, request) => follow (handleEvent destination onProgress) (open_checkpoint request ms)
  end.

Definition restore (bound source : option S3Prefix) (timeoutMs : option jsnum) (user : option text)
    (onProgress : Progress -> option thrown) : (Result + thrown) * list action :=
  match (origin ← resolveTarget source bound; ms ← validatePersistTimeoutMs timeoutMs;
         request ← restoreRequest origin user; Ok (origin, ms, request)) with
  | Throw c => refused c
  | Ok (origin, ms, request) => follow (handleEvent origin onProgress) (open_restore request ms)
  end.
End Client.

(** ** Lemmas *)

Lemma split_on_cat c a b : split_on c (a ++ c :: b) = split_on c a ++ split_on c b.
Proof.
  induction a as [|x a IH]; cbn [app split_on].
  - by rewrite N.eqb_refl.
  - rewrite IH. destruct (N.eqb_spec x c); [done|]. pose proof (split_on_not_nil c a). by destruct (split_on c a).
Qed.

Definition key_ok (s : text) : Prop :=
  s <> [] /\ utf8_length s <= PERSIST_KEY_PREFIX_MAX_BYTES /\
  Forall (fun c => plain_component c = true) (split_on SLASH s) /\ Forall (fun c => key_char c = true) s.

Definition bucket_ok (b : text) : Prop :=
  S3_BUCKET_NAME_MIN <= length b <= S3_BUCKET_NAME_MAX /\ Forall (fun c => bucket_char c = true) b /\
  head_is lower_digit b = true /\ last_is lower_digit b = true /\ doubled DOT b = false /\ ipv4_like b = false.

Record prefix_ok (p : S3Prefix) : Prop := {
  ok_bucket : bucket_ok (bucket p);
  ok_prefix : key_ok (prefix p);
  ok_name : forall n, name p = Some n -> key_ok (slashed (prefix p) n);
  ok_region : region p <> Some []
}.

Lemma forallb_true {A} (f : A -> bool) l : forallb f l = true <-> Forall (fun x => f x = true) l.
Proof. by apply forallb_Forall. Qed.

(** A leading or a trailing slash is an empty component. *)
Lemma no_outer_slash s : Forall (fun c => plain_component c = true) (split_on SLASH s) ->
  starts_with [SLASH] s || ends_with [SLASH] s = false.
Proof.
  intros H. apply orb_false_iff. rewrite <- !not_true_iff_false. split; intros E.
  - apply starts_with_true in E as [r ->]. cbn in H. by apply Forall_inv in H.
  - apply ends_with_true in E as [r ->]. rewrite (split_on_cat SLASH r []) in H. apply Forall_app in H as [_ H]. by apply Forall_inv in H.
Qed.

Lemma validateKeyPrefix_exact v s : validateKeyPrefix v = Ok s <-> v = VText s /\ key_ok s.
Proof.
  unfold key_ok. destruct v as [| |[|x t]| |]; cbn [validateKeyPrefix]; try by split; [|intros [? _]].
  - by split; [|intros [[= <-] [[] _]]].
  - rewrite !throw_if_bind, !negb_false_iff, !forallb_true, Nat.ltb_ge. split.
    + intros (H1 & H2 & H3 & H4 & [= <-]). done.
    + intros [[= ->] (_ & H1 & H3 & H4)]. split_and!; try done. by apply no_outer_slash.
Qed.

Lemma validateBucketName_exact v b : validateBucketName v = Ok b <-> v = VText b /\ bucket_ok b.
Proof.
  unfold bucket_ok. destruct v as [| |t| |]; cbn [validateBucketName]; try by split; [|intros [? _]].
  rewrite !throw_if_bind, !orb_false_iff, !negb_false_iff, forallb_true, !Nat.ltb_ge. split.
  - intros ([H1 H2] & H3 & [H4 H5] & H6 & H7 & [= <-]). done.
  - intros [[= ->] ([H1 H2] & H3 & H4 & H5 & H6 & H7)]. done.
Qed.

Lemma new_S3Prefix_exact vb vp n r p :
  new_S3Prefix vb vp n r = Ok p <->
  prefix_ok p /\ vb = VText (bucket p) /\ or_value vp (VText (txt "rayito")) = VText (prefix p) /\ name p = n /\ region p = r.
Proof.
  unfold new_S3Prefix. rewrite bind_ok. split.
  - intros (b & Hb%validateBucketName_exact & (q & Hq%validateKeyPrefix_exact & ([] & Hn & [Hr [= <-]]%throw_if_bind)%bind_ok)%bind_ok).
    destruct Hb as [-> Hb], Hq as [E Hq]. apply bool_decide_eq_false in Hr. split_and!; try done. split; cbn; try done.
    intros n' ->. apply bind_ok in Hn as (x & Hx%validateKeyPrefix_exact & _). by destruct Hx as [[= <-] Hx].
  - intros ([Hb Hp Hn Hr] & -> & Ep & <- & <-). exists (bucket p). split; [by apply validateBucketName_exact|].
    apply bind_ok. exists (prefix p). split; [by apply validateKeyPrefix_exact|]. apply bind_ok. exists tt. split.
    + destruct (name p) as [n|] eqn:En; [|done]. apply bind_ok. exists (slashed (prefix p) n). split; [|done].
      apply validateKeyPrefix_exact. by split; [|apply Hn].
    + apply throw_if_bind. split; [by apply bool_decide_eq_false|]. by destruct p.
Qed.

Definition exclude_ok (e : text) : Prop :=
  (0%N ∉ e) /\ utf8_length e <= EXCLUDE_MAX_BYTES /\ starts_with [SLASH] e = false /\
  (txt ".." ∉ split_on SLASH e) /\ exists c, c ∈ split_on SLASH e /\ c <> [] /\ c <> txt ".".

(** What is left out is named by a path that stays below the home and is not the home. *)
Lemma validateExcludeEntry_exact v e : validateExcludeEntry v = Ok e <-> v = VText e /\ exclude_ok e.
Proof.
  destruct v as [| |[|x t]| |]; cbn [validateExcludeEntry]; try by split; [|intros [? _]].
  - split; [done|]. intros [[= <-] (_ & _ & _ & _ & c & Hc & Hn & _)]. cbn in Hc. by apply list_elem_of_singleton in Hc.
  - set (s := x :: t). rewrite !throw_if_bind, Nat.ltb_ge, !bool_decide_eq_false. unfold exclude_ok.
    set (cs := List.filter _ _).
    assert (forall c, c ∈ cs <-> c ∈ split_on SLASH s /\ c <> [] /\ c <> txt ".") as Hcs.
    { intros c. rewrite !list_elem_of_In. unfold cs. rewrite filter_In, negb_true_iff, bool_decide_eq_false, !list_elem_of_In.
      cbn. set_solver. }
    clearbody cs. assert (txt ".." ∈ cs <-> txt ".." ∈ split_on SLASH s) as Hdd.
    { rewrite Hcs. split; [by intros [? _]|]. intros ?. split_and!; [done|by by_decide..]. }
    rewrite Hdd. split.
    + intros (H1 & H2 & H3 & H4 & H5 & [= <-]). split_and!; try done. destruct cs as [|c cs'] eqn:E; [done|].
      exists c. apply Hcs. by left.
    + intros [[= <-] (H1 & H2 & H3 & H4 & c & Hc)]. split_and!; try done. intros ->. apply Hcs in Hc. by apply elem_of_nil in Hc.
Qed.

(** A message after which the stream is still read. *)
Definition quiet (onProgress : Progress -> option thrown) (m : event) : Prop :=
  match m with InProgress p => onProgress p = None | IsDone _ | IsError _ => False | _ => True end.

Definition messages (ms : list event) (rest : stream) : stream := foldr Message rest ms.

Lemma handle_quiet target cb m : quiet cb m -> handleEvent target cb m = inl None.
Proof. destruct m; cbn; try done. by intros ->. Qed.

Lemma resultFrom_named target d : is_Some (name target) -> exists r, resultFrom target d = Ok r.
Proof. intros [n En]. unfold resultFrom, uri, keyPrefix. rewrite En. by eexists. Qed.

Lemma consume_messages target cb ms s : Forall (quiet cb) ms ->
  consume_loop (handleEvent target cb) (messages ms s) = consume_loop (handleEvent target cb) s.
Proof. induction 1 as [|m ms Hm _ IH]; [done|]. cbn. by rewrite (handle_quiet target cb m Hm). Qed.

Lemma handle_done target cb m r : is_Some (name target) ->
  handleEvent target cb m = inl (Some r) <-> exists d, m = IsDone d /\ resultFrom target d = Ok r.
Proof.
  intros Hn. destruct m; cbn; try (by split; [|intros (? & ? & ?)]).
  - destruct (cb p); by split; [|intros (? & ? & ?)].
  - destruct (resultFrom_named target d Hn) as [r' Er]. rewrite Er. split; [intros [= ->]; by exists d|intros (d' & [= <-] & E)].
    rewrite Er in E. by injection E as ->.
Qed.

Lemma handle_goes_on target cb m : is_Some (name target) -> handleEvent target cb m = inl None -> quiet cb m.
Proof.
  intros Hn. destruct m; cbn; try done.
  - by destruct (cb p).
  - destruct (resultFrom_named target d Hn) as [r Er]. by rewrite Er.
Qed.

Lemma consume_loop_done target cb s r : is_Some (name target) ->
  consume_loop (handleEvent target cb) s = inl (Some r) <->
  exists ms d rest, s = messages ms (Message (IsDone d) rest) /\ Forall (quiet cb) ms /\ resultFrom target d = Ok r.
Proof.
  intros Hn. split.
  - induction s as [| |m rest IH]; cbn [consume_loop]; [done..|]. destruct (handleEvent target cb m) as [[r'|]|e] eqn:E; [| |done].
    + intros [= ->]. apply handle_done in E as (d & -> & E); [|done]. by exists [], d, rest.
    + intros H. destruct (IH H) as (ms & d & rest' & -> & Hq & Er). apply handle_goes_on in E; [|done].
      exists (m :: ms), d, rest'. split_and!; [done|by constructor|done].
  - intros (ms & d & rest & -> & Hq & Er). rewrite consume_messages by done. cbn. by rewrite Er.
Qed.

Lemma resolveTarget_named explicit bound p : resolveTarget explicit bound = Ok p -> is_Some (name p).
Proof. unfold resolveTarget. repeat case_match; intros [= <-]; by eexists. Qed.

Lemma mid_stream_done x r : mid_stream x = inl r <-> x = inl r.
Proof. destruct x as [o|[]]; done. Qed.

Lemma follow_done target cb opened r acts : is_Some (name target) ->
  follow (handleEvent target cb) opened = (inl r, acts) <->
  acts = [Opened; AbortedStream] /\ exists ms d rest, opened = inl (Some Started, messages ms (Message (IsDone d) rest)) /\
    Forall (quiet cb) ms /\ resultFrom target d = Ok r.
Proof.
  intros Hn. unfold follow. destruct opened as [[first s]|e]; [|by split; [|intros (_ & ? & ? & ? & ? & _)]].
  destruct (requireStarted first) as [e|] eqn:Es.
  - split; [done|]. intros (_ & ms & d & rest & [= -> ->] & _). done.
  - assert (first = Some Started) as -> by by destruct first as [[]|]. unfold consume.
    set (x := consume_loop _ _). assert (x = consume_loop (handleEvent target cb) s) as Ex by done. split.
    + destruct (mid_stream x) as [[r'|]|e] eqn:Em; [|done..]. intros [= -> <-]. split; [done|]. apply (mid_stream_done x (Some r)) in Em.
      rewrite Ex, consume_loop_done in Em by done. destruct Em as (ms & d & rest & -> & H). by exists ms, d, rest.
    + intros (-> & ms & d & rest & [= ->] & H). assert (x = inl (Some r)) as ->; [|done].
      rewrite Ex, consume_loop_done by done. by exists ms, d, rest.
Qed.

Lemma follow_cut target cb ms code message cause : Forall (quiet cb) ms ->
  let e := ConnectError code message cause in
  follow (handleEvent target cb) (inl (Some Started, messages ms (Fails e))) = (inr (midStreamError e), [Opened; AbortedStream]).
Proof.
  intros Hq e. unfold follow, consume. cbn [requireStarted].
  change (consume_loop (handleEvent target cb) (Message Started (messages ms (Fails e)))) with (consume_loop (handleEvent target cb) (messages ms (Fails e))).
  by rewrite consume_messages.
Qed.

(** ** What the theorems are about *)

Lemma slashed_components p n : split_on SLASH (slashed p n) = split_on SLASH p ++ split_on SLASH n.
Proof. apply split_on_cat. Qed.

(** The two objects of a home are below the prefix of the operator and below the name:
    no component of the path leads elsewhere. *)
Record home_below (p : S3Prefix) (n : text) : Prop := {
  hb_key : keyPrefix p = Ok (slashed (prefix p) n);
  hb_archive : archiveKey p = Ok (slashed (slashed (prefix p) n) PERSIST_ARCHIVE_KEY);
  hb_manifest : manifestKey p = Ok (slashed (slashed (prefix p) n) PERSIST_MANIFEST_KEY);
  hb_components : Forall (fun c => plain_component c = true) (split_on SLASH (prefix p) ++ split_on SLASH n);
  hb_length : utf8_length (slashed (prefix p) n) <= PERSIST_KEY_PREFIX_MAX_BYTES
}.

Lemma named_home p n : prefix_ok p -> name p = Some n -> home_below p n.
Proof.
  intros [_ _ Hn _] En. destruct (Hn n En) as (_ & Hl & Hc & _).
  assert (keyPrefix p = Ok (slashed (prefix p) n)) as Ek by (unfold keyPrefix; by rewrite En).
  split; unfold archiveKey, manifestKey; rewrite ?Ek; try done. by rewrite <- slashed_components.
Qed.

(** The home of a sandbox created with [persist] is below the operator's prefix: the
    prefix that [create()] binds to a sandbox is valid, keeps the bucket and the prefix it
    was given, has the name it was given or else the identifier of the sandbox, and the
    keys of its two objects have only plain components, none empty, [.] or [..]. *)
Theorem persisted_home persist sandboxId p : prefix_ok persist -> bindPersist persist sandboxId = Ok p ->
  prefix_ok p /\ bucket p = bucket persist /\ prefix p = prefix persist /\
  home_below p (default sandboxId (name persist)).
Proof.
  intros Hok. unfold bindPersist. destruct (name persist) as [n|] eqn:En.
  - intros [= <-]. split_and!; try done. by apply named_home.
  - intros (Hp & [= Eb] & [= Ep] & Hn & _)%new_S3Prefix_exact. split_and!; try done. by apply named_home.
Qed.

Definition sample_prefix : S3Prefix := {| bucket := txt "homes"; prefix := txt "rayito"; name := None; region := None |}.

Lemma sample_prefix_built : new_S3Prefix (VText (txt "homes")) VUndefined None None = Ok sample_prefix.
Proof. reflexivity. Qed.

Lemma persisted_home_witness :
  bindPersist sample_prefix (txt "mvm-1") = Ok {| bucket := txt "homes"; prefix := txt "rayito"; name := Some (txt "mvm-1"); region := None |} /\
  home_below {| bucket := txt "homes"; prefix := txt "rayito"; name := Some (txt "mvm-1"); region := None |} (txt "mvm-1").
Proof.
  assert (bindPersist sample_prefix (txt "mvm-1") = Ok {| bucket := txt "homes"; prefix := txt "rayito"; name := Some (txt "mvm-1"); region := None |}) as E by reflexivity.
  assert (prefix_ok sample_prefix) as H by (pose proof sample_prefix_built as H; by apply new_S3Prefix_exact in H as [H _]).
  split; [exact E|]. by destruct (persisted_home sample_prefix (txt "mvm-1") _ H E) as (_ & _ & _ & Hh).
Defined.

(** A checkpoint has a result exactly when the agent said that it was done: the target
    had a name, the timeout and the exclusions were valid, the stream began with [started]
    and brought nothing but messages to be ignored and progress, whose callback did not
    throw, before [done]; the result names the target and carries the agent's counts.  A
    stream that the connection cuts after [started] is not sent again: the error is the one
    of [midStreamError]. *)
Theorem checkpoint_outcome open bound target exclude timeoutMs user onProgress :
  (forall r acts, checkpoint open bound target exclude timeoutMs user onProgress = (inl r, acts) <->
    acts = [Opened; AbortedStream] /\ exists p ms request quiets d rest,
      resolveTarget target bound = Ok p /\ validatePersistTimeoutMs timeoutMs = Ok ms /\
      checkpointRequest p exclude user = Ok request /\
      open request ms = inl (Some Started, messages quiets (Message (IsDone d) rest)) /\
      Forall (quiet onProgress) quiets /\ resultFrom p d = Ok r) /\
  (forall p ms request quiets code message cause,
    resolveTarget target bound = Ok p -> validatePersistTimeoutMs timeoutMs = Ok ms ->
    checkpointRequest p exclude user = Ok request -> Forall (quiet onProgress) quiets ->
    open request ms = inl (Some Started, messages quiets (Fails (ConnectError code message cause))) ->
    (checkpoint open bound target exclude timeoutMs user onProgress).1 = inr (midStreamError (ConnectError code message cause))).
Proof.
  split.
  - intros r acts. unfold checkpoint. destruct (resolveTarget target bound) as [p|c] eqn:Ep; cbn [mbind result_bind].
    2: { by split; [|intros (_ & ? & ? & ? & ? & ? & ? & [=] & _)]. }
    destruct (validatePersistTimeoutMs timeoutMs) as [ms|c]; cbn [mbind result_bind].
    2: { by split; [|intros (_ & ? & ? & ? & ? & ? & ? & _ & [=] & _)]. }
    destruct (checkpointRequest p exclude user) as [request|c] eqn:Er; cbn [mbind result_bind].
    2: { split; [done|]. intros (_ & p' & ? & ? & ? & ? & ? & [= <-] & _ & E & _). by rewrite Er in E. }
    rewrite follow_done by by eapply resolveTarget_named. split.
    + intros (-> & qs & d & rest & Ho & Hq & Ed). split; [done|]. by exists p, ms, request, qs, d, rest.
    + intros (-> & p' & ms' & request' & qs & d & rest & [= <-] & [= <-] & E & Ho & Hq & Ed). rewrite Er in E. injection E as <-.
      split; [done|]. by exists qs, d, rest.
  - intros p ms request qs code message cause Ep Em Er Hq Ho. unfold checkpoint. rewrite Ep. cbn [mbind result_bind]. rewrite Em.
    cbn [mbind result_bind]. rewrite Er. cbn [mbind result_bind]. rewrite Ho. by rewrite (follow_cut p onProgress qs code message cause Hq).
Qed.

Definition sample_home : S3Prefix := {| bucket := txt "homes"; prefix := txt "rayito"; name := Some (txt "mvm-1"); region := None |}.
Definition sample_done : Done := {| d_files := 3; d_bytes := 100; d_archiveBytes := 40; d_sha256 := txt "ab"; d_skipped := 0; d_durationMs := 5 |}.
Definition sample_progress : Progress := {| filesDone := 1; bytes1 := 10; bytes2 := 4 |}.
Definition sample_open (request : CheckpointRequest) (ms : Q) : option event * stream + thrown :=
  inl (Some Started, messages [InProgress sample_progress; OtherEvent] (Message (IsDone sample_done) EndOfStream)).
Definition sample_result : Result := {|
  r_bucket := txt "homes"; r_keyPrefix := txt "rayito/mvm-1"; r_uri := txt "s3://homes/rayito/mvm-1"; r_done := sample_done |}.

Lemma checkpoint_outcome_witness :
  checkpoint sample_open (Some sample_home) None [VText (txt "node_modules")] None None (fun _ => None) = (inl sample_result, [Opened; AbortedStream]).
Proof.
  apply (proj1 (checkpoint_outcome sample_open (Some sample_home) None [VText (txt "node_modules")] None None (fun _ => None))).
  split; [done|]. eexists sample_home, _, _, [InProgress sample_progress; OtherEvent], sample_done, EndOfStream.
  split_and!; [reflexivity|reflexivity|vm_compute; reflexivity|reflexivity|by repeat constructor|reflexivity].
Defined.
