(* ===== verification/Staging.v ===== *)
(** * Staging: the pure part of transfers through S3

    src/clients/typescript/src/sandbox/transfer.ts up to its clients: the configuration of
    the staging area and its prefixes, keys, lifetimes, the plan of a multipart upload, the
    header of a download, requests, the state of a transfer and the error it becomes. *)

From stdpp Require Import base option list strings sets.
From Stdlib Require Import NArith ZArith QArith Qround Lia.
From S2P Require Import Prelude Text Encoding RpcErrors Persistence.
From S2P Require Payload.

Local Open Scope Z_scope.

(** ** Constants (limits.ts) *)

Definition MIB : Z := 1048576.
Definition TRANSFER_DEFAULT_PREFIX : text := txt "rayito-transfer".
Definition TRANSFER_DEFAULT_EXPIRES_IN_SECONDS : Z := 3600.
Definition TRANSFER_DEFAULT_MAX_EXPIRES_IN_SECONDS : Z := 86400.
Definition TRANSFER_PRESIGN_MAX_SECONDS : Z := 604800.
Definition TRANSFER_DEFAULT_THRESHOLD_BYTES : Z := 8388608.
Definition TRANSFER_THRESHOLD_MIN_BYTES : Z := 1048576.
Definition TRANSFER_DEFAULT_MULTIPART_THRESHOLD_BYTES : Z := 5368709120.
Definition TRANSFER_MULTIPART_THRESHOLD_MIN_BYTES : Z := 16777216.
Definition TRANSFER_SINGLE_PUT_MAX_BYTES : Z := 5368709120.
Definition TRANSFER_PART_SIZE_MIN_BYTES : Z := 8388608.
Definition TRANSFER_MAX_PARTS : Z := 1000.
Definition TRANSFER_INTERNAL_EXPIRES_IN_SECONDS : Z := 900.
Definition EXPORT_BUDGET_BASE_SECONDS : Z := 900.
Definition EXPORT_BUDGET_BYTES_PER_SECOND : Z := 1000000.
Definition DELETE_GRACE_SECONDS : Z := 3600.
Definition PART_SIZE_DIVISOR : Z := 1000.
Definition TRANSFER_PREFIX_MAX_BYTES : nat := 256.
Definition ARTIFACT_NAMESPACE : text := txt "rayito".

(** ** Configuration *)

(** A label of DNS, of 3 to 63 characters. *)
Definition dns_bucket (s : text) : bool :=
  ((3 <=? length s) && (length s <=? 63))%nat && head_is lower_digit s && last_is lower_digit s &&
  forallb (fun c => lower_digit c || (c =? HYPHEN)%N) s.

Definition validateTransferBucket (bucket : value) : result text :=
  match bucket with
  | VText b =>
      _ ← throw_if (negb (dns_bucket b)) InvalidArgumentError;
      _ ← throw_if (starts_with (txt "xn--") b || ends_with (txt "-s3alias") b) InvalidArgumentError;
      Ok b
  | _ => Throw InvalidArgumentError
  end.

(** [firstParts.slice(0, shared).every(...)]. *)
Fixpoint same_start (a b : list text) : bool :=
  match a, b with
  | x :: a, y :: b => bool_decide (x = y) && same_start a b
  | _, _ => true
  end.

(** One is a prefix of the other, component by component. *)
Definition prefixesOverlap (first second : text) : bool := same_start (split_on SLASH first) (split_on SLASH second).

Definition segment_char (c : N) : bool := alphanumeric c || existsb (N.eqb c) (txt "_.-").

Definition validateTransferPrefix (prefix : value) : result text :=
  match prefix with
  | VText [] => Throw InvalidArgumentError
  | VText p =>
      _ ← throw_if (TRANSFER_PREFIX_MAX_BYTES <? utf8_length p)%nat InvalidArgumentError;
      let segments := split_on SLASH p in
      _ ← throw_if (negb (forallb plain_component segments)) InvalidArgumentError;
      _ ← throw_if (negb (forallb (forallb segment_char) segments)) InvalidArgumentError;
      _ ← throw_if (prefixesOverlap p ARTIFACT_NAMESPACE) InvalidArgumentError;
      Ok p
  | _ => Throw InvalidArgumentError
  end.

(** Two lower case letters, [-gov] perhaps, a word and a digit. *)
Definition region_code (s : text) : bool :=
  let word w := negb (bool_decide (w = [])) && forallb is_lower w in
  let digit d := (length d =? 1)%nat && forallb is_digit d in
  let two w := (length w =? 2)%nat && forallb is_lower w in
  match split_on HYPHEN s with
  | [a; w; d] => two a && word w && digit d
  | [a; g; w; d] => two a && bool_decide (g = txt "gov") && word w && digit d
  | _ => false
  end.

Definition validateTransferRegion (region : value) : result (option text) :=
  match region with
  | VUndefined => Ok None
  | VText r => if region_code r then Ok (Some r) else Throw InvalidArgumentError
  | _ => Throw InvalidArgumentError
  end.

Definition validateIntegerBetween (v : value) (low high : Z) : result Z :=
  match v with
  | VNumber n =>
      match integer_of n with
      | Some z => if (z <? low) || (high <? z) then Throw InvalidArgumentError else Ok z
      | None => Throw InvalidArgumentError
      end
  | _ => Throw InvalidArgumentError
  end.

Record S3Staging := {
  in_bucket : value; in_prefix : value; in_region : value;
  in_maxExpiresIn : value; in_thresholdBytes : value; in_multipartThresholdBytes : value
}.

Record ResolvedS3Staging := {
  bucket : text; prefix : text; region : option text;
  maxExpiresIn : Z; thresholdBytes : Z; multipartThresholdBytes : Z
}.

(** What [transfer] may be. *)
Inductive staging_input := staging_undefined | staging_null | staging_object (s : S3Staging) | staging_other.

(** The three variables of the environment. *)
Record Environment := { env_bucket : option text; env_prefix : option text; env_region : option text }.

Definition resolve_fields (s : S3Staging) : result ResolvedS3Staging :=
  b ← validateTransferBucket (in_bucket s);
  p ← validateTransferPrefix (or_value (in_prefix s) (VText TRANSFER_DEFAULT_PREFIX));
  r ← validateTransferRegion (in_region s);
  e ← validateIntegerBetween (or_value (in_maxExpiresIn s) (VNumber (num_of_Z TRANSFER_DEFAULT_MAX_EXPIRES_IN_SECONDS)))
        1 TRANSFER_PRESIGN_MAX_SECONDS;
  t ← validateIntegerBetween (or_value (in_thresholdBytes s) (VNumber (num_of_Z TRANSFER_DEFAULT_THRESHOLD_BYTES)))
        TRANSFER_THRESHOLD_MIN_BYTES TRANSFER_SINGLE_PUT_MAX_BYTES;
  m ← validateIntegerBetween (or_value (in_multipartThresholdBytes s) (VNumber (num_of_Z TRANSFER_DEFAULT_MULTIPART_THRESHOLD_BYTES)))
        TRANSFER_MULTIPART_THRESHOLD_MIN_BYTES TRANSFER_SINGLE_PUT_MAX_BYTES;
  Ok {| bucket := b; prefix := p; region := r; maxExpiresIn := e; thresholdBytes := t; multipartThresholdBytes := m |}.

(** A variable that is missing or empty is not set. *)
Definition variable (s : option text) : value := match s with None | Some [] => VUndefined | Some t => VText t end.

Definition stagingFromEnv (env : Environment) : result (option ResolvedS3Staging) :=
  match variable (env_bucket env) with
  | VUndefined => Ok None
  | b => Some <$> resolve_fields {| in_bucket := b; in_prefix := variable (env_prefix env); in_region := variable (env_region env);
                                    in_maxExpiresIn := VUndefined; in_thresholdBytes := VUndefined;
                                    in_multipartThresholdBytes := VUndefined |}
  end.

Definition resolveS3Staging (input : staging_input) (env : Environment) : result (option ResolvedS3Staging) :=
  match input with
  | staging_null => Ok None
  | staging_undefined => stagingFromEnv env
  | staging_other => Throw InvalidArgumentError
  | staging_object s => Some <$> resolve_fields s
  end.

Definition validateStagingAgainstPersist (staging : option ResolvedS3Staging) (persist : option S3Prefix) : result unit :=
  match staging, persist with
  | Some s, Some p =>
      if negb (bool_decide (bucket s = Persistence.bucket p)) then Ok tt
      else throw_if (prefixesOverlap (prefix s) (Persistence.prefix p)) InvalidArgumentError
  | _, _ => Ok tt
  end.

(** ** Keys *)

Inductive KeyDirection := up | down.
Definition direction_text (d : KeyDirection) : text := match d with up => txt "up" | down => txt "down" end.

Record StagingObject := { so_bucket : text; so_key : text; so_region : text }.

(** [randomBytes] are 16 random bytes. *)
Definition newStagingToken (randomBytes : list N) : text := Payload.hex_bytes randomBytes.

Definition stagingKey (prefix sandboxId : text) (direction : KeyDirection) (token : text) : text :=
  slashed prefix (slashed sandboxId (slashed (direction_text direction) token)).

(** ** Lifetimes *)

Definition validateExpiresIn (v : value) : result Z :=
  match v with
  | VNumber n =>
      match integer_of n with
      | Some z => if z <=? 0 then Throw InvalidArgumentError else Ok z
      | None => Throw InvalidArgumentError
      end
  | _ => Throw InvalidArgumentError
  end.

Definition effectiveExpiresIn (expiresIn : value) (s : ResolvedS3Staging) : result Z :=
  e ← validateExpiresIn expiresIn; Ok (Z.min (Z.min e (maxExpiresIn s)) TRANSFER_PRESIGN_MAX_SECONDS).

Definition expiresInFromSignatureExpiration (v : value) : result Z :=
  match v with VUndefined => Ok TRANSFER_DEFAULT_EXPIRES_IN_SECONDS | _ => validateExpiresIn v end.

Definition cappedLifetime (seconds : Z) : Z := Z.min seconds TRANSFER_PRESIGN_MAX_SECONDS.
Definition deleteLifetime (userLifetime : Z) : Z := cappedLifetime (userLifetime + DELETE_GRACE_SECONDS).
Definition internalGetLifetime (s : ResolvedS3Staging) : Z := Z.min TRANSFER_INTERNAL_EXPIRES_IN_SECONDS (maxExpiresIn s).

(** [Math.ceil(a / b)] of integers. *)
Definition ceil_div (a b : Z) : Z := - (- a / b).

Definition exportBudgetSeconds (size : Z) : Z :=
  cappedLifetime (EXPORT_BUDGET_BASE_SECONDS + ceil_div size EXPORT_BUDGET_BYTES_PER_SECOND).

Definition validateMaxBytes (v : value) : result (option Z) :=
  match v with
  | VUndefined => Ok None
  | VNumber n =>
      match integer_of n with
      | Some z => if z <? 1 then Throw InvalidArgumentError else Ok (Some z)
      | None => Throw InvalidArgumentError
      end
  | _ => Throw InvalidArgumentError
  end.

(** ** What the user's URLs say *)

Definition OCTET_STREAM : text := txt "application/octet-stream".

Definition uploadTicketHeaders (form : bool) : list (text * text) :=
  if form then [] else [(txt "Content-Type", OCTET_STREAM)].

Definition downloadFilename (path : text) (filename : value) : result text :=
  match filename with
  | VUndefined =>
      Ok (match last (split_on SLASH (Payload.stripTrailing path SLASH)) with
          | None | Some [] => txt "download"
          | Some f => f
          end)
  | VText [] => Throw InvalidArgumentError
  | VText f => if bool_decide (0%N ∈ f) then Throw InvalidArgumentError else Ok f
  | _ => Throw InvalidArgumentError
  end.

(** A byte that may stand as it is between the quotes of a header. *)
Definition quotable (b : N) : bool := ((32 <=? b) && (b <=? 126) && negb (b =? 34) && negb (b =? 92))%N.

Definition QUOTE : N := 34.
Definition DISPOSITION_START : text := txt "attachment; filename=" ++ [QUOTE].
Definition DISPOSITION_MIDDLE : text := QUOTE :: txt "; filename*=UTF-8''".

(** A file name is the list of its code points. *)
Definition contentDisposition (filename : text) : text :=
  let bytes := utf8 filename in
  DISPOSITION_START ++ map (fun b => if quotable b then b else 95%N) bytes ++ DISPOSITION_MIDDLE ++ concat (map percent_byte bytes).

(** ** Multipart *)

Record PartPlan := { partSize : Z; parts : Z }.

Definition ceilToMib (size : Z) : Z := ceil_div size MIB * MIB.

Definition partPlan (size : Z) (s : ResolvedS3Staging) : option PartPlan :=
  if size <? multipartThresholdBytes s then None else
  let ps := Z.max TRANSFER_PART_SIZE_MIN_BYTES (ceilToMib (ceil_div size PART_SIZE_DIVISOR)) in
  Some {| partSize := ps; parts := Z.max 1 (ceil_div size ps) |}.

(** ** Routing *)

Definition shouldRoute (size : option Z) (staging : option ResolvedS3Staging) : bool :=
  match staging with
  | None => false
  | Some s => match size with None => true | Some n => thresholdBytes s <=? n end
  end.

Record OperationDeadline := { startedAt : Q; budgetFor : Z -> Q; explicit : bool }.

Definition remainingMs (d : OperationDeadline) (now : Q) (size : Z) : result Z :=
  let left := (budgetFor d size - (now - startedAt d))%Q in
  if Qle_bool left 0 then Throw TimeoutError else Ok (Qceiling left).

Definition budgetMs (d : OperationDeadline) (now : Q) (size : option Z) : result (option Z) :=
  match size with
  | None => if negb (explicit d) then Ok None else ms ← remainingMs d now 0; Ok (Some ms)
  | Some n => ms ← remainingMs d now n; Ok (Some ms)
  end.

(** ** Requests *)

(** A name that is missing or empty is nobody. *)
Definition owner (username : option text) : option text := match username with Some [] => None | u => u end.

Record ImportRequestInit := {
  i_path : text; i_user : option text; i_mode : option Z; i_target : StagingObject; i_getUrl : text; i_deleteUrl : text;
  i_waitForObject : bool; i_expiresAt : Z; i_maxBytes : option Z; i_expectedSha256 : option text; i_metadata : list (text * text)
}.

Record StartImportRequest := {
  si_path : text; si_user : option text; si_mode : option Z; si_object : StagingObject; si_get : text; si_delete : text;
  si_waitForObject : bool; si_expiresAtUnixMs : Z; si_maxBytes : Z; si_expectedSha256 : text; si_metadata : list (text * text)
}.

Definition startImportRequest (i : ImportRequestInit) : StartImportRequest := {|
  si_path := i_path i; si_user := owner (i_user i); si_mode := i_mode i; si_object := i_target i; si_get := i_getUrl i;
  si_delete := i_deleteUrl i; si_waitForObject := i_waitForObject i; si_expiresAtUnixMs := i_expiresAt i;
  si_maxBytes := default 0 (i_maxBytes i); si_expectedSha256 := default [] (i_expectedSha256 i); si_metadata := i_metadata i |}.

Record ExportRequestInit := {
  e_path : text; e_user : option text; e_target : StagingObject; e_expiresAt : Z;
  e_putUrl : option text; e_partUrls : option (list text); e_partSize : option Z
}.

Inductive export_target := put (url : text) | multipart (partSize : Z) (parts : list text).

Record StartExportRequest := {
  se_path : text; se_user : option text; se_object : StagingObject; se_target : export_target; se_expiresAtUnixMs : Z
}.

Definition startExportRequest (i : ExportRequestInit) : StartExportRequest := {|
  se_path := e_path i; se_user := owner (e_user i); se_object := e_target i;
  se_target := match e_putUrl i with
               | None => multipart (default 0 (e_partSize i)) (default [] (e_partUrls i))
               | Some url => put url
               end;
  se_expiresAtUnixMs := e_expiresAt i |}.

(** ** The state of a transfer *)

Inductive Phase := PHASE_UNSPECIFIED | WAITING | RUNNING | DONE | FAILED | CANCELLED | OTHER_PHASE.

#[export] Instance Phase_eq_dec : EqDecision Phase.
Proof. solve_decision. Defined.

Inductive Direction := DIRECTION_UNSPECIFIED | IMPORT | EXPORT | OTHER_DIRECTION.
Inductive DirectionName := import_ | export_.
Inductive PhaseName := waiting | running | done_ | failed | cancelled.

(** [entry]: the entry of an import is an argument of the model. *)
Record TransferState {Entry : Type} := {
  transferId : text; direction : Direction; phase : Phase; bytesDone : Z; bytesTotal : Z; probes : Z;
  error : option StreamError; entry : option Entry; sha256 : text; partEtags : list text
}.
Arguments TransferState : clear implicits.

Section State.
Context {Entry : Type}.
Implicit Type state : TransferState Entry.

Definition isTerminal state : bool := bool_decide (phase state ∈ [DONE; FAILED; CANCELLED]).

Definition COLON : N := 58.

(** [code || "internal"]: a text that is empty is falsy. *)
Definition or_text (t d : text) : text := match t with [] => d | _ => t end.

(** The code and the reason; the agent writes the reason before a colon. *)
Definition stateError state : text * text :=
  match error state with
  | None => let fallback := if bool_decide (phase state = CANCELLED) then txt "cancelled" else INTERNAL in (fallback, fallback)
  | Some e =>
      let code := or_text (se_code e) INTERNAL in
      let reason := match index_of COLON (se_message e) with Some i => trim (take i (se_message e)) | None => code end in
      (code, or_text reason code)
  end.

Definition failureMessage state : text :=
  let (code, reason) := stateError state in
  let message := match error state with Some e => se_message e | None => [] end in
  if starts_with (reason ++ [COLON]) message then message
  else reason ++ txt ": " ++ or_text message code.

Record TransferStatus := {
  st_transferId : text; st_direction : DirectionName; st_phase : PhaseName; st_bytesDone : Z; st_bytesTotal : Z;
  st_probes : Z; st_errorCode : option text; st_errorReason : option text
}.

Definition transferStatusFromProto state : TransferStatus := {|
  st_transferId := transferId state;
  st_direction := match direction state with EXPORT => export_ | _ => import_ end;
  st_phase := match phase state with RUNNING => running | DONE => done_ | FAILED => failed | CANCELLED => cancelled | _ => waiting end;
  st_bytesDone := bytesDone state; st_bytesTotal := bytesTotal state; st_probes := probes state;
  st_errorCode := match error state with None => None | Some _ => Some (stateError state).1 end;
  st_errorReason := match error state with None => None | Some _ => Some (stateError state).2 end |}.

(** An error with its message, and the [code] and the [reason] of the two classes of
    transfers. *)
Record Failure := { f_class : error_class; f_message : text; f_code : option text; f_reason : option text }.

(** The classes that a code has for both directions. *)
Definition class_of_code (code : text) : option error_class :=
  if bool_decide (code = txt "deadline_exceeded") then Some TimeoutError
  else if bool_decide (code = txt "invalid_argument") then Some InvalidArgumentError
  else if bool_decide (code = txt "resource_exhausted") then Some DiskFullError
  else if bool_decide (code = txt "permission_denied") then Some AuthenticationError
  else if bool_decide (code = txt "not_found") then Some FileNotFoundError
  else None.

Definition failureFromState state (d : DirectionName) : Failure :=
  let (code, reason) := stateError state in
  let message := failureMessage state in
  match class_of_code code with
  | Some c => {| f_class := c; f_message := message; f_code := None; f_reason := None |}
  | None => {| f_class := match d with import_ => FileUploadError | export_ => TransferError end;
               f_message := message; f_code := Some code; f_reason := Some reason |}
  end.
End State.

(** The failure as what a caller catches. *)
Definition failure_error (f : Failure) : thrown := OwnError (f_class f) (f_code f) None false None.

Definition checksumMismatchError : thrown := own_code TransferError (txt "failed_precondition").
Definition transferTimeoutError : thrown := simple TimeoutError.
Definition transferDeadlineError : thrown := simple TimeoutError.
Definition idleTimeoutError : thrown := simple TimeoutError.
Definition missingStagingError : thrown := simple UnimplementedError.
Definition outdatedImageError : thrown := simple UnimplementedError.

(** [Unimplemented] is an agent without transfers. *)
Definition transferRpcError (filesystem : bool) (e : thrown) : thrown :=
  match e with
  | ConnectError Unimplemented _ _ => outdatedImageError
  | _ => translateRpcError filesystem e
  end.

Definition probeSupportsTransfers (e : thrown) : bool + thrown :=
  match e with
  | ConnectError NotFound _ _ => inl true
  | ConnectError Unimplemented _ _ => inl false
  | _ => inr (translateRpcError false e)
  end.

(** ** Lemmas *)

Lemma ceil_div_spec a b : 0 < b -> (ceil_div a b - 1) * b < a <= ceil_div a b * b.
Proof. intros Hb. unfold ceil_div. pose proof (Z.div_mod (- a) b). pose proof (Z.mod_pos_bound (- a) b). nia. Qed.

Lemma ceil_div_le a b n : 0 < b -> a <= n * b <-> ceil_div a b <= n.
Proof. intros Hb. pose proof (ceil_div_spec a b Hb). nia. Qed.

Lemma validateIntegerBetween_exact v lo hi z :
  validateIntegerBetween v lo hi = Ok z <-> exists n, v = VNumber n /\ integer_of n = Some z /\ lo <= z <= hi.
Proof.
  unfold validateIntegerBetween. destruct v as [| | |n|]; try by split; [|intros (? & ? & _)].
  destruct (integer_of n) as [i|] eqn:E; [|split; [done|intros (? & [= <-] & E' & _); congruence]].
  destruct (Z.ltb_spec i lo), (Z.ltb_spec hi i); cbn [orb];
    (split; [intros [= ->]; exists n; by split_and!|intros (? & [= <-] & E' & ?); rewrite E in E'; injection E' as ->; (lia || done)]).
Qed.

Record staging_ok (s : ResolvedS3Staging) : Prop := {
  so_prefix : prefix s <> [] /\ Forall (fun c => plain_component c = true /\ Forall (fun x => segment_char x = true) c) (split_on SLASH (prefix s));
  so_artifacts : prefixesOverlap (prefix s) ARTIFACT_NAMESPACE = false;
  so_name : dns_bucket (bucket s) = true;
  so_expires : 1 <= maxExpiresIn s <= TRANSFER_PRESIGN_MAX_SECONDS;
  so_threshold : TRANSFER_THRESHOLD_MIN_BYTES <= thresholdBytes s <= TRANSFER_SINGLE_PUT_MAX_BYTES;
  so_multipart : TRANSFER_MULTIPART_THRESHOLD_MIN_BYTES <= multipartThresholdBytes s <= TRANSFER_SINGLE_PUT_MAX_BYTES
}.

Lemma validateTransferPrefix_ok v p : validateTransferPrefix v = Ok p ->
  v = VText p /\ p <> [] /\ Forall (fun c => plain_component c = true /\ Forall (fun x => segment_char x = true) c) (split_on SLASH p) /\
  prefixesOverlap p ARTIFACT_NAMESPACE = false.
Proof.
  destruct v as [| |[|x t]| |]; cbn [validateTransferPrefix]; try done.
  rewrite !throw_if_bind, !negb_false_iff, !forallb_true. intros (_ & Hp & Hs & Ho & [= <-]). split_and!; try done.
  apply Forall_and. split; [done|]. eapply Forall_impl; [exact Hs|]. intros c. by rewrite forallb_true.
Qed.

Lemma validateTransferBucket_ok v b : validateTransferBucket v = Ok b -> v = VText b /\ dns_bucket b = true.
Proof. destruct v; cbn [validateTransferBucket]; try done. rewrite !throw_if_bind, negb_false_iff. by intros (? & _ & [= <-]). Qed.

Lemma resolve_fields_ok input s : resolve_fields input = Ok s -> staging_ok s.
Proof.
  unfold resolve_fields.
  intros (b & [_ Hb]%validateTransferBucket_ok & (p & (_ & Hn & Hs & Ho)%validateTransferPrefix_ok & H)%bind_ok)%bind_ok.
  apply bind_ok in H as (r & _ & (e & (? & _ & _ & He)%validateIntegerBetween_exact & H)%bind_ok).
  apply bind_ok in H as (t & (? & _ & _ & Ht)%validateIntegerBetween_exact & H).
  apply bind_ok in H as (m & (? & _ & _ & Hm)%validateIntegerBetween_exact & H). injection H as <-. by split.
Qed.

Lemma resolved_ok input env s : resolveS3Staging input env = Ok (Some s) -> staging_ok s.
Proof.
  assert (forall f, Some <$> resolve_fields f = Ok (Some s) -> staging_ok s) as H.
  { intros f. destruct (resolve_fields f) eqn:E; cbn; [|done]. intros [= ->]. by eapply resolve_fields_ok. }
  destruct input; cbn; try done; [|apply H]. unfold stagingFromEnv. destruct (variable (env_bucket env)); [done|apply H..].
Qed.

(** ** The plan of an export *)

(** An export within a resolved staging configuration is one PUT of less than 5 GiB or
    a plan of at most 1000 parts that covers the file exactly: every part is a whole number
    of MiB and at least 8 MiB, which S3 requires of every part but the last, the last part
    is not empty and the parts before it do not reach the end; a file of at most 1000 times
    5 GiB has no part above the 5 GiB that S3 admits. *)
Theorem partPlan_covers input env s size : resolveS3Staging input env = Ok (Some s) ->
  match partPlan size s with
  | None => size < TRANSFER_SINGLE_PUT_MAX_BYTES
  | Some p =>
      1 <= parts p <= TRANSFER_MAX_PARTS /\ TRANSFER_PART_SIZE_MIN_BYTES <= partSize p /\ (MIB | partSize p) /\
      (parts p - 1) * partSize p < size <= parts p * partSize p /\
      (size <= TRANSFER_MAX_PARTS * TRANSFER_SINGLE_PUT_MAX_BYTES -> partSize p <= TRANSFER_SINGLE_PUT_MAX_BYTES)
  end.
Proof.
  intros [_ _ _ _ _ Hm]%resolved_ok. unfold partPlan, ceilToMib. destruct (Z.ltb_spec size (multipartThresholdBytes s)) as [H|H]; [lia|].
  unfold TRANSFER_MULTIPART_THRESHOLD_MIN_BYTES, TRANSFER_SINGLE_PUT_MAX_BYTES, TRANSFER_MAX_PARTS, TRANSFER_PART_SIZE_MIN_BYTES, PART_SIZE_DIVISOR in *.
  cbn [parts partSize]. pose proof (ceil_div_spec size 1000 ltac:(lia)) as H1. set (q := ceil_div size 1000) in *.
  pose proof (ceil_div_spec q MIB ltac:(done)) as H2. pose proof (ceil_div_le q MIB 5120 ltac:(done)) as H3. set (m := ceil_div q MIB) in *.
  clearbody q m. unfold MIB in *. set (ps := Z.max 8388608 (m * 1048576)).
  assert (8388608 <= ps /\ m * 1048576 <= ps) as [Hps1 Hps2] by lia. assert (0 < ps) as Hps by lia.
  pose proof (ceil_div_spec size ps Hps) as H4. pose proof (ceil_div_le size ps 1000 Hps) as H5. set (k := ceil_div size ps) in *. clearbody k.
  assert (1 <= k) by nia. assert (k <= 1000) by (apply H5; lia). rewrite Z.max_r by lia. split_and!; try lia.
  - unfold ps. destruct (Z.max_spec 8388608 (m * 1048576)) as [[_ ->]|[_ ->]]; [by exists m|by exists 8].
Qed.

Definition sample_staging : ResolvedS3Staging := {|
  bucket := txt "transfers"; prefix := TRANSFER_DEFAULT_PREFIX; region := None; maxExpiresIn := 86400; thresholdBytes := 8388608;
  multipartThresholdBytes := 16777216 |}.

Definition sample_input : staging_input := staging_object {|
  in_bucket := VText (txt "transfers"); in_prefix := VUndefined; in_region := VUndefined; in_maxExpiresIn := VNull;
  in_thresholdBytes := VUndefined; in_multipartThresholdBytes := VNumber (num_of_Z 16777216) |}.

Definition no_environment : Environment := {| env_bucket := None; env_prefix := None; env_region := None |}.

Lemma sample_resolved : resolveS3Staging sample_input no_environment = Ok (Some sample_staging).
Proof. vm_compute. reflexivity. Qed.

Lemma partPlan_covers_witness :
  partPlan 16777217 sample_staging = Some {| partSize := 8388608; parts := 3 |} /\ (3 - 1) * 8388608 < 16777217 <= 3 * 8388608.
Proof.
  split; [reflexivity|]. by destruct (partPlan_covers sample_input no_environment sample_staging 16777217 sample_resolved) as (_ & _ & _ & H & _).
Defined.

(** ** Areas of a bucket *)

Definition under (prefix key : text) : Prop := exists rest, key = slashed prefix rest.

Lemma under_components p k : under p k -> split_on SLASH p `prefix_of` split_on SLASH k.
Proof. intros [r ->]. exists (split_on SLASH r). apply slashed_components. Qed.

Lemma same_start_spec a b : same_start a b = true <-> a `prefix_of` b \/ b `prefix_of` a.
Proof.
  revert b. induction a as [|x a IH]; intros [|y b]; cbn [same_start].
  - split; [by left|done].
  - split; [|done]. intros _. left. apply prefix_nil.
  - split; [|done]. intros _. right. apply prefix_nil.
  - rewrite andb_true_iff, bool_decide_eq_true, IH. split.
    + intros [-> [H|H]]; [left|right]; by apply prefix_cons.
    + intros [H|H]; (split; [by (apply prefix_cons_inv_1 in H)|]; apply prefix_cons_inv_2 in H; auto).
Qed.

(** Two areas of which neither begins the other share no key. *)
Lemma areas_disjoint p q k : prefixesOverlap p q = false -> under p k -> ~ under q k.
Proof.
  intros Ho Hp%under_components Hq%under_components. unfold prefixesOverlap in Ho. apply not_true_iff_false in Ho. apply Ho, same_start_spec.
  by eapply prefix_weak_total.
Qed.

Lemma under_slashed p q r : under p q -> under p (slashed q r).
Proof. intros [t ->]. exists (slashed t r). unfold slashed. by rewrite <- app_assoc. Qed.

Lemma stagingKey_under s id d t : under (prefix s) (stagingKey (prefix s) id d t).
Proof. by eexists. Qed.

(** C33. What is staged never meets what is kept: in one bucket, once the two configurations
    are accepted together, a key of the staging area is neither one of the two objects of a
    home nor any other key below the prefix of the homes, it is not in the artifact space of
    the operator, and no object of a home is in the staging area, where a rule of the bucket
    deletes it within a day. *)
Theorem staging_apart input env s persist n sandboxId direction token archive manifest :
  resolveS3Staging input env = Ok (Some s) -> Persistence.prefix_ok persist -> name persist = Some n ->
  validateStagingAgainstPersist (Some s) (Some persist) = Ok tt -> bucket s = Persistence.bucket persist ->
  archiveKey persist = Ok archive -> manifestKey persist = Ok manifest ->
  let key := stagingKey (prefix s) sandboxId direction token in
  ~ under (Persistence.prefix persist) key /\ ~ under ARTIFACT_NAMESPACE key /\
  ~ under (prefix s) archive /\ ~ under (prefix s) manifest.
Proof.
  intros Hs Hp En Hv Eb Ha Hm key. pose proof (resolved_ok _ _ _ Hs) as [_ Hart _ _ _ _].
  cbn in Hv. rewrite bool_decide_eq_true_2 in Hv by done. cbn in Hv. apply throw_if_ok in Hv.
  destruct (named_home persist n Hp En) as [_ Ea Em _ _]. rewrite Ha in Ea. rewrite Hm in Em. injection Ea as ->. injection Em as ->.
  assert (forall f, under (Persistence.prefix persist) (slashed (slashed (Persistence.prefix persist) n) f)) as Hh.
  { intros f. apply under_slashed. by exists n. }
  split_and!.
  - by apply (areas_disjoint _ _ _ Hv), stagingKey_under.
  - by apply (areas_disjoint _ _ _ Hart), stagingKey_under.
  - intros H. by apply (areas_disjoint _ _ _ Hv H).
  - intros H. by apply (areas_disjoint _ _ _ Hv H).
Qed.

Definition sample_persist : S3Prefix := {| Persistence.bucket := txt "transfers"; Persistence.prefix := txt "homes/a"; name := Some (txt "mvm-1"); Persistence.region := None |}.

Lemma staging_apart_witness :
  ~ under (txt "homes/a") (stagingKey TRANSFER_DEFAULT_PREFIX (txt "mvm-1") down (txt "00ff")) /\
  ~ under TRANSFER_DEFAULT_PREFIX (txt "homes/a/mvm-1/home.tar.gz").
Proof.
  assert (Persistence.prefix_ok sample_persist) as Hp.
  { assert (new_S3Prefix (VText (txt "transfers")) (VText (txt "homes/a")) (Some (txt "mvm-1")) None = Ok sample_persist) as H by reflexivity.
    by apply new_S3Prefix_exact in H as [H _]. }
  destruct (staging_apart sample_input no_environment sample_staging sample_persist (txt "mvm-1") (txt "mvm-1") down (txt "00ff")
    (txt "homes/a/mvm-1/home.tar.gz") (txt "homes/a/mvm-1/manifest.json") sample_resolved Hp eq_refl eq_refl eq_refl eq_refl eq_refl)
    as (H1 & _ & H2 & _).
  by split.
Defined.

(** ** The header of a download *)

(** A reader of the header: the name between the quotes and the bytes of the other. *)
Definition read_disposition (header : text) : option (text * list N) :=
  if starts_with DISPOSITION_START header then
    let rest := drop (length DISPOSITION_START) header in
    match index_of QUOTE rest with
    | Some i =>
        if starts_with DISPOSITION_MIDDLE (drop i rest)
        then Some (take i rest, percent_decode (drop (i + length DISPOSITION_MIDDLE) rest)) else None
    | None => None
    end
  else None.

Definition ascii_name (bytes : list N) : text := map (fun b => if quotable b then b else 95%N) bytes.

Lemma quotable_spec b : quotable b = true <-> (32 <= b <= 126 /\ b <> 34 /\ b <> 92)%N.
Proof. unfold quotable. rewrite !andb_true_iff, !N.leb_le, !negb_true_iff, !N.eqb_neq. tauto. Qed.

Lemma ascii_name_quotable bytes : Forall (fun c => quotable c = true) (ascii_name bytes).
Proof. apply Forall_map, Forall_true. intros b. cbn. by destruct (quotable b) eqn:E. Qed.

Lemma ascii_name_id bytes : Forall (fun b => quotable b = true) bytes -> ascii_name bytes = bytes.
Proof. induction 1 as [|b bytes Hb _ IH]; [done|]. unfold ascii_name in *. cbn [map]. by rewrite Hb, IH. Qed.

Definition printable (c : N) : Prop := (32 <= c <= 126)%N.

Lemma percent_char_printable c : percent_char c = true -> printable c.
Proof.
  unfold percent_char, unreserved, is_digit, PERCENT, printable. cbn [existsb].
  rewrite !orb_true_iff, !andb_true_iff, !N.leb_le, !N.eqb_eq. intros. destruct_or!; try done; lia.
Qed.

(** The header that names a download is safe and says the name: all of it is printable
    ASCII, so that no name breaks the header nor leaves its quotes, a reader gets back the
    bytes of the name exactly, which decode to the name when it is well formed, and a name
    of plain ASCII characters is between the quotes as it is. *)
Theorem contentDisposition_reads_back filename :
  Forall printable (contentDisposition filename) /\
  read_disposition (contentDisposition filename) = Some (ascii_name (utf8 filename), utf8 filename) /\
  (well_formed filename -> Sse.Utf8.run Sse.Utf8.initial (utf8 filename) = filename) /\
  (Forall (fun b => quotable b = true) (utf8 filename) -> ascii_name (utf8 filename) = utf8 filename).
Proof.
  pose proof (ascii_name_quotable (utf8 filename)) as Hq. pose proof (percent_chars _ (utf8_bytes filename)) as Hp.
  split_and!.
  - unfold contentDisposition. rewrite !Forall_app. split_and!.
    + by_decide.
    + eapply Forall_impl; [exact Hq|]. intros c Hc%quotable_spec. unfold printable. lia.
    + by_decide.
    + eapply Forall_impl; [exact Hp|]. apply percent_char_printable.
  - unfold read_disposition, contentDisposition. rewrite starts_with_app, drop_app_length. fold (ascii_name (utf8 filename)).
    assert (QUOTE ∉ ascii_name (utf8 filename)) as Hn.
    { intros H. rewrite Forall_forall in Hq. by apply Hq in H. }
    set (encoded := concat (map percent_byte (utf8 filename))).
    assert (index_of QUOTE (ascii_name (utf8 filename) ++ DISPOSITION_MIDDLE ++ encoded) = Some (length (ascii_name (utf8 filename)))) as ->
      by by apply (index_of_app QUOTE _ (txt "; filename*=UTF-8''" ++ encoded)).
    rewrite drop_app_length, starts_with_app, take_app_length, <- drop_drop, !drop_app_length. unfold encoded.
    by rewrite percent_decode_encode by apply utf8_bytes.
  - intros Hw. rewrite <- (app_nil_r (utf8 filename)), run_utf8 by done. by rewrite app_nil_r.
  - apply ascii_name_id.
Qed.
