(* ===== verification/TransferClient.v ===== *)
(** * TransferClient: moving files through S3

    [TransferClient] of src/clients/typescript/src/sandbox/transfer.ts: following a transfer
    across cuts until it ends, the tickets of uploads, exports in one or many parts with
    their cleanup, routed writes, and the stream of an exported object.  At every await the
    environment answers, and says whether the deadline of the wait passed meanwhile.  The
    errors of S3 are the ones [translateS3Error] makes.  What goes on after a deadline, and
    the requests of [Promise.all], are run in sequence. *)

From stdpp Require Import base option list strings sets.
From Stdlib Require Import NArith ZArith QArith Lia.
From S2P Require Import Prelude Text RpcErrors Persistence Staging.
From S2P Require Reconnect.
Import Reconnect(ReconnectOutcome, resumed, generationChanged, oc_resumeGeneration, allows).

Local Open Scope nat_scope.

(** ** The environment *)

Section Client.
Context {Entry EntryInfo : Type} (toEntry : Entry -> EntryInfo).

Abbreviation State := (TransferState Entry).

(** A message of [WatchTransfer]: a state, or anything else. *)
Inductive TransferEvent := StateEvent (s : State) | OtherTransferEvent.

Inductive watch_answer := WatchMessage (e : TransferEvent) | WatchDone | WatchBroken (e : thrown).

Record moment := {
  url_answer : text + thrown;
  form_answer : text * list (text * text) + thrown;
  upload_id_answer : text + thrown;
  s3_answer : option thrown;
  transfer_answer : text + thrown;
  state_answer : State + thrown;
  rpc_answer : option thrown;
  read_answer : option (list N) + thrown;
  open_answer : TransferEvent + thrown;
  next_answer : watch_answer;
  idle : bool;
  reconnect_answer : ReconnectOutcome + thrown;
  streamFailure : thrown -> thrown;
  expires : bool;
  closed : bool;
  token : text;
  clock : Q;
  wallMs : Z
}.

Inductive url_kind := PutUrl | PostForm (maxBytes : Z) | GetUrl (disposition : option text) | DeleteUrl | PartUrl (uploadId : text) (partNumber : nat).

(** What was asked of S3 and of the agent, and what of it succeeded; a URL that was to
    be signed, with the URL if there is one. *)
Inductive event :=
  | Signed (kind : url_kind) (target : StagingObject) (lifetime : Z) (url : option text)
  | Created (target : StagingObject) (uploadId : text)
  | Completing (target : StagingObject) (uploadId : text) (etags : list text)
  | Aborting (target : StagingObject) (uploadId : text)
  | Uploading (target : StagingObject)
  | StoppingUpload (target : StagingObject)
  | Uploaded (target : StagingObject)
  | Getting (target : StagingObject)
  | StoppingRead (target : StagingObject)
  | Deleting (target : StagingObject)
  | Importing (request : StartImportRequest)
  | Imported (id : text)
  | Exporting (request : StartExportRequest)
  | Exported (id : text)
  | Received (s : State).

(** Streams are numbered as they are opened; [live]: the registry of the sandbox;
    [listening]: the stream that the signal of the wait aborts; [timer]: the deadline of
    the wait is running. *)
Record World := {
  used : nat; streams : nat; live : list nat; listening : option nat; timer : bool; signalled : bool;
  supported : option bool; log : list event
}.

Definition M (A : Type) : Type := World -> (A + option thrown) * World.
Definition ret {A} (a : A) : M A := fun w => (inl a, w).
Definition throw {A} (e : thrown) : M A := fun w => (inr (Some e), w).
(** The failure that is no exception: the fuel of the model. *)
Definition out_of_fuel {A} : M A := fun w => (inr None, w).
Definition bind {A B} (m : M A) (k : A -> M B) : M B := fun w =>
  match m w with (inl a, w) => k a w | (inr e, w) => (inr e, w) end.
Definition catch {A} (m : M A) (h : thrown -> M A) : M A := fun w =>
  match m w with (inr (Some e), w) => h e w | r => r end.
Definition get : M World := fun w => (inl w, w).
Definition update (f : World -> World) : M unit := fun w => (inl tt, f w).
Definition of_result {A} (r : result A) : M A := match r with Ok a => ret a | Throw c => throw (simple c) end.
Definition of_sum {A} (x : A + thrown) : M A := match x with inl a => ret a | inr e => throw e end.
Definition of_option (x : option thrown) : M unit := match x with None => ret tt | Some e => throw e end.

Notation "'do' x '<-' m 'in' k" := (bind m (fun x => k)) (at level 10, x name, m at level 100, k at level 200).
Notation "m ';;' k" := (bind m (fun _ => k)) (at level 100, k at level 200, right associativity).

Definition note (e : event) (w : World) : World := {|
  used := used w; streams := streams w; live := live w; listening := listening w; timer := timer w; signalled := signalled w;
  supported := supported w; log := log w ++ [e] |}.

(** [controller.abort()] takes the stream off the registry. *)
Definition abort_stream (id : nat) (w : World) : World := {|
  used := used w; streams := streams w; live := List.filter (fun i => negb (i =? id)) (live w); listening := listening w;
  timer := timer w; signalled := signalled w; supported := supported w; log := log w |}.

(** A stream that was opened, tracked, and listened for: a listener added to a signal that
    was aborted never runs. *)
Definition track (w : World) : World := {|
  used := used w; streams := S (streams w); live := S (streams w) :: live w;
  listening := if signalled w then None else Some (S (streams w));
  timer := timer w; signalled := signalled w; supported := supported w; log := log w |}.

Definition unlisten (w : World) : World := {|
  used := used w; streams := streams w; live := live w; listening := None; timer := timer w; signalled := signalled w;
  supported := supported w; log := log w |}.

Definition with_timer (armed : bool) (w : World) : World := {|
  used := used w; streams := streams w; live := live w; listening := listening w; timer := armed; signalled := false;
  supported := supported w; log := log w |}.

Definition with_supported (b : bool) (w : World) : World := {|
  used := used w; streams := streams w; live := live w; listening := listening w; timer := timer w; signalled := signalled w;
  supported := Some b; log := log w |}.

(** [stop.abort()]. *)
Definition stop (w : World) : World :=
  let w' := {| used := used w; streams := streams w; live := live w; listening := listening w; timer := false; signalled := true;
               supported := supported w; log := log w |} in
  match listening w with Some id => abort_stream id w' | None => w' end.

Context (env : nat -> moment).

Definition await : M moment := fun w =>
  let m := env (used w) in
  let w := {| used := S (used w); streams := streams w; live := live w; listening := listening w; timer := timer w;
              signalled := signalled w; supported := supported w; log := log w |} in
  (inl m, if timer w && expires m then stop w else w).

(** What is there at an await, without one. *)
Definition here : M moment := fun w => (inl (env (used w)), w).

(** ** Following a transfer *)

Inductive WatchRound := Ended (s : State) | Cut (e : thrown).

Definition terminalState (e : TransferEvent) : option State :=
  match e with StateEvent s => if isTerminal s then Some s else None | OtherTransferEvent => None end.

Definition watchEndedWithoutTerminal : thrown := ConnectError Unavailable [] None.

Definition received (e : TransferEvent) : M unit :=
  match e with StateEvent s => update (note (Received s)) | OtherTransferEvent => ret tt end.

(** [idleMs] of [nextWithinIdle]: only whether there is one matters. *)
Fixpoint pump (fuel : nat) (idleMs : bool) (id : nat) (e : TransferEvent) : M WatchRound :=
  match fuel with
  | O => out_of_fuel
  | S fuel =>
      received e ;;
      match terminalState e with
      | Some s => ret (Ended s)
      | None =>
          do m <- await in
          if idleMs && idle m then update (abort_stream id) ;; throw idleTimeoutError
          else match next_answer m with
          | WatchDone => ret (Cut watchEndedWithoutTerminal)
          | WatchBroken e => throw e
          | WatchMessage e => pump fuel idleMs id e
          end
      end
  end.

Definition watch_failed (e : thrown) : M WatchRound :=
  do w <- get in
  do m <- here in
  if negb (signalled w) && (negb (closed m) && isReconnectable e) then ret (Cut e)
  else if isStreamReset e then do m <- await in throw (streamFailure m e)
  else throw (transferRpcError false e).

(** [try ... finally]: what is done before the end of [m], however it ends. *)
Definition finally {A} (m : M A) (f : World -> World) : M A := fun w => let (r, w) := m w in (r, f w).

Definition watchOnce (fuel : nat) (idleMs : bool) : M WatchRound :=
  do w <- get in
  if signalled w then throw transferDeadlineError else
  do m <- await in
  do first <- of_sum (open_answer m) in
  update track ;;
  do w <- get in
  finally (catch (pump fuel idleMs (streams w) first) watch_failed) (fun w' => abort_stream (streams w) (unlisten w')).

Fixpoint watchUntilTerminal (fuel : nat) (idleMs : bool) (futile : nat) : M State :=
  match fuel with
  | O => out_of_fuel
  | S fuel =>
      do round <- watchOnce fuel idleMs in
      match round with
      | Ended s => ret s
      | Cut cut =>
          do m <- await in
          do outcome <- of_sum (reconnect_answer m) in
          if negb (resumed outcome) then throw (default cut (Reconnect.error outcome)) else
          let (allowed, futile) := allows futile outcome in
          if negb allowed then do m <- await in throw (streamFailure m cut)
          else watchUntilTerminal fuel idleMs futile
      end
  end.

(** The race with the deadline: once it has passed, its error is what the caller gets,
    however the watch ends. *)
Definition waitTransfer (fuel : nat) (timeoutMs : option Z) (idleMs : bool) : M State := fun w =>
  match watchUntilTerminal fuel idleMs 0 (with_timer (bool_decide (is_Some timeoutMs)) w) with
  | (inr None, w) => (inr None, with_timer false w)
  | (r, w) => (if signalled w then inr (Some transferDeadlineError) else r, with_timer false w)
  end.

Definition waitForEntry (fuel : nat) (timeoutMs : option Z) : M EntryInfo :=
  do state <- waitTransfer fuel timeoutMs false in
  if negb (bool_decide (phase state = DONE)) then throw (failure_error (failureFromState state import_))
  else match entry state with
  | None => throw (simple SandboxError)
  | Some e => ret (toEntry e)
  end.

(** ** Requests to the agent *)

Definition requireStaging (staging : option ResolvedS3Staging) : M ResolvedS3Staging :=
  match staging with Some s => ret s | None => throw missingStagingError end.

(** [GetTransfer("")]. *)
Definition probe : M bool :=
  do m <- await in
  match state_answer m with
  | inl _ => ret true
  | inr e => of_sum (probeSupportsTransfers e)
  end.

Definition supportsTransfers : M bool :=
  do w <- get in
  match supported w with
  | Some b => ret b
  | None => do b <- probe in update (with_supported b) ;; ret b
  end.

Definition requireSupport : M unit :=
  do b <- supportsTransfers in if b then ret tt else throw outdatedImageError.

Definition startImport (request : StartImportRequest) : M text :=
  update (note (Importing request)) ;;
  do m <- await in
  match transfer_answer m with
  | inl id => update (note (Imported id)) ;; ret id
  | inr e => throw (transferRpcError true e)
  end.

Definition status : M TransferStatus :=
  do m <- await in
  match state_answer m with
  | inl s => ret (transferStatusFromProto s)
  | inr e => throw (transferRpcError false e)
  end.

Definition cancel : M unit :=
  do m <- await in
  match rpc_answer m with
  | None => ret tt
  | Some e => throw (transferRpcError false e)
  end.

(** ** S3 *)

Definition sign (kind : url_kind) (target : StagingObject) (lifetime : Z) : M text :=
  do m <- await in
  match url_answer m with
  | inl url => update (note (Signed kind target lifetime (Some url))) ;; ret url
  | inr e => update (note (Signed kind target lifetime None)) ;; throw e
  end.

Definition sign_form (maxBytes : Z) (target : StagingObject) (lifetime : Z) : M (text * list (text * text)) :=
  do m <- await in
  match form_answer m with
  | inl form => update (note (Signed (PostForm maxBytes) target lifetime (Some form.1))) ;; ret form
  | inr e => update (note (Signed (PostForm maxBytes) target lifetime None)) ;; throw e
  end.

Definition createMultipartUpload (target : StagingObject) : M text :=
  do m <- await in
  match upload_id_answer m with
  | inl id => update (note (Created target id)) ;; ret id
  | inr e => throw e
  end.

Definition completeMultipartUpload (target : StagingObject) (uploadId : text) (etags : list text) : M unit :=
  update (note (Completing target uploadId etags)) ;; do m <- await in of_option (s3_answer m).

Definition abortQuietly (target : StagingObject) (uploadId : text) : M unit :=
  update (note (Aborting target uploadId)) ;; await ;; ret tt.

Definition deleteQuietly (target : StagingObject) : M unit :=
  update (note (Deleting target)) ;; await ;; ret tt.

(** The region is the one of the control plane by default. *)
Definition newTarget (sandboxId planeRegion : text) (s : ResolvedS3Staging) (d : KeyDirection) : M StagingObject :=
  do m <- here in
  ret {| so_bucket := bucket s; so_key := stagingKey (prefix s) sandboxId d (token m); so_region := default planeRegion (region s) |}.

(** ** Tickets and links *)

Record UploadTicket := {
  t_url : text; t_form : bool; t_headers : list (text * text); t_fields : list (text * text); t_path : text;
  t_expiresAt : Z; t_transferId : text
}.

Record UploadUrlOptions := { u_user : option text; u_expiresIn : value; u_maxBytes : value; u_form : bool }.

Definition uploadUrl (sandboxId planeRegion : text) (staging : option ResolvedS3Staging) (path : text) (o : UploadUrlOptions) : M UploadTicket :=
  do s <- requireStaging staging in
  do maxBytes <- of_result (validateMaxBytes (u_maxBytes o)) in
  do lifetime <- of_result (effectiveExpiresIn (or_value (u_expiresIn o) (VNumber (num_of_Z TRANSFER_DEFAULT_EXPIRES_IN_SECONDS))) s) in
  requireSupport ;;
  do target <- newTarget sandboxId planeRegion s up in
  do now <- here in
  do signed <- (if u_form o then sign_form (default TRANSFER_SINGLE_PUT_MAX_BYTES maxBytes) target lifetime
                else do url <- sign PutUrl target lifetime in ret (url, [])) in
  let expiresAt := (wallMs now + lifetime * 1000)%Z in
  do getUrl <- sign (GetUrl None) target lifetime in
  do deleteUrl <- sign DeleteUrl target (deleteLifetime lifetime) in
  do id <- startImport (startImportRequest {|
    i_path := path; i_user := u_user o; i_mode := None; i_target := target; i_getUrl := getUrl; i_deleteUrl := deleteUrl;
    i_waitForObject := true; i_expiresAt := expiresAt; i_maxBytes := maxBytes; i_expectedSha256 := None; i_metadata := [] |}) in
  ret {| t_url := signed.1; t_form := u_form o; t_headers := uploadTicketHeaders (u_form o); t_fields := signed.2; t_path := path;
         t_expiresAt := expiresAt; t_transferId := id |}.

Record ExportedObject := { x_target : StagingObject; x_transferId : text; x_sha256 : text; x_size : Z }.

Record ExportInit := { xi_path : text; xi_user : option text; xi_size : Z; xi_deadlineMs : Z; xi_idleMs : bool }.

Definition startExport (request : StartExportRequest) : M text :=
  update (note (Exporting request)) ;;
  do m <- await in
  match transfer_answer m with
  | inl id => update (note (Exported id)) ;; ret id
  | inr e => throw (transferRpcError true e)
  end.

Definition runExport (fuel : nat) (request : StartExportRequest) (target : StagingObject) (i : ExportInit) : M (ExportedObject * list text) :=
  do id <- startExport request in
  do state <- waitTransfer fuel (Some (xi_deadlineMs i)) (xi_idleMs i) in
  if negb (bool_decide (phase state = DONE)) then throw (failure_error (failureFromState state export_))
  else ret ({| x_target := target; x_transferId := id; x_sha256 := sha256 state; x_size := bytesDone state |}, partEtags state).

(** The URLs of the parts from a number on. *)
Fixpoint sign_parts (target : StagingObject) (uploadId : text) (lifetime : Z) (first count : nat) : M (list text) :=
  match count with
  | O => ret []
  | S count =>
      do url <- sign (PartUrl uploadId first) target lifetime in
      do urls <- sign_parts target uploadId lifetime (S first) count in
      ret (url :: urls)
  end.

Definition export_request (i : ExportInit) (target : StagingObject) (expiresAt : Z) (putUrl : option text) (parts : option (list text * Z)) : StartExportRequest :=
  startExportRequest {| e_path := xi_path i; e_user := xi_user i; e_target := target; e_expiresAt := expiresAt; e_putUrl := putUrl;
                        e_partUrls := fst <$> parts; e_partSize := snd <$> parts |}.

Definition exportParts (fuel : nat) (i : ExportInit) (target : StagingObject) (uploadId : text) (plan : PartPlan) (lifetime expiresAt : Z) : M ExportedObject :=
  do urls <- sign_parts target uploadId lifetime 1 (Z.to_nat (parts plan)) in
  do x <- runExport fuel (export_request i target expiresAt None (Some (urls, partSize plan))) target i in
  completeMultipartUpload target uploadId x.2 ;;
  ret x.1.

Definition exportToStaging (sandboxId planeRegion : text) (fuel : nat) (staging : option ResolvedS3Staging) (i : ExportInit) : M ExportedObject :=
  do s <- requireStaging staging in
  do target <- newTarget sandboxId planeRegion s down in
  let lifetime := exportBudgetSeconds (xi_size i) in
  do now <- here in
  let expiresAt := (wallMs now + lifetime * 1000)%Z in
  match partPlan (xi_size i) s with
  | None =>
      do putUrl <- sign PutUrl target lifetime in
      do x <- runExport fuel (export_request i target expiresAt (Some putUrl) None) target i in
      ret x.1
  | Some plan =>
      do uploadId <- createMultipartUpload target in
      catch (exportParts fuel i target uploadId plan lifetime expiresAt)
        (fun e => abortQuietly target uploadId ;; throw e)
  end.

Record DownloadLink := { l_url : text; l_path : text; l_expiresAt : Z; l_size : Z; l_sha256 : text; l_transferId : text }.

Definition downloadUrl (sandboxId planeRegion : text) (fuel : nat) (staging : option ResolvedS3Staging) (i : ExportInit) (lifetime : Z) (filename : text) : M DownloadLink :=
  requireStaging staging ;;
  do x <- exportToStaging sandboxId planeRegion fuel staging i in
  do now <- here in
  do url <- sign (GetUrl (Some (contentDisposition filename))) (x_target x) lifetime in
  ret {| l_url := url; l_path := xi_path i; l_expiresAt := (wallMs now + lifetime * 1000)%Z; l_size := x_size x; l_sha256 := x_sha256 x;
         l_transferId := x_transferId x |}.

(** ** Routed writes *)

(** [known]: the body is a [Uint8Array], else a stream, read to its end by an upload that
    succeeds; [digest] is its sha256. *)
Record RoutedUpload := { ru_path : text; ru_mode : option Z; ru_known : bool; ru_size : Z; ru_digest : text }.

(** [withinBudget] around the upload, which starts before its budget is read. *)
Definition upload_within (target : StagingObject) (d : OperationDeadline) (known : option Z) : M unit :=
  update (note (Uploading target)) ;;
  do m <- here in
  do budget <- of_result (budgetMs d (clock m) known) in
  do m <- await in
  if bool_decide (is_Some budget) && expires m then update (note (StoppingUpload target)) ;; throw transferTimeoutError
  else of_option (s3_answer m) ;; update (note (Uploaded target)).

(** The deadline of the operation, read now. *)
Definition remaining (d : OperationDeadline) (size : Z) : M Z :=
  do m <- here in of_result (remainingMs d (clock m) size).

Definition is_timeout (e : thrown) : bool := match e with OwnError c _ _ _ _ => instance_of c TimeoutError | _ => false end.

Definition importUpload (sandboxId planeRegion : text) (fuel : nat) (staging : option ResolvedS3Staging) (u : RoutedUpload) (user : option text)
    (metadata : list (text * text)) (d : OperationDeadline) : M EntryInfo :=
  do s <- requireStaging staging in
  do target <- newTarget sandboxId planeRegion s up in
  catch (upload_within target d (if ru_known u then Some (ru_size u) else None))
    (fun e => (if is_timeout e then deleteQuietly target else ret tt) ;; throw e) ;;
  let size := ru_size u in
  let getLifetime := internalGetLifetime s in
  do now <- here in
  do id <- catch (
    do getUrl <- sign (GetUrl None) target getLifetime in
    do deleteUrl <- sign DeleteUrl target (exportBudgetSeconds size) in
    do ms <- remaining d size in
    startImport (startImportRequest {|
      i_path := ru_path u; i_user := user; i_mode := ru_mode u; i_target := target; i_getUrl := getUrl; i_deleteUrl := deleteUrl;
      i_waitForObject := false; i_expiresAt := (wallMs now + getLifetime * 1000)%Z; i_maxBytes := Some size;
      i_expectedSha256 := Some (ru_digest u); i_metadata := metadata |}))
    (fun e => deleteQuietly target ;; throw e) in
  do ms <- remaining d size in
  waitForEntry fuel (Some ms).

(** ** Reading an exported object *)

(** [bounded]: the budget of a step; without a deadline there is none. *)
Definition budget_of (d : option OperationDeadline) (size : Z) : M bool :=
  match d with None => ret false | Some d => remaining d size ;; ret true end.

(** What cuts a step short, and then [finish()]. *)
Definition read_failed {A} (x : ExportedObject) (e : thrown) : M A :=
  update (note (StoppingRead (x_target x))) ;; deleteQuietly (x_target x) ;; throw e.

(** [GetObject]: its budget is read after it starts, outside of the [catch]. *)
Definition open_exported (staging : option ResolvedS3Staging) (x : ExportedObject) (d : option OperationDeadline) : M unit :=
  requireStaging staging ;;
  update (note (Getting (x_target x))) ;;
  do bounded <- budget_of d (x_size x) in
  catch (do m <- await in
         if bounded && expires m then throw transferTimeoutError else of_option (s3_answer m))
    (read_failed x).

Inductive pulled := Enqueued (chunk : list N) | Closed.

(** A pull of the stream, after it was given [seen]. *)
Definition pull (sha256_of : list N -> text) (x : ExportedObject) (idleMs : bool) (d : option OperationDeadline) (seen : list N) : M pulled :=
  do chunk <- catch (
    do bounded <- budget_of d (x_size x) in
    do m <- await in
    if idleMs && idle m then throw idleTimeoutError
    else if bounded && expires m then throw transferTimeoutError
    else of_sum (read_answer m)) (read_failed x) in
  match chunk with
  | Some chunk => ret (Enqueued chunk)
  | None =>
      deleteQuietly (x_target x) ;;
      if bool_decide (sha256_of seen = x_sha256 x) then ret Closed else throw checksumMismatchError
  end.

Definition cancel_read (x : ExportedObject) : M unit :=
  update (note (StoppingRead (x_target x))) ;; await ;; deleteQuietly (x_target x).

(** A consumer that reads to the end, or cancels after so many chunks; whether it came to
    the end. *)
Fixpoint read_exported (sha256_of : list N -> text) (fuel : nat) (x : ExportedObject) (idleMs : bool) (d : option OperationDeadline) (cancel_after : option nat)
    (seen : list N) : M (list N * bool) :=
  match fuel with
  | O => out_of_fuel
  | S fuel =>
      match cancel_after with
      | Some O => cancel_read x ;; ret (seen, false)
      | _ =>
          do p <- pull sha256_of x idleMs d seen in
          match p with
          | Closed => ret (seen, true)
          | Enqueued chunk => read_exported sha256_of fuel x idleMs d (pred <$> cancel_after) (seen ++ chunk)
          end
      end
  end.

Definition streamExported (sha256_of : list N -> text) (fuel : nat) (staging : option ResolvedS3Staging) (x : ExportedObject) (idleMs : bool)
    (d : option OperationDeadline) (cancel_after : option nat) : M (list N * bool) :=
  open_exported staging x d ;; read_exported sha256_of fuel x idleMs d cancel_after [].

(** ** What an operation emits

    [emits m Q]: whatever the state, [m] only adds to the log, and its end and what it
    added satisfy [Q]. *)

Definition outcome (A : Type) : Type := (A + option thrown).
Definition emits {A} (m : M A) (Q : outcome A -> list event -> Prop) : Prop :=
  forall w, exists evs, log (m w).2 = log w ++ evs /\ Q (m w).1 evs.

Lemma emits_ret {A} (a : A) (Q : outcome A -> list event -> Prop) : Q (inl a) [] -> emits (ret a) Q.
Proof. intros H w. exists []. by rewrite app_nil_r. Qed.

Lemma emits_throw {A} e (Q : outcome A -> list event -> Prop) : Q (inr (Some e)) [] -> emits (throw e) Q.
Proof. intros H w. exists []. by rewrite app_nil_r. Qed.

Lemma emits_fuel {A} (Q : outcome A -> list event -> Prop) : Q (inr None) [] -> emits out_of_fuel Q.
Proof. intros H w. exists []. by rewrite app_nil_r. Qed.

Lemma emits_note e (Q : outcome unit -> list event -> Prop) : Q (inl tt) [e] -> emits (update (note e)) Q.
Proof. intros H w. by exists [e]. Qed.

Lemma emits_silent f (Q : outcome unit -> list event -> Prop) : (forall w, log (f w) = log w) -> Q (inl tt) [] -> emits (update f) Q.
Proof. intros Hf H w. exists []. cbn. by rewrite Hf, app_nil_r. Qed.

Lemma stop_log w : log (stop w) = log w.
Proof. unfold stop. by destruct (listening w). Qed.

Lemma emits_await (Q : outcome moment -> list event -> Prop) : (forall m, Q (inl m) []) -> emits await Q.
Proof. intros H w. exists []. rewrite app_nil_r. split; [|apply H]. unfold await. cbn [snd]. destruct (_ && _); [by rewrite stop_log|done]. Qed.

Lemma emits_here (Q : outcome moment -> list event -> Prop) : (forall m, Q (inl m) []) -> emits here Q.
Proof. intros H w. exists []. rewrite app_nil_r. split; [done|apply H]. Qed.

Lemma emits_get (Q : outcome World -> list event -> Prop) : (forall w, Q (inl w) []) -> emits get Q.
Proof. intros H w. exists []. rewrite app_nil_r. split; [done|apply H]. Qed.

Lemma emits_bind {A B} (m : M A) (k : A -> M B) (R : outcome A -> list event -> Prop) (Q : outcome B -> list event -> Prop) :
  emits m R -> (forall e evs, R (inr e) evs -> Q (inr e) evs) ->
  (forall a evs, R (inl a) evs -> emits (k a) (fun r more => Q r (evs ++ more))) -> emits (bind m k) Q.
Proof.
  intros Hm He Hk w. destruct (Hm w) as (evs & El & HR). unfold bind. destruct (m w) as [[a|e] w1]; cbn [fst snd] in *.
  - destruct (Hk a evs HR w1) as (more & El' & HQ). exists (evs ++ more). by rewrite El', El, app_assoc.
  - exists evs. auto.
Qed.

Lemma emits_catch {A} (m : M A) (h : thrown -> M A) (R Q : outcome A -> list event -> Prop) :
  emits m R -> (forall r evs, R r evs -> (forall e, r <> inr (Some e)) -> Q r evs) ->
  (forall e evs, R (inr (Some e)) evs -> emits (h e) (fun r more => Q r (evs ++ more))) -> emits (catch m h) Q.
Proof.
  intros Hm Hr Hh w. destruct (Hm w) as (evs & El & HR). unfold catch. destruct (m w) as [[a|[e|]] w1]; cbn [fst snd] in *.
  - exists evs. split; [done|]. by apply Hr.
  - destruct (Hh e evs HR w1) as (more & El' & HQ). exists (evs ++ more). by rewrite El', El, app_assoc.
  - exists evs. split; [done|]. by apply Hr.
Qed.

Lemma emits_weaken {A} (m : M A) (R Q : outcome A -> list event -> Prop) :
  emits m R -> (forall r evs, R r evs -> Q r evs) -> emits m Q.
Proof. intros Hm H w. destruct (Hm w) as (evs & El & HR). exists evs. auto. Qed.

Lemma emits_sum {A} (x : A + thrown) (Q : outcome A -> list event -> Prop) :
  (forall a, x = inl a -> Q (inl a) []) -> (forall e, x = inr e -> Q (inr (Some e)) []) -> emits (of_sum x) Q.
Proof. intros H1 H2. destruct x; [by apply emits_ret, H1|by apply emits_throw, H2]. Qed.

Lemma emits_result {A} (x : result A) (Q : outcome A -> list event -> Prop) :
  (forall a, x = Ok a -> Q (inl a) []) -> (forall e, x = Throw e -> Q (inr (Some (simple e))) []) -> emits (of_result x) Q.
Proof. intros H1 H2. destruct x; [by apply emits_ret, H1|by apply emits_throw, H2]. Qed.

Lemma emits_option (x : option thrown) (Q : outcome unit -> list event -> Prop) :
  Q (inl tt) [] -> (forall e, Q (inr (Some e)) []) -> emits (of_option x) Q.
Proof. intros H1 H2. destruct x; [apply emits_throw, H2|by apply emits_ret]. Qed.

(** The first step of an operation. *)
Lemma emits_noted {B} e (k : unit -> M B) (Q : outcome B -> list event -> Prop) :
  emits (k tt) (fun r more => Q r (e :: more)) -> emits (update (note e) ;; k tt) Q.
Proof. intros H w. destruct (H (note e w)) as (evs & El & HQ). exists (e :: evs). split; [|done]. unfold bind, update. rewrite El. cbn. by rewrite <- app_assoc. Qed.

Lemma await_log w : log (await w).2 = log w.
Proof. unfold await. cbn [snd]. destruct (_ && _); [by rewrite stop_log|done]. Qed.

Lemma emits_awaited {B} (k : moment -> M B) (Q : outcome B -> list event -> Prop) :
  (forall m, emits (k m) Q) -> emits (bind await k) Q.
Proof. intros H w. destruct (H (env (used w)) (await w).2) as (evs & El & HQ). exists evs. split; [|done]. by rewrite <- (await_log w). Qed.

Lemma emits_now {B} (k : moment -> M B) (Q : outcome B -> list event -> Prop) :
  (forall m, emits (k m) Q) -> emits (bind here k) Q.
Proof. intros H w. apply (H (env (used w)) w). Qed.

Lemma emits_and {A} (m : M A) (P Q : outcome A -> list event -> Prop) :
  emits m P -> emits m Q -> emits m (fun r evs => P r evs /\ Q r evs).
Proof.
  intros Hp Hq w. destruct (Hp w) as (evs & El & H1), (Hq w) as (evs' & El' & H2). exists evs. rewrite El in El'. apply app_inv_head in El' as <-. done.
Qed.

(** Events of a kind, whatever the end. *)
Definition only {A} (P : event -> Prop) (r : outcome A) (evs : list event) : Prop := Forall P evs.

Create HintDb transfer.
#[local] Hint Resolve emits_ret emits_throw emits_fuel emits_note emits_await emits_here emits_get : transfer.

Lemma only_bind {A B} P (m : M A) (k : A -> M B) : emits m (only P) -> (forall a, emits (k a) (only P)) -> emits (bind m k) (only P).
Proof.
  intros Hm Hk. eapply emits_bind; [exact Hm|done|]. intros a evs H. eapply emits_weaken; [apply Hk|]. intros r more H'. by apply Forall_app.
Qed.

Lemma only_catch {A} P (m : M A) h : emits m (only P) -> (forall e, emits (h e) (only P)) -> emits (catch m h) (only P).
Proof.
  intros Hm Hh. eapply emits_catch; [exact Hm|done|]. intros e evs H. eapply emits_weaken; [apply Hh|]. intros r more H'. by apply Forall_app.
Qed.

Lemma only_nil {A} P (r : outcome A) : only P r [].
Proof. constructor. Qed.

Lemma only_one {A} (P : event -> Prop) (r : outcome A) e : P e -> only P r [e].
Proof. by repeat constructor. Qed.

Lemma only_sum {A} P (x : A + thrown) : emits (of_sum x) (only P).
Proof. apply emits_sum; intros; apply only_nil. Qed.

Lemma only_result {A} P (x : result A) : emits (of_result x) (only P).
Proof. apply emits_result; intros; apply only_nil. Qed.

Lemma only_option P (x : option thrown) : emits (of_option x) (only P).
Proof. apply emits_option; intros; apply only_nil. Qed.

Lemma only_update P f : (forall w, log (f w) = log w) -> emits (update f) (only P).
Proof. intros H. apply emits_silent; [done|apply only_nil]. Qed.

#[local] Hint Resolve only_bind only_catch only_nil only_one only_sum only_result only_option : transfer.
#[local] Hint Extern 1 (emits (match ?x with _ => _ end) _) => destruct x : transfer.

(** ** Following a transfer *)

Definition is_received (e : event) : Prop := match e with Received _ => True | _ => False end.

(** What a watch reports: a terminal state, the last it was sent. *)
Definition reported (s : State) (evs : list event) : Prop := isTerminal s = true /\ Received s ∈ evs.

Definition watched {A} (state_of : A -> option State) (r : outcome A) (evs : list event) : Prop :=
  Forall is_received evs /\ forall a s, r = inl a -> state_of a = Some s -> reported s evs.

Definition round_state (r : WatchRound) : option State := match r with Ended s => Some s | Cut _ => None end.

Lemma watched_nil {A} (f : A -> option State) (r : outcome A) : (forall a, r = inl a -> f a = None) -> watched f r [].
Proof. intros H. split; [constructor|]. intros a s E Es. specialize (H a E). congruence. Qed.

Lemma watched_app {A} (f : A -> option State) r evs more : Forall is_received evs -> watched f r more -> watched f r (evs ++ more).
Proof.
  intros He [Hm Hs]. split; [by apply Forall_app|]. intros a s E Es. destruct (Hs a s E Es) as [Ht Hr]. split; [done|]. set_solver.
Qed.

Lemma pump_watched fuel idleMs id e : emits (pump fuel idleMs id e) (watched round_state).
Proof.
  revert e. induction fuel as [|fuel IH]; intros e; cbn [pump]; [by apply emits_fuel, watched_nil|].
  eapply (emits_bind _ _ (fun _ evs => Forall is_received evs /\ forall s, terminalState e = Some s -> reported s evs)).
  - destruct e as [s|]; cbn [received].
    + apply emits_note. split; [by repeat constructor|]. cbn. intros s'. destruct (isTerminal s) eqn:Et; [|done]. intros [= <-]. split; [done|by left].
    + apply emits_ret. by split.
  - intros f evs [H _]. by split.
  - intros _ evs [He Ht]. destruct (terminalState e) as [s|] eqn:Es.
    + apply emits_ret. rewrite app_nil_r. split; [done|]. intros a s' [= <-] [= <-]. by apply Ht.
    + eapply (emits_bind _ _ (fun _ evs' => evs' = [])); [by apply emits_await|intros f ? ->; apply watched_app; [done|by apply watched_nil]|].
      intros m ? ->. cbn [app]. destruct (idleMs && idle m).
      * eapply (emits_bind _ _ (fun _ evs' => evs' = [])); [by apply emits_silent|intros f ? ->; apply watched_app; [done|by apply watched_nil]|].
        intros _ ? ->. cbn [app]. apply emits_throw. apply watched_app; [done|by apply watched_nil].
      * destruct (next_answer m) as [e'| |e'].
        -- eapply emits_weaken; [apply IH|]. intros r more Hr. by apply watched_app.
        -- apply emits_ret, watched_app; [done|]. apply watched_nil. by intros a [= <-].
        -- apply emits_throw, watched_app; [done|by apply watched_nil].
Qed.

Lemma watched_bind {A B} (f : B -> option State) (m : M A) (k : A -> M B) :
  emits m (only is_received) -> (forall a, emits (k a) (watched f)) -> emits (bind m k) (watched f).
Proof.
  intros Hm Hk. eapply emits_bind; [exact Hm| |].
  - intros e evs H. rewrite <- (app_nil_r evs). apply watched_app; [done|by apply watched_nil].
  - intros a evs H. eapply emits_weaken; [apply Hk|]. intros r more. by apply watched_app.
Qed.

Lemma watched_catch {A} (f : A -> option State) (m : M A) h :
  emits m (watched f) -> (forall e, emits (h e) (watched f)) -> emits (catch m h) (watched f).
Proof.
  intros Hm Hh. eapply emits_catch; [exact Hm|done|]. intros e evs [H _]. eapply emits_weaken; [apply Hh|]. intros r more. by apply watched_app.
Qed.

Lemma emits_finally {A} (m : M A) f (Q : outcome A -> list event -> Prop) :
  emits m Q -> (forall w, log (f w) = log w) -> emits (finally m f) Q.
Proof. intros Hm Hf w. destruct (Hm w) as (evs & El & HQ). exists evs. unfold finally. destruct (m w) as [r w1]. cbn in *. by rewrite Hf. Qed.

Lemma watched_throw {A} (f : A -> option State) e : emits (throw e) (watched f).
Proof. by apply emits_throw, watched_nil. Qed.

#[local] Hint Resolve watched_bind watched_catch watched_throw : transfer.

Lemma watch_failed_watched e : emits (watch_failed e) (watched round_state).
Proof.
  unfold watch_failed. apply watched_bind; [auto with transfer|]. intros w. apply watched_bind; [auto with transfer|]. intros m.
  destruct (_ && _); [apply emits_ret, watched_nil; by intros a [= <-]|]. destruct (isStreamReset e); auto with transfer.
Qed.

Lemma watchOnce_watched fuel idleMs : emits (watchOnce fuel idleMs) (watched round_state).
Proof.
  unfold watchOnce. apply watched_bind; [auto with transfer|]. intros w. destruct (signalled w); [auto with transfer|].
  apply watched_bind; [auto with transfer|]. intros m. apply watched_bind; [auto with transfer|]. intros first.
  apply watched_bind; [by apply only_update|]. intros _. apply watched_bind; [auto with transfer|]. intros w'.
  apply emits_finally; [|done]. apply watched_catch; [apply pump_watched|apply watch_failed_watched].
Qed.

Lemma watchUntilTerminal_watched fuel idleMs futile : emits (watchUntilTerminal fuel idleMs futile) (watched Some).
Proof.
  revert futile. induction fuel as [|fuel IH]; intros futile; cbn [watchUntilTerminal]; [by apply emits_fuel, watched_nil|].
  eapply emits_bind; [apply watchOnce_watched|by intros e evs [H _]|]. intros [s|cut] evs [He Hs].
  - apply emits_ret. rewrite app_nil_r. split; [done|]. intros a s' [= <-] [= <-]. by apply (Hs (Ended s) s).
  - assert (forall m : M State, emits m (watched Some) -> emits m (fun r more => watched Some r (evs ++ more))) as Hw.
    { intros m Hm. eapply emits_weaken; [exact Hm|]. intros r more. by apply watched_app. }
    apply Hw, watched_bind; [auto with transfer|]. intros m. apply watched_bind; [auto with transfer|]. intros outcome.
    destruct (negb (resumed outcome)); [auto with transfer|]. destruct (allows futile outcome) as [allowed futile'].
    destruct (negb allowed); [|apply IH]. auto with transfer.
Qed.

Lemma waitTransfer_watched fuel timeoutMs idleMs : emits (waitTransfer fuel timeoutMs idleMs) (watched Some).
Proof.
  intros w. unfold waitTransfer. destruct (watchUntilTerminal_watched fuel idleMs 0 (with_timer (bool_decide (is_Some timeoutMs)) w)) as (evs & El & He & Hs).
  destruct (watchUntilTerminal _ _ _ _) as [r w']. cbn [fst snd] in *. exists evs. destruct r as [s|[e|]]; cbn [fst snd]; (split; [done|]); split; try done.
  - intros a s' Ea Es. destruct (signalled w'); [done|]. injection Ea as <-. by apply (Hs s s').
  - intros a s' Ea Es. by destruct (signalled w').
Qed.

(** ** The registry of streams *)

(** While a stream is open: the others stay, and the signal aborts no other. *)
Definition holding (id : nat) (others : list nat) (w : World) : Prop :=
  List.filter (fun i => negb (i =? id)) (live w) = others /\ (listening w = None \/ listening w = Some id).

Definition keeps {A} (P : World -> Prop) (m : M A) : Prop := forall w, P w -> P (m w).2.

Lemma filter_twice (f : nat -> bool) l : List.filter f (List.filter f l) = List.filter f l.
Proof. induction l as [|x l IH]; [done|]. cbn. destruct (f x) eqn:E; cbn; rewrite ?E; congruence. Qed.

Lemma abort_holding id others w : holding id others w -> holding id others (abort_stream id w).
Proof. intros [H1 H2]. split; [|done]. cbn. by rewrite filter_twice. Qed.

Lemma stop_holding id others w : holding id others w -> holding id others (stop w).
Proof.
  intros [H1 H2]. unfold stop. destruct H2 as [->|E]; [by split; [|left]|]. rewrite E. split; [cbn; by rewrite filter_twice|by right].
Qed.

Lemma keeps_bind {A B} P (m : M A) (k : A -> M B) : keeps P m -> (forall a, keeps P (k a)) -> keeps P (bind m k).
Proof. intros Hm Hk w Hw. specialize (Hm w Hw). unfold bind. destruct (m w) as [[a|e] w1]; [by apply Hk|done]. Qed.

Lemma keeps_catch {A} P (m : M A) h : keeps P m -> (forall e, keeps P (h e)) -> keeps P (catch m h).
Proof. intros Hm Hh w Hw. specialize (Hm w Hw). unfold catch. destruct (m w) as [[a|[e|]] w1]; [done|by apply Hh|done]. Qed.

Lemma keeps_ret {A} P (a : A) : keeps P (ret a).
Proof. by intros w. Qed.
Lemma keeps_throw {A} P e : keeps P (throw e : M A).
Proof. by intros w. Qed.
Lemma keeps_fuel {A} P : keeps P (out_of_fuel : M A).
Proof. by intros w. Qed.
Lemma keeps_sum {A} P (x : A + thrown) : keeps P (of_sum x).
Proof. destruct x; by intros w. Qed.
Lemma keeps_option P (x : option thrown) : keeps P (of_option x).
Proof. destruct x; by intros w. Qed.
Lemma keeps_here P : keeps P here.
Proof. by intros w. Qed.
Lemma keeps_get P : keeps P get.
Proof. by intros w. Qed.
Lemma keeps_update (P : World -> Prop) f : (forall w, P w -> P (f w)) -> keeps P (update f).
Proof. intros H w Hw. by apply H. Qed.
#[local] Hint Resolve keeps_bind keeps_catch keeps_ret keeps_throw keeps_fuel keeps_sum keeps_option keeps_here keeps_get : transfer.
#[local] Hint Extern 1 (keeps _ (match ?x with _ => _ end)) => destruct x : transfer.

Lemma keeps_awaiting (P : World -> Prop) :
  (forall w w', live w' = live w -> listening w' = listening w -> streams w' = streams w -> P w -> P w') -> (forall w, P w -> P (stop w)) -> keeps P await.
Proof.
  intros H1 H2 w Hw. unfold await. cbn [snd timer]. destruct (timer w && expires (env (used w))); [apply H2|]; by apply (H1 w).
Qed.

Lemma holding_await id others : keeps (holding id others) await.
Proof.
  apply keeps_awaiting; [|apply stop_holding]. intros w w' E1 E2 E3 [H1 H2]. split; [by rewrite E1|by rewrite E2].
Qed.
#[local] Hint Resolve holding_await : transfer.

Lemma keeps_received (P : World -> Prop) e : (forall s w, P w -> P (note (Received s) w)) -> keeps P (received e).
Proof. intros H. destruct e as [s|]; [apply keeps_update, (H s)|apply keeps_ret]. Qed.

Lemma pump_holding id others fuel idleMs e : keeps (holding id others) (pump fuel idleMs id e).
Proof.
  revert e. induction fuel as [|fuel IH]; intros e; cbn [pump]; [auto with transfer|].
  apply keeps_bind; [by apply keeps_received|]. intros _. destruct (terminalState e); [auto with transfer|].
  apply keeps_bind; [auto with transfer|]. intros m. destruct (idleMs && idle m); [|auto with transfer].
  apply keeps_bind; [apply keeps_update, abort_holding|auto with transfer].
Qed.

Lemma watch_failed_holding id others e : keeps (holding id others) (watch_failed e).
Proof. unfold watch_failed. auto 10 with transfer. Qed.

(** Between watches: nothing listens, and the next stream has a number of its own. *)
Definition idle_world (streams_open : list nat) (w : World) : Prop :=
  live w = streams_open /\ listening w = None /\ Forall (fun id => id <= streams w) streams_open.

Lemma filter_fresh n l : Forall (fun id => id <= n) l -> List.filter (fun i => negb (i =? S n)) l = l.
Proof.
  induction 1 as [|x l Hx _ IH]; [done|]. cbn. destruct (Nat.eqb_spec x (S n)); [lia|]. cbn. by rewrite IH.
Qed.

Lemma idle_await l : keeps (idle_world l) await.
Proof.
  apply keeps_awaiting.
  - intros w w' E1 E2 E3 (H1 & H2 & H3). split_and!; [congruence|congruence|by rewrite E3].
  - intros w (H1 & H2 & H3). unfold stop. by rewrite H2.
Qed.
#[local] Hint Resolve idle_await : transfer.

Lemma watchOnce_idle l fuel idleMs : keeps (idle_world l) (watchOnce fuel idleMs).
Proof.
  unfold watchOnce. apply keeps_bind; [auto with transfer|]. intros w0. destruct (signalled w0); [auto with transfer|].
  apply keeps_bind; [auto with transfer|]. intros m. apply keeps_bind; [auto with transfer|]. intros first w (H1 & H2 & H3).
  unfold bind at 1, update at 1, bind at 1, get at 1, finally. cbn [track streams]. set (id := S (streams w)).
  assert (holding id l (track w)) as Hh.
  { split; cbn; fold id; [|destruct (signalled w); auto]. rewrite Nat.eqb_refl. cbn. rewrite H1. by apply filter_fresh. }
  assert (streams (track w) = id) as Es by done. revert Hh Es. generalize (track w). intros w1 Hh Es.
  assert (keeps (fun w => holding id l w /\ streams w = id) (catch (pump fuel idleMs id first) watch_failed)) as Hk.
  { assert (forall (m : M WatchRound), keeps (fun w => streams w = id) m -> keeps (holding id l) m -> keeps (fun w => holding id l w /\ streams w = id) m) as Hand.
    { intros m' Ha Hb w' [Hc Hd]. split; [by apply Hb|by apply Ha]. }
    assert (keeps (fun w => streams w = id) await) as Ha.
    { apply keeps_awaiting; [congruence|]. intros w' <-. unfold stop. by destruct (listening w'). }
    apply Hand; apply keeps_catch; [| |apply pump_holding|apply watch_failed_holding].
    - generalize first. induction fuel as [|fuel IH]; intros e; cbn [pump]; [auto with transfer|].
      apply keeps_bind; [by apply keeps_received|]. intros _. destruct (terminalState e); [auto with transfer|].
      apply keeps_bind; [done|]. intros m'. destruct (idleMs && idle m'); [|auto with transfer].
      apply keeps_bind; [by apply keeps_update|auto with transfer].
    - intros e. unfold watch_failed. auto 10 with transfer. }
  destruct (Hk w1 (conj Hh Es)) as [[H4 _] H5]. destruct (catch _ _ w1) as [r w2]. cbn [fst snd] in *. split_and!; [done|done|].
  cbn. rewrite H5. eapply Forall_impl; [exact H3|]. unfold id. intros. cbn in *. lia.
Qed.

Lemma watch_idle l fuel idleMs futile : keeps (idle_world l) (watchUntilTerminal fuel idleMs futile).
Proof.
  revert futile. induction fuel as [|fuel IH]; intros futile; cbn [watchUntilTerminal]; [auto with transfer|].
  apply keeps_bind; [apply watchOnce_idle|]. intros [s|cut]; [auto with transfer|]. apply keeps_bind; [auto with transfer|]. intros m.
  apply keeps_bind; [auto with transfer|]. intros outcome. destruct (negb (resumed outcome)); [auto with transfer|].
  destruct (allows futile outcome) as [allowed futile']. destruct (negb allowed); [|apply IH]. auto with transfer.
Qed.

Lemma waitTransfer_idle l fuel timeoutMs idleMs : keeps (idle_world l) (waitTransfer fuel timeoutMs idleMs).
Proof.
  intros w Hw. unfold waitTransfer. pose proof (watch_idle l fuel idleMs 0 (with_timer (bool_decide (is_Some timeoutMs)) w) Hw) as H.
  destruct (watchUntilTerminal _ _ _ _) as [[s|[e|]] w']; exact H.
Qed.

Lemma waitForEntry_reports fuel timeoutMs : emits (waitForEntry fuel timeoutMs)
  (fun r evs => forall i, r = inl i -> exists s e, Received s ∈ evs /\ phase s = DONE /\ entry s = Some e /\ i = toEntry e).
Proof.
  unfold waitForEntry. apply (emits_bind _ _ (watched Some)); [apply waitTransfer_watched|done|].
  intros s evs [_ Hs]. destruct (Hs s s eq_refl eq_refl) as [_ Hr]. destruct (bool_decide (phase s = DONE)) eqn:Ed; cbn [negb]; [|by apply emits_throw].
  apply bool_decide_eq_true in Ed. destruct (entry s) as [e|] eqn:Ee; [|by apply emits_throw]. apply emits_ret. intros i [= <-]. exists s, e.
  rewrite app_nil_r. done.
Qed.

(** Waiting for a transfer reports the truth and leaves nothing behind: what it returns
    is a terminal state that the agent sent, the entry of an import is only returned for a
    transfer that is done, and however the wait ends, the registry
    holds the streams it held before, and nothing is listened for. *)
Theorem wait_reports fuel timeoutMs idleMs l w : idle_world l w ->
  (exists evs, log (waitTransfer fuel timeoutMs idleMs w).2 = log w ++ evs /\
     forall s, (waitTransfer fuel timeoutMs idleMs w).1 = inl s -> isTerminal s = true /\ Received s ∈ evs) /\
  (exists evs, log (waitForEntry fuel timeoutMs w).2 = log w ++ evs /\
     forall i, (waitForEntry fuel timeoutMs w).1 = inl i ->
       exists s e, Received s ∈ evs /\ phase s = DONE /\ entry s = Some e /\ i = toEntry e) /\
  idle_world l (waitTransfer fuel timeoutMs idleMs w).2.
Proof.
  intros Hw. split_and!; [| |by apply waitTransfer_idle].
  - destruct (waitTransfer_watched fuel timeoutMs idleMs w) as (evs & El & _ & Hs). exists evs. split; [done|]. intros s Es. by apply (Hs s s).
  - apply waitForEntry_reports.
Qed.

(** ** A wait ends *)

Definition finishes {A} (m : M A) (w : World) : Prop := (m w).1 <> inr None /\ used w <= used (m w).2.

Lemma finishes_bind {A B} (m : M A) (k : A -> M B) w :
  finishes m w -> (forall a w', m w = (inl a, w') -> finishes (k a) w') -> finishes (bind m k) w.
Proof.
  unfold finishes, bind. intros [H1 H2] Hk. destruct (m w) as [[a|e] w1] eqn:E; cbn [fst snd] in *.
  - destruct (Hk a w1 eq_refl). split; [done|lia].
  - split; [|done]. intros [= ->]. by apply H1.
Qed.

Lemma finishes_catch {A} (m : M A) h w :
  finishes m w -> (forall e w', m w = (inr (Some e), w') -> finishes (h e) w') -> finishes (catch m h) w.
Proof.
  unfold finishes, catch. intros [H1 H2] Hh. destruct (m w) as [[a|[e|]] w1] eqn:E; cbn [fst snd] in *; [done| |done].
  destruct (Hh e w1 eq_refl). split; [done|lia].
Qed.

Lemma stop_used w : used (stop w) = used w.
Proof. unfold stop. by destruct (listening w). Qed.

Lemma await_eq w : exists w', await w = (inl (env (used w)), w') /\ used w' = S (used w).
Proof. unfold await. eexists. split; [done|]. destruct (_ && _); [by rewrite stop_used|done]. Qed.

Lemma finishes_await w : finishes await w.
Proof. destruct (await_eq w) as (w' & E & Eu). unfold finishes. rewrite E. cbn. split; [done|lia]. Qed.

Lemma finishes_sum {A} (x : A + thrown) w : finishes (of_sum x) w.
Proof. by destruct x. Qed.

(** From some await on, the streams bring no state but a terminal one, and the sandbox is
    not resumed anew. *)
Definition settles (N : nat) : Prop := forall i, N <= i ->
  (forall e, next_answer (env i) = WatchMessage e -> is_Some (terminalState e)) /\
  (forall o, reconnect_answer (env i) = inl o -> generationChanged o = false).

Lemma pump_finishes N fuel idleMs id e w : settles N -> (is_Some (terminalState e) /\ 1 <= fuel) \/ N - used w + 2 <= fuel ->
  finishes (pump fuel idleMs id e) w.
Proof.
  intros Hs. revert e w. induction fuel as [|fuel IH]; intros e w Hf; [destruct Hf as [[_ Hf]|Hf]; lia|]. cbn [pump].
  apply finishes_bind; [by destruct e|]. intros [] w1 E1. assert (used w1 = used w) as Eu by (destruct e; by injection E1 as <-).
  destruct (terminalState e) as [s|] eqn:Et; [done|]. destruct Hf as [[[? [=]] _]|Hf].
  apply finishes_bind; [apply finishes_await|]. intros m w2 E2. destruct (await_eq w1) as (w2' & E2' & Eu2). rewrite E2 in E2'. injection E2' as -> <-.
  destruct (idleMs && _).
  { by apply finishes_bind. }
  destruct (next_answer (env (used w1))) as [e'| |e'] eqn:En; [|done..]. apply IH. destruct (Nat.lt_ge_cases (used w1) N) as [Hl|Hl].
  - right. lia.
  - left. split; [|lia]. by eapply (proj1 (Hs (used w1) Hl)).
Qed.

Lemma watch_failed_finishes e w : finishes (watch_failed e) w.
Proof.
  unfold watch_failed. apply finishes_bind; [done|]. intros w0 w1 [= <- <-]. apply finishes_bind; [done|]. intros m w1 [= <- <-].
  destruct (negb _ && _); [done|]. destruct (isStreamReset e); [|done]. apply finishes_bind; [apply finishes_await|]. done.
Qed.

Lemma watchOnce_eq fuel idleMs w w1 : await w = (inl (env (used w)), w1) ->
  watchOnce fuel idleMs w =
  if signalled w then (inr (Some transferDeadlineError), w) else
  match open_answer (env (used w)) with
  | inr e => (inr (Some e), w1)
  | inl first =>
      finally (catch (pump fuel idleMs (streams (track w1)) first) watch_failed) (fun w' => abort_stream (streams (track w1)) (unlisten w')) (track w1)
  end.
Proof.
  intros E. unfold watchOnce, bind at 1, get at 1. destruct (signalled w); [done|]. unfold bind at 1. rewrite E. by destruct (open_answer _).
Qed.

Lemma watchOnce_finishes N fuel idleMs w : settles N -> N - used w + 2 <= fuel ->
  finishes (watchOnce fuel idleMs) w /\ forall e w', watchOnce fuel idleMs w = (inl (Cut e), w') -> S (used w) <= used w'.
Proof.
  intros Hs Hf. destruct (await_eq w) as (w1 & E1 & Eu1).
  assert (forall first w2, used w2 = S (used w) ->
    finishes (finally (catch (pump fuel idleMs (streams w2) first) watch_failed) (fun w' => abort_stream (streams w2) (unlisten w'))) w2) as Hp.
  { intros first w2 Eu2. assert (finishes (catch (pump fuel idleMs (streams w2) first) watch_failed) w2) as [H1 H2].
    { apply finishes_catch; [|by intros; apply watch_failed_finishes]. apply (pump_finishes N); [done|right; lia]. }
    unfold finishes, finally. destruct (catch _ _ w2) as [r w3]. by split. }
  unfold finishes. rewrite (watchOnce_eq fuel idleMs w w1 E1). destruct (signalled w); [by split; [split; [|cbn; lia]|]|].
  destruct (open_answer (env (used w))) as [first|e]; [|split; [split; [done|cbn; lia]|done]].
  assert (used (track w1) = S (used w)) as Eut by done. destruct (Hp first (track w1) Eut) as [H1 H2].
  destruct (finally _ _ (track w1)) as [r w3]. cbn [fst snd] in *. split; [split; [done|lia]|]. intros e w' [= _ <-]. lia.
Qed.

Lemma watch_finishes N fuel idleMs futile w : settles N -> 2 * (N - used w) + (3 - futile) + 4 <= fuel -> futile <= 3 ->
  finishes (watchUntilTerminal fuel idleMs futile) w.
Proof.
  intros Hs. revert futile w. induction fuel as [|fuel IH]; intros futile w Hf H3; [lia|]. cbn [watchUntilTerminal].
  destruct (watchOnce_finishes N fuel idleMs w Hs ltac:(lia)) as [Hw Hcut]. apply finishes_bind; [done|]. intros [s|cut] w1 E1; [done|].
  specialize (Hcut _ _ E1). apply finishes_bind; [apply finishes_await|]. intros m w2 E2. destruct (await_eq w1) as (w2' & E2' & Eu2).
  rewrite E2 in E2'. injection E2' as -> <-. apply finishes_bind; [apply finishes_sum|]. intros o w3 E3.
  destruct (reconnect_answer (env (used w1))) as [o'|e] eqn:Er; [|done]. injection E3 as <- <-.
  destruct (negb (resumed o')); [done|]. unfold allows, Reconnect.MAX_FUTILE_RECONNECTS. destruct (generationChanged o') eqn:Eg; cbn [negb].
  - apply IH; [|lia]. destruct (Nat.lt_ge_cases (used w1) N) as [Hl|Hl]; [lia|]. destruct (Hs _ Hl) as [_ Hr]. by rewrite (Hr o' Er) in Eg.
  - destruct (Nat.leb_spec (S futile) 3); cbn [negb]; [apply IH; lia|]. apply finishes_bind; [apply finishes_await|done].
Qed.

(** A wait ends: if from some await on the streams bring no state but terminal ones and
    the sandbox is not resumed anew, waiting returns or throws, whatever the cuts, since a
    wait gives up at the fourth reconnection in a row that found nothing new. *)
Theorem wait_ends N fuel timeoutMs idleMs w : settles N -> 2 * (N - used w) + 7 <= fuel ->
  (waitTransfer fuel timeoutMs idleMs w).1 <> inr None.
Proof.
  intros Hs Hf. unfold waitTransfer. destruct (watch_finishes N fuel idleMs 0 (with_timer (bool_decide (is_Some timeoutMs)) w) Hs) as [H _]; [cbn; lia|lia|].
  destruct (watchUntilTerminal _ _ _ _) as [[s|[e|]] w']; cbn [fst] in *; [by destruct (signalled w')|by destruct (signalled w')|done].
Qed.

(** ** Exports *)

(** The events of an export between its beginning and its end. *)
Definition moving (e : event) : Prop :=
  match e with Signed _ _ _ _ | Exporting _ | Exported _ | Received _ => True | _ => False end.

Lemma received_moving evs : Forall is_received evs -> Forall moving evs.
Proof. intros H. eapply Forall_impl; [exact H|]. by intros []. Qed.

(** A result that the state [s] is the end of. *)
Definition exported_from (target : StagingObject) (x : ExportedObject) (s : State) : Prop :=
  phase s = DONE /\ x_target x = target /\ x_sha256 x = sha256 s /\ x_size x = bytesDone s.

(** What a signature leaves in the log. *)
Lemma sign_one kind target lifetime : emits (sign kind target lifetime)
  (fun r evs => evs = [Signed kind target lifetime (match r with inl url => Some url | inr _ => None end)]).
Proof.
  apply emits_awaited. intros m. destruct (url_answer m) as [url|e].
  - by apply (emits_noted _ (fun _ => ret url)), emits_ret.
  - by apply (emits_noted _ (fun _ => throw e)), emits_throw.
Qed.

Lemma sign_only (P : event -> Prop) kind target lifetime : (forall url, P (Signed kind target lifetime url)) -> emits (sign kind target lifetime) (only P).
Proof. intros HP. eapply emits_weaken; [apply sign_one|]. intros r evs ->. by apply only_one. Qed.

Lemma sign_parts_only (P : event -> Prop) target id lifetime first count : (forall k url, P (Signed (PartUrl id k) target lifetime url)) ->
  emits (sign_parts target id lifetime first count) (only P).
Proof.
  intros HP. revert first. induction count as [|count IH]; intros first; cbn [sign_parts]; [auto with transfer|].
  apply only_bind; [by apply sign_only|]. intros url. apply only_bind; [apply IH|auto with transfer].
Qed.

Lemma startExport_only request : emits (startExport request) (only moving).
Proof.
  apply only_bind; [by apply emits_note, only_one|]. intros _. apply only_bind; [auto with transfer|]. intros m.
  destruct (transfer_answer m); [|auto with transfer]. apply only_bind; [by apply emits_note, only_one|auto with transfer].
Qed.

Definition export_reports (target : StagingObject) (r : outcome (ExportedObject * list text)) (evs : list event) : Prop :=
  Forall moving evs /\ forall x, r = inl x -> exists s, Received s ∈ evs /\ exported_from target x.1 s /\ x.2 = partEtags s.

Lemma runExport_reports fuel request target i : emits (runExport fuel request target i) (export_reports target).
Proof.
  unfold runExport. eapply emits_bind; [apply startExport_only|by intros e evs|]. intros id evs1 H1.
  eapply emits_bind; [apply waitTransfer_watched| |].
  - intros e evs [H _]. split; [|done]. apply Forall_app. split; [done|by apply received_moving].
  - intros s evs [H2 Hs]. destruct (Hs s s eq_refl eq_refl) as [_ Hr]. apply received_moving in H2.
    destruct (bool_decide (phase s = DONE)) eqn:Ed; cbn [negb].
    + apply bool_decide_eq_true in Ed. apply emits_ret. rewrite app_nil_r. split; [by apply Forall_app|]. intros x [= <-]. exists s.
      split; [set_solver|done].
    + apply emits_throw. rewrite app_nil_r. split; [by apply Forall_app|done].
Qed.

Lemma moving_not (e : event) evs : Forall moving evs -> ~ moving e -> e ∉ evs.
Proof. intros H He Hin. rewrite Forall_forall in H. by apply He, H. Qed.

(** The attempt on a multipart upload that exists. *)
Definition parts_report (target : StagingObject) (uploadId : text) (r : outcome ExportedObject) (evs : list event) : Prop :=
  (forall t id, (Created t id ∉ evs) /\ Aborting t id ∉ evs) /\
  forall x, r = inl x -> exists s, Received s ∈ evs /\ exported_from target x s /\ Completing target uploadId (partEtags s) ∈ evs.

Lemma exportParts_reports fuel i target uploadId plan lifetime expiresAt :
  emits (exportParts fuel i target uploadId plan lifetime expiresAt) (parts_report target uploadId).
Proof.
  unfold exportParts. assert (forall evs, Forall moving evs -> forall t id, (Created t id ∉ evs) /\ Aborting t id ∉ evs) as Hn.
  { intros evs H t id. split; (apply moving_not; [done|by intros []]). }
  eapply emits_bind; [by apply (sign_parts_only moving)| |].
  { intros e evs H. split; [by apply Hn|done]. }
  intros urls evs1 H1. eapply emits_bind; [apply runExport_reports| |].
  { intros e evs [H _]. split; [|done]. intros t id. apply (Hn (evs1 ++ evs)). by apply Forall_app. }
  intros x evs2 [H2 Hx]. destruct (Hx x eq_refl) as (s & Hr & Hf & Ee).
  eapply (emits_bind _ _ (fun _ evs3 => evs3 = [Completing target uploadId x.2])).
  - apply (emits_noted _ (fun _ => do m <- await in of_option (s3_answer m))), emits_awaited. intros m. by apply emits_option.
  - intros e evs ->. split; [|done]. intros t id. destruct (Hn _ H1 t id), (Hn _ H2 t id). set_solver.
  - intros _ evs ->. apply emits_ret. split.
    + intros t id. destruct (Hn _ H1 t id), (Hn _ H2 t id). set_solver.
    + intros x' [= <-]. exists s. rewrite <- Ee. set_solver.
Qed.

(** What an export does with the multipart uploads it created. *)
Definition export_accounts (r : outcome ExportedObject) (evs : list event) : Prop :=
  (forall x, r = inl x -> exists s, Received s ∈ evs /\ exported_from (x_target x) x s /\
     forall t id, Created t id ∈ evs -> t = x_target x /\ Completing t id (partEtags s) ∈ evs /\ (Aborting t id ∉ evs)) /\
  (forall e, r = inr (Some e) -> forall t id, Created t id ∈ evs -> Aborting t id ∈ evs).

Lemma export_one_put fuel request target i lifetime : emits
  (do putUrl <- sign PutUrl target lifetime in do x <- runExport fuel (request putUrl) target i in ret x.1) export_accounts.
Proof.
  assert (forall evs t id, Forall moving evs -> Created t id ∉ evs) as Hn by (intros evs t id H; apply moving_not; [done|by intros []]).
  eapply emits_bind; [by apply (sign_only moving)|intros e evs H; split; [done|intros ? _ t id Hc; by apply Hn in Hc]|].
  intros url evs1 H1. eapply emits_bind; [apply runExport_reports| |].
  - intros e evs [H _]. split; [done|]. intros ? _ t id Hc. apply (Hn (evs1 ++ evs)) in Hc; [done|by apply Forall_app].
  - intros x evs [H2 Hx]. destruct (Hx x eq_refl) as (s & Hr & Hf & _). apply emits_ret. rewrite app_nil_r. split; [|done].
    intros x' [= <-]. exists s. pose proof Hf as (_ & Et & _). rewrite Et. split_and!; [set_solver|done|].
    intros t id Hc. apply (Hn (evs1 ++ evs)) in Hc; [done|by apply Forall_app].
Qed.

Lemma export_multipart fuel i target plan lifetime expiresAt : emits
  (do uploadId <- createMultipartUpload target in
   catch (exportParts fuel i target uploadId plan lifetime expiresAt) (fun e => abortQuietly target uploadId ;; throw e)) export_accounts.
Proof.
  eapply (emits_bind _ _ (fun r evs => match r with inl id => evs = [Created target id] | inr _ => evs = [] end)).
  - apply emits_awaited. intros m. destruct (upload_id_answer m) as [id|e]; [|by apply emits_throw]. by apply (emits_noted _ (fun _ => ret id)), emits_ret.
  - intros e evs ->. split; [done|]. set_solver.
  - intros id ? ->. eapply emits_catch; [apply exportParts_reports| |].
    + intros r evs [Hn Hx] Hne. split.
      * intros x Er. destruct (Hx x Er) as (s & Hr & Hf & Hc). exists s. pose proof Hf as (_ & Et & _). rewrite Et.
        split_and!; [set_solver|done|]. intros t id' Hin. destruct (Hn t id') as [Ha Hb].
        assert (Created t id' = Created target id) as [= -> ->] by set_solver. set_solver.
      * intros e Er. by destruct (Hne e).
    + intros e evs [Hn _]. eapply (emits_bind _ _ (fun _ more => more = [Aborting target id])).
      * apply (emits_noted _ (fun _ => await ;; ret tt)), emits_awaited. intros m. by apply emits_ret.
      * intros f ? ->. split; [done|]. intros e' _ t id' Hin. destruct (Hn t id'). assert (Created t id' = Created target id) as [= -> ->] by set_solver.
        set_solver.
      * intros _ ? ->. apply emits_throw. split; [done|]. intros e' _ t id' Hin. destruct (Hn t id').
        assert (Created t id' = Created target id) as [= -> ->] by set_solver. set_solver.
Qed.

(** C31. An export reports what was exported and leaves no upload open: its result carries
    the digest and the size of a state that is done, and every multipart upload that it
    created is completed with the tags of that state and not aborted; if it throws, at any
    await, an abort of every multipart upload that it created was sent. *)
Theorem export_closes sandboxId planeRegion fuel staging i w :
  exists evs, log (exportToStaging sandboxId planeRegion fuel staging i w).2 = log w ++ evs /\
  export_accounts (exportToStaging sandboxId planeRegion fuel staging i w).1 evs.
Proof.
  revert w. change (emits (exportToStaging sandboxId planeRegion fuel staging i) export_accounts). unfold exportToStaging.
  assert (forall e : option thrown, export_accounts (inr e) []) as H0 by (intros e; split; [done|set_solver]).
  eapply (emits_bind _ _ (fun _ evs => evs = [])); [destruct staging; [by apply emits_ret|by apply emits_throw]|by intros ? ? ->|]. intros s ? ->.
  eapply (emits_bind _ _ (fun _ evs => evs = [])); [apply emits_now; intros m; by apply emits_ret|by intros ? ? ->|].
  intros target ? ->. apply emits_now. intros now. cbn [app].
  destruct (partPlan (xi_size i) s) as [plan|]; [apply export_multipart|].
  apply (export_one_put fuel (fun putUrl => export_request i target (wallMs now + exportBudgetSeconds (xi_size i) * 1000) (Some putUrl) None)).
Qed.

(** ** Routed writes *)

Lemma emits_staging {B} staging (k : ResolvedS3Staging -> M B) (Q : outcome B -> list event -> Prop) :
  Q (inr (Some missingStagingError)) [] -> (forall s, staging = Some s -> emits (k s) Q) -> emits (bind (requireStaging staging) k) Q.
Proof. intros H1 H2. destruct staging as [s|]; [by apply H2|]. intros w. exists []. by rewrite app_nil_r. Qed.

Definition target_of (sandboxId planeRegion : text) (s : ResolvedS3Staging) (d : KeyDirection) (tok : text) : StagingObject :=
  {| so_bucket := bucket s; so_key := stagingKey (prefix s) sandboxId d tok; so_region := default planeRegion (region s) |}.

Lemma emits_target {B} sandboxId planeRegion s d (k : StagingObject -> M B) (Q : outcome B -> list event -> Prop) :
  (forall tok, emits (k (target_of sandboxId planeRegion s d tok)) Q) -> emits (bind (newTarget sandboxId planeRegion s d) k) Q.
Proof. intros H w. apply (H (token (env (used w)))). Qed.

(** The agent was asked to import [target] with the digest and the size of what was
    uploaded, and has the URLs that were signed to read that object and to delete it, this
    one for as long as the transfer may take. *)
Definition handed_over (target : StagingObject) (u : RoutedUpload) (request : StartImportRequest) (evs : list event) : Prop :=
  Importing request ∈ evs /\ si_object request = target /\ si_path request = ru_path u /\
  si_expectedSha256 request = ru_digest u /\ si_maxBytes request = ru_size u /\ si_waitForObject request = false /\
  Signed DeleteUrl target (exportBudgetSeconds (ru_size u)) (Some (si_delete request)) ∈ evs /\
  exists lifetime, Signed (GetUrl None) target lifetime (Some (si_get request)) ∈ evs.

Lemma handed_over_app target u request before evs after :
  handed_over target u request evs -> handed_over target u request (before ++ evs ++ after).
Proof. unfold handed_over. set_solver. Qed.

(** The import of an object: its request, or the deletion of the object. *)
Definition import_started (target : StagingObject) (u : RoutedUpload) (r : outcome text) (evs : list event) : Prop :=
  match r with
  | inl id => Imported id ∈ evs /\ exists request, handed_over target u request evs
  | inr (Some _) => Deleting target ∈ evs
  | inr None => True
  end.

Lemma emits_true {A} (m : M A) : emits m (only (fun _ => True)) -> emits m (fun _ _ => True).
Proof. intros H. by eapply emits_weaken. Qed.

Lemma remaining_any d size : emits (remaining d size) (fun _ evs => evs = []).
Proof. apply emits_now. intros m. by apply emits_result. Qed.

Lemma delete_emits target : emits (deleteQuietly target) (fun r evs => evs = [Deleting target] /\ r = inl tt).
Proof. apply (emits_noted _ (fun _ => await ;; ret tt)), emits_awaited. intros m. by apply emits_ret. Qed.

Lemma delete_then {A} target e (Q : outcome A -> list event -> Prop) : Q (inr (Some e)) [Deleting target] -> emits (deleteQuietly target ;; throw e) Q.
Proof.
  intros H. eapply emits_bind; [apply delete_emits|by intros ? ? [_ [=]]|]. intros _ evs [-> _]. by apply emits_throw.
Qed.

Lemma startImport_emits request : emits (startImport request)
  (fun r evs => match r with inl id => Importing request ∈ evs /\ Imported id ∈ evs | inr _ => forall id, Imported id ∉ evs end).
Proof.
  apply (emits_noted _ (fun _ => bind await _)), emits_awaited. intros m. destruct (transfer_answer m) as [id|e].
  - apply (emits_noted _ (fun _ => ret id)), emits_ret. set_solver.
  - apply emits_throw. set_solver.
Qed.

(** The upload: it succeeded if and only if it returned. *)
Lemma upload_emits target d known : emits (upload_within target d known)
  (fun r evs => (forall t, Uploading t ∈ evs -> t = target) /\ (forall t, Uploaded t ∈ evs -> t = target /\ r = inl tt) /\
                (r = inl tt -> Uploaded target ∈ evs)).
Proof.
  apply (emits_noted _ (fun _ => bind here _)), emits_now. intros m.
  eapply (emits_bind _ _ (fun _ evs => evs = [])); [by apply emits_result|intros e ? ->; set_solver|]. intros budget ? ->.
  apply emits_awaited. intros m'. destruct (_ && expires m').
  - apply (emits_noted _ (fun _ => throw transferTimeoutError)), emits_throw. set_solver.
  - eapply (emits_bind _ _ (fun _ evs => evs = [])); [by apply emits_option|intros e ? ->; set_solver|]. intros _ ? ->.
    apply emits_note. cbn [app]. split_and!; [set_solver|intros t Ht; split; [set_solver|done]|set_solver].
Qed.

(** The upload with what is done when it fails: a time-out deletes the object. *)
Lemma upload_or_delete target d known : emits
  (catch (upload_within target d known) (fun e => (if is_timeout e then deleteQuietly target else ret tt) ;; throw e))
  (fun r evs => (forall t, Uploading t ∈ evs -> t = target) /\
    match r with
    | inl _ => Uploaded target ∈ evs /\ forall t, Uploaded t ∈ evs -> t = target
    | inr e => (forall t, Uploaded t ∉ evs) /\ forall e', e = Some e' -> is_timeout e' = true -> Deleting target ∈ evs
    end).
Proof.
  eapply emits_catch; [apply upload_emits| |].
  - intros [[]|[e|]] evs (Hg & Hu & Ho) Hn; [|by destruct (Hn e)|].
    + split_and!; [done|by apply Ho|]. intros t Ht. by destruct (Hu t Ht).
    + split_and!; [done| |done]. intros t Ht. by destruct (Hu t Ht).
  - intros e evs (Hg & Hu & _). assert (forall t, Uploaded t ∉ evs) as Hnu by (intros t Ht; by destruct (Hu t Ht)).
    destruct (is_timeout e) eqn:Et.
    + apply delete_then. split_and!; set_solver.
    + apply (emits_throw e). rewrite app_nil_r. split_and!; [done|done|]. intros e' [= <-] ?. congruence.
Qed.

(** What a routed write does with the object it uploaded. *)
Definition write_accounts (u : RoutedUpload) (r : outcome EntryInfo) (evs : list event) : Prop :=
  (forall i, r = inl i -> exists s e t request, Received s ∈ evs /\ phase s = DONE /\ entry s = Some e /\ i = toEntry e /\
     Uploaded t ∈ evs /\ handed_over t u request evs) /\
  (forall e, r = inr (Some e) -> forall t, Uploaded t ∈ evs ->
     Deleting t ∈ evs \/ exists id request, Imported id ∈ evs /\ handed_over t u request evs) /\
  (forall e, r = inr (Some e) -> is_timeout e = true -> forall t, Uploading t ∈ evs ->
     (Uploaded t ∈ evs) \/ Deleting t ∈ evs).

Lemma import_emits target u user metadata d (getLifetime : Z) now : emits (catch (
    do getUrl <- sign (GetUrl None) target getLifetime in
    do deleteUrl <- sign DeleteUrl target (exportBudgetSeconds (ru_size u)) in
    do ms <- remaining d (ru_size u) in
    startImport (startImportRequest {|
      i_path := ru_path u; i_user := user; i_mode := ru_mode u; i_target := target; i_getUrl := getUrl; i_deleteUrl := deleteUrl;
      i_waitForObject := false; i_expiresAt := (wallMs now + getLifetime * 1000)%Z; i_maxBytes := Some (ru_size u);
      i_expectedSha256 := Some (ru_digest u); i_metadata := metadata |}))
    (fun e => deleteQuietly target ;; throw e)) (import_started target u).
Proof.
  eapply (emits_catch _ _ (fun r evs => forall id, r = inl id -> import_started target u r evs)).
  - eapply emits_bind; [apply sign_one|done|]. intros getUrl ? ->. eapply emits_bind; [apply sign_one|done|]. intros deleteUrl ? ->.
    eapply emits_bind; [apply remaining_any|done|]. intros ms ? ->. eapply emits_weaken; [apply startImport_emits|].
    intros r evs Hr id ->. destruct Hr as [H1 H2]. cbn. split; [set_solver|]. eexists. split; [do 2 right; exact H1|].
    split_and!; [done..| |]; [right; left|eexists; left].
  - intros [id|[e|]] evs H Hn; [by apply (H id)|by destruct (Hn e)|exact I].
  - intros e evs _. apply delete_then. cbn. set_solver.
Qed.

Definition no_upload (e : event) : Prop := match e with Uploading _ | Uploaded _ => False | _ => True end.

Lemma not_uploaded e evs : Forall no_upload evs -> ~ no_upload e -> e ∉ evs.
Proof. rewrite Forall_forall. intros H He Hin. by apply He, H. Qed.

Lemma import_no_upload target u user metadata d getLifetime now : emits (catch (
    do getUrl <- sign (GetUrl None) target getLifetime in
    do deleteUrl <- sign DeleteUrl target (exportBudgetSeconds (ru_size u)) in
    do ms <- remaining d (ru_size u) in
    startImport (startImportRequest {|
      i_path := ru_path u; i_user := user; i_mode := ru_mode u; i_target := target; i_getUrl := getUrl; i_deleteUrl := deleteUrl;
      i_waitForObject := false; i_expiresAt := (wallMs now + getLifetime * 1000)%Z; i_maxBytes := Some (ru_size u);
      i_expectedSha256 := Some (ru_digest u); i_metadata := metadata |}))
    (fun e => deleteQuietly target ;; throw e)) (only no_upload).
Proof.
  apply only_catch.
  - apply only_bind; [by apply sign_only|]. intros getUrl. apply only_bind; [by apply sign_only|]. intros deleteUrl.
    apply only_bind; [apply only_bind; [auto with transfer|intros m; apply only_result]|]. intros ms.
    apply only_bind; [by apply emits_note, only_one|]. intros _. apply only_bind; [auto with transfer|]. intros m.
    destruct (transfer_answer m); [|auto with transfer]. apply only_bind; [by apply emits_note, only_one|auto with transfer].
  - intros e. apply delete_then. by apply only_one.
Qed.

Lemma waitForEntry_no_upload fuel timeoutMs : emits (waitForEntry fuel timeoutMs) (only no_upload).
Proof.
  apply only_bind; [|auto with transfer]. eapply emits_weaken; [apply waitTransfer_watched|]. intros r evs [H _].
  eapply Forall_impl; [exact H|]. by intros [].
Qed.

(** After the upload: an import that was accepted, and then the wait, or a deletion. *)
Definition settled (target : StagingObject) (u : RoutedUpload) (r : outcome EntryInfo) (evs : list event) : Prop :=
  Forall no_upload evs /\
  (forall i, r = inl i -> exists s e request, Received s ∈ evs /\ phase s = DONE /\ entry s = Some e /\ i = toEntry e /\
     handed_over target u request evs) /\
  (forall e, r = inr (Some e) -> Deleting target ∈ evs \/ exists id request, Imported id ∈ evs /\ handed_over target u request evs).

Lemma import_settles fuel target u user metadata d getLifetime now : emits (
  do id <- catch (
    do getUrl <- sign (GetUrl None) target getLifetime in
    do deleteUrl <- sign DeleteUrl target (exportBudgetSeconds (ru_size u)) in
    do ms <- remaining d (ru_size u) in
    startImport (startImportRequest {|
      i_path := ru_path u; i_user := user; i_mode := ru_mode u; i_target := target; i_getUrl := getUrl; i_deleteUrl := deleteUrl;
      i_waitForObject := false; i_expiresAt := (wallMs now + getLifetime * 1000)%Z; i_maxBytes := Some (ru_size u);
      i_expectedSha256 := Some (ru_digest u); i_metadata := metadata |}))
    (fun e => deleteQuietly target ;; throw e) in
  do ms <- remaining d (ru_size u) in
  waitForEntry fuel (Some ms)) (settled target u).
Proof.
  eapply emits_bind; [apply emits_and; [apply import_emits|apply import_no_upload]| |].
  - intros [e|] evs [H Hn]; (split_and!; [done|done|]); [|done]. intros ? _. by left.
  - intros id evs2 [(Hi & request & Hr) Hn].
    eapply emits_bind; [apply remaining_any| |].
    + intros e ? ->. rewrite app_nil_r. split_and!; [done|done|]. intros ? _. right. by exists id, request.
    + intros ms ? ->. cbn [app]. eapply emits_weaken; [apply emits_and; [apply waitForEntry_reports|apply waitForEntry_no_upload]|].
      intros r evs3 [H3 Hn3]. pose proof (handed_over_app target u request [] evs2 evs3 Hr) as Hr'. cbn [app] in Hr'.
      split_and!; [by apply Forall_app| |].
      * intros i Ei. destruct (H3 i Ei) as (s' & e & H4 & H5 & H6 & H7). exists s', e, request. split_and!; [set_solver|done..].
      * intros e _. right. exists id, request. split; [set_solver|done].
Qed.

(** The programs below are compared as they are written, not by what they compute. *)
#[local] Opaque bind catch startImport waitForEntry remaining sign deleteQuietly startImportRequest.

(** C32. What a routed write does with the object it stages.  If it returns, it returns
    the entry of an import that is done, asked for with the object it uploaded, its digest
    and its size.  If it throws after the upload succeeded, a deletion of the object was
    sent, or the agent had accepted the import of that very object with the URL that was
    signed to delete it.  If it throws a time-out before the upload succeeded, a deletion of
    the object was sent.  (The claim ends there: an upload that fails otherwise is deleted
    by nobody, and one that starts after the deadline is not stopped, so its object may
    appear after the deletion: [late_upload_not_stopped].) *)
Theorem write_cleans sandboxId planeRegion fuel staging u user metadata d w :
  exists evs, log (importUpload sandboxId planeRegion fuel staging u user metadata d w).2 = log w ++ evs /\
  write_accounts u (importUpload sandboxId planeRegion fuel staging u user metadata d w).1 evs.
Proof.
  revert w. change (emits (importUpload sandboxId planeRegion fuel staging u user metadata d) (write_accounts u)). unfold importUpload.
  apply emits_staging; [split_and!; set_solver|]. intros s _. apply emits_target. intros tok. set (target := target_of sandboxId planeRegion s up tok).
  eapply emits_bind; [apply upload_or_delete| |].
  - intros e evs (Hg & Hu & Hd). split_and!; [done|intros ? _ t Ht; by apply Hu in Ht|].
    intros e' [= ->] Ht t Hin. right. rewrite (Hg t Hin). by apply (Hd e').
  - intros _ evs1 (Hg & Hu & Hu'). apply emits_now. intros now. eapply emits_weaken; [apply import_settles|].
    intros r evs2 (Hn & Hi & He).
    assert (forall e, ~ no_upload e -> e ∈ evs1 ++ evs2 -> e ∈ evs1) as Hfirst.
    { intros e H [?|Hin]%elem_of_app; [done|]. by apply (not_uploaded e evs2) in Hin. }
    assert (forall request, handed_over target u request evs2 -> handed_over target u request (evs1 ++ evs2)) as Hh.
    { intros request H. apply (handed_over_app _ _ _ evs1 evs2 []) in H. by rewrite app_nil_r in H. }
    split_and!.
    + intros i Ei. destruct (Hi i Ei) as (s' & e & request & H4 & H5 & H6 & H7 & H8).
      exists s', e, target, request. split_and!; [set_solver|done|done|done|set_solver|by apply Hh].
    + intros e Ee t Ht. apply Hfirst in Ht; [|by intros []]. rewrite (Hu' t Ht).
      destruct (He e Ee) as [Hd|(id & request & H1 & H2)]; [left; set_solver|]. right. exists id, request. split; [set_solver|by apply Hh].
    + intros e _ _ t Ht. apply Hfirst in Ht; [|by intros []]. rewrite (Hg t Ht). left. set_solver.
Qed.

#[local] Transparent bind catch startImport waitForEntry remaining sign deleteQuietly startImportRequest.

(** ** Tickets *)

(** The URL of the user: a PUT, or a form with the limit of the ticket. *)
Definition user_url (form : bool) (maxBytes : option Z) : url_kind :=
  if form then PostForm (default TRANSFER_SINGLE_PUT_MAX_BYTES maxBytes) else PutUrl.

Lemma user_url_one (form : bool) maxBytes target lifetime :
  emits (if form then sign_form (default TRANSFER_SINGLE_PUT_MAX_BYTES maxBytes) target lifetime
         else do url <- sign PutUrl target lifetime in ret (url, []))
    (fun r evs => evs = [Signed (user_url form maxBytes) target lifetime (match r with inl signed => Some signed.1 | inr _ => None end)]).
Proof.
  destruct form; cbn [user_url].
  - apply emits_awaited. intros m. destruct (form_answer m) as [f|e].
    + by apply (emits_noted _ (fun _ => ret f)), emits_ret.
    + by apply (emits_noted _ (fun _ => throw e)), emits_throw.
  - eapply emits_bind; [apply sign_one|done|]. intros url ? ->. by apply emits_ret.
Qed.

Lemma probe_silent : emits requireSupport (fun _ evs => evs = []).
Proof.
  assert (emits supportsTransfers (fun _ evs => evs = [])) as H.
  { unfold supportsTransfers. eapply (emits_bind _ _ (fun _ evs => evs = [])); [by apply emits_get|done|]. intros w ? ->.
    destruct (supported w); [by apply emits_ret|]. eapply (emits_bind _ _ (fun _ evs => evs = [])); [|done|].
    - apply emits_awaited. intros m. destruct (state_answer m); [by apply emits_ret|by apply emits_sum].
    - intros b ? ->. eapply (emits_bind _ _ (fun _ evs => evs = [])); [by apply emits_silent|done|]. intros _ ? ->. by apply emits_ret. }
  eapply emits_bind; [exact H|done|]. intros b ? ->. destruct b; [by apply emits_ret|by apply emits_throw].
Qed.

(** What a ticket promises. *)
Record ticket_armed (s : ResolvedS3Staging) (maxBytes : option Z) (t : UploadTicket) (target : StagingObject) (lifetime : Z)
    (request : StartImportRequest) (evs : list event) : Prop := {
  ta_key : so_bucket target = bucket s /\ under (prefix s) (so_key target);
  ta_lifetime : (1 <= lifetime <= maxExpiresIn s)%Z;
  ta_request : si_object request = target /\ si_path request = t_path t /\ si_waitForObject request = true /\
    si_expiresAtUnixMs request = t_expiresAt t /\ si_maxBytes request = default 0%Z maxBytes;
  ta_events : evs = [Signed (user_url (t_form t) maxBytes) target lifetime (Some (t_url t)); Signed (GetUrl None) target lifetime (Some (si_get request));
                     Signed DeleteUrl target (deleteLifetime lifetime) (Some (si_delete request)); Importing request; Imported (t_transferId t)];
  ta_delete : (lifetime <= deleteLifetime lifetime <= TRANSFER_PRESIGN_MAX_SECONDS)%Z
}.

Lemma effective_bounds v s l : staging_ok s -> effectiveExpiresIn v s = Ok l ->
  (1 <= l <= maxExpiresIn s)%Z /\ (l <= deleteLifetime l <= TRANSFER_PRESIGN_MAX_SECONDS)%Z.
Proof.
  intros [_ _ _ He _ _] (e & Hv & [= <-])%bind_ok. unfold validateExpiresIn in Hv. unfold deleteLifetime, cappedLifetime, DELETE_GRACE_SECONDS.
  destruct v as [| | |n|]; try done. destruct (integer_of n); [|done]. destruct (Z.leb_spec z 0); [done|]. injection Hv as <-. lia.
Qed.

(** A ticket is handed out armed: whenever [uploadUrl] returns one, the agent has
    accepted the import of exactly the object whose URL the ticket holds, which is in the
    staging area and lives for at least a second and at most what the configuration admits,
    with the path, the limit and the end that the ticket says; the URL with which the agent
    deletes the object lives at least as long as the others, and nothing else was signed. *)
Theorem ticket_is_armed sandboxId planeRegion input e s path o w t : resolveS3Staging input e = Ok (Some s) ->
  (uploadUrl sandboxId planeRegion (Some s) path o w).1 = inl t ->
  exists maxBytes target lifetime request evs, log (uploadUrl sandboxId planeRegion (Some s) path o w).2 = log w ++ evs /\
    validateMaxBytes (u_maxBytes o) = Ok maxBytes /\ t_path t = path /\ t_form t = u_form o /\
    ticket_armed s maxBytes t target lifetime request evs.
Proof.
  intros Hs%resolved_ok. assert (emits (uploadUrl sandboxId planeRegion (Some s) path o) (fun r evs => forall t, r = inl t ->
    exists maxBytes target lifetime request, validateMaxBytes (u_maxBytes o) = Ok maxBytes /\ t_path t = path /\ t_form t = u_form o /\
      ticket_armed s maxBytes t target lifetime request evs)) as H.
  { unfold uploadUrl. apply emits_staging; [done|]. intros s' [= <-].
    eapply (emits_bind _ _ (fun r evs => evs = [] /\ forall m, r = inl m -> validateMaxBytes (u_maxBytes o) = Ok m)); [|done|].
    { apply emits_result; [intros a Ha|done]. split; [done|]. by intros m [= <-]. }
    intros maxBytes ? [-> Hm]. specialize (Hm _ eq_refl).
    eapply (emits_bind _ _ (fun r evs => evs = [] /\ forall l, r = inl l -> exists v, effectiveExpiresIn v s = Ok l)); [|done|].
    { apply emits_result; [intros a Ha|done]. split; [done|]. intros l [= <-]. by eexists. }
    intros l ? [-> Hl]. destruct (Hl _ eq_refl) as [v Hv]. destruct (effective_bounds v s l Hs Hv) as [Hb Hd].
    eapply emits_bind; [apply probe_silent|done|]. intros _ ? ->. apply emits_target. intros tok. apply emits_now. intros now.
    eapply emits_bind; [apply user_url_one|done|]. intros signed ? ->. eapply emits_bind; [apply sign_one|done|]. intros getUrl ? ->.
    eapply emits_bind; [apply sign_one|done|]. intros deleteUrl ? ->. set (request := startImportRequest _).
    eapply (emits_bind _ _ (fun r evs => forall id, r = inl id -> evs = [Importing request; Imported id])); [|done|].
    { apply (emits_noted _ (fun _ => bind await _)), emits_awaited. intros m. destruct (transfer_answer m) as [id|f]; [|by apply emits_throw].
      apply (emits_noted _ (fun _ => ret id)), emits_ret. by intros ? [= <-]. }
    intros id evs H. specialize (H id eq_refl) as ->. apply emits_ret. intros t' [= <-].
    exists maxBytes, (target_of sandboxId planeRegion s up tok), l, request. split_and!; try done. split; try done. split; [done|]. apply stagingKey_under. }
  destruct (H w) as (evs & El & Hq). intros Ht. destruct (Hq t Ht) as (mb & target & l & request & H1 & H2 & H3 & H4).
  exists mb, target, l, request, evs. done.
Qed.

(** ** Reading an exported object *)

Definition pull_accounts (sha256_of : list N -> text) (x : ExportedObject) (seen : list N) (r : outcome pulled) (evs : list event) : Prop :=
  match r with
  | inl (Enqueued _) => True
  | inl Closed => sha256_of seen = x_sha256 x /\ Deleting (x_target x) ∈ evs
  | inr (Some _) => Deleting (x_target x) ∈ evs
  | inr None => True
  end.

Lemma read_failed_deletes {A} x e : emits (read_failed x e : M A) (fun r evs => Deleting (x_target x) ∈ evs /\ r = inr (Some e)).
Proof.
  apply (emits_noted _ (fun _ => deleteQuietly (x_target x) ;; throw e)), delete_then. set_solver.
Qed.

Lemma pull_reports sha256_of x idleMs d seen : emits (pull sha256_of x idleMs d seen) (pull_accounts sha256_of x seen).
Proof.
  unfold pull. eapply (emits_bind _ _ (fun r evs => match r with inr (Some _) => Deleting (x_target x) ∈ evs | _ => True end)).
  - eapply (emits_catch _ _ (fun _ _ => True)).
    + apply emits_true, only_bind; [|intros bounded; apply only_bind; [auto with transfer|intros m]].
      * destruct d; cbn [budget_of]; [|auto with transfer]. apply only_bind; [|auto with transfer]. apply only_bind; [auto with transfer|].
        intros m. apply only_result.
      * destruct (idleMs && idle m); [auto with transfer|]. destruct (bounded && expires m); [auto with transfer|]. apply only_sum.
    + intros [a|[e|]] evs _ Hn; [done|by destruct (Hn e)|done].
    + intros e evs _. eapply emits_weaken; [apply read_failed_deletes|]. intros r more [H ->]. set_solver.
  - intros [e|] evs H; exact H.
  - intros [chunk|] evs _; [by apply emits_ret|]. eapply emits_bind; [apply delete_emits|by intros ? ? [_ [=]]|]. intros _ ? [-> _].
    destruct (bool_decide _) eqn:Eb; [apply emits_ret|apply emits_throw]; cbn; [apply bool_decide_eq_true in Eb; split; [done|]|]; set_solver.
Qed.

Definition read_accounts (sha256_of : list N -> text) (x : ExportedObject) (r : outcome (list N * bool)) (evs : list event) : Prop :=
  match r with
  | inl (bytes, ended) => (ended = true -> sha256_of bytes = x_sha256 x) /\ Deleting (x_target x) ∈ evs
  | inr (Some _) => Deleting (x_target x) ∈ evs
  | inr None => True
  end.

Lemma read_reports sha256_of fuel x idleMs d cancel_after seen : emits (read_exported sha256_of fuel x idleMs d cancel_after seen) (read_accounts sha256_of x).
Proof.
  revert cancel_after seen. induction fuel as [|fuel IH]; intros cancel_after seen; cbn [read_exported]; [by apply emits_fuel|].
  assert (emits (do p <- pull sha256_of x idleMs d seen in
    match p with Closed => ret (seen, true) | Enqueued chunk => read_exported sha256_of fuel x idleMs d (pred <$> cancel_after) (seen ++ chunk) end) (read_accounts sha256_of x)) as Hp.
  { eapply emits_bind; [apply pull_reports|by intros [e|]|]. intros [chunk|] evs H.
    - eapply emits_weaken; [apply IH|]. intros [[bytes ended]|[e|]] more Hr; cbn in *; [|set_solver|done]. destruct Hr as [H1 H2]. split; [done|set_solver].
    - apply emits_ret. rewrite app_nil_r. by destruct H. }
  destruct cancel_after as [[|n]|]; [|exact Hp..]. eapply (emits_bind _ _ (fun r evs => Deleting (x_target x) ∈ evs /\ r = inl tt)).
  - apply (emits_noted _ (fun _ => bind await _)), emits_awaited. intros m. eapply emits_weaken; [apply delete_emits|]. intros r evs [-> ->]. set_solver.
  - by intros e evs [_ [=]].
  - intros _ evs [H _]. apply emits_ret. rewrite app_nil_r. by split.
Qed.

(** What is read of an export is what was exported, and it is not left behind: a reader
    that comes to the end was given bytes with the digest of the export, and a read that
    ends, cut short by its consumer or by a failure, sent a deletion of the object; only a
    read with a deadline may fail before it has anything to delete with. *)
Theorem read_is_checked sha256_of fuel s x idleMs d cancel_after w :
  exists evs, log (streamExported sha256_of fuel (Some s) x idleMs d cancel_after w).2 = log w ++ evs /\
  match (streamExported sha256_of fuel (Some s) x idleMs d cancel_after w).1 with
  | inl (bytes, ended) => (ended = true -> sha256_of bytes = x_sha256 x) /\ Deleting (x_target x) ∈ evs
  | inr (Some _) => d = None -> Deleting (x_target x) ∈ evs
  | inr None => True
  end.
Proof.
  revert w. change (emits (streamExported sha256_of fuel (Some s) x idleMs d cancel_after) (fun r evs => match r with
    | inl (bytes, ended) => (ended = true -> sha256_of bytes = x_sha256 x) /\ Deleting (x_target x) ∈ evs
    | inr (Some _) => d = None -> Deleting (x_target x) ∈ evs | inr None => True end)).
  unfold streamExported. eapply (emits_bind _ _ (fun r evs => forall e, r = inr (Some e) -> d = None -> Deleting (x_target x) ∈ evs)).
  - eapply (emits_bind _ _ (fun r evs => evs = [] /\ r = inl s)); [by apply emits_ret|by intros ? ? [_ [=]]|]. intros s' ? [-> _].
    apply (emits_noted _ (fun _ => bind (budget_of d (x_size x)) _)).
    eapply (emits_bind _ _ (fun r evs => forall e, r = inr (Some e) -> d <> None)); [|intros e evs H f [= ->] Hd; by destruct (H f eq_refl)|].
    { destruct d; cbn [budget_of]; [|by apply emits_ret]. eapply emits_weaken; [apply (only_bind (fun _ => True))|done].
      - apply only_bind; [auto with transfer|]. intros m. apply only_result.
      - auto with transfer. }
    intros bounded evs _. eapply (emits_catch _ _ (fun _ _ => True)).
    + apply emits_true, only_bind; [auto with transfer|]. intros m. destruct (bounded && expires m); [auto with transfer|apply only_option].
    + intros r more _ Hn e Er. by destruct (Hn e).
    + intros e more _. eapply emits_weaken; [apply read_failed_deletes|]. intros r more' [H _] f _ _. set_solver.
  - intros [e|] evs H; [|done]. by apply (H e).
  - intros _ evs _. eapply emits_weaken; [apply read_reports|]. intros [[bytes ended]|[e|]] more Hr; cbn in *; [|set_solver|done].
    destruct Hr. split; [done|set_solver].
Qed.
End Client.

(** ** Samples *)

Definition sample_state (p : Phase) : TransferState unit := {|
  transferId := txt "t-1"; direction := IMPORT; phase := p; bytesDone := 7; bytesTotal := 7; probes := 1; error := None;
  entry := Some tt; sha256 := txt "ab"; partEtags := [txt "e1"] |}.

(** Everything succeeds, and a watch begins with a transfer that is running. *)
Definition sample_moment (next : @watch_answer unit) (late : bool) (now : Q) : @moment unit := {|
  url_answer := inl (txt "https://s3"); form_answer := inl (txt "https://s3", []); upload_id_answer := inl (txt "u-1");
  s3_answer := None; transfer_answer := inl (txt "t-1"); state_answer := inl (sample_state RUNNING); rpc_answer := None;
  read_answer := inl None; open_answer := inl (StateEvent (sample_state RUNNING)); next_answer := next; idle := false;
  reconnect_answer := inr (simple SandboxError); streamFailure := fun e => e; expires := late; closed := false;
  token := txt "00ff"; clock := now; wallMs := 1000 |}.

Definition running : watch_answer := WatchMessage (StateEvent (sample_state RUNNING)).
Definition ended_ : watch_answer := WatchMessage (StateEvent (sample_state DONE)).

Definition new_world : @World unit := {|
  used := 0; streams := 0; live := []; listening := None; timer := false; signalled := false; supported := None; log := [] |}.

Definition calm_env (n : nat) : @moment unit := sample_moment ended_ false 0.

Lemma new_world_idle : idle_world [] new_world.
Proof. by split. Qed.

Lemma wait_reports_witness :
  (waitForEntry (fun e : unit => e) calm_env 9 (Some 5000%Z) new_world).1 = inl tt /\ idle_world [] (waitTransfer calm_env 9 (Some 5000%Z) false new_world).2.
Proof.
  destruct (wait_reports (fun e : unit => e) calm_env 9 (Some 5000%Z) false [] new_world new_world_idle) as (_ & _ & H).
  split; [reflexivity|exact H].
Defined.

Lemma calm_settles : settles calm_env 0.
Proof. intros i _. split; [|done]. by intros e [= <-]. Qed.

Lemma wait_ends_witness : (waitTransfer calm_env 7 None false new_world).1 <> inr None.
Proof. apply (wait_ends calm_env 0 7 None false new_world calm_settles). cbn. lia. Defined.

Definition sample_ticket_options : UploadUrlOptions := {| u_user := None; u_expiresIn := VNumber (num_of_Z 600); u_maxBytes := VUndefined; u_form := false |}.

Definition sample_ticket : UploadTicket := {|
  t_url := txt "https://s3"; t_form := false; t_headers := [(txt "Content-Type", OCTET_STREAM)]; t_fields := []; t_path := txt "/x";
  t_expiresAt := 601000; t_transferId := txt "t-1" |}.

Lemma ticket_is_armed_witness : exists maxBytes target lifetime request evs,
  (uploadUrl calm_env (txt "mvm-1") (txt "us-east-1") (Some sample_staging) (txt "/x") sample_ticket_options new_world).1 = inl sample_ticket /\
  ticket_armed (Entry := unit) sample_staging maxBytes sample_ticket target lifetime request evs.
Proof.
  destruct (ticket_is_armed calm_env (txt "mvm-1") (txt "us-east-1") sample_input no_environment sample_staging (txt "/x")
    sample_ticket_options new_world sample_ticket sample_resolved eq_refl) as (mb & target & l & request & evs & _ & _ & _ & _ & H).
  exists mb, target, l, request, evs. split; [reflexivity|exact H].
Defined.

Definition sample_export : ExportedObject := {| x_target := {| so_bucket := txt "transfers"; so_key := txt "k"; so_region := txt "us-east-1" |};
  x_transferId := txt "t-1"; x_sha256 := txt "ab"; x_size := 7 |}.

Definition sample_digest (bytes : list N) : text := if bool_decide (bytes = [1%N; 2%N]) then txt "ab" else txt "cd".

(** The reader is given two chunks and the end. *)
Definition read_env (n : nat) : @moment unit :=
  let m := calm_env n in {|
    url_answer := url_answer m; form_answer := form_answer m; upload_id_answer := upload_id_answer m; s3_answer := s3_answer m;
    transfer_answer := transfer_answer m; state_answer := state_answer m; rpc_answer := rpc_answer m;
    read_answer := inl (match n with 1 => Some [1%N] | 2 => Some [2%N] | _ => None end);
    open_answer := open_answer m; next_answer := next_answer m; idle := false; reconnect_answer := reconnect_answer m;
    streamFailure := streamFailure m; expires := false; closed := false; token := token m; clock := clock m; wallMs := wallMs m |}.

Lemma read_is_checked_witness :
  (streamExported read_env sample_digest 9 (Some sample_staging) sample_export false None None new_world).1 = inl ([1%N; 2%N], true) /\
  sample_digest [1%N; 2%N] = x_sha256 sample_export.
Proof.
  destruct (read_is_checked read_env sample_digest 9 sample_staging sample_export false None None new_world) as (evs & _ & H).
  split; [vm_compute; reflexivity|]. vm_compute in H. exact (proj1 H eq_refl).
Defined.

(** ** What the code does besides *)

(** The deadline passes while the stream is being opened: the listener that would stop it
    is added to a signal that was aborted, and the watch goes on, unheard, to the end of the
    transfer. *)
Definition late_env (n : nat) : @moment unit := sample_moment (if (n <=? 5)%nat then running else ended_) (n =? 0) 0.

Example late_stream_still_read :
  let (r, w) := waitTransfer late_env 20 (Some 5000%Z) false new_world in
  r = inr (Some transferDeadlineError) /\ used w = 7 /\ last (log w) = Some (Received (sample_state DONE)).
Proof. by vm_compute. Qed.

Definition spent_deadline : OperationDeadline := {| startedAt := 0; budgetFor := fun _ => 1000%Q; explicit := true |}.

(** A routed write whose deadline passed before it: the upload is started, its object is
    deleted, and the upload is neither stopped nor waited for. *)
Example late_upload_not_stopped :
  let env (n : nat) := sample_moment ended_ false 2000%Q in
  let u := {| ru_path := txt "/x"; ru_mode := None; ru_known := true; ru_size := 7; ru_digest := txt "ab" |} in
  let (r, w) := importUpload (fun e : unit => e) env (txt "mvm-1") (txt "us-east-1") 20 (Some sample_staging) u None [] spent_deadline new_world in
  let target := target_of (txt "mvm-1") (txt "us-east-1") sample_staging up (txt "00ff") in
  r = inr (Some (simple TimeoutError)) /\ log w = [Uploading target; Deleting target].
Proof. by vm_compute. Qed.

(** A routed read whose deadline passed during the export: the object is asked for, and
    neither stopped nor deleted. *)
Example expired_read_leaves_object :
  let env (n : nat) := sample_moment ended_ false 2000%Q in
  let (r, w) := streamExported env sample_digest 20 (Some sample_staging) sample_export false (Some spent_deadline) None new_world in
  r = inr (Some (simple TimeoutError)) /\ log w = [Getting (x_target sample_export)].
Proof. by vm_compute. Qed.
