(* ===== verification/SecretNames.v ===== *)
(** * SecretNames: references, names and versions of secrets

    src/clients/typescript/src/secrets/names.ts, its pure part: [SecretRef], the names under
    a prefix, the integer version written into a [ClientRequestToken], the metadata
    written into a [Description], and the values a store accepts.  A string is the list of
    its code units.  [decodeMetadata] is left out. *)

From stdpp Require Import base option list strings sets.
From Stdlib Require Import NArith ZArith Lia.
From S2P Require Import Prelude Text JsMap Json Payload GitArgs.

Local Open Scope N_scope.

(** ** Limits and texts *)

Definition DEFAULT_SECRET_PREFIX : text := txt "rayito/".
Definition WEBHOOK_SECRET_PREFIX : text := DEFAULT_SECRET_PREFIX ++ txt "webhooks/".
Definition SECRET_ARN_NAME_MARKER : text := txt ":secret:".
Definition VERSION_TOKEN_PREFIX : text := txt "rayito-secret-version-".
Definition METADATA_PREFIX : text := txt "rayito:v1:".
Definition DESCRIPTION_MAX_CHARS : nat := 2048.
Definition SECRET_STRING_MAX_BYTES : N := 65536.
Definition SECRET_ID_MAX_CHARS : nat := 512.
Definition LIST_MAX_RESULTS : Z := 100.
Definition CURRENT_STAGE : text := txt "AWSCURRENT".
Definition ARN : text := txt "arn:".
Definition VERSION_DIGITS : nat := 20.
Definition ZERO : N := 48.
Definition BAR : N := 124.

(** [SECRET_NAME_PATTERN], on one character. *)
Definition name_char (c : N) : bool :=
  is_digit c || ((65 <=? c) && (c <=? 90)) || ((97 <=? c) && (c <=? 122)) || bool_decide (c ∈ txt "/_+=.@-").
Definition secret_name (s : text) : bool := negb (bool_decide (s = [])) && forallb name_char s.

(** ** References *)

Record SecretRef := { name : text; versionId : option text; versionStage : option text }.

#[export] Instance SecretRef_eq_dec : EqDecision SecretRef.
Proof. solve_decision. Defined.

Definition present {A} (s : option A) : bool := match s with Some _ => true | None => false end.
Definition empty_text (s : option text) : bool := bool_decide (s = Some []).

Definition new_SecretRef (name : text) (versionId versionStage : option text) : result SecretRef :=
  _ ← throw_if (bool_decide (name = [])) InvalidArgumentError;
  _ ← throw_if (present versionId && present versionStage) InvalidArgumentError;
  _ ← throw_if (empty_text versionId || empty_text versionStage) InvalidArgumentError;
  Ok {| name := name; versionId := versionId; versionStage := versionStage |}.

Definition selector (r : SecretRef) : text :=
  match versionId r with
  | None => txt "VersionStage:" ++ default CURRENT_STAGE (versionStage r)
  | Some id => txt "VersionId:" ++ id
  end.

(** What a caller passes for a secret; a value of another type is [NotASecret]. *)
Inductive SecretLike := Named (s : text) | Ref (r : SecretRef) | NotASecret.

Definition asRef (secret : SecretLike) : result SecretRef :=
  match secret with
  | Ref r => Ok r
  | Named s => new_SecretRef s None None
  | NotASecret => Throw InvalidArgumentError
  end.

(** ** Versions *)

(** [s.padStart(n, "0")]. *)
Definition padStart (n : nat) (s : text) : text := replicate (n - length s)%nat ZERO ++ s.

Definition versionToken (version : Z) : result text :=
  if (version <? 1)%Z then Throw InvalidArgumentError
  else Ok (VERSION_TOKEN_PREFIX ++ padStart VERSION_DIGITS (print_Z version)).

(** [VERSION_TOKEN_PATTERN.exec(id)]: what the group holds. *)
Definition version_digits (id : text) : option text :=
  if starts_with VERSION_TOKEN_PREFIX id then
    let digits := drop (length VERSION_TOKEN_PREFIX) id in
    if bool_decide (length digits = VERSION_DIGITS) && forallb is_digit digits then Some digits else None
  else None.

Definition versionFromId (versionId : option text) : Z :=
  match id ← versionId; version_digits id with None => 0%Z | Some digits => Z.of_N (parse_nat 10 digits) end.

(** [VersionIdsToStages]: the labels of each version, in order of insertion. *)
Abbreviation Stages := (list (text * option (list text))).

Definition is_current (e : text * option (list text)) : bool :=
  match e.2 with Some labels => bool_decide (CURRENT_STAGE ∈ labels) | None => false end.

Definition currentVersion (stages : option Stages) : Z :=
  match List.find is_current (property_order (default [] stages)) with
  | Some (id, _) => versionFromId (Some id)
  | None => 0%Z
  end.

Definition latestVersion (stages : option Stages) : Z :=
  foldr Z.max 0%Z ((fun e => versionFromId (Some e.1)) <$> property_order (default [] stages)).

(** ** Metadata, names and values *)

Definition encodeMetadata (metadata : option entries) : result text :=
  values ← validated_entries (sort_by key_cmp (property_order (default [] metadata)));
  let encoded := METADATA_PREFIX ++ stringify (string_object (property_order values)) in
  if (DESCRIPTION_MAX_CHARS <? length encoded)%nat then Throw InvalidArgumentError else Ok encoded.

Definition validatePrefix (prefix : text) : result text :=
  if negb (bool_decide (prefix = [])) && negb (secret_name prefix) then Throw InvalidArgumentError else Ok prefix.

Definition resolveSecretId (name prefix : text) : result text :=
  if bool_decide (name = []) then Throw InvalidArgumentError
  else if starts_with ARN name then Ok name
  else let secretId := prefix ++ name in
    if (SECRET_ID_MAX_CHARS <? length secretId)%nat || negb (secret_name secretId) then Throw InvalidArgumentError
    else Ok secretId.

(** The name a [SecretId] stands for. *)
Definition name_of_id (secretId : text) : text :=
  match find_text SECRET_ARN_NAME_MARKER secretId with
  | Some marker => if starts_with ARN secretId then drop (marker + length SECRET_ARN_NAME_MARKER) secretId else secretId
  | None => secretId
  end.

Definition refuseWebhookSigningSecret (secretId : text) : result unit :=
  throw_if (starts_with WEBHOOK_SECRET_PREFIX (name_of_id secretId)) InvalidArgumentError.

Definition displayName (awsName prefix : text) : text :=
  if negb (bool_decide (prefix = [])) && starts_with prefix awsName then drop (length prefix) awsName else awsName.

Definition validateValue (value : text) : result text :=
  if bool_decide (value = []) then Throw InvalidArgumentError
  else if SECRET_STRING_MAX_BYTES <? N.of_nat (utf8_length value) then Throw InvalidArgumentError
  else Ok value.

(** ** Versions: lemmas *)

Lemma digit_bounds c : is_digit c = true -> 48 <= c <= 57 /\ digit_value c = c - 48.
Proof. intros H. unfold digit_value. rewrite H. unfold is_digit in H. by rewrite andb_true_iff, !N.leb_le in H. Qed.

Lemma parse_nat_inj a b :
  length a = length b -> Forall (fun c => is_digit c = true) a -> Forall (fun c => is_digit c = true) b ->
  parse_nat 10 a = parse_nat 10 b -> a = b.
Proof.
  revert b. induction a as [|c a IH] using rev_ind; intros b; [by destruct b|].
  destruct b as [|d b _] using rev_ind; rewrite ?length_app; cbn [length]; [lia|].
  intros Hl [Ha Hc]%Forall_app [Hb Hd]%Forall_app. rewrite !parse_nat_app. intros E.
  rewrite Forall_singleton in Hc, Hd. apply digit_bounds in Hc as [Hc Ec], Hd as [Hd Ed]. rewrite Ec, Ed in E.
  assert (a = b) as -> by (apply IH; [lia|done|done|lia]). f_equal. f_equal. lia.
Qed.

Lemma parse_nat_zeros k s : parse_nat 10 (replicate k ZERO ++ s) = parse_nat 10 s.
Proof. induction k as [|k IH]; [done|]. cbn [replicate app]. exact IH. Qed.

Lemma parse_nat_lower c s :
  is_digit c = true -> c <> ZERO -> Forall (fun x => is_digit x = true) s -> 10 ^ N.of_nat (length s) <= parse_nat 10 (c :: s).
Proof.
  intros Hc H0. induction s as [|d s IH] using rev_ind.
  - intros _. apply digit_bounds in Hc as [Hc E]. unfold parse_nat, ZERO in *. cbn [foldl length]. rewrite E. cbn. lia.
  - intros [Hs _]%Forall_app. rewrite app_comm_cons, parse_nat_app, length_app. cbn [length].
    replace (N.of_nat (length s + 1)) with (N.succ (N.of_nat (length s))) by lia. rewrite N.pow_succ_r by lia. specialize (IH Hs). lia.
Qed.

Lemma decimal_digits n : Forall (fun c => is_digit c = true) (print_nat 10 n).
Proof. apply print_nat_digits; [done|exact decimal_digit]. Qed.

Lemma print_nat_length n k : n < 10 ^ N.of_nat k -> n <> 0 -> (length (print_nat 10 n) <= k)%nat.
Proof.
  intros Hn H0. pose proof (decimal_digits n) as Hd. pose proof (parse_print_nat 10 n ltac:(lia)) as Hp.
  pose proof (print_nat_fuel_head (S (N.size_nat n)) n ltac:(lia) H0) as Hh. change (print_nat_fuel _ _ _ _) with (print_nat 10 n) in Hh.
  destruct (print_nat 10 n) as [|c s]; [cbn; lia|]. apply Forall_cons in Hd as [Hc Hs].
  pose proof (parse_nat_lower c s Hc ltac:(intros ->; by apply Hh) Hs) as Hl. rewrite Hp in Hl.
  assert (N.of_nat (length s) < N.of_nat k) by (apply (N.pow_lt_mono_r_iff 10); lia). cbn [length]. lia.
Qed.

Lemma version_digits_Some id digits :
  version_digits id = Some digits <->
  id = VERSION_TOKEN_PREFIX ++ digits /\ length digits = VERSION_DIGITS /\ Forall (fun c => is_digit c = true) digits.
Proof.
  unfold version_digits. split.
  - destruct (starts_with _ id) eqn:Ep; [|done]. apply starts_with_true in Ep as [r ->]. rewrite drop_app_length.
    destruct (bool_decide_reflect (length r = VERSION_DIGITS)) as [Hl|]; [|done]. cbn [andb].
    destruct (forallb is_digit r) eqn:Hd; [|done]. intros [= <-]. split_and!; [done..|].
    by apply (proj1 (forallb_Forall is_digit (fun c => is_digit c = true) r (fun c => conj (fun H => H) (fun H => H)))).
  - intros (-> & Hl & Hd). rewrite starts_with_app, drop_app_length, bool_decide_true by done. cbn [andb].
    rewrite (proj2 (forallb_Forall is_digit (fun c => is_digit c = true) digits (fun c => conj (fun H => H) (fun H => H)))); done.
Qed.

Lemma version_bound digits :
  length digits = VERSION_DIGITS -> Forall (fun c => is_digit c = true) digits -> parse_nat 10 digits < 10 ^ 20.
Proof.
  intros Hl Hd. change (10 ^ 20) with (10 ^ N.of_nat VERSION_DIGITS). rewrite <- Hl. clear Hl.
  induction digits as [|c s IH] using rev_ind; [by vm_compute|]. apply Forall_app in Hd as [Hs Hc]. rewrite Forall_singleton in Hc.
  rewrite parse_nat_app, length_app. cbn [length]. replace (N.of_nat (length s + 1)) with (N.succ (N.of_nat (length s))) by lia.
  rewrite N.pow_succ_r by lia. specialize (IH Hs).
  apply digit_bounds in Hc as [Hc ->]. lia.
Qed.

Definition MAX_VERSION : Z := 10 ^ 20.

(** The token of a version is the only [VersionId] that reads as it. *)
Lemma version_roundtrip id n :
  (0 < n < MAX_VERSION)%Z -> versionFromId (Some id) = n <-> versionToken n = Ok id.
Proof.
  unfold MAX_VERSION. intros Hn. unfold versionToken, versionFromId. cbn [mbind option_bind]. rewrite (proj2 (Z.ltb_ge n 1)) by lia.
  unfold print_Z. rewrite (proj2 (Z.ltb_ge n 0)) by lia.
  set (m := Z.to_N n). assert (Z.of_N m = n) as Em by lia.
  assert (length (padStart VERSION_DIGITS (print_nat 10 m)) = VERSION_DIGITS) as Hl.
  { unfold padStart. rewrite length_app, length_replicate.
    pose proof (print_nat_length m VERSION_DIGITS ltac:(change (10 ^ _) with (10 ^ 20); lia) ltac:(lia)). lia. }
  assert (Forall (fun c => is_digit c = true) (padStart VERSION_DIGITS (print_nat 10 m))) as Hd.
  { apply Forall_app. split; [by apply Forall_replicate|apply decimal_digits]. }
  split.
  - destruct (version_digits id) as [digits|] eqn:E; [|lia]. apply version_digits_Some in E as (-> & Hl' & Hd').
    intros E. f_equal. f_equal. apply parse_nat_inj; [lia|done|done|]. unfold padStart. rewrite parse_nat_zeros, parse_print_nat by lia. lia.
  - intros [= <-]. rewrite (proj2 (version_digits_Some _ (padStart VERSION_DIGITS (print_nat 10 m)))) by done.
    unfold padStart. rewrite parse_nat_zeros, parse_print_nat by lia. done.
Qed.

Lemma versionFromId_bounds id : (0 <= versionFromId id < MAX_VERSION)%Z.
Proof.
  unfold versionFromId. destruct id as [id|]; cbn [mbind option_bind]; [|done].
  destruct (version_digits id) as [digits|] eqn:E; [|done]. apply version_digits_Some in E as (_ & Hl & Hd).
  pose proof (version_bound digits Hl Hd). unfold MAX_VERSION. lia.
Qed.

Lemma foldr_max_spec (l : list Z) : (0 <= foldr Z.max 0 l)%Z /\ Forall (fun x => (x <= foldr Z.max 0 l)%Z) l.
Proof.
  induction l as [|x l [H0 IH]]; [done|]. cbn [foldr]. split; [lia|]. constructor; [lia|].
  eapply Forall_impl; [exact IH|]. cbn. lia.
Qed.

Lemma latestVersion_bound stages : (0 <= latestVersion stages)%Z.
Proof. apply foldr_max_spec. Qed.

Lemma latestVersion_above stages id labels :
  (id, labels) ∈ default [] stages -> (versionFromId (Some id) <= latestVersion stages)%Z.
Proof.
  intros Hin. unfold latestVersion. pose proof (foldr_max_spec ((fun e => versionFromId (Some e.1)) <$> property_order (default [] stages))) as [_ H].
  rewrite Forall_forall in H. apply H. apply list_elem_of_fmap. exists (id, labels). split; [done|]. by rewrite property_order_perm.
Qed.

(** The token of the next version is not one of the versions listed. *)
Lemma next_version_fresh stages token :
  (latestVersion stages + 1 < MAX_VERSION)%Z -> versionToken (latestVersion stages + 1) = Ok token ->
  token ∉ (default [] stages).*1.
Proof.
  intros Hb Ht Hin. pose proof (latestVersion_bound stages). apply version_roundtrip in Ht; [|lia].
  apply list_elem_of_fmap in Hin as ([id labels] & -> & Hin). cbn [fst] in Ht. pose proof (latestVersion_above stages id labels Hin). lia.
Qed.

(** ** Names: lemmas *)

Lemma new_SecretRef_ok n v s r : new_SecretRef n v s = Ok r -> name r = n /\ n <> [] /\ versionId r = v /\ versionStage r = s.
Proof.
  unfold new_SecretRef. intros ([] & H%throw_if_ok & (? & _ & (? & _ & [= <-])%bind_ok)%bind_ok)%bind_ok.
  by apply bool_decide_eq_false in H.
Qed.

Lemma resolveSecretId_ok n p id :
  resolveSecretId n p = Ok id -> n <> [] /\ (id = n /\ starts_with ARN n = true \/ id = p ++ n /\ starts_with ARN n = false /\ secret_name id = true).
Proof.
  unfold resolveSecretId. destruct (bool_decide_reflect (n = [])) as [|Hn]; [done|].
  destruct (starts_with ARN n); [intros [= <-]; eauto|].
  destruct (_ || _) eqn:E; [done|]. apply orb_false_iff in E as [_ E%negb_false_iff]. intros [= <-]. eauto.
Qed.
