(* ===== verification/SecretStore.v ===== *)
(** * SecretStore: the secrets of an account

    src/clients/typescript/src/secrets/store.ts: the operations of [SecretStore] over AWS
    Secrets Manager, with the lazy client of aws/optional-client.ts, the retries of a
    creation and the warning about frequent updates.  The service answers as it likes at
    every await; a sleep lasts at least as long as was asked.  Message texts are left out, and
    so is what [decodeMetadata] makes of a description, which is kept as it came. *)

From stdpp Require Import base option list strings sets gmap.
From Stdlib Require Import NArith ZArith QArith Qminmax Lia Lqa.
From S2P Require Import Prelude Text Json Payload GitArgs SecretNames.

Local Open Scope nat_scope.

Definition UPDATE_WARNING_INTERVAL_MS : Q := 600000.
Definition CREATE_RETRY_BUDGET_MS : Q := 60000.
Definition CREATE_RETRY_JITTER : Q := 1 # 4.
Definition CREATE_RETRY_FIRST_DELAY_MS : Q := 500.
Definition CREATE_RETRY_MAX_DELAY_MS : Q := 8000.

(** ** Errors *)

Inductive operation := createSecret | putSecretValue | getSecretValue | describeSecret | updateSecret | listSecrets | deleteSecret.

(** An exception of the client: its [name] and its [message] where they are strings. *)
Record aws_error := { awsCode : option text; aws_message : option text }.

(** An error of the module: its class and its [awsCode]. *)
Record failure := { f_class : error_class; f_code : option text }.

Definition simple (c : error_class) : failure := {| f_class := c; f_code := None |}.

(** The code of each case, its class; the operation only names itself in the message. *)
Definition translations : list (text * error_class) := [
  (txt "ResourceNotFoundException", SecretNotFoundError); (txt "ThrottlingException", RateLimitError);
  (txt "AccessDeniedException", SecretError); (txt "ResourceExistsException", SecretError);
  (txt "LimitExceededException", SecretError)].

Definition translateError (_ : operation) (e : aws_error) : failure := {|
  f_class := match List.find (fun t => bool_decide (awsCode e = Some t.1)) translations with Some (_, c) => c | None => SecretError end;
  f_code := awsCode e |}.

Definition INVALID_REQUEST : text := txt "InvalidRequestException".

Definition isScheduledForDeletion (e : aws_error) : bool :=
  bool_decide (awsCode e = Some INVALID_REQUEST) &&
  match aws_message e with Some m => includes (to_lower m) (txt "delet") | None => false end.

(** ** Data *)

(** [Date]s are milliseconds. *)
Record DescribedSecret := {
  d_ARN : option text; d_Name : option text; d_Description : option text;
  d_CreatedDate : option Z; d_LastChangedDate : option Z; d_DeletedDate : option Z;
  d_VersionIdsToStages : option Stages; d_SecretVersionsToStages : option Stages
}.

(** The [metadata] of an [info]: what the caller gave, or what its description encodes. *)
Inductive MetadataOf := Given (metadata : entries) | Described (description : option text).

Record SecretInfo := {
  secretId : text; i_name : text; i_version : Z; i_metadata : MetadataOf; createdAt : Z; updatedAt : Z
}.

Record SecretPage := { p_items : list SecretInfo; p_nextToken : option text }.

Record CreateInput := {
  ci_Name : text; ci_SecretString : text; ci_Description : text; ci_ClientRequestToken : text; ci_KmsKeyId : option text
}.

Record ListInput := { li_Filter : option text; li_MaxResults : option Z; li_NextToken : option text }.

Record SecretStore := { region : option text; prefix : text; kmsKeyId : option text }.

Definition new_SecretStore (region prefix kmsKeyId : option text) : result SecretStore :=
  prefix ← validatePrefix (default DEFAULT_SECRET_PREFIX prefix);
  _ ← throw_if (empty_text kmsKeyId) InvalidArgumentError;
  Ok {| region := region; prefix := prefix; kmsKeyId := kmsKeyId |}.

Definition infoFromDescription (wall : Z) (d : DescribedSecret) (prefix : text) : SecretInfo :=
  let created := default wall (d_CreatedDate d) in {|
  secretId := default [] (d_ARN d);
  i_name := displayName (default [] (d_Name d)) prefix;
  i_version := currentVersion (match d_VersionIdsToStages d with Some s => Some s | None => d_SecretVersionsToStages d end);
  i_metadata := Described (d_Description d);
  createdAt := created; updatedAt := default created (d_LastChangedDate d) |}.

(** ** The environment *)

(** Why the client could not be made: its package is missing, or it failed to load. *)
Inductive client_failure := MissingPeer | BrokenPeer.

Definition peer_error (f : client_failure) : failure :=
  simple (match f with MissingPeer => InvalidArgumentError | BrokenPeer => OtherError end).

(** What is answered at an await, how long it lasts beyond a sleep, and what [random()] and
    the wall clock give before it. *)
Record moment := {
  awsRegion : option text;
  client_answer : option client_failure;
  create_answer : option text * option text + aws_error;
  put_answer : option aws_error;
  value_answer : option text + aws_error;
  describe_answer : DescribedSecret + aws_error;
  update_answer : option aws_error;
  list_answer : list DescribedSecret * option text + aws_error;
  delete_answer : option aws_error;
  elapsed : Q;
  random : Q;
  wallMs : Z
}.

(** What was sent to Secrets Manager, with its answer where a theorem looks at it. *)
Inductive event :=
  | Creating (input : CreateInput) (answer : option text * option text + aws_error)
  | Putting (id value token : text)
  | Reading (id : text) (versionId versionStage : option text)
  | Describing (id : text) (answer : DescribedSecret + aws_error)
  | Updating (id description : text)
  | Listing (input : ListInput)
  | Deleting (id : text) (answer : option aws_error)
  | Slept (ms : Q)
  | Warned (key : text).

(** [built]: the client exists; [lastUpdates] and [warnedUpdates] are of the module. *)
Record World := {
  used : nat; built : bool; clock : Q; lastUpdates : gmap text Q; warnedUpdates : gset text; log : list event
}.

Definition M (A : Type) : Type := World -> (A + option failure) * World.
Definition ret {A} (a : A) : M A := fun w => (inl a, w).
Definition throw {A} (e : failure) : M A := fun w => (inr (Some e), w).
(** The failure that is no exception: the fuel of the model. *)
Definition out_of_fuel {A} : M A := fun w => (inr None, w).
Definition bind {A B} (m : M A) (k : A -> M B) : M B := fun w =>
  match m w with (inl a, w) => k a w | (inr e, w) => (inr e, w) end.
Definition catch {A} (m : M A) (h : failure -> M A) : M A := fun w =>
  match m w with (inr (Some e), w) => h e w | r => r end.
Definition get : M World := fun w => (inl w, w).
Definition of_result {A} (r : result A) : M A := match r with Ok a => ret a | Throw c => throw (simple c) end.
Definition of_sum {A} (op : operation) (x : A + aws_error) : M A :=
  match x with inl a => ret a | inr e => throw (translateError op e) end.
Definition of_option (op : operation) (x : option aws_error) : M unit :=
  match x with None => ret tt | Some e => throw (translateError op e) end.

Declare Scope store_scope.
Notation "'do' x '<-' m 'in' k" := (bind m (fun x => k)) (at level 10, x name, m at level 100, k at level 200) : store_scope.
Notation "m ';;' k" := (bind m (fun _ => k)) (at level 100, k at level 200, right associativity) : store_scope.
Local Open Scope store_scope.

Definition advance (ms : Q) (evs : list event) (w : World) : World := {|
  used := S (used w); built := built w; clock := (clock w + ms)%Q; lastUpdates := lastUpdates w;
  warnedUpdates := warnedUpdates w; log := log w ++ evs |}.

Definition with_client (w : World) : World := {|
  used := used w; built := true; clock := clock w; lastUpdates := lastUpdates w; warnedUpdates := warnedUpdates w; log := log w |}.

(** [lastUpdates.set(key, now)], and the warning when it was given. *)
Definition noted_update (key : text) (warns : bool) (w : World) : World := {|
  used := used w; built := built w; clock := clock w; lastUpdates := <[key := clock w]> (lastUpdates w);
  warnedUpdates := if warns then {[ key ]} ∪ warnedUpdates w else warnedUpdates w;
  log := log w ++ if warns then [Warned key] else [] |}.

Section Store.
Context (env : nat -> moment) (store : SecretStore).

Definition await (evs : moment -> list event) : M moment := fun w =>
  let m := env (used w) in (inl m, advance (elapsed m) (evs m) w).

(** [sleep(ms)]. *)
Definition sleep (ms : Q) : M unit := fun w => (inl tt, advance (ms + elapsed (env (used w)))%Q [Slept ms] w).

(** What there is before the next await. *)
Definition here : M moment := fun w => (inl (env (used w)), w).

(** [LazyAwsApi.get()]. *)
Definition client : M unit :=
  do w <- get in
  if built w then do _ <- await (fun _ => []) in ret tt
  else
    do m <- here in
    match (match region store with Some r => Some r | None => awsRegion m end) with
    | None | Some [] => throw (simple InvalidArgumentError)
    | Some _ =>
        do m <- await (fun _ => []) in
        match client_answer m with
        | Some f => throw (peer_error f)
        | None => fun w => (inl tt, with_client w)
        end
    end.

Definition call {A} (evs : moment -> list event) (answer : moment -> M A) : M A :=
  client ;; do m <- await evs in answer m.

Definition describe (id : text) : M DescribedSecret :=
  do d <- call (fun m => [Describing id (describe_answer m)]) (fun m => of_sum describeSecret (describe_answer m)) in
  match d_DeletedDate d with
  | Some _ => throw {| f_class := SecretNotFoundError; f_code := Some (txt "ResourceNotFoundException") |}
  | None => ret d
  end.

Definition not_found (e : failure) : bool := instance_of (f_class e) SecretNotFoundError.

(** ** Creating *)

Definition still_scheduled : failure := {| f_class := SecretError; f_code := Some INVALID_REQUEST |}.

Fixpoint create_loop (fuel : nat) (deadline delay : Q) (input : CreateInput) : M (option text * option text) :=
  match fuel with
  | O => out_of_fuel
  | S fuel =>
      do m <- await (fun m => [Creating input (create_answer m)]) in
      match create_answer m with
      | inl response => ret response
      | inr e =>
          if negb (isScheduledForDeletion e) then throw (translateError createSecret e)
          else
            do w <- get in
            let remaining := (deadline - clock w)%Q in
            if Qle_bool remaining 0 then throw still_scheduled
            else
              do m <- here in
              let jitter := (1 + CREATE_RETRY_JITTER * (2 * random m - 1))%Q in
              sleep (Qmin (delay * jitter) remaining) ;;
              create_loop fuel deadline (Qmin (delay * 2) CREATE_RETRY_MAX_DELAY_MS) input
      end
  end.

Definition createWithRetry (fuel : nat) (input : CreateInput) : M (option text * option text) :=
  client ;;
  do w <- get in create_loop fuel (clock w + CREATE_RETRY_BUDGET_MS)%Q CREATE_RETRY_FIRST_DELAY_MS input.

Definition create_input (name value : text) (metadata : option entries) : result CreateInput :=
  _ ← throw_if (starts_with ARN name) InvalidArgumentError;
  id ← resolveSecretId name (prefix store);
  value ← validateValue value;
  description ← encodeMetadata metadata;
  token ← versionToken 1;
  Ok {| ci_Name := id; ci_SecretString := value; ci_Description := description; ci_ClientRequestToken := token;
        ci_KmsKeyId := kmsKeyId store |}.

Definition create (fuel : nat) (name value : text) (metadata : option entries) : M SecretInfo :=
  do input <- of_result (create_input name value metadata) in
  do response <- createWithRetry fuel input in
  do m <- here in
  ret {| secretId := default [] response.1; i_name := displayName (default (ci_Name input) response.2) (prefix store);
         i_version := 1; i_metadata := Given (default [] metadata); createdAt := wallMs m; updatedAt := wallMs m |}.

(** ** Updating *)

Definition update_key (id : text) : text := default [] (region store) ++ [BAR] ++ id.

Definition frequent (key : text) (w : World) : bool :=
  match lastUpdates w !! key with
  | Some previous => negb (Qle_bool UPDATE_WARNING_INTERVAL_MS (clock w - previous)) && negb (bool_decide (key ∈ warnedUpdates w))
  | None => false
  end.

Definition warnIfFrequent (id : text) : M unit := fun w =>
  (inl tt, noted_update (update_key id) (frequent (update_key id) w) w).

Definition update (name value : text) (metadata : option entries) : M SecretInfo :=
  do id <- of_result (resolveSecretId name (prefix store)) in
  do value <- of_result (validateValue value) in
  do description <- of_result (match metadata with None => Ok None | Some _ => d ← encodeMetadata metadata; Ok (Some d) end) in
  do described <- describe id in
  let version := (latestVersion (d_VersionIdsToStages described) + 1)%Z in
  warnIfFrequent id ;;
  do token <- of_result (versionToken version) in
  call (fun _ => [Putting id value token]) (fun m => of_option putSecretValue (put_answer m)) ;;
  match description with
  | Some d => call (fun _ => [Updating id d]) (fun m => of_option updateSecret (update_answer m))
  | None => ret tt
  end ;;
  do m <- here in
  ret {| secretId := default [] (d_ARN described); i_name := displayName (default id (d_Name described)) (prefix store);
         i_version := version;
         i_metadata := match metadata with None => Described (d_Description described) | Some m => Given m end;
         createdAt := default (wallMs m) (d_CreatedDate described); updatedAt := wallMs m |}.

(** ** Looking, listing and destroying *)

Definition getInfo (name : text) : M SecretInfo :=
  do id <- of_result (resolveSecretId name (prefix store)) in
  do described <- describe id in
  do m <- here in ret (infoFromDescription (wallMs m) described (prefix store)).

Definition exists_ (name : text) : M bool :=
  catch (getInfo name ;; ret true) (fun e => if not_found e then ret false else throw e).

Definition list_limit (limit : jsval) : result (option Z) :=
  if is_undefined limit then Ok None
  else match integer_val limit with
       | Some l => if (l <? 1)%Z || (LIST_MAX_RESULTS <? l)%Z then Throw InvalidArgumentError else Ok (Some l)
       | None => Throw InvalidArgumentError
       end.

Definition list_input (limit : jsval) (nextToken : option text) : result ListInput :=
  limit ← list_limit limit;
  Ok {| li_Filter := if bool_decide (prefix store = []) then None else Some (prefix store);
        li_MaxResults := limit; li_NextToken := given nextToken |}.

Definition list_ (limit : jsval) (nextToken : option text) : M SecretPage :=
  do input <- of_result (list_input limit nextToken) in
  do response <- call (fun _ => [Listing input]) (fun m => of_sum listSecrets (list_answer m)) in
  do m <- here in
  ret {| p_items := (fun d => infoFromDescription (wallMs m) d (prefix store)) <$>
                      List.filter (fun d => starts_with (prefix store) (default [] (d_Name d))) response.1;
         p_nextToken := given response.2 |}.

Definition destroy (name : text) : M bool :=
  do id <- of_result (resolveSecretId name (prefix store)) in
  catch (describe id ;;
         call (fun m => [Deleting id (delete_answer m)]) (fun m => of_option deleteSecret (delete_answer m)) ;; ret true)
    (fun e => if not_found e then ret false else throw e).

Definition readValue (r : SecretRef) : M text :=
  do id <- of_result (resolveSecretId (name r) (prefix store)) in
  of_result (refuseWebhookSigningSecret id) ;;
  do value <- call (fun _ => [Reading id (versionId r) (match versionId r with None => versionStage r | Some _ => None end)])
                (fun m => of_sum getSecretValue (value_answer m)) in
  match value with Some v => ret v | None => throw (simple SecretError) end.
End Store.

(** ** Retrying a creation *)

(** Time does not go back, and [random()] is in [0, 1). *)
Definition progress (env : nat -> moment) : Prop := forall n, (0 <= elapsed (env n) /\ 0 <= random (env n) < 1)%Q.

Inductive outcome := Accepted (response : option text * option text) | Rejected (e : aws_error) | GaveUp.

Definition outcome_result (o : outcome) : (option text * option text) + option failure :=
  match o with
  | Accepted response => inl response
  | Rejected e => inr (Some (translateError createSecret e))
  | GaveUp => inr (Some still_scheduled)
  end.

(** The attempts of a creation, how many they are and how long it slept between them:
    another one follows exactly an answer that the name is being deleted. *)
Inductive attempts (input : CreateInput) : outcome -> nat -> Q -> list event -> Prop :=
  | accepted response : attempts input (Accepted response) 1 0 [Creating input (inl response)]
  | rejected e : isScheduledForDeletion e = false -> attempts input (Rejected e) 1 0 [Creating input (inr e)]
  | gave_up e : isScheduledForDeletion e = true -> attempts input GaveUp 1 0 [Creating input (inr e)]
  | again e ms o n slept evs :
      isScheduledForDeletion e = true -> (0 < ms)%Q -> attempts input o n slept evs ->
      attempts input o (S n) (ms + slept) (Creating input (inr e) :: Slept ms :: evs).

(** The least that [n] sleeps take, the first of them around [delay]. *)
Fixpoint least_sleep (n : nat) (delay : Q) : Q :=
  match n with O => 0 | S n => (3 # 4) * delay + least_sleep n (Qmin (delay * 2) CREATE_RETRY_MAX_DELAY_MS) end.

Lemma next_delay d : (0 < d <= CREATE_RETRY_MAX_DELAY_MS -> 0 < Qmin (d * 2) CREATE_RETRY_MAX_DELAY_MS <= CREATE_RETRY_MAX_DELAY_MS)%Q.
Proof. unfold CREATE_RETRY_MAX_DELAY_MS. intros H. destruct (Q.min_spec (d * 2) 8000) as [[H1 ->]|[H1 ->]]; lra. Qed.

Lemma least_sleep_nonneg n d : (0 < d <= CREATE_RETRY_MAX_DELAY_MS -> 0 <= least_sleep n d)%Q.
Proof.
  revert d. induction n as [|n IH]; intros d Hd; cbn [least_sleep]; [lra|].
  specialize (IH _ (next_delay d Hd)). lra.
Qed.

(** A sleep is what is left or at least three quarters of the delay. *)
Lemma sleep_bounds d left r :
  (0 <= r < 1 -> 0 < d -> 0 < left -> let ms := Qmin (d * (1 + CREATE_RETRY_JITTER * (2 * r - 1))) left in
   0 < ms <= left /\ (ms == left \/ (3 # 4) * d <= ms))%Q.
Proof.
  unfold CREATE_RETRY_JITTER. intros Hr Hd Hl.
  assert ((3 # 4) * d <= d * (1 + (1 # 4) * (2 * r - 1)))%Q as Hj by nra.
  destruct (Q.min_spec (d * (1 + (1 # 4) * (2 * r - 1))) left) as [[H1 ->]|[H1 ->]].
  - split; [lra|by right].
  - split; [lra|by left].
Qed.

Lemma create_loop_spec env input n fuel deadline delay w :
  progress env -> (0 < delay <= CREATE_RETRY_MAX_DELAY_MS)%Q -> (deadline - clock w <= least_sleep n delay)%Q -> n < fuel ->
  exists o k slept evs w', create_loop env fuel deadline delay input w = (outcome_result o, w') /\
    log w' = log w ++ evs /\ attempts input o k slept evs /\ k <= S n /\ (slept <= Qmax 0 (deadline - clock w))%Q /\
    (o = GaveUp -> (deadline <= clock w')%Q).
Proof.
  intros Hp. revert fuel delay w. induction n as [|n IH]; intros [|fuel] delay w Hd Hb Hf; [lia| |lia|];
    cbn [create_loop]; unfold bind, await; cbn [fst snd]; set (m := env (used w)); destruct (Hp (used w)) as [He _];
    (destruct (create_answer m) as [response|e] eqn:Ea;
      [exists (Accepted response), 1%nat, 0%Q; do 2 eexists; split_and!; [reflexivity|reflexivity|constructor|lia|apply Q.le_max_l|done]|]);
    (destruct (isScheduledForDeletion e) eqn:Es; cbn [negb];
      [|exists (Rejected e), 1%nat, 0%Q; do 2 eexists; split_and!; [reflexivity|reflexivity|by constructor|lia|apply Q.le_max_l|done]]);
    unfold get, here; cbn [fst snd clock advance used]; fold m;
    (destruct (Qle_bool (deadline - (clock w + elapsed m)) 0) eqn:El;
      [apply Qle_bool_iff in El; exists GaveUp, 1%nat, 0%Q; do 2 eexists; split_and!;
        [reflexivity|reflexivity|by constructor|lia|apply Q.le_max_l|intros _; cbn [clock advance]; lra]|]).
  - exfalso. cbn [least_sleep] in Hb. enough (Qle_bool (deadline - (clock w + elapsed m)) 0 = true) by congruence.
    apply Qle_bool_iff. subst m. lra.
  - assert (0 < deadline - (clock w + elapsed m))%Q as Hleft.
    { destruct (Qlt_le_dec 0 (deadline - (clock w + elapsed m))) as [|Hle]; [done|]. apply Qle_bool_iff in Hle. congruence. }
    destruct (Hp (S (used w))) as [He' Hr].
    pose proof (sleep_bounds delay _ (random (env (S (used w)))) Hr (proj1 Hd) Hleft) as [Hms Hcase].
    unfold sleep. cbn [used advance clock]. set (ms := Qmin _ _) in *.
    match goal with |- context [create_loop env fuel deadline _ input ?w'] => set (w1 := w') end.
    assert (clock w1 == clock w + elapsed m + (ms + elapsed (env (S (used w)))))%Q as Hc by (subst w1; cbn [clock advance]; lra).
    pose proof (least_sleep_nonneg n _ (next_delay delay Hd)) as Hn.
    destruct (IH fuel (Qmin (delay * 2) CREATE_RETRY_MAX_DELAY_MS) w1) as (o & k & slept & evs & w' & E & Hlog & Hat & Hk & Hs & Hg);
      [by apply next_delay| |lia|].
    + cbn [least_sleep] in Hb. fold m in He. rewrite Hc. destruct Hcase; lra.
    + exists o, (S k), (ms + slept)%Q, (Creating input (inr e) :: Slept ms :: evs), w'. split_and!; [exact E| | |lia| |exact Hg].
      * rewrite Hlog. subst w1. cbn [log advance]. by rewrite <- !app_assoc.
      * constructor; [done|by apply Hms|done].
      * fold m in He. revert Hs. rewrite Hc.
        destruct (Q.max_spec 0 (deadline - clock w)) as [[? ->]|[? ->]];
          destruct (Q.max_spec 0 (deadline - (clock w + elapsed m + (ms + elapsed (env (S (used w))))))) as [[? ->]|[? ->]]; lra.
Qed.

Lemma client_silent env store w :
  log (client env store w).2 = log w /\
  match (client env store w).1 with inl _ => True | inr (Some e) => not_found e = false | inr None => False end.
Proof.
  unfold client, bind, get, here, await, ret, throw. cbn [fst snd].
  destruct (built w); cbn [fst snd]; [cbn [log advance]; by rewrite app_nil_r|].
  destruct (match region store with Some r => Some r | None => _ end) as [[|]|]; cbn [fst snd]; [done| |done].
  destruct (client_answer _) as [[]|]; cbn [fst snd log advance with_client]; by rewrite app_nil_r.
Qed.

Lemma client_clock env store w : progress env -> (clock w <= clock (client env store w).2)%Q.
Proof.
  intros Hp. destruct (Hp (used w)) as [He _]. unfold client, bind, get, here, await, ret, throw.
  repeat case_match; simplify_eq; cbn [fst snd clock advance with_client]; lra.
Qed.

Lemma client_cases env store w :
  exists w1, log w1 = log w /\ (progress env -> (clock w <= clock w1)%Q) /\
    (client env store w = (inl tt, w1) \/ exists e, client env store w = (inr (Some e), w1) /\ not_found e = false).
Proof.
  pose proof (client_clock env store w) as Hc. destruct (client_silent env store w) as [Hl Hr].
  destruct (client env store w) as [[[]|[e|]] w1]; cbn [fst snd] in *; [| |done]; exists w1; split; eauto.
Qed.

Lemma call_cases {A} env store evs (answer : moment -> M A) w :
  (exists e w1, call env store evs answer w = (inr (Some e), w1) /\ log w1 = log w /\ not_found e = false) \/
  (exists m w1, call env store evs answer w = answer m w1 /\ log w1 = log w ++ evs m).
Proof.
  unfold call, bind. destruct (client_cases env store w) as (w1 & Hl & _ & [-> | (e & -> & He)]); [right|left; by eexists _, _].
  eexists _, _. split; [reflexivity|]. cbn [log advance]. by rewrite Hl.
Qed.

(** The attempts of [create], fifteen at most, bring it to a result. *)
Definition CREATE_FUEL : nat := 15.

(** [create()] ends.  It sends [CreateSecret] at most fifteen times, always the same
    request with the token of version 1; it sends it again exactly after an answer that
    the name is being deleted; its sleeps add up to at most 60 s, and it gives up only
    when 60 s have passed.  Its result is what the last attempt says. *)
Theorem create_retries env store name value metadata w :
  progress env ->
  exists r w' evs, create env store CREATE_FUEL name value metadata w = (r, w') /\ log w' = log w ++ evs /\
    ((evs = [] /\ exists e, r = inr (Some e)) \/
     exists input o k slept, create_input store name value metadata = Ok input /\
       versionToken 1 = Ok (ci_ClientRequestToken input) /\
       attempts input o k slept evs /\ k <= CREATE_FUEL /\ (slept <= CREATE_RETRY_BUDGET_MS)%Q /\
       (o = GaveUp -> (clock w + CREATE_RETRY_BUDGET_MS <= clock w')%Q) /\
       match o with
       | Accepted response => exists info, r = inl info /\ secretId info = default [] response.1 /\ i_version info = 1%Z
       | _ => exists e, outcome_result o = inr e /\ r = inr e
       end).
Proof.
  intros Hp. unfold create, createWithRetry, bind. destruct (create_input store name value metadata) as [input|c] eqn:Ei; cbn [of_result ret];
    [|do 3 eexists; split_and!; [reflexivity|by rewrite app_nil_r|left; eauto]].
  destruct (client_cases env store w) as (w1 & Hl & Hc & [-> | (e & -> & _)]);
    [|do 3 eexists; split_and!; [reflexivity|by rewrite app_nil_r|left; eauto]]. specialize (Hc Hp). unfold get.
  destruct (create_loop_spec env input 14 CREATE_FUEL (clock w1 + CREATE_RETRY_BUDGET_MS)%Q CREATE_RETRY_FIRST_DELAY_MS w1)
    as (o & k & slept & evs & w' & -> & Hlog & Hat & Hk & Hs & Hg); [done|split; [done|by apply Qle_bool_iff]| |unfold CREATE_FUEL; lia|].
  { assert (CREATE_RETRY_BUDGET_MS <= least_sleep 14 CREATE_RETRY_FIRST_DELAY_MS)%Q by (by apply Qle_bool_iff). lra. }
  rewrite Hl in Hlog.
  assert (slept <= CREATE_RETRY_BUDGET_MS)%Q as Hb.
  { revert Hs. destruct (Q.max_spec 0 (clock w1 + CREATE_RETRY_BUDGET_MS - clock w1)) as [[? ->]|[H ->]]; intros Hs; [lra|].
    assert (0 <= CREATE_RETRY_BUDGET_MS)%Q by (by apply Qle_bool_iff). lra. }
  exists (match outcome_result o with inl response => inl {| secretId := default [] response.1;
            i_name := displayName (default (ci_Name input) response.2) (prefix store); i_version := 1;
            i_metadata := Given (default [] metadata); createdAt := wallMs (env (used w')); updatedAt := wallMs (env (used w')) |} | inr e => inr e end).
  exists w', evs. split_and!; [by destruct o|done|]. right. exists input, o, k, slept. split_and!; [done| |done|done|done|intros Ho; specialize (Hg Ho); lra|].
  - unfold create_input in Ei. destruct (throw_if _ _); [|done]. cbn [mbind result_bind] in Ei.
    destruct (resolveSecretId _ _); [|done]. cbn [mbind result_bind] in Ei. destruct (validateValue _); [|done]. cbn [mbind result_bind] in Ei.
    destruct (encodeMetadata _); [|done]. cbn [mbind result_bind] in Ei. by injection Ei as <-.
  - destruct o; cbn [outcome_result]; eauto.
Qed.

(** ** What the other operations send *)

Lemma describe_cases env store id w :
  exists r w1 evs, describe env store id w = (r, w1) /\ log w1 = log w ++ evs /\
    ((exists d, r = inl d /\ evs = [Describing id (inl d)] /\ d_DeletedDate d = None) \/
     (exists e, r = inr (Some e) /\ (evs = [] /\ not_found e = false \/ exists a, evs = [Describing id a] /\ match a with
        | inl d => is_Some (d_DeletedDate d) /\ not_found e = true | inr x => e = translateError describeSecret x end))).
Proof.
  unfold describe, bind.
  destruct (call_cases env store (fun m => [Describing id (describe_answer m)]) (fun m => of_sum describeSecret (describe_answer m)) w)
    as [(e & w1 & -> & Hl & Hn) | (m & w1 & -> & Hl)].
  - do 3 eexists. split_and!; [reflexivity|by rewrite Hl, app_nil_r|]. right. eauto.
  - destruct (describe_answer m) as [d|x]; cbn [of_sum ret throw].
    + destruct (d_DeletedDate d) eqn:Ed; do 3 eexists; (split_and!; [reflexivity|exact Hl|]); [|by left; eauto].
      right. eexists. split; [done|]. right. eexists. split; [done|]. by split; [eexists|].
    + do 3 eexists. split_and!; [reflexivity|exact Hl|]. right. eexists. split; [done|]. right. by eexists.
Qed.

(** An error of Secrets Manager that says the secret is not there. *)
Definition no_such_secret (e : aws_error) : Prop := awsCode e = Some (txt "ResourceNotFoundException").

Lemma translate_not_found op e : not_found (translateError op e) = true <-> no_such_secret e.
Proof.
  unfold not_found, no_such_secret, translateError, translations. cbn [List.find f_class fst].
  destruct (bool_decide_reflect (awsCode e = Some (txt "ResourceNotFoundException"))) as [->|H]; [done|].
  split; [|done]. intros Hx. exfalso. revert Hx. repeat (destruct (bool_decide (awsCode e = Some _))); by vm_compute.
Qed.

(** What [destroy()] sent when it came to an answer. *)
Inductive destroyed (id : text) : bool -> list event -> Prop :=
  | deleted d : d_DeletedDate d = None -> destroyed id true [Describing id (inl d); Deleting id None]
  | absent x : no_such_secret x -> destroyed id false [Describing id (inr x)]
  | being_deleted d : is_Some (d_DeletedDate d) -> destroyed id false [Describing id (inl d)]
  | vanished d x : d_DeletedDate d = None -> no_such_secret x -> destroyed id false [Describing id (inl d); Deleting id (Some x)].

(** [destroy()] is true exactly when it deleted a secret that was there, and false when
    Secrets Manager said that the secret does not exist or is being deleted; it deletes only
    what it has seen.  An error deletes nothing that it then denies: no deletion was
    accepted. *)
Theorem destroy_truthful env store name w :
  exists r w' evs, destroy env store name w = (r, w') /\ log w' = log w ++ evs /\
    match r with
    | inl answer => exists id, resolveSecretId name (prefix store) = Ok id /\ destroyed id answer evs
    | inr e => (forall id, Deleting id None ∉ evs) /\ e <> None
    end.
Proof.
  unfold destroy, bind at 1. destruct (resolveSecretId name (prefix store)) as [id|c]; cbn [of_result ret throw];
    [|do 3 eexists; split_and!; [reflexivity|by rewrite app_nil_r|split; [set_solver|done]]].
  unfold catch, bind at 1. destruct (describe_cases env store id w) as (r & w1 & evs & -> & Hl & [(d & -> & -> & Hd)|(e & -> & He)]).
  - unfold bind. destruct (call_cases env store (fun m => [Deleting id (delete_answer m)]) (fun m => of_option deleteSecret (delete_answer m)) w1)
      as [(e & w2 & -> & Hl2 & Hn) | (m & w2 & -> & Hl2)].
    + rewrite Hn. do 3 eexists. split_and!; [reflexivity|by rewrite Hl2|split; [set_solver|done]].
    + rewrite Hl, <- app_assoc in Hl2. destruct (delete_answer m) as [x|]; cbn [of_option ret throw].
      * destruct (not_found _) eqn:En; do 3 eexists; (split_and!; [reflexivity|exact Hl2|]); [|split; [set_solver|done]].
        apply translate_not_found in En. exists id. split; [done|]. by constructor.
      * do 3 eexists. split_and!; [reflexivity|exact Hl2|]. exists id. split; [done|]. by constructor.
  - destruct He as [[-> Hn]|(a & -> & Ha)].
    + rewrite Hn. do 3 eexists. split_and!; [reflexivity|by rewrite Hl|split; [set_solver|done]].
    + destruct (not_found e) eqn:En; do 3 eexists; (split_and!; [reflexivity|exact Hl|]); [|split; [set_solver|done]].
      exists id. split; [done|]. destruct a as [d|x]; [constructor; apply Ha|]. subst e. apply translate_not_found in En. by constructor.
Qed.

Lemma validateValue_ok v v' : validateValue v = Ok v' -> v' = v.
Proof. unfold validateValue. repeat case_match; congruence. Qed.

Definition no_put (evs : list event) : Prop := forall id v token, Putting id v token ∉ evs.

Lemma no_put_not_in evs : Forall (fun e => match e with Putting _ _ _ => False | _ => True end) evs -> no_put evs.
Proof. intros H id v token Hin. by rewrite Forall_forall in H; apply H in Hin. Qed.

(** The version a successful [DescribeSecret] leads to. *)
Definition next_version (d : DescribedSecret) : Z := (latestVersion (d_VersionIdsToStages d) + 1)%Z.

Lemma next_version_token d : exists token, versionToken (next_version d) = Ok token.
Proof.
  unfold next_version, versionToken. pose proof (latestVersion_bound (d_VersionIdsToStages d)).
  rewrite (proj2 (Z.ltb_ge _ 1)) by lia. eauto.
Qed.

Lemma update_shape env store name value metadata w :
  exists r w' evs, update env store name value metadata w = (r, w') /\ log w' = log w ++ evs /\
    (no_put evs /\ (exists e, r = inr (Some e)) \/
     exists id d token before more, evs = Describing id (inl d) :: before ++ Putting id value token :: more /\
       resolveSecretId name (prefix store) = Ok id /\ d_DeletedDate d = None /\ versionToken (next_version d) = Ok token /\
       no_put (before ++ more) /\ match r with inl info => i_version info = next_version d | inr e => e <> None end).
Proof.
  unfold update, bind at 1. destruct (resolveSecretId name (prefix store)) as [id|c] eqn:Er; cbn [of_result ret throw];
    [|do 3 eexists; split_and!; [reflexivity|by rewrite app_nil_r|left; split; [apply no_put_not_in; constructor|eauto]]].
  unfold bind at 1. destruct (validateValue value) as [v|c] eqn:Ev; cbn [of_result ret throw];
    [|do 3 eexists; split_and!; [reflexivity|by rewrite app_nil_r|left; split; [apply no_put_not_in; constructor|eauto]]].
  apply validateValue_ok in Ev as ->.
  unfold bind at 1. destruct (match metadata with None => _ | Some _ => _ end) as [description|c]; cbn [of_result ret throw];
    [|do 3 eexists; split_and!; [reflexivity|by rewrite app_nil_r|left; split; [apply no_put_not_in; constructor|eauto]]].
  unfold bind at 1. destruct (describe_cases env store id w) as (r & w1 & evs & -> & Hl & [(d & -> & -> & Hd)|(e & -> & He)]); cycle 1.
  { do 3 eexists. split_and!; [reflexivity|exact Hl|left; split; [|eauto]]. apply no_put_not_in.
    destruct He as [[-> _]|(a & -> & _)]; repeat constructor. }
  destruct (next_version_token d) as [token Ht]. change (latestVersion (d_VersionIdsToStages d) + 1)%Z with (next_version d). rewrite Ht.
  unfold bind at 1, warnIfFrequent. set (w2 := noted_update _ _ _).
  assert (exists before, log w2 = log w ++ Describing id (inl d) :: before /\ no_put before) as (before & Hl2 & Hb).
  { subst w2. cbn [log noted_update]. rewrite Hl, <- app_assoc. eexists. split; [reflexivity|]. apply no_put_not_in. by case_match; repeat constructor. }
  clearbody w2. unfold bind at 1, of_result, ret at 1. unfold bind at 1.
  destruct (call_cases env store (fun _ => [Putting id value token]) (fun m => of_option putSecretValue (put_answer m)) w2)
    as [(e & w3 & -> & Hl3 & _) | (m & w3 & -> & Hl3)].
  { do 3 eexists. split_and!; [reflexivity|by rewrite Hl3, Hl2|left; split; [|eauto]].
    intros x v t [[=]|Hin]%elem_of_cons. by apply Hb in Hin. }
  rewrite Hl2, <- app_assoc in Hl3. cbn [app] in Hl3.
  destruct (put_answer m) as [x|]; cbn [of_option ret throw].
  { do 3 eexists. split_and!; [reflexivity|exact Hl3|right]. exists id, d, token, before, []. rewrite app_nil_r. by split_and!. }
  unfold bind at 1.
  assert (forall more, no_put more -> no_put (before ++ more)) as Happ.
  { intros more Hm x v t [Hin|Hin]%elem_of_app; [by apply Hb in Hin|by apply Hm in Hin]. }
  destruct description as [desc|].
  - destruct (call_cases env store (fun _ => [Updating id desc]) (fun m => of_option updateSecret (update_answer m)) w3)
      as [(e & w4 & -> & Hl4 & _) | (m' & w4 & -> & Hl4)].
    + do 3 eexists. split_and!; [reflexivity|by rewrite Hl4, Hl3|right]. exists id, d, token, before, []. rewrite app_nil_r. by split_and!.
    + rewrite Hl3, <- app_assoc in Hl4. cbn [app] in Hl4. rewrite <- app_assoc in Hl4.
      destruct (update_answer m') as [x|]; cbn [of_option ret throw]; do 3 eexists; (split_and!; [reflexivity|exact Hl4|right]);
        exists id, d, token, before, [Updating id desc]; split_and!; try done; apply Happ, no_put_not_in; repeat constructor.
  - do 3 eexists. split_and!; [reflexivity|exact Hl3|right]. exists id, d, token, before, []. rewrite app_nil_r. by split_and!.
Qed.

(** The version that [update()] writes is new: whatever it puts, it puts after having
    seen the versions of the secret, none of which has its token, and the [info] that it
    returns names that version, which was put once. *)
Theorem update_adds_version env store name value metadata w :
  exists r w' evs, update env store name value metadata w = (r, w') /\ log w' = log w ++ evs /\
    (forall id v token, Putting id v token ∈ evs -> v = value /\ resolveSecretId name (prefix store) = Ok id /\
       exists d, Describing id (inl d) ∈ evs /\ d_DeletedDate d = None /\
         versionToken (latestVersion (d_VersionIdsToStages d) + 1) = Ok token /\
         ((latestVersion (d_VersionIdsToStages d) + 1 < MAX_VERSION)%Z -> token ∉ (default [] (d_VersionIdsToStages d)).*1)) /\
    match r with
    | inl info => exists id token d before more, evs = Describing id (inl d) :: before ++ Putting id value token :: more /\
        i_version info = (latestVersion (d_VersionIdsToStages d) + 1)%Z /\ versionToken (i_version info) = Ok token /\
        (forall x v t, Putting x v t ∉ before ++ more)
    | inr e => e <> None
    end.
Proof.
  destruct (update_shape env store name value metadata w)
    as (r & w' & evs & E & Hl & [[Hn [e ->]]|(id & d & token & before & more & -> & Hid & Hd & Ht & Hn & Hr)]).
  - do 3 eexists. split_and!; [exact E|exact Hl| |done]. intros id v token Hin. by apply Hn in Hin.
  - do 3 eexists. split_and!; [exact E|exact Hl| |].
    + intros id' v t Hin. assert (Putting id' v t = Putting id value token) as [= -> -> ->].
      { apply elem_of_cons in Hin as [[=]|Hin]. specialize (Hn id' v t). rewrite elem_of_app in *. rewrite elem_of_cons in Hin. tauto. }
      split_and!; [done..|]. exists d. split_and!; [by left|done|done|]. intros Hb. by apply (next_version_fresh _ _ Hb).
    + destruct r as [info|e]; [|done]. exists id, token, d, before, more. by rewrite Hr.
Qed.

(** No value under the prefix of the webhook signing keys is ever asked for. *)
Theorem webhook_keys_unread env store r w :
  exists res w' evs, readValue env store r w = (res, w') /\ log w' = log w ++ evs /\
    forall id v s, Reading id v s ∈ evs -> resolveSecretId (name r) (prefix store) = Ok id /\
      starts_with WEBHOOK_SECRET_PREFIX (name_of_id id) = false.
Proof.
  unfold readValue, bind at 1. destruct (resolveSecretId (name r) (prefix store)) as [id|c]; cbn [of_result ret throw];
    [|do 3 eexists; split_and!; [reflexivity|by rewrite app_nil_r|set_solver]].
  unfold bind at 1, refuseWebhookSigningSecret. destruct (starts_with _ _) eqn:Ew; cbn [throw_if of_result ret throw];
    [do 3 eexists; split_and!; [reflexivity|by rewrite app_nil_r|set_solver]|].
  unfold bind. match goal with |- context [call env store ?evs ?answer w] => destruct (call_cases env store evs answer w) as [(e & w1 & -> & Hl & _)|(m & w1 & -> & Hl)] end.
  - do 3 eexists. split_and!; [reflexivity|by rewrite Hl, app_nil_r|set_solver].
  - destruct (value_answer m) as [[v|]|x]; cbn [of_sum ret throw]; do 3 eexists; (split_and!; [reflexivity|exact Hl|]);
      by intros id' v' s [= -> -> ->]%list_elem_of_singleton.
Qed.

(** ** A sample *)

Definition calm (create : nat -> option text * option text + aws_error) (d : DescribedSecret) (n : nat) : moment := {|
  awsRegion := Some (txt "eu-west-1"); client_answer := None; create_answer := create n; put_answer := None;
  value_answer := inl (Some (txt "v")); describe_answer := inl d; update_answer := None; list_answer := inl ([d], None);
  delete_answer := None; elapsed := 100; random := 1 # 2; wallMs := 1700000000000 |}.

Definition fresh_world : World := {| used := 0; built := false; clock := 0; lastUpdates := ∅; warnedUpdates := ∅; log := [] |}.
Definition sample_store : SecretStore := {| region := None; prefix := DEFAULT_SECRET_PREFIX; kmsKeyId := None |}.
Definition deleting : aws_error := {| awsCode := Some INVALID_REQUEST; aws_message := Some (txt "the secret is scheduled for Deletion") |}.

Definition sample_described : DescribedSecret := {|
  d_ARN := Some (txt "arn:x"); d_Name := Some (txt "rayito/openai"); d_Description := None; d_CreatedDate := Some 5%Z;
  d_LastChangedDate := None; d_DeletedDate := None;
  d_VersionIdsToStages := Some [(txt "rayito-secret-version-00000000000000000007", Some [txt "AWSPREVIOUS"]); (txt "external", Some [CURRENT_STAGE])];
  d_SecretVersionsToStages := None |}.

Lemma calm_progress create d : progress (calm create d).
Proof. intros n. cbn. split; [by apply Qle_bool_iff|split; [by apply Qle_bool_iff|done]]. Qed.

Lemma create_retries_witness :
  progress (calm (fun n => if n <? 5 then inr deleting else inl (Some (txt "arn:y"), None)) sample_described) /\
  exists r w' evs, create (calm (fun n => if n <? 5 then inr deleting else inl (Some (txt "arn:y"), None)) sample_described) sample_store CREATE_FUEL
      (txt "openai") (txt "sk") None fresh_world = (r, w') /\ log w' = log fresh_world ++ evs.
Proof.
  split; [apply calm_progress|].
  destruct (create_retries (calm (fun n => if n <? 5 then inr deleting else inl (Some (txt "arn:y"), None)) sample_described) sample_store
    (txt "openai") (txt "sk") None fresh_world (calm_progress _ _)) as (r & w' & evs & H1 & H2 & _).
  exists r, w', evs. exact (conj H1 H2).
Defined.

(** A rotation that Rayito did not write leaves version 0 current; the next one is 8. *)
Example update_past_rotation :
  i_version <$> (match (update (calm (fun _ => inr deleting) sample_described) sample_store (txt "openai") (txt "sk") None fresh_world).1
                 with inl info => Some info | inr _ => None end) = Some 8%Z /\
  currentVersion (d_VersionIdsToStages sample_described) = 0%Z.
Proof. by vm_compute. Qed.
