(* ===== verification/SecretCache.v ===== *)
(** * SecretCache: the values of secrets in memory

    src/clients/typescript/src/secrets/cache.ts: [SecretCache] as a state machine.  [get],
    [refresh], [invalidate] and [sweep] run to the end without an await; a read in flight
    comes back as an event of its own, at any moment and in any order.  Every operation
    says what it did in marks, which the theorems are about.  The clock is read where the
    code reads it. *)

From stdpp Require Import base option list strings sets gmap.
From Stdlib Require Import NArith ZArith QArith Lia Lqa.
From S2P Require Import Prelude Text GitArgs SecretNames.
From S2P Require SecretStore.

Local Open Scope nat_scope.

Definition DEFAULT_TTL_SECONDS : Q := 300.
Definition MAX_TTL_SECONDS : Q := 86400.

Record Entry := { e_value : text; expiresAt : Q }.

(** A read in flight: its key and the generation it began in. *)
Record read := { r_key : text; r_generation : nat }.

Record SecretCache := {
  entries : gmap text Entry;
  flights : gmap text nat;
  pending : gmap nat read;
  generation : nat;
  reads : nat;
  identities : list nat
}.

(** What [options.store] and the other options were. *)
Inductive store_option := NoStore (prefix : option text) | OwnStore (clientOptions : bool) | NotAStore.

(** The [ttlMs] of a new cache. *)
Definition cache_ttl (ttlSeconds : jsval) (store : store_option) : result Q :=
  let ttl := match ttlSeconds with JNumber (Finite q) => Some q | JUndefined | JNull => Some DEFAULT_TTL_SECONDS | _ => None end in
  match ttl with
  | None => Throw InvalidArgumentError
  | Some ttl =>
      if negb (Qle_bool 1 ttl) || negb (Qle_bool ttl MAX_TTL_SECONDS) then Throw InvalidArgumentError
      else match store with
           | OwnStore true | NotAStore => Throw InvalidArgumentError
           | OwnStore false => Ok (ttl * 1000)%Q
           | NoStore prefix => _ ← SecretStore.new_SecretStore None prefix None; Ok (ttl * 1000)%Q
           end
  end.

Definition new_SecretCache : SecretCache := {|
  entries := ∅; flights := ∅; pending := ∅; generation := 0; reads := 0; identities := [] |}.

Definition with_entries (es : gmap text Entry) (c : SecretCache) : SecretCache := {|
  entries := es; flights := flights c; pending := pending c; generation := generation c; reads := reads c; identities := identities c |}.
Definition with_flights (fs : gmap text nat) (c : SecretCache) : SecretCache := {|
  entries := entries c; flights := fs; pending := pending c; generation := generation c; reads := reads c; identities := identities c |}.
Definition with_pending (p : gmap nat read) (c : SecretCache) : SecretCache := {|
  entries := entries c; flights := flights c; pending := p; generation := generation c; reads := reads c; identities := identities c |}.
Definition with_identities (ids : list nat) (c : SecretCache) : SecretCache := {|
  entries := entries c; flights := flights c; pending := pending c; generation := generation c; reads := reads c; identities := ids |}.

(** What an operation did. *)
Inductive mark :=
  | Hit (key value : text) (now : Q)
  | Joined (key : text) (flight : nat)
  | Began (key : text) (flight : nat) (now : Q)
  | Landed (flight : nat) (value : text) (now : Q)
  | Failed (flight : nat)
  | Forgot (name : option SecretLike)
  | Threw (e : error_class).

Section Cache.
Context (region : option text) (credentials : nat) (prefix : text) (ttlMs : Q).

(** [#identity(credentials)]: the position of the object among those seen. *)
Definition identity (ids : list nat) : nat * list nat :=
  match list_find (eq credentials) ids with
  | Some (i, _) => (i, ids)
  | None => (length ids, ids ++ [credentials])
  end.

Definition key_text (identity : nat) (id selector : text) : text :=
  join [BAR] [default [] region; print_nat 10 (N.of_nat identity); id; selector].

(** [#key(ref)]. *)
Definition key (r : SecretRef) (c : SecretCache) : result text * SecretCache :=
  let (i, ids) := identity (identities c) in
  (id ← resolveSecretId (name r) prefix; Ok (key_text i id (selector r)), with_identities ids c).

Definition expired (now : Q) (e : Entry) : bool := Qle_bool (expiresAt e) now.

(** [sweep()]: the cache and how many entries it dropped. *)
Definition sweep (now : Q) (c : SecretCache) : nat * SecretCache :=
  let kept := filter (fun kv => expired now kv.2 = false) (entries c) in
  (size (entries c) - size kept, with_entries kept c).

(** [#fresh(key)]. *)
Definition fresh (key : text) (now : Q) (c : SecretCache) : option text * SecretCache :=
  match entries c !! key with
  | None => (None, c)
  | Some e => if expired now e then (None, with_entries (delete key (entries c)) c) else (Some (e_value e), c)
  end.

(** The promise of the read, from its first turn: [readValue] is asked at once. *)
Definition begin_read (key : text) (c : SecretCache) : SecretCache := {|
  entries := entries c; flights := <[key := reads c]> (flights c);
  pending := <[reads c := {| r_key := key; r_generation := generation c |}]> (pending c);
  generation := generation c; reads := S (reads c); identities := identities c |}.

(** [get(secret)]; the clock says [now] when it sweeps and [now'] when it looks. *)
Definition get (secret : SecretLike) (now now' : Q) (c : SecretCache) : SecretCache * list mark :=
  let c := (sweep now c).2 in
  match asRef secret with
  | Throw e => (c, [Threw e])
  | Ok r =>
      match key r c with
      | (Throw e, c) => (c, [Threw e])
      | (Ok k, c) =>
          match fresh k now' c with
          | (Some v, c) => (c, [Hit k v now'])
          | (None, c) =>
              match flights c !! k with
              | Some f => (c, [Joined k f])
              | None => (begin_read k c, [Began k (reads c) now'])
              end
          end
      end
  end.

(** [land()]. *)
Definition land (key : text) (f : nat) (c : SecretCache) : SecretCache :=
  if bool_decide (flights c !! key = Some f) then with_flights (delete key (flights c)) c else c.

(** The read [f] brings a value. *)
Definition resolve (f : nat) (value : text) (now : Q) (c : SecretCache) : option (SecretCache * list mark) :=
  r ← pending c !! f;
  let c := with_pending (delete f (pending c)) c in
  let c := if r_generation r =? generation c
           then with_entries (<[r_key r := {| e_value := value; expiresAt := (now + ttlMs)%Q |}]> (entries c)) c else c in
  Some (land (r_key r) f c, [Landed f value now]).

(** The read [f] is rejected. *)
Definition reject (f : nat) (c : SecretCache) : option (SecretCache * list mark) :=
  r ← pending c !! f; Some (land (r_key r) f (with_pending (delete f (pending c)) c), [Failed f]).

(** [matches(key)] of [invalidate]. *)
Definition matches (secretPart : text) (exact : option text) (key : text) : bool :=
  includes key secretPart && match exact with None => true | Some s => ends_with (BAR :: s) key end.

(** Which keys [invalidate(name)] discards; [None] when it throws. *)
Definition discards (name : option SecretLike) : result (text -> bool) :=
  match name with
  | None => Ok (fun _ => true)
  | Some secret =>
      r ← asRef secret;
      id ← resolveSecretId (SecretNames.name r) prefix;
      Ok (matches (BAR :: id ++ [BAR]) (match secret with Ref r => Some (selector r) | _ => None end))
  end.

Definition next_generation (c : SecretCache) : SecretCache := {|
  entries := entries c; flights := flights c; pending := pending c; generation := S (generation c); reads := reads c;
  identities := identities c |}.

Definition keep {A} (discarded : text -> bool) (m : gmap text A) : gmap text A := filter (fun kv => discarded kv.1 = false) m.

Definition invalidate (name : option SecretLike) (c : SecretCache) : SecretCache * list mark :=
  let c := next_generation c in
  match discards name with
  | Throw e => (c, [Forgot name; Threw e])
  | Ok discarded =>
      (with_flights (keep discarded (flights c)) (with_entries (keep discarded (entries c)) c), [Forgot name])
  end.

(** [refresh(name)]: its await is the one of [get]. *)
Definition refresh (name : option SecretLike) (now now' : Q) (c : SecretCache) : SecretCache * list mark :=
  let (c, marks) := invalidate name c in
  match discards name, name with
  | Ok _, Some secret => let (c, more) := get secret now now' c in (c, marks ++ more)
  | _, _ => (c, marks)
  end.

(** ** The cache over time *)

Inductive event :=
  | Get (secret : SecretLike) (now now' : Q)
  | Resolve (f : nat) (value : text) (now : Q)
  | Reject (f : nat)
  | Invalidate (name : option SecretLike)
  | Refresh (name : option SecretLike) (now now' : Q)
  | Sweep (now : Q).

Definition step (c : SecretCache) (e : event) : option (SecretCache * list mark) :=
  match e with
  | Get secret now now' => Some (get secret now now' c)
  | Resolve f value now => resolve f value now c
  | Reject f => reject f c
  | Invalidate name => Some (invalidate name c)
  | Refresh name now now' => Some (refresh name now now' c)
  | Sweep now => Some ((sweep now c).2, [])
  end.

Fixpoint run (c : SecretCache) (es : list event) : option (SecretCache * list mark) :=
  match es with
  | [] => Some (c, [])
  | e :: es => '(c, marks) ← step c e; '(c, more) ← run c es; Some (c, marks ++ more)
  end.

(** The clock does not go back. *)
Fixpoint on_time (now : Q) (es : list event) : Prop :=
  match es with
  | [] => True
  | Get _ t t' :: es | Refresh _ t t' :: es => (now <= t <= t')%Q /\ on_time t' es
  | Resolve _ _ t :: es | Sweep t :: es => (now <= t)%Q /\ on_time t es
  | _ :: es => on_time now es
  end.

(** ** What the marks say *)

(** Whether [invalidate(name)] is about a key. *)
Definition forgets (name : option SecretLike) (k : text) : bool :=
  match discards name with Ok discarded => discarded k | Throw _ => false end.

Definition no_forget (k : text) (h : list mark) : Prop := forall name, Forgot name ∈ h -> forgets name k = false.
Definition unforgotten (h : list mark) : Prop := forall name, Forgot name ∉ h.
Definition settles (f : nat) (h : list mark) : Prop := (exists v t, Landed f v t ∈ h) \/ Failed f ∈ h.

(** The value of a hit came from a read of its key that began and landed, was not forgotten
    since it began, and landed less than the time to live ago. *)
Definition hit_ok (k v : text) (now : Q) (h : list mark) : Prop :=
  exists a s f b t d, h = a ++ Began k f s :: b ++ Landed f v t :: d /\ (now < t + ttlMs)%Q /\ no_forget k (b ++ d).

(** A read that is shared began, has not come back, and was not forgotten since. *)
Definition join_ok (k : text) (f : nat) (h : list mark) : Prop :=
  exists a s b, h = a ++ Began k f s :: b /\ ~ settles f b /\ no_forget k b.

(** When a read begins, every other one of its key came back or was forgotten. *)
Definition single_flight (k : text) (h : list mark) : Prop :=
  forall a f s b, h = a ++ Began k f s :: b -> settles f b \/ exists name, Forgot name ∈ b /\ forgets name k = true.

(** When a read begins, the value of another one that was not forgotten has expired. *)
Definition spaced (k : text) (now : Q) (h : list mark) : Prop :=
  forall a f s b v t d, h = a ++ Began k f s :: b ++ Landed f v t :: d -> unforgotten b -> no_forget k d -> (t + ttlMs <= now)%Q.

Definition mark_ok (m : mark) (before : list mark) : Prop :=
  match m with
  | Hit k v now => hit_ok k v now before
  | Joined k f => join_ok k f before
  | Began k f now => single_flight k before /\ spaced k now before
  | _ => True
  end.

Definition good (h : list mark) : Prop := forall h1 m h2, h = h1 ++ m :: h2 -> mark_ok m h1.

Lemma snoc_split {A} (h : list A) m a x b :
  h ++ [m] = a ++ x :: b -> (b = [] /\ m = x /\ a = h) \/ exists b', b = b' ++ [m] /\ h = a ++ x :: b'.
Proof.
  destruct b as [|y b _] using rev_ind; [intros [-> [= ->]]%app_inj_tail; by left|].
  rewrite app_comm_cons, app_assoc. intros [-> <-]%app_inj_tail. right. by eexists.
Qed.

Lemma good_snoc h m : good h -> mark_ok m h -> good (h ++ [m]).
Proof. intros Hg Hm h1 x h2 [(-> & -> & ->)|(b & -> & ->)]%snoc_split; [done|by eapply Hg]. Qed.

(** ** The invariant that ties the cache to its marks *)

Definition pending_ok (c : SecretCache) (h : list mark) (f : nat) (r : read) : Prop :=
  f < reads c /\ r_generation r <= generation c /\
  exists a s b, h = a ++ Began (r_key r) f s :: b /\ ~ settles f b /\ (r_generation r = generation c <-> unforgotten b).

Definition entry_ok (now : Q) (h : list mark) (k : text) (e : Entry) : Prop :=
  exists a s f b t d, h = a ++ Began k f s :: b ++ Landed f (e_value e) t :: d /\ (t <= now)%Q /\ expiresAt e = (t + ttlMs)%Q /\ no_forget k (b ++ d).

(** A value that landed and was not forgotten is there until it expires. *)
Definition stays (c : SecretCache) (h : list mark) (now : Q) : Prop :=
  forall a k f s b v t d, h = a ++ Began k f s :: b ++ Landed f v t :: d -> (t <= now)%Q /\
    (unforgotten b -> no_forget k d -> (exists e, entries c !! k = Some e /\ (t + ttlMs <= expiresAt e)%Q) \/ (t + ttlMs <= now)%Q).

(** A read begins once. *)
Definition once (h : list mark) : Prop := forall a k f s b, h = a ++ Began k f s :: b -> forall k' s', Began k' f s' ∉ a ++ b.

Record inv (c : SecretCache) (h : list mark) (now : Q) : Prop := {
  inv_pending : forall f r, pending c !! f = Some r -> pending_ok c h f r;
  inv_flight : forall k f, flights c !! k = Some f -> join_ok k f h /\ exists r, pending c !! f = Some r /\ r_key r = k;
  inv_entry : forall k e, entries c !! k = Some e -> entry_ok now h k e;
  inv_one : forall a k f s b, h = a ++ Began k f s :: b ->
    settles f b \/ flights c !! k = Some f \/ exists name, Forgot name ∈ b /\ forgets name k = true;
  inv_stays : stays c h now;
  inv_once : once h;
  inv_reads : forall f, (exists k s, Began k f s ∈ h) \/ settles f h -> f < reads c;
  inv_good : good h
}.

(** ** Adding a mark *)

Definition settling (f : nat) (m : mark) : Prop := match m with Landed f' _ _ | Failed f' => f' = f | _ => False end.

Lemma settles_app f h h' : settles f (h ++ h') <-> settles f h \/ settles f h'.
Proof. unfold settles. setoid_rewrite elem_of_app. naive_solver. Qed.

Lemma settles_one f m : settles f [m] <-> settling f m.
Proof.
  unfold settles. setoid_rewrite list_elem_of_singleton. split; [intros [(? & ? & <-)| <-]; done|].
  destruct m; intros H; try done; cbn in H; subst; eauto.
Qed.

Lemma no_forget_app k h h' : no_forget k (h ++ h') <-> no_forget k h /\ no_forget k h'.
Proof. unfold no_forget. setoid_rewrite elem_of_app. naive_solver. Qed.

Lemma unforgotten_app h h' : unforgotten (h ++ h') <-> unforgotten h /\ unforgotten h'.
Proof. unfold unforgotten. setoid_rewrite elem_of_app. naive_solver. Qed.

Lemma unforgotten_no_forget k h : unforgotten h -> no_forget k h.
Proof. intros H name Hin. by apply H in Hin. Qed.

Definition forgetting (m : mark) : Prop := match m with Forgot _ => True | _ => False end.

Lemma unforgotten_one m : ~ forgetting m -> unforgotten [m].
Proof. intros H name <-%list_elem_of_singleton. by apply H. Qed.

Lemma no_forget_one k name : forgets name k = false -> no_forget k [Forgot name].
Proof. by intros H n [= <-]%list_elem_of_singleton. Qed.

Lemma join_ok_snoc k f h m : ~ settling f m -> no_forget k [m] -> join_ok k f h -> join_ok k f (h ++ [m]).
Proof.
  intros Hm Hn (a & s & b & -> & Hs & Hf). exists a, s, (b ++ [m]). rewrite settles_app, settles_one, no_forget_app, <- app_assoc.
  split_and!; [done|tauto|done|done].
Qed.

Lemma entry_ok_snoc now h k e m : no_forget k [m] -> entry_ok now h k e -> entry_ok now (h ++ [m]) k e.
Proof.
  intros Hn (a & s & f & b & t & d & -> & Ht & He & Hf). exists a, s, f, b, t, (d ++ [m]).
  rewrite (app_assoc b), no_forget_app. split_and!; [|done..]. by rewrite <- app_assoc, <- app_comm_cons, <- app_assoc, <- app_comm_cons.
Qed.

Lemma pending_ok_snoc c c' h f r m :
  reads c <= reads c' -> generation c <= generation c' -> ~ settling f m ->
  (generation c' = generation c /\ ~ forgetting m \/ generation c < generation c' /\ forgetting m) ->
  pending_ok c h f r -> pending_ok c' (h ++ [m]) f r.
Proof.
  intros Hr Hg Hm Hgen (Hf & Hgr & a & s & b & -> & Hs & Hu). split_and!; [lia|lia|].
  exists a, s, (b ++ [m]). rewrite settles_app, settles_one, unforgotten_app, <- app_assoc. split_and!; [done|tauto|].
  destruct Hgen as [[E' Hnf]|[Hlt Hfg]].
  - rewrite E', Hu. pose proof (unforgotten_one m Hnf). tauto.
  - split; [lia|]. intros [_ H]. destruct m as [| | | | |name|]; try done. exfalso. apply (H name). by left.
Qed.

(** The last mark of a history in which a value landed is that landing or comes later. *)
Lemma stays_snoc c c' h m now :
  stays c h now -> (forall f v t, m = Landed f v t -> exists k, forall a k' s b, h = a ++ Began k' f s :: b -> k' = k /\ (t <= now)%Q /\
    (unforgotten b -> exists e, entries c' !! k = Some e /\ (t + ttlMs <= expiresAt e)%Q)) ->
  (forall k e, no_forget k [m] -> entries c !! k = Some e -> exists e', entries c' !! k = Some e' /\ (expiresAt e <= expiresAt e')%Q) ->
  stays c' (h ++ [m]) now.
Proof.
  intros Hst Hl Hk a k f s b v t d E. rewrite app_comm_cons, app_assoc in E. apply snoc_split in E as [(-> & -> & E)|(d' & -> & E)].
  - destruct (Hl f v t eq_refl) as (k' & H). destruct (H a k s b (eq_sym E)) as (-> & Ht & Hu). split; [done|]. intros Hb _. left. by apply Hu.
  - rewrite <- app_assoc, <- app_comm_cons in E. destruct (Hst _ _ _ _ _ _ _ _ E) as [Ht Hs]. split; [done|]. intros Hu [Hn Hn']%no_forget_app.
    destruct (Hs Hu Hn) as [(e & He & Hle)|]; [|by right]. destruct (Hk k e Hn' He) as (e' & He' & Hle'). left. exists e'. split; [done|lra].
Qed.

(** ** Every operation keeps the invariant *)

Lemma inv_empty now : inv new_SecretCache [] now.
Proof.
  split; try (intros ? ?; cbn; by rewrite lookup_empty).
  - intros a k f s b E. by destruct a.
  - intros a k f s b v t d E. by destruct a.
  - intros a k f s b E. by destruct a.
  - intros f [(k & s & H)|[(v & t & H)|H]]; by apply not_elem_of_nil in H.
  - intros h1 m h2 E. by destruct h1.
Qed.

Lemma inv_later c h now now' : (now <= now')%Q -> inv c h now -> inv c h now'.
Proof.
  intros Hle [Hp Hf He Ho Hs Hu1 Hr Hg]. split; try done.
  - intros k e H. destruct (He k e H) as (a & s & f & b & t & d & -> & Ht & ? & ?). exists a, s, f, b, t, d. split_and!; [done|lra|done..].
  - intros a k f s b v t d E. destruct (Hs _ _ _ _ _ _ _ _ E) as [Ht H]. split; [lra|]. intros Hu Hn. destruct (H Hu Hn) as [|]; [by left|right; lra].
Qed.

(** Entries that expired may go. *)
Lemma inv_drop c h now es :
  (forall k e, es !! k = Some e -> entries c !! k = Some e) ->
  (forall k e, entries c !! k = Some e -> es !! k = Some e \/ (expiresAt e <= now)%Q) ->
  inv c h now -> inv (with_entries es c) h now.
Proof.
  intros H1 H2 [Hp Hf He Ho Hs Hu1 Hr Hg]. split; try done.
  - intros k e H. by apply He, H1.
  - intros a k f s b v t d E. destruct (Hs _ _ _ _ _ _ _ _ E) as [Ht H]. split; [done|]. intros Hu Hn.
    destruct (H Hu Hn) as [(e & Hk & Hle)|]; [|by right]. destruct (H2 k e Hk) as [Hk'|Hx]; [left; eauto|right; lra].
Qed.

Lemma inv_sweep now c h : inv c h now -> inv (sweep now c).2 h now.
Proof.
  apply inv_drop.
  - by intros k e [H _]%map_lookup_filter_Some.
  - intros k e H. destruct (expired now e) eqn:Ee; [right; by apply Qle_bool_iff|]. left. by apply map_lookup_filter_Some.
Qed.

Lemma inv_look k now c h : inv c h now -> inv (fresh k now c).2 h now.
Proof.
  unfold fresh. destruct (entries c !! k) as [e|] eqn:Ek; [|done]. destruct (expired now e) eqn:Ee; [|done]. apply inv_drop.
  - by intros k' e' [_ H]%lookup_delete_Some.
  - intros k' e' H. destruct (decide (k = k')) as [<-|Hne]; [|left; by rewrite lookup_delete_ne].
    right. apply Qle_bool_iff. by simplify_eq.
Qed.

(** A mark that ends and forgets nothing. *)
Definition plain (m : mark) : Prop := match m with Hit _ _ _ | Joined _ _ | Threw _ => True | _ => False end.

Lemma once_snoc_other h m : (forall k f s, m <> Began k f s) -> once h -> once (h ++ [m]).
Proof.
  intros Hm Ho a k f s b [(_ & -> & _)|(b' & -> & E)]%snoc_split k' s'; [by destruct (Hm k f s)|].
  rewrite app_assoc, elem_of_app, list_elem_of_singleton. intros [H|H]; [by eapply Ho|]. by eapply Hm.
Qed.

Lemma once_split {h} a k f s b a' k' s' b' : once h -> h = a ++ Began k f s :: b -> h = a' ++ Began k' f s' :: b' -> a = a' /\ k = k' /\ s = s' /\ b = b'.
Proof.
  intros Ho E E'. pose proof (Ho _ _ _ _ _ E k' s') as H1. clear Ho. rewrite E in E'. clear E.
  revert a' E'. induction a as [|x a IH]; intros [|y a'] E'; cbn [app] in E'; simplify_eq; [done| | |].
  - destruct H1. cbn [app]. set_solver.
  - destruct H1. set_solver.
  - destruct (IH) with (a' := a') as (-> & -> & -> & ->); [set_solver|done..].
Qed.

Lemma inv_plain c h now m : plain m -> mark_ok m h -> inv c h now -> inv c (h ++ [m]) now.
Proof.
  intros Hpl Hok [Hp Hf He Ho Hs Hu1 Hr Hg].
  assert (forall f, ~ settling f m) as Hset by (intros f; destruct m; cbn in *; tauto). assert (forall k, no_forget k [m]) as Hno.
  { intros k name H%list_elem_of_singleton. subst m. done. }
  split.
  - intros f r H. eapply pending_ok_snoc; [| |done| |by apply Hp]; [lia..|left]. split; [done|]. intros H'. destruct m; cbn in *; tauto.
  - intros k f H. destruct (Hf k f H) as [Hj ?]. split; [|done]. by apply join_ok_snoc.
  - intros k e H. by apply entry_ok_snoc, He.
  - intros a k f s b [(_ & -> & _)|(b' & -> & E)]%snoc_split; [done|].
    destruct (Ho _ _ _ _ _ E) as [H|[H|(name & H & Hn)]]; [left; rewrite settles_app; by left|by right; left|].
    right; right. exists name. rewrite elem_of_app. tauto.
  - eapply stays_snoc; [exact Hs|intros f v t ->; done|]. intros k e _ H. exists e. split; [done|lra].
  - by apply once_snoc_other; [intros k f s ->|].
  - intros f [(k & s & H)|H].
    + apply elem_of_app in H as [H|H%list_elem_of_singleton]; [apply Hr; eauto|subst; done].
    + apply settles_app in H as [H|H%settles_one]; [apply Hr; by right|]. by apply Hset in H.
  - by apply good_snoc.
Qed.

Lemma inv_begin k now c h :
  entries c !! k = None -> flights c !! k = None -> inv c h now -> inv (begin_read k c) (h ++ [Began k (reads c) now]) now.
Proof.
  intros He0 Hf0 [Hp Hf He Ho Hs Hu1 Hr Hg].
  assert (forall b, k = b -> ~ settles (reads c) h) as Hnew by (intros _ _ H; pose proof (Hr _ (or_intror H)); lia).
  assert (forall k', no_forget k' [Began k (reads c) now]) as Hno by (intros k'; by apply unforgotten_no_forget, unforgotten_one; intros []).
  split.
  - intros f r. cbn [pending begin_read]. intros [[<- <-]|[Hne H]]%lookup_insert_Some.
    + cbn [r_key r_generation]. split_and!; [cbn; lia|cbn; lia|]. exists h, now, []. split_and!; [done| |].
      * intros [(v & t & H)|H]; by apply not_elem_of_nil in H.
      * split; [|done]. intros _ name. apply not_elem_of_nil.
    + eapply pending_ok_snoc; [| |by intros []| |by apply Hp]; [cbn; lia|cbn; lia|by left; split; [|intros []]].
  - intros k' f. cbn [flights pending begin_read]. intros [[<- <-]|[Hne H]]%lookup_insert_Some.
    + split; [|eexists; by rewrite lookup_insert_eq]. exists h, now, []. split_and!; [done| |by intros name H%not_elem_of_nil].
      intros [(v & t & H)|H]; by apply not_elem_of_nil in H.
    + destruct (Hf k' f H) as [Hj (r & Hpr & Hk)]. split; [by apply join_ok_snoc; [intros []| |]|].
      exists r. rewrite lookup_insert_ne; [done|]. intros <-. destruct (Hp _ _ Hpr) as [? _]. lia.
  - intros k' e H. by apply entry_ok_snoc, He.
  - intros a k' f s b [(-> & [= <- <- <-] & <-)|(b' & -> & E)]%snoc_split; [right; left; apply lookup_insert_eq|].
    destruct (Ho _ _ _ _ _ E) as [H|[H|(name & H & Hn)]].
    + left. rewrite settles_app. by left.
    + right; left. cbn [flights begin_read]. rewrite lookup_insert_ne; [done|]. intros <-. congruence.
    + right; right. exists name. rewrite elem_of_app. tauto.
  - eapply stays_snoc; [exact Hs|done|]. intros k' e _ H. exists e. split; [done|lra].
  - intros a k' f s b [(-> & [= <- <- <-] & <-)|(b' & -> & E)]%snoc_split k1 s1 Hin.
    + rewrite app_nil_r in Hin. assert (reads c < reads c); [apply Hr; left; eauto|lia].
    + rewrite app_assoc, elem_of_app, list_elem_of_singleton in Hin. destruct Hin as [Hin|[= _ Ef _]]; [by eapply Hu1|].
      assert (reads c < reads c); [|lia]. rewrite <- Ef at 1. apply Hr. left. exists k', s. rewrite E. set_solver.
  - cbn [reads begin_read]. intros f [(k' & s & H)|H].
    + apply elem_of_app in H as [H|[= _ -> _]%list_elem_of_singleton]; [|lia]. assert (f < reads c) by (apply Hr; eauto). lia.
    + apply settles_app in H as [H|H%settles_one]; [|done]. assert (f < reads c) by (apply Hr; by right). lia.
  - apply good_snoc; [done|]. split.
    + intros a f s b E. destruct (Ho _ _ _ _ _ E) as [H|[H|H]]; [by left|congruence|by right].
    + intros a f s b v t d E Hb Hd. destruct (Hs _ _ _ _ _ _ _ _ E) as [_ H]. destruct (H Hb Hd) as [(e & He' & _)|]; [congruence|done].
Qed.

Lemma land_entries k f c : entries (land k f c) = entries c /\ pending (land k f c) = pending c /\ reads (land k f c) = reads c /\
  generation (land k f c) = generation c.
Proof. unfold land. by case_bool_decide. Qed.

Lemma land_flights k f c k' f' : flights (land k f c) !! k' = Some f' <-> flights c !! k' = Some f' /\ ~ (k' = k /\ f' = f).
Proof.
  unfold land. case_bool_decide as H; cbn [flights with_flights].
  - rewrite lookup_delete_Some. split; [intros [Hne ?]; split; [done|intros [-> _]; done]|].
    intros [H1 H2]. split; [|done]. intros <-. apply H2. split; [done|]. congruence.
  - split; [|tauto]. intros H1. split; [done|]. intros [-> ->]. done.
Qed.

(** What the end of a read leaves, whether it brought a value or not. *)
Lemma inv_settle f r c c' h m now :
  pending c !! f = Some r -> settling f m -> inv c h now ->
  pending c' = delete f (pending c) -> reads c' = reads c -> generation c' = generation c ->
  (forall k' f', flights c' !! k' = Some f' <-> flights c !! k' = Some f' /\ ~ (k' = r_key r /\ f' = f)) ->
  (forall k e, entries c' !! k = Some e -> entry_ok now (h ++ [m]) k e) ->
  stays c' (h ++ [m]) now -> inv c' (h ++ [m]) now.
Proof.
  intros Hpf Hm [Hp Hf He Ho Hs Hu1 Hr Hg] Ep Er Eg Ef He' Hs'.
  assert (forall k f' s, m <> Began k f' s) as Hnb by (by intros k f' s ->).
  assert (~ forgetting m) as Hnf by (intros H; destruct m; cbn in *; tauto).
  assert (forall f', f' <> f -> ~ settling f' m) as Hother by (intros f' Hne H; destruct m; cbn in *; congruence).
  split; try done.
  - intros f' r'. rewrite Ep. intros [Hne H]%lookup_delete_Some.
    eapply pending_ok_snoc; [| |apply Hother; congruence| |by apply Hp]; [lia|lia|left; split; [lia|done]].
  - intros k' f' [H Hn]%Ef. destruct (Hf k' f' H) as [Hj (r' & Hpr & Hk)].
    assert (f' <> f) as Hne. { intros ->. apply Hn. split; [congruence|done]. }
    split; [|exists r'; rewrite Ep, lookup_delete_ne by done; done].
    apply join_ok_snoc; [by apply Hother|by apply unforgotten_no_forget, unforgotten_one|done].
  - intros a k' f' s b [(_ & -> & _)|(b' & -> & E)]%snoc_split; [by destruct (Hnb k' f' s)|].
    destruct (decide (f' = f)) as [->|Hne]; [left; rewrite settles_app, settles_one; by right|].
    destruct (Ho _ _ _ _ _ E) as [H|[H|(name & H & Hn)]].
    + left. rewrite settles_app. by left.
    + right; left. apply Ef. split; [done|]. by intros [_ ->].
    + right; right. exists name. rewrite elem_of_app. tauto.
  - by apply once_snoc_other.
  - rewrite Er. intros f' [(k' & s & H)|H].
    + apply elem_of_app in H as [H|H%list_elem_of_singleton]; [apply Hr; eauto|by destruct (Hnb k' f' s)].
    + apply settles_app in H as [H|H%settles_one]; [apply Hr; by right|].
      destruct (decide (f' = f)) as [->|Hne]; [by apply (Hp f r)|by destruct (Hother f' Hne)].
  - apply good_snoc; [done|]. destruct m; cbn in *; tauto.
Qed.

Lemma inv_resolve f v now c h c' marks :
  (0 <= ttlMs)%Q -> resolve f v now c = Some (c', marks) -> inv c h now -> inv c' (h ++ marks) now.
Proof.
  intros Httl E Hi. unfold resolve in E. destruct (pending c !! f) as [r|] eqn:Ef; cbn [mbind option_bind] in E; [|done]. injection E as <- <-.
  pose proof (inv_pending _ _ _ Hi f r Ef) as (_ & _ & a & s & b & Eh & Hns & Hu).
  set (c1 := with_pending _ c). set (c2 := if r_generation r =? generation c
             then with_entries (<[r_key r := {| e_value := v; expiresAt := (now + ttlMs)%Q |}]> (entries c)) c1 else c1).
  destruct (land_entries (r_key r) f c2) as (E1 & E2 & E3 & E4).
  assert (pending c2 = pending c1 /\ reads c2 = reads c /\ generation c2 = generation c /\ flights c2 = flights c) as (P1 & P2 & P3 & P4)
    by (subst c2; by destruct (_ =? _)).
  assert (forall k e, entries c2 !! k = Some e ->
    entries c !! k = Some e \/ k = r_key r /\ e = {| e_value := v; expiresAt := (now + ttlMs)%Q |} /\ unforgotten b) as H2.
  { intros k e. subst c2. destruct (Nat.eqb_spec (r_generation r) (generation c)) as [Eg|_]; [|by left].
    cbn [entries with_entries]. intros [[<- <-]|[_ H]]%lookup_insert_Some; [right|by left]. split_and!; [done..|]. by apply Hu. }
  assert (no_forget (r_key r) [Landed f v now]) as Hno by (apply unforgotten_no_forget, unforgotten_one; intros []).
  eapply (inv_settle f r c); [done|done|done|by rewrite E2, P1|by rewrite E3|by rewrite E4| | |].
  - intros k' f'. by rewrite land_flights, P4.
  - rewrite E1. intros k e [H|(-> & -> & Hb)]%H2.
    + apply entry_ok_snoc; [apply unforgotten_no_forget, unforgotten_one; intros []|]. by apply (inv_entry _ _ _ Hi).
    + exists a, s, f, b, now, []. cbn [e_value expiresAt]. split_and!; [by rewrite Eh, <- app_assoc|lra|done|].
      rewrite app_nil_r. by apply unforgotten_no_forget.
  - eapply stays_snoc; [apply (inv_stays _ _ _ Hi)| |].
    + intros f0 v0 t0 [= <- <- <-]. exists (r_key r). intros a' k' s' b' E'.
      destruct (once_split _ _ _ _ _ _ _ _ _ (inv_once _ _ _ Hi) Eh E') as (_ & Ek & _ & Eb). rewrite <- Ek, <- Eb. split_and!; [done|lra|].
      intros Hb. rewrite E1. subst c2. rewrite (proj2 (Nat.eqb_eq _ _)) by (cbn; by apply Hu). eexists. split; [apply lookup_insert_eq|cbn; lra].
    + rewrite E1. intros k e _ H. destruct (inv_entry _ _ _ Hi k e H) as (? & ? & ? & ? & t & ? & _ & Ht & He & _).
      subst c2. destruct (Nat.eqb_spec (r_generation r) (generation c)) as [Eg|_]; [|exists e; split; [done|lra]].
      cbn [entries with_entries]. destruct (decide (k = r_key r)) as [->|Hne].
      * eexists. split; [apply lookup_insert_eq|]. cbn [expiresAt]. rewrite He. lra.
      * exists e. rewrite lookup_insert_ne by done. split; [done|lra].
Qed.

Lemma inv_reject f now c h c' marks :
  reject f c = Some (c', marks) -> inv c h now -> inv c' (h ++ marks) now.
Proof.
  intros E Hi. unfold reject in E. destruct (pending c !! f) as [r|] eqn:Ef; cbn [mbind option_bind] in E; [|done]. injection E as <- <-.
  destruct (land_entries (r_key r) f (with_pending (delete f (pending c)) c)) as (E1 & E2 & E3 & E4).
  eapply (inv_settle f r c); [done|done|done|done|done|done| | |].
  - intros k' f'. by rewrite land_flights.
  - rewrite E1. intros k e H. apply entry_ok_snoc; [apply unforgotten_no_forget, unforgotten_one; intros []|]. by apply (inv_entry _ _ _ Hi).
  - eapply stays_snoc; [apply (inv_stays _ _ _ Hi)|done|]. rewrite E1. intros k e _ H. exists e. split; [done|lra].
Qed.

(** What [invalidate] keeps: what it is not about. *)
Lemma inv_forget name c c' h now :
  pending c' = pending c -> reads c' = reads c -> generation c' = S (generation c) ->
  (forall k f, flights c' !! k = Some f <-> flights c !! k = Some f /\ forgets name k = false) ->
  (forall k e, entries c' !! k = Some e <-> entries c !! k = Some e /\ forgets name k = false) ->
  inv c h now -> inv c' (h ++ [Forgot name]) now.
Proof.
  intros Ep Er Eg Ef Ee [Hp Hf He Ho Hs Hu1 Hr Hg]. split.
  - intros f r. rewrite Ep. intros H. eapply pending_ok_snoc; [| |by intros []| |by apply Hp]; [lia|lia|right]. split; [lia|done].
  - intros k f [H Hn]%Ef. destruct (Hf k f H) as [Hj Hr']. split; [|by rewrite Ep].
    apply join_ok_snoc; [by intros []|by apply no_forget_one|done].
  - intros k e [H Hn]%Ee. apply entry_ok_snoc; [by apply no_forget_one|by apply He].
  - intros a k f s b [(_ & [=] & _)|(b' & -> & E)]%snoc_split.
    destruct (Ho _ _ _ _ _ E) as [H|[H|(n & H & Hn)]].
    + left. rewrite settles_app. by left.
    + right. destruct (forgets name k) eqn:En; [right|left; by apply Ef]. exists name. rewrite elem_of_app. split; [right; by left|done].
    + right; right. exists n. rewrite elem_of_app. tauto.
  - eapply stays_snoc; [exact Hs|done|]. intros k e Hn H. exists e. split; [|lra]. apply Ee. split; [done|]. apply Hn. by left.
  - by apply once_snoc_other.
  - rewrite Er. intros f [(k' & s & H)|H].
    + apply elem_of_app in H as [H|[=]%list_elem_of_singleton]. apply Hr; eauto.
    + apply settles_app in H as [H|H%settles_one]; [apply Hr; by right|done].
  - by apply good_snoc.
Qed.

Lemma inv_invalidate name c h now : inv c h now -> inv (invalidate name c).1 (h ++ (invalidate name c).2) now.
Proof.
  intros Hi. unfold invalidate. destruct (discards name) as [d|e] eqn:Ed; cbn [fst snd].
  - eapply inv_forget; [..|exact Hi]; try done; intros k x; cbn [flights entries with_flights with_entries next_generation]; unfold keep;
      rewrite map_lookup_filter_Some; unfold forgets; by rewrite Ed.
  - change [Forgot name; Threw e] with ([Forgot name] ++ [Threw e]). rewrite app_assoc. apply inv_plain; [done|done|].
    eapply inv_forget; [..|exact Hi]; try done; intros k x; cbn; unfold forgets; rewrite Ed; tauto.
Qed.

Lemma inv_identities ids c h now : inv c h now -> inv (with_identities ids c) h now.
Proof. by intros [Hp Hf He Ho Hs Hu1 Hr Hg]. Qed.

Lemma inv_get secret now now' c h :
  (now <= now')%Q -> inv c h now -> inv (get secret now now' c).1 (h ++ (get secret now now' c).2) now'.
Proof.
  intros Hle Hi. apply (inv_sweep now) in Hi. apply (inv_later _ _ _ now' Hle) in Hi. unfold get.
  set (c1 := (sweep now c).2) in *. destruct (asRef secret) as [r|e]; [|by apply inv_plain].
  unfold key. destruct (identity _) as [i ids]. apply (inv_identities ids) in Hi. set (c2 := with_identities ids c1) in *.
  destruct (resolveSecretId (SecretNames.name r) prefix) as [id|e]; cbn [mbind result_bind]; [|by apply inv_plain].
  set (k := key_text i id (selector r)). pose proof (inv_look k now' c2 h Hi) as Hf.
  destruct (fresh k now' c2) as [[v|] c3] eqn:Ec; cbn [fst snd] in *.
  - apply inv_plain; [done| |done]. cbn [mark_ok]. unfold fresh in Ec. destruct (entries c2 !! k) as [e|] eqn:Ek; [|done].
    destruct (expired now' e) eqn:Ex; [done|]. injection Ec as <- <-.
    destruct (inv_entry _ _ _ Hf k e Ek) as (a & s & f & b & t & d & -> & _ & He & Hn).
    exists a, s, f, b, t, d. split_and!; [done| |done]. rewrite <- He. apply Qnot_le_lt. intros H. apply Qle_bool_iff in H.
    unfold expired in Ex. congruence.
  - assert (entries c3 !! k = None) as He.
    { unfold fresh in Ec. destruct (entries c2 !! k) as [e|] eqn:Ek; [|by injection Ec as <-].
      destruct (expired now' e); [|done]. injection Ec as <-. apply lookup_delete_eq. }
    destruct (flights c3 !! k) as [f|] eqn:Efl; cbn [fst snd]; [|by apply inv_begin].
    apply inv_plain; [done|by apply (inv_flight _ _ _ Hf)|done].
Qed.

Lemma inv_run es c h now c' marks :
  (0 <= ttlMs)%Q -> inv c h now -> on_time now es -> run c es = Some (c', marks) -> exists now', inv c' (h ++ marks) now'.
Proof.
  intros Httl. revert c h now marks. induction es as [|e es IH]; intros c h now marks Hi Ht E; cbn [run] in E.
  { injection E as <- <-. exists now. by rewrite app_nil_r. }
  destruct (step c e) as [[c1 m1]|] eqn:Es; cbn [mbind option_bind] in E; [|done].
  destruct (run c1 es) as [[c2 m2]|] eqn:Er; cbn [mbind option_bind] in E; [|done]. injection E as <- <-. rewrite app_assoc.
  enough (exists now1, inv c1 (h ++ m1) now1 /\ on_time now1 es) as (now1 & H1 & H2) by by eapply IH.
  destruct e as [secret t t'|f v t|f|name|name t t'|t]; cbn [step on_time] in *.
  - destruct Ht as [[H1 H2] Ht]. injection Es as Es. exists t'. split; [|done].
    pose proof (inv_get secret t t' c h H2 (inv_later _ _ _ _ H1 Hi)) as H. by rewrite Es in H.
  - destruct Ht as [H1 Ht]. exists t. split; [|done]. eapply inv_resolve; [done|exact Es|by eapply inv_later].
  - exists now. split; [|done]. by eapply inv_reject.
  - exists now. split; [|done]. injection Es as Es. pose proof (inv_invalidate name c h now Hi) as H. by rewrite Es in H.
  - destruct Ht as [[H1 H2] Ht]. exists t'. split; [|done]. injection Es as Es. unfold refresh in Es.
    pose proof (inv_invalidate name c h t (inv_later _ _ _ _ H1 Hi)) as H. destruct (invalidate name c) as [c0 m0]. cbn [fst snd] in H.
    destruct (discards name), name as [secret|]; try (injection Es as <- <-; by apply (inv_later _ _ t)).
    pose proof (inv_get secret t t' c0 (h ++ m0) H2 H) as H'. destruct (get secret t t' c0) as [c3 m3]. injection Es as <- <-. by rewrite app_assoc.
  - destruct Ht as [H1 Ht]. exists t. injection Es as <- <-. split; [|done]. rewrite app_nil_r. apply inv_sweep. by eapply inv_later.
Qed.

(** ** Names and keys *)

(** [invalidate(name)] is about the secret of [r]: about all of them, about every version of
    it, or about the very version. *)
Definition names_secret (name : option SecretLike) (r : SecretRef) (id : text) : Prop :=
  match name with
  | None => True
  | Some secret => exists r', asRef secret = Ok r' /\ resolveSecretId (SecretNames.name r') prefix = Ok id /\
      match secret with Ref _ => selector r' = selector r | _ => True end
  end.

Lemma key_text_parts i id sel : exists a, key_text i id sel = a ++ (BAR :: id ++ [BAR]) ++ sel.
Proof.
  exists (default [] region ++ [BAR] ++ print_nat 10 (N.of_nat i)). unfold key_text. cbn [join].
  by rewrite <- !app_assoc; cbn [app]; rewrite <- !app_assoc.
Qed.

Lemma forgets_secret name r id i : names_secret name r id -> forgets name (key_text i id (selector r)) = true.
Proof.
  destruct name as [secret|]; [|done]. intros (r' & Hr & Hid & Hsel). unfold forgets, discards. rewrite Hr. cbn [mbind result_bind].
  rewrite Hid. cbn [mbind result_bind]. unfold matches. destruct (key_text_parts i id (selector r)) as [a ->].
  rewrite includes_app_r by by rewrite includes_self. cbn [andb]. destruct secret as [s|r0|]; [done| |done].
  injection Hr as ->. rewrite Hsel. replace (a ++ (BAR :: id ++ [BAR]) ++ selector r) with ((a ++ BAR :: id) ++ BAR :: selector r).
  - apply ends_with_app.
  - by rewrite <- !app_assoc; cbn [app]; rewrite <- app_assoc.
Qed.

Lemma cache_ttl_ok ttlSeconds store : cache_ttl ttlSeconds store = Ok ttlMs -> (1000 <= ttlMs <= 86400000)%Q.
Proof.
  unfold cache_ttl. destruct (match ttlSeconds with JUndefined => _ | _ => _ end) as [ttl|]; [|done].
  destruct (Qle_bool 1 ttl) eqn:E1; [|done]. destruct (Qle_bool ttl MAX_TTL_SECONDS) eqn:E2; [|done]. cbn [negb orb].
  apply Qle_bool_iff in E1, E2. unfold MAX_TTL_SECONDS in E2.
  assert (1000 <= ttl * 1000 <= 86400000)%Q as H by lra.
  destruct store as [p|[]|]; [|done|by intros [= <-]|done]. intros (? & _ & [= <-])%bind_ok. done.
Qed.

(** C40. A value is never stale.  Whatever is got, read and invalidated in whatever order,
    a value handed out of the cache came from a read that landed less than the time to live
    before, and since that read began its secret was not invalidated; and a read that is
    shared has not come back and began after the last [invalidate] of its secret, which
    covers every version of it. *)
Theorem cache_never_stale ttlSeconds store es now c marks :
  cache_ttl ttlSeconds store = Ok ttlMs -> on_time now es -> run new_SecretCache es = Some (c, marks) ->
  (forall before k v t after, marks = before ++ Hit k v t :: after -> hit_ok k v t before) /\
  (forall before k f after, marks = before ++ Joined k f :: after -> join_ok k f before) /\
  (forall name r id i, names_secret name r id -> forgets name (key_text i id (selector r)) = true).
Proof.
  intros Ht Ho Hr. apply cache_ttl_ok in Ht.
  destruct (inv_run es new_SecretCache [] now c marks ltac:(lra) (inv_empty now) Ho Hr) as [now' Hi].
  pose proof (inv_good _ _ _ Hi) as Hg. split_and!; [|intros ????; apply Hg|intros ????; apply forgets_secret].
  intros before k v t after E. by apply (Hg before (Hit k v t) after).
Qed.

(** A secret is not read more than it needs: when a read begins, every read of the same
    key before it came back or was forgotten by an [invalidate], and if one of them landed,
    with no [invalidate] since it began, the time to live has passed since. *)
Theorem cache_reads_spaced ttlSeconds store es now c marks :
  cache_ttl ttlSeconds store = Ok ttlMs -> on_time now es -> run new_SecretCache es = Some (c, marks) ->
  forall before k f t after, marks = before ++ Began k f t :: after -> single_flight k before /\ spaced k t before.
Proof.
  intros Ht Ho Hr before k f t after E. apply cache_ttl_ok in Ht.
  destruct (inv_run es new_SecretCache [] now c marks ltac:(lra) (inv_empty now) Ho Hr) as [now' Hi].
  exact (inv_good _ _ _ Hi before (Began k f t) after E).
Qed.

(** A sweep leaves nothing that has expired. *)
Lemma sweep_leaves_fresh now c k e : entries (sweep now c).2 !! k = Some e -> (now < expiresAt e)%Q.
Proof.
  unfold sweep. cbn [snd entries with_entries]. intros [_ H]%map_lookup_filter_Some. cbn in H. apply Qnot_le_lt. intros H'.
  apply Qle_bool_iff in H'. unfold expired in H. congruence.
Qed.
End Cache.

(** ** Samples *)

Definition openai : SecretLike := Named (txt "openai").
Definition sample_ttl : Q := (300 * 1000)%Q.

(** A read shared by two calls, a hit, an [invalidate] while the next one is read, whose value
    is then not kept. *)
Definition sample_events : list event := [
  Get openai 0 0; Get openai 1 1; Resolve 0 (txt "v1") 5; Get openai 10 10; Invalidate (Some openai); Get openai 20 20;
  Invalidate (Some openai); Get openai 21 21; Resolve 1 (txt "v1") 22; Get openai 23 23; Resolve 2 (txt "v2") 24; Get openai 30 30 ].

Definition sample_run := run None 0 DEFAULT_SECRET_PREFIX sample_ttl new_SecretCache sample_events.

Definition sample_key : text := txt "|0|rayito/openai|VersionStage:AWSCURRENT".

Example sample_marks : snd <$> sample_run = Some [
  Began sample_key 0 0; Joined sample_key 0; Landed 0 (txt "v1") 5; Hit sample_key (txt "v1") 10; Forgot (Some openai);
  Began sample_key 1 20; Forgot (Some openai); Began sample_key 2 21; Landed 1 (txt "v1") 22; Joined sample_key 2;
  Landed 2 (txt "v2") 24; Hit sample_key (txt "v2") 30 ].
Proof. by vm_compute. Qed.

Lemma sample_on_time : on_time 0 sample_events.
Proof. repeat split; by apply Qle_bool_iff. Qed.

Lemma cache_never_stale_witness : exists c marks,
  cache_ttl (jint 300) (OwnStore false) = Ok sample_ttl /\ on_time 0 sample_events /\ sample_run = Some (c, marks) /\
  (forall before k v t after, marks = before ++ Hit k v t :: after -> hit_ok DEFAULT_SECRET_PREFIX sample_ttl k v t before).
Proof.
  destruct sample_run as [[c marks]|] eqn:E; [|vm_compute in E; discriminate E]. exists c, marks.
  split; [vm_compute; reflexivity|]. split; [exact sample_on_time|]. split; [reflexivity|].
  exact (proj1 (cache_never_stale None 0 DEFAULT_SECRET_PREFIX sample_ttl (jint 300) (OwnStore false) sample_events 0 c marks
    ltac:(vm_compute; reflexivity) sample_on_time E)).
Defined.

Lemma cache_reads_spaced_witness : exists c marks,
  cache_ttl (jint 300) (OwnStore false) = Ok sample_ttl /\ on_time 0 sample_events /\ sample_run = Some (c, marks) /\
  (forall before k f t after, marks = before ++ Began k f t :: after ->
     single_flight DEFAULT_SECRET_PREFIX k before /\ spaced DEFAULT_SECRET_PREFIX sample_ttl k t before).
Proof.
  destruct sample_run as [[c marks]|] eqn:E; [|vm_compute in E; discriminate E]. exists c, marks.
  split; [vm_compute; reflexivity|]. split; [exact sample_on_time|]. split; [reflexivity|].
  exact (cache_reads_spaced None 0 DEFAULT_SECRET_PREFIX sample_ttl (jint 300) (OwnStore false) sample_events 0 c marks
    ltac:(vm_compute; reflexivity) sample_on_time E).
Defined.

(** The generation is one for all secrets: a read in flight when another secret is
    invalidated brings its value to who waits for it, and nothing is kept. *)
Example other_secret_invalidated :
  snd <$> run None 0 DEFAULT_SECRET_PREFIX sample_ttl new_SecretCache
    [Get openai 0 0; Invalidate (Some (Named (txt "other"))); Resolve 0 (txt "v1") 5; Get openai 10 10] =
  Some [Began sample_key 0 0; Forgot (Some (Named (txt "other"))); Landed 0 (txt "v1") 5; Began sample_key 1 10].
Proof. by vm_compute. Qed.
