(* ===== verification/SecretEnvs.v ===== *)
(** * SecretEnvs: secrets as environment variables

    src/clients/typescript/src/secrets/inject.ts: the references of a call, the binding a
    handle keeps, the caches that a process shares, and the environment of a call with its
    secrets in it.  What the cache answers for a reference is a parameter; where several
    reads fail, the error is the one of the first.  The warning about visibility and the
    sweeps of the shared caches are left out. *)

From stdpp Require Import base option list strings sets.
From Stdlib Require Import NArith ZArith Lia.
From S2P Require Import Prelude Text JsMap Payload SecretNames.

Local Open Scope nat_scope.

(** ** References *)

(** [secrets]: nothing, an object, or a value that is none. *)
Inductive SecretsInput := NoSecrets | Secrets (es : list (text * SecretLike)) | NotAnObject.

(** A [Map] from variables to references, in order of insertion. *)
Abbreviation Refs := (list (text * SecretRef)).

(** [m.set(k, a)] of a map, or the assignment of a property of an object. *)
Fixpoint set_text {A} (k : text) (a : A) (m : list (text * A)) : list (text * A) :=
  match m with
  | [] => [(k, a)]
  | (k', a') :: m => if bool_decide (k = k') then (k, a) :: m else (k', a') :: set_text k a m
  end.

Fixpoint lookup_text {A} (k : text) (m : list (text * A)) : option A :=
  match m with [] => None | (k', a) :: m => if bool_decide (k = k') then Some a else lookup_text k m end.

Definition EQUALS : N := 61.

Definition variable_name (k : text) : bool :=
  negb (bool_decide (k = [])) && negb (bool_decide (EQUALS ∈ k)) && negb (bool_decide (0%N ∈ k)).

Fixpoint normalize_entries (es : list (text * SecretLike)) (refs : Refs) : result Refs :=
  match es with
  | [] => Ok refs
  | (k, secret) :: es =>
      if negb (variable_name k) then Throw InvalidArgumentError
      else match secret with
           | Named [] | NotASecret => Throw InvalidArgumentError
           | _ => r ← asRef secret; normalize_entries es (set_text k r refs)
           end
  end.

Definition normalizeSecrets (secrets : SecretsInput) : result Refs :=
  match secrets with
  | NoSecrets => Ok []
  | NotAnObject => Throw InvalidArgumentError
  | Secrets es => normalize_entries (property_order es) []
  end.

(** ** Bindings *)

Section Binding.
Context {Cache : Type} (getValue : Cache -> SecretRef -> result text).

Record SecretBinding := { refs : Refs; cache : option Cache }.

(** [secretCache]: one, none, or a value of another class. *)
Inductive cache_option := NoCache | ACache (c : Cache) | NotACache.

Definition validateSecretCache (c : cache_option) : result (option Cache) :=
  match c with NoCache => Ok None | ACache c => Ok (Some c) | NotACache => Throw InvalidArgumentError end.

Definition bind_refs (refs : Refs) (cache : option Cache) : option SecretBinding :=
  match refs, cache with [], None => None | _, _ => Some {| refs := refs; cache := cache |} end.

Definition bindSecrets (secrets : SecretsInput) (secretCache : cache_option) : result (option SecretBinding) :=
  cache ← validateSecretCache secretCache;
  refs ← normalizeSecrets secrets;
  Ok (bind_refs refs cache).

Fixpoint get_all (c : Cache) (rs : list SecretRef) : result (list text) :=
  match rs with [] => Ok [] | r :: rs => v ← getValue c r; vs ← get_all c rs; Ok (v :: vs) end.

Definition warm (binding : option SecretBinding) (defaultCache : Cache) : result (option SecretBinding) :=
  match binding with
  | None => Ok None
  | Some b =>
      let c := default defaultCache (cache b) in
      _ ← get_all c (refs b).*2; Ok (Some {| refs := refs b; cache := Some c |})
  end.

(** [rebind(options)]: what the handle keeps afterwards. *)
Definition rebind (binding : option SecretBinding) (secrets : SecretsInput) (secretCache : cache_option) (defaultCache : Cache)
  : result (option SecretBinding) :=
  given ← validateSecretCache secretCache;
  match secrets with
  | NoSecrets =>
      match given with
      | None => Ok binding
      | Some c => warm (Some {| refs := default [] (refs <$> binding); cache := Some c |}) defaultCache
      end
  | _ =>
      rs ← normalizeSecrets secrets;
      match rs with
      | _ :: _ => warm (bind_refs rs given) defaultCache
      | [] =>
          match match given with Some c => Some c | None => b ← binding; cache b end with
          | None => Ok None
          | Some c => Ok (Some {| refs := []; cache := Some c |})
          end
      end
  end.

(** ** The environment of a call *)

Definition call_refs (bound : option SecretBinding) (includeBound : bool) (own : Refs) : Refs :=
  foldl (fun m e => set_text e.1 e.2 m) (match bound with Some b => if includeBound then refs b else [] | None => [] end) own.

(** [{ ...a, ...b }]: the properties of [a], overwritten, then the new ones of [b]. *)
Definition spread (a b : list (text * text)) : list (text * text) := foldl (fun m e => set_text e.1 e.2 m) a b.

Definition secretEnvs (envs : option (list (text * text))) (bound : option SecretBinding) (secrets : SecretsInput)
    (defaultCache : Cache) (includeBound : bool) : result (option (list (text * text))) :=
  own ← normalizeSecrets secrets;
  let rs := call_refs bound includeBound own in
  match rs with
  | [] => Ok envs
  | _ =>
      if existsb (fun k => bool_decide (k ∈ (default [] envs).*1)) rs.*1 then Throw InvalidArgumentError
      else
        vs ← get_all (default defaultCache (b ← bound; cache b)) rs.*2;
        Ok (Some (spread (default [] envs) (zip rs.*1 vs)))
  end.

(** [SecretEnvs.apply]. *)
Definition apply (binding : option SecretBinding) (envs : option (list (text * text))) (secrets : SecretsInput)
    (defaultCache : Cache) (includeBound : bool) : result (option (list (text * text))) :=
  match binding, secrets with
  | None, NoSecrets => Ok envs
  | _, _ => secretEnvs envs binding secrets defaultCache includeBound
  end.
End Binding.

Arguments SecretBinding : clear implicits.
Arguments cache_option : clear implicits.

(** Whether a cell of [runCode] may carry the secrets of the handle. *)
Definition codeSecretsScope (language contextLanguage : option text) (secrets : SecretsInput) : result bool :=
  match match language with Some l => Some l | None => contextLanguage end with
  | None => Ok false
  | Some target =>
      if bool_decide (to_lower target ∈ [txt "python"; txt "python3"]) then Ok true
      else match secrets with Secrets (_ :: _) => Throw InvalidArgumentError | _ => Ok false end
  end.

(** ** The caches of a process *)

Definition MAX_SHARED_CACHES : nat := 32.

Section Shared.
Context {Id : Type} `{EqDecision Id}.

(** The region and the credentials of a cache, and which cache it is; first the one used
    longest ago. *)
Record SharedEntry := { identity : Id; shared : nat }.

(** [caches]: how many were made. *)
Record Process := { sharedCaches : list SharedEntry; caches : nat }.

(** The loop that drops the first until there are few enough. *)
Fixpoint shift_to (fuel : nat) (l : list SharedEntry) : list SharedEntry :=
  match fuel with
  | O => l
  | S fuel => if MAX_SHARED_CACHES <? length l then shift_to fuel (tail l) else l
  end.

Definition sharedSecretCache (i : Id) (p : Process) : nat * Process :=
  match list_find (fun e => identity e = i) (sharedCaches p) with
  | Some (n, e) => (shared e, {| sharedCaches := delete n (sharedCaches p) ++ [e]; caches := caches p |})
  | None =>
      let l := sharedCaches p ++ [{| identity := i; shared := caches p |}] in
      (caches p, {| sharedCaches := shift_to (length l) l; caches := S (caches p) |})
  end.

Definition requests (ids : list Id) : Process :=
  foldl (fun p i => (sharedSecretCache i p).2) {| sharedCaches := []; caches := 0 |} ids.
End Shared.
Arguments SharedEntry : clear implicits.
Arguments Process : clear implicits.

(** ** Maps of texts: lemmas *)

Lemma lookup_set_text {A} k k' (a : A) m : lookup_text k' (set_text k a m) = if bool_decide (k' = k) then Some a else lookup_text k' m.
Proof.
  induction m as [|[k0 a0] m IH]; cbn [set_text lookup_text]; [done|].
  destruct (bool_decide_reflect (k = k0)) as [<-|Hne]; cbn [lookup_text]; [by case_bool_decide|].
  rewrite IH. repeat case_bool_decide; congruence.
Qed.

Lemma keys_set_text {A} k (a : A) m : forall k', k' ∈ (set_text k a m).*1 <-> k' = k \/ k' ∈ m.*1.
Proof.
  induction m as [|[k0 a0] m IH]; intros k'; cbn [set_text]; [set_solver|].
  destruct (bool_decide_reflect (k = k0)) as [<-|Hne]; cbn; [set_solver|]. rewrite !elem_of_cons. rewrite IH. tauto.
Qed.

Lemma nodup_set_text {A} k (a : A) m : NoDup m.*1 -> NoDup (set_text k a m).*1.
Proof.
  induction m as [|[k0 a0] m IH]; cbn [set_text]; [intros _; repeat constructor; apply not_elem_of_nil|].
  cbn. intros [H1 H2]%NoDup_cons. destruct (bool_decide_reflect (k = k0)) as [<-|Hne]; cbn; constructor; auto.
  rewrite keys_set_text. intros [->|?]; done.
Qed.

Lemma lookup_text_keys {A} k (m : list (text * A)) : lookup_text k m = None <-> k ∉ m.*1.
Proof.
  induction m as [|[k0 a0] m IH]; cbn; [split; [intros _; apply not_elem_of_nil|done]|].
  rewrite not_elem_of_cons. destruct (bool_decide_reflect (k = k0)) as [<-|Hne]; [|tauto]. split; [done|]. tauto.
Qed.

Lemma fold_set_nodup {A} (l m : list (text * A)) : NoDup m.*1 -> NoDup (foldl (fun m e => set_text e.1 e.2 m) m l).*1.
Proof. revert m. induction l as [|e l IH]; intros m H; [done|]. by apply IH, nodup_set_text. Qed.

(** Later entries win; among those with distinct keys there is one. *)
Lemma lookup_fold_set {A} k (l m : list (text * A)) :
  NoDup l.*1 -> lookup_text k (foldl (fun m e => set_text e.1 e.2 m) m l) =
    match lookup_text k l with Some a => Some a | None => lookup_text k m end.
Proof.
  revert m. induction l as [|[k0 a] l IH]; intros m Hl; [done|]. cbn in Hl. apply NoDup_cons in Hl as [H1 H2].
  cbn [foldl lookup_text fst snd]. rewrite IH, lookup_set_text by done.
  destruct (bool_decide_reflect (k = k0)) as [<-|Hne]; [|done]. by rewrite (proj2 (lookup_text_keys _ _)).
Qed.

Lemma normalize_nodup es m refs : NoDup m.*1 -> normalize_entries es m = Ok refs -> NoDup refs.*1.
Proof.
  revert m. induction es as [|[k secret] es IH]; intros m Hm; cbn [normalize_entries]; [by intros [= <-]|].
  destruct (variable_name k); [|done]. cbn [negb].
  destruct secret as [[|]|r|]; try done; (intros (r' & _ & H)%bind_ok; eapply IH; [by apply nodup_set_text|exact H]).
Qed.

Lemma normalizeSecrets_nodup secrets refs : normalizeSecrets secrets = Ok refs -> NoDup refs.*1.
Proof.
  destruct secrets; cbn [normalizeSecrets]; [intros [= <-]; constructor| |done]. apply normalize_nodup. constructor.
Qed.

(** ** What a call is given *)

Section Theorems.
Context {Cache : Type} (getValue : Cache -> SecretRef -> result text).

Definition binding_ok (b : option (SecretBinding Cache)) : Prop := match b with Some b => NoDup (refs b).*1 | None => True end.

Lemma warm_ok b dc b' : binding_ok b -> warm getValue b dc = Ok b' -> binding_ok b'.
Proof. destruct b as [b|]; cbn [warm]; [|by intros _ [= <-]]. by intros H (? & _ & [= <-])%bind_ok. Qed.

(** Every binding a handle may have holds each variable once. *)
Lemma rebind_ok b secrets given dc b' : binding_ok b -> rebind getValue b secrets given dc = Ok b' -> binding_ok b'.
Proof.
  intros Hb. unfold rebind. intros (c & _ & H)%bind_ok. revert H.
  assert (forall rs, normalizeSecrets secrets = Ok rs -> match rs with
    | _ :: _ => warm getValue (bind_refs rs c) dc
    | [] => match match c with Some c => Some c | None => b ← b; cache b end with
            | None => Ok None | Some c => Ok (Some {| refs := []; cache := Some c |}) end end = Ok b' -> binding_ok b') as Hgen.
  { intros [|e rs] Hn; [destruct (match c with Some _ => _ | None => _ end); intros [= <-]; [constructor|done]|].
    apply warm_ok. apply normalizeSecrets_nodup in Hn. done. }
  destruct secrets; [|by intros (rs & Hn & H)%bind_ok; eapply Hgen..]. clear Hgen.
  destruct c as [c|]; [|by intros [= <-]]. apply warm_ok. cbn. destruct b; [done|constructor].
Qed.

Lemma get_all_zip c rs vs : get_all getValue c rs.*2 = Ok vs ->
  (zip rs.*1 vs).*1 = rs.*1 /\ forall k r, lookup_text k rs = Some r -> exists v, getValue c r = Ok v /\ lookup_text k (zip rs.*1 vs) = Some v.
Proof.
  revert vs. induction rs as [|[k0 r0] rs IH]; intros vs; cbn; [by intros [= <-]|].
  intros (v & Hv & (vs' & Hvs & [= <-])%bind_ok)%bind_ok. destruct (IH vs' Hvs) as [H1 H2]. cbn. split; [by rewrite H1|].
  intros k r. case_bool_decide; [intros [= <-]; eauto|apply H2].
Qed.

(** The environment of a call holds exactly what was asked: a variable of the call's
    [secrets], or else of the handle's where those are included, has the value that the
    cache gives for its reference, and was not in [envs]; every other variable is as in
    [envs].  Nothing is overwritten in silence. *)
Theorem secret_envs_exact envs bound secrets dc inc out :
  binding_ok bound -> secretEnvs getValue envs bound secrets dc inc = Ok out ->
  exists own, normalizeSecrets secrets = Ok own /\ forall k,
    match lookup_text k own, lookup_text k (match bound with Some b => if inc then refs b else [] | None => [] end) with
    | Some r, _ | None, Some r =>
        lookup_text k (default [] envs) = None /\
        exists v, getValue (default dc (b ← bound; cache b)) r = Ok v /\ lookup_text k (default [] out) = Some v
    | None, None => lookup_text k (default [] out) = lookup_text k (default [] envs)
    end.
Proof.
  intros Hb. unfold secretEnvs. intros (own & Hown & H)%bind_ok. exists own. split; [done|]. intros k.
  set (base := match bound with Some b => _ | None => _ end) in *. pose proof (normalizeSecrets_nodup _ _ Hown) as Hno.
  assert (NoDup base.*1) as Hbase by (subst base; destruct bound as [b|]; [destruct inc; [done|]|]; constructor).
  pose proof (lookup_fold_set k own base Hno) as Hl. pose proof (fold_set_nodup own base Hbase) as Hnd.
  change (foldl (fun m e => set_text e.1 e.2 m) base own) with (call_refs bound inc own) in Hl, Hnd.
  destruct (call_refs bound inc own) as [|e rs'] eqn:Ers.
  { injection H as <-. cbn [lookup_text] in Hl. destruct (lookup_text k own); [done|]. by rewrite <- Hl. }
  rewrite <- Ers in *. clear Ers e rs'. set (rs := call_refs bound inc own) in *.
  destruct (existsb _ _) eqn:Ec; [done|]. apply bind_ok in H as (vs & Hvs & [= <-]). destruct (get_all_zip _ _ _ Hvs) as [Hz Hv].
  assert (lookup_text k (spread (default [] envs) (zip rs.*1 vs)) =
    match lookup_text k (zip rs.*1 vs) with Some a => Some a | None => lookup_text k (default [] envs) end) as Hout
    by (apply lookup_fold_set; by rewrite Hz).
  cbn [from_option id]. cbn [from_option id] in Hout. rewrite Hout.
  enough (match lookup_text k rs with
    | Some r => lookup_text k (default [] envs) = None /\ exists v, getValue (default dc (b ← bound; cache b)) r = Ok v /\ lookup_text k (zip rs.*1 vs) = Some v
    | None => lookup_text k (zip rs.*1 vs) = None end) as Hk.
  { rewrite Hl in Hk. destruct (lookup_text k own) as [r|], (lookup_text k base) as [r'|];
      try (destruct Hk as (He & v & Hv1 & ->); split; [done|by exists v]). by rewrite Hk. }
  destruct (lookup_text k rs) as [r|] eqn:Er.
  - split; [|by apply Hv]. apply lookup_text_keys. intros Hin. enough (existsb (fun k => bool_decide (k ∈ (default [] envs).*1)) rs.*1 = true) by congruence.
    apply existsb_exists. exists k. split; [|by apply bool_decide_eq_true]. apply list_elem_of_In.
    destruct (decide (k ∈ rs.*1)) as [|Hn]; [done|]. apply lookup_text_keys in Hn. congruence.
  - apply lookup_text_keys. rewrite Hz. by apply lookup_text_keys.
Qed.
End Theorems.

Definition sample_value (_ : unit) (r : SecretRef) : result text := Ok (txt "value of " ++ name r).

Definition sample_binding : option (SecretBinding unit) :=
  Some {| refs := [(txt "A", {| name := txt "a"; versionId := None; versionStage := None |});
                   (txt "B", {| name := txt "b"; versionId := None; versionStage := None |})]; cache := Some tt |}.

Lemma secret_envs_exact_witness : exists out,
  secretEnvs sample_value (Some [(txt "X", txt "x")]) sample_binding (Secrets [(txt "B", Named (txt "other"))]) tt true = Ok out /\
  lookup_text (txt "B") (default [] out) = Some (txt "value of other").
Proof.
  destruct (secretEnvs sample_value (Some [(txt "X", txt "x")]) sample_binding (Secrets [(txt "B", Named (txt "other"))]) tt true)
    as [out|] eqn:E; [|vm_compute in E; discriminate E].
  exists out. split; [reflexivity|].
  assert (binding_ok sample_binding) as Hb by (apply (bool_decide_unpack _); vm_compute; exact I).
  destruct (secret_envs_exact sample_value _ _ _ _ _ _ Hb E) as (own & Hown & H). vm_compute in Hown. injection Hown as <-.
  specialize (H (txt "B")). vm_compute in H. destruct H as (_ & v & Hv & Hl). vm_compute. congruence.
Defined.

(** ** The caches of a process: the ones used last *)

Section Recent.
Context {Id : Type} `{EqDecision Id}.

(** Every identity asked for, once, in the order of its last use. *)
Definition use_now (l : list Id) (i : Id) : list Id := filter (fun j => j <> i) l ++ [i].
Definition by_last_use (ids : list Id) : list Id := foldl use_now [] ids.

Definition last_of (n : nat) (l : list Id) : list Id := drop (length l - n) l.

Definition names (p : Process Id) : list Id := identity <$> sharedCaches p.

Lemma shift_to_spec fuel (l : list (SharedEntry Id)) : length l <= fuel -> shift_to fuel l = drop (length l - MAX_SHARED_CACHES) l.
Proof.
  revert l. induction fuel as [|fuel IH]; intros l Hf; cbn [shift_to]; [by destruct l; [|cbn in Hf; lia]|].
  destruct (Nat.ltb_spec MAX_SHARED_CACHES (length l)) as [Hlt|Hle].
  - destruct l as [|x l]; [cbn in Hlt; unfold MAX_SHARED_CACHES in Hlt; lia|]. cbn [tail]. cbn [length] in *. rewrite IH by lia.
    replace (S (length l) - MAX_SHARED_CACHES) with (S (length l - MAX_SHARED_CACHES)) by lia. done.
  - by replace (length l - MAX_SHARED_CACHES) with 0 by lia.
Qed.

Lemma filter_absent (i : Id) (l : list Id) : i ∉ l -> filter (fun j => j <> i) l = l.
Proof.
  induction l as [|x l IH]; [done|]. intros [Hx Hl]%not_elem_of_cons. rewrite filter_cons_True by done. by rewrite IH.
Qed.

Lemma filter_split (i : Id) (a b : list Id) : i ∉ a -> i ∉ b -> filter (fun j => j <> i) (a ++ i :: b) = a ++ b.
Proof. intros Ha Hb. rewrite filter_app, filter_cons_False, !filter_absent; [done..|tauto]. Qed.

Lemma last_of_app n (p s : list Id) : n = length s -> last_of n (p ++ s) = s.
Proof. intros ->. unfold last_of. rewrite length_app. replace (length p + length s - length s) with (length p) by lia. apply drop_app_length. Qed.

Lemma last_of_all n (l : list Id) : length l <= n -> last_of n l = l.
Proof. intros H. unfold last_of. by replace (length l - n) with 0 by lia. Qed.

(** A list with its last [n] elements. *)
Lemma last_of_split n (l : list Id) : exists p, l = p ++ last_of n l /\ (length (last_of n l) = n \/ p = []).
Proof.
  exists (take (length l - n) l). unfold last_of. split; [by rewrite take_drop|]. rewrite length_drop.
  destruct (decide (length l <= n)); [right; by replace (length l - n) with 0 by lia|left; lia].
Qed.

(** Using one more, first among all and then keeping the last ones, or among those kept. *)
Lemma last_of_use n (i : Id) (l : list Id) : 0 < n -> NoDup l ->
  last_of n (use_now l i) = last_of n (use_now (last_of n l) i).
Proof.
  unfold use_now.
  intros Hn Hl. destruct (last_of_split n l) as (p & E & Hp). set (s := last_of n l) in *. clearbody s. subst l.
  apply NoDup_app in Hl as (Hnp & Hps & Hns). rewrite filter_app. destruct (decide (i ∈ s)) as [Hi|Hi].
  - rewrite (filter_absent i p) by (intros H; by apply (Hps i)). rewrite <- app_assoc.
    destruct (list_elem_of_split _ _ Hi) as (a & b & ->). apply NoDup_app in Hns as (_ & Hab & [Hb _]%NoDup_cons).
    rewrite filter_split; [|intros H; apply (Hab i H); by left|done].
    assert (length ((a ++ b) ++ [i]) = length (a ++ i :: b)) as Hlen by (rewrite !length_app; cbn; lia).
    destruct Hp as [Hp| ->]; [|done]. rewrite last_of_app by lia. by rewrite last_of_all by lia.
  - rewrite (filter_absent i s) by done. destruct Hp as [Hp| ->]; [|done].
    destruct s as [|x s]; [cbn in Hp; lia|]. cbn [length] in Hp.
    replace ((filter (fun j => j <> i) p ++ x :: s) ++ [i]) with ((filter (fun j => j <> i) p ++ [x]) ++ s ++ [i]) by by rewrite <- !app_assoc.
    change ((x :: s) ++ [i]) with ([x] ++ s ++ [i]). by rewrite !last_of_app by (rewrite length_app; cbn; lia).
Qed.

Lemma nodup_use (i : Id) (l : list Id) : NoDup l -> NoDup (use_now l i).
Proof.
  intros H. apply NoDup_app. split_and!; [by apply NoDup_filter| |apply NoDup_singleton].
  by intros x [Hx _]%list_elem_of_filter ->%list_elem_of_singleton.
Qed.

Lemma by_last_use_nodup (ids : list Id) : NoDup (by_last_use ids).
Proof.
  enough (forall l, NoDup l -> NoDup (foldl use_now l ids)) as H by (apply H; constructor).
  induction ids as [|i ids IH]; intros l H; [done|]. by apply IH, nodup_use.
Qed.

(** One request, on the identities. *)
Lemma names_request (i : Id) p : NoDup (names p) -> length (names p) <= MAX_SHARED_CACHES ->
  names (sharedSecretCache i p).2 = last_of MAX_SHARED_CACHES (use_now (names p) i).
Proof.
  intros Hnd Hlen. unfold use_now. unfold sharedSecretCache, names in *. destruct (list_find _ _) as [[n e]|] eqn:E; cbn [snd sharedCaches].
  - apply list_find_Some in E as (Hn & <- & Hbefore). pose proof (list_elem_of_lookup_2 _ _ _ Hn) as Hin.
    rewrite <- (take_drop_middle _ _ _ Hn) in Hnd. rewrite <- (take_drop_middle _ _ _ Hn) at 2.
    rewrite fmap_app, fmap_cons in Hnd. rewrite !fmap_app, !fmap_cons. apply NoDup_app in Hnd as (_ & Hab & [Hb _]%NoDup_cons).
    rewrite filter_split; [|intros H; apply (Hab _ H); by left|done]. rewrite delete_take_drop, !fmap_app, last_of_all; [done|].
    rewrite !length_app, !length_fmap, length_take, length_drop in *. apply lookup_lt_Some in Hn. cbn. lia.
  - apply list_find_None in E. rewrite shift_to_spec by done. rewrite filter_absent.
    + unfold last_of. rewrite fmap_drop, fmap_app, !length_app, length_fmap. done.
    + intros (e & -> & He)%list_elem_of_fmap. rewrite Forall_forall in E. by apply (E e He).
Qed.

(** However many identities a process asks for and in whatever order, the caches it
    shares are those of the last 32 identities it used, each once, in the order of their
    last use. *)
Theorem shared_are_last_used (ids : list Id) : names (requests ids) = last_of MAX_SHARED_CACHES (by_last_use ids).
Proof.
  induction ids as [|i ids IH] using rev_ind; [done|]. unfold requests, by_last_use in *. rewrite !foldl_app. cbn [foldl].
  pose proof (by_last_use_nodup ids) as Hnd. unfold by_last_use in Hnd. rewrite names_request; rewrite IH.
  - symmetry. apply last_of_use; [unfold MAX_SHARED_CACHES; lia|done].
  - unfold last_of. rewrite <- (take_drop (length (foldl use_now [] ids) - MAX_SHARED_CACHES)) in Hnd.
    by apply NoDup_app in Hnd as (_ & _ & ?).
  - unfold last_of. rewrite length_drop. lia.
Qed.
End Recent.
