(* ===== verification/ImagePrune.v ===== *)
(** * ImagePrune: deleting the old versions of an image

    src/clients/typescript/src/images/prune-domain.ts, the plan of [rayito image prune], and
    prune-service.ts, which carries it out: one deletion at a time, each followed until the
    version is gone and the image at rest, with the retries of a refusal.  AWS answers as it
    likes at every await; a sleep lasts at least as long as was asked.  The table, the
    progress and the texts of errors are left out. *)

From stdpp Require Import base option list strings sets sorting.
From Stdlib Require Import NArith ZArith QArith Lia Lqa.
From S2P Require Import Prelude Text JsMap.

Local Open Scope nat_scope.

(** ** The plan *)

Definition accountImageArn (region accountId name : text) : text :=
  if starts_with (txt "arn:") name then name
  else txt "arn:aws:lambda:" ++ region ++ txt ":" ++ accountId ++ txt ":microvm-image:" ++ name.

Definition POLL_INTERVAL_MS : Q := 5000.
Definition RETRY_BACKOFF_MS : list Q := [5000; 10000; 20000; 40000; 80000]%Q.
Definition IN_FLIGHT_STATES : list text := txt <$> ["PENDING"; "IN_PROGRESS"; "DELETING"; "DELETED"]%string.
Definition BUSY_IMAGE_STATES : list text := txt <$> ["UPDATING"; "DELETING"]%string.
Definition GONE_VERSION_STATE : text := txt "DELETED".
Definition CONFLICT_CODE : text := txt "ConflictException".
Definition THROTTLED_CODE : text := txt "ThrottlingException".
Definition REFUSED_ACTIVE_CODES : list text := [txt "ValidationException"; CONFLICT_CODE].
Definition ACTIVE_VERSION_STATUS : text := txt "ACTIVE".
Definition SUCCESSFUL_VERSION_STATE : text := txt "SUCCESSFUL".

Record Version := { imageVersion : text; v_state : text; v_status : text; createdAt : Z }.

#[export] Instance Version_eq_dec : EqDecision Version.
Proof. solve_decision. Defined.

Definition isLaunchable (v : Version) : bool :=
  bool_decide (v_state v = SUCCESSFUL_VERSION_STATE) && bool_decide (v_status v = ACTIVE_VERSION_STATUS).
Definition isInFlight (v : Version) : bool := bool_decide (v_state v ∈ IN_FLIGHT_STATES).

Inductive reason := Newest | LiveMicrovm | InFlight (state : text).

#[export] Instance reason_eq_dec : EqDecision reason.
Proof. solve_decision. Defined.

Record Plan := { keep : list (Version * reason); to_delete : list Version }.

Record PruneSettings := { imageName : text; s_keep : Z; dryRun : bool; waitTimeoutMs : Q }.

Definition validatePruneSettings (s : PruneSettings) : result PruneSettings :=
  if (s_keep s <? 1)%Z then Throw OtherError else Ok s.

(** What the loop does with a version, given how many launchable ones it kept. *)
Definition verdict (live : list text) (keep launchableKept : Z) (v : Version) : option reason :=
  if isLaunchable v && (launchableKept <? keep)%Z then Some Newest
  else if bool_decide (imageVersion v ∈ live) then Some LiveMicrovm
  else if isInFlight v then Some (InFlight (to_lower (v_state v)))
  else None.

Definition next_kept (v : option reason) (launchableKept : Z) : Z :=
  match v with Some Newest => (launchableKept + 1)%Z | _ => launchableKept end.

Fixpoint plan_loop (live : list text) (keep launchableKept : Z) (versions : list Version) : list (Version * reason) * list Version :=
  match versions with
  | [] => ([], [])
  | v :: versions =>
      let d := verdict live keep launchableKept v in
      let (kept, candidates) := plan_loop live keep (next_kept d launchableKept) versions in
      match d with Some r => ((v, r) :: kept, candidates) | None => (kept, v :: candidates) end
  end.

Definition by_age (a b : Version) : Z := (createdAt a - createdAt b)%Z.

Definition buildPlan (versions : list Version) (live : list text) (keep : Z) : Plan :=
  let (kept, candidates) := plan_loop live keep 0 versions in {| keep := kept; to_delete := sort_by by_age candidates |}.

(** ** Reports *)

Inductive DeleteOutcome := Pending | Deleted | TimedOut | Refused | Failed.

#[export] Instance DeleteOutcome_eq_dec : EqDecision DeleteOutcome.
Proof. solve_decision. Defined.

(** The [lastError] of a report, without its words. *)
Inductive last_error := RefusedWith (code : text) | ImageStill (state : text) | VersionStill (state : text).

Record DeleteReport := {
  r_version : text; outcome : DeleteOutcome; attempts : nat; conflicts : nat; deactivated : bool; waitedMs : Q;
  lastError : option last_error
}.

Definition newDeleteReport (v : text) : DeleteReport := {|
  r_version := v; outcome := Pending; attempts := 0; conflicts := 0; deactivated := false; waitedMs := 0; lastError := None |}.

Definition with_outcome (o : DeleteOutcome) (r : DeleteReport) : DeleteReport := {|
  r_version := r_version r; outcome := o; attempts := attempts r; conflicts := conflicts r; deactivated := deactivated r;
  waitedMs := waitedMs r; lastError := lastError r |}.
Definition with_attempts (n : nat) (r : DeleteReport) : DeleteReport := {|
  r_version := r_version r; outcome := outcome r; attempts := n; conflicts := conflicts r; deactivated := deactivated r;
  waitedMs := waitedMs r; lastError := lastError r |}.
Definition with_conflict (r : DeleteReport) : DeleteReport := {|
  r_version := r_version r; outcome := outcome r; attempts := attempts r; conflicts := S (conflicts r); deactivated := deactivated r;
  waitedMs := waitedMs r; lastError := lastError r |}.
Definition with_deactivated (r : DeleteReport) : DeleteReport := {|
  r_version := r_version r; outcome := outcome r; attempts := attempts r; conflicts := conflicts r; deactivated := true;
  waitedMs := waitedMs r; lastError := lastError r |}.
Definition with_waited (ms : Q) (r : DeleteReport) : DeleteReport := {|
  r_version := r_version r; outcome := outcome r; attempts := attempts r; conflicts := conflicts r; deactivated := deactivated r;
  waitedMs := (waitedMs r + ms)%Q; lastError := lastError r |}.
Definition with_error (e : last_error) (r : DeleteReport) : DeleteReport := {|
  r_version := r_version r; outcome := outcome r; attempts := attempts r; conflicts := conflicts r; deactivated := deactivated r;
  waitedMs := waitedMs r; lastError := Some e |}.

(** ** The environment *)

(** A [PruneRefusal] with its code, or another error. *)
Inductive thrown := Refusal (code : text) | OtherFailure.

Record moment := {
  account_answer : text + thrown;
  versions_answer : list Version + thrown;
  live_answer : list text + thrown;
  image_answer : text + thrown;
  version_answer : option text + thrown;
  delete_answer : option thrown;
  deactivate_answer : option thrown;
  elapsed : Q
}.

Inductive event :=
  | Listed (versions : list Version)
  | Live (versions : list text)
  | ImageSeen (state : text)
  | VersionSeen (v : text) (state : option text)
  | Deleting (v : text) (answer : option thrown)
  | Deactivating (v : text) (answer : option thrown)
  | Slept (ms : Q).

Record World := { used : nat; clock : Q; log : list event }.

Definition M (A : Type) : Type := World -> (A + option thrown) * World.
Definition ret {A} (a : A) : M A := fun w => (inl a, w).
Definition throw {A} (e : thrown) : M A := fun w => (inr (Some e), w).
(** The failure that is no exception: the fuel of the model. *)
Definition out_of_fuel {A} : M A := fun w => (inr None, w).
Definition bind {A B} (m : M A) (k : A -> M B) : M B := fun w =>
  match m w with (inl a, w) => k a w | (inr e, w) => (inr e, w) end.
Definition of_sum {A} (x : A + thrown) : M A := match x with inl a => ret a | inr e => throw e end.
Definition now : M Q := fun w => (inl (clock w), w).

Declare Scope prune_scope.
Notation "'do' x '<-' m 'in' k" := (bind m (fun x => k)) (at level 10, x name, m at level 100, k at level 200) : prune_scope.
Notation "m ';;' k" := (bind m (fun _ => k)) (at level 100, k at level 200, right associativity) : prune_scope.
Local Open Scope prune_scope.

Definition advance (ms : Q) (evs : list event) (w : World) : World := {|
  used := S (used w); clock := (clock w + ms)%Q; log := log w ++ evs |}.

Section Prune.
Context (env : nat -> moment).

Definition await (evs : moment -> list event) : M moment := fun w =>
  let m := env (used w) in (inl m, advance (elapsed m) (evs m) w).
Definition sleep (ms : Q) : M unit := fun w => (inl tt, advance (ms + elapsed (env (used w)))%Q [Slept ms] w).

(** A call that answers or throws; what was seen is noted when it answers. *)
Definition ask {A} (answer : moment -> A + thrown) (seen : A -> event) : M A :=
  do m <- await (fun m => match answer m with inl a => [seen a] | inr _ => [] end) in of_sum (answer m).

(** ** One version *)

Section Pruner.
Context (waitTimeoutMs : Q).

Fixpoint settled_loop (fuel : nat) (started : Q) (report : DeleteReport) : M (bool * DeleteReport) :=
  match fuel with
  | O => out_of_fuel
  | S fuel =>
      do state <- ask image_answer ImageSeen in
      do t <- now in
      if negb (bool_decide (state ∈ BUSY_IMAGE_STATES)) then ret (true, with_waited (t - started)%Q report)
      else if Qle_bool waitTimeoutMs (t - started)%Q then
        ret (false, with_error (ImageStill state) (with_waited (t - started)%Q report))
      else sleep POLL_INTERVAL_MS ;; settled_loop fuel started report
  end.

Definition waitUntilImageSettled (fuel : nat) (report : DeleteReport) : M (bool * DeleteReport) :=
  do started <- now in settled_loop fuel started report.

Fixpoint gone_loop (fuel polls : nat) (started : Q) (report : DeleteReport) : M (bool * DeleteReport) :=
  match fuel with
  | O => out_of_fuel
  | S fuel =>
      do state <- ask version_answer (VersionSeen (r_version report)) in
      do t <- now in
      if match state with None => true | Some s => bool_decide (s = GONE_VERSION_STATE) end
      then waitUntilImageSettled polls (with_waited (t - started)%Q report)
      else if Qle_bool waitTimeoutMs (t - started)%Q then
        ret (false, with_error (VersionStill (default [] state)) (with_waited (t - started)%Q report))
      else sleep POLL_INTERVAL_MS ;; gone_loop fuel polls started report
  end.

Definition waitUntilVersionGone (fuel : nat) (report : DeleteReport) : M (bool * DeleteReport) :=
  do started <- now in gone_loop fuel fuel started report.

(** The code of a refusal and the report with it; [None] when it was accepted. *)
Definition refused_by (answer : option thrown) (report : DeleteReport) : M (option text * DeleteReport) :=
  match answer with
  | None => ret (None, report)
  | Some (Refusal code) => ret (Some code, with_error (RefusedWith code) report)
  | Some OtherFailure => throw OtherFailure
  end.

Definition deleteOnce (report : DeleteReport) : M (option text * DeleteReport) :=
  do m <- await (fun m => [Deleting (r_version report) (delete_answer m)]) in refused_by (delete_answer m) report.

Definition deactivate (fuel : nat) (report : DeleteReport) : M DeleteReport :=
  do m <- await (fun m => [Deactivating (r_version report) (deactivate_answer m)]) in
  do refused <- refused_by (deactivate_answer m) report in
  match refused.1 with
  | Some _ => ret refused.2
  | None => do settled <- waitUntilImageSettled fuel (with_deactivated refused.2) in ret settled.2
  end.

(** The attempts left, one for each of these waits. *)
Fixpoint prune_loop (fuel : nat) (backoffs : list Q) (attempt : nat) (v : Version) (report : DeleteReport) : M DeleteReport :=
  match backoffs with
  | [] => ret (with_outcome Failed report)
  | backoffMs :: backoffs =>
      do refused <- deleteOnce (with_attempts attempt report) in
      let report := refused.2 in
      match refused.1 with
      | None =>
          do gone <- waitUntilVersionGone fuel report in
          ret (with_outcome (if gone.1 then Deleted else TimedOut) gone.2)
      | Some code =>
          let again report := sleep backoffMs ;; prune_loop fuel backoffs (S attempt) v report in
          if bool_decide (code = CONFLICT_CODE) then
            do settled <- waitUntilImageSettled fuel (with_conflict report) in again settled.2
          else if bool_decide (code ∈ REFUSED_ACTIVE_CODES) && bool_decide (v_status v = ACTIVE_VERSION_STATUS) then
            do report <- deactivate fuel report in again report
          else if negb (bool_decide (code = THROTTLED_CODE)) then ret (with_outcome Refused report)
          else again report
      end
  end.

Definition prune (fuel : nat) (v : Version) : M DeleteReport :=
  prune_loop fuel RETRY_BACKOFF_MS 1 v (newDeleteReport (imageVersion v)).

Fixpoint prune_all (fuel : nat) (versions : list Version) : M (list DeleteReport) :=
  match versions with
  | [] => ret []
  | v :: versions =>
      do live <- ask live_answer Live in
      if bool_decide (imageVersion v ∈ live) then prune_all fuel versions
      else
        do report <- prune fuel v in
        do reports <- prune_all fuel versions in ret (report :: reports)
  end.
End Pruner.

(** The summary, as what it is made of. *)
Record PruneResult := { arn : text; plan : Plan; reports : list DeleteReport; exitCode : nat }.

Definition runPrune (region : text) (fuel : nat) (s : PruneSettings) : M PruneResult :=
  do m <- await (fun _ => []) in
  do account <- of_sum (account_answer m) in
  let arn := accountImageArn region account (imageName s) in
  do versions <- ask versions_answer Listed in
  do live <- ask live_answer Live in
  let p := buildPlan versions live (s_keep s) in
  if dryRun s then ret {| arn := arn; plan := p; reports := []; exitCode := 0 |}
  else
    do rs <- prune_all (waitTimeoutMs s) fuel (to_delete p) in
    ret {| arn := arn; plan := p; reports := rs; exitCode := if forallb (fun r => bool_decide (outcome r = Deleted)) rs then 0 else 1 |}.
End Prune.

(** ** The plan: lemmas *)

Lemma plan_loop_perm live n k versions :
  Permutation ((plan_loop live n k versions).1.*1 ++ (plan_loop live n k versions).2) versions.
Proof.
  revert k. induction versions as [|v versions IH]; intros k; [done|]. cbn [plan_loop].
  specialize (IH (next_kept (verdict live n k v) k)). destruct (plan_loop live n _ versions) as [kept candidates]. cbn [fst snd] in IH.
  destruct (verdict live n k v); cbn [fst snd]; [by constructor|]. rewrite <- Permutation_middle. by constructor.
Qed.

(** Those kept as the newest are the first launchable ones. *)
Lemma plan_loop_newest live n k versions :
  (filter (fun e => e.2 = Newest) (plan_loop live n k versions).1).*1 = take (Z.to_nat (n - k)) (filter (fun v => isLaunchable v = true) versions).
Proof.
  revert k. induction versions as [|v versions IH]; intros k; cbn [plan_loop]; [by destruct (Z.to_nat _)|].
  specialize (IH (next_kept (verdict live n k v) k)). destruct (plan_loop live n _ versions) as [kept candidates]. cbn [fst snd] in IH.
  unfold verdict in *. destruct (isLaunchable v) eqn:El; cbn [andb] in *.
  - rewrite (filter_cons_True _ v) by done. destruct (Z.ltb_spec k n) as [Hlt|Hge]; cbn [next_kept fst] in *.
    + rewrite filter_cons_True by done. cbn. rewrite IH. replace (Z.to_nat (n - k)) with (S (Z.to_nat (n - (k + 1)))) by lia. done.
    + replace (Z.to_nat (n - k)) with 0 in * by lia. cbn [take]. destruct (bool_decide _); cbn [next_kept fst] in *;
        [rewrite filter_cons_False by done|destruct (isInFlight v); cbn [next_kept fst] in *; [rewrite filter_cons_False by done|]];
        rewrite IH; by replace (Z.to_nat (n - k)) with 0 by lia.
  - rewrite (filter_cons_False _ v) by congruence. destruct (bool_decide _); cbn [next_kept fst] in *;
      [by rewrite filter_cons_False, IH by done|destruct (isInFlight v); cbn [next_kept fst] in *; [by rewrite filter_cons_False, IH by done|done]].
Qed.

Lemma plan_loop_candidates live n k versions v :
  v ∈ (plan_loop live n k versions).2 -> (imageVersion v ∉ live) /\ isInFlight v = false.
Proof.
  revert k. induction versions as [|u versions IH]; intros k; cbn [plan_loop]; [by intros ?%not_elem_of_nil|].
  specialize (IH (next_kept (verdict live n k u) k)). destruct (plan_loop live n _ versions) as [kept candidates]. cbn [snd] in IH.
  destruct (verdict live n k u) eqn:Ev; cbn [snd]; [done|]. intros [->|Hin]%elem_of_cons; [|auto].
  unfold verdict in Ev. destruct (isLaunchable u && _); [done|]. destruct (bool_decide_reflect (imageVersion u ∈ live)); [done|].
  by destruct (isInFlight u).
Qed.

Lemma by_age_total a b : (by_age a b <= 0 \/ by_age b a <= 0)%Z.
Proof. unfold by_age. lia. Qed.
Lemma by_age_trans a b c : (by_age a b <= 0 -> by_age b c <= 0 -> by_age a c <= 0)%Z.
Proof. unfold by_age. lia. Qed.

(** The plan of a prune loses no version and invents none; it keeps the newest
    launchable ones, as many as asked; what it deletes runs no live MicroVM and has neither
    a build nor a deletion in flight, and goes from the oldest to the newest. *)
Theorem prune_plan_safe versions live n :
  let p := buildPlan versions live n in
  Permutation ((keep p).*1 ++ to_delete p) versions /\
  (filter (fun e => e.2 = Newest) (keep p)).*1 = take (Z.to_nat n) (filter (fun v => isLaunchable v = true) versions) /\
  Forall (fun v => (imageVersion v ∉ live) /\ isInFlight v = false) (to_delete p) /\
  StronglySorted (fun a b => (createdAt a <= createdAt b)%Z) (to_delete p).
Proof.
  unfold buildPlan. pose proof (plan_loop_perm live n 0 versions) as Hp. pose proof (plan_loop_newest live n 0 versions) as Hn.
  pose proof (plan_loop_candidates live n 0 versions) as Hc. rewrite Z.sub_0_r in Hn.
  destruct (plan_loop live n 0 versions) as [kept candidates]. cbn [fst snd keep to_delete] in *. split_and!; [|done| |].
  - by rewrite sort_by_perm.
  - rewrite sort_by_perm. by apply Forall_forall.
  - pose proof (sort_by_sorted by_age by_age_total by_age_trans candidates) as Hs. revert Hs.
    generalize (sort_by by_age candidates). induction 1 as [|a l Hs IH Hall]; constructor; [done|].
    eapply Forall_impl; [exact Hall|]. unfold by_age. intros b. cbn. lia.
Qed.

(** ** What an operation does, as the events it adds *)

Definition says {A} (m : M A) (Q : A + option thrown -> list event -> Prop) : Prop :=
  forall w, exists evs, log (m w).2 = log w ++ evs /\ Q (m w).1 evs.

Lemma says_weaken {A} (m : M A) (Q R : A + option thrown -> list event -> Prop) :
  says m Q -> (forall r evs, Q r evs -> R r evs) -> says m R.
Proof. intros Hm H w. destruct (Hm w) as (evs & Hl & Hq). eauto. Qed.

Lemma says_ret {A} (a : A) (Q : A + option thrown -> list event -> Prop) : Q (inl a) [] -> says (ret a) Q.
Proof. intros H w. exists []. by rewrite app_nil_r. Qed.

Lemma says_stop {A} e (Q : A + option thrown -> list event -> Prop) : Q (inr e) [] -> says (fun w => (inr e, w)) Q.
Proof. intros H w. exists []. by rewrite app_nil_r. Qed.

Lemma says_now (Q : Q + option thrown -> list event -> Prop) : (forall t, Q (inl t) []) -> says now Q.
Proof. intros H w. exists []. split; [by rewrite app_nil_r|apply H]. Qed.

Lemma says_bind {A B} (m : M A) (k : A -> M B) (Q : A + option thrown -> list event -> Prop) (R : B + option thrown -> list event -> Prop) :
  says m Q -> (forall e evs, Q (inr e) evs -> R (inr e) evs) ->
  (forall a evs, Q (inl a) evs -> says (k a) (fun r more => R r (evs ++ more))) -> says (bind m k) R.
Proof.
  intros Hm He Hk w. unfold bind. destruct (Hm w) as (evs & Hl & Hq). destruct (m w) as [[a|e] w']; cbn [fst snd] in *; [|eauto].
  destruct (Hk a evs Hq w') as (more & Hl' & Hr). exists (evs ++ more). by rewrite Hl', Hl, app_assoc.
Qed.

Lemma says_await env evs (Q : moment + option thrown -> list event -> Prop) :
  (forall m, Q (inl m) (evs m)) -> says (await env evs) Q.
Proof. intros H w. exists (evs (env (used w))). split; [done|apply H]. Qed.

Lemma says_sleep env ms (Q : unit + option thrown -> list event -> Prop) : Q (inl tt) [Slept ms] -> says (sleep env ms) Q.
Proof. intros H w. by exists [Slept ms]. Qed.

Lemma says_ask {A} env (answer : moment -> A + thrown) seen (Q : A + option thrown -> list event -> Prop) :
  (forall a, Q (inl a) [seen a]) -> (forall e, Q (inr (Some e)) []) -> says (ask env answer seen) Q.
Proof.
  intros H He. unfold ask. eapply says_bind; [apply says_await; intros m; exact (ex_intro _ m (conj eq_refl eq_refl) :
    (fun r evs => exists m, r = inl m /\ evs = match answer m with inl a => [seen a] | inr _ => [] end) (inl m) _)| |].
  - by intros e evs (? & ? & _).
  - intros m evs (m' & [= ->] & ->). destruct (answer m') as [a|e]; cbn [of_sum]; [apply says_ret|apply says_stop]; [apply H|apply He].
Qed.

(** ** Waiting *)

(** Events of a wait: nothing but polls and sleeps. *)
Definition waits_on (v : text) (e : event) : Prop :=
  match e with ImageSeen _ | Slept _ => True | VersionSeen u _ => u = v | _ => False end.

Definition at_rest (evs : list event) : Prop := exists before s, evs = before ++ [ImageSeen s] /\ s ∉ BUSY_IMAGE_STATES.
Definition seen_gone (v : text) (evs : list event) : Prop :=
  VersionSeen v None ∈ evs \/ VersionSeen v (Some GONE_VERSION_STATE) ∈ evs.

Lemma at_rest_app a b : at_rest b -> at_rest (a ++ b).
Proof. intros (before & s & -> & Hs). exists (a ++ before), s. by rewrite app_assoc. Qed.

Definition same_report (r r' : DeleteReport) : Prop := r_version r' = r_version r.

Definition waited (report : DeleteReport) (r : (bool * DeleteReport) + option thrown) (evs : list event) : Prop :=
  Forall (waits_on (r_version report)) evs /\
  match r with inl (ok, report') => same_report report report' /\ (ok = true -> at_rest evs) | inr _ => True end.

Lemma settled_waited env T fuel started report : says (settled_loop env T fuel started report) (waited report).
Proof.
  induction fuel as [|fuel IH]; cbn [settled_loop]; [by apply says_stop|].
  eapply says_bind; [apply (says_ask _ _ _ (fun r evs => match r with inl s => evs = [ImageSeen s] | inr _ => evs = [] end)); done| |].
  { intros e evs ->. by split. }
  intros s evs ->. eapply says_bind; [apply (says_now (fun r evs => evs = [] /\ match r with inl _ => True | inr _ => False end)); done|by intros ?? []|].
  intros t evs [-> _]. cbn [app]. destruct (bool_decide_reflect (s ∈ BUSY_IMAGE_STATES)) as [Hb|Hb]; cbn [negb].
  - destruct (Qle_bool _ _); [apply says_ret; by repeat constructor|].
    eapply says_bind; [apply (says_sleep _ _ (fun r evs => evs = [Slept POLL_INTERVAL_MS])); done|by intros e evs ->; repeat constructor|].
    intros [] evs ->. eapply says_weaken; [exact IH|]. intros r evs [H1 H2]. split; [by repeat constructor|].
    destruct r as [[ok r]|]; [|done]. destruct H2 as [H2 H3]. split; [done|]. intros Hok. by apply (at_rest_app [ImageSeen s; Slept _]), H3.
  - apply says_ret. split; [by repeat constructor|]. split; [done|]. intros _. by exists [], s.
Qed.

Lemma image_waited env T fuel report : says (waitUntilImageSettled env T fuel report) (waited report).
Proof.
  eapply says_bind; [apply (says_now (fun r evs => evs = [] /\ match r with inl _ => True | inr _ => False end)); done|by intros ?? []|].
  intros t evs [-> _]. apply settled_waited.
Qed.

Lemma waited_weaken report report' r evs : same_report report report' -> waited report' r evs -> waited report r evs.
Proof.
  unfold same_report. intros E [H1 H2]. split; [by rewrite <- E|]. destruct r as [[ok r]|]; [|done]. destruct H2 as [H2 H3]. split; [|done].
  unfold same_report in *. congruence.
Qed.

(** A wait that ended well saw the version gone, and then the image at rest. *)
Definition gone_waited (report : DeleteReport) (r : (bool * DeleteReport) + option thrown) (evs : list event) : Prop :=
  waited report r evs /\ match r with inl (true, _) => seen_gone (r_version report) evs | _ => True end.

Lemma gone_waited_spec env T fuel polls started report : says (gone_loop env T fuel polls started report) (gone_waited report).
Proof.
  induction fuel as [|fuel IH]; cbn [gone_loop]; [by apply says_stop|].
  eapply says_bind; [apply (says_ask _ _ _ (fun r evs => match r with inl s => evs = [VersionSeen (r_version report) s] | inr _ => evs = [] end)); done| |].
  { intros e evs ->. by repeat split. }
  intros s evs ->. eapply says_bind; [apply (says_now (fun r evs => evs = [] /\ match r with inl _ => True | inr _ => False end)); done|by intros ?? []|].
  intros t evs [-> _]. cbn [app]. destruct (match s with None => true | Some _ => _ end) eqn:Eg.
  - eapply says_weaken; [apply image_waited|]. intros r evs H. apply (waited_weaken report) in H as [H1 H2]; [|done].
    split.
    + split; [by constructor|]. destruct r as [[ok r]|]; [|done]. destruct H2 as [H2 H3]. split; [done|]. intros Hok. by apply (at_rest_app [_]), H3.
    + destruct r as [[[] r]|]; try done. destruct s as [s|]; [right|left]; [|by left]. apply bool_decide_eq_true in Eg as ->. by left.
  - destruct (Qle_bool _ _); [apply says_ret; by repeat constructor|].
    eapply says_bind; [apply (says_sleep _ _ (fun r evs => evs = [Slept POLL_INTERVAL_MS])); done|by intros e evs ->; repeat constructor|].
    intros [] evs ->. eapply says_weaken; [exact IH|]. intros r evs [[H1 H2] H3]. split; [split; [by repeat constructor|]|].
    + destruct r as [[ok r]|]; [|done]. destruct H2 as [H2 H4]. split; [done|]. intros Hok. by apply (at_rest_app [_; Slept _]), H4.
    + destruct r as [[[] r]|]; try done. destruct H3; [left|right]; set_solver.
Qed.

Lemma version_gone_waited env T fuel report : says (waitUntilVersionGone env T fuel report) (gone_waited report).
Proof.
  eapply says_bind; [apply (says_now (fun r evs => evs = [] /\ match r with inl _ => True | inr _ => False end)); done|by intros ?? []|].
  intros t evs [-> _]. apply gone_waited_spec.
Qed.

(** ** One version *)

Definition about (v : Version) (e : event) : Prop :=
  match e with
  | Deleting u _ => u = imageVersion v
  | Deactivating u _ => u = imageVersion v /\ v_status v = ACTIVE_VERSION_STATUS
  | e => waits_on (imageVersion v) e
  end.

Definition is_delete (e : event) : bool := match e with Deleting _ _ => true | _ => false end.
Definition deletes (evs : list event) : nat := length (List.filter is_delete evs).

Lemma deletes_app a b : deletes (a ++ b) = deletes a + deletes b.
Proof. unfold deletes. by rewrite List.filter_app, length_app. Qed.

Lemma waits_about v evs : Forall (waits_on (imageVersion v)) evs -> Forall (about v) evs /\ deletes evs = 0.
Proof.
  induction 1 as [|e evs He _ [IH1 IH2]]; [done|]. split; [constructor; [by destruct e|done]|]. unfold deletes in *. destruct e; done.
Qed.

(** The version was deleted: the deletion was accepted, and then it was seen gone and the
    image at rest. *)
Definition really_gone (v : Version) (evs : list event) : Prop :=
  exists before after, evs = before ++ Deleting (imageVersion v) None :: after /\ at_rest after /\ seen_gone (imageVersion v) after.

Lemma really_gone_app v a b : really_gone v b -> really_gone v (a ++ b).
Proof. intros (before & after & -> & H). exists (a ++ before), after. by rewrite app_assoc. Qed.

(** What a report says of the events it sums up. *)
Definition truthful (v : Version) (report : DeleteReport) (evs : list event) : Prop :=
  r_version report = imageVersion v /\
  match outcome report with
  | Deleted => really_gone v evs
  | TimedOut => Deleting (imageVersion v) None ∈ evs
  | Refused | Failed => forall u, Deleting u None ∉ evs
  | Pending => False
  end.

Definition pruned (v : Version) (n : nat) (r : DeleteReport + option thrown) (evs : list event) : Prop :=
  Forall (about v) evs /\ deletes evs <= n /\ match r with inl report => truthful v report evs | inr _ => True end.

(** The events before another attempt accept no deletion. *)
Definition still_there (v : Version) (n : nat) (evs : list event) : Prop :=
  Forall (about v) evs /\ deletes evs <= n /\ forall u, Deleting u None ∉ evs.

Lemma still_there_app v a b n m : still_there v n a -> still_there v m b -> still_there v (n + m) (a ++ b).
Proof.
  intros (A1 & A2 & A3) (B1 & B2 & B3). split_and!; [by apply Forall_app|rewrite deletes_app; lia|]. intros u [H|H]%elem_of_app; [by eapply A3|by eapply B3].
Qed.

Lemma waited_still v evs : Forall (waits_on (imageVersion v)) evs -> still_there v 0 evs.
Proof.
  intros H. destruct (waits_about v evs H) as [H1 H2]. split_and!; [done|lia|]. intros u Hin. rewrite Forall_forall in H. by apply H in Hin.
Qed.

Lemma pruned_app v a n m r b : still_there v n a -> pruned v m r b -> pruned v (n + m) r (a ++ b).
Proof.
  intros (A1 & A2 & A3) (B1 & B2 & B3). split_and!; [by apply Forall_app|rewrite deletes_app; lia|].
  destruct r as [report|]; [|done]. destruct B3 as [B3 B4]. split; [done|]. destruct (outcome report); [done| | | |].
  - by apply really_gone_app.
  - apply elem_of_app. by right.
  - intros u [H|H]%elem_of_app; [by eapply A3|by eapply B4].
  - intros u [H|H]%elem_of_app; [by eapply A3|by eapply B4].
Qed.

Lemma delete_says env report : says (deleteOnce env report) (fun r evs => exists a, evs = [Deleting (r_version report) a] /\
  match a with
  | None => r = inl (None, report)
  | Some (Refusal c) => r = inl (Some c, with_error (RefusedWith c) report)
  | Some OtherFailure => r = inr (Some OtherFailure)
  end).
Proof.
  intros w. exists [Deleting (r_version report) (delete_answer (env (used w)))]. unfold deleteOnce, bind, await.
  destruct (delete_answer (env (used w))) as [[c|]|]; (split; [done|]); by eexists.
Qed.

Lemma deactivate_says env T fuel v report : r_version report = imageVersion v -> v_status v = ACTIVE_VERSION_STATUS ->
  says (deactivate env T fuel report) (fun r evs => still_there v 0 evs /\ match r with inl report' => same_report report report' | inr _ => True end).
Proof.
  intros Hv Ha. assert (forall a, still_there v 0 [Deactivating (r_version report) a]) as Hd.
  { intros a. split_and!; [by repeat constructor|done|]. intros u [=]%list_elem_of_singleton. }
  unfold deactivate. eapply says_bind; [apply (says_await _ _ (fun r evs => match r with inl m => evs = [Deactivating (r_version report) (deactivate_answer m)] | inr _ => False end)); done|done|].
  intros m evs ->. destruct (deactivate_answer m) as [[c|]|]; cbn [refused_by].
  - eapply says_bind; [apply (says_ret _ (fun r evs => evs = [] /\ r = inl (Some c, with_error (RefusedWith c) report))); done|by intros ?? []|].
    intros ? ? [-> [= ->]]. apply says_ret. split; [apply Hd|done].
  - eapply says_bind; [apply (says_stop _ (fun r evs => evs = [] /\ r = inr (Some OtherFailure))); done|intros ?? [-> _]; split; [apply Hd|done]|]. intros ?? [_ [=]].
  - eapply says_bind; [apply (says_ret _ (fun r evs => evs = [] /\ r = inl (None, report))); done|by intros ?? []|].
    intros ? ? [-> [= ->]]. cbn [fst snd app]. eapply says_bind; [apply image_waited| |].
    + intros e evs [H _]. split; [|done]. apply (still_there_app v [_] _ 0 0); [apply Hd|]. apply waited_still. by rewrite <- Hv.
    + intros [ok report'] evs [H [H' _]]. apply says_ret. rewrite app_nil_r. split; [|done].
      apply (still_there_app v [_] _ 0 0); [apply Hd|]. apply waited_still. by rewrite <- Hv.
Qed.

(** What cannot be undone by an error that comes afterwards. *)
Lemma pruned_error v n e evs : still_there v n evs -> pruned v n (inr e) evs.
Proof. by intros (H1 & H2 & _). Qed.

Lemma prune_loop_spec env T fuel backoffs attempt v report : r_version report = imageVersion v ->
  says (prune_loop env T fuel backoffs attempt v report) (pruned v (length backoffs)).
Proof.
  revert attempt report. induction backoffs as [|backoff backoffs IH]; intros attempt report Hv; cbn [prune_loop].
  { apply says_ret. split_and!; [constructor|done|]. split; [done|]. intros u. apply not_elem_of_nil. }
  eapply says_bind; [apply delete_says| |]; cbn [r_version with_attempts].
  { intros e evs (a & -> & _). split_and!; [by repeat constructor|destruct a; cbn; lia|done]. }
  rewrite Hv. intros [code report'] evs ([[c|]|] & -> & [= -> ->]); cbn [fst snd].
  - set (report1 := with_error (RefusedWith c) (with_attempts attempt report)).
    assert (r_version report1 = imageVersion v) as Hv1 by done.
    assert (r_version (with_conflict report1) = imageVersion v) as Hv2 by done.
    assert (still_there v 1 [Deleting (imageVersion v) (Some (Refusal c))]) as Hd.
    { split_and!; [by repeat constructor|done|]. intros u [=]%list_elem_of_singleton. }
    assert (forall r evs, pruned v (length backoffs) r evs -> pruned v (S (length backoffs)) r ([Deleting (imageVersion v) (Some (Refusal c))] ++ evs)) as Hone
      by (intros r evs; by apply (pruned_app v _ 1 (length backoffs))).
    assert (forall report' evs, r_version report' = imageVersion v -> still_there v 0 evs ->
      says (bind (sleep env backoff) (fun _ => prune_loop env T fuel backoffs (S attempt) v report'))
        (fun r more => pruned v (length backoffs) r (evs ++ more))) as Hagain.
    { intros report' evs' Hv' He. eapply says_bind; [apply (says_sleep _ _ (fun r evs => r = inl tt /\ evs = [Slept backoff])); done|by intros ?? []|].
      intros [] more [_ ->]. eapply says_weaken; [by apply IH|]. intros r more Hp.
      apply (pruned_app v evs' 0 (length backoffs)); [done|]. apply (pruned_app v [_] 0 (length backoffs)); [|done]. apply waited_still. by repeat constructor. }
    destruct (bool_decide (c = CONFLICT_CODE)); [|destruct (bool_decide (c ∈ REFUSED_ACTIVE_CODES) && _) eqn:Ea; [|destruct (negb _)]].
    + eapply says_bind; [apply image_waited| |].
      * intros e evs [H _]. rewrite Hv2 in H. apply pruned_error. apply (still_there_app v _ _ 1 (length backoffs)); [done|]. apply waited_still in H as (H1 & H2 & H3).
        split_and!; [done|lia|done].
      * intros [ok report'] evs [H [H' _]]. rewrite Hv2 in H. eapply says_weaken; [apply Hagain; [exact (eq_trans H' Hv1)|by apply waited_still]|].
        intros r more. apply Hone.
    + apply andb_true_iff in Ea as [_ Ea%bool_decide_eq_true]. eapply says_bind; [by apply (deactivate_says _ _ _ v)| |].
      * intros e evs [H _]. apply pruned_error. apply (still_there_app v _ _ 1 (length backoffs)); [done|]. destruct H as (H1 & H2 & H3).
        split_and!; [done|lia|done].
      * intros report' evs [H H']. eapply says_weaken; [apply Hagain; [exact (eq_trans H' Hv1)|done]|].
        intros r more. apply Hone.
    + apply says_ret. split_and!; [apply Hd|cbn; lia|]. split; [done|]. exact (proj2 (proj2 Hd)).
    + eapply says_weaken; [apply (Hagain _ []); [done|by apply waited_still]|]. intros r more. apply Hone.
  - eapply says_bind; [apply version_gone_waited| |].
    + intros e evs [[H _] _]. cbn [r_version with_attempts] in H. rewrite Hv in H. apply waits_about in H as [H1 H2].
      split_and!; [by constructor|unfold deletes in *; cbn; lia|done].
    + intros [ok report'] evs [[H [H' Hr]] Hg]. cbn [r_version with_attempts fst snd] in *. unfold same_report in H'. cbn in H'.
      rewrite Hv in *. apply waits_about in H as [H1 H2]. apply says_ret. rewrite app_nil_r.
      split_and!; [by constructor|unfold deletes in *; cbn; lia|]. split; [done|]. destruct ok; cbn [outcome with_outcome]; [|by left].
      exists [], evs. split_and!; [done|by apply Hr|done].
Qed.

(** ** The whole run *)

(** What the deletions of a plan did: for each version a fresh look at what is live, and if
    the version is not, at most five requests to delete it. *)
Inductive pruning : list Version -> list DeleteReport -> list event -> Prop :=
  | pruning_done : pruning [] [] []
  | pruning_skips v vs live reports evs : imageVersion v ∈ live -> pruning vs reports evs -> pruning (v :: vs) reports (Live live :: evs)
  | pruning_one v vs live report reports e evs : imageVersion v ∉ live ->
      pruned v (length RETRY_BACKOFF_MS) (inl report) e -> pruning vs reports evs ->
      pruning (v :: vs) (report :: reports) (Live live :: e ++ evs).

(** The same, cut short by an error. *)
Inductive pruning_cut : list Version -> list event -> Prop :=
  | cut_looking v vs : pruning_cut (v :: vs) []
  | cut_pruning v vs live e evs : imageVersion v ∉ live -> pruned v (length RETRY_BACKOFF_MS) (inr e) evs ->
      pruning_cut (v :: vs) (Live live :: evs)
  | cut_after_skip v vs live evs : imageVersion v ∈ live -> pruning_cut vs evs -> pruning_cut (v :: vs) (Live live :: evs)
  | cut_after v vs live report e evs : imageVersion v ∉ live -> pruned v (length RETRY_BACKOFF_MS) (inl report) e ->
      pruning_cut vs evs -> pruning_cut (v :: vs) (Live live :: e ++ evs).

Lemma prune_all_spec env T fuel vs :
  says (prune_all env T fuel vs) (fun r evs => match r with inl reports => pruning vs reports evs | inr _ => pruning_cut vs evs end).
Proof.
  induction vs as [|v vs IH]; cbn [prune_all]; [apply says_ret; constructor|].
  eapply says_bind; [apply (says_ask _ _ _ (fun r evs => match r with inl live => evs = [Live live] | inr _ => evs = [] end)); done|intros e evs ->; constructor|].
  intros live evs ->. cbn [app]. destruct (bool_decide_reflect (imageVersion v ∈ live)) as [Hl|Hl].
  - eapply says_weaken; [exact IH|]. intros [reports|e] more H; by constructor.
  - eapply says_bind; [apply prune_loop_spec; done| |].
    + intros e evs H. by econstructor.
    + intros report e He. eapply says_bind; [exact IH| |].
      * intros e' evs H. by econstructor.
      * intros reports evs H. apply says_ret. rewrite app_nil_r. by constructor.
Qed.

(** ** It ends *)

Definition progress (env : nat -> moment) : Prop := forall n, (0 <= elapsed (env n))%Q.

Definition ends {A} (m : M A) : Prop := forall w, (m w).1 <> inr None.

Lemma ends_bind {A B} (m : M A) (k : A -> M B) : ends m -> (forall a, ends (k a)) -> ends (bind m k).
Proof. intros Hm Hk w. unfold bind. specialize (Hm w). destruct (m w) as [[a|e] w']; [apply Hk|]. cbn in *. congruence. Qed.

Lemma ends_ret {A} (a : A) : ends (ret a).
Proof. by intros w. Qed.

Lemma ends_ask {A} env (answer : moment -> A + thrown) seen : ends (ask env answer seen).
Proof. intros w. unfold ask, bind, await. cbn. destruct (answer _); cbn; congruence. Qed.

Lemma ends_of_sum {A} (x : A + thrown) : ends (of_sum x).
Proof. intros w. by destruct x. Qed.

(** The fuel of a wait: one turn per poll of the timeout, and one more. *)
Definition enough (T : Q) (fuel : nat) : Prop := (T <= POLL_INTERVAL_MS * inject_Z (Z.of_nat (pred fuel)))%Q /\ 0 < fuel.

(** A wait of at most [n] more polls. *)
Definition polls_left (T started : Q) (n : nat) (w : World) : Prop :=
  (T - (clock w - started) <= POLL_INTERVAL_MS * inject_Z (Z.of_nat n))%Q.

Lemma polls_left_0 T started w e : polls_left T started 0 w -> (0 <= e)%Q -> Qle_bool T (clock w + e - started) = true.
Proof. unfold polls_left. intros H He. apply Qle_bool_iff. change (inject_Z (Z.of_nat 0)) with 0%Q in H. lra. Qed.

Lemma polls_left_S T started n w e1 e2 evs1 evs2 : polls_left T started (S n) w -> (0 <= e1)%Q -> (0 <= e2)%Q ->
  polls_left T started n (advance (POLL_INTERVAL_MS + e2) evs2 (advance e1 evs1 w)).
Proof.
  unfold polls_left. intros H H1 H2. rewrite Nat2Z.inj_succ, <- Z.add_1_r, inject_Z_plus in H. change (inject_Z 1) with 1%Q in H.
  cbn [clock advance]. unfold POLL_INTERVAL_MS in *. lra.
Qed.

Lemma polls_at_start T fuel w : enough T fuel -> polls_left T (clock w) (pred fuel) w.
Proof. unfold polls_left, enough. intros [H _]. lra. Qed.

Section Ends.
Context (env : nat -> moment) (Hp : progress env).

Lemma settled_loop_ends T n fuel started report w : polls_left T started n w -> n < fuel ->
  (settled_loop env T fuel started report w).1 <> inr None.
Proof.
  revert fuel w. induction n as [|n IH]; intros [|fuel] w Hb Hf; [lia| |lia|]; cbn [settled_loop]; unfold ask, bind, await, now;
    destruct (image_answer (env (used w))) as [s|e]; cbn [of_sum ret throw fst clock advance]; [|done| |done];
    (destruct (negb _); [done|]); pose proof (Hp (used w)) as He.
  - by rewrite (polls_left_0 _ _ _ _ Hb He).
  - destruct (Qle_bool T _); [done|]. apply IH; [|lia]. by apply polls_left_S; [|apply Hp|apply Hp].
Qed.

Lemma ends_settled T fuel report : enough T fuel -> ends (waitUntilImageSettled env T fuel report).
Proof. intros He w. apply (settled_loop_ends T (pred fuel)); [by apply polls_at_start|destruct He; lia]. Qed.

Lemma gone_loop_ends T n fuel polls started report w : polls_left T started n w -> n < fuel -> enough T polls ->
  (gone_loop env T fuel polls started report w).1 <> inr None.
Proof.
  intros Hb Hf Hpo. revert fuel w Hb Hf. induction n as [|n IH]; intros [|fuel] w Hb Hf; [lia| |lia|]; cbn [gone_loop]; unfold ask, bind, await, now;
    destruct (version_answer (env (used w))) as [s|e]; cbn [of_sum ret throw fst clock advance]; [|done| |done];
    (destruct (match s with None => true | Some _ => _ end); [by apply ends_settled|]); pose proof (Hp (used w)) as He.
  - by rewrite (polls_left_0 _ _ _ _ Hb He).
  - destruct (Qle_bool T _); [done|]. apply IH; [|lia]. by apply polls_left_S; [|apply Hp|apply Hp].
Qed.

Lemma ends_gone T fuel report : enough T fuel -> ends (waitUntilVersionGone env T fuel report).
Proof. intros He w. apply (gone_loop_ends T (pred fuel)); [by apply polls_at_start|destruct He; lia|done]. Qed.

Lemma ends_refused_by answer report : ends (refused_by answer report).
Proof. intros w. by destruct answer as [[]|]. Qed.

Lemma ends_await evs : ends (await env evs).
Proof. by intros w. Qed.

Lemma ends_sleep ms : ends (sleep env ms).
Proof. by intros w. Qed.

Hint Resolve ends_bind ends_ret ends_ask ends_of_sum ends_settled ends_gone ends_refused_by ends_await ends_sleep : core.

Lemma ends_deactivate T fuel report : enough T fuel -> ends (deactivate env T fuel report).
Proof. intros He. apply ends_bind; [auto|]. intros m. apply ends_bind; [auto|]. intros [[c|] r]; cbn [fst snd]; auto. Qed.

Lemma ends_prune_loop T fuel backoffs attempt v report : enough T fuel -> ends (prune_loop env T fuel backoffs attempt v report).
Proof.
  intros He. revert attempt report. induction backoffs as [|b backoffs IH]; intros attempt report; cbn [prune_loop]; [auto|].
  apply ends_bind; [apply ends_bind; auto|]. intros [[c|] r]; cbn [fst snd]; [|auto].
  assert (forall r', ends (bind (sleep env b) (fun _ => prune_loop env T fuel backoffs (S attempt) v r'))) as Ha by auto.
  destruct (bool_decide (c = CONFLICT_CODE)); [auto|]. destruct (bool_decide (c ∈ _) && _); [|destruct (negb _); auto].
  apply ends_bind; [by apply ends_deactivate|auto].
Qed.

Lemma ends_prune_all T fuel vs : enough T fuel -> ends (prune_all env T fuel vs).
Proof.
  intros He. induction vs as [|v vs IH]; cbn [prune_all]; [auto|]. apply ends_bind; [auto|]. intros live.
  destruct (bool_decide _); [done|]. apply ends_bind; [by apply ends_prune_loop|auto].
Qed.

Lemma ends_runPrune region s fuel : enough (waitTimeoutMs s) fuel -> ends (runPrune env region fuel s).
Proof.
  intros He. apply ends_bind; [auto|]. intros m. apply ends_bind; [auto|]. intros a. apply ends_bind; [auto|]. intros vs.
  apply ends_bind; [auto|]. intros live. destruct (dryRun s); [auto|]. apply ends_bind; [by apply ends_prune_all|auto].
Qed.
End Ends.

(** ** The run *)

(** What a run did, up to where it ended: it looked at the versions and at what is live,
    and then deleted by the plan of those. *)
Definition run_events (s : PruneSettings) (r : PruneResult + option thrown) (evs : list event) : Prop :=
  match r with
  | inl result => exists versions live rest, evs = Listed versions :: Live live :: rest /\
      plan result = buildPlan versions live (s_keep s) /\
      (if dryRun s then rest = [] /\ reports result = [] else pruning (to_delete (plan result)) (reports result) rest) /\
      (exitCode result = 0 <-> Forall (fun r => outcome r = Deleted) (reports result))
  | inr _ => evs = [] \/ (exists versions, evs = [Listed versions]) \/
      exists versions live rest, evs = Listed versions :: Live live :: rest /\ dryRun s = false /\
        pruning_cut (to_delete (buildPlan versions live (s_keep s))) rest
  end.

Lemma exit_code_zero (rs : list DeleteReport) :
  (if forallb (fun r => bool_decide (outcome r = Deleted)) rs then 0 else 1) = 0 <-> Forall (fun r => outcome r = Deleted) rs.
Proof.
  induction rs as [|r rs IH]; cbn [forallb]; [by split|]. rewrite Forall_cons. destruct (bool_decide_reflect (outcome r = Deleted)) as [E|E]; cbn [andb].
  - rewrite IH. tauto.
  - split; [done|]. by intros [].
Qed.

Lemma runPrune_says env region fuel s : says (runPrune env region fuel s) (run_events s).
Proof.
  eapply says_bind; [apply (says_await _ _ (fun r evs => evs = [] /\ match r with inl _ => True | inr _ => False end)); done|by intros ?? []|].
  intros m evs [-> _]. eapply (says_bind _ _ (fun _ evs => evs = [])).
  { destruct (account_answer m); [by apply says_ret|by apply says_stop]. }
  { intros e evs ->. by left. }
  intros account evs ->. cbn [app].
  eapply says_bind; [apply (says_ask _ _ _ (fun r evs => match r with inl vs => evs = [Listed vs] | inr _ => evs = [] end)); done|intros e evs ->; by left|].
  intros vs evs ->.
  eapply says_bind; [apply (says_ask _ _ _ (fun r evs => match r with inl l => evs = [Live l] | inr _ => evs = [] end)); done|intros e evs ->; right; left; by exists vs|].
  intros live evs ->. cbn [app]. destruct (dryRun s) eqn:Ed.
  - apply says_ret. exists vs, live, []. rewrite Ed. by repeat split.
  - eapply says_bind; [apply prune_all_spec| |].
    + intros e evs H. right. right. by exists vs, live, evs.
    + intros rs evs H. apply says_ret. exists vs, live, evs. rewrite Ed, app_nil_r. split_and!; [done|done|exact H|apply exit_code_zero].
Qed.

(** C34. A run of [rayito image prune] ends, whatever AWS answers.  Before each deletion it
    looks again at what is live and leaves a version that is; a version gets at most five
    requests, a deactivation only when it was active, and a report that it was deleted
    means the deletion was accepted and then the version was seen gone and the image at
    rest.  On a dry run nothing is deleted.  The exit code is zero exactly when every
    report says deleted. *)
Theorem prune_run_safe env region fuel s w : progress env -> enough (waitTimeoutMs s) fuel ->
  (runPrune env region fuel s w).1 <> inr None /\
  exists evs, log (runPrune env region fuel s w).2 = log w ++ evs /\ run_events s (runPrune env region fuel s w).1 evs.
Proof. intros Hp He. split; [by apply ends_runPrune|apply runPrune_says]. Qed.

(** ** A run on a small account *)

Definition version_at (v status : string) (age : Z) : Version := {|
  imageVersion := txt v; v_state := SUCCESSFUL_VERSION_STATE; v_status := txt status; createdAt := age |}.

(** Three versions; the deletion of the oldest meets a conflict first. *)
Definition small_account (n : nat) : moment := {|
  account_answer := inl (txt "123");
  versions_answer := inl [version_at "3.0" "ACTIVE" 3; version_at "2.0" "INACTIVE" 2; version_at "1.0" "INACTIVE" 1];
  live_answer := inl (if n <? 4 then [] else [txt "2.0"]);
  image_answer := inl (txt "CREATED");
  version_answer := inl None;
  delete_answer := if n =? 4 then Some (Refusal CONFLICT_CODE) else None;
  deactivate_answer := None;
  elapsed := 100
|}.

Definition small_settings : PruneSettings := {| imageName := txt "base"; s_keep := 1; dryRun := false; waitTimeoutMs := 10000 |}.
Definition first_world : World := {| used := 0; clock := 0; log := [] |}.

Lemma small_progress : progress small_account.
Proof. intros n. cbn. lra. Qed.

Lemma small_enough : enough (waitTimeoutMs small_settings) 3.
Proof. split; [by apply Qle_bool_iff|lia]. Qed.

Definition small_run := runPrune small_account (txt "eu-west-1") 3 small_settings first_world.

Lemma prune_run_safe_witness :
  (small_run.1 <> inr None /\ exists evs, log small_run.2 = log first_world ++ evs /\ run_events small_settings small_run.1 evs) /\
  match small_run.1 with inl result => (fun r => (r_version r, outcome r, attempts r, conflicts r)) <$> reports result = [(txt "1.0", Deleted, 2, 1)] /\ exitCode result = 0 | inr _ => False end.
Proof. split; [apply (prune_run_safe small_account _ 3 small_settings first_world small_progress small_enough)|by vm_compute]. Defined.

(** The second version planned was skipped, and the run still says that all went well. *)
Example skipped_version_exits_zero :
  match small_run.1 with
  | inl result => imageVersion <$> to_delete (plan result) = [txt "1.0"; txt "2.0"] /\
      r_version <$> reports result = [txt "1.0"] /\ exitCode result = 0
  | inr _ => False
  end.
Proof. by vm_compute. Qed.
