(* ===== verification/McpLease.v ===== *)
(** * McpLease: the sandbox of an MCP server

    src/clients/typescript/src/mcp/lease.ts and the tools of mcp/tools.ts over it, as a
    state machine: the calls of tools, the resets and the closings are tasks that step from
    await to await, and the creation, the operations of a sandbox and its kill end when and
    as they like.  The reactions to the end of a creation run in the same turn of the event
    loop, those of the acquisitions first, before any other call reaches the server; so
    they are one step.  What the tools print and log is left out. *)

From stdpp Require Import base option list strings sets.
From Stdlib Require Import NArith ZArith QArith Lia.
From S2P Require Import Prelude Text.

Local Open Scope nat_scope.

(** ** Failures and what a tool answers *)

(** What the body of a tool may throw.  [CommandExit] is the [SandboxError] of a command
    that ended with a code; [Aws] an error of the AWS SDK, [Foreign] any other. *)
Inductive failure :=
  | Sdk (e : error_class)
  | CommandExit
  | MissingTemplateError
  | SandboxCreationError (cause : failure)
  | Aws
  | Foreign.

Definition failure_is (f : failure) (c : error_class) : bool :=
  match f with
  | Sdk e => instance_of e c
  | CommandExit => bool_decide (c = SandboxError)
  | _ => false
  end.

Definition isCreationFailure (f : failure) : bool :=
  failure_is f SandboxError || failure_is f AuthenticationError || failure_is f CapacityError || failure_is f QuotaExceededError ||
  match f with Aws => true | _ => false end.

Definition isMessageError (f : failure) : bool :=
  failure_is f FileNotFoundError || failure_is f InvalidArgumentError || failure_is f DiskFullError || failure_is f RateLimitError ||
  failure_is f UnimplementedError.

Inductive tool_kind := RunCode (timeout : Z) | RunCommand (timeout : Z) | ReadFile | WriteFile | ListFiles | ListSandboxes.

#[export] Instance tool_kind_eq_dec : EqDecision tool_kind.
Proof. solve_decision. Defined.

(** The seconds that a timeout message shows. *)
Definition shown_timeout (k : tool_kind) : option Z :=
  match k with RunCode t | RunCommand t => Some t | _ => None end.

Inductive answer :=
  | Data
  | ItsMessage
  | TimedOut (seconds : option Z)
  | InTransition
  | Gone (sandboxId : option nat)
  | Unexpected (aws : bool).

(** [#translate(error)], up to the reset: the answer, or [None] when the lease is reset. *)
Definition translate (f : failure) (timeoutSeconds : option Z) : option answer :=
  if match f with MissingTemplateError | SandboxCreationError _ => true | _ => false end then Some ItsMessage
  else if failure_is f TimeoutError then Some (TimedOut timeoutSeconds)
  else if isMessageError f then Some ItsMessage
  else if failure_is f SandboxStateError then Some InTransition
  else if failure_is f SandboxNotFoundError then None
  else Some (Unexpected match f with Aws => true | _ => false end).

(** [runCommandIn]: an exit code is data. *)
Definition is_data (k : tool_kind) (f : failure) : bool :=
  match k, f with RunCommand _, CommandExit => true | _, _ => false end.

(** ** The state *)

(** A sandbox is named by the creation it came out of. *)
Inductive pc :=
  | Acquiring (creation : nat)
  | Using (sandbox : nat)
  | ListingAll
  | Settling (creation : option nat) (shown : option nat)
  | Answered (a : answer).

Inductive closer :=
  | Closing (creation : option nat)
  | Killing (sandbox : nat)
  | Closed
  | CloseFailed.

Record lease := {
  sandbox : option nat;
  creating : option nat;
  creations : nat;
  tools : list (tool_kind * pc);
  closers : list closer;
  created : list nat;
  killed : list nat;
  dropped : list nat
}.

Definition new_SandboxLease : lease := {|
  sandbox := None; creating := None; creations := 0; tools := []; closers := []; created := []; killed := []; dropped := [] |}.

Definition with_sandbox (s : option nat) (l : lease) : lease := {|
  sandbox := s; creating := creating l; creations := creations l; tools := tools l; closers := closers l;
  created := created l; killed := killed l; dropped := dropped l |}.
Definition with_creating (c : option nat) (l : lease) : lease := {|
  sandbox := sandbox l; creating := c; creations := creations l; tools := tools l; closers := closers l;
  created := created l; killed := killed l; dropped := dropped l |}.
Definition with_tools (ts : list (tool_kind * pc)) (l : lease) : lease := {|
  sandbox := sandbox l; creating := creating l; creations := creations l; tools := ts; closers := closers l;
  created := created l; killed := killed l; dropped := dropped l |}.
Definition with_closers (cs : list closer) (l : lease) : lease := {|
  sandbox := sandbox l; creating := creating l; creations := creations l; tools := tools l; closers := cs;
  created := created l; killed := killed l; dropped := dropped l |}.
Definition with_created (s : nat) (l : lease) : lease := {|
  sandbox := sandbox l; creating := creating l; creations := creations l; tools := tools l; closers := closers l;
  created := created l ++ [s]; killed := killed l; dropped := dropped l |}.

Section Lease.
Context (template : option text).

(** ** Operations *)

(** The first turn of [acquire()]: where the task is, and the lease. *)
Definition acquire (l : lease) : pc * lease :=
  match sandbox l with
  | Some s => (Using s, l)
  | None =>
      match creating l with
      | Some k => (Acquiring k, l)
      | None => (Acquiring (creations l), {|
          sandbox := None; creating := Some (creations l); creations := S (creations l); tools := tools l; closers := closers l;
          created := created l; killed := killed l; dropped := dropped l |})
      end
  end.

(** Where a task is after its body threw: [#guarded], [#translate] and the first turn of
    [reset()]. *)
Definition thrown (k : tool_kind) (f : failure) (l : lease) : pc :=
  match translate f (shown_timeout k) with
  | Some a => Answered a
  | None => Settling (creating l) (sandbox l)
  end.

(** The call of a tool. *)
Definition call_tool (k : tool_kind) (l : lease) : lease :=
  if bool_decide (k = ListSandboxes) then
    let p := match template with None => thrown k MissingTemplateError l | Some _ => ListingAll end in
    with_tools (tools l ++ [(k, p)]) l
  else
    let (p, l) := acquire l in with_tools (tools l ++ [(k, p)]) l.

(** How [#create()] ends, by how [Sandbox.create] does. *)
Definition create_outcome (outcome : option failure) : option failure :=
  match template with
  | None => Some MissingTemplateError
  | Some _ =>
      match outcome with
      | None => None
      | Some f => Some (if isCreationFailure f then SandboxCreationError f else f)
      end
  end.

(** The acquisitions that await a creation go on. *)
Definition resume_acquirer (k : nat) (failed : option failure) (l : lease) (t : tool_kind * pc) : tool_kind * pc :=
  match t.2 with
  | Acquiring k' => if k' =? k then (t.1, match failed with None => Using k | Some f => thrown t.1 f l end) else t
  | _ => t
  end.

Definition acquires (k : nat) (t : tool_kind * pc) : bool := match t.2 with Acquiring k' => k' =? k | _ => false end.

(** The creation in flight ends. *)
Definition creation_ends (outcome : option failure) (l : lease) : option lease :=
  match creating l with
  | None => None
  | Some k =>
      let l := with_creating None l in
      let failed := create_outcome outcome in
      let l :=
        match failed with
        | Some _ => l
        | None => with_created k (if existsb (acquires k) (tools l) then with_sandbox (Some k) l else l)
        end in
      Some (with_tools (resume_acquirer k failed l <$> tools l) l)
  end.

(** An operation of a tool ends. *)
Definition operation_ends (i : nat) (outcome : option failure) (l : lease) : option lease :=
  match tools l !! i with
  | Some (k, Using _) | Some (k, ListingAll) =>
      let p := match outcome with
               | None => Answered Data
               | Some f => if is_data k f then Answered Data else thrown k f l
               end in
      Some (with_tools (<[i := (k, p)]> (tools l)) l)
  | _ => None
  end.

(** [#settleCreation()] is over. *)
Definition settled (k : option nat) (l : lease) : bool :=
  match k with None => true | Some k => negb (bool_decide (creating l = Some k)) end.

(** [reset()] goes on. *)
Definition reset_resumes (i : nat) (l : lease) : option lease :=
  match tools l !! i with
  | Some (k, Settling c shown) =>
      if settled c l then
        Some {|
          sandbox := None; creating := creating l; creations := creations l; tools := <[i := (k, Answered (Gone shown))]> (tools l);
          closers := closers l; created := created l; killed := killed l; dropped := dropped l ++ option_list (sandbox l) |}
      else None
  | _ => None
  end.

Definition call_close (l : lease) : lease := with_closers (closers l ++ [Closing (creating l)]) l.

Definition close_resumes (j : nat) (l : lease) : option lease :=
  match closers l !! j with
  | Some (Closing c) =>
      if settled c l then
        match sandbox l with
        | None => Some (with_closers (<[j := Closed]> (closers l)) l)
        | Some s => Some {|
            sandbox := None; creating := creating l; creations := creations l; tools := tools l;
            closers := <[j := Killing s]> (closers l); created := created l; killed := killed l ++ [s]; dropped := dropped l |}
        end
      else None
  | _ => None
  end.

Definition kill_ends (j : nat) (outcome : option failure) (l : lease) : option lease :=
  match closers l !! j with
  | Some (Killing _) =>
      let c := match outcome with
               | None => Closed
               | Some f => if failure_is f SandboxNotFoundError then Closed else CloseFailed
               end in
      Some (with_closers (<[j := c]> (closers l)) l)
  | _ => None
  end.

(** ** Steps *)

Inductive event :=
  | CallTool (k : tool_kind)
  | CreationEnds (outcome : option failure)
  | OperationEnds (i : nat) (outcome : option failure)
  | ResetResumes (i : nat)
  | CallClose
  | CloseResumes (j : nat)
  | KillEnds (j : nat) (outcome : option failure).

Definition step (e : event) (l : lease) : option lease :=
  match e with
  | CallTool k => Some (call_tool k l)
  | CreationEnds o => creation_ends o l
  | OperationEnds i o => operation_ends i o l
  | ResetResumes i => reset_resumes i l
  | CallClose => Some (call_close l)
  | CloseResumes j => close_resumes j l
  | KillEnds j o => kill_ends j o l
  end.

Fixpoint steps (es : list event) (l : lease) : option lease :=
  match es with [] => Some l | e :: es => l ← step e l; steps es l end.

Definition reachable (l : lease) : Prop := exists es, steps es new_SandboxLease = Some l.

(** ** Nothing is lost *)

Definition tool_ok (l : lease) (t : tool_kind * pc) : Prop :=
  match t.2 with Acquiring c => creating l = Some c | Using s => s ∈ created l | _ => True end.

Record lease_ok (l : lease) : Prop := {
  ok_one : forall c, creating l = Some c -> sandbox l = None;
  ok_tools : Forall (tool_ok l) (tools l);
  ok_creator : forall c, creating l = Some c -> existsb (acquires c) (tools l) = true;
  ok_created : created l ≡ₚ killed l ++ dropped l ++ option_list (sandbox l);
  ok_nodup : NoDup (created l);
  ok_fresh : forall s, s ∈ created l \/ creating l = Some s -> s < creations l;
  ok_new : forall c, creating l = Some c -> c ∉ created l
}.

Lemma tools_grow l l' : created l' = created l -> creating l' = creating l -> Forall (tool_ok l) (tools l) -> Forall (tool_ok l') (tools l).
Proof. intros E1 E2 H. eapply Forall_impl; [exact H|]. unfold tool_ok. intros [k [| | | |]]; cbn; by rewrite ?E1, ?E2. Qed.

Lemma existsb_insert (f : tool_kind * pc -> bool) ts i t t' :
  ts !! i = Some t -> f t = f t' -> existsb f (<[i := t']> ts) = existsb f ts.
Proof.
  revert i. induction ts as [|u ts IH]; intros [|i]; cbn; [done|done| |].
  - by intros [= ->] ->.
  - intros Hi Hf. f_equal. by apply IH.
Qed.

(** A task that did not await the creation steps to where it does not await it either. *)
Lemma ok_moved l l' i k p p' : lease_ok l -> tools l !! i = Some (k, p) -> tools l' = <[i := (k, p')]> (tools l) ->
  (forall c, acquires c (k, p) = false /\ acquires c (k, p') = false) -> tool_ok l' (k, p') ->
  created l' = created l -> creating l' = creating l -> creations l' = creations l -> (creating l <> None -> sandbox l' = None) ->
  killed l' ++ dropped l' ++ option_list (sandbox l') ≡ₚ killed l ++ dropped l ++ option_list (sandbox l) -> lease_ok l'.
Proof.
  intros [H1 H2 H3 H4 H5 H6 H7] Hi Ht Ha Hp Ec Eg En Es Ep. split.
  - intros c. rewrite Eg. intros E. apply Es. congruence.
  - rewrite Ht. apply Forall_insert; [by eapply tools_grow|done].
  - intros c. rewrite Eg, Ht. intros E. rewrite (existsb_insert _ _ _ (k, p)); [auto|done|]. destruct (Ha c) as [-> ->]. done.
  - by rewrite Ec, Ep.
  - by rewrite Ec.
  - intros s. rewrite Ec, Eg, En. apply H6.
  - intros c. rewrite Ec, Eg. apply H7.
Qed.

Lemma thrown_acquires c k f l : acquires c (k, thrown k f l) = false.
Proof. unfold acquires, thrown. cbn. by destruct (translate _ _). Qed.

Lemma thrown_ok k f l l' : tool_ok l' (k, thrown k f l).
Proof. unfold tool_ok, thrown. cbn. by destruct (translate _ _). Qed.

Lemma call_tool_ok k l : lease_ok l -> lease_ok (call_tool k l).
Proof.
  intros Hl. assert (forall p, (forall c, acquires c (k, p) = true -> creating l = Some c) -> tool_ok l (k, p) ->
    lease_ok (with_tools (tools l ++ [(k, p)]) l)) as Hadd.
  { intros p Ha Hp. destruct Hl as [H1 H2 H3 H4 H5 H6 H7]. split; cbn; [done| | |done..].
    - apply Forall_app. split; [by eapply tools_grow|by repeat constructor].
    - intros c Hc. rewrite existsb_app. by rewrite (H3 _ Hc). }
  unfold call_tool. case_bool_decide.
  { apply Hadd; [|destruct template; [done|apply thrown_ok]]. intros c. destruct template; [done|]. by rewrite thrown_acquires. }
  unfold acquire. destruct (sandbox l) as [s|] eqn:Es; [|destruct (creating l) as [c|] eqn:Ec].
  - apply Hadd; [done|]. unfold tool_ok. cbn. rewrite (ok_created _ Hl), Es. rewrite !elem_of_app. cbn. set_solver.
  - apply Hadd; [|done]. intros c'. unfold acquires. cbn. intros ->%Nat.eqb_eq. done.
  - destruct Hl as [H1 H2 H3 H4 H5 H6 H7]. split; cbn; [done| | | |done| |].
    + apply Forall_app. split; [|by repeat constructor]. eapply Forall_impl; [exact H2|]. intros [k' []]; unfold tool_ok; cbn; congruence.
    + intros c [= <-]. rewrite existsb_app. unfold acquires at 2. cbn. rewrite Nat.eqb_refl. by rewrite orb_true_r.
    + rewrite H4, Es. done.
    + intros s [Hs|[= <-]]; [|lia]. specialize (H6 s (or_introl Hs)). lia.
    + intros c [= <-] Hin. specialize (H6 _ (or_introl Hin)). lia.
Qed.

Lemma resumed_tools l k failed l' : creating l = Some k -> (failed = None -> k ∈ created l') ->
  (forall s, s ∈ created l -> s ∈ created l') -> Forall (tool_ok l) (tools l) -> Forall (tool_ok l') (resume_acquirer k failed l' <$> tools l).
Proof.
  intros Hc Hk Hs H. rewrite Forall_fmap. eapply Forall_impl; [exact H|]. intros [kd p]. unfold tool_ok, resume_acquirer. cbn.
  destruct p as [c|s| | |]; cbn; try done; [|auto]. rewrite Hc. intros [= <-]. rewrite Nat.eqb_refl. destruct failed as [f|]; cbn; [apply (thrown_ok kd f)|auto].
Qed.

Lemma creation_ends_ok o l l' : lease_ok l -> creation_ends o l = Some l' -> lease_ok l'.
Proof.
  intros Hl. unfold creation_ends. destruct (creating l) as [k|] eqn:Ec; [|done]. intros [= <-].
  pose proof (ok_creator _ Hl k Ec) as Hx. pose proof (ok_one _ Hl k Ec) as Hs. pose proof (ok_new _ Hl k Ec) as Hn.
  destruct Hl as [H1 H2 H3 H4 H5 H6 H7]. destruct (create_outcome o) as [f|].
  - split; cbn; [done| |done|done|done| |done].
    + by apply (resumed_tools l k (Some f) (with_creating None l)).
    + intros s [Hin|[=]]. apply H6. by left.
  - cbn [tools with_creating]. rewrite Hx. split; cbn; [done| |done| | | |done].
    + apply (resumed_tools l k None (with_created k (with_sandbox (Some k) (with_creating None l)))); [done|set_solver|set_solver|done].
    + rewrite H4, Hs. cbn. by rewrite app_nil_r, app_assoc.
    + apply NoDup_app. split_and!; [done| |apply NoDup_singleton]. intros x Hx' ->%list_elem_of_singleton. done.
    + intros s [[Hin| ->%list_elem_of_singleton]%elem_of_app|[=]]; apply H6; [by left|by right].
Qed.

Lemma operation_ends_ok i o l l' : lease_ok l -> operation_ends i o l = Some l' -> lease_ok l'.
Proof.
  intros Hl. unfold operation_ends. destruct (tools l !! i) as [[k p]|] eqn:Ei; [|done].
  set (p' := match o with None => _ | Some f => _ end).
  assert (forall l', tool_ok l' (k, p')) as Hp by (intros ?; unfold p'; destruct o as [f|]; [destruct (is_data k f); [done|apply thrown_ok]|done]).
  assert (forall c, acquires c (k, p') = false) as Ha by (intros c; unfold p'; destruct o as [f|]; [destruct (is_data k f); [done|apply thrown_acquires]|done]).
  assert (creating l <> None -> sandbox l = None) as Hs by (destruct (creating l) as [c|] eqn:Ec; [intros _; by apply (ok_one _ Hl c)|done]).
  destruct p; try done; intros [= <-]; by (eapply ok_moved; [exact Hl|exact Ei|done| |apply Hp|done|done|done|exact Hs|done]).
Qed.

Lemma reset_resumes_ok i l l' : lease_ok l -> reset_resumes i l = Some l' -> lease_ok l'.
Proof.
  intros Hl. unfold reset_resumes. destruct (tools l !! i) as [[k []]|] eqn:Ei; try done. destruct (settled _ l); [|done].
  intros [= <-]. eapply ok_moved; [exact Hl|exact Ei|done|done|done..|]. cbn. by rewrite app_nil_r.
Qed.

Lemma ok_closers cs l : lease_ok l -> lease_ok (with_closers cs l).
Proof. intros [H1 H2 H3 H4 H5 H6 H7]. split; cbn; [done| |done..]. by eapply tools_grow. Qed.

Lemma close_resumes_ok j l l' : lease_ok l -> close_resumes j l = Some l' -> lease_ok l'.
Proof.
  intros Hl. unfold close_resumes. destruct (closers l !! j) as [[c| | |]|]; try done. destruct (settled c l); [|done].
  destruct (sandbox l) as [s|] eqn:Es; intros [= <-]; [|by apply ok_closers].
  destruct Hl as [H1 H2 H3 H4 H5 H6 H7]. split; cbn; [done| |done| |done..].
  - by eapply tools_grow.
  - rewrite H4, Es. cbn. rewrite app_nil_r, <- !app_assoc. apply Permutation_app_head, Permutation_app_comm.
Qed.

Lemma step_ok e l l' : lease_ok l -> step e l = Some l' -> lease_ok l'.
Proof.
  intros Hl. destruct e; cbn [step]; [intros [= <-]; by apply call_tool_ok|by apply creation_ends_ok|by apply operation_ends_ok
    |by apply reset_resumes_ok|intros [= <-]; by apply ok_closers|by apply close_resumes_ok|].
  unfold kill_ends. destruct (closers l !! j) as [[]|]; try done. intros [= <-]. by apply ok_closers.
Qed.

Lemma steps_ok es l l' : lease_ok l -> steps es l = Some l' -> lease_ok l'.
Proof.
  revert l. induction es as [|e es IH]; intros l Hl; cbn [steps]; [by intros [= <-]|].
  destruct (step e l) as [m|] eqn:Em; [|done]. apply IH. by eapply step_ok.
Qed.

Lemma new_ok : lease_ok new_SandboxLease.
Proof. split; cbn; try done; [constructor|]. intros s [[]%not_elem_of_nil|[=]]. Qed.

(** ** A closing *)

Definition is_call (e : event) : bool := match e with CallTool _ => true | _ => false end.

(** While a closing waits, the only creation is the one it saw; once it has taken the
    sandbox, there is none, and nothing to kill. *)
Definition closing_ok (j : nat) (l : lease) : Prop :=
  match closers l !! j with
  | None => False
  | Some (Closing c) => creating l = None \/ creating l = c
  | Some _ => creating l = None /\ sandbox l = None
  end.

Lemma closing_same j l l' : closers l' = closers l -> creating l' = creating l -> (sandbox l = None -> sandbox l' = None) ->
  closing_ok j l -> closing_ok j l'.
Proof. unfold closing_ok. intros -> -> Hs. destruct (closers l !! j) as [[]|]; naive_solver. Qed.

(** Another closing stepped. *)
Lemma closing_other j i c l l' : closers l' = <[i := c]> (closers l) -> j <> i -> creating l' = creating l ->
  (sandbox l = None -> sandbox l' = None) -> closing_ok j l -> closing_ok j l'.
Proof. unfold closing_ok. intros -> Hj -> Hs. rewrite list_lookup_insert_ne by done. destruct (closers l !! j) as [[]|]; naive_solver. Qed.

(** This one did, to where there is nothing left for it. *)
Lemma closing_moved j c l l' : j < length (closers l) -> closers l' = <[j := c]> (closers l) ->
  match c with Closing _ => False | _ => True end -> creating l' = None -> sandbox l' = None -> closing_ok j l'.
Proof. unfold closing_ok. intros Hj -> Hc E1 E2. rewrite list_lookup_insert_eq by done. by destruct c. Qed.

Lemma creation_ends_shape o l l' : creation_ends o l = Some l' ->
  creating l <> None /\ creating l' = None /\ closers l' = closers l /\ dropped l' = dropped l.
Proof.
  unfold creation_ends. destruct (creating l) as [k|]; [|done]. intros [= <-]. split; [done|].
  destruct (create_outcome o); cbn; [done|]. by destruct (existsb _ _).
Qed.

Lemma closing_step j e l l' : is_call e = false -> closing_ok j l -> step e l = Some l' -> closing_ok j l'.
Proof.
  intros Hcall Hj. destruct e as [| o|i o|i| |i|i o]; cbn [step]; [done|..].
  - intros (Ec & E1 & E2 & _)%creation_ends_shape. unfold closing_ok in *. rewrite E2, E1.
    destruct (closers l !! j) as [[]|]; [by left|naive_solver..].
  - unfold operation_ends. destruct (tools l !! i) as [[k []]|]; try done; intros [= <-]; by apply (closing_same j l).
  - unfold reset_resumes. destruct (tools l !! i) as [[k []]|]; try done. destruct (settled _ l); [|done]. intros [= <-]. by apply (closing_same j l).
  - intros [= <-]. unfold closing_ok in *. cbn. destruct (closers l !! j) as [c|] eqn:E; [|done]. by rewrite (lookup_app_l_Some _ _ _ _ E).
  - unfold close_resumes. destruct (closers l !! i) as [[c| | |]|] eqn:Ei; try done. destruct (settled c l) eqn:Es; [|done].
    pose proof (lookup_lt_Some _ _ _ Ei) as Hlt. destruct (decide (j = i)) as [->|Hne].
    + assert (creating l = None) as Ec.
      { unfold closing_ok in Hj. rewrite Ei in Hj. destruct Hj as [|E]; [done|]. destruct c as [c|]; [|done].
        unfold settled in Es. rewrite bool_decide_true in Es by done. done. }
      destruct (sandbox l) eqn:Eb; intros [= <-]; by eapply closing_moved.
    + destruct (sandbox l) eqn:Eb; intros [= <-]; (eapply closing_other; [done|done|done|done|exact Hj]).
  - unfold kill_ends. destruct (closers l !! i) as [[]|] eqn:Ei; try done. intros [= <-]. pose proof (lookup_lt_Some _ _ _ Ei) as Hlt.
    destruct (decide (j = i)) as [->|Hne]; [|by eapply closing_other].
    unfold closing_ok in Hj. rewrite Ei in Hj. destruct Hj as [H1 H2]. eapply closing_moved; [done|done| |done|done].
    destruct o as [f|]; [|done]. by destruct (failure_is f _).
Qed.

Lemma closing_steps j es l l' : forallb (fun e => negb (is_call e)) es = true -> closing_ok j l -> steps es l = Some l' -> closing_ok j l'.
Proof.
  revert l. induction es as [|e es IH]; intros l Hes Hj; cbn [steps]; [by intros [= <-]|]. cbn [forallb] in Hes.
  apply andb_true_iff in Hes as [He%negb_true_iff Hes]. destruct (step e l) as [m|] eqn:Em; [|done]. apply IH; [done|by eapply closing_step].
Qed.

Lemma call_close_ok l : closing_ok (length (closers l)) (call_close l).
Proof. unfold closing_ok, call_close. cbn. rewrite lookup_app_r, Nat.sub_diag by lia. by right. Qed.

(** C35. A server has one sandbox at a time.  Whatever the order in which tools are called and
    creations, operations, resets and closings end: while a sandbox is held none is being
    created, every call that waits for a creation waits for the one in flight, every
    sandbox created is the one held, or was killed, or was dropped by a reset, and none is
    killed twice.  When a [close()] goes on after its wait, no tool having been called
    meanwhile, nothing is held nor being created: every sandbox was killed, or dropped.
    (Killed: its [kill()] was called, whatever AWS answered.) *)
Theorem lease_keeps_one es more l l' : steps es new_SandboxLease = Some l ->
  forallb (fun e => negb (is_call e)) more = true -> steps more (call_close l) = Some l' ->
  let j := length (closers l) in
  (forall c, creating l' = Some c -> sandbox l' = None) /\
  (forall i k c, tools l' !! i = Some (k, Acquiring c) -> creating l' = Some c) /\
  created l' ≡ₚ killed l' ++ dropped l' ++ option_list (sandbox l') /\ NoDup (created l') /\
  ((forall c, closers l' !! j <> Some (Closing c)) -> creating l' = None /\ created l' ≡ₚ killed l' ++ dropped l').
Proof.
  intros Hl Hm Hl' j. apply (steps_ok _ _ _ new_ok) in Hl. pose proof (steps_ok _ _ _ (ok_closers _ _ Hl) Hl') as H.
  pose proof (closing_steps j _ _ _ Hm (call_close_ok l) Hl') as Hj. split_and!; [exact (ok_one _ H)| |exact (ok_created _ H)|exact (ok_nodup _ H)|].
  - intros i k c Hi. pose proof (ok_tools _ H) as Ht. rewrite Forall_lookup in Ht. exact (Ht i _ Hi).
  - intros Hc. assert (creating l' = None /\ sandbox l' = None) as [E1 E2].
    { unfold closing_ok in Hj. destruct (closers l' !! j) as [[c| | |]|]; [by destruct (Hc c)|done..]. }
    split; [done|]. rewrite (ok_created _ H), E2. cbn. by rewrite app_nil_r.
Qed.
End Lease.

(** Only [SandboxNotFoundError], of all that a tool may throw, resets the lease. *)
Lemma only_gone_resets f t : translate f t = None <-> f = Sdk SandboxNotFoundError.
Proof. split; [|by intros ->]. by destruct f as [[]| | | | |]. Qed.

(** ** One call at a time *)

Definition answered (t : tool_kind * pc) : Prop := match t.2 with Answered _ => True | _ => False end.

(** The sandbox that a step says is gone. *)
Definition reported (e : event) (l : lease) : list nat :=
  match e with
  | OperationEnds i (Some (Sdk SandboxNotFoundError)) => match tools l !! i with Some (_, Using s) => [s] | _ => [] end
  | _ => []
  end.

(** A listing of sandboxes is of none of them, and does not say that one is gone. *)
Definition listing_gone (e : event) (l : lease) : Prop :=
  match e with
  | OperationEnds i (Some f) => f = Sdk SandboxNotFoundError /\ exists k, tools l !! i = Some (k, ListingAll)
  | _ => False
  end.

Section Sequential.
Context (template : option text).

(** A run in which a tool is called when those before have answered, with the sandboxes
    that were said to be gone. *)
Inductive sequential : lease -> list nat -> Prop :=
  | sequential_new : sequential new_SandboxLease []
  | sequential_step e l l' gone : sequential l gone -> step template e l = Some l' ->
      (is_call e = true -> Forall answered (tools l)) -> ~ listing_gone e l -> sequential l' (gone ++ reported e l).

Definition last_ok (gone : list nat) (l : lease) (t : tool_kind * pc) : Prop :=
  match t.2 with
  | Acquiring _ => True
  | Using s => creating l = None /\ forall s', sandbox l = Some s' -> s' = s
  | Settling _ _ => creating l = None /\ forall s', sandbox l = Some s' -> s' ∈ gone
  | ListingAll | Answered _ => creating l = None
  end.

Definition one_call (l : lease) (gone : list nat) : Prop :=
  dropped l ⊆ gone /\ (tools l = [] /\ creating l = None \/ exists before t, tools l = before ++ [t] /\ Forall answered before /\ last_ok gone l t).

(** The task that steps is the last one. *)
Lemma the_last before t i (u : tool_kind * pc) : Forall answered before -> (before ++ [t]) !! i = Some u -> ~ answered u ->
  u = t /\ forall t', <[i := t']> (before ++ [t]) = before ++ [t'].
Proof.
  intros Hb Hi Hu. apply lookup_app_Some in Hi as [Hi|[Hle Hi]].
  - rewrite Forall_lookup in Hb. by apply Hb in Hi.
  - apply list_lookup_singleton_Some in Hi as [E <-]. split; [done|]. intros t'. by rewrite insert_app_r_alt, E.
Qed.

Lemma answered_stay before k failed l : Forall answered before -> resume_acquirer k failed l <$> before = before.
Proof.
  induction 1 as [|[kd p] before Ht _ IH]; [done|]. rewrite fmap_cons, IH. f_equal. by destruct p.
Qed.

Lemma last_ok_more gone more l t : last_ok gone l t -> last_ok (gone ++ more) l t.
Proof. unfold last_ok. destruct (t.2); set_solver. Qed.

Lemma last_ok_same gone l l' t : creating l' = creating l -> (forall s, sandbox l' = Some s -> sandbox l = Some s) -> last_ok gone l t -> last_ok gone l' t.
Proof. unfold last_ok. intros -> Hs. destruct (t.2); naive_solver. Qed.

Lemma all_answered before t : Forall answered (before ++ [t]) -> exists k a, t = (k, Answered a).
Proof. intros [_ H%Forall_inv]%Forall_app. destruct t as [k []]; try done. by eexists _, _. Qed.

(** Where a task is after its operation failed. *)
Lemma thrown_last gone k f l : creating l = None -> (f = Sdk SandboxNotFoundError -> forall s, sandbox l = Some s -> s ∈ gone) ->
  last_ok gone l (k, thrown k f l).
Proof.
  intros Hc Hs. unfold thrown. destruct (translate f _) eqn:E; [done|]. apply only_gone_resets in E. split; [done|auto].
Qed.

Lemma thrown_same k f l l' : creating l' = creating l -> sandbox l' = sandbox l -> thrown k f l = thrown k f l'.
Proof. unfold thrown. by intros -> ->. Qed.

Lemma one_call_step e l l' gone : lease_ok l -> one_call l gone -> step template e l = Some l' ->
  (is_call e = true -> Forall answered (tools l)) -> ~ listing_gone e l -> one_call l' (gone ++ reported e l).
Proof.
  intros Hok [Hd Ht] Hstep Hcall Hlist. destruct e as [k|o|i o|i| |i|i o]; cbn [step] in Hstep; cbn [reported].
  - specialize (Hcall eq_refl). injection Hstep as <-. rewrite app_nil_r.
    assert (creating l = None) as Hc.
    { destruct Ht as [[_ ?]|(before & t & E & _ & Hl)]; [done|]. rewrite E in Hcall. by apply all_answered in Hcall as (kd & a & ->). }
    unfold call_tool. case_bool_decide; [|unfold acquire; rewrite Hc; destruct (sandbox l) as [s|] eqn:Es];
      (split; [done|right; eexists (tools l), _; split_and!; [done|done|]]); cbn.
    + destruct template; [done|]. by apply (thrown_last gone k MissingTemplateError (with_tools _ l)).
    + split; [done|]. intros s'. cbn. congruence.
    + done.
  - apply creation_ends_shape in Hstep as Hshape. destruct Hshape as (Hc & Hc' & _ & Hd'). rewrite app_nil_r.
    destruct Ht as [[_ ?]|(before & t & E & Hb & Hl)]; [done|]. split; [by rewrite Hd'|]. right.
    unfold creation_ends in Hstep. destruct (creating l) as [c|] eqn:Ec; [|done]. injection Hstep as <-. cbn [tools with_tools].
    set (m := match create_outcome template o with Some _ => _ | None => _ end) in *.
    assert (tools m = tools l) as Em by (unfold m; destruct (create_outcome template o); [done|by destruct (existsb _ _)]).
    rewrite Em, E, fmap_app, answered_stay by done. eexists before, _. split_and!; [done|done|].
    pose proof (ok_creator _ Hok c Ec) as Hx. rewrite E, existsb_app in Hx.
    assert (existsb (acquires c) before = false) as Hxb.
    { clear -Hb. induction Hb as [|[kd p] before H _ IH]; [done|]. cbn. rewrite IH. by destruct p. }
    rewrite Hxb in Hx. cbn in Hx. rewrite orb_false_r in Hx. destruct t as [kd p]. unfold acquires in Hx. cbn in Hx. destruct p as [c'| | | |]; try done.
    unfold resume_acquirer. cbn. rewrite Hx. unfold m. destruct (create_outcome template o) as [f|] eqn:Eo.
    + apply (last_ok_same gone (with_creating None l)); [done|done|]. apply thrown_last; [done|]. cbn. by rewrite (ok_one _ Hok c Ec).
    + split; [done|]. cbn. intros s'. destruct (existsb _ _); cbn; [by intros [= ->]|]. by rewrite (ok_one _ Hok c Ec).
  - unfold operation_ends in Hstep. destruct (tools l !! i) as [[k p]|] eqn:Ei; [|done].
    destruct Ht as [[E _]|(before & t & E & Hb & Hl)]; [by rewrite E in Ei|]. rewrite E in Ei.
    set (p' := match o with None => Answered Data | Some f => if is_data k f then Answered Data else thrown k f l end) in *.
    assert (forall l' gone', creating l = None -> creating l' = None -> sandbox l' = sandbox l ->
      (o = Some (Sdk SandboxNotFoundError) -> forall s, sandbox l' = Some s -> s ∈ gone') -> last_ok gone' l' (k, p')) as Hlast.
    { intros l0 gone' Hl0 Hc Hs Hg. unfold p'. destruct o as [f|]; [|done]. destruct (is_data k f); [done|]. rewrite (thrown_same k f l l0) by congruence.
      apply thrown_last; [done|]. intros ->. auto. }
    destruct p as [|s| | |]; try done; injection Hstep as <-; pose proof Ei as Hi; (apply the_last in Ei as [<- Hins]; [|done|exact id]); cbn in Hl;
      (split; [set_solver|right; exists before, (k, p'); cbn [tools with_tools]; rewrite E, Hins; split_and!; [done|done|]]).
    + destruct Hl as [Hc Hl]. apply Hlast; [done|done|done|]. intros -> s' Hs'. rewrite (Hl s') by done. set_solver.
    + apply Hlast; [done|done|done|]. intros ->. destruct Hlist. split; [done|]. exists k. by rewrite E.
  - rewrite app_nil_r. unfold reset_resumes in Hstep. destruct (tools l !! i) as [[k p]|] eqn:Ei; [|done]. destruct p as [| | |c shown|]; try done.
    destruct (settled c l); [|done]. injection Hstep as <-.
    destruct Ht as [[E _]|(before & t & E & Hb & Hl)]; [by rewrite E in Ei|]. rewrite E in Ei. apply the_last in Ei as [<- Hins]; [|done|exact id].
    destruct Hl as [Hc Hl]. split; cbn; [|right; exists before, (k, Answered (Gone shown)); rewrite E, Hins; by split_and!].
    destruct (sandbox l) as [s|]; cbn; [|set_solver]. specialize (Hl s eq_refl). set_solver.
  - injection Hstep as <-. rewrite app_nil_r. done.
  - rewrite app_nil_r. unfold close_resumes in Hstep. destruct (closers l !! i) as [[c| | |]|]; try done. destruct (settled c l); [|done].
    destruct (sandbox l) as [s|] eqn:Es; injection Hstep as <-; [|done]. split; [done|].
    destruct Ht as [?|(before & t & E & Hb & Hl)]; [by left|right]. exists before, t. split_and!; [done|done|]. by apply (last_ok_same gone l).
  - rewrite app_nil_r. unfold kill_ends in Hstep. destruct (closers l !! i) as [[]|]; try done. by injection Hstep as <-.
Qed.

Lemma sequential_ok l gone : sequential l gone -> lease_ok l /\ one_call l gone.
Proof.
  induction 1 as [|e l l' gone _ [IH1 IH2] Hs Hc Hg]; [split; [apply new_ok|split; [done|by left]]|].
  split; [by eapply step_ok|by eapply one_call_step].
Qed.
End Sequential.

(** When tools are called one at a time, a reset drops only a sandbox that an operation
    on it had said to be gone: none that lives is forgotten. *)
Theorem sequential_drops_gone template l gone : sequential template l gone -> dropped l ⊆ gone.
Proof. intros H. by apply sequential_ok in H as [_ []]. Qed.

(** Two calls on a sandbox that expired: the first resets the lease, a third call creates
    another sandbox, and the second, whose error comes later, drops that one: it lives on,
    is never killed, and the message of the second call says that it is gone. *)
Definition late_reset : list event :=
  [CallTool (RunCode 300); CreationEnds None; CallTool ReadFile;
   OperationEnds 0 (Some (Sdk SandboxNotFoundError)); ResetResumes 0;
   CallTool ListFiles; CreationEnds None;
   OperationEnds 1 (Some (Sdk SandboxNotFoundError)); ResetResumes 1;
   OperationEnds 2 None; CallClose; CloseResumes 0].

Example late_reset_drops_live :
  match steps (Some (txt "base")) late_reset new_SandboxLease with
  | Some l => created l = [0; 1] /\ dropped l = [0; 1] /\ killed l = [] /\
      (tools l).*2 = [Answered (Gone (Some 0)); Answered (Gone (Some 1)); Answered Data] /\ closers l = [Closed]
  | None => False
  end.
Proof. by vm_compute. Qed.

(** Two first calls share a creation; the server closes while one is running. *)
Definition two_calls : list event :=
  [CallTool (RunCode 300); CallTool ReadFile; CreationEnds None; OperationEnds 0 None].
Definition then_closed : list event := [CloseResumes 0; OperationEnds 1 (Some (Sdk SandboxNotFoundError)); ResetResumes 1; KillEnds 0 None].
Definition after_two_calls : lease := default new_SandboxLease (steps (Some (txt "base")) two_calls new_SandboxLease).
Definition after_close : lease := default new_SandboxLease (steps (Some (txt "base")) then_closed (call_close after_two_calls)).

Lemma lease_keeps_one_witness :
  (killed after_close = [0] /\ created after_close = [0] /\ closers after_close = [Closed]) /\
  creating after_close = None /\ created after_close ≡ₚ killed after_close ++ dropped after_close.
Proof.
  split; [by vm_compute|].
  eapply (lease_keeps_one (Some (txt "base")) two_calls then_closed after_two_calls after_close); [by vm_compute..|].
  intros c. vm_compute. congruence.
Defined.

Definition after (es : list event) : lease := default new_SandboxLease (steps (Some (txt "base")) es new_SandboxLease).
Definition one_gone : list event :=
  [CallTool (RunCode 300); CreationEnds None; OperationEnds 0 (Some (Sdk SandboxNotFoundError)); ResetResumes 0].

Lemma sequential_drops_gone_witness :
  sequential (Some (txt "base")) (after one_gone) [0] /\ dropped (after one_gone) = [0] /\ dropped (after one_gone) ⊆ [0].
Proof.
  assert (H1 : sequential (Some (txt "base")) (after (take 1 one_gone)) []).
  { apply (sequential_step _ (CallTool (RunCode 300)) new_SandboxLease _ []); [constructor|by vm_compute|by constructor|by intros []]. }
  assert (H2 : sequential (Some (txt "base")) (after (take 2 one_gone)) []).
  { apply (sequential_step _ (CreationEnds None) _ _ [] H1); [by vm_compute|done|by intros []]. }
  assert (H3 : sequential (Some (txt "base")) (after (take 3 one_gone)) [0]).
  { apply (sequential_step _ (OperationEnds 0 (Some (Sdk SandboxNotFoundError))) _ _ [] H2); [by vm_compute|done|].
    intros [_ [k Hk]]. vm_compute in Hk. congruence. }
  assert (H4 : sequential (Some (txt "base")) (after one_gone) [0]).
  { apply (sequential_step _ (ResetResumes 0) _ _ [0] H3); [by vm_compute|done|by intros []]. }
  split; [exact H4|]. split; [by vm_compute|]. exact (sequential_drops_gone _ _ _ H4).
Defined.
