(* ===== verification/Scaling.v ===== *)
(** * Scaling: how many machines serve an agent, and the handles of their sessions

    src/clients/typescript/src/agent/scaling-domain.ts: the validation of
    [ScalingOptions], the handle [rs1.<sandboxId>.<sessionId>] of a session, and the two
    rules of the health of a fleet. *)

From stdpp Require Import base option list strings.
From Stdlib Require Import ZArith QArith Qround Lia Lqa.
From S2P Require Import Prelude Text Limits.

Local Open Scope Z_scope.

Definition MAX_CONCURRENT_CONNECTIONS_1_VCPU : Z := 8.
Definition BASELINE_MIB_PER_VCPU : Z := 2048.
Definition AGENT_SCALING_MIN_VMS_DEFAULT : Z := 1.
Definition AGENT_SCALING_MAX_VMS_DEFAULT : Z := 1.
Definition AGENT_SCALING_WARM_VMS_DEFAULT : Z := 0.
Definition AGENT_SCALE_IN_AFTER_SECONDS_DEFAULT : Z := 900.
Definition AGENT_SCALE_IN_AFTER_SECONDS_MIN : Z := 60.
Definition AGENT_SERVICE_RESERVED_CONNECTIONS : Z := 1.
Definition AGENT_FLEET_UNHEALTHY_PINGS : nat := 3.
Definition AGENT_SESSION_HANDLE_PREFIX : text := txt "rs1".
Definition HANDLE_SEPARATOR : N := 46.

Inductive SessionMode := Shared | Dedicated.

#[export] Instance SessionMode_eq_dec : EqDecision SessionMode.
Proof. solve_decision. Defined.

Definition DEFAULT_SESSION_MODE : SessionMode := Shared.

Definition maxSessionsForMemory (memoryMib : jsval) : result Z :=
  match integer_val memoryMib with
  | Some mib =>
      if mib <? 1 then Throw InvalidArgumentError
      else Ok (MAX_CONCURRENT_CONNECTIONS_1_VCPU * Z.max 1 (mib / BASELINE_MIB_PER_VCPU) - AGENT_SERVICE_RESERVED_CONNECTIONS)
  | None => Throw InvalidArgumentError
  end.

Definition whole (value : jsval) (minimum maximum : Z) : result Z :=
  match integer_val value with
  | Some z => if (z <? minimum) || (maximum <? z) then Throw InvalidArgumentError else Ok z
  | None => Throw InvalidArgumentError
  end.

Definition SCALE_IN_AFTER_MS_DEFAULT : Z := AGENT_SCALE_IN_AFTER_SECONDS_DEFAULT * 1000.
Definition SCALE_IN_AFTER_MS_MIN : Z := AGENT_SCALE_IN_AFTER_SECONDS_MIN * 1000.
Definition SCALE_IN_AFTER_MS_MAX : Z := MAX_DURATION_SECONDS * 1000.

Record ScalingOptionsInput := {
  i_minVms : jsval; i_maxVms : jsval; i_warmVms : jsval; i_sessions : jsval; i_scaleInAfterMs : jsval
}.

Record ScalingOptions := { minVms : Z; maxVms : Z; warmVms : Z; sessions : SessionMode; scaleInAfterMs : Q }.

(** [options.sessions ?? DEFAULT_SESSION_MODE], when it is one of the modes. *)
Definition session_mode (v : jsval) : result SessionMode :=
  match v with
  | JUndefined | JNull => Ok DEFAULT_SESSION_MODE
  | JString s =>
      if bool_decide (s = "shared"%string) then Ok Shared
      else if bool_decide (s = "dedicated"%string) then Ok Dedicated
      else Throw InvalidArgumentError
  | _ => Throw InvalidArgumentError
  end.

Definition scale_in_after (v : jsval) : result Q :=
  match nullish v (jint SCALE_IN_AFTER_MS_DEFAULT) with
  | JNumber (Finite q) =>
      if negb (Qle_bool (inject_Z SCALE_IN_AFTER_MS_MIN) q) || negb (Qle_bool q (inject_Z SCALE_IN_AFTER_MS_MAX))
      then Throw InvalidArgumentError else Ok q
  | _ => Throw InvalidArgumentError
  end.

(** [new ScalingOptions(options)]. *)
Definition new_ScalingOptions (options : ScalingOptionsInput) : result ScalingOptions :=
  minVms ← whole (nullish (i_minVms options) (jint AGENT_SCALING_MIN_VMS_DEFAULT)) 0 POOL_SIZE_MAX;
  maxVms ← whole (nullish (i_maxVms options) (jint AGENT_SCALING_MAX_VMS_DEFAULT)) 1 POOL_SIZE_MAX;
  warmVms ← whole (nullish (i_warmVms options) (jint AGENT_SCALING_WARM_VMS_DEFAULT)) 0 POOL_SIZE_MAX;
  _ ← throw_if (maxVms <? minVms) InvalidArgumentError;
  _ ← throw_if (maxVms - minVms <? warmVms) InvalidArgumentError;
  sessions ← session_mode (i_sessions options);
  scaleInAfterMs ← scale_in_after (i_scaleInAfterMs options);
  Ok {| minVms := minVms; maxVms := maxVms; warmVms := warmVms; sessions := sessions; scaleInAfterMs := scaleInAfterMs |}.

Definition routesByHandle (s : ScalingOptions) : bool := 1 <? maxVms s.

(** ** Handles *)

Record SessionHandle := { h_sandboxId : text; h_sessionId : text }.

Definition HANDLE_PREFIX : text := AGENT_SESSION_HANDLE_PREFIX ++ [HANDLE_SEPARATOR].

Definition encodeHandle (sandboxId sessionId : text) : result text :=
  _ ← throw_if (bool_decide (sandboxId = []) || bool_decide (HANDLE_SEPARATOR ∈ sandboxId)) InvalidArgumentError;
  _ ← throw_if (bool_decide (sessionId = [])) InvalidArgumentError;
  Ok (HANDLE_PREFIX ++ sandboxId ++ [HANDLE_SEPARATOR] ++ sessionId).

Definition decodeHandle (value : text) : option SessionHandle :=
  if starts_with HANDLE_PREFIX value then
    let rest := drop (length HANDLE_PREFIX) value in
    match index_of HANDLE_SEPARATOR rest with
    | None | Some O => None
    | Some split =>
        let sessionId := drop (split + 1) rest in
        if bool_decide (sessionId = []) then None else Some {| h_sandboxId := take split rest; h_sessionId := sessionId |}
    end
  else None.

Definition validateCallerSessionId (value : text) : result text :=
  _ ← throw_if (bool_decide (value = [])) InvalidArgumentError;
  _ ← throw_if (starts_with HANDLE_PREFIX value && negb (bool_decide (is_Some (decodeHandle value)))) InvalidArgumentError;
  Ok value.

(** ** The health of a fleet *)

Definition isUnhealthy (failedPings : nat) : bool := (AGENT_FLEET_UNHEALTHY_PINGS <=? failedPings)%nat.

Definition replacementsNeeded (healthyRunning : nat) (s : ScalingOptions) : nat := Z.to_nat (minVms s - Z.of_nat healthyRunning).

(** ** Properties *)

Record scaling_ok (s : ScalingOptions) : Prop := {
  scaling_vms : 0 <= minVms s <= maxVms s /\ 1 <= maxVms s <= POOL_SIZE_MAX;
  scaling_warm : 0 <= warmVms s <= maxVms s - minVms s;
  scaling_after : (inject_Z SCALE_IN_AFTER_MS_MIN <= scaleInAfterMs s <= inject_Z SCALE_IN_AFTER_MS_MAX)%Q
}.

Lemma whole_ok v lo hi z : whole v lo hi = Ok z <-> integer_val v = Some z /\ lo <= z <= hi.
Proof.
  unfold whole. destruct (integer_val v) as [y|]; [|naive_solver]. destruct (Z.ltb_spec y lo), (Z.ltb_spec hi y); cbn;
    (split; [intros [= <-]|intros [[= <-] ?]]); (done || lia).
Qed.

(** The options of scaling that are accepted are exactly those of a fleet that can be:
    [0 <= minVms <= maxVms <= 64], at least one machine, room for the warm ones above
    the minimum, and a wait of a minute to eight hours before a machine is let go. *)
Theorem new_ScalingOptions_exact options s : new_ScalingOptions options = Ok s <->
  integer_val (nullish (i_minVms options) (jint AGENT_SCALING_MIN_VMS_DEFAULT)) = Some (minVms s) /\
  integer_val (nullish (i_maxVms options) (jint AGENT_SCALING_MAX_VMS_DEFAULT)) = Some (maxVms s) /\
  integer_val (nullish (i_warmVms options) (jint AGENT_SCALING_WARM_VMS_DEFAULT)) = Some (warmVms s) /\
  session_mode (i_sessions options) = Ok (sessions s) /\
  nullish (i_scaleInAfterMs options) (jint SCALE_IN_AFTER_MS_DEFAULT) = JNumber (Finite (scaleInAfterMs s)) /\
  scaling_ok s.
Proof.
  assert (forall v q, scale_in_after v = Ok q <-> nullish v (jint SCALE_IN_AFTER_MS_DEFAULT) = JNumber (Finite q) /\
    (inject_Z SCALE_IN_AFTER_MS_MIN <= q <= inject_Z SCALE_IN_AFTER_MS_MAX)%Q) as Ha.
  { intros v q. unfold scale_in_after. destruct (nullish v _) as [| | |[r| | |]| | |]; try (split; [done|by intros [[=] _]]).
    rewrite <- (Qle_bool_iff _ q), <- (Qle_bool_iff q).
    destruct (Qle_bool _ r) eqn:E1, (Qle_bool r _) eqn:E2; cbn [negb orb]; naive_solver congruence. }
  unfold new_ScalingOptions. setoid_rewrite bind_ok. setoid_rewrite whole_ok. setoid_rewrite bind_ok. setoid_rewrite whole_ok.
  setoid_rewrite bind_ok. setoid_rewrite whole_ok. setoid_rewrite throw_if_bind. setoid_rewrite throw_if_bind.
  setoid_rewrite bind_ok. setoid_rewrite bind_ok. setoid_rewrite Ha. setoid_rewrite Z.ltb_ge. split.
  - intros (a & [E1 B1] & b & [E2 B2] & c & [E3 B3] & H1 & H2 & m & E4 & q & [E5 B5] & [= <-]). cbn. split_and!; try done. split; cbn; lia || done.
  - intros (E1 & E2 & E3 & E4 & E5 & [[V1 V2] W A]). exists (minVms s). split; [split; [done|unfold POOL_SIZE_MAX in *; lia]|].
    exists (maxVms s). split; [done|]. exists (warmVms s). split; [split; [done|unfold POOL_SIZE_MAX in *; lia]|].
    split_and!; [lia|lia|]. exists (sessions s). split; [done|]. exists (scaleInAfterMs s). split; [done|]. by destruct s.
Qed.

(** A handle reads back as the machine and the session it was written from, and what
    reads as a handle is written the same: every handle names one machine and one
    session. *)
Theorem handle_roundtrip value sandboxId sessionId :
  encodeHandle sandboxId sessionId = Ok value <-> decodeHandle value = Some {| h_sandboxId := sandboxId; h_sessionId := sessionId |}.
Proof.
  unfold encodeHandle. rewrite !throw_if_bind, orb_false_iff, !bool_decide_eq_false. unfold decodeHandle. split.
  - intros ([Hn Hd] & Hs & E). assert (value = HANDLE_PREFIX ++ sandboxId ++ [HANDLE_SEPARATOR] ++ sessionId) as -> by congruence.
    rewrite starts_with_app, drop_app_length. change ([HANDLE_SEPARATOR] ++ sessionId) with (HANDLE_SEPARATOR :: sessionId).
    rewrite index_of_app, take_app_length by done.
    assert (drop (length sandboxId + 1) (sandboxId ++ HANDLE_SEPARATOR :: sessionId) = sessionId) as ->.
    { rewrite drop_app_ge by lia. by replace (length sandboxId + 1 - length sandboxId)%nat with 1%nat by lia. }
    rewrite bool_decide_false by done. by destruct sandboxId.
  - destruct (starts_with HANDLE_PREFIX value) eqn:E; [|done]. apply starts_with_true in E as [rest ->]. rewrite drop_app_length.
    destruct (index_of HANDLE_SEPARATOR rest) as [[|i]|] eqn:Ei; [done| |done]. case_bool_decide as Hs; [done|].
    intros [= <- <-]. apply index_of_split in Ei as [Er Hd]. rewrite Nat.add_1_r in *. split_and!; [|done|done|].
    + intros H. destruct rest; [by rewrite drop_nil in Hs|done].
    + change ([HANDLE_SEPARATOR] ++ drop (S (S i)) rest) with (HANDLE_SEPARATOR :: drop (S (S i)) rest). by rewrite <- Er.
Qed.

(** A caller's id is any text but the empty one and what begins like a handle without
    being one: its route is never ambiguous. *)
Lemma validateCallerSessionId_exact value v : validateCallerSessionId value = Ok v <->
  v = value /\ value <> [] /\ (starts_with HANDLE_PREFIX value = true -> is_Some (decodeHandle value)).
Proof.
  unfold validateCallerSessionId. rewrite !throw_if_bind, bool_decide_eq_false, andb_false_iff, negb_false_iff, bool_decide_eq_true.
  destruct (starts_with _ _); naive_solver.
Qed.

Lemma maxSessions_positive v n : maxSessionsForMemory v = Ok n -> 7 <= n.
Proof.
  unfold maxSessionsForMemory, MAX_CONCURRENT_CONNECTIONS_1_VCPU, AGENT_SERVICE_RESERVED_CONNECTIONS.
  destruct (integer_val v) as [z|]; [|done]. destruct (z <? 1); [done|]. intros [= <-]. lia.
Qed.

Definition no_options : ScalingOptionsInput := {|
  i_minVms := JUndefined; i_maxVms := JUndefined; i_warmVms := JUndefined; i_sessions := JUndefined; i_scaleInAfterMs := JUndefined |}.
Definition one_machine : ScalingOptions := {| minVms := 1; maxVms := 1; warmVms := 0; sessions := Shared; scaleInAfterMs := 900000 |}.

Example default_scaling : new_ScalingOptions no_options = Ok one_machine.
Proof. reflexivity. Qed.
