(* ===== verification/FleetBase.v ===== *)
(** * FleetBase: what a fleet of agents decides without calling anyone

    src/clients/typescript/src/agent/fleet-base.ts: the record of a member, its pings, where
    a session is placed, what is left over, the lifetimes asked of [rayd], and which of the
    machines of an image are members.  [parseLabels] is of agent/deployment.ts.  Times are
    in milliseconds; the client of a member is only whether there is one.  The options of
    the pool, the messages and [mapBounded] are left out. *)

From stdpp Require Import base option list strings gmap sorting.
From Stdlib Require Import NArith ZArith QArith Qround Qminmax Lia Lqa.
From S2P Require Import Prelude Text Limits Lifecycle Scaling.

Local Open Scope Z_scope.

Definition AGENT_FLEET_PING_TTL_MS : Z := 5 * 1000.
Definition AGENT_FLEET_BUSY_RETRY_MS : Z := 1000.
Definition AGENT_FLEET_LIVE_STATES : list text := txt <$> ["PENDING"; "RUNNING"; "SUSPENDING"; "SUSPENDED"]%string.
Definition AGENT_FLEET_PROBE_STATE : text := txt "RUNNING".
Definition AGENT_FLEET_CAP_SAFETY_MS : Z := REOPEN_CAP_SLACK_MS.

(** ** Members *)

Inductive DeploymentState := Healthy | Busy | Unavailable.

#[export] Instance DeploymentState_eq_dec : EqDecision DeploymentState.
Proof. solve_decision. Defined.

(** [None]: unknown. *)
Abbreviation MemberHealth := (option DeploymentState).

Record Member := {
  sandboxId : text; deployment : bool; extra : bool; inflight : Z; bound : gset text; health : MemberHealth;
  pingedAt : option Z; busyUntil : Z; failedPings : nat; m_cap : option Z; limited : bool; lifetimeRejected : bool;
  proven : bool; running : bool
}.

#[export] Instance Member_eq_dec : EqDecision Member.
Proof. solve_decision. Defined.

Definition newMember (sandboxId : text) (deployment extra : bool) (cap : option Z) : Member := {|
  sandboxId := sandboxId; deployment := deployment; extra := extra; inflight := 0; bound := ∅; health := None;
  pingedAt := None; busyUntil := 0; failedPings := 0; m_cap := cap; limited := false; lifetimeRejected := false;
  proven := true; running := true |}.

Definition with_ping (h : MemberHealth) (at_ : option Z) (failed : nat) (busy : Z) (m : Member) : Member := {|
  sandboxId := sandboxId m; deployment := deployment m; extra := extra m; inflight := inflight m; bound := bound m; health := h;
  pingedAt := at_; busyUntil := busy; failedPings := failed; m_cap := m_cap m; limited := limited m;
  lifetimeRejected := lifetimeRejected m; proven := proven m; running := running m |}.
Definition with_use (n : Z) (b : gset text) (m : Member) : Member := {|
  sandboxId := sandboxId m; deployment := deployment m; extra := extra m; inflight := n; bound := b; health := health m;
  pingedAt := pingedAt m; busyUntil := busyUntil m; failedPings := failedPings m; m_cap := m_cap m; limited := limited m;
  lifetimeRejected := lifetimeRejected m; proven := proven m; running := running m |}.
Definition with_extra (e : bool) (m : Member) : Member := {|
  sandboxId := sandboxId m; deployment := deployment m; extra := e; inflight := inflight m; bound := bound m; health := health m;
  pingedAt := pingedAt m; busyUntil := busyUntil m; failedPings := failedPings m; m_cap := m_cap m; limited := limited m;
  lifetimeRejected := lifetimeRejected m; proven := proven m; running := running m |}.
Definition with_listing (p r : bool) (m : Member) : Member := {|
  sandboxId := sandboxId m; deployment := deployment m; extra := extra m; inflight := inflight m; bound := bound m; health := health m;
  pingedAt := pingedAt m; busyUntil := busyUntil m; failedPings := failedPings m; m_cap := m_cap m; limited := limited m;
  lifetimeRejected := lifetimeRejected m; proven := p; running := r |}.
Definition with_client (cap : option Z) (m : Member) : Member := {|
  sandboxId := sandboxId m; deployment := true; extra := extra m; inflight := inflight m; bound := bound m; health := health m;
  pingedAt := pingedAt m; busyUntil := busyUntil m; failedPings := failedPings m; m_cap := cap; limited := limited m;
  lifetimeRejected := lifetimeRejected m; proven := proven m; running := running m |}.

Definition pingIsFresh (m : Member) (now : Z) : bool :=
  match pingedAt m with Some t => now - t <? AGENT_FLEET_PING_TTL_MS | None => false end.

Definition recordPing (state : DeploymentState) (now : Z) (m : Member) : Member :=
  with_ping (Some state) (Some now)
    (if bool_decide (state = Unavailable) then S (failedPings m) else O)
    (if bool_decide (state = Busy) then now + AGENT_FLEET_PING_TTL_MS else 0) m.

Definition recordBusy (now : Z) (m : Member) : Member :=
  with_ping (Some Busy) (pingedAt m) (failedPings m) (now + AGENT_FLEET_BUSY_RETRY_MS) m.

Definition isLost (m : Member) : bool := isUnhealthy (failedPings m).

(** ** Placement *)

Section Placement.
Context (scaling : ScalingOptions) (maxConcurrency : Z).

Definition isFree (now : Z) (m : Member) : bool :=
  if bool_decide (health m = Some Unavailable) && pingIsFresh m now then false
  else if bool_decide (sessions scaling = Dedicated) then bool_decide (size (bound m) = 0%nat)
  else (inflight m <? maxConcurrency) && (busyUntil m <=? now).

Definition better (now : Z) (best : option Member) (m : Member) : option Member :=
  if isFree now m && match best with None => true | Some b => inflight m <? inflight b end then Some m else best.

Definition chooseMember (now : Z) (members : list Member) : option Member := foldl (better now) None members.

Inductive Placement := Use (member : Member) | Grow | Wait.

Definition planPlacement (members : list Member) (growing : Z) (now : Z) : Placement :=
  match chooseMember now members with
  | Some m => Use m
  | None => if Z.of_nat (length members) + growing <? maxVms scaling then Grow else Wait
  end.

Definition surplus (members : list Member) : list Member :=
  let excess := Z.of_nat (length members) - maxVms scaling in
  if 0 <? excess then take (Z.to_nat excess) (reverse members) else [].

Definition markExtras (members : list Member) : list Member :=
  imap (fun position m => with_extra (minVms scaling <=? Z.of_nat position) m) members.

Definition scalesIn : bool := minVms scaling <? maxVms scaling.
Definition warnsUnmanagedLifetime : bool := scalesIn.

(** ** Lifetimes *)

(** [fleetLifetime(project, scaling)]: the [maxLifetimeMs], with [onTimeout: "kill"]. *)
Definition fleetLifetime (timeoutMs : Q) : option Z :=
  if scalesIn then Some (defaultMaxLifetimeMs (Qceiling (timeoutMs / 1000))) else None.

Definition holdMs (requestTimeoutMs : option Q) : Q := Qmax (scaleInAfterMs scaling) (default 0%Q requestTimeoutMs).
End Placement.

Definition raydCap (platformCap : Z) : Z := platformCap - CAP_MARGIN_MS.

Definition lifetimeMs (desiredMs : option Q) (cap : option Z) (nowMs : Z) : option Z :=
  let desiredSeconds := (fun ms => Qceiling (ms / 1000)) <$> desiredMs in
  match cap with
  | None => (fun s => s * 1000) <$> desiredSeconds
  | Some cap =>
      let remaining := (cap - nowMs) / 1000 - AGENT_FLEET_CAP_SAFETY_MS / 1000 in
      if remaining <? LIFECYCLE_MIN_TIMEOUT_SECONDS then None
      else Some (match desiredSeconds with None => remaining | Some d => Z.min d remaining end * 1000)
  end.

Definition restoreMs (cap : option Z) (nowMs : Z) : option Z :=
  match cap with None => Some (MAX_DURATION_SECONDS * 1000) | Some _ => lifetimeMs None cap nowMs end.

(** [correctedCap(error, current)], of the cap that the error brings. *)
Definition correctedCap (capUnixMs current : option Z) : option Z :=
  match capUnixMs, current with
  | None, _ => None
  | Some c, Some now => if now <=? c then None else Some c
  | Some c, None => Some c
  end.

Definition listedCap (startedAt : Z) (lifetime : option Z) : option Z := (fun l => raydCap (startedAt + l)) <$> lifetime.

(** [sandboxCap(sandbox)], of the two dates its information may bring. *)
Definition sandboxCap (reported platformExpiresAt : option Z) : option Z :=
  match reported with Some c => Some c | None => raydCap <$> platformExpiresAt end.

(** ** The members of a listing *)

Record MemberListing := { l_sandboxId : text; l_state : text; startedAt : Z; l_proven : bool; templateVersion : option text }.

Definition has_version (i : MemberListing) : bool :=
  match templateVersion i with Some v => negb (bool_decide (v = [])) | None => false end.

Definition newer_image (newest : option MemberListing) (i : MemberListing) : option MemberListing :=
  if has_version i && l_proven i && match newest with None => true | Some n => startedAt n <? startedAt i end then Some i else newest.

Definition listedImageVersion (items : list MemberListing) : option text :=
  newest ← foldl newer_image None items; templateVersion newest.

Definition AGENT_DEPLOYMENT_LABEL : text := txt "rayito.agent.deployment".
Definition AGENT_DEPLOYMENT_PORT_LABEL : text := txt "rayito.agent.port".
Definition AGENT_DEPLOYMENT_PROTOCOL_LABEL : text := txt "rayito.agent.protocol".
Definition RAW_PROTOCOL : text := txt "raw".

Record DeploymentLabels := { project : text; port : N; raw : bool }.

Definition parseLabels (metadata : option (gmap text text)) : result DeploymentLabels :=
  let values := default ∅ metadata in
  match values !! AGENT_DEPLOYMENT_LABEL, values !! AGENT_DEPLOYMENT_PORT_LABEL with
  | Some project, Some portText =>
      if negb (bool_decide (portText = [])) && forallb is_digit portText then
        Ok {| project := project; port := parse_nat 10 portText; raw := bool_decide (values !! AGENT_DEPLOYMENT_PROTOCOL_LABEL = Some RAW_PROTOCOL) |}
      else Throw InvalidArgumentError
  | _, _ => Throw InvalidArgumentError
  end.

Definition ownedIds (items : list (text * option (gmap text text))) : gset text :=
  list_to_set (filter (fun i => is_ok (parseLabels i.2) = true) items).*1.

Definition is_running (i : MemberListing) : bool := bool_decide (l_state i = AGENT_FLEET_PROBE_STATE).

Definition set_proven (p : bool) (i : MemberListing) : MemberListing := {|
  l_sandboxId := l_sandboxId i; l_state := l_state i; startedAt := startedAt i; l_proven := p; templateVersion := templateVersion i |}.

Definition selectMembers (items : list MemberListing) (owned unreadable : gset text) : list MemberListing :=
  let sharedImage := existsb (fun i => is_running i && negb (bool_decide (l_sandboxId i ∈ owned)) && negb (bool_decide (l_sandboxId i ∈ unreadable))) items in
  let proven := bool_decide (unreadable = ∅) in
  omap (fun i =>
    if is_running i then if bool_decide (l_sandboxId i ∈ owned) then Some i else None
    else if sharedImage then None else Some (set_proven proven i)) items.

(** A probe: the machine, and what its information said of it when it is still running. *)
Record MemberProbe := { p_sandboxId : text; p_info : option (text * option (gmap text text)) }.

Definition selectProbed (items : list MemberListing) (probes : list MemberProbe) : list MemberListing :=
  selectMembers items (ownedIds (omap p_info probes)) (list_to_set (p_sandboxId <$> filter (fun p => p_info p = None) probes)).

Definition memberOf (known : option Member) (item : MemberListing) (cap : option Z) : Member :=
  match known with
  | None => with_listing (l_proven item) (is_running item) (newMember (l_sandboxId item) false false cap)
  | Some m => with_listing (proven m || l_proven item) (is_running item) m
  end.

(** ** What a fleet says of itself *)

Inductive ScalingSource := Explicit | FromProject | FromRecipe | FromDefault.

Record FleetStatus := {
  fs_members : list (text * MemberHealth * bool * Z); fs_healthy : nat; fs_busy : nat; fs_scaling : ScalingOptions;
  fs_warmReady : Z; fs_source : ScalingSource
}.

Definition fleetStatusOf (members : list (text * MemberHealth * bool * Z)) (scaling : ScalingOptions) (warmReady : Z) (source : ScalingSource) : FleetStatus := {|
  fs_members := members;
  fs_healthy := length (filter (fun m => m.1.1.2 = Some Healthy \/ m.1.1.2 = Some Busy) members);
  fs_busy := length (filter (fun m => m.1.1.2 = Some Busy) members);
  fs_scaling := scaling; fs_warmReady := warmReady; fs_source := source |}.

Definition scalingSourceOf (project : bool) (scaling recipeScaling : option ScalingOptions) : ScalingSource :=
  match scaling, recipeScaling with
  | Some _, _ => Explicit
  | None, Some _ => FromRecipe
  | None, None => if project then FromProject else FromDefault
  end.

(** ** Placement: lemmas *)

Section PlacementLemmas.
Context (scaling : ScalingOptions) (maxConcurrency : Z).
Local Abbreviation free now m := (isFree scaling maxConcurrency now m = true).

(** The free member with the least in flight, the first of those. *)
Definition least_free (now : Z) (members : list Member) (m : Member) : Prop :=
  exists before after, members = before ++ m :: after /\ free now m /\
    (forall b, b ∈ before -> free now b -> inflight m < inflight b) /\ (forall a, a ∈ after -> free now a -> inflight m <= inflight a).

Lemma chooseMember_spec now members :
  match chooseMember scaling maxConcurrency now members with
  | Some m => least_free now members m
  | None => forall m, m ∈ members -> ~ free now m
  end.
Proof.
  unfold chooseMember. induction members as [|m members IH] using rev_ind; [by intros ? ?%not_elem_of_nil|]. rewrite foldl_app. cbn.
  set (best := foldl (better scaling maxConcurrency now) None members) in *. unfold better. destruct (isFree scaling maxConcurrency now m) eqn:Ef; cbn.
  - destruct best as [b|].
    + destruct IH as (before & after & -> & Hb & H1 & H2). destruct (Z.ltb_spec (inflight m) (inflight b)) as [Hlt|Hge].
      * exists (before ++ b :: after), []. split_and!; [done|done| |by intros ? ?%not_elem_of_nil]. intros c [Hc|[->|Hc]%elem_of_cons]%elem_of_app Hf; [|done|].
        -- specialize (H1 c Hc Hf). lia.
        -- specialize (H2 c Hc Hf). lia.
      * exists before, (after ++ [m]). rewrite <- app_assoc. split_and!; [done|done|done|].
        intros c [Hc| ->%list_elem_of_singleton]%elem_of_app Hf; [by apply H2|done].
    + exists members, []. split_and!; [done|done| |by intros ? ?%not_elem_of_nil]. intros b Hb Hf. by destruct (IH b Hb).
  - destruct best as [b|].
    + destruct IH as (before & after & -> & Hb & H1 & H2). exists before, (after ++ [m]). rewrite <- app_assoc. split_and!; [done|done|done|].
      intros c [Hc| ->%list_elem_of_singleton]%elem_of_app Hf; [by apply H2|congruence].
    + intros c [Hc| ->%list_elem_of_singleton]%elem_of_app Hf; [by apply (IH c)|congruence].
Qed.

Lemma chooseMember_elem now members m : chooseMember scaling maxConcurrency now members = Some m -> m ∈ members /\ free now m.
Proof. pose proof (chooseMember_spec now members) as H. intros E. rewrite E in H. destruct H as (before & after & -> & Hf & _). set_solver. Qed.

(** A new session goes to the free member with the least in flight, the first of
    those; a machine is created only when no member is free and the fleet, with the
    machines it is creating, has room; otherwise it waits. *)
Theorem planPlacement_exact members growing now :
  match planPlacement scaling maxConcurrency members growing now with
  | Use m => least_free now members m
  | Grow => (forall m, m ∈ members -> ~ free now m) /\ Z.of_nat (length members) + growing < maxVms scaling
  | Wait => (forall m, m ∈ members -> ~ free now m) /\ maxVms scaling <= Z.of_nat (length members) + growing
  end.
Proof.
  unfold planPlacement. pose proof (chooseMember_spec now members) as H. destruct (chooseMember _ _ now members); [done|].
  destruct (Z.ltb_spec (Z.of_nat (length members) + growing) (maxVms scaling)); done.
Qed.
End PlacementLemmas.

(** ** Lifetimes: lemmas *)

Lemma Qceiling_seconds (ms : Q) : (ms <= inject_Z (Qceiling (ms / 1000) * 1000))%Q.
Proof.
  pose proof (Qle_ceiling (ms / 1000)) as H. rewrite inject_Z_mult. apply (Qmult_le_compat_r _ _ 1000) in H; [|done].
  assert (ms / 1000 * 1000 == ms)%Q as E by field. by rewrite E in H.
Qed.

(** A lifetime asked of [rayd] is a whole number of seconds; it ends five seconds or more
    before the cap that is known, which [rayd] would refuse to pass; and it is what was
    asked, or more, unless the cap comes first. *)
Theorem lifetime_within_cap desired cap now ms : lifetimeMs desired cap now = Some ms ->
  (ms mod 1000 = 0) /\
  (forall c, cap = Some c -> now + ms + AGENT_FLEET_CAP_SAFETY_MS <= c) /\
  (forall d, desired = Some d -> (d <= inject_Z ms)%Q \/ exists c, cap = Some c /\ c - now < ms + AGENT_FLEET_CAP_SAFETY_MS + 1000) /\
  (desired = None -> LIFECYCLE_MIN_TIMEOUT_SECONDS * 1000 <= ms).
Proof.
  unfold lifetimeMs. destruct cap as [c|]; cbn [fmap option_fmap option_map].
  - pose proof (Z.div_mod (c - now) 1000 ltac:(lia)) as Hd. pose proof (Z.mod_pos_bound (c - now) 1000 ltac:(lia)) as Hm.
    unfold AGENT_FLEET_CAP_SAFETY_MS, REOPEN_CAP_SLACK_MS, LIFECYCLE_MIN_TIMEOUT_SECONDS in *. change (5000 / 1000) with 5.
    destruct (Z.ltb_spec ((c - now) / 1000 - 5) 1) as [|Hr]; [done|]. intros [= <-]. split_and!.
    + apply Z.mod_mul. lia.
    + intros ? [= <-]. destruct desired; cbn; lia.
    + intros d ->. cbn. destruct (Z.le_ge_cases (Qceiling (d / 1000)) ((c - now) / 1000 - 5)) as [H|H].
      * left. rewrite Z.min_l by done. apply Qceiling_seconds.
      * right. exists c. rewrite Z.min_r by done. split; [done|lia].
    + intros ->. cbn. lia.
  - destruct desired as [d|]; [|done]. intros [= <-]. split_and!; [apply Z.mod_mul; lia|done| |done]. intros ? [= <-]. left. apply Qceiling_seconds.
Qed.

Lemma lifetime_within_cap_witness :
  lifetimeMs (Some 900500%Q) (Some 600000) 0 = Some 595000 /\ 0 + 595000 + AGENT_FLEET_CAP_SAFETY_MS <= 600000.
Proof. split; [done|]. apply (lifetime_within_cap (Some 900500%Q) (Some 600000) 0 595000); done. Defined.

Lemma correctedCap_earlier reported current c : correctedCap reported current = Some c ->
  reported = Some c /\ forall now, current = Some now -> c < now.
Proof.
  unfold correctedCap. destruct reported as [r|]; [|done]. destruct current as [now|].
  - destruct (Z.leb_spec now r); [done|]. intros [= <-]. split; [done|]. by intros ? [= <-].
  - by intros [= <-].
Qed.

(** A machine is created with a life that [rayd] lets it shorten and give back. *)
Lemma holdMs_covers scaling t : (t <= holdMs scaling (Some t))%Q /\ (scaleInAfterMs scaling <= holdMs scaling (Some t))%Q.
Proof. unfold holdMs. cbn. split; [apply Q.le_max_r|apply Q.le_max_l]. Qed.

(** ** Members: lemmas *)

(** Whether a probe answered, and said of the machine that it is an agent's. *)
Definition probed_agent (probes : list MemberProbe) (id : text) : Prop :=
  exists p metadata, p ∈ probes /\ p_info p = Some (id, metadata) /\ is_ok (parseLabels metadata) = true.

Lemma ownedIds_elem items id : id ∈ ownedIds items <-> exists metadata, (id, metadata) ∈ items /\ is_ok (parseLabels metadata) = true.
Proof.
  unfold ownedIds. rewrite elem_of_list_to_set, list_elem_of_fmap. setoid_rewrite list_elem_of_filter. split.
  - intros ([i metadata] & -> & H1 & H2). eauto.
  - intros (metadata & H1 & H2). by exists (id, metadata).
Qed.

(** C37. A machine that runs is a member only when its labels, read now, are those of an
    agent, and all those listed whose labels are are members.  One that does not run
    counts only when every machine of the image that runs is an agent's or did not answer,
    and then it is proven only when all of them answered: what may belong to someone else
    is never proven. *)
Theorem selectProbed_owned items probes i : i ∈ selectProbed items probes <->
  exists j, j ∈ items /\
    (is_running j = true /\ probed_agent probes (l_sandboxId j) /\ i = j \/
     is_running j = false /\
       (forall k, k ∈ items -> is_running k = true ->
         probed_agent probes (l_sandboxId k) \/ exists p, p ∈ probes /\ p_info p = None /\ p_sandboxId p = l_sandboxId k) /\
       i = set_proven (bool_decide (Forall (fun p => p_info p <> None) probes)) j).
Proof.
  assert (forall id, id ∈ ownedIds (omap p_info probes) <-> probed_agent probes id) as Ho.
  { intros id. rewrite ownedIds_elem. unfold probed_agent. setoid_rewrite list_elem_of_omap. naive_solver. }
  set (unreadable := list_to_set (p_sandboxId <$> filter (fun p => p_info p = None) probes) : gset text).
  assert (forall id, id ∈ unreadable <-> exists p, p ∈ probes /\ p_info p = None /\ p_sandboxId p = id) as Hu.
  { intros id. unfold unreadable. rewrite elem_of_list_to_set, list_elem_of_fmap. setoid_rewrite list_elem_of_filter. naive_solver. }
  assert (bool_decide (unreadable = ∅) = bool_decide (Forall (fun p => p_info p <> None) probes)) as Hp.
  { apply bool_decide_ext. rewrite Forall_forall, elem_of_equiv_empty_L. setoid_rewrite Hu. naive_solver. }
  unfold selectProbed. fold unreadable. unfold selectMembers. rewrite Hp. rewrite list_elem_of_omap. apply exist_proper. intros j.
  apply and_iff_compat_l.
  destruct (is_running j); [|destruct (existsb _ items) eqn:Es].
  - destruct (bool_decide_reflect (l_sandboxId j ∈ ownedIds (omap p_info probes))) as [H|H]; rewrite Ho in H; naive_solver.
  - apply existsb_exists in Es as (k & Hk & Ek). split; [done|]. intros [[[=] _]|[_ [H _]]].
    apply andb_true_iff in Ek as [[Er Eo%negb_true_iff%bool_decide_eq_false]%andb_true_iff Eu%negb_true_iff%bool_decide_eq_false].
    apply list_elem_of_In in Hk. destruct (H k Hk Er) as [H'|H']; [by rewrite Ho in Eo|by rewrite Hu in Eu].
  - split; [intros [= <-]|intros [[[=] _]|(_ & _ & ->)]; done]. right. split_and!; [done| |done]. intros k Hk Er.
    assert (existsb (fun i => is_running i && negb (bool_decide (l_sandboxId i ∈ ownedIds (omap p_info probes))) && negb (bool_decide (l_sandboxId i ∈ unreadable))) items = false) as Ef by exact Es.
    rewrite <- Ho, <- Hu. destruct (decide (l_sandboxId k ∈ ownedIds (omap p_info probes))) as [|Hn]; [by left|]. right.
    destruct (decide (l_sandboxId k ∈ unreadable)) as [|Hn']; [done|]. exfalso. apply not_true_iff_false in Ef. apply Ef.
    apply existsb_exists. exists k. split; [by apply list_elem_of_In|]. by rewrite Er, !bool_decide_false.
Qed.
