(* ===== verification/Fleet.v ===== *)
(** * Fleet: where the invocations of a served agent go

    src/clients/typescript/src/agent/fleet.ts: [AgentFleet] as a state machine.  The
    members are objects in a store, shared by the list of the fleet and by those who use
    them; every invocation, and every reconciliation, is a task that steps from await to
    await, and the calls it awaits end when and as they like.  The scaling does not
    change.  Left out: opening the pool, the recipe, the keys of gateways, the lifetimes
    asked of [rayd] (whose awaits touch nothing that is here), streams, which hold their
    lease until they are closed, and texts. *)

From stdpp Require Import base option list strings gmap sorting.
From Stdlib Require Import NArith ZArith QArith Lia.
From S2P Require Import Prelude Text JsMap Lifecycle Scaling FleetBase.

Local Open Scope Z_scope.

(** A member of the store, by its place in it. *)
Abbreviation oid := nat.

(** What an invocation holds; [chosen] when a placement chose the member, and neither a
    handle nor a known session. *)
Record Lease := { l_member : oid; inner : option text; reservation : option nat; chosen : bool }.

(** How an invocation ends. *)
Inductive outcome := Succeeded | NoCapacity | VmLost | Failed.

(** What goes on once a lost member is replaced: the error of the task, the placement that
    had chosen it, the release of the lease that was opening it, a reconciliation. *)
Inductive after :=
  | ThrowLost
  | ThrowError
  | PlaceAgain (l : Lease)
  | ReleaseAndThrow (l : Lease)
  | ReplaceNext (lost : list oid)
  | ReconcileDone.

(** Where a task is. *)
Inductive pc :=
  | Finding
  | Listing (sandboxId : text) (inner : option text) (known : bool)
  | Connecting (l : Lease)
  | Pinging (l : Lease)
  | Growing
  | Queued
  | Opening (l : Lease)
  | Operating (l : Lease)
  | Backoff
  | Noting (member : oid)
  | Terminating (a : after)
  | Filling (missing : nat) (a : after)
  | Relisting
  | Trimming (rest : list oid)
  | Finished (o : outcome).

Record task := { session : option text; deadline : Z; at_ : pc }.

Record fleet := {
  store : gmap oid Member;
  objects : oid;
  members : list oid;
  growing : Z;
  sessions_of : gmap text text;
  reservations : nat;
  tasks : list task;
  (* what happened, for the statements; [peak]: the most members and machines being
     created that a listing left *)
  killed : list oid;
  leaked : list Lease;
  refills : nat;
  peak : Z
}.

Definition with_store (s : gmap oid Member) (f : fleet) : fleet := {|
  store := s; objects := objects f; members := members f; growing := growing f; sessions_of := sessions_of f;
  reservations := reservations f; tasks := tasks f; killed := killed f; leaked := leaked f; refills := refills f; peak := peak f |}.
Definition with_members (ms : list oid) (f : fleet) : fleet := {|
  store := store f; objects := objects f; members := ms; growing := growing f; sessions_of := sessions_of f;
  reservations := reservations f; tasks := tasks f; killed := killed f; leaked := leaked f; refills := refills f; peak := peak f |}.
Definition with_growing (n : Z) (f : fleet) : fleet := {|
  store := store f; objects := objects f; members := members f; growing := n; sessions_of := sessions_of f;
  reservations := reservations f; tasks := tasks f; killed := killed f; leaked := leaked f; refills := refills f; peak := peak f |}.
Definition with_sessions (s : gmap text text) (f : fleet) : fleet := {|
  store := store f; objects := objects f; members := members f; growing := growing f; sessions_of := s;
  reservations := reservations f; tasks := tasks f; killed := killed f; leaked := leaked f; refills := refills f; peak := peak f |}.
Definition with_tasks (ts : list task) (f : fleet) : fleet := {|
  store := store f; objects := objects f; members := members f; growing := growing f; sessions_of := sessions_of f;
  reservations := reservations f; tasks := ts; killed := killed f; leaked := leaked f; refills := refills f; peak := peak f |}.
Definition with_leak (l : Lease) (f : fleet) : fleet := {|
  store := store f; objects := objects f; members := members f; growing := growing f; sessions_of := sessions_of f;
  reservations := reservations f; tasks := tasks f; killed := killed f; leaked := l :: leaked f; refills := refills f; peak := peak f |}.
Definition with_counts (r : nat) (n : Z) (f : fleet) : fleet := {|
  store := store f; objects := objects f; members := members f; growing := growing f; sessions_of := sessions_of f;
  reservations := reservations f; tasks := tasks f; killed := killed f; leaked := leaked f; refills := r; peak := n |}.
Definition with_killed (o : oid) (f : fleet) : fleet := {|
  store := store f; objects := objects f; members := members f; growing := growing f; sessions_of := sessions_of f;
  reservations := reservations f; tasks := tasks f; killed := o :: killed f; leaked := leaked f; refills := refills f; peak := peak f |}.

Definition set_member (o : oid) (g : Member -> Member) (f : fleet) : fleet := with_store (alter g o (store f)) f.

(** The text of a reservation; what the fleet uses of it is that no two are the same. *)
Definition reservation_text (n : nat) : text := txt "reserva-" ++ print_nat 10 (N.of_nat n).

Section Fleet.
Context (scaling : ScalingOptions) (maxConcurrency queueTimeoutMs : Z) (lifetime : option Z) (has_project has_index : bool).

(** ** The members *)

Definition is_dedicated : bool := bool_decide (sessions scaling = Dedicated).

Definition member_at (f : fleet) (o : oid) : Member := default (newMember [] false false None) (store f !! o).
Definition objects_of (f : fleet) : list Member := member_at f <$> members f.

(** [markExtras(this.#members, scaling)]. *)
Definition mark_extras (f : fleet) : fleet :=
  with_store (foldl (fun s po => alter (with_extra (minVms scaling <=? Z.of_nat po.1)) po.2 s) (store f) (imap pair (members f))) f.

(** [#find(sandboxId)]. *)
Definition find (id : text) (f : fleet) : option oid :=
  snd <$> list_find (fun o => sandboxId (member_at f o) = id) (members f).

(** The member that [chooseMember] gives, as an object. *)
Definition choose (now : Z) (f : fleet) : option oid :=
  m ← chooseMember scaling maxConcurrency now (objects_of f);
  snd <$> list_find (fun o => member_at f o = m) (members f).

(** A new object in the store. *)
Definition new_object (m : Member) (f : fleet) : oid * fleet :=
  (objects f, {|
    store := <[objects f := m]> (store f); objects := S (objects f); members := members f; growing := growing f; sessions_of := sessions_of f;
    reservations := reservations f; tasks := tasks f; killed := killed f; leaked := leaked f; refills := refills f; peak := peak f |}).

(** [newReservation()]. *)
Definition new_reservation (f : fleet) : nat * fleet :=
  (S (reservations f), {|
    store := store f; objects := objects f; members := members f; growing := growing f; sessions_of := sessions_of f;
    reservations := S (reservations f); tasks := tasks f; killed := killed f; leaked := leaked f; refills := refills f; peak := peak f |}).

(** [#remember(sessionId, member)]. *)
Definition remember (session : option text) (o : oid) (f : fleet) : fleet :=
  match session with
  | Some s => if is_dedicated then with_sessions (<[s := sandboxId (member_at f o)]> (sessions_of f)) f else f
  | None => f
  end.

(** [#drop(member)]. *)
Definition drop_member (o : oid) (f : fleet) : fleet := mark_extras (with_members (filter (fun p => p <> o) (members f)) f).

(** The first turn of [#terminate(member)]. *)
Definition terminate (o : oid) (f : fleet) : fleet :=
  match store f !! o with Some m => if proven m then with_killed o f else f | None => f end.

(** ** Leases *)

(** [#reserve(member)]. *)
Definition reserve (o : oid) (f : fleet) : option nat * fleet :=
  let f := set_member o (fun m => with_use (inflight m + 1) (bound m) m) f in
  if is_dedicated then
    let (r, f) := new_reservation f in
    (Some r, set_member o (fun m => with_use (inflight m) ({[reservation_text r]} ∪ bound m) m) f)
  else (None, f).

Definition unbind (r : option nat) (b : gset text) : gset text :=
  match r with Some r => b ∖ {[reservation_text r]} | None => b end.

(** [#unreserve(member, reservation)]. *)
Definition unreserve (l : Lease) (f : fleet) : fleet :=
  set_member (l_member l) (fun m => with_use (inflight m - 1) (unbind (reservation l) (bound m)) m) f.

(** [#unlease(lease, keep)]. *)
Definition unlease (l : Lease) (keep : option text) (f : fleet) : fleet :=
  let f := set_member (l_member l) (fun m => with_use (Z.max 0 (inflight m - 1)) (unbind (reservation l) (bound m)) m) f in
  match reservation l, keep with
  | Some _, Some k => remember (Some k) (l_member l) (set_member (l_member l) (fun m => with_use (inflight m) ({[k]} ∪ bound m) m) f)
  | _, _ => f
  end.

(** After a lease: [#openOrConnect], which awaits when there is no client. *)
Definition opened (l : Lease) (f : fleet) : pc := if deployment (member_at f (l_member l)) then Operating l else Opening l.

(** [#routeMember(sandboxId)], its member found; [known] when the session was known. *)
Definition route_to (o : oid) (t : task) (inner : option text) (known : bool) (f : fleet) : pc * fleet :=
  let f := set_member o (fun m => with_use (inflight m + 1) (bound m) m) f in
  let f := if known then remember (session t) o f else f in
  let l := {| l_member := o; inner := inner; reservation := None; chosen := false |} in
  (opened l f, f).

Definition route (id : text) (t : task) (inner : option text) (known : bool) (f : fleet) : pc * fleet :=
  match find id f with
  | Some o => route_to o t inner known f
  | None => (Listing id inner known, f)
  end.

(** A turn of the loop of [#place], when no member is known for the session. *)
Definition place (t : task) (now : Z) (f : fleet) : pc * fleet :=
  match planPlacement scaling maxConcurrency (objects_of f) (growing f) now with
  | Use _ =>
      match choose now f with
      | Some o =>
          let (r, f) := reserve o f in
          (Connecting {| l_member := o; inner := session t; reservation := r; chosen := true |}, f)
      | None => (Finished Failed, f)
      end
  | Grow => (Growing, with_growing (growing f + 1) f)
  | Wait => (if deadline t <=? now then Finished NoCapacity else Queued, f)
  end.

(** The loop of [#place], from its top: [#knownSessionMember(sessionId)]. *)
Definition place_start (t : task) (now : Z) (f : fleet) : pc * fleet :=
  match session t with
  | Some s =>
      if is_dedicated then
        match sessions_of f !! s with
        | Some id => route id t (Some s) true f
        | None => if has_index then (Finding, f) else place t now f
        end
      else place t now f
  | None => place t now f
  end.

(** [#lease(sessionId, deadline)]. *)
Definition lease_start (t : task) (now : Z) (f : fleet) : pc * fleet :=
  match session t ≫= decodeHandle with
  | Some h => route (h_sandboxId h) t (Some (h_sessionId h)) false f
  | None => place_start t now f
  end.

(** ** Replacing *)

(** What goes on after a replacement. *)
Definition trim_turn (rest : list oid) (f : fleet) : pc * fleet :=
  match rest with
  | o :: rest => (Trimming rest, terminate o (drop_member o f))
  | [] =>
      if has_project then
        match replacementsNeeded (length (members f)) scaling with
        | O => (Finished Succeeded, f)
        | n => (Filling n ReconcileDone, f)
        end
      else (Finished Succeeded, f)
  end.

(** The members [#trim] lets go: those beyond [maxVms], the newest first, that are free
    and proven. *)
Definition excess (f : fleet) : list oid :=
  let n := Z.of_nat (length (members f)) - maxVms scaling in
  filter (fun o => inflight (member_at f o) = 0 /\ bound (member_at f o) = ∅ /\ proven (member_at f o) = true)
    (if 0 <? n then take (Z.to_nat n) (reverse (members f)) else []).

Definition replace_next (lost : list oid) (f : fleet) : pc * fleet :=
  match lost with
  | o :: lost => (Terminating (ReplaceNext lost), terminate o (drop_member o f))
  | [] => trim_turn (excess f) f
  end.

Definition resume_after (a : after) (t : task) (now : Z) (f : fleet) : pc * fleet :=
  match a with
  | ThrowLost => (Finished VmLost, f)
  | ThrowError => (Finished Failed, f)
  | PlaceAgain l => place_start t now (unreserve l f)
  | ReleaseAndThrow l => (Finished Failed, unlease l None f)
  | ReplaceNext lost => replace_next lost f
  | ReconcileDone => (Finished Succeeded, f)
  end.

(** A replacement, from its top: the member leaves the fleet and is being terminated. *)
Definition replace (o : oid) (a : after) (f : fleet) : pc * fleet := (Terminating a, terminate o (drop_member o f)).

(** [#fillToMinimum()]. *)
Definition fill (a : after) (t : task) (now : Z) (f : fleet) : pc * fleet :=
  if has_project then
    match replacementsNeeded (length (members f)) scaling with
    | O => resume_after a t now f
    | n => (Filling n a, f)
    end
  else resume_after a t now f.

(** An error out of [#fillToMinimum()]: that of [#replace] and of what called it. *)
Definition fill_failed (a : after) (f : fleet) : pc * fleet :=
  match a with
  | PlaceAgain l => (Finished Failed, with_leak l f)
  | ReleaseAndThrow l => (Finished Failed, unlease l None f)
  | _ => (Finished Failed, f)
  end.

(** A new machine of [#fillToMinimum()] joins. *)
Definition joined (m : Member) (f : fleet) : fleet :=
  let (o, f) := new_object m f in mark_extras (with_members (members f ++ [o]) f).

(** ** Events *)

Inductive connected := COpened (cap : option Z) | CNotFound | CParked | CError (sandbox_error : bool).
Inductive operated := OOk (sessionId : option text) | ONotFound | OBusy | OSandboxError | OOther.

(** [#probe(chosen)] said yes. *)
Definition probe_true (l : Lease) (t : task) (f : fleet) : pc * fleet :=
  let f := remember (session t) (l_member l) f in (opened l f, f).

(** It said no. *)
Definition probe_false (l : Lease) (t : task) (now : Z) (f : fleet) : pc * fleet := place_start t now (unreserve l f).

(** It threw: nothing gives back what was reserved. *)
Definition probe_threw (l : Lease) (f : fleet) : pc * fleet := (Finished Failed, with_leak l f).

(** The client of a member is there. *)
Definition open_client (o : oid) (cap : option Z) (f : fleet) : fleet :=
  if deployment (member_at f o) then f
  else set_member o (fun m => with_client (match cap with Some _ => cap | None => m_cap m end) m) f.

(** [#openOrConnect] of [#probe] ended. *)
Definition probe_connected (l : Lease) (c : connected) (t : task) (now : Z) (f : fleet) : pc * fleet :=
  match c with
  | CNotFound => probe_false l t now (drop_member (l_member l) f)
  | CParked => replace (l_member l) (PlaceAgain l) f
  | CError _ => probe_threw l f
  | COpened cap =>
      let f := open_client (l_member l) cap f in
      let m := member_at f (l_member l) in
      if pingIsFresh m now then
        if bool_decide (health m = Some Unavailable) then probe_false l t now f else probe_true l t f
      else (Pinging l, f)
  end.

(** Its [status()] ended. *)
Definition probe_pinged (l : Lease) (state : option DeploymentState) (t : task) (now : Z) (f : fleet) : pc * fleet :=
  match state with
  | None => probe_threw l f
  | Some s =>
      let f := set_member (l_member l) (recordPing s now) f in
      if isLost (member_at f (l_member l)) then replace (l_member l) (PlaceAgain l) f
      else if bool_decide (s = Healthy) then probe_true l t f else probe_false l t now f
  end.

(** The catch of [#execute]. *)
Definition execute_failed (l : Lease) (o : operated) (t : task) (now : Z) (f : fleet) : pc * fleet :=
  match o with
  | ONotFound => replace (l_member l) ThrowLost (unlease l None f)
  | OBusy =>
      let f := set_member (l_member l) (recordBusy now) (unlease l None f) in
      if deadline t <=? now then (Finished NoCapacity, f)
      else if bool_decide (is_Some (session t ≫= decodeHandle)) then (Backoff, f)
      else lease_start t now f
  | OSandboxError =>
      let f := unlease l None f in
      (if deployment (member_at f (l_member l)) then Noting (l_member l) else Finished Failed, f)
  | _ => (Finished Failed, unlease l None f)
  end.

Definition execute_ended (l : Lease) (o : operated) (t : task) (now : Z) (f : fleet) : pc * fleet :=
  match o with
  | OOk keep => (Finished Succeeded, unlease l keep f)
  | _ => execute_failed l o t now f
  end.

Definition open_ended (l : Lease) (c : connected) (t : task) (now : Z) (f : fleet) : pc * fleet :=
  match c with
  | COpened cap => (Operating l, open_client (l_member l) cap f)
  | CNotFound => execute_failed l ONotFound t now f
  | CParked => replace (l_member l) (ReleaseAndThrow l) f
  | CError sandbox_error => execute_failed l (if sandbox_error then OSandboxError else OOther) t now f
  end.

(** A listing, applied: the new list of objects. *)
Fixpoint list_members (known : list (text * oid)) (items : list MemberListing) (f : fleet) : list oid * fleet :=
  match items with
  | [] => ([], f)
  | i :: items =>
      let (o, f) :=
        match list_find (fun k => k.1 = l_sandboxId i) (reverse known) with
        | Some (_, (_, o)) => (o, set_member o (fun m => memberOf (Some m) i None) f)
        | None => new_object (memberOf None i (listedCap (startedAt i) lifetime)) f
        end in
      let (os, f) := list_members known items f in (o :: os, f)
  end.

Definition by_start (a b : MemberListing) : Z := startedAt a - startedAt b.

(** [refreshMembers()], from the end of its listing. *)
Definition refresh (parked : gset text) (listing : list MemberListing) (f : fleet) : fleet :=
  let items := filter (fun i => l_sandboxId i ∉ parked) (sort_by by_start listing) in
  let known := (fun o => (sandboxId (member_at f o), o)) <$> members f in
  let (os, f) := list_members known items f in
  mark_extras (with_counts (refills f) (Z.max (peak f) (Z.of_nat (length os) + growing f)) (with_members os f)).

(** How what a task awaits ends; [None]: with an error. *)
Inductive answer :=
  | AFound (sandboxId : option (option text))
  | AListed (listing : option (gset text * list MemberListing))
  | AConnected (c : connected)
  | APinged (state : option DeploymentState)
  | ACreated (machine : option (text * option Z))
  | ATerminated
  | AWoke
  | AOperated (o : operated).

(** A machine of [#growFor]: occupied from its first moment. *)
Definition grown (machine : text * option Z) (t : task) (f : fleet) : pc * fleet :=
  let (o, f) := new_object (newMember machine.1 true true machine.2) f in
  let (r, f) := reserve o f in
  let f := mark_extras (with_members (members f ++ [o]) f) in
  let f := remember (session t) o f in
  (Operating {| l_member := o; inner := session t; reservation := r; chosen := true |}, f).

(** A task goes on: where it is then, and the fleet. *)
Definition resume (t : task) (a : answer) (now : Z) (f : fleet) : option (pc * fleet) :=
  match at_ t, a with
  | Finding, AFound None => Some (Finished Failed, f)
  | Finding, AFound (Some None) => Some (place t now f)
  | Finding, AFound (Some (Some id)) => Some (route id t (session t) true f)
  | Listing _ _ _, AListed None => Some (Finished Failed, f)
  | Listing id inner known, AListed (Some (parked, listing)) =>
      let f := refresh parked listing f in
      Some match find id f with Some o => route_to o t inner known f | None => (Finished VmLost, f) end
  | Connecting l, AConnected c => Some (probe_connected l c t now f)
  | Pinging l, APinged s => Some (probe_pinged l s t now f)
  | Growing, ACreated None => Some (Finished Failed, with_growing (growing f - 1) f)
  | Growing, ACreated (Some machine) => Some (grown machine t (with_growing (growing f - 1) f))
  | Queued, AWoke => Some (place_start t now f)
  | Opening l, AConnected c => Some (open_ended l c t now f)
  | Operating l, AOperated o => Some (execute_ended l o t now f)
  | Backoff, AWoke => Some (lease_start t now f)
  | Noting o, APinged None => Some (Finished Failed, f)
  | Noting o, APinged (Some s) =>
      let f := set_member o (recordPing s now) f in
      Some (if isLost (member_at f o) then replace o ThrowError f else (Finished Failed, f))
  | Terminating a, ATerminated => Some (fill a t now f)
  | Filling _ a, ACreated None => Some (fill_failed a f)
  | Filling n a, ACreated (Some machine) =>
      let f := joined (newMember machine.1 true false machine.2) (with_counts (S (refills f)) (peak f) f) in
      Some (match pred n with O => resume_after a t now f | n => (Filling n a, f) end)
  | Relisting, AListed None => Some (Finished Failed, f)
  | Relisting, AListed (Some (parked, listing)) =>
      let f := refresh parked listing f in
      Some (replace_next (filter (fun o => isLost (member_at f o) = true) (members f)) f)
  | Trimming rest, ATerminated => Some (trim_turn rest f)
  | _, _ => None
  end.

Inductive event :=
  | Invoke (session : option text) (now : Z)
  | Reconcile
  | Answer (i : nat) (a : answer) (now : Z).

Definition step (e : event) (f : fleet) : option fleet :=
  match e with
  | Invoke s now =>
      let t := {| session := s; deadline := now + queueTimeoutMs; at_ := Queued |} in
      let (p, f') := lease_start t now f in
      Some (with_tasks (tasks f ++ [{| session := session t; deadline := deadline t; at_ := p |}]) f')
  | Reconcile => Some (with_tasks (tasks f ++ [{| session := None; deadline := 0; at_ := Relisting |}]) f)
  | Answer i a now =>
      t ← tasks f !! i;
      pf ← resume t a now f;
      Some (with_tasks (<[i := {| session := session t; deadline := deadline t; at_ := pf.1 |}]> (tasks f)) pf.2)
  end.

(** A fleet that [start()] left with these machines; with none, one just reconnected. *)
Definition no_fleet : fleet := {|
  store := ∅; objects := O; members := []; growing := 0; sessions_of := ∅; reservations := O; tasks := []; killed := []; leaked := [];
  refills := O; peak := 0 |}.
Definition started (machines : list (text * option Z)) : fleet :=
  foldl (fun f m => joined (newMember m.1 true false m.2) f) no_fleet machines.

Fixpoint steps (es : list event) (f : fleet) : option fleet :=
  match es with [] => Some f | e :: es => f ← step e f; steps es f end.
End Fleet.
