(* ===== verification/FleetSafety.v ===== *)
(** * FleetSafety: what every reachable state of a fleet keeps

    The invariant of Fleet.v, lease by lease: what each step does to the leases that are
    held, with those of the other tasks as a frame; the properties; and the runs in which a
    fleet does what it does not mean to. *)

From stdpp Require Import base option list strings gmap sorting.
From Stdlib Require Import NArith ZArith QArith Lia.
From S2P Require Import Prelude Text JsMap Lifecycle Scaling FleetBase Fleet.

Local Open Scope Z_scope.

Section Safety.
Context (scaling : ScalingOptions) (maxConcurrency queueTimeoutMs : Z) (lifetime : option Z) (has_project has_index : bool).

(** ** The invariant, with the leases that are held *)

Definition on (o : oid) (ls : list Lease) : list Lease := filter (fun l => l_member l = o) ls.
Definition chosen_on (o : oid) (ls : list Lease) : list Lease := filter (fun l => chosen l = true) (on o ls).

Definition all_leases (held : list Lease) (f : fleet) : list Lease := held ++ leaked f.

(** A member and the leases on it. *)
Record member_ok (o : oid) (m : Member) (ls : list Lease) : Prop := {
  use_exact : inflight m = Z.of_nat (length (on o ls));
  bound_one : (size (bound m) <= 1)%nat;
  bound_held : forall l r, l ∈ ls -> l_member l = o -> reservation l = Some r -> reservation_text r ∈ bound m;
  chosen_few : sessions scaling = Shared -> Z.of_nat (length (chosen_on o ls)) <= Z.max 1 maxConcurrency
}.

Record fleet_ok (held : list Lease) (f : fleet) : Prop := {
  ok_members : forall o m, store f !! o = Some m -> member_ok o m (all_leases held f);
  ok_leases : forall l, l ∈ all_leases held f -> is_Some (store f !! l_member l);
  ok_listed : forall o, o ∈ members f -> is_Some (store f !! o);
  ok_objects : forall o, is_Some (store f !! o) -> (o < objects f)%nat;
  ok_reserved : NoDup (omap reservation (all_leases held f)) /\ forall r, r ∈ omap reservation (all_leases held f) -> (r <= reservations f)%nat;
  ok_killed : forall o, o ∈ killed f -> exists m, store f !! o = Some m /\ proven m = true;
  ok_size : Z.of_nat (length (members f)) + growing f <= Z.max (maxVms scaling) (peak f) + Z.of_nat (refills f)
}.

Lemma member_ok_perm o m ls ls' : Permutation ls ls' -> member_ok o m ls -> member_ok o m ls'.
Proof.
  intros Hp [H1 H2 H3 H4]. split; [| done| |].
  - unfold on in *. by rewrite <- Hp.
  - intros l r. rewrite <- Hp. apply H3.
  - unfold chosen_on, on in *. by rewrite <- Hp.
Qed.

Lemma fleet_ok_perm held held' f : Permutation held held' -> fleet_ok held f -> fleet_ok held' f.
Proof.
  intros Hp [H1 H2 H3 H4 H5 H6 H7]. assert (Permutation (all_leases held f) (all_leases held' f)) as Ha by (unfold all_leases; by rewrite Hp).
  split; [|intros l; rewrite <- Ha; apply H2|done|done| |done|done]. 
  - intros o m Hm. eapply member_ok_perm; [exact Ha|auto].
  - destruct H5 as [H5 H5']. split; [by rewrite <- Ha|]. intros r. rewrite <- Ha. apply H5'.
Qed.

(** ** Steps that touch no lease *)

Definition same_use (m m' : Member) : Prop := inflight m' = inflight m /\ bound m' = bound m /\ (proven m = true -> proven m' = true).

Record quiet (f f' : fleet) : Prop := {
  quiet_store : forall o, option_Forall2 same_use (store f !! o) (store f' !! o);
  quiet_objects : objects f' = objects f;
  quiet_leaked : leaked f' = leaked f;
  quiet_killed : killed f' = killed f;
  quiet_reservations : reservations f' = reservations f;
  quiet_members : (forall o, o ∈ members f' -> o ∈ members f) /\ (length (members f') <= length (members f))%nat;
  quiet_growing : growing f' = growing f;
  quiet_refills : refills f' = refills f;
  quiet_peak : peak f' = peak f
}.

Lemma same_use_refl m : same_use m m.
Proof. done. Qed.

Lemma same_use_trans m n p : same_use m n -> same_use n p -> same_use m p.
Proof. intros (A1 & A2 & A3) (B1 & B2 & B3). split_and!; [congruence|congruence|auto]. Qed.

Lemma store_refl f o : option_Forall2 same_use (store f !! o) (store f !! o).
Proof. destruct (store f !! o); constructor. apply same_use_refl. Qed.

Lemma quiet_refl f : quiet f f.
Proof. split; try done. apply store_refl. Qed.

Lemma quiet_trans f g h : quiet f g -> quiet g h -> quiet f h.
Proof.
  intros [A1 A2 A3 A4 A5 [A6 A6'] A7 A8 A9] [B1 B2 B3 B4 B5 [B6 B6'] B7 B8 B9]. split; try congruence.
  - intros o. specialize (A1 o). specialize (B1 o). destruct A1 as [m n H|]; inversion B1; constructor. by eapply same_use_trans.
  - split; [auto|lia].
Qed.

Lemma fleet_ok_quiet held f f' : quiet f f' -> fleet_ok held f -> fleet_ok held f'.
Proof.
  intros [A1 A2 A3 A4 A5 [A6 A6'] A7 A8 A9] [H1 H2 H3 H4 H5 H6 H7].
  assert (all_leases held f' = all_leases held f) as Ea by (unfold all_leases; by rewrite A3).
  assert (forall o, is_Some (store f' !! o) <-> is_Some (store f !! o)) as Hs.
  { intros o. specialize (A1 o). by inversion A1. }
  split.
  - intros o m' Hm'. specialize (A1 o). rewrite Hm' in A1. inversion A1 as [m ? (U1 & U2 & U3) E|]. subst.
    destruct (H1 o m (eq_sym E)) as [K1 K2 K3 K4]. rewrite Ea. split; [congruence|by rewrite U2|by rewrite U2|done].
  - rewrite Ea. intros l Hl. apply Hs. auto.
  - intros o Ho. apply Hs. auto.
  - intros o Ho. rewrite A2. apply H4. by apply Hs.
  - by rewrite Ea, A5.
  - intros o. rewrite A4. intros Ho. destruct (H6 o Ho) as (m & Hm & Hp). specialize (A1 o). rewrite Hm in A1. inversion A1 as [? m' (_ & _ & U3) E1 E2|]. eauto.
  - rewrite A7, A8, A9. lia.
Qed.

Lemma quiet_alter o g f : (forall m, same_use m (g m)) -> quiet f (set_member o g f).
Proof.
  intros Hg. split; try done. intros p. cbn. destruct (decide (p = o)) as [->|Hne].
  - rewrite lookup_alter_eq. destruct (store f !! o); constructor. apply Hg.
  - rewrite lookup_alter_ne by done. apply store_refl.
Qed.

Lemma quiet_mark_extras f : quiet f (mark_extras scaling f).
Proof.
  unfold mark_extras. generalize (imap pair (members f)) as l. intros l.
  assert (forall s : gmap oid Member, (forall o, option_Forall2 same_use (store f !! o) (s !! o)) -> forall o, option_Forall2 same_use (store f !! o)
    (foldl (fun s po => alter (with_extra (minVms scaling <=? Z.of_nat po.1)) po.2 s) s l !! o)) as H.
  { induction l as [|[p q] l IH]; intros s Hs; cbn; [done|]. apply IH. intros o. destruct (decide (o = q)) as [->|Hne].
    - rewrite lookup_alter_eq. specialize (Hs q). inversion Hs; constructor. done.
    - by rewrite lookup_alter_ne. }
  split; try done. apply H. apply store_refl.
Qed.

Lemma quiet_drop o f : quiet f (drop_member scaling o f).
Proof.
  eapply quiet_trans; [|apply quiet_mark_extras]. split; try done; [intros p; cbn; apply store_refl|]. cbn. split.
  - intros p [_ H]%list_elem_of_filter. done.
  - apply length_filter.
Qed.

Lemma quiet_remember s o f : quiet f (remember scaling s o f).
Proof. destruct s as [s|]; cbn; [|apply quiet_refl]. destruct (is_dedicated scaling); [|apply quiet_refl]. split; try done. intros p. cbn. apply store_refl. Qed.

Lemma quiet_open o cap f : quiet f (open_client o cap f).
Proof. unfold open_client. destruct (deployment _); [apply quiet_refl|]. by apply quiet_alter. Qed.

(** ** Steps on one member *)

Lemma on_other o l ls : l_member l <> o -> on o (l :: ls) = on o ls.
Proof. intros H. unfold on. by rewrite filter_cons_False. Qed.

Lemma on_same o l ls : l_member l = o -> on o (l :: ls) = l :: on o ls.
Proof. intros H. unfold on. by rewrite filter_cons_True. Qed.

Lemma member_ok_other o m l ls : l_member l <> o -> member_ok o m (l :: ls) <-> member_ok o m ls.
Proof.
  intros Hne. pose proof (on_other o l ls Hne) as E.
  assert (chosen_on o (l :: ls) = chosen_on o ls) as E' by (unfold chosen_on; by rewrite E).
  split; intros [H1 H2 H3 H4]; (split; [by rewrite ?E in *|done| |by rewrite ?E' in *]).
  - intros l' r Hl'. apply H3. by right.
  - intros l' r [->|Hl']%elem_of_cons; [done|by apply H3].
Qed.

Lemma update_one held held' o g m f : fleet_ok held f -> store f !! o = Some m -> proven (g m) = proven m ->
  (forall p n, p <> o -> member_ok p n (all_leases held f) -> member_ok p n (all_leases held' f)) ->
  member_ok o (g m) (all_leases held' f) ->
  (forall l, l ∈ all_leases held' f -> l_member l = o \/ l ∈ all_leases held f) ->
  NoDup (omap reservation (all_leases held' f)) /\ (forall r, r ∈ omap reservation (all_leases held' f) -> (r <= reservations f)%nat) ->
  fleet_ok held' (set_member o g f).
Proof.
  intros [H1 H2 H3 H4 H5 H6 H7] Hm Hg Hother Hsame Hl Hr.
  assert (forall p, is_Some (alter g o (store f) !! p) <-> is_Some (store f !! p)) as Hs by (intros p; by rewrite lookup_alter_is_Some).
  split; cbn; [| | | |done| |done].
  - intros p n. destruct (decide (p = o)) as [->|Hne].
    + rewrite lookup_alter_eq, Hm. cbn. by intros [= <-].
    + rewrite lookup_alter_ne by done. auto.
  - intros l Hin. apply Hs. destruct (Hl l Hin) as [->|]; [by eexists|auto].
  - intros p Hp. apply Hs. auto.
  - intros p Hp. apply H4, Hs, Hp.
  - intros p Hp. destruct (H6 p Hp) as (n & Hn & Hpr). destruct (decide (p = o)) as [->|Hne].
    + rewrite lookup_alter_eq, Hm. cbn. exists (g m). split; [done|]. congruence.
    + rewrite lookup_alter_ne by done. eauto.
Qed.

(** One more lease, without a reservation. *)
Lemma lease_more held l m f : fleet_ok held f -> store f !! l_member l = Some m -> reservation l = None ->
  (chosen l = true -> sessions scaling = Shared -> inflight m < Z.max 1 maxConcurrency) ->
  fleet_ok (l :: held) (set_member (l_member l) (fun m => with_use (inflight m + 1) (bound m) m) f).
Proof.
  intros Hok Hm Hr Hc. destruct (ok_members _ _ Hok _ _ Hm) as [K1 K2 K3 K4]. apply (update_one held _ _ _ m); [done|done|done| | | |].
  - intros p n Hne. apply member_ok_other. done.
  - change (all_leases (l :: held) f) with (l :: all_leases held f). split; cbn [inflight bound with_use]; [|done| |].
    + rewrite on_same by done. cbn [length]. lia.
    + intros l' r [->|Hl']%elem_of_cons; [congruence|by apply K3].
    + intros Hs. unfold chosen_on. rewrite on_same by done. destruct (decide (chosen l = true)) as [E|E].
      * rewrite filter_cons_True by done. cbn [length]. specialize (Hc E Hs).
        pose proof (length_filter (fun l => chosen l = true) (on (l_member l) (all_leases held f))). lia.
      * rewrite filter_cons_False by done. apply (K4 Hs).
  - intros l' [->|Hl']%elem_of_cons; [by left|by right].
  - cbn. rewrite Hr. apply (ok_reserved _ _ Hok).
Qed.

Definition with_reservation (r : option nat) (l : Lease) : Lease := {| l_member := l_member l; inner := inner l; reservation := r; chosen := chosen l |}.

Lemma fleet_ok_counter held f : fleet_ok held f -> fleet_ok held (new_reservation f).2.
Proof.
  intros [H1 H2 H3 H4 [H5 H5'] H6 H7]. split; try done. split; [done|]. intros r Hr. cbn. specialize (H5' r Hr). lia.
Qed.

(** It reserves its member, which is not bound. *)
Lemma lease_reserves held l m f : fleet_ok (l :: held) f -> store f !! l_member l = Some m -> reservation l = None -> bound m = ∅ ->
  fleet_ok (with_reservation (Some (S (reservations f))) l :: held)
    (set_member (l_member l) (fun m => with_use (inflight m) ({[reservation_text (S (reservations f))]} ∪ bound m) m) (new_reservation f).2).
Proof.
  intros Hok Hm Hr Hb. set (r := S (reservations f)). pose proof (fleet_ok_counter _ _ Hok) as Hok'.
  destruct (ok_members _ _ Hok _ _ Hm) as [K1 K2 K3 K4]. destruct (ok_reserved _ _ Hok) as [N1 N2].
  apply (update_one (l :: held) _ _ _ m); [done|done|done| | | |].
  - intros p n Hne H. apply member_ok_other in H; [|done]. apply member_ok_other; done.
  - change (all_leases (with_reservation (Some r) l :: held) (new_reservation f).2) with (with_reservation (Some r) l :: all_leases held f).
    change (all_leases (l :: held) f) with (l :: all_leases held f) in *. split; cbn [inflight bound with_use].
    + rewrite on_same in * by done. done.
    + rewrite Hb, union_empty_r_L. by rewrite size_singleton.
    + intros l' r' [->|Hl']%elem_of_cons Ho; cbn; [intros [= <-]; set_solver|]. intros Hr'. specialize (K3 l' r'). set_solver.
    + intros Hs. specialize (K4 Hs). unfold chosen_on in *. rewrite on_same in * by done.
      destruct (decide (chosen l = true)); [rewrite filter_cons_True in * by done|rewrite filter_cons_False in * by done]; done.
  - intros l' [->|Hl']%elem_of_cons; [by left|right; by right].
  - cbn in *. rewrite Hr in N1, N2. split.
    + apply NoDup_cons. split; [|done]. intros Hin. specialize (N2 r Hin). lia.
    + intros r' [->|Hin]%elem_of_cons; [done|]. specialize (N2 r' Hin). lia.
Qed.

Lemma reservation_text_inj a b : reservation_text a = reservation_text b -> a = b.
Proof. unfold reservation_text. intros H%app_inv_head. apply Nat2N.inj.
  rewrite <- (parse_print_nat 10 (N.of_nat a)), <- (parse_print_nat 10 (N.of_nat b)) by done. by rewrite H. Qed.

(** It is given back. *)
Lemma lease_less held l m f (n : Member -> Z) : fleet_ok (l :: held) f -> store f !! l_member l = Some m -> n m = inflight m - 1 ->
  fleet_ok held (set_member (l_member l) (fun m => with_use (n m) (unbind (reservation l) (bound m)) m) f).
Proof.
  intros Hok Hm Hn. destruct (ok_members _ _ Hok _ _ Hm) as [K1 K2 K3 K4]. destruct (ok_reserved _ _ Hok) as [N1 N2].
  change (all_leases (l :: held) f) with (l :: all_leases held f) in *.
  apply (update_one (l :: held) _ _ _ m); [done|done|done| | | |].
  - intros p q Hne H. by apply member_ok_other in H.
  - unfold chosen_on in K4. rewrite on_same in * by done. cbn [length] in K1. split; cbn [inflight bound with_use]; [lia| | |].
    + destruct (reservation l); cbn; [|done]. pose proof (subseteq_size (bound m ∖ {[reservation_text n0]}) (bound m) ltac:(set_solver)). lia.
    + intros l' r' Hl' Ho Hr'. specialize (K3 l' r' ltac:(by right) Ho Hr'). destruct (reservation l) as [r|] eqn:Hr; cbn; [|done].
      apply elem_of_difference. split; [done|]. intros E%elem_of_singleton%reservation_text_inj. subst r'.
      cbn in N1. rewrite Hr in N1. apply NoDup_cons in N1 as [N1 _]. apply N1, list_elem_of_omap. eauto.
    + intros Hs. specialize (K4 Hs). unfold chosen_on. destruct (decide (chosen l = true)); [rewrite filter_cons_True in K4 by done; cbn [length] in K4; lia|].
      by rewrite filter_cons_False in K4.
  - intros l' Hl'. right. by right.
  - cbn in *. destruct (reservation l) as [r|]; [|done]. split; [by apply NoDup_cons in N1 as [_ ?]|]. intros r' Hr'. apply N2. by right.
Qed.

(** The session that a reservation becomes. *)
Lemma lease_keeps held l m k f : fleet_ok held f -> store f !! l_member l = Some m -> bound m = ∅ ->
  fleet_ok held (set_member (l_member l) (fun m => with_use (inflight m) ({[k]} ∪ bound m) m) f).
Proof.
  intros Hok Hm Hb. destruct (ok_members _ _ Hok _ _ Hm) as [K1 K2 K3 K4]. apply (update_one held _ _ _ m); [done|done|done|done| | |].
  - split; cbn [inflight bound with_use]; [done| | |done].
    + rewrite Hb, union_empty_r_L. by rewrite size_singleton.
    + intros l' r Hl' Ho Hr. specialize (K3 l' r Hl' Ho Hr). set_solver.
  - by right.
  - apply (ok_reserved _ _ Hok).
Qed.

Lemma bound_alone held l m f r : fleet_ok (l :: held) f -> store f !! l_member l = Some m -> reservation l = Some r ->
  bound m ∖ {[reservation_text r]} = ∅.
Proof.
  intros Hok Hm Hr. destruct (ok_members _ _ Hok _ _ Hm) as [K1 K2 K3 K4].
  specialize (K3 l r ltac:(by left) eq_refl Hr).
  assert (size (bound m ∖ {[reservation_text r]}) = 0)%nat as E.
  { rewrite size_difference by set_solver. rewrite size_singleton. lia. }
  by apply size_empty_iff, leibniz_equiv in E.
Qed.

Lemma held_member held l f : fleet_ok (l :: held) f -> exists m, store f !! l_member l = Some m /\ 1 <= inflight m.
Proof.
  intros Hok. destruct (ok_leases _ _ Hok l ltac:(by left)) as [m Hm]. exists m. split; [done|].
  destruct (ok_members _ _ Hok _ _ Hm) as [K1 _ _ _]. change (all_leases (l :: held) f) with (l :: all_leases held f) in K1.
  rewrite on_same in K1 by done. cbn [length] in K1. lia.
Qed.

Lemma unreserve_ok held l f : fleet_ok (l :: held) f -> fleet_ok held (unreserve l f).
Proof. intros Hok. destruct (held_member _ _ _ Hok) as (m & Hm & _). by eapply (lease_less held l m f (fun m => inflight m - 1)). Qed.

Lemma unlease_ok held l keep f : fleet_ok (l :: held) f -> fleet_ok held (unlease scaling l keep f).
Proof.
  intros Hok. destruct (held_member _ _ _ Hok) as (m & Hm & Hi). unfold unlease.
  set (f' := set_member (l_member l) (fun m => with_use (Z.max 0 (inflight m - 1)) (unbind (reservation l) (bound m)) m) f).
  assert (fleet_ok held f') as Hok' by (apply (lease_less held l m f (fun m => Z.max 0 (inflight m - 1))); [done|done|lia]).
  destruct (reservation l) as [r|] eqn:Hr, keep as [k|]; try done. eapply fleet_ok_quiet; [apply quiet_remember|].
  apply (lease_keeps held l (with_use (Z.max 0 (inflight m - 1)) (unbind (Some r) (bound m)) m) k f'); [done| |by eapply bound_alone].
  unfold f'. cbn. by rewrite lookup_alter_eq, Hm.
Qed.

(** ** Terminating, joining, listing *)

Lemma terminate_ok held o f : fleet_ok held f -> fleet_ok held (terminate o f).
Proof.
  intros Hok. unfold terminate. destruct (store f !! o) as [m|] eqn:Em; [|done]. destruct (proven m) eqn:Ep; [|done].
  destruct Hok as [H1 H2 H3 H4 H5 H6 H7]. split; try done. cbn. intros p [->|Hp]%elem_of_cons; [eauto|auto].
Qed.

Lemma drop_ok held o f : fleet_ok held f -> fleet_ok held (drop_member scaling o f).
Proof. apply fleet_ok_quiet, quiet_drop. Qed.

Lemma replace_ok held o a f p f' : fleet_ok held f -> replace scaling o a f = (p, f') -> p = Terminating a /\ fleet_ok held f'.
Proof. intros Hok [= <- <-]. split; [done|]. by apply terminate_ok, drop_ok. Qed.

(** An object that nobody uses. *)
Lemma new_object_ok held m f : fleet_ok held f -> inflight m = 0 -> bound m = ∅ -> fleet_ok held (new_object m f).2.
Proof.
  intros [H1 H2 H3 H4 H5 H6 H7] Hi Hb. assert (store f !! objects f = None) as Hn.
  { destruct (store f !! objects f) eqn:E; [|done]. specialize (H4 (objects f) ltac:(by eexists)). lia. }
  assert (forall o, is_Some (store f !! o) -> o <> objects f) as Hne by (intros o [x Hx] ->; congruence).
  assert (forall o, is_Some (store f !! o) -> is_Some (<[objects f := m]> (store f) !! o)) as Hs.
  { intros o Ho. rewrite lookup_insert_ne by (apply not_eq_sym; auto). done. }
  split; cbn; [| | | |done| |done].
  - intros o n. destruct (decide (o = objects f)) as [->|Hd].
    + rewrite lookup_insert_eq. intros [= <-].
      assert (on (objects f) (all_leases held f) = []) as En.
      { unfold on. apply elem_of_nil_inv. intros l [E Hl]%list_elem_of_filter. apply (Hne (l_member l)); [by apply H2|done]. }
      split.
      * change (all_leases held _) with (all_leases held f). rewrite En, Hi. done.
      * rewrite Hb, size_empty. lia.
      * intros l r Hl E. destruct (Hne (l_member l)); [by apply H2|done].
      * intros _. unfold chosen_on. change (all_leases held _) with (all_leases held f). rewrite En. cbn. lia.
    + rewrite lookup_insert_ne by done. apply H1.
  - intros l Hl. apply Hs. by apply H2.
  - intros o Ho. apply Hs. by apply H3.
  - intros o Ho. destruct (decide (o = objects f)) as [->|Hd]; [lia|]. rewrite lookup_insert_ne in Ho by done. specialize (H4 o Ho). lia.
  - intros o Ho. destruct (H6 o Ho) as (n & En & Ep). exists n. split; [|done]. rewrite lookup_insert_ne; [done|]. apply not_eq_sym, Hne. by eexists.
Qed.

Lemma member_of_listing held ms f : fleet_ok held f -> (forall o, o ∈ ms -> is_Some (store f !! o)) ->
  (Z.of_nat (length ms) + growing f <= Z.max (maxVms scaling) (peak f) + Z.of_nat (refills f)) -> fleet_ok held (with_members ms f).
Proof. intros [H1 H2 H3 H4 H5 H6 H7] Hm Hs. by split. Qed.

(** ** Where a task is, and what it holds *)

Definition after_lease (a : after) : option Lease := match a with PlaceAgain l | ReleaseAndThrow l => Some l | _ => None end.

Definition lease_in (p : pc) : option Lease :=
  match p with
  | Connecting l | Pinging l | Opening l | Operating l => Some l
  | Terminating a | Filling _ a => after_lease a
  | _ => None
  end.

(** Where a task went, with what it holds there. *)
Definition good (held : list Lease) (pf : pc * fleet) : Prop := fleet_ok (option_list (lease_in pf.1) ++ held) pf.2.

Lemma leak_ok held l f : fleet_ok (l :: held) f -> fleet_ok held (with_leak l f).
Proof.
  intros [H1 H2 H3 H4 H5 H6 H7]. assert (Permutation (all_leases (l :: held) f) (all_leases held (with_leak l f))) as Hp.
  { unfold all_leases. cbn. by rewrite Permutation_middle. }
  split; [|intros l'; rewrite <- Hp; apply H2|done|done| |done|done].
  - intros o m Hm. eapply member_ok_perm; [exact Hp|by apply H1].
  - destruct H5 as [H5 H5']. split; [by rewrite <- Hp|]. intros r. rewrite <- Hp. apply H5'.
Qed.

Lemma member_at_Some f o m : store f !! o = Some m -> member_at f o = m.
Proof. unfold member_at. by intros ->. Qed.

Lemma route_to_ok held o t i known f : fleet_ok held f -> is_Some (store f !! o) -> good held (route_to scaling o t i known f).
Proof.
  intros Hok [m Hm]. unfold route_to. set (l := {| l_member := o; inner := i; reservation := None; chosen := false |}).
  assert (fleet_ok (l :: held) (set_member o (fun m => with_use (inflight m + 1) (bound m) m) f)) as H by (by apply (lease_more held l m f)).
  assert (forall f', lease_in (opened l f') = Some l) as Hl by (intros f'; unfold opened; by destruct (deployment _)).
  unfold good. cbn [fst snd]. rewrite Hl. cbn [option_list app]. destruct known; [|done]. by eapply fleet_ok_quiet; [apply quiet_remember|].
Qed.

Lemma find_elem id f o : find id f = Some o -> o ∈ members f.
Proof.
  unfold find. destruct (list_find _ _) as [[i p]|] eqn:E; [|done]. intros [= <-]. apply list_find_Some in E as (E & _). by eapply list_elem_of_lookup_2.
Qed.

Lemma route_ok held id t i known f : fleet_ok held f -> good held (route scaling id t i known f).
Proof.
  intros Hok. unfold route. destruct (find id f) as [o|] eqn:E; [|done]. apply route_to_ok; [done|]. by eapply ok_listed, find_elem.
Qed.

(** The object that is chosen is one of the fleet, and free. *)
Lemma choose_spec held now f o : fleet_ok held f -> choose scaling maxConcurrency now f = Some o ->
  exists m, store f !! o = Some m /\ isFree scaling maxConcurrency now m = true.
Proof.
  intros Hok. unfold choose. destruct (chooseMember scaling maxConcurrency now (objects_of f)) as [m|] eqn:E; [|done]. cbn.
  destruct (list_find _ _) as [[i p]|] eqn:Ef; [|done]. intros [= <-]. apply list_find_Some in Ef as (Ei & Ep & _).
  apply chooseMember_elem in E as [_ E]. exists m. split; [|done]. apply list_elem_of_lookup_2 in Ei.
  destruct (ok_listed _ _ Hok p Ei) as [m' Hm']. by rewrite (member_at_Some _ _ _ Hm') in Ep; subst.
Qed.

Lemma isFree_dedicated now m : is_dedicated scaling = true -> isFree scaling maxConcurrency now m = true -> bound m = ∅.
Proof.
  unfold is_dedicated, isFree. intros ->. destruct (_ && _); [done|]. intros E%bool_decide_eq_true. by apply leibniz_equiv, size_empty_iff.
Qed.

Lemma isFree_shared now m : is_dedicated scaling = false -> isFree scaling maxConcurrency now m = true -> inflight m < maxConcurrency.
Proof.
  unfold is_dedicated, isFree. intros ->. destruct (_ && pingIsFresh m now); [done|]. intros [H _]%andb_true_iff. by apply Z.ltb_lt.
Qed.

Lemma reserve_ok held o i m f : fleet_ok held f -> store f !! o = Some m ->
  (is_dedicated scaling = true -> bound m = ∅) -> (is_dedicated scaling = false -> inflight m < Z.max 1 maxConcurrency) ->
  fleet_ok ({| l_member := o; inner := i; reservation := (reserve scaling o f).1; chosen := true |} :: held) (reserve scaling o f).2.
Proof.
  intros Hok Hm Hd Hs. set (l := {| l_member := o; inner := i; reservation := None; chosen := true |}).
  assert (fleet_ok (l :: held) (set_member o (fun m => with_use (inflight m + 1) (bound m) m) f)) as H.
  { apply (lease_more held l m f); [done|done|done|]. intros _ E. apply Hs. unfold is_dedicated. by rewrite E. }
  unfold reserve. destruct (is_dedicated scaling) eqn:Ed; [|exact H].
  apply (lease_reserves held l (with_use (inflight m + 1) (bound m) m) _ H); [cbn; by rewrite lookup_alter_eq, Hm|done|auto].
Qed.

Lemma growing_ok held n f : fleet_ok held f ->
  (Z.of_nat (length (members f)) + n <= Z.max (maxVms scaling) (peak f) + Z.of_nat (refills f)) -> fleet_ok held (with_growing n f).
Proof. intros [H1 H2 H3 H4 H5 H6 H7] Hs. by split. Qed.

Lemma place_ok held t now f : fleet_ok held f -> good held (place scaling maxConcurrency t now f).
Proof.
  intros Hok. unfold place, planPlacement. destruct (chooseMember scaling maxConcurrency now (objects_of f)) as [m|] eqn:Ec.
  - destruct (choose scaling maxConcurrency now f) as [o|] eqn:E; [|done]. destruct (choose_spec _ _ _ _ Hok E) as (m' & Hm & Hf).
    assert (fleet_ok ({| l_member := o; inner := session t; reservation := (reserve scaling o f).1; chosen := true |} :: held) (reserve scaling o f).2) as H.
    { apply (reserve_ok held o _ m'); [done|done| |]; intros Hd; [by eapply isFree_dedicated|]. pose proof (isFree_shared _ _ Hd Hf). lia. }
    by destruct (reserve scaling o f) as [r f'].
  - unfold objects_of. rewrite length_fmap. destruct (Z.ltb_spec (Z.of_nat (length (members f)) + growing f) (maxVms scaling)).
    + apply growing_ok; [done|]. lia.
    + by destruct (deadline t <=? now).
Qed.

Lemma place_start_ok held t now f : fleet_ok held f -> good held (place_start scaling maxConcurrency has_index t now f).
Proof.
  intros Hok. unfold place_start. destruct (session t) as [s|]; [|by apply place_ok]. destruct (is_dedicated scaling); [|by apply place_ok].
  destruct (sessions_of f !! s); [by apply route_ok|]. destruct has_index; [done|by apply place_ok].
Qed.

Lemma lease_start_ok held t now f : fleet_ok held f -> good held (lease_start scaling maxConcurrency has_index t now f).
Proof. intros Hok. unfold lease_start. destruct (session t ≫= decodeHandle); [by apply route_ok|by apply place_start_ok]. Qed.

(** ** Replacing: lemmas *)

Lemma trim_turn_ok held rest f : fleet_ok held f -> good held (trim_turn scaling has_project rest f).
Proof.
  intros Hok. destruct rest as [|o rest]; cbn [trim_turn]; [|by apply terminate_ok, drop_ok].
  destruct has_project; [|done]. by destruct (replacementsNeeded _ _).
Qed.

Lemma replace_next_ok held lost f : fleet_ok held f -> good held (replace_next scaling has_project lost f).
Proof. intros Hok. destruct lost as [|o lost]; cbn [replace_next]; [by apply trim_turn_ok|by apply terminate_ok, drop_ok]. Qed.

Lemma resume_after_ok held a t now f : fleet_ok (option_list (after_lease a) ++ held) f ->
  good held (resume_after scaling maxConcurrency has_project has_index a t now f).
Proof.
  intros Hok. destruct a as [| |l|l|lost|]; cbn [resume_after after_lease option_list app] in *; try done.
  - by apply place_start_ok, unreserve_ok.
  - by apply unlease_ok.
  - by apply replace_next_ok.
Qed.

Lemma fill_ok held a t now f : fleet_ok (option_list (after_lease a) ++ held) f ->
  good held (fill scaling maxConcurrency has_project has_index a t now f).
Proof.
  intros Hok. unfold fill. pose proof (resume_after_ok held a t now f Hok) as Hr. destruct has_project; [|done]. by destruct (replacementsNeeded _ _).
Qed.

Lemma fill_failed_ok held a f : fleet_ok (option_list (after_lease a) ++ held) f -> good held (fill_failed scaling a f).
Proof. intros Hok. destruct a; cbn [fill_failed after_lease option_list app] in *; try done; [by apply leak_ok|by apply unlease_ok]. Qed.

Lemma replaced_ok held o a f : fleet_ok (option_list (after_lease a) ++ held) f -> good held (replace scaling o a f).
Proof. intros Hok. by apply terminate_ok, drop_ok. Qed.

(** ** Probes and operations: lemmas *)

Lemma opened_lease l f : lease_in (opened l f) = Some l.
Proof. unfold opened. by destruct (deployment _). Qed.

Lemma probe_true_ok held l t f : fleet_ok (l :: held) f -> good held (probe_true scaling l t f).
Proof. intros Hok. unfold good, probe_true. cbn [fst snd]. rewrite opened_lease. by eapply fleet_ok_quiet; [apply quiet_remember|]. Qed.

Lemma probe_false_ok held l t now f : fleet_ok (l :: held) f -> good held (probe_false scaling maxConcurrency has_index l t now f).
Proof. intros Hok. by apply place_start_ok, unreserve_ok. Qed.

Lemma probe_threw_ok held l f : fleet_ok (l :: held) f -> good held (probe_threw l f).
Proof. apply leak_ok. Qed.

Lemma open_client_ok held o cap f : fleet_ok held f -> fleet_ok held (open_client o cap f).
Proof. apply fleet_ok_quiet, quiet_open. Qed.

Lemma ping_ok held o s now f : fleet_ok held f -> fleet_ok held (set_member o (recordPing s now) f).
Proof. apply fleet_ok_quiet. by apply quiet_alter. Qed.

Lemma probe_connected_ok held l c t now f : fleet_ok (l :: held) f ->
  good held (probe_connected scaling maxConcurrency has_index l c t now f).
Proof.
  intros Hok. destruct c as [cap| | |]; cbn [probe_connected].
  - apply (open_client_ok _ (l_member l) cap) in Hok. destruct (pingIsFresh _ _); [|done].
    destruct (bool_decide _); [by apply probe_false_ok|by apply probe_true_ok].
  - by apply probe_false_ok, drop_ok.
  - by apply replaced_ok.
  - by apply probe_threw_ok.
Qed.

Lemma probe_pinged_ok held l s t now f : fleet_ok (l :: held) f -> good held (probe_pinged scaling maxConcurrency has_index l s t now f).
Proof.
  intros Hok. destruct s as [s|]; cbn [probe_pinged]; [|by apply probe_threw_ok].
  apply (ping_ok _ (l_member l) s now) in Hok. destruct (isLost _); [by apply replaced_ok|].
  destruct (bool_decide _); [by apply probe_true_ok|by apply probe_false_ok].
Qed.

Lemma execute_failed_ok held l o t now f : fleet_ok (l :: held) f ->
  good held (execute_failed scaling maxConcurrency has_index l o t now f).
Proof.
  intros Hok. pose proof (unlease_ok held l None f Hok) as Hu. destruct o; cbn [execute_failed]; [done| | | |done].
  - by apply replaced_ok.
  - assert (fleet_ok held (set_member (l_member l) (recordBusy now) (unlease scaling l None f))) as Hb
      by (eapply fleet_ok_quiet; [by apply quiet_alter|done]).
    destruct (deadline t <=? now); [done|]. destruct (bool_decide _); [done|by apply lease_start_ok].
  - by destruct (deployment _).
Qed.

Lemma execute_ended_ok held l o t now f : fleet_ok (l :: held) f ->
  good held (execute_ended scaling maxConcurrency has_index l o t now f).
Proof. intros Hok. destruct o; cbn [execute_ended]; try by apply execute_failed_ok. by apply unlease_ok. Qed.

Lemma open_ended_ok held l c t now f : fleet_ok (l :: held) f ->
  good held (open_ended scaling maxConcurrency has_index l c t now f).
Proof.
  intros Hok. destruct c as [cap| | |b]; cbn [open_ended].
  - by apply open_client_ok.
  - by apply execute_failed_ok.
  - by apply replaced_ok.
  - by apply execute_failed_ok.
Qed.

(** ** Machines that join: lemmas *)

Lemma new_object_listed m f o : is_Some (store f !! o) -> is_Some (store (new_object m f).2 !! o).
Proof.
  cbn. destruct (decide (o = objects f)) as [->|Hd]; [by rewrite lookup_insert_eq; eexists|]. by rewrite lookup_insert_ne.
Qed.

Lemma list_members_ok held known items f : fleet_ok held f -> (forall k o, (k, o) ∈ known -> is_Some (store f !! o)) ->
  fleet_ok held (list_members lifetime known items f).2 /\
  (forall o, o ∈ (list_members lifetime known items f).1 -> is_Some (store (list_members lifetime known items f).2 !! o)) /\
  (forall o, is_Some (store f !! o) -> is_Some (store (list_members lifetime known items f).2 !! o)).
Proof.
  revert f. induction items as [|i items IH]; intros f Hok Hk; cbn [list_members].
  { split_and!; [done|by intros ? ?%not_elem_of_nil|done]. }
  set (entry := match list_find (fun k => k.1 = l_sandboxId i) (reverse known) with Some (_, (_, o)) => _ | None => _ end).
  assert (fleet_ok held entry.2 /\ is_Some (store entry.2 !! entry.1) /\ forall o, is_Some (store f !! o) -> is_Some (store entry.2 !! o)) as (H1 & H2 & H3).
  { subst entry. destruct (list_find _ _) as [[j [k o]]|] eqn:E.
    - apply list_find_Some in E as (E & _). apply list_elem_of_lookup_2 in E. rewrite elem_of_reverse in E. specialize (Hk k o E).
      cbn [fst snd]. split_and!.
      + eapply fleet_ok_quiet; [|exact Hok]. apply quiet_alter. intros m. split_and!; [done|done|]. cbn. by intros ->.
      + cbn. by rewrite lookup_alter_is_Some.
      + intros p. cbn. by rewrite lookup_alter_is_Some.
    - split_and!; [by apply new_object_ok| |apply new_object_listed]. cbn. rewrite lookup_insert_eq. by eexists. }
  destruct entry as [o f1]. cbn [fst snd] in *. specialize (IH f1 H1 (fun k o Hko => H3 o (Hk k o Hko))).
  destruct (list_members lifetime known items f1) as [os f2]. cbn [fst snd] in *. destruct IH as (I1 & I2 & I3).
  split_and!; [done| |auto]. intros p [->|Hp]%elem_of_cons; auto.
Qed.

Lemma refresh_ok held parked listing f : fleet_ok held f -> fleet_ok held (refresh scaling lifetime parked listing f).
Proof.
  intros Hok. unfold refresh. set (items := filter _ _). set (known := (fun o => (sandboxId (member_at f o), o)) <$> members f).
  destruct (list_members_ok held known items f Hok) as (H1 & H2 & H3).
  { intros k o Hk. apply list_elem_of_fmap in Hk as (p & [= -> ->] & Hp). by apply (ok_listed _ _ Hok). }
  destruct (list_members lifetime known items f) as [os f1]. cbn [fst snd] in *.
  eapply fleet_ok_quiet; [apply quiet_mark_extras|]. destruct H1 as [K1 K2 K3 K4 K5 K6 K7]. split; try done. cbn. lia.
Qed.

(** A machine that joins the list. *)
Lemma push_ok held o f : fleet_ok held f -> is_Some (store f !! o) ->
  (Z.of_nat (length (members f)) + 1 + growing f <= Z.max (maxVms scaling) (peak f) + Z.of_nat (refills f)) ->
  fleet_ok held (mark_extras scaling (with_members (members f ++ [o]) f)).
Proof.
  intros Hok Ho Hs. eapply fleet_ok_quiet; [apply quiet_mark_extras|]. apply member_of_listing; [done| |].
  - intros p [Hp| ->%list_elem_of_singleton]%elem_of_app; [by apply (ok_listed _ _ Hok)|done].
  - rewrite length_app. cbn. lia.
Qed.

Lemma joined_ok held machine cap f : fleet_ok held f ->
  (Z.of_nat (length (members f)) + 1 + growing f <= Z.max (maxVms scaling) (peak f) + Z.of_nat (refills f)) ->
  fleet_ok held (joined scaling (newMember machine true false cap) f).
Proof.
  intros Hok Hs. unfold joined. cbn [new_object]. apply (push_ok held (objects f) (new_object _ f).2); [by apply new_object_ok| |done].
  cbn. rewrite lookup_insert_eq. by eexists.
Qed.

Lemma reserve_frame o f : members (reserve scaling o f).2 = members f /\ growing (reserve scaling o f).2 = growing f /\
  refills (reserve scaling o f).2 = refills f /\ peak (reserve scaling o f).2 = peak f /\
  (is_Some (store f !! o) -> is_Some (store (reserve scaling o f).2 !! o)).
Proof.
  unfold reserve. destruct (is_dedicated scaling); (split_and!; [done|done|done|done|]); intros [m Hm]; cbn; rewrite ?lookup_alter_eq, Hm; by eexists.
Qed.

Lemma grown_ok held machine t f : fleet_ok held f ->
  (Z.of_nat (length (members f)) + 1 + growing f <= Z.max (maxVms scaling) (peak f) + Z.of_nat (refills f)) ->
  good held (grown scaling machine t f).
Proof.
  intros Hok Hs. unfold grown. set (m := newMember machine.1 true true machine.2). pose proof (new_object_ok held m f Hok eq_refl eq_refl) as Hn.
  assert (store (new_object m f).2 !! objects f = Some m) as Hm by (cbn; by rewrite lookup_insert_eq).
  assert (new_object m f = (objects f, (new_object m f).2)) as -> by done. cbv iota beta. set (f1 := (new_object m f).2) in *.
  pose proof (reserve_ok held (objects f) (session t) m f1 Hn Hm (fun _ => eq_refl) ltac:(cbn; lia)) as Hr.
  destruct (reserve_frame (objects f) f1) as (E1 & E2 & E3 & E4 & E5). destruct (reserve scaling (objects f) f1) as [r f2]. cbn [fst snd] in *.
  apply (fleet_ok_quiet _ (mark_extras scaling (with_members (members f2 ++ [objects f]) f2))); [apply quiet_remember|].
  apply push_ok; [exact Hr|apply E5; rewrite Hm; by eexists|]. rewrite E1, E2, E3, E4. exact Hs.
Qed.

(** ** Every step *)

Lemma resume_ok held t a now f pf : fleet_ok (option_list (lease_in (at_ t)) ++ held) f ->
  resume scaling maxConcurrency lifetime has_project has_index t a now f = Some pf -> good held pf.
Proof.
  intros Hok. unfold resume.
  destruct (at_ t) as [|id i known|l| | | |l|l| |o|a'|n a'| |rest|]; cbn [lease_in option_list app] in Hok; destruct a as [r|r|c|s|r| | |o']; try done.
  - destruct r as [[id|]|]; intros [= <-]; [by apply route_ok|by apply place_ok|done].
  - destruct r as [[parked listing]|]; intros [= <-]; [|done]. apply (refresh_ok _ parked listing) in Hok.
    destruct (find id _) as [o|] eqn:E; [|done]. apply route_to_ok; [done|]. by eapply ok_listed, find_elem.
  - intros [= <-]. by apply probe_connected_ok.
  - intros [= <-]. by apply probe_pinged_ok.
  - pose proof (ok_size _ _ Hok) as Hs. destruct r as [machine|]; intros [= <-].
    + apply grown_ok; [apply growing_ok; [done|]|]; cbn; lia.
    + apply growing_ok; [done|]. lia.
  - intros [= <-]. by apply place_start_ok.
  - intros [= <-]. by apply open_ended_ok.
  - intros [= <-]. by apply execute_ended_ok.
  - intros [= <-]. by apply lease_start_ok.
  - destruct s as [s|]; intros [= <-]; [|done]. apply (ping_ok _ o s now) in Hok. destruct (isLost _); [by apply replaced_ok|done].
  - intros [= <-]. by apply fill_ok.
  - destruct r as [machine|]; intros [= <-]; [|by apply fill_failed_ok].
    assert (fleet_ok (option_list (after_lease a') ++ held)
      (joined scaling (newMember machine.1 true false machine.2) (with_counts (S (refills f)) (peak f) f))) as Hj.
    { pose proof (ok_size _ _ Hok) as Hs. destruct Hok as [H1 H2 H3 H4 H5 H6 H7].
      apply joined_ok; [split; try done|]; cbn; lia. }
    destruct (pred n); [by apply resume_after_ok|done].
  - destruct r as [[parked listing]|]; intros [= <-]; [|done]. by apply replace_next_ok, refresh_ok.
  - intros [= <-]. by apply trim_turn_ok.
Qed.

(** ** The machines being created

    Where a task goes and what that does to the count of machines being created: one more
    exactly when it goes to create one, which a placement does only while there is room. *)

Definition is_growing (p : pc) : bool := match p with Growing => true | _ => false end.

Definition tallied (n : Z) (pf : pc * fleet) : Prop :=
  growing pf.2 = n + (if is_growing pf.1 then 1 else 0) /\
  (is_growing pf.1 = true -> Z.of_nat (length (members pf.2)) + growing pf.2 <= maxVms scaling).

Lemma tallied_still n p f : is_growing p = false -> growing f = n -> tallied n (p, f).
Proof. intros Hp Hf. unfold tallied. cbn. rewrite Hp. split; [lia|done]. Qed.

Lemma growing_remember s o f : growing (remember scaling s o f) = growing f.
Proof. apply (quiet_growing _ _ (quiet_remember s o f)). Qed.
Lemma growing_set_member o g f : growing (set_member o g f) = growing f.
Proof. done. Qed.
Lemma growing_drop o f : growing (drop_member scaling o f) = growing f.
Proof. done. Qed.
Lemma growing_open o cap f : growing (open_client o cap f) = growing f.
Proof. apply (quiet_growing _ _ (quiet_open o cap f)). Qed.
Lemma growing_terminate o f : growing (terminate o f) = growing f.
Proof. unfold terminate. by repeat case_match. Qed.
Lemma growing_unlease l keep f : growing (unlease scaling l keep f) = growing f.
Proof. unfold unlease. repeat case_match; rewrite ?growing_remember; done. Qed.
Lemma growing_reserve o f : growing (reserve scaling o f).2 = growing f.
Proof. apply reserve_frame. Qed.

Lemma growing_list_members known items f : growing (list_members lifetime known items f).2 = growing f.
Proof.
  revert f. induction items as [|i items IH]; intros f; cbn [list_members]; [done|].
  destruct (list_find _ _) as [[j [k o]]|]; cbn [new_object];
    match goal with |- context [list_members _ _ _ ?g] => specialize (IH g); destruct (list_members _ _ _ g) end; cbn in *; by rewrite IH.
Qed.

Lemma growing_refresh parked listing f : growing (refresh scaling lifetime parked listing f) = growing f.
Proof.
  unfold refresh. match goal with |- context [list_members lifetime ?k ?i f] =>
    pose proof (growing_list_members k i f) as H; destruct (list_members lifetime k i f) end. exact H.
Qed.

Create Rewrite HintDb tally.
#[local] Hint Rewrite growing_set_member growing_remember growing_drop growing_open growing_terminate growing_unlease growing_reserve growing_refresh : tally.

(** A step that goes nowhere near a creation. *)
Ltac still := apply tallied_still; [try done|autorewrite with tally; done].

Lemma opened_still l f : is_growing (opened l f) = false.
Proof. unfold opened. by destruct (deployment _). Qed.

Lemma route_to_tally o t i known f : tallied (growing f) (route_to scaling o t i known f).
Proof. unfold route_to. apply tallied_still; [apply opened_still|]. destruct known; autorewrite with tally; done. Qed.

Lemma route_tally id t i known f : tallied (growing f) (route scaling id t i known f).
Proof. unfold route. destruct (find id f); [apply route_to_tally|still]. Qed.

Lemma place_tally t now f : tallied (growing f) (place scaling maxConcurrency t now f).
Proof.
  unfold place, planPlacement. destruct (chooseMember _ _ _ _).
  - destruct (choose _ _ _ _) as [o|]; [|still]. pose proof (growing_reserve o f) as H. destruct (reserve scaling o f). still.
  - unfold objects_of. rewrite length_fmap. destruct (Z.ltb_spec (Z.of_nat (length (members f)) + growing f) (maxVms scaling)).
    + split; [done|]. cbn. lia.
    + apply tallied_still; [by destruct (deadline t <=? now)|done].
Qed.

Lemma place_start_tally t now f : tallied (growing f) (place_start scaling maxConcurrency has_index t now f).
Proof.
  unfold place_start. destruct (session t) as [s|]; [|apply place_tally]. destruct (is_dedicated scaling); [|apply place_tally].
  destruct (sessions_of f !! s); [apply route_tally|]. destruct has_index; [still|apply place_tally].
Qed.

Lemma lease_start_tally t now f : tallied (growing f) (lease_start scaling maxConcurrency has_index t now f).
Proof. unfold lease_start. destruct (session t ≫= decodeHandle); [apply route_tally|apply place_start_tally]. Qed.

Lemma trim_turn_tally rest f : tallied (growing f) (trim_turn scaling has_project rest f).
Proof. destruct rest; cbn [trim_turn]; [|still]. destruct has_project; [|still]. destruct (replacementsNeeded _ _); still. Qed.

Lemma replace_next_tally lost f : tallied (growing f) (replace_next scaling has_project lost f).
Proof. destruct lost; cbn [replace_next]; [apply trim_turn_tally|still]. Qed.

Lemma resume_after_tally a t now f : tallied (growing f) (resume_after scaling maxConcurrency has_project has_index a t now f).
Proof.
  destruct a; cbn [resume_after]; try still; [|apply replace_next_tally].
  change (growing f) with (growing (unreserve l f)). apply place_start_tally.
Qed.

Lemma fill_tally a t now f : tallied (growing f) (fill scaling maxConcurrency has_project has_index a t now f).
Proof.
  unfold fill. pose proof (resume_after_tally a t now f) as Hr. destruct has_project; [|done]. destruct (replacementsNeeded _ _); [done|still].
Qed.

Lemma probe_false_tally l t now f : tallied (growing f) (probe_false scaling maxConcurrency has_index l t now f).
Proof. change (growing f) with (growing (unreserve l f)). apply place_start_tally. Qed.

Lemma probe_true_tally l t f : tallied (growing f) (probe_true scaling l t f).
Proof. apply tallied_still; [apply opened_still|]. autorewrite with tally. done. Qed.

Lemma probe_connected_tally l c t now f : tallied (growing f) (probe_connected scaling maxConcurrency has_index l c t now f).
Proof.
  destruct c as [cap| | |]; cbn [probe_connected]; [|apply (probe_false_tally _ _ _ (drop_member scaling _ f))|still|still].
  rewrite <- (growing_open (l_member l) cap f).
  destruct (pingIsFresh _ _); [|still]. destruct (bool_decide _); [apply probe_false_tally|apply probe_true_tally].
Qed.

Lemma probe_pinged_tally l s t now f : tallied (growing f) (probe_pinged scaling maxConcurrency has_index l s t now f).
Proof.
  destruct s as [s|]; cbn [probe_pinged]; [|still]. change (growing f) with (growing (set_member (l_member l) (recordPing s now) f)).
  destruct (isLost _); [still|]. destruct (bool_decide _); [apply probe_true_tally|apply probe_false_tally].
Qed.

Lemma execute_failed_tally l o t now f : tallied (growing f) (execute_failed scaling maxConcurrency has_index l o t now f).
Proof.
  destruct o; cbn [execute_failed]; try still.
  - destruct (deadline t <=? now); [still|]. destruct (bool_decide _); [still|].
    rewrite <- (growing_unlease l None f). apply (lease_start_tally t now (set_member _ _ _)).
  - by destruct (deployment _).
Qed.

Lemma execute_ended_tally l o t now f : tallied (growing f) (execute_ended scaling maxConcurrency has_index l o t now f).
Proof. destruct o; cbn [execute_ended]; try apply execute_failed_tally. still. Qed.

Lemma open_ended_tally l c t now f : tallied (growing f) (open_ended scaling maxConcurrency has_index l c t now f).
Proof. destruct c; cbn [open_ended]; try apply execute_failed_tally; still. Qed.

Lemma grown_tally machine t f : tallied (growing f) (grown scaling machine t f).
Proof.
  unfold grown. cbn [new_object]. match goal with |- context [reserve scaling ?o ?g] =>
    pose proof (growing_reserve o g) as H; destruct (reserve scaling o g) end. cbn in H. still.
Qed.

(** A task that was creating a machine is no longer one; the others leave the count to
    where they go. *)
Lemma resume_tally t a now f pf :
  resume scaling maxConcurrency lifetime has_project has_index t a now f = Some pf ->
  tallied (growing f - (if is_growing (at_ t) then 1 else 0)) pf.
Proof.
  unfold resume. destruct (at_ t) as [|id i known|l| | | |l|l| |o|a'|n a'| |rest|]; cbn [is_growing]; rewrite ?Z.sub_0_r;
    destruct a as [r|r|c|s|r| | |o']; try done.
  - destruct r as [[id|]|]; intros [= <-]; [apply route_tally|apply place_tally|still].
  - destruct r as [[parked listing]|]; intros [= <-]; [|still]. destruct (find id _); [|still].
    rewrite <- (growing_refresh parked listing f). apply route_to_tally.
  - intros [= <-]. apply probe_connected_tally.
  - intros [= <-]. apply probe_pinged_tally.
  - destruct r as [machine|]; intros [= <-]; [apply (grown_tally machine t (with_growing _ f))|still].
  - intros [= <-]. apply place_start_tally.
  - intros [= <-]. apply open_ended_tally.
  - intros [= <-]. apply execute_ended_tally.
  - intros [= <-]. apply lease_start_tally.
  - destruct s as [s|]; intros [= <-]; [|still]. destruct (isLost _); still.
  - intros [= <-]. apply fill_tally.
  - destruct r as [machine|]; intros [= <-]; [|destruct a'; still].
    destruct (pred n); [|still]. apply (resume_after_tally a' t now (joined _ _ (with_counts _ _ f))).
  - destruct r as [[parked listing]|]; intros [= <-]; [|still].
    rewrite <- (growing_refresh parked listing f). apply replace_next_tally.
  - intros [= <-]. apply trim_turn_tally.
Qed.

(** The tasks that are creating a machine. *)
Definition creating (ts : list task) : Z := Z.of_nat (length (filter (fun t => is_growing (at_ t) = true) ts)).

Lemma creating_app a b : creating (a ++ b) = creating a + creating b.
Proof. unfold creating. rewrite filter_app, length_app. lia. Qed.

Lemma creating_one t : creating [t] = if is_growing (at_ t) then 1 else 0.
Proof. unfold creating. cbn. destruct (decide _) as [E|E]; destruct (is_growing (at_ t)); done. Qed.

Lemma creating_insert ts i t u : ts !! i = Some t ->
  creating (<[i := u]> ts) = creating ts - (if is_growing (at_ t) then 1 else 0) + (if is_growing (at_ u) then 1 else 0).
Proof.
  intros Hi. rewrite insert_take_drop by (by eapply lookup_lt_Some).
  rewrite <- (take_drop_middle ts i t Hi) at 3.
  assert (forall x l, creating (x :: l) = creating [x] + creating l) as Hc by (intros x l; apply (creating_app [x] l)).
  rewrite !creating_app, (Hc u), (Hc t), !creating_one. lia.
Qed.

(** One step: the count stays exact, and it only rises where there is room. *)
Lemma step_tally e f f' : growing f = creating (tasks f) ->
  Fleet.step scaling maxConcurrency queueTimeoutMs lifetime has_project has_index e f = Some f' ->
  growing f' = creating (tasks f') /\
  (creating (tasks f) < creating (tasks f') -> Z.of_nat (length (members f')) + creating (tasks f') <= maxVms scaling).
Proof.
  intros Hg. destruct e as [s now| |i a now]; cbn [Fleet.step].
  - set (t := {| session := s; deadline := now + queueTimeoutMs; at_ := Queued |}). pose proof (lease_start_tally t now f) as [H1 H2].
    destruct (lease_start _ _ _ t now f) as [p f1]. intros [= <-]. cbn in *. rewrite creating_app, creating_one. cbn.
    destruct (is_growing p); split; lia.
  - intros [= <-]. cbn. rewrite creating_app, creating_one. cbn. split; lia.
  - destruct (tasks f !! i) as [t|] eqn:Ei; cbn; [|done]. destruct (resume _ _ _ _ _ t a now f) as [pf|] eqn:Er; cbn; [|done].
    intros [= <-]. destruct (resume_tally _ _ _ _ _ Er) as [H1 H2]. cbn.
    rewrite (creating_insert _ _ _ _ Ei). cbn. destruct (is_growing (at_ t)), (is_growing pf.1); split; lia.
Qed.

Lemma steps_tally es f f' : growing f = creating (tasks f) ->
  Fleet.steps scaling maxConcurrency queueTimeoutMs lifetime has_project has_index es f = Some f' -> growing f' = creating (tasks f').
Proof.
  revert f. induction es as [|e es IH]; intros f Hg; cbn [Fleet.steps]; [by intros [= <-]|].
  destruct (Fleet.step _ _ _ _ _ _ e f) as [g|] eqn:Eg; cbn; [|done]. apply IH. by eapply step_tally.
Qed.

(** What the tasks hold. *)
Definition held_by (ts : list task) : list Lease := omap (fun t => lease_in (at_ t)) ts.

Definition reachable_ok (f : fleet) : Prop := fleet_ok (held_by (tasks f)) f.

Lemma held_by_app a b : held_by (a ++ b) = held_by a ++ held_by b.
Proof. apply omap_app. Qed.

Lemma held_by_split ts i t : ts !! i = Some t -> exists others,
  Permutation (held_by ts) (option_list (lease_in (at_ t)) ++ others) /\
  forall t', Permutation (held_by (<[i := t']> ts)) (option_list (lease_in (at_ t')) ++ others).
Proof.
  intros Hi. assert (forall x, held_by [x] = option_list (lease_in (at_ x))) as H1 by (intros x; cbn; by destruct (lease_in (at_ x))).
  exists (held_by (take i ts) ++ held_by (drop (S i) ts)).
  assert (forall x, Permutation (held_by (take i ts ++ x :: drop (S i) ts)) (option_list (lease_in (at_ x)) ++ held_by (take i ts) ++ held_by (drop (S i) ts))) as Hp.
  { intros x. change (x :: drop (S i) ts) with ([x] ++ drop (S i) ts). rewrite !held_by_app, H1. by rewrite Permutation_app_swap_app. }
  split.
  - rewrite <- (take_drop_middle ts i t Hi) at 1. apply Hp.
  - intros t'. rewrite insert_take_drop by (by eapply lookup_lt_Some). apply Hp.
Qed.

Lemma fleet_ok_tasks held ts f : fleet_ok held f -> fleet_ok held (with_tasks ts f).
Proof. intros [H1 H2 H3 H4 H5 H6 H7]. by split. Qed.

Lemma task_joins_ok t p f pf : reachable_ok f -> good (held_by (tasks f)) pf -> p = {| session := session t; deadline := deadline t; at_ := pf.1 |} ->
  reachable_ok (with_tasks (tasks f ++ [p]) pf.2).
Proof.
  intros Hok Hg ->. apply fleet_ok_tasks. eapply fleet_ok_perm; [|exact Hg]. cbn [tasks with_tasks]. rewrite held_by_app, Permutation_app_comm.
  cbn. by destruct (lease_in pf.1).
Qed.

Lemma step_keeps e f f' : reachable_ok f ->
  Fleet.step scaling maxConcurrency queueTimeoutMs lifetime has_project has_index e f = Some f' -> reachable_ok f'.
Proof.
  intros Hok. destruct e as [s now| |i a now]; cbn [Fleet.step].
  - set (t := {| session := s; deadline := now + queueTimeoutMs; at_ := Queued |}). pose proof (lease_start_ok _ t now f Hok) as Hg.
    destruct (lease_start _ _ _ t now f) as [p f1]. intros [= <-]. by apply (task_joins_ok t _ f (p, f1)).
  - intros [= <-]. by apply (task_joins_ok {| session := None; deadline := 0; at_ := Relisting |} _ f (Relisting, f)).
  - destruct (tasks f !! i) as [t|] eqn:Ei; cbn; [|done]. destruct (resume _ _ _ _ _ t a now f) as [pf|] eqn:Er; cbn; [|done].
    intros [= <-]. destruct (held_by_split _ _ _ Ei) as (others & Hp & Hp'). apply fleet_ok_tasks. eapply fleet_ok_perm.
    + cbn [tasks with_tasks]. symmetry. apply Hp'.
    + cbn [at_]. eapply resume_ok; [|exact Er]. eapply fleet_ok_perm; [exact Hp|exact Hok].
Qed.

Lemma steps_keep es f f' : reachable_ok f ->
  Fleet.steps scaling maxConcurrency queueTimeoutMs lifetime has_project has_index es f = Some f' -> reachable_ok f'.
Proof.
  revert f. induction es as [|e es IH]; intros f Hok; cbn [Fleet.steps]; [by intros [= <-]|].
  destruct (Fleet.step _ _ _ _ _ _ e f) as [g|] eqn:Eg; cbn; [|done]. apply IH. by eapply step_keeps.
Qed.

Lemma started_frame machines f :
  let g := foldl (fun f m => joined scaling (newMember m.1 true false m.2) f) f machines in
  fleet_ok [] f -> Z.of_nat (length (members f)) + growing f + Z.of_nat (length machines) <= maxVms scaling -> tasks f = [] ->
  fleet_ok [] g /\ tasks g = [].
Proof.
  cbv zeta. revert f. induction machines as [|[id cap] machines IH]; intros f Hok Hs Ht; cbn [foldl fst snd]; [done|]. cbn [length] in Hs. apply IH.
  - apply joined_ok; [done|]. lia.
  - unfold joined. cbn. rewrite length_app. cbn. lia.
  - done.
Qed.

Lemma started_ok machines : Z.of_nat (length machines) <= maxVms scaling -> reachable_ok (started scaling machines).
Proof.
  intros Hs. destruct (started_frame machines no_fleet) as [H1 H2]; [|done|done|].
  - split; cbn; try done; [by intros ? ?%not_elem_of_nil|by intros ? ?%not_elem_of_nil| | |by intros ? ?%not_elem_of_nil|lia].
    + intros o [x Hx]. done.
    + split; [constructor|]. by intros ? ?%not_elem_of_nil.
  - unfold reachable_ok. unfold started in *. by rewrite H2.
Qed.

Lemma started_idle machines : growing (started scaling machines) = creating (tasks (started scaling machines)).
Proof.
  assert (forall f, growing f = 0 -> tasks f = [] ->
    let g := foldl (fun f m => joined scaling (newMember m.1 true false m.2) f) f machines in growing g = 0 /\ tasks g = []) as H.
  { induction machines as [|m machines IH]; intros f Hg Ht; [done|]. by apply IH. }
  destruct (H no_fleet eq_refl eq_refl) as [H1 H2]. unfold started. by rewrite H1, H2.
Qed.

(** ** The properties *)

Lemma nodup_omap_index {A B} (g : A -> option B) ls i j x y b :
  NoDup (omap g ls) -> ls !! i = Some x -> ls !! j = Some y -> g x = Some b -> g y = Some b -> i = j.
Proof.
  revert i j. induction ls as [|z ls IH]; intros i j Hn Hi Hj Hx Hy; [done|].
  assert (forall k u, ls !! k = Some u -> g u = Some b -> g z = Some b -> False) as Hz.
  { intros k u Hk Hu Ez. cbn in Hn. rewrite Ez in Hn. apply NoDup_cons in Hn as [Hn _]. apply Hn, list_elem_of_omap.
    exists u. split; [by eapply list_elem_of_lookup_2|done]. }
  assert (NoDup (omap g ls)) as Hn' by (cbn in Hn; destruct (g z); [by apply NoDup_cons in Hn as [_ ?]|done]).
  destruct i as [|i], j as [|j]; cbn in *; simplify_eq; [done|by destruct (Hz j y)|by destruct (Hz i x)|].
  f_equal. by apply (IH i j).
Qed.

(** The lease of a task. *)
Definition task_lease (t : task) : option Lease := lease_in (at_ t).
Definition task_reservation (t : task) : option nat := task_lease t ≫= reservation.

Lemma held_reservations ts : omap reservation (held_by ts) = omap task_reservation ts.
Proof.
  induction ts as [|t ts IH]; [done|]. change (t :: ts) with ([t] ++ ts). rewrite held_by_app, !omap_app, IH. f_equal.
  unfold task_reservation, task_lease. cbn. destruct (lease_in (at_ t)) as [l|]; cbn; [|done]. by destruct (reservation l).
Qed.

Lemma held_elem ts i t l : ts !! i = Some t -> task_lease t = Some l -> l ∈ held_by ts.
Proof. intros Hi Hl. apply list_elem_of_omap. exists t. split; [by eapply list_elem_of_lookup_2|done]. Qed.

End Safety.

(** ** Runs of small fleets *)

Definition small_scaling (minimum maximum : Z) (mode : SessionMode) : ScalingOptions := {|
  minVms := minimum; maxVms := maximum; warmVms := 0; sessions := mode; scaleInAfterMs := 900000 |}.

Definition run (s : ScalingOptions) (es : list event) (machines : list string) : option fleet :=
  Fleet.steps s 1 600000 None true false es (started s ((fun m => (txt m, None)) <$> machines)).

Definition healthy (i : nat) (now : Z) : list event := [Answer i (AConnected (COpened None)) now; Answer i (APinged (Some Healthy)) now].

(** Two sessions of a dedicated fleet: the second grows it. *)
Definition two_sessions : list event :=
  [Invoke None 0] ++ healthy 0 1 ++ [Invoke None 2; Answer 1 (ACreated (Some (txt "m2", None))) 3; Answer 0 (AOperated (OOk (Some (txt "s")))) 4].
Definition dedicated_pair : ScalingOptions := small_scaling 1 2 Dedicated.
Definition after_two : fleet := default no_fleet (run dedicated_pair two_sessions ["m1"%string]).


(** A probe that fails leaves its reservation: the only machine of the fleet, which is
    free, counts as full for ever, and the next invocation finds no capacity. *)
Definition failed_probe : list event :=
  [Invoke None 0; Answer 0 (AConnected (COpened None)) 1; Answer 0 (APinged None) 2; Invoke None 3; Answer 1 AWoke 700000].

Example probe_leaks_capacity :
  match run (small_scaling 1 1 Shared) failed_probe ["m1"%string] with
  | Some f => (at_ <$> tasks f) = [Finished Failed; Finished NoCapacity] /\ (inflight <$> objects_of f) = [1]
  | None => False
  end.
Proof. by vm_compute. Qed.

(** A dedicated session whose machine was busy comes back to it without its reservation,
    and another session is given the same machine. *)
Definition busy_retry : list event :=
  [Invoke (Some (txt "a")) 0] ++ healthy 0 1 ++ [Answer 0 (AOperated OBusy) 2; Invoke (Some (txt "b")) 10000] ++ healthy 1 10001.

Example dedicated_sessions_share :
  match run (small_scaling 1 2 Dedicated) busy_retry ["m1"%string] with
  | Some f => omap (fun t => (fun l => (l_member l, inner l)) <$> task_lease t) (tasks f) = [(0%nat, Some (txt "a")); (0%nat, Some (txt "b"))]
  | None => False
  end.
Proof. by vm_compute. Qed.

(** Two members lost at the same time: both replacements fill the fleet to its minimum,
    which ends with twice its maximum. *)
Definition both_lost : list event :=
  [Invoke None 0; Invoke None 0] ++ healthy 0 1 ++ healthy 1 1 ++
  [Answer 0 (AOperated ONotFound) 2; Answer 1 (AOperated ONotFound) 2; Answer 0 ATerminated 3; Answer 1 ATerminated 3;
   Answer 0 (ACreated (Some (txt "m3", None))) 4; Answer 0 (ACreated (Some (txt "m4", None))) 4;
   Answer 1 (ACreated (Some (txt "m5", None))) 4; Answer 1 (ACreated (Some (txt "m6", None))) 4].

Example fleet_over_its_maximum :
  match run (small_scaling 2 2 Shared) both_lost ["m1"%string; "m2"%string] with
  | Some f => (sandboxId <$> objects_of f) = txt <$> ["m3"; "m4"; "m5"; "m6"]%string
  | None => False
  end.
Proof. by vm_compute. Qed.

(** A listing sees a machine that is being created: it is in the fleet twice, and two
    dedicated sessions are given it. *)
Definition running_machine (id : string) : MemberListing := {|
  l_sandboxId := txt id; l_state := AGENT_FLEET_PROBE_STATE; startedAt := 0; l_proven := true; templateVersion := None |}.
Definition listed_while_growing : list event :=
  [Invoke None 0] ++ healthy 0 1 ++
  [Invoke None 2; Invoke (Some (txt "rs1.m9.x")) 2; Answer 2 (AListed (Some (∅, [running_machine "m1"; running_machine "m2"]))) 3;
   Answer 1 (ACreated (Some (txt "m2", None))) 4; Invoke None 5] ++ healthy 3 6.

Example machine_listed_twice :
  match run (small_scaling 1 2 Dedicated) listed_while_growing ["m1"%string] with
  | Some f => (sandboxId <$> objects_of f) = txt <$> ["m1"; "m2"; "m2"]%string /\
      omap (fun t => (fun l => sandboxId (member_at f (l_member l))) <$> task_lease t) (tasks f) = txt <$> ["m1"; "m2"; "m2"]%string
  | None => False
  end.
Proof. by vm_compute. Qed.
