(* ===== verification/IndexTable.v ===== *)
(** * IndexTable: the index of metadata on a table of DynamoDB

    src/clients/typescript/src/index/record.ts, the row of a sandbox and its item, and
    dynamodb.ts, [DynamoDbIndex]: the conditional put, and the reading of many rows with
    its retries.  The table answers [BatchGetItem] as it likes, in parts; what its
    documentation says of an answer is a hypothesis of the theorem that needs it.  The
    loading of the client is a parameter; texts are left out. *)

From stdpp Require Import base option list strings gmap.
From Stdlib Require Import NArith ZArith QArith Lia.
From S2P Require Import Prelude Text.

Local Open Scope Z_scope.

(** ** Rows *)

Definition DEFAULT_TTL_MARGIN_SECONDS : Z := 3600.
Definition MAX_SAFE : Z := 2 ^ 53 - 1.

(** A value of an attribute: a string, a number as its text, a map, or any other. *)
Inductive attribute := AS (s : text) | AN (n : text) | AM (entries : list (text * attribute)) | AOther.

Abbreviation item := (gmap text attribute).

Record IndexRecord := {
  sandboxId : text; imageArn : text; imageVersion : text; startedAtMs : Z; metadata : gmap text text; sdk : text; expiresAt : Z
}.

(** [recordFor(info, metadata, marginSeconds, sdk)]. *)
Definition recordFor (id template templateVersion : text) (startedAt maximumDurationSeconds : Z) (metadata : option (gmap text text))
    (marginSeconds : Z) (sdk : text) : IndexRecord := {|
  sandboxId := id; imageArn := template; imageVersion := templateVersion; startedAtMs := startedAt; metadata := default ∅ metadata; sdk := sdk;
  expiresAt := startedAt / 1000 + maximumDurationSeconds + marginSeconds |}.

Definition toItem (r : IndexRecord) : item := list_to_map [
  (txt "pk", AS (sandboxId r)); (txt "image_arn", AS (imageArn r)); (txt "image_version", AS (imageVersion r));
  (txt "started_at_ms", AN (print_Z (startedAtMs r)));
  (txt "metadata", AM (prod_map id AS <$> map_to_list (metadata r)));
  (txt "sdk", AS (sdk r)); (txt "expires_at", AN (print_Z (expiresAt r)))].

Definition stringOf (v : option attribute) : option text := match v with Some (AS s) => Some s | _ => None end.

(** [Number(text)], for the digits that the pattern lets through. *)
Definition parse_Z (s : text) : option Z :=
  let digits d := negb (bool_decide (d = [])) && forallb is_digit d in
  match s with
  | c :: d =>
      if bool_decide (c = 45%N) then if digits d then Some (- Z.of_N (parse_nat 10 d)) else None
      else if digits s then Some (Z.of_N (parse_nat 10 s)) else None
  | [] => None
  end.

Definition integerOf (v : option attribute) : option Z :=
  match v with
  | Some (AN s) => z ← parse_Z s; if (Z.abs z <=? MAX_SAFE) then Some z else None
  | _ => None
  end.

Definition PROTO : text := txt "__proto__".

(** [result[key] = text]: the key [__proto__] sets no property. *)
Definition assign (key value : text) (m : gmap text text) : gmap text text :=
  if bool_decide (key = PROTO) then m else <[key := value]> m.

Fixpoint metadata_loop (entries : list (text * attribute)) (m : gmap text text) : option (gmap text text) :=
  match entries with
  | [] => Some m
  | (key, AS text) :: entries => metadata_loop entries (assign key text m)
  | _ => None
  end.

Definition metadataOf (v : option attribute) : option (gmap text text) :=
  match v with Some (AM entries) => metadata_loop entries ∅ | _ => None end.

Definition fromItem (i : item) : option IndexRecord :=
  id ← stringOf (i !! txt "pk");
  arn ← stringOf (i !! txt "image_arn");
  version ← stringOf (i !! txt "image_version");
  started ← integerOf (i !! txt "started_at_ms");
  m ← metadataOf (i !! txt "metadata");
  tag ← stringOf (i !! txt "sdk");
  expires ← integerOf (i !! txt "expires_at");
  Some {| sandboxId := id; imageArn := arn; imageVersion := version; startedAtMs := started; metadata := m; sdk := tag; expiresAt := expires |}.

(** ** The index *)

Definition BATCH_GET_MAX_KEYS : nat := 100.
Definition UNPROCESSED_RETRY_ATTEMPTS : nat := 5.
Definition UNPROCESSED_FIRST_DELAY_MS : Z := 50.
Definition UNPROCESSED_MAX_DELAY_MS : Z := 1000.

Inductive WriteFailurePolicy := Terminate | Warn.

Record DynamoDbIndex := { tableName : text; onWriteFailure : WriteFailurePolicy; ttlMarginSeconds : Z }.

Definition is_table_char (c : N) : bool :=
  is_digit c || ((65 <=? c) && (c <=? 90))%N || ((97 <=? c) && (c <=? 122))%N || bool_decide (c ∈ txt "_.-").

Definition valid_table_name (s : text) : bool := (3 <=? length s)%nat && (length s <=? 255)%nat && forallb is_table_char s.

(** [new DynamoDbIndex(options)], of its three options. *)
Definition new_DynamoDbIndex (tableName : option text) (onWriteFailure ttlMarginSeconds : jsval) : result DynamoDbIndex :=
  match tableName with
  | None => Throw InvalidArgumentError
  | Some name =>
      if negb (valid_table_name name) then Throw InvalidArgumentError
      else
        policy ← match onWriteFailure with
                 | JUndefined | JNull => Ok Terminate
                 | JString s =>
                     if bool_decide (s = "terminate"%string) then Ok Terminate
                     else if bool_decide (s = "warn"%string) then Ok Warn else Throw InvalidArgumentError
                 | _ => Throw InvalidArgumentError
                 end;
        match integer_val (nullish ttlMarginSeconds (jint DEFAULT_TTL_MARGIN_SECONDS)) with
        | Some margin =>
            if (MAX_SAFE <? margin) || (margin <? 0) then Throw InvalidArgumentError
            else Ok {| IndexTable.tableName := name; IndexTable.onWriteFailure := policy; IndexTable.ttlMarginSeconds := margin |}
        | None => Throw InvalidArgumentError
        end
  end.

(** The distinct ids, in their order: [[...new Set(ids)]]. *)
Fixpoint distinct (seen ids : list text) : list text :=
  match ids with
  | [] => []
  | id :: ids => if bool_decide (id ∈ seen) then distinct seen ids else id :: distinct (id :: seen) ids
  end.

Fixpoint cut (fuel size : nat) (ids : list text) : list (list text) :=
  match fuel, ids with
  | O, _ | _, [] => []
  | S fuel, ids => take size ids :: cut fuel size (drop size ids)
  end.

Definition chunks (ids : list text) (size : nat) : list (list text) := let unique := distinct [] ids in cut (length unique) size unique.

(** What a call of the index throws. *)
Inductive failure :=
  | NotConfigured (e : error_class)
  | SandboxIndexError (awsCode : option text)
  | IndexWriteError (awsCode : option text).

Definition UNPROCESSED : text := txt "UnprocessedKeys".

Inductive event := Put (i : item) | BatchGet (keys : list text) | Slept (ms : Z).

Section Index.
Context (client : option error_class) (put_answer : item -> option (option text)).
Context (batch_answer : nat -> list text -> (list item * list text) + option text).

(** [put(record)]. *)
Definition put (r : IndexRecord) : option failure * list event :=
  match client with
  | Some e => (Some (NotConfigured e), [])
  | None => (IndexWriteError <$> put_answer (toItem r), [Put (toItem r)])
  end.

(** The loop of [#batchGetChunk]: [turns] attempts left, [calls] requests made. *)
Fixpoint chunk_loop (turns calls : nat) (first : bool) (delay : Z) (keys : list text) (items : list item)
    : (list item + failure) * nat * list event :=
  match turns with
  | O => (inr (SandboxIndexError (Some UNPROCESSED)), calls, [])
  | S turns =>
      let slept := if first then [] else [Slept delay] in
      let delay := if first then delay else Z.min (delay * 2) UNPROCESSED_MAX_DELAY_MS in
      match batch_answer calls keys with
      | inr code => (inr (SandboxIndexError code), S calls, slept ++ [BatchGet keys])
      | inl (got, pending) =>
          let items := items ++ got in
          if bool_decide (pending = []) then (inl items, S calls, slept ++ [BatchGet keys])
          else
            let '(r, calls, evs) := chunk_loop turns (S calls) false delay pending items in
            (r, calls, slept ++ BatchGet keys :: evs)
      end
  end.

(** [#batchGetChunk(ids)]. *)
Definition batchGetChunk (calls : nat) (ids : list text) : (list item + failure) * nat * list event :=
  match client with
  | Some e => (inr (NotConfigured e), calls, [])
  | None => chunk_loop (S UNPROCESSED_RETRY_ATTEMPTS) calls true UNPROCESSED_FIRST_DELAY_MS ids []
  end.

(** The rows of a chunk join those that were found. *)
Definition found_one (now : Q) (found : gmap text IndexRecord) (i : item) : gmap text IndexRecord :=
  match fromItem i with
  | Some r => if Qle_bool now (inject_Z (expiresAt r)) then <[sandboxId r := r]> found else found
  | None => found
  end.

Fixpoint batch_loop (now : Q) (calls : nat) (parts : list (list text)) (found : gmap text IndexRecord)
    : (gmap text IndexRecord + failure) * list event :=
  match parts with
  | [] => (inl found, [])
  | ids :: parts =>
      let '(r, calls, evs) := batchGetChunk calls ids in
      match r with
      | inr e => (inr e, evs)
      | inl items =>
          let (r, more) := batch_loop now calls parts (foldl (found_one now) found items) in (r, evs ++ more)
      end
  end.

(** [batchGet(sandboxIds)], [now] in seconds. *)
Definition batchGet (now : Q) (ids : list text) : (gmap text IndexRecord + failure) * list event :=
  batch_loop now O (chunks ids BATCH_GET_MAX_KEYS) ∅.
End Index.

(** ** What a row keeps *)

Lemma decimal_digit_char d : (d < 10)%N -> is_digit (digit_char d) = true.
Proof. intros Hd. unfold is_digit, digit_char. destruct (N.ltb_spec d 10); [|lia]. apply andb_true_intro. split; apply N.leb_le; lia. Qed.

Lemma print_digits n : forallb is_digit (print_nat 10 n) = true.
Proof. apply forallb_forall. apply List.Forall_forall. apply (print_nat_digits 10 n (fun c => is_digit c = true)); [done|exact decimal_digit_char]. Qed.

Lemma parse_digits n : parse_Z (print_nat 10 n) = Some (Z.of_N n).
Proof.
  pose proof (print_digits n) as D. pose proof (print_nat_not_nil 10 n) as E. pose proof (parse_print_nat 10 n ltac:(lia)) as P.
  unfold parse_Z. destruct (print_nat 10 n) as [|c d]; [done|]. rewrite !bool_decide_eq_false_2.
  - by rewrite D, P.
  - done.
  - intros ->. discriminate D.
Qed.

Lemma parse_print_Z z : parse_Z (print_Z z) = Some z.
Proof.
  unfold print_Z. destruct (Z.ltb_spec z 0) as [Hz|Hz].
  - unfold parse_Z. rewrite bool_decide_eq_true_2, bool_decide_eq_false_2 by first [done | apply print_nat_not_nil]. rewrite print_digits, parse_print_nat by lia.
    cbn [negb andb]. f_equal. lia.
  - rewrite parse_digits. f_equal. lia.
Qed.

Lemma integerOf_print z : Z.abs z <= MAX_SAFE -> integerOf (Some (AN (print_Z z))) = Some z.
Proof. intros Hz. unfold integerOf. rewrite parse_print_Z. simpl. destruct (Z.leb_spec (Z.abs z) MAX_SAFE); [done|lia]. Qed.

Lemma metadata_loop_map l m :
  NoDup l.*1 -> PROTO ∉ l.*1 -> metadata_loop (prod_map id AS <$> l) m = Some (list_to_map l ∪ m).
Proof.
  revert m. induction l as [|[k v] l IH]; intros m; cbn [fmap list_fmap prod_map metadata_loop list_to_map foldr fst snd id].
  { intros _ _. by rewrite (left_id_L ∅ _). }
  intros [Hk Hl]%NoDup_cons [Hp Hn]%not_elem_of_cons. unfold assign. rewrite bool_decide_eq_false_2 by congruence.
  rewrite IH by done. f_equal. unfold uncurry. rewrite <-insert_union_l. symmetry. apply insert_union_r. by apply not_elem_of_list_to_map_1.
Qed.

Lemma metadataOf_map m : m !! PROTO = None -> metadataOf (Some (AM (prod_map id AS <$> map_to_list m))) = Some m.
Proof.
  intros Hp. simpl. rewrite metadata_loop_map.
  - by rewrite list_to_map_to_list, (right_id_L ∅ _).
  - apply NoDup_fst_map_to_list.
  - intros [[k v] [E Hm%elem_of_map_to_list]]%list_elem_of_fmap. simpl in E. congruence.
Qed.

Lemma item_lookups (a b c d e f g : attribute) :
  let i : item := list_to_map [(txt "pk", a); (txt "image_arn", b); (txt "image_version", c); (txt "started_at_ms", d);
    (txt "metadata", e); (txt "sdk", f); (txt "expires_at", g)] in
  i !! txt "pk" = Some a /\ i !! txt "image_arn" = Some b /\ i !! txt "image_version" = Some c /\ i !! txt "started_at_ms" = Some d
  /\ i !! txt "metadata" = Some e /\ i !! txt "sdk" = Some f /\ i !! txt "expires_at" = Some g.
Proof. by vm_compute. Qed.

(** A row that is written and read back is the same row: [fromItem] of [toItem] is
    the record, when its two numbers are safe integers and no key of its metadata is
    [__proto__] (which [metadataOf] would lose). *)
Theorem item_roundtrip (r : IndexRecord) :
  Z.abs (startedAtMs r) <= MAX_SAFE -> Z.abs (expiresAt r) <= MAX_SAFE -> metadata r !! PROTO = None -> fromItem (toItem r) = Some r.
Proof.
  intros Hs He Hp. unfold fromItem, toItem.
  destruct (item_lookups (AS (sandboxId r)) (AS (imageArn r)) (AS (imageVersion r)) (AN (print_Z (startedAtMs r)))
    (AM (prod_map id AS <$> map_to_list (metadata r))) (AS (sdk r)) (AN (print_Z (expiresAt r)))) as (-> & -> & -> & -> & -> & -> & ->).
  rewrite !integerOf_print, metadataOf_map by done. by destruct r.
Qed.

Lemma item_roundtrip_witness :
  let r := recordFor (txt "sb-1") (txt "arn") (txt "3") 1700000000999 28800 (Some {[txt "team" := txt "core"]}) 3600 (txt "ts") in
  fromItem (toItem r) = Some r.
Proof. cbv zeta. apply item_roundtrip; by vm_compute. Defined.

(** A key [__proto__] of the metadata is written and not read. *)
Example proto_is_lost :
  metadataOf (Some (AM [(PROTO, AS (txt "x")); (txt "team", AS (txt "core"))])) = Some {[txt "team" := txt "core"]}.
Proof. by vm_compute. Qed.

(** ** The chunks *)

Lemma elem_of_distinct id ids seen : id ∈ distinct seen ids <-> id ∈ ids /\ id ∉ seen.
Proof.
  revert seen. induction ids as [|x ids IH]; intros seen; simpl; [set_solver|].
  case_bool_decide as Hx; [rewrite IH; set_solver|].
  rewrite elem_of_cons, IH. destruct (decide (id = x)) as [->|]; set_solver.
Qed.

Lemma NoDup_distinct ids seen : NoDup (distinct seen ids).
Proof.
  revert seen. induction ids as [|x ids IH]; intros seen; simpl; [constructor|].
  case_bool_decide; [done|]. constructor; [|done]. rewrite elem_of_distinct. set_solver.
Qed.

Lemma cut_spec size ids fuel :
  (0 < size)%nat -> (length ids <= fuel)%nat ->
  concat (cut fuel size ids) = ids /\ Forall (fun part => part <> [] /\ (length part <= size)%nat) (cut fuel size ids).
Proof.
  intros Hs. revert ids. induction fuel as [|fuel IH]; intros [|x ids] Hf; cbn [cut]; try (split; [done|constructor]); cbn [length] in Hf; [lia|].
  destruct (IH (drop size (x :: ids))) as [E F]; [rewrite length_drop; cbn [length]; lia|]. split.
  - cbn [concat]. rewrite E. apply take_drop.
  - constructor; [|done]. split; [destruct size; [lia|done]|]. rewrite length_take. lia.
Qed.

(** The chunks of a reading hold every id that was asked for exactly once, in the
    order of the first time it appears, and each has from one to [size] ids: a request
    never repeats a key, is never empty and never has more keys than the table takes. *)
Theorem chunks_spec (ids : list text) (size : nat) :
  (0 < size)%nat ->
  concat (chunks ids size) = distinct [] ids /\ NoDup (concat (chunks ids size)) /\ (forall id, id ∈ concat (chunks ids size) <-> id ∈ ids)
  /\ Forall (fun part => part <> [] /\ (length part <= size)%nat) (chunks ids size).
Proof.
  intros Hs. destruct (cut_spec size (distinct [] ids) (length (distinct [] ids)) Hs (le_n _)) as [E F].
  unfold chunks. cbv zeta. rewrite E. split_and!; [done|apply NoDup_distinct| |done].
  intros id. rewrite elem_of_distinct. set_solver.
Qed.

(** ** The reading *)

Definition is_request (e : event) : bool := match e with BatchGet _ => true | _ => false end.
Definition requests (evs : list event) : nat := length (List.filter is_request evs).
Definition wait_ok (e : event) : Prop := match e with Slept ms => 0 <= ms <= UNPROCESSED_MAX_DELAY_MS | _ => True end.

Lemma requests_app a b : requests (a ++ b) = (requests a + requests b)%nat.
Proof. unfold requests. by rewrite List.filter_app, length_app. Qed.

Section Reading.
Context (client : option error_class) (batch_answer : nat -> list text -> (list item * list text) + option text).

Lemma chunk_loop_bounds turns calls first delay keys items r calls' evs :
  0 <= delay <= UNPROCESSED_MAX_DELAY_MS -> chunk_loop batch_answer turns calls first delay keys items = (r, calls', evs) ->
  (requests evs <= turns)%nat /\ Forall wait_ok evs.
Proof.
  revert calls first delay keys items r calls' evs.
  induction turns as [|turns IH]; intros calls first delay keys items r calls' evs Hd; cbn [chunk_loop].
  { intros [= <- <- <-]. by split. }
  assert (Hslept : forall n more, (requests more <= n)%nat -> Forall wait_ok more ->
    (requests ((if first then [] else [Slept delay]) ++ BatchGet keys :: more) <= S n)%nat
    /\ Forall wait_ok ((if first then [] else [Slept delay]) ++ BatchGet keys :: more)).
  { intros n more Hn Hm. rewrite requests_app. split; [destruct first; cbn; unfold requests in Hn; lia|].
    apply Forall_app. split; [destruct first; [constructor|by constructor]|by constructor]. }
  destruct (batch_answer calls keys) as [[got pending]|code] eqn:A.
  - case_bool_decide.
    + intros [= <- <- <-]. apply Hslept; [cbn; lia|constructor].
    + destruct (chunk_loop _ _ _ _ _ _ _) as [[r1 c1] e1] eqn:L. intros [= <- <- <-].
      apply IH in L as [Hn Hw]; [|destruct first; unfold UNPROCESSED_MAX_DELAY_MS in *; lia]. by apply Hslept.
  - intros [= <- <- <-]. apply Hslept; [cbn; lia|constructor].
Qed.

Lemma batch_loop_bounds now parts calls found r evs :
  batch_loop client batch_answer now calls parts found = (r, evs) -> (requests evs <= 6 * length parts)%nat /\ Forall wait_ok evs.
Proof.
  revert calls found r evs. induction parts as [|ids parts IH]; intros calls found r evs; cbn [batch_loop].
  { intros [= <- <-]. split; [cbn; lia|constructor]. }
  destruct (batchGetChunk _ _ _ _) as [[r1 c1] e1] eqn:B.
  assert ((requests e1 <= 6)%nat /\ Forall wait_ok e1) as [H1 W1].
  { unfold batchGetChunk in B. destruct client; [injection B as <- <- <-; split; [cbn; lia|constructor]|].
    by apply chunk_loop_bounds in B. }
  destruct r1 as [items|e].
  - destruct (batch_loop _ _ _ _ _ _) as [r2 e2] eqn:L. intros [= <- <-]. apply IH in L as [H2 W2].
    rewrite requests_app. split; [cbn [length]; lia|by apply Forall_app].
  - intros [= <- <-]. split; [cbn [length]; lia|done].
Qed.

(** A reading of the index ends: whatever the table answers, it makes at most six
    requests for each hundred ids, and it waits at most a second between two of them. *)
Theorem batchGet_bounded (now : Q) (ids : list text) :
  (requests (batchGet client batch_answer now ids).2 <= 6 * length (chunks ids BATCH_GET_MAX_KEYS))%nat
  /\ Forall wait_ok (batchGet client batch_answer now ids).2.
Proof. unfold batchGet. destruct (batch_loop _ _ _ _ _ _) as [r evs] eqn:B. by apply batch_loop_bounds in B. Qed.

Context (table : gmap text item).
Hypothesis rows : forall k i, table !! k = Some i -> stringOf (i !! txt "pk") = Some k.
Hypothesis answers : forall n keys got pending, batch_answer n keys = inl (got, pending) ->
  exists served, keys ≡ₚ served ++ pending /\ got ≡ₚ omap (fun k => table !! k) served.

(** The row of [id], when it has the shape of a row and is not expired. *)
Definition live (now : Q) (id : text) : option IndexRecord :=
  i ← table !! id; r ← fromItem i; if Qle_bool now (inject_Z (expiresAt r)) then Some r else None.

Lemma chunk_loop_rows turns calls first delay keys items items' calls' evs :
  chunk_loop batch_answer turns calls first delay keys items = (inl items', calls', evs) ->
  items' ≡ₚ items ++ omap (fun k => table !! k) keys.
Proof using answers.
  revert calls first delay keys items items' calls' evs.
  induction turns as [|turns IH]; intros calls first delay keys items items' calls' evs; cbn [chunk_loop]; [done|].
  destruct (batch_answer calls keys) as [[got pending]|code] eqn:A; [|done].
  apply answers in A as (served & Hk & Hg).
  assert (E : omap (fun k => table !! k) keys ≡ₚ got ++ omap (fun k => table !! k) pending) by (rewrite Hg, <-omap_app; by apply omap_Permutation).
  case_bool_decide as Hp.
  - intros [= <- <- <-]. rewrite E, Hp. cbn [omap list_omap]. by rewrite (right_id_L [] _).
  - destruct (chunk_loop _ _ _ _ _ _ _) as [[r1 c1] e1] eqn:L. intros [= -> <- <-]. apply IH in L. by rewrite L, E, (assoc_L (++)).
Qed.

(** The records that were found are the live rows of the ids in [P]. *)
Definition Found (now : Q) (P : text -> Prop) (found : gmap text IndexRecord) : Prop :=
  forall id r, found !! id = Some r <-> P id /\ live now id = Some r.

Lemma Found_one now P found k i :
  table !! k = Some i -> Found now P found -> Found now (fun id => P id \/ id = k) (found_one now found i).
Proof using rows answers.
  intros Hk HF id r. assert (Hpk : forall r1, fromItem i = Some r1 -> sandboxId r1 = k).
  { intros r1 E. unfold fromItem in E. rewrite (rows _ _ Hk) in E. simplify_option_eq. done. }
  assert (El : live now k = (r ← fromItem i; if Qle_bool now (inject_Z (expiresAt r)) then Some r else None)) by (unfold live; by rewrite Hk).
  unfold found_one. destruct (fromItem i) as [r1|] eqn:E; simpl in El;
    [destruct (Qle_bool _ _) eqn:Q; [rewrite (Hpk r1) by done; destruct (decide (k = id)) as [->|Hn]|]|].
  - rewrite lookup_insert_eq, El. naive_solver.
  - rewrite lookup_insert_ne by done. rewrite (HF id r). naive_solver.
  - rewrite (HF id r). split; [naive_solver|]. intros [[?| ->] ?]; [done|congruence].
  - rewrite (HF id r). split; [naive_solver|]. intros [[?| ->] ?]; [done|congruence].
Qed.

Lemma Found_rows now P found items :
  (forall i, i ∈ items -> exists k, table !! k = Some i) -> Found now P found ->
  Found now (fun id => P id \/ exists i, i ∈ items /\ table !! id = Some i) (foldl (found_one now) found items).
Proof using rows answers.
  revert P found. induction items as [|i items IH]; intros P found Hi HF; cbn [foldl].
  { intros id r. rewrite (HF id r). set_solver. }
  destruct (Hi i ltac:(set_solver)) as [k Hk]. specialize (IH _ _ ltac:(set_solver) (Found_one _ _ _ _ _ Hk HF)).
  intros id r. rewrite (IH id r). setoid_rewrite elem_of_cons. apply and_iff_compat_r. split.
  - intros [[?| ->]|?]; naive_solver.
  - intros [?|(j & [->|?] & Hj)]; [tauto| |right; eauto]. left. right.
    pose proof (rows _ _ Hk). pose proof (rows _ _ Hj). congruence.
Qed.

Lemma Found_chunk now P found keys items :
  items ≡ₚ omap (fun k => table !! k) keys -> Found now P found ->
  Found now (fun id => P id \/ id ∈ keys) (foldl (found_one now) found items).
Proof using rows answers.
  intros Hi HF. assert (Hm : forall i, i ∈ items <-> exists k, k ∈ keys /\ table !! k = Some i).
  { intros i. rewrite Hi. apply list_elem_of_omap. }
  intros id r. rewrite (Found_rows now P found items ltac:(naive_solver) HF id r).
  split; (intros [[?|Hid] Hl]; [by split; [left|]|]).
  - destruct Hid as (i & (k & Hk & E)%Hm & Hid). apply rows in E. apply rows in Hid.
    split; [right|done]. by replace id with k by congruence.
  - unfold live in Hl. destruct (table !! id) as [i|] eqn:E; [|done]. split; [|unfold live; by rewrite E]. right. exists i. split; [|done]. apply Hm. eauto.
Qed.

Lemma batch_loop_rows now parts calls P found found' evs :
  Found now P found -> batch_loop client batch_answer now calls parts found = (inl found', evs) ->
  Found now (fun id => P id \/ id ∈ concat parts) found'.
Proof using rows answers.
  revert calls P found evs. induction parts as [|ids parts IH]; intros calls P found evs HF; cbn [batch_loop concat].
  { intros [= <- <-] id r. rewrite (HF id r). set_solver. }
  destruct (batchGetChunk _ _ _ _) as [[[items|e] c1] e1] eqn:B; [|done].
  unfold batchGetChunk in B. destruct client; [done|]. apply chunk_loop_rows in B.
  destruct (batch_loop _ _ _ _ _ _) as [r2 e2] eqn:L. intros [= -> <-].
  eapply IH in L; [|exact (Found_chunk _ _ _ _ _ B HF)]. intros id r. rewrite (L id r), elem_of_app. naive_solver.
Qed.
End Reading.

(** C38. A reading of the index is complete or it throws: when [batchGet] returns, the ids
    it has are exactly those that were asked for and have a row of the table of the shape
    that the client writes and that is not expired, each with that row, however the table
    splits its answers over the requests (an answer holds the rows of some of the keys and
    names the others as unprocessed). *)
Theorem batchGet_complete (client : option error_class) (batch_answer : nat -> list text -> (list item * list text) + option text)
    (table : gmap text item) (now : Q) (ids : list text) (found : gmap text IndexRecord) (evs : list event) :
  (forall k i, table !! k = Some i -> stringOf (i !! txt "pk") = Some k) ->
  (forall n keys got pending, batch_answer n keys = inl (got, pending) ->
    exists served, keys ≡ₚ served ++ pending /\ got ≡ₚ omap (fun k => table !! k) served) ->
  batchGet client batch_answer now ids = (inl found, evs) ->
  forall id, found !! id = if bool_decide (id ∈ ids) then live table now id else None.
Proof.
  intros Hr Ha H id. unfold batchGet in H.
  eapply batch_loop_rows with (P := fun _ => False) in H; [|done|done|intros i r; rewrite lookup_empty; naive_solver].
  specialize (H id). destruct (cut_spec BATCH_GET_MAX_KEYS (distinct [] ids) (length (distinct [] ids)) ltac:(unfold BATCH_GET_MAX_KEYS; lia) (le_n _)) as [E _].
  apply option_eq. intros r. rewrite (H r). unfold chunks. cbv zeta. rewrite E, elem_of_distinct.
  case_bool_decide; naive_solver set_solver.
Qed.

Definition sample_row (id : text) (expires : Z) : IndexRecord := {|
  sandboxId := id; imageArn := txt "arn"; imageVersion := txt "3"; startedAtMs := 0; metadata := {[txt "team" := txt "core"]}; sdk := txt "ts";
  expiresAt := expires |}.
Definition sample_rows : gmap text item :=
  <[txt "a" := toItem (sample_row (txt "a") 500)]> (<[txt "b" := toItem (sample_row (txt "b") 100)]> {[txt "c" := toItem (sample_row (txt "c") 500)]}).

(** A table that serves one key at a time. *)
Definition one_by_one (table : gmap text item) (n : nat) (keys : list text) : (list item * list text) + option text :=
  match keys with [] => inl ([], []) | k :: keys => inl (option_list (table !! k), keys) end.

Lemma one_by_one_answers table n keys got pending :
  one_by_one table n keys = inl (got, pending) -> exists served, keys ≡ₚ served ++ pending /\ got ≡ₚ omap (fun k => table !! k) served.
Proof.
  destruct keys as [|k keys]; cbn [one_by_one]; intros [= <- <-]; [by exists []|].
  exists [k]. split; [done|]. cbn [omap list_omap]. by destruct (table !! k).
Qed.

Lemma sample_rows_keys k i : sample_rows !! k = Some i -> stringOf (i !! txt "pk") = Some k.
Proof. unfold sample_rows. rewrite !lookup_insert_Some, lookup_singleton_Some. naive_solver (by vm_compute). Qed.

Lemma batchGet_complete_witness :
  exists found evs, batchGet None (one_by_one sample_rows) (inject_Z 300) [txt "a"; txt "b"; txt "a"; txt "x"] = (inl found, evs) /\
  found !! txt "a" = Some (sample_row (txt "a") 500) /\ found !! txt "b" = None /\ found !! txt "c" = None /\ found !! txt "x" = None.
Proof.
  destruct (batchGet None (one_by_one sample_rows) (inject_Z 300) [txt "a"; txt "b"; txt "a"; txt "x"]) as [[found|e] evs] eqn:B;
    [|vm_compute in B; discriminate B].
  exists found, evs. split; [reflexivity|].
  rewrite !(batchGet_complete None (one_by_one sample_rows) sample_rows (inject_Z 300) _ found evs sample_rows_keys (one_by_one_answers _) B).
  clear B. split_and!; vm_compute; reflexivity.
Defined.

Lemma chunks_spec_witness : (0 < 2)%nat /\ chunks [txt "a"; txt "b"; txt "a"; txt "c"] 2 = [[txt "a"; txt "b"]; [txt "c"]]
  /\ concat (chunks [txt "a"; txt "b"; txt "a"; txt "c"] 2) = distinct [] [txt "a"; txt "b"; txt "a"; txt "c"].
Proof. split; [lia|]. split; [done|]. apply (chunks_spec _ 2). lia. Defined.

(** ** Writing *)

(** What the constructor accepts: a name of the table's pattern, one of the two policies, a margin that is a safe natural. *)
Lemma new_DynamoDbIndex_ok name policy margin idx : new_DynamoDbIndex name policy margin = Ok idx ->
  name = Some (tableName idx) /\ (3 <= length (tableName idx) <= 255)%nat /\ Forall (fun c => is_table_char c = true) (tableName idx)
  /\ 0 <= ttlMarginSeconds idx <= MAX_SAFE.
Proof.
  unfold new_DynamoDbIndex. destruct name as [name|]; [|done]. destruct (valid_table_name name) eqn:V; [|done]. cbn [negb].
  destruct (match policy with JUndefined | JNull => _ | _ => _ end) as [p|]; [|done]. cbn.
  destruct (integer_val _) as [m|]; [|done]. destruct ((MAX_SAFE <? m) || (m <? 0)) eqn:M; [done|]. intros [= <-]. cbn.
  apply orb_false_iff in M as [?%Z.ltb_ge ?%Z.ltb_ge].
  unfold valid_table_name in V. rewrite !andb_true_iff in V. destruct V as [[?%Nat.leb_le ?%Nat.leb_le] F]. split_and!; [done..| |done|done].
  rewrite forallb_forall in F. by apply List.Forall_forall.
Qed.
