(* ===== verification/MountPath.v ===== *)
(** * MountPath: where buckets and volumes are mounted

    src/clients/typescript/src/mount-path.ts: the paths that [mounts] and [volumes] take, as
    text and as lists of segments, and what [validateMountPaths] makes sure of. *)

From stdpp Require Import base option list strings.
From Stdlib Require Import NArith ZArith Lia.
From S2P Require Import Prelude Text.

Local Open Scope N_scope.

Definition MAX_MOUNTS : nat := 4.
Definition SLASH : N := 47.
Definition ALLOWED_ROOTS : list text := [txt "/mnt/"; txt "/home/user/"].

(** The loop of [normalize]: the segments kept so far, the last one first. *)
Fixpoint normalize_loop (segments : list text) (parts : list text) : list text :=
  match parts with
  | [] => reverse segments
  | segment :: parts =>
      if bool_decide (segment = []) || bool_decide (segment = txt ".") then normalize_loop segments parts
      else if bool_decide (segment = txt "..") then normalize_loop (drop 1 segments) parts
      else normalize_loop (segment :: segments) parts
  end.

Definition normalize (path : text) : text := SLASH :: join [SLASH] (normalize_loop [] (split_on SLASH path)).

Definition validateOne (path : text) : result unit :=
  if negb (starts_with [SLASH] path) then Throw InvalidArgumentError
  else if negb (bool_decide (normalize path = path)) then Throw InvalidArgumentError
  else if existsb (fun root => starts_with root path && negb (bool_decide (path = take (length root - 1) root))) ALLOWED_ROOTS
  then Ok tt else Throw InvalidArgumentError.

Definition overlaps (first second : text) : bool :=
  let firstDir := first ++ [SLASH] in
  let secondDir := second ++ [SLASH] in
  bool_decide (first = second) || starts_with secondDir firstDir || starts_with firstDir secondDir.

Fixpoint validate_loop (validated paths : list text) : result unit :=
  match paths with
  | [] => Ok tt
  | path :: paths =>
      _ ← validateOne path;
      if existsb (overlaps path) validated then Throw InvalidArgumentError else validate_loop (validated ++ [path]) paths
  end.

Definition validateMountPaths (paths : list text) : result (list text) :=
  if (MAX_MOUNTS <? length paths)%nat then Throw InvalidArgumentError
  else _ ← validate_loop [] paths; Ok paths.

(** ** Paths as segments *)

(** [/a/b/c] for its segments. *)
Definition path_of (segments : list text) : text := mjoin ((fun s => SLASH :: s) <$> segments).

Definition segment (s : text) : Prop := s <> [] /\ s <> txt "." /\ s <> txt ".." /\ SLASH ∉ s.

#[export] Instance segment_dec s : Decision (segment s).
Proof. unfold segment. apply _. Defined.

(** A path that can be mounted at, by its segments: below [/mnt] or below [/home/user]. *)
Definition mountable (segments : list text) : Prop :=
  Forall segment segments /\
  ((exists x rest, segments = txt "mnt" :: x :: rest) \/ (exists x rest, segments = txt "home" :: txt "user" :: x :: rest)).

Lemma path_of_join s ss : path_of (s :: ss) = SLASH :: join [SLASH] (s :: ss).
Proof.
  revert s. induction ss as [|t ss IH]; intros s; [unfold path_of; cbn; by rewrite app_nil_r|].
  change (path_of (s :: t :: ss)) with ((SLASH :: s) ++ path_of (t :: ss)). by rewrite IH, join_cons.
Qed.

Lemma path_of_cons s ss : path_of (s :: ss) = SLASH :: s ++ path_of ss.
Proof. done. Qed.

Lemma path_of_app a b : path_of (a ++ b) = path_of a ++ path_of b.
Proof. induction a as [|s a IH]; [done|]. rewrite <- app_comm_cons, !path_of_cons, IH. cbn [app]. by rewrite <- app_assoc. Qed.

Lemma split_path_then ss r : Forall segment ss -> split_on SLASH (path_of ss ++ SLASH :: r) = [] :: ss ++ split_on SLASH r.
Proof.
  assert (forall s l, Forall segment (s :: l) -> split_on SLASH (s ++ path_of l ++ SLASH :: r) = s :: l ++ split_on SLASH r) as H.
  { intros s l. revert s. induction l as [|t l IH]; intros s [(_ & _ & _ & Hs) Hl]%Forall_cons.
    - by apply split_on_app.
    - rewrite path_of_cons, <- app_comm_cons, <- app_assoc, split_on_app by done. f_equal. by apply IH. }
  destruct ss as [|s ss]; [done|]. intros Hs. rewrite path_of_cons, <- app_comm_cons, <- app_assoc.
  cbn [split_on]. rewrite N.eqb_refl. f_equal. by apply H.
Qed.

Lemma starts_with_prefix p s : starts_with p s = true <-> p `prefix_of` s.
Proof. split; [by intros [r ->]%starts_with_true; exists r|]. intros [r ->]. apply starts_with_app. Qed.

(** A directory is above another one exactly when its segments come first. *)
Lemma below_segments a b : Forall segment a -> Forall segment b ->
  starts_with (path_of b ++ [SLASH]) (path_of a ++ [SLASH]) = true <-> b `prefix_of` a.
Proof.
  intros Ha Hb. rewrite starts_with_prefix. split.
  - intros [r E]. pose proof (split_path_then a [] Ha) as Sa. rewrite E, <- app_assoc in Sa. cbn [app] in Sa.
    rewrite split_path_then in Sa by done. injection Sa as Sa. pose proof (split_on_not_nil SLASH r) as Hr.
    destruct (split_on SLASH r) as [|x l _] using rev_ind; [done|].
    rewrite app_assoc in Sa. cbn in Sa. apply app_inj_tail in Sa as [<- _]. by exists l.
  - intros [c ->]. destruct c as [|x c]; [by rewrite app_nil_r|].
    exists (x ++ path_of c ++ [SLASH]). rewrite path_of_app, path_of_cons. by rewrite <- !app_assoc; cbn [app]; rewrite <- app_assoc.
Qed.

(** ** What is validated *)

Lemma normalize_loop_plain kept ss : Forall segment ss -> normalize_loop kept ss = reverse kept ++ ss.
Proof.
  revert kept. induction ss as [|s ss IH]; intros kept; cbn [normalize_loop]; [by rewrite app_nil_r|].
  intros [(H1 & H2 & H3 & _) Hs]%Forall_cons. rewrite !bool_decide_eq_false_2 by done. cbn [orb].
  rewrite IH, reverse_cons, <- app_assoc by done. done.
Qed.

Lemma normalize_loop_segments kept parts :
  Forall segment kept -> Forall (fun p => SLASH ∉ p) parts -> Forall segment (normalize_loop kept parts).
Proof.
  revert kept. induction parts as [|p parts IH]; intros kept Hk; cbn [normalize_loop].
  { intros _. by apply Forall_reverse. }
  intros [Hp Hps]%Forall_cons. case_bool_decide; [by apply IH|]. case_bool_decide; [by apply IH|]. cbn [orb].
  case_bool_decide; (apply IH; [|done]); [by apply Forall_drop|by constructor].
Qed.

Lemma split_path ss : ss <> [] -> Forall segment ss -> split_on SLASH (path_of ss) = [] :: ss.
Proof.
  destruct ss as [|s ss]; [done|]. intros _ Hs. rewrite path_of_join. cbn [split_on]. rewrite N.eqb_refl. f_equal.
  apply split_join; [done|]. eapply Forall_impl; [exact Hs|]. by intros x (_ & _ & _ & H).
Qed.

Lemma normalize_path ss : ss <> [] -> Forall segment ss -> normalize (path_of ss) = path_of ss.
Proof.
  intros Hn Hs. unfold normalize. rewrite split_path by done. cbn [normalize_loop]. rewrite bool_decide_eq_true_2 by done. cbn [orb].
  rewrite normalize_loop_plain by done. cbn [reverse app]. destruct ss as [|s ss]; [done|]. by rewrite path_of_join.
Qed.

Lemma normalized path : normalize path = path -> path = [SLASH] \/ exists ss, ss <> [] /\ Forall segment ss /\ path = path_of ss.
Proof.
  unfold normalize. pose proof (normalize_loop_segments [] (split_on SLASH path) ltac:(constructor) (split_on_parts _ _)) as H.
  destruct (normalize_loop [] (split_on SLASH path)) as [|s ss]; intros <-; [by left|]. right. exists (s :: ss). by rewrite path_of_join.
Qed.

(** [validateOne] accepts the canonical paths below its roots, and those alone. *)
Lemma validateOne_exact path : validateOne path = Ok tt <-> exists ss, mountable ss /\ path = path_of ss.
Proof.
  split.
  - unfold validateOne. destruct (starts_with [SLASH] path); [|done]. cbn [negb].
    case_bool_decide as Hn; [|done]. cbn [negb]. destruct (existsb _ _) eqn:Hr; [|done]. intros _.
    apply normalized in Hn as [->|(ss & Hn & Hs & ->)]; [by vm_compute in Hr|].
    exists ss. split; [|done]. split; [done|]. cbn [existsb ALLOWED_ROOTS] in Hr. rewrite !orb_true_iff, !andb_true_iff in Hr.
    assert (forall root, Forall segment root -> starts_with (path_of root ++ [SLASH]) (path_of ss) = true ->
      exists x rest, ss = root ++ x :: rest) as Hb.
    { intros root Hroot Hst. assert (root `prefix_of` ss) as [l ->].
      { apply below_segments; [done..|]. apply starts_with_prefix in Hst as [r ->]. apply starts_with_prefix. by exists (r ++ [SLASH]); rewrite <- app_assoc. }
      destruct l as [|x rest]; [|by exists x, rest]. rewrite app_nil_r in Hst. apply starts_with_prefix, prefix_length in Hst.
      rewrite length_app in Hst. cbn in Hst. lia. }
    destruct Hr as [[Hr _]|[[Hr _]|?]]; [left|right|done].
    + apply (Hb [txt "mnt"]); [|exact Hr]. by apply (bool_decide_unpack _).
    + apply (Hb [txt "home"; txt "user"]); [|exact Hr]. by apply (bool_decide_unpack _).
  - intros (ss & [Hs Hr] & ->). assert (ss <> []) as Hn by (by destruct Hr as [(x & rest & ->)|(x & rest & ->)]).
    unfold validateOne. rewrite normalize_path by done. rewrite bool_decide_eq_true_2 by done. cbn [negb].
    replace (starts_with [SLASH] (path_of ss)) with true by (by destruct ss). cbn [negb].
    replace (existsb _ ALLOWED_ROOTS) with true; [done|]. symmetry. cbn [existsb ALLOWED_ROOTS].
    destruct Hr as [(x & rest & ->)|(x & rest & ->)]; [|rewrite orb_true_iff; right]; rewrite orb_true_iff; left;
      (apply andb_true_intro; split; [apply starts_with_prefix; by exists (x ++ path_of rest)|]);
      apply negb_true_iff, bool_decide_eq_false_2; intros E%(f_equal length); rewrite !path_of_cons in E; cbn [length app] in E; rewrite ?length_app in E; vm_compute in E; done.
Qed.

Lemma overlaps_exact a b : Forall segment a -> Forall segment b ->
  overlaps (path_of a) (path_of b) = true <-> a `prefix_of` b \/ b `prefix_of` a.
Proof.
  intros Ha Hb. unfold overlaps. rewrite !orb_true_iff, bool_decide_eq_true, !below_segments by done. split; [|tauto].
  intros [[E|?]|?]; [|tauto..]. left. apply below_segments; [done..|]. rewrite E. apply starts_with_prefix. done.
Qed.

Lemma validate_loop_exact validated paths : validate_loop validated paths = Ok tt <->
  exists segs, paths = path_of <$> segs /\ Forall mountable segs /\
    ForallOrdPairs (fun a b => overlaps (path_of b) (path_of a) = false) segs /\
    Forall (fun a => Forall (fun v => overlaps (path_of a) v = false) validated) segs.
Proof.
  revert validated. induction paths as [|path paths IH]; intros validated; cbn [validate_loop].
  { split; [intros _; exists []; repeat split; constructor|done]. }
  destruct (validateOne path) as [[]|e] eqn:V; cbn; [|split; [done|]].
  - apply validateOne_exact in V as (ss & Hm & ->). destruct (existsb _ validated) eqn:O.
    + split; [done|]. intros (segs & E & Hs & Hp & Hv). exfalso. destruct segs as [|s segs]; [done|]. injection E as E _.
      apply Forall_cons in Hv as [Hv _]. rewrite <- E in Hv. apply existsb_exists in O as (v & Hin & Ho).
      rewrite Forall_forall in Hv. apply list_elem_of_In in Hin. rewrite Hv in Ho by done. done.
    + assert (Forall (fun v => overlaps (path_of ss) v = false) validated) as Hv.
      { apply Forall_forall. intros v Hin%list_elem_of_In. apply not_true_iff_false. intros Ho. apply not_true_iff_false in O.
        apply O, existsb_exists. eauto. }
      rewrite IH. split; intros (segs & E & Hs & Hp & Hall).
      * exists (ss :: segs). split_and!; [by rewrite E|by constructor| |].
        { constructor; [|done]. eapply Forall_impl; [exact Hall|]. by intros a [_ [H _]%Forall_cons]%Forall_app. }
        constructor; [done|]. eapply Forall_impl; [exact Hall|]. by intros a [H _]%Forall_app.
      * destruct segs as [|s segs]; [done|]. injection E as E1 E2. apply Forall_cons in Hs as [Hm' Hs].
        inversion Hp as [|? ? Hps Hpp]; subst. apply Forall_cons in Hall as [_ Hall].
        exists segs. split_and!; [done..|]. rewrite Forall_forall in Hps, Hall |- *. intros a Ha. apply Forall_app. split; [by apply Hall|].
        constructor; [|done]. rewrite E1. by apply Hps.
  - intros (segs & E & Hs & _). destruct segs as [|s segs]; [done|]. injection E as -> _. apply Forall_cons in Hs as [Hm _].
    assert (validateOne (path_of s) = Ok tt) as V' by (apply validateOne_exact; eauto). by rewrite V in V'.
Qed.

(** [validateMountPaths] accepts exactly the lists of at most four absolute canonical
    paths, each below [/mnt] or [/home/user], of which none is another one nor inside
    another one: mounting them in any order hides nothing of what was mounted. *)
Theorem validateMountPaths_exact (paths : list text) :
  validateMountPaths paths = Ok paths <->
  (length paths <= MAX_MOUNTS)%nat /\
  exists segs, paths = path_of <$> segs /\ Forall mountable segs /\
    ForallOrdPairs (fun a b => ~ a `prefix_of` b /\ ~ b `prefix_of` a) segs.
Proof.
  unfold validateMountPaths. destruct (Nat.ltb_spec MAX_MOUNTS (length paths)) as [|Hl]; [split; [done|lia]|].
  transitivity (validate_loop [] paths = Ok tt); [destruct (validate_loop [] paths) as [[]|]; by split|].
  rewrite validate_loop_exact. split.
  - intros (segs & E & Hs & Hp & _). split; [done|]. exists segs. split_and!; [done..|]. clear -Hs Hp.
    induction Hp as [|s segs Hps Hp IH]; [constructor|]. apply Forall_cons in Hs as [[Hm _] Hs]. constructor; [|by apply IH].
    rewrite Forall_forall in Hps, Hs |- *. intros a Ha. specialize (Hps a Ha). destruct (Hs a Ha) as [Ha' _].
    apply not_true_iff_false in Hps. rewrite overlaps_exact in Hps by done. tauto.
  - intros (_ & segs & E & Hs & Hp). exists segs. split_and!; [done..| |by apply Forall_forall; constructor]. clear -Hs Hp.
    induction Hp as [|s segs Hps Hp IH]; [constructor|]. apply Forall_cons in Hs as [[Hm _] Hs]. constructor; [|by apply IH].
    rewrite Forall_forall in Hps, Hs |- *. intros a Ha. destruct (Hps a Ha) as [H1 H2]. destruct (Hs a Ha) as [Ha' _].
    apply not_true_iff_false. rewrite overlaps_exact by done. tauto.
Qed.

Example mounts_that_nest : validateMountPaths [txt "/mnt/data"; txt "/mnt/data/raw"] = Throw InvalidArgumentError.
Proof. done. Qed.

Example mounts_apart : validateMountPaths [txt "/mnt/data"; txt "/mnt/data2"; txt "/home/user/.cache"] =
  Ok [txt "/mnt/data"; txt "/mnt/data2"; txt "/home/user/.cache"].
Proof. done. Qed.

(** Two lists that are accepted one by one, as [mounts] and [volumes] are, may nest and
    pass the limit together. *)
Example mounts_and_volumes_apart :
  validateMountPaths [txt "/mnt/a"; txt "/mnt/b"; txt "/mnt/c"; txt "/mnt/d"] = Ok [txt "/mnt/a"; txt "/mnt/b"; txt "/mnt/c"; txt "/mnt/d"] /\
  validateMountPaths [txt "/mnt/a/x"] = Ok [txt "/mnt/a/x"] /\
  validateMountPaths [txt "/mnt/a"; txt "/mnt/b"; txt "/mnt/c"; txt "/mnt/d"; txt "/mnt/a/x"] = Throw InvalidArgumentError.
Proof. done. Qed.
