(* ===== verification/Configure.v ===== *)
(** * Configure: the sections of [ConfigureSandbox]

    src/clients/typescript/src/configure/base.ts, without its calls: what a section promises
    ([ConfigureSection]), the capabilities an agent must have, how the answers of an agent
    are read and what is still pending.  Sandbox.v makes the calls. *)

From stdpp Require Import base option list strings sets.
From Stdlib Require Import NArith ZArith Lia.
From S2P Require Import Prelude Text RpcErrors Readiness.

Local Open Scope Z_scope.

Definition CONFIGURE_SETTLE_POLL_MS : Z := 250.

(** The codes of a [SectionResult]. *)
Definition UNSPECIFIED : Z := 0.
Definition APPLIED : Z := 1.
Definition PENDING : Z := 2.
Definition UNSUPPORTED : Z := 3.
Definition INVALID : Z := 4.
Definition FAILED : Z := 5.

Definition err (class : error_class) : thrown := OwnError class None None false None.
Definition err_code (class : error_class) (code : text) : thrown := OwnError class (Some code) None false None.

(** ** Messages *)

(** What [ConfigureStatus] says of one mount. *)
Record MountState := { mountPath : text; phase : Z; errorClass : text }.
Record ConfigureStatusResponse := { st_s3Mounts : list MountState; st_efsVolumes : list MountState }.
Record SectionResult := { sr_section : Z; sr_code : Z; sr_errorClass : text }.
Abbreviation ConfigureResponse := (list SectionResult).

(** ** Sections *)

(** The interface of a section; [requireSupport] is that of a [CapabilityGate],
    [applyTimeoutMs] that of a [SlowApplySection], [afterApply] says whether it is a
    [PostApplySection]. *)
Record ConfigureSection := {
  section : text;
  requiredFlag : AgentFeatures -> bool;
  settleTimeoutMs : Z;
  checkResult : Z -> text -> option thrown;
  checkStatus : ConfigureStatusResponse -> bool -> bool + thrown;
  requireSupport : option (AgentFeatures -> option thrown);
  applyTimeoutMs : option Z;
  afterApply : bool
}.

(** A [PlannedSection]: ready, or one that is built, by a call, before [Configure]. *)
Inductive PlannedSection := Ready (s : ConfigureSection) | Factory (build : moment -> ConfigureSection + thrown).

Definition agentFeaturesFromHealth (r : HealthResponse) : option AgentFeatures := features r.

Definition requireConfigureSupport (features : option AgentFeatures) : result AgentFeatures :=
  match features with None => Throw UnimplementedError | Some f => Ok f end.

Definition configureTimeoutMs (sections : list ConfigureSection) (timeoutMs : Z) : Z :=
  foldl Z.max timeoutMs (omap applyTimeoutMs sections).

Definition sectionError (code : Z) : option thrown :=
  if (code =? APPLIED) || (code =? PENDING) then None
  else if (code =? UNSUPPORTED) then Some (err UnimplementedError)
  else Some (err SandboxError).

(** [class ImmediateSection]. *)
Definition ImmediateSection (name : text) (flag : AgentFeatures -> bool) (post : bool) : ConfigureSection := {|
  section := name; requiredFlag := flag; settleTimeoutMs := 0;
  checkResult := fun code _ => sectionError code; checkStatus := fun _ _ => inl true;
  requireSupport := None; applyTimeoutMs := None; afterApply := post |}.

Definition configSectionName (section : Z) : text :=
  match section with
  | 1 => txt "s3_mounts"
  | 2 => txt "efs_volumes"
  | 3 => txt "lifecycle_events"
  | 4 => txt "telemetry_export"
  | 5 => txt "secret_gateway"
  | _ => txt "unspecified"
  end.

(** The error of the first section that the agent does not support. *)
Fixpoint requireCapabilities (sections : list ConfigureSection) (features : AgentFeatures) : option thrown :=
  match sections with
  | [] => None
  | entry :: sections =>
      match match requireSupport entry with
            | Some gate => gate features
            | None => if requiredFlag entry features then None else Some (err UnimplementedError)
            end with
      | Some e => Some e
      | None => requireCapabilities sections features
      end
  end.

(** [byName.get(name)]: the last section of the name. *)
Definition by_name (sections : list ConfigureSection) (name : text) : option ConfigureSection :=
  last (filter (fun s => section s = name) sections).

Definition sectionsByResult (response : ConfigureResponse) (sections : list ConfigureSection) : list (ConfigureSection * SectionResult) :=
  omap (fun r => (fun s => (s, r)) <$> by_name sections (configSectionName (sr_section r))) response.

Fixpoint check_loop (paired : list (ConfigureSection * SectionResult)) (pending : list ConfigureSection) : list ConfigureSection + thrown :=
  match paired with
  | [] => inl pending
  | (entry, r) :: paired =>
      match checkResult entry (sr_code r) (sr_errorClass r) with
      | Some e => inr e
      | None => check_loop paired (if (sr_code r =? PENDING) then pending ++ [entry] else pending)
      end
  end.

Definition checkConfigureResponse (response : ConfigureResponse) (sections : list ConfigureSection) : list ConfigureSection + thrown :=
  check_loop (sectionsByResult response sections) [].

(** [settleTimeoutMs(pending)]. *)
Definition settle_timeout (pending : list ConfigureSection) : Z := foldl Z.max 0 (settleTimeoutMs <$> pending).

Fixpoint stillPending (status : ConfigureStatusResponse) (pending : list ConfigureSection) (final : bool) : list ConfigureSection + thrown :=
  match pending with
  | [] => inl []
  | entry :: pending =>
      match checkStatus entry status final with
      | inr e => inr e
      | inl settled =>
          match stillPending status pending final with
          | inr e => inr e
          | inl rest => inl (if settled then rest else entry :: rest)
          end
      end
  end.

(** ** What sections promise *)

(** The contract of [checkStatus]: asked for the last time, a section is settled or throws. *)
Definition settles_at_last (s : ConfigureSection) : Prop := forall status, checkStatus s status true <> inl false.

Lemma stillPending_final status pending rest :
  Forall settles_at_last pending -> stillPending status pending true = inl rest -> rest = [].
Proof.
  intros H. revert rest. induction H as [|s pending Hs H IH]; intros rest; cbn [stillPending]; [by intros [= <-]|].
  specialize (Hs status). destruct (checkStatus s status true) as [[]|]; [|done..].
  destruct (stillPending status pending true) as [rest'|]; [|done]. intros [= <-]. by apply IH.
Qed.

(** What is no longer pending was said to be settled. *)
Lemma stillPending_spec status pending final rest :
  stillPending status pending final = inl rest ->
  forall s, s ∈ pending -> checkStatus s status final = inl true \/ (checkStatus s status final = inl false /\ s ∈ rest).
Proof.
  revert rest. induction pending as [|x pending IH]; intros rest; cbn [stillPending]; [set_solver|].
  destruct (checkStatus x status final) as [b|] eqn:C; [|done]. destruct (stillPending status pending final) as [rest'|]; [|done].
  intros [= <-] s. rewrite elem_of_cons. intros [->|Hs].
  - destruct b; [by left|right; split; [done|by left]].
  - destruct (IH rest' eq_refl s Hs) as [?|[? ?]]; [by left|right]. split; [done|]. destruct b; [done|by right].
Qed.

Lemma stillPending_subset status pending final rest : stillPending status pending final = inl rest -> rest ⊆ pending.
Proof.
  revert rest. induction pending as [|x pending IH]; intros rest; cbn [stillPending]; [by intros [= <-]|].
  destruct (checkStatus x status final) as [b|]; [|done]. destruct (stillPending status pending final) as [rest'|]; [|done].
  intros [= <-]. specialize (IH rest' eq_refl). destruct b; set_solver.
Qed.

Lemma check_loop_spec paired pending rest : check_loop paired pending = inl rest ->
  (forall s r, (s, r) ∈ paired -> checkResult s (sr_code r) (sr_errorClass r) = None) /\
  forall s, s ∈ rest <-> s ∈ pending \/ exists r, (s, r) ∈ paired /\ sr_code r = PENDING.
Proof.
  revert pending. induction paired as [|[x r] paired IH]; intros pending; cbn [check_loop].
  { intros [= <-]. split; [set_solver|]. set_solver. }
  destruct (checkResult x _ _) eqn:C; [done|]. intros [H1 H2]%IH. split.
  - intros s r'. rewrite elem_of_cons. intros [[= -> ->]|?]; [done|by apply H1].
  - intros s. rewrite H2. setoid_rewrite elem_of_cons. destruct (Z.eqb_spec (sr_code r) PENDING).
    + rewrite elem_of_app, list_elem_of_singleton. naive_solver.
    + naive_solver.
Qed.

(** When the answer to a [Configure] is accepted, every result of it that names a section
    that was sent is one the section does not refuse, and the sections that are then
    waited for are exactly those that the agent left pending. *)
Theorem checkConfigureResponse_exact (response : ConfigureResponse) (sections pending : list ConfigureSection) :
  checkConfigureResponse response sections = inl pending ->
  (forall r s, r ∈ response -> by_name sections (configSectionName (sr_section r)) = Some s ->
    checkResult s (sr_code r) (sr_errorClass r) = None) /\
  forall s, s ∈ pending <->
    exists r, r ∈ response /\ by_name sections (configSectionName (sr_section r)) = Some s /\ sr_code r = PENDING.
Proof.
  unfold checkConfigureResponse. intros [H1 H2]%check_loop_spec.
  assert (forall s r, (s, r) ∈ sectionsByResult response sections <-> r ∈ response /\ by_name sections (configSectionName (sr_section r)) = Some s) as H.
  { intros s r. unfold sectionsByResult. rewrite list_elem_of_omap. split.
    - intros (r' & Hr & E). destruct (by_name _ _) eqn:B; [|done]. injection E as -> ->. done.
    - intros [Hr B]. exists r. by rewrite B. }
  split.
  - intros r s Hr Hb. apply H1, H. done.
  - intros s. rewrite H2. setoid_rewrite H. set_solver.
Qed.

Lemma checkConfigureResponse_exact_witness :
  let s := ImmediateSection (txt "secret_gateway") secretGateway true in
  let response := [{| sr_section := 5; sr_code := PENDING; sr_errorClass := [] |}] in
  checkConfigureResponse response [s] = inl [s] /\ s ∈ [s].
Proof.
  cbv zeta. split; [done|].
  apply (checkConfigureResponse_exact [{| sr_section := 5; sr_code := PENDING; sr_errorClass := [] |}]
    [ImmediateSection (txt "secret_gateway") secretGateway true]); [done|].
  exists {| sr_section := 5; sr_code := PENDING; sr_errorClass := [] |}. split_and!; [by left|done|done].
Defined.

Lemma requireCapabilities_exact sections features : requireCapabilities sections features = None <->
  Forall (fun s => match requireSupport s with Some gate => gate features = None | None => requiredFlag s features = true end) sections.
Proof.
  induction sections as [|s sections IH]; cbn [requireCapabilities]; [by split|]. rewrite Forall_cons, <- IH.
  destruct (requireSupport s) as [gate|]; [destruct (gate features)|destruct (requiredFlag s features)]; naive_solver.
Qed.

Lemma fold_max_ge l a : a <= foldl Z.max a l /\ Forall (fun x => x <= foldl Z.max a l) l.
Proof.
  revert a. induction l as [|x l IH]; intros a; cbn [foldl]; [split; [lia|constructor]|].
  destruct (IH (Z.max a x)) as [H1 H2]. split; [lia|]. constructor; [lia|done].
Qed.

(** The call of [Configure] is given the time of the slowest section, and of the caller. *)
Lemma configureTimeoutMs_covers sections timeoutMs :
  timeoutMs <= configureTimeoutMs sections timeoutMs /\
  forall s t, s ∈ sections -> applyTimeoutMs s = Some t -> t <= configureTimeoutMs sections timeoutMs.
Proof.
  destruct (fold_max_ge (omap applyTimeoutMs sections) timeoutMs) as [H1 H2]. split; [done|].
  intros s t Hs E. rewrite Forall_forall in H2. apply H2, list_elem_of_omap. eauto.
Qed.
