(* ===== verification/Mounts.v ===== *)
(** * Mounts: buckets and volumes of a sandbox

    src/clients/typescript/src/s3-mounts/domain.ts and section.ts, volumes/domain.ts and
    section.ts, and role-policy.ts: what [mounts] and [volumes] admit before anything is
    launched, the sections they become and how the state of a mount is read.  [isIPv4] of
    Node is a parameter; texts of errors are left out. *)

From stdpp Require Import base option list strings gmap sets.
From Stdlib Require Import NArith ZArith Lia.
From S2P Require Import Prelude Text RpcErrors Readiness MountPath Configure.

Local Open Scope Z_scope.

(** ** The policy of roles *)

Definition IMAGE_NAME_PREFIX : text := txt "rayito-".
Definition ARN_PREFIX : text := txt "arn:".
Definition CAPS_VARIANT : text := txt "base-caps".
Definition EFS_CAPS_VARIANT : text := txt "base-caps-efs".
Definition CAPS_VARIANTS : list text := [CAPS_VARIANT; EFS_CAPS_VARIANT].
Definition OFFICIAL_IMAGE_VARIANTS : list text :=
  [txt "base"; txt "base-caps"; txt "base-caps-efs"; txt "base-poly"; txt "base-slim"].
Definition SIZE_NAMES : list text := [txt "512mb"; txt "1gb"; txt "2gb"; txt "4gb"; txt "8gb"].

Fixpoint variant_of_sizes (sizes : list text) (candidate : text) : option text :=
  match sizes with
  | [] => None
  | size :: sizes =>
      let suffix := txt "-" ++ size in
      let unsized := take (length candidate - length suffix) candidate in
      if ends_with suffix candidate && bool_decide (unsized ∈ OFFICIAL_IMAGE_VARIANTS) then Some unsized
      else variant_of_sizes sizes candidate
  end.

Definition resolveImageVariant (template : option text) : option text :=
  match template with
  | None => None
  | Some template =>
      if bool_decide (template = []) || starts_with ARN_PREFIX template || negb (starts_with IMAGE_NAME_PREFIX template) then None
      else
        let candidate := drop (length IMAGE_NAME_PREFIX) template in
        if bool_decide (candidate ∈ OFFICIAL_IMAGE_VARIANTS) then Some candidate else variant_of_sizes SIZE_NAMES candidate
  end.

Definition requireCapsFor (imageVariant : option text) : result unit :=
  match imageVariant with
  | None => Ok tt
  | Some v => if bool_decide (v ∈ CAPS_VARIANTS) then Ok tt else Throw UnimplementedError
  end.

Definition requireEfsFor (imageVariant : option text) : result unit :=
  match imageVariant with
  | None => Ok tt
  | Some v => if bool_decide (v = EFS_CAPS_VARIANT) then Ok tt else Throw UnimplementedError
  end.

(** ** Buckets *)

Definition MOUNT_ERROR_CLASSES : list text :=
  [txt "network"; txt "iam_denied"; txt "not_found"; txt "not_allowed"; txt "invalid_path"; txt "helper_missing"; txt "timeout"].
Definition UNKNOWN_ERROR_CLASS : text := txt "unknown".
Definition TIMEOUT_ERROR_CLASS : text := txt "timeout".
Definition MOUNT_SETTLE_TIMEOUT_MS : Z := 15000.

Record S3Mount := { bucket : text; prefix : text; readOnly : bool; allowOverwrite : bool; allowDelete : bool }.

(** [new S3Mount(options)]. *)
Definition new_S3Mount (bucket : text) (prefix : option text) (readOnly allowOverwrite allowDelete : option bool) : result S3Mount :=
  if bool_decide (bucket = []) then Throw InvalidArgumentError
  else
    let prefix := default [] prefix in
    if starts_with [SLASH] prefix then Throw InvalidArgumentError
    else
      let readOnly := default true readOnly in
      let allowOverwrite := default false allowOverwrite in
      let allowDelete := default false allowDelete in
      if readOnly && (allowOverwrite || allowDelete) then Throw InvalidArgumentError
      else Ok {| Mounts.bucket := bucket; Mounts.prefix := prefix; Mounts.readOnly := readOnly;
                 Mounts.allowOverwrite := allowOverwrite; Mounts.allowDelete := allowDelete |}.

Inductive MountPhase := pending | mounted | failed.
#[export] Instance MountPhase_eq_dec : EqDecision MountPhase.
Proof. solve_decision. Defined.

Record MountStatus := { state : MountPhase; lastErrorClass : option text }.

(** [PHASE_TO_STATE]; a phase it does not have is pending. *)
Definition PHASE_TO_STATE (phase : Z) : MountPhase := if (phase =? 2) then mounted else if (phase =? 3) then failed else pending.

Definition class_of (errorClass : text) : option text := if bool_decide (errorClass = []) then None else Some errorClass.

(** [fromProtoStatus(status)] of mounts: the last state of a path wins. *)
Definition fromProtoStatus (mounts : list MountState) : gmap text MountStatus :=
  foldl (fun m s => <[mountPath s := {| state := PHASE_TO_STATE (phase s); lastErrorClass := class_of (errorClass s) |}]> m) ∅ mounts.

Definition known (classes : list text) (unknown class : text) : text := if bool_decide (class ∈ classes) then class else unknown.

Definition checkSectionResult (code : Z) (errorClass : text) : option thrown :=
  if (code =? APPLIED) || (code =? PENDING) then None
  else if (code =? UNSUPPORTED) then Some (err UnimplementedError)
  else Some (err_code MountError (known MOUNT_ERROR_CLASSES UNKNOWN_ERROR_CLASS errorClass)).

Fixpoint settled_loop (states : gmap text MountStatus) (wanted : list text) (settled : bool) : bool + thrown :=
  match wanted with
  | [] => inl settled
  | path :: wanted =>
      match states !! path with
      | Some {| state := failed; lastErrorClass := class |} =>
          inr (err_code MountError (known MOUNT_ERROR_CLASSES UNKNOWN_ERROR_CLASS (default UNKNOWN_ERROR_CLASS class)))
      | Some {| state := mounted |} => settled_loop states wanted settled
      | _ => settled_loop states wanted false
      end
  end.

Definition checkMountsSettled (states : gmap text MountStatus) (wanted : list text) (final : bool) : bool + thrown :=
  match settled_loop states wanted true with
  | inl settled => if negb settled && final then inr (err_code MountError TIMEOUT_ERROR_CLASS) else inl settled
  | inr e => inr e
  end.

(** [new S3MountsSection(mounts)]. *)
Definition S3MountsSection (mounts : list (text * S3Mount)) : ConfigureSection := {|
  section := txt "s3_mounts"; requiredFlag := s3Mounts; settleTimeoutMs := MOUNT_SETTLE_TIMEOUT_MS;
  checkResult := checkSectionResult;
  checkStatus := fun status final => checkMountsSettled (fromProtoStatus (st_s3Mounts status)) mounts.*1 final;
  requireSupport := None; applyTimeoutMs := None; afterApply := false |}.

Definition planS3Mounts (mounts : option (list (text * S3Mount))) : result (option ConfigureSection) :=
  match mounts with
  | None => Ok None
  | Some entries => _ ← validateMountPaths entries.*1; Ok (Some (S3MountsSection entries))
  end.

(** ** Volumes *)

Definition EFS_VOLUMES_MAX_PER_SANDBOX : nat := 4.
Definition MOUNT_HELPER_TIMEOUT_MS : Z := 15000.
Definition VOLUME_APPLY_MARGIN_MS : Z := 5000.
Definition VOLUME_APPLY_TIMEOUT_MS : Z := Z.of_nat EFS_VOLUMES_MAX_PER_SANDBOX * MOUNT_HELPER_TIMEOUT_MS + VOLUME_APPLY_MARGIN_MS.
Definition VOLUME_SETTLE_TIMEOUT_MS : Z := VOLUME_APPLY_TIMEOUT_MS.
Definition VOLUME_MOUNT_ERROR_CLASSES : list text :=
  [txt "network"; txt "iam_denied"; txt "not_found"; txt "tls"; txt "helper_missing"; txt "timeout"; txt "invalid_path"].
Definition TIMEOUT_VOLUME_ERROR_CODE : text := txt "timeout".
Definition UNKNOWN_VOLUME_ERROR_CODE : text := txt "unknown".
Definition INTERNET_EGRESS_CONNECTOR : text := txt "INTERNET_EGRESS".

Definition is_hex (c : N) : bool := (is_digit c || ((97 <=? c) && (c <=? 102)))%N.
Definition is_name_char (c : N) : bool :=
  (is_digit c || ((65 <=? c) && (c <=? 90)) || ((97 <=? c) && (c <=? 122)) || (c =? 45))%N.

(** A prefix and eight to forty hexadecimal digits. *)
Definition hex_id (p s : text) : bool :=
  starts_with p s && (let d := drop (length p) s in (8 <=? length d)%nat && (length d <=? 40)%nat && forallb is_hex d).

Definition validateFileSystemId (v : text) : result text := if hex_id (txt "fs-") v then Ok v else Throw InvalidArgumentError.
Definition validateAccessPointId (v : text) : result text := if hex_id (txt "fsap-") v then Ok v else Throw InvalidArgumentError.
Definition validateVolumeName (v : text) : result text :=
  if (1 <=? length v)%nat && (length v <=? 100)%nat && forallb is_name_char v then Ok v else Throw InvalidArgumentError.

Record EfsVolume := {
  fileSystemId : text; accessPointId : text; name : option text; region : option text; v_readOnly : bool; mountTargetIp : option text
}.

Section Volumes.
Context (isIPv4 : text -> bool).

Definition validateMountTargetIp (v : text) : result text := if isIPv4 v then Ok v else Throw InvalidArgumentError.

(** [new EfsVolume(options)]. *)
Definition new_EfsVolume (fileSystemId accessPointId : text) (name region : option text) (readOnly : option bool) (mountTargetIp : option text)
    : result EfsVolume :=
  fs ← validateFileSystemId fileSystemId;
  ap ← validateAccessPointId accessPointId;
  n ← match name with None => Ok None | Some n => n ← validateVolumeName n; Ok (Some n) end;
  ip ← match mountTargetIp with None => Ok None | Some ip => ip ← validateMountTargetIp ip; Ok (Some ip) end;
  Ok {| Mounts.fileSystemId := fs; Mounts.accessPointId := ap; Mounts.name := n; Mounts.region := region;
        v_readOnly := default false readOnly; Mounts.mountTargetIp := ip |}.
End Volumes.

Definition last_part (s : text) : text := default [] (last (split_on 58 s)).
Definition hasInternetConnector (egress : list text) : bool :=
  existsb (fun connector => bool_decide (last_part connector = INTERNET_EGRESS_CONNECTOR)) egress.

Definition requireVolumeConnector (egress : option (list text)) : result unit :=
  let connectors := default [] egress in
  if bool_decide (connectors = []) then Throw InvalidArgumentError
  else if hasInternetConnector connectors then Throw InvalidArgumentError
  else if (1 <? length connectors)%nat then Throw InvalidArgumentError
  else Ok tt.

(** A value of [volumes]: a volume, or something else. *)
Fixpoint volume_values (entries : list (text * option EfsVolume)) : result (list (text * EfsVolume)) :=
  match entries with
  | [] => Ok []
  | (path, Some v) :: entries => rest ← volume_values entries; Ok ((path, v) :: rest)
  | _ => Throw InvalidArgumentError
  end.

Definition planVolumes (volumes : list (text * option EfsVolume)) (imageVariant : option text) (egress : option (list text))
    (executionRoleArn : option text) : result (list (text * EfsVolume)) :=
  if bool_decide (volumes = []) then Throw InvalidArgumentError
  else if (EFS_VOLUMES_MAX_PER_SANDBOX <? length volumes)%nat then Throw InvalidArgumentError
  else
    validated ← volume_values volumes;
    _ ← validateMountPaths validated.*1;
    _ ← requireEfsFor imageVariant;
    _ ← requireVolumeConnector egress;
    _ ← throw_if (match executionRoleArn with Some r => bool_decide (r = []) | None => true end) InvalidArgumentError;
    Ok validated.

Definition knownCode (errorClass : option text) : text :=
  match errorClass with None => UNKNOWN_VOLUME_ERROR_CODE | Some c => known VOLUME_MOUNT_ERROR_CLASSES UNKNOWN_VOLUME_ERROR_CODE c end.

Definition volume_result (code : Z) (errorClass : text) : option thrown :=
  if (code =? APPLIED) || (code =? PENDING) then None
  else if (code =? UNSUPPORTED) then Some (err UnimplementedError)
  else Some (err_code VolumeMountError (knownCode (class_of errorClass))).

(** The states of the volumes, the last one of a path. *)
Definition volume_states (volumes : list MountState) : gmap text MountState := foldl (fun m s => <[mountPath s := s]> m) ∅ volumes.

Definition VOLUME_MOUNTED : Z := 3.
Definition VOLUME_FAILED : Z := 7.

Fixpoint volumes_loop (states : gmap text MountState) (wanted : list text) (settled : bool) : bool + thrown :=
  match wanted with
  | [] => inl settled
  | path :: wanted =>
      match states !! path with
      | Some s =>
          if (phase s =? VOLUME_FAILED) then inr (err_code VolumeMountError (knownCode (class_of (errorClass s))))
          else volumes_loop states wanted (settled && (phase s =? VOLUME_MOUNTED))
      | None => volumes_loop states wanted false
      end
  end.

Definition volume_status (wanted : list text) (status : ConfigureStatusResponse) (final : bool) : bool + thrown :=
  match volumes_loop (volume_states (st_efsVolumes status)) wanted true with
  | inl settled => if negb settled && final then inr (err_code VolumeMountError TIMEOUT_VOLUME_ERROR_CODE) else inl settled
  | inr e => inr e
  end.

(** [new EfsVolumesSection(volumes)]. *)
Definition EfsVolumesSection (volumes : list (text * EfsVolume)) : ConfigureSection := {|
  section := txt "efs_volumes"; requiredFlag := efsVolumes; settleTimeoutMs := VOLUME_SETTLE_TIMEOUT_MS;
  checkResult := volume_result; checkStatus := volume_status volumes.*1;
  requireSupport := Some (fun f => if efsVolumes f then None else Some (err UnimplementedError));
  applyTimeoutMs := Some VOLUME_APPLY_TIMEOUT_MS; afterApply := false |}.

(** ** What is settled *)

Definition is_mounted (states : gmap text MountStatus) (path : text) : Prop := exists s, states !! path = Some s /\ state s = mounted.
Definition has_failed (states : gmap text MountStatus) (path : text) : Prop := exists s, states !! path = Some s /\ state s = failed.

Lemma settled_loop_spec states wanted settled :
  match settled_loop states wanted settled with
  | inl b => Forall (fun p => ~ has_failed states p) wanted /\ (b = true <-> settled = true /\ Forall (is_mounted states) wanted)
  | inr e => Exists (has_failed states) wanted
  end.
Proof.
  revert settled. induction wanted as [|p wanted IH]; intros settled; cbn [settled_loop].
  { split; [constructor|]. split; [by split|tauto]. }
  destruct (states !! p) as [[[] class]|] eqn:E.
  - specialize (IH false). destruct (settled_loop states wanted false) as [b|]; [|by right]. destruct IH as [H1 H2]. split.
    + constructor; [|done]. intros (s & E' & F). rewrite E in E'. by injection E' as <-.
    + rewrite H2. split; [by intros []|]. intros [_ [(s & E' & F) _]%Forall_cons]. rewrite E in E'. by injection E' as <-.
  - specialize (IH settled). destruct (settled_loop states wanted settled) as [b|]; [|by right]. destruct IH as [H1 H2]. split.
    + constructor; [|done]. intros (s & E' & F). rewrite E in E'. by injection E' as <-.
    + rewrite H2, Forall_cons. split; [|tauto]. intros [? ?]. split_and!; [done| |done]. by exists {| state := mounted; lastErrorClass := class |}.
  - left. by exists {| state := failed; lastErrorClass := class |}.
  - specialize (IH false). destruct (settled_loop states wanted false) as [b|]; [|by right]. destruct IH as [H1 H2]. split.
    + constructor; [|done]. intros (s & E' & F). by rewrite E in E'.
    + rewrite H2. split; [by intros []|]. intros [_ [(s & E' & F) _]%Forall_cons]. by rewrite E in E'.
Qed.

(** The mounts of a sandbox are settled exactly when all of them are mounted; they go on
    being waited for exactly when none has failed, some one is not mounted and it is not
    the last reading; and anything else is an error: a sandbox is never handed out over a
    mount that failed, and the last reading never asks for another one. *)
Theorem checkMountsSettled_exact (states : gmap text MountStatus) (wanted : list text) (final : bool) :
  (checkMountsSettled states wanted final = inl true <-> Forall (is_mounted states) wanted) /\
  (checkMountsSettled states wanted final = inl false <->
    final = false /\ Forall (fun p => ~ has_failed states p) wanted /\ ~ Forall (is_mounted states) wanted).
Proof.
  assert (forall p, is_mounted states p -> ~ has_failed states p) as Hx.
  { intros p (s & E & F) (s' & E' & F'). rewrite E in E'. injection E' as <-. by rewrite F in F'. }
  unfold checkMountsSettled. pose proof (settled_loop_spec states wanted true) as H.
  destruct (settled_loop states wanted true) as [[]|e]; cbn.
  - destruct H as [H1 H2]. split; [split; [tauto|done]|]. split; [done|tauto].
  - destruct H as [H1 H2]. assert (~ Forall (is_mounted states) wanted) as Hm by (intros ?; by assert (false = true) by tauto).
    destruct final; cbn; split; (split; [done|]); try done; by intros [].
  - apply Exists_exists in H as (p & Hp & Hf). split; (split; [done|]).
    + intros Hm. rewrite Forall_forall in Hm. by destruct (Hx p (Hm p Hp)).
    + intros (_ & Hn & _). rewrite Forall_forall in Hn. by destruct (Hn p Hp).
Qed.

Lemma S3MountsSection_settles mounts : settles_at_last (S3MountsSection mounts).
Proof. intros status H. by apply checkMountsSettled_exact in H as [? _]. Qed.

Lemma EfsVolumesSection_settles volumes : settles_at_last (EfsVolumesSection volumes).
Proof. intros status. cbn. unfold volume_status. destruct (volumes_loop _ _ _) as [[]|]; done. Qed.

Lemma ImmediateSection_settles name flag post : settles_at_last (ImmediateSection name flag post).
Proof. by intros status. Qed.

(** ** What is admitted *)

Lemma variant_of_sizes_official sizes candidate v : variant_of_sizes sizes candidate = Some v -> v ∈ OFFICIAL_IMAGE_VARIANTS.
Proof.
  induction sizes as [|s sizes IH]; cbn [variant_of_sizes]; [done|].
  destruct (ends_with _ candidate && _) eqn:E; [|exact IH]. apply andb_true_iff in E as [_ E%bool_decide_eq_true]. by intros [= <-].
Qed.

(** Only an official variant is known by the name of an image; whatever else is left to the agent. *)
Lemma resolveImageVariant_official template v : resolveImageVariant template = Some v -> v ∈ OFFICIAL_IMAGE_VARIANTS.
Proof.
  unfold resolveImageVariant. destruct template as [t|]; [|done]. destruct (bool_decide _ || _ || _); [done|].
  case_bool_decide; [by intros [= <-]|apply variant_of_sizes_official].
Qed.

Example variants : resolveImageVariant <$> [Some (txt "rayito-base-caps-4gb"); Some (txt "rayito-base-caps-efs"); Some (txt "rayito-mybuild"); None] =
  [Some (txt "base-caps"); Some (txt "base-caps-efs"); None; None].
Proof. done. Qed.

(** A bucket that may be written is one that was asked to be. *)
Lemma new_S3Mount_safe b p ro ow del m : new_S3Mount b p ro ow del = Ok m ->
  bucket m <> [] /\ starts_with [SLASH] (prefix m) = false /\ (allowOverwrite m || allowDelete m = true -> ro = Some false).
Proof.
  unfold new_S3Mount. case_bool_decide; [done|]. destruct (starts_with _ _) eqn:Hp; [done|].
  destruct (default true ro && _) eqn:Hr; [done|]. intros [= <-]. split_and!; [done..|]. cbn. intros Ha. rewrite Ha, andb_true_r in Hr.
  destruct ro as [[]|]; done.
Qed.

Lemma volume_values_spec entries vs : volume_values entries = Ok vs -> entries = prod_map id Some <$> vs.
Proof.
  revert vs. induction entries as [|[path [v|]] entries IH]; intros vs; cbn [volume_values]; [by intros [= <-]|..|done].
  destruct (volume_values entries) as [rest|]; [|done]. intros [= <-]. cbn. f_equal. by apply IH.
Qed.

(** A plan of volumes is made only of one to four volumes at paths that do not nest, for
    an image that has what mounts them (or whose name does not say), with exactly one
    connector of one's own and a role: what would fail after a machine is paid for is
    refused before. *)
Theorem planVolumes_safe (volumes : list (text * option EfsVolume)) (variant : option text) (egress : option (list text))
    (role : option text) (vs : list (text * EfsVolume)) :
  planVolumes volumes variant egress role = Ok vs ->
  volumes = prod_map id Some <$> vs /\ (1 <= length vs <= EFS_VOLUMES_MAX_PER_SANDBOX)%nat /\
  validateMountPaths vs.*1 = Ok vs.*1 /\
  (variant = None \/ variant = Some EFS_CAPS_VARIANT) /\
  (exists c, egress = Some [c] /\ last_part c <> INTERNET_EGRESS_CONNECTOR) /\ (exists r, role = Some r /\ r <> []).
Proof.
  unfold planVolumes. case_bool_decide as Hn; [done|]. destruct (Nat.ltb_spec EFS_VOLUMES_MAX_PER_SANDBOX (length volumes)) as [|Hl]; [done|].
  destruct (volume_values volumes) as [vs'|] eqn:V; [|done]. apply volume_values_spec in V. cbn.
  destruct (validateMountPaths vs'.*1) as [ps|] eqn:P; [|done]. cbn.
  assert (ps = vs'.*1) as ->.
  { unfold validateMountPaths in P. destruct (_ <? _)%nat; [done|]. destruct (validate_loop _ _) as [[]|]; cbn in P; congruence. }
  destruct (requireEfsFor variant) as [[]|] eqn:R; [|done]. cbn.
  destruct (requireVolumeConnector egress) as [[]|] eqn:C; [|done]. cbn.
  destruct role as [r|]; [|done]. case_bool_decide as Hr; [done|]. intros [= <-]. split_and!; [done| | |done| | |].
  - subst volumes. destruct vs'; [done|]. cbn. lia.
  - subst volumes. by rewrite length_fmap in Hl.
  - unfold requireEfsFor in R. destruct variant as [v|]; [|by left]. case_bool_decide; [right; congruence|done].
  - unfold requireVolumeConnector in C. destruct egress as [cs|]; [|done]. cbn [from_option id] in C. case_bool_decide as Hc; [done|].
    destruct (hasInternetConnector cs) eqn:I; [done|]. destruct (Nat.ltb_spec 1 (length cs)); [done|].
    destruct cs as [|c [|]]; cbn in *; [done| |lia]. exists c. split; [done|]. rewrite orb_false_r in I. by apply bool_decide_eq_false in I.
  - by exists r.
Qed.

Definition sample_volume : EfsVolume := {|
  fileSystemId := txt "fs-0123456789abcdef0"; accessPointId := txt "fsap-0123456789abcdef0"; name := None; region := None; v_readOnly := false;
  mountTargetIp := None |}.

Lemma planVolumes_safe_witness :
  planVolumes [(txt "/mnt/data", Some sample_volume)] (Some EFS_CAPS_VARIANT) (Some [txt "arn:c"]) (Some (txt "role")) = Ok [(txt "/mnt/data", sample_volume)] /\
  exists c, Some [txt "arn:c"] = Some [c] /\ last_part c <> INTERNET_EGRESS_CONNECTOR.
Proof.
  split; [done|].
  apply (planVolumes_safe [(txt "/mnt/data", Some sample_volume)] (Some EFS_CAPS_VARIANT) (Some [txt "arn:c"]) (Some (txt "role"))
    [(txt "/mnt/data", sample_volume)]). done.
Defined.
