(* ===== verification/Sandbox.v ===== *)
(** * Sandbox: the life of a sandbox, from [create()] to [kill()]

    src/clients/typescript/src/sandbox/sandbox.ts: [create()] with all that it does after a
    machine is launched and what it gives back when it fails, [connect()], [pause()],
    [resume()], [kill()], [getInfo()], [setTimeout()] and [reincarnate()], over the handle and
    the awaits of Readiness.v and the requests of Calls.v; [plannedSections] of
    feature-options.ts.  The steps of [create()] that other files model, or that call other
    parts of the SDK, are awaits [Ask] that the environment answers. *)

From stdpp Require Import base option list strings sets.
From Stdlib Require Import NArith ZArith QArith Qround Lia.
From S2P Require Import Prelude Text Limits RpcErrors Readiness Reconnect Calls Configure.
From S2P Require Lifecycle Network Persistence.

Local Open Scope world_scope.

Definition STATE_POLL_INTERVAL_MS : Q := 500.

(** What [create()] asks for on its way. *)
Definition RUN_MICROVM : text := txt "run-microvm".
Definition PUT_ROW : text := txt "index.put".
Definition MINT : text := txt "refresher.mint".
Definition RESUME_MICROVM : text := txt "resume-microvm".
Definition TAKE : text := txt "pool.take".
Definition FILL : text := txt "section.fill".
Definition BUILD : text := txt "factory.build".
Definition CONFIGURE : text := txt "configure".
Definition RESTORE : text := txt "restore".
Definition CHECKPOINT : text := txt "checkpoint".
Definition KILL_PREDECESSOR : text := txt "kill predecessor".

Definition needsExplicitResume (i : SandboxInfo) : bool := bool_decide (state i = "SUSPENDED") && negb (auto_resumes i).

(** [terminalStateError(info)]. *)
Definition terminalStateError : thrown := err SandboxNotFoundError.

Definition set_core (c : Core) : M unit := update (fun _ => c).

(** A new [SandboxCore]. *)
Definition core_of (i : SandboxInfo) : Core := {|
  info := i; closed := false; resumeGeneration := 0; paused := false; lifecycle := None; guestFacts := UNKNOWN_GUEST_FACTS;
  metadata := None; agentFeatures := None; notices := 0; trigger := None; deadlineFiring := false; deadlinePauseGeneration := None; reopens := 0 |}.

Definition of_result {A} (r : result A) : M A := match r with Ok a => ret a | Throw c => throw (err c) end.

(** [try { m } finally { f }], where [f] does not await. *)
Definition finally {A} (m : M A) (f : M unit) : M A := fun w => let (r, w') := m w in match f w' with (inl _, w'') => (r, w'') | (inr e, w'') => (inr e, w'') end.

(** ** What [create()] is given *)

Record LaunchFacts := { f_sandboxId : text; guestMemoryBytes : Z }.

(** [FeaturePlan], once [prepareFeatures] has run: the sections that are planned, and those
    that need what only the launch knows. *)
Record FeaturePlan := {
  configureSections : list PlannedSection;
  telemetry : option (LaunchFacts -> PlannedSection);
  events : option (LaunchFacts -> PlannedSection)
}.

Definition plannedSections (plan : FeaturePlan) (facts : LaunchFacts) : list PlannedSection :=
  configureSections plan ++ option_list ((fun f => f facts) <$> telemetry plan) ++ option_list ((fun f => f facts) <$> events plan).

Inductive WriteFailurePolicy := TerminateOnFailure | WarnOnFailure.

Record CreateOptions := {
  o_network : Network.nval;
  o_allowInternetAccess : Network.nval;
  o_persist : option Persistence.S3Prefix;
  o_persistTimeoutMs : option jsnum;
  o_executionRoleArn : option text;
  o_index : option WriteFailurePolicy;
  o_pool : bool;
  o_keepOnFailure : bool;
  o_readyTimeoutMs : Q;
  o_lifecycleRequested : bool;
  o_features : FeaturePlan
}.

(** What [create()] returns: a machine it launched, with what was restored, or a slot of the pool. *)
Inductive handle :=
  | Launched (id : text) (health : SandboxHealth) (bound : option Persistence.S3Prefix) (restored : option Persistence.Result)
  | Taken.

Record OpenOptions := { op_readyTimeoutMs : Q; terminateOnFailure : bool; op_readiness : timing; requireLifecycle : bool }.

Definition sections_flag (features : option AgentFeatures) : bool :=
  match features with Some f => configure f && secretGateway f | None => false end.

Section Sandbox.
Context (env : nat -> moment).
(** What the answers say, by the await they answer. *)
Context (launched : moment -> text * SandboxInfo) (network_of : Network.NetworkPolicyMessage -> moment -> Network.NetworkStateMessage).
Context (configure_of : moment -> ConfigureResponse) (status_of : moment -> ConfigureStatusResponse) (terminated_of : moment -> bool).
Context (restore_of : moment -> Persistence.RestoreRequest -> Q -> option Persistence.event * Persistence.stream + thrown).
Context (checkpoint_of : moment -> Persistence.CheckpointRequest -> Q -> option Persistence.event * Persistence.stream + thrown).
Context (isIP : text -> N).
(** The reason of the caller's signal, should it be aborted. *)
Context (reason : thrown).
(** The fuel and the timeouts of the requests. *)
Context (fuel : nat) (reconnectTimeoutMs : Q) (requestTimeoutMs : Z).

(** A call that answers or fails. *)
Definition ask (race : bool) (what : text) : M moment := fun w =>
  (let* m := await env race (Ask what (failure_of (env (used w)))) in
   match failure_of m with None => ret m | Some e => throw e end) w.

(** [try { m } catch (error) { handler; throw error }]: an aborted wait throws the reason of the signal. *)
Definition on_failure {A} (m : M A) (handler : thrown -> M unit) : M A := fun w =>
  match m w with
  | (inr (Throws e), w') => (handler e ;; throw e) w'
  | (inr AbortedBySignal, w') => (handler reason ;; throw reason) w'
  | r => r
  end.

Definition now_unix : M Z := fun w => (inl (wallMs (env (used w))), w).

Definition terminateQuietly : M unit := catch (fallible env Terminate false) (fun _ => ret tt).

Definition cleanup (terminate : bool) : M unit := update close ;; if terminate then terminateQuietly else ret tt.

(** ** [waitForState] *)

Definition state_turn (wanted : string) (deadline : Q) (_ : unit) : M (SandboxInfo + unit) :=
  let* i := getMicrovm env in
  if bool_decide (state i = wanted) then ret (inl i)
  else if bool_decide (state i ∈ TERMINAL_STATES) then throw terminalStateError
  else
    let* w := get in
    if Qle_bool deadline (now w) then throw (err TimeoutError)
    else await env false (Sleep STATE_POLL_INTERVAL_MS) ;; ret (inr tt).

(** The turns of the loop within a timeout. *)
Definition state_turns (timeoutMs : Q) : nat := S (S (Z.to_nat (Qceiling (timeoutMs / STATE_POLL_INTERVAL_MS)))).

Definition waitForState (wanted : string) (timeoutMs : Q) : M SandboxInfo := fun w =>
  within (state_turn wanted (now w + timeoutMs)) (state_turns timeoutMs) tt w.

(** ** Opening a handle *)

Definition wait_ready (terminate : bool) (readiness : timing) (timeoutMs : Q) : M HealthResponse := fun w =>
  match waitUntilReady env (turns_within readiness timeoutMs) terminate readiness timeoutMs w with
  | Some r => r
  | None => (inr OutOfFuel, w)
  end.

(** The [try] of [#open]: a token, a core, and the wait for readiness. *)
Definition open_body (i : SandboxInfo) (o : OpenOptions) : M SandboxHealth :=
  ask true MINT ;;
  set_core (core_of i) ;;
  let* ready := wait_ready (terminateOnFailure o) (op_readiness o) (op_readyTimeoutMs o) in
  let health := healthFromProto ready in
  if requireLifecycle o && bool_decide (sh_lifecycle health = None) then throw (err LifecycleUnsupportedError) else ret health.

(** [Sandbox.#open(info, options)].  Before there is a core, [close] closes nobody's. *)
Definition open (i : SandboxInfo) (o : OpenOptions) : M SandboxHealth :=
  on_failure (open_body i o) (fun e => cleanup (terminateOnFailure o && negb (is_class SandboxNotReadyError e))).

(** ** The index *)

Definition writeIndexRecord (policy : WriteFailurePolicy) (keepOnFailure : bool) : M unit :=
  catch (ask false PUT_ROW ;; ret tt) (fun e =>
    match policy with
    | WarnOnFailure => ret tt
    | TerminateOnFailure =>
        (if keepOnFailure then ret tt else terminateQuietly) ;;
        throw (if is_class IndexWriteError e then e else OwnError IndexWriteError None None false (Some e))
    end).

(** ** The network policy *)

Definition throwUnlessEnforced (e : Network.EgressEnforcement) (f : Network.feature) : M unit :=
  match Network.egressGateError e f with Some (c, _) => throw (err c) | None => ret tt end.

Definition sendNetworkPolicy (policy : Network.ResolvedNetworkPolicy) (signal : option thrown) : M Network.NetworkState :=
  throwIfAborted signal ;;
  let* r := signalledUnary env fuel reconnectTimeoutMs requestTimeoutMs
              (let* m := request env in ret (network_of (Network.policyToProto policy) m)) signal Network.networkRpcError in
  ret (Network.stateFromProto r).

Definition applyInitialNetwork (health : SandboxHealth) (policy : Network.ResolvedNetworkPolicy) (f : Network.feature) : M unit :=
  on_failure
    (throwUnlessEnforced (sh_egressEnforcement health) f ;;
     let* state := sendNetworkPolicy policy None in
     throwUnlessEnforced (Network.enforcement state) f)
    (fun _ => cleanup true).

(** ** [ConfigureSandbox] *)

(** [#configureStatus(timeoutMs, signal)]: the signal goes to the options of the call, not to [translatedUnary]. *)
Definition configureStatus : M ConfigureStatusResponse :=
  translatedUnary env fuel reconnectTimeoutMs requestTimeoutMs (let* m := request env in ret (status_of m)) false None.

Definition configure_call : M ConfigureResponse :=
  translatedUnary env fuel reconnectTimeoutMs requestTimeoutMs (let* m := request env in ret (configure_of m)) false None.

(** A turn of [#waitSettled]: the sections that remain. *)
Definition settle_turn (deadline : Z) (remaining : list ConfigureSection) : M (unit + list ConfigureSection) :=
  if bool_decide (remaining = []) then ret (inl tt)
  else
    let* n := now_unix in
    let final := (deadline <=? n)%Z in
    let* status := configureStatus in
    let* rest := of_sum (stillPending status remaining final) in
    (if bool_decide (rest = []) then ret tt else await env false (Sleep (inject_Z CONFIGURE_SETTLE_POLL_MS)) ;; ret tt) ;;
    ret (inr rest).

Definition waitSettled (turns : nat) (pending : list ConfigureSection) : M unit :=
  let* n := now_unix in within (settle_turn (n + settle_timeout pending)) turns pending.

(** [buildConfigureRequest]: one [fill] after the other. *)
Fixpoint fill_all (sections : list ConfigureSection) : M unit :=
  match sections with [] => ret tt | _ :: sections => ask false FILL ;; fill_all sections end.

(** [#configureSections]; [turns] is the fuel of the wait. *)
Definition configure_sections (turns : nat) (sections : list ConfigureSection) : M unit :=
  fill_all sections ;;
  let* response := configure_call in
  let* pending := of_sum (checkConfigureResponse response sections) in
  waitSettled turns pending.

(** [resolveSections]: the builds that are under way together, in the order of their results. *)
Fixpoint resolveSections (planned : list PlannedSection) : M (list ConfigureSection) :=
  match planned with
  | [] => ret []
  | Ready s :: planned => let* rest := resolveSections planned in ret (s :: rest)
  | Factory build :: planned =>
      let* m := ask false BUILD in
      let* s := of_sum (build m) in
      let* rest := resolveSections planned in ret (s :: rest)
  end.

Definition sendConfigureSections (turns : nat) (planned : list PlannedSection) : M unit :=
  let* w := get in
  let* features := of_result (requireConfigureSupport (agentFeatures (core w))) in
  let* sections := resolveSections planned in
  match requireCapabilities sections features with Some e => throw e | None => ret tt end ;;
  configure_sections turns sections ;;
  if existsb afterApply sections then configureStatus ;; ret tt else ret tt.

Definition applyConfigureSections (turns : nat) (planned : list PlannedSection) (terminate : bool) : M unit :=
  if bool_decide (length planned = 0%nat) then ret tt
  else on_failure (sendConfigureSections turns planned) (fun _ => cleanup terminate).

(** ** [create()] *)

Definition quiet_progress (_ : Persistence.Progress) : option thrown := None.

(** [restoreFiles({ timeoutMs })] over the prefix that is bound. *)
Definition restoreFiles (bound : Persistence.S3Prefix) (timeoutMs : Q) : M Persistence.Result :=
  let* m := await env false (Ask RESTORE None) in
  of_sum (Persistence.restore (restore_of m) (Some bound) None (Some (Finite timeoutMs)) None quiet_progress).1.

(** [#bindAndRestore]: the prefix that is bound, and what was restored. *)
Definition bindAndRestore (persist : Persistence.S3Prefix) (timeoutMs : Q) (terminate : bool) (id : text)
    : M (Persistence.S3Prefix * option Persistence.Result) :=
  let* bound := of_result (Persistence.bindPersist persist id) in
  if negb (Persistence.shouldAutoRestore persist) then ret (bound, None)
  else
    on_failure
      (catch (let* r := restoreFiles bound timeoutMs in ret (bound, Some r))
             (fun e => if is_class NotFoundError e then ret (bound, None) else throw e))
      (fun _ => cleanup terminate).

(** What [create()] does with the machine it has launched. *)
Definition set_up (turns : nat) (o : CreateOptions) (network : Network.ResolvedNetworkPolicy) (f : Network.feature) (id : text) (i : SandboxInfo)
    : M (text * SandboxHealth) :=
  let keep := o_keepOnFailure o in
  match o_index o with Some policy => writeIndexRecord policy keep | None => ret tt end ;;
  let* health := open i {| op_readyTimeoutMs := o_readyTimeoutMs o; terminateOnFailure := negb keep; op_readiness := ReadinessPoll;
                           requireLifecycle := o_lifecycleRequested o |} in
  (if Network.requiresEnforcement network then applyInitialNetwork health network f else ret tt) ;;
  applyConfigureSections turns (plannedSections (o_features o) {| f_sandboxId := id; guestMemoryBytes := sh_memoryTotalBytes health |}) (negb keep) ;;
  ret (id, health).

(** The span of [create()]: the launch, and what follows it. *)
Definition launch (turns : nat) (o : CreateOptions) (network : Network.ResolvedNetworkPolicy) (f : Network.feature) : M (text * SandboxHealth) :=
  let* m := ask false RUN_MICROVM in
  let (id, i) := launched m in
  set_up turns o network f id i.

(** The steps before the launch that other files model or that call other parts of the
    SDK, in the order of the code. *)
Definition step (what : string) : M unit := ask false (txt what) ;; ret tt.

Definition prepare_network (o : CreateOptions) : M Network.ResolvedNetworkPolicy :=
  let* network := of_result (Network.resolveNetwork (o_network o) (o_allowInternetAccess o)) in
  of_result (Network.validatePolicyShape isIP network) ;;
  ret network.

Definition prepare_launch (o : CreateOptions) : M unit :=
  match o_index o with Some _ => step "index.prepare" | None => ret tt end ;;
  step "planSize" ;; step "planFeatures" ;; step "resolveControlPlane" ;; step "prepareFeatures" ;; step "warm" ;;
  step "sizedTemplateName" ;; ask true (txt "resolveTemplateArn") ;; step "buildLaunchPlan" ;;
  throwIfAborted (Some reason).

Definition take_slot (o : CreateOptions) (network : Network.ResolvedNetworkPolicy) : M handle :=
  (if bool_decide (is_Some (o_index o)) then throw (err InvalidArgumentError) else ret tt) ;;
  (if bool_decide (is_Some (o_persist o)) then throw (err InvalidArgumentError) else ret tt) ;;
  of_result (Network.rejectNetworkWithPool network) ;;
  step "rejectLaunchOptionsWithPool" ;;
  ask false TAKE ;; ret Taken.

Definition allow_flag (v : Network.nval) : option bool := match v with Network.NBool b => Some b | _ => None end.

(** [Sandbox.create(options)]; [turns] is the fuel of the wait for the sections. *)
Definition create (turns : nat) (o : CreateOptions) : M handle :=
  throwIfAborted (Some reason) ;;
  step "callMetadataProvidersFor" ;; step "bindSecrets" ;; step "resolveTransportSettings" ;;
  of_result (Persistence.requireRoleForPersist (o_persist o) (o_executionRoleArn o)) ;;
  step "resolveS3Staging" ;;
  let* network := prepare_network o in
  step "validateIndex" ;;
  if o_pool o then take_slot o network
  else
    prepare_launch o ;;
    let* launched := launch turns o network (Network.egressFeature network (allow_flag (o_allowInternetAccess o))) in
    match o_persist o with
    | None => ret (Launched launched.1 launched.2 None None)
    | Some persist =>
        let* ms := of_result (Persistence.validatePersistTimeoutMs (o_persistTimeoutMs o)) in
        let* restored := bindAndRestore persist ms (negb (o_keepOnFailure o)) launched.1 in
        ret (Launched launched.1 launched.2 (Some restored.1) restored.2)
    end.

(** ** [connect()] *)

Definition sendSetTimeout (timeoutMs : Z) (signal : option thrown) : M unit :=
  let* state := signalledUnary env fuel reconnectTimeoutMs requestTimeoutMs (setTimeout env timeoutMs) signal
                  (fun e => (translateSetTimeoutError e).1) in
  let* n := now_unix in
  update (fun c => recordLifecycle c (Lifecycle.lifecycleFromProto (Some state)) n).

Definition extendAfterReadiness (requestedMs : jsval) (signal : option thrown) : M unit :=
  let* w := get in
  let* n := now_unix in
  let* timeoutMs := of_result (Lifecycle.connectExtension (lifecycle (core w)) requestedMs n) in
  match timeoutMs with Some ms => sendSetTimeout ms signal | None => ret tt end.

(** [#recoverGateways], of a handle that owns its gateways or not. *)
Definition recoverGateways (owns : bool) : M unit :=
  let* w := get in
  if owns || negb (sections_flag (agentFeatures (core w))) then ret tt
  else catch (configureStatus ;; ret tt) (fun e => if is_class AuthenticationError e then ret tt else throw e).

Definition getMicrovm_racing : M SandboxInfo := let* m := await env true GetMicrovm in of_sum (microvm_answer m).

(** The part of [Sandbox.connect(id, options)] from [get-microvm] on. *)
Definition connect (readyTimeoutMs : Q) (requestedMs : jsval) : M SandboxHealth :=
  let* i := getMicrovm_racing in
  (if bool_decide (state i ∈ TERMINAL_STATES) then throw terminalStateError else ret tt) ;;
  (if needsExplicitResume i then ask true RESUME_MICROVM ;; ret tt else ret tt) ;;
  let* health := open i {| op_readyTimeoutMs := readyTimeoutMs; terminateOnFailure := false; op_readiness := ReadinessPoll; requireLifecycle := false |} in
  on_failure (extendAfterReadiness requestedMs (Some reason) ;; recoverGateways false) (fun _ => cleanup false) ;;
  ret health.

(** [connect()] of a handle, from [get-microvm] on. *)
Definition reconnect_handle (owns : bool) (readyTimeoutMs : Q) (requestedMs : jsval) : M unit :=
  let* i := getMicrovm_racing in
  (if bool_decide (state i ∈ TERMINAL_STATES) then throw terminalStateError else ret tt) ;;
  update (fun c => set_paused (set_info c i) false) ;;
  (if needsExplicitResume i then ask true RESUME_MICROVM ;; fallible env RefreshTokens true else ret tt) ;;
  wait_ready false ReadinessPoll readyTimeoutMs ;;
  extendAfterReadiness requestedMs (Some reason) ;;
  recoverGateways owns.

(** ** [pause()], [resume()], [kill()] and the rest *)

(** [Sandbox.pause(id, options)]. *)
Definition pause_static (wait : bool) (readyTimeoutMs : Q) : M bool :=
  let* i := getMicrovm env in
  if alreadySuspended i then ret false
  else
    let* suspended := suspendMicrovm env in
    (if suspended && wait then waitForState "SUSPENDED" readyTimeoutMs ;; ret tt else ret tt) ;;
    ret suspended.

Definition resume_static (wait : bool) (readyTimeoutMs : Q) : M unit :=
  ask false RESUME_MICROVM ;;
  if wait then waitForState "RUNNING" readyTimeoutMs ;; ret tt else ret tt.

Definition pause (wait : bool) (readyTimeoutMs : Q) : M bool :=
  let* i := getMicrovm env in
  update (fun c => set_info c i) ;;
  if alreadySuspended i then ret false
  else
    let* suspended := suspendMarkingPaused env in
    (if suspended && wait
     then let* i := waitForState "SUSPENDED" readyTimeoutMs in update (fun c => set_info c i)
     else ret tt) ;;
    ret suspended.

Definition resume (wait : bool) (readyTimeoutMs : Q) : M unit :=
  update (fun c => set_paused c false) ;;
  ask false RESUME_MICROVM ;;
  fallible env RefreshTokens false ;;
  if wait then wait_ready false ReadinessPoll readyTimeoutMs ;; extendAfterReadiness JUndefined None else ret tt.

Definition kill : M bool :=
  finally (let* m := await env false Terminate in match failure_of m with None => ret (terminated_of m) | Some e => throw e end)
          (update close).

Definition refreshHealth : M unit :=
  let* r := probeHealth env false (Z.min (Qceiling (maxRpcTimeoutMs ReadinessPoll)) requestTimeoutMs) in
  match r with Some r => record_health_now env r | None => ret tt end.

(** [getInfo()] of a handle, as far as it asks and records. *)
Definition getInfo : M SandboxInfo :=
  let* i := getMicrovm env in
  let* w := get in
  (if Lifecycle.deadlineMayHaveMoved (state i) (lifecycle (core w)) then refreshHealth else ret tt) ;;
  update (fun c => set_info c i) ;;
  ret i.

Definition isRunning : M bool :=
  let* r := probeHealth env true (Z.min (Qceiling (maxRpcTimeoutMs ReadinessPoll)) requestTimeoutMs) in
  ret (match r with Some r => agentReady r | None => false end).

(** [setTimeout(timeoutMs)] of a handle. *)
Definition set_timeout (timeoutMs : jsval) (signal : option thrown) : M unit :=
  let* validated := of_result (Lifecycle.validateSetTimeoutMs timeoutMs) in sendSetTimeout validated signal.

(** [Sandbox.setTimeout(id, timeoutMs)], from its validation on. *)
Definition set_timeout_static (timeoutMs : jsval) : M unit :=
  let* validated := of_result (Lifecycle.validateSetTimeoutMs timeoutMs) in
  let* i := getMicrovm_racing in
  (if bool_decide (state i ∈ TERMINAL_STATES) then throw terminalStateError else ret tt) ;;
  (if bool_decide (state i ∈ SUSPENDED_STATES) then throw (err SandboxStateError) else ret tt) ;;
  ask true MINT ;;
  set_core (core_of i) ;;
  finally
    (catch (callUnaryOnce env true None (setTimeout env validated) ;; ret tt)
           (fun e => let* w := get in throw (abortReasonOr (Some reason) w (translateSetTimeoutError e).1)))
    (update close).

(** [Sandbox.updateNetwork(id, network, options)]. *)
Definition update_network_static (network allow : Network.nval) (readyTimeoutMs : Q) (requestedMs : jsval) : M Network.NetworkState :=
  let* policy := of_result (Network.resolveNetwork network allow) in
  of_result (Network.validatePolicyShape isIP policy) ;;
  connect readyTimeoutMs requestedMs ;;
  finally (sendNetworkPolicy policy (Some reason)) (update close).

(** ** [reincarnate()] *)

(** [checkpointFiles({ timeoutMs })], without patterns to exclude. *)
Definition checkpointFiles (bound : Persistence.S3Prefix) (timeoutMs : Q) : M Persistence.Result :=
  let* m := await env false (Ask CHECKPOINT None) in
  of_sum (Persistence.checkpoint (checkpoint_of m) (Some bound) None [] (Some (Finite timeoutMs)) None quiet_progress).1.

Definition with_persist (o : CreateOptions) (p : Persistence.S3Prefix) (ms : Q) : CreateOptions := {|
  o_network := o_network o; o_allowInternetAccess := o_allowInternetAccess o; o_persist := Some p; o_persistTimeoutMs := Some (Finite ms);
  o_executionRoleArn := o_executionRoleArn o; o_index := o_index o; o_pool := false; o_keepOnFailure := o_keepOnFailure o;
  o_readyTimeoutMs := o_readyTimeoutMs o; o_lifecycleRequested := o_lifecycleRequested o; o_features := o_features o |}.

(** [reincarnate(options)] of a handle whose [create()] was given [relaunch] ([None]: it did
    not come from [create()]) and whose prefix is [bound]; the machine it is about is the
    predecessor of the one that is launched.  The code gives the successor the network it
    had resolved, which resolving the same options again gives here. *)
Definition reincarnate (turns : nat) (relaunch : option CreateOptions) (bound : option Persistence.S3Prefix) (timeoutMs : option jsnum) : M handle :=
  match relaunch, bound with
  | None, _ => throw (err InvalidArgumentError)
  | _, None => throw (err InvalidArgumentError)
  | Some o, Some p =>
      let* ms := of_result (Persistence.validatePersistTimeoutMs timeoutMs) in
      checkpointFiles p ms ;;
      let* successor := create turns (with_persist o p ms) in
      catch (ask false KILL_PREDECESSOR ;; ret tt) (fun e => if is_class SandboxNotFoundError e then ret tt else throw e) ;;
      ret successor
  end.
End Sandbox.

(** ** What operations leave as it was *)

Definition is_launch (a : action) : bool :=
  match a with Ask what None => bool_decide (what = RUN_MICROVM) | _ => false end.

Section Tame.
Context (env : nat -> moment) (R : relation world) `{!PreOrder R}.

(** [R] is kept by whatever neither launches nor terminates a machine. *)
Record tame : Prop := {
  tame_await : forall race a, is_terminate a = false -> is_launch a = false -> leaves R (await env race a);
  tame_update : forall g, leaves R (update g)
}.

Context (HR : tame).

Lemma tame_harmless : harmless env R.
Proof.
  split; [intros a race Ha; apply tame_await; [done|by destruct a..]|intros i; by apply tame_update|].
  intros r w. by apply tame_update.
Qed.

Lemma tame_quiet race a : Is_true (negb (is_terminate a || is_launch a)) -> leaves R (await env race a).
Proof. intros Ha%Is_true_true%negb_true_iff%orb_false_iff. by apply tame_await; destruct Ha. Qed.
#[local] Hint Extern 0 (leaves _ (await _ _ _)) => apply tame_quiet; exact I : leaves.
#[local] Hint Extern 0 (leaves _ (update _)) => apply (tame_update HR) : leaves.

Lemma tame_ask race what : what <> RUN_MICROVM -> leaves R (ask env race what).
Proof.
  intros Hw w. unfold ask. generalize (failure_of (env (used w))). intros failure.
  assert (leaves R (await env race (Ask what failure))) as Ha by (apply tame_await; [done..|]; destruct failure; [done|]; cbn; by apply bool_decide_eq_false).
  assert (leaves R (let* m := await env race (Ask what failure) in match failure_of m with None => ret m | Some e => throw e end)) as H by follow.
  apply H.
Qed.

Lemma tame_now : leaves R (now_unix env).
Proof. by intros w. Qed.

Lemma tame_of_result {A} (r : result A) : leaves R (of_result r).
Proof. by destruct r; intros w. Qed.

Lemma tame_throwIfAborted signal : leaves R (throwIfAborted signal).
Proof. intros w. unfold throwIfAborted. by destruct (aborted signal w). Qed.

Lemma tame_request : leaves R (request env).
Proof.
  intros w. unfold request.
  assert (leaves R (let* m := await env false (Call (call_answer (env (used w)))) in match call_answer m with None => ret m | Some e => throw e end)) as H by follow.
  apply H.
Qed.
#[local] Hint Resolve tame_now tame_of_result tame_throwIfAborted tame_request : leaves.

Lemma tame_finally {A} (m : M A) f : leaves R m -> leaves R f -> leaves R (finally m f).
Proof.
  intros Hm Hf w. unfold finally. specialize (Hm w). destruct (m w) as [r w1]. specialize (Hf w1). cbn in *.
  destruct (f w1) as [[a|e] w2]; cbn in *; by etrans.
Qed.

Context (reason : thrown).

Lemma tame_on_failure {A} (m : M A) h : leaves R m -> (forall e, leaves R (h e)) -> leaves R (on_failure reason m h).
Proof.
  intros Hm Hh w. unfold on_failure. specialize (Hm w).
  assert (forall e, leaves R (h e ;; throw e : M A)) as Ht by (intros e; specialize (Hh e); follow).
  destruct (m w) as [[a|[e| |]] w1]; cbn in *; [done|etrans; [exact Hm|apply Ht]..|done].
Qed.

Context (fuel : nat) (reconnectTimeoutMs : Q) (requestTimeoutMs : Z).

Lemma tame_signalledUnary {A} (call : M A) signal translate :
  leaves R call -> leaves R (signalledUnary env fuel reconnectTimeoutMs requestTimeoutMs call signal translate).
Proof.
  intros Hc. pose proof tame_harmless as Hh.
  assert (forall t, leaves R (callUnary_no_reopen env fuel reconnectTimeoutMs (setTimeout env t))) as Hs.
  { intros t. apply leaves_callUnary_no_reopen; [exact _|done|]. unfold setTimeout. follow. }
  assert (forall e n, leaves R (reopenedAfterDeadlinePause env fuel reconnectTimeoutMs requestTimeoutMs e n)) as Hr.
  { intros e n. pose proof (leaves_probeHealth env _ Hh). pose proof (on_health _ _ Hh).
    unfold reopenedAfterDeadlinePause, reopenAfterDeadlinePause, reopen_rest. follow. }
  pose proof (leaves_callUnaryOnce env R Hh call true None Hc). pose proof (leaves_reconnect env R Hh).
  assert (leaves R (retried env None call)) by (apply leaves_retried; [exact _|done|intros; follow]).
  unfold signalledUnary, callUnary, callUnary_with, after_cut. follow.
Qed.

Context (network_of : Network.NetworkPolicyMessage -> moment -> Network.NetworkStateMessage)
  (configure_of : moment -> ConfigureResponse) (status_of : moment -> ConfigureStatusResponse).

Lemma tame_configureStatus : leaves R (configureStatus env status_of fuel reconnectTimeoutMs requestTimeoutMs).
Proof. apply tame_signalledUnary. follow. Qed.

Lemma tame_configure_call : leaves R (configure_call env configure_of fuel reconnectTimeoutMs requestTimeoutMs).
Proof. apply tame_signalledUnary. follow. Qed.

Lemma tame_sendNetworkPolicy policy signal :
  leaves R (sendNetworkPolicy env network_of fuel reconnectTimeoutMs requestTimeoutMs policy signal).
Proof.
  unfold sendNetworkPolicy. apply leaves_bind; [exact _|follow|intros _].
  apply leaves_bind; [exact _|apply tame_signalledUnary; follow|intros r; follow].
Qed.

Lemma tame_throwUnlessEnforced e f : leaves R (throwUnlessEnforced e f).
Proof. unfold throwUnlessEnforced. destruct (Network.egressGateError e f) as [[c f']|]; follow. Qed.
#[local] Hint Resolve tame_configureStatus tame_configure_call tame_sendNetworkPolicy tame_throwUnlessEnforced : leaves.

Lemma tame_waitSettled turns pending : leaves R (waitSettled env status_of fuel reconnectTimeoutMs requestTimeoutMs turns pending).
Proof. unfold waitSettled, settle_turn. follow. Qed.

Lemma tame_fill sections : leaves R (fill_all env sections).
Proof. induction sections; cbn [fill_all]; [follow|]. pose proof (tame_ask false FILL ltac:(done)). follow. Qed.

Lemma tame_resolveSections planned : leaves R (resolveSections env planned).
Proof. induction planned as [|[s|b] planned IH]; cbn [resolveSections]; [follow..|]. pose proof (tame_ask false BUILD ltac:(done)). follow. Qed.
#[local] Hint Resolve tame_waitSettled tame_fill tame_resolveSections : leaves.

Lemma tame_sendConfigureSections turns planned :
  leaves R (sendConfigureSections env configure_of status_of fuel reconnectTimeoutMs requestTimeoutMs turns planned).
Proof. unfold sendConfigureSections, configure_sections. follow. Qed.

Lemma tame_probeHealth race t : leaves R (probeHealth env race t).
Proof. apply leaves_probeHealth; [exact _|apply tame_harmless]. Qed.
Lemma tame_getMicrovm : leaves R (getMicrovm env).
Proof. unfold getMicrovm. follow. Qed.
Lemma tame_health r : leaves R (record_health_now env r).
Proof. intros w. by apply (tame_update HR). Qed.
#[local] Hint Resolve tame_probeHealth tame_getMicrovm tame_health : leaves.

Lemma tame_check_signal : leaves R check_signal.
Proof. intros w. unfold check_signal. by destruct (signalled w). Qed.
#[local] Hint Resolve tame_check_signal : leaves.

Lemma tame_wait_ready (terminate : bool) t ms :
  (terminate = true -> leaves R (fallible env Terminate false)) -> leaves R (wait_ready env terminate t ms).
Proof.
  intros HT w. change (wait_ready env terminate t ms w) with (within (ready_turn env terminate) (turns_within t ms) (new_poll t ms (now w)) w).
  assert (forall i, leaves R (if terminate && negb i then fallible env Terminate false else ret tt)) as Hn.
  { intros i. destruct terminate; [|follow]. specialize (HT eq_refl). destruct i; cbn [andb negb]; follow. }
  assert (forall p, leaves R (ready_turn env terminate p)) as Ht.
  { intros p. unfold ready_turn, ready_rest, failIfTerminal, notReady. follow. }
  by apply leaves_within.
Qed.

Lemma tame_waitForState wanted ms : leaves R (waitForState env wanted ms).
Proof.
  intros w. unfold waitForState.
  assert (forall d u, leaves R (state_turn env wanted d u)) as Ht by (intros d u; unfold state_turn; follow).
  by apply leaves_within.
Qed.
End Tame.
