(* ===== verification/SandboxSafety.v ===== *)
(** * SandboxSafety: what a sandbox that fails to start leaves behind

    On Sandbox.v: [create()] leaves no machine that nobody has; and the runs of [create()]
    and [reincarnate()] that go wrong. *)

From stdpp Require Import base option list strings sets.
From Stdlib Require Import NArith ZArith QArith Qround Lia Lqa.
From S2P Require Import Prelude Text Limits RpcErrors Readiness Reconnect Calls Configure Sandbox.
From S2P Require Lifecycle Network Persistence.

Local Open Scope world_scope.

(** ** A machine that is gone *)

(** The awaits of [w] are among those of [w']. *)
Definition later (w w' : world) : Prop := (used w <= used w')%nat.

#[export] Instance later_preorder : PreOrder later.
Proof. split; [by intros w; unfold later|]. intros w1 w2 w3. unfold later. lia. Qed.

Lemma later_await env race a : leaves later (await env race a).
Proof. intros w. unfold await, later. destruct (race && signalled w); [done|]. destruct (race && aborts _); cbn; lia. Qed.

Lemma later_tame env : tame env later.
Proof. split; [intros; apply later_await|by intros g w; unfold later]. Qed.

Lemma same_tame env f : (forall a, is_terminate a = false -> is_launch a = false -> f a = false) -> tame env (same f).
Proof. intros Hf. split; [intros race a H1 H2; apply same_await, Hf; done|intros g; apply same_update]. Qed.

Lemma terminate_tame env : tame env (same is_terminate).
Proof. by apply same_tame. Qed.

Lemma launch_tame env : tame env (same is_launch).
Proof. by apply same_tame. Qed.

Section Gone.
Context (env : nat -> moment).

(** Between [w] and [w'] the machine was asked to be terminated, or the control plane said
    that it already was. *)
Definition saw_terminal (w w' : world) : Prop :=
  exists k i, (used w <= k < used w')%nat /\ microvm_answer (env k) = inl i /\ state i ∈ TERMINAL_STATES.
Definition gone (w w' : world) : Prop := (count is_terminate w < count is_terminate w')%nat \/ saw_terminal w w'.

(** What no operation takes back. *)
Definition ahead (w w' : world) : Prop := later w w' /\ (count is_terminate w <= count is_terminate w')%nat.

#[export] Instance ahead_preorder : PreOrder ahead.
Proof.
  split; [intros w; unfold ahead, later; lia|]. intros w1 w2 w3. unfold ahead, later. lia.
Qed.

Lemma ahead_tame : tame env ahead.
Proof.
  split.
  - intros race a H1 H2 w. split; [apply later_await|]. by rewrite (tame_await _ _ (terminate_tame env) race a H1 H2 w).
  - intros g w. split; [by unfold later|done].
Qed.

Lemma gone_after w w1 w' : gone w w1 -> ahead w1 w' -> gone w w'.
Proof.
  intros [H|(k & i & Hk & E & Hi)] [Hl Ht]; unfold later in *; [left; lia|]. right. exists k, i. split_and!; [lia..|done|done].
Qed.

Lemma gone_before w w1 w' : ahead w w1 -> gone w1 w' -> gone w w'.
Proof.
  intros [Hl Ht] [H|(k & i & Hk & E & Hi)]; unfold later in *; [left; lia|]. right. exists k, i. split_and!; [lia..|done|done].
Qed.

Lemma await_plain_terminate w : count is_terminate (await env false Terminate w).2 = S (count is_terminate w).
Proof. done. Qed.

Lemma fallible_terminate w : count is_terminate (fallible env Terminate false w).2 = S (count is_terminate w) /\ later w (fallible env Terminate false w).2.
Proof.
  unfold fallible, bind, await. cbn [andb]. cbn. destruct (failure_of (env (used w))); cbn; (split; [done|unfold later; cbn; lia]).
Qed.

Lemma terminateQuietly_spec w :
  (terminateQuietly env w).1 = inl tt /\ count is_terminate (terminateQuietly env w).2 = S (count is_terminate w) /\ later w (terminateQuietly env w).2.
Proof.
  unfold terminateQuietly, catch, fallible, bind, await. cbn [andb]. cbn. destruct (failure_of (env (used w))); cbn;
    (split_and!; [done|done|unfold later; cbn; lia]).
Qed.

(** The cleanup closes the handle and, when it is asked to, terminates the machine; it never fails. *)
Lemma cleanup_spec (terminate : bool) w :
  (cleanup env terminate w).1 = inl tt /\
  count is_terminate (cleanup env terminate w).2 = ((if terminate then 1 else 0) + count is_terminate w)%nat /\
  later w (cleanup env terminate w).2.
Proof.
  unfold cleanup, bind, update at 1. destruct terminate; [|by split_and!; unfold later].
  set (w1 := {| now := _ |}). destruct (terminateQuietly_spec w1) as (H1 & H2 & H3). by split_and!.
Qed.

Lemma leaves_ahead_terminate : leaves ahead (fallible env Terminate false).
Proof. intros w. destruct (fallible_terminate w). split; [done|]. lia. Qed.

Lemma leaves_ahead_cleanup (terminate : bool) : leaves ahead (cleanup env terminate).
Proof. intros w. destruct (cleanup_spec terminate w) as (_ & H & ?). split; [done|]. rewrite H. lia. Qed.
End Gone.
#[export] Hint Resolve ahead_preorder later_preorder : leaves.

(** ** A failed start *)

(** The environment never fails with [SandboxNotReadyError]: the wait for readiness is what throws it. *)
Record plain_failures (env : nat -> moment) : Prop := {
  plain_health : forall k e, health_answer (env k) = inr e -> is_class SandboxNotReadyError (translateRpcError false e) = false;
  plain_failure : forall k e, failure_of (env k) = Some e ->
    is_class SandboxNotReadyError e = false /\ is_class SandboxNotReadyError (translateRpcError false e) = false;
  plain_microvm : forall k e, microvm_answer (env k) = inr e -> is_class SandboxNotReadyError e = false
}.

Section Start.
Context (env : nat -> moment) (Hplain : plain_failures env).

Definition not_ready_error (f : failure) : Prop := exists e, f = Throws e /\ is_class SandboxNotReadyError e = true.

(** An operation that does not fail with [SandboxNotReadyError] unless the machine is gone. *)
Definition honest {A} (m : M A) : Prop :=
  leaves ahead m /\ forall w f w', m w = (inr f, w') -> not_ready_error f -> gone env w w'.

Lemma honest_ret {A} (a : A) : honest (ret a).
Proof. split; [apply leaves_ret, _|done]. Qed.

Lemma honest_bind {A B} (m : M A) (k : A -> M B) : honest m -> (forall a, honest (k a)) -> honest (bind m k).
Proof.
  intros [Lm Hm] Hk. split; [apply leaves_bind; [exact _|done|intros a; apply Hk]|].
  intros w f w'. unfold bind. specialize (Lm w). specialize (Hm w). destruct (m w) as [[a|e] w1]; cbn in Lm.
  - intros E Hf. eapply gone_before; [exact Lm|]. by eapply (proj2 (Hk a)).
  - intros [= <- <-] Hf. by eapply Hm.
Qed.

(** An operation whose errors are never that one. *)
Lemma honest_plain {A} (m : M A) : leaves ahead m -> (forall w f w', m w = (inr f, w') -> ~ not_ready_error f) -> honest m.
Proof. intros HL H. split; [done|]. intros w f w' E Hf. by destruct (H _ _ _ E). Qed.

Lemma honest_quiet {A} (m : M A) : leaves ahead m -> (forall w e, (m w).1 <> inr (Throws e)) -> honest m.
Proof. intros HL H. apply honest_plain; [done|]. intros w f w' E (e & -> & _). apply (H w e). by rewrite E. Qed.

Lemma honest_get : honest get.
Proof. by apply honest_quiet; [apply leaves_get, _|]. Qed.

Lemma honest_update g : honest (update g).
Proof. by apply honest_quiet; [apply (tame_update env), ahead_tame|]. Qed.

Lemma await_throws race a w e : (await env race a w).1 <> inr (Throws e).
Proof. unfold await. destruct (race && signalled w); [done|]. by destruct (race && aborts _). Qed.

Lemma honest_await race a : leaves ahead (await env race a) -> honest (await env race a).
Proof. intros H. apply honest_quiet; [done|]. intros w e. apply await_throws. Qed.

Lemma honest_throw {A} e : is_class SandboxNotReadyError e = false -> honest (throw e : M A).
Proof. intros He. apply honest_plain; [apply leaves_throw, _|]. intros w f w' [= <- <-] (e' & [= <-] & H). congruence. Qed.

Lemma honest_if {A} (b : bool) (m1 m2 : M A) : honest m1 -> honest m2 -> honest (if b then m1 else m2).
Proof. by destruct b. Qed.

Lemma honest_refresh race : honest (fallible env RefreshTokens race).
Proof.
  unfold fallible. apply honest_plain; [apply (leaves_refresh env); [exact _|apply tame_harmless, ahead_tame]|].
  intros w f w'. unfold bind, await. destruct (race && signalled w); [by intros [= <- <-] (e & ? & _)|].
  destruct (race && aborts _); [by intros [= <- <-] (e & ? & _)|]. destruct (failure_of _) as [e|] eqn:E; [|done].
  intros [= <- <-] (e' & [= <-] & H). apply (plain_failure _ Hplain) in E as [E _]. congruence.
Qed.

Lemma honest_ask race what : what <> RUN_MICROVM -> honest (ask env race what).
Proof.
  intros Hw. apply honest_plain; [apply tame_ask; [exact _|apply ahead_tame|done]|].
  intros w f w'. unfold ask, bind, await. destruct (race && signalled w); [by intros [= <- <-] (e & ? & _)|].
  destruct (race && aborts _); [by intros [= <- <-] (e & ? & _)|]. destruct (failure_of (env (used w))) as [e|] eqn:E; [|done].
  intros [= <- <-] (e' & [= <-] & H). apply (plain_failure _ Hplain) in E as [E _]. congruence.
Qed.

Lemma honest_getMicrovm : honest (getMicrovm env).
Proof.
  apply honest_plain; [apply tame_getMicrovm; [exact _|apply ahead_tame]|].
  intros w f w'. unfold getMicrovm, bind, await. cbn [andb]. destruct (microvm_answer (env (used w))) as [i|e] eqn:E; cbn; [done|].
  intros [= <- <-] (e' & [= <-] & H). apply (plain_microvm _ Hplain) in E. congruence.
Qed.

Lemma honest_probeHealth race t : honest (probeHealth env race t).
Proof.
  apply honest_plain; [apply tame_probeHealth; [exact _|apply ahead_tame]|].
  intros w f w' E (e & -> & He). unfold probeHealth, catch in E.
  assert (forall w e w', health_call env race t w = (inr (Throws e), w') -> is_class SandboxNotReadyError (translateRpcError false e) = false) as Hh.
  { intros w0 e0 w1. unfold health_call, bind, await. destruct (race && signalled w0); [done|]. destruct (race && aborts _); [done|].
    destruct (health_answer (env (used w0))) as [h|e1] eqn:A; cbn; [done|]. intros [= <- <-]. by apply (plain_health _ Hplain) in A. }
  assert (forall w e w', callHealthOnce env race t w = (inr (Throws e), w') -> is_class SandboxNotReadyError (translateRpcError false e) = false) as Hc.
  { intros w0 e0 w1. unfold callHealthOnce, catch. destruct (health_call env race t w0) as [[h|[e1| |]] w2] eqn:A; try done.
    destruct (isProxyForbidden e1); [|intros [= <- <-]; by apply Hh in A].
    unfold bind, fallible. destruct (await env race RefreshTokens w2) as [[m|f] w3] eqn:B.
    - unfold bind. rewrite B. destruct (failure_of m) as [e2|] eqn:F; cbn.
      + intros [= <- <-]. unfold await in B. destruct (race && signalled w2); [done|]. destruct (race && aborts _); [done|].
        injection B as <- <-. by apply (plain_failure _ Hplain) in F as [_ F].
      + intros C. by apply Hh in C.
    - unfold bind. rewrite B. intros [= -> <-]. exfalso. apply (await_throws race RefreshTokens w2 e0). by rewrite B. }
  unfold bind in E. destruct (callHealthOnce env race t w) as [[h|[e1| |]] w2] eqn:A; cbn in E; try done.
  destruct (isNotYetReachable e1); [done|]. injection E as <- <-. apply Hc in A. congruence.
Qed.

Lemma honest_check_signal : honest check_signal.
Proof. apply honest_quiet; [apply tame_check_signal; exact _|]. intros w e. unfold check_signal. by destruct (signalled w). Qed.

Lemma honest_failIfTerminal : honest (failIfTerminal env).
Proof.
  split; [unfold failIfTerminal; pose proof (tame_getMicrovm env ahead (ahead_tame env)); pose proof (tame_update _ _ (ahead_tame env)); follow|].
  intros w f w'. unfold failIfTerminal, bind at 1. pose proof (proj2 honest_getMicrovm w) as Hg.
  destruct (getMicrovm env w) as [[i|e] w1] eqn:E; [|intros [= <- <-] Hf; by eapply Hg].
  unfold bind, update. case_bool_decide as Hi; [|done]. intros [= <- <-] _. right. exists (used w), i.
  unfold getMicrovm, bind, await in E. cbn [andb] in E. destruct (microvm_answer (env (used w))) eqn:A; [|done].
  injection E as -> <-. cbn. split_and!; [lia..|done|done].
Qed.

Lemma notReady_rest {A} (b : bool) w f w' :
  (let* e := ((if negb b then fallible env Terminate false else ret tt) ;; ret notReadyError) in throw e : M A) w = (inr f, w') ->
  (b = true /\ w' = w) \/ (count is_terminate w < count is_terminate w')%nat.
Proof.
  destruct b; cbn [negb]; [intros [= _ <-]; by left|]. unfold bind. destruct (fallible_terminate env w) as [Hc Hl].
  destruct (fallible env Terminate false w) as [[[]|e] w2]; cbn in *; intros [= <- <-]; right; lia.
Qed.

Lemma honest_notReady {A} : honest (A := A) (let* e := notReady env true in throw e).
Proof.
  assert (leaves ahead (notReady env true)) as HL.
  { pose proof (tame_getMicrovm env ahead (ahead_tame env)). pose proof (leaves_ahead_terminate env). unfold notReady. follow. }
  split; [follow|]. intros w f w' E Hf. unfold notReady in E.
  set (w1 := (await env false GetMicrovm w).2) in *.
  assert (ahead w w1 /\ used w1 = S (used w)) as [H1 Hu] by (unfold w1; split; [split; [unfold later; cbn; lia|done]|done]).
  destruct (microvm_answer (env (used w))) as [i|e] eqn:A1.
  - assert ((let* e := ((if negb (bool_decide (state i ∈ TERMINAL_STATES)) then fallible env Terminate false else ret tt) ;; ret notReadyError) in throw e : M A) w1 = (inr f, w')) as E'.
    { rewrite <- E. unfold bind, catch, getMicrovm, bind, await. cbn [andb]. by rewrite A1. }
    apply notReady_rest in E' as [[Hi%bool_decide_eq_true ->]|Hc].
    + right. exists (used w), i. rewrite Hu. split_and!; [lia..|done|done].
    + left. destruct H1. lia.
  - destruct (is_sandbox_error e) eqn:S.
    + assert ((let* e := ((if negb false then fallible env Terminate false else ret tt) ;; ret notReadyError) in throw e : M A) w1 = (inr f, w')) as E'.
      { rewrite <- E. unfold bind, catch, getMicrovm, bind, await. cbn [andb]. rewrite A1. cbn. by rewrite S. }
      apply notReady_rest in E' as [[? _]|Hc]; [done|]. left. destruct H1. lia.
    + exfalso. assert (f = Throws e) as ->.
      { unfold bind, catch, getMicrovm, bind, await in E. cbn [andb] in E. rewrite A1 in E. cbn in E. rewrite S in E. by injection E. }
      destruct Hf as (e' & [= <-] & He). apply (plain_microvm _ Hplain) in A1. congruence.
Qed.

Lemma honest_ready_turn p : honest (ready_turn env true p).
Proof.
  assert (forall p, honest (ready_rest env true p)) as Hr.
  { intros p0. unfold ready_rest. apply honest_bind; [apply honest_get|intros w]. destruct (shouldCheckState p0 (now w)) as [c p1].
    apply honest_bind; [destruct c; [apply honest_failIfTerminal|apply honest_ret]|intros _].
    apply honest_bind; [apply honest_get|intros w1]. destruct (timedOut p1 (now w1)); [apply honest_notReady|].
    destruct (nextDelayMs p1 (now w1) _) as [d p2]. apply honest_bind; [|intros _; apply honest_ret].
    apply honest_await. by apply (tame_await _ _ (ahead_tame env)). }
  unfold ready_turn. apply honest_bind; [apply honest_check_signal|intros _]. apply honest_bind; [apply honest_get|intros w].
  apply honest_bind; [apply honest_probeHealth|]. intros [r|]; [|apply Hr]. destruct (healthReady (Some r)); [|apply Hr].
  apply honest_bind; [|intros _; apply honest_ret]. split; [apply (tame_health env ahead (ahead_tame env))|done].
Qed.

Lemma honest_within {A S} (turn : S -> M (A + S)) n s : (forall s, honest (turn s)) -> honest (within turn n s).
Proof.
  intros Ht. split; [apply leaves_within; [exact _|intros s'; apply Ht]|]. unfold within. revert s. induction n as [|n IH]; intros s w f w'; cbn [loop].
  { by intros [= <- <-] (e & ? & _). }
  destruct (Ht s) as [Lt Hs]. specialize (Lt w). specialize (Hs w). destruct (turn s w) as [[[a|s']|e] w1]; cbn in Lt.
  - done.
  - destruct (loop turn n s' w1) as [r|] eqn:L; [|by intros [= <- <-] (e & ? & _)].
    intros E Hf. eapply gone_before; [exact Lt|]. eapply (IH s' w1); [by rewrite L|done].
  - intros [= <- <-] Hf. by eapply Hs.
Qed.

Lemma honest_wait_ready t ms : honest (wait_ready env true t ms).
Proof.
  split.
  - intros w. exact (proj1 (honest_within (ready_turn env true) _ _ honest_ready_turn) w).
  - intros w f w' E. by apply (proj2 (honest_within (ready_turn env true) (turns_within t ms) (new_poll t ms (now w)) honest_ready_turn)).
Qed.

(** How an operation with a handler ends when it fails: the operation failed, the handler
    ran to its end, or the fuel was out. *)
Lemma on_failure_cases {A} reason (m : M A) h w f w' :
  (forall e w, (h e w).1 = inl tt) -> on_failure reason m h w = (inr f, w') ->
  (f = OutOfFuel /\ m w = (inr OutOfFuel, w')) \/
  exists e w1, (m w = (inr (Throws e), w1) \/ (m w = (inr AbortedBySignal, w1) /\ e = reason)) /\ w' = (h e w1).2 /\ f = Throws e.
Proof.
  intros Hh. unfold on_failure. destruct (m w) as [[a|[e| |]] w1]; [done|..|].
  - unfold bind. specialize (Hh e w1). destruct (h e w1) as [r w2] eqn:E. cbn in Hh. subst r. intros [= <- <-]. right. exists e, w1. rewrite E. auto.
  - unfold bind. specialize (Hh reason w1). destruct (h reason w1) as [r w2] eqn:E. cbn in Hh. subst r. intros [= <- <-]. right. exists reason, w1. rewrite E. auto.
  - intros [= <- <-]. by left.
Qed.

Lemma on_failure_ok {A} reason (m : M A) h w a w' : on_failure reason m h w = (inl a, w') -> m w = (inl a, w').
Proof.
  unfold on_failure. destruct (m w) as [[a'|[e| |]] w1]; [done|..|done]; unfold bind; by destruct (h _ w1) as [[]].
Qed.

Context (keep : bool).

(** An operation that, when it fails, leaves no machine behind, unless the caller wants it kept. *)
Definition tidy {A} (m : M A) : Prop :=
  leaves ahead m /\ forall w f w', m w = (inr f, w') -> f <> OutOfFuel -> keep = true \/ gone env w w'.

(** An operation that terminates nothing when it returns. *)
Definition spares {A} (m : M A) : Prop := forall w a w', m w = (inl a, w') -> count is_terminate w' = count is_terminate w.

Lemma tidy_ret {A} (a : A) : tidy (ret a).
Proof. split; [apply leaves_ret, _|done]. Qed.

Lemma tidy_bind {A B} (m : M A) (k : A -> M B) : tidy m -> (forall a, tidy (k a)) -> tidy (bind m k).
Proof.
  intros [Lm Hm] Hk. split; [apply leaves_bind; [exact _|done|intros a; apply Hk]|].
  intros w f w'. unfold bind. specialize (Lm w). specialize (Hm w). destruct (m w) as [[a|e] w1]; cbn in Lm.
  - intros E Hf. destruct (proj2 (Hk a) _ _ _ E Hf); [by left|right]. by eapply gone_before.
  - intros [= <- <-] Hf. by eapply Hm.
Qed.

Lemma spares_ret {A} (a : A) : spares (ret a).
Proof. by intros w b w' [= <- <-]. Qed.

Lemma spares_bind {A B} (m : M A) (k : A -> M B) : spares m -> (forall a, spares (k a)) -> spares (bind m k).
Proof.
  intros Hm Hk w b w'. unfold bind. specialize (Hm w). destruct (m w) as [[a|e] w1]; [|done]. intros E.
  rewrite (Hk a _ _ _ E). by eapply Hm.
Qed.

Lemma spares_same {A} (m : M A) : leaves (same is_terminate) m -> spares m.
Proof. intros H w a w' E. specialize (H w). rewrite E in H. exact H. Qed.

Lemma spares_on_failure {A} reason (m : M A) h : spares m -> spares (on_failure reason m h).
Proof. intros H w a w' E%on_failure_ok. by eapply H. Qed.

(** What ends with a cleanup when it fails. *)
Lemma tidy_cleanup {A} reason (m : M A) (terminate : bool) :
  leaves ahead m -> (terminate = true \/ keep = true) -> tidy (on_failure reason m (fun _ => cleanup env terminate)).
Proof.
  intros Hm Ht. split; [apply (tame_on_failure env); [exact _|done|intros e; apply leaves_ahead_cleanup]|].
  intros w f w' E Hf. destruct Ht as [->| ->]; [right|by left].
  apply on_failure_cases in E as [[? _]|(e & w1 & E & -> & _)]; [done| |intros e w1; apply cleanup_spec].
  left. destruct (cleanup_spec env true w1) as (_ & Hc & _). rewrite Hc. specialize (Hm w).
  destruct E as [E|[E _]]; rewrite E in Hm; destruct Hm; cbn in *; lia.
Qed.

Lemma honest_open i o : terminateOnFailure o = true -> honest (open_body env i o).
Proof.
  intros Ho. unfold open_body. rewrite Ho. apply honest_bind; [by apply honest_ask|intros _]. apply honest_bind; [apply honest_update|intros _].
  apply honest_bind; [apply honest_wait_ready|intros h]. cbv zeta. destruct (requireLifecycle o && _); [by apply honest_throw|apply honest_ret].
Qed.

Lemma leaves_ahead_open i o : leaves ahead (open_body env i o).
Proof.
  unfold open_body. pose proof (tame_ask env ahead (ahead_tame env) true MINT ltac:(done)). pose proof (tame_update _ _ (ahead_tame env)).
  pose proof (tame_wait_ready env ahead (ahead_tame env) (terminateOnFailure o) (op_readiness o) (op_readyTimeoutMs o)
    (fun _ => leaves_ahead_terminate env)). unfold set_core. follow.
Qed.

(** Opening a handle is tidy, and terminates nothing when it succeeds. *)
Lemma tidy_open reason i o : is_class SandboxNotReadyError reason = false ->
  (terminateOnFailure o = true \/ keep = true) -> tidy (open env reason i o).
Proof.
  intros Hr Ht. unfold open. pose proof (leaves_ahead_open i o) as HL. pose proof (honest_open i o) as Hm.
  split; [apply (tame_on_failure env); [exact _|done|intros e; apply leaves_ahead_cleanup]|].
  intros w f w' E Hf. destruct (terminateOnFailure o) eqn:Ho; [right|left; by destruct Ht]. cbn [andb] in E.
  specialize (Hm eq_refl). apply on_failure_cases in E as [[? _]|(e & w1 & E & -> & _)]; [done| |intros e w1; apply cleanup_spec].
  specialize (HL w). destruct (is_class SandboxNotReadyError e) eqn:He.
  - destruct E as [E|[_ ->]]; [|congruence]. eapply gone_after; [|apply leaves_ahead_cleanup].
    eapply (proj2 Hm); [exact E|]. by exists e.
  - left. destruct (cleanup_spec env true w1) as (_ & Hc & _). cbn [negb]. rewrite Hc.
    destruct E as [E|[E _]]; rewrite E in HL; destruct HL; cbn in *; lia.
Qed.

Lemma spares_open reason i o : fair env -> op_readiness o ∈ [ReadinessPoll; TakePoll] -> spares (open env reason i o).
Proof.
  intros Hf Ho. unfold open. apply spares_on_failure. unfold open_body. apply spares_bind; [apply spares_same, tame_ask; [exact _|apply terminate_tame|done]|intros _].
  apply spares_bind; [apply spares_same, (tame_update env), terminate_tame|intros _]. apply spares_bind.
  - intros w h w' E. unfold wait_ready in E. destruct (waitUntilReady _ _ _ _ _ _) as [[x w1]|] eqn:W; [|done]. injection E as -> ->.
    apply (wait_until_ready_outcome _ _ _ _ _ _ _ _ Hf Ho) in W as [W _]. by destruct (W h eq_refl) as (_ & _ & _ & _ & ?).
  - intros h. cbv zeta. destruct (requireLifecycle o && _); [done|apply spares_ret].
Qed.

Lemma leaves_ahead_quiet : leaves ahead (terminateQuietly env).
Proof. intros w. destruct (terminateQuietly_spec env w) as (_ & H & ?). split; [done|]. lia. Qed.

Lemma tidy_writeIndexRecord policy : tidy (writeIndexRecord env policy keep).
Proof.
  assert (leaves ahead (ask env false PUT_ROW ;; ret tt)) as Ha.
  { pose proof (tame_ask env ahead (ahead_tame env) false PUT_ROW ltac:(done)). follow. }
  pose proof leaves_ahead_quiet as Hq.
  assert (forall e, leaves ahead (match policy with WarnOnFailure => ret tt | TerminateOnFailure => (if keep then ret tt else terminateQuietly env) ;;
    throw (if is_class IndexWriteError e then e else OwnError IndexWriteError None None false (Some e)) end)) as Hh by (intros e; follow).
  split; [unfold writeIndexRecord; follow|]. intros w f w' E Hf. unfold writeIndexRecord, catch in E. specialize (Ha w).
  destruct ((ask env false PUT_ROW ;; ret tt) w) as [[[]|[e| |]] w1] eqn:P; [done| |exfalso|by injection E as <- <-].
  - destruct policy; [|done]. destruct keep; [by left|right]. unfold bind in E. destruct (terminateQuietly_spec env w1) as (H1 & H2 & H3).
    destruct (terminateQuietly env w1) as [r w2]. cbn in *. subst r. injection E as <- <-. left. destruct Ha. cbn in *. lia.
  - unfold bind, ask, bind, await in P. cbn [andb] in P. by destruct (failure_of (env (used w))).
Qed.

Lemma spares_writeIndexRecord policy : spares (writeIndexRecord env policy keep).
Proof.
  intros w a w' E. unfold writeIndexRecord, catch in E. pose proof (tame_ask env _ (terminate_tame env) false PUT_ROW ltac:(done)) as Ha.
  assert (leaves (same is_terminate) (ask env false PUT_ROW ;; ret tt)) as Hp by follow. specialize (Hp w).
  destruct ((ask env false PUT_ROW ;; ret tt) w) as [[[]|[e| |]] w1]; [by injection E as _ <-| |done..].
  destruct policy; [|by injection E as _ <-]. unfold bind in E. destruct keep; [done|]. by destruct (terminateQuietly env w1) as [[]].
Qed.
End Start.

Section Create.
Context (env : nat -> moment) (Hplain : plain_failures env) (Hfair : fair env).
Context (launched : moment -> text * SandboxInfo) (network_of : Network.NetworkPolicyMessage -> moment -> Network.NetworkStateMessage).
Context (configure_of : moment -> ConfigureResponse) (status_of : moment -> ConfigureStatusResponse).
Context (restore_of : moment -> Persistence.RestoreRequest -> Q -> option Persistence.event * Persistence.stream + thrown).
Context (isIP : text -> N) (reason : thrown) (Hreason : is_class SandboxNotReadyError reason = false).
Context (fuel : nat) (reconnectTimeoutMs : Q) (requestTimeoutMs : Z) (turns : nat).

Lemma tidy_applyInitialNetwork keep health policy f :
  tidy env keep (applyInitialNetwork env network_of reason fuel reconnectTimeoutMs requestTimeoutMs health policy f).
Proof.
  apply tidy_cleanup; [|by left]. pose proof (tame_sendNetworkPolicy env ahead (ahead_tame env) fuel reconnectTimeoutMs requestTimeoutMs network_of policy None).
  pose proof (tame_throwUnlessEnforced env ahead). follow.
Qed.

Lemma spares_applyInitialNetwork health policy f :
  spares (applyInitialNetwork env network_of reason fuel reconnectTimeoutMs requestTimeoutMs health policy f).
Proof.
  apply spares_on_failure, spares_same. pose proof (tame_sendNetworkPolicy env _ (terminate_tame env) fuel reconnectTimeoutMs requestTimeoutMs network_of policy None).
  pose proof (tame_throwUnlessEnforced env (same is_terminate)). follow.
Qed.

Lemma tidy_applyConfigureSections keep planned :
  tidy env keep (applyConfigureSections env configure_of status_of reason fuel reconnectTimeoutMs requestTimeoutMs turns planned (negb keep)).
Proof.
  unfold applyConfigureSections. case_bool_decide; [apply tidy_ret|]. apply tidy_cleanup; [|by destruct keep; auto].
  by apply tame_sendConfigureSections; [exact _|apply ahead_tame].
Qed.

Lemma spares_applyConfigureSections planned b :
  spares (applyConfigureSections env configure_of status_of reason fuel reconnectTimeoutMs requestTimeoutMs turns planned b).
Proof.
  unfold applyConfigureSections. case_bool_decide; [apply spares_ret|]. apply spares_on_failure, spares_same.
  by apply tame_sendConfigureSections; [exact _|apply terminate_tame].
Qed.

Lemma tame_restoreFiles R `{!PreOrder R} : tame env R -> forall bound ms, leaves R (restoreFiles env restore_of bound ms).
Proof.
  intros HR bound ms. unfold restoreFiles. pose proof (tame_await _ _ HR false (Ask RESTORE None) eq_refl eq_refl). follow.
Qed.

Lemma tidy_bindAndRestore keep persist ms id : (exists b, Persistence.bindPersist persist id = Ok b) ->
  tidy env keep (bindAndRestore env restore_of reason persist ms (negb keep) id).
Proof.
  intros [b Hb]. unfold bindAndRestore. rewrite Hb. cbn [of_result]. apply tidy_bind; [apply tidy_ret|intros b'].
  destruct (negb _); [apply tidy_ret|]. apply tidy_cleanup; [|by destruct keep; auto].
  pose proof (tame_restoreFiles ahead (ahead_tame env)). follow.
Qed.

Lemma spares_bindAndRestore persist ms b id : spares (bindAndRestore env restore_of reason persist ms b id).
Proof.
  unfold bindAndRestore. apply spares_bind; [apply spares_same; by destruct (Persistence.bindPersist persist id); intros w|intros b'].
  destruct (negb _); [apply spares_ret|]. apply spares_on_failure, spares_same.
  pose proof (tame_restoreFiles (same is_terminate) (terminate_tame env)). follow.
Qed.

Context (o : CreateOptions).

Abbreviation set_up_it := (set_up env network_of configure_of status_of reason fuel reconnectTimeoutMs requestTimeoutMs turns o).

Lemma tidy_set_up network f id i : tidy env (o_keepOnFailure o) (set_up_it network f id i).
Proof.
  unfold set_up. cbv zeta.
  apply tidy_bind; [destruct (o_index o); [apply tidy_writeIndexRecord|apply tidy_ret]|intros _].
  apply tidy_bind; [apply tidy_open; [done..|destruct (o_keepOnFailure o); auto]|intros health].
  apply tidy_bind; [destruct (Network.requiresEnforcement network); [apply tidy_applyInitialNetwork|apply tidy_ret]|intros _].
  apply tidy_bind; [apply tidy_applyConfigureSections|intros _; apply tidy_ret].
Qed.

Lemma spares_set_up network f id i : spares (set_up_it network f id i).
Proof.
  unfold set_up. cbv zeta.
  apply spares_bind; [destruct (o_index o); [by apply spares_writeIndexRecord|apply spares_ret]|intros _].
  apply spares_bind; [apply spares_open; [done|by left]|intros health].
  apply spares_bind; [destruct (Network.requiresEnforcement network); [apply spares_applyInitialNetwork|apply spares_ret]|intros _].
  apply spares_bind; [apply spares_applyConfigureSections|intros _; apply spares_ret].
Qed.

(** Nothing of it launches another machine. *)
Lemma one_terminate : leaves (same is_launch) (fallible env Terminate false).
Proof. unfold fallible. pose proof (same_await env is_launch false Terminate eq_refl). follow. Qed.

Lemma one_cleanup b : leaves (same is_launch) (cleanup env b).
Proof.
  unfold cleanup, terminateQuietly. pose proof one_terminate. pose proof (same_update is_launch). follow.
Qed.

Lemma one_set_up network f id i : leaves (same is_launch) (set_up_it network f id i).
Proof.
  pose proof one_terminate as H1. pose proof one_cleanup as H2. pose proof (launch_tame env) as HT.
  assert (forall p b, leaves (same is_launch) (writeIndexRecord env p b)).
  { intros p b. unfold writeIndexRecord, terminateQuietly. pose proof (tame_ask env _ HT false PUT_ROW ltac:(done)). follow. }
  assert (forall j o, leaves (same is_launch) (open env reason j o)).
  { intros j o'. apply (tame_on_failure env); [exact _| |intros e; apply one_cleanup]. unfold open_body, set_core.
    pose proof (tame_ask env _ HT true MINT ltac:(done)). pose proof (tame_update _ _ HT).
    pose proof (tame_wait_ready env _ HT (terminateOnFailure o') (op_readiness o') (op_readyTimeoutMs o') (fun _ => H1)). follow. }
  assert (forall h p f, leaves (same is_launch) (applyInitialNetwork env network_of reason fuel reconnectTimeoutMs requestTimeoutMs h p f)).
  { intros h p f'. apply (tame_on_failure env); [exact _| |intros e; apply one_cleanup].
    pose proof (tame_sendNetworkPolicy env _ HT fuel reconnectTimeoutMs requestTimeoutMs network_of p None).
    pose proof (tame_throwUnlessEnforced env (same is_launch)). follow. }
  assert (forall p b, leaves (same is_launch) (applyConfigureSections env configure_of status_of reason fuel reconnectTimeoutMs requestTimeoutMs turns p b)).
  { intros p b. unfold applyConfigureSections. case_bool_decide; [follow|]. apply (tame_on_failure env); [exact _| |intros e; apply one_cleanup].
    apply tame_sendConfigureSections; [exact _|done]. }
  unfold set_up. cbv zeta. follow.
Qed.

Lemma one_bindAndRestore persist ms b id : leaves (same is_launch) (bindAndRestore env restore_of reason persist ms b id).
Proof.
  pose proof (tame_restoreFiles (same is_launch) (launch_tame env)). pose proof (@tame_of_result (same is_launch) _).
  unfold bindAndRestore. apply leaves_bind; [exact _|done|intros b']. destruct (negb _); [follow|].
  apply (tame_on_failure env); [exact _|follow|intros e; apply one_cleanup].
Qed.

(** The steps before the launch launch and terminate nothing. *)
Lemma tame_step R `{!PreOrder R} s : tame env R -> txt s <> RUN_MICROVM -> leaves R (step env s).
Proof. intros HR Hs. unfold step. pose proof (tame_ask env R HR false (txt s) Hs). follow. Qed.

Lemma tame_prepare R `{!PreOrder R} : tame env R -> leaves R (prepare_network isIP o) /\ leaves R (prepare_launch env reason o) /\
  forall network, leaves R (take_slot env o network).
Proof.
  intros HR. pose proof (fun s => tame_step R s HR) as Hs. pose proof (@tame_of_result R _). pose proof (tame_throwIfAborted R).
  pose proof (tame_ask env R HR true (txt "resolveTemplateArn") ltac:(done)). pose proof (tame_ask env R HR false TAKE ltac:(done)).
  split_and!.
  - unfold prepare_network. follow.
  - unfold prepare_launch. repeat (apply leaves_bind; [exact _|first [apply Hs; by vm_compute|destruct (o_index o); [apply Hs; by vm_compute|]; follow|follow]|intros _]); follow.
  - intros network. unfold take_slot. pose proof (Hs "rejectLaunchOptionsWithPool"%string ltac:(by vm_compute)). follow.
Qed.

Abbreviation create_it := (create env launched network_of configure_of status_of restore_of isIP reason fuel reconnectTimeoutMs requestTimeoutMs turns).

(** What [create()] leaves, by how it ends. *)
Definition account (w : world) (r : handle + failure) (w' : world) : Prop :=
  match r with
  | inl (Launched _ _ _ _) => count is_launch w' = S (count is_launch w) /\ count is_terminate w' = count is_terminate w
  | inl Taken => count is_launch w' = count is_launch w /\ count is_terminate w' = count is_terminate w
  | inr OutOfFuel => True
  | inr _ =>
      count is_launch w' = count is_launch w /\ count is_terminate w' = count is_terminate w \/
      count is_launch w' = S (count is_launch w) /\ (o_keepOnFailure o = true \/ gone env w w')
  end.

Definition accounts (m : M handle) : Prop := forall w, account w (m w).1 (m w).2.

(** A step that neither launches nor terminates comes before. *)
Lemma accounts_after {A} (m : M A) k : (forall R, PreOrder R -> tame env R -> leaves R m) -> (forall a, accounts (k a)) -> accounts (bind m k).
Proof.
  intros Hm Hk w. unfold bind. pose proof (Hm _ _ (launch_tame env) w) as H1. pose proof (Hm _ _ (ahead_tame env) w) as H2.
  pose proof (Hm _ _ (terminate_tame env) w) as H3. unfold same in H1, H3.
  destruct (m w) as [[a|f] w1]; cbn [fst snd] in *.
  - specialize (Hk a w1). unfold account in *. rewrite H1, H3 in Hk. destruct (k a w1).1 as [[]|[]]; try done.
    all: destruct Hk as [Hk|[Hl [Hk|Hk]]]; [by left|by right; split; [|left]|right; split; [done|right]].
    all: by eapply gone_before.
  - destruct f; unfold account; [left; split; congruence..|done].
Qed.

Lemma accounts_quiet m : (forall R, PreOrder R -> tame env R -> leaves R m) -> (forall w a, (m w).1 = inl a -> a = Taken) -> accounts m.
Proof.
  intros Hm Ha w. pose proof (Hm _ _ (launch_tame env) w) as H1. pose proof (Hm _ _ (terminate_tame env) w) as H3. unfold same in H1, H3.
  unfold account. destruct ((m w).1) as [a|[]] eqn:E; [|by left..|done]. by rewrite (Ha w a E).
Qed.

Lemma ask_now what w : ask env false what w =
  (match failure_of (env (used w)) with None => inl (env (used w)) | Some e => inr (Throws e) end,
   (await env false (Ask what (failure_of (env (used w)))) w).2).
Proof. unfold ask, bind, await. cbn [andb]. by destruct (failure_of (env (used w))). Qed.

(** The machine that was launched is set up, and its home restored. *)
Lemma accounts_launched network f :
  (forall p, o_persist o = Some p -> (exists ms, Persistence.validatePersistTimeoutMs (o_persistTimeoutMs o) = Ok ms) /\
     forall id, exists b, Persistence.bindPersist p id = Ok b) ->
  accounts (let* launched := launch env launched network_of configure_of status_of reason fuel reconnectTimeoutMs requestTimeoutMs turns o network f in
    match o_persist o with
    | None => ret (Launched launched.1 launched.2 None None)
    | Some persist =>
        let* ms := of_result (Persistence.validatePersistTimeoutMs (o_persistTimeoutMs o)) in
        let* restored := bindAndRestore env restore_of reason persist ms (negb (o_keepOnFailure o)) launched.1 in
        ret (Launched launched.1 launched.2 (Some restored.1) restored.2)
    end).
Proof.
  intros Hp w. unfold launch.
  set (rest := fun l : text * SandboxHealth => match o_persist o with None => _ | Some p => _ end).
  assert (forall l, tidy env (o_keepOnFailure o) (rest l)) as T.
  { intros l. unfold rest. destruct (o_persist o) as [p|]; [|apply tidy_ret]. destruct (Hp p eq_refl) as [[ms ->] Hb].
    cbn [of_result]. apply tidy_bind; [apply tidy_ret|intros ms']. apply tidy_bind; [by apply tidy_bindAndRestore|intros r; apply tidy_ret]. }
  assert (forall l, spares (rest l)) as Sp.
  { intros l. unfold rest. destruct (o_persist o) as [p|]; [|apply spares_ret]. destruct (Hp p eq_refl) as [[ms ->] Hb].
    cbn [of_result]. apply spares_bind; [apply spares_ret|intros ms']. apply spares_bind; [apply spares_bindAndRestore|intros r; apply spares_ret]. }
  assert (forall l, leaves (same is_launch) (rest l)) as One.
  { intros l. unfold rest. destruct (o_persist o) as [p|]; [|follow]. pose proof (@tame_of_result (same is_launch) _).
    pose proof one_bindAndRestore. follow. }
  assert (forall l w a, (rest l w).1 = inl a -> exists id h b r, a = Launched id h b r) as Hl.
  { intros l w0 a. unfold rest. destruct (o_persist o) as [p|]; [|intros [= <-]; eauto]. unfold bind.
    destruct (of_result _ w0) as [[ms|] w1]; [|done]. destruct (bindAndRestore _ _ _ _ _ _ _ w1) as [[r|] w2]; [|done]. intros [= <-]. eauto 10. }
  clearbody rest. unfold bind. rewrite ask_now. set (w1 := (await env false (Ask RUN_MICROVM (failure_of (env (used w)))) w).2).
  destruct (failure_of (env (used w))) as [e|] eqn:F; [by left|].
  destruct (launched (env (used w))) as [id i].
  pose proof (tidy_set_up network f id i) as [L1 T1]. pose proof (spares_set_up network f id i) as S1. pose proof (one_set_up network f id i w1) as O1.
  specialize (L1 w1). specialize (T1 w1). specialize (S1 w1).
  assert (count is_launch w1 = S (count is_launch w) /\ count is_terminate w1 = count is_terminate w /\ ahead w w1) as (C1 & C2 & C3).
  { unfold w1. split_and!; [done|done|split; [unfold later; cbn; lia|done]]. }
  destruct (set_up_it network f id i w1) as [[l|e] w2]; cbn [fst snd] in *; unfold same in O1.
  - specialize (S1 _ _ eq_refl). destruct (T l) as [L2 T2]. specialize (L2 w2). specialize (T2 w2). specialize (Sp l w2). specialize (One l w2). specialize (Hl l w2).
    unfold same in One. destruct (rest l w2) as [[a|e] w3]; cbn [fst snd] in *.
    + destruct (Hl a eq_refl) as (id' & h & b & r & ->). specialize (Sp _ _ eq_refl). cbn. lia.
    + unfold account. destruct e as [e| |]; [..|done]; right; (split; [lia|]).
      all: destruct (T2 _ _ eq_refl ltac:(done)) as [?|G]; [by left|right].
      all: eapply gone_before; [exact C3|]. all: by eapply gone_before.
  - unfold account. destruct e as [e| |]; [..|done]; right; (split; [lia|]).
    all: destruct (T1 _ _ eq_refl ltac:(done)) as [?|G]; [by left|right]. all: by eapply gone_before.
Qed.

Lemma create_accounts :
  (forall p, o_persist o = Some p -> (exists ms, Persistence.validatePersistTimeoutMs (o_persistTimeoutMs o) = Ok ms) /\
     forall id, exists b, Persistence.bindPersist p id = Ok b) ->
  accounts (create_it o).
Proof.
  intros Hp. unfold create.
  assert (forall s R, PreOrder R -> tame env R -> txt s <> RUN_MICROVM -> leaves R (step env s)) as Hs by (intros s R HR HT; by apply tame_step).
  apply accounts_after; [intros R HR HT; by apply tame_throwIfAborted|intros _].
  do 3 (apply accounts_after; [intros R HR HT; by apply Hs|intros _]).
  apply accounts_after; [intros R HR HT; by apply tame_of_result|intros _].
  apply accounts_after; [intros R HR HT; by apply Hs|intros _].
  apply accounts_after; [intros R HR HT; by apply tame_prepare|intros network].
  apply accounts_after; [intros R HR HT; by apply Hs|intros _].
  destruct (o_pool o).
  - apply accounts_quiet; [intros R HR HT; by apply tame_prepare|]. intros w a. unfold take_slot.
    destruct (bool_decide (is_Some (o_index o))); [done|]. destruct (bool_decide (is_Some (o_persist o))); [done|].
    unfold bind. cbn [ret]. destruct (of_result (Network.rejectNetworkWithPool network) w) as [[]]; [|done].
    destruct (step env _ _) as [[]]; [|done]. destruct (ask _ _ _ _) as [[]]; [|done]. by intros [= <-].
  - apply accounts_after; [intros R HR HT; by apply tame_prepare|intros _]. by apply accounts_launched.
Qed.
End Create.

(** ** [create()] *)

(** C6. [create()] leaves no machine that nobody has: it launches one at most; when it
    returns one that it launched, it did not terminate it; when it fails, either nothing
    was launched and nothing terminated, or the machine was asked to be terminated, or the
    control plane had said that it already was, or the caller had asked to keep it.  So it is
    whatever fails: the index, the token, the wait for readiness, an old
    agent, the network policy, the sections, the restoration of a home, or the caller's
    signal; provided that clocks do not run backwards, that the timeout of [persist] is
    valid and its prefix admits every name of a sandbox (the code looks at them only after
    the launch), and that only the wait for readiness throws a [SandboxNotReadyError]: it
    is neither what the calls to AWS and to the agent fail with nor the reason of the
    caller's signal, as the code takes it for an error whose machine the wait has
    already terminated ([create_leaks_on_a_not_ready_reason]).
    Fuel is that of SandboxEnds.v. *)
Theorem create_leaves_no_orphan env launched network_of configure_of status_of restore_of isIP reason
    fuel reconnectTimeoutMs requestTimeoutMs turns (o : CreateOptions) (w : world) :
  plain_failures env -> fair env -> is_class SandboxNotReadyError reason = false ->
  (forall p, o_persist o = Some p -> (exists ms, Persistence.validatePersistTimeoutMs (o_persistTimeoutMs o) = Ok ms) /\
     forall id, exists b, Persistence.bindPersist p id = Ok b) ->
  let (r, w') := create env launched network_of configure_of status_of restore_of isIP reason fuel reconnectTimeoutMs requestTimeoutMs turns o w in
  match r with
  | inl (Launched _ _ _ _) => count is_launch w' = S (count is_launch w) /\ count is_terminate w' = count is_terminate w
  | inl Taken => count is_launch w' = count is_launch w /\ count is_terminate w' = count is_terminate w
  | inr OutOfFuel => True
  | inr _ =>
      count is_launch w' = count is_launch w /\ count is_terminate w' = count is_terminate w \/
      count is_launch w' = S (count is_launch w) /\ (o_keepOnFailure o = true \/ gone env w w')
  end.
Proof.
  intros Hp Hf Hr Hpersist.
  pose proof (create_accounts env Hp Hf launched network_of configure_of status_of restore_of isIP reason Hr fuel reconnectTimeoutMs
    requestTimeoutMs turns o Hpersist w) as H.
  by destruct (create _ _ _ _ _ _ _ _ _ _ _ _ _ w) as [r w'].
Qed.

(** *** Runs *)

Definition up_health : HealthResponse := sample_health (txt "mvm-1") 1.
Definition up_env (_ : nat) : moment := sample_moment (inl up_health) running_info.
Definition up_launched (_ : moment) : text * SandboxInfo := (txt "mvm-1", running_info).

(** An agent that says it does not enforce the policy it is sent. *)
Definition unenforced (_ : Network.NetworkPolicyMessage) (_ : moment) : Network.NetworkStateMessage := {|
  Network.st_allowOut := []; Network.st_denyOut := []; Network.st_egressProxyConfigured := false; Network.st_enforcement := 1; Network.st_localProxyPort := 0 |}.
Definition enforced (_ : Network.NetworkPolicyMessage) (_ : moment) : Network.NetworkStateMessage := {|
  Network.st_allowOut := []; Network.st_denyOut := [txt "0.0.0.0/0"]; Network.st_egressProxyConfigured := false; Network.st_enforcement := 2;
  Network.st_localProxyPort := 0 |}.
Definition no_status (_ : moment) : ConfigureStatusResponse := {| st_s3Mounts := []; st_efsVolumes := [] |}.

Definition plain_options : CreateOptions := {|
  o_network := Network.NUndefined; o_allowInternetAccess := Network.NBool false; o_persist := None; o_persistTimeoutMs := None;
  o_executionRoleArn := None; o_index := None; o_pool := false; o_keepOnFailure := false; o_readyTimeoutMs := 30000; o_lifecycleRequested := false;
  o_features := {| configureSections := []; telemetry := None; events := None |} |}.

Definition home : Persistence.S3Prefix := {|
  Persistence.bucket := txt "my-bucket"; Persistence.prefix := txt "rayito"; Persistence.name := Some (txt "dev"); Persistence.region := None |}.

Definition persist_options (timeoutMs : option jsnum) : CreateOptions := {|
  o_network := Network.NUndefined; o_allowInternetAccess := Network.NUndefined; o_persist := Some home; o_persistTimeoutMs := timeoutMs;
  o_executionRoleArn := Some (txt "role"); o_index := None; o_pool := false; o_keepOnFailure := false; o_readyTimeoutMs := 30000;
  o_lifecycleRequested := false; o_features := {| configureSections := []; telemetry := None; events := None |} |}.

(** What a restoration answers; the sandbox may have been terminated under it. *)
Definition restore_lost (_ : moment) (_ : Persistence.RestoreRequest) (_ : Q) : option Persistence.event * Persistence.stream + thrown :=
  inr (err SandboxNotFoundError).

#[local] Abbreviation run_create network_of o :=
  (create up_env up_launched network_of (fun _ => []) no_status restore_lost (fun _ => 4%N) NotAnObject 200 60000 30000 10 o new_world).

Lemma up_plain : plain_failures up_env.
Proof. by split; intros k e. Qed.

Lemma create_leaves_no_orphan_witness :
  (run_create unenforced plain_options).1 = inr (Throws (err UnimplementedError)) /\
  count is_launch (run_create unenforced plain_options).2 = 1%nat /\
  gone up_env new_world (run_create unenforced plain_options).2.
Proof.
  assert ((run_create unenforced plain_options).1 = inr (Throws (err UnimplementedError))) as E by (vm_compute; reflexivity).
  assert (count is_launch (run_create unenforced plain_options).2 = 1%nat) as L by (vm_compute; reflexivity).
  pose proof (create_leaves_no_orphan up_env up_launched unenforced (fun _ => []) no_status restore_lost (fun _ => 4%N) NotAnObject 200 60000 30000 10
    plain_options new_world up_plain (sample_fair _ _) eq_refl ltac:(done)) as H.
  destruct (create _ _ _ _ _ _ _ _ _ _ _ _ _ _) as [r w']. cbn [fst snd] in *. subst r.
  split; [reflexivity|]. split; [exact L|]. destruct H as [[H _]|[_ [H|H]]]; [|discriminate H|exact H].
  rewrite L in H. discriminate H.
Defined.

Example create_ok : exists h, (run_create enforced plain_options).1 = inl (Launched (txt "mvm-1") h None None).
Proof. eexists. vm_compute. reflexivity. Qed.

(** [persistTimeoutMs] is validated after the launch, outside the code that cleans up: the
    machine is left running, and its handle open, with nobody to close it. *)
Example create_leaks_on_a_bad_timeout :
  let (r, w') := run_create enforced (persist_options (Some (Finite (- 1)))) in
  r = inr (Throws (err InvalidArgumentError)) /\ count is_launch w' = 1%nat /\ count is_terminate w' = 0%nat /\ closed (core w') = false.
Proof. vm_compute. done. Qed.

(** An environment in which the caller's signal is aborted during the [n]-th await. *)
Definition aborting_env (n k : nat) : moment := {|
  took := 40; wallMs := 0; random := 1 # 2; health_answer := inl up_health; microvm_answer := inl running_info;
  failure_of := None; aborts := bool_decide (k = n); others := []; busy := false;
  call_answer := None; lifecycle_answer := inr NotAnObject; suspend_answer := inl false; reopening := None; call_empty := false |}.

(** A signal aborted with a [SandboxNotReadyError] of the caller's own while the token is
    minted: what opens the machine takes the error for that of the wait for readiness, which
    terminates the machine itself, and leaves it running. *)
Example create_leaks_on_a_not_ready_reason :
  let (r, w') := create (aborting_env 13) up_launched enforced (fun _ => []) no_status restore_lost (fun _ => 4%N)
    (err SandboxNotReadyError) 200 60000 30000 10 plain_options new_world in
  r = inr (Throws (err SandboxNotReadyError)) /\ count is_launch w' = 1%nat /\ count is_terminate w' = 0%nat.
Proof. vm_compute. done. Qed.

(** A sandbox that is terminated while its home is restored is handed out as one without a
    checkpoint: [SandboxNotFoundError] is a [NotFoundError]. *)
Example create_returns_a_lost_sandbox :
  exists h, (run_create enforced (persist_options None)).1 = inl (Launched (txt "mvm-1") h (Some home) None).
Proof. eexists. vm_compute. reflexivity. Qed.

(** A prefix of 890 bytes is a valid one without a name; bound to a sandbox it is not, and
    that is found out after the launch. *)
Definition long_home : Persistence.S3Prefix := {|
  Persistence.bucket := txt "my-bucket"; Persistence.prefix := repeat 97%N 890; Persistence.name := None; Persistence.region := None |}.

Example a_prefix_that_cannot_be_bound :
  Persistence.new_S3Prefix (Persistence.VText (txt "my-bucket")) (Persistence.VText (repeat 97%N 890)) None None = Ok long_home /\
  Persistence.bindPersist long_home (txt "microvm-0123456789") = Throw InvalidArgumentError.
Proof. vm_compute. done. Qed.

(** *** [reincarnate()] *)

Definition home_kept (_ : moment) (_ : Persistence.CheckpointRequest) (_ : Q) : option Persistence.event * Persistence.stream + thrown :=
  inl (Some Persistence.Started, Persistence.Message (Persistence.IsDone Persistence.sample_done) Persistence.EndOfStream).
Definition home_restored (_ : moment) (_ : Persistence.RestoreRequest) (_ : Q) : option Persistence.event * Persistence.stream + thrown :=
  inl (Some Persistence.Started, Persistence.Message (Persistence.IsDone Persistence.sample_done) Persistence.EndOfStream).

(** An environment whose [n]-th await is throttled. *)
Definition throttled_env (n k : nat) : moment := {|
  took := 40; wallMs := 0; random := 1 # 2; health_answer := inl up_health; microvm_answer := inl running_info;
  failure_of := if bool_decide (k = n) then Some (err RateLimitError) else None; aborts := false; others := []; busy := false;
  call_answer := None; lifecycle_answer := inr NotAnObject; suspend_answer := inl false; reopening := None; call_empty := false |}.

#[local] Abbreviation run_reincarnate n :=
  (reincarnate (throttled_env n) up_launched enforced (fun _ => []) no_status home_restored home_kept (fun _ => 4%N) NotAnObject 200 60000 30000 10
    (Some (persist_options None)) (Some home) None new_world).

Example reincarnate_ok : exists h r, (run_reincarnate 100).1 = inl (Launched (txt "mvm-1") h (Some home) (Some r)).
Proof. eexists _, _. vm_compute. reflexivity. Qed.

(** When the predecessor cannot be killed, [reincarnate()] throws: the successor runs, and
    nobody has its handle. *)
Example reincarnate_loses_the_successor :
  let (r, w') := run_reincarnate 18 in
  r = inr (Throws (err RateLimitError)) /\ count is_launch w' = 1%nat /\ count is_terminate w' = 0%nat /\ closed (core w') = false.
Proof. vm_compute. done. Qed.
