(* ===== verification/SandboxEnds.v ===== *)
(** * SandboxEnds: the operations of a sandbox end

    Termination of the operations of Sandbox.v: whatever is answered, [create()],
    [connect()], [pause()], [resume()], [reincarnate()] and the rest return or throw, or are
    aborted by their signal; the fuel of their loops does not run out.  What is asked of the
    environment is what CallsEnd.v asks, and that the wall clock goes on. *)

From stdpp Require Import base option list strings sets.
From Stdlib Require Import NArith ZArith QArith Qround Lia Lqa.
From S2P Require Import Prelude Text Limits RpcErrors Readiness Reconnect Calls CallsEnd Configure Sandbox SandboxSafety.
From S2P Require Lifecycle Network Persistence Mounts.

Local Open Scope world_scope.

Section Stays.
Context (since : nat) (env : nat -> moment) (generation : nat -> Z).
Context (Hcounted : counted_since since env generation) (Hanswers : answers_counted_since since env generation).
Context (Hpos : forall k, (0 <= generation k)%Z).

(** From the moment [since] on, the handle knows no generation that its agent has not
    reached. *)
Definition tracked (w : world) : Prop := (since <= used w)%nat /\ (resumeGeneration (core w) <= generation (used w))%Z.

Definition stays : relation world := fun w w' => tracked w -> tracked w'.

#[export] Instance stays_preorder : PreOrder stays.
Proof. split; [by intros w Hw|]. intros w1 w2 w3 H1 H2 H. by apply H2, H1. Qed.

Lemma stays_of_grown {A} (m : M A) : (forall seen, leaves (keeps_grown generation since seen) m) -> leaves stays m.
Proof.
  intros H w Hw. specialize (H (resumeGeneration (core w)) w). unfold keeps_grown, grown, stays, tracked in *. lia.
Qed.

Lemma stays_await race a : leaves stays (await env race a).
Proof. apply stays_of_grown. intros seen. by apply grown_await. Qed.

Lemma stays_update g : (forall c, resumeGeneration (g c) = resumeGeneration c \/ resumeGeneration (g c) = 0%Z) -> leaves stays (update g).
Proof.
  intros Hg w [H0 Hw]. specialize (Hpos (used w)). unfold tracked in *. cbn. destruct (Hg (core w)) as [-> | ->]; lia.
Qed.

Lemma stays_get : leaves stays get.
Proof. by intros w. Qed.

(** ** A [Health] that was just read *)

Definition current (h : HealthResponse) (w : world) : Prop := (since <= used w)%nat /\ (h_resumeGeneration h <= generation (used w))%Z.
Definition current_option (h : option HealthResponse) (w : world) : Prop := forall r, h = Some r -> current r w.

(** What an operation returns when it starts from the moment [since] on. *)
Definition yields_since {A} (Q : A -> world -> Prop) (m : M A) : Prop :=
  forall w a w', (since <= used w)%nat -> m w = (inl a, w') -> Q a w'.

Lemma current_health race t : yields_since current (health_call env race t).
Proof.
  intros w r w' H0. unfold health_call, bind, await. destruct (race && signalled w); [done|].
  destruct (race && aborts (env (used w))); [done|].
  destruct (health_answer (env (used w))) as [h|e] eqn:E; intros [= <- <-]. unfold current. cbn.
  rewrite (Hanswers _ _ H0 E). split; [lia|by apply (counted_up _ _ _ Hcounted)].
Qed.

Lemma used_await race a w : (used w <= used (await env race a w).2)%nat.
Proof. unfold await. destruct (race && signalled w); [done|]. destruct (race && aborts _); cbn; lia. Qed.

Lemma used_health race t w : (used w <= used (health_call env race t w).2)%nat.
Proof.
  unfold health_call, bind. pose proof (used_await race (Probe t) w) as H. destruct (await env race (Probe t) w) as [[m|e] w1]; [|done].
  by destruct (health_answer m).
Qed.

Lemma used_fallible a race w : (used w <= used (fallible env a race w).2)%nat.
Proof.
  unfold fallible, bind. pose proof (used_await race a w) as H. destruct (await env race a w) as [[m|e] w1]; [|done].
  by destruct (failure_of m).
Qed.

Lemma current_probe race t : yields_since current_option (probeHealth env race t).
Proof.
  intros w x w' H0. unfold probeHealth, catch at 1, bind at 1, callHealthOnce, catch at 1.
  pose proof (current_health race t w) as H1. pose proof (used_health race t w) as U1.
  destruct (health_call env race t w) as [[h|[e| |]] w1]; [| |done..].
  { intros [= <- <-] r [= <-]. by apply H1. }
  destruct (isProxyForbidden e); [|cbn; destruct (isNotYetReachable e); [by intros [= <- <-]|done]].
  unfold bind at 1. pose proof (used_fallible RefreshTokens race w1) as U2.
  destruct (fallible env RefreshTokens race w1) as [[[]|[e1| |]] w2];
    [|destruct (isNotYetReachable e1); [by intros [= <- <-]|done]|done..].
  pose proof (current_health race t w2) as H2. destruct (health_call env race t w2) as [[h|[e2| |]] w3];
    [|destruct (isNotYetReachable e2); [by intros [= <- <-]|done]|done..].
  intros [= <- <-] r [= <-]. cbn [snd] in *. apply H2; [lia|done].
Qed.

Lemma stays_record r w : current r w -> stays w (record_health_now env r w).2.
Proof. intros Hr _. exact Hr. Qed.

(** What follows an operation that says something of the world it leaves. *)
Lemma stays_bind_after {A B} (Q : A -> world -> Prop) (m : M A) (k : A -> M B) :
  leaves stays m -> yields_since Q m -> (forall a w, Q a w -> stays w (k a w).2) -> leaves stays (bind m k).
Proof.
  intros Hm Hy Hk w Hw. unfold bind. specialize (Hm w Hw). specialize (Hy w). destruct (m w) as [[a|e] w1]; cbn in *; [|done].
  apply Hk; [|done]. apply Hy; [apply Hw|done].
Qed.
End Stays.
#[export] Hint Resolve stays_preorder stays_await stays_get : leaves.

#[local] Create HintDb sure.

Section Requests.
Context (since : nat) (env : nat -> moment) (generation : nat -> Z).
Context (Hcounted : counted_since since env generation) (Hanswers : answers_counted_since since env generation).
Context (Hpos : forall k, (0 <= generation k)%Z).

Abbreviation stays := (stays since generation).
Abbreviation tracked := (tracked since generation).

#[local] Hint Extern 0 (leaves _ (await _ _ _)) => apply stays_await, Hcounted : leaves.
#[local] Hint Extern 0 (leaves _ (update _)) => apply (stays_update _ _ Hpos); intros []; first [left; reflexivity|right; reflexivity] : leaves.

Lemma stays_probe race t : leaves stays (probeHealth env race t).
Proof. apply stays_of_grown. intros seen w Hw. by apply preserves_probeHealth. Qed.

Lemma stays_getMicrovm : leaves stays (getMicrovm env).
Proof. unfold getMicrovm. follow. Qed.

Lemma stays_fallible a race : leaves stays (fallible env a race).
Proof. unfold fallible. follow. Qed.
#[local] Hint Resolve stays_probe stays_getMicrovm stays_fallible : leaves.

Lemma stays_poll_turn reason seen wake p : leaves stays (poll_turn env reason seen wake p).
Proof.
  assert (forall p, leaves stays (poll_pause env reason wake p)) as Hp by (intros q; unfold poll_pause, checkState, failed_now; follow).
  assert (forall e, leaves stays (failed_now e : M (option ReconnectOutcome + poll))) as Hf by (intros e; unfold failed_now; follow).
  assert (forall check p, leaves stays (poll_attempt env reason seen check wake p)) as Ha.
  { intros check q. unfold poll_attempt. apply leaves_bind; [exact _|unfold checkState; follow|].
    intros [e|]; [apply Hf|]. apply leaves_bind; [exact _|follow|intros w0].
    apply (stays_bind_after since generation (fun x w => match x with inl r => current_option since generation r w | inr _ => True end)); [follow| |].
    - intros w x w' H0. unfold catch, bind. pose proof (current_probe _ _ _ Hcounted Hanswers false (rpcTimeoutMs q (now w0)) w) as Hy.
      destruct (probeHealth env false _ w) as [[r|[e| |]] w1]; intros [= <- <-]; [by apply Hy|done].
    - intros [[r|]|e] w Hr; [|apply Hp|unfold bind, get; apply Hf].
      destruct (healthReconnected _ _ _); [|apply Hp]. exact (fun _ => Hr r eq_refl). }
  unfold poll_turn. apply leaves_bind; [exact _|follow|intros w]. destruct (alreadyBack seen (core w)); [follow|].
  destruct (timedOut p (now w)); [apply Hf|]. destruct (if wake then _ else _) as [check q]. apply Ha.
Qed.
#[local] Hint Resolve stays_poll_turn : leaves.

Lemma stays_reconnect reason seen fuel ms wake : leaves stays (reconnect env reason seen fuel ms wake).
Proof.
  assert (forall s, leaves stays (lock_turn env s)) as Hl.
  { intros s w. unfold lock_turn. destruct (busy (env (used w))); [|done].
    assert (leaves stays (await env false AwaitLock ;; ret (inr tt : unit + unit))) as H by follow. apply H. }
  unfold reconnect, reconnect_turn, or_else, alreadyBack_now, sleepWhileSuspended, sleep_turn, sleep_rest, alreadyBack_now,
    pollHoldingTheLock, or_else, pollUntilBack, checkState, failed_now. follow.
Qed.
#[local] Hint Resolve stays_reconnect : leaves.

Lemma stays_retried {A} (call : M A) signal : leaves stays call -> leaves stays (retried env signal call).
Proof. intros Hc. apply leaves_retried; [exact _|done|intros; follow]. Qed.

Lemma stays_callUnaryOnce {A} (call : M A) (retry : bool) signal : leaves stays call -> leaves stays (callUnaryOnce env retry signal call).
Proof. intros Hc. pose proof (stays_retried call signal Hc). unfold callUnaryOnce. destruct retry; follow. Qed.

Context (fuel : nat) (reconnectTimeoutMs : Q) (requestTimeoutMs : Z).

Lemma stays_callUnary_with {A} reopened (call : M A) :
  (forall e n, leaves stays (reopened e n)) -> leaves stays call -> leaves stays (callUnary_with env fuel reconnectTimeoutMs reopened call).
Proof.
  intros Hr Hc. pose proof (stays_callUnaryOnce call true None Hc). pose proof (stays_retried call None Hc).
  unfold callUnary_with, after_cut. follow.
Qed.

Lemma stays_setTimeout t : leaves stays (setTimeout env t).
Proof. unfold setTimeout. follow. Qed.

Lemma stays_reopened e n : leaves stays (reopenedAfterDeadlinePause env fuel reconnectTimeoutMs requestTimeoutMs e n).
Proof.
  assert (forall g, leaves stays (reopen_rest env fuel reconnectTimeoutMs g)) as Hr.
  { intros g. assert (forall t, leaves stays (callUnary_no_reopen env fuel reconnectTimeoutMs (setTimeout env t))) as Hs.
    { intros t. apply stays_callUnary_with; [intros; follow|apply stays_setTimeout]. }
    unfold reopen_rest. follow. }
  assert (forall g, leaves stays (reopenAfterDeadlinePause env fuel reconnectTimeoutMs requestTimeoutMs g)) as Ha.
  { intros g. unfold reopenAfterDeadlinePause. apply leaves_catch; [exact _| |intros; follow].
    apply (stays_bind_after since generation (current_option since generation)); [follow|by apply current_probe|].
    intros [r|] w Hw; [|apply Hr]. etrans; [apply (stays_record since env generation r w); by apply Hw|apply Hr]. }
  unfold reopenedAfterDeadlinePause. follow.
Qed.

(** ** Operations that end *)

(** Returns, throws or is aborted. *)
Definition ended {A} (r : A + failure) : Prop := r <> inr OutOfFuel.

Definition sure {A} (m : M A) : Prop := forall w, tracked w -> ended (m w).1 /\ tracked (m w).2.

Lemma sure_of {A} (m : M A) : (forall w, tracked w -> ended (m w).1) -> leaves stays m -> sure m.
Proof. intros He Hs w Hw. split; [by apply He|by apply Hs]. Qed.

Lemma sure_ret {A} (a : A) : sure (ret a).
Proof. by intros w Hw. Qed.
Lemma sure_throw {A} e : sure (throw e : M A).
Proof. by intros w Hw. Qed.
Lemma sure_get : sure get.
Proof. by intros w Hw. Qed.
Lemma sure_of_sum {A} (x : A + thrown) : sure (of_sum x).
Proof. by destruct x; intros w Hw. Qed.
Lemma sure_of_result {A} (r : result A) : sure (of_result r).
Proof. by destruct r; intros w Hw. Qed.
Lemma sure_now : sure (now_unix env).
Proof. by intros w Hw. Qed.
Lemma sure_throwIfAborted signal : sure (throwIfAborted signal).
Proof. intros w Hw. unfold throwIfAborted. by destruct (aborted signal w). Qed.

Lemma sure_await race a : sure (await env race a).
Proof.
  apply sure_of; [|follow]. intros w _. unfold await. destruct (race && signalled w); [done|]. by destruct (race && aborts _).
Qed.

Lemma sure_update g : leaves stays (update g) -> sure (update g).
Proof. intros Hg. by apply sure_of. Qed.

Lemma sure_bind {A B} (m : M A) (k : A -> M B) : sure m -> (forall a, sure (k a)) -> sure (bind m k).
Proof.
  intros Hm Hk w Hw. unfold bind. destruct (Hm w Hw) as [H1 H2]. destruct (m w) as [[a|e] w1]; [by apply Hk|].
  split; [|done]. cbn in *. intros [= ->]. by apply H1.
Qed.

Lemma sure_catch {A} (m : M A) h : sure m -> (forall e, sure (h e)) -> sure (catch m h).
Proof.
  intros Hm Hh w Hw. unfold catch. destruct (Hm w Hw) as [H1 H2]. destruct (m w) as [[a|[e| |]] w1]; [done|by apply Hh|done..].
Qed.

Lemma sure_on_failure {A} reason (m : M A) h : sure m -> (forall e, sure (h e)) -> sure (on_failure reason m h).
Proof.
  intros Hm Hh w Hw. unfold on_failure. assert (forall e, sure (h e ;; throw e : M A)) as Ht.
  { intros e. apply sure_bind; [apply Hh|intros; apply sure_throw]. }
  destruct (Hm w Hw) as [H1 H2]. destruct (m w) as [[a|[e| |]] w1]; [done|by apply Ht..|done].
Qed.

Lemma sure_finally {A} (m : M A) f : sure m -> sure f -> sure (finally m f).
Proof.
  intros Hm Hf w Hw. unfold finally. destruct (Hm w Hw) as [H1 H2]. destruct (m w) as [r w1]. destruct (Hf w1 H2) as [H3 H4].
  cbn in *. destruct (f w1) as [[a|e] w2]; [done|]. split; [|done]. cbn in *. intros [= ->]. by apply H3.
Qed.

#[local] Hint Resolve sure_ret sure_throw sure_get sure_of_sum sure_of_result sure_now sure_throwIfAborted sure_await : sure.
#[local] Hint Extern 0 (sure (update _)) => apply sure_update; solve [auto with leaves] : sure.

(** Follows the structure of an operation, as [follow] does. *)
Ltac surely :=
  repeat first
  [ solve [auto with sure]
  | apply sure_bind; [|intros]
  | apply sure_catch; [|intros]
  | apply sure_on_failure; [|intros]
  | apply sure_finally
  | match goal with
    | |- sure (if ?b then _ else _) => destruct b
    | |- sure (match ?x with _ => _ end) => destruct x
    end ].

Lemma sure_ask race what : sure (ask env race what).
Proof.
  intros w. unfold ask. generalize (failure_of (env (used w))). intros failure.
  assert (sure (let* m := await env race (Ask what failure) in match failure_of m with None => ret m | Some e => throw e end)) as H by surely.
  apply H.
Qed.

Lemma sure_fallible a race : sure (fallible env a race).
Proof. unfold fallible. surely. Qed.
#[local] Hint Resolve sure_ask sure_fallible : sure.

Lemma sure_getMicrovm : sure (getMicrovm env).
Proof. unfold getMicrovm. surely. Qed.

Lemma sure_close : sure (update close).
Proof. apply sure_update, stays_update; [done|]. intros c. left. unfold close. by destruct (closed c). Qed.
#[local] Hint Resolve sure_getMicrovm sure_close : sure.

Lemma sure_cleanup (terminate : bool) : sure (cleanup env terminate).
Proof. unfold cleanup, terminateQuietly. surely. Qed.

Lemma sure_probe race t : sure (probeHealth env race t).
Proof. unfold probeHealth, callHealthOnce, health_call. surely. Qed.

Lemma sure_step s : sure (step env s).
Proof. unfold step. surely. Qed.
#[local] Hint Resolve sure_cleanup sure_probe sure_step : sure.

Lemma sure_set_core i : sure (set_core (core_of i)).
Proof. apply sure_update, stays_update; [done|]. intros c. by right. Qed.
#[local] Hint Resolve sure_set_core : sure.

(** ** Waiting for the agent *)

Context (Hfair : fair env).

Lemma sure_turn_loop {A S} (turn : S -> M (A + S)) n s w x w' :
  (forall s, sure (turn s)) -> tracked w -> loop turn n s w = Some (x, w') -> ended x /\ tracked w'.
Proof.
  intros Ht. revert s w. induction n as [|n IH]; intros s w Hw; cbn [loop]; [done|].
  destruct (Ht s w Hw) as [H1 H2]. destruct (turn s w) as [[[a|s']|e] w1]; cbn in *; [by intros [= <- <-]|by apply IH|].
  intros [= <- <-]. split; [|done]. intros [= ->]. by apply H1.
Qed.

Lemma sure_within {A S} (turn : S -> M (A + S)) n s w :
  (forall s, sure (turn s)) -> tracked w -> (exists r, loop turn n s w = Some r) ->
  ended (within turn n s w).1 /\ tracked (within turn n s w).2.
Proof. intros Ht Hw [[x w'] E]. unfold within. rewrite E. by eapply sure_turn_loop. Qed.

Lemma sure_ready_turn terminate p : sure (ready_turn env terminate p).
Proof.
  assert (sure check_signal) as Hc.
  { apply sure_of; intros w; unfold check_signal; by destruct (signalled w). }
  assert (forall p, sure (ready_rest env terminate p)) as Hr.
  { intros q. unfold ready_rest, failIfTerminal, notReady. surely.
    all: match goal with |- sure (let (_, _) := ?x in _) => destruct x end; surely.
    all: match goal with |- sure (let (_, _) := ?x in _) => destruct x end; surely. }
  unfold ready_turn. apply sure_bind; [done|intros _]. apply sure_bind; [surely|intros w0]. intros w Hw. unfold bind at 1 3.
  set (t := rpcTimeoutMs _ _). destruct (sure_probe true t w Hw) as [H1 H2].
  pose proof (current_probe _ _ _ Hcounted Hanswers true t w) as Hy.
  destruct (probeHealth env true t w) as [[r|e] w1]; cbn [fst snd] in *; [|split; [|done]; intros [= ->]; by apply H1].
  destruct r as [r|]; [|by apply Hr]. destruct (healthReady (Some r)); [|by apply Hr].
  split; [done|]. exact (Hy _ _ (proj1 Hw) eq_refl r eq_refl).
Qed.

Lemma sure_wait_ready (terminate : bool) ms : sure (wait_ready env terminate ReadinessPoll ms).
Proof.
  intros w Hw. unfold wait_ready, waitUntilReady.
  assert (poll_ok (new_poll ReadinessPoll ms (now w))) as Hp by (apply schedules_ok; left; by left).
  destruct (ready_loop_ends env (fun k => proj1 (Hfair k)) (fun k => proj2 (Hfair k)) terminate
    (Z.to_nat (Qceiling (ms / shortest ReadinessPoll))) (new_poll ReadinessPoll ms (now w)) w Hp) as (x & w' & E & _).
  { pose proof (turns_enough ReadinessPoll ms (shortest_pos _ Hp)) as H. cbn [deadline schedule new_poll]. lra. }
  change (S (Z.to_nat (Qceiling (ms / shortest ReadinessPoll)))) with (turns_within ReadinessPoll ms) in E. rewrite E.
  eapply sure_turn_loop; [apply sure_ready_turn|exact Hw|exact E].
Qed.

(** ** Waiting for a state *)

(** A turn that goes on has slept: half a second, and an instant more at most twice. *)
Lemma state_turn_slept wanted d w w' :
  state_turn env wanted d tt w = (inl (inr tt), w') -> now w + STATE_POLL_INTERVAL_MS <= now w'.
Proof.
  unfold state_turn, getMicrovm, bind, await, get. cbn [andb]. destruct (microvm_answer (env (used w))) as [i|e]; cbn; [|done].
  destruct (bool_decide (state i = wanted)); [done|]. destruct (bool_decide (state i ∈ TERMINAL_STATES)); [done|]. cbn.
  destruct (Qle_bool d (now w + took (env (used w)))) eqn:Ed; [done|]. intros [= <-]. cbn.
  pose proof (proj1 (Hfair (used w))). pose proof (proj1 (Hfair (S (used w)))).
  unfold STATE_POLL_INTERVAL_MS. lra.
Qed.

Lemma state_loop_ends wanted d k w :
  d - now w <= STATE_POLL_INTERVAL_MS * QN k -> exists r, loop (state_turn env wanted d) (S k) tt w = Some r.
Proof.
  revert w. induction k as [|k IH]; intros w Hk; cbn [loop]; pose proof (state_turn_slept wanted d w) as Hs;
    destruct (state_turn env wanted d tt w) as [[[a|[]]|e] w1] eqn:E; eauto.
  - exfalso. clear Hs. change (QN 0) with 0 in Hk. unfold state_turn, getMicrovm, bind, await, get in E. cbn [andb] in E.
    destruct (microvm_answer (env (used w))) as [i|e]; cbn in E; [|done].
    destruct (bool_decide (state i = wanted)); [done|]. destruct (bool_decide (state i ∈ TERMINAL_STATES)); [done|]. cbn in E.
    assert (Qle_bool d (now w + took (env (used w))) = true) as Ed by (apply Qle_bool_iff; pose proof (proj1 (Hfair (used w))); lra).
    rewrite Ed in E. done.
  - pose proof (Hs w1 eq_refl) as H. apply IH. rewrite QN_S in Hk. unfold STATE_POLL_INTERVAL_MS in *. lra.
Qed.

Lemma sure_state_turn wanted d u : sure (state_turn env wanted d u).
Proof. unfold state_turn. surely. Qed.

Lemma sure_waitForState wanted ms : sure (waitForState env wanted ms).
Proof.
  intros w Hw. unfold waitForState. apply sure_within; [apply sure_state_turn|done|]. unfold state_turns. apply state_loop_ends.
  pose proof (steps_cover STATE_POLL_INTERVAL_MS ms ltac:(done)) as H. rewrite QN_S. unfold STATE_POLL_INTERVAL_MS in *. lra.
Qed.

(** ** Requests *)

Context (L : nat) (Hlock : lock_released env L) (HL : (L < fuel)%nat).
Context (Hturns : (turns_within ReconnectPoll reconnectTimeoutMs <= fuel)%nat).

Lemma settled_ended {A} (r : A + failure) : settled r -> ended r.
Proof. by destruct r as [a|[]]. Qed.

Lemma sure_signalledUnary {A} (call : M A) signal translate :
  settles call -> (forall seen, leaves (keeps_grown generation since seen) call) ->
  sure (signalledUnary env fuel reconnectTimeoutMs requestTimeoutMs call signal translate).
Proof.
  intros Hc Hg. assert (leaves stays call) as Hs by by apply stays_of_grown.
  pose proof (stays_callUnary_with _ call stays_reopened Hs) as Hu. apply sure_of.
  - intros w Hw. apply settled_ended, wrapped_settled. destruct Hw. eapply callUnary_with_settled; [done..| |done|done|done|done].
    by eapply reopened_settled.
  - unfold signalledUnary, callUnary. apply leaves_bind; [exact _| |intros _; follow].
    intros w. unfold throwIfAborted. by destruct (aborted signal w).
Qed.

Context (network_of : Network.NetworkPolicyMessage -> moment -> Network.NetworkStateMessage)
  (configure_of : moment -> ConfigureResponse) (status_of : moment -> ConfigureStatusResponse).

(** A request whose answer is read. *)
Lemma sure_answered {A} (f : moment -> A) signal translate :
  sure (signalledUnary env fuel reconnectTimeoutMs requestTimeoutMs (let* m := request env in ret (f m)) signal translate).
Proof.
  apply sure_signalledUnary.
  - pose proof (settles_request env). settle.
  - intros seen. pose proof (grown_request env generation since Hcounted seen). apply leaves_bind; [exact _|done|by intros m w Hw].
Qed.

Lemma sure_configureStatus : sure (configureStatus env status_of fuel reconnectTimeoutMs requestTimeoutMs).
Proof. apply sure_answered. Qed.
Lemma sure_configure_call : sure (configure_call env configure_of fuel reconnectTimeoutMs requestTimeoutMs).
Proof. apply sure_answered. Qed.
#[local] Hint Resolve sure_configureStatus sure_configure_call sure_answered : sure.

Lemma sure_sendNetworkPolicy policy signal : sure (sendNetworkPolicy env network_of fuel reconnectTimeoutMs requestTimeoutMs policy signal).
Proof. unfold sendNetworkPolicy. surely. Qed.

Lemma sure_sendSetTimeout ms signal : sure (sendSetTimeout env fuel reconnectTimeoutMs requestTimeoutMs ms signal).
Proof.
  unfold sendSetTimeout. apply sure_bind; [|intros; surely].
  apply sure_signalledUnary; [apply settles_setTimeout|intros; by apply grown_setTimeout].
Qed.
#[local] Hint Resolve sure_sendNetworkPolicy sure_sendSetTimeout : sure.

(** ** Waiting for the sections *)

(** The wall clock does not go back, and moves on by [T] within [N] awaits. *)
Record clock_runs (T : Z) (N : nat) : Prop := {
  clock_span : (0 <= T)%Z;
  clock_up : forall k, (wallMs (env k) <= wallMs (env (S k)))%Z;
  clock_passes : forall k, (wallMs (env k) + T <= wallMs (env (k + N)%nat))%Z
}.

(** A section that is settled, or throws, when it is looked at for the last time, and is
    not waited for longer than [T]. *)
Definition settling (T : Z) (s : ConfigureSection) : Prop := settles_at_last s /\ (settleTimeoutMs s <= T)%Z.

Lemma clock_later T N j k : clock_runs T N -> (j <= k)%nat -> (wallMs (env j) <= wallMs (env k))%Z.
Proof. intros [_ Hu _] H. induction H as [|k H IH]; [lia|]. specialize (Hu k). lia. Qed.

Lemma configureStatus_later : leaves later (configureStatus env status_of fuel reconnectTimeoutMs requestTimeoutMs).
Proof. apply tame_configureStatus; [exact _|apply later_tame]. Qed.

Lemma settle_turn_next d remaining rest w w' :
  settle_turn env status_of fuel reconnectTimeoutMs requestTimeoutMs d remaining w = (inl (inr rest), w') ->
  rest ⊆ remaining /\ ((d <= wallMs (env (used w)))%Z -> Forall settles_at_last remaining -> rest = []) /\
  (rest = [] \/ (used w < used w')%nat).
Proof.
  unfold settle_turn. case_bool_decide; [done|]. unfold bind at 1, now_unix, bind at 1. pose proof (configureStatus_later w) as Hl.
  destruct (configureStatus _ _ _ _ _ w) as [[status|e] w1]; [|done]. cbn [snd] in Hl. unfold bind at 1.
  destruct (stillPending status remaining _) as [rest'|e] eqn:E; [|done]. cbn [of_sum ret].
  assert (forall w2, (inl (inr rest'), w2) = (inl (inr rest) : (unit + list ConfigureSection) + failure, w') -> rest' = rest /\ w2 = w') as Hinj
    by (by intros w2 [= -> ->]).
  unfold bind at 1. case_bool_decide as Hr; cbn [ret bind await andb].
  - intros [-> ->]%Hinj. split_and!; [by eapply stillPending_subset| |by left]. done.
  - unfold bind, await, ret. cbn [andb]. intros [-> <-]%Hinj. split_and!; [by eapply stillPending_subset| |right; cbn; unfold later in Hl; lia].
    intros Hd Hs. rewrite (proj2 (Z.leb_le _ _) Hd) in E. by eapply stillPending_final.
Qed.

Lemma settle_loop_ends T N d k remaining w :
  clock_runs T N -> Forall settles_at_last remaining -> (d <= wallMs (env (used w + k)%nat))%Z ->
  exists r, loop (settle_turn env status_of fuel reconnectTimeoutMs requestTimeoutMs d) (S (S k)) remaining w = Some r.
Proof.
  intros Hc. revert remaining w. induction k as [|k IH]; intros remaining w Hs Hd; cbn [loop];
    pose proof (settle_turn_next d remaining) as Ht;
    destruct (settle_turn _ _ _ _ _ d remaining w) as [[[a|rest]|e] w1] eqn:E; eauto; destruct (Ht rest w w1 E) as (Hsub & Hlast & Hor).
  - rewrite Nat.add_0_r in Hd. rewrite (Hlast Hd Hs). eauto.
  - destruct Hor as [->|Hu]; [eauto|]. apply IH; [rewrite Forall_forall in Hs |- *; intros s Hin; by apply Hs, Hsub|].
    etrans; [exact Hd|]. apply (clock_later T N); [done|lia].
Qed.

Lemma settle_timeout_within T pending : (0 <= T)%Z -> Forall (settling T) pending -> (settle_timeout pending <= T)%Z.
Proof.
  intros HT H. unfold settle_timeout. assert (forall a, (a <= T)%Z -> (foldl Z.max a (settleTimeoutMs <$> pending) <= T)%Z) as Hf.
  { induction H as [|s pending [_ Hs] H IH]; intros a Ha; [done|]. cbn. apply IH. lia. }
  by apply Hf.
Qed.

Lemma sure_settle_turn d remaining : sure (settle_turn env status_of fuel reconnectTimeoutMs requestTimeoutMs d remaining).
Proof. unfold settle_turn. surely. Qed.

Context (T : Z) (N : nat) (Hclock : clock_runs T N) (turns : nat) (HN : (N + 2 <= turns)%nat).

Lemma sure_waitSettled pending : Forall (settling T) pending ->
  sure (waitSettled env status_of fuel reconnectTimeoutMs requestTimeoutMs turns pending).
Proof.
  intros Hp w Hw. unfold waitSettled, bind, now_unix. apply sure_within; [apply sure_settle_turn|done|].
  pose proof (settle_timeout_within T pending (clock_span _ _ Hclock) Hp) as Ht.
  destruct (settle_loop_ends T N (wallMs (env (used w)) + settle_timeout pending) N pending w Hclock) as [r E].
  - eapply Forall_impl; [exact Hp|]. by intros s [H _].
  - pose proof (clock_passes _ _ Hclock (used w)). lia.
  - exists r. eapply loop_more; [exact E|lia].
Qed.

(** What an operation returns is known. *)
Lemma sure_bind_where {A B} (P : A -> Prop) (m : M A) (k : A -> M B) :
  sure m -> yields (fun a _ => P a) m -> (forall a, P a -> sure (k a)) -> sure (bind m k).
Proof.
  intros Hm Hy Hk w Hw. unfold bind. destruct (Hm w Hw) as [H1 H2]. specialize (Hy w). destruct (m w) as [[a|e] w1].
  - apply Hk; [by eapply Hy|done].
  - split; [|done]. cbn in *. intros [= ->]. by apply H1.
Qed.

Lemma yields_of_sum {A} (P : A -> Prop) (x : A + thrown) : (forall a, x = inl a -> P a) -> yields (fun a _ => P a) (of_sum x).
Proof. intros H w a w'. destruct x; [|done]. intros [= <- <-]. by apply H. Qed.

Lemma checkConfigureResponse_subset response sections pending :
  checkConfigureResponse response sections = inl pending -> pending ⊆ sections.
Proof.
  intros [_ H]%check_loop_spec s Hs. apply H in Hs as [Hs|(r & Hr & _)]; [by apply not_elem_of_nil in Hs|].
  unfold sectionsByResult in Hr. apply list_elem_of_omap in Hr as (r' & _ & E).
  destruct (by_name sections _) as [x|] eqn:B; [|done]. injection E as -> ->.
  unfold by_name in B. apply last_Some_elem_of, list_elem_of_filter in B. tauto.
Qed.

Lemma sure_configure_sections sections : Forall (settling T) sections ->
  sure (configure_sections env configure_of status_of fuel reconnectTimeoutMs requestTimeoutMs turns sections).
Proof.
  intros Hs. unfold configure_sections. assert (forall l, sure (fill_all env l)) as Hf by (intros l; induction l; cbn [fill_all]; surely).
  apply sure_bind; [apply Hf|intros _]. apply sure_bind; [surely|intros response].
  apply (sure_bind_where (Forall (settling T))); [surely| |apply sure_waitSettled].
  apply yields_of_sum. intros pending Hp%checkConfigureResponse_subset. rewrite Forall_forall in Hs |- *. intros s Hin. by apply Hs, Hp.
Qed.

(** The same of a section that is still to be built. *)
Definition planned_settling (p : PlannedSection) : Prop :=
  match p with Ready s => settling T s | Factory build => forall m s, build m = inl s -> settling T s end.

Lemma sure_resolveSections planned : sure (resolveSections env planned).
Proof. induction planned as [|[s|build] planned IH]; cbn [resolveSections]; surely. Qed.

Lemma resolveSections_settling planned : Forall planned_settling planned ->
  yields (fun sections _ => Forall (settling T) sections) (resolveSections env planned).
Proof.
  induction 1 as [|[s|build] planned Hs H IH]; cbn [resolveSections]; [intros w a w' [= <- <-]; constructor| |].
  - apply (yields_bind_post (fun l _ => Forall (settling T) l)); [done|]. intros l [w0 Hl] w a w' [= <- <-]. by constructor.
  - apply yields_bind. intros m. apply (yields_bind_post (fun s _ => settling T s)); [apply yields_of_sum; intros s; apply Hs|].
    intros s [w0 Hw0]. apply (yields_bind_post (fun l _ => Forall (settling T) l)); [done|]. intros l [w1 Hl] w a w' [= <- <-]. by constructor.
Qed.

Lemma sure_applyConfigureSections reason planned (terminate : bool) : Forall planned_settling planned ->
  sure (applyConfigureSections env configure_of status_of reason fuel reconnectTimeoutMs requestTimeoutMs turns planned terminate).
Proof.
  intros Hp. unfold applyConfigureSections, sendConfigureSections. case_bool_decide; [surely|]. apply sure_on_failure; [|intros; surely].
  apply sure_bind; [surely|intros w0]. apply sure_bind; [surely|intros features].
  apply (sure_bind_where (Forall (settling T))); [apply sure_resolveSections|by apply resolveSections_settling|].
  intros sections Hs. apply sure_configure_sections in Hs. surely.
Qed.

(** ** Before there is a handle

    [brisk n m]: wherever it starts, [m] ends, and when it returns at least [n] awaits are
    over.  Nothing is asked of what the agent answers. *)

Definition brisk {A} (n : nat) (m : M A) : Prop := forall w,
  ended (m w).1 /\ (used w <= used (m w).2)%nat /\ forall a, (m w).1 = inl a -> (used w + n <= used (m w).2)%nat.

Lemma brisk_pure {A} (r : A + failure) f : ended r -> (forall w, used (f w) = used w) -> brisk 0 (fun w => (r, f w)).
Proof. intros Hr Hf w. cbn. rewrite Hf, Nat.add_0_r. done. Qed.

Lemma brisk_ret {A} (a : A) : brisk 0 (ret a).
Proof. by apply (brisk_pure (inl a) (fun w => w)). Qed.
Lemma brisk_throw {A} n e : brisk n (throw e : M A).
Proof. by intros w. Qed.
Lemma brisk_of_sum {A} (x : A + thrown) : brisk 0 (of_sum x).
Proof. destruct x; [apply brisk_ret|apply brisk_throw]. Qed.
Lemma brisk_of_result {A} (r : result A) : brisk 0 (of_result r).
Proof. destruct r; [apply brisk_ret|apply brisk_throw]. Qed.
Lemma brisk_get : brisk 0 get.
Proof. intros w. cbn. rewrite Nat.add_0_r. done. Qed.
Lemma brisk_update g : brisk 0 (update g).
Proof. by apply (brisk_pure (inl tt) (fun w => _)). Qed.
Lemma brisk_throwIfAborted signal : brisk 0 (throwIfAborted signal).
Proof. intros w. unfold throwIfAborted. destruct (aborted signal w); [done|]. cbn. rewrite Nat.add_0_r. done. Qed.

Lemma brisk_await race a : brisk 1 (await env race a).
Proof.
  intros w. unfold await. destruct (race && signalled w); [done|]. destruct (race && aborts _); cbn; (split_and!; [done|lia|]); [done|].
  intros m _. lia.
Qed.

Lemma brisk_weaken {A} n k (m : M A) : brisk n m -> (k <= n)%nat -> brisk k m.
Proof. intros Hm Hk w. destruct (Hm w) as (H1 & H2 & H3). split_and!; [done..|]. intros a Ha. specialize (H3 a Ha). lia. Qed.

Lemma brisk_bind {A B} n k (m : M A) (f : A -> M B) : brisk n m -> (forall a, brisk k (f a)) -> brisk (n + k) (bind m f).
Proof.
  intros Hm Hf w. unfold bind. destruct (Hm w) as (H1 & H2 & H3). destruct (m w) as [[a|e] w1]; cbn in *.
  - destruct (Hf a w1) as (K1 & K2 & K3). specialize (H3 a eq_refl). split_and!; [done|lia|]. intros b Hb. specialize (K3 b Hb). lia.
  - split_and!; [|done|done]. intros [= ->]. by apply H1.
Qed.

Lemma brisk_then {A B} (m : M A) (f : A -> M B) : brisk 0 m -> (forall a, brisk 0 (f a)) -> brisk 0 (bind m f).
Proof. apply (brisk_bind 0 0). Qed.

Lemma brisk_catch {A} (m : M A) h : brisk 0 m -> (forall e, brisk 0 (h e)) -> brisk 0 (catch m h).
Proof.
  intros Hm Hh w. unfold catch. destruct (Hm w) as (H1 & H2 & H3). destruct (m w) as [[a|[e| |]] w1]; cbn in *; [by split_and!| |by split_and!..].
  destruct (Hh e w1) as (K1 & K2 & K3). split_and!; [done|lia|]. intros a Ha. specialize (K3 a Ha). lia.
Qed.

Lemma brisk_ask race what : brisk 1 (ask env race what).
Proof.
  intros w. unfold ask. generalize (failure_of (env (used w))). intros failure.
  assert (brisk (1 + 0) (let* m := await env race (Ask what failure) in match failure_of m with None => ret m | Some e => throw e end)) as H.
  { apply brisk_bind; [apply brisk_await|]. intros m. destruct (failure_of m); [apply brisk_throw|apply brisk_ret]. }
  apply H.
Qed.

Lemma brisk_step what : brisk 1 (step env what).
Proof. apply (brisk_bind 1 0); [apply brisk_ask|intros; apply brisk_ret]. Qed.

#[local] Create HintDb brisk.
#[local] Hint Resolve brisk_ret brisk_throw brisk_of_sum brisk_of_result brisk_get brisk_update brisk_throwIfAborted : brisk.
#[local] Hint Extern 1 (brisk 0 (await _ _ _)) => eapply brisk_weaken; [apply brisk_await|lia] : brisk.
#[local] Hint Extern 1 (brisk 0 (ask _ _ _)) => eapply brisk_weaken; [apply brisk_ask|lia] : brisk.
#[local] Hint Extern 1 (brisk 0 (step _ _)) => eapply brisk_weaken; [apply brisk_step|lia] : brisk.

Ltac briskly :=
  repeat first
  [ solve [auto with brisk]
  | apply brisk_then; [|intros]
  | apply brisk_catch; [|intros]
  | match goal with
    | |- brisk _ (if ?b then _ else _) => destruct b
    | |- brisk _ (match ?x with _ => _ end) => destruct x
    end ].

Lemma brisk_getMicrovm : brisk 0 (getMicrovm env).
Proof. unfold getMicrovm. briskly. Qed.
Lemma brisk_cleanup (terminate : bool) : brisk 0 (cleanup env terminate).
Proof. unfold cleanup, terminateQuietly, fallible. briskly. Qed.
Lemma brisk_writeIndexRecord policy keep : brisk 0 (writeIndexRecord env policy keep).
Proof. unfold writeIndexRecord, terminateQuietly, fallible. briskly. Qed.
#[local] Hint Resolve brisk_getMicrovm brisk_cleanup brisk_writeIndexRecord : brisk.

Lemma brisk_loop {A S} (turn : S -> M (A + S)) n s w x w' :
  (forall s, brisk 0 (turn s)) -> loop turn n s w = Some (x, w') -> ended x /\ (used w <= used w')%nat.
Proof.
  intros Ht. revert s w. induction n as [|n IH]; intros s w; cbn [loop]; [done|].
  destruct (Ht s w) as (H1 & H2 & _). destruct (turn s w) as [[[a|s']|e] w1]; cbn in *; [by intros [= <- <-]| |].
  - intros E. destruct (IH s' w1 E). split; [done|lia].
  - intros [= <- <-]. split; [|done]. intros [= ->]. by apply H1.
Qed.

Lemma brisk_waitForState wanted ms : brisk 0 (waitForState env wanted ms).
Proof.
  intros w. unfold waitForState, within.
  destruct (state_loop_ends wanted (now w + ms) (pred (state_turns ms)) w) as [[x w'] E].
  { unfold state_turns. pose proof (steps_cover STATE_POLL_INTERVAL_MS ms ltac:(done)) as H. cbn [pred]. rewrite QN_S.
    unfold STATE_POLL_INTERVAL_MS in *. lra. }
  change (S (pred (state_turns ms))) with (state_turns ms) in E. cbn [bind get] in *. rewrite E.
  assert (forall u, brisk 0 (state_turn env wanted (now w + ms) u)) as Ht by (intros u; unfold state_turn; briskly).
  destruct (brisk_loop _ _ _ _ _ _ Ht E). cbn. rewrite Nat.add_0_r. done.
Qed.

(** [begins n m]: started at most [n] awaits before the moment [since], [m] ends; and when
    it returns, it has made the handle of a sandbox whose agent counts since then. *)
Definition begins {A} (n : nat) (m : M A) : Prop := forall w, (since <= used w + n)%nat ->
  ended (m w).1 /\ forall a, (m w).1 = inl a -> tracked (m w).2.

(** The same, of an operation whose handle does not matter. *)
Definition ends {A} (n : nat) (m : M A) : Prop := forall w, (since <= used w + n)%nat -> ended (m w).1.

Lemma begins_after {A B} n k (m : M A) (f : A -> M B) : brisk n m -> (forall a, begins k (f a)) -> begins (n + k) (bind m f).
Proof.
  intros Hm Hf w Hw. unfold bind. destruct (Hm w) as (H1 & _ & H3). destruct (m w) as [[a|e] w1]; cbn in *.
  - apply Hf. specialize (H3 a eq_refl). lia.
  - split; [|done]. intros [= ->]. by apply H1.
Qed.

Lemma begins_then {A B} n (m : M A) (f : A -> M B) : begins n m -> (forall a, sure (f a)) -> begins n (bind m f).
Proof.
  intros Hm Hf w Hw. unfold bind. destruct (Hm w Hw) as (H1 & H2). destruct (m w) as [[a|e] w1]; cbn in *.
  - destruct (Hf a w1 (H2 a eq_refl)). done.
  - split; [|done]. intros [= ->]. by apply H1.
Qed.

Lemma begins_on_failure {A} n reason (m : M A) h : begins n m -> (forall e, brisk 0 (h e)) -> begins n (on_failure reason m h).
Proof.
  intros Hm Hh w Hw. unfold on_failure. destruct (Hm w Hw) as (H1 & H2).
  assert (forall e w1, ended ((h e ;; throw e : M A) w1).1 /\ forall a, ((h e ;; throw e : M A) w1).1 <> inl a) as Ht.
  { intros e w1. unfold bind. destruct (Hh e w1) as (K1 & _). destruct (h e w1) as [[[]|f] w2]; cbn in *; [done|].
    split; [|done]. intros [= ->]. by apply K1. }
  destruct (m w) as [[a|[e| |]] w1]; [done| | |done].
  - destruct (Ht e w1) as [K1 K2]. split; [done|]. intros a Ha. by apply K2 in Ha.
  - destruct (Ht reason w1) as [K1 K2]. split; [done|]. intros a Ha. by apply K2 in Ha.
Qed.

Lemma begins_weaken {A} n k (m : M A) : begins n m -> (k <= n)%nat -> begins k m.
Proof. intros Hm Hk w Hw. apply Hm. lia. Qed.

Lemma begins_core i : begins 0 (set_core (core_of i)).
Proof. intros w Hw. split; [done|]. intros [] _. split; cbn; [lia|apply Hpos]. Qed.

Lemma ends_after {A B} n k (m : M A) (f : A -> M B) : brisk n m -> (forall a, ends k (f a)) -> ends (n + k) (bind m f).
Proof.
  intros Hm Hf w Hw. unfold bind. destruct (Hm w) as (H1 & _ & H3). destruct (m w) as [[a|e] w1]; cbn in *.
  - apply Hf. specialize (H3 a eq_refl). lia.
  - intros [= ->]. by apply H1.
Qed.

Lemma ends_brisk {A} n k (m : M A) : brisk n m -> ends k m.
Proof. intros Hm w _. apply Hm. Qed.

Lemma ends_begins {A} n (m : M A) : begins n m -> ends n m.
Proof. intros Hm w Hw. by apply Hm. Qed.

Lemma ends_then {A B} n (m : M A) (f : A -> M B) : ends n m -> (forall a, brisk 0 (f a)) -> ends n (bind m f).
Proof.
  intros Hm Hf w Hw. unfold bind. specialize (Hm w Hw). destruct (m w) as [[a|e] w1]; cbn in *; [apply Hf|].
  intros [= ->]. by apply Hm.
Qed.

Lemma ends_weaken {A} n k (m : M A) : ends n m -> (k <= n)%nat -> ends k m.
Proof. intros Hm Hk w Hw. apply Hm. lia. Qed.

(** ** [create()] and the rest *)

Context (launched : moment -> text * SandboxInfo) (terminated_of : moment -> bool).
Context (restore_of : moment -> Persistence.RestoreRequest -> Q -> option Persistence.event * Persistence.stream + thrown).
Context (checkpoint_of : moment -> Persistence.CheckpointRequest -> Q -> option Persistence.event * Persistence.stream + thrown).
Context (isIP : text -> BinNums.N) (reason : thrown).

#[local] Hint Resolve sure_wait_ready sure_waitForState : sure.

Lemma begins_open i o : op_readiness o = ReadinessPoll -> begins 0 (open env reason i o).
Proof.
  intros Ho. unfold open, open_body. rewrite Ho. apply begins_on_failure; [|intros; apply brisk_cleanup].
  apply (begins_weaken (1 + 0)); [|lia]. apply begins_after; [apply brisk_ask|intros _].
  apply begins_then; [apply begins_core|intros _]. surely.
Qed.

Lemma sure_applyInitialNetwork health policy f :
  sure (applyInitialNetwork env network_of reason fuel reconnectTimeoutMs requestTimeoutMs health policy f).
Proof. unfold applyInitialNetwork, throwUnlessEnforced. surely. Qed.

Lemma sure_bindAndRestore persist ms (terminate : bool) id : sure (bindAndRestore env restore_of reason persist ms terminate id).
Proof. unfold bindAndRestore, restoreFiles. surely. Qed.
#[local] Hint Resolve sure_applyInitialNetwork sure_bindAndRestore : sure.

Definition options_settling (o : CreateOptions) : Prop := forall facts, Forall planned_settling (plannedSections (o_features o) facts).

Lemma begins_set_up o network f id i : options_settling o ->
  begins 0 (set_up env network_of configure_of status_of reason fuel reconnectTimeoutMs requestTimeoutMs turns o network f id i).
Proof.
  intros Ho. unfold set_up. apply (begins_after 0 0); [briskly|intros _]. apply begins_then; [by apply begins_open|intros health].
  apply sure_bind; [surely|intros _]. apply sure_bind; [by apply sure_applyConfigureSections|intros; surely].
Qed.

Abbreviation create_it := (create env launched network_of configure_of status_of restore_of isIP reason fuel reconnectTimeoutMs requestTimeoutMs turns).

Lemma begins_launch o network f : options_settling o ->
  begins 1 (launch env launched network_of configure_of status_of reason fuel reconnectTimeoutMs requestTimeoutMs turns o network f).
Proof.
  intros Ho. unfold launch. apply (begins_after 1 0); [apply brisk_ask|intros m]. destruct (launched m). by apply begins_set_up.
Qed.

Lemma brisk_prepare_launch o : brisk 8 (prepare_launch env reason o).
Proof.
  unfold prepare_launch. apply (brisk_bind 0 8); [briskly|intros _].
  do 6 (apply (brisk_bind 1); [apply brisk_step|intros _]). apply (brisk_bind 1 1); [apply brisk_ask|intros _].
  apply (brisk_bind 1 0); [apply brisk_step|intros _]. briskly.
Qed.

(** [create()] has been through fourteen awaits when the machine is launched. *)
Lemma ends_create o : options_settling o -> ends 14 (create_it o).
Proof.
  intros Ho. unfold create. apply (ends_after 0 14); [briskly|intros _].
  do 3 (apply (ends_after 1); [apply brisk_step|intros _]). apply (ends_after 0 11); [briskly|intros _].
  apply (ends_after 1 10); [apply brisk_step|intros _]. apply (ends_after 0 10); [unfold prepare_network; briskly|intros network].
  apply (ends_after 1 9); [apply brisk_step|intros _]. destruct (o_pool o).
  - apply (ends_brisk 0). unfold take_slot. briskly.
  - apply (ends_after 8 1); [apply brisk_prepare_launch|intros _]. apply ends_begins, begins_then; [by apply begins_launch|].
    intros l. surely.
Qed.

(** [reincarnate()] through one more. *)
Lemma ends_reincarnate relaunch bound timeoutMs : (forall o, relaunch = Some o -> options_settling o) ->
  ends 15 (reincarnate env launched network_of configure_of status_of restore_of checkpoint_of isIP reason fuel reconnectTimeoutMs requestTimeoutMs turns relaunch bound timeoutMs).
Proof.
  intros Ho. unfold reincarnate. destruct relaunch as [o|]; [|apply (ends_brisk 0); briskly]. destruct bound as [p|]; [|apply (ends_brisk 0); briskly].
  apply (ends_after 0 15); [briskly|intros ms].
  apply (ends_after 1 14); [unfold checkpointFiles; apply (brisk_bind 1 0); [apply brisk_await|intros; briskly]|intros _].
  apply ends_then; [apply ends_create; exact (Ho o eq_refl)|intros successor]. briskly.
Qed.

Lemma sure_extendAfterReadiness requested signal : sure (extendAfterReadiness env fuel reconnectTimeoutMs requestTimeoutMs requested signal).
Proof. unfold extendAfterReadiness. surely. Qed.
Lemma sure_recoverGateways owns : sure (recoverGateways env status_of fuel reconnectTimeoutMs requestTimeoutMs owns).
Proof. unfold recoverGateways. surely. Qed.
#[local] Hint Resolve sure_extendAfterReadiness sure_recoverGateways : sure.

Lemma ends_connect ms requested : ends 0 (connect env status_of reason fuel reconnectTimeoutMs requestTimeoutMs ms requested).
Proof.
  unfold connect. apply (ends_after 0 0); [unfold getMicrovm_racing; briskly|intros i]. do 2 (apply (ends_after 0 0); [briskly|intros _]).
  apply ends_begins, begins_then; [by apply begins_open|intros health]. surely.
Qed.

Lemma sure_reconnect_handle owns ms requested : sure (reconnect_handle env status_of reason fuel reconnectTimeoutMs requestTimeoutMs owns ms requested).
Proof. unfold reconnect_handle, getMicrovm_racing. surely. Qed.

Lemma sure_suspend : sure (suspendMicrovm env).
Proof. unfold suspendMicrovm. surely. Qed.
#[local] Hint Resolve sure_suspend : sure.

Lemma sure_pause wait ms : sure (pause env wait ms).
Proof. unfold pause, suspendMarkingPaused. surely. Qed.

Lemma sure_resume wait ms : sure (resume env fuel reconnectTimeoutMs requestTimeoutMs wait ms).
Proof. unfold resume. surely. Qed.

#[local] Hint Resolve brisk_waitForState : brisk.

Lemma brisk_suspend : brisk 0 (suspendMicrovm env).
Proof. unfold suspendMicrovm. briskly. Qed.
#[local] Hint Resolve brisk_suspend : brisk.

Lemma brisk_statics wait ms : brisk 0 (pause_static env wait ms) /\ brisk 0 (resume_static env wait ms).
Proof. unfold pause_static, resume_static. split; briskly. Qed.
End Requests.

(** What the theorem asks of the environment: no await takes less than no time; from the
    moment [since] on, whatever reads the generation of the agent reads one that only
    grows; whoever holds the lock of the reconnections lets go of it within [L] waits; and
    the wall clock does not go back, and moves on by [T] within [N] awaits. *)
Record orderly (since : nat) (env : nat -> moment) (generation : nat -> Z) (L : nat) (T : Z) (N : nat) : Prop := {
  ord_fair : fair env;
  ord_counted : counted_since since env generation;
  ord_answers : answers_counted_since since env generation;
  ord_positive : forall k, (0 <= generation k)%Z;
  ord_lock : lock_released env L;
  ord_clock : clock_runs env T N
}.

(** The sections that [mounts], [volumes] and the gateways become are settled in the end. *)
Lemma sections_settle T : (Mounts.VOLUME_SETTLE_TIMEOUT_MS <= T)%Z ->
  (forall mounts, settling T (Mounts.S3MountsSection mounts)) /\ (forall volumes, settling T (Mounts.EfsVolumesSection volumes)) /\
  forall name flag post, settling T (ImmediateSection name flag post).
Proof.
  change Mounts.VOLUME_SETTLE_TIMEOUT_MS with 65000%Z. intros HT. split_and!; intros; split.
  - apply Mounts.S3MountsSection_settles.
  - change (15000 <= T)%Z. lia.
  - apply Mounts.EfsVolumesSection_settles.
  - change (65000 <= T)%Z. lia.
  - by intros status.
  - change (0 <= T)%Z. lia.
Qed.

(** C8. The operations of a sandbox end.  In an [orderly] environment (awaits take no
    negative time, the wall clock goes on by [T] within any [N] awaits, the other calls let
    go of the reconnection lock within [L] waits, and from the moment [since] on the agent
    counts its generations upwards), with fuel for the polls of [reconnectTimeoutMs] and for
    the waits for the lock, and with sections that are settled or throw at their last
    reading and wait no longer than [T], whatever is answered and whatever fails, every
    operation returns, throws or is aborted: [create()], [connect()] and the static
    [pause()] and [resume()], from [since] on; those of a handle, if it knows no generation
    that its agent has not reached; and [reincarnate()], for which only the successor need
    be counted: [since] may be as late as its launch, fifteen awaits on, so that the
    generations of the predecessor say nothing. *)
Theorem operations_end since env generation L T N launched network_of configure_of status_of restore_of checkpoint_of isIP reason
    fuel reconnectTimeoutMs requestTimeoutMs turns (o : CreateOptions) bound persistMs owns wait ms requested (w : world) :
  orderly since env generation L T N -> (L < fuel)%nat -> (turns_within ReconnectPoll reconnectTimeoutMs <= fuel)%nat ->
  (N + 2 <= turns)%nat -> options_settling T o ->
  ((since <= used w)%nat ->
   ended (create env launched network_of configure_of status_of restore_of isIP reason fuel reconnectTimeoutMs requestTimeoutMs turns o w).1 /\
   ended (connect env status_of reason fuel reconnectTimeoutMs requestTimeoutMs ms requested w).1 /\
   ended (pause_static env wait ms w).1 /\ ended (resume_static env wait ms w).1) /\
  (tracked since generation w ->
   ended (reconnect_handle env status_of reason fuel reconnectTimeoutMs requestTimeoutMs owns ms requested w).1 /\
   ended (pause env wait ms w).1 /\
   ended (resume env fuel reconnectTimeoutMs requestTimeoutMs wait ms w).1) /\
  ((since <= used w + 15)%nat ->
   ended (reincarnate env launched network_of configure_of status_of restore_of checkpoint_of isIP reason fuel reconnectTimeoutMs
     requestTimeoutMs turns (Some o) bound persistMs w).1).
Proof.
  intros [Hf Hc Ha Hp Hl Hk] HL Ht HN Ho. split_and!.
  - intros Hw. split_and!.
    + eapply (ends_create since); eauto. lia.
    + eapply (ends_connect since); eauto. lia.
    + apply (proj1 (brisk_statics env fuel reconnectTimeoutMs Hf L HL Ht N turns HN wait ms)).
    + apply (proj2 (brisk_statics env fuel reconnectTimeoutMs Hf L HL Ht N turns HN wait ms)).
  - intros Hw. split_and!.
    + eapply (sure_reconnect_handle since); eauto.
    + eapply (sure_pause since); eauto.
    + eapply (sure_resume since); eauto.
  - intros Hw. eapply (ends_reincarnate since); eauto. by intros o' [= <-].
Qed.

(** *** A run: a bucket that is never mounted *)

Definition mounting_health : HealthResponse := {|
  agentReady := true; kernelReady := true; agentVersion := txt "0.6.0"; uptimeMs := 900; h_sandboxId := txt "mvm-1";
  h_resumeGeneration := 1; clockOffsetMs := 0; kernelStateLost := false; imdsBlocked := true;
  egressEnforcement := 2; h_lifecycle := None; h_cpuCount := 2; memoryTotalBytes := 2147483648; h_metadata := [];
  features := Some {| configure := true; s3Mounts := true; efsVolumes := false; lifecycleEvents := false; telemetryExport := false;
                      secretGateway := false; templateStart := false |} |}.

(** A second passes at every await, on the wall. *)
Definition ticking_env (k : nat) : moment := {|
  took := 40; wallMs := 1000 * Z.of_nat k; random := 1 # 2; health_answer := inl mounting_health; microvm_answer := inl running_info;
  failure_of := None; aborts := false; others := []; busy := false;
  call_answer := None; lifecycle_answer := inr NotAnObject; suspend_answer := inl false; reopening := None;
  call_empty := false |}.

Definition bucket_mount : Mounts.S3Mount := {|
  Mounts.bucket := txt "my-bucket"; Mounts.prefix := []; Mounts.readOnly := true; Mounts.allowOverwrite := false; Mounts.allowDelete := false |}.

Definition mount_options : CreateOptions := {|
  o_network := Network.NUndefined; o_allowInternetAccess := Network.NUndefined; o_persist := None; o_persistTimeoutMs := None;
  o_executionRoleArn := Some (txt "role"); o_index := None; o_pool := false; o_keepOnFailure := false; o_readyTimeoutMs := 30000;
  o_lifecycleRequested := false;
  o_features := {| configureSections := [Ready (Mounts.S3MountsSection [(txt "/mnt/data", bucket_mount)])]; telemetry := None; events := None |} |}.

Definition pending_mounts (_ : moment) : ConfigureResponse := [{| sr_section := 1; sr_code := PENDING; sr_errorClass := [] |}].

(** The predecessor has been resumed seven times; fifteen awaits later the agent that
    answers is that of its successor, which has been resumed once. *)
Definition reborn_env (k : nat) : moment :=
  if (15 <=? k)%nat then ticking_env k
  else {|
    took := 40; wallMs := 1000 * Z.of_nat k; random := 1 # 2; health_answer := inl (sample_health (txt "mvm-0") 7); microvm_answer := inl running_info;
    failure_of := None; aborts := false; others := [OtherHealth (sample_health (txt "mvm-0") 7)]; busy := false;
    call_answer := None; lifecycle_answer := inr NotAnObject; suspend_answer := inl false; reopening := None; call_empty := false |}.

Definition predecessor : world := {| now := 0; used := 0; signalled := false; trace := [];
  core := recordHealth new_core (sample_health (txt "mvm-0") 7) 0 |}.

Lemma reborn_orderly : orderly 15 reborn_env (fun _ => 1%Z) 0 65000 65.
Proof.
  assert (forall k, wallMs (reborn_env k) = (1000 * Z.of_nat k)%Z) as Hw by (intros k; unfold reborn_env; by destruct (15 <=? k)%nat).
  assert (forall k, (15 <= k)%nat -> reborn_env k = ticking_env k) as Hk by (intros k H; unfold reborn_env; by rewrite (proj2 (Nat.leb_le _ _) H)).
  split.
  - intros k. unfold reborn_env. destruct (15 <=? k)%nat; cbn; lra.
  - split; [intros k r H; rewrite (Hk k H); by intros ?%not_elem_of_nil|intros k; lia].
  - intros k r H. rewrite (Hk k H). by intros [= <-].
  - intros k. lia.
  - intros k. exists 0%nat. split; [done|]. unfold reborn_env. by destruct (15 <=? _)%nat.
  - split; [lia|intros k; rewrite !Hw; lia|intros k; rewrite !Hw; lia].
Qed.

Lemma ticking_orderly : orderly 0 ticking_env (fun _ => 1%Z) 0 65000 65.
Proof.
  split.
  - intros k. cbn. lra.
  - split; [intros k r _ H; by apply not_elem_of_nil in H|intros k; lia].
  - intros k r _ [= <-]. done.
  - intros k. lia.
  - intros k. by exists 0%nat.
  - split; [lia|intros k; cbn [wallMs ticking_env]; lia|intros k; cbn [wallMs ticking_env]; lia].
Qed.

#[local] Abbreviation mounted_run :=
  (create ticking_env up_launched unenforced pending_mounts no_status restore_lost (fun _ => 4%N) NotAnObject 200 60000 30000 70 mount_options new_world).
#[local] Abbreviation reborn_run :=
  (reincarnate reborn_env up_launched enforced pending_mounts no_status restore_lost home_kept (fun _ => 4%N) NotAnObject 200 60000 30000 70
    (Some mount_options) (Some home) None predecessor).

Lemma operations_end_witness :
  mounted_run.1 = inr (Throws (err_code MountError (txt "timeout"))) /\ ended mounted_run.1 /\
  reborn_run.1 = inr (Throws (err_code MountError (txt "timeout"))) /\ count is_launch reborn_run.2 = 1%nat /\ ended reborn_run.1.
Proof.
  assert (options_settling 65000 mount_options) as Ho.
  { intros facts. constructor; [apply (sections_settle 65000); done|constructor]. }
  split; [vm_compute; reflexivity|]. split; [|split; [vm_compute; reflexivity|split; [vm_compute; reflexivity|]]].
  - apply (operations_end 0 ticking_env (fun _ => 1%Z) 0 65000 65 up_launched unenforced pending_mounts no_status restore_lost
      (fun _ _ _ => inr NotAnObject) (fun _ => 4%N) NotAnObject 200 60000 30000 70 mount_options None None false true 30000 JUndefined new_world ticking_orderly);
      [lia|vm_compute; lia|lia|exact Ho|cbn; lia].
  - apply (operations_end 15 reborn_env (fun _ => 1%Z) 0 65000 65 up_launched enforced pending_mounts no_status restore_lost
      home_kept (fun _ => 4%N) NotAnObject 200 60000 30000 70 mount_options (Some home) None false true 30000 JUndefined predecessor reborn_orderly);
      [lia|vm_compute; lia|lia|exact Ho|cbn; lia].
Defined.

(** *** A run: a signal that is aborted while the gateways are recovered *)

Definition gateway_core : Core := {|
  info := running_info; closed := false; resumeGeneration := 1; paused := false; lifecycle := None;
  guestFacts := UNKNOWN_GUEST_FACTS; metadata := None;
  agentFeatures := Some {| configure := true; s3Mounts := false; efsVolumes := false; lifecycleEvents := false; telemetryExport := false;
                           secretGateway := true; templateStart := false |};
  notices := 0; trigger := None; deadlineFiring := false; deadlinePauseGeneration := None; reopens := 0 |}.

Definition canceled : thrown := ConnectError Canceled (txt "This operation was aborted") None.

Definition aborting_env (_ : nat) : moment := {|
  took := 40; wallMs := 0; random := 1 # 2; health_answer := inl mounting_health; microvm_answer := inl running_info;
  failure_of := None; aborts := true; others := []; busy := false;
  call_answer := Some canceled; lifecycle_answer := inr canceled; suspend_answer := inl false; reopening := None; call_empty := false |}.

(** [#configureStatus] does not tell [translatedUnary] of the signal: [connect()] is rejected
    with the cancellation of the request, and not with the reason of the caller as it is when
    the signal is aborted while the deadline is extended. *)
Example reason_lost_in_recovery :
  let w := {| now := 0; used := 0; signalled := false; core := gateway_core; trace := [] |} in
  (recoverGateways aborting_env no_status 200 60000 30000 false w).1 = inr (Throws (translateRpcError false canceled)) /\
  (sendSetTimeout aborting_env 200 60000 30000 1000 (Some NotAnObject) w).1 = inr (Throws NotAnObject).
Proof. vm_compute. done. Qed.
