(* ===== verification/SandboxNetwork.v ===== *)
(** * SandboxNetwork: [create()] fails closed

    A sandbox that was asked for with a restrictive network policy is handed out only when
    the agent said that it enforces the policy; otherwise its machine is terminated, even
    when the caller asked to keep what fails. *)

From stdpp Require Import base option list strings sets.
From Stdlib Require Import NArith ZArith QArith Lia.
From S2P Require Import Prelude Text Limits RpcErrors Readiness Reconnect Calls Configure Sandbox SandboxSafety.
From S2P Require Lifecycle Network Persistence.

Local Open Scope world_scope.

(** ** What a request returns *)

Lemma yields_throw {A} (P : A -> world -> Prop) e : yields P (throw e).
Proof. by intros w a w'. Qed.

Lemma yields_catch {A} (P : A -> world -> Prop) (m : M A) h : yields P m -> (forall e, yields P (h e)) -> yields P (catch m h).
Proof.
  intros Hm Hh w a w'. unfold catch. specialize (Hm w). destruct (m w) as [[b|[e| |]] w1]; [apply Hm|apply Hh|done..].
Qed.

Section Requests.
Context (env : nat -> moment) (fuel : nat) (reconnectTimeoutMs : Q) (requestTimeoutMs : Z).

(** However many times it is sent, with reconnections and reopenings on the way, a request
    returns what the last one that was sent returned. *)
Lemma signalledUnary_yields {A} (P : A -> world -> Prop) (call : M A) signal translate :
  yields P call -> yields P (signalledUnary env fuel reconnectTimeoutMs requestTimeoutMs call signal translate).
Proof.
  intros Hc. pose proof (callUnaryOnce_yields env P call true None Hc). pose proof (retried_yields env P call None Hc).
  unfold signalledUnary, callUnary, callUnary_with, after_cut. apply yields_bind; intros _. apply yields_catch.
  - apply yields_bind; intros w. apply yields_catch; [done|]. intros e. apply yields_bind; intros []; [done|].
    apply yields_bind; intros w1. destruct (_ && _); [|apply yields_throw]. apply yields_bind; intros o.
    destruct (resumed o); [done|apply yields_throw].
  - intros e. apply yields_bind; intros w. apply yields_throw.
Qed.

(** What is read from the answer of the last await, which did not fail. *)
Lemma answered_yields {A} (f : moment -> A) signal translate :
  yields (fun a w => exists k, used w = S k /\ call_answer (env k) = None /\ a = f (env k))
    (signalledUnary env fuel reconnectTimeoutMs requestTimeoutMs (let* m := request env in ret (f m)) signal translate).
Proof.
  apply signalledUnary_yields. intros w a w'. unfold request, bind, await, ret. cbn [andb].
  destruct (call_answer (env (used w))) eqn:E; [done|]. intros [= <- <-]. by exists (used w).
Qed.
End Requests.

(** ** The policy *)

Section Policy.
Context (env : nat -> moment) (network_of : Network.NetworkPolicyMessage -> moment -> Network.NetworkStateMessage).
Context (reason : thrown) (fuel : nat) (reconnectTimeoutMs : Q) (requestTimeoutMs : Z).

Definition in_force (e : Network.EgressEnforcement) : Prop := e = Network.GUEST_ROUTES \/ e = Network.GUEST_ROUTES_AND_PROXY.

(** The await [k] is an answer to the update of the policy that says it is enforced. *)
Definition confirmed (policy : Network.ResolvedNetworkPolicy) (k : nat) : Prop :=
  call_answer (env k) = None /\
  in_force (Network.enforcement (Network.stateFromProto (network_of (Network.policyToProto policy) (env k)))).

Abbreviation apply_it := (applyInitialNetwork env network_of reason fuel reconnectTimeoutMs requestTimeoutMs).

Lemma throwUnlessEnforced_returns e f w w' : throwUnlessEnforced e f w = (inl tt, w') -> in_force e /\ w' = w.
Proof.
  unfold throwUnlessEnforced. destruct (Network.egressGateError e f) as [[c f']|] eqn:E; [done|].
  intros [= <-]. split; [|done]. by apply Network.egressGateError_None in E.
Qed.

Lemma applyInitialNetwork_returns health policy f w w' : apply_it health policy f w = (inl tt, w') ->
  in_force (sh_egressEnforcement health) /\ exists k, used w' = S k /\ confirmed policy k.
Proof.
  unfold applyInitialNetwork, on_failure. set (m := bind _ _). destruct (m w) as [[[]|[e| |]] w1] eqn:E.
  - intros [= ->]. subst m. unfold bind at 1 in E. destruct (throwUnlessEnforced (sh_egressEnforcement health) f w) as [[[]|e] w2] eqn:E1; [|done].
    apply throwUnlessEnforced_returns in E1 as [H1 ->]. split; [done|]. unfold bind in E.
    destruct (sendNetworkPolicy env network_of fuel reconnectTimeoutMs requestTimeoutMs policy None w) as [[s|e] w2] eqn:E2; [|done].
    apply throwUnlessEnforced_returns in E as [H2 ->]. unfold sendNetworkPolicy, bind at 1 in E2.
    destruct (throwIfAborted None w) as [[[]|e] w3]; [|done]. unfold bind at 1 in E2.
    destruct (signalledUnary _ _ _ _ _ _ _ w3) as [[r|e] w4] eqn:E3; [|done]. injection E2 as <- <-.
    apply (answered_yields env fuel reconnectTimeoutMs requestTimeoutMs (network_of (Network.policyToProto policy))) in E3 as (k & Hu & Hk & ->).
    exists k. done.
  - unfold bind. by destruct (cleanup env true w1) as [[]].
  - unfold bind. by destruct (cleanup env true w1) as [[]].
  - done.
Qed.

(** Closing a handle is for ever. *)
Lemma closed_await race a w : closed (core w) = true -> closed (core (await env race a w).2) = true.
Proof.
  intros H. unfold await. destruct (race && signalled w); [done|].
  assert (closed (foldl (apply_other (wallMs (env (used w)))) (core w) (others (env (used w)))) = true) as Hc.
  { apply foldl_invariant; [done|]. intros c [r|i|g|] _ Hc; cbn; try done. unfold close. by destruct (closed c) eqn:E. }
  by destruct (race && aborts _).
Qed.

Lemma cleanup_closes w : closed (core (cleanup env true w).2) = true.
Proof.
  unfold cleanup, bind at 1, update. set (w1 := {| now := now w |}).
  assert (closed (core w1) = true) as H by (cbn; unfold close; by destruct (closed (core w)) eqn:E).
  apply (closed_await false Terminate) in H. unfold terminateQuietly, catch, fallible, bind.
  destruct (await env false Terminate w1) as [[m|[]] w2]; [destruct (failure_of m); exact H|exact H..].
Qed.

Lemma applyInitialNetwork_fails health policy f w e w' : apply_it health policy f w = (inr e, w') -> e <> OutOfFuel ->
  closed (core w') = true /\ (count is_terminate w < count is_terminate w')%nat.
Proof.
  unfold applyInitialNetwork, on_failure. set (m := bind _ _).
  assert (leaves (same is_terminate) m) as Hm.
  { pose proof (tame_sendNetworkPolicy env _ (terminate_tame env) fuel reconnectTimeoutMs requestTimeoutMs network_of policy None).
    pose proof (tame_throwUnlessEnforced env (same is_terminate)). subst m. follow. }
  specialize (Hm w). destruct (m w) as [[a|f1] w1]; [done|]. cbn [snd] in Hm. unfold same in Hm.
  destruct (cleanup_spec env true w1) as (H1 & H2 & _). pose proof (cleanup_closes w1) as H3.
  destruct f1 as [e1| |]; [..|by intros [= <- <-]]; unfold bind; destruct (cleanup env true w1) as [r w2]; cbn [fst snd] in *; subst r;
    intros [= <- <-] _; (split; [done|lia]).
Qed.
End Policy.

(** ** [create()] *)

Lemma bind_returns {A B} (m : M A) (k : A -> M B) w b w' :
  bind m k w = (inl b, w') -> exists a w1, m w = (inl a, w1) /\ k a w1 = (inl b, w').
Proof. unfold bind. destruct (m w) as [[a|e] w1]; [eauto|done]. Qed.

Section Create.
Context (env : nat -> moment) (launched : moment -> text * SandboxInfo).
Context (network_of : Network.NetworkPolicyMessage -> moment -> Network.NetworkStateMessage).
Context (configure_of : moment -> ConfigureResponse) (status_of : moment -> ConfigureStatusResponse).
Context (restore_of : moment -> Persistence.RestoreRequest -> Q -> option Persistence.event * Persistence.stream + thrown).
Context (isIP : text -> BinNums.N) (reason : thrown) (fuel : nat) (reconnectTimeoutMs : Q) (requestTimeoutMs : Z) (turns : nat).

Let HT : tame env later := later_tame env.
#[local] Hint Extern 0 (leaves later (await _ _ _)) => apply later_await : leaves.

Lemma later_cleanup terminate : leaves later (cleanup env terminate).
Proof. intros w. by apply cleanup_spec. Qed.

Lemma later_on_failure {A} (m : M A) (t : thrown -> bool) : leaves later m -> leaves later (on_failure reason m (fun e => cleanup env (t e))).
Proof. intros Hm. apply (tame_on_failure env); [exact _|done|intros; apply later_cleanup]. Qed.

Lemma later_ask race what : leaves later (ask env race what).
Proof.
  intros w. unfold ask. generalize (failure_of (env (used w))). intros x.
  assert (leaves later (let* m := await env race (Ask what x) in match failure_of m with None => ret m | Some e => throw e end)) as H by follow.
  apply H.
Qed.
#[local] Hint Resolve later_cleanup later_ask : leaves.

Lemma later_open i o : leaves later (open env reason i o).
Proof.
  apply (later_on_failure _ (fun e => terminateOnFailure o && negb (is_class SandboxNotReadyError e))). unfold open_body.
  pose proof (tame_wait_ready env later HT (terminateOnFailure o) (op_readiness o) (op_readyTimeoutMs o)) as Hw.
  assert (leaves later (wait_ready env (terminateOnFailure o) (op_readiness o) (op_readyTimeoutMs o))) by (apply Hw; intros _; unfold fallible; follow).
  assert (leaves later (set_core (core_of i))) by by apply (tame_update _ _ HT). follow.
Qed.

Lemma later_sections planned terminate :
  leaves later (applyConfigureSections env configure_of status_of reason fuel reconnectTimeoutMs requestTimeoutMs turns planned terminate).
Proof.
  unfold applyConfigureSections. case_bool_decide; [follow|]. apply (later_on_failure _ (fun _ => terminate)).
  apply (tame_sendConfigureSections env later HT).
Qed.

Lemma later_index policy keep : leaves later (writeIndexRecord env policy keep).
Proof. unfold writeIndexRecord, terminateQuietly, fallible. follow. Qed.

Lemma later_restore persist ms terminate id : leaves later (bindAndRestore env restore_of reason persist ms terminate id).
Proof.
  unfold bindAndRestore. pose proof (@tame_of_result later _). apply leaves_bind; [exact _|done|intros b].
  destruct (negb _); [follow|]. apply (later_on_failure _ (fun _ => terminate)). unfold restoreFiles. follow.
Qed.

Lemma later_policy health network f :
  leaves later (applyInitialNetwork env network_of reason fuel reconnectTimeoutMs requestTimeoutMs health network f).
Proof.
  apply (later_on_failure _ (fun _ => true)).
  pose proof (tame_sendNetworkPolicy env later HT fuel reconnectTimeoutMs requestTimeoutMs network_of network None).
  pose proof (tame_throwUnlessEnforced env later). follow.
Qed.

(** What was handed out is enforced: the agent said so before and after it was given the policy. *)
Definition enforced_by (network : Network.ResolvedNetworkPolicy) (h : SandboxHealth) (w w' : world) : Prop :=
  in_force (sh_egressEnforcement h) /\
  exists k, (used w <= k < used w')%nat /\ confirmed env network_of network k.

Lemma set_up_enforced o network f id i w id' h w' :
  Network.requiresEnforcement network = true ->
  set_up env network_of configure_of status_of reason fuel reconnectTimeoutMs requestTimeoutMs turns o network f id i w = (inl (id', h), w') ->
  in_force (sh_egressEnforcement h) /\ exists k, (used w <= S k <= used w')%nat /\ confirmed env network_of network k.
Proof.
  intros Hn. unfold set_up. rewrite Hn. intros ([] & w1 & E1 & E)%bind_returns.
  apply bind_returns in E as (health & w2 & E2 & E). apply bind_returns in E as ([] & w3 & E3 & E).
  apply bind_returns in E as ([] & w4 & E4 & E). injection E as _ -> ->.
  pose proof (later_policy h network f w2) as L3. rewrite E3 in L3.
  apply applyInitialNetwork_returns in E3 as (H1 & k & Hk & H2). split; [done|]. exists k. split; [|done].
  assert (later w w1) as L1.
  { destruct (o_index o) as [p|]; [|by injection E1 as <-]. pose proof (later_index p (o_keepOnFailure o) w) as H. by rewrite E1 in H. }
  pose proof (later_open i {| op_readyTimeoutMs := o_readyTimeoutMs o; terminateOnFailure := negb (o_keepOnFailure o); op_readiness := ReadinessPoll;
    requireLifecycle := o_lifecycleRequested o |} w1) as L2. rewrite E2 in L2.
  pose proof (later_sections (plannedSections (o_features o) {| f_sandboxId := id; guestMemoryBytes := sh_memoryTotalBytes h |}) (negb (o_keepOnFailure o)) w3) as L4.
  rewrite E4 in L4. cbn [snd] in *. unfold later in *.
  lia.
Qed.

Context (o : CreateOptions) (network : Network.ResolvedNetworkPolicy).
Context (Hnet : Network.resolveNetwork (o_network o) (o_allowInternetAccess o) = Ok network) (Hreq : Network.requiresEnforcement network = true).

Definition shows (m : M handle) : Prop := forall w id h b r w', m w = (inl (Launched id h b r), w') -> enforced_by network h w w'.

Lemma shows_after {A} (m : M A) k : leaves later m -> (forall a, shows (k a)) -> shows (bind m k).
Proof.
  intros Hm Hk w id h b r w' (a & w1 & E1 & E)%bind_returns. specialize (Hm w). rewrite E1 in Hm. unfold later in Hm. cbn in Hm.
  apply Hk in E as (H1 & k0 & Hk0 & H2). split; [done|]. exists k0. split; [lia|done].
Qed.

Lemma shows_launched f rest : (forall l, leaves later (rest l)) -> (forall l w id h b r w', rest l w = (inl (Launched id h b r), w') -> h = l.2) ->
  shows (let* l := launch env launched network_of configure_of status_of reason fuel reconnectTimeoutMs requestTimeoutMs turns o network f in rest l).
Proof.
  intros Hl Hh w id h b r w' (l & w1 & E1 & E)%bind_returns. unfold launch in E1. apply bind_returns in E1 as (m & w0 & E0 & E1).
  rewrite ask_now in E0. destruct (failure_of (env (used w))); [done|]. injection E0 as <- E0.
  assert (used w0 = S (used w)) as Hu by by rewrite <- E0. clear E0. destruct (launched (env (used w))) as [id0 i]. destruct l as [id1 h1].
  pose proof (Hl (id1, h1) w1) as L1. rewrite E in L1. apply Hh in E. cbn in E. subst h1.
  apply set_up_enforced in E1 as (H1 & k & Hk & H2); [|done]. split; [done|]. exists k. unfold later in L1. cbn in L1. split; [lia|done].
Qed.

Lemma later_step s : leaves later (step env s).
Proof. unfold step. follow. Qed.

Lemma shows_network k : shows (k network) -> shows (bind (prepare_network isIP o) k).
Proof.
  intros Hk w id h b r w' (n & w1 & E1 & E)%bind_returns. unfold prepare_network in E1. rewrite Hnet in E1.
  apply bind_returns in E1 as (n1 & w2 & [= <- <-] & E1). apply bind_returns in E1 as ([] & w3 & E2 & [= <- <-]).
  assert (w3 = w) as -> by (destruct (Network.validatePolicyShape isIP network); by injection E2). by eapply Hk.
Qed.

Lemma create_shows : shows (create env launched network_of configure_of status_of restore_of isIP reason fuel reconnectTimeoutMs requestTimeoutMs turns o).
Proof.
  pose proof later_step as Hs. pose proof (@tame_of_result later _) as Hr. pose proof (tame_throwIfAborted later) as Ha. unfold create.
  do 6 (apply shows_after; [auto|intros _]). apply shows_network. apply shows_after; [auto|intros _]. destruct (o_pool o).
  - intros w id h b r w'. unfold take_slot.
    repeat (intros (? & ? & _ & E)%bind_returns; revert E). by intros [=].
  - apply shows_after; [|intros _].
    + unfold prepare_launch. repeat (apply leaves_bind; [exact _|first [apply Hs|apply later_ask|apply Ha|destruct (o_index o); [apply Hs|by intros w]]|intros _]). apply Ha.
    + apply shows_launched; intros l.
      * destruct (o_persist o) as [p|]; [|follow]. apply leaves_bind; [exact _|apply Hr|intros ms].
        apply leaves_bind; [exact _|apply later_restore|intros res; follow].
      * intros w id h b r w'. destruct (o_persist o) as [p|]; [|by intros [= _ -> _ _ _]].
        intros (ms & w1 & _ & E)%bind_returns. apply bind_returns in E as (res & w2 & _ & E). by injection E.
Qed.
End Create.

(** C7. A restrictive network policy fails closed.  When [create()] hands out a sandbox that
    was asked for with one (a rule of [denyOut], a proxy, or no internet access), the agent
    said that egress is enforced when it became ready, and then, asked during the call to
    apply that policy, that it is enforced; and when the policy cannot be confirmed, for
    whatever reason, its handle is closed and the machine is asked to be terminated, also
    with [keepOnFailure]. *)
Theorem create_fails_closed env launched network_of configure_of status_of restore_of isIP reason
    fuel reconnectTimeoutMs requestTimeoutMs turns (o : CreateOptions) (network : Network.ResolvedNetworkPolicy) (w w' : world) :
  Network.resolveNetwork (o_network o) (o_allowInternetAccess o) = Ok network -> Network.requiresEnforcement network = true ->
  (forall id h b r,
    create env launched network_of configure_of status_of restore_of isIP reason fuel reconnectTimeoutMs requestTimeoutMs turns o w
      = (inl (Launched id h b r), w') ->
    enforced_by env network_of network h w w') /\
  (forall h f e,
    applyInitialNetwork env network_of reason fuel reconnectTimeoutMs requestTimeoutMs h network f w = (inr e, w') -> e <> OutOfFuel ->
    closed (core w') = true /\ (count is_terminate w < count is_terminate w')%nat).
Proof.
  intros Hn Hr. split.
  - intros id h b r E. by eapply create_shows.
  - intros h f e. apply applyInitialNetwork_fails.
Qed.

Definition no_internet : Network.ResolvedNetworkPolicy := {|
  Network.allowOut := []; Network.denyOut := [Network.ALL_TRAFFIC]; Network.egressProxy := None |}.

Lemma create_fails_closed_witness :
  let r := create up_env up_launched enforced (fun _ => []) no_status restore_lost (fun _ => 4%N) NotAnObject 200 60000 30000 10 plain_options new_world in
  match r with
  | (inl (Launched _ h _ _), w') => enforced_by up_env enforced no_internet h new_world w'
  | _ => False
  end.
Proof.
  destruct create_ok as [h E]. cbv zeta. destruct (create _ _ _ _ _ _ _ _ _ _ _ _ _ _) as [r w'] eqn:C. cbn [fst] in E. subst r.
  refine (proj1 (create_fails_closed _ _ _ _ _ _ _ _ _ _ _ _ _ no_internet _ _ _ _) _ _ _ _ C); vm_compute; reflexivity.
Defined.
